(* ===== verification/_CoqProject ===== *)
-Q . S2P
Prelude.v
UInt512.v
UInt512Div.v
UInt512Sqrt.v
UInt512Text.v
Montgomery.v
MathUtils.v
Bytes.v
Doubles.v
Soa.v
Serialization.v
Accumulator.v
Ring.v
Protocol.v
Transport.v
DataTap.v
WorkPool.v
Scheduler.v
Gf2.v
Batches.v
RowOps.v
MergeFilter.v
MergeStages.v
Preprocess.v
Truncation.v
Congruence.v
SqrtStep.v
ExpandedMatrix.v
Factorization.v
SqrtKernels.v
Refine.v
SqrtDevice.v
Residues.v
PrimeAlgorithms.v
CharPrimes.v
CharColumns.v
Candidates.v
WarpAppend.v
DeviceBatch.v
Dedup.v
Postprocess.v
Polynomials.v
PolyRoots.v
PolyWalk.v
RelationIo.v
Checkpoint.v
CpuLp.v
LpKernels.v
LpTable.v
LpProbe.v
LargePrime.v
Resume.v
Pooling.v
Coordinator.v
ClusterResume.v
