(* ===== verification/Prelude.v ===== *)
(** * The logic of the CUDA MPQS factoring program, modelled and verified

    The program factors an integer N with the self-initialising multiple-polynomial
    quadratic sieve. GPUs sieve; a coordinator collects the relations of one or more
    worker nodes over TCP, removes duplicates, builds a sparse GF(2) matrix, shrinks
    it, finds kernel vectors and takes square roots. This library models the host
    code of that program, and the kernels of its polynomials, its post-processing and its square
    roots, as functions and step relations on integers, lists, records and finite maps, and proves what makes it correct. It is a shallow embedding: one definition per operation of
    the source, with the source's names, guards and order of effects.

    ** Files, and the sources they model

    - [Prelude]: machine integers ([wrap w x] is [x mod 2^w]), little tactics, the
      hint databases, and the list and option lemmas used everywhere.
    - [UInt512], [UInt512Div], [UInt512Sqrt], [UInt512Text]: the 512-bit integers of
      [common/uint512.cuh], sixteen 32-bit limbs, limb by limb with their carries:
      ring operations, shifts, bit-serial division, modular arithmetic, Newton's
      square root, decimal text.
    - [Montgomery]: Montgomery arithmetic on 512-bit limbs, [common/montgomery.cuh].
      [MathUtils]: powers, inverses, gcd, Legendre symbol, roots, CRT and polynomial
      values, [common/math_utils.cuh].
    - [Bytes]: buffers, little-endian encodings, the bounds-checked reader of
      [cluster/serialization.cpp]. [Doubles]: IEEE binary64, executable.
    - [Soa]: relation batches, [common/mpqs_soa.h] and [relation_hash.h]; [repr b rs]
      says that the structure of arrays [b] holds the relations [rs], and the clients are
      specified with it.
    - [Serialization]: the message payloads of [cluster/serialization.cpp].
    - [Protocol], [Transport]: frames, CRC-32, [sendMsg]/[recvMsg] of
      [cluster/cluster_common.h], [comm_backend.h], [tcp_transport.cpp].
    - [Ring]: the lock-free SPSC ring [cluster/spsc_ring.h] as a step relation.
    - [DataTap]: [data_tap.h], [direct_channel.h], [async_network_data_tap.cpp]; the
      interface is a type class with two instances, and the sieve loop is its client.
    - [Accumulator]: queueing and deduplication, [cluster/accumulator.h].
    - [WorkPool], [Scheduler]: the distribution of polynomials, [work_pool.cpp] and
      [chunk_scheduler.cpp].
    - [Gf2]: sparse matrices, [xor_rows], compaction, the merge tree and its expansion
      ([matrix/merge_tree.cpp], parts of [merge_filter.cpp]).
    - [RowOps]: the invariant of every row operation on a matrix whose rows stand for
      sums of relations. [MergeFilter]: the three passes of [matrix/merge_filter.cpp],
      step by step; [MergeStages]: the passes as wholes; [Preprocess]: the CPU path of
      [matrix/preprocess.cpp]. [Truncation]: the rows that are kept before the solver,
      [matrix/matrix_truncation.cpp], and the step of the orchestrator that applies it.
    - [CharPrimes], [CharColumns]: character columns, [matrix/character_columns.cpp]: the Jacobi
      symbols of [gpu_char_cols.cuh], their capture in [postprocessing.cu], the choice of the
      auxiliary primes, the columns of relations and of reduced rows, and appending them.
    - [Batches], [Congruence]: totals over the relations of a batch, and congruence as a
      rewriting relation. [SqrtStep]: the host square-root step of [sqrt/sqrt_step.cu].
      [ExpandedMatrix]: [matrix/expanded_matrix.cpp] and the CSR validation.
      [Factorization]: the recombination in [orchestrator/orchestrator.cpp], and the
      composition from relations to factors.
    - [SqrtKernels], [Refine], [SqrtDevice]: the device path of the square root, kernel by
      kernel ([sqrt/sqrt_step.cu]); the pool of factors it refines; its buffers, the functions
      that launch it, and the orchestrator's stage that falls back on the host path. The
      orders of threads, blocks and atomic operations are arguments, over which
      the theorems quantify.
    - [Residues]: prime moduli, orders of residues, Fermat and Euler, the Legendre
      and Jacobi symbols by the Gauss lemma. [PrimeAlgorithms]: [sieve/prime_algorithms.cu]
      up to the factor base and the parameters, and [common/uint128_helper.cuh].
    - [Polynomials]: the state [factoringData], the coefficients [a] and [B] on the host
      ([recalc_a]) and on the device ([generatePolynomialsKernel]). [PolyRoots]: the data of the
      primes and the roots of the polynomials, direct and along Gray codes ([sieve/kernel.cu],
      [kernel.cuh], [graycode.cuh]). [PolyWalk]: the choice of the factors of [a], the
      hypercube walk with its slides, batches and jumps ([prime_algorithms.cu],
      [device_sieving_controller.cpp], [orchestrator.cpp]).
    - [Candidates]: from a hit of the sieve to a relation ([postprocessing/postprocessing.cu]):
      the accumulation of candidates, trial division over their hints, the classification.
      [WarpAppend]: the concurrent append to a batch on the device, with its warp scans and the
      dual counter that is reserved by compare-and-swap; every store is a step of its own.
      [DeviceBatch]: the batch on the device ([common/mpqs_soa.cu]). [Dedup]: the removal of
      duplicates there. [Postprocess]: the controller, with the path through the temporary
      batches and the batch-sieve path that writes to the persistent batch.
    - [LpKernels], [LpTable], [LpProbe], [LargePrime]: the large-prime variation on the device
      ([largeprimes/largeprime.cu]). [LpKernels]: directory words, routing keys, and the kernels that
      probe, combine and insert, as steps of their threads; [LpTable]: the buckets that directory and
      slabs stand for, and the insertion with its spin locks; [LpProbe]: what probing finds, with
      the entries left in place or cleared; [LargePrime]: the controller.
    - [RelationIo], [Checkpoint]: relation files and the checkpoint file with its atomic
      replacement ([common/relation_io.cpp], [common/sieve_checkpoint.cpp]); a directory with
      power losses is part of the model. [CpuLp]: the table of partial relations on the host
      ([cluster/cpu_lp.cu]). [Resume]: solo runs that continue from a checkpoint.
    - [Pooling], [Coordinator], [ClusterResume]: the coordinator in [orchestrator.cpp] - the
      relations it pools; the network loop with its trackers, messages, timeouts and the
      chunks of its own sieve; the cluster checkpoint and the restart from it.

    ** How the parts interact

    The factor base ([PrimeAlgorithms]) is the basis of the polynomials: [PolyWalk] chooses the
    factors of [a], [Polynomials] computes its coefficients and [PolyRoots] the places where
    a prime divides a value. The hits become relations on the device ([Candidates]), which warps append to
    batches ([WarpAppend], [DeviceBatch], [Postprocess]) in the layout of [Soa]. On a single device partial relations
    go to [LargePrime], which pairs them with the witnesses in its table and appends the products to the
    persistent batch. A worker's sieve loop hands batches ([Soa]) to its tap ([DataTap]), which moves them
    through the ring ([Ring]) to a network thread that serializes ([Serialization])
    and frames them ([Transport]). The coordinator's network loop ([Coordinator]) drains them into the
    [Accumulator] and the table of large primes ([Pooling], [CpuLp]) and gives each worker
    its next chunk, chosen by [WorkPool] and [Scheduler]. From time to time it writes what it
    has pooled with the cursor of the pool ([Checkpoint], [RelationIo]); a later run starts from
    there ([ClusterResume], [Resume]). When
    enough relations are there the matrix is built, [Preprocess]ed, truncated ([Truncation]) and given
    its character columns ([CharColumns]); kernel vectors of the
    small matrix are turned back into sets of relations by the merge tree ([Gf2]), packed
    over the concatenated batch with a correction for the large primes ([Factorization]),
    and given to the square-root step ([SqrtStep]), which multiplies in Montgomery form
    ([Montgomery]) and takes gcds ([MathUtils]).

    ** What the theorems show

    - Arithmetic: every 512-bit operation computes the integer operation it names, for
      all inputs its comment allows, and terminates within its loop bound.
    - Data path: encoding followed by decoding is the identity, on whole messages,
      through partial reads and writes and any split into frames; truncated or corrupted
      input is rejected and memory stays bounded.
    - Concurrency: over every interleaving of the modelled steps the ring is a FIFO
      without slot conflicts, and batches are delivered exactly once. Over every interleaving of
      warps, failed exchanges and single stores the append of the device writes whole relations, each once.
    - Post-processing: a relation that leaves the device satisfies its equation; each candidate's
      relation is stored, or dropped only at a cap or for want of room, as long as the factors fit their
      arrays (where they do not, the code counts relations that it does not store:
      [WarpAppend.ex_counted_not_stored]); deduplication on the device keeps
      one relation of each hash, and the hash is that of the host.
    - Bookkeeping: the pool partitions the polynomial range at all times, the saved
      cursor skips no work, ranges tile, deduplication keeps exactly one copy.
    - The cluster: in runs without late completions a chunk in flight has exactly one owner
      ([Coordinator.stale_completion_leaks] is what a late one does); in all runs no worker stays idle
      while there is work and a restart skips no polynomial; pooled relations are those of an abstract
      pool for every order of arrival, and a restart changes no result. A checkpoint
      that was reported as written survives crashes when a stream in a good state has delivered
      its bytes, which the writer does not make sure of ([Checkpoint.unflushed_run]).
    - Large primes: on the host the pairs that match are combined into valid relations, each once. On the
      device, over every interleaving of the threads of three kernels, a partial relation is combined with a
      witness of its large prime, repeats it, or becomes a witness; the spin locks of the buckets exclude
      each other and cannot deadlock; what is lost had no room. A product of more than 64 factors is cut to
      64 and need not hold; a batch of more relations than the pipeline buffers have entries is stored out
      of bounds, and has no run in the model ([LargePrime.pipeline_overflow]). Loads of a row may return old
      entries, stores of a relation may land any time before the kernel ends.
    - Linear algebra: preprocessing terminates, every kernel vector of the reduced
      matrix gives a non-empty set of relations that sums to zero, and every such set comes from
      a kernel vector. Truncation keeps exactly the target number of rows and every column, and
      its kernel vectors are kernel vectors of the whole; with character columns the relations a
      kernel vector selects have characters that cancel at every auxiliary prime.
    - Polynomials: the factor base has exactly the right primes with their square roots;
      the walk keeps a window of distinct indices, visits each choice of a hypercube once
      and can be entered at any position; host and device compute the same coefficients,
      [(a x + b)^2 - N] is a multiple of [a] for each of them, and the incremental updates of roots and
      positions agree with the direct computation, the positions as long as they are 32-bit [int]s
      and the prime is at most 2^30 ([PolyRoots.ex_reduced_start_overflow]).
    - Factorisation: the expanded matrix has exactly the parities of the relations, and for
      valid relations every kernel vector of the preprocessed matrix leads to a congruence of
      squares that passes the sanity check and yields two numbers with product N, proper
      factors whenever the roots differ by more than the sign, unless the root vanishes modulo N, when (0, 0) is returned; the device path computes the
      same roots, and the stage as a whole ends with a proper factorisation or with none when no
      solution splits N.

    ** Bounds and fuel

    Machine integers are integers with [wrap] at every operation that can overflow;
    hypotheses such as [nnz m < 2^32] say when a 32-bit index is wide enough. Loops
    with a data-dependent bound take fuel, and each has a theorem that a stated amount is
    enough: [weight2_loop] needs (rows + 1)(columns + 1), [expand] one step per visited node,
    [recvMsg] one per call of the socket, powers 512 for the bits of the exponent, Euclid's
    algorithm 1025 for 512-bit operands, the walk over auxiliary primes one step per candidate and one more. Division by a hinted prime takes 513, one more than
    the bits of the value. Library functions (clock, sockets, environment
    variables, [std::vector] capacity, the contents of fresh device memory, the algorithms of Thrust) are
    arguments of the operations that use them. The lanes of a warp are those the launch makes active: contiguous from lane 0.

    ** Not modelled

    The kernels that mark, collect and scan hits in shared and global memory (blocks, buckets,
    candidates), Block Wiedemann and the GPU matrix
    backends, whose behaviour is a matter of memory layout, atomics and capacity of one
    device; the capacity reserved before the factor base is filled (for F = 1 the code converts an infinite
    estimate to an integer); the orchestrator's command line, stages, logging and thread management; sockets and epoll; autotuning heuristics; tests and tools. Of the
    modelled kernels' controllers: allocation, streams and events, and the copies of counters in pinned memory. The component list
    of the manifest names each with its reason. Log output is left out throughout. *)

From Stdlib Require Import ZArith Lia.
From stdpp Require Import base gmap sets list strings.
#[local] Open Scope Z_scope.

(** ** Machine integers: a [w]-bit unsigned value is an integer taken mod [2^w]. *)

Definition wrap (w x : Z) : Z := x mod 2 ^ w.

Declare Scope word_scope.
Delimit Scope word_scope with word.
Notation "a +[ w ] b" := (wrap w (a + b)) (at level 50, left associativity) : word_scope.
Notation "a -[ w ] b" := (wrap w (a - b)) (at level 50, left associativity) : word_scope.
Notation "a *[ w ] b" := (wrap w (a * b)) (at level 40, left associativity) : word_scope.

Definition in_width (w x : Z) : Prop := 0 <= x < 2 ^ w.
#[global] Instance in_width_dec w x : Decision (in_width w x).
Proof. unfold in_width. apply _. Defined.

Create HintDb mpqs.

Lemma wrap_small w x : in_width w x -> wrap w x = x.
Proof. intros. by apply Z.mod_small. Qed.

Lemma wrap_range w x : 0 <= w -> in_width w (wrap w x).
Proof. intros. apply Z.mod_pos_bound. lia. Qed.

Lemma wrap_wrap w x : wrap w (wrap w x) = wrap w x.
Proof. unfold wrap. apply Zmod_mod. Qed.

Lemma wrap_0 w : wrap w 0 = 0.
Proof. apply Zmod_0_l. Qed.

#[export] Hint Resolve wrap_range : mpqs.
Create Rewrite HintDb mpqs_simpl.
#[export] Hint Rewrite wrap_wrap wrap_0 : mpqs_simpl.

(** ** Little-endian digit lists.

    The same positional notation serves the 8-bit bytes of the wire and file
    formats and the 32-bit limbs of the 512-bit integers; [w] is the digit
    width. *)

Fixpoint of_digits (w : Z) (l : list Z) : Z :=
  match l with
  | [] => 0
  | d :: l' => d + 2 ^ w * of_digits w l'
  end.

Fixpoint to_digits (w : Z) (n : nat) (z : Z) : list Z :=
  match n with
  | O => []
  | S n' => z mod 2 ^ w :: to_digits w n' (z / 2 ^ w)
  end.

(** Every digit of the list fits its width. *)
Definition digits_ok (w : Z) (l : list Z) : Prop := Forall (in_width w) l.

#[global] Instance digits_ok_dec w l : Decision (digits_ok w l).
Proof. unfold digits_ok. apply _. Defined.

Section digits.
Context (w : Z) (Hw : 0 <= w).

Lemma pow2_pos : 0 < 2 ^ w.
Proof using Hw. apply Z.pow_pos_nonneg; lia. Qed.

Lemma pow2_mul_pos (n : nat) : 0 < 2 ^ (w * Z.of_nat n).
Proof using Hw. apply Z.pow_pos_nonneg; lia. Qed.

Lemma pow2_mul_S (n : nat) : 2 ^ (w * Z.of_nat (S n)) = 2 ^ w * 2 ^ (w * Z.of_nat n).
Proof using Hw. rewrite <- Z.pow_add_r by lia. f_equal. lia. Qed.

Lemma length_to_digits n z : length (to_digits w n z) = n.
Proof using Type. revert z. induction n; simpl; auto. Qed.

Lemma to_digits_ok n z : digits_ok w (to_digits w n z).
Proof using Hw.
  revert z. induction n; intros; constructor; [by apply wrap_range | apply IHn].
Qed.

Lemma of_digits_nonneg l : digits_ok w l -> 0 <= of_digits w l.
Proof using Hw.
  pose proof pow2_pos.
  induction 1 as [|d l [Hd _] _ IH]; simpl; [lia | nia].
Qed.

Lemma of_digits_bound l : digits_ok w l -> 0 <= of_digits w l < 2 ^ (w * Z.of_nat (length l)).
Proof using Hw.
  pose proof pow2_pos as Hp.
  induction 1 as [|d l Hd _ IH]; [simpl; rewrite Z.mul_0_r; lia|].
  cbn [length of_digits]. rewrite pow2_mul_S. unfold in_width in Hd. nia.
Qed.

Lemma of_to_digits n z : of_digits w (to_digits w n z) = z mod 2 ^ (w * Z.of_nat n).
Proof using Hw.
  revert z. induction n as [|n IH]; intros z.
  - simpl. rewrite Z.mul_0_r, Z.mod_1_r. done.
  - cbn [to_digits of_digits]. rewrite IH, pow2_mul_S.
    rewrite Z.rem_mul_r; [lia | pose proof pow2_pos; lia | apply pow2_mul_pos].
Qed.

Lemma to_of_digits l : digits_ok w l -> to_digits w (length l) (of_digits w l) = l.
Proof using Hw.
  pose proof pow2_pos as Hp.
  induction 1 as [|d l Hd _ IH]; [done|].
  cbn [length to_digits of_digits]. unfold in_width in Hd.
  rewrite (Z.mul_comm (2 ^ w)), Z.mod_add, Z.div_add, Z.mod_small, Z.div_small, Z.add_0_l by lia.
  by rewrite IH.
Qed.

Lemma of_digits_app l1 l2 :
  of_digits w (l1 ++ l2) = of_digits w l1 + 2 ^ (w * Z.of_nat (length l1)) * of_digits w l2.
Proof using Hw.
  induction l1 as [|d l IH]; [simpl; rewrite Z.mul_0_r; lia|].
  cbn [app of_digits length]. rewrite IH, pow2_mul_S. lia.
Qed.

Lemma of_digits_inj l1 l2 :
  digits_ok w l1 -> digits_ok w l2 -> length l1 = length l2 ->
  of_digits w l1 = of_digits w l2 -> l1 = l2.
Proof using Hw.
  intros H1 H2 Hlen Heq.
  rewrite <- (to_of_digits l1), <- (to_of_digits l2), Hlen, Heq by done. done.
Qed.

Lemma of_digits_zeros n : of_digits w (replicate n 0) = 0.
Proof using Type. induction n as [|n IH]; [done|]. cbn. rewrite IH. lia. Qed.
End digits.

Lemma nth_zeros m k : nth k (replicate m 0) 0 = 0.
Proof. revert k. induction m as [|m IH]; intros [|k]; cbn; done. Qed.

(** ** Vectors: [std::vector] in index order, [push_back] is [++ [x]]. *)

Definition vec_pop_back {A} (l : list A) : option (list A * A) :=
  match rev l with
  | [] => None
  | x :: l' => Some (rev l', x)
  end.

Lemma vec_pop_back_Some {A} (l l' : list A) x :
  vec_pop_back l = Some (l', x) <-> l = l' ++ [x].
Proof.
  unfold vec_pop_back. split.
  - destruct (rev l) as [|y r] eqn:E; [done|]. intros [= <- <-].
    apply (f_equal (@rev A)) in E. rewrite rev_involutive in E. done.
  - intros ->. rewrite rev_app_distr. simpl. by rewrite rev_involutive.
Qed.

Lemma vec_pop_back_None {A} (l : list A) : vec_pop_back l = None <-> l = [].
Proof.
  unfold vec_pop_back. split; [|by intros ->].
  destruct (rev l) as [|y r] eqn:E; [|done]. intros _.
  apply (f_equal (@rev A)) in E. by rewrite rev_involutive in E.
Qed.

(** [erase(find_if(...))]: remove the first element that satisfies [P]. *)
Fixpoint erase_first {A} (P : A -> bool) (l : list A) : list A :=
  match l with
  | [] => []
  | x :: l' => if P x then l' else x :: erase_first P l'
  end.

Lemma erase_first_none {A} (P : A -> bool) l : List.find P l = None -> erase_first P l = l.
Proof.
  induction l as [|x l IH]; simpl; [done|]. destruct (P x); [done|]. intros H. by rewrite IH.
Qed.

Lemma erase_first_split {A} (P : A -> bool) l x :
  List.find P l = Some x ->
  exists l1 l2, l = l1 ++ x :: l2 /\ erase_first P l = l1 ++ l2 /\ P x = true /\ List.find P l1 = None.
Proof.
  induction l as [|y l IH]; simpl; [done|].
  destruct (P y) eqn:E.
  - intros [= ->]. by exists [], l.
  - intros (l1 & l2 & -> & -> & ? & ?)%IH. exists (y :: l1), l2. simpl. by rewrite E.
Qed.

(** Sums over a list. *)
Definition zsum (l : list Z) : Z := foldr Z.add 0 l.

Lemma zsum_app l1 l2 : zsum (l1 ++ l2) = zsum l1 + zsum l2.
Proof. unfold zsum. induction l1; simpl; lia. Qed.

Lemma zsum_cons x l : zsum (x :: l) = x + zsum l.
Proof. done. Qed.

Lemma zsum_nonneg l : Forall (fun x => 0 <= x) l -> 0 <= zsum l.
Proof. induction 1; simpl; lia. Qed.

Lemma zsum_perm l1 l2 : l1 ≡ₚ l2 -> zsum l1 = zsum l2.
Proof. induction 1; rewrite ?zsum_cons; lia. Qed.

#[export] Hint Rewrite zsum_app zsum_cons : mpqs_simpl.

(** ** Bit operations as arithmetic *)

(** [(hi << n) | lo] concatenates when [lo] has at most [n] bits. *)
Lemma lor_shiftl_add hi lo n :
  0 <= n -> in_width n lo -> Z.lor (Z.shiftl hi n) lo = hi * 2 ^ n + lo.
Proof.
  intros Hn Hlo. pose proof (Z.add_lor_land (Z.shiftl hi n) lo) as E.
  assert (Z.land (Z.shiftl hi n) lo = 0) as H0.
  { apply Z.bits_inj'. intros i Hi. rewrite Z.land_spec, Z.bits_0.
    destruct (Z.ltb_spec i n).
    - rewrite Z.shiftl_spec_low by done. done.
    - rewrite <- (Z.mod_small lo (2 ^ n)), Z.mod_pow2_bits_high by (unfold in_width in *; lia).
      apply andb_false_r. }
  rewrite Z.shiftl_mul_pow2 in * by done. lia.
Qed.

Lemma lor_shiftl_add_l hi lo n :
  0 <= n -> in_width n lo -> Z.lor lo (Z.shiftl hi n) = lo + hi * 2 ^ n.
Proof. intros. rewrite Z.lor_comm, lor_shiftl_add by done. lia. Qed.

Lemma shiftr_in_width w x n : 0 <= n <= w -> in_width w x -> in_width (w - n) (Z.shiftr x n).
Proof.
  intros Hn [H0 H1]. rewrite Z.shiftr_div_pow2 by lia. split.
  - apply Z.div_pos; [lia | apply Z.pow_pos_nonneg; lia].
  - apply Z.div_lt_upper_bound; [apply Z.pow_pos_nonneg; lia|].
    rewrite <- Z.pow_add_r by lia. by replace (n + (w - n)) with w by lia.
Qed.

(** Splitting a value into its low [n] bits and the rest. *)
Lemma wrap_shiftr_split n x : 0 <= n -> x = wrap n x + 2 ^ n * Z.shiftr x n.
Proof.
  intros. rewrite Z.shiftr_div_pow2 by done. unfold wrap.
  pose proof (Z.div_mod x (2 ^ n)) as E. pose proof (Z.pow_pos_nonneg 2 n). lia.
Qed.

(** Reduction to equalities modulo a power of two. *)
Lemma wrap_eq_intro w x y : 0 <= w -> in_width w x -> (exists k, x = y + k * 2 ^ w) -> x = wrap w y.
Proof.
  intros Hw Hx [k ->]. unfold wrap. rewrite <- (Z.mod_add y k) by (pose proof (Z.pow_pos_nonneg 2 w); lia).
  symmetry. by apply Z.mod_small.
Qed.

(** Bitwise operations stay inside a width. *)
Lemma in_width_log2 w x : 0 < w -> 0 <= x -> Z.log2 x < w -> in_width w x.
Proof.
  intros Hw Hx Hl. split; [done|]. destruct (Z.eq_dec x 0) as [->|]; [apply pow2_pos; lia|].
  apply Z.log2_lt_pow2; lia.
Qed.

Lemma log2_in_width w x : 0 < w -> in_width w x -> Z.log2 x < w.
Proof.
  intros Hw [H0 H1]. destruct (Z.eq_dec x 0) as [->|]; [done|]. apply Z.log2_lt_pow2; lia.
Qed.

Lemma lxor_in_width w x y : 0 < w -> in_width w x -> in_width w y -> in_width w (Z.lxor x y).
Proof.
  intros Hw Hx Hy. pose proof (log2_in_width w x Hw Hx). pose proof (log2_in_width w y Hw Hy).
  destruct Hx as [Hx _], Hy as [Hy _].
  apply in_width_log2; [done | by apply Z.lxor_nonneg; split |].
  pose proof (Z.log2_lxor x y Hx Hy). lia.
Qed.

Lemma lor_in_width w x y : 0 < w -> in_width w x -> in_width w y -> in_width w (Z.lor x y).
Proof.
  intros Hw Hx Hy. pose proof (log2_in_width w x Hw Hx). pose proof (log2_in_width w y Hw Hy).
  destruct Hx as [Hx _], Hy as [Hy _].
  apply in_width_log2; [done | by apply Z.lor_nonneg |].
  rewrite Z.log2_lor by done. lia.
Qed.

Lemma foldl_lxor_in_width w l e :
  0 < w -> in_width w e -> Forall (in_width w) l -> in_width w (foldl Z.lxor e l).
Proof.
  intros Hw He Hl. revert e He. induction Hl as [|x l Hx _ IH]; intros e He; simpl; [done|].
  apply IH. by apply lxor_in_width.
Qed.

(** An XOR fold does not depend on the order. *)
Lemma foldl_lxor_perm l1 l2 e : l1 ≡ₚ l2 -> foldl Z.lxor e l1 = foldl Z.lxor e l2.
Proof.
  intros Hp. revert e. induction Hp as [| |x y l|? ? ? _ IH1 _ IH2]; intros e; simpl; [done|done| |].
  - by rewrite !Z.lxor_assoc, (Z.lxor_comm x y).
  - by rewrite IH1.
Qed.
