(* ===== verification/UInt512.v ===== *)
(** The 512-bit unsigned integers of [src/src/common/uint512.cuh]: sixteen 32-bit
    limbs, least significant first, every operation limb by limb as the header
    writes it, and the value each computes. *)
From Stdlib Require Import ZArith Lia.
From stdpp Require Import base gmap sets list.
From S2P Require Import Prelude.
#[local] Open Scope Z_scope.

Record uint512 := mkU512 { limbs : list Z }.

#[global] Instance uint512_eq_dec : EqDecision uint512.
Proof. solve_decision. Defined.

(** Type invariant and value of the limb array. *)
Definition u512_ok (x : uint512) : Prop := length (limbs x) = 16%nat /\ digits_ok 32 (limbs x).
Definition u512_val (x : uint512) : Z := of_digits 32 (limbs x).
Definition u512_of_Z (z : Z) : uint512 := mkU512 (to_digits 32 16 z).

(** A reduced operand of the modular operations. *)
Definition u512_reduced (N x : uint512) : Prop := u512_ok x /\ u512_val x < u512_val N.

#[global] Instance u512_ok_dec x : Decision (u512_ok x).
Proof. unfold u512_ok. apply _. Defined.

(** ** Constructors *)

Definition u512_zero : uint512 := mkU512 (replicate 16 0).
Definition u512_of_u32 (x : Z) : uint512 := mkU512 (x :: replicate 15 0).
Definition u512_of_u64 (x : Z) : uint512 :=
  mkU512 (wrap 32 x :: wrap 32 (Z.shiftr x 32) :: replicate 14 0).
Definition u512_of_u128 (x : Z) : uint512 :=
  mkU512 (wrap 32 x :: wrap 32 (Z.shiftr x 32) :: wrap 32 (Z.shiftr x 64)
          :: wrap 32 (Z.shiftr x 96) :: replicate 12 0).
Definition max_value : uint512 := mkU512 (replicate 16 (2 ^ 32 - 1)).

(** ** Basic arithmetic *)

(** [for i: res = limbs[i] + other.limbs[i] + carry; ...] on [uint64_t]. *)
Fixpoint add_loop (a b : list Z) (carry : Z) : list Z * Z :=
  match a, b with
  | x :: a', y :: b' =>
      let res := wrap 64 (x + y + carry) in
      let '(l, c) := add_loop a' b' (Z.shiftr res 32) in
      (wrap 32 res :: l, c)
  | _, _ => ([], carry)
  end.

Definition add (x y : uint512) : uint512 := mkU512 (add_loop (limbs x) (limbs y) 0).1.

(** The carry loop of [add_uint32] stops as soon as the carry is 0. *)
Fixpoint carry_loop (l : list Z) (carry : Z) : list Z :=
  match l with
  | [] => []
  | x :: l' =>
      if carry =? 0 then x :: l'
      else let res := wrap 64 (x + carry) in
           wrap 32 res :: carry_loop l' (Z.shiftr res 32)
  end.

Definition add_uint32 (x : uint512) (v : Z) : uint512 :=
  match limbs x with
  | [] => x
  | l0 :: l =>
      let res := wrap 64 (l0 + v) in
      mkU512 (wrap 32 res :: carry_loop l (Z.shiftr res 32))
  end.

Fixpoint sub_loop (a b : list Z) (borrow : Z) : list Z * Z :=
  match a, b with
  | x :: a', y :: b' =>
      let diff := wrap 32 (x - y - borrow) in
      let borrow' := if (x <? y) || (negb (borrow =? 0) && (x =? y)) then 1 else 0 in
      let '(l, c) := sub_loop a' b' borrow' in
      (diff :: l, c)
  | _, _ => ([], borrow)
  end.

Definition sub (x y : uint512) : uint512 := mkU512 (sub_loop (limbs x) (limbs y) 0).1.

(** One row of the schoolbook product: [res[i+j] += a_i * b[j] + carry] over the
    part of [res] from index [i] on. When [b] ends first the carry is added to
    the next limb ([p[i+16] += carry] in [mul_mod]); when [res] ends first it is
    dropped ([mult] keeps 512 bits). *)
Fixpoint mul_row (a_i : Z) (b res : list Z) (carry : Z) : list Z :=
  match b, res with
  | y :: b', r :: res' =>
      let prod := wrap 64 (a_i * y + r + carry) in
      wrap 32 prod :: mul_row a_i b' res' (Z.shiftr prod 32)
  | [], r :: res' => wrap 32 (r + wrap 32 carry) :: res'
  | _, [] => []
  end.

(** The outer loop, [res] being the suffix from the current limb on. *)
Fixpoint mul_rows (a b res : list Z) : list Z :=
  match a with
  | [] => res
  | a_i :: a' =>
      match (if a_i =? 0 then res else mul_row a_i b res 0) with
      | [] => []
      | r :: res' => r :: mul_rows a' b res'
      end
  end.

Definition mult (x y : uint512) : uint512 :=
  mkU512 (mul_rows (limbs x) (limbs y) (replicate 16 0)).

(** Multiplication by a scalar; [W] is the width of the accumulator. *)
Fixpoint scale_loop (W v : Z) (l : list Z) (carry : Z) : list Z * Z :=
  match l with
  | [] => ([], carry)
  | x :: l' =>
      let prod := wrap W (x * v + carry) in
      let '(l2, c) := scale_loop W v l' (wrap 64 (Z.shiftr prod 32)) in
      (wrap 32 prod :: l2, c)
  end.

Definition mult_uint32 (x : uint512) (v : Z) : uint512 :=
  if v =? 0 then u512_of_u32 0
  else if v =? 1 then x
  else mkU512 (scale_loop 64 v (limbs x) 0).1.

(** Returns the product and the carry out of 512 bits. *)
Definition mul_uint64_inplace (x : uint512) (v : Z) : uint512 * Z :=
  let '(l, c) := scale_loop 128 v (limbs x) 0 in (mkU512 l, c).

(** Division by a word, from the top limb down; [W] is the width of [cur]. *)
Fixpoint div_word_loop (W d : Z) (l : list Z) : list Z * Z :=
  match l with
  | [] => ([], 0)
  | x :: l' =>
      let '(q, rem) := div_word_loop W d l' in
      let cur := Z.lor (wrap W (Z.shiftl rem 32)) x in
      (wrap 32 (cur / d) :: q, cur mod d)
  end.

Definition div_uint32_const (x : uint512) (divisor : Z) : uint512 :=
  if divisor =? 0 then u512_zero else mkU512 (div_word_loop 64 divisor (limbs x)).1.

Definition div_uint32_inplace (x : uint512) (divisor : Z) : uint512 * Z :=
  if divisor =? 0 then (x, 0)
  else let '(q, rem) := div_word_loop 64 divisor (limbs x) in (mkU512 q, wrap 32 rem).

Definition div_uint64_inplace (x : uint512) (divisor : Z) : uint512 * Z :=
  if divisor =? 0 then (x, 0)
  else let '(q, rem) := div_word_loop 128 divisor (limbs x) in (mkU512 q, wrap 64 rem).

Fixpoint mod_word_loop (W d : Z) (l : list Z) : Z :=
  match l with
  | [] => 0
  | x :: l' => Z.lor (wrap W (Z.shiftl (mod_word_loop W d l') 32)) x mod d
  end.

Definition mod_uint32 (x : uint512) (divisor : Z) : Z :=
  if divisor =? 0 then 0 else wrap 32 (mod_word_loop 64 divisor (limbs x)).

Definition mod_uint64 (x : uint512) (d : Z) : Z :=
  if d =? 0 then 0 else wrap 64 (mod_word_loop 128 d (limbs x)).

(** ** Comparison and bit scans *)

Definition is_zero (x : uint512) : bool := forallb (fun l => l =? 0) (limbs x).

Definition is_one (x : uint512) : bool :=
  match limbs x with
  | l0 :: l => (l0 =? 1) && forallb (fun l => l =? 0) l
  | [] => false
  end.

Fixpoint eq_limbs (a b : list Z) : bool :=
  match a, b with
  | x :: a', y :: b' => (x =? y) && eq_limbs a' b'
  | _, _ => true
  end.

Definition u512_eqb (x y : uint512) : bool := eq_limbs (limbs x) (limbs y).

(** The comparison loops run from the top limb down and decide at the first
    difference. *)
Fixpoint cmp_limbs (a b : list Z) : comparison :=
  match a, b with
  | x :: a', y :: b' =>
      match cmp_limbs a' b' with Eq => x ?= y | c => c end
  | _, _ => Eq
  end.

Definition u512_ltb (x y : uint512) : bool :=
  match cmp_limbs (limbs x) (limbs y) with Lt => true | _ => false end.
Definition u512_gtb (x y : uint512) : bool := u512_ltb y x.
Definition u512_leb (x y : uint512) : bool := negb (u512_gtb x y).
Definition u512_geb (x y : uint512) : bool := negb (u512_ltb x y).

(** [clz32]/[ctz32] on a 32-bit word. *)
Definition clz32 (x : Z) : Z := if x =? 0 then 32 else 31 - Z.log2 x.
Fixpoint pos_ctz (p : positive) : Z :=
  match p with xO q => 1 + pos_ctz q | _ => 0 end.
Definition ctz32 (x : Z) : Z := match x with Zpos p => pos_ctz p | _ => 32 end.

(** [msb]: scan from the top limb; 0 for the zero value too. *)
Fixpoint msb_loop (i : Z) (l : list Z) : option Z :=
  match l with
  | [] => None
  | x :: l' =>
      match msb_loop (i + 1) l' with
      | Some r => Some r
      | None => if x =? 0 then None else Some (31 - clz32 x + i * 32)
      end
  end.

Definition msb (x : uint512) : Z := default 0 (msb_loop 0 (limbs x)).

Fixpoint ctz_loop (i : Z) (l : list Z) : Z :=
  match l with
  | [] => 512
  | x :: l' => if x =? 0 then ctz_loop (i + 1) l' else ctz32 x + i * 32
  end.

Definition countr_zero (x : uint512) : Z := ctz_loop 0 (limbs x).

Definition msb_is_set (x : uint512) : bool :=
  negb (Z.land (nth 15 (limbs x) 0) (2 ^ 31) =? 0).

(** ** Division, modulo and modular arithmetic *)

(** The shift of the remainder by one bit, limb by limb; returns the bit shifted
    out of position 511 ([overflow_bit]). *)
Fixpoint shl1_loop (l : list Z) (carry : Z) : list Z * Z :=
  match l with
  | [] => ([], carry)
  | v :: l' =>
      let '(r, c) := shl1_loop l' (Z.shiftr v 31) in
      (Z.lor (wrap 32 (Z.shiftl v 1)) carry :: r, c)
  end.

(** [(limbs[i / 32] >> (i % 32)) & 1]. *)
Definition bit_at (l : list Z) (i : Z) : Z :=
  Z.land (Z.shiftr (nth (Z.to_nat (i / 32)) l 0) (i mod 32)) 1.

Definition or_limb0 (l : list Z) (b : Z) : list Z :=
  match l with x :: l' => Z.lor x b :: l' | [] => [] end.

(** One step of the restoring division: shift, inject the bit, compare, subtract. *)
Definition rem_step (divisor : list Z) (bit : Z) (r : list Z) : list Z * bool :=
  let '(l, overflow_bit) := shl1_loop r 0 in
  let l := or_limb0 l bit in
  let geq := if negb (overflow_bit =? 0) then true
             else match cmp_limbs l divisor with Lt => false | _ => true end in
  (if geq then (sub_loop l divisor 0).1 else l, geq).

(** [quotient.limbs[i / 32] |= (1U << (i % 32))]. *)
Definition set_bit (l : list Z) (i : Z) : list Z :=
  alter (fun x => Z.lor x (wrap 32 (Z.shiftl 1 (i mod 32)))) (Z.to_nat (i / 32)) l.

(** [for (i = n - 1; i >= 0; i--)] of [div_mod_core]. *)
Fixpoint div_loop (divisor dividend : list Z) (n : nat) (q r : list Z) : list Z * list Z :=
  match n with
  | O => (q, r)
  | S i =>
      let '(r', geq) := rem_step divisor (bit_at dividend (Z.of_nat i)) r in
      div_loop divisor dividend i (if geq then set_bit q (Z.of_nat i) else q) r'
  end.

(** Quotient, and the remainder when it was written: a zero divisor returns
    before any write. *)
Definition div_mod_core (x divisor : uint512) : uint512 * option uint512 :=
  if is_zero divisor then (x, None)
  else if u512_ltb x divisor then (u512_of_u32 0, Some x)
  else
    let '(q, r) := div_loop (limbs divisor) (limbs x) (S (Z.to_nat (msb x)))
                     (replicate 16 0) (replicate 16 0) in
    (mkU512 q, Some (mkU512 r)).

Definition div (x divisor : uint512) : uint512 := (div_mod_core x divisor).1.
(** [mod] starts from a zero remainder, which stays when the divisor is 0. *)
Definition mod_ (x divisor : uint512) : uint512 := default u512_zero (div_mod_core x divisor).2.

(** Shifts; the caller passes [bits >= 0]. *)
Fixpoint rshift_bits (s : Z) (l : list Z) : list Z :=
  match l with
  | [] => []
  | [x] => [Z.shiftr x s]
  | x :: ((y :: _) as l0) =>
      Z.lor (Z.shiftr x s) (wrap 32 (Z.shiftl y (32 - s))) :: rshift_bits s l0
  end.

Definition rshift (x : uint512) (bits : Z) : uint512 :=
  if bits =? 0 then x
  else if 512 <=? bits then u512_of_u32 0
  else
    let k := Z.to_nat (bits / 32) in
    let s := bits mod 32 in
    let l := drop k (limbs x) ++ replicate k 0 in
    mkU512 (if 0 <? s then rshift_bits s l else l).

(** [prev] is the limb below the current one. *)
Fixpoint lshift_bits (s prev : Z) (l : list Z) : list Z :=
  match l with
  | [] => []
  | x :: l' => Z.lor (wrap 32 (Z.shiftl x s)) (Z.shiftr prev (32 - s)) :: lshift_bits s x l'
  end.

Definition lshift (x : uint512) (bits : Z) : uint512 :=
  if bits =? 0 then x
  else if 512 <=? bits then u512_of_u32 0
  else
    let k := Z.to_nat (bits / 32) in
    let s := bits mod 32 in
    let l := replicate k 0 ++ take (16 - k) (limbs x) in
    mkU512 (if 0 <? s then lshift_bits s 0 l else l).

Definition add_mod (x other N : uint512) : uint512 :=
  let s := add x other in
  if u512_ltb s x || u512_geb s N then sub s N else s.

Definition sub_mod (x other N : uint512) : uint512 :=
  if u512_ltb x other then add (sub x other) N else sub x other.

Definition double_mod (x N : uint512) : uint512 :=
  let carry := Z.shiftr (nth 15 (limbs x) 0) 31 in
  let d := lshift x 1 in
  if negb (carry =? 0) || u512_geb d N then sub d N else d.

(** The 1024-bit product [p[32]] of [mul_mod] and [abs_square_minus_N]. *)
Definition prod1024 (a b : list Z) : list Z := mul_rows a b (replicate 32 0).

(** [while (p_msb >= 0 && bit p_msb is 0) p_msb--]: the number of bits left. *)
Fixpoint top_bits (p : list Z) (n : nat) : nat :=
  match n with
  | O => O
  | S i => if bit_at p (Z.of_nat i) =? 0 then top_bits p i else n
  end.

Fixpoint mod_loop (modulus p : list Z) (n : nat) (r : list Z) : list Z :=
  match n with
  | O => r
  | S i => mod_loop modulus p i (rem_step modulus (bit_at p (Z.of_nat i)) r).1
  end.

Definition mul_mod (x other modulus : uint512) : uint512 :=
  if is_zero modulus then x
  else
    let p := prod1024 (limbs x) (limbs other) in
    mkU512 (mod_loop (limbs modulus) p (top_bits p 1024) (replicate 16 0)).

Definition negate_mod_inplace (x N : uint512) : uint512 :=
  if is_zero x then x else sub N x.

(** [a.mul_add_mod_signed(x, b, N)], [x] a signed 64-bit integer. *)
Definition mul_add_mod_signed (a : uint512) (x : Z) (b N : uint512) : uint512 :=
  let neg := x <? 0 in
  let abs_x := wrap 64 (if neg then - x else x) in
  let '(p, carry) := mul_uint64_inplace a abs_x in
  if carry =? 0 then
    if negb neg then
      let t := add p b in
      if u512_geb t N then
        let t1 := sub t N in
        if u512_geb t1 N then mod_ t1 N else t1
      else t
    else if u512_geb b p then sub b p
    else negate_mod_inplace (sub p b) N
  else
    let t := mod_ p N in
    let R_mod_N := mod_ (mul_uint64_inplace (sub (u512_of_u32 0) N) carry).1 N in
    let t1 := add t R_mod_N in
    let t2 := if u512_geb t1 N then sub t1 N else t1 in
    if negb neg then add_mod t2 b N else sub_mod b t2 N.

(** Magnitude and sign of a two's complement value. *)
Definition abs_twos_complement (x : uint512) : uint512 * Z :=
  if is_zero x then (x, 0)
  else if negb (msb_is_set x) then (x, 1)
  else (sub (u512_of_u32 0) x, -1).

(** Newton's iteration from above; [n] rounds are left. *)
Fixpoint sqrt_loop (a : uint512) (n : nat) (x : uint512) : uint512 :=
  match n with
  | O => x
  | S n' =>
      let t := rshift (add (div a x) x) 1 in
      if negb (u512_ltb t x) then x else sqrt_loop a n' t
  end.

Definition sqrt (a : uint512) : uint512 :=
  if is_zero a then u512_of_u32 0
  else
    let b := msb a / 2 + 1 in
    sqrt_loop a 32
      (mkU512 (<[Z.to_nat (b / 32) := wrap 32 (Z.shiftl 1 (b mod 32))]> (replicate 16 0))).

(** [abs_square_minus_N]: the magnitude of [s^2 - N] and its sign. The
    subtraction loop is the one with a 64-bit [bi = N.limbs[i] + borrow]. *)
Fixpoint sub64_loop (a b : list Z) (borrow : Z) : list Z :=
  match a, b with
  | x :: a', y :: b' =>
      let bi := wrap 64 (y + borrow) in
      wrap 32 (x - bi) :: sub64_loop a' b' (if x <? bi then 1 else 0)
  | _, _ => []
  end.

Definition abs_square_minus_N (s N : uint512) : uint512 * Z :=
  let p := prod1024 (limbs s) (limbs s) in
  let decided := existsb (fun l => negb (l =? 0)) (drop 16 p) in
  let p_ge_N := if decided then true
                else match cmp_limbs (take 16 p) (limbs N) with Lt => false | _ => true end in
  if p_ge_N then (mkU512 (sub64_loop (take 16 p) (limbs N) 0), 1)
  else (mkU512 (sub64_loop (limbs N) (take 16 p) 0), -1).

Definition isqrt_2N (N : uint512) : uint512 :=
  if negb (msb_is_set N) then sqrt (lshift N 1)
  else rshift (mul_uint64_inplace (sqrt N) 6074001001).1 32.

(** ** Narrow conversions and strings *)

Definition fits_in_128 (x : uint512) : bool := forallb (fun l => l =? 0) (drop 4 (limbs x)).

Definition to_uint128 (x : uint512) : Z :=
  let l i := nth i (limbs x) 0 in
  let lo := Z.lor (l 0%nat) (Z.shiftl (l 1%nat) 32) in
  let hi := Z.lor (l 2%nat) (Z.shiftl (l 3%nat) 32) in
  Z.lor lo (wrap 128 (Z.shiftl hi 64)).

(** Characters are their codes. The parser skips what is not a digit. *)
Definition is_digit (c : Z) : bool := (48 <=? c) && (c <=? 57).

Fixpoint parse_loop (s : list Z) (res : uint512) : uint512 :=
  match s with
  | [] => res
  | c :: s' =>
      if is_digit c then
        let res1 := mult_uint32 res 10 in
        let digit := c - 48 in
        parse_loop s' (if (0 <? digit) && (digit <? 10) then add_uint32 res1 digit else res1)
      else parse_loop s' res
  end.

Definition u512_of_string (s : list Z) : uint512 := parse_loop s (u512_of_u32 0).

(** Decimal digits of [x], most significant first, [n] of them ([setw(9)] with
    a '0' fill), and without leading zeros (stream output of an integer). *)
Fixpoint dec_pad (n : nat) (x : Z) : list Z :=
  match n with
  | O => []
  | S n' => dec_pad n' (x / 10) ++ [48 + x mod 10]
  end.

Fixpoint dec_loop (fuel : nat) (x : Z) : list Z :=
  match fuel with
  | O => []
  | S n => if x =? 0 then [] else dec_loop n (x / 10) ++ [48 + x mod 10]
  end.

Definition dec (x : Z) : list Z := if x =? 0 then [48] else dec_loop 20 x.

(** [while (!temp.is_zero()) chunks[count++] = temp.div_uint32_inplace(10^9)] into
    a buffer of [room] entries; [None] is a write past its end. *)
Fixpoint chunk_loop (room : nat) (temp : uint512) : option (list Z) :=
  if is_zero temp then Some []
  else match room with
       | O => None
       | S room' =>
           let '(q, c) := div_uint32_inplace temp 1000000000 in
           match chunk_loop room' q with Some l => Some (c :: l) | None => None end
       end.

Definition to_string (x : uint512) : option (list Z) :=
  if is_zero x then Some [48]
  else
    match chunk_loop 20 x with
    | None => None
    | Some chunks =>
        match rev chunks with
        | [] => None
        | top :: low => Some (dec top ++ concat (map (dec_pad 9) low))
        end
    end.

Definition hex_char (d : Z) : Z := if d <? 10 then 48 + d else 87 + d.

Fixpoint hex_pad (n : nat) (x : Z) : list Z :=
  match n with
  | O => []
  | S n' => hex_pad n' (x / 16) ++ [hex_char (x mod 16)]
  end.

(** The limbs from the top one down, printing from the first non-zero one. *)
Fixpoint hex_loop (nonzero : bool) (l : list Z) : list Z * bool :=
  match l with
  | [] => ([], nonzero)
  | x :: l' =>
      if negb (x =? 0) || nonzero then
        let '(s, nz) := hex_loop true l' in (hex_pad 8 x ++ s, nz)
      else hex_loop nonzero l'
  end.

Definition to_hex_string (x : uint512) : list Z :=
  let '(s, nonzero) := hex_loop false (rev (limbs x)) in
  [48; 120] ++ s ++ (if nonzero then [] else [48]).

(** ** Comparisons with a machine word *)

Definition eq_u32 (x : uint512) (v : Z) : bool :=
  match limbs x with l0 :: l => (l0 =? v) && forallb (fun l => l =? 0) l | [] => false end.
Definition lt_u32 (x : uint512) (v : Z) : bool :=
  match limbs x with l0 :: l => forallb (fun l => l =? 0) l && (l0 <? v) | [] => false end.
Definition gt_u32 (x : uint512) (v : Z) : bool :=
  match limbs x with
  | l0 :: l => existsb (fun l => negb (l =? 0)) l || (l0 >? v) | [] => false end.
Definition low64 (l : list Z) : Z := Z.lor (nth 0 l 0) (Z.shiftl (nth 1 l 0) 32).
Definition eq_u64 (x : uint512) (v : Z) : bool :=
  (nth 0 (limbs x) 0 =? wrap 32 v) && (nth 1 (limbs x) 0 =? wrap 32 (Z.shiftr v 32))
  && forallb (fun l => l =? 0) (drop 2 (limbs x)).
Definition lt_u64 (x : uint512) (v : Z) : bool :=
  forallb (fun l => l =? 0) (drop 2 (limbs x)) && (low64 (limbs x) <? v).
Definition gt_u64 (x : uint512) (v : Z) : bool :=
  existsb (fun l => negb (l =? 0)) (drop 2 (limbs x)) || (low64 (limbs x) >? v).

(** ** The limb loops *)

(** A double word splits into its low limb and the carry. *)
Lemma limb_split x : x = wrap 32 x + 2 ^ 32 * Z.shiftr x 32.
Proof. apply wrap_shiftr_split. lia. Qed.

Lemma limb_ok x : in_width 32 (wrap 32 x).
Proof. apply wrap_range. lia. Qed.

#[export] Hint Resolve limb_ok : mpqs.

Lemma digits_ok_cons w x l : digits_ok w (x :: l) <-> in_width w x /\ digits_ok w l.
Proof. unfold digits_ok. by rewrite Forall_cons. Qed.

Lemma digits_ok_nil w : digits_ok w [].
Proof. constructor. Qed.

#[export] Hint Resolve digits_ok_nil : mpqs.
#[export] Hint Rewrite digits_ok_cons : mpqs_simpl.

(** Unfold one limb of the value; [P] abstracts the weight of the tail. *)
Ltac limb_cases :=
  repeat match goal with
  | H : digits_ok _ (_ :: _) |- _ => apply digits_ok_cons in H as [? ?]
  | H : length (_ :: _) = length [] |- _ => discriminate H
  | H : length [] = length (_ :: _) |- _ => discriminate H
  | H : length (_ :: _) = length (_ :: _) |- _ => injection H as H
  end.

Lemma shiftr_bound x n m : 0 <= n -> 0 <= x < 2 ^ n * m -> 0 <= Z.shiftr x n < m.
Proof.
  intros Hn Hx. rewrite Z.shiftr_div_pow2 by done. pose proof (Z.pow_pos_nonneg 2 n).
  split; [apply Z.div_pos; lia | apply Z.div_lt_upper_bound; lia].
Qed.

Lemma add_loop_spec a b carry :
  digits_ok 32 a -> digits_ok 32 b -> length a = length b -> 0 <= carry <= 1 ->
  digits_ok 32 (add_loop a b carry).1 /\ length (add_loop a b carry).1 = length a /\
  0 <= (add_loop a b carry).2 <= 1 /\
  of_digits 32 (add_loop a b carry).1 + 2 ^ (32 * Z.of_nat (length a)) * (add_loop a b carry).2
  = of_digits 32 a + of_digits 32 b + carry.
Proof.
  revert b carry. induction a as [|x a IH]; intros [|y b] c Ha Hb Hl Hc; limb_cases; cbn [add_loop].
  { simpl. split_and!; auto with mpqs; lia. }
  unfold in_width in *.
  rewrite (wrap_small 64) by (unfold in_width; lia).
  pose proof (limb_split (x + y + c)) as Es.
  assert (0 <= Z.shiftr (x + y + c) 32 < 2) as Hs by (apply shiftr_bound; lia).
  destruct (IH b (Z.shiftr (x + y + c) 32)) as (G1 & G2 & G3 & G4); [done..|lia|].
  destruct (add_loop a b _) as [l c']; cbn [fst snd length of_digits] in *.
  rewrite pow2_mul_S by lia. rewrite digits_ok_cons.
  split_and!; auto with mpqs; lia.
Qed.

Lemma scale_loop_spec W v l carry :
  (W = 64 /\ in_width 32 v /\ in_width 32 carry) \/ (W = 128 /\ in_width 64 v /\ in_width 64 carry) ->
  digits_ok 32 l ->
  digits_ok 32 (scale_loop W v l carry).1 /\ length (scale_loop W v l carry).1 = length l /\
  in_width 64 (scale_loop W v l carry).2 /\
  of_digits 32 (scale_loop W v l carry).1 + 2 ^ (32 * Z.of_nat (length l)) * (scale_loop W v l carry).2
  = of_digits 32 l * v + carry.
Proof.
  intros HW Hl. revert carry HW. induction l as [|x l IH]; intros c HW; limb_cases; cbn [scale_loop].
  { simpl. unfold in_width in *. split_and!; auto with mpqs; lia. }
  unfold in_width in *.
  rewrite (wrap_small W) by (unfold in_width; destruct HW as [(-> & ? & ?)|(-> & ? & ?)]; nia).
  pose proof (limb_split (x * v + c)) as Es.
  assert (0 <= Z.shiftr (x * v + c) 32 < if Z.eq_dec W 64 then 2 ^ 32 else 2 ^ 64) as Hs.
  { apply shiftr_bound; [lia|]. destruct HW as [(-> & ? & ?)|(-> & ? & ?)]; simpl; nia. }
  assert (Z.shiftr (x * v + c) 32 < 2 ^ 64) by (destruct (Z.eq_dec W 64); lia).
  rewrite (wrap_small 64) by (unfold in_width; lia).
  destruct (IH ltac:(done) (Z.shiftr (x * v + c) 32)) as (G1 & G2 & G3 & G4).
  { destruct HW as [(-> & ? & ?)|(-> & ? & ?)]; [left|right]; simpl in Hs; repeat split; lia. }
  destruct (scale_loop W v l _) as [l2 c2]; cbn [fst snd length of_digits] in *.
  rewrite pow2_mul_S by lia. rewrite digits_ok_cons.
  split_and!; auto with mpqs; lia.
Qed.

Lemma sub_loop_spec a b borrow :
  digits_ok 32 a -> digits_ok 32 b -> length a = length b -> 0 <= borrow <= 1 ->
  digits_ok 32 (sub_loop a b borrow).1 /\ length (sub_loop a b borrow).1 = length a /\
  0 <= (sub_loop a b borrow).2 <= 1 /\
  of_digits 32 (sub_loop a b borrow).1 - 2 ^ (32 * Z.of_nat (length a)) * (sub_loop a b borrow).2
  = of_digits 32 a - of_digits 32 b - borrow.
Proof.
  revert b borrow. induction a as [|x a IH]; intros [|y b] c Ha Hb Hl Hc; limb_cases; cbn [sub_loop].
  { simpl. split_and!; auto with mpqs; lia. }
  set (c1 := if (x <? y) || _ then 1 else 0).
  assert (wrap 32 (x - y - c) = x - y - c + 2 ^ 32 * c1 /\ 0 <= c1 <= 1) as [Ed Hc1].
  { unfold c1, in_width in *. split; [|by destruct (_ || _)].
    symmetry. apply wrap_eq_intro; [lia| |exists (if (x <? y) || (negb (c =? 0) && (x =? y)) then 1 else 0); lia].
    unfold in_width. destruct (Z.ltb_spec x y), (Z.eqb_spec c 0), (Z.eqb_spec x y); simpl; lia. }
  destruct (IH b c1) as (G1 & G2 & G3 & G4); [done..|].
  destruct (sub_loop a b c1) as [l c']; cbn [fst snd length of_digits] in *.
  rewrite pow2_mul_S by lia. rewrite digits_ok_cons.
  split_and!; auto with mpqs; lia.
Qed.

(** The loop of [abs_square_minus_N] borrows the same way. *)
Lemma sub64_loop_sub a b borrow :
  digits_ok 32 a -> digits_ok 32 b -> 0 <= borrow <= 1 ->
  sub64_loop a b borrow = (sub_loop a b borrow).1.
Proof.
  revert b borrow. induction a as [|x a IH]; intros [|y b] c Ha Hb Hc; try done.
  limb_cases. cbn [sub64_loop sub_loop]. unfold in_width in *.
  rewrite (wrap_small 64) by (unfold in_width; lia).
  set (c1 := if (x <? y) || _ then 1 else 0).
  assert ((if x <? y + c then 1 else 0) = c1) as ->.
  { unfold c1. destruct (Z.ltb_spec x (y + c)), (Z.ltb_spec x y), (Z.eqb_spec c 0), (Z.eqb_spec x y); simpl; lia. }
  rewrite IH by (try done; unfold c1; destruct (_ || _); lia).
  destruct (sub_loop a b c1) as [l c']; cbn [fst]. do 2 f_equal. lia.
Qed.

(** One row: when [b] does not outlast [res], the carry goes to the next limb. *)
Lemma mul_row_ok a b res carry :
  digits_ok 32 res -> digits_ok 32 (mul_row a b res carry) /\ length (mul_row a b res carry) = length res.
Proof.
  intros Hr. revert b carry. induction res as [|r res IH]; intros [|y b] c; limb_cases; cbn [mul_row].
  1,2: split; auto with mpqs.
  - rewrite digits_ok_cons. auto with mpqs.
  - rewrite digits_ok_cons. cbn [length]. destruct (IH ltac:(done) b (Z.shiftr (wrap 64 (a * y + r + c)) 32)).
    auto with mpqs.
Qed.

(** Truncated at the end of [res], as in [mult]. *)
Lemma mul_row_trunc a b res carry :
  in_width 32 a -> digits_ok 32 b -> digits_ok 32 res -> in_width 32 carry ->
  (length res <= length b)%nat ->
  exists k, of_digits 32 (mul_row a b res carry)
            = of_digits 32 res + a * of_digits 32 b + carry - k * 2 ^ (32 * Z.of_nat (length res)).
Proof.
  intros Ha Hb Hr. revert b carry Hb. induction res as [|r res IH]; intros b c Hb Hc Hl; limb_cases.
  { exists (a * of_digits 32 b + c). destruct b; simpl; lia. }
  destruct b as [|y b]; [simpl in Hl; lia|]. limb_cases. cbn [mul_row length of_digits] in *.
  unfold in_width in *. rewrite (wrap_small 64) by (unfold in_width; nia).
  pose proof (limb_split (a * y + r + c)) as Es.
  assert (0 <= Z.shiftr (a * y + r + c) 32 < 2 ^ 32) as Hs by (apply shiftr_bound; nia).
  destruct (IH ltac:(done) b (Z.shiftr (a * y + r + c) 32)) as [k Hk]; [done..|lia|].
  exists k. rewrite Hk, pow2_mul_S by lia. lia.
Qed.

Lemma mul_rows_trunc a b res :
  digits_ok 32 a -> digits_ok 32 b -> digits_ok 32 res -> (length res <= length b)%nat ->
  digits_ok 32 (mul_rows a b res) /\ length (mul_rows a b res) = length res /\
  exists k, of_digits 32 (mul_rows a b res)
            = of_digits 32 res + of_digits 32 a * of_digits 32 b - k * 2 ^ (32 * Z.of_nat (length res)).
Proof.
  intros Ha Hb. revert res. induction a as [|x a IH]; intros res Hr Hl; limb_cases; cbn [mul_rows].
  { split_and!; [done..|]. exists 0. simpl. lia. }
  set (res1 := if x =? 0 then res else mul_row x b res 0).
  assert (digits_ok 32 res1 /\ length res1 = length res /\
    exists k, of_digits 32 res1 = of_digits 32 res + x * of_digits 32 b - k * 2 ^ (32 * Z.of_nat (length res)))
    as (G1 & G2 & k1 & G3).
  { unfold res1. destruct (Z.eqb_spec x 0) as [->|].
    - split_and!; [done..|]. exists 0. lia.
    - destruct (mul_row_ok x b res 0) as [? ?]; [done|]. split_and!; [done..|].
      destruct (mul_row_trunc x b res 0) as [k Hk]; [done..|unfold in_width; lia|done|]. exists k. lia. }
  destruct res1 as [|r res']; limb_cases.
  { destruct res; [|simpl in G2; lia]. split_and!; [done..|]. simpl. exists (of_digits 32 (x :: a) * of_digits 32 b). simpl. lia. }
  cbn [length] in *. destruct (IH ltac:(done) res') as (F1 & F2 & k2 & F3); [done|lia|].
  rewrite digits_ok_cons. cbn [length of_digits] in *. split_and!; [done..|lia|].
  exists (k1 + k2). rewrite F3, <- G2. rewrite pow2_mul_S in * by lia. rewrite <- G2, pow2_mul_S in G3 by lia. lia.
Qed.

(** Exact when [res] is long enough: [lo] is the part already written. *)
Lemma mul_row_exact a b lo m carry :
  in_width 32 a -> digits_ok 32 b -> digits_ok 32 lo -> in_width 32 carry -> length lo = length b ->
  exists lo', mul_row a b (lo ++ replicate (S m) 0) carry = lo' ++ replicate m 0 /\
    length lo' = S (length b) /\ digits_ok 32 lo' /\
    of_digits 32 lo' = of_digits 32 lo + a * of_digits 32 b + carry.
Proof.
  intros Ha Hb. revert lo carry. induction b as [|y b IH]; intros [|r lo] c Hlo Hc Hl; limb_cases.
  { exists [c]. cbn. rewrite Z.add_0_l, wrap_wrap, wrap_small by done.
    split_and!; auto; [by apply digits_ok_cons | lia]. }
  cbn [mul_row app length of_digits] in *. unfold in_width in *.
  rewrite (wrap_small 64) by (unfold in_width; nia).
  pose proof (limb_split (a * y + r + c)) as Es.
  assert (0 <= Z.shiftr (a * y + r + c) 32 < 2 ^ 32) as Hs by (apply shiftr_bound; nia).
  destruct (IH ltac:(done) lo (Z.shiftr (a * y + r + c) 32)) as (lo' & -> & G1 & G2 & G3); [done..|lia|].
  exists (wrap 32 (a * y + r + c) :: lo'). rewrite digits_ok_cons. cbn [length of_digits].
  split_and!; auto with mpqs; lia.
Qed.

Lemma mul_rows_exact a b lo :
  digits_ok 32 a -> digits_ok 32 b -> digits_ok 32 lo -> length lo = length b ->
  digits_ok 32 (mul_rows a b (lo ++ replicate (length a) 0)) /\
  length (mul_rows a b (lo ++ replicate (length a) 0)) = (length a + length b)%nat /\
  of_digits 32 (mul_rows a b (lo ++ replicate (length a) 0))
  = of_digits 32 lo + of_digits 32 a * of_digits 32 b.
Proof.
  intros Ha Hb. revert lo. induction a as [|x a IH]; intros lo Hlo Hl; limb_cases.
  { cbn. rewrite app_nil_r. split_and!; [done..|lia]. }
  cbn [mul_rows length].
  assert (exists lo', (if x =? 0 then lo ++ replicate (S (length a)) 0
       else mul_row x b (lo ++ replicate (S (length a)) 0) 0) = lo' ++ replicate (length a) 0 /\
     length lo' = S (length b) /\ digits_ok 32 lo' /\ of_digits 32 lo' = of_digits 32 lo + x * of_digits 32 b)
    as (lo' & -> & G1 & G2 & G3).
  { destruct (Z.eqb_spec x 0) as [->|].
    - exists (lo ++ [0]). rewrite <- app_assoc, length_app, of_digits_app by lia. simpl.
      split_and!; [done|lia| |lia]. apply Forall_app. split; [done|]. repeat constructor; lia.
    - destruct (mul_row_exact x b lo (length a) 0) as (lo' & ? & ? & ? & ?);
        [done..|unfold in_width; lia|done|]. exists lo'. split_and!; [done..|lia]. }
  destruct lo' as [|r lo']; limb_cases; [discriminate|]. cbn [app].
  destruct (IH ltac:(done) lo') as (F1 & F2 & F3);
    [done | simpl in G1; lia |].
  rewrite digits_ok_cons. cbn [length of_digits] in *. split_and!; [done..|lia|]. lia.
Qed.

(** Division by a word, top limb first. *)
Lemma div_word_loop_spec W d l :
  (W = 64 /\ 0 < d < 2 ^ 32) \/ (W = 128 /\ 0 < d < 2 ^ 64) -> digits_ok 32 l ->
  digits_ok 32 (div_word_loop W d l).1 /\ length (div_word_loop W d l).1 = length l /\
  of_digits 32 (div_word_loop W d l).1 = of_digits 32 l / d /\
  (div_word_loop W d l).2 = of_digits 32 l mod d.
Proof.
  intros HW. assert (0 < d) by lia.
  induction l as [|x l IH]; intros Hl; limb_cases; cbn [div_word_loop].
  { simpl. rewrite Z.div_0_l, Z.mod_0_l by lia. auto with mpqs. }
  destruct (IH ltac:(done)) as (G1 & G2 & G3 & G4).
  destruct (div_word_loop W d l) as [q rem]; cbn [fst snd length of_digits] in *.
  assert (0 <= rem < d) as Hrem by (subst rem; apply Z.mod_pos_bound; lia).
  assert (wrap W (Z.shiftl rem 32) = Z.shiftl rem 32) as ->.
  { apply wrap_small. rewrite Z.shiftl_mul_pow2 by lia. unfold in_width.
    destruct HW as [[-> ?]|[-> ?]]; lia. }
  rewrite lor_shiftl_add by (done || lia).
  assert (0 <= (rem * 2 ^ 32 + x) / d < 2 ^ 32) as Hq.
  { unfold in_width in *. split; [apply Z.div_pos; lia | apply Z.div_lt_upper_bound; nia]. }
  assert (of_digits 32 l = d * (of_digits 32 l / d) + rem) as El
    by (subst rem; apply Z.div_mod; lia).
  assert (x + 2 ^ 32 * of_digits 32 l = (rem * 2 ^ 32 + x) + 2 ^ 32 * (of_digits 32 l / d) * d) as -> by lia.
  rewrite Z.div_add, Z.mod_add by lia. rewrite wrap_small by done.
  rewrite digits_ok_cons. split_and!; auto. lia.
Qed.

Lemma mod_word_loop_div W d l : mod_word_loop W d l = (div_word_loop W d l).2.
Proof.
  induction l as [|x l IH]; cbn; [done|]. rewrite IH. by destruct (div_word_loop W d l).
Qed.

(** ** Comparisons *)

Lemma cmp_limbs_spec a b :
  digits_ok 32 a -> digits_ok 32 b -> length a = length b ->
  cmp_limbs a b = (of_digits 32 a ?= of_digits 32 b).
Proof.
  revert b. induction a as [|x a IH]; intros [|y b] Ha Hb Hl; limb_cases; cbn [cmp_limbs of_digits]; [done|].
  rewrite IH by done. unfold in_width in *. symmetry.
  destruct (Z.compare_spec (of_digits 32 a) (of_digits 32 b)) as [->| |].
  - destruct (Z.compare_spec x y);
      [apply Z.compare_eq_iff | apply Z.compare_lt_iff | apply Z.compare_gt_iff]; lia.
  - apply Z.compare_lt_iff. lia.
  - apply Z.compare_gt_iff. lia.
Qed.

Lemma eq_limbs_spec a b : length a = length b -> eq_limbs a b = true <-> a = b.
Proof.
  revert b. induction a as [|x a IH]; intros [|y b] Hl; limb_cases; cbn [eq_limbs]; [done|].
  rewrite andb_true_iff, Z.eqb_eq, IH by done. split; [by intros [-> ->] | by intros [= -> ->]].
Qed.

Lemma all_zero_spec l : digits_ok 32 l -> forallb (fun x => x =? 0) l = (of_digits 32 l =? 0).
Proof.
  induction l as [|x l IH]; intros Hl; limb_cases; [done|]. cbn [forallb of_digits].
  rewrite IH by done. pose proof (of_digits_nonneg 32 ltac:(lia) l ltac:(done)). unfold in_width in *.
  destruct (Z.eqb_spec x 0), (Z.eqb_spec (of_digits 32 l) 0), (Z.eqb_spec (x + 2 ^ 32 * of_digits 32 l) 0);
    simpl; lia.
Qed.

(** ** The values *)

Lemma u512_bound x : u512_ok x -> 0 <= u512_val x < 2 ^ 512.
Proof.
  intros [Hl Hd]. pose proof (of_digits_bound 32 ltac:(lia) (limbs x) Hd) as H.
  rewrite Hl in H. exact H.
Qed.

Lemma u512_val_inj x y : u512_ok x -> u512_ok y -> u512_val x = u512_val y -> x = y.
Proof.
  intros [Lx Dx] [Ly Dy] E. destruct x as [a], y as [b]. cbn in *. f_equal.
  apply (of_digits_inj 32); [lia|done..|congruence|done].
Qed.

(** A limb list of length 16 whose value is [z] plus a multiple of [2^512]. *)
Lemma u512_intro l z k :
  digits_ok 32 l -> length l = 16%nat -> of_digits 32 l = z + k * 2 ^ 512 ->
  u512_ok (mkU512 l) /\ u512_val (mkU512 l) = wrap 512 z.
Proof.
  intros Hd Hl E. assert (u512_ok (mkU512 l)) as Hok by done. split; [done|].
  apply wrap_eq_intro; [lia | by apply u512_bound | by exists k].
Qed.

Lemma u512_of_Z_spec z : u512_ok (u512_of_Z z) /\ u512_val (u512_of_Z z) = wrap 512 z.
Proof.
  split; [split|].
  - apply length_to_digits.
  - by apply to_digits_ok.
  - unfold u512_val, u512_of_Z. cbn [limbs]. by rewrite of_to_digits.
Qed.

Lemma replicate_0_ok w n : 0 <= w -> digits_ok w (replicate n 0).
Proof.
  intros Hw. apply Forall_replicate. pose proof (Z.pow_pos_nonneg 2 w). unfold in_width. lia.
Qed.

#[export] Hint Resolve replicate_0_ok : mpqs.

Lemma u512_zero_spec : u512_ok u512_zero /\ u512_val u512_zero = 0.
Proof. split; [split; [done | by apply replicate_0_ok] | done]. Qed.

Lemma u512_of_u32_spec x : in_width 32 x -> u512_ok (u512_of_u32 x) /\ u512_val (u512_of_u32 x) = x.
Proof.
  intros Hx. split; [split; [done|]|].
  - unfold u512_of_u32. cbn [limbs]. apply digits_ok_cons. split; [done|]. by apply replicate_0_ok.
  - unfold u512_val. cbn. lia.
Qed.

Lemma u512_of_u64_spec x : in_width 64 x -> u512_ok (u512_of_u64 x) /\ u512_val (u512_of_u64 x) = x.
Proof.
  intros Hx. assert (in_width 32 (Z.shiftr x 32)) as Hs by (apply (shiftr_in_width 64 x 32); [lia|done]).
  unfold u512_of_u64. rewrite (wrap_small 32 (Z.shiftr x 32)) by done.
  split; [split; [done|]|].
  - cbn [limbs]. rewrite !digits_ok_cons. split_and!; auto with mpqs. by apply replicate_0_ok.
  - unfold u512_val. cbn [limbs of_digits]. rewrite of_digits_zeros by lia. pose proof (limb_split x). lia.
Qed.

Lemma is_zero_spec x : u512_ok x -> is_zero x = (u512_val x =? 0).
Proof. intros [_ Hd]. by apply all_zero_spec. Qed.

Lemma u512_ltb_spec x y : u512_ok x -> u512_ok y -> u512_ltb x y = (u512_val x <? u512_val y).
Proof.
  intros [Lx Dx] [Ly Dy]. unfold u512_ltb. rewrite cmp_limbs_spec by (done || congruence).
  unfold u512_val. symmetry. destruct (Z.compare_spec (of_digits 32 (limbs x)) (of_digits 32 (limbs y)));
    destruct (Z.ltb_spec (of_digits 32 (limbs x)) (of_digits 32 (limbs y))); done || lia.
Qed.

Lemma u512_geb_spec x y : u512_ok x -> u512_ok y -> u512_geb x y = (u512_val y <=? u512_val x).
Proof.
  intros Hx Hy. unfold u512_geb. rewrite u512_ltb_spec by done.
  destruct (Z.ltb_spec (u512_val x) (u512_val y)), (Z.leb_spec (u512_val y) (u512_val x)); done || lia.
Qed.

Lemma u512_gtb_spec x y : u512_ok x -> u512_ok y -> u512_gtb x y = (u512_val y <? u512_val x).
Proof. intros. by apply u512_ltb_spec. Qed.

Lemma u512_eqb_spec x y : u512_ok x -> u512_ok y -> u512_eqb x y = true <-> x = y.
Proof.
  intros [Lx Dx] [Ly Dy]. unfold u512_eqb. rewrite eq_limbs_spec by congruence.
  destruct x, y. cbn. split; [by intros -> | by intros [= ->]].
Qed.

Lemma add_spec x y :
  u512_ok x -> u512_ok y -> u512_ok (add x y) /\ u512_val (add x y) = wrap 512 (u512_val x + u512_val y).
Proof.
  intros [Lx Dx] [Ly Dy].
  destruct (add_loop_spec (limbs x) (limbs y) 0) as (G1 & G2 & G3 & G4); [done..|congruence|lia|].
  apply (u512_intro _ _ (- (add_loop (limbs x) (limbs y) 0).2)); [done|congruence|].
  rewrite Lx in G4. unfold u512_val. change (32 * Z.of_nat 16) with 512 in G4. lia.
Qed.

Lemma sub_spec x y :
  u512_ok x -> u512_ok y -> u512_ok (sub x y) /\ u512_val (sub x y) = wrap 512 (u512_val x - u512_val y).
Proof.
  intros [Lx Dx] [Ly Dy].
  destruct (sub_loop_spec (limbs x) (limbs y) 0) as (G1 & G2 & G3 & G4); [done..|congruence|lia|].
  apply (u512_intro _ _ ((sub_loop (limbs x) (limbs y) 0).2)); [done|congruence|].
  rewrite Lx in G4. unfold u512_val. change (32 * Z.of_nat 16) with 512 in G4. lia.
Qed.

Lemma mult_spec x y :
  u512_ok x -> u512_ok y -> u512_ok (mult x y) /\ u512_val (mult x y) = wrap 512 (u512_val x * u512_val y).
Proof.
  intros [Lx Dx] [Ly Dy].
  destruct (mul_rows_trunc (limbs x) (limbs y) (replicate 16 0)) as (G1 & G2 & k & G3);
    [done..|by apply replicate_0_ok|rewrite Ly; done|].
  apply (u512_intro _ _ (- k)); [done..|].
  rewrite length_replicate, of_digits_zeros in G3 by lia. unfold u512_val.
  change (32 * Z.of_nat 16) with 512 in G3. lia.
Qed.

Lemma mul_uint64_inplace_spec x v :
  u512_ok x -> in_width 64 v ->
  u512_ok (mul_uint64_inplace x v).1 /\ in_width 64 (mul_uint64_inplace x v).2 /\
  u512_val (mul_uint64_inplace x v).1 + 2 ^ 512 * (mul_uint64_inplace x v).2 = u512_val x * v.
Proof.
  intros [Lx Dx] Hv. unfold mul_uint64_inplace.
  destruct (scale_loop_spec 128 v (limbs x) 0) as (G1 & G2 & G3 & G4); [right; done|done|].
  destruct (scale_loop 128 v (limbs x) 0) as [l c]. cbn [fst snd] in *. rewrite Lx in *.
  change (32 * Z.of_nat 16) with 512 in G4. unfold u512_val. cbn [limbs]. split_and!; [|done|lia].
  split; done.
Qed.

Lemma mult_uint32_spec x v :
  u512_ok x -> in_width 32 v ->
  u512_ok (mult_uint32 x v) /\ u512_val (mult_uint32 x v) = wrap 512 (u512_val x * v).
Proof.
  intros Hx Hv. unfold mult_uint32.
  destruct (Z.eqb_spec v 0) as [->|]; [|destruct (Z.eqb_spec v 1) as [->|]].
  - rewrite Z.mul_0_r. by apply (u512_of_u32_spec 0).
  - rewrite Z.mul_1_r, wrap_small by by apply u512_bound. done.
  - destruct Hx as [Lx Dx].
    destruct (scale_loop_spec 64 v (limbs x) 0) as (G1 & G2 & G3 & G4); [left; done|done|].
    apply (u512_intro _ _ (- (scale_loop 64 v (limbs x) 0).2)); [done|congruence|].
    rewrite Lx in G4. unfold u512_val. change (32 * Z.of_nat 16) with 512 in G4. lia.
Qed.

Lemma carry_loop_spec l carry :
  digits_ok 32 l -> 0 <= carry <= 1 ->
  digits_ok 32 (carry_loop l carry) /\ length (carry_loop l carry) = length l /\
  exists k, of_digits 32 (carry_loop l carry) = of_digits 32 l + carry - k * 2 ^ (32 * Z.of_nat (length l)).
Proof.
  revert carry. induction l as [|x l IH]; intros c Hl Hc; limb_cases; cbn [carry_loop].
  { split_and!; [done..|]. exists c. simpl. lia. }
  destruct (Z.eqb_spec c 0) as [->|].
  { rewrite digits_ok_cons. split_and!; [done..|]. exists 0. lia. }
  unfold in_width in *. rewrite (wrap_small 64) by (unfold in_width; lia).
  pose proof (limb_split (x + c)) as Es.
  assert (0 <= Z.shiftr (x + c) 32 < 2) by (apply shiftr_bound; lia).
  destruct (IH (Z.shiftr (x + c) 32)) as (G1 & G2 & k & G3); [done|lia|].
  rewrite digits_ok_cons. cbn [length of_digits]. split_and!; auto with mpqs.
  exists k. rewrite G3, pow2_mul_S by lia. lia.
Qed.

Lemma add_uint32_spec x v :
  u512_ok x -> in_width 32 v ->
  u512_ok (add_uint32 x v) /\ u512_val (add_uint32 x v) = wrap 512 (u512_val x + v).
Proof.
  intros [Lx Dx] Hv. destruct x as [[|x l]]; [done|]. unfold add_uint32. cbn [limbs] in *. limb_cases.
  unfold in_width in *. rewrite (wrap_small 64) by (unfold in_width; lia).
  pose proof (limb_split (x + v)) as Es.
  assert (0 <= Z.shiftr (x + v) 32 < 2) by (apply shiftr_bound; lia).
  destruct (carry_loop_spec l (Z.shiftr (x + v) 32)) as (G1 & G2 & k & G3); [done|lia|].
  apply (u512_intro _ _ (- k)).
  - apply digits_ok_cons. auto with mpqs.
  - cbn [length] in *. lia.
  - unfold u512_val. cbn [limbs of_digits]. rewrite G3. injection Lx as ->.
    change (32 * Z.of_nat 15) with 480. change (2 ^ 512) with (2 ^ 32 * 2 ^ 480). lia.
Qed.

Lemma div_uint32_inplace_spec x d :
  u512_ok x -> 0 < d < 2 ^ 32 ->
  u512_ok (div_uint32_inplace x d).1 /\
  u512_val (div_uint32_inplace x d).1 = u512_val x / d /\ (div_uint32_inplace x d).2 = u512_val x mod d.
Proof.
  intros [Lx Dx] Hd. unfold div_uint32_inplace. destruct (Z.eqb_spec d 0); [lia|].
  destruct (div_word_loop_spec 64 d (limbs x)) as (G1 & G2 & G3 & G4); [left; lia|done|].
  destruct (div_word_loop 64 d (limbs x)) as [q r]. cbn [fst snd] in *.
  pose proof (Z.mod_pos_bound (u512_val x) d ltac:(lia)).
  unfold u512_val in *. cbn [limbs].
  split_and!; [split; cbn; [congruence|done] | done |]. rewrite wrap_small; [done|]. unfold in_width. lia.
Qed.

Lemma div_uint64_inplace_spec x d :
  u512_ok x -> 0 < d < 2 ^ 64 ->
  u512_ok (div_uint64_inplace x d).1 /\
  u512_val (div_uint64_inplace x d).1 = u512_val x / d /\ (div_uint64_inplace x d).2 = u512_val x mod d.
Proof.
  intros [Lx Dx] Hd. unfold div_uint64_inplace. destruct (Z.eqb_spec d 0); [lia|].
  destruct (div_word_loop_spec 128 d (limbs x)) as (G1 & G2 & G3 & G4); [right; lia|done|].
  destruct (div_word_loop 128 d (limbs x)) as [q r]. cbn [fst snd] in *.
  pose proof (Z.mod_pos_bound (u512_val x) d ltac:(lia)).
  unfold u512_val in *. cbn [limbs].
  split_and!; [split; cbn; [congruence|done] | done |]. rewrite wrap_small; [done|]. unfold in_width. lia.
Qed.

Lemma mod_uint64_eq x d : mod_uint64 x d = if d =? 0 then 0 else (div_uint64_inplace x d).2.
Proof.
  unfold mod_uint64, div_uint64_inplace. destruct (d =? 0); [done|]. rewrite mod_word_loop_div.
  by destruct (div_word_loop 128 d (limbs x)).
Qed.

Lemma mod_uint32_eq x d : mod_uint32 x d = if d =? 0 then 0 else (div_uint32_inplace x d).2.
Proof.
  unfold mod_uint32, div_uint32_inplace. destruct (d =? 0); [done|]. rewrite mod_word_loop_div.
  by destruct (div_word_loop 64 d (limbs x)).
Qed.

Lemma div_uint32_const_eq x d : d <> 0 -> div_uint32_const x d = (div_uint32_inplace x d).1.
Proof.
  intros. unfold div_uint32_const, div_uint32_inplace. destruct (Z.eqb_spec d 0); [done|].
  by destruct (div_word_loop 64 d (limbs x)).
Qed.
