(* ===== verification/UInt512Div.v ===== *)
(** Division, remainders, shifts and modular arithmetic of the 512-bit integers:
    the bit-serial loops of [uint512.cuh] compute the quotient, the remainder and
    the modular operations of the integers. *)
From Stdlib Require Import ZArith Lia.
From stdpp Require Import base gmap sets list.
From S2P Require Import Prelude UInt512.
#[local] Open Scope Z_scope.

(** ** Shifts of a limb *)

(** A truncated left shift keeps the low bits. *)
Lemma wrap_shiftl w s x : 0 <= s <= w -> wrap w (Z.shiftl x s) = wrap (w - s) x * 2 ^ s.
Proof.
  intros Hs. rewrite Z.shiftl_mul_pow2 by lia. unfold wrap.
  replace (2 ^ w) with (2 ^ (w - s) * 2 ^ s) by (rewrite <- Z.pow_add_r by lia; f_equal; lia).
  apply Z.mul_mod_distr_r; apply Z.pow_nonzero; lia.
Qed.

Lemma lor_wrap_shiftl w s x lo :
  0 <= s <= w -> in_width s lo ->
  Z.lor (wrap w (Z.shiftl x s)) lo = wrap (w - s) x * 2 ^ s + lo.
Proof.
  intros Hs Hlo. rewrite wrap_shiftl, <- Z.shiftl_mul_pow2 by lia. rewrite lor_shiftl_add by (done || lia).
  rewrite <- Z.shiftl_mul_pow2 by lia. done.
Qed.

Lemma shl1_loop_spec l carry :
  digits_ok 32 l -> 0 <= carry <= 1 ->
  digits_ok 32 (shl1_loop l carry).1 /\ length (shl1_loop l carry).1 = length l /\
  0 <= (shl1_loop l carry).2 <= 1 /\
  of_digits 32 (shl1_loop l carry).1 + 2 ^ (32 * Z.of_nat (length l)) * (shl1_loop l carry).2
  = 2 * of_digits 32 l + carry.
Proof.
  revert carry. induction l as [|v l IH]; intros c Hl Hc; limb_cases; cbn [shl1_loop].
  { simpl. split_and!; auto with mpqs; lia. }
  assert (0 <= Z.shiftr v 31 < 2) as Hs by (apply shiftr_bound; unfold in_width in *; lia).
  destruct (IH (Z.shiftr v 31)) as (G1 & G2 & G3 & G4); [done|lia|].
  rewrite lor_wrap_shiftl by (unfold in_width; lia).
  destruct (shl1_loop l (Z.shiftr v 31)) as [r c2]. cbn [fst snd length of_digits] in *.
  pose proof (wrap_shiftr_split 31 v ltac:(lia)) as Ev.
  pose proof (wrap_range 31 v ltac:(lia)) as Hw. unfold in_width in *.
  change (32 - 1) with 31 in *. rewrite digits_ok_cons, pow2_mul_S by lia.
  split_and!; auto; unfold in_width; lia.
Qed.

(** Injecting the bit is starting the shift with it as the carry. *)
Lemma or_limb0_shl1 l bit :
  digits_ok 32 l -> 0 <= bit <= 1 -> or_limb0 (shl1_loop l 0).1 bit = (shl1_loop l bit).1 /\
  (l <> [] -> (shl1_loop l 0).2 = (shl1_loop l bit).2).
Proof.
  intros Hl Hb. destruct l as [|v l]; [done|]. limb_cases. cbn [shl1_loop].
  destruct (shl1_loop l (Z.shiftr v 31)) as [r c2]. cbn [fst snd or_limb0].
  split; [|done]. f_equal. by rewrite Z.lor_0_r.
Qed.

(** One step of restoring division. *)
Lemma rem_step_spec d bit r :
  digits_ok 32 d -> length d = 16%nat -> digits_ok 32 r -> length r = 16%nat ->
  0 <= bit <= 1 -> of_digits 32 r < of_digits 32 d ->
  digits_ok 32 (rem_step d bit r).1 /\ length (rem_step d bit r).1 = 16%nat /\
  (rem_step d bit r).2 = (of_digits 32 d <=? 2 * of_digits 32 r + bit) /\
  of_digits 32 (rem_step d bit r).1
  = if of_digits 32 d <=? 2 * of_digits 32 r + bit then 2 * of_digits 32 r + bit - of_digits 32 d
    else 2 * of_digits 32 r + bit.
Proof.
  intros Hd Ld Hr Lr Hb Hlt.
  destruct (shl1_loop_spec r bit Hr Hb) as (G1 & G2 & G3 & G4).
  destruct (or_limb0_shl1 r bit Hr Hb) as [E1 E2]. specialize (E2 ltac:(by intros ->)).
  unfold rem_step. destruct (shl1_loop r 0) as [l ov]. cbn [fst snd] in E1, E2. subst ov. rewrite E1. clear E1.
  destruct (shl1_loop r bit) as [l' c]. cbn [fst snd] in *. rewrite Lr in *.
  change (32 * Z.of_nat 16) with 512 in G4.
  pose proof (of_digits_bound 32 ltac:(lia) d Hd) as Bd. rewrite Ld in Bd. change (32 * Z.of_nat 16) with 512 in Bd.
  pose proof (of_digits_bound 32 ltac:(lia) l' G1) as Bl. rewrite G2 in Bl. change (32 * Z.of_nat 16) with 512 in Bl.
  pose proof (of_digits_nonneg 32 ltac:(lia) r Hr) as Br.
  set (g := if negb (c =? 0) then true else _).
  assert (g = (of_digits 32 d <=? 2 * of_digits 32 r + bit)) as ->.
  { unfold g. rewrite cmp_limbs_spec by (done || congruence).
    destruct (Z.eqb_spec c 0) as [->|]; simpl.
    - destruct (Z.compare_spec (of_digits 32 l') (of_digits 32 d)); symmetry; apply Z.leb_le || apply Z.leb_gt; lia.
    - symmetry. apply Z.leb_le. lia. }
  destruct (Z.leb_spec (of_digits 32 d) (2 * of_digits 32 r + bit)).
  - destruct (sub_loop_spec l' d 0) as (F1 & F2 & F3 & F4); [done..|congruence|lia|].
    rewrite G2 in *. change (32 * Z.of_nat 16) with 512 in F4.
    pose proof (of_digits_bound 32 ltac:(lia) _ F1) as Bs. rewrite F2 in Bs. change (32 * Z.of_nat 16) with 512 in Bs.
    split_and!; [done..|]. lia.
  - split_and!; [done..|]. lia.
Qed.

(** ** Bits of the limb array *)

Lemma limb_index_succ i :
  32 <= i -> Z.to_nat (i / 32) = S (Z.to_nat ((i - 32) / 32)) /\ i mod 32 = (i - 32) mod 32.
Proof.
  intros Hi. replace i with ((i - 32) + 1 * 32) at 1 3 by lia. rewrite Z.div_add, Z.mod_add by lia.
  split; [|done]. rewrite Z.add_1_r, Z2Nat.inj_succ; [done | apply Z.div_pos; lia].
Qed.

Lemma of_digits_testbit l i :
  digits_ok 32 l -> 0 <= i ->
  Z.testbit (of_digits 32 l) i = Z.testbit (nth (Z.to_nat (i / 32)) l 0) (i mod 32).
Proof.
  intros Hl. revert i. induction l as [|x l IH]; intros i Hi; limb_cases; cbn [of_digits].
  { by destruct (Z.to_nat (i / 32)); rewrite !Z.bits_0. }
  rewrite Z.add_comm, (Z.mul_comm (2 ^ 32)), <- lor_shiftl_add, Z.lor_spec by (done || lia).
  rewrite Z.shiftl_spec by lia. destruct (Z.ltb_spec i 32).
  - rewrite (Z.testbit_neg_r _ (i - 32)) by lia. rewrite Z.div_small, Z.mod_small by lia. done.
  - rewrite IH by (done || lia). destruct (limb_index_succ i) as [-> ->]; [done|]. cbn [nth].
    rewrite <- (Z.mod_small x (2 ^ 32)) by done. rewrite Z.mod_pow2_bits_high by lia.
    by rewrite orb_false_r.
Qed.

Lemma bit_at_spec l i :
  digits_ok 32 l -> 0 <= i -> bit_at l i = (of_digits 32 l / 2 ^ i) mod 2.
Proof.
  intros Hl Hi. rewrite <- Z.bit0_mod, <- Z.shiftr_div_pow2, Z.shiftr_spec, Z.add_0_l by lia.
  rewrite of_digits_testbit by done. unfold bit_at.
  set (x := nth _ l 0). change 1 with (Z.ones 1) at 1. rewrite Z.land_ones, Z.shiftr_div_pow2 by
    (try apply Z.mod_pos_bound; lia). change (2 ^ 1) with 2.
  by rewrite <- Z.bit0_mod, <- Z.shiftr_div_pow2, Z.shiftr_spec, Z.add_0_l by (try apply Z.mod_pos_bound; lia).
Qed.

Lemma alter_cons_0 {A} (f : A -> A) x l : alter f 0%nat (x :: l) = f x :: l.
Proof. done. Qed.

Lemma alter_cons_S {A} (f : A -> A) n x l : alter f (S n) (x :: l) = x :: alter f n l.
Proof. done. Qed.

(** Setting a bit that is clear adds its weight. *)
Lemma set_bit_spec l i :
  digits_ok 32 l -> 0 <= i < 32 * Z.of_nat (length l) -> Z.testbit (of_digits 32 l) i = false ->
  digits_ok 32 (set_bit l i) /\ length (set_bit l i) = length l /\
  of_digits 32 (set_bit l i) = of_digits 32 l + 2 ^ i.
Proof.
  intros Hl. revert i. unfold set_bit. induction l as [|x l IH]; intros i Hi Hb; limb_cases.
  { simpl in Hi. lia. }
  destruct (Z.ltb_spec i 32).
  - rewrite of_digits_testbit, Z.div_small, Z.mod_small in Hb by (try apply digits_ok_cons; done || lia).
    simpl in Hb. rewrite Z.div_small, Z.mod_small by lia. change (Z.to_nat 0) with 0%nat. rewrite alter_cons_0.
    assert (wrap 32 (Z.shiftl 1 i) = 2 ^ i) as ->.
    { rewrite Z.shiftl_1_l. apply wrap_small. unfold in_width. split; [lia|]. apply Z.pow_lt_mono_r; lia. }
    assert (Z.lor x (2 ^ i) = x + 2 ^ i) as Ex.
    { pose proof (Z.add_lor_land x (2 ^ i)) as E.
      assert (Z.land x (2 ^ i) = 0) as E0.
      { apply Z.bits_inj'. intros j Hj. rewrite Z.land_spec, Z.bits_0, Z.pow2_bits_eqb by lia.
        destruct (Z.eqb_spec i j); [subst; by rewrite Hb | apply andb_false_r]. }
      lia. }
    assert (in_width 32 (Z.lor x (2 ^ i))) as Hw.
    { unfold in_width in *. split; [rewrite Ex; lia|].
      rewrite <- (Z.mod_small x (2 ^ 32)), <- (Z.mod_small (2 ^ i) (2 ^ 32)), <- !Z.land_ones, <- Z.land_lor_distr_l,
        Z.land_ones by (try split; try apply Z.pow_lt_mono_r; lia).
      apply Z.mod_pos_bound. lia. }
    rewrite digits_ok_cons. cbn [of_digits length]. split_and!; [done..|]. lia.
  - destruct (limb_index_succ i) as [Ei Em]; [done|]. rewrite Ei, Em, alter_cons_S.
    cbn [length] in *.
    destruct (IH ltac:(done) (i - 32)) as (G1 & G2 & G3).
    { lia. }
    { rewrite of_digits_testbit in * by (try apply digits_ok_cons; done || lia).
      rewrite Ei, Em in Hb. exact Hb. }
    rewrite digits_ok_cons. cbn [of_digits]. rewrite G3, G2. split_and!; [done..|].
    replace (2 ^ i) with (2 ^ 32 * 2 ^ (i - 32)) by (rewrite <- Z.pow_add_r by lia; f_equal; lia). lia.
Qed.

(** ** Long division *)

Lemma div_mod_step Y D b :
  0 < D -> 0 <= b <= 1 ->
  (2 * Y + b) / D = 2 * (Y / D) + (if D <=? 2 * (Y mod D) + b then 1 else 0) /\
  (2 * Y + b) mod D
  = if D <=? 2 * (Y mod D) + b then 2 * (Y mod D) + b - D else 2 * (Y mod D) + b.
Proof.
  intros HD Hb. pose proof (Z.div_mod Y D ltac:(lia)) as E. pose proof (Z.mod_pos_bound Y D HD).
  set (q := Y / D) in *. set (r := Y mod D) in *.
  destruct (Z.leb_spec D (2 * r + b)).
  - split; symmetry; [apply (Z.div_unique_pos _ _ _ (2 * r + b - D)) | apply (Z.mod_unique_pos _ _ (2 * q + 1))]; lia.
  - split; symmetry; [apply (Z.div_unique_pos _ _ _ (2 * r + b)) | apply (Z.mod_unique_pos _ _ (2 * q))]; lia.
Qed.

(** The bits of [X] from position [i] on. *)
Lemma shift_bit X i : 0 <= i -> X / 2 ^ i = 2 * (X / 2 ^ (i + 1)) + (X / 2 ^ i) mod 2.
Proof.
  intros Hi. rewrite Z.pow_add_r, <- Z.div_div by lia. apply Z.div_mod. lia.
Qed.

Lemma mod2_range x : 0 <= x mod 2 <= 1.
Proof. pose proof (Z.mod_pos_bound x 2). lia. Qed.

Section long_division.
Context (d p : list Z) (Hd : digits_ok 32 d) (Ld : length d = 16%nat) (Hp : digits_ok 32 p).
Context (HD : 0 < of_digits 32 d).
Notation X := (of_digits 32 p).
Notation D := (of_digits 32 d).

Lemma rem_step_mod i r :
  digits_ok 32 r -> length r = 16%nat -> of_digits 32 r = (X / 2 ^ Z.of_nat (S i)) mod D ->
  digits_ok 32 (rem_step d (bit_at p (Z.of_nat i)) r).1 /\
  length (rem_step d (bit_at p (Z.of_nat i)) r).1 = 16%nat /\
  of_digits 32 (rem_step d (bit_at p (Z.of_nat i)) r).1 = (X / 2 ^ Z.of_nat i) mod D /\
  X / 2 ^ Z.of_nat i / D
  = 2 * (X / 2 ^ Z.of_nat (S i) / D) + (if (rem_step d (bit_at p (Z.of_nat i)) r).2 then 1 else 0).
Proof using All.
  intros Hr Lr Er. rewrite bit_at_spec by (done || lia).
  set (b := (X / 2 ^ Z.of_nat i) mod 2). pose proof (mod2_range (X / 2 ^ Z.of_nat i)) as Hb. fold b in Hb.
  pose proof (shift_bit X (Z.of_nat i) ltac:(lia)) as Es. fold b in Es.
  replace (Z.of_nat i + 1) with (Z.of_nat (S i)) in Es by lia.
  set (Y := X / 2 ^ Z.of_nat (S i)) in *.
  pose proof (Z.mod_pos_bound Y D HD).
  destruct (rem_step_spec d b r) as (G1 & G2 & G3 & G4); [done..|lia|].
  destruct (div_mod_step Y D b HD Hb) as [E1 E2].
  rewrite Es, E1, E2, G3, G4, Er. split_and!; done.
Qed.

Lemma mod_loop_spec n r :
  digits_ok 32 r -> length r = 16%nat -> of_digits 32 r = (X / 2 ^ Z.of_nat n) mod D ->
  digits_ok 32 (mod_loop d p n r) /\ length (mod_loop d p n r) = 16%nat /\
  of_digits 32 (mod_loop d p n r) = X mod D.
Proof using All.
  revert r. induction n as [|i IH]; intros r Hr Lr Er; cbn [mod_loop].
  { rewrite Z.div_1_r in Er. done. }
  destruct (rem_step_mod i r) as (G1 & G2 & G3 & _); [done..|]. by apply IH.
Qed.

Lemma div_loop_spec n q r :
  (n <= 512)%nat -> digits_ok 32 q -> length q = 16%nat -> digits_ok 32 r -> length r = 16%nat ->
  of_digits 32 q = X / 2 ^ Z.of_nat n / D * 2 ^ Z.of_nat n ->
  of_digits 32 r = (X / 2 ^ Z.of_nat n) mod D ->
  digits_ok 32 (div_loop d p n q r).1 /\ length (div_loop d p n q r).1 = 16%nat /\
  digits_ok 32 (div_loop d p n q r).2 /\ length (div_loop d p n q r).2 = 16%nat /\
  of_digits 32 (div_loop d p n q r).1 = X / D /\ of_digits 32 (div_loop d p n q r).2 = X mod D.
Proof using All.
  revert q r. induction n as [|i IH]; intros q r Hn Hq Lq Hr Lr Eq Er; cbn [div_loop].
  { rewrite Z.div_1_r in *. rewrite Z.mul_1_r in Eq. done. }
  destruct (rem_step_mod i r) as (G1 & G2 & G3 & G4); [done..|].
  destruct (rem_step d (bit_at p (Z.of_nat i)) r) as [r' geq]. cbn [fst snd] in *.
  assert (2 ^ Z.of_nat (S i) = 2 * 2 ^ Z.of_nat i) as Ep
    by (rewrite Nat2Z.inj_succ, Z.pow_succ_r by lia; done).
  rewrite Nat2Z.inj_succ in *. destruct geq.
  - destruct (set_bit_spec q (Z.of_nat i)) as (F1 & F2 & F3); [done|rewrite Lq; lia| |].
    { rewrite Eq. apply Z.mul_pow2_bits_low. lia. }
    apply IH; [lia|done|congruence|done|done| |done]. rewrite F3, Eq, G4, Ep. lia.
  - apply IH; [lia|done..| |done]. rewrite Eq, G4, Ep. lia.
Qed.

End long_division.

Lemma msb_loop_spec i l :
  digits_ok 32 l ->
  match msb_loop i l with
  | None => of_digits 32 l = 0
  | Some m => 0 < of_digits 32 l /\ m = Z.log2 (of_digits 32 l) + 32 * i
  end.
Proof.
  revert i. induction l as [|x l IH]; intros i Hl; limb_cases; cbn [msb_loop of_digits]; [done|].
  specialize (IH (i + 1) ltac:(done)). destruct (msb_loop (i + 1) l) as [m|].
  - destruct IH as [Hp ->]. unfold in_width in *. split; [lia|].
    assert (Z.log2 (x + 2 ^ 32 * of_digits 32 l) = Z.log2 (of_digits 32 l) + 32) as ->; [|lia].
    apply Z.log2_unique; [pose proof (Z.log2_nonneg (of_digits 32 l)); lia|].
    pose proof (Z.log2_spec _ Hp) as [L1 L2]. pose proof (Z.log2_nonneg (of_digits 32 l)).
    rewrite Z.pow_succ_r, Z.pow_add_r in * by lia. lia.
  - rewrite IH. destruct (Z.eqb_spec x 0) as [->|]; [lia|]. unfold in_width in *. split; [lia|].
    unfold clz32. destruct (Z.eqb_spec x 0); [done|]. rewrite Z.mul_0_r, Z.add_0_r. lia.
Qed.

Lemma msb_spec x : u512_ok x -> msb x = Z.log2 (u512_val x).
Proof.
  intros [_ Hd]. unfold msb, u512_val. pose proof (msb_loop_spec 0 (limbs x) Hd) as H.
  destruct (msb_loop 0 (limbs x)); simpl; [lia|]. by rewrite H.
Qed.

Lemma log2_lt_512 x : u512_ok x -> 0 <= Z.log2 (u512_val x) < 512.
Proof.
  intros Hx. pose proof (u512_bound x Hx). split; [apply Z.log2_nonneg|].
  destruct (Z.eq_dec (u512_val x) 0) as [->|]; [done|]. apply Z.log2_lt_pow2; lia.
Qed.

(** [div_mod_core]: quotient and remainder of the integers, for every divisor. *)
Lemma div_mod_core_spec x d :
  u512_ok x -> u512_ok d -> u512_val d <> 0 ->
  exists q r, div_mod_core x d = (q, Some r) /\ u512_ok q /\ u512_ok r /\
    u512_val q = u512_val x / u512_val d /\ u512_val r = u512_val x mod u512_val d.
Proof.
  intros Hx Hd Hnz. pose proof (u512_bound x Hx) as Bx. pose proof (u512_bound d Hd).
  unfold div_mod_core. rewrite is_zero_spec by done. destruct (Z.eqb_spec (u512_val d) 0); [done|].
  rewrite u512_ltb_spec by done. destruct (Z.ltb_spec (u512_val x) (u512_val d)).
  { exists (u512_of_u32 0), x. rewrite Z.div_small, Z.mod_small by lia.
    split_and!; try done. apply (u512_of_u32_spec 0). done. }
  pose proof (msb_spec x Hx) as Em. pose proof (log2_lt_512 x Hx).
  destruct (div_loop_spec (limbs d) (limbs x) ltac:(apply Hd) ltac:(apply Hd) ltac:(apply Hx) ltac:(unfold u512_val in *; lia)
              (S (Z.to_nat (msb x))) (replicate 16 0) (replicate 16 0)) as (G1 & G2 & G3 & G4 & G5 & G6).
  - lia.
  - by apply replicate_0_ok.
  - done.
  - by apply replicate_0_ok.
  - done.
  - rewrite of_digits_zeros, (Z.div_small (of_digits 32 (limbs x))) by (try lia; fold (u512_val x);
      split; [lia|]; rewrite Em, Nat2Z.inj_succ, Z2Nat.id by lia; apply Z.log2_spec; lia).
    by rewrite Z.div_0_l by (unfold u512_val in *; lia).
  - rewrite of_digits_zeros, (Z.div_small (of_digits 32 (limbs x))) by (try lia; fold (u512_val x);
      split; [lia|]; rewrite Em, Nat2Z.inj_succ, Z2Nat.id by lia; apply Z.log2_spec; lia).
    by rewrite Z.mod_0_l by (unfold u512_val in *; lia).
  - destruct (div_loop _ _ _ _ _) as [q r]. exists (mkU512 q), (mkU512 r). by split_and!.
Qed.

Lemma div_spec x d :
  u512_ok x -> u512_ok d -> u512_val d <> 0 ->
  u512_ok (div x d) /\ u512_val (div x d) = u512_val x / u512_val d.
Proof. intros. unfold div. by destruct (div_mod_core_spec x d) as (q & r & -> & ? & ? & ? & ?). Qed.

Lemma mod_spec x d :
  u512_ok x -> u512_ok d -> u512_val d <> 0 ->
  u512_ok (mod_ x d) /\ u512_val (mod_ x d) = u512_val x mod u512_val d.
Proof. intros. unfold mod_. by destruct (div_mod_core_spec x d) as (q & r & -> & ? & ? & ? & ?). Qed.

(** ** Modular operations *)

Lemma prod1024_spec x y :
  u512_ok x -> u512_ok y ->
  digits_ok 32 (prod1024 (limbs x) (limbs y)) /\ length (prod1024 (limbs x) (limbs y)) = 32%nat /\
  of_digits 32 (prod1024 (limbs x) (limbs y)) = u512_val x * u512_val y.
Proof.
  intros [Lx Dx] [Ly Dy].
  destruct (mul_rows_exact (limbs x) (limbs y) (replicate 16 0)) as (G1 & G2 & G3); [done..|by apply replicate_0_ok|done|].
  unfold prod1024. rewrite Lx, Ly, <- replicate_add in *. cbn [Nat.add] in *.
  rewrite of_digits_zeros in G3 by lia. done.
Qed.

Lemma top_bits_spec p n :
  digits_ok 32 p -> of_digits 32 p < 2 ^ Z.of_nat n ->
  of_digits 32 p / 2 ^ Z.of_nat (top_bits p n) = 0.
Proof.
  intros Hp. pose proof (of_digits_nonneg 32 ltac:(lia) p Hp). induction n as [|i IH]; intros Hlt; cbn [top_bits].
  { by apply Z.div_small. }
  rewrite bit_at_spec by (done || lia).
  destruct (Z.eqb_spec ((of_digits 32 p / 2 ^ Z.of_nat i) mod 2) 0) as [E|].
  - apply IH. rewrite Nat2Z.inj_succ, Z.pow_succ_r in Hlt by lia.
    pose proof (Z.pow_pos_nonneg 2 (Z.of_nat i)) as Hpos.
    assert (of_digits 32 p / 2 ^ Z.of_nat i < 2) by (apply Z.div_lt_upper_bound; lia).
    assert (0 <= of_digits 32 p / 2 ^ Z.of_nat i) by (apply Z.div_pos; lia).
    rewrite Z.mod_small in E by lia. apply Z.div_small_iff in E; lia.
  - apply Z.div_small. lia.
Qed.

Lemma mul_mod_spec x y N :
  u512_ok x -> u512_ok y -> u512_ok N -> u512_val N <> 0 ->
  u512_ok (mul_mod x y N) /\ u512_val (mul_mod x y N) = (u512_val x * u512_val y) mod u512_val N.
Proof.
  intros Hx Hy HN Hnz. unfold mul_mod. rewrite is_zero_spec by done.
  destruct (Z.eqb_spec (u512_val N) 0); [done|].
  destruct (prod1024_spec x y) as (P1 & P2 & P3); [done..|].
  pose proof (u512_bound N HN). pose proof (of_digits_bound 32 ltac:(lia) _ P1) as Bp. rewrite P2 in Bp.
  pose proof (top_bits_spec _ 1024 P1 ltac:(lia)) as Ht.
  destruct (mod_loop_spec (limbs N) (prod1024 (limbs x) (limbs y)) ltac:(apply HN) ltac:(apply HN) P1
     ltac:(unfold u512_val in *; lia) (top_bits (prod1024 (limbs x) (limbs y)) 1024) (replicate 16 0)) as (G1 & G2 & G3).
  - by apply replicate_0_ok.
  - done.
  - rewrite Ht, Z.mod_0_l, of_digits_zeros by (unfold u512_val in *; lia). done.
  - rewrite P3 in G3. done.
Qed.

(** The reduced operations assume reduced operands, as the header says. *)
Section reduced.
Context (N : uint512) (HN : u512_ok N).

Lemma mod_sub_once z n : 0 < n -> n <= z < 2 * n -> z mod n = z - n.
Proof using Type. intros. symmetry. apply (Z.mod_unique_pos _ _ 1); lia. Qed.

Lemma add_mod_spec x y :
  u512_reduced N x -> u512_reduced N y ->
  u512_reduced N (add_mod x y N) /\ u512_val (add_mod x y N) = (u512_val x + u512_val y) mod u512_val N.
Proof using HN.
  intros [Hx Lx] [Hy Ly]. pose proof (u512_bound N HN). pose proof (u512_bound x Hx). pose proof (u512_bound y Hy).
  destruct (add_spec x y Hx Hy) as [A1 A2]. destruct (sub_spec (add x y) N A1 HN) as [S1 S2].
  unfold u512_reduced, add_mod. rewrite u512_ltb_spec, u512_geb_spec by done.
  destruct (Z.ltb_spec (u512_val x + u512_val y) (2 ^ 512)).
  - rewrite (wrap_small 512 (_ + _)) in A2 by (unfold in_width; lia). rewrite A2 in *.
    destruct (Z.ltb_spec (u512_val x + u512_val y) (u512_val x)); [lia|]. cbn [orb].
    destruct (Z.leb_spec (u512_val N) (u512_val x + u512_val y)).
    + rewrite S2, wrap_small by (unfold in_width; lia). rewrite mod_sub_once by lia. split_and!; [done|lia..].
    + rewrite A2, Z.mod_small by lia. split_and!; [done|lia..].
  - assert (wrap 512 (u512_val x + u512_val y) = u512_val x + u512_val y - 2 ^ 512) as E
      by (symmetry; apply wrap_eq_intro; [lia|unfold in_width; lia|exists (-1); lia]).
    rewrite E in A2. rewrite A2 in *.
    destruct (Z.ltb_spec (u512_val x + u512_val y - 2 ^ 512) (u512_val x)); [|lia]. cbn [orb].
    assert (wrap 512 (u512_val x + u512_val y - 2 ^ 512 - u512_val N) = u512_val x + u512_val y - u512_val N) as E2
      by (symmetry; apply wrap_eq_intro; [lia|unfold in_width; lia|exists 1; lia]).
    rewrite S2, E2, mod_sub_once by lia. split_and!; [done|lia..].
Qed.

Lemma sub_mod_spec x y :
  u512_reduced N x -> u512_reduced N y ->
  u512_reduced N (sub_mod x y N) /\ u512_val (sub_mod x y N) = (u512_val x - u512_val y) mod u512_val N.
Proof using HN.
  intros [Hx Lx] [Hy Ly]. pose proof (u512_bound N HN). pose proof (u512_bound x Hx). pose proof (u512_bound y Hy).
  destruct (sub_spec x y Hx Hy) as [S1 S2]. destruct (add_spec (sub x y) N S1 HN) as [A1 A2].
  unfold u512_reduced, sub_mod. rewrite u512_ltb_spec by done.
  destruct (Z.ltb_spec (u512_val x) (u512_val y)).
  - assert (u512_val (add (sub x y) N) = u512_val x - u512_val y + u512_val N) as E.
    { rewrite A2, S2. unfold wrap. rewrite Zplus_mod_idemp_l, Z.mod_small by lia. done. }
    rewrite E. split_and!; [done|lia|]. apply (Z.mod_unique_pos _ _ (-1)); lia.
  - rewrite S2, wrap_small by (unfold in_width; lia). rewrite Z.mod_small by lia. split_and!; [done|lia..].
Qed.

Lemma negate_mod_spec x :
  u512_reduced N x -> u512_reduced N (negate_mod_inplace x N) /\ u512_val (negate_mod_inplace x N) = (- u512_val x) mod u512_val N.
Proof using HN.
  intros [Hx Lx]. pose proof (u512_bound N HN). pose proof (u512_bound x Hx).
  unfold u512_reduced, negate_mod_inplace. rewrite is_zero_spec by done.
  destruct (Z.eqb_spec (u512_val x) 0) as [E|].
  - rewrite E, Z.mod_0_l by lia. split_and!; [done|lia..].
  - destruct (sub_spec N x HN Hx) as [S1 S2]. rewrite S2, wrap_small by (unfold in_width; lia).
    split_and!; [done|lia|]. apply (Z.mod_unique_pos _ _ (-1)); lia.
Qed.

End reduced.

(** ** Shifts *)

Lemma rshift_bits_cons s x l :
  l <> [] -> rshift_bits s (x :: l)
  = Z.lor (Z.shiftr x s) (wrap 32 (Z.shiftl (nth 0 l 0) (32 - s))) :: rshift_bits s l.
Proof. by destruct l. Qed.

Lemma rshift_bits_spec s l :
  0 < s < 32 -> digits_ok 32 l ->
  digits_ok 32 (rshift_bits s l) /\ length (rshift_bits s l) = length l /\
  of_digits 32 (rshift_bits s l) = of_digits 32 l / 2 ^ s.
Proof.
  intros Hs. induction l as [|x l IH]; intros Hl; limb_cases; [done|].
  assert (in_width (32 - s) (Z.shiftr x s)) as Hx by (apply shiftr_in_width; [lia|done]).
  assert (2 ^ 32 = 2 ^ (32 - s) * 2 ^ s) as E32 by (rewrite <- Z.pow_add_r by lia; f_equal; lia).
  pose proof (Z.pow_pos_nonneg 2 s ltac:(lia) ltac:(lia)).
  pose proof (Z.pow_pos_nonneg 2 (32 - s) ltac:(lia) ltac:(lia)).
  destruct (decide (l = [])) as [->|Hne].
  { cbn. rewrite !Z.mul_0_r, !Z.add_0_r, Z.shiftr_div_pow2 in * by lia. rewrite digits_ok_cons.
    split_and!; auto with mpqs. unfold in_width in *. nia. }
  rewrite rshift_bits_cons by done. destruct (IH ltac:(done)) as (G1 & G2 & G3).
  rewrite Z.lor_comm, lor_wrap_shiftl by (done || lia). replace (32 - (32 - s)) with s by lia.
  pose proof (wrap_range s (nth 0 l 0) ltac:(lia)) as Hw. unfold in_width in *.
  rewrite digits_ok_cons. cbn [length of_digits]. split_and!; [unfold in_width; nia|done|lia|].
  rewrite G3, Z.shiftr_div_pow2 by lia. set (L := of_digits 32 l).
  assert (wrap s (nth 0 l 0) = L mod 2 ^ s) as ->.
  { destruct l as [|y l]; [done|]. subst L. cbn [nth of_digits]. unfold wrap.
    rewrite E32. replace (2 ^ (32 - s) * 2 ^ s * of_digits 32 l) with (2 ^ (32 - s) * of_digits 32 l * 2 ^ s) by lia.
    by rewrite Z.mod_add by lia. }
  replace (x + 2 ^ 32 * L) with (x + 2 ^ (32 - s) * L * 2 ^ s) by (rewrite E32; lia).
  rewrite Z.div_add by lia. pose proof (Z.div_mod L (2 ^ s) ltac:(lia)) as EL.
  replace (2 ^ (32 - s) * L) with (2 ^ (32 - s) * (2 ^ s * (L / 2 ^ s) + L mod 2 ^ s)) by (f_equal; lia).
  rewrite E32. lia.
Qed.

Lemma lshift_bits_spec s prev l :
  0 < s < 32 -> in_width 32 prev -> digits_ok 32 l ->
  digits_ok 32 (lshift_bits s prev l) /\ length (lshift_bits s prev l) = length l /\
  exists k, of_digits 32 (lshift_bits s prev l)
            = 2 ^ s * of_digits 32 l + Z.shiftr prev (32 - s) - k * 2 ^ (32 * Z.of_nat (length l)).
Proof.
  intros Hs. revert prev. induction l as [|x l IH]; intros prev Hp Hl; limb_cases; cbn [lshift_bits].
  { split_and!; [done..|]. exists (Z.shiftr prev (32 - s)). simpl. lia. }
  assert (in_width s (Z.shiftr prev (32 - s))) as Hx.
  { replace s with (32 - (32 - s)) at 1 by lia. apply shiftr_in_width; [lia|done]. }
  rewrite lor_wrap_shiftl by (done || lia).
  destruct (IH x) as (G1 & G2 & k & G3); [done..|].
  pose proof (wrap_range (32 - s) x ltac:(lia)) as Hw.
  pose proof (wrap_shiftr_split (32 - s) x ltac:(lia)) as Ex.
  assert (2 ^ 32 = 2 ^ (32 - s) * 2 ^ s) as E32 by (rewrite <- Z.pow_add_r by lia; f_equal; lia).
  unfold in_width in *.
  rewrite digits_ok_cons. cbn [length of_digits]. rewrite pow2_mul_S by lia.
  split_and!; [unfold in_width; nia|done|lia|]. exists k. rewrite G3. nia.
Qed.

Lemma rshift_spec x bits :
  u512_ok x -> 0 <= bits ->
  u512_ok (rshift x bits) /\ u512_val (rshift x bits) = u512_val x / 2 ^ bits.
Proof.
  intros Hx Hb. pose proof (u512_bound x Hx) as Bx. unfold rshift.
  destruct (Z.eqb_spec bits 0) as [->|]; [by rewrite Z.div_1_r|].
  destruct (Z.leb_spec 512 bits).
  { rewrite Z.div_small by (split; [lia|]; apply (Z.lt_le_trans _ (2 ^ 512)); [lia|]; apply Z.pow_le_mono_r; lia).
    by apply (u512_of_u32_spec 0). }
  destruct Hx as [Lx Dx]. set (k := Z.to_nat (bits / 32)).
  pose proof (Z.div_mod bits 32 ltac:(lia)) as Eb. pose proof (Z.mod_pos_bound bits 32 ltac:(lia)).
  assert (0 <= bits / 32 < 16) as Hk by (split; [apply Z.div_pos | apply Z.div_lt_upper_bound]; lia).
  set (l := drop k (limbs x) ++ replicate k 0).
  assert (length l = 16%nat) as Ll by (unfold l; rewrite length_app, length_drop, length_replicate; lia).
  assert (digits_ok 32 l) as Dl by (apply Forall_app; split; [by apply Forall_drop | by apply replicate_0_ok]).
  assert (of_digits 32 l = u512_val x / 2 ^ (32 * (bits / 32))) as El.
  { unfold l, u512_val. rewrite of_digits_app, of_digits_zeros, Z.mul_0_r, Z.add_0_r by lia.
    rewrite <- (take_drop k (limbs x)) at 2. rewrite of_digits_app, length_take by lia.
    replace (32 * Z.of_nat (k `min` length (limbs x))) with (32 * (bits / 32)) by lia.
    assert (digits_ok 32 (take k (limbs x))) as Dt by by apply Forall_take.
    pose proof (of_digits_bound 32 ltac:(lia) _ Dt) as Bt. rewrite length_take in Bt.
    replace (32 * Z.of_nat (k `min` length (limbs x))) with (32 * (bits / 32)) in Bt by lia.
    rewrite Z.add_comm, Z.mul_comm, Z.div_add_l, (Z.div_small (of_digits 32 (take k (limbs x)))) by lia. lia. }
  replace (2 ^ bits) with (2 ^ (32 * (bits / 32)) * 2 ^ (bits mod 32))
    by (rewrite <- Z.pow_add_r by lia; by rewrite <- Eb).
  rewrite <- Z.div_div, <- El by lia.
  destruct (Z.ltb_spec 0 (bits mod 32)).
  - destruct (rshift_bits_spec (bits mod 32) l) as (G1 & G2 & G3); [lia|done|].
    split; [split; cbn; [congruence|done]|done].
  - replace (bits mod 32) with 0 by lia. rewrite Z.div_1_r. done.
Qed.

Lemma lshift_spec x bits :
  u512_ok x -> 0 <= bits ->
  u512_ok (lshift x bits) /\ u512_val (lshift x bits) = wrap 512 (u512_val x * 2 ^ bits).
Proof.
  intros Hx Hb. pose proof (u512_bound x Hx) as Bx. unfold lshift.
  destruct (Z.eqb_spec bits 0) as [->|].
  { rewrite Z.mul_1_r, wrap_small by done. done. }
  destruct (Z.leb_spec 512 bits).
  { replace (2 ^ bits) with (2 ^ (bits - 512) * 2 ^ 512) by (rewrite <- Z.pow_add_r by lia; f_equal; lia).
    unfold wrap. rewrite Z.mul_assoc, Z.mod_mul by lia. by apply (u512_of_u32_spec 0). }
  destruct Hx as [Lx Dx]. set (k := Z.to_nat (bits / 32)).
  pose proof (Z.div_mod bits 32 ltac:(lia)) as Eb. pose proof (Z.mod_pos_bound bits 32 ltac:(lia)).
  assert (0 <= bits / 32 < 16) as Hk by (split; [apply Z.div_pos | apply Z.div_lt_upper_bound]; lia).
  set (l := replicate k 0 ++ take (16 - k) (limbs x)).
  assert (length l = 16%nat) as Ll by (unfold l; rewrite length_app, length_take, length_replicate; lia).
  assert (digits_ok 32 l) as Dl by (apply Forall_app; split; [by apply replicate_0_ok | by apply Forall_take]).
  assert (exists j, of_digits 32 l = u512_val x * 2 ^ (32 * (bits / 32)) - j * 2 ^ 512) as [j El].
  { exists (of_digits 32 (drop (16 - k) (limbs x))).
    unfold l, u512_val. rewrite of_digits_app, of_digits_zeros, length_replicate by lia.
    rewrite <- (take_drop (16 - k) (limbs x)) at 2. rewrite of_digits_app, length_take by lia.
    replace (2 ^ 512) with (2 ^ (32 * (bits / 32)) * 2 ^ (32 * Z.of_nat ((16 - k) `min` length (limbs x))))
      by (rewrite <- Z.pow_add_r by lia; f_equal; lia).
    replace (32 * Z.of_nat k) with (32 * (bits / 32)) by lia. lia. }
  replace (2 ^ bits) with (2 ^ (32 * (bits / 32)) * 2 ^ (bits mod 32)) by (rewrite <- Z.pow_add_r by lia; by rewrite <- Eb).
  destruct (Z.ltb_spec 0 (bits mod 32)).
  - destruct (lshift_bits_spec (bits mod 32) 0 l) as (G1 & G2 & i & G3); [lia|by unfold in_width|done|].
    apply (u512_intro _ _ (- i - j * 2 ^ (bits mod 32))); [done|congruence|].
    rewrite G3, El, Ll, Z.shiftr_0_l. change (32 * Z.of_nat 16) with 512. lia.
  - apply (u512_intro _ _ (- j)); [done..|]. replace (bits mod 32) with 0 by lia. lia.
Qed.

Lemma double_mod_spec N x :
  u512_ok N -> u512_reduced N x ->
  u512_reduced N (double_mod x N) /\ u512_val (double_mod x N) = (2 * u512_val x) mod u512_val N.
Proof.
  intros HN [Hx Lx]. pose proof (u512_bound N HN). pose proof (u512_bound x Hx).
  destruct (lshift_spec x 1 Hx ltac:(lia)) as [A1 A2]. change (2 ^ 1) with 2 in A2.
  destruct (sub_spec (lshift x 1) N A1 HN) as [S1 S2].
  unfold u512_reduced, double_mod. rewrite u512_geb_spec by done.
  assert (Z.shiftr (nth 15 (limbs x) 0) 31 = u512_val x / 2 ^ 511) as ->.
  { destruct Hx as [L D]. unfold u512_val. rewrite <- (firstn_skipn 15 (limbs x)) at 2.
    rewrite of_digits_app, length_firstn, L by lia. change (32 * Z.of_nat (15 `min` 16)) with 480.
    assert (digits_ok 32 (take 15 (limbs x))) as Dt by by apply Forall_take.
    pose proof (of_digits_bound 32 ltac:(lia) _ Dt) as Bt. rewrite length_take, L in Bt.
    change (32 * Z.of_nat (15 `min` 16)) with 480 in Bt.
    assert (skipn 15 (limbs x) = [nth 15 (limbs x) 0]) as ->
      by (destruct x as [l]; cbn in *; do 17 (destruct l as [|? l]; [try done|]); done).
    cbn [of_digits]. rewrite Z.mul_0_r, Z.add_0_r. change (2 ^ 511) with (2 ^ 480 * 2 ^ 31).
    rewrite <- Z.div_div, Z.add_comm, Z.mul_comm, Z.div_add_l, (Z.div_small (of_digits 32 (take 15 (limbs x)))) by lia.
    by rewrite Z.add_0_r, Z.shiftr_div_pow2. }
  destruct (Z.ltb_spec (u512_val x) (2 ^ 511)).
  - rewrite Z.div_small by lia. cbn [negb orb Z.eqb].
    rewrite wrap_small in A2 by (unfold in_width; lia). rewrite A2 in *.
    destruct (Z.leb_spec (u512_val N) (u512_val x * 2)).
    + rewrite S2, wrap_small by (unfold in_width; lia). rewrite mod_sub_once by lia. split_and!; [done|lia..].
    + rewrite A2, Z.mod_small by lia. split_and!; [done|lia..].
  - assert (u512_val x / 2 ^ 511 = 1) as -> by (symmetry; apply (Z.div_unique_pos _ _ _ (u512_val x - 2 ^ 511)); lia).
    cbn [negb orb Z.eqb]. rewrite mod_sub_once by lia.
    assert (u512_val (sub (lshift x 1) N) = 2 * u512_val x - u512_val N) as ->.
    { rewrite S2, A2. unfold wrap. rewrite Zminus_mod_idemp_l, Z.mod_small; lia. }
    split_and!; [done|lia..].
Qed.

(** ** The properties *)

(** Addition, subtraction, multiplication and their word-sized variants compute
    the ring operations modulo [2^512] on every operand, and
    [mul_uint64_inplace] returns the exact carry out of 512 bits. *)
Theorem ring_ops_exact x y v w :
  u512_ok x -> u512_ok y -> in_width 32 v -> in_width 64 w ->
  u512_val (add x y) = (u512_val x + u512_val y) mod 2 ^ 512 /\
  u512_val (sub x y) = (u512_val x - u512_val y) mod 2 ^ 512 /\
  u512_val (mult x y) = (u512_val x * u512_val y) mod 2 ^ 512 /\
  u512_val (add_uint32 x v) = (u512_val x + v) mod 2 ^ 512 /\
  u512_val (mult_uint32 x v) = (u512_val x * v) mod 2 ^ 512 /\
  u512_val (mul_uint64_inplace x w).1 = (u512_val x * w) mod 2 ^ 512 /\
  (mul_uint64_inplace x w).2 = u512_val x * w / 2 ^ 512 /\
  (forall z, z ∈ [add x y; sub x y; mult x y; add_uint32 x v; mult_uint32 x v; (mul_uint64_inplace x w).1] ->
     u512_ok z).
Proof.
  intros Hx Hy Hv Hw.
  destruct (add_spec x y) as [A1 A2]; [done..|]. destruct (sub_spec x y) as [S1 S2]; [done..|].
  destruct (mult_spec x y) as [M1 M2]; [done..|]. destruct (add_uint32_spec x v) as [U1 U2]; [done..|].
  destruct (mult_uint32_spec x v) as [V1 V2]; [done..|].
  destruct (mul_uint64_inplace_spec x w) as (W1 & W2 & W3); [done..|]. pose proof (u512_bound _ W1).
  split_and!; try done.
  - apply (Z.mod_unique_pos _ _ (mul_uint64_inplace x w).2); lia.
  - apply (Z.div_unique_pos _ _ _ (u512_val (mul_uint64_inplace x w).1)); lia.
  - intros z Hz. rewrite !elem_of_cons, elem_of_nil in Hz. by destruct Hz as [->|[->|[->|[->|[->|[->|[]]]]]]].
Qed.

Lemma ring_ops_exact_witness :
  u512_ok (u512_of_Z (2 ^ 511)) /\
  u512_val (add (u512_of_Z (2 ^ 511)) (u512_of_Z (2 ^ 511))) = 0.
Proof.
  split; [apply u512_of_Z_spec|].
  rewrite (proj1 (ring_ops_exact (u512_of_Z (2 ^ 511)) (u512_of_Z (2 ^ 511)) 1 1 (proj1 (u512_of_Z_spec _))
    (proj1 (u512_of_Z_spec _)) ltac:(by unfold in_width) ltac:(by unfold in_width))).
  reflexivity.
Defined.

(** [div_mod_core] returns the quotient and the remainder for every divisor other
    than zero, also those of [2^511] and more whose shifted remainder leaves 512
    bits; a zero divisor leaves the dividend and writes no remainder. The word
    divisions and remainders agree with the integer ones. *)
Theorem division_exact x d :
  u512_ok x -> u512_ok d ->
  (if u512_val d =? 0 then div_mod_core x d = (x, None)
   else u512_val (div x d) = u512_val x / u512_val d /\ u512_val (mod_ x d) = u512_val x mod u512_val d) /\
  (forall v, 0 < v < 2 ^ 32 ->
     u512_val (div_uint32_const x v) = u512_val x / v /\ u512_val (div_uint32_inplace x v).1 = u512_val x / v /\
     (div_uint32_inplace x v).2 = u512_val x mod v /\ mod_uint32 x v = u512_val x mod v) /\
  (forall v, 0 < v < 2 ^ 64 ->
     u512_val (div_uint64_inplace x v).1 = u512_val x / v /\
     (div_uint64_inplace x v).2 = u512_val x mod v /\ mod_uint64 x v = u512_val x mod v).
Proof.
  intros Hx Hd. split; [|split].
  - destruct (Z.eqb_spec (u512_val d) 0) as [E|].
    + unfold div_mod_core. by rewrite is_zero_spec, E by done.
    + split; [by apply div_spec | by apply mod_spec].
  - intros v Hv. rewrite div_uint32_const_eq, mod_uint32_eq by lia.
    destruct (Z.eqb_spec v 0); [lia|]. by destruct (div_uint32_inplace_spec x v) as (_ & ? & ?).
  - intros v Hv. rewrite mod_uint64_eq by lia.
    destruct (Z.eqb_spec v 0); [lia|]. by destruct (div_uint64_inplace_spec x v) as (_ & ? & ?).
Qed.

Lemma division_exact_witness :
  u512_val (mod_ (u512_of_Z (7 ^ 180)) (u512_of_Z (2 ^ 511 + 12345))) = 7 ^ 180 mod (2 ^ 511 + 12345).
Proof.
  destruct (division_exact (u512_of_Z (7 ^ 180)) (u512_of_Z (2 ^ 511 + 12345))) as [H _];
    [apply u512_of_Z_spec.. |].
  exact (proj2 H).
Defined.

(** On reduced operands [add_mod], [sub_mod], [double_mod], [mul_mod] and
    [negate_mod_inplace] return the reduced result of the modular operation, for
    every modulus up to [2^512 - 1]. *)
Theorem modular_ops_exact N x y :
  u512_ok N -> u512_reduced N x -> u512_reduced N y ->
  u512_val (add_mod x y N) = (u512_val x + u512_val y) mod u512_val N /\
  u512_val (sub_mod x y N) = (u512_val x - u512_val y) mod u512_val N /\
  u512_val (double_mod x N) = (2 * u512_val x) mod u512_val N /\
  u512_val (negate_mod_inplace x N) = (- u512_val x) mod u512_val N /\
  u512_val (mul_mod x y N) = (u512_val x * u512_val y) mod u512_val N /\
  (forall z, z ∈ [add_mod x y N; sub_mod x y N; double_mod x N; negate_mod_inplace x N; mul_mod x y N] ->
     u512_reduced N z).
Proof.
  intros HN Hx Hy. pose proof (u512_bound x (proj1 Hx)). assert (u512_val N <> 0) by (destruct Hx; lia).
  destruct (add_mod_spec N HN x y Hx Hy) as [A1 A2]. destruct (sub_mod_spec N HN x y Hx Hy) as [S1 S2].
  destruct (double_mod_spec N x HN Hx) as [D1 D2]. destruct (negate_mod_spec N HN x Hx) as [G1 G2].
  destruct (mul_mod_spec x y N (proj1 Hx) (proj1 Hy) HN) as [M1 M2]; [done|].
  split_and!; try done. intros z Hz. rewrite !elem_of_cons, elem_of_nil in Hz.
  destruct Hz as [->|[->|[->|[->|[->|[]]]]]]; try done. split; [done|]. rewrite M2.
  pose proof (u512_bound N HN). apply Z.mod_pos_bound. lia.
Qed.

Lemma modular_ops_exact_witness :
  u512_val (add_mod (u512_of_Z (2 ^ 511)) (u512_of_Z (2 ^ 511 + 5)) (u512_of_Z (2 ^ 512 - 9))) = 14.
Proof.
  refine (eq_trans (proj1 (modular_ops_exact (u512_of_Z (2 ^ 512 - 9)) (u512_of_Z (2 ^ 511)) (u512_of_Z (2 ^ 511 + 5))
    (proj1 (u512_of_Z_spec _)) (conj (proj1 (u512_of_Z_spec _)) _) (conj (proj1 (u512_of_Z_spec _)) _))) _);
    reflexivity.
Defined.
