(* ===== verification/UInt512Sqrt.v ===== *)
(** The square root of the 512-bit integers and the wide-intermediate helpers of
    [uint512.cuh]: Newton's iteration reaches the integer square root within its
    32 rounds, and [abs_square_minus_N] carries the 1024-bit square. *)
From Stdlib Require Import ZArith Lia.
From stdpp Require Import base gmap sets list.
From S2P Require Import Prelude UInt512 UInt512Div.
#[local] Open Scope Z_scope.

(** Newton's iteration on integers, the reference for the limb version. *)
Definition newton (n x : Z) : Z := (n / x + x) / 2.

Fixpoint newton_loop (n : Z) (fuel : nat) (x : Z) : Z :=
  match fuel with
  | O => x
  | S f => if x <=? newton n x then x else newton_loop n f (newton n x)
  end.

(** The seed [2^b], one bit set in a zero array. *)
Definition sqrt_seed (b : Z) : uint512 :=
  mkU512 (<[Z.to_nat (b / 32) := wrap 32 (Z.shiftl 1 (b mod 32))]> (replicate 16 0)).

(** ** Newton's iteration from above the root *)
Section newton.
Context (n : Z) (Hn : 0 < n).
Notation r := (Z.sqrt n).

Lemma sqrt_bounds : 0 < r /\ r * r <= n < (r + 1) * (r + 1).
Proof using Hn.
  pose proof (Z.sqrt_spec n ltac:(lia)). unfold Z.succ in *.
  assert (0 < r) by (apply Z.sqrt_pos; lia). lia.
Qed.

Lemma newton_above x : r <= x -> r <= newton n x.
Proof using Hn.
  intros Hx. pose proof sqrt_bounds. unfold newton.
  apply Z.div_le_lower_bound; [lia|].
  destruct (Z.le_gt_cases (2 * r) (n / x + x)); [done|].
  assert (n < x * (2 * r - x)).
  { pose proof (Z.mul_succ_div_gt n x ltac:(lia)). unfold Z.succ in *. nia. }
  nia.
Qed.

(** The loop stops only at the root. *)
Lemma newton_stop x : r <= x -> x <= newton n x -> x = r.
Proof using Hn.
  intros Hx Hs. pose proof sqrt_bounds. unfold newton in Hs.
  assert (x <= n / x).
  { pose proof (Z.mul_div_le (n / x + x) 2). lia. }
  assert (x * x <= n) by (pose proof (Z.mul_div_le n x); nia).
  nia.
Qed.

(** Quadratic convergence of the excess over the root. *)
Lemma newton_step x d' :
  r <= x -> newton n x = r + d' -> 2 * x * d' <= (x - r) * (x - r) + 2 * r.
Proof using Hn.
  intros Hx E. pose proof sqrt_bounds. unfold newton in E.
  pose proof (Z.mul_div_le (n / x + x) 2). pose proof (Z.mul_div_le n x ltac:(lia)). nia.
Qed.

Lemma newton_excess k x :
  0 <= k -> r <= x -> 2 ^ k * (x - r - 2) <= r -> 2 ^ (2 * k + 1) * (newton n x - r - 2) <= r.
Proof using Hn.
  intros Hk Hx Hd. pose proof sqrt_bounds as Hr. pose proof (newton_step x (newton n x - r) Hx ltac:(lia)) as Hs.
  set (d' := newton n x - r) in *. set (e := x - r - 2) in *.
  replace (2 ^ (2 * k + 1)) with (2 * (2 ^ k * 2 ^ k))
    by (rewrite <- Z.pow_add_r, <- Z.pow_succ_r by lia; f_equal; lia).
  pose proof (Z.pow_pos_nonneg 2 k ltac:(lia) Hk). set (P := 2 ^ k) in *.
  destruct (Z.le_gt_cases (d' - 2) 0); [nia|].
  assert (2 * r * (d' - 2) <= e * e) as H2 by nia.
  assert (0 <= e) by nia.
  assert ((P * e) * (P * e) <= r * r) as H3 by nia.
  assert (P * P * (2 * r * (d' - 2)) <= P * P * (e * e)) by (apply Z.mul_le_mono_nonneg_l; nia).
  apply (Z.mul_le_mono_pos_l _ _ r); lia.
Qed.

Lemma newton_near x f : r <= x <= r + 2 -> (3 <= f)%nat -> newton_loop n f x = r.
Proof using Hn.
  intros Hx Hf. pose proof sqrt_bounds.
  assert (forall y f, y = r -> newton_loop n f y = r) as H0.
  { intros y g ->. destruct g; [done|]. cbn. destruct (Z.leb_spec r (newton n r)); [done|].
    pose proof (newton_above r). lia. }
  assert (forall y f, r <= y <= r + 1 -> (1 <= f)%nat -> newton_loop n f y = r) as H1.
  { intros y [|g] Hy ?; [lia|]. cbn. destruct (Z.leb_spec y (newton n y)); [apply newton_stop; lia|].
    apply H0. pose proof (newton_above y). lia. }
  destruct f as [|[|f]]; [lia..|]. cbn [newton_loop].
  destruct (Z.leb_spec x (newton n x)); [apply newton_stop; lia|].
  change (newton_loop n (S f) (newton n x) = r). apply H1; [|lia]. pose proof (newton_above x). lia.
Qed.

Lemma newton_loop_sqrt m k x f :
  0 <= k -> n < 2 ^ 512 -> 512 <= (k + 1) * 2 ^ Z.of_nat m -> (m + 3 <= f)%nat ->
  r <= x -> 2 ^ k * (x - r - 2) <= r -> newton_loop n f x = r.
Proof using Hn.
  intros Hk Hlt. pose proof sqrt_bounds as Hr. revert k x f Hk. induction m as [|m IH]; intros k x f Hk Hm Hf Hx Hd.
  - apply newton_near; [|lia]. split; [done|].
    destruct (Z.le_gt_cases x (r + 2)); [done|]. exfalso.
    assert (2 ^ 511 <= 2 ^ k) by (apply Z.pow_le_mono_r; lia).
    assert (r < 2 ^ 511); [|nia]. assert (2 ^ 512 <= 2 ^ 511 * 2 ^ 511) by done. nia.
  - destruct f as [|f]; [lia|]. cbn [newton_loop].
    destruct (Z.leb_spec x (newton n x)); [by apply newton_stop|].
    apply (IH (2 * k + 1)); [lia| |lia|by apply newton_above|by apply newton_excess].
    rewrite Nat2Z.inj_succ, Z.pow_succ_r in Hm by lia. lia.
Qed.

End newton.

(** ** The limb version follows the integer iteration *)

Lemma sqrt_lt_256 x : u512_ok x -> Z.sqrt (u512_val x) < 2 ^ 256.
Proof.
  intros Hx. pose proof (u512_bound x Hx). destruct (Z.lt_ge_cases (Z.sqrt (u512_val x)) (2 ^ 256)); [done|].
  pose proof (Z.sqrt_spec (u512_val x) ltac:(lia)) as Hs. cbv zeta in Hs. assert (2 ^ 512 = 2 ^ 256 * 2 ^ 256) by done.
  assert (2 ^ 256 * 2 ^ 256 <= Z.sqrt (u512_val x) * Z.sqrt (u512_val x)) by (apply Z.mul_le_mono_nonneg; lia). lia.
Qed.

Lemma sqrt_round_spec a x :
  u512_ok a -> u512_ok x -> 0 < u512_val a -> Z.sqrt (u512_val a) <= u512_val x <= 2 ^ 257 ->
  u512_ok (rshift (add (div a x) x) 1) /\
  u512_val (rshift (add (div a x) x) 1) = newton (u512_val a) (u512_val x).
Proof.
  intros Ha Hx Hp Hr. pose proof (sqrt_bounds _ Hp) as [Hr0 Hr1]. pose proof (sqrt_lt_256 a Ha).
  destruct (div_spec a x) as [D1 D2]; [done..|lia|].
  destruct (add_spec (div a x) x D1 Hx) as [A1 A2].
  destruct (rshift_spec (add (div a x) x) 1 A1 ltac:(lia)) as [R1 R2].
  split; [done|]. rewrite R2, A2, D2, wrap_small; [done|]. unfold in_width.
  assert (u512_val a / u512_val x <= Z.sqrt (u512_val a) + 2).
  { apply Z.div_le_upper_bound; [lia|]. nia. }
  pose proof (Z.div_pos (u512_val a) (u512_val x)). lia.
Qed.

Lemma sqrt_loop_newton a f x :
  u512_ok a -> u512_ok x -> 0 < u512_val a -> Z.sqrt (u512_val a) <= u512_val x <= 2 ^ 257 ->
  u512_ok (sqrt_loop a f x) /\ u512_val (sqrt_loop a f x) = newton_loop (u512_val a) f (u512_val x).
Proof.
  intros Ha Hx Hp. revert x Hx. induction f as [|f IH]; intros x Hx Hr; cbn [sqrt_loop newton_loop]; [done|].
  destruct (sqrt_round_spec a x Ha Hx Hp Hr) as [T1 T2]. rewrite u512_ltb_spec by done. rewrite T2.
  destruct (Z.ltb_spec (newton (u512_val a) (u512_val x)) (u512_val x)),
    (Z.leb_spec (u512_val x) (newton (u512_val a) (u512_val x))); try lia; cbn [negb]; [|done].
  rewrite <- T2. apply IH; [done|]. rewrite T2.
  pose proof (newton_above _ Hp (u512_val x) ltac:(lia)). lia.
Qed.

Lemma sqrt_seed_spec b : 0 <= b < 512 -> u512_ok (sqrt_seed b) /\ u512_val (sqrt_seed b) = 2 ^ b.
Proof.
  intros Hb.
  assert (sqrt_seed b = mkU512 (set_bit (replicate 16 0) b)) as -> by done.
  destruct (set_bit_spec (replicate 16 0) b) as (G1 & G2 & G3).
  - by apply replicate_0_ok.
  - rewrite length_replicate. lia.
  - rewrite of_digits_zeros by lia. apply Z.bits_0.
  - split; [done|]. unfold u512_val. cbn [limbs]. rewrite G3, of_digits_zeros by lia. done.
Qed.

Lemma sqrt_spec x : u512_ok x -> u512_ok (sqrt x) /\ u512_val (sqrt x) = Z.sqrt (u512_val x).
Proof.
  intros Hx. pose proof (u512_bound x Hx). unfold sqrt. rewrite is_zero_spec by done.
  destruct (Z.eqb_spec (u512_val x) 0) as [->|]; [by apply (u512_of_u32_spec 0)|].
  rewrite msb_spec by done. pose proof (log2_lt_512 x Hx) as Hlog.
  set (b := Z.log2 (u512_val x) / 2 + 1).
  assert (1 <= b <= 256) as Hb.
  { unfold b. pose proof (Z.div_pos (Z.log2 (u512_val x)) 2).
    assert (Z.log2 (u512_val x) / 2 < 256) by (apply Z.div_lt_upper_bound; lia). lia. }
  destruct (sqrt_seed_spec b) as [S1 S2]; [lia|].
  assert (0 < u512_val x) as Hp by lia. pose proof (sqrt_bounds _ Hp) as [Hr0 Hr1].
  assert (2 ^ (b - 1) <= Z.sqrt (u512_val x) < 2 ^ b) as Hr.
  { pose proof (Z.log2_spec _ Hp) as [L1 L2]. pose proof (Z.div_mod (Z.log2 (u512_val x)) 2 ltac:(lia)) as E.
    pose proof (Z.mod_pos_bound (Z.log2 (u512_val x)) 2 ltac:(lia)).
    replace (b - 1) with (Z.log2 (u512_val x) / 2) by (unfold b; lia). split.
    - apply Z.sqrt_le_square; [lia..|]. rewrite <- Z.pow_add_r by lia.
      apply (Z.le_trans _ (2 ^ Z.log2 (u512_val x))); [apply Z.pow_le_mono_r; lia | lia].
    - apply Z.sqrt_lt_square; [lia..|]. rewrite <- Z.pow_add_r by lia.
      apply (Z.lt_le_trans _ (2 ^ Z.succ (Z.log2 (u512_val x)))); [lia|]. apply Z.pow_le_mono_r; unfold b; lia. }
  assert (2 ^ b = 2 * 2 ^ (b - 1)) as Eb by (rewrite <- Z.pow_succ_r by lia; f_equal; lia).
  assert (2 ^ b <= 2 ^ 256) by (apply Z.pow_le_mono_r; lia).
  destruct (sqrt_loop_newton x 32 (sqrt_seed b)) as [G1 G2]; [done..|rewrite S2; lia|].
  split; [exact G1|]. fold (sqrt_seed b). rewrite G2, S2.
  apply (newton_loop_sqrt _ Hp 9 0); [lia|lia|done|lia|lia|lia].
Qed.

(** ** Wide intermediates *)

Lemma existsb_nonzero l : existsb (fun x => negb (x =? 0)) l = negb (forallb (fun x => x =? 0) l).
Proof. induction l as [|x l IH]; cbn; [done|]. rewrite IH. by destruct (x =? 0). Qed.

Lemma abs_square_minus_N_spec s N :
  u512_ok s -> u512_ok N -> Z.abs (u512_val s * u512_val s - u512_val N) < 2 ^ 512 ->
  u512_ok (abs_square_minus_N s N).1 /\
  u512_val (abs_square_minus_N s N).1 = Z.abs (u512_val s * u512_val s - u512_val N) /\
  (abs_square_minus_N s N).2 = (if u512_val N <=? u512_val s * u512_val s then 1 else -1).
Proof.
  intros Hs HN Hlt. pose proof (u512_bound N HN) as BN.
  destruct (prod1024_spec s s Hs Hs) as (P1 & P2 & P3). unfold abs_square_minus_N.
  set (p := prod1024 (limbs s) (limbs s)) in *.
  assert (digits_ok 32 (take 16 p) /\ length (take 16 p) = 16%nat) as [T1 T2].
  { split; [by apply Forall_take | by rewrite length_take, P2]. }
  assert (digits_ok 32 (drop 16 p)) as D1 by by apply Forall_drop.
  assert (of_digits 32 p = of_digits 32 (take 16 p) + 2 ^ 512 * of_digits 32 (drop 16 p)) as Ep.
  { rewrite <- (take_drop 16 p) at 1. rewrite of_digits_app, T2 by lia. done. }
  pose proof (of_digits_bound 32 ltac:(lia) _ T1) as Bt. rewrite T2 in Bt. change (32 * Z.of_nat 16) with 512 in Bt.
  pose proof (of_digits_nonneg 32 ltac:(lia) _ D1) as Bd.
  rewrite existsb_nonzero, all_zero_spec by done. destruct HN as [LN DN].
  rewrite cmp_limbs_spec by (done || congruence). fold (u512_val N).
  set (g := if negb (of_digits 32 (drop 16 p) =? 0) then true else _).
  assert (g = (u512_val N <=? u512_val s * u512_val s)) as ->.
  { unfold g. destruct (Z.eqb_spec (of_digits 32 (drop 16 p)) 0); cbn [negb].
    - destruct (Z.compare_spec (of_digits 32 (take 16 p)) (u512_val N)); symmetry; apply Z.leb_le || apply Z.leb_gt; lia.
    - symmetry. apply Z.leb_le. lia. }
  assert (forall u v z, digits_ok 32 u -> digits_ok 32 v -> length u = 16%nat -> length v = 16%nat ->
    0 <= z < 2 ^ 512 -> (exists k, of_digits 32 u - of_digits 32 v = z + k * 2 ^ 512) ->
    u512_ok (mkU512 (sub64_loop u v 0)) /\ u512_val (mkU512 (sub64_loop u v 0)) = z) as Hsub.
  { intros u v z Hu Hv Lu Lv Hz [k Hk]. rewrite sub64_loop_sub by (done || lia).
    destruct (sub_loop_spec u v 0) as (G1 & G2 & G3 & G4); [done..|congruence|lia|].
    rewrite Lu in G4. change (32 * Z.of_nat 16) with 512 in G4.
    rewrite <- (wrap_small 512 z) by done.
    apply (u512_intro _ _ (k + (sub_loop u v 0).2)); [done|congruence|lia]. }
  destruct (Z.leb_spec (u512_val N) (u512_val s * u512_val s)); cbn [fst snd].
  - destruct (Hsub (take 16 p) (limbs N) (Z.abs (u512_val s * u512_val s - u512_val N))) as [? ?]; [done..|lia| |done].
    exists (- of_digits 32 (drop 16 p)). fold (u512_val N). lia.
  - destruct (Hsub (limbs N) (take 16 p) (Z.abs (u512_val s * u512_val s - u512_val N))) as [? ?]; [done..|lia| |done].
    exists (of_digits 32 (drop 16 p)). fold (u512_val N). lia.
Qed.

(** ** The properties *)

(** The 32 rounds of [sqrt] always reach the integer square root: the result is
    [floor (sqrt x)] for every 512-bit value. *)
Theorem sqrt_exact x : u512_ok x -> u512_val (sqrt x) = Z.sqrt (u512_val x).
Proof. intros Hx. by destruct (sqrt_spec x Hx). Qed.

Lemma sqrt_exact_witness : u512_val (sqrt (u512_of_Z (2 ^ 512 - 1))) = 2 ^ 256 - 1.
Proof.
  refine (eq_trans (sqrt_exact (u512_of_Z (2 ^ 512 - 1)) (proj1 (u512_of_Z_spec _))) _). reflexivity.
Defined.

(** [abs_square_minus_N] returns the magnitude of [s^2 - N] and its sign whenever
    the magnitude fits 512 bits, also when [s^2] itself does not. *)
Theorem abs_square_minus_N_exact s N :
  u512_ok s -> u512_ok N -> Z.abs (u512_val s * u512_val s - u512_val N) < 2 ^ 512 ->
  u512_val (abs_square_minus_N s N).1 = Z.abs (u512_val s * u512_val s - u512_val N) /\
  u512_val s * u512_val s - u512_val N = (abs_square_minus_N s N).2 * u512_val (abs_square_minus_N s N).1.
Proof.
  intros Hs HN Hlt. destruct (abs_square_minus_N_spec s N Hs HN Hlt) as (_ & -> & ->).
  split; [done|]. destruct (Z.leb_spec (u512_val N) (u512_val s * u512_val s)); lia.
Qed.

Lemma abs_square_minus_N_exact_witness :
  u512_val (abs_square_minus_N (u512_of_Z (2 ^ 256)) (u512_of_Z (2 ^ 512 - 1))).1 = 1.
Proof.
  refine (eq_trans (proj1 (abs_square_minus_N_exact (u512_of_Z (2 ^ 256)) (u512_of_Z (2 ^ 512 - 1))
    (proj1 (u512_of_Z_spec _)) (proj1 (u512_of_Z_spec _)) _)) _); reflexivity.
Defined.

(** [mul_add_mod_signed] computes [(a * x + b) mod N] for a non-negative [x] when
    [a * x + b] fits 512 bits, and for a negative [x] when [a * |x|] is at most [b + N]. *)
Theorem mul_add_mod_signed_exact a x b N :
  u512_ok a -> u512_ok N -> u512_reduced N b -> - 2 ^ 63 <= x < 2 ^ 63 ->
  (0 <= x -> u512_val a * x + u512_val b < 2 ^ 512) ->
  (x < 0 -> u512_val a * - x <= u512_val b + u512_val N /\ u512_val a * - x < 2 ^ 512) ->
  u512_val (mul_add_mod_signed a x b N) = (u512_val a * x + u512_val b) mod u512_val N.
Proof.
  intros Ha HN [Hb Lb] Hx Hpos Hneg. pose proof (u512_bound a Ha). pose proof (u512_bound b Hb).
  pose proof (u512_bound N HN). unfold mul_add_mod_signed.
  assert (wrap 64 (if x <? 0 then - x else x) = Z.abs x) as ->.
  { rewrite wrap_small by (unfold in_width; destruct (Z.ltb_spec x 0); lia). destruct (Z.ltb_spec x 0); lia. }
  destruct (mul_uint64_inplace_spec a (Z.abs x) Ha) as (W1 & W2 & W3); [unfold in_width; lia|].
  destruct (mul_uint64_inplace a (Z.abs x)) as [p carry]. cbn [fst snd] in *. pose proof (u512_bound p W1).
  unfold in_width in *.
  assert (u512_val a * Z.abs x < 2 ^ 512) by (destruct (Z.le_gt_cases 0 x); [specialize (Hpos ltac:(lia)) | specialize (Hneg ltac:(lia))]; lia).
  assert (carry = 0) as -> by lia. cbn [Z.eqb]. destruct (Z.ltb_spec x 0); cbn [negb].
  - specialize (Hneg ltac:(lia)). rewrite u512_geb_spec by done.
    destruct (Z.leb_spec (u512_val p) (u512_val b)).
    + destruct (sub_spec b p Hb W1) as [S1 S2]. rewrite S2, wrap_small by (unfold in_width; lia).
      rewrite Z.mod_small by lia. lia.
    + destruct (sub_spec p b W1 Hb) as [S1 S2]. rewrite wrap_small in S2 by (unfold in_width; lia).
      unfold negate_mod_inplace. rewrite is_zero_spec by done. destruct (Z.eqb_spec (u512_val (sub p b)) 0); [lia|].
      destruct (sub_spec N (sub p b) HN S1) as [T1 T2]. rewrite T2, S2, wrap_small by (unfold in_width; lia).
      apply (Z.mod_unique_pos _ _ (-1)); lia.
  - specialize (Hpos ltac:(lia)). destruct (add_spec p b W1 Hb) as [A1 A2].
    rewrite wrap_small in A2 by (unfold in_width; lia).
    assert (u512_val (add p b) = u512_val a * x + u512_val b) as E by lia. rewrite <- E.
    rewrite u512_geb_spec by done. destruct (Z.leb_spec (u512_val N) (u512_val (add p b)));
      [|by rewrite Z.mod_small by lia].
    destruct (sub_spec (add p b) N A1 HN) as [S1 S2]. rewrite wrap_small in S2 by (unfold in_width; lia).
    rewrite u512_geb_spec by done.
    replace (u512_val (add p b)) with (u512_val (sub (add p b) N) + 1 * u512_val N) by lia.
    rewrite Z_mod_plus_full.
    destruct (Z.leb_spec (u512_val N) (u512_val (sub (add p b) N))).
    + destruct (mod_spec (sub (add p b) N) N S1 HN) as [M1 M2]; [lia|]. done.
    + by rewrite Z.mod_small by (pose proof (u512_bound _ S1); lia).
Qed.

Lemma mul_add_mod_signed_exact_witness :
  u512_val (mul_add_mod_signed (u512_of_Z 5) (-3) (u512_of_Z 4) (u512_of_Z 101)) = 90.
Proof.
  refine (eq_trans (mul_add_mod_signed_exact (u512_of_Z 5) (-3) (u512_of_Z 4) (u512_of_Z 101)
    (proj1 (u512_of_Z_spec _)) (proj1 (u512_of_Z_spec _)) (conj (proj1 (u512_of_Z_spec _)) _) _ _ _) _);
    vm_compute; intuition discriminate.
Defined.

(** Outside that range the fast path is wrong: the comment claims that without a
    carry [a * |x| - b] is below [N], and here it is 9 for [N = 7], so the result
    is the wrapped [7 - 9]. *)
Lemma mul_add_mod_signed_unreduced :
  u512_val (mul_add_mod_signed (u512_of_Z 5) (-2) (u512_of_Z 1) (u512_of_Z 7)) = 2 ^ 512 - 2 /\
  (5 * -2 + 1) mod 7 = 5.
Proof. vm_compute. done. Qed.
