(* ===== verification/UInt512Text.v ===== *)
(** Decimal text of the 512-bit integers: [to_string] never overruns its chunk
    buffer and the string constructor reads back what it prints. *)
From Stdlib Require Import ZArith Lia.
From stdpp Require Import base gmap sets list.
From S2P Require Import Prelude UInt512 UInt512Div.
#[local] Open Scope Z_scope.

(** Value of a little-endian list of base-[10^9] chunks. *)
Definition chunks_val (l : list Z) : Z := foldr (fun c acc => c + 10 ^ 9 * acc) 0 l.

(** ** The parser *)

Lemma parse_loop_app s1 s2 u : parse_loop (s1 ++ s2) u = parse_loop s2 (parse_loop s1 u).
Proof. revert u. induction s1 as [|c s1 IH]; intros u; cbn; [done|]. destruct (is_digit c); apply IH. Qed.

Lemma wrap_mul_add_l m k c : wrap 512 (wrap 512 m * k + c) = wrap 512 (m * k + c).
Proof. unfold wrap. by rewrite <- Zplus_mod_idemp_l, Zmult_mod_idemp_l, Zplus_mod_idemp_l. Qed.

Lemma parse_digit d u :
  u512_ok u -> 0 <= d < 10 ->
  u512_ok (parse_loop [48 + d] u) /\ u512_val (parse_loop [48 + d] u) = wrap 512 (u512_val u * 10 + d).
Proof.
  intros Hu Hd. cbn [parse_loop]. unfold is_digit.
  destruct (Z.leb_spec 48 (48 + d)), (Z.leb_spec (48 + d) 57); try lia. cbn [andb].
  replace (48 + d - 48) with d by lia.
  destruct (mult_uint32_spec u 10 Hu) as [M1 M2]; [unfold in_width; lia|].
  destruct (Z.ltb_spec 0 d), (Z.ltb_spec d 10); try lia; cbn [andb].
  - destruct (add_uint32_spec (mult_uint32 u 10) d M1) as [A1 A2]; [unfold in_width; lia|].
    split; [done|]. rewrite A2, M2. unfold wrap. by rewrite Zplus_mod_idemp_l.
  - split; [done|]. rewrite M2. f_equal. lia.
Qed.

Lemma parse_dec_pad n x u :
  u512_ok u -> 0 <= x < 10 ^ Z.of_nat n ->
  u512_ok (parse_loop (dec_pad n x) u) /\
  u512_val (parse_loop (dec_pad n x) u) = wrap 512 (u512_val u * 10 ^ Z.of_nat n + x).
Proof.
  intros Hu. revert x. induction n as [|n IH]; intros x Hx; cbn [dec_pad].
  { cbn in *. split; [done|]. rewrite wrap_small by (pose proof (u512_bound u Hu); unfold in_width; lia). lia. }
  rewrite Nat2Z.inj_succ, Z.pow_succ_r in * by lia.
  destruct (IH (x / 10)) as [G1 G2].
  { split; [apply Z.div_pos; lia | apply Z.div_lt_upper_bound; lia]. }
  rewrite parse_loop_app. destruct (parse_digit (x mod 10) _ G1) as [P1 P2]; [apply Z.mod_pos_bound; lia|].
  split; [done|]. rewrite P2, G2, wrap_mul_add_l. f_equal. pose proof (Z.div_mod x 10). lia.
Qed.

Lemma parse_dec_loop f x u :
  u512_ok u -> u512_val u = 0 -> 0 <= x < 10 ^ Z.of_nat f ->
  u512_ok (parse_loop (dec_loop f x) u) /\ u512_val (parse_loop (dec_loop f x) u) = wrap 512 x.
Proof.
  intros Hu Eu. revert x. induction f as [|f IH]; intros x Hx; cbn [dec_loop].
  { cbn in *. rewrite Eu. assert (x = 0) as -> by lia. done. }
  destruct (Z.eqb_spec x 0) as [->|]; [cbn; by rewrite Eu|].
  rewrite Nat2Z.inj_succ, Z.pow_succ_r in * by lia.
  destruct (IH (x / 10)) as [G1 G2].
  { split; [apply Z.div_pos; lia | apply Z.div_lt_upper_bound; lia]. }
  rewrite parse_loop_app. destruct (parse_digit (x mod 10) _ G1) as [P1 P2]; [apply Z.mod_pos_bound; lia|].
  split; [done|]. rewrite P2, G2, wrap_mul_add_l. f_equal. pose proof (Z.div_mod x 10). lia.
Qed.

Lemma parse_dec x :
  0 <= x < 10 ^ 20 ->
  u512_ok (parse_loop (dec x) u512_zero) /\ u512_val (parse_loop (dec x) u512_zero) = wrap 512 x.
Proof.
  destruct u512_zero_spec as [Hz Ez]. intros Hx. unfold dec. destruct (Z.eqb_spec x 0) as [->|].
  - destruct (parse_digit 0 u512_zero Hz) as [P1 P2]; [lia|].
    change (parse_loop [48] u512_zero) with (parse_loop [48 + 0] u512_zero). split; [done|]. by rewrite P2, Ez.
  - by apply parse_dec_loop.
Qed.

(** ** The chunks *)

Lemma chunk_loop_spec room x :
  u512_ok x -> u512_val x < 10 ^ (9 * Z.of_nat room) ->
  exists l, chunk_loop room x = Some l /\ Forall (fun c => 0 <= c < 10 ^ 9) l /\
            chunks_val l = u512_val x /\ (length l <= room)%nat /\ (u512_val x <> 0 -> l <> []).
Proof.
  revert x. induction room as [|room IH]; intros x Hx Hlt; pose proof (u512_bound x Hx) as Bx;
    cbn [chunk_loop]; rewrite is_zero_spec by done; destruct (Z.eqb_spec (u512_val x) 0) as [E|].
  - exists []. cbn. split_and!; [done|constructor|lia|lia|done].
  - cbn in Hlt. lia.
  - exists []. cbn. split_and!; [done|constructor|lia|lia|done].
  - destruct (div_uint32_inplace_spec x 1000000000 Hx) as (D1 & D2 & D3); [lia|].
    destruct (div_uint32_inplace x 1000000000) as [q c]. cbn [fst snd] in *.
    destruct (IH q D1) as (l & -> & F & V & L & _).
    { rewrite D2. apply Z.div_lt_upper_bound; [lia|].
      replace (9 * Z.of_nat (S room)) with (9 + 9 * Z.of_nat room) in Hlt by lia.
      rewrite Z.pow_add_r in Hlt by lia. exact Hlt. }
    pose proof (Z.mod_pos_bound (u512_val x) 1000000000 ltac:(lia)).
    pose proof (Z.div_mod (u512_val x) 1000000000 ltac:(lia)).
    exists (c :: l). split_and!; [done| |cbn; fold (chunks_val l); lia|cbn; lia|done].
    constructor; [lia|done].
Qed.

Lemma chunks_val_app l c : chunks_val (l ++ [c]) = chunks_val l + 10 ^ (9 * Z.of_nat (length l)) * c.
Proof.
  induction l as [|d l IH]; cbn [app length chunks_val foldr]; [cbn; lia|].
  fold (chunks_val (l ++ [c])) (chunks_val l). rewrite IH.
  replace (9 * Z.of_nat (S (length l))) with (9 + 9 * Z.of_nat (length l)) by lia.
  rewrite Z.pow_add_r by lia. lia.
Qed.

Lemma parse_chunks l u :
  u512_ok u -> Forall (fun c => 0 <= c < 10 ^ 9) l ->
  u512_ok (parse_loop (concat (map (dec_pad 9) (rev l))) u) /\
  u512_val (parse_loop (concat (map (dec_pad 9) (rev l))) u)
  = wrap 512 (u512_val u * 10 ^ (9 * Z.of_nat (length l)) + chunks_val l).
Proof.
  intros Hu. induction 1 as [|c l Hc Hl IH].
  { cbn. split; [done|]. rewrite wrap_small by (pose proof (u512_bound u Hu); unfold in_width; lia). lia. }
  destruct IH as [G1 G2]. cbn [rev]. rewrite map_app, concat_app, parse_loop_app. cbn [map concat].
  rewrite app_nil_r. destruct (parse_dec_pad 9 c _ G1) as [P1 P2]; [done|].
  split; [done|]. rewrite P2, G2, wrap_mul_add_l. cbn [length chunks_val foldr]. fold (chunks_val l). f_equal.
  replace (9 * Z.of_nat (S (length l))) with (9 + 9 * Z.of_nat (length l)) by lia.
  rewrite Z.pow_add_r by lia. change (Z.of_nat 9) with 9. lia.
Qed.

(** [to_string] stays inside its 20-entry chunk buffer for every 512-bit value,
    and parsing the text it prints gives the value back. *)
Theorem decimal_roundtrip x :
  u512_ok x -> exists s, to_string x = Some s /\ u512_of_string s = x.
Proof.
  intros Hx. destruct u512_zero_spec as [Hz Ez]. pose proof (u512_bound x Hx) as Bx.
  unfold to_string. rewrite is_zero_spec by done. destruct (Z.eqb_spec (u512_val x) 0) as [E|].
  { exists [48]. split; [done|]. symmetry. by apply u512_val_inj. }
  destruct (chunk_loop_spec 20 x Hx) as (l & -> & F & V & _ & Hne); [cbn; lia|].
  destruct (rev l) as [|top low] eqn:El; [destruct Hne; [done|]; by rewrite <- (rev_involutive l), El|].
  assert (l = rev low ++ [top]) as -> by (by rewrite <- (rev_involutive l), El).
  apply Forall_app in F as [Fl Ft]. inversion_clear Ft. rewrite chunks_val_app in V.
  eexists. split; [done|]. unfold u512_of_string. rewrite parse_loop_app.
  destruct (parse_dec top) as [P1 P2]; [lia|].
  destruct (parse_chunks (rev low) _ P1 Fl) as [Q1 Q2]. rewrite rev_involutive in *.
  apply u512_val_inj; [done..|]. change (u512_of_u32 0) with u512_zero. rewrite Q2, P2, wrap_mul_add_l, <- V.
  rewrite wrap_small; unfold in_width; lia.
Qed.

Lemma decimal_roundtrip_witness :
  u512_ok (u512_of_Z (3 ^ 300)) /\
  exists s, to_string (u512_of_Z (3 ^ 300)) = Some s /\ u512_of_string s = u512_of_Z (3 ^ 300).
Proof.
  split; [apply u512_of_Z_spec | apply (decimal_roundtrip (u512_of_Z (3 ^ 300))); apply u512_of_Z_spec].
Defined.
