(* ===== verification/Montgomery.v ===== *)
(** Montgomery arithmetic on 512-bit integers ([src/src/common/montgomery.cuh]): the
    context, the interleaved (CIOS) multiplication limb by limb, conversion to and from
    Montgomery form, exponentiation. The residue of [x] is represented by [x * R mod N], [R = 2^512]. *)
From Stdlib Require Import ZArith Lia.
From stdpp Require Import base gmap sets list.
From S2P Require Import Prelude UInt512 UInt512Div.
#[local] Open Scope Z_scope.

Record Montgomery := mkMontgomery { N : uint512; R2 : uint512; n_prime : Z }.

(** [inv *= (2 - n0 * inv)], on [uint32_t]. *)
Definition inv_step (n0 inv : Z) : Z := wrap 32 (inv * wrap 32 (2 - wrap 32 (n0 * inv))).
Definition neg_inv32 (n0 : Z) : Z := wrap 32 (- Nat.iter 5 (inv_step n0) 1).

(** One pass over the limbs of [T], [b] and the modulus: the low words of
    [T + a_i * b + u * N], and the carry. *)
Fixpoint mont_row (a_i u : Z) (T b n : list Z) (carry : Z) : list Z * Z :=
  match T, b, n with
  | t :: T', y :: b', m :: n' =>
      let sum := wrap 128 (t + a_i * y + u * m + carry) in
      let '(l, c) := mont_row a_i u T' b' n' (Z.shiftr sum 32) in
      (wrap 32 sum :: l, c)
  | _, _, _ => ([], carry)
  end.

(** The outer loop's body: accumulator and its 17th limb. The word for position 0 is dropped. *)
Definition mont_step (ctx : Montgomery) (b : uint512) (st : list Z * Z) (a_i : Z) : list Z * Z :=
  let '(T, extra) := st in
  let u := wrap 32 (wrap 32 (nth 0 T 0 + wrap 32 (a_i * nth 0 (limbs b) 0)) * n_prime ctx) in
  let '(l, carry) := mont_row a_i u T (limbs b) (limbs (N ctx)) 0 in
  let sum_top := wrap 128 (extra + carry) in
  (tail l ++ [wrap 32 sum_top], wrap 32 (Z.shiftr sum_top 32)).

Definition mont_mul (ctx : Montgomery) (a b : uint512) : uint512 :=
  let '(T, extra) := foldl (mont_step ctx b) (replicate 16 0, 0) (limbs a) in
  let T := mkU512 T in
  if negb (extra =? 0) || u512_geb T (N ctx) then sub T (N ctx) else T.

(** [val] starts with bit 511 set. *)
Definition Montgomery_init (modulus : uint512) : Montgomery :=
  let val := mod_ (mkU512 (replicate 15 0 ++ [2 ^ 31])) modulus in
  let val := double_mod val modulus in
  mkMontgomery modulus (mul_mod val val modulus) (neg_inv32 (nth 0 (limbs modulus) 0)).

Definition mont_transform (ctx : Montgomery) (a : uint512) : uint512 := mont_mul ctx a (R2 ctx).
Definition mont_reduce (ctx : Montgomery) (a : uint512) : uint512 := mont_mul ctx a (u512_of_u32 1).
Definition mont_sqr (ctx : Montgomery) (a : uint512) : uint512 := mont_mul ctx a a.

(** Right-to-left binary exponentiation; [None]: out of fuel. *)
Fixpoint mont_pow_loop (fuel : nat) (ctx : Montgomery) (res base_mont exp : uint512) : option uint512 :=
  if is_zero exp then Some res
  else
    match fuel with
    | O => None
    | S f =>
        let res := if negb (Z.land (nth 0 (limbs exp) 0) 1 =? 0) then mont_mul ctx res base_mont else res in
        mont_pow_loop f ctx res (mont_sqr ctx base_mont) (rshift exp 1)
    end.

Definition mont_pow (ctx : Montgomery) (base_mont exp : uint512) : option uint512 :=
  mont_pow_loop 512 ctx (mont_transform ctx (u512_of_u32 1)) base_mont exp.

(** ** Vocabulary of the specifications *)

Definition R512 : Z := 2 ^ 512.

(** A context for an odd modulus. *)
Record mont_ok (ctx : Montgomery) : Prop := mkMontOk {
  mo_N : u512_ok (N ctx);
  mo_odd : Z.odd (u512_val (N ctx)) = true;
  mo_R2 : u512_reduced (N ctx) (R2 ctx);
  mo_R2_val : u512_val (R2 ctx) = (R512 * R512) mod u512_val (N ctx);
  mo_prime : in_width 32 (n_prime ctx);
  mo_inv : (n_prime ctx * u512_val (N ctx) + 1) mod 2 ^ 32 = 0
}.

(** [x] is the Montgomery form of [v]. *)
Definition mont_form (ctx : Montgomery) (x : uint512) (v : Z) : Prop :=
  u512_reduced (N ctx) x /\ u512_val x = (v * R512) mod u512_val (N ctx).

(** ** Lemmas: the inverse of the low limb *)

Lemma inv_step_correct n0 inv k :
  0 <= k -> 2 * k <= 32 -> (n0 * inv - 1) mod 2 ^ k = 0 -> (n0 * inv_step n0 inv - 1) mod 2 ^ (2 * k) = 0.
Proof.
  intros Hk Hk2 H. apply Z.mod_divide in H as [q Hq]; [|lia].
  assert (exists j, inv_step n0 inv = inv * (2 - n0 * inv) + j * 2 ^ 32) as [j Hj].
  { unfold inv_step, wrap. rewrite Zmult_mod_idemp_r, <- Zmult_mod_idemp_r, Zminus_mod_idemp_r, Zmult_mod_idemp_r.
    exists (- (inv * (2 - n0 * inv) / 2 ^ 32)). pose proof (Z.div_mod (inv * (2 - n0 * inv)) (2 ^ 32) ltac:(lia)). lia. }
  rewrite Hj. apply Z.mod_divide; [lia|]. exists (- q * q + n0 * j * 2 ^ (32 - 2 * k)).
  replace (2 ^ (2 * k)) with (2 ^ k * 2 ^ k) by (rewrite <- Z.pow_add_r by lia; f_equal; lia).
  replace (2 ^ 32) with (2 ^ (32 - 2 * k) * (2 ^ k * 2 ^ k)) by (rewrite <- !Z.pow_add_r by lia; f_equal; lia).
  assert (n0 * inv = q * 2 ^ k + 1) as E by lia.
  assert (n0 * (inv * (2 - n0 * inv) + j * (2 ^ (32 - 2 * k) * (2 ^ k * 2 ^ k)))
    = (n0 * inv) * (2 - n0 * inv) + n0 * j * (2 ^ (32 - 2 * k) * (2 ^ k * 2 ^ k))) as -> by ring.
  rewrite E. ring.
Qed.

Lemma neg_inv32_correct n0 : Z.odd n0 = true -> (neg_inv32 n0 * n0 + 1) mod 2 ^ 32 = 0.
Proof.
  intros Ho. assert ((n0 * 1 - 1) mod 2 ^ 1 = 0) as H0.
  { apply Z.odd_spec in Ho as [m ->]. rewrite Z.mul_1_r. replace (2 * m + 1 - 1) with (m * 2 ^ 1) by lia. apply Z.mod_mul. lia. }
  pose proof (inv_step_correct n0 _ 1 ltac:(lia) ltac:(lia) H0) as H1.
  pose proof (inv_step_correct n0 _ 2 ltac:(lia) ltac:(lia) H1) as H2.
  pose proof (inv_step_correct n0 _ 4 ltac:(lia) ltac:(lia) H2) as H3.
  pose proof (inv_step_correct n0 _ 8 ltac:(lia) ltac:(lia) H3) as H4.
  pose proof (inv_step_correct n0 _ 16 ltac:(lia) ltac:(lia) H4) as H5.
  unfold neg_inv32, wrap. change (Nat.iter 5 (inv_step n0) 1) with (inv_step n0 (inv_step n0 (inv_step n0 (inv_step n0 (inv_step n0 1))))).
  change (2 * 16) with 32 in H5. revert H5. generalize (inv_step n0 (inv_step n0 (inv_step n0 (inv_step n0 (inv_step n0 1))))) as i.
  intros i Hi. apply Z.mod_divide in Hi as [q Hq]; [|lia]. apply Z.mod_divide; [lia|].
  pose proof (Z.div_mod (- i) (2 ^ 32) ltac:(lia)) as Hd. exists (- q - (- i / 2 ^ 32) * n0). nia.
Qed.

(** ** Lemmas: multiplication *)

Lemma mont_row_spec a_i u T b n carry :
  in_width 32 a_i -> in_width 32 u -> digits_ok 32 T -> digits_ok 32 b -> digits_ok 32 n ->
  length b = length T -> length n = length T -> 0 <= carry < 2 ^ 34 ->
  let '(l, c) := mont_row a_i u T b n carry in
  digits_ok 32 l /\ length l = length T /\ 0 <= c < 2 ^ 34 /\
  of_digits 32 l + 2 ^ (32 * Z.of_nat (length T)) * c = of_digits 32 T + a_i * of_digits 32 b + u * of_digits 32 n + carry /\
  ((0 < length T)%nat -> nth 0 l 0 = wrap 32 (nth 0 T 0 + a_i * nth 0 b 0 + u * nth 0 n 0 + carry)).
Proof.
  intros Ha Hu. revert b n carry. induction T as [|t T IH]; intros [|y b] [|m n] carry HT Hb Hn Lb Ln Hc; limb_cases; cbn [mont_row].
  { cbn. split_and!; auto with mpqs; lia. }
  unfold in_width in *.
  rewrite (wrap_small 128) by (unfold in_width; nia).
  set (sum := t + a_i * y + u * m + carry). pose proof (limb_split sum) as Es.
  assert (0 <= Z.shiftr sum 32 < 2 ^ 34) as Hs by (apply shiftr_bound; unfold sum; nia).
  specialize (IH b n (Z.shiftr sum 32)). destruct (mont_row a_i u T b n (Z.shiftr sum 32)) as [l c].
  destruct IH as (G1 & G2 & G3 & G4 & _); [done..|]. cbn [length of_digits nth]. rewrite pow2_mul_S by lia. rewrite digits_ok_cons.
  split_and!; auto with mpqs; unfold sum in *; lia || nia.
Qed.

Section mul.
Context (ctx : Montgomery) (Hctx : mont_ok ctx) (b : uint512) (Hb : u512_ok b).

Lemma mont_step_spec T extra a_i :
  digits_ok 32 T -> length T = 16%nat -> in_width 32 extra -> in_width 32 a_i ->
  let '(T', extra') := mont_step ctx b (T, extra) a_i in
  digits_ok 32 T' /\ length T' = 16%nat /\ in_width 32 extra' /\ exists u, in_width 32 u /\
  (of_digits 32 T' + 2 ^ 512 * extra') * 2 ^ 32
  = of_digits 32 T + 2 ^ 512 * extra + a_i * u512_val b + u * u512_val (N ctx).
Proof using Hctx Hb.
  intros HT LT He Ha. destruct (mo_N _ Hctx) as [LN DN]. destruct Hb as [Lb Db]. unfold mont_step.
  set (u := wrap 32 _). assert (in_width 32 u) as Hu by apply limb_ok.
  pose proof (mont_row_spec a_i u T (limbs b) (limbs (N ctx)) 0 Ha Hu HT Db DN ltac:(congruence) ltac:(congruence) ltac:(lia)) as Hrow.
  destruct (mont_row _ _ _ _ _ _) as [l c]. destruct Hrow as (G1 & G2 & G3 & G4 & G5). specialize (G5 ltac:(lia)).
  (* the word that is dropped is zero *)
  assert (nth 0 l 0 = 0) as Hz.
  { rewrite G5, Z.add_0_r. unfold u. set (x := nth 0 T 0 + a_i * nth 0 (limbs b) 0).
    assert (u512_val (N ctx) mod 2 ^ 32 = nth 0 (limbs (N ctx)) 0) as EN.
    { unfold u512_val. destruct (limbs (N ctx)) as [|d l']; [done|]. cbn [of_digits nth]. apply digits_ok_cons in DN as [Hd _].
      rewrite Z.mul_comm, Z.mod_add, Z.mod_small by (unfold in_width in Hd; lia). done. }
    pose proof (mo_inv _ Hctx) as Hi. apply Z.mod_divide in Hi as [q Hq]; [|lia].
    pose proof (Z.div_mod (u512_val (N ctx)) (2 ^ 32) ltac:(lia)) as HN. rewrite EN in HN.
    unfold wrap. rewrite (Zplus_mod_idemp_r (a_i * nth 0 (limbs b) 0)). fold x. rewrite Zmult_mod_idemp_l.
    rewrite <- Zplus_mod_idemp_r, Zmult_mod_idemp_l, Zplus_mod_idemp_r.
    apply Z.mod_divide; [lia|]. exists (x * q - x * n_prime ctx * (u512_val (N ctx) / 2 ^ 32)). nia. }
  assert (in_width 128 (extra + c)) as Hsum by (unfold in_width in *; lia). rewrite (wrap_small 128) by done.
  assert (0 <= Z.shiftr (extra + c) 32 < 2 ^ 32) as Hs by (apply shiftr_bound; unfold in_width in *; lia).
  rewrite (wrap_small 32 (Z.shiftr _ _)) by done.
  destruct l as [|d l]; [cbn in G2; lia|]. cbn [nth tail] in *. subst d. apply digits_ok_cons in G1 as [_ G1].
  cbn [length] in G2. split; [apply Forall_app; split; [done|]; constructor; [apply limb_ok|constructor]|].
  split; [rewrite length_app; cbn [length]; lia|]. split; [done|]. exists u. split; [done|].
  rewrite of_digits_app by lia. assert (length l = 15)%nat as -> by lia. cbn [of_digits] in *.
  pose proof (limb_split (extra + c)) as Es. rewrite LT in G4. change (32 * Z.of_nat 16) with 512 in G4. change (32 * Z.of_nat 15) with 480.
  fold (u512_val b) (u512_val (N ctx)) in G4.
  replace (2 ^ 512) with (2 ^ 480 * 2 ^ 32) in * by reflexivity. nia.
Qed.

Lemma mont_loop_spec l : forall T extra,
  digits_ok 32 l -> digits_ok 32 T -> length T = 16%nat -> in_width 32 extra ->
  let '(T', extra') := foldl (mont_step ctx b) (T, extra) l in
  digits_ok 32 T' /\ length T' = 16%nat /\ in_width 32 extra' /\ exists U, 0 <= U < 2 ^ (32 * Z.of_nat (length l)) /\
  (of_digits 32 T' + 2 ^ 512 * extra') * 2 ^ (32 * Z.of_nat (length l))
  = of_digits 32 T + 2 ^ 512 * extra + of_digits 32 l * u512_val b + U * u512_val (N ctx).
Proof using Hctx Hb.
  induction l as [|a_i l IH]; intros T extra Hl HT LT He; cbn [foldl].
  { do 3 (split; [done|]). exists 0. cbn. lia. }
  apply digits_ok_cons in Hl as [Ha Hl]. pose proof (mont_step_spec T extra a_i HT LT He Ha) as Hs.
  destruct (mont_step ctx b (T, extra) a_i) as [T1 extra1]. destruct Hs as (S1 & S2 & S3 & u & Hu & S4).
  specialize (IH T1 extra1 Hl S1 S2 S3). destruct (foldl _ _ _) as [T' extra']. destruct IH as (I1 & I2 & I3 & U & HU & I4).
  split; [done|]. split; [done|]. split; [done|]. exists (u + 2 ^ 32 * U). cbn [length of_digits]. rewrite pow2_mul_S by lia.
  unfold in_width in Hu. split; [nia|].
  transitivity (2 ^ 32 * ((of_digits 32 T' + 2 ^ 512 * extra') * 2 ^ (32 * Z.of_nat (length l)))); [ring|]. rewrite I4.
  transitivity ((of_digits 32 T1 + 2 ^ 512 * extra1) * 2 ^ 32 + 2 ^ 32 * (of_digits 32 l * u512_val b + U * u512_val (N ctx))); [ring|].
  rewrite S4. ring.
Qed.

(** The product, divided by [R] modulo the odd modulus. *)
Lemma mont_mul_spec a :
  u512_ok a -> u512_val a * u512_val b < R512 * u512_val (N ctx) ->
  u512_reduced (N ctx) (mont_mul ctx a b) /\
  (u512_val (mont_mul ctx a b) * R512) mod u512_val (N ctx) = (u512_val a * u512_val b) mod u512_val (N ctx).
Proof using Hctx Hb.
  intros [La Da] Hlt. pose proof (u512_bound _ (mo_N _ Hctx)) as BN. pose proof (mo_odd _ Hctx) as Ho.
  assert (u512_val (N ctx) <> 0) as HN0 by (intros E; by rewrite E in Ho).
  pose proof (mont_loop_spec (limbs a) (replicate 16 0) 0 Da (replicate_0_ok 32 16 ltac:(lia)) eq_refl ltac:(unfold in_width; lia)) as Hloop.
  unfold mont_mul. destruct (foldl _ _ _) as [T extra]. destruct Hloop as (G1 & G2 & G3 & U & HU & G4).
  rewrite La, of_digits_zeros in * by lia. change (32 * Z.of_nat 16) with 512 in *. fold (u512_val a) in G4. unfold R512 in *.
  assert (u512_ok (mkU512 T)) as OT by done. change (of_digits 32 T) with (u512_val (mkU512 T)) in G4.
  set (t := mkU512 T) in *. set (V := u512_val t + 2 ^ 512 * extra) in *. unfold in_width in G3. pose proof (u512_bound _ OT) as BT.
  assert (0 <= V < 2 * u512_val (N ctx)) as HV.
  { split; [unfold V; lia|]. assert (V * 2 ^ 512 < 2 * u512_val (N ctx) * 2 ^ 512); [|nia]. rewrite G4. nia. }
  assert ((V * 2 ^ 512) mod u512_val (N ctx) = (u512_val a * u512_val b) mod u512_val (N ctx)) as EV.
  { rewrite G4, Z.mul_0_r, Z.add_0_l. by apply Z.mod_add. }
  destruct (sub_spec t (N ctx) OT (mo_N _ Hctx)) as [S1 S2].
  rewrite u512_geb_spec by (done || apply (mo_N _ Hctx)).
  destruct (negb (extra =? 0) || (u512_val (N ctx) <=? u512_val t)) eqn:E.
  - assert (u512_val (sub t (N ctx)) = V - u512_val (N ctx)) as Ev.
    { rewrite S2. symmetry. apply wrap_eq_intro; [lia| |exists extra; unfold V; lia]. unfold in_width. split; [|lia].
      unfold V. destruct (Z.eqb_spec extra 0) as [->|]; [|lia].
      apply Z.leb_le in E. lia. }
    unfold u512_reduced. rewrite Ev. split; [split; [done|lia]|].
    replace ((V - u512_val (N ctx)) * 2 ^ 512) with (V * 2 ^ 512 + - 2 ^ 512 * u512_val (N ctx)) by ring. by rewrite Z.mod_add.
  - apply orb_false_iff in E as [E1 E2]. apply negb_false_iff, Z.eqb_eq in E1. apply Z.leb_gt in E2.
    assert (u512_val t = V) as Ev by (unfold V; lia).
    unfold u512_reduced. rewrite Ev. split; [split; [done|unfold V; lia]|done].
Qed.

End mul.

(** ** Lemmas: the Montgomery form *)

Section forms.
Context (ctx : Montgomery) (Hctx : mont_ok ctx).
Notation n := (u512_val (N ctx)).

Lemma modulus_bound : 0 < n < 2 ^ 512.
Proof using Hctx.
  pose proof (u512_bound _ (mo_N _ Hctx)). pose proof (mo_odd _ Hctx) as Ho.
  assert (n <> 0) by (intros E; by rewrite E in Ho). lia.
Qed.

(** [R] can be cancelled modulo an odd number. *)
Lemma R512_cancel x y : (x * R512) mod n = (y * R512) mod n -> x mod n = y mod n.
Proof using Hctx.
  intros H. pose proof modulus_bound. assert ((n | R512 * (x - y))) as Hd.
  { apply Z.mod_divide; [lia|]. replace (R512 * (x - y)) with (x * R512 - y * R512) by ring.
    rewrite Zminus_mod, H, Z.sub_diag. apply Z.mod_0_l. lia. }
  apply Z.gauss in Hd as [k Hk].
  - replace x with (y + k * n) by lia. apply Z.mod_add. lia.
  - unfold R512. apply Z.coprime_pow_r; [lia|]. apply Z.bezout_1_gcd.
    pose proof (mo_odd _ Hctx) as Ho. apply Z.odd_spec in Ho as [m ->]. exists 1, (- m). ring.
Qed.

Lemma mont_form_R x v : mont_form ctx x v -> u512_ok x /\ u512_val x < n /\ u512_val x = (v * R512) mod n.
Proof using Hctx. by intros [[? ?] ?]. Qed.

(** A reduced number whose multiple by [R] is that of [w * R], is the form of [w]. *)
Lemma mont_form_intro x w :
  u512_reduced (N ctx) x -> (u512_val x * R512) mod n = ((w * R512) * R512) mod n -> mont_form ctx x w.
Proof using Hctx.
  intros Hx H. split; [done|]. apply R512_cancel in H. destruct Hx as [Ox Lx]. pose proof (u512_bound _ Ox).
  rewrite Z.mod_small in H by lia. done.
Qed.

Lemma mont_mul_form x y v w :
  mont_form ctx x v -> mont_form ctx y w -> mont_form ctx (mont_mul ctx x y) (v * w).
Proof using Hctx.
  intros (Ox & Lx & Ex)%mont_form_R (Oy & Ly & Ey)%mont_form_R. pose proof modulus_bound.
  pose proof (u512_bound _ Ox). pose proof (u512_bound _ Oy).
  destruct (mont_mul_spec ctx Hctx y Oy x Ox) as [G1 G2]; [unfold R512; nia|].
  apply mont_form_intro; [done|]. rewrite G2, Ex, Ey, <- Zmult_mod. f_equal. ring.
Qed.

Lemma mont_transform_form a : u512_ok a -> mont_form ctx (mont_transform ctx a) (u512_val a).
Proof using Hctx.
  intros Oa. pose proof modulus_bound. pose proof (u512_bound _ Oa). destruct (mo_R2 _ Hctx) as [OR LR]. pose proof (u512_bound _ OR).
  destruct (mont_mul_spec ctx Hctx (R2 ctx) OR a Oa) as [G1 G2]; [unfold R512; nia|].
  apply mont_form_intro; [done|]. unfold mont_transform. rewrite G2, (mo_R2_val _ Hctx), Zmult_mod_idemp_r. f_equal. ring.
Qed.

Lemma mont_reduce_form x v :
  mont_form ctx x v -> u512_reduced (N ctx) (mont_reduce ctx x) /\ u512_val (mont_reduce ctx x) = v mod n.
Proof using Hctx.
  intros (Ox & Lx & Ex)%mont_form_R. pose proof modulus_bound. pose proof (u512_bound _ Ox).
  assert (u512_ok (u512_of_u32 1)) as O1 by (split; [done|by repeat constructor]).
  destruct (mont_mul_spec ctx Hctx (u512_of_u32 1) O1 x Ox) as [G1 G2].
  { change (u512_val (u512_of_u32 1)) with 1. unfold R512. nia. }
  unfold mont_reduce. split; [done|]. change (u512_val (u512_of_u32 1)) with 1 in G2.
  rewrite Z.mul_1_r, Ex, Zmod_mod in G2. apply R512_cancel in G2. destruct G1 as [OG LG]. pose proof (u512_bound _ OG).
  rewrite Z.mod_small in G2 by lia. done.
Qed.

Lemma mont_pow_loop_form fuel : forall res base_mont exp v w,
  mont_form ctx res v -> mont_form ctx base_mont w -> u512_ok exp -> u512_val exp < 2 ^ Z.of_nat fuel ->
  exists r, mont_pow_loop fuel ctx res base_mont exp = Some r /\ mont_form ctx r (v * w ^ u512_val exp).
Proof using Hctx.
  induction fuel as [|f IH]; intros res base exp v w Hr Hb He Hlt; cbn [mont_pow_loop];
    rewrite is_zero_spec by done; pose proof (u512_bound _ He); destruct (Z.eqb_spec (u512_val exp) 0) as [E|E].
  1,3: exists res; rewrite E, Z.pow_0_r, Z.mul_1_r; done.
  { cbn in Hlt. lia. }
  destruct (rshift_spec exp 1 He ltac:(lia)) as [G1 G2].
  rewrite Nat2Z.inj_succ, Z.pow_succ_r in Hlt by lia. change (2 ^ 1) with 2 in G2.
  assert (Z.land (nth 0 (limbs exp) 0) 1 = u512_val exp mod 2) as ->.
  { change 1 with (Z.ones 1). rewrite Z.land_ones by lia. destruct He as [_ De]. unfold u512_val.
    destruct (limbs exp) as [|d l]; [done|]. cbn [nth of_digits]. change (2 ^ 32) with (2 ^ 31 * 2). change (2 ^ 1) with 2.
    rewrite (Z.mul_comm (2 ^ 31 * 2)), Z.mul_assoc. by rewrite Z.mod_add. }
  set (h := u512_val exp / 2) in *. pose proof (Z.div_mod (u512_val exp) 2 ltac:(lia)) as Ed. fold h in Ed.
  assert (0 <= h) as Hh by (apply Z.div_pos; lia). pose proof (Z.mod_pos_bound (u512_val exp) 2 ltac:(lia)).
  set (res' := if negb (u512_val exp mod 2 =? 0) then mont_mul ctx res base else res).
  assert (mont_form ctx res' (v * w ^ (u512_val exp mod 2))) as Hr'.
  { unfold res'.
    destruct (Z.eqb_spec (u512_val exp mod 2) 0) as [->|]; cbn [negb].
    - by rewrite Z.pow_0_r, Z.mul_1_r.
    - assert (u512_val exp mod 2 = 1) as -> by lia. rewrite Z.pow_1_r. by apply mont_mul_form. }
  destruct (IH res' (mont_sqr ctx base) (rshift exp 1) _ _ Hr' (mont_mul_form _ _ _ _ Hb Hb) G1 ltac:(lia)) as (r & -> & Hform).
  exists r. split; [done|]. rewrite G2 in Hform. replace (v * w ^ u512_val exp) with (v * w ^ (u512_val exp mod 2) * (w * w) ^ h); [done|].
  rewrite <- Z.mul_assoc. f_equal. rewrite <- Z.pow_2_r, <- Z.pow_mul_r, <- Z.pow_add_r; [f_equal; lia|lia..].
Qed.

Lemma mont_pow_form base_mont exp w :
  mont_form ctx base_mont w -> u512_ok exp ->
  exists r, mont_pow ctx base_mont exp = Some r /\ mont_form ctx r (w ^ u512_val exp).
Proof using Hctx.
  intros Hb He. assert (u512_ok (u512_of_u32 1)) as O1 by (split; [done|by repeat constructor]).
  pose proof (u512_bound _ He).
  destruct (mont_pow_loop_form 512 _ _ exp _ _ (mont_transform_form _ O1) Hb He) as (r & E & Hf); [apply H|].
  exists r. split; [exact E|]. change (u512_val (u512_of_u32 1)) with 1 in Hf. by rewrite Z.mul_1_l in Hf.
Qed.

End forms.

Lemma neg_inv_lift np n0 m q : m = n0 + q * 2 ^ 32 -> (np * n0 + 1) mod 2 ^ 32 = 0 -> (np * m + 1) mod 2 ^ 32 = 0.
Proof.
  intros -> H. replace (np * (n0 + q * 2 ^ 32) + 1) with (np * n0 + 1 + np * q * 2 ^ 32) by ring. by rewrite Z.mod_add.
Qed.

Lemma Montgomery_init_ok modulus :
  u512_ok modulus -> Z.odd (u512_val modulus) = true -> mont_ok (Montgomery_init modulus).
Proof.
  intros HN Ho. pose proof (u512_bound _ HN). assert (u512_val modulus <> 0) as Hz by (intros E; by rewrite E in Ho).
  unfold Montgomery_init. set (top := mkU512 (replicate 15 0 ++ [2 ^ 31])).
  assert (u512_ok top) as Ot by (split; [done|by repeat constructor]).
  destruct (mod_spec top modulus Ot HN Hz) as [M1 M2].
  assert (u512_reduced modulus (mod_ top modulus)) as Hred by (split; [done|rewrite M2; apply Z.mod_pos_bound; lia]).
  destruct (double_mod_spec modulus _ HN Hred) as [[D1 D2] D3].
  destruct (mul_mod_spec _ _ modulus D1 D1 HN Hz) as [G1 G2].
  assert (u512_val (double_mod (mod_ top modulus) modulus) = R512 mod u512_val modulus) as E.
  { rewrite D3, M2, Zmult_mod_idemp_r. reflexivity. }
  constructor; cbn [N R2 n_prime]; try done.
  - split; [done|]. rewrite G2. apply Z.mod_pos_bound. lia.
  - by rewrite G2, E, <- Zmult_mod.
  - apply limb_ok.
  - assert (exists q, u512_val modulus = nth 0 (limbs modulus) 0 + q * 2 ^ 32) as [q Eq].
    { unfold u512_val. destruct (limbs modulus) as [|d l]; [by exists 0|]. cbn [nth of_digits]. eexists. rewrite (Z.mul_comm (2 ^ 32)). reflexivity. }
    assert (Z.odd (nth 0 (limbs modulus) 0) = true) as Ho0.
    { rewrite Eq in Ho. replace (q * 2 ^ 32) with (2 * (q * 2 ^ 31)) in Ho by lia. by rewrite Z.odd_add_mul_2 in Ho. }
    exact (neg_inv_lift _ _ _ q Eq (neg_inv32_correct _ Ho0)).
Qed.

(** C11. Montgomery arithmetic is exact modulo every odd 512-bit modulus: converting in and out reduces,
    a product of converted numbers converts back to the modular product, and the exponentiation
    terminates with the modular power. *)
Theorem montgomery_exact modulus a b e :
  u512_ok modulus -> Z.odd (u512_val modulus) = true -> u512_ok a -> u512_ok b -> u512_ok e ->
  let ctx := Montgomery_init modulus in
  u512_val (mont_reduce ctx (mont_transform ctx a)) = u512_val a mod u512_val modulus /\
  u512_val (mont_reduce ctx (mont_mul ctx (mont_transform ctx a) (mont_transform ctx b)))
    = (u512_val a * u512_val b) mod u512_val modulus /\
  exists r, mont_pow ctx (mont_transform ctx a) e = Some r /\
    u512_val (mont_reduce ctx r) = u512_val a ^ u512_val e mod u512_val modulus.
Proof.
  intros HN Ho Ha Hb He ctx. pose proof (Montgomery_init_ok modulus HN Ho) as Hctx. fold ctx in Hctx.
  assert (N ctx = modulus) as EN by reflexivity. clearbody ctx. subst modulus.
  pose proof (mont_transform_form ctx Hctx a Ha) as Fa. pose proof (mont_transform_form ctx Hctx b Hb) as Fb.
  split; [apply (mont_reduce_form ctx Hctx _ _ Fa)|].
  split; [apply (mont_reduce_form ctx Hctx _ _ (mont_mul_form ctx Hctx _ _ _ _ Fa Fb))|].
  destruct (mont_pow_form ctx Hctx _ e _ Fa He) as (r & E & Fr). exists r. split; [done|].
  apply (mont_reduce_form ctx Hctx _ _ Fr).
Qed.

(** [7^5 mod 101 = 41]. *)
Lemma montgomery_exact_witness :
  let ctx := Montgomery_init (u512_of_Z 101) in
  exists r, mont_pow ctx (mont_transform ctx (u512_of_Z 7)) (u512_of_Z 5) = Some r /\ u512_val (mont_reduce ctx r) = 41.
Proof.
  destruct (montgomery_exact (u512_of_Z 101) (u512_of_Z 7) (u512_of_Z 7) (u512_of_Z 5)) as (_ & _ & r & E & H);
    [apply u512_of_Z_spec|reflexivity|apply u512_of_Z_spec..|].
  exists r. split; [exact E|exact H].
Defined.
