(* ===== verification/MathUtils.v ===== *)
(** Number-theoretic helpers on 512-bit integers ([src/src/common/math_utils.cuh]): modular powers
    and inverses, gcd, the Legendre symbol, square roots modulo primes that are 3 modulo 4, the
    two-modulus CRT, and the polynomial values [Q(x) = (a x + b)^2 - N] with their square roots.
    [None]: the loop ran out of fuel. *)
From Stdlib Require Import ZArith Lia.
From stdpp Require Import base gmap sets list.
From S2P Require Import Prelude UInt512 UInt512Div.
#[local] Open Scope Z_scope.

(** ** Powers *)

Fixpoint modpow_loop (fuel : nat) (res base exp mod_n : uint512) : option uint512 :=
  if is_zero exp then Some res
  else
    match fuel with
    | O => None
    | S f =>
        let res := if negb (Z.land (nth 0 (limbs exp) 0) 1 =? 0) then mul_mod res base mod_n else res in
        modpow_loop f res (mul_mod base base mod_n) (rshift exp 1) mod_n
    end.

Definition modpow (base exp mod_n : uint512) : option uint512 :=
  modpow_loop 512 (u512_of_u32 1) (mod_ base mod_n) exp mod_n.

(** The overload for a [uint32_t] exponent. *)
Fixpoint modpow_u32_loop (fuel : nat) (res base : uint512) (exp : Z) (mod_n : uint512) : option uint512 :=
  if exp =? 0 then Some res
  else
    match fuel with
    | O => None
    | S f =>
        let res := if negb (Z.land exp 1 =? 0) then mul_mod res base mod_n else res in
        modpow_u32_loop f res (mul_mod base base mod_n) (Z.shiftr exp 1) mod_n
    end.

Definition modpow_u32 (base : uint512) (exp : Z) (mod_n : uint512) : option uint512 :=
  modpow_u32_loop 32 (u512_of_u32 1) (mod_ base mod_n) exp mod_n.

(** ** Inverses and gcd *)

Fixpoint inverse_loop (fuel : nat) (m r0 r1 u0 u1 : uint512) : option (uint512 * uint512) :=
  if is_zero r1 then Some (r0, u0)
  else
    match fuel with
    | O => None
    | S f =>
        let '(q, r_next) := div_mod_core r0 r1 in
        let term := mul_mod q u1 m in
        let u_next := sub (if u512_ltb u0 term then add u0 m else u0) term in
        inverse_loop f m r1 (default u512_zero r_next) u1 u_next
    end.

Definition euclid_fuel : nat := 1025.

Definition mod_inverse (a_in m : uint512) : option uint512 :=
  '(r0, u0) ← inverse_loop euclid_fuel m a_in m (u512_of_u32 1) (u512_of_u32 0);
  Some (if negb (is_one r0) then u512_of_u32 0 else u0).

(** The [uint32_t] overload. *)
Fixpoint inverse_u32_loop (fuel : nat) (m r0 r1 u0 u1 : Z) : option (Z * Z) :=
  if r1 =? 0 then Some (r0, u0)
  else
    match fuel with
    | O => None
    | S f =>
        let q := r0 / r1 in
        let r_next := r0 mod r1 in
        let term := wrap 32 (wrap 64 (q * u1) mod m) in
        let u_next := if u0 <? term then wrap 32 (wrap 32 (u0 + m) - term) else wrap 32 (u0 - term) in
        inverse_u32_loop f m r1 r_next u1 u_next
    end.

Definition mod_inverse_u32 (a_in : uint512) (m : Z) : option Z :=
  '(r0, u0) ← inverse_u32_loop euclid_fuel m (mod_uint32 a_in m) m 1 0;
  Some (if negb (r0 =? 1) then 0 else u0).

Fixpoint gcd_loop (fuel : nat) (a b : uint512) : option uint512 :=
  if is_zero b then Some a
  else match fuel with O => None | S f => gcd_loop f b (mod_ a b) end.

Definition gcd (a b : uint512) : option uint512 := gcd_loop euclid_fuel a b.

(** ** Residues *)

Definition legendre_symbol (a p : uint512) : option uint512 :=
  let a := mod_ a p in
  if is_zero a then Some (u512_of_u32 0)
  else modpow a (rshift (sub p (u512_of_u32 1)) 1) p.

Definition sqrt_mod_3mod4 (n p : uint512) : option uint512 :=
  if negb (Z.land (nth 0 (limbs p) 0) 3 =? 3) then Some (u512_of_u32 0)
  else
    ls ← legendre_symbol n p;
    if negb (is_one ls) then Some (u512_of_u32 0)
    else modpow n (rshift (add p (u512_of_u32 1)) 2) p.

Definition crt_2 (r1 m1 r2 m2 : uint512) : option uint512 :=
  let M := mult m1 m2 in
  y1 ← mod_inverse m2 m1;
  y2 ← mod_inverse m1 m2;
  let term1 := mul_mod (mul_mod r1 m2 M) y1 M in
  let term2 := mul_mod (mul_mod r2 m1 M) y2 M in
  Some (mod_ (add term1 term2) M).

(** ** Polynomial values *)

(** [a x + b] modulo [2^512], for an [int32_t] [x]. *)
Definition eval_axb (a b : uint512) (x : Z) : uint512 :=
  let ax := mult_uint32 a (wrap 32 (Z.abs x)) in
  if 0 <=? x then add ax b else sub b ax.

Definition calculate_sqrt_of_QX (a b : uint512) (x : Z) : uint512 * Z := abs_twos_complement (eval_axb a b x).

Definition calculateQ_unsigned (a b : uint512) (x : Z) (N : uint512) : uint512 * Z :=
  let '(abs, _) := abs_twos_complement (eval_axb a b x) in
  abs_twos_complement (sub (mult abs abs) N).

(** ** Vocabulary of the specifications *)

(** The value of a power: the code returns 1 for the exponent 0 without reducing it. *)
Definition power_value (b e n : Z) : Z := if e =? 0 then 1 else b ^ e mod n.

(** Bézout state of the extended algorithm modulo [m]. *)
Record bezout (m a r0 r1 u0 u1 : Z) : Prop := mkBezout {
  bz_0 : (u0 * a) mod m = r0 mod m;
  bz_1 : (u1 * a) mod m = r1 mod m;
  bz_gcd : Z.gcd r0 r1 = Z.gcd a m;
  bz_u0 : 0 <= u0 < m;
  bz_u1 : 0 <= u1 < m
}.

Definition next_u (m q u0 u1 : Z) : Z :=
  let term := (q * u1) mod m in if u0 <? term then u0 + m - term else u0 - term.

(** What the finished loop leaves: the gcd and its Bézout coefficient. *)
Definition bezout_done (m a r u : Z) : Prop := r = Z.gcd a m /\ (u * a) mod m = r mod m /\ 0 <= u < m.

(** ** Lemmas: powers *)

Lemma u512_one_ok v : in_width 32 v -> u512_ok (u512_of_u32 v) /\ u512_val (u512_of_u32 v) = v.
Proof.
  intros Hv. split; [split; [done|]|].
  - constructor; [done|]. by apply replicate_0_ok.
  - unfold u512_val, u512_of_u32. cbn [limbs of_digits]. rewrite of_digits_zeros. lia.
Qed.

Lemma u512_one : u512_ok (u512_of_u32 1) /\ u512_val (u512_of_u32 1) = 1.
Proof. by apply u512_one_ok. Qed.
Lemma u512_nil : u512_ok (u512_of_u32 0) /\ u512_val (u512_of_u32 0) = 0.
Proof. by apply u512_one_ok. Qed.

(** The low limb holds the low bits of the value. *)
Lemma low_limb_mod x k : u512_ok x -> 0 <= k <= 32 -> Z.land (nth 0 (limbs x) 0) (Z.ones k) = u512_val x mod 2 ^ k.
Proof.
  intros [_ Dx] Hk. rewrite Z.land_ones by lia. unfold u512_val. destruct (limbs x) as [|d l]; [done|]. cbn [nth of_digits].
  replace (2 ^ 32) with (2 ^ (32 - k) * 2 ^ k) by (rewrite <- Z.pow_add_r by lia; f_equal; lia).
  replace (d + 2 ^ (32 - k) * 2 ^ k * of_digits 32 l) with (d + (2 ^ (32 - k) * of_digits 32 l) * 2 ^ k) by ring.
  pose proof (Z.pow_pos_nonneg 2 k). rewrite Z.mod_add; lia.
Qed.

Lemma is_one_spec x : u512_ok x -> is_one x = (u512_val x =? 1).
Proof.
  intros [Lx Dx]. unfold is_one, u512_val. destruct (limbs x) as [|d l]; [done|]. apply digits_ok_cons in Dx as [Hd Dl].
  cbn [of_digits]. rewrite (all_zero_spec l Dl). pose proof (of_digits_nonneg 32 ltac:(lia) l Dl). unfold in_width in Hd.
  destruct (Z.eqb_spec d 1), (Z.eqb_spec (of_digits 32 l) 0), (Z.eqb_spec (d + 2 ^ 32 * of_digits 32 l) 1); cbn; done || lia.
Qed.

(** The wide loop is the narrow one on the value of the exponent. *)
Lemma modpow_loop_eq fuel mod_n : forall res base exp,
  u512_ok exp -> modpow_loop fuel res base exp mod_n = modpow_u32_loop fuel res base (u512_val exp) mod_n.
Proof.
  induction fuel as [|f IH]; intros res base exp He; cbn [modpow_loop modpow_u32_loop]; rewrite is_zero_spec by done; [done|].
  destruct (u512_val exp =? 0); [done|]. destruct (rshift_spec exp 1 He ltac:(lia)) as [G1 G2].
  rewrite IH by done. rewrite G2, Z.shiftr_div_pow2 by lia.
  pose proof (low_limb_mod exp 1 He ltac:(lia)) as El. pose proof (Z.land_ones (u512_val exp) 1 ltac:(lia)) as El'.
  change (Z.ones 1) with 1 in *. by rewrite El, El'.
Qed.

Section powers.
Context (mod_n : uint512) (Hn : u512_ok mod_n) (Hnz : u512_val mod_n <> 0).
Notation n := (u512_val mod_n).

Lemma modpow_u32_loop_spec fuel : forall res base exp,
  u512_ok res -> u512_ok base -> 0 <= exp < 2 ^ Z.of_nat fuel ->
  exists r, modpow_u32_loop fuel res base exp mod_n = Some r /\ u512_ok r /\
    u512_val r = if exp =? 0 then u512_val res else (u512_val res * u512_val base ^ exp) mod n.
Proof using Hn Hnz.
  induction fuel as [|f IH]; intros res base exp Hr Hb He; cbn [modpow_u32_loop]; destruct (Z.eqb_spec exp 0) as [->|E].
  1,3: by eauto. { cbn in He. lia. }
  rewrite Nat2Z.inj_succ, Z.pow_succ_r in He by lia. rewrite Z.shiftr_div_pow2 by lia.
  pose proof (Z.land_ones exp 1 ltac:(lia)) as El. change (Z.ones 1) with 1 in El. rewrite El.
  change (2 ^ 1) with 2. pose proof (Z.mod_pos_bound exp 2 ltac:(lia)) as Hm. pose proof (Z.div_mod exp 2 ltac:(lia)) as Ed.
  set (h := exp / 2) in *. assert (0 <= h) by (apply Z.div_pos; lia).
  destruct (mul_mod_spec base base mod_n Hb Hb Hn Hnz) as [B1 B2]. destruct (mul_mod_spec res base mod_n Hr Hb Hn Hnz) as [M1 M2].
  set (res' := if negb (exp mod 2 =? 0) then _ else _).
  assert (u512_ok res') as Hr' by (unfold res'; by destruct (negb _)).
  destruct (IH res' (mul_mod base base mod_n) h Hr' B1 ltac:(lia)) as (r & E1 & E2 & E3).
  exists r. split; [exact E1|]. split; [done|]. rewrite E3, B2.
  assert (u512_val base ^ exp = u512_val base ^ (exp mod 2) * (u512_val base * u512_val base) ^ h) as ->.
  { rewrite <- Z.pow_2_r, <- Z.pow_mul_r, <- Z.pow_add_r by lia. f_equal. lia. }
  unfold res'. destruct (Z.eqb_spec (exp mod 2) 0) as [E0|E0]; cbn [negb].
  - rewrite E0, Z.pow_0_r, Z.mul_1_l. destruct (Z.eqb_spec h 0); [lia|]. by rewrite <- Zmult_mod_idemp_r, Z.mod_pow_l, Zmult_mod_idemp_r.
  - assert (exp mod 2 = 1) as -> by lia. rewrite Z.pow_1_r, M2. destruct (Z.eqb_spec h 0) as [->|].
    + by rewrite Z.pow_0_r, Z.mul_1_r.
    + by rewrite Zmult_mod_idemp_l, <- Zmult_mod_idemp_r, Z.mod_pow_l, Zmult_mod_idemp_r, Z.mul_assoc.
Qed.

Lemma modpow_u32_spec base exp :
  u512_ok base -> in_width 32 exp ->
  exists r, modpow_u32 base exp mod_n = Some r /\ u512_ok r /\ u512_val r = power_value (u512_val base) exp n.
Proof using Hn Hnz.
  intros Hb He. destruct (mod_spec base mod_n Hb Hn Hnz) as [B1 B2]. pose proof u512_one as [O1 O2].
  destruct (modpow_u32_loop_spec 32 _ _ exp O1 B1 He) as (r & E1 & E2 & E3). exists r. split; [exact E1|]. split; [done|].
  rewrite E3, B2, O2, Z.mul_1_l. unfold power_value. destruct (exp =? 0); [done|]. apply Z.mod_pow_l.
Qed.

Lemma modpow_spec base exp :
  u512_ok base -> u512_ok exp ->
  exists r, modpow base exp mod_n = Some r /\ u512_ok r /\ u512_val r = power_value (u512_val base) (u512_val exp) n.
Proof using Hn Hnz.
  intros Hb He. destruct (mod_spec base mod_n Hb Hn Hnz) as [B1 B2]. pose proof u512_one as [O1 O2].
  unfold modpow. rewrite modpow_loop_eq by done.
  destruct (modpow_u32_loop_spec 512 _ _ (u512_val exp) O1 B1 (u512_bound _ He)) as (r & E1 & E2 & E3).
  exists r. split; [exact E1|]. split; [done|].
  rewrite E3, B2, O2, Z.mul_1_l. unfold power_value. destruct (u512_val exp =? 0); [done|]. apply Z.mod_pow_l.
Qed.
End powers.

(** ** Lemmas: the Euclidean loops *)

(** From [r1 <= r0], a division step halves the product of the pair. *)
Lemma euclid_halves r0 r1 : 0 < r1 <= r0 -> 2 * (r1 * (r0 mod r1)) < r0 * r1.
Proof.
  intros H. pose proof (Z.mod_pos_bound r0 r1 ltac:(lia)). pose proof (Z.div_mod r0 r1 ltac:(lia)) as E.
  assert (1 <= r0 / r1) by (apply Z.div_le_lower_bound; lia). assert (2 * (r0 mod r1) < r0) by nia. nia.
Qed.

Lemma product_fits x y f : 0 <= x < 2 ^ 512 -> 0 <= y < 2 ^ 512 -> 1024 <= Z.of_nat f -> x * y < 2 ^ Z.of_nat f.
Proof.
  intros Hx Hy Hf. pose proof (Z.pow_le_mono_r 2 1024 (Z.of_nat f) ltac:(lia) Hf) as Hp.
  change (2 ^ 1024) with (2 ^ 512 * 2 ^ 512) in Hp. nia.
Qed.

Lemma gcd_loop_spec f : forall a b,
  u512_ok a -> u512_ok b -> u512_val b <= u512_val a -> u512_val a * u512_val b < 2 ^ Z.of_nat f ->
  exists r, gcd_loop f a b = Some r /\ u512_ok r /\ u512_val r = Z.gcd (u512_val a) (u512_val b).
Proof.
  induction f as [|f IH]; intros a b Ha Hb Hle Hf; pose proof (u512_bound _ Ha); pose proof (u512_bound _ Hb);
    cbn [gcd_loop]; rewrite is_zero_spec by done; destruct (Z.eqb_spec (u512_val b) 0) as [E|E].
  1,3: exists a; split; [done|]; split; [done|]; rewrite E, Z.gcd_0_r; lia.
  { cbn in Hf. nia. }
  rewrite Nat2Z.inj_succ, Z.pow_succ_r in Hf by lia. destruct (mod_spec a b Ha Hb E) as [M1 M2].
  pose proof (euclid_halves (u512_val a) (u512_val b) ltac:(lia)). pose proof (Z.mod_pos_bound (u512_val a) (u512_val b) ltac:(lia)).
  destruct (IH b (mod_ a b) Hb M1) as (r & E1 & E2 & E3); [lia..|]. exists r. split; [done|]. split; [done|].
  rewrite E3, M2, Z.gcd_comm, Z.gcd_mod by done. apply Z.gcd_comm.
Qed.

Lemma gcd_loop_full f a b :
  u512_ok a -> u512_ok b -> 1024 <= Z.of_nat f ->
  exists r, gcd_loop (S f) a b = Some r /\ u512_ok r /\ u512_val r = Z.gcd (u512_val a) (u512_val b).
Proof.
  intros Ha Hb Hf. pose proof (u512_bound _ Ha). pose proof (u512_bound _ Hb). cbn [gcd_loop]. rewrite is_zero_spec by done.
  destruct (Z.eqb_spec (u512_val b) 0) as [E|E].
  { exists a. split; [done|]. split; [done|]. rewrite E, Z.gcd_0_r. lia. }
  destruct (mod_spec a b Ha Hb E) as [M1 M2]. pose proof (Z.mod_pos_bound (u512_val a) (u512_val b) ltac:(lia)).
  pose proof (product_fits (u512_val b) (u512_val (mod_ a b)) f ltac:(lia) ltac:(lia) Hf).
  destruct (gcd_loop_spec f b (mod_ a b) Hb M1) as (r & E1 & E2 & E3); [lia|done|].
  exists r. split; [done|]. split; [done|]. rewrite E3, M2, Z.gcd_comm, Z.gcd_mod by done. apply Z.gcd_comm.
Qed.

(** The code's gcd terminates with the greatest common divisor, 0 operands included. *)
Lemma gcd_spec a b :
  u512_ok a -> u512_ok b -> exists r, gcd a b = Some r /\ u512_ok r /\ u512_val r = Z.gcd (u512_val a) (u512_val b).
Proof. intros Ha Hb. apply (gcd_loop_full 1024); [done|done|]. by vm_compute. Qed.

Lemma next_u_mod m q u0 u1 : 0 <= u0 < m -> 0 <= next_u m q u0 u1 < m /\ next_u m q u0 u1 mod m = (u0 - q * u1) mod m.
Proof.
  intros H0. unfold next_u. pose proof (Z.mod_pos_bound (q * u1) m ltac:(lia)). destruct (Z.ltb_spec u0 ((q * u1) mod m)); split; try lia.
  - replace (u0 + m - (q * u1) mod m) with (u0 - (q * u1) mod m + 1 * m) by ring. by rewrite Z.mod_add, Zminus_mod_idemp_r by lia.
  - by rewrite Zminus_mod_idemp_r.
Qed.

Lemma bezout_step m a r0 r1 u0 u1 :
  bezout m a r0 r1 u0 u1 -> r1 <> 0 -> bezout m a r1 (r0 mod r1) u1 (next_u m (r0 / r1) u0 u1).
Proof.
  intros [B0 B1 Bg Bu0 Bu1] Hr. destruct (next_u_mod m (r0 / r1) u0 u1 Bu0) as [Hb Hm]. constructor; try done.
  - rewrite <- Zmult_mod_idemp_l, Hm, Zmult_mod_idemp_l. replace ((u0 - r0 / r1 * u1) * a) with (u0 * a - (r0 / r1) * (u1 * a)) by ring.
    rewrite Zminus_mod, B0, <- (Zmult_mod_idemp_r (u1 * a)), B1, Zmult_mod_idemp_r, <- Zminus_mod. f_equal.
    pose proof (Z.div_mod r0 r1 Hr). lia.
  - by rewrite Z.gcd_comm, Z.gcd_mod, Z.gcd_comm.
Qed.

Lemma bezout_end m a r0 u0 u1 : 0 <= r0 -> bezout m a r0 0 u0 u1 -> bezout_done m a r0 u0.
Proof. intros Hr [B0 B1 Bg Bu0 Bu1]. rewrite Z.gcd_0_r in Bg. unfold bezout_done. split; [lia|done]. Qed.

Section inverse.
Context (m : uint512) (Hm : u512_ok m) (a : Z).
Notation bz r0 r1 u0 u1 := (bezout (u512_val m) a (u512_val r0) (u512_val r1) (u512_val u0) (u512_val u1)).

Lemma inverse_step f r0 r1 u0 u1 :
  u512_ok r0 -> u512_ok r1 -> u512_ok u0 -> u512_ok u1 -> bz r0 r1 u0 u1 -> u512_val r1 <> 0 ->
  exists r2 u2, inverse_loop (S f) m r0 r1 u0 u1 = inverse_loop f m r1 r2 u1 u2 /\ u512_ok r2 /\ u512_ok u2 /\
    u512_val r2 = u512_val r0 mod u512_val r1 /\ bz r1 r2 u1 u2.
Proof using Hm.
  intros O0 O1 P0 P1 B Hz. cbn [inverse_loop]. rewrite is_zero_spec by done. destruct (Z.eqb_spec (u512_val r1) 0); [done|].
  destruct (div_mod_core_spec r0 r1 O0 O1 Hz) as (q & r & -> & Oq & Or & Eq & Er). cbn [default].
  pose proof (bz_u0 _ _ _ _ _ _ B). pose proof (bz_u1 _ _ _ _ _ _ B). pose proof (u512_bound _ Hm).
  destruct (mul_mod_spec q u1 m Oq P1 Hm ltac:(lia)) as [T1 T2]. set (term := mul_mod q u1 m) in *.
  pose proof (Z.mod_pos_bound (u512_val q * u512_val u1) (u512_val m) ltac:(lia)) as Ht. rewrite <- T2 in Ht.
  set (u' := if u512_ltb u0 term then add u0 m else u0).
  assert (u512_ok u' /\ u512_val u' = wrap 512 (if u512_val u0 <? u512_val term then u512_val u0 + u512_val m else u512_val u0)) as [U1 U2].
  { unfold u'. rewrite u512_ltb_spec by done. destruct (u512_val u0 <? u512_val term); [by apply add_spec|].
    split; [done|]. symmetry. apply wrap_small, u512_bound, P0. }
  destruct (sub_spec u' term U1 T1) as [S1 S2].
  exists r, (sub u' term). split; [done|]. split; [done|]. split; [done|]. split; [done|].
  assert (u512_val (sub u' term) = next_u (u512_val m) (u512_val q) (u512_val u0) (u512_val u1)) as ->.
  { rewrite S2, U2. unfold wrap. rewrite Zminus_mod_idemp_l. unfold next_u. rewrite <- T2.
    destruct (Z.ltb_spec (u512_val u0) (u512_val term)); apply Z.mod_small; lia. }
  rewrite Er, Eq. by apply bezout_step.
Qed.

Lemma inverse_loop_spec f : forall r0 r1 u0 u1,
  u512_ok r0 -> u512_ok r1 -> u512_ok u0 -> u512_ok u1 -> bz r0 r1 u0 u1 ->
  u512_val r1 <= u512_val r0 -> u512_val r0 * u512_val r1 < 2 ^ Z.of_nat f ->
  exists r u, inverse_loop f m r0 r1 u0 u1 = Some (r, u) /\ u512_ok r /\ u512_ok u /\ bezout_done (u512_val m) a (u512_val r) (u512_val u).
Proof using Hm.
  induction f as [|f IH]; intros r0 r1 u0 u1 O0 O1 P0 P1 B Hle Hf; pose proof (u512_bound _ O0); pose proof (u512_bound _ O1);
    destruct (Z.eq_dec (u512_val r1) 0) as [E|E].
  1,3: exists r0, u0; cbn [inverse_loop]; rewrite is_zero_spec, (proj2 (Z.eqb_eq _ _) E) by done; rewrite E in B;
    split; [done|]; split; [done|]; split; [done|]; eapply bezout_end; [|exact B]; lia.
  { cbn in Hf. nia. }
  destruct (inverse_step f r0 r1 u0 u1 O0 O1 P0 P1 B E) as (r2 & u2 & -> & O2 & P2 & E2 & B2).
  rewrite Nat2Z.inj_succ, Z.pow_succ_r in Hf by lia.
  pose proof (euclid_halves (u512_val r0) (u512_val r1) ltac:(lia)). pose proof (Z.mod_pos_bound (u512_val r0) (u512_val r1) ltac:(lia)).
  apply IH; done || lia.
Qed.

End inverse.

Lemma inverse_loop_full f a m :
  u512_ok a -> u512_ok m -> 1 < u512_val m -> 1024 <= Z.of_nat f ->
  exists r u, inverse_loop (S f) m a m (u512_of_u32 1) (u512_of_u32 0) = Some (r, u) /\
    u512_ok r /\ u512_ok u /\ bezout_done (u512_val m) (u512_val a) (u512_val r) (u512_val u).
Proof.
  intros Ha Hm Hm1 Hf. pose proof (u512_bound _ Ha). pose proof (u512_bound _ Hm). pose proof u512_one as [O1 V1]. pose proof u512_nil as [O0 V0].
  assert (bezout (u512_val m) (u512_val a) (u512_val a) (u512_val m) (u512_val (u512_of_u32 1)) (u512_val (u512_of_u32 0))) as B.
  { rewrite V1, V0. constructor; try lia; [by rewrite Z.mul_1_l|]. by rewrite Z.mul_0_l, Z.mod_same, Z.mod_0_l by lia. }
  destruct (inverse_step m Hm (u512_val a) f a m _ _ Ha Hm O1 O0 B ltac:(lia)) as (r2 & u2 & -> & G1 & G2 & G3 & G4).
  pose proof (Z.mod_pos_bound (u512_val a) (u512_val m) ltac:(lia)).
  pose proof (product_fits (u512_val m) (u512_val r2) f ltac:(lia) ltac:(lia) Hf).
  apply (inverse_loop_spec m Hm (u512_val a) f m r2 (u512_of_u32 0) u2 Hm G1 O0 G2 G4); [lia|done].
Qed.

(** A modulus above 1: the inverse when there is one, else 0. *)
Lemma mod_inverse_spec a m :
  u512_ok a -> u512_ok m -> 1 < u512_val m ->
  exists r, mod_inverse a m = Some r /\ u512_ok r /\ 0 <= u512_val r < u512_val m /\
    if Z.gcd (u512_val a) (u512_val m) =? 1 then (u512_val r * u512_val a) mod u512_val m = 1 else u512_val r = 0.
Proof.
  intros Ha Hm Hm1. pose proof u512_nil as [O0 V0]. unfold mod_inverse.
  destruct (inverse_loop_full 1024 a m Ha Hm Hm1) as (r & u & E & Or & Ou & D1 & D2 & D3); [by vm_compute|].
  unfold euclid_fuel. rewrite E. cbn [mbind option_bind]. eexists. split; [reflexivity|]. rewrite is_one_spec, D1 by done.
  destruct (Z.eqb_spec (Z.gcd (u512_val a) (u512_val m)) 1) as [Eg|Eg]; cbn [negb].
  - split; [done|]. split; [done|]. rewrite D2, D1, Eg. by apply Z.mod_1_l.
  - rewrite V0. split; [done|]. split; [lia|done].
Qed.

Section inverse_u32.
Context (m : Z) (Hm : 1 < m < 2 ^ 32) (a : Z).

Lemma inverse_u32_step f r0 r1 u0 u1 :
  in_width 32 r0 -> in_width 32 r1 -> bezout m a r0 r1 u0 u1 -> r1 <> 0 ->
  exists u2, inverse_u32_loop (S f) m r0 r1 u0 u1 = inverse_u32_loop f m r1 (r0 mod r1) u1 u2 /\ bezout m a r1 (r0 mod r1) u1 u2.
Proof using Hm.
  intros O0 O1 B Hz. cbn [inverse_u32_loop]. destruct (Z.eqb_spec r1 0); [done|].
  pose proof (bz_u0 _ _ _ _ _ _ B). pose proof (bz_u1 _ _ _ _ _ _ B). unfold in_width in *.
  pose proof (Z.div_mod r0 r1 Hz). pose proof (Z.mod_pos_bound r0 r1 ltac:(lia)). assert (0 <= r0 / r1 <= r0) by (split; [apply Z.div_pos|]; nia).
  assert (wrap 64 (r0 / r1 * u1) = r0 / r1 * u1) as -> by (apply wrap_small; unfold in_width; nia).
  pose proof (Z.mod_pos_bound (r0 / r1 * u1) m ltac:(lia)). rewrite (wrap_small 32 (_ mod m)) by (unfold in_width; lia).
  eexists. split; [reflexivity|].
  replace (if u0 <? _ then _ else _) with (next_u m (r0 / r1) u0 u1); [by apply bezout_step|].
  unfold next_u, wrap. rewrite Zminus_mod_idemp_l. destruct (Z.ltb_spec u0 ((r0 / r1 * u1) mod m)); symmetry; apply Z.mod_small; lia.
Qed.

Lemma inverse_u32_loop_spec f : forall r0 r1 u0 u1,
  in_width 32 r0 -> in_width 32 r1 -> bezout m a r0 r1 u0 u1 -> r1 <= r0 -> r0 * r1 < 2 ^ Z.of_nat f ->
  exists r u, inverse_u32_loop f m r0 r1 u0 u1 = Some (r, u) /\ bezout_done m a r u.
Proof using Hm.
  induction f as [|f IH]; intros r0 r1 u0 u1 O0 O1 B Hle Hf; destruct (Z.eq_dec r1 0) as [E|E].
  1,3: subst r1; exists r0, u0; split; [done|]; unfold in_width in *; eapply bezout_end; [|exact B]; lia.
  { unfold in_width in *. cbn in Hf. nia. }
  destruct (inverse_u32_step f r0 r1 u0 u1 O0 O1 B E) as (u2 & -> & B2). rewrite Nat2Z.inj_succ, Z.pow_succ_r in Hf by lia.
  unfold in_width in *. pose proof (euclid_halves r0 r1 ltac:(lia)). pose proof (Z.mod_pos_bound r0 r1 ltac:(lia)).
  apply IH; done || lia.
Qed.

End inverse_u32.

(** The 32-bit overload. *)
Lemma mod_inverse_u32_spec a m :
  u512_ok a -> 1 < m < 2 ^ 32 ->
  exists r, mod_inverse_u32 a m = Some r /\ 0 <= r < m /\
    if Z.gcd (u512_val a) m =? 1 then (r * u512_val a) mod m = 1 else r = 0.
Proof.
  intros Ha Hm. unfold mod_inverse_u32. destruct (div_uint32_inplace_spec a m Ha ltac:(lia)) as (_ & _ & Er).
  rewrite mod_uint32_eq. destruct (Z.eqb_spec m 0); [lia|]. rewrite Er. pose proof (Z.mod_pos_bound (u512_val a) m ltac:(lia)).
  assert (bezout m (u512_val a) (u512_val a mod m) m 1 0) as B.
  { constructor; try lia; [by rewrite Z.mul_1_l, Zmod_mod|by rewrite Z.mul_0_l, Z.mod_same, Z.mod_0_l by lia|].
    by rewrite Z.gcd_mod, Z.gcd_comm by lia. }
  assert (exists r u, inverse_u32_loop euclid_fuel m (u512_val a mod m) m 1 0 = Some (r, u) /\ bezout_done m (u512_val a) r u) as (r & u & -> & D1 & D2 & D3).
  { unfold euclid_fuel. generalize (eq_refl : (1024 <=? Z.of_nat 1024) = true). generalize 1024%nat. intros f Hf%Z.leb_le.
    destruct (inverse_u32_step m Hm (u512_val a) f (u512_val a mod m) m 1 0) as (u2 & -> & B2); [unfold in_width; lia..|done|lia|].
    rewrite Z.mod_small in * by lia.
    pose proof (product_fits m (u512_val a mod m) f ltac:(lia) ltac:(lia) Hf).
    apply inverse_u32_loop_spec; [done|unfold in_width; lia..|done|lia|done]. }
  cbn [mbind option_bind]. eexists. split; [done|]. rewrite D1.
  destruct (Z.eqb_spec (Z.gcd (u512_val a) m) 1) as [Eg|Eg]; cbn [negb]; [|lia].
  split; [done|]. rewrite D2, D1, Eg. apply Z.mod_1_l. lia.
Qed.

(** ** Lemmas: residues *)

Lemma legendre_symbol_spec a p :
  u512_ok a -> u512_ok p -> 1 < u512_val p ->
  exists r, legendre_symbol a p = Some r /\ u512_ok r /\
    u512_val r = if u512_val a mod u512_val p =? 0 then 0 else u512_val a ^ ((u512_val p - 1) / 2) mod u512_val p.
Proof.
  intros Ha Hp Hp1. pose proof (u512_bound _ Hp). destruct (mod_spec a p Ha Hp ltac:(lia)) as [M1 M2]. unfold legendre_symbol.
  rewrite is_zero_spec, M2 by done. destruct (u512_val a mod u512_val p =? 0) eqn:E.
  { exists (u512_of_u32 0). split; [done|]. apply u512_nil. }
  pose proof u512_one as [O1 V1]. destruct (sub_spec p _ Hp O1) as [S1 S2]. rewrite V1, wrap_small in S2 by (unfold in_width; lia).
  destruct (rshift_spec _ 1 S1 ltac:(lia)) as [R1 R2]. rewrite S2 in R2. change (2 ^ 1) with 2 in R2.
  destruct (modpow_spec p Hp ltac:(lia) (mod_ a p) _ M1 R1) as (r & E1 & E2 & E3). exists r. split; [done|]. split; [done|].
  rewrite E3, M2, R2. unfold power_value. destruct (Z.eqb_spec ((u512_val p - 1) / 2) 0) as [->|]; [by rewrite Z.pow_0_r, Z.mod_1_l|].
  apply Z.mod_pow_l.
Qed.

(** The result is 0 or a square root, for every modulus (prime or not) but [2^512 - 1]. *)
Lemma sqrt_mod_3mod4_spec n p :
  u512_ok n -> u512_ok p -> 0 < u512_val p < 2 ^ 512 - 1 ->
  exists r, sqrt_mod_3mod4 n p = Some r /\ u512_ok r /\
    (u512_val r = 0 \/ (u512_val r * u512_val r) mod u512_val p = u512_val n mod u512_val p) /\
    (u512_val p mod 4 = 3 -> u512_val n mod u512_val p <> 0 -> u512_val n ^ ((u512_val p - 1) / 2) mod u512_val p = 1 ->
     (u512_val r * u512_val r) mod u512_val p = u512_val n mod u512_val p).
Proof.
  intros Hn Hp Hp1. unfold sqrt_mod_3mod4. pose proof (low_limb_mod p 2 Hp ltac:(lia)) as El. change (Z.ones 2) with 3 in El.
  change (2 ^ 2) with 4 in El. rewrite El. pose proof u512_nil as [O0 V0].
  destruct (Z.eqb_spec (u512_val p mod 4) 3) as [E4|E4]; cbn [negb].
  2:{ exists (u512_of_u32 0). split; [done|]. split; [done|]. split; [by left|done]. }
  pose proof (Z.div_mod (u512_val p) 4 ltac:(lia)) as Ed. rewrite E4 in Ed. set (k := u512_val p / 4) in *.
  destruct (legendre_symbol_spec n p Hn Hp ltac:(lia)) as (ls & -> & Ol & El'). cbn [mbind option_bind]. rewrite is_one_spec, El' by done.
  assert ((u512_val p - 1) / 2 = 2 * k + 1) as E2 by (symmetry; apply Z.div_unique with 0; lia). rewrite E2 in *.
  destruct (Z.eqb_spec (u512_val n mod u512_val p) 0) as [Ez|Ez].
  { cbn. exists (u512_of_u32 0). split; [done|]. split; [done|]. split; [by left|done]. }
  destruct (Z.eqb_spec (u512_val n ^ (2 * k + 1) mod u512_val p) 1) as [Eu|Eu]; cbn [negb].
  2:{ exists (u512_of_u32 0). split; [done|]. split; [done|]. split; [by left|]. intros _ _ H. congruence. }
  pose proof u512_one as [O1 V1]. destruct (add_spec p _ Hp O1) as [S1 S2]. rewrite V1, wrap_small in S2 by (unfold in_width; lia).
  destruct (rshift_spec _ 2 S1 ltac:(lia)) as [R1 R2]. rewrite S2 in R2. change (2 ^ 2) with 4 in R2.
  replace ((u512_val p + 1) / 4) with (k + 1) in R2 by (apply Z.div_unique with 0; lia).
  destruct (modpow_spec p Hp ltac:(lia) n _ Hn R1) as (r & E1 & Or & Er). exists r. split; [done|]. split; [done|].
  assert ((u512_val r * u512_val r) mod u512_val p = u512_val n mod u512_val p) as Hsq; [|by split; [right|]].
  rewrite Er, R2. unfold power_value. destruct (Z.eqb_spec (k + 1) 0); [lia|].
  rewrite <- Zmult_mod, <- Z.pow_add_r by lia. replace (k + 1 + (k + 1)) with (2 * k + 1 + 1) by lia.
  rewrite Z.pow_add_r, Z.pow_1_r, <- Zmult_mod_idemp_l, Eu, Z.mul_1_l by lia. done.
Qed.

(** ** Lemmas: the Chinese remainder *)

Lemma mod_mul_mod x m1 m2 : 0 < m1 -> 0 < m2 -> (x mod (m1 * m2)) mod m1 = x mod m1.
Proof. intros H1 H2. rewrite Z.rem_mul_r, Z.mul_comm, Z.mod_add, Zmod_mod by lia. done. Qed.

(** One CRT term: congruent to [r] modulo its modulus, to 0 modulo the other. *)
Lemma crt_term_spec r m m' y M :
  u512_ok r -> u512_ok m' -> u512_ok y -> u512_ok M -> 0 < m -> 0 < u512_val m' ->
  u512_val M = m * u512_val m' -> (u512_val y * u512_val m') mod m = 1 mod m ->
  let t := mul_mod (mul_mod r m' M) y M in
  u512_ok t /\ u512_val t < u512_val M /\ u512_val t mod m = u512_val r mod m /\ u512_val t mod u512_val m' = 0.
Proof.
  intros Hr Hm' Hy HM Hm Hp EM Hyi t. assert (u512_val M <> 0) by nia.
  destruct (mul_mod_spec r m' M Hr Hm' HM ltac:(done)) as [A1 A2]. destruct (mul_mod_spec _ y M A1 Hy HM ltac:(done)) as [B1 B2].
  rewrite A2, Zmult_mod_idemp_l in B2. fold t in B1, B2. split; [done|]. rewrite B2. split; [apply Z.mod_pos_bound; nia|]. rewrite EM. split.
  - rewrite mod_mul_mod by done. replace (u512_val r * u512_val m' * u512_val y) with (u512_val r * (u512_val y * u512_val m')) by ring.
    rewrite <- Zmult_mod_idemp_r, Hyi, Zmult_mod_idemp_r. by rewrite Z.mul_1_r.
  - rewrite (Z.mul_comm m), (mod_mul_mod _ (u512_val m') m) by done.
    replace (u512_val r * u512_val m' * u512_val y) with (u512_val r * u512_val y * u512_val m') by ring. apply Z.mod_mul. lia.
Qed.

(** The code adds two terms below [m1 m2] before it reduces: the product must leave a bit. *)
Lemma crt_2_spec r1 m1 r2 m2 :
  u512_ok r1 -> u512_ok m1 -> u512_ok r2 -> u512_ok m2 -> 1 < u512_val m1 -> 1 < u512_val m2 ->
  Z.gcd (u512_val m1) (u512_val m2) = 1 -> u512_val m1 * u512_val m2 <= 2 ^ 511 ->
  exists x, crt_2 r1 m1 r2 m2 = Some x /\ u512_ok x /\ u512_val x < u512_val m1 * u512_val m2 /\
    u512_val x mod u512_val m1 = u512_val r1 mod u512_val m1 /\ u512_val x mod u512_val m2 = u512_val r2 mod u512_val m2.
Proof.
  intros Hr1 Hm1 Hr2 Hm2 H1 H2 Hg Hlt. unfold crt_2. destruct (mult_spec m1 m2 Hm1 Hm2) as [OM VM].
  rewrite wrap_small in VM by (unfold in_width; nia). set (M := mult m1 m2) in *.
  destruct (mod_inverse_spec m2 m1 Hm2 Hm1 H1) as (y1 & -> & Oy1 & _ & Y1). rewrite Z.gcd_comm, Hg in Y1. cbn in Y1.
  destruct (mod_inverse_spec m1 m2 Hm1 Hm2 H2) as (y2 & -> & Oy2 & _ & Y2). rewrite Hg in Y2. cbn in Y2.
  cbn [mbind option_bind].
  destruct (crt_term_spec r1 (u512_val m1) m2 y1 M) as (A1 & A2 & A3 & A4); [done..|lia|lia|done|by rewrite Y1, Z.mod_1_l|].
  destruct (crt_term_spec r2 (u512_val m2) m1 y2 M) as (B1 & B2 & B3 & B4); [done..|lia|lia|by rewrite VM, Z.mul_comm|by rewrite Y2, Z.mod_1_l|].
  set (t1 := mul_mod _ y1 M) in *. set (t2 := mul_mod _ y2 M) in *. pose proof (u512_bound _ A1). pose proof (u512_bound _ B1).
  destruct (add_spec t1 t2 A1 B1) as [S1 S2]. rewrite wrap_small in S2 by (unfold in_width; lia).
  destruct (mod_spec _ M S1 OM ltac:(nia)) as [M1 M2]. eexists. split; [done|]. split; [done|]. rewrite M2, S2, VM.
  split; [apply Z.mod_pos_bound; nia|]. split.
  - rewrite mod_mul_mod, Zplus_mod, A3, B4, Z.add_0_r, Zmod_mod by lia. done.
  - rewrite (Z.mul_comm (u512_val m1)), mod_mul_mod, Zplus_mod, A4, B3, Z.add_0_l, Zmod_mod by lia. done.
Qed.

(** ** Lemmas: polynomial values *)

Lemma land_top_bit d k : 0 <= k -> 0 <= d < 2 ^ (k + 1) -> negb (Z.land d (2 ^ k) =? 0) = (2 ^ k <=? d).
Proof.
  intros Hk Hd. rewrite Z.pow_add_r, Z.pow_1_r in Hd by lia. pose proof (Z.pow_pos_nonneg 2 k).
  assert (Z.land d (2 ^ k) = (d / 2 ^ k) * 2 ^ k) as ->.
  { apply Z.bits_inj'. intros i Hi. rewrite Z.land_spec, <- Z.shiftl_mul_pow2, Z.shiftl_spec by lia.
    assert (0 <= d / 2 ^ k < 2) by (split; [apply Z.div_pos; lia|apply Z.div_lt_upper_bound; lia]).
    destruct (Z.lt_trichotomy i k) as [Hl|[->|Hl]].
    - rewrite Z.pow2_bits_false, andb_false_r by lia. rewrite Z.testbit_neg_r by lia. done.
    - rewrite Z.pow2_bits_true, Z.sub_diag, andb_true_r by lia. rewrite Z.testbit_odd, Z.shiftr_div_pow2 by lia. apply Z.bit0_odd.
    - rewrite Z.pow2_bits_false, andb_false_r by lia. symmetry. apply Z.bits_above_log2; [lia|].
      destruct (Z.eq_dec (d / 2 ^ k) 0) as [->|]; [cbn; lia|]. assert (d / 2 ^ k = 1) as -> by lia. cbn. lia. }
  destruct (Z.leb_spec (2 ^ k) d).
  - assert (1 <= d / 2 ^ k) by (apply Z.div_le_lower_bound; lia). destruct (Z.eqb_spec (d / 2 ^ k * 2 ^ k) 0); [nia|done].
  - rewrite Z.div_small by lia. done.
Qed.

Lemma msb_is_set_spec x : u512_ok x -> msb_is_set x = (2 ^ 511 <=? u512_val x).
Proof.
  intros [Lx Dx]. unfold msb_is_set, u512_val. rewrite <- (firstn_skipn 15 (limbs x)) in Dx |- *.
  apply Forall_app in Dx as [D1 D2]. assert (length (take 15 (limbs x)) = 15%nat) as L1 by (rewrite length_take; lia).
  assert (length (drop 15 (limbs x)) = 1%nat) as L2 by (rewrite length_drop; lia).
  rewrite of_digits_app, app_nth2, L1, Nat.sub_diag by lia. pose proof (of_digits_bound 32 ltac:(lia) _ D1) as B. rewrite L1 in B.
  destruct (drop 15 (limbs x)) as [|d [|]]; [done| |done]. inversion D2 as [|? ? Hd _]; subst. cbn [nth of_digits]. unfold in_width in Hd.
  rewrite (land_top_bit d 31) by (cbn; lia). change (32 * Z.of_nat 15) with 480 in *.
  change (2 ^ 511) with (2 ^ 31 * 2 ^ 480). destruct (Z.leb_spec (2 ^ 31) d), (Z.leb_spec (2 ^ 31 * 2 ^ 480) (of_digits 32 (take 15 (limbs x)) + 2 ^ 480 * (d + 2 ^ 32 * 0))); nia.
Qed.

(** Read back as a two's complement number, the value is [v]. *)
Lemma abs_twos_complement_spec x v :
  u512_ok x -> - 2 ^ 511 <= v < 2 ^ 511 -> u512_val x = wrap 512 v ->
  u512_ok (abs_twos_complement x).1 /\ u512_val (abs_twos_complement x).1 = Z.abs v /\ (abs_twos_complement x).2 = Z.sgn v.
Proof.
  intros Hx Hv E. unfold abs_twos_complement. rewrite is_zero_spec, msb_is_set_spec by done.
  assert (u512_val x = if 0 <=? v then v else v + 2 ^ 512) as Ev.
  { rewrite E. symmetry. apply wrap_eq_intro; [lia|unfold in_width; destruct (Z.leb_spec 0 v); lia|].
    destruct (0 <=? v); [exists 0|exists 1]; lia. }
  destruct (Z.leb_spec 0 v).
  - destruct (Z.eqb_spec (u512_val x) 0); cbn [fst snd]; [split; [done|]; split; [lia|]; assert (v = 0) as -> by lia; done|].
    destruct (Z.leb_spec (2 ^ 511) (u512_val x)); [lia|]. cbn. split; [done|]. split; [lia|]. symmetry. apply Z.sgn_pos. lia.
  - destruct (Z.eqb_spec (u512_val x) 0); [lia|]. destruct (Z.leb_spec (2 ^ 511) (u512_val x)); [|lia]. cbn [negb fst snd].
    pose proof u512_nil as [O0 V0]. destruct (sub_spec _ x O0 Hx) as [S1 S2]. split; [done|]. split.
    + rewrite S2, V0. symmetry. apply wrap_eq_intro; [lia|unfold in_width; lia|]. exists 1. lia.
    + symmetry. apply Z.sgn_neg. lia.
Qed.

Lemma eval_axb_spec a b x :
  u512_ok a -> u512_ok b -> - 2 ^ 31 <= x < 2 ^ 31 ->
  u512_ok (eval_axb a b x) /\ u512_val (eval_axb a b x) = wrap 512 (u512_val a * x + u512_val b).
Proof.
  intros Ha Hb Hx. unfold eval_axb. rewrite (wrap_small 32) by (unfold in_width; lia).
  destruct (mult_uint32_spec a (Z.abs x) Ha) as [A1 A2]; [unfold in_width; lia|].
  destruct (Z.leb_spec 0 x).
  - destruct (add_spec _ b A1 Hb) as [S1 S2]. split; [done|]. rewrite S2, A2, Z.abs_eq by lia. unfold wrap. by rewrite Zplus_mod_idemp_l.
  - destruct (sub_spec b _ Hb A1) as [S1 S2]. split; [done|]. rewrite S2, A2, Z.abs_neq by lia. unfold wrap. rewrite Zminus_mod_idemp_r. f_equal. ring.
Qed.

(** The code's contract: [|a x + b| < 2^511] and [-2^511 <= (a x + b)^2 - N < 2^511]. *)
Lemma polynomial_values_spec a b x N :
  u512_ok a -> u512_ok b -> u512_ok N -> - 2 ^ 31 <= x < 2 ^ 31 ->
  let v := u512_val a * x + u512_val b in
  let q := v * v - u512_val N in
  - 2 ^ 511 <= v < 2 ^ 511 -> - 2 ^ 511 <= q < 2 ^ 511 ->
  let '(s, sign_axb) := calculate_sqrt_of_QX a b x in
  let '(Q, sign) := calculateQ_unsigned a b x N in
  u512_ok s /\ u512_val s = Z.abs v /\ sign_axb = Z.sgn v /\ u512_ok Q /\ u512_val Q = Z.abs q /\ sign = Z.sgn q.
Proof.
  intros Ha Hb HN Hx v q Hv Hq. destruct (eval_axb_spec a b x Ha Hb Hx) as [E1 E2].
  destruct (abs_twos_complement_spec _ v E1 Hv E2) as (A1 & A2 & A3). unfold calculate_sqrt_of_QX, calculateQ_unsigned.
  destruct (abs_twos_complement (eval_axb a b x)) as [s sg]. cbn [fst snd] in *.
  destruct (mult_spec s s A1 A1) as [M1 M2]. destruct (sub_spec _ N M1 HN) as [S1 S2].
  destruct (abs_twos_complement_spec (sub (mult s s) N) q S1 Hq) as (Q1 & Q2 & Q3).
  { rewrite S2, M2, A2. unfold wrap. rewrite Zminus_mod_idemp_l. f_equal. unfold q. lia. }
  destruct (abs_twos_complement (sub (mult s s) N)) as [Q sign]. cbn [fst snd] in *. done.
Qed.

(** ** Properties *)

(** The Euclidean loops terminate within their fuel: [gcd] is the greatest common divisor, both
    inverses are reduced inverses exactly when the operands are coprime and 0 otherwise. *)
Theorem euclid_exact a b m :
  u512_ok a -> u512_ok b -> 1 < u512_val b -> 1 < m < 2 ^ 32 ->
  (exists g, gcd a b = Some g /\ u512_val g = Z.gcd (u512_val a) (u512_val b)) /\
  (exists r, mod_inverse a b = Some r /\ 0 <= u512_val r < u512_val b /\
     if Z.gcd (u512_val a) (u512_val b) =? 1 then (u512_val r * u512_val a) mod u512_val b = 1 else u512_val r = 0) /\
  (exists r, mod_inverse_u32 a m = Some r /\ 0 <= r < m /\
     if Z.gcd (u512_val a) m =? 1 then (r * u512_val a) mod m = 1 else r = 0).
Proof.
  intros Ha Hb Hb1 Hm. split; [|split].
  - destruct (gcd_spec a b Ha Hb) as (g & E & _ & V). eauto.
  - destruct (mod_inverse_spec a b Ha Hb Hb1) as (r & E & _ & B & V). eauto.
  - by apply mod_inverse_u32_spec.
Qed.

(** [gcd(91, 35) = 7]. *)
Lemma euclid_exact_witness : exists g, gcd (u512_of_Z 91) (u512_of_Z 35) = Some g /\ u512_val g = 7.
Proof.
  destruct (euclid_exact (u512_of_Z 91) (u512_of_Z 35) 35) as [(g & E & V) _]; [apply u512_of_Z_spec..|done|done|].
  exists g. split; [exact E|exact V].
Defined.

(** Powers (both exponent widths), the Legendre symbol by Euler's criterion, and the square root
    modulo [p = 3 (mod 4)] are exact and terminate. *)
Theorem powers_exact b e e32 n p :
  u512_ok b -> u512_ok e -> in_width 32 e32 -> u512_ok n -> u512_val n <> 0 -> u512_ok p -> 1 < u512_val p < 2 ^ 512 - 1 ->
  (exists r, modpow b e n = Some r /\ u512_val r = power_value (u512_val b) (u512_val e) (u512_val n)) /\
  (exists r, modpow_u32 b e32 n = Some r /\ u512_val r = power_value (u512_val b) e32 (u512_val n)) /\
  (exists r, legendre_symbol b p = Some r /\
     u512_val r = if u512_val b mod u512_val p =? 0 then 0 else u512_val b ^ ((u512_val p - 1) / 2) mod u512_val p) /\
  (exists r, sqrt_mod_3mod4 b p = Some r /\
     (u512_val r = 0 \/ (u512_val r * u512_val r) mod u512_val p = u512_val b mod u512_val p)).
Proof.
  intros Hb He He32 Hn Hn0 Hp Hp1. split; [|split; [|split]].
  - destruct (modpow_spec n Hn Hn0 b e Hb He) as (r & E & _ & V). eauto.
  - destruct (modpow_u32_spec n Hn Hn0 b e32 Hb He32) as (r & E & _ & V). eauto.
  - destruct (legendre_symbol_spec b p Hb Hp ltac:(lia)) as (r & E & _ & V). eauto.
  - destruct (sqrt_mod_3mod4_spec b p Hb Hp ltac:(lia)) as (r & E & _ & V & _). eauto.
Qed.

(** [2^10 mod 23 = 12]. *)
Lemma powers_exact_witness : exists r, modpow (u512_of_Z 2) (u512_of_Z 10) (u512_of_Z 23) = Some r /\ u512_val r = 12.
Proof.
  destruct (powers_exact (u512_of_Z 2) (u512_of_Z 10) 10 (u512_of_Z 23) (u512_of_Z 23)) as [(r & E & V) _];
    [apply u512_of_Z_spec|apply u512_of_Z_spec|done|apply u512_of_Z_spec|done|apply u512_of_Z_spec|done|].
  exists r. split; [exact E|exact V].
Defined.

(** Under the documented contract on [a], [b], [x] and [N], the polynomial value and its square root
    come out as magnitude and sign of the exact integers [(a x + b)^2 - N] and [a x + b]. *)
Theorem polynomial_values_exact a b x N :
  u512_ok a -> u512_ok b -> u512_ok N -> - 2 ^ 31 <= x < 2 ^ 31 ->
  let v := u512_val a * x + u512_val b in
  let q := v * v - u512_val N in
  - 2 ^ 511 <= v < 2 ^ 511 -> - 2 ^ 511 <= q < 2 ^ 511 ->
  let '(s, sign_axb) := calculate_sqrt_of_QX a b x in
  let '(Q, sign) := calculateQ_unsigned a b x N in
  sign_axb * u512_val s = v /\ sign * u512_val Q = q /\ 0 <= u512_val s /\ 0 <= u512_val Q /\
  u512_val Q * sign = u512_val s * u512_val s - u512_val N.
Proof.
  intros Ha Hb HN Hx v q Hv Hq. pose proof (polynomial_values_spec a b x N Ha Hb HN Hx Hv Hq) as H.
  destruct (calculate_sqrt_of_QX a b x) as [s sg]. destruct (calculateQ_unsigned a b x N) as [Q sign].
  destruct H as (Os & Vs & -> & OQ & VQ & ->). fold v in Vs. fold v. fold v q in VQ. fold v. fold q. rewrite Vs, VQ.
  pose proof (Z.abs_sgn v). pose proof (Z.abs_sgn q). unfold q in *. lia.
Qed.

(** [a = 3], [b = 2], [x = -7], [N = 1000]: [Q = 361 - 1000]. *)
Lemma polynomial_values_exact_witness :
  let '(s, sign_axb) := calculate_sqrt_of_QX (u512_of_Z 3) (u512_of_Z 2) (-7) in
  let '(Q, sign) := calculateQ_unsigned (u512_of_Z 3) (u512_of_Z 2) (-7) (u512_of_Z 1000) in
  sign_axb * u512_val s = -19 /\ sign * u512_val Q = -639.
Proof.
  assert (u512_val (u512_of_Z 3) = 3 /\ u512_val (u512_of_Z 2) = 2 /\ u512_val (u512_of_Z 1000) = 1000) as (E3 & E2 & E1000) by done.
  pose proof (polynomial_values_exact (u512_of_Z 3) (u512_of_Z 2) (-7) (u512_of_Z 1000)
    (proj1 (u512_of_Z_spec _)) (proj1 (u512_of_Z_spec _)) (proj1 (u512_of_Z_spec _)) ltac:(lia)) as H.
  rewrite E3, E2, E1000 in H. specialize (H ltac:(lia) ltac:(lia)).
  destruct (calculate_sqrt_of_QX _ _ _) as [s sg]. destruct (calculateQ_unsigned _ _ _ _) as [Q sign].
  destruct H as (H1 & H2 & _). exact (conj H1 H2).
Defined.

(** The documented bound of [crt_2], a product below [2^512], is not enough: the sum of the two
    terms wraps. Here the result is not congruent to [r2] modulo [m2]. *)
Lemma crt_2_overflow :
  let m1 := 2 ^ 256 - 1 in let m2 := 2 ^ 256 in
  m1 * m2 < 2 ^ 512 /\ Z.gcd m1 m2 = 1 /\
  exists x, crt_2 (u512_of_Z (m1 - 1)) (u512_of_Z m1) (u512_of_Z 1) (u512_of_Z m2) = Some x /\
    (u512_val x) mod m1 <> m1 - 1.
Proof.
  split; [done|]. split; [done|]. eexists. split; [vm_compute; reflexivity|]. by vm_compute.
Qed.
