(* ===== verification/Bytes.v ===== *)
(** Byte buffers: little-endian encodings of integers and arrays of integers, the
    preallocated output buffer of [serialization.cpp] ([writeBytes]) and its
    bounds-checked reader ([SafeReader]). A byte is an integer in [0, 256). An
    access outside an array or a buffer, undefined in C++, is [None]. *)
From Stdlib Require Import ZArith Lia.
From stdpp Require Import base gmap sets list.
From S2P Require Import Prelude.
#[local] Open Scope Z_scope.

Notation bytes := (list Z).

Definition zlen {A} (l : list A) : Z := Z.of_nat (length l).

(** ** Encodings *)

(** [n] little-endian bytes; a negative value is taken modulo [2^(8n)]. *)
Definition le (n : nat) (x : Z) : bytes := to_digits 8 n x.
Definition of_le (b : bytes) : Z := of_digits 8 b.

(** Two's complement reading of a [w]-bit value. *)
Definition to_signed (w x : Z) : Z := if x <? 2 ^ (w - 1) then x else x - 2 ^ w.

(** An array of [n]-byte elements. *)
Definition arr_bytes (n : nat) (l : list Z) : bytes := concat (map (le n) l).

Fixpoint arr_of (n k : nat) (b : bytes) : list Z :=
  match k with
  | O => []
  | S k' => of_le (take n b) :: arr_of n k' (drop n b)
  end.

(** The first [count] elements of a vector, as [memcpy] reads them. *)
Definition mem_bytes (n : nat) (l : list Z) (count : Z) : option bytes :=
  if count <=? zlen l then Some (arr_bytes n (take (Z.to_nat count) l)) else None.

(** [memcpy] over the front of a vector. *)
Definition overwrite (dst src : list Z) : list Z := src ++ drop (length src) dst.

(** ** The output buffer *)

(** [writeBytes(buf, offset, src, len)]. *)
Definition writeBytes (src : option bytes) (st : bytes * Z) : option (bytes * Z) :=
  match src with
  | None => None
  | Some bs =>
      let '(buf, offset) := st in
      if offset + zlen bs <=? zlen buf then
        Some (take (Z.to_nat offset) buf ++ bs ++ drop (Z.to_nat offset + length bs) buf, offset + zlen bs)
      else None
  end.

(** Consecutive writes. *)
Definition writes (srcs : list (option bytes)) (st : bytes * Z) : option (bytes * Z) :=
  foldl (fun acc src => match acc with Some st => writeBytes src st | None => None end) (Some st) srcs.

(** ** The reader *)

Record SafeReader := mkReader { data : bytes; total : Z; pos : Z; ok : bool }.

Definition reader (b : bytes) : SafeReader := mkReader b (zlen b) 0 true.

(** [readBytes(dst, n)]: the bytes copied to [dst], if any. *)
Definition readBytes (n : Z) (r : SafeReader) : option bytes * SafeReader :=
  if total r <? pos r + n then (None, mkReader (data r) (total r) (pos r) false)
  else (Some (take (Z.to_nat n) (drop (Z.to_nat (pos r)) (data r))),
        mkReader (data r) (total r) (pos r + n) (ok r)).

(** A scalar of [n] bytes; the destination keeps its value when the read fails. *)
Definition readInt (n : nat) (old : Z) (r : SafeReader) : Z * SafeReader :=
  match readBytes (Z.of_nat n) r with
  | (Some b, r') => (of_le b, r')
  | (None, r') => (old, r')
  end.

(** [count] elements of [n] bytes, over the front of [dst]. *)
Definition readArr (n : nat) (count : Z) (dst : list Z) (r : SafeReader) : list Z * SafeReader :=
  match readBytes (count * Z.of_nat n) r with
  | (Some b, r') => (overwrite dst (arr_of n (Z.to_nat count) b), r')
  | (None, r') => (dst, r')
  end.

(** ** Vocabulary of the specifications *)

(** A reader positioned after [pre] with [mid ++ post] ahead. *)
Definition at_pos (r : SafeReader) (pre rest : bytes) : Prop :=
  data r = pre ++ rest /\ pos r = zlen pre /\ total r = zlen (pre ++ rest) /\ ok r = true.

(** ** Lemmas *)

Lemma length_le n x : length (le n x) = n.
Proof. apply length_to_digits. Qed.

Lemma zlen_le n x : zlen (le n x) = Z.of_nat n.
Proof. unfold zlen. by rewrite length_le. Qed.

Lemma le_ok n x : digits_ok 8 (le n x).
Proof. by apply to_digits_ok. Qed.

Lemma of_le_le n x : of_le (le n x) = wrap (8 * Z.of_nat n) x.
Proof. unfold of_le, le. by rewrite of_to_digits. Qed.

Lemma of_le_le_small n x : in_width (8 * Z.of_nat n) x -> of_le (le n x) = x.
Proof. intros. rewrite of_le_le. by apply wrap_small. Qed.

Lemma to_signed_wrap w x : 0 < w -> - 2 ^ (w - 1) <= x < 2 ^ (w - 1) -> to_signed w (wrap w x) = x.
Proof.
  intros Hw Hx. assert (2 ^ w = 2 * 2 ^ (w - 1)) as E by (rewrite <- Z.pow_succ_r by lia; f_equal; lia).
  unfold to_signed. destruct (Z.le_gt_cases 0 x).
  - rewrite wrap_small by (unfold in_width; lia). destruct (Z.ltb_spec x (2 ^ (w - 1))); lia.
  - assert (wrap w x = x + 2 ^ w) as ->.
    { symmetry. apply wrap_eq_intro; [lia|unfold in_width; lia|exists 1; lia]. }
    destruct (Z.ltb_spec (x + 2 ^ w) (2 ^ (w - 1))); lia.
Qed.

Lemma arr_bytes_app n l1 l2 : arr_bytes n (l1 ++ l2) = arr_bytes n l1 ++ arr_bytes n l2.
Proof. unfold arr_bytes. by rewrite map_app, concat_app. Qed.

Lemma length_arr_bytes n l : length (arr_bytes n l) = (length l * n)%nat.
Proof. induction l as [|x l IH]; [done|]. cbn. rewrite length_app, length_le. unfold arr_bytes in IH. lia. Qed.

Lemma zlen_arr_bytes n l : zlen (arr_bytes n l) = zlen l * Z.of_nat n.
Proof. unfold zlen. rewrite length_arr_bytes. lia. Qed.

Lemma arr_bytes_ok n l : digits_ok 8 (arr_bytes n l).
Proof. induction l; [constructor|]. apply Forall_app. split; [apply le_ok|done]. Qed.

Lemma arr_of_bytes n l : arr_of n (length l) (arr_bytes n l) = map (wrap (8 * Z.of_nat n)) l.
Proof.
  induction l as [|x l IH]; [done|]. cbn [length arr_of arr_bytes map concat].
  rewrite take_app_le, take_ge by (rewrite length_le; lia).
  rewrite drop_app_le, drop_ge by (rewrite length_le; lia). rewrite of_le_le. f_equal. exact IH.
Qed.

Lemma map_wrap_small w l : Forall (in_width w) l -> map (wrap w) l = l.
Proof. induction 1; cbn; [done|]. by rewrite wrap_small, IHForall. Qed.

Lemma length_arr_of n k b : length (arr_of n k b) = k.
Proof. revert b. induction k; intros; cbn; auto. Qed.

Lemma overwrite_prefix dst src : src `prefix_of` overwrite dst src.
Proof. by exists (drop (length src) dst). Qed.

Lemma zlen_nonneg {A} (l : list A) : 0 <= zlen l.
Proof. unfold zlen. lia. Qed.

Lemma zlen_app {A} (l1 l2 : list A) : zlen (l1 ++ l2) = zlen l1 + zlen l2.
Proof. unfold zlen. rewrite length_app. lia. Qed.

#[export] Hint Rewrite @zlen_app zlen_arr_bytes : mpqs_simpl.

(** Writing into a buffer whose tail from the cursor on is still free. *)
Lemma writeBytes_free pre free bs :
  (length bs <= length free)%nat ->
  writeBytes (Some bs) (pre ++ free, zlen pre)
  = Some ((pre ++ bs) ++ drop (length bs) free, zlen (pre ++ bs)).
Proof.
  intros Hl. unfold writeBytes. rewrite !zlen_app. unfold zlen.
  destruct (Z.leb_spec (Z.of_nat (length pre) + Z.of_nat (length bs)) (Z.of_nat (length pre) + Z.of_nat (length free)));
    [|lia].
  rewrite Nat2Z.id, take_app_length, <- app_assoc. do 3 f_equal.
  rewrite drop_app_ge by lia. do 2 f_equal. lia.
Qed.

Lemma writes_free srcs pre free :
  (length (concat srcs) <= length free)%nat ->
  writes (map Some srcs) (pre ++ free, zlen pre)
  = Some ((pre ++ concat srcs) ++ drop (length (concat srcs)) free, zlen (pre ++ concat srcs)).
Proof.
  revert pre free. induction srcs as [|bs srcs IH]; intros pre free Hl.
  { cbn. by rewrite app_nil_r, drop_0. }
  cbn [concat] in *. rewrite length_app in *.
  assert (writes (map Some (bs :: srcs)) (pre ++ free, zlen pre)
          = writes (map Some srcs) ((pre ++ bs) ++ drop (length bs) free, zlen (pre ++ bs))) as ->.
  { unfold writes. cbn [map foldl]. rewrite writeBytes_free by lia. done. }
  rewrite IH by (rewrite length_drop; lia). by rewrite !app_assoc, drop_drop.
Qed.

(** A buffer of the exact size ends up as the concatenation of the writes. *)
Lemma writes_exact srcs n :
  n = length (concat srcs) ->
  writes (map Some srcs) (replicate n 0, 0) = Some (concat srcs, zlen (concat srcs)).
Proof.
  intros ->. change (replicate ?n 0, 0) with ([] ++ replicate n 0, zlen (@nil Z)).
  rewrite writes_free by by rewrite length_replicate.
  rewrite drop_ge by (rewrite length_replicate; lia). by rewrite app_nil_r.
Qed.

Lemma at_pos_reader b : at_pos (reader b) [] b.
Proof. done. Qed.

Lemma readBytes_at r pre mid post n :
  at_pos r pre (mid ++ post) -> n = zlen mid ->
  exists r', readBytes n r = (Some mid, r') /\ at_pos r' (pre ++ mid) post.
Proof.
  intros (Hd & Hp & Ht & Ho) ->. unfold readBytes. rewrite Hp, Ht, !zlen_app.
  pose proof (zlen_nonneg post).
  destruct (Z.ltb_spec (zlen pre + (zlen mid + zlen post)) (zlen pre + zlen mid)); [lia|].
  eexists. split.
  - rewrite Hd. do 2 f_equal. unfold zlen. rewrite !Nat2Z.id, drop_app_length. by rewrite take_app_length.
  - unfold at_pos. cbn. rewrite !zlen_app, <- app_assoc. split_and!; try done. lia.
Qed.

Lemma readInt_at r pre x n old post :
  at_pos r pre (le n x ++ post) ->
  exists r', readInt n old r = (wrap (8 * Z.of_nat n) x, r') /\ at_pos r' (pre ++ le n x) post.
Proof.
  intros H. destruct (readBytes_at r pre (le n x) post (Z.of_nat n) H) as (r' & E & H').
  { unfold zlen. by rewrite length_le. }
  exists r'. unfold readInt. rewrite E, of_le_le. done.
Qed.

Lemma readArr_at r pre l n count dst post :
  at_pos r pre (arr_bytes n l ++ post) -> count = zlen l ->
  exists r', readArr n count dst r = (overwrite dst (map (wrap (8 * Z.of_nat n)) l), r') /\
             at_pos r' (pre ++ arr_bytes n l) post.
Proof.
  intros H ->. destruct (readBytes_at r pre (arr_bytes n l) post (zlen l * Z.of_nat n) H) as (r' & E & H').
  { by rewrite zlen_arr_bytes. }
  exists r'. unfold readArr. rewrite E. split; [|done]. f_equal. f_equal.
  unfold zlen. rewrite Nat2Z.id. apply arr_of_bytes.
Qed.
