(* ===== verification/Doubles.v ===== *)
(** IEEE binary64 arithmetic for the few places where the host code computes with
    [double]: the standard library's executable specification of floating-point
    numbers at precision 53 and exponent bound 1024, round to nearest even. *)
From Stdlib Require Import ZArith Lia SpecFloat.
From stdpp Require Import base tactics.
#[local] Open Scope Z_scope.

Definition double : Type := spec_float.

Definition prec : Z := 53.
Definition emax : Z := 1024.

(** Conversions from and to integers. *)
Definition d_of_Z (z : Z) : double := binary_normalize prec emax z 0 false.

Definition d_mul : double -> double -> double := SFmul prec emax.
Definition d_div : double -> double -> double := SFdiv prec emax.
Definition d_add : double -> double -> double := SFadd prec emax.
Definition d_sub : double -> double -> double := SFsub prec emax.
Definition d_ltb : double -> double -> bool := SFltb.
Definition d_leb : double -> double -> bool := SFleb.

(** The truncation of a finite double; C++ leaves the conversion of other values
    undefined, they give 0 here. *)
Definition d_trunc (x : double) : Z :=
  match x with
  | S754_finite s m e =>
      let v := if 0 <=? e then Zpos m * 2 ^ e else Zpos m / 2 ^ (- e) in
      if s then - v else v
  | _ => 0
  end.

(** The smallest integer not below a finite double ([std::ceil]). *)
Definition d_ceil (x : double) : Z :=
  match x with
  | S754_finite s m e =>
      if 0 <=? e then (if s then - (Zpos m * 2 ^ e) else Zpos m * 2 ^ e)
      else if s then - (Zpos m / 2 ^ (- e)) else - (- Zpos m / 2 ^ (- e))
  | _ => 0
  end.

(** A decimal literal is the double nearest to [num / den]. *)
Definition d_lit (num den : Z) : double := d_div (d_of_Z num) (d_of_Z den).

(** [std::sqrt]. *)
Definition d_sqrt : double -> double := SFsqrt prec emax.

(** ** Lemmas: the square root of an integer *)

Lemma digits2_log2 p : Z.pos (digits2_pos p) = Z.log2 (Z.pos p) + 1.
Proof.
  induction p as [p IH|p IH|]; [| |done]; cbn [digits2_pos]; rewrite Pos2Z.inj_succ, IH.
  - rewrite Pos2Z.inj_xI, Z.log2_succ_double by lia. lia.
  - rewrite Pos2Z.inj_xO, Z.log2_double by lia. lia.
Qed.

Lemma digits2_53 m : 2 ^ 52 <= m < 2 ^ 53 -> Zdigits2 m = 53.
Proof. intros Hm. destruct m as [|p|p]; [lia| |lia]. cbn [Zdigits2]. rewrite digits2_log2. rewrite (Z.log2_unique (Z.pos p) 52); lia. Qed.

(** A mantissa of 53 bits needs no shift. *)
Lemma shr_fexp_53 m e l : 2 ^ 52 <= m < 2 ^ 53 -> - 1074 <= e -> shr_fexp prec emax m e l = (shr_record_of_loc m l, e).
Proof.
  intros Hm He. unfold shr_fexp, fexp, emin, prec, emax. rewrite digits2_53 by done.
  replace (Z.sub _ e) with 0 by lia. done.
Qed.

Lemma shr_m_loc m l : shr_m (shr_record_of_loc m l) = m.
Proof. by destruct l as [|[]]. Qed.

(** Rounding keeps the mantissa or adds one. *)
Lemma round_53 m e l : 2 ^ 52 <= m < 2 ^ 53 -> - 1074 <= e <= 900 ->
  exists r, (r = m \/ r = m + 1) /\ (l = loc_Exact -> r = m) /\
    binary_round_aux prec emax false m e l
    = if r =? 2 ^ 53 then S754_finite false (Z.to_pos (2 ^ 52)) (e + 1) else S754_finite false (Z.to_pos r) e.
Proof.
  intros Hm He. unfold binary_round_aux. rewrite shr_fexp_53, shr_m_loc by lia.
  set (r := round_nearest_even m _). exists r.
  assert (r = m \/ r = m + 1) as Hr. { unfold r. destruct l as [|[]]; cbn; auto. destruct (Z.even m); auto. }
  split; [done|]. split; [intros ->; done|]. destruct (Z.eqb_spec r (2 ^ 53)) as [->|Hne].
  - unfold shr_fexp, fexp, emin, prec, emax. change (Zdigits2 (2 ^ 53)) with 54. replace (Z.sub _ e) with 1 by lia.
    cbn [shr iter_pos shr_record_of_loc shr_1]. rewrite (proj2 (Z.leb_le _ _)) by lia. done.
  - rewrite shr_fexp_53 by lia. rewrite shr_m_loc. destruct r as [|p|p]; [lia| |lia]. rewrite (proj2 (Z.leb_le _ _)) by (unfold emax, prec; lia). done.
Qed.

Lemma iter_xO p d : Z.pos (Pos.iter xO p d) = Z.pos p * 2 ^ Z.pos d.
Proof.
  induction d as [|d IH] using Pos.peano_ind; [cbn; lia|]. rewrite Pos.iter_succ, Pos2Z.inj_succ, Z.pow_succ_r by lia.
  rewrite Pos2Z.inj_xO, IH. lia.
Qed.

(** An integer below 2^53 as a double. *)
Lemma d_of_Z_normal c : 0 < c < 2 ^ 52 ->
  exists m e, d_of_Z c = S754_finite false m e /\ 2 ^ 52 <= Z.pos m < 2 ^ 53 /\ -52 <= e < 0 /\ e = Z.log2 c - 52 /\ Z.pos m = c * 2 ^ (- e).
Proof.
  intros Hc. destruct c as [|p|p]; [lia| |lia]. unfold d_of_Z, binary_normalize, binary_round. rewrite digits2_log2.
  pose proof (Z.log2_nonneg (Z.pos p)) as H0. pose proof (Z.log2_spec (Z.pos p) ltac:(lia)) as Hl.
  assert (Z.log2 (Z.pos p) < 52) as H52 by (apply Z.log2_lt_pow2; lia).
  set (g := Z.log2 (Z.pos p)) in *. assert (fexp prec emax (g + 1 + 0) = g - 52) as -> by (unfold fexp, emin, prec, emax; lia).
  unfold shl_align. rewrite Z.sub_0_r. destruct (g - 52) as [|d|d] eqn:Ed; [lia|lia|].
  pose proof (iter_xO p d) as Em. set (m := Pos.iter xO p d) in *.
  assert (2 ^ 52 <= Z.pos m < 2 ^ 53) as Hm.
  { rewrite Em. replace (2 ^ 52) with (2 ^ g * 2 ^ Z.pos d) by (rewrite <- Z.pow_add_r by lia; f_equal; lia).
    replace (2 ^ 53) with (2 ^ Z.succ g * 2 ^ Z.pos d) by (rewrite <- Z.pow_add_r by lia; f_equal; lia).
    pose proof (Z.pow_pos_nonneg 2 (Z.pos d) ltac:(lia) ltac:(lia)). nia. }
  destruct (round_53 (Z.pos m) (Z.neg d) loc_Exact Hm ltac:(lia)) as (r & _ & Hr & ->). rewrite (Hr eq_refl).
  rewrite (proj2 (Z.eqb_neq _ _)) by lia. exists m, (Z.neg d). cbn [Z.to_pos]. split; [done|]. split; [done|]. split; [lia|]. split; [lia|exact Em].
Qed.

(** The square root of a shifted integer is the shifted root, up to the lost bits. *)
Lemma sqrt_shift c t q : 0 <= c -> 0 <= t -> q * q <= c * 2 ^ (2 * t) < (q + 1) * (q + 1) -> 0 <= q ->
  q / 2 ^ t = Z.sqrt c /\ Z.sqrt c <= (q + 1) / 2 ^ t <= Z.sqrt c + 1.
Proof.
  intros Hc Ht Hq Hq0. destruct (Z.sqrt_spec c Hc) as [Hs1 Hs2]. pose proof (Z.sqrt_nonneg c). set (a := Z.sqrt c) in *.
  rewrite <- Z.add_diag, Z.pow_add_r in Hq by lia. pose proof (Z.pow_pos_nonneg 2 t ltac:(lia) Ht) as Hp. set (T := 2 ^ t) in *.
  assert (a * T <= q) as Hlo. { apply Z.lt_succ_r. apply Z.square_lt_simpl_nonneg; [lia|]. nia. }
  assert (q < (a + 1) * T) as Hhi. { apply Z.square_lt_simpl_nonneg; [nia|]. nia. }
  assert (q / T = a) as E by (symmetry; apply Z.div_unique with (q - a * T); lia).
  split; [done|]. split; [rewrite <- E; apply Z.div_le_mono; lia|]. apply Z.div_le_upper_bound; lia.
Qed.

Lemma sqrt_core_53 m e : 2 ^ 52 <= m < 2 ^ 53 -> - 52 <= e < 0 ->
  exists q t l, SFsqrt_core_binary prec emax m e = (q, - t, l) /\ 2 <= t <= 52 /\ 0 <= e + 2 * t /\
    2 ^ 52 <= q < 2 ^ 53 /\ q * q <= m * 2 ^ (e + 2 * t) < (q + 1) * (q + 1).
Proof.
  intros Hm He. unfold SFsqrt_core_binary. rewrite digits2_53 by done. rewrite !Z.div2_div.
  pose proof (Z.div_mod (53 + e + 1) 2 ltac:(lia)). pose proof (Z.mod_pos_bound (53 + e + 1) 2 ltac:(lia)).
  pose proof (Z.div_mod e 2 ltac:(lia)). pose proof (Z.mod_pos_bound e 2 ltac:(lia)).
  set (k := (53 + e + 1) / 2) in *. replace (Z.min (fexp prec emax k) (e / 2)) with (k - 53) by (unfold fexp, emin, prec, emax; lia).
  destruct (e - 2 * (k - 53)) as [|s|s] eqn:Es; [lia| |lia]. rewrite Z.shiftl_mul_pow2 by lia.
  pose proof (Z.sqrtrem_spec (m * 2 ^ Z.pos s)) as Hq. destruct (Z.sqrtrem (m * 2 ^ Z.pos s)) as [q r].
  assert (Z.pos s = 52 \/ Z.pos s = 53) as Hs by lia.
  assert (2 ^ 104 <= m * 2 ^ Z.pos s < 2 ^ 106) as Hb.
  { change (2 ^ 104) with (2 ^ 52 * 2 ^ 52). change (2 ^ 106) with (2 ^ 53 * 2 ^ 53).
    destruct Hs as [-> | ->]; [change (2 ^ 53) with (2 * 2 ^ 52) in *|change (2 ^ 53) with (2 * 2 ^ 52) in *]; nia. }
  destruct Hq as [Hq Hr]; [lia|]. eexists q, (53 - k), _. split; [f_equal; f_equal; lia|]. split; [lia|].
  replace (e + 2 * (53 - k)) with (Z.pos s) by lia. split; [lia|].
  assert (0 <= q) by lia. split; [|nia]. change (2 ^ 104) with (2 ^ 52 * 2 ^ 52) in Hb. change (2 ^ 106) with (2 ^ 53 * 2 ^ 53) in Hb.
  split; [|nia]. apply Z.lt_succ_r. apply Z.square_lt_simpl_nonneg; [lia|]. nia.
Qed.

(** The truncated square root of an integer below 2^52 is the integer square root or one more. *)
Lemma d_sqrt_bound c : 0 < c < 2 ^ 52 -> Z.sqrt c <= d_trunc (d_sqrt (d_of_Z c)) <= Z.sqrt c + 1.
Proof.
  intros Hc. destruct (d_of_Z_normal c Hc) as (m & e & -> & Hm & He & _ & Em). unfold d_sqrt, SFsqrt.
  destruct (sqrt_core_53 (Z.pos m) e Hm He) as (q & t & l & -> & Ht & Het & Hq & Hsq).
  assert (Z.pos m * 2 ^ (e + 2 * t) = c * 2 ^ (2 * t)) as E.
  { rewrite Em, <- Z.mul_assoc, <- Z.pow_add_r by lia. do 2 f_equal. lia. }
  rewrite E in Hsq. destruct (sqrt_shift c t q ltac:(lia) ltac:(lia) Hsq ltac:(lia)) as [Hs1 Hs2].
  destruct (round_53 q (- t) l Hq ltac:(lia)) as (r & Hr & _ & ->). destruct (Z.eqb_spec r (2 ^ 53)) as [Er|Er].
  - unfold d_trunc. rewrite (proj2 (Z.leb_gt _ _)) by lia. rewrite Z2Pos.id by lia.
    assert (2 ^ 52 / 2 ^ (- (- t + 1)) = (q + 1) / 2 ^ t) as ->; [|lia].
    replace (q + 1) with (2 ^ 52 * 2) by lia. replace (2 ^ t) with (2 ^ (- (- t + 1)) * 2) by (rewrite (Z.mul_comm _ 2), <- Z.pow_succ_r by lia; f_equal; lia).
    by rewrite Z.div_mul_cancel_r by lia.
  - unfold d_trunc. rewrite (proj2 (Z.leb_gt _ _)) by lia. rewrite Z2Pos.id by lia. rewrite Z.opp_involutive.
    destruct Hr as [-> | ->]; lia.
Qed.

(** Small integers are exact. *)
Example d_of_Z_exact : d_trunc (d_of_Z (2 ^ 53 - 1)) = 2 ^ 53 - 1.
Proof. reflexivity. Qed.
