(* ===== verification/Soa.v ===== *)
(** The relation batches of [src/src/common/mpqs_soa.h] (host side): the
    structure-of-arrays record with its CSR factor storage, [resize] and [clear],
    the relation hash of [relation_hash.h], and the abstraction every other
    component is specified with: [repr b rs], the batch [b] holds the relations
    [rs]. *)
From Stdlib Require Import ZArith Lia.
From stdpp Require Import base gmap sets list.
From S2P Require Import Prelude.
#[local] Open Scope Z_scope.

(** ** Data *)

(** [HostRelationBatch]; the elements of [sqrt_Q] are 512-bit, of [large_primes]
    128-bit values, [val_2_exps] are signed 32-bit. *)
Record HostRelationBatch := mkBatch {
  sqrt_Q : list Z;
  signs : list Z;
  val_2_exps : list Z;
  large_primes : list Z;
  char_bits : list Z;
  factor_offsets : list Z;
  factor_indices : list Z;
  factor_counts : list Z;
  num_relations : Z;
  num_factors : Z
}.

#[global] Instance HostRelationBatch_eq_dec : EqDecision HostRelationBatch.
Proof. solve_decision. Defined.

Definition batch_empty : HostRelationBatch := mkBatch [] [] [] [] [] [] [] [] 0 0.

(** [v.resize(n)] guarded by [v.size() < n]: grow with zeros, never shrink. *)
Definition grow (l : list Z) (n : Z) : list Z := l ++ replicate (Z.to_nat n - length l) 0.

Definition resize (b : HostRelationBatch) (n_rels n_factors : Z) : HostRelationBatch :=
  {| sqrt_Q := grow (sqrt_Q b) n_rels;
     signs := grow (signs b) n_rels;
     val_2_exps := grow (val_2_exps b) n_rels;
     large_primes := grow (large_primes b) n_rels;
     char_bits := grow (char_bits b) n_rels;
     factor_offsets := grow (factor_offsets b) (n_rels + 1);
     factor_indices := grow (factor_indices b) n_factors;
     factor_counts := grow (factor_counts b) n_factors;
     num_relations := n_rels;
     num_factors := n_factors |}.

Definition clear (b : HostRelationBatch) : HostRelationBatch := batch_empty.

(** A moved-from batch: its vectors are empty, its two counters are untouched. *)
Definition moved_from (b : HostRelationBatch) : HostRelationBatch :=
  mkBatch [] [] [] [] [] [] [] [] (num_relations b) (num_factors b).

(** [v[i]]: in range wherever the code indexes a well-formed batch. *)
Definition idx (l : list Z) (i : Z) : Z := nth (Z.to_nat i) l 0.

(** ** The relation hash *)

Definition MAGIC : Z := 0x9e3779b9.

(** [for (k = start; k < end; k++)], [n] rounds left. *)
Fixpoint hash_loop (b : HostRelationBatch) (k : Z) (n : nat) (exp_xor body_xor : Z) : Z * Z :=
  match n with
  | O => (exp_xor, body_xor)
  | S n' =>
      hash_loop b (k + 1) n'
        (Z.lxor exp_xor (wrap 16 (idx (factor_counts b) k)))
        (Z.lxor body_xor (wrap 32 (idx (factor_indices b) k * MAGIC)))
  end.

Definition hash_combine (len exp_xor body_xor sign val_2_exp : Z) : Z :=
  let sign_val := if negb (sign =? 1) then -1 else 1 in
  let shift_val := sign_val * Z.shiftl 1 (Z.land val_2_exp 0x1F) in
  let body_xor := Z.lxor body_xor (wrap 32 shift_val) in
  Z.lor (Z.lor (Z.shiftl len 48) (Z.shiftl exp_xor 32)) body_xor.

Definition computeRelationHash (b : HostRelationBatch) (i : Z) : Z :=
  let start := idx (factor_offsets b) i in
  let end_ := idx (factor_offsets b) (i + 1) in
  let len := wrap 16 (end_ - start) in
  let '(exp_xor, body_xor) := hash_loop b start (Z.to_nat (end_ - start)) 0 0 in
  hash_combine len exp_xor body_xor (idx (signs b) i) (idx (val_2_exps b) i).

(** ** The abstraction *)

(** One relation: the factors are (factor-base index, exponent) pairs. *)
Record relation := mkRel {
  r_sqrt_Q : Z;
  r_sign : Z;
  r_val2 : Z;
  r_lp : Z;
  r_char : Z;
  r_factors : list (Z * Z)
}.

#[global] Instance relation_eq_dec : EqDecision relation.
Proof. solve_decision. Defined.

(** The CSR offsets of consecutive factor lists, starting at [o]. *)
Fixpoint offsets_from {A} (o : Z) (fs : list (list A)) : list Z :=
  match fs with
  | [] => [o]
  | f :: fs' => o :: offsets_from (o + Z.of_nat (length f)) fs'
  end.

Definition all_factors (rs : list relation) : list (Z * Z) := concat (map r_factors rs).

(** The batch that holds exactly [rs]. *)
Definition batch_of (rs : list relation) : HostRelationBatch :=
  {| sqrt_Q := map r_sqrt_Q rs;
     signs := map r_sign rs;
     val_2_exps := map r_val2 rs;
     large_primes := map r_lp rs;
     char_bits := map r_char rs;
     factor_offsets := offsets_from 0 (map r_factors rs);
     factor_indices := map fst (all_factors rs);
     factor_counts := map snd (all_factors rs);
     num_relations := Z.of_nat (length rs);
     num_factors := Z.of_nat (length (all_factors rs)) |}.

(** The arrays may be longer than the fill counts ([resize] never shrinks). *)
Record repr (b : HostRelationBatch) (rs : list relation) : Prop := mkRepr {
  repr_sqrt_Q : map r_sqrt_Q rs `prefix_of` sqrt_Q b;
  repr_signs : map r_sign rs `prefix_of` signs b;
  repr_val2 : map r_val2 rs `prefix_of` val_2_exps b;
  repr_lp : map r_lp rs `prefix_of` large_primes b;
  repr_char : map r_char rs `prefix_of` char_bits b;
  repr_offsets : offsets_from 0 (map r_factors rs) `prefix_of` factor_offsets b;
  repr_indices : map fst (all_factors rs) `prefix_of` factor_indices b;
  repr_counts : map snd (all_factors rs) `prefix_of` factor_counts b;
  repr_num_relations : num_relations b = Z.of_nat (length rs);
  repr_num_factors : num_factors b = Z.of_nat (length (all_factors rs))
}.

(** Reading the relations back out of the arrays. *)
Definition slice {A} (l : list A) (i j : Z) : list A := take (Z.to_nat (j - i)) (drop (Z.to_nat i) l).

Definition relation_at (b : HostRelationBatch) (i : Z) : relation :=
  let o1 := idx (factor_offsets b) i in
  let o2 := idx (factor_offsets b) (i + 1) in
  mkRel (idx (sqrt_Q b) i) (idx (signs b) i) (idx (val_2_exps b) i) (idx (large_primes b) i)
    (idx (char_bits b) i)
    (zip (slice (factor_indices b) o1 o2) (slice (factor_counts b) o1 o2)).

Definition relations (b : HostRelationBatch) : list relation :=
  map (fun i => relation_at b (Z.of_nat i)) (seq 0 (Z.to_nat (num_relations b))).

(** Well-formedness of a batch: the arrays hold the counted entries and the CSR
    offsets start at 0, never decrease and end at the factor count. *)
Record batch_wf (b : HostRelationBatch) : Prop := mkWf {
  wf_num : 0 <= num_relations b;
  wf_sqrt_Q : num_relations b <= Z.of_nat (length (sqrt_Q b));
  wf_signs : num_relations b <= Z.of_nat (length (signs b));
  wf_val2 : num_relations b <= Z.of_nat (length (val_2_exps b));
  wf_lp : num_relations b <= Z.of_nat (length (large_primes b));
  wf_char : num_relations b <= Z.of_nat (length (char_bits b));
  wf_offsets : num_relations b + 1 <= Z.of_nat (length (factor_offsets b));
  wf_first : idx (factor_offsets b) 0 = 0;
  wf_mono : forall i, 0 <= i < num_relations b -> idx (factor_offsets b) i <= idx (factor_offsets b) (i + 1);
  wf_last : idx (factor_offsets b) (num_relations b) = num_factors b;
  wf_indices : num_factors b <= Z.of_nat (length (factor_indices b));
  wf_counts : num_factors b <= Z.of_nat (length (factor_counts b))
}.

(** The hash as a function of the relation alone. *)
Definition rel_hash (r : relation) : Z :=
  hash_combine (wrap 16 (Z.of_nat (length (r_factors r))))
    (foldl Z.lxor 0 (map (fun f => wrap 16 f.2) (r_factors r)))
    (foldl Z.lxor 0 (map (fun f => wrap 32 (f.1 * MAGIC)) (r_factors r)))
    (r_sign r) (r_val2 r).

(** The widths of the C++ element types. *)
Definition relation_ok (r : relation) : Prop :=
  in_width 512 (r_sqrt_Q r) /\ in_width 8 (r_sign r) /\ - 2 ^ 31 <= r_val2 r < 2 ^ 31 /\
  in_width 128 (r_lp r) /\ in_width 32 (r_char r) /\
  Forall (fun f => in_width 32 f.1 /\ in_width 8 f.2) (r_factors r).

#[global] Instance relation_ok_dec r : Decision (relation_ok r).
Proof. unfold relation_ok. apply _. Defined.

(** A small batch, with spare capacity behind its two relations. *)
Definition demo_batch : HostRelationBatch :=
  {| sqrt_Q := [17; 23; 0]; signs := [1; 255; 0]; val_2_exps := [2; 0; 0]; large_primes := [1; 1; 0];
     char_bits := [0; 0; 0]; factor_offsets := [0; 2; 3; 0]; factor_indices := [4; 9; 4; 0];
     factor_counts := [1; 2; 3; 0]; num_relations := 2; num_factors := 3 |}.

(** ** Lemmas on the layout *)

Lemma all_factors_app rs1 rs2 : all_factors (rs1 ++ rs2) = all_factors rs1 ++ all_factors rs2.
Proof. unfold all_factors. by rewrite map_app, concat_app. Qed.

Lemma all_factors_cons r rs : all_factors (r :: rs) = r_factors r ++ all_factors rs.
Proof. done. Qed.

Lemma offsets_from_app {A} o (fs1 fs2 : list (list A)) :
  offsets_from o (fs1 ++ fs2)
  = removelast (offsets_from o fs1) ++ offsets_from (o + Z.of_nat (length (concat fs1))) fs2.
Proof.
  revert o. induction fs1 as [|f fs1 IH]; intros o.
  { cbn. by rewrite Z.add_0_r. }
  cbn [app offsets_from concat]. rewrite IH, length_app, Nat2Z.inj_add, Z.add_assoc.
  by destruct fs1.
Qed.

Lemma offsets_from_snoc {A} o (fs : list (list A)) f :
  offsets_from o (fs ++ [f]) = offsets_from o fs ++ [o + Z.of_nat (length (concat fs)) + Z.of_nat (length f)].
Proof.
  revert o. induction fs as [|g fs IH]; intros o; cbn [app offsets_from concat].
  { cbn. by rewrite Z.add_0_r. }
  rewrite IH, length_app, Nat2Z.inj_add. cbn. do 3 f_equal. lia.
Qed.

Lemma length_offsets_from {A} o (fs : list (list A)) : length (offsets_from o fs) = S (length fs).
Proof. revert o. induction fs; intros o; cbn; [done|]. by rewrite IHfs. Qed.

Lemma offsets_from_lookup {A} o (fs : list (list A)) i :
  (i <= length fs)%nat -> nth i (offsets_from o fs) 0 = o + Z.of_nat (length (concat (take i fs))).
Proof.
  revert o i. induction fs as [|f fs IH]; intros o [|i] Hi; cbn in *; try lia.
  rewrite IH by lia. rewrite length_app. lia.
Qed.

Lemma offsets_from_take {A} o (fs : list (list A)) n :
  (n <= length fs)%nat -> offsets_from o (take n fs) = take (S n) (offsets_from o fs).
Proof.
  revert o n. induction fs as [|f fs IH]; intros o [|n] Hn; cbn in *; try lia; [done..|].
  f_equal. rewrite IH by lia. done.
Qed.

Lemma prefix_nth l1 l2 i : l1 `prefix_of` l2 -> (i < length l1)%nat -> nth i l2 0 = nth i l1 0.
Proof. intros [k ->] Hi. by apply app_nth1. Qed.

Lemma prefix_take {A} (l1 l2 : list A) : l1 `prefix_of` l2 -> take (length l1) l2 = l1.
Proof. intros [k ->]. by rewrite take_app_length. Qed.

Lemma prefix_length_le {A} (l1 l2 : list A) : l1 `prefix_of` l2 -> (length l1 <= length l2)%nat.
Proof. apply prefix_length. Qed.

Lemma prefix_take_take {A} (l1 l2 : list A) n :
  l1 `prefix_of` l2 -> (n <= length l1)%nat -> take n l2 = take n l1.
Proof. intros [k ->] Hn. by rewrite take_app_le. Qed.

Lemma prefix_slice {A} (l1 l2 : list A) i j :
  l1 `prefix_of` l2 -> 0 <= i -> j <= Z.of_nat (length l1) -> slice l2 i j = slice l1 i j.
Proof.
  intros [k ->] Hi Hj. unfold slice. destruct (Z.le_gt_cases j i).
  { replace (Z.to_nat (j - i)) with 0%nat by lia. by rewrite !take_0. }
  rewrite drop_app_le, take_app_le; [done| |]; rewrite ?length_drop; lia.
Qed.

(** The [i]-th factor list sits between two consecutive offsets. *)
Lemma concat_slice {A} (fs : list (list A)) i f :
  fs !! i = Some f ->
  take (length f) (drop (length (concat (take i fs))) (concat fs)) = f.
Proof.
  intros Hi. rewrite <- (take_drop_middle fs i f Hi) at 2. rewrite concat_app. cbn.
  rewrite drop_app_length. by rewrite take_app_length.
Qed.

Lemma concat_take_S {A} (fs : list (list A)) i f :
  fs !! i = Some f -> length (concat (take (S i) fs)) = (length (concat (take i fs)) + length f)%nat.
Proof. intros Hi. rewrite (take_S_r _ _ f Hi), concat_app, length_app. cbn. by rewrite app_nil_r. Qed.

Lemma concat_take_le {A} (fs : list (list A)) i : (length (concat (take i fs)) <= length (concat fs))%nat.
Proof. rewrite <- (take_drop i fs) at 2. rewrite concat_app, length_app. lia. Qed.

Lemma repr_batch_of rs : repr (batch_of rs) rs.
Proof. by constructor. Qed.

Lemma repr_length_offsets b rs : repr b rs -> (S (length rs) <= length (factor_offsets b))%nat.
Proof.
  intros H. pose proof (prefix_length_le _ _ (repr_offsets b rs H)) as L.
  by rewrite length_offsets_from, length_map in L.
Qed.

Lemma repr_offset b rs i :
  repr b rs -> (i <= length rs)%nat ->
  idx (factor_offsets b) (Z.of_nat i) = Z.of_nat (length (all_factors (take i rs))).
Proof.
  intros H Hi. unfold idx. rewrite Nat2Z.id.
  rewrite (prefix_nth _ _ i (repr_offsets b rs H)) by (rewrite length_offsets_from, length_map; lia).
  rewrite offsets_from_lookup by (by rewrite length_map). rewrite Z.add_0_l.
  unfold all_factors. by rewrite firstn_map.
Qed.

Lemma all_factors_take_S rs i r :
  rs !! i = Some r ->
  length (all_factors (take (S i) rs)) = (length (all_factors (take i rs)) + length (r_factors r))%nat.
Proof.
  intros Hi. rewrite (take_S_r _ _ r Hi), all_factors_app, length_app. cbn. by rewrite app_nil_r.
Qed.

Lemma all_factors_take_le rs i : (length (all_factors (take i rs)) <= length (all_factors rs))%nat.
Proof. rewrite <- (take_drop i rs) at 2. rewrite all_factors_app, length_app. lia. Qed.

Lemma all_factors_slice rs i r :
  rs !! i = Some r ->
  take (length (r_factors r)) (drop (length (all_factors (take i rs))) (all_factors rs)) = r_factors r.
Proof.
  intros Hi. rewrite <- (take_drop_middle rs i r Hi) at 2. rewrite all_factors_app, all_factors_cons.
  by rewrite drop_app_length, take_app_length.
Qed.

Lemma idx_map_prefix (f : relation -> Z) rs l i r :
  map f rs `prefix_of` l -> rs !! i = Some r -> idx l (Z.of_nat i) = f r.
Proof.
  intros Hp Hi. unfold idx. rewrite Nat2Z.id.
  rewrite (prefix_nth _ _ i Hp) by (rewrite length_map; by eapply lookup_lt_Some).
  apply nth_lookup_Some. rewrite list_lookup_fmap. by rewrite Hi.
Qed.

(** A represented relation is what [relation_at] reads. *)
Lemma repr_relation_at b rs i r :
  repr b rs -> rs !! i = Some r -> relation_at b (Z.of_nat i) = r.
Proof.
  intros H Hi. pose proof (lookup_lt_Some _ _ _ Hi) as Hlt. unfold relation_at.
  rewrite (idx_map_prefix _ rs _ i r (repr_sqrt_Q b rs H) Hi), (idx_map_prefix _ rs _ i r (repr_signs b rs H) Hi),
    (idx_map_prefix _ rs _ i r (repr_val2 b rs H) Hi), (idx_map_prefix _ rs _ i r (repr_lp b rs H) Hi),
    (idx_map_prefix _ rs _ i r (repr_char b rs H) Hi).
  replace (Z.of_nat i + 1) with (Z.of_nat (S i)) by lia.
  rewrite !(repr_offset b rs) by (done || lia).
  pose proof (all_factors_take_S rs i r Hi) as ES. pose proof (all_factors_take_le rs (S i)) as Hle.
  rewrite (prefix_slice _ _ _ _ (repr_indices b rs H)) by (rewrite ?length_map; lia).
  rewrite (prefix_slice _ _ _ _ (repr_counts b rs H)) by (rewrite ?length_map; lia).
  unfold slice. rewrite Nat2Z.id, ES.
  replace (Z.to_nat _) with (length (r_factors r)) by lia.
  rewrite <- !fmap_drop, <- !fmap_take, (all_factors_slice rs i r Hi).
  rewrite zip_fst_snd. by destruct r.
Qed.

(** The relations of a batch are determined by it. *)
Lemma repr_relations b rs : repr b rs -> relations b = rs.
Proof.
  intros H. unfold relations. rewrite (repr_num_relations b rs H), Nat2Z.id.
  apply list_eq. intros i. rewrite list_lookup_fmap.
  destruct (lt_dec i (length rs)) as [Hlt|Hge].
  - rewrite lookup_seq_lt by done. cbn. destruct (lookup_lt_is_Some_2 rs i Hlt) as [r Hr].
    rewrite Hr. f_equal. by apply repr_relation_at with rs.
  - rewrite lookup_seq_ge, lookup_ge_None_2 by lia. done.
Qed.

(** ** A well-formed batch represents its relations *)

Lemma prefix_of_idx (l1 l2 : list Z) :
  (length l1 <= length l2)%nat ->
  (forall i, (i < length l1)%nat -> nth i l1 0 = idx l2 (Z.of_nat i)) -> l1 `prefix_of` l2.
Proof.
  intros Hl Hi. exists (drop (length l1) l2). rewrite <- (take_drop (length l1) l2) at 1. f_equal.
  apply (nth_ext _ _ 0 0); rewrite ?length_take; [lia|]. intros n Hn.
  rewrite Hi by lia. unfold idx. rewrite Nat2Z.id, nth_firstn.
  by destruct (Nat.ltb_spec n (length l1)); [|lia].
Qed.

Lemma length_slice {A} (l : list A) i j :
  0 <= i -> j <= Z.of_nat (length l) -> length (slice l i j) = Z.to_nat (j - i).
Proof. intros. unfold slice. rewrite length_take, length_drop. lia. Qed.

Section wf.
Context (b : HostRelationBatch) (Hwf : batch_wf b).

Lemma length_relations : length (relations b) = Z.to_nat (num_relations b).
Proof using Type. unfold relations. by rewrite length_map, length_seq. Qed.

Lemma relations_lookup i :
  (i < Z.to_nat (num_relations b))%nat -> relations b !! i = Some (relation_at b (Z.of_nat i)).
Proof using Type.
  intros Hi. unfold relations. rewrite list_lookup_fmap, lookup_seq_lt by done. done.
Qed.

(** Offsets are within the factor arrays. *)
Lemma wf_offset_range i j :
  0 <= i <= j -> j <= num_relations b ->
  0 <= idx (factor_offsets b) i <= idx (factor_offsets b) j /\ idx (factor_offsets b) j <= num_factors b.
Proof using Hwf.
  assert (forall n i, 0 <= i -> i + Z.of_nat n <= num_relations b ->
    idx (factor_offsets b) i <= idx (factor_offsets b) (i + Z.of_nat n)) as Hm.
  { induction n as [|n IH]; intros k Hk Hn; [rewrite Z.add_0_r; lia|].
    etrans; [apply (wf_mono b Hwf k); lia|]. etrans; [apply (IH (k + 1)); lia|].
    replace (k + 1 + Z.of_nat n) with (k + Z.of_nat (S n)) by lia. lia. }
  intros Hi Hj. split; [split|].
  - rewrite <- (wf_first b Hwf). pose proof (Hm (Z.to_nat i) 0) as H. rewrite Z.add_0_l, Z2Nat.id in H; lia.
  - pose proof (Hm (Z.to_nat (j - i)) i) as H. replace (i + Z.of_nat (Z.to_nat (j - i))) with j in H by lia. lia.
  - rewrite <- (wf_last b Hwf). pose proof (Hm (Z.to_nat (num_relations b - j)) j) as H.
    replace (j + Z.of_nat (Z.to_nat (num_relations b - j))) with (num_relations b) in H by lia. lia.
Qed.

Lemma relation_at_factors i :
  0 <= i < num_relations b ->
  map fst (r_factors (relation_at b i))
  = slice (factor_indices b) (idx (factor_offsets b) i) (idx (factor_offsets b) (i + 1)) /\
  map snd (r_factors (relation_at b i))
  = slice (factor_counts b) (idx (factor_offsets b) i) (idx (factor_offsets b) (i + 1)) /\
  Z.of_nat (length (r_factors (relation_at b i)))
  = idx (factor_offsets b) (i + 1) - idx (factor_offsets b) i.
Proof using Hwf.
  intros Hi. destruct (wf_offset_range i (i + 1)) as [H1 H2]; [lia..|].
  pose proof (wf_indices b Hwf). pose proof (wf_counts b Hwf). unfold relation_at. cbn [r_factors].
  assert (length (slice (factor_indices b) (idx (factor_offsets b) i) (idx (factor_offsets b) (i + 1)))
          = length (slice (factor_counts b) (idx (factor_offsets b) i) (idx (factor_offsets b) (i + 1)))) as El
    by (rewrite !length_slice by lia; done).
  split_and!.
  - apply fst_zip. lia.
  - apply snd_zip. lia.
  - rewrite length_zip, El, Nat.min_id, length_slice by lia. lia.
Qed.

(** The first [i] relations own exactly the factors below offset [i]. *)
Lemma wf_all_factors_take i :
  (i <= Z.to_nat (num_relations b))%nat ->
  Z.of_nat (length (all_factors (take i (relations b)))) = idx (factor_offsets b) (Z.of_nat i) /\
  map fst (all_factors (take i (relations b)))
  = take (Z.to_nat (idx (factor_offsets b) (Z.of_nat i))) (factor_indices b) /\
  map snd (all_factors (take i (relations b)))
  = take (Z.to_nat (idx (factor_offsets b) (Z.of_nat i))) (factor_counts b).
Proof using Hwf.
  induction i as [|i IH]; intros Hi.
  { change (Z.of_nat 0) with 0. by rewrite (wf_first b Hwf). }
  destruct IH as (L & F & S); [lia|]. pose proof (wf_num b Hwf).
  rewrite (take_S_r _ _ _ (relations_lookup i ltac:(lia))), all_factors_app.
  rewrite !map_app, length_app, F, S. rewrite all_factors_cons. cbn [all_factors concat map]. rewrite app_nil_r.
  destruct (relation_at_factors (Z.of_nat i)) as (R1 & R2 & R3); [lia|]. rewrite R1, R2.
  destruct (wf_offset_range (Z.of_nat i) (Z.of_nat i + 1)) as [O1 O2]; [lia..|].
  replace (Z.of_nat (Datatypes.S i)) with (Z.of_nat i + 1) by lia.
  set (o := idx (factor_offsets b) (Z.of_nat i)) in *. set (o' := idx (factor_offsets b) (Z.of_nat i + 1)) in *.
  unfold slice. split_and!; [lia| |]; rewrite take_take_drop; f_equal; lia.
Qed.

Lemma wf_repr : repr b (relations b).
Proof using Hwf.
  pose proof (wf_num b Hwf) as Hn. pose proof length_relations as Hl.
  pose proof (wf_all_factors_take (Z.to_nat (num_relations b)) ltac:(lia)) as (L & F & S).
  rewrite (take_ge (relations b)), Z2Nat.id, (wf_last b Hwf) in * by lia.
  assert (forall (f : relation -> Z) l, num_relations b <= Z.of_nat (length l) ->
    (forall i, f (relation_at b i) = idx l i) -> map f (relations b) `prefix_of` l) as Hcol.
  { intros f l Hlen Hf. apply prefix_of_idx; rewrite length_map, Hl; [lia|]. intros i Hi.
    rewrite <- Hf. apply nth_lookup_Some. by rewrite list_lookup_fmap, relations_lookup by done. }
  constructor.
  - apply Hcol; [apply wf_sqrt_Q|]; done.
  - apply Hcol; [apply wf_signs|]; done.
  - apply Hcol; [apply wf_val2|]; done.
  - apply Hcol; [apply wf_lp|]; done.
  - apply Hcol; [apply wf_char|]; done.
  - pose proof (wf_offsets b Hwf). apply prefix_of_idx; rewrite length_offsets_from, length_map, Hl; [lia|].
    intros i Hi. rewrite offsets_from_lookup by (rewrite length_map; lia). rewrite Z.add_0_l.
    rewrite firstn_map. fold (all_factors (take i (relations b))).
    by destruct (wf_all_factors_take i ltac:(lia)) as [-> _].
  - rewrite F. exists (drop (Z.to_nat (num_factors b)) (factor_indices b)); by rewrite take_drop.
  - rewrite S. exists (drop (Z.to_nat (num_factors b)) (factor_counts b)); by rewrite take_drop.
  - lia.
  - lia.
Qed.

End wf.

(** ** The hash *)

Lemma hash_loop_spec b rs pre fs post e x :
  repr b rs -> all_factors rs = pre ++ fs ++ post ->
  hash_loop b (Z.of_nat (length pre)) (length fs) e x
  = (foldl Z.lxor e (map (fun f => wrap 16 f.2) fs), foldl Z.lxor x (map (fun f => wrap 32 (f.1 * MAGIC)) fs)).
Proof.
  intros H. revert pre e x. induction fs as [|f fs IH]; intros pre e x E; [done|].
  cbn [length hash_loop map foldl].
  assert (idx (factor_counts b) (Z.of_nat (length pre)) = f.2 /\
          idx (factor_indices b) (Z.of_nat (length pre)) = f.1) as [-> ->].
  { unfold idx. rewrite Nat2Z.id.
    rewrite (prefix_nth _ _ _ (repr_counts b rs H)), (prefix_nth _ _ _ (repr_indices b rs H))
      by (rewrite length_map, E, length_app; cbn; lia).
    rewrite E, !map_app. cbn [map app].
    split; erewrite <- (length_map _ pre) at 1; apply nth_middle. }
  replace (Z.of_nat (length pre) + 1) with (Z.of_nat (length (pre ++ [f]))) by (rewrite length_app; cbn; lia).
  rewrite IH; [done|]. by rewrite <- app_assoc.
Qed.

Lemma computeRelationHash_rel b rs i r :
  repr b rs -> rs !! i = Some r -> computeRelationHash b (Z.of_nat i) = rel_hash r.
Proof.
  intros H Hi. pose proof (lookup_lt_Some _ _ _ Hi) as Hlt. unfold computeRelationHash, rel_hash.
  replace (Z.of_nat i + 1) with (Z.of_nat (S i)) by lia.
  rewrite !(repr_offset b rs) by (done || lia). rewrite (all_factors_take_S rs i r Hi).
  rewrite Nat2Z.inj_add, Z.add_simpl_l, Nat2Z.id.
  rewrite (hash_loop_spec b rs _ (r_factors r) (all_factors (drop (S i) rs))); [|done|].
  - by rewrite (idx_map_prefix _ rs _ i r (repr_signs b rs H) Hi), (idx_map_prefix _ rs _ i r (repr_val2 b rs H) Hi).
  - rewrite <- (take_drop_middle rs i r Hi) at 1. by rewrite all_factors_app, all_factors_cons.
Qed.

Lemma hash_combine_spec len e x s v :
  in_width 16 len -> in_width 16 e -> in_width 32 x ->
  hash_combine len e x s v
  = len * 2 ^ 48 + e * 2 ^ 32
    + Z.lxor x (wrap 32 ((if negb (s =? 1) then -1 else 1) * Z.shiftl 1 (Z.land v 31))) /\
  in_width 64 (hash_combine len e x s v).
Proof.
  intros Hl He Hx. unfold hash_combine.
  set (y := Z.lxor x _).
  assert (in_width 32 y) as Hy by (apply lxor_in_width; [lia|done|apply wrap_range; lia]).
  assert (Z.lor (Z.shiftl len 48) (Z.shiftl e 32) = Z.shiftl (len * 2 ^ 16 + e) 32) as ->.
  { rewrite <- (lor_shiftl_add len e 16) by (done || lia). rewrite Z.shiftl_lor, Z.shiftl_shiftl by lia. done. }
  rewrite lor_shiftl_add by (done || lia). unfold in_width in *. split; lia.
Qed.

Lemma xor_fold_width {A} w (g : A -> Z) (fs : list A) :
  0 < w -> in_width w (foldl Z.lxor 0 (map (fun f => wrap w (g f)) fs)).
Proof.
  intros Hw. apply foldl_lxor_in_width; [done | split; [lia | apply pow2_pos; lia] |].
  apply Forall_map, Forall_true. intros. apply wrap_range. lia.
Qed.

Lemma rel_hash_width r : in_width 64 (rel_hash r).
Proof.
  unfold rel_hash. refine (proj2 (hash_combine_spec _ _ _ _ _ _ _ _)).
  - apply wrap_range. lia.
  - by apply (xor_fold_width 16 snd).
  - by apply (xor_fold_width 32 (fun f => f.1 * MAGIC)).
Qed.

(** ** The properties *)

(** A batch whose CSR arrays are well formed represents exactly one list of
    relations, the one read through the offsets, and every element access of the
    represented range is inside its array. *)
Theorem wf_batch_represents b :
  batch_wf b ->
  repr b (relations b) /\ (forall rs, repr b rs -> rs = relations b) /\
  (forall i r, relations b !! i = Some r -> relation_at b (Z.of_nat i) = r).
Proof.
  intros Hwf. split_and!; [by apply wf_repr| |].
  - intros rs H. symmetry. by apply repr_relations.
  - intros i r Hi. apply repr_relation_at with (relations b); [by apply wf_repr|done].
Qed.

Lemma demo_batch_wf : batch_wf demo_batch.
Proof.
  constructor; try (by vm_compute).
  intros i Hi. cbn in Hi. assert (i = 0 \/ i = 1) as [-> | ->] by lia; vm_compute; discriminate.
Qed.

Lemma wf_batch_represents_witness :
  repr demo_batch [mkRel 17 1 2 1 0 [(4, 1); (9, 2)]; mkRel 23 255 0 1 0 [(4, 3)]].
Proof. exact (proj1 (wf_batch_represents demo_batch demo_batch_wf)). Defined.

(** The dedup hash is a 64-bit function of the relation's factor multiset, of
    whether its sign is the positive one and of [val_2_exp] modulo 32: it carries the
    number of factors modulo [2^16] on top, and neither [sqrt_Q], the large prime, the
    character bits, the order of the factors nor the batch the relation sits in
    changes it. *)
Theorem computeRelationHash_canonical b1 b2 i j r1 r2 :
  batch_wf b1 -> batch_wf b2 -> relations b1 !! i = Some r1 -> relations b2 !! j = Some r2 ->
  in_width 64 (computeRelationHash b1 (Z.of_nat i)) /\
  computeRelationHash b1 (Z.of_nat i) / 2 ^ 48 = Z.of_nat (length (r_factors r1)) mod 2 ^ 16 /\
  (r_factors r1 ≡ₚ r_factors r2 -> (r_sign r1 = 1 <-> r_sign r2 = 1) ->
   r_val2 r1 mod 32 = r_val2 r2 mod 32 ->
   computeRelationHash b1 (Z.of_nat i) = computeRelationHash b2 (Z.of_nat j)).
Proof.
  intros W1 W2 H1 H2.
  rewrite (computeRelationHash_rel b1 _ i r1 (wf_repr b1 W1) H1), (computeRelationHash_rel b2 _ j r2 (wf_repr b2 W2) H2).
  split_and!.
  - apply rel_hash_width.
  - pose proof (rel_hash_width r1) as Hw. unfold rel_hash in *.
    set (e := foldl Z.lxor 0 _) in *. set (x := foldl Z.lxor 0 (map (fun f => wrap 32 _) _)) in *.
    assert (in_width 16 e) as He by by apply (xor_fold_width 16 snd).
    assert (in_width 32 x) as Hx by by apply (xor_fold_width 32 (fun f => f.1 * MAGIC)).
    destruct (hash_combine_spec (wrap 16 (Z.of_nat (length (r_factors r1)))) e x (r_sign r1) (r_val2 r1)) as [-> _];
      [apply wrap_range; lia|done|done|].
    assert (in_width 32 (Z.lxor x (wrap 32 ((if negb (r_sign r1 =? 1) then -1 else 1) * Z.shiftl 1 (Z.land (r_val2 r1) 31)))))
      as Hy by (apply lxor_in_width; [lia|done|apply wrap_range; lia]).
    symmetry. eapply (Z.div_unique_pos _ _ _ (e * 2 ^ 32 + _)); [|rewrite (Z.mul_comm (2 ^ 48)), <- Z.add_assoc; reflexivity].
    unfold in_width in *. lia.
  - intros Hp Hs Hv. unfold rel_hash. rewrite (Permutation_length Hp).
    rewrite (foldl_lxor_perm _ _ _ (Permutation_map (fun f => wrap 16 f.2) Hp)).
    rewrite (foldl_lxor_perm _ _ _ (Permutation_map (fun f => wrap 32 (f.1 * MAGIC)) Hp)).
    unfold hash_combine. change 0x1F with (Z.ones 5). rewrite !Z.land_ones by lia. change (2 ^ 5) with 32. rewrite Hv.
    destruct (Z.eqb_spec (r_sign r1) 1), (Z.eqb_spec (r_sign r2) 1); tauto || done.
Qed.

Lemma computeRelationHash_canonical_witness :
  computeRelationHash demo_batch 0
  = computeRelationHash (batch_of [mkRel 99 1 34 7 5 [(9, 2); (4, 1)]]) 0.
Proof.
  assert (batch_wf (batch_of [mkRel 99 1 34 7 5 [(9, 2); (4, 1)]])) as Hwf.
  { constructor; try (by vm_compute). intros i Hi. cbn in Hi. assert (i = 0) as -> by lia. vm_compute. discriminate. }
  destruct (computeRelationHash_canonical demo_batch _ 0 0 _ _ demo_batch_wf Hwf eq_refl eq_refl) as (_ & _ & H).
  apply H; [apply perm_swap | done | done].
Defined.
