(* ===== verification/Serialization.v ===== *)
(** The binary wire formats of [src/src/cluster/serialization.cpp]: relation
    batches, work assignments, incremental batches, the factor-base fingerprint
    and the merge of batches. *)
From Stdlib Require Import ZArith Lia.
From stdpp Require Import base gmap sets list.
From S2P Require Import Prelude Bytes Soa.
#[local] Open Scope Z_scope.

(** ** Relation batches *)

(** The factor count read off the CSR sentinel. *)
Definition ser_num_factors (b : HostRelationBatch) (count : Z) : Z :=
  if (0 <? count) && (count <? zlen (factor_offsets b)) then idx (factor_offsets b) count else 0.

Definition ser_total (count num_factors : Z) : Z :=
  8 + count * (64 + 1 + 4 + 16 + 4) + (count + 1) * 8 + num_factors * 4 + num_factors * 1.

(** The buffer and the byte count written; [None] is a read past the end of one of
    the batch's vectors or a write past the end of the buffer. *)
Definition serializeRelationBatch (b : HostRelationBatch) (count : Z) : option (bytes * Z) :=
  let num_factors := ser_num_factors b count in
  let total := ser_total count num_factors in
  let n_rels := wrap 32 count in
  let n_facs := wrap 32 num_factors in
  let header := [Some (le 4 n_rels); Some (le 4 n_facs)] in
  let arrays :=
    if 0 <? count then
      [mem_bytes 64 (sqrt_Q b) count; mem_bytes 1 (signs b) count;
       mem_bytes 4 (val_2_exps b) count; mem_bytes 16 (large_primes b) count;
       if count <=? zlen (char_bits b) then mem_bytes 4 (char_bits b) count
       else Some (arr_bytes 4 (replicate (Z.to_nat count) 0));
       mem_bytes 8 (factor_offsets b) (count + 1)]
      ++ (if 0 <? num_factors then
            [mem_bytes 4 (factor_indices b) num_factors; mem_bytes 1 (factor_counts b) num_factors]
          else [])
    else [] in
  writes (header ++ arrays) (replicate (Z.to_nat total) 0, 0).

(** The relation count returned and the batch left behind. *)
Definition deserializeRelationBatch (b : bytes) (out : HostRelationBatch) : Z * HostRelationBatch :=
  if zlen b <? 8 then (0, out)
  else
    let r := reader b in
    let '(n_rels, r) := readInt 4 0 r in
    let '(n_facs, r) := readInt 4 0 r in
    if negb (ok r) then (0, out)
    else
      let out := resize out n_rels n_facs in
      let '(out, r) :=
        if 0 <? n_rels then
          let '(q, r) := readArr 64 n_rels (sqrt_Q out) r in
          let '(s, r) := readArr 1 n_rels (signs out) r in
          let '(v, r) := readArr 4 n_rels (val_2_exps out) r in
          let '(lp, r) := readArr 16 n_rels (large_primes out) r in
          let '(c, r) := readArr 4 n_rels (char_bits out) r in
          let '(o, r) := readArr 8 (wrap 32 (n_rels + 1)) (factor_offsets out) r in
          let '(fi, r) := if 0 <? n_facs then readArr 4 n_facs (factor_indices out) r
                          else (factor_indices out, r) in
          let '(fc, r) := if 0 <? n_facs then readArr 1 n_facs (factor_counts out) r
                          else (factor_counts out, r) in
          (mkBatch q s (map (to_signed 32) v) lp c o fi fc (num_relations out) (num_factors out), r)
        else (out, r) in
      if (0 <? n_rels) && negb (ok r) then (0, out)
      else (n_rels,
            mkBatch (sqrt_Q out) (signs out) (val_2_exps out) (large_primes out) (char_bits out)
              (factor_offsets out) (factor_indices out) (factor_counts out) n_rels n_facs).

(** The wire image of a list of relations. *)
Definition wire_batch (rs : list relation) : bytes :=
  le 4 (Z.of_nat (length rs)) ++ le 4 (Z.of_nat (length (all_factors rs))) ++
  match rs with
  | [] => []
  | _ => arr_bytes 64 (map r_sqrt_Q rs) ++ arr_bytes 1 (map r_sign rs) ++ arr_bytes 4 (map r_val2 rs) ++
         arr_bytes 16 (map r_lp rs) ++ arr_bytes 4 (map r_char rs) ++
         arr_bytes 8 (offsets_from 0 (map r_factors rs)) ++
         arr_bytes 4 (map fst (all_factors rs)) ++ arr_bytes 1 (map snd (all_factors rs))
  end.

(** ** The factor base fingerprint (FNV-1a, 64 bits) *)

Definition fnv_offset : Z := 1469598103934665603.
Definition fnv_prime : Z := 1099511628211.

Definition fnv_mix (h : Z) (b : bytes) : Z :=
  foldl (fun h x => wrap 64 (Z.lxor h x * fnv_prime)) h b.

Definition computeFactorBaseHash (factorBase rootN : list Z) : Z :=
  let h := fnv_mix fnv_offset (le 4 (wrap 32 (zlen factorBase))) in
  let h := fnv_mix h (arr_bytes 4 factorBase) in
  fnv_mix h (arr_bytes 4 rootN).

(** ** Work assignments *)

(** The fields of [factoringData] the wire carries or hashes. *)
Record factoringData := mkFData {
  fd_N : Z; fd_factorBase : list Z; fd_rootN : list Z; fd_a_factors : list Z;
  fd_M : Z; fd_F : Z; fd_size : Z
}.

Record AFactorsSnapshot := mkSnap {
  a_factors : list Z; lowerHalfStart : Z; upperHalfStart : Z; shc_dim : Z
}.

(** The scalar parameters beside [fdata]. *)
Record WorkParams := mkParams {
  sieve_batch_size : Z; threshold_override : Z; lp1_bound : Z;
  poly_range_start : Z; poly_range_count : Z; target_relations : Z
}.

Definition serializeWorkAssign (fd : factoringData) (p : WorkParams) (snapshot : option AFactorsSnapshot)
  : option (bytes * Z) :=
  let fb_size := wrap 32 (zlen (fd_factorBase fd)) in
  let snapshot_size := match snapshot with Some s => 4 + shc_dim s * 4 + 2 * 4 | None => 0 end in
  let total := 124 + 8 + snapshot_size in
  writes
    ([Some (le 64 (fd_N fd)); Some (le 4 fb_size); Some (le 4 (fd_M fd)); Some (le 4 (fd_F fd));
      Some (le 4 (sieve_batch_size p)); Some (le 1 (wrap 8 (zlen (fd_a_factors fd)))); Some [0; 0; 0];
      Some (le 8 (threshold_override p)); Some (le 8 (lp1_bound p)); Some (le 8 (poly_range_start p));
      Some (le 8 (poly_range_count p)); Some (le 8 (target_relations p));
      Some (le 8 (computeFactorBaseHash (fd_factorBase fd) (fd_rootN fd)))]
     ++ match snapshot with
        | None => []
        | Some s =>
            [Some (le 4 (shc_dim s))]
            ++ (if 0 <? shc_dim s then [mem_bytes 4 (a_factors s) (shc_dim s)] else [])
            ++ [Some (le 4 (lowerHalfStart s)); Some (le 4 (upperHalfStart s))]
        end)
    (replicate (Z.to_nat total) 0, 0).

(** [lowerHalfStart] and [upperHalfStart]; a short read keeps what was read so far. *)
Definition readHalves (s : AFactorsSnapshot) (r : SafeReader) : AFactorsSnapshot :=
  match readBytes 4 r with
  | (None, _) => s
  | (Some b, r) =>
      let s := mkSnap (a_factors s) (of_le b) (upperHalfStart s) (shc_dim s) in
      match readBytes 4 r with
      | (None, _) => s
      | (Some b, _) => mkSnap (a_factors s) (lowerHalfStart s) (of_le b) (shc_dim s)
      end
  end.

(** The optional snapshot at the end. *)
Definition readSnapshot (s : AFactorsSnapshot) (r : SafeReader) : AFactorsSnapshot :=
  match readBytes 4 r with
  | (None, _) => s
  | (Some b, r) =>
      let dim := of_le b in
      let s := mkSnap (a_factors s) (lowerHalfStart s) (upperHalfStart s) dim in
      let '(s, r, go) :=
        if 0 <? dim then
          let v := take (Z.to_nat dim) (grow (a_factors s) dim) in
          match readBytes (dim * 4) r with
          | (None, r) => (mkSnap v (lowerHalfStart s) (upperHalfStart s) dim, r, false)
          | (Some b, r) => (mkSnap (overwrite v (arr_of 4 (Z.to_nat dim) b)) (lowerHalfStart s) (upperHalfStart s) dim, r, true)
          end
        else (s, r, true) in
      if negb go then s
      else readHalves s r
  end.

(** [None] is the [false] return. The result is [fdata] (scalars only), the
    parameters, the coordinator's factor base hash and the snapshot. *)
Definition deserializeWorkAssign (b : bytes) (fd : factoringData) (p : WorkParams) (fb_hash : Z)
    (snapshot_out : option AFactorsSnapshot)
  : option (factoringData * WorkParams * Z * option AFactorsSnapshot) :=
  if zlen b <? 132 then None
  else
    let r := reader b in
    let '(n, r) := readInt 64 (fd_N fd) r in
    let '(fb_size, r) := readInt 4 0 r in
    let '(m, r) := readInt 4 (fd_M fd) r in
    let '(f, r) := readInt 4 (fd_F fd) r in
    let '(sbs, r) := readInt 4 (sieve_batch_size p) r in
    let '(_, r) := readInt 1 0 r in
    let r := mkReader (data r) (total r) (pos r + 3) (ok r) in
    let '(th, r) := readInt 8 (threshold_override p) r in
    let '(lp, r) := readInt 8 (lp1_bound p) r in
    let '(ps, r) := readInt 8 (poly_range_start p) r in
    let '(pc, r) := readInt 8 (poly_range_count p) r in
    let '(tr, r) := readInt 8 (target_relations p) r in
    if negb (ok r) then None
    else
      let '(h, r) := readInt 8 fb_hash r in
      if negb (ok r) then None
      else
        let snap := match snapshot_out with
                    | Some s => if pos r <? total r then Some (readSnapshot s r) else Some s
                    | None => None
                    end in
        Some (mkFData n (fd_factorBase fd) (fd_rootN fd) (fd_a_factors fd) m f fb_size,
              mkParams sbs th lp ps pc tr, h, snap).

(** ** Incremental batches *)

Definition serializeIncrementalBatch (full : HostRelationBatch) (full_count : Z)
    (partial : HostRelationBatch) (partial_count : Z) : option (bytes * Z) :=
  match serializeRelationBatch full full_count, serializeRelationBatch partial partial_count with
  | Some (full_buf, full_len), Some (partial_buf, partial_len) =>
      let total := 4 + full_len + 4 + partial_len in
      match writes [Some (le 4 (wrap 32 full_len)); mem_bytes 1 full_buf full_len;
                    Some (le 4 (wrap 32 partial_len)); mem_bytes 1 partial_buf partial_len]
              (replicate (Z.to_nat total) 0, 0) with
      | Some (out, _) => Some (out, total)
      | None => None
      end
  | _, _ => None
  end.

(** The results of the inner calls are not looked at. *)
Definition deserializeIncrementalBatch (b : bytes) (full_out partial_out : HostRelationBatch)
  : bool * HostRelationBatch * HostRelationBatch :=
  if zlen b <? 8 then (false, full_out, partial_out)
  else
    let r := reader b in
    let '(full_len, r) := readInt 4 0 r in
    if negb (ok r) || (total r <? pos r + full_len) then (false, full_out, partial_out)
    else
      let full_out := (deserializeRelationBatch (take (Z.to_nat full_len) (drop (Z.to_nat (pos r)) b)) full_out).2 in
      let r := mkReader (data r) (total r) (pos r + full_len) (ok r) in
      let '(partial_len, r) := readInt 4 0 r in
      if negb (ok r) || (total r <? pos r + partial_len) then (false, full_out, partial_out)
      else
        (true, full_out,
         (deserializeRelationBatch (take (Z.to_nat partial_len) (drop (Z.to_nat (pos r)) b)) partial_out).2).

(** ** Merging batches *)

Definition batch_factors (b : HostRelationBatch) (n : Z) : Z :=
  if n <? zlen (factor_offsets b) then idx (factor_offsets b) n else 0.

(** Phase 1: the totals, skipping empty counts. *)
Fixpoint merge_totals (bs : list HostRelationBatch) (counts : list Z) : Z * Z :=
  match bs, counts with
  | b :: bs', n :: counts' =>
      let '(r, f) := merge_totals bs' counts' in
      if n =? 0 then (r, f) else (n + r, batch_factors b n + f)
  | _, _ => (0, 0)
  end.

(** [memcpy(dst.data() + at, src.data(), n * size)] on element vectors. *)
Definition copy_at (dst src : list Z) (at_ n : Z) : option (list Z) :=
  if (n <=? zlen src) && (at_ + n <=? zlen dst) then
    Some (take (Z.to_nat at_) dst ++ take (Z.to_nat n) src ++ drop (Z.to_nat at_ + Z.to_nat n) dst)
  else None.

(** [for (j = 1; j <= n; ++j) out[rel + j] = src[j] + fac]. *)
Fixpoint shift_offsets (dst src : list Z) (rel fac : Z) (j : Z) (n : nat) : list Z :=
  match n with
  | O => dst
  | S n' => shift_offsets (<[Z.to_nat (rel + j) := idx src j + fac]> dst) src rel fac (j + 1) n'
  end.

(** One iteration of phase 3. *)
Definition merge_one (out b : HostRelationBatch) (n rel fac : Z) : option (HostRelationBatch * Z) :=
  let n_facs := batch_factors b n in
  q ← copy_at (sqrt_Q out) (sqrt_Q b) rel n;
  s ← copy_at (signs out) (signs b) rel n;
  v ← copy_at (val_2_exps out) (val_2_exps b) rel n;
  lp ← copy_at (large_primes out) (large_primes b) rel n;
  c ← (if n <=? zlen (char_bits b) then copy_at (char_bits out) (char_bits b) rel n else Some (char_bits out));
  fi ← (if 0 <? n_facs then copy_at (factor_indices out) (factor_indices b) fac n_facs else Some (factor_indices out));
  fc ← (if 0 <? n_facs then copy_at (factor_counts out) (factor_counts b) fac n_facs else Some (factor_counts out));
  o ← (if rel =? 0 then copy_at (factor_offsets out) (factor_offsets b) 0 (n + 1)
       else if n <? zlen (factor_offsets b)
            then Some (shift_offsets (factor_offsets out) (factor_offsets b) rel fac 1 (Z.to_nat n)) else None);
  Some (mkBatch q s v lp c o fi fc (num_relations out) (num_factors out), n_facs).

Fixpoint merge_loop (bs : list HostRelationBatch) (counts : list Z) (out : HostRelationBatch) (rel fac : Z)
  : option HostRelationBatch :=
  match bs, counts with
  | b :: bs', n :: counts' =>
      if n =? 0 then merge_loop bs' counts' out rel fac
      else match merge_one out b n rel fac with
           | Some (out', n_facs) => merge_loop bs' counts' out' (rel + n) (fac + n_facs)
           | None => None
           end
  | _, _ => Some out
  end.

Definition mergeRelationBatches (bs : list HostRelationBatch) (counts : list Z) : option HostRelationBatch :=
  let '(total_rels, total_factors) := merge_totals bs counts in
  if total_rels =? 0 then Some batch_empty
  else
    match merge_loop bs counts (resize batch_empty total_rels total_factors) 0 0 with
    | None => None
    | Some out =>
        Some (mkBatch (sqrt_Q out) (signs out) (val_2_exps out) (large_primes out) (char_bits out)
                (<[Z.to_nat total_rels := total_factors]> (factor_offsets out))
                (factor_indices out) (factor_counts out) total_rels total_factors)
    end.

(** ** Vocabulary of the specifications *)

(** The arrays hold [rs], whatever the fill counts say. *)
Definition holds (b : HostRelationBatch) (rs : list relation) : Prop :=
  repr (mkBatch (sqrt_Q b) (signs b) (val_2_exps b) (large_primes b) (char_bits b) (factor_offsets b)
          (factor_indices b) (factor_counts b) (zlen rs) (zlen (all_factors rs))) rs.

Definition has_room (b : HostRelationBatch) (n f : nat) : Prop :=
  (n <= length (sqrt_Q b))%nat /\ (n <= length (signs b))%nat /\ (n <= length (val_2_exps b))%nat /\
  (n <= length (large_primes b))%nat /\ (n <= length (char_bits b))%nat /\
  (n < length (factor_offsets b))%nat /\ (f <= length (factor_indices b))%nat /\
  (f <= length (factor_counts b))%nat.

(** The relations a merge takes. *)
Definition merged (rss : list (list relation)) (counts : list Z) : list relation :=
  concat (zip_with (fun rs n => take (Z.to_nat n) rs) rss counts).

Definition advanced (r r' : SafeReader) (n : Z) : Prop :=
  total r' = total r /\ (ok r' = true -> ok r = true /\ pos r' = pos r + n /\ pos r' <= total r).

Definition snapshot_bytes (s : AFactorsSnapshot) : bytes :=
  le 4 (shc_dim s) ++ arr_bytes 4 (a_factors s) ++ le 4 (lowerHalfStart s) ++ le 4 (upperHalfStart s).

Record snapshot_ok (s : AFactorsSnapshot) : Prop := mkSnapOk {
  so_dim : shc_dim s = zlen (a_factors s);
  so_dim_width : in_width 32 (shc_dim s);
  so_factors : Forall (in_width 32) (a_factors s);
  so_lower : in_width 32 (lowerHalfStart s);
  so_upper : in_width 32 (upperHalfStart s)
}.

(** A snapshot of dimension 0 leaves the receiver's factor list as it was. *)
Definition received_snapshot (s s0 : AFactorsSnapshot) : AFactorsSnapshot :=
  mkSnap (if 0 <? shc_dim s then a_factors s else a_factors s0) (lowerHalfStart s) (upperHalfStart s) (shc_dim s).

(** ** Lemmas *)

(** The same arrays with other fill counts. *)
Lemma repr_take b rs c :
  (c <= length rs)%nat -> repr b rs ->
  repr (mkBatch (sqrt_Q b) (signs b) (val_2_exps b) (large_primes b) (char_bits b) (factor_offsets b)
          (factor_indices b) (factor_counts b) (Z.of_nat c) (Z.of_nat (length (all_factors (take c rs)))))
       (take c rs).
Proof.
  intros Hc H.
  assert (forall A (f : relation -> A), map f (take c rs) `prefix_of` map f rs) as Hm
    by (intros A f; exists (map f (drop c rs)); by rewrite <- map_app, take_drop).
  assert (all_factors (take c rs) `prefix_of` all_factors rs) as Hf
    by (exists (all_factors (drop c rs)); by rewrite <- all_factors_app, take_drop).
  constructor; cbn.
  - etrans; [apply Hm | apply H].
  - etrans; [apply Hm | apply H].
  - etrans; [apply Hm | apply H].
  - etrans; [apply Hm | apply H].
  - etrans; [apply Hm | apply H].
  - rewrite <- firstn_map, offsets_from_take by (by rewrite length_map).
    etrans; [|apply H]. eexists. symmetry. apply take_drop.
  - etrans; [|apply H]. destruct Hf as [k ->]. exists (map fst k). apply map_app.
  - etrans; [|apply H]. destruct Hf as [k ->]. exists (map snd k). apply map_app.
  - rewrite length_take. lia.
  - done.
Qed.

Lemma mem_bytes_prefix n l1 l2 : l1 `prefix_of` l2 -> mem_bytes n l2 (zlen l1) = Some (arr_bytes n l1).
Proof.
  intros Hp. pose proof (prefix_length_le _ _ Hp). unfold mem_bytes, zlen.
  destruct (Z.leb_spec (Z.of_nat (length l1)) (Z.of_nat (length l2))); [|lia].
  by rewrite Nat2Z.id, (prefix_take _ _ Hp).
Qed.

Lemma mem_bytes_col n (f : relation -> Z) rs l :
  map f rs `prefix_of` l -> mem_bytes n l (zlen rs) = Some (arr_bytes n (map f rs)).
Proof. intros Hp. rewrite <- (mem_bytes_prefix n _ _ Hp). unfold zlen. by rewrite length_map. Qed.

Lemma ser_num_factors_repr b rs : repr b rs -> ser_num_factors b (zlen rs) = zlen (all_factors rs).
Proof.
  intros H. pose proof (repr_length_offsets b rs H). unfold ser_num_factors.
  destruct rs as [|r rs]; [done|].
  destruct (Z.ltb_spec 0 (zlen (r :: rs))); [|unfold zlen in *; cbn in *; lia].
  destruct (Z.ltb_spec (zlen (r :: rs)) (zlen (factor_offsets b))); [|unfold zlen in *; lia]. cbn [andb].
  unfold zlen. rewrite (repr_offset b _ _ H) by done. by rewrite take_ge.
Qed.

Lemma length_wire_batch rs :
  rs <> [] -> zlen (wire_batch rs) = ser_total (zlen rs) (zlen (all_factors rs)).
Proof.
  intros Hne. unfold wire_batch, ser_total. destruct rs as [|r rs]; [done|]. cbv zeta.
  rewrite !zlen_app, !zlen_arr_bytes. unfold zlen.
  rewrite !length_le, !length_map, length_offsets_from, length_map. lia.
Qed.

(** What the serializer writes, for a batch holding [rs]; the empty batch leaves
    the eight bytes reserved for its sentinel unwritten. *)
Lemma serialize_carries b rs :
  (rs <> [] -> repr b rs) -> zlen rs < 2 ^ 32 -> zlen (all_factors rs) < 2 ^ 32 ->
  serializeRelationBatch b (zlen rs)
  = Some (wire_batch rs ++ (match rs with [] => replicate 8 0 | _ => [] end), zlen (wire_batch rs)).
Proof.
  intros H Hn Hf. pose proof (zlen_nonneg rs). pose proof (zlen_nonneg (all_factors rs)).
  destruct rs as [|r rs]; [reflexivity|]. specialize (H ltac:(done)).
  unfold serializeRelationBatch. rewrite (ser_num_factors_repr b _ H). cbv zeta.
  rewrite !(wrap_small 32) by (split; done).
  destruct (Z.ltb_spec 0 (zlen (r :: rs))); [|unfold zlen in *; cbn in *; lia].
  assert (forall nf : Z, nf = zlen (all_factors (r :: rs)) ->
    (if 0 <? nf then [mem_bytes 4 (factor_indices b) nf; mem_bytes 1 (factor_counts b) nf] else [])
    = map Some (if 0 <? nf then [arr_bytes 4 (map fst (all_factors (r :: rs))); arr_bytes 1 (map snd (all_factors (r :: rs)))] else []))
    as Hfac.
  { intros nf ->. destruct (0 <? _); [|done]. cbn [map].
    rewrite <- (mem_bytes_prefix 4 _ _ (repr_indices b _ H)), <- (mem_bytes_prefix 1 _ _ (repr_counts b _ H)).
    unfold zlen. by rewrite !length_map. }
  rewrite (Hfac _ eq_refl). clear Hfac.
  rewrite (mem_bytes_col 64 _ _ _ (repr_sqrt_Q b _ H)), (mem_bytes_col 1 _ _ _ (repr_signs b _ H)),
    (mem_bytes_col 4 _ _ _ (repr_val2 b _ H)), (mem_bytes_col 16 _ _ _ (repr_lp b _ H)).
  assert ((zlen (r :: rs) <=? zlen (char_bits b)) = true) as ->.
  { apply Z.leb_le. pose proof (prefix_length_le _ _ (repr_char b _ H)) as L. rewrite length_map in L. unfold zlen. lia. }
  rewrite (mem_bytes_col 4 _ _ _ (repr_char b _ H)).
  assert (mem_bytes 8 (factor_offsets b) (zlen (r :: rs) + 1)
          = Some (arr_bytes 8 (offsets_from 0 (map r_factors (r :: rs))))) as ->.
  { rewrite <- (mem_bytes_prefix 8 _ _ (repr_offsets b _ H)). unfold zlen.
    rewrite length_offsets_from, length_map. f_equal. lia. }
  set (tail := if 0 <? _ then _ else _).
  assert (concat tail = arr_bytes 4 (map fst (all_factors (r :: rs))) ++ arr_bytes 1 (map snd (all_factors (r :: rs)))) as Et.
  { subst tail. destruct (Z.ltb_spec 0 (zlen (all_factors (r :: rs)))); [cbn; by rewrite app_nil_r|].
    destruct (all_factors (r :: rs)); [done|]. unfold zlen in *. cbn in *. lia. }
  assert (forall bs : list bytes, concat bs = wire_batch (r :: rs) ->
    writes (map Some bs) (replicate (Z.to_nat (ser_total (zlen (r :: rs)) (zlen (all_factors (r :: rs))))) 0, 0)
    = Some (wire_batch (r :: rs) ++ [], zlen (wire_batch (r :: rs)))) as Hw.
  { intros bs E. rewrite <- length_wire_batch by done. rewrite app_nil_r, <- E. apply writes_exact.
    unfold zlen. lia. }
  apply (Hw ([_; _; _; _; _; _; _; _] ++ tail)).
  rewrite concat_app, Et. cbn [concat]. rewrite app_nil_r, <- !app_assoc. reflexivity.
Qed.

Lemma serialize_repr b rs :
  repr b rs -> zlen rs < 2 ^ 32 -> zlen (all_factors rs) < 2 ^ 32 ->
  serializeRelationBatch b (zlen rs)
  = Some (wire_batch rs ++ (match rs with [] => replicate 8 0 | _ => [] end), zlen (wire_batch rs)).
Proof. intros. by apply serialize_carries. Qed.

Lemma relation_cols rs :
  Forall relation_ok rs ->
  Forall (in_width 512) (map r_sqrt_Q rs) /\ Forall (in_width 8) (map r_sign rs) /\
  Forall (fun v => - 2 ^ 31 <= v < 2 ^ 31) (map r_val2 rs) /\
  Forall (in_width 128) (map r_lp rs) /\ Forall (in_width 32) (map r_char rs) /\
  Forall (in_width 32) (map fst (all_factors rs)) /\ Forall (in_width 8) (map snd (all_factors rs)).
Proof.
  intros H. rewrite !Forall_map. split_and!; try (eapply Forall_impl; [exact H|]; intros r Hr; apply Hr).
  - unfold all_factors. apply Forall_concat, Forall_map. eapply Forall_impl; [exact H|].
    intros r (_ & _ & _ & _ & _ & Hr). eapply Forall_impl; [exact Hr|]. by intros f [? _].
  - unfold all_factors. apply Forall_concat, Forall_map. eapply Forall_impl; [exact H|].
    intros r (_ & _ & _ & _ & _ & Hr). eapply Forall_impl; [exact Hr|]. by intros f [_ ?].
Qed.

Lemma offsets_from_width rs :
  zlen (all_factors rs) < 2 ^ 32 -> Forall (in_width 64) (offsets_from 0 (map r_factors rs)).
Proof.
  intros Hf. apply (Forall_nth _ 0). intros i Hi. rewrite length_offsets_from, length_map in Hi.
  rewrite offsets_from_lookup by (rewrite length_map; lia).
  rewrite firstn_map. fold (all_factors (take i rs)). pose proof (all_factors_take_le rs i).
  unfold in_width, zlen in *. lia.
Qed.

Lemma overwrite_signed l dst :
  Forall (fun v => - 2 ^ 31 <= v < 2 ^ 31) l ->
  l `prefix_of` map (to_signed 32) (overwrite dst (map (wrap (8 * Z.of_nat 4)) l)).
Proof.
  intros Hl. unfold overwrite. rewrite map_app, map_map. eexists. f_equal. symmetry.
  change (8 * Z.of_nat 4) with 32.
  induction Hl as [|x l Hx _ IH]; cbn [map]; [done|]. by rewrite to_signed_wrap, <- IH by (done || exact Hx).
Qed.

Lemma overwrite_wrap_prefix w l dst : Forall (in_width w) l -> l `prefix_of` overwrite dst (map (wrap w) l).
Proof. intros Hl. rewrite map_wrap_small by done. apply overwrite_prefix. Qed.

Lemma wire_batch_ge8 rs : 8 <= zlen (wire_batch rs).
Proof.
  unfold wire_batch. rewrite !zlen_app, !zlen_le.
  match goal with |- context [zlen ?m] => pose proof (zlen_nonneg m) end. lia.
Qed.

(** Reading a wire image, whatever follows it, over any batch whose offsets start at 0. *)
Lemma deserialize_wire rs post out :
  Forall relation_ok rs -> zlen rs + 1 < 2 ^ 32 -> zlen (all_factors rs) < 2 ^ 32 ->
  idx (factor_offsets out) 0 = 0 ->
  exists out', deserializeRelationBatch (wire_batch rs ++ post) out = (zlen rs, out') /\ repr out' rs.
Proof.
  intros Hok Hn Hf Ho. pose proof (zlen_nonneg rs). pose proof (zlen_nonneg (all_factors rs)).
  unfold deserializeRelationBatch.
  assert ((zlen (wire_batch rs ++ post) <? 8) = false) as ->.
  { apply Z.ltb_ge. rewrite zlen_app. pose proof (wire_batch_ge8 rs). pose proof (zlen_nonneg post). lia. }
  pose proof (at_pos_reader (wire_batch rs ++ post)) as R0. unfold wire_batch in R0 at 2. rewrite <- !app_assoc in R0.
  destruct (readInt_at _ _ _ _ 0 _ R0) as (r1 & -> & R1).
  destruct (readInt_at _ _ _ _ 0 _ R1) as (r2 & -> & R2).
  rewrite !wrap_small by (unfold in_width, zlen in *; cbn; lia).
  rewrite (proj2 (proj2 (proj2 R2))). cbn [negb].
  fold (zlen rs) (zlen (all_factors rs)).
  destruct rs as [|r rs].
  { eexists. split; [reflexivity|]. cbn.
    constructor; cbn; try done; try apply prefix_nil. unfold grow. cbn.
    unfold idx in Ho. destruct (factor_offsets out) as [|o os]; [by exists []|]. change (o = 0) in Ho.
    subst o. by eexists. }
  destruct (Z.ltb_spec 0 (zlen (r :: rs))); [|unfold zlen in *; cbn in *; lia].
  set (rs' := r :: rs) in *. set (out1 := resize out (zlen rs') (zlen (all_factors rs'))).
  rewrite <- ?app_assoc in R2.
  destruct (readArr_at _ _ _ _ (zlen rs') (sqrt_Q out1) _ R2) as (r3 & -> & R3); [unfold zlen; by rewrite length_map|].
  destruct (readArr_at _ _ _ _ (zlen rs') (signs out1) _ R3) as (r4 & -> & R4); [unfold zlen; by rewrite length_map|].
  destruct (readArr_at _ _ _ _ (zlen rs') (val_2_exps out1) _ R4) as (r5 & -> & R5); [unfold zlen; by rewrite length_map|].
  destruct (readArr_at _ _ _ _ (zlen rs') (large_primes out1) _ R5) as (r6 & -> & R6); [unfold zlen; by rewrite length_map|].
  destruct (readArr_at _ _ _ _ (zlen rs') (char_bits out1) _ R6) as (r7 & -> & R7); [unfold zlen; by rewrite length_map|].
  destruct (readArr_at _ _ _ _ (zlen rs' + 1) (factor_offsets out1) _ R7) as (r8 & -> & R8).
  { unfold zlen. rewrite length_offsets_from, length_map. lia. }
  destruct (relation_cols rs' Hok) as (W1 & W2 & W3 & W4 & W5 & W6 & W7).
  pose proof (offsets_from_width rs' Hf) as W8.
  assert (exists fi fc r10, ok r10 = true /\ map fst (all_factors rs') `prefix_of` fi /\
    map snd (all_factors rs') `prefix_of` fc /\
    (let '(fi, r) := if 0 <? zlen (all_factors rs') then readArr 4 (zlen (all_factors rs')) (factor_indices out1) r8
                          else (factor_indices out1, r8) in
     let '(fc, r) := if 0 <? zlen (all_factors rs') then readArr 1 (zlen (all_factors rs')) (factor_counts out1) r
                          else (factor_counts out1, r) in (fi, fc, r)) = (fi, fc, r10)) as (fi & fc & r10 & Ok10 & Hfi & Hfc & E10).
  { destruct (Z.ltb_spec 0 (zlen (all_factors rs'))).
    - destruct (readArr_at _ _ _ _ (zlen (all_factors rs')) (factor_indices out1) _ R8) as (r9 & -> & R9);
        [unfold zlen; by rewrite length_map|].
      destruct (readArr_at _ _ _ _ (zlen (all_factors rs')) (factor_counts out1) _ R9) as (r10 & -> & R10);
        [unfold zlen; by rewrite length_map|].
      eexists _, _, r10. split_and!; [apply R10| | |reflexivity]; by apply overwrite_wrap_prefix.
    - eexists _, _, r8. split_and!; [apply R8| | |reflexivity];
        destruct (all_factors rs'); try apply prefix_nil; unfold zlen in *; cbn in *; lia. }
  destruct (if 0 <? zlen (all_factors rs') then readArr 4 _ _ _ else _) as [fi' r9].
  destruct (if 0 <? zlen (all_factors rs') then readArr 1 _ _ _ else _) as [fc' r10'].
  injection E10 as -> -> ->. rewrite Ok10. cbn [negb andb].
  eexists. split; [reflexivity|].
  constructor; cbn [sqrt_Q signs val_2_exps large_primes char_bits factor_offsets factor_indices factor_counts
                    num_relations num_factors].
  - by apply overwrite_wrap_prefix.
  - by apply overwrite_wrap_prefix.
  - by apply overwrite_signed.
  - by apply overwrite_wrap_prefix.
  - by apply overwrite_wrap_prefix.
  - by apply overwrite_wrap_prefix.
  - done.
  - done.
  - done.
  - done.
Qed.

(** ** Merging *)

Lemma copy_at_prefix dst src l1 l2 :
  l1 `prefix_of` dst -> l2 `prefix_of` src -> (length l1 + length l2 <= length dst)%nat ->
  exists dst', copy_at dst src (zlen l1) (zlen l2) = Some dst' /\ l1 ++ l2 `prefix_of` dst' /\
               length dst' = length dst.
Proof.
  intros H1 H2 Hl. pose proof (prefix_length_le _ _ H2). unfold copy_at.
  destruct (Z.leb_spec (zlen l2) (zlen src)); [|unfold zlen in *; lia].
  destruct (Z.leb_spec (zlen l1 + zlen l2) (zlen dst)); [|unfold zlen in *; lia]. cbn [andb].
  unfold zlen. rewrite !Nat2Z.id, (prefix_take _ _ H1), (prefix_take _ _ H2).
  eexists. split; [done|]. split; [eexists; by rewrite <- app_assoc|].
  rewrite !length_app, length_drop. lia.
Qed.

Lemma copy_at_col (f : relation -> Z) dst src rs1 rs2 :
  map f rs1 `prefix_of` dst -> map f rs2 `prefix_of` src -> (length rs1 + length rs2 <= length dst)%nat ->
  exists dst', copy_at dst src (zlen rs1) (zlen rs2) = Some dst' /\ map f (rs1 ++ rs2) `prefix_of` dst' /\
               length dst' = length dst.
Proof.
  intros H1 H2 Hl. destruct (copy_at_prefix dst src _ _ H1 H2) as (d & E & P & L); [by rewrite !length_map|].
  exists d. rewrite map_app. split_and!; [|done..]. rewrite <- E. unfold zlen. by rewrite !length_map.
Qed.

Lemma shift_offsets_nth dst src rel fac j n i :
  0 <= rel -> 0 <= j -> rel + j + Z.of_nat n <= zlen dst ->
  length (shift_offsets dst src rel fac j n) = length dst /\
  nth i (shift_offsets dst src rel fac j n) 0
  = if (rel + j <=? Z.of_nat i) && (Z.of_nat i <? rel + j + Z.of_nat n)
    then idx src (Z.of_nat i - rel) + fac else nth i dst 0.
Proof.
  intros Hr. revert dst j. induction n as [|n IH]; intros dst j Hj Hn; cbn [shift_offsets].
  { split; [done|]. destruct (Z.leb_spec (rel + j) (Z.of_nat i)), (Z.ltb_spec (Z.of_nat i) (rel + j + Z.of_nat 0)); cbn; lia || done. }
  destruct (IH (<[Z.to_nat (rel + j) := idx src j + fac]> dst) (j + 1)) as [L E];
    [lia|unfold zlen in *; rewrite length_insert; lia|].
  rewrite length_insert in L. split; [done|]. rewrite E. unfold zlen in Hn.
  destruct (decide (i = Z.to_nat (rel + j))) as [->|Hne].
  - rewrite Z2Nat.id by lia.
    rewrite (nth_lookup_Some (<[_ := _]> dst) _ 0 (idx src j + fac)) by (apply list_lookup_insert_eq; lia).
    replace (rel + j - rel) with j by lia.
    destruct (Z.leb_spec (rel + (j + 1)) (rel + j)); [lia|]. cbn [andb].
    destruct (Z.leb_spec (rel + j) (rel + j)), (Z.ltb_spec (rel + j) (rel + j + Z.of_nat (S n))); cbn; lia.
  - assert (nth i (<[Z.to_nat (rel + j) := idx src j + fac]> dst) 0 = nth i dst 0) as ->.
    { rewrite !nth_lookup. by rewrite list_lookup_insert_ne. }
    destruct (Z.leb_spec (rel + (j + 1)) (Z.of_nat i)), (Z.ltb_spec (Z.of_nat i) (rel + (j + 1) + Z.of_nat n)),
      (Z.leb_spec (rel + j) (Z.of_nat i)), (Z.ltb_spec (Z.of_nat i) (rel + j + Z.of_nat (S n))); cbn; lia || done.
Qed.

Lemma shift_offsets_prefix {A} dst src (fs1 fs2 : list (list A)) :
  offsets_from 0 fs1 `prefix_of` dst -> offsets_from 0 fs2 `prefix_of` src ->
  (length fs1 + length fs2 < length dst)%nat ->
  offsets_from 0 (fs1 ++ fs2) `prefix_of`
    shift_offsets dst src (zlen fs1) (zlen (concat fs1)) 1 (length fs2) /\
  length (shift_offsets dst src (zlen fs1) (zlen (concat fs1)) 1 (length fs2)) = length dst.
Proof.
  intros H1 H2 Hl.
  assert (zlen fs1 + 1 + Z.of_nat (length fs2) <= zlen dst) as Hb by (unfold zlen; lia).
  assert (forall i, nth i (shift_offsets dst src (zlen fs1) (zlen (concat fs1)) 1 (length fs2)) 0 = _) as Hn
    by (intros i; apply (shift_offsets_nth dst src (zlen fs1) (zlen (concat fs1)) 1 (length fs2) i); unfold zlen; lia).
  destruct (shift_offsets_nth dst src (zlen fs1) (zlen (concat fs1)) 1 (length fs2) 0) as [L _]; [unfold zlen; lia..|].
  split; [|done]. apply prefix_of_idx; rewrite length_offsets_from, length_app; [lia|].
  intros i Hi. unfold idx at 1. rewrite Nat2Z.id, Hn. rewrite offsets_from_lookup by (rewrite length_app; lia).
  unfold zlen. destruct (Z.leb_spec (Z.of_nat (length fs1) + 1) (Z.of_nat i)).
  - destruct (Z.ltb_spec (Z.of_nat i) (Z.of_nat (length fs1) + 1 + Z.of_nat (length fs2))); [|lia]. cbn [andb].
    replace (Z.of_nat i - Z.of_nat (length fs1)) with (Z.of_nat (i - length fs1)) by lia.
    unfold idx. rewrite Nat2Z.id, (prefix_nth _ _ _ H2) by (rewrite length_offsets_from; lia).
    rewrite offsets_from_lookup by lia. rewrite take_app_ge by lia. rewrite concat_app, length_app. lia.
  - cbn [andb]. rewrite (prefix_nth _ _ _ H1) by (rewrite length_offsets_from; lia).
    rewrite offsets_from_lookup, take_app_le by lia. done.
Qed.

Lemma repr_holds b rs : repr b rs -> holds b rs.
Proof. intros []. by constructor. Qed.

Lemma holds_take b rs c : holds b rs -> holds b (take c rs).
Proof.
  intros H. destruct (decide (c <= length rs)%nat).
  - pose proof (repr_take _ _ c l H) as H'. cbn in H'. unfold holds.
    replace (zlen (take c rs)) with (Z.of_nat c) by (unfold zlen; rewrite length_take; lia). exact H'.
  - by rewrite take_ge by lia.
Qed.

Lemma batch_factors_holds b rs : holds b rs -> batch_factors b (zlen rs) = zlen (all_factors rs).
Proof.
  intros H. pose proof (repr_length_offsets _ _ H) as L. pose proof (repr_offset _ _ (length rs) H) as O.
  cbn [factor_offsets] in L, O. unfold batch_factors, zlen in *.
  destruct (Z.ltb_spec (Z.of_nat (length rs)) (Z.of_nat (length (factor_offsets b)))); [|lia].
  rewrite O, take_ge by lia. done.
Qed.

Lemma all_factors_concat rs : all_factors rs = concat (map r_factors rs).
Proof. done. Qed.

(** One iteration appends the relations taken from the source. *)
Lemma merge_one_spec out b rs1 rs2 n f :
  holds out rs1 -> holds b rs2 -> rs2 <> [] -> has_room out n f ->
  (length rs1 + length rs2 <= n)%nat -> (length (all_factors rs1) + length (all_factors rs2) <= f)%nat ->
  exists out', merge_one out b (zlen rs2) (zlen rs1) (zlen (all_factors rs1)) = Some (out', zlen (all_factors rs2)) /\
    holds out' (rs1 ++ rs2) /\ has_room out' n f.
Proof.
  intros H1 H2 Hne (R1 & R2 & R3 & R4 & R5 & R6 & R7 & R8) Hn Hf.
  unfold merge_one. rewrite (batch_factors_holds b rs2 H2). cbv zeta.
  destruct H1 as [A1 A2 A3 A4 A5 A6 A7 A8 _ _], H2 as [B1 B2 B3 B4 B5 B6 B7 B8 _ _]. cbn in A1, A2, A3, A4, A5, A6, A7, A8, B1, B2, B3, B4, B5, B6, B7, B8.
  destruct (copy_at_col _ _ _ _ _ A1 B1) as (q & -> & Q1 & Q2); [lia|].
  destruct (copy_at_col _ _ _ _ _ A2 B2) as (s & -> & S1 & S2); [lia|].
  destruct (copy_at_col _ _ _ _ _ A3 B3) as (v & -> & V1 & V2); [lia|].
  destruct (copy_at_col _ _ _ _ _ A4 B4) as (lp & -> & L1 & L2); [lia|].
  assert ((zlen rs2 <=? zlen (char_bits b)) = true) as ->.
  { apply Z.leb_le. pose proof (prefix_length_le _ _ B5) as L. rewrite length_map in L. unfold zlen. lia. }
  destruct (copy_at_col _ _ _ _ _ A5 B5) as (c & -> & C1 & C2); [lia|]. cbn [mbind option_bind].
  assert (exists fi fc,
    (if 0 <? zlen (all_factors rs2) then copy_at (factor_indices out) (factor_indices b) (zlen (all_factors rs1)) (zlen (all_factors rs2)) else Some (factor_indices out)) = Some fi /\
    (if 0 <? zlen (all_factors rs2) then copy_at (factor_counts out) (factor_counts b) (zlen (all_factors rs1)) (zlen (all_factors rs2)) else Some (factor_counts out)) = Some fc /\
    map fst (all_factors (rs1 ++ rs2)) `prefix_of` fi /\ map snd (all_factors (rs1 ++ rs2)) `prefix_of` fc /\
    length fi = length (factor_indices out) /\ length fc = length (factor_counts out)) as (fi & fc & -> & -> & F1 & F2 & F3 & F4).
  { rewrite all_factors_app, !map_app. destruct (Z.ltb_spec 0 (zlen (all_factors rs2))).
    - destruct (copy_at_prefix _ _ _ _ A7 B7) as (fi & E1 & ? & ?); [rewrite !length_map; lia|].
      destruct (copy_at_prefix _ _ _ _ A8 B8) as (fc & E2 & ? & ?); [rewrite !length_map; lia|].
      unfold zlen in *. rewrite !length_map in *. exists fi, fc. by split_and!.
    - destruct (all_factors rs2); [|unfold zlen in *; cbn in *; lia]. cbn. rewrite !app_nil_r.
      eexists _, _. by split_and!. }
  cbn [mbind option_bind].
  assert (exists o,
    (if zlen rs1 =? 0 then copy_at (factor_offsets out) (factor_offsets b) 0 (zlen rs2 + 1)
     else if zlen rs2 <? zlen (factor_offsets b)
          then Some (shift_offsets (factor_offsets out) (factor_offsets b) (zlen rs1) (zlen (all_factors rs1)) 1 (Z.to_nat (zlen rs2))) else None)
    = Some o /\ offsets_from 0 (map r_factors (rs1 ++ rs2)) `prefix_of` o /\ length o = length (factor_offsets out))
    as (o & -> & O1 & O2).
  { destruct (Z.eqb_spec (zlen rs1) 0) as [E|E].
    - destruct rs1; [|unfold zlen in E; cbn in E; lia]. cbn [app].
      destruct (copy_at_prefix (factor_offsets out) _ [] _ (prefix_nil _) B6) as (o & Eo & P & L).
      { rewrite length_offsets_from, length_map. cbn. lia. }
      exists o. split_and!; [|done..]. rewrite <- Eo. unfold zlen. rewrite length_offsets_from, length_map. f_equal. cbn. lia.
    - pose proof (prefix_length_le _ _ B6) as L. rewrite length_offsets_from, length_map in L.
      destruct (Z.ltb_spec (zlen rs2) (zlen (factor_offsets b))); [|unfold zlen in *; lia].
      destruct (shift_offsets_prefix _ _ _ _ A6 B6) as [P L']; [rewrite !length_map; lia|].
      rewrite map_app. unfold zlen in *. rewrite !length_map in *. rewrite Nat2Z.id, all_factors_concat. eexists. by split_and!. }
  cbn [mbind option_bind]. eexists. split; [reflexivity|]. split.
  - by constructor.
  - unfold has_room. cbn. rewrite Q2, S2, V2, L2, C2, O2, F3, F4. by split_and!.
Qed.

Lemma merged_cons rs rss n counts : merged (rs :: rss) (n :: counts) = take (Z.to_nat n) rs ++ merged rss counts.
Proof. done. Qed.

Lemma merge_totals_spec bs rss counts :
  Forall2 repr bs rss -> Forall2 (fun rs n => 0 <= n <= zlen rs) rss counts ->
  merge_totals bs counts = (zlen (merged rss counts), zlen (all_factors (merged rss counts))).
Proof.
  intros H. revert counts. induction H as [|b rs bs rss Hb _ IH]; intros counts Hc;
    inversion_clear Hc as [|? n ? ? Hn Hc']; cbn [merge_totals]; [done|].
  rewrite (IH _ Hc'). unfold merged. cbn [zip_with concat]. rewrite all_factors_app, !zlen_app.
  pose proof (holds_take b rs (Z.to_nat n) (repr_holds _ _ Hb)) as Ht.
  assert (zlen (take (Z.to_nat n) rs) = n) as El by (unfold zlen in *; rewrite length_take; lia).
  pose proof (batch_factors_holds _ _ Ht) as E. rewrite El in E. rewrite El, E.
  destruct (Z.eqb_spec n 0) as [->|]; done.
Qed.

Lemma merge_loop_spec bs rss counts out rs1 n f :
  Forall2 repr bs rss -> Forall2 (fun rs n => 0 <= n <= zlen rs) rss counts ->
  holds out rs1 -> has_room out n f ->
  (length rs1 + length (merged rss counts) <= n)%nat ->
  (length (all_factors rs1) + length (all_factors (merged rss counts)) <= f)%nat ->
  exists out', merge_loop bs counts out (zlen rs1) (zlen (all_factors rs1)) = Some out' /\
    holds out' (rs1 ++ merged rss counts) /\ has_room out' n f.
Proof.
  intros H. revert counts out rs1. induction H as [|b rs bs rss Hb _ IH]; intros counts out rs1 Hc Ho Hr;
    inversion_clear Hc as [|? k ? l' Hk Hc']; intros Hn Hf; cbn [merge_loop].
  { exists out. rewrite app_nil_r. done. }
  rewrite merged_cons in *. rewrite length_app in Hn. rewrite all_factors_app, length_app in Hf.
  pose proof (holds_take b rs (Z.to_nat k) (repr_holds _ _ Hb)) as Ht.
  assert (zlen (take (Z.to_nat k) rs) = k) as El by (unfold zlen in *; rewrite length_take; lia).
  destruct (Z.eqb_spec k 0) as [->|Hne].
  - change (Z.to_nat 0) with 0%nat in *. rewrite take_0 in *. by apply IH.
  - destruct (merge_one_spec out b rs1 (take (Z.to_nat k) rs) n f) as (out' & E & Ho' & Hr'); [done..| |done|lia|lia|].
    { intros E. rewrite E in El. unfold zlen in El. cbn in El. lia. }
    rewrite El in E. rewrite E. replace (zlen rs1 + k) with (zlen (rs1 ++ take (Z.to_nat k) rs)) by (rewrite zlen_app; lia).
    rewrite <- zlen_app, <- all_factors_app.
    rewrite app_assoc. apply IH; [done..| |].
    + rewrite length_app. lia.
    + rewrite all_factors_app, length_app. lia.
Qed.

Lemma length_grow l n : length (grow l n) = Nat.max (length l) (Z.to_nat n).
Proof. unfold grow. rewrite length_app, length_replicate. lia. Qed.

(** ** Readers that fail stay failed *)

Lemma readBytes_advanced n r b r' : readBytes n r = (b, r') -> advanced r r' n.
Proof.
  unfold readBytes. destruct (Z.ltb_spec (total r) (pos r + n)); intros [= <- <-]; split; cbn; try done.
Qed.

Lemma readInt_advanced n old r x r' : readInt n old r = (x, r') -> advanced r r' (Z.of_nat n).
Proof.
  unfold readInt. destruct (readBytes (Z.of_nat n) r) as [[b|] r1] eqn:E; intros [= <- <-];
    by eapply readBytes_advanced.
Qed.

Lemma readArr_advanced n count dst r x r' : readArr n count dst r = (x, r') -> advanced r r' (count * Z.of_nat n).
Proof.
  unfold readArr. destruct (readBytes (count * Z.of_nat n) r) as [[b|] r1] eqn:E; intros [= <- <-];
    by eapply readBytes_advanced.
Qed.

(** FNV-1a: multiplication by the odd prime is injective modulo [2^64]. *)
Lemma fnv_step_inj h1 h2 x1 x2 :
  in_width 64 h1 -> in_width 64 h2 -> in_width 8 x1 -> in_width 8 x2 ->
  wrap 64 (Z.lxor h1 x1 * fnv_prime) = wrap 64 (Z.lxor h2 x2 * fnv_prime) -> Z.lxor h1 x1 = Z.lxor h2 x2.
Proof.
  intros H1 H2 X1 X2 E.
  assert (forall x, in_width 8 x -> in_width 64 x) as Hw by (unfold in_width; lia).
  assert (forall y, in_width 64 y -> wrap 64 (wrap 64 (y * fnv_prime) * 14886173955864302971) = y) as Hinv.
  { intros y Hy. unfold wrap. rewrite Zmult_mod_idemp_l, <- Z.mul_assoc.
    change (fnv_prime * 14886173955864302971) with (1 + (fnv_prime * 14886173955864302971 / 2 ^ 64) * 2 ^ 64).
    rewrite Z.mul_add_distr_l, Z.mul_assoc, Z.mod_add, Z.mul_1_r by done. by apply Z.mod_small. }
  rewrite <- (Hinv (Z.lxor h1 x1)), <- (Hinv (Z.lxor h2 x2)) by (apply lxor_in_width; auto; lia). by rewrite E.
Qed.

Lemma fnv_mix_width h b : in_width 64 h -> in_width 64 (fnv_mix h b).
Proof.
  revert h. induction b as [|x b IH]; intros h Hh; cbn; [done|]. apply IH, wrap_range. lia.
Qed.

Lemma fnv_mix_app h b1 b2 : fnv_mix h (b1 ++ b2) = fnv_mix (fnv_mix h b1) b2.
Proof. apply foldl_app. Qed.

Lemma fnv_mix_inj h1 h2 b :
  in_width 64 h1 -> in_width 64 h2 -> digits_ok 8 b -> fnv_mix h1 b = fnv_mix h2 b -> h1 = h2.
Proof.
  intros H1 H2 Hb. revert h1 h2 H1 H2. induction Hb as [|x b Hx _ IH]; intros h1 h2 H1 H2 E; [done|].
  cbn in E. apply IH in E; [|apply wrap_range; lia..]. apply fnv_step_inj in E; [|done..].
  apply (f_equal (fun z => Z.lxor z x)) in E. rewrite !Z.lxor_assoc, !Z.lxor_nilpotent, !Z.lxor_0_r in E. done.
Qed.

Lemma fnv_one_byte h pre x y post :
  in_width 64 h -> in_width 8 x -> in_width 8 y -> digits_ok 8 post ->
  fnv_mix h (pre ++ x :: post) = fnv_mix h (pre ++ y :: post) -> x = y.
Proof.
  intros Hh Hx Hy Hp E. rewrite !fnv_mix_app in E. cbn in E. pose proof (fnv_mix_width h pre Hh) as Hw.
  apply fnv_mix_inj in E; [|apply wrap_range; lia..|done]. apply fnv_step_inj in E; [|done..].
  apply (f_equal (Z.lxor (fnv_mix h pre))) in E. rewrite <- !Z.lxor_assoc, !Z.lxor_nilpotent, !Z.lxor_0_l in E. done.
Qed.

Lemma skip_at r pre mid post n :
  at_pos r pre (mid ++ post) -> n = zlen mid -> at_pos (mkReader (data r) (total r) (pos r + n) (ok r)) (pre ++ mid) post.
Proof.
  intros (Hd & Hp & Ht & Ho) ->. unfold at_pos. cbn. rewrite Hd, Hp, Ht, !zlen_app, <- app_assoc. split_and!; try done. lia.
Qed.

Lemma take_zlen_app (l1 l2 : bytes) : take (Z.to_nat (zlen l1)) (l1 ++ l2) = l1.
Proof. unfold zlen. by rewrite Nat2Z.id, take_app_length. Qed.

Lemma take_drop_mid (pre mid post : bytes) n :
  n = zlen pre -> take (Z.to_nat (zlen mid)) (drop (Z.to_nat n) (pre ++ mid ++ post)) = mid.
Proof. intros ->. unfold zlen. by rewrite !Nat2Z.id, drop_app_length, take_app_length. Qed.

(** Merging stays inside the arrays and concatenates. *)
Lemma merge_exact bs rss counts :
  Forall2 repr bs rss -> Forall2 (fun rs n => 0 <= n <= zlen rs) rss counts ->
  exists out, mergeRelationBatches bs counts = Some out /\ num_relations out = zlen (merged rss counts) /\
              (merged rss counts <> [] -> repr out (merged rss counts)).
Proof.
  intros H Hc. unfold mergeRelationBatches. rewrite (merge_totals_spec bs rss counts H Hc).
  set (rs := merged rss counts). destruct (Z.eqb_spec (zlen rs) 0) as [E|E].
  { exists batch_empty. destruct rs; [done|]. unfold zlen in E. cbn in E. lia. }
  set (out0 := resize _ _ _).
  destruct (merge_loop_spec bs rss counts out0 [] (length rs) (length (all_factors rs)) H Hc) as (out & Eo & Ho & Hr).
  - constructor; cbn; try apply prefix_nil; try done. unfold out0, grow. cbn.
    destruct (Z.to_nat (zlen rs + 1)) eqn:En; [unfold zlen in *; lia|]. cbn. by eexists.
  - unfold out0, has_room, resize. cbn [sqrt_Q signs val_2_exps large_primes char_bits factor_offsets factor_indices factor_counts].
    rewrite !length_grow. unfold zlen. clear. split_and!; lia.
  - cbn. fold rs. lia.
  - cbn. fold rs. lia.
  - change (zlen (@nil relation)) with 0 in Eo. change (zlen (all_factors [])) with 0 in Eo.
    rewrite Eo. eexists. split; [reflexivity|]. split; [done|]. intros _. cbn [app] in Ho. fold rs in Ho.
    pose proof (repr_length_offsets _ _ Ho) as Lo. pose proof (repr_offset _ _ (length rs) Ho ltac:(done)) as Oo.
    cbn [factor_offsets] in Lo, Oo. rewrite take_ge in Oo by lia. unfold idx in Oo. rewrite Nat2Z.id in Oo.
    rewrite list_insert_id; [exact Ho|]. unfold zlen. rewrite Nat2Z.id.
    destruct (lookup_lt_is_Some_2 (factor_offsets out) (length rs)) as [x Hx]; [lia|].
    rewrite Hx. f_equal. rewrite <- Oo. symmetry. by apply nth_lookup_Some.
Qed.

(** The two halves of an incremental message come back, for batches that hold the
    relations when there are any. *)
Lemma incremental_exact bf bp fs ps out1 out2 :
  (fs <> [] -> repr bf fs) -> (ps <> [] -> repr bp ps) -> Forall relation_ok fs -> Forall relation_ok ps ->
  zlen (wire_batch fs) < 2 ^ 32 -> zlen (wire_batch ps) < 2 ^ 32 ->
  idx (factor_offsets out1) 0 = 0 -> idx (factor_offsets out2) 0 = 0 ->
  exists buf out1' out2',
    serializeIncrementalBatch bf (zlen fs) bp (zlen ps) = Some (buf, zlen buf) /\
    deserializeIncrementalBatch buf out1 out2 = (true, out1', out2') /\
    repr out1' fs /\ repr out2' ps /\ zlen buf = 8 + zlen (wire_batch fs) + zlen (wire_batch ps).
Proof.
  intros Hf Hp Of Op Lf Lp O1 O2.
  assert (forall rs, zlen (wire_batch rs) < 2 ^ 32 -> zlen rs + 1 < 2 ^ 32 /\ zlen (all_factors rs) < 2 ^ 32) as Hsmall.
  { intros rs Hl. destruct rs as [|r rs]; [done|]. rewrite length_wire_batch in Hl by done. unfold ser_total in Hl.
    pose proof (zlen_nonneg (all_factors (r :: rs))). pose proof (zlen_nonneg (r :: rs)). lia. }
  destruct (Hsmall fs Lf) as [N1 F1], (Hsmall ps Lp) as [N2 F2].
  unfold serializeIncrementalBatch.
  rewrite (serialize_carries bf fs Hf), (serialize_carries bp ps Hp) by lia.
  set (padf := match fs with [] => _ | _ => _ end). set (padp := match ps with [] => _ | _ => _ end).
  assert (forall b pad, digits_ok 8 b -> mem_bytes 1 (b ++ pad) (zlen b) = Some b) as Hmem.
  { intros b pad Hb. rewrite (mem_bytes_prefix 1 b) by (by eexists). f_equal.
    induction Hb as [|x b Hx _ IH]; [done|]. cbn [arr_bytes map concat]. fold (arr_bytes 1 b). rewrite IH.
    unfold le. cbn. f_equal. by apply wrap_small. }
  assert (forall rs, digits_ok 8 (wire_batch rs)) as Hdig.
  { intros rs. unfold wire_batch, digits_ok. rewrite !Forall_app. split_and!; [apply le_ok..|].
    destruct rs; [constructor|]. rewrite !Forall_app. split_and!; apply arr_bytes_ok. }
  rewrite !Hmem by apply Hdig. rewrite !(wrap_small 32) by (split; [apply zlen_nonneg|done]).
  set (wf := wire_batch fs) in *. set (wp := wire_batch ps) in *.
  pose proof (zlen_nonneg wf). pose proof (zlen_nonneg wp).
  assert (concat [le 4 (zlen wf); wf; le 4 (zlen wp); wp] = le 4 (zlen wf) ++ wf ++ le 4 (zlen wp) ++ wp) as Ec
    by (cbn [concat]; by rewrite app_nil_r).
  rewrite (writes_exact [le 4 (zlen wf); wf; le 4 (zlen wp); wp]).
  2: { rewrite Ec, !length_app, !length_le. unfold zlen. lia. }
  rewrite Ec. set (buf := le 4 (zlen wf) ++ wf ++ le 4 (zlen wp) ++ wp).
  assert (zlen buf = 4 + zlen wf + 4 + zlen wp) as Lb by (unfold buf; rewrite !zlen_app, !zlen_le; lia).
  destruct (deserialize_wire fs [] out1 Of N1 F1 O1) as (o1 & D1 & R1).
  destruct (deserialize_wire ps [] out2 Op N2 F2 O2) as (o2 & D2 & R2). rewrite app_nil_r in D1, D2.
  fold wf in D1. fold wp in D2.
  exists buf, o1, o2. split; [by rewrite Lb|]. split; [|split_and!; [done|done|rewrite Lb; lia]].
  unfold deserializeIncrementalBatch. destruct (Z.ltb_spec (zlen buf) 8); [lia|].
  pose proof (at_pos_reader buf) as A0. unfold buf in A0 at 2.
  destruct (readInt_at _ _ _ _ 0 _ A0) as (r1 & -> & A1). rewrite wrap_small by (split; done).
  pose proof A1 as (_ & P1 & T1 & K1). rewrite K1. cbn [negb orb].
  assert (total r1 = zlen buf) as Et by (rewrite T1; unfold buf; by rewrite app_assoc).
  assert (pos r1 = 4) as Ep by (rewrite P1, zlen_app, zlen_le; done).
  rewrite Et, Ep. destruct (Z.ltb_spec (zlen buf) (4 + zlen wf)); [lia|].
  pose proof (skip_at _ _ _ _ _ A1 eq_refl) as A2. rewrite Ep in A2.
  assert (take (Z.to_nat (zlen wf)) (drop (Z.to_nat 4) buf) = wf) as ->.
  { apply (take_drop_mid (le 4 (zlen wf)) wf (le 4 (zlen wp) ++ wp)). by rewrite zlen_le. }
  rewrite D1. destruct (readInt_at _ _ _ _ 0 _ A2) as (r2 & E2 & A3). rewrite Et in E2. rewrite K1 in E2. rewrite E2.
  rewrite wrap_small by (split; done). destruct A3 as (_ & P3 & T3 & ->). cbn [negb orb snd].
  assert (pos r2 = 8 + zlen wf) as Ep2 by (rewrite P3, !zlen_app, !zlen_le; change (zlen []) with 0; lia).
  assert (total r2 = zlen buf) as Et2 by (rewrite T3; unfold buf; by rewrite <- !app_assoc).
  rewrite Et2, Ep2. destruct (Z.ltb_spec (zlen buf) (8 + zlen wf + zlen wp)); [lia|].
  assert (take (Z.to_nat (zlen wp)) (drop (Z.to_nat (8 + zlen wf)) buf) = wp) as ->; [|by rewrite D2].
  pose proof (take_drop_mid (le 4 (zlen wf) ++ wf ++ le 4 (zlen wp)) wp [] (8 + zlen wf)) as Em.
  rewrite app_nil_r, <- !app_assoc in Em. apply Em. rewrite !zlen_app, !zlen_le. lia.
Qed.

(** ** The properties *)

(** C40. Serializing the first [count] relations of a batch never reads past its arrays
    nor writes past the buffer, and deserializing the bytes written, into any batch
    whose offsets start at 0, returns [count] and a batch that represents exactly
    those relations. *)
Theorem relation_batch_roundtrip b rs count out :
  repr b rs -> Forall relation_ok rs -> 0 <= count <= zlen rs -> count + 1 < 2 ^ 32 ->
  zlen (all_factors (take (Z.to_nat count) rs)) < 2 ^ 32 -> idx (factor_offsets out) 0 = 0 ->
  exists buf len out',
    serializeRelationBatch b count = Some (buf, len) /\ len <= zlen buf /\
    deserializeRelationBatch (take (Z.to_nat len) buf) out = (count, out') /\
    repr out' (take (Z.to_nat count) rs).
Proof.
  intros H Hok Hc Hn Hf Ho. set (rs' := take (Z.to_nat count) rs) in *.
  assert (zlen rs' = count) as El by (unfold rs', zlen in *; rewrite length_take; lia).
  pose proof (holds_take b rs (Z.to_nat count) (repr_holds _ _ H)) as Ht. fold rs' in Ht.
  assert (Forall relation_ok rs') as Hok' by by apply Forall_take.
  pose proof (serialize_repr _ _ Ht ltac:(lia) Hf) as Es. rewrite El in Es.
  destruct (deserialize_wire rs' [] out Hok' ltac:(lia) Hf Ho) as (out' & Ed & Hr). rewrite El, app_nil_r in Ed.
  eexists _, _, out'. split; [exact Es|]. rewrite take_zlen_app, zlen_app. split_and!; [|done..].
  pose proof (zlen_nonneg (match rs' with [] => replicate 8 0 | _ :: _ => [] end)). lia.
Qed.

Lemma relation_batch_roundtrip_witness :
  exists buf len out',
    serializeRelationBatch demo_batch 2 = Some (buf, len) /\ len <= zlen buf /\
    deserializeRelationBatch (take (Z.to_nat len) buf) batch_empty = (2, out') /\
    repr out' (take (Z.to_nat 2) (relations demo_batch)).
Proof.
  refine (relation_batch_roundtrip demo_batch (relations demo_batch) 2 batch_empty (wf_repr _ demo_batch_wf)
            _ _ _ _ eq_refl); [|vm_compute; split; discriminate|reflexivity|reflexivity].
  apply (bool_decide_unpack _). vm_compute. exact I.
Defined.

(** A relation message cut short anywhere after its 8-byte header is reported as 0
    relations, but the batch is left with the announced counts. *)
Theorem deserialize_truncated rs k out :
  rs <> [] -> zlen rs + 1 < 2 ^ 32 -> zlen (all_factors rs) < 2 ^ 32 ->
  (8 <= k < length (wire_batch rs))%nat ->
  (deserializeRelationBatch (take k (wire_batch rs)) out).1 = 0 /\
  num_relations (deserializeRelationBatch (take k (wire_batch rs)) out).2 = zlen rs.
Proof.
  intros Hne Hn Hf Hk. pose proof (zlen_nonneg (all_factors rs)).
  assert (0 < zlen rs) by (destruct rs; unfold zlen; cbn; [done|lia]).
  pose proof (length_wire_batch rs Hne) as Lw. unfold ser_total in Lw.
  assert (exists rest, take k (wire_batch rs) = le 4 (zlen rs) ++ le 4 (zlen (all_factors rs)) ++ rest) as [rest Er].
  { assert (exists t, wire_batch rs = (le 4 (zlen rs) ++ le 4 (zlen (all_factors rs))) ++ t) as [t ->]
      by (eexists; unfold wire_batch, zlen; rewrite <- app_assoc; reflexivity).
    rewrite take_app_ge by (rewrite length_app, !length_le; lia). rewrite <- app_assoc. by eexists. }
  assert (zlen (take k (wire_batch rs)) = Z.of_nat k) as Lk by (unfold zlen; rewrite length_take; lia).
  unfold deserializeRelationBatch. rewrite Lk. destruct (Z.ltb_spec (Z.of_nat k) 8); [lia|].
  pose proof (at_pos_reader (take k (wire_batch rs))) as R0. rewrite Er in R0 at 2.
  destruct (readInt_at _ _ _ _ 0 _ R0) as (r1 & -> & R1).
  destruct (readInt_at _ _ _ _ 0 _ R1) as (r2 & -> & R2).
  rewrite !wrap_small by (unfold in_width; lia). destruct R2 as (_ & P2 & T2 & O2). rewrite O2. cbn [negb].
  rewrite <- !app_assoc, app_nil_l, <- Er, Lk in T2.
  rewrite !zlen_app, !zlen_le in P2. change (zlen []) with 0 in P2. cbn in P2.
  destruct (Z.ltb_spec 0 (zlen rs)); [|lia].
  set (out1 := resize out _ _).
  destruct (readArr 64 _ _ r2) as [q r3] eqn:E3. destruct (readArr 1 _ (signs out1) r3) as [s r4] eqn:E4.
  destruct (readArr 4 _ (val_2_exps out1) r4) as [v r5] eqn:E5. destruct (readArr 16 _ _ r5) as [lp r6] eqn:E6.
  destruct (readArr 4 _ (char_bits out1) r6) as [c r7] eqn:E7. destruct (readArr 8 _ _ r7) as [o r8] eqn:E8.
  apply readArr_advanced in E3, E4, E5, E6, E7, E8. rewrite ?wrap_small in E8 by (unfold in_width; lia).
  assert (exists fi fc r10, (let '(fi, r) := if 0 <? zlen (all_factors rs) then readArr 4 (zlen (all_factors rs)) (factor_indices out1) r8
                          else (factor_indices out1, r8) in
     let '(fc, r) := if 0 <? zlen (all_factors rs) then readArr 1 (zlen (all_factors rs)) (factor_counts out1) r
                          else (factor_counts out1, r) in (fi, fc, r)) = (fi, fc, r10) /\ advanced r8 r10 (zlen (all_factors rs) * 5))
    as (fi & fc & r10 & E10 & A10).
  { destruct (Z.ltb_spec 0 (zlen (all_factors rs))).
    - destruct (readArr 4 _ _ r8) as [fi r9] eqn:E9. destruct (readArr 1 _ _ r9) as [fc r10] eqn:E10.
      apply readArr_advanced in E9, E10. eexists _, _, _. split; [reflexivity|]. unfold advanced in *.
      split; [|intros Ho]; lia || (destruct E10 as [? E10], E9 as [? E9]; destruct (E10 Ho) as (Ho' & ? & ?); destruct (E9 Ho') as (? & ? & ?); split_and!; [done|lia..]) || (destruct E9, E10; congruence).
    - eexists _, _, _. split; [reflexivity|]. unfold advanced. split; [done|]. intros Ho. split; [done|].
      destruct E8 as [T8 E8]. destruct (E8 Ho) as (_ & ? & ?). lia. }
  destruct (if 0 <? zlen (all_factors rs) then readArr 4 _ _ _ else _) as [fi' r9].
  destruct (if 0 <? zlen (all_factors rs) then readArr 1 _ _ _ else _) as [fc' r10'].
  injection E10 as -> -> ->.
  assert (ok r10 = false) as ->; [|by cbn].
  destruct (ok r10) eqn:Ok; [exfalso|done].
  destruct A10 as [T10 A10], E8 as [T8 E8], E7 as [T7 E7], E6 as [T6 E6], E5 as [T5 E5], E4 as [T4 E4], E3 as [T3 E3].
  destruct (A10 Ok) as (O8 & P10 & B10). destruct (E8 O8) as (O7 & P8 & _). destruct (E7 O7) as (O6 & P7 & _).
  destruct (E6 O6) as (O5 & P6 & _). destruct (E5 O5) as (O4 & P5 & _). destruct (E4 O4) as (O3 & P4 & _).
  destruct (E3 O3) as (_ & P3 & _). unfold zlen in Lw at 1. lia.
Qed.

Lemma deserialize_truncated_witness :
  (deserializeRelationBatch (take 100 (wire_batch (relations demo_batch))) batch_empty).1 = 0.
Proof.
  refine (proj1 (deserialize_truncated (relations demo_batch) 100 batch_empty _ _ _ _));
    [discriminate | reflexivity | reflexivity | vm_compute; lia].
Defined.

(** Merging batches never copies outside an array and yields a batch that
    represents the concatenation of the relations taken from each of them. *)
Theorem mergeRelationBatches_concat bs rss counts :
  Forall2 repr bs rss -> Forall2 (fun rs n => 0 <= n <= zlen rs) rss counts ->
  exists out, mergeRelationBatches bs counts = Some out /\ num_relations out = zlen (merged rss counts) /\
              (merged rss counts <> [] -> repr out (merged rss counts)).
Proof. apply merge_exact. Qed.

Lemma mergeRelationBatches_concat_witness :
  exists out, mergeRelationBatches [demo_batch; demo_batch] [1; 2] = Some out /\
    num_relations out = zlen (merged [relations demo_batch; relations demo_batch] [1; 2]) /\
    (merged [relations demo_batch; relations demo_batch] [1; 2] <> [] ->
     repr out (merged [relations demo_batch; relations demo_batch] [1; 2])).
Proof.
  refine (mergeRelationBatches_concat _ _ _ _ _).
  - repeat constructor; apply wf_repr, demo_batch_wf.
  - repeat constructor; vm_compute; discriminate.
Defined.

(** An incremental batch deserializes into its full and its partial relations. *)
Theorem incremental_roundtrip bf bp fs ps out1 out2 :
  repr bf fs -> repr bp ps -> Forall relation_ok fs -> Forall relation_ok ps ->
  zlen (wire_batch fs) < 2 ^ 32 -> zlen (wire_batch ps) < 2 ^ 32 ->
  idx (factor_offsets out1) 0 = 0 -> idx (factor_offsets out2) 0 = 0 ->
  exists buf out1' out2',
    serializeIncrementalBatch bf (zlen fs) bp (zlen ps) = Some (buf, zlen buf) /\
    deserializeIncrementalBatch buf out1 out2 = (true, out1', out2') /\
    repr out1' fs /\ repr out2' ps.
Proof.
  intros Hf Hp Of Op Lf Lp O1 O2.
  destruct (incremental_exact bf bp fs ps out1 out2 (fun _ => Hf) (fun _ => Hp) Of Op Lf Lp O1 O2)
    as (buf & o1 & o2 & E & D & R1 & R2 & _). by exists buf, o1, o2.
Qed.

Lemma incremental_roundtrip_witness :
  exists buf out1' out2',
    serializeIncrementalBatch demo_batch (zlen (relations demo_batch)) demo_batch (zlen (relations demo_batch))
    = Some (buf, zlen buf) /\
    deserializeIncrementalBatch buf batch_empty batch_empty = (true, out1', out2') /\
    repr out1' (relations demo_batch) /\ repr out2' (relations demo_batch).
Proof.
  refine (incremental_roundtrip demo_batch demo_batch _ _ batch_empty batch_empty
            (wf_repr _ demo_batch_wf) (wf_repr _ demo_batch_wf) _ _ _ _ eq_refl eq_refl);
    [apply (bool_decide_unpack _); vm_compute; exact I.. | reflexivity | reflexivity].
Defined.

(** ** Work assignments *)

Lemma readSnapshot_at s s0 r pre :
  snapshot_ok s -> at_pos r pre (snapshot_bytes s) -> readSnapshot s0 r = received_snapshot s s0.
Proof.
  intros [Ed Wd Wa Wl Wu] A. unfold snapshot_bytes in A. unfold readSnapshot, received_snapshot.
  destruct (readBytes_at _ _ _ _ 4 A) as (r1 & -> & A1); [by rewrite zlen_le|].
  rewrite of_le_le_small by done. cbn [a_factors lowerHalfStart upperHalfStart shc_dim].
  destruct s as [af lo hi dim]. cbn [a_factors lowerHalfStart upperHalfStart shc_dim] in *. subst dim.
  assert (forall (s1 : AFactorsSnapshot) r1 pre1, at_pos r1 pre1 (le 4 lo ++ le 4 hi) ->
    readHalves s1 r1 = mkSnap (a_factors s1) lo hi (shc_dim s1)) as Hend.
  { intros s1 r2 pre1 B. unfold readHalves. rewrite <- (app_nil_r (le 4 hi)) in B.
    destruct (readBytes_at _ _ _ _ 4 B) as (r3 & -> & B1); [by rewrite zlen_le|].
    destruct (readBytes_at _ _ _ _ 4 B1) as (r4 & -> & _); [by rewrite zlen_le|].
    by rewrite !of_le_le_small by done. }
  destruct (Z.ltb_spec 0 (zlen af)).
  - destruct (readBytes_at _ _ _ _ (zlen af * 4) A1) as (r2 & -> & A2); [by rewrite zlen_arr_bytes|].
    cbn [negb]. rewrite (Hend _ _ _ A2). cbn [a_factors shc_dim]. f_equal.
    unfold zlen. rewrite Nat2Z.id, arr_of_bytes, map_wrap_small by done.
    unfold overwrite. rewrite drop_ge by (rewrite length_take; lia). by rewrite app_nil_r.
  - cbn [negb]. destruct af; [|unfold zlen in *; cbn in *; lia]. by rewrite (Hend _ _ _ A1).
Qed.

(** A work assignment deserializes into the factoring scalars, the parameters, the
    factor base hash and, when one was sent, the snapshot that were serialized; the
    receiver's factor base arrays are not touched. *)
Theorem workassign_roundtrip fd p snap fd0 p0 h0 s0 :
  in_width 512 (fd_N fd) -> in_width 32 (fd_M fd) -> in_width 32 (fd_F fd) ->
  in_width 32 (sieve_batch_size p) -> in_width 64 (threshold_override p) -> in_width 64 (lp1_bound p) ->
  in_width 64 (poly_range_start p) -> in_width 64 (poly_range_count p) -> in_width 64 (target_relations p) ->
  match snap with Some s => snapshot_ok s | None => True end ->
  exists buf,
    serializeWorkAssign fd p snap = Some (buf, zlen buf) /\
    deserializeWorkAssign buf fd0 p0 h0 (Some s0)
    = Some (mkFData (fd_N fd) (fd_factorBase fd0) (fd_rootN fd0) (fd_a_factors fd0) (fd_M fd) (fd_F fd)
              (wrap 32 (zlen (fd_factorBase fd))),
            p, computeFactorBaseHash (fd_factorBase fd) (fd_rootN fd),
            Some match snap with Some s => received_snapshot s s0 | None => s0 end).
Proof.
  intros HN HM HF HB HT HL HS HC HR Hs.
  set (h := computeFactorBaseHash (fd_factorBase fd) (fd_rootN fd)).
  assert (in_width 64 h) as Hh by (unfold h, computeFactorBaseHash; repeat apply fnv_mix_width; by compute).
  set (tl := match snap with Some s => snapshot_bytes s | None => [] end).
  set (wire := le 64 (fd_N fd) ++ le 4 (wrap 32 (zlen (fd_factorBase fd))) ++ le 4 (fd_M fd) ++ le 4 (fd_F fd) ++
      le 4 (sieve_batch_size p) ++ le 1 (wrap 8 (zlen (fd_a_factors fd))) ++ [0; 0; 0] ++
      le 8 (threshold_override p) ++ le 8 (lp1_bound p) ++ le 8 (poly_range_start p) ++
      le 8 (poly_range_count p) ++ le 8 (target_relations p) ++ le 8 h ++ tl).
  assert (zlen wire = 132 + zlen tl) as Hlen by (subst wire; rewrite !zlen_app, !zlen_le; change (zlen [0; 0; 0]) with 3; lia).
  pose proof (zlen_nonneg tl).
  exists wire. split.
  - assert (exists srcs, serializeWorkAssign fd p snap
                         = writes (map Some srcs) (replicate (Z.to_nat (132 + zlen tl)) 0, 0) /\ concat srcs = wire)
      as (srcs & -> & <-).
    { unfold serializeWorkAssign. fold h. subst wire tl. destruct snap as [s|].
      - destruct Hs as [Ed Wd _ _ _]. unfold snapshot_bytes.
        replace (zlen (le 4 (shc_dim s) ++ arr_bytes 4 (a_factors s) ++ le 4 (lowerHalfStart s) ++ le 4 (upperHalfStart s)))
          with (4 + shc_dim s * 4 + 2 * 4) by (rewrite !zlen_app, zlen_arr_bytes, !zlen_le, Ed; lia).
        eexists ([_; _; _; _; _; _; _; _; _; _; _; _; _] ++ [_] ++
                 (if 0 <? shc_dim s then [arr_bytes 4 (a_factors s)] else []) ++ [_; _]).
        split.
        + rewrite !map_app.
          replace (if 0 <? shc_dim s then [mem_bytes 4 (a_factors s) (shc_dim s)] else [])
            with (map Some (if 0 <? shc_dim s then [arr_bytes 4 (a_factors s)] else [])); [reflexivity|].
          destruct (0 <? shc_dim s); [|done]. cbn. by rewrite Ed, mem_bytes_prefix.
        + rewrite !concat_app. cbn [concat]. rewrite !app_nil_r, <- !app_assoc. do 14 f_equal.
          destruct (Z.ltb_spec 0 (shc_dim s)); cbn [concat]; rewrite ?app_nil_r; [done|].
          destruct (a_factors s); [done|]. unfold zlen in *. cbn in *. lia.
      - eexists [_; _; _; _; _; _; _; _; _; _; _; _; _]. split; [reflexivity|]. done. }
    apply writes_exact. unfold zlen in *. lia.
  - unfold deserializeWorkAssign. destruct (Z.ltb_spec (zlen wire) 132); [lia|].
    pose proof (at_pos_reader wire) as A. unfold wire in A at 2. set (r := reader wire) in *. clearbody r.
    destruct (readInt_at _ _ _ _ (fd_N fd0) _ A) as (r1 & -> & A1).
    destruct (readInt_at _ _ _ _ 0 _ A1) as (r2 & -> & A2).
    destruct (readInt_at _ _ _ _ (fd_M fd0) _ A2) as (r3 & -> & A3).
    destruct (readInt_at _ _ _ _ (fd_F fd0) _ A3) as (r4 & -> & A4).
    destruct (readInt_at _ _ _ _ (sieve_batch_size p0) _ A4) as (r5 & -> & A5).
    destruct (readInt_at _ _ _ _ 0 _ A5) as (r6 & -> & A6).
    pose proof (skip_at _ _ [0; 0; 0] _ 3 A6 eq_refl) as A7.
    destruct (readInt_at _ _ _ _ (threshold_override p0) _ A7) as (r8 & -> & A8).
    destruct (readInt_at _ _ _ _ (lp1_bound p0) _ A8) as (r9 & -> & A9).
    destruct (readInt_at _ _ _ _ (poly_range_start p0) _ A9) as (r10 & -> & A10).
    destruct (readInt_at _ _ _ _ (poly_range_count p0) _ A10) as (r11 & -> & A11).
    destruct (readInt_at _ _ _ _ (target_relations p0) _ A11) as (r12 & -> & A12).
    rewrite (proj2 (proj2 (proj2 A12))). cbn [negb].
    destruct (readInt_at _ _ _ _ h0 _ A12) as (r13 & -> & A13).
    rewrite (proj2 (proj2 (proj2 A13))). cbn [negb].
    change (8 * Z.of_nat 4) with 32. change (8 * Z.of_nat 8) with 64. change (8 * Z.of_nat 64) with 512.
    rewrite wrap_wrap, (wrap_small 512 (fd_N fd)), (wrap_small 32 (fd_M fd)), (wrap_small 32 (fd_F fd)),
      (wrap_small 32 (sieve_batch_size p)), !(wrap_small 64) by done.
    assert ((if pos r13 <? total r13 then Some (readSnapshot s0 r13) else Some s0)
            = Some match snap with Some s => received_snapshot s s0 | None => s0 end) as ->; [|by destruct p].
    destruct (proj2 A13) as (-> & -> & _). rewrite (zlen_app _ tl). subst tl. clear - A13 Hs.
    destruct snap as [s|]; match goal with |- context [?a <? ?b] => destruct (Z.ltb_spec a b) end; try done.
    + f_equal. by eapply readSnapshot_at.
    + exfalso. unfold snapshot_bytes in *. rewrite !(zlen_app (le 4 (shc_dim s))), zlen_le in *.
      pose proof (zlen_nonneg (arr_bytes 4 (a_factors s) ++ le 4 (lowerHalfStart s) ++ le 4 (upperHalfStart s))). lia.
Qed.

Lemma workassign_roundtrip_witness :
  exists buf, serializeWorkAssign (mkFData 1000003 [2; 3] [1; 1] [0] 65536 100 2) (mkParams 7 8 9 10 11 12)
                (Some (mkSnap [4; 6] 1 2 2)) = Some (buf, zlen buf) /\
    deserializeWorkAssign buf (mkFData 0 [] [] [] 0 0 0) (mkParams 0 0 0 0 0 0) 0 (Some (mkSnap [] 0 0 0))
    = Some (mkFData 1000003 [] [] [] 65536 100 2, mkParams 7 8 9 10 11 12, computeFactorBaseHash [2; 3] [1; 1],
            Some (mkSnap [4; 6] 1 2 2)).
Proof.
  refine (workassign_roundtrip (mkFData 1000003 [2; 3] [1; 1] [0] 65536 100 2) (mkParams 7 8 9 10 11 12)
            (Some (mkSnap [4; 6] 1 2 2)) (mkFData 0 [] [] [] 0 0 0) (mkParams 0 0 0 0 0 0) 0 (mkSnap [] 0 0 0)
            _ _ _ _ _ _ _ _ _ _); try (split; cbn; lia).
  constructor; cbn; unfold in_width; repeat constructor; lia.
Defined.

(** The factor base fingerprint separates any two factor bases of the same size
    whose serialized bytes differ in a single byte. *)
Theorem computeFactorBaseHash_one_byte fb1 rt1 fb2 rt2 pre x y post :
  length fb1 = length fb2 ->
  arr_bytes 4 fb1 ++ arr_bytes 4 rt1 = pre ++ x :: post -> arr_bytes 4 fb2 ++ arr_bytes 4 rt2 = pre ++ y :: post ->
  x <> y -> computeFactorBaseHash fb1 rt1 <> computeFactorBaseHash fb2 rt2.
Proof.
  intros Hl E1 E2 Hne. unfold computeFactorBaseHash. rewrite <- !fnv_mix_app, E1, E2. unfold zlen. rewrite Hl.
  assert (digits_ok 8 (pre ++ x :: post)) as D1 by (rewrite <- E1; apply Forall_app; split; apply arr_bytes_ok).
  assert (digits_ok 8 (pre ++ y :: post)) as D2 by (rewrite <- E2; apply Forall_app; split; apply arr_bytes_ok).
  apply Forall_app in D1 as [_ D1], D2 as [_ D2]. inversion_clear D1. inversion_clear D2.
  intros E. rewrite !(app_assoc (le 4 _) pre) in E. apply fnv_one_byte in E; [done|by compute|done..].
Qed.

Lemma computeFactorBaseHash_one_byte_witness :
  computeFactorBaseHash [2; 3; 7] [1; 1; 2] <> computeFactorBaseHash [2; 3; 11] [1; 1; 2].
Proof.
  refine (computeFactorBaseHash_one_byte [2; 3; 7] [1; 1; 2] [2; 3; 11] [1; 1; 2] [2; 0; 0; 0; 3; 0; 0; 0] 7 11
            [0; 0; 0; 1; 0; 0; 0; 1; 0; 0; 0; 2; 0; 0; 0] eq_refl eq_refl eq_refl _).
  discriminate.
Defined.

(** A malformed inner batch (here: cut short) is not reported by
    [deserializeIncrementalBatch], and the batch it leaves announces relations that
    were not received. *)
Lemma incremental_malformed_accepted :
  let inner := take 20 (wire_batch (relations demo_batch)) in
  let buf := le 4 20 ++ inner ++ le 4 20 ++ inner in
  (deserializeIncrementalBatch buf batch_empty batch_empty).1.1 = true /\
  num_relations (deserializeIncrementalBatch buf batch_empty batch_empty).2 = 2 /\
  (deserializeRelationBatch inner batch_empty).1 = 0.
Proof. vm_compute. done. Qed.
