(* ===== verification/Accumulator.v ===== *)
(** The coordinator's relation accumulator ([src/src/cluster/accumulator.h]): the
    multi-producer queue, incremental deduplication with per-source counts, and
    the hand-off of the final batch.

    The queue's and the hand-off's methods hold their mutex for the whole body, so
    a method is one atomic step; the accumulator belongs to one thread. *)
From Stdlib Require Import ZArith Lia.
From stdpp Require Import base gmap sets list.
From S2P Require Import Prelude Doubles Soa.
#[local] Open Scope Z_scope.

(** ** The accumulator *)

Record RelationAccumulator := mkAcc {
  target_ : Z;
  effective_target_ : Z;
  accumulated_ : HostRelationBatch;
  seen_ : gset Z;
  per_source_ : gmap Z Z
}.

(** The constructor pushes the CSR sentinel; the default margin is 1.05. *)
Definition RelationAccumulator_init (target : Z) (dedup_margin : double) : RelationAccumulator :=
  mkAcc target (d_ceil (d_mul (d_of_Z target) dedup_margin))
    (mkBatch [] [] [] [] [] [0] [] [] 0 0) ∅ ∅.

Definition default_margin : double := d_lit 105 100.

(** [for (f = fstart; f < fend; f++)], [n] rounds left. *)
Fixpoint append_factors (src : HostRelationBatch) (f : Z) (n : nat) (fi fc : list Z) : list Z * list Z :=
  match n with
  | O => (fi, fc)
  | S n' => append_factors src (f + 1) n' (fi ++ [idx (factor_indices src) f]) (fc ++ [idx (factor_counts src) f])
  end.

Definition appendSingleRelation (dest src : HostRelationBatch) (i : Z) : HostRelationBatch :=
  let fstart := idx (factor_offsets src) i in
  let fend := idx (factor_offsets src) (i + 1) in
  let '(fi, fc) := append_factors src fstart (Z.to_nat (fend - fstart)) (factor_indices dest) (factor_counts dest) in
  let nf := wrap 64 (num_factors dest + wrap 64 (fend - fstart)) in
  mkBatch (sqrt_Q dest ++ [idx (sqrt_Q src) i]) (signs dest ++ [idx (signs src) i])
    (val_2_exps dest ++ [idx (val_2_exps src) i]) (large_primes dest ++ [idx (large_primes src) i])
    (char_bits dest ++ [if i <? Z.of_nat (length (char_bits src)) then idx (char_bits src) i else 0])
    (factor_offsets dest ++ [nf]) fi fc (wrap 64 (num_relations dest + 1)) nf.

(** The body of the loop of [addRelations]. *)
Definition add_one (batch : HostRelationBatch) (source_id : Z) (a : RelationAccumulator) (i : Z) : RelationAccumulator :=
  let hash := computeRelationHash batch i in
  if decide (hash ∈ seen_ a) then a
  else mkAcc (target_ a) (effective_target_ a) (appendSingleRelation (accumulated_ a) batch i)
         ({[hash]} ∪ seen_ a)
         (<[source_id := wrap 64 (default 0 (per_source_ a !! source_id) + 1)]> (per_source_ a)).

Definition addRelations (a : RelationAccumulator) (batch : HostRelationBatch) (source_id : Z) : RelationAccumulator :=
  foldl (add_one batch source_id) a (map Z.of_nat (seq 0 (Z.to_nat (num_relations batch)))).

Definition addLPRelations (a : RelationAccumulator) (batch : HostRelationBatch) : RelationAccumulator :=
  addRelations a batch 255.

Definition totalRelations (a : RelationAccumulator) : Z := num_relations (accumulated_ a).

Definition targetReached (a : RelationAccumulator) : bool :=
  effective_target_ a <=? num_relations (accumulated_ a).

Definition relationsFrom (a : RelationAccumulator) (source_id : Z) : Z :=
  default 0 (per_source_ a !! source_id).

Definition extractFinal (a : RelationAccumulator) : HostRelationBatch * RelationAccumulator :=
  (accumulated_ a,
   mkAcc (target_ a) (effective_target_ a) (moved_from (accumulated_ a)) (seen_ a) (per_source_ a)).

Definition peek (a : RelationAccumulator) : HostRelationBatch := accumulated_ a.
Definition effectiveTarget (a : RelationAccumulator) : Z := effective_target_ a.
Definition rawTarget (a : RelationAccumulator) : Z := target_ a.

(** ** The queue *)

Record AccumulatorQueue := mkQueue {
  local_relations_ : list HostRelationBatch;
  local_partials_ : list HostRelationBatch;
  remote_relations_ : list (Z * HostRelationBatch);
  remote_partials_ : list (Z * HostRelationBatch);
  sieve_done_ : bool
}.

Definition queue_init : AccumulatorQueue := mkQueue [] [] [] [] false.

Definition pushRelations (q : AccumulatorQueue) (b : HostRelationBatch) : AccumulatorQueue :=
  mkQueue (local_relations_ q ++ [b]) (local_partials_ q) (remote_relations_ q) (remote_partials_ q) (sieve_done_ q).
Definition pushPartials (q : AccumulatorQueue) (b : HostRelationBatch) : AccumulatorQueue :=
  mkQueue (local_relations_ q) (local_partials_ q ++ [b]) (remote_relations_ q) (remote_partials_ q) (sieve_done_ q).
Definition pushRemoteRelations (q : AccumulatorQueue) (b : HostRelationBatch) (w : Z) : AccumulatorQueue :=
  mkQueue (local_relations_ q) (local_partials_ q) (remote_relations_ q ++ [(w, b)]) (remote_partials_ q) (sieve_done_ q).
Definition pushRemotePartials (q : AccumulatorQueue) (b : HostRelationBatch) (w : Z) : AccumulatorQueue :=
  mkQueue (local_relations_ q) (local_partials_ q) (remote_relations_ q) (remote_partials_ q ++ [(w, b)]) (sieve_done_ q).
Definition signalSieveDone (q : AccumulatorQueue) : AccumulatorQueue :=
  mkQueue (local_relations_ q) (local_partials_ q) (remote_relations_ q) (remote_partials_ q) true.

Definition isSieveDone (q : AccumulatorQueue) : bool := sieve_done_ q.

Record DrainResult := mkDrain {
  dr_local_relations : list HostRelationBatch;
  dr_local_partials : list HostRelationBatch;
  dr_remote_relations : list (Z * HostRelationBatch);
  dr_remote_partials : list (Z * HostRelationBatch)
}.

Definition drain_empty (d : DrainResult) : bool :=
  match d with mkDrain [] [] [] [] => true | _ => false end.

(** Each vector is swapped with an empty one. *)
Definition drain (q : AccumulatorQueue) : DrainResult * AccumulatorQueue :=
  (mkDrain (local_relations_ q) (local_partials_ q) (remote_relations_ q) (remote_partials_ q),
   mkQueue [] [] [] [] (sieve_done_ q)).

(** ** The hand-off *)

(** [std::optional<HostRelationBatch>]. *)
Definition Handoff : Type := option HostRelationBatch.

Definition deliver (h : Handoff) (b : HostRelationBatch) : Handoff := Some b.

(** [None]: the caller stays blocked. Moving out of the optional leaves it engaged. *)
Definition await (h : Handoff) : option (HostRelationBatch * Handoff) :=
  match h with
  | None => None
  | Some b => Some (b, Some (moved_from b))
  end.

(** ** Vocabulary of the specifications *)

(** What deduplication keeps of a list of relations. *)
Fixpoint dedup (seen : gset Z) (rs : list relation) : list relation :=
  match rs with
  | [] => []
  | r :: rs' => if decide (rel_hash r ∈ seen) then dedup seen rs'
                else r :: dedup ({[rel_hash r]} ∪ seen) rs'
  end.

(** Ingesting a sequence of batches. *)
Definition ingest (a : RelationAccumulator) (l : list (HostRelationBatch * Z)) : RelationAccumulator :=
  foldl (fun a b => addRelations a b.1 b.2) a l.

(** Operations on the queue, the relations each pushes, and what drains returned. *)
Inductive queue_op :=
  | QPush (b : HostRelationBatch)
  | QPushPartials (b : HostRelationBatch)
  | QPushRemote (b : HostRelationBatch) (w : Z)
  | QPushRemotePartials (b : HostRelationBatch) (w : Z)
  | QDone
  | QDrain.

Definition queue_step (s : AccumulatorQueue * list DrainResult) (o : queue_op) : AccumulatorQueue * list DrainResult :=
  let '(q, ds) := s in
  match o with
  | QPush b => (pushRelations q b, ds)
  | QPushPartials b => (pushPartials q b, ds)
  | QPushRemote b w => (pushRemoteRelations q b w, ds)
  | QPushRemotePartials b w => (pushRemotePartials q b w, ds)
  | QDone => (signalSieveDone q, ds)
  | QDrain => let '(d, q') := drain q in (q', ds ++ [d])
  end.

(** ** Vocabulary of the specifications *)

(** Sum of the per-source counters. *)
Definition source_total (m : gmap Z Z) : Z := map_fold (fun _ v acc => v + acc) 0 m.

(** The invariant that ties the accumulator to the relations it holds. *)
Record acc_inv (a : RelationAccumulator) (rs : list relation) : Prop := mkInv {
  ai_batch : accumulated_ a = batch_of rs;
  ai_seen : seen_ a = list_to_set (map rel_hash rs);
  ai_nonneg : map_Forall (fun _ v => 0 <= v) (per_source_ a);
  ai_sources : source_total (per_source_ a) = Z.of_nat (length rs)
}.

(** ** Lemmas *)

Lemma append_factors_spec src f n fi fc :
  append_factors src f n fi fc
  = (fi ++ map (fun k => idx (factor_indices src) (f + Z.of_nat k)) (seq 0 n),
     fc ++ map (fun k => idx (factor_counts src) (f + Z.of_nat k)) (seq 0 n)).
Proof.
  revert f fi fc. induction n as [|n IH]; intros f fi fc; cbn [append_factors seq map].
  { by rewrite !app_nil_r. }
  rewrite IH, <- !app_assoc, Z.add_0_r. cbn [app]. rewrite <- seq_shift, !map_map.
  f_equal; do 2 f_equal; apply map_ext; intros k; f_equal; lia.
Qed.

Lemma slice_as_map (l : list Z) o n :
  0 <= o -> o + Z.of_nat n <= Z.of_nat (length l) ->
  map (fun k => idx l (o + Z.of_nat k)) (seq 0 n) = slice l o (o + Z.of_nat n).
Proof.
  intros Ho Hl. unfold slice. replace (Z.to_nat (o + Z.of_nat n - o)) with n by lia.
  apply (nth_ext _ _ 0 0).
  { rewrite length_map, length_seq, length_take, length_drop. lia. }
  intros k Hk. rewrite length_map, length_seq in Hk.
  rewrite (nth_indep _ 0 (idx l (o + Z.of_nat 0))) by (by rewrite length_map, length_seq).
  rewrite (map_nth (fun k => idx l (o + Z.of_nat k))), seq_nth by done.
  rewrite nth_firstn. destruct (Nat.ltb_spec k n); [|lia].
  unfold idx. rewrite nth_skipn. f_equal. lia.
Qed.

(** Appending a represented relation. *)
Lemma appendSingleRelation_spec rs src ss i r :
  repr src ss -> ss !! i = Some r ->
  Z.of_nat (length rs) + 1 < 2 ^ 64 ->
  Z.of_nat (length (all_factors rs)) + Z.of_nat (length (r_factors r)) < 2 ^ 64 ->
  appendSingleRelation (batch_of rs) src (Z.of_nat i) = batch_of (rs ++ [r]).
Proof.
  intros H Hi Hn Hf. pose proof (lookup_lt_Some _ _ _ Hi) as Hlt. unfold appendSingleRelation.
  pose proof (all_factors_take_S ss i r Hi) as ES. pose proof (all_factors_take_le ss (S i)) as Hle.
  assert (idx (factor_offsets src) (Z.of_nat i + 1)
          = idx (factor_offsets src) (Z.of_nat i) + Z.of_nat (length (r_factors r))) as Eo.
  { replace (Z.of_nat i + 1) with (Z.of_nat (S i)) by lia. rewrite !(repr_offset src ss) by (done || lia). lia. }
  rewrite Eo. set (o := idx (factor_offsets src) (Z.of_nat i)) in *.
  assert (o = Z.of_nat (length (all_factors (take i ss)))) as Eo' by (apply repr_offset; [done|lia]).
  replace (Z.to_nat (o + Z.of_nat (length (r_factors r)) - o)) with (length (r_factors r)) by lia.
  replace (o + Z.of_nat (length (r_factors r)) - o) with (Z.of_nat (length (r_factors r))) by lia.
  rewrite append_factors_spec.
  assert (forall (g : Z * Z -> Z) l, map g (all_factors ss) `prefix_of` l ->
    map (fun k => idx l (o + Z.of_nat k)) (seq 0 (length (r_factors r))) = map g (r_factors r)) as Hg.
  { intros g l Hp. pose proof (prefix_length_le _ _ Hp) as L. rewrite length_map in L.
    rewrite slice_as_map by lia. rewrite (prefix_slice _ _ _ _ Hp) by (rewrite ?length_map; lia).
    unfold slice. replace (Z.to_nat _) with (length (r_factors r)) by lia.
    rewrite <- fmap_drop, <- fmap_take. rewrite Eo', Nat2Z.id. by rewrite (all_factors_slice ss i r Hi). }
  rewrite (Hg fst _ (repr_indices src ss H)), (Hg snd _ (repr_counts src ss H)). clear Hg.
  assert ((Z.of_nat i <? Z.of_nat (length (char_bits src))) = true) as ->.
  { apply Z.ltb_lt. pose proof (prefix_length_le _ _ (repr_char src ss H)) as L. rewrite length_map in L. lia. }
  rewrite (idx_map_prefix _ ss _ i r (repr_sqrt_Q src ss H) Hi), (idx_map_prefix _ ss _ i r (repr_signs src ss H) Hi),
    (idx_map_prefix _ ss _ i r (repr_val2 src ss H) Hi), (idx_map_prefix _ ss _ i r (repr_lp src ss H) Hi),
    (idx_map_prefix _ ss _ i r (repr_char src ss H) Hi).
  unfold batch_of. cbn [sqrt_Q signs val_2_exps large_primes char_bits factor_offsets factor_indices factor_counts
                        num_relations num_factors].
  rewrite !map_app. cbn [map]. rewrite offsets_from_snoc, all_factors_app, !map_app, !length_app, !Nat2Z.inj_add.
  rewrite (wrap_small 64 (Z.of_nat (length (r_factors r)))) by (split; lia).
  rewrite !(wrap_small 64) by (split; lia).
  cbn [map all_factors concat length]. rewrite app_nil_r. fold (all_factors rs). f_equal; try lia.
Qed.

Lemma dedup_app seen rs1 rs2 :
  dedup seen (rs1 ++ rs2) = dedup seen rs1 ++ dedup (list_to_set (map rel_hash rs1) ∪ seen) rs2.
Proof.
  revert seen. induction rs1 as [|r rs1 IH]; intros seen; cbn [app dedup map list_to_set].
  { by rewrite union_empty_l_L. }
  destruct (decide (rel_hash r ∈ seen)).
  - rewrite IH. do 2 f_equal. apply set_eq. intros h. rewrite !elem_of_union, elem_of_singleton. naive_solver.
  - cbn [app]. rewrite IH. do 3 f_equal. apply set_eq. intros h. rewrite !elem_of_union. tauto.
Qed.

Lemma dedup_sublist seen rs : dedup seen rs `sublist_of` rs.
Proof.
  revert seen. induction rs as [|r rs IH]; intros seen; cbn; [constructor|].
  destruct (decide _); by constructor.
Qed.

Lemma all_factors_sublist l1 l2 : l1 `sublist_of` l2 -> (length (all_factors l1) <= length (all_factors l2))%nat.
Proof. induction 1; rewrite ?all_factors_cons, ?length_app; lia. Qed.

Lemma dedup_hashes seen rs h :
  h ∈ map rel_hash (dedup seen rs) <-> h ∈ map rel_hash rs /\ h ∉ seen.
Proof.
  revert seen. induction rs as [|r rs IH]; intros seen; cbn [dedup map]; [rewrite elem_of_nil; tauto|].
  destruct (decide (rel_hash r ∈ seen)).
  - rewrite IH, elem_of_cons. split; [tauto|]. intros [[->|?] ?]; [done|tauto].
  - cbn [map]. rewrite !elem_of_cons, IH, not_elem_of_union, not_elem_of_singleton.
    destruct (decide (h = rel_hash r)) as [->|]; tauto.
Qed.

Lemma dedup_NoDup seen rs : NoDup (map rel_hash (dedup seen rs)).
Proof.
  revert seen. induction rs as [|r rs IH]; intros seen; cbn [dedup map]; [constructor|].
  destruct (decide (rel_hash r ∈ seen)); [apply IH|]. cbn [map]. constructor; [|apply IH].
  rewrite dedup_hashes, not_elem_of_union, not_elem_of_singleton. tauto.
Qed.

Lemma source_total_insert m k v :
  source_total (<[k := v]> m) = source_total m - default 0 (m !! k) + v.
Proof.
  assert (forall m' v', m' !! k = None -> source_total (<[k := v']> m') = v' + source_total m') as Hi.
  { intros m' v' Hk. unfold source_total. apply map_fold_insert_L; [intros; lia|done]. }
  destruct (m !! k) as [x|] eqn:E; cbn [default].
  - rewrite <- (insert_delete_id m k x E) at 2. rewrite <- insert_delete_eq, !Hi by apply lookup_delete_eq. cbn. lia.
  - rewrite Hi by done. cbn. lia.
Qed.

Lemma source_total_nonneg m :
  map_Forall (fun _ v => 0 <= v) m -> 0 <= source_total m /\ map_Forall (fun _ v => v <= source_total m) m.
Proof.
  unfold source_total. induction m as [|k x m Hk IH] using map_ind; intros Hm.
  { rewrite map_fold_empty. split; [done|]. apply map_Forall_empty. }
  apply map_Forall_insert in Hm as [Hx Hm]; [|done]. destruct (IH Hm) as [H0 Hle].
  rewrite map_fold_insert_L; [|lia|done]. split; [lia|]. apply map_Forall_insert; [done|].
  split; [lia|]. eapply map_Forall_impl; [exact Hle|]. cbn. lia.
Qed.

Lemma add_one_spec a rs batch ss i r src :
  acc_inv a rs -> repr batch ss -> ss !! i = Some r ->
  Z.of_nat (length rs) + 1 < 2 ^ 64 ->
  Z.of_nat (length (all_factors rs)) + Z.of_nat (length (r_factors r)) < 2 ^ 64 ->
  acc_inv (add_one batch src a (Z.of_nat i)) (rs ++ dedup (list_to_set (map rel_hash rs)) [r]).
Proof.
  intros [Hb Hs Hp Ht] H Hi Hn Hf. unfold add_one. rewrite (computeRelationHash_rel batch ss i r H Hi), Hs.
  cbn [dedup]. destruct (decide (rel_hash r ∈ _)) as [|Hnew].
  { rewrite app_nil_r. by constructor. }
  pose proof (source_total_nonneg _ Hp) as [H0 Hle]. rewrite Ht in *.
  set (c := default 0 (per_source_ a !! src)).
  assert (0 <= c <= Z.of_nat (length rs)) as Hc.
  { subst c. destruct (per_source_ a !! src) as [v|] eqn:E; cbn; [|lia].
    split; [exact (Hp _ _ E)|exact (Hle _ _ E)]. }
  rewrite wrap_small by (split; lia). constructor; cbn.
  - rewrite Hb. by apply appendSingleRelation_spec with ss.
  - rewrite map_app, list_to_set_app_L. cbn. rewrite union_empty_r_L. apply union_comm_L.
  - apply map_Forall_insert_2; [lia|done].
  - rewrite source_total_insert, Ht. fold c. rewrite length_app. cbn. lia.
Qed.

Lemma addRelations_spec a rs batch ss src :
  acc_inv a rs -> repr batch ss ->
  Z.of_nat (length rs) + Z.of_nat (length ss) < 2 ^ 64 ->
  Z.of_nat (length (all_factors rs)) + Z.of_nat (length (all_factors ss)) < 2 ^ 64 ->
  acc_inv (addRelations a batch src) (rs ++ dedup (list_to_set (map rel_hash rs)) ss).
Proof.
  intros Ha H Hn Hf. unfold addRelations. rewrite (repr_num_relations batch ss H), Nat2Z.id.
  assert (forall n, (n <= length ss)%nat ->
    acc_inv (foldl (add_one batch src) a (map Z.of_nat (seq 0 n)))
            (rs ++ dedup (list_to_set (map rel_hash rs)) (take n ss))) as Hk.
  2: { specialize (Hk (length ss) ltac:(lia)). by rewrite take_ge in Hk by lia. }
  induction n as [|n IH]; intros Hlen.
  { rewrite take_0. cbn. by rewrite app_nil_r. }
  destruct (lookup_lt_is_Some_2 ss n) as [r Hr]; [lia|]. specialize (IH ltac:(lia)).
  rewrite seq_S, map_app, foldl_app, (take_S_r _ _ r Hr), dedup_app, app_assoc. cbn [foldl map Nat.add].
  set (kept := dedup (list_to_set (map rel_hash rs)) (take n ss)) in *.
  assert (list_to_set (map rel_hash (take n ss)) ∪ list_to_set (map rel_hash rs)
          =@{gset Z} list_to_set (map rel_hash (rs ++ kept))) as ->.
  { apply set_eq. intros h. rewrite map_app, elem_of_union, !elem_of_list_to_set, elem_of_app. subst kept.
    rewrite dedup_hashes, elem_of_list_to_set. destruct (decide (h ∈ map rel_hash rs)); tauto. }
  assert (length kept <= n /\ length (all_factors kept) <= length (all_factors (take n ss)))%nat as [Hk1 Hk2].
  { pose proof (dedup_sublist (list_to_set (map rel_hash rs)) (take n ss)) as Hsub. fold kept in Hsub.
    split; [apply sublist_length in Hsub; rewrite length_take in Hsub; lia | by apply all_factors_sublist]. }
  pose proof (all_factors_take_S ss n r Hr). pose proof (all_factors_take_le ss (S n)).
  apply add_one_spec with ss; [done..| |]; rewrite ?all_factors_app, length_app; lia.
Qed.

Lemma acc_init_inv t m : acc_inv (RelationAccumulator_init t m) [].
Proof. by constructor. Qed.

Lemma ingest_spec a rs l ss :
  acc_inv a rs -> Forall2 (fun b s => repr b.1 s) l ss ->
  Z.of_nat (length rs) + Z.of_nat (length (concat ss)) < 2 ^ 64 ->
  Z.of_nat (length (all_factors rs)) + Z.of_nat (length (all_factors (concat ss))) < 2 ^ 64 ->
  acc_inv (ingest a l) (rs ++ dedup (list_to_set (map rel_hash rs)) (concat ss)).
Proof.
  intros Ha Hl. revert a rs Ha. induction Hl as [|[b w] s l ss Hb _ IH]; intros a rs Ha Hn Hf; cbn [ingest foldl concat] in *.
  { cbn. by rewrite app_nil_r. }
  rewrite all_factors_app, !length_app in *. rewrite dedup_app, app_assoc.
  set (kept := dedup (list_to_set (map rel_hash rs)) s) in *.
  assert (list_to_set (map rel_hash s) ∪ list_to_set (map rel_hash rs)
          =@{gset Z} list_to_set (map rel_hash (rs ++ kept))) as ->.
  { apply set_eq. intros h. rewrite map_app, elem_of_union, !elem_of_list_to_set, elem_of_app. subst kept.
    rewrite dedup_hashes, elem_of_list_to_set. destruct (decide (h ∈ map rel_hash rs)); tauto. }
  pose proof (dedup_sublist (list_to_set (map rel_hash rs)) s) as Hsub. fold kept in Hsub.
  assert (length kept <= length s /\ length (all_factors kept) <= length (all_factors s))%nat as [Hk1 Hk2].
  { split; [by apply sublist_length | by apply all_factors_sublist]. }
  apply IH.
  - apply addRelations_spec; [done|done|lia|lia].
  - rewrite length_app. lia.
  - rewrite all_factors_app, length_app. lia.
Qed.

Lemma size_hash_set (rs : list relation) :
  NoDup (map rel_hash rs) -> size (list_to_set (map rel_hash rs) : gset Z) = length rs.
Proof. intros Hn. by rewrite size_list_to_set, length_map. Qed.

(** ** The properties *)

(** Ingesting any sequence of batches keeps, as a tight CSR batch, the first
    relation of every dedup hash and no other: no hash is kept twice, every ingested
    relation has a kept one with its hash, the total is the number of distinct
    hashes, and the per-source counts add up to it. *)
Theorem accumulator_dedup target margin l ss :
  Forall2 (fun b s => repr b.1 s) l ss ->
  Z.of_nat (length (concat ss)) < 2 ^ 64 -> Z.of_nat (length (all_factors (concat ss))) < 2 ^ 64 ->
  let a := ingest (RelationAccumulator_init target margin) l in
  let kept := dedup ∅ (concat ss) in
  peek a = batch_of kept /\ kept `sublist_of` concat ss /\ NoDup (map rel_hash kept) /\
  (forall r, r ∈ concat ss -> exists r', r' ∈ kept /\ rel_hash r' = rel_hash r) /\
  totalRelations a = Z.of_nat (size (list_to_set (map rel_hash (concat ss)) : gset Z)) /\
  source_total (per_source_ a) = totalRelations a /\
  targetReached a = (effectiveTarget a <=? Z.of_nat (length kept)).
Proof.
  intros Hl Hn Hf a kept.
  destruct (ingest_spec (RelationAccumulator_init target margin) [] l ss (acc_init_inv _ _) Hl) as [Hb Hs _ Ht]; [done..|].
  cbn [app map list_to_set] in Hb, Hs, Ht. fold kept in Hb, Hs, Ht. fold a in Hb, Hs, Ht.
  unfold totalRelations, targetReached, peek. rewrite Hb. cbn [batch_of num_relations].
  assert (list_to_set (map rel_hash (concat ss)) =@{gset Z} list_to_set (map rel_hash kept)) as ->.
  { apply set_eq. intros h. rewrite !elem_of_list_to_set. subst kept. rewrite dedup_hashes.
    split; [|tauto]. intros Hh. split; [done|apply not_elem_of_empty]. }
  split_and!; [done|apply dedup_sublist|apply dedup_NoDup| | |done|done].
  - intros r Hr. assert (rel_hash r ∈ map rel_hash kept) as Hh.
    { subst kept. apply dedup_hashes. split; [by apply list_elem_of_fmap_2|apply not_elem_of_empty]. }
    apply list_elem_of_fmap in Hh as (r' & E & Hr'). by exists r'.
  - rewrite size_hash_set by apply dedup_NoDup. done.
Qed.

Lemma accumulator_dedup_witness :
  totalRelations (ingest (RelationAccumulator_init 100 default_margin) [(demo_batch, 0); (demo_batch, 3)]) = 2.
Proof.
  destruct (accumulator_dedup 100 default_margin [(demo_batch, 0); (demo_batch, 3)] [relations demo_batch; relations demo_batch])
    as (_ & _ & _ & _ & H & _).
  - repeat constructor; apply wf_repr, demo_batch_wf.
  - reflexivity.
  - reflexivity.
  - rewrite H. reflexivity.
Defined.

(** Over every interleaving of the producers' pushes and the consumer's drains,
    what the drains returned followed by what is still queued is what was pushed, in
    order and exactly once, for each of the four kinds; drains keep the done flag. *)
Theorem queue_exactly_once ops :
  let '(q, ds) := foldl queue_step (queue_init, []) ops in
  concat (map dr_local_relations ds) ++ local_relations_ q = omap (fun o => if o is QPush b then Some b else None) ops /\
  concat (map dr_local_partials ds) ++ local_partials_ q = omap (fun o => if o is QPushPartials b then Some b else None) ops /\
  concat (map dr_remote_relations ds) ++ remote_relations_ q
  = omap (fun o => if o is QPushRemote b w then Some (w, b) else None) ops /\
  concat (map dr_remote_partials ds) ++ remote_partials_ q
  = omap (fun o => if o is QPushRemotePartials b w then Some (w, b) else None) ops /\
  sieve_done_ q = existsb (fun o => if o is QDone then true else false) ops.
Proof.
  induction ops as [|o ops IH] using rev_ind; [done|].
  rewrite foldl_app. destruct (foldl queue_step (queue_init, []) ops) as [q ds]. destruct IH as (H1 & H2 & H3 & H4 & H5).
  rewrite !omap_app, existsb_app, <- H1, <- H2, <- H3, <- H4, <- H5.
  destruct o; cbn; rewrite ?map_app, ?concat_app; cbn; rewrite ?app_nil_r, ?orb_false_r, ?orb_true_r, ?app_assoc; done.
Qed.

(** [extractFinal] leaves the counters of the moved-from batch behind: the
    accumulator is documented to be empty afterwards, but it still reports the old
    total over empty arrays. *)
Lemma extractFinal_keeps_total a :
  totalRelations (extractFinal a).2 = totalRelations a /\ sqrt_Q (peek (extractFinal a).2) = [].
Proof. done. Qed.
