(* ===== verification/Ring.v ===== *)
(** The lock-free single-producer single-consumer ring of
    [src/src/cluster/spsc_ring.h], as a step relation: every load and store of the
    atomics and every access to a slot is a step of its own, and the producer's and
    the consumer's steps interleave freely. The release store of an index publishes
    the slot accesses before it to the acquire load that reads it, which is what
    the order of steps of one thread stands for. [A] is the element type, [mv] what
    a moved-from element looks like. *)
From Stdlib Require Import ZArith Lia.
From stdpp Require Import base gmap sets list.
From S2P Require Import Prelude.
#[local] Open Scope Z_scope.

(** Where the producer is inside [tryPush(item)]. *)
Inductive prod_pc {A : Type} :=
  | PIdle
  | PTail (t : Z) (item : A)            (* [t] loaded *)
  | PFree (t next : Z) (item : A)       (* [head_] loaded, not full *)
  | PWritten (t next : Z).              (* slot assigned *)
Arguments prod_pc : clear implicits.

(** Where the consumer is inside [tryPop] or [popBatch(out, max_n)]. *)
Inductive cons_pc {A : Type} :=
  | CIdle
  | CPop1 (h : Z)                       (* [tryPop]: head loaded *)
  | CPop2 (h : Z)                       (* tail loaded, not empty *)
  | CPop3 (h : Z) (x : A)               (* slot moved out *)
  | CBat1 (t max_n : Z)                 (* [popBatch]: tail loaded *)
  | CBat2 (t h max_n : Z) (out : list A) (* in the loop, [count] is the length of [out] *)
.
Arguments cons_pc : clear implicits.

Section ring.
Context {A : Type} (dflt : A) (mv : A -> A) (k : Z).

(** [N = 2^k], [mask_ = N - 1]. *)
Definition capacity : Z := 2 ^ k.
Definition mask : Z := capacity - 1.

Record ring := mkRing {
  head_ : Z;
  tail_ : Z;
  slots_ : list A;
  prod : prod_pc A;
  cons : cons_pc A;
  (* history: elements published, elements returned by finished pops *)
  pushed : list A;
  popped : list A
}.

Definition ring_init : ring :=
  mkRing 0 0 (replicate (Z.to_nat capacity) dflt) PIdle CIdle [] [].

Definition slot (r : ring) (i : Z) : A := nth (Z.to_nat i) (slots_ r) dflt.
Definition next_index (i : Z) : Z := Z.land (i + 1) mask.

(** [approxSize]: a 64-bit difference under the mask. *)
Definition approxSize (r : ring) : Z := Z.land (wrap 64 (tail_ r - head_ r)) mask.

Definition set_prod (r : ring) (p : prod_pc A) : ring :=
  mkRing (head_ r) (tail_ r) (slots_ r) p (cons r) (pushed r) (popped r).
Definition set_cons (r : ring) (c : cons_pc A) : ring :=
  mkRing (head_ r) (tail_ r) (slots_ r) (prod r) c (pushed r) (popped r).
Definition set_slot (r : ring) (i : Z) (x : A) : ring :=
  mkRing (head_ r) (tail_ r) (<[Z.to_nat i := x]> (slots_ r)) (prod r) (cons r) (pushed r) (popped r).

(** What a step lets the caller observe: the results of the methods. *)
Inductive event :=
  | Silent
  | PushFull                  (* [tryPush] returned false *)
  | PushDone (x : A)          (* [tryPush] returned true *)
  | PopEmpty                  (* [tryPop] returned false *)
  | PopDone (out : list A).   (* [tryPop]/[popBatch] returned these *)

Inductive step : ring -> event -> ring -> Prop :=
  (* tryPush *)
  | push_load_tail r item :
      prod r = PIdle -> step r Silent (set_prod r (PTail (tail_ r) item))
  | push_full r t item :
      prod r = PTail t item -> next_index t = head_ r -> step r PushFull (set_prod r PIdle)
  | push_free r t item :
      prod r = PTail t item -> next_index t <> head_ r ->
      step r Silent (set_prod r (PFree t (next_index t) item))
  | push_write r t next item :
      prod r = PFree t next item -> step r Silent (set_prod (set_slot r t item) (PWritten t next))
  | push_publish r t next :
      prod r = PWritten t next ->
      step r (PushDone (slot r t))
        (mkRing (head_ r) next (slots_ r) PIdle (cons r) (pushed r ++ [slot r t]) (popped r))
  (* tryPop *)
  | pop_load_head r :
      cons r = CIdle -> step r Silent (set_cons r (CPop1 (head_ r)))
  | pop_empty r h :
      cons r = CPop1 h -> h = tail_ r -> step r PopEmpty (set_cons r CIdle)
  | pop_nonempty r h :
      cons r = CPop1 h -> h <> tail_ r -> step r Silent (set_cons r (CPop2 h))
  | pop_read r h :
      cons r = CPop2 h ->
      step r Silent (set_cons (set_slot r h (mv (slot r h))) (CPop3 h (slot r h)))
  | pop_release r h x :
      cons r = CPop3 h x ->
      step r (PopDone [x])
        (mkRing (next_index h) (tail_ r) (slots_ r) (prod r) CIdle (pushed r) (popped r ++ [x]))
  (* popBatch *)
  | batch_load_tail r max_n :
      cons r = CIdle -> step r Silent (set_cons r (CBat1 (tail_ r) max_n))
  | batch_load_head r t max_n :
      cons r = CBat1 t max_n -> step r Silent (set_cons r (CBat2 t (head_ r) max_n []))
  | batch_read r t h max_n out :
      cons r = CBat2 t h max_n out -> Z.of_nat (length out) < max_n -> h <> t ->
      step r Silent (set_cons (set_slot r h (mv (slot r h))) (CBat2 t (next_index h) max_n (out ++ [slot r h])))
  | batch_release r t h max_n out :
      cons r = CBat2 t h max_n out -> ~ (Z.of_nat (length out) < max_n /\ h <> t) ->
      step r (PopDone out)
        (mkRing (if 0 <? Z.of_nat (length out) then h else head_ r) (tail_ r) (slots_ r) (prod r) CIdle
           (pushed r) (popped r ++ out)).

Inductive reachable : ring -> Prop :=
  | reach_init : reachable ring_init
  | reach_step r e r' : reachable r -> step r e r' -> reachable r'.

(** ** Vocabulary of the specifications *)

(** The queue the ring implements: published and not yet returned. *)
Definition contents (r : ring) : list A := drop (length (popped r)) (pushed r).

(** Elements the consumer has moved out but not released. *)
Definition taken (r : ring) : list A :=
  match cons r with CPop3 _ x => [x] | CBat2 _ _ _ out => out | _ => [] end.

(** Index of the element [j] places behind the head. *)
Definition at_index (r : ring) (j : Z) : Z := (head_ r + j) mod capacity.

Definition prod_ok (r : ring) : Prop :=
  match prod r with
  | PIdle => True
  | PTail t _ => t = tail_ r
  | PFree t next x => t = tail_ r /\ next = (t + 1) mod capacity /\ Z.of_nat (length (contents r)) + 1 < capacity
  | PWritten t next => t = tail_ r /\ next = (t + 1) mod capacity /\ Z.of_nat (length (contents r)) + 1 < capacity
  end.

Definition cons_ok (r : ring) : Prop :=
  match cons r with
  | CIdle => True
  | CPop1 h => h = head_ r
  | CPop2 h => h = head_ r /\ (0 < length (contents r))%nat
  | CPop3 h x => h = head_ r
  | CBat1 t _ => exists n, 0 <= n <= Z.of_nat (length (contents r)) /\ t = at_index r n
  | CBat2 t h _ out =>
      h = at_index r (Z.of_nat (length out)) /\
      exists n, Z.of_nat (length out) <= n <= Z.of_nat (length (contents r)) /\ t = at_index r n
  end.

Record ring_inv (r : ring) : Prop := mkInv {
  inv_slots : length (slots_ r) = Z.to_nat capacity;
  inv_head : 0 <= head_ r < capacity;
  inv_tail : tail_ r = at_index r (Z.of_nat (length (contents r)));
  inv_room : Z.of_nat (length (contents r)) < capacity;
  inv_hist : popped r `prefix_of` pushed r;
  inv_taken : taken r `prefix_of` contents r;
  inv_data : forall j x, (length (taken r) <= j)%nat -> contents r !! j = Some x ->
               slot r (at_index r (Z.of_nat j)) = x;
  inv_prod : prod_ok r;
  inv_cons : cons_ok r
}.

#[local] Arguments contents : simpl never.
#[local] Arguments at_index : simpl never.

Context (Hk : 0 <= k).

(** ** Lemmas *)

Lemma capacity_pos : 0 < capacity.
Proof using Hk. unfold capacity. by apply Z.pow_pos_nonneg. Qed.

Lemma next_index_mod i : next_index i = (i + 1) mod capacity.
Proof using Hk.
  unfold next_index, mask, capacity. rewrite <- Z.land_ones, Z.ones_equiv by done. f_equal.
Qed.

Lemma at_index_range r j : 0 <= at_index r j < capacity.
Proof using Hk. apply Z.mod_pos_bound, capacity_pos. Qed.

Lemma at_index_0 r : ring_inv r -> at_index r 0 = head_ r.
Proof using Hk. intros H. unfold at_index. rewrite Z.add_0_r. apply Z.mod_small, H. Qed.

Lemma at_index_next r j : next_index (at_index r j) = at_index r (j + 1).
Proof using Hk.
  rewrite next_index_mod. unfold at_index. rewrite Zplus_mod_idemp_l. f_equal. lia.
Qed.

Lemma at_index_inj r i j : 0 <= i < capacity -> 0 <= j < capacity -> at_index r i = at_index r j -> i = j.
Proof using Hk.
  intros Hi Hj E. unfold at_index in E. pose proof capacity_pos as Hp.
  pose proof (Z.div_mod (head_ r + i) capacity ltac:(lia)) as E1.
  pose proof (Z.div_mod (head_ r + j) capacity ltac:(lia)) as E2.
  rewrite E in E1. set (q1 := (head_ r + i) / capacity) in *. set (q2 := (head_ r + j) / capacity) in *.
  assert (i - j = capacity * (q1 - q2)) by lia.
  destruct (Z.eq_dec q1 q2) as [->|]; [lia|]. assert (q1 - q2 <= -1 \/ 1 <= q1 - q2) by lia. nia.
Qed.

(** Shifting the head by [n] renumbers the places. *)
Lemma at_index_shift t sl p c pu po r n j :
  at_index (mkRing (at_index r n) t sl p c pu po) j = at_index r (n + j).
Proof using Type.
  unfold at_index. cbn [head_]. rewrite Zplus_mod_idemp_l. f_equal. lia.
Qed.

Lemma slot_set r i j x :
  ring_inv r -> 0 <= i < capacity -> 0 <= j < capacity ->
  nth (Z.to_nat j) (<[Z.to_nat i := x]> (slots_ r)) dflt = if decide (i = j) then x else slot r j.
Proof using Type.
  intros H Hi Hj. rewrite nth_lookup. destruct (decide (i = j)) as [->|Hne].
  - rewrite list_lookup_insert_eq by (rewrite (inv_slots r H); lia). done.
  - rewrite list_lookup_insert_ne by lia. unfold slot. by rewrite nth_lookup.
Qed.

Lemma ring_init_inv : ring_inv ring_init.
Proof using Hk.
  pose proof capacity_pos as Hp. constructor; cbn; try done; try lia.
  - by rewrite length_replicate.
Qed.

(** Steps that only move a program counter. *)
Lemma set_prod_inv r p :
  ring_inv r -> prod_ok (set_prod r p) -> ring_inv (set_prod r p).
Proof using Type. intros [] Hp. by constructor. Qed.

Lemma set_cons_inv r c :
  ring_inv r -> taken (set_cons r c) = taken r -> cons_ok (set_cons r c) -> ring_inv (set_cons r c).
Proof using Type.
  intros [] Ht Hc. constructor; try done.
  - by rewrite Ht.
  - intros j x Hj. apply inv_data0. by rewrite <- Ht.
Qed.

(** The consumer moves out the element after the ones it has taken. *)
Lemma take_one_inv r h c x :
  ring_inv r -> contents r !! length (taken r) = Some x -> h = at_index r (Z.of_nat (length (taken r))) ->
  taken (set_cons (set_slot r h (mv (slot r h))) c) = taken r ++ [x] ->
  cons_ok (set_cons (set_slot r h (mv (slot r h))) c) ->
  slot r h = x /\ ring_inv (set_cons (set_slot r h (mv (slot r h))) c).
Proof using Hk.
  intros H Hx -> Ht Hc. pose proof (inv_data r H _ _ ltac:(done) Hx) as Ex. split; [done|].
  pose proof (lookup_lt_Some _ _ _ Hx) as Hlt.
  constructor; try apply H; try done.
  - cbn. rewrite length_insert. apply H.
  - rewrite Ht. destruct (inv_taken r H) as [l El]. change (contents (set_cons _ c)) with (contents r).
    rewrite El in *. rewrite lookup_app_r, Nat.sub_diag in Hx by done. destruct l as [|y l]; [done|].
    injection Hx as ->. exists l. by rewrite <- app_assoc.
  - intros j y Hj Hy. rewrite Ht, length_app in Hj. cbn in Hj.
    change (at_index (set_cons _ c) (Z.of_nat j)) with (at_index r (Z.of_nat j)).
    change (contents (set_cons _ c)) with (contents r) in Hy. pose proof (lookup_lt_Some _ _ _ Hy).
    unfold slot at 1. cbn [slots_ set_cons set_slot]. rewrite slot_set by (done || apply at_index_range).
    pose proof (inv_room r H). rewrite decide_False; [apply (inv_data r H); [lia|done]|].
    intros E. apply at_index_inj in E; lia.
Qed.

(** The consumer releases what it has taken by storing the head. *)
Lemma release_inv r h :
  ring_inv r -> h = at_index r (Z.of_nat (length (taken r))) ->
  ring_inv (mkRing h (tail_ r) (slots_ r) (prod r) CIdle (pushed r) (popped r ++ taken r)) /\
  contents (mkRing h (tail_ r) (slots_ r) (prod r) CIdle (pushed r) (popped r ++ taken r))
  = drop (length (taken r)) (contents r).
Proof using Hk.
  intros H ->. set (n := length (taken r)). set (r' := mkRing _ _ _ _ _ _ _).
  assert (contents r' = drop n (contents r)) as Ec.
  { unfold contents, r'. cbn. rewrite length_app, drop_drop. done. }
  assert (forall j, at_index r' j = at_index r (Z.of_nat n + j)) as Ei
    by (intros j; apply at_index_shift).
  pose proof (prefix_length _ _ (inv_taken r H)) as Hn. fold n in Hn.
  split; [|done]. constructor; try apply H.
  - apply at_index_range.
  - rewrite Ei, Ec, length_drop. change (tail_ r') with (tail_ r).
    rewrite (inv_tail r H). f_equal. lia.
  - rewrite Ec, length_drop. pose proof (inv_room r H). lia.
  - cbn. destruct (inv_hist r H) as [l El], (inv_taken r H) as [l2 E2]. exists l2.
    unfold contents in E2. rewrite El in E2. rewrite drop_app_length in E2. by rewrite El, E2, app_assoc.
  - apply prefix_nil.
  - intros j x _ Hx. rewrite Ec, lookup_drop in Hx. rewrite Ei, <- Nat2Z.inj_add.
    apply (inv_data r H); [lia|done].
  - pose proof (inv_prod r H) as Hp. unfold prod_ok in *. change (prod r') with (prod r). change (tail_ r') with (tail_ r).
    rewrite Ec, length_drop. destruct (prod r); try done;
      (destruct Hp as (? & ? & ?); split_and!; [done|done|lia]).
  - done.
Qed.

Lemma ring_step_inv r e r' : ring_inv r -> step r e r' -> ring_inv r'.
Proof using Hk.
  intros H Hs. pose proof (inv_cons r H) as Hc. pose proof (inv_prod r H) as Hp.
  pose proof (inv_taken r H) as Ht. unfold cons_ok, prod_ok in Hc, Hp.
  destruct Hs as [r item E|r t item E En|r t item E En|r t next item E|r t next E
                 |r E|r h E Eh|r h E Eh|r h E|r h x E|r mx E|r t mx E|r t h mx out E Hl Hne|r t h mx out E Hl];
    rewrite E in Hp || rewrite E in Hc.
  - by apply set_prod_inv.
  - by apply set_prod_inv.
  - apply set_prod_inv; [done|]. subst t. cbn. split_and!; [done|apply next_index_mod|].
    change (contents (set_prod _ _)) with (contents r). pose proof (inv_room r H).
    destruct (Z.eq_dec (Z.of_nat (length (contents r)) + 1) capacity) as [Ef|]; [exfalso|lia].
    apply En. rewrite (inv_tail r H), at_index_next, Ef. unfold at_index.
    replace (head_ r + capacity) with (head_ r + 1 * capacity) by lia.
    rewrite Z.mod_add by (pose proof capacity_pos; lia). apply Z.mod_small, H.
  - destruct Hp as (-> & -> & Hroom). constructor; try apply H; try done.
    + cbn. rewrite length_insert. apply H.
    + intros j x Hj Hx. change (contents (set_prod _ _)) with (contents r) in Hx.
      pose proof (lookup_lt_Some _ _ _ Hx). unfold slot. cbn [slots_ set_prod set_slot].
      change (at_index (set_prod _ _) (Z.of_nat j)) with (at_index r (Z.of_nat j)).
      rewrite slot_set by (done || apply at_index_range || rewrite (inv_tail r H); apply at_index_range).
      rewrite decide_False; [by apply (inv_data r H)|]. rewrite (inv_tail r H). intros Ei.
      apply at_index_inj in Ei; lia.
  - destruct Hp as (-> & -> & Hroom). set (r' := mkRing _ _ _ _ _ _ _).
    assert (contents r' = contents r ++ [slot r (tail_ r)]) as Ec.
    { unfold contents, r'. cbn. apply drop_app_le. apply prefix_length, H. }
    constructor; try apply H.
    + cbn. rewrite Ec, length_app. cbn. rewrite <- next_index_mod, (inv_tail r H), at_index_next.
      unfold at_index. cbn. f_equal. lia.
    + rewrite Ec, length_app. cbn. lia.
    + cbn. destruct (inv_hist r H) as [l ->]. by exists (l ++ [slot r (tail_ r)]); rewrite app_assoc.
    + rewrite Ec. destruct Ht as [l El]. change (taken r') with (taken r). rewrite El. eexists. by rewrite <- app_assoc.
    + intros j x Hj Hx. rewrite Ec in Hx. change (at_index r' (Z.of_nat j)) with (at_index r (Z.of_nat j)).
      change (slot r' ?i) with (slot r i). destruct (decide (j < length (contents r))%nat).
      * rewrite lookup_app_l in Hx by done. by apply (inv_data r H).
      * rewrite lookup_app_r in Hx by lia. destruct (j - length (contents r))%nat eqn:Ej; [|done].
        injection Hx as <-. rewrite (inv_tail r H). f_equal. f_equal. lia.
    + done.
    + pose proof (inv_cons r H) as Hc'. unfold cons_ok in *. change (cons r') with (cons r).
      change (head_ r') with (head_ r). change (at_index r') with (at_index r).
      destruct (cons r); try done.
      * destruct Hc' as [? ?]. split; [done|]. rewrite Ec, length_app. lia.
      * destruct Hc' as (n & ? & ?). exists n. rewrite Ec, length_app. split; [lia|done].
      * destruct Hc' as (? & n & ? & ?). split; [done|]. exists n. rewrite Ec, length_app. split; [lia|done].
  - apply set_cons_inv; [done| |done]. unfold taken. cbn. by rewrite E.
  - apply set_cons_inv; [done| |done]. unfold taken. cbn. by rewrite E.
  - apply set_cons_inv; [done| |]. { unfold taken. cbn. by rewrite E. } cbn. split; [done|].
    change (contents (set_cons _ _)) with (contents r).
    destruct (contents r) eqn:Ec; [exfalso|cbn; lia]. apply Eh. subst h.
    rewrite (inv_tail r H), Ec. by rewrite at_index_0.
  - destruct Hc as [-> Hlen]. destruct (lookup_lt_is_Some_2 (contents r) 0) as [x Hx]; [done|].
    assert (taken r = []) as Etk by (unfold taken; by rewrite E).
    destruct (take_one_inv r (head_ r) (CPop3 (head_ r) x) x) as [Es Hi]; try done.
    + by rewrite Etk.
    + rewrite Etk. by rewrite at_index_0.
    + by rewrite Etk.
    + rewrite Es in *. exact Hi.
  - assert (taken r = [x]) as Etk by (unfold taken; by rewrite E).
    destruct (release_inv r (next_index h) H) as [Hi _]; [|by rewrite Etk in Hi].
    rewrite Etk, Hc. cbn. rewrite <- (at_index_0 r H) at 1. by rewrite at_index_next.
  - apply set_cons_inv; [done| |]. { unfold taken. cbn. by rewrite E. }
    cbn. exists (Z.of_nat (length (contents r))). split; [|apply H]. change (contents (set_cons _ _)) with (contents r). lia.
  - apply set_cons_inv; [done| |]. { unfold taken. cbn. by rewrite E. }
    destruct Hc as (n & Hn & ->). cbn. split; [by rewrite <- (at_index_0 r H)|]. exists n.
    change (contents (set_cons _ _)) with (contents r). split; [lia|done].
  - destruct Hc as (-> & n & Hn & ->). assert (taken r = out) as Etk by (unfold taken; by rewrite E).
    assert (Z.of_nat (length out) < n) as Hlt.
    { destruct (Z.eq_dec (Z.of_nat (length out)) n) as [<-|]; [done|lia]. }
    destruct (lookup_lt_is_Some_2 (contents r) (length out)) as [x Hx]; [lia|].
    set (h := at_index r (Z.of_nat (length out))) in *.
    destruct (take_one_inv r h (CBat2 (at_index r n) (next_index h) mx (out ++ [x])) x) as [Es Hi]; try done.
    + by rewrite Etk.
    + by rewrite Etk.
    + by rewrite Etk.
    + cbn. unfold h. rewrite at_index_next, length_app, Nat2Z.inj_add. split; [done|]. exists n.
      change (contents (set_cons _ _)) with (contents r). split; [cbn; lia|done].
    + rewrite Es in *. exact Hi.
  - destruct Hc as (-> & n & Hn & ->). assert (taken r = out) as Etk by (unfold taken; by rewrite E).
    destruct (release_inv r (if 0 <? Z.of_nat (length out) then at_index r (Z.of_nat (length out)) else head_ r) H) as [Hi _].
    + rewrite Etk. destruct (Z.ltb_spec 0 (Z.of_nat (length out))); [done|].
      replace (Z.of_nat (length out)) with 0 by lia. by rewrite at_index_0.
    + by rewrite Etk in Hi.
Qed.

(** What each observable result means for the queue. *)
Lemma ring_events r e r' :
  ring_inv r -> step r e r' ->
  match e with
  | Silent => contents r' = contents r
  | PushFull => Z.of_nat (length (contents r)) <= capacity - 1 /\ contents r' = contents r
  | PushDone x => contents r' = contents r ++ [x] /\ Z.of_nat (length (contents r)) < capacity - 1
  | PopEmpty => contents r' = contents r
  | PopDone out => contents r = out ++ contents r'
  end.
Proof using Hk.
  intros H Hs. pose proof (inv_cons r H) as Hc. pose proof (inv_prod r H) as Hp.
  unfold cons_ok, prod_ok in Hc, Hp.
  destruct Hs as [r item E|r t item E En|r t item E En|r t next item E|r t next E
                 |r E|r h E Eh|r h E Eh|r h E|r h x E|r mx E|r t mx E|r t h mx out E Hl Hne|r t h mx out E Hl];
    rewrite E in Hp || rewrite E in Hc; try done.
  - split; [pose proof (inv_room r H); lia|done].
  - destruct Hp as (-> & -> & Hroom). split; [|lia]. unfold contents. cbn.
    apply drop_app_le. apply prefix_length, H.
  - assert (taken r = [x]) as Etk by (unfold taken; by rewrite E).
    destruct (release_inv r (next_index h) H) as [_ Ec].
    { rewrite Etk, Hc. cbn. rewrite <- (at_index_0 r H) at 1. by rewrite at_index_next. }
    rewrite Etk in Ec. cbn in Ec. rewrite Ec. destruct (inv_taken r H) as [l El]. by rewrite El, Etk.
  - destruct Hc as (-> & n & Hn & ->). assert (taken r = out) as Etk by (unfold taken; by rewrite E).
    destruct (release_inv r (if 0 <? Z.of_nat (length out) then at_index r (Z.of_nat (length out)) else head_ r) H) as [_ Ec].
    + rewrite Etk. destruct (Z.ltb_spec 0 (Z.of_nat (length out))); [done|].
      replace (Z.of_nat (length out)) with 0 by lia. by rewrite at_index_0.
    + rewrite Etk in Ec. rewrite Ec. destruct (inv_taken r H) as [l El]. rewrite El, Etk. by rewrite drop_app_length.
Qed.

Lemma reachable_inv r : reachable r -> ring_inv r.
Proof using Hk. induction 1; [apply ring_init_inv | by eapply ring_step_inv]. Qed.

End ring.

(** ** The properties *)

(** The ring is a first-in first-out queue of at most [N - 1] elements under every
    interleaving of the two threads' atomic steps: what was returned is always a
    prefix of what was pushed; a successful push appends its element to the queue and
    needs a free place; a finished pop (one element or a batch) removes exactly the
    elements it returns from the front, none of them a moved-from one; every other
    step, failed operations included, leaves the queue as it is. *)
Theorem ring_fifo {A} (dflt : A) mv k r e r' :
  0 <= k -> reachable dflt mv k r -> step dflt mv k r e r' ->
  popped r `prefix_of` pushed r /\ Z.of_nat (length (contents r)) <= capacity k - 1 /\
  match e with
  | PushDone x => contents r' = contents r ++ [x] /\ Z.of_nat (length (contents r)) < capacity k - 1
  | PopDone out => contents r = out ++ contents r'
  | _ => contents r' = contents r
  end.
Proof.
  intros Hk Hr Hs. pose proof (reachable_inv dflt mv k Hk r Hr) as H.
  pose proof (ring_events dflt mv k Hk r e r' H Hs) as He. pose proof (inv_room _ _ _ H).
  split_and!; [apply H|lia|]. destruct e; tauto.
Qed.

(** A schedule on two slots: push 7 and publish it, then load both indices and move
    the element out. *)
Lemma ring_demo_reachable :
  reachable 0 (fun _ => -1) 1 (mkRing 0 1 [7; 0] PIdle (CPop2 0) [7] []) /\
  reachable 0 (fun _ => -1) 1 (mkRing 0 1 [-1; 0] PIdle (CPop3 0 7) [7] []).
Proof.
  set (mv := fun _ : Z => -1).
  assert (reachable 0 mv 1 (mkRing 0 0 [0; 0] (PTail 0 7) CIdle [] [])) as R1
    by exact (reach_step 0 mv 1 _ _ _ (reach_init 0 mv 1) (push_load_tail 0 mv 1 (ring_init 0 1) 7 eq_refl)).
  assert (reachable 0 mv 1 (mkRing 0 0 [0; 0] (PFree 0 1 7) CIdle [] [])) as R2
    by exact (reach_step 0 mv 1 _ _ _ R1 (push_free 0 mv 1 (mkRing 0 0 [0; 0] (PTail 0 7) CIdle [] []) 0 7 eq_refl ltac:(done))).
  assert (reachable 0 mv 1 (mkRing 0 0 [7; 0] (PWritten 0 1) CIdle [] [])) as R3
    by exact (reach_step 0 mv 1 _ _ _ R2 (push_write 0 mv 1 (mkRing 0 0 [0; 0] (PFree 0 1 7) CIdle [] []) 0 1 7 eq_refl)).
  assert (reachable 0 mv 1 (mkRing 0 1 [7; 0] PIdle CIdle [7] [])) as R4
    by exact (reach_step 0 mv 1 _ _ _ R3 (push_publish 0 mv 1 (mkRing 0 0 [7; 0] (PWritten 0 1) CIdle [] []) 0 1 eq_refl)).
  assert (reachable 0 mv 1 (mkRing 0 1 [7; 0] PIdle (CPop1 0) [7] [])) as R5
    by exact (reach_step 0 mv 1 _ _ _ R4 (pop_load_head 0 mv 1 (mkRing 0 1 [7; 0] PIdle CIdle [7] []) eq_refl)).
  assert (reachable 0 mv 1 (mkRing 0 1 [7; 0] PIdle (CPop2 0) [7] [])) as R6
    by exact (reach_step 0 mv 1 _ _ _ R5 (pop_nonempty 0 mv 1 (mkRing 0 1 [7; 0] PIdle (CPop1 0) [7] []) 0 eq_refl ltac:(done))).
  split; [exact R6|].
  exact (reach_step 0 mv 1 _ _ _ R6 (pop_read 0 mv 1 (mkRing 0 1 [7; 0] PIdle (CPop2 0) [7] []) 0 eq_refl)).
Qed.

Lemma ring_fifo_witness :
  contents (mkRing 0 1 [-1; 0] PIdle (CPop3 0 7) [7] []) = [7] ++ contents (mkRing 1 1 [-1; 0] PIdle CIdle [7] [7]).
Proof.
  exact (proj2 (proj2 (ring_fifo 0 (fun _ => -1) 1 _ (PopDone [7]) _ ltac:(lia) (proj2 ring_demo_reachable)
    (pop_release 0 (fun _ => -1) 1 (mkRing 0 1 [-1; 0] PIdle (CPop3 0 7) [7] []) 0 7 eq_refl)))).
Defined.

(** No slot is accessed by both threads at once: while the producer is about to
    write a slot, it is not the slot the consumer is about to move out, and that slot
    holds the oldest element not yet taken, as it was pushed. *)
Theorem ring_no_conflict {A} (dflt : A) mv k r :
  0 <= k -> reachable dflt mv k r ->
  forall h, (cons r = CPop2 h \/ exists t m out, cons r = CBat2 t h m out /\ h <> t) ->
  contents r !! length (taken r) = Some (slot dflt r h) /\
  (forall t next item, prod r = PFree t next item -> t <> h).
Proof.
  intros Hk Hr h Hc. pose proof (reachable_inv dflt mv k Hk r Hr) as H.
  pose proof (inv_cons _ _ _ H) as Ho. unfold cons_ok in Ho.
  assert (h = at_index k r (Z.of_nat (length (taken r))) /\ (length (taken r) < length (contents r))%nat) as [-> Hlt].
  { destruct Hc as [E|(t & m & out & E & Hne)]; unfold taken; rewrite E in *.
    - destruct Ho as [-> ?]. cbn. change (Z.of_nat 0) with 0. by rewrite (at_index_0 dflt k Hk r H).
    - destruct Ho as (-> & n & Hn & ->). split; [done|].
      destruct (Z.eq_dec (Z.of_nat (length out)) n) as [<-|]; [done|lia]. }
  destruct (lookup_lt_is_Some_2 _ _ Hlt) as [x Hx]. split.
  - by rewrite (inv_data _ _ _ H _ _ ltac:(done) Hx).
  - intros t next item E. pose proof (inv_prod _ _ _ H) as Hp. unfold prod_ok in Hp. rewrite E in Hp.
    destruct Hp as (-> & _ & Hroom). rewrite (inv_tail _ _ _ H). intros Ei. apply at_index_inj in Ei; lia.
Qed.

Lemma ring_no_conflict_witness :
  contents (mkRing 0 1 [7; 0] PIdle (CPop2 0) [7] []) !! 0%nat = Some 7.
Proof.
  exact (proj1 (ring_no_conflict 0 (fun _ => -1) 1 (mkRing 0 1 [7; 0] PIdle (CPop2 0) [7] []) ltac:(lia)
    (proj1 ring_demo_reachable) 0 (or_introl eq_refl))).
Defined.
