(* ===== verification/Protocol.v ===== *)
(** The wire protocol of [src/src/cluster/cluster_common.h] and the message types
    of [comm_backend.h]: message codes, the packed frame header and payload structs
    with their byte layout. A struct is packed and little-endian, so its image is
    the concatenation of its fields; a [float] field is its 32-bit pattern, a [char]
    array one field of as many bytes. *)
From Stdlib Require Import ZArith Lia.
From stdpp Require Import base gmap sets list.
From S2P Require Import Prelude Bytes.
#[local] Open Scope Z_scope.

Definition kProtocolMagic : Z := 0x4D52.
Definition kProtocolVersion : Z := 2.
Definition kCRC32Size : Z := 4.
Definition kHeartbeatIntervalMs : Z := 5000.
Definition kFlushTimeoutMs : Z := 120000.
Definition kConnectRetryIntervalMs : Z := 5000.

(** The named message types. A received type is a byte, which need not be the code
    of a named one ([static_cast<MsgType>] of the header field). *)
Inductive MsgType :=
  | HELLO | HELLO_ACK
  | WORK_ASSIGN | WORK_MORE | WORK_REQUEST
  | CHUNK_ASSIGN | CHUNK_COMPLETE | CHUNK_REQUEST | CHUNK_RECALL
  | RELATION_BATCH | PARTIAL_BATCH | INCREMENTAL_BATCH
  | HEARTBEAT | STATUS
  | STOP | FLUSH_ACK | ERROR.

Definition code (t : MsgType) : Z :=
  match t with
  | HELLO => 0x01 | HELLO_ACK => 0x02
  | WORK_ASSIGN => 0x10 | WORK_MORE => 0x11 | WORK_REQUEST => 0x12
  | CHUNK_ASSIGN => 0x13 | CHUNK_COMPLETE => 0x14 | CHUNK_REQUEST => 0x15 | CHUNK_RECALL => 0x17
  | RELATION_BATCH => 0x20 | PARTIAL_BATCH => 0x21 | INCREMENTAL_BATCH => 0x22
  | HEARTBEAT => 0x30 | STATUS => 0x31
  | STOP => 0xF0 | FLUSH_ACK => 0xF1 | ERROR => 0xFF
  end.

Definition is_type (c : Z) (t : MsgType) : bool := c =? code t.

Inductive RecvStatus := GOT_MSG | TIMEOUT | CLOSED.

(** A received message; [type] is a raw byte. *)
Record RecvMessage := mkRecv { sender_id : Z; type : Z; payload : bytes; valid : bool }.

#[export] Instance MsgType_eq_dec : EqDecision MsgType.
Proof. solve_decision. Defined.
#[export] Instance RecvStatus_eq_dec : EqDecision RecvStatus.
Proof. solve_decision. Defined.

(** ** Packed structs *)

(** A layout is the list of field widths in bytes. *)
Notation layout := (list nat).

Fixpoint pack (ws : layout) (vs : list Z) : bytes :=
  match ws, vs with
  | w :: ws', v :: vs' => le w v ++ pack ws' vs'
  | _, _ => []
  end.

Fixpoint unpack (ws : layout) (b : bytes) : list Z :=
  match ws with
  | [] => []
  | w :: ws' => of_le (take w b) :: unpack ws' (drop w b)
  end.

(** [sizeof]. *)
Definition size_of (ws : layout) : Z := Z.of_nat (sum_list ws).

(** A zero-initialised struct overwritten by [memcpy(&s, data, min(size, sizeof(s)))]. *)
Definition copied (ws : layout) (b : bytes) : list Z :=
  unpack ws (take (sum_list ws) (b ++ replicate (sum_list ws) 0)).

(** A struct type with its layout and its fields in order. *)
Class Packed (A : Type) := {
  layout_of : layout;
  fields : A -> list Z;
  of_fields : list Z -> A;
  fields_length a : length (fields a) = length layout_of;
  of_fields_fields a : of_fields (fields a) = a
}.
Arguments layout_of A {_}.

Definition image {A} `{Packed A} (a : A) : bytes := pack (layout_of A) (fields a).
Definition sizeof (A : Type) `{Packed A} : Z := size_of (layout_of A).
Definition copy_from (A : Type) `{Packed A} (b : bytes) : A := of_fields (copied (layout_of A) b).

Record FrameHeader := mkHdr { magic : Z; msg_type : Z; seq_no : Z; payload_len : Z }.

Record HelloPayload := mkHello {
  gpu_name : Z; sm_version : Z; num_sms : Z; vram_mb : Z; capacity_estimate : Z; clock_mhz : Z;
  resume_from_checkpoint : Z; resume_worker_id : Z; resume_relations_sent : Z
}.

Record HelloAckPayload := mkAck { worker_id : Z; status : Z }.

Record HeartbeatPayload := mkHeartbeat {
  hb_worker_id : Z; hb_pad : Z; relations_found : Z; partials_found : Z; batches_completed : Z;
  polys_exhausted : Z; hb_pad2 : Z; gpu_temp_celsius : Z; timestamp_ms : Z
}.

Record StatusPayload := mkStatus {
  total_relations : Z; target_relations : Z; total_partials : Z; lp_matches : Z; eta_seconds : Z
}.

Record WorkMorePayload := mkWorkMore { wm_poly_range_start : Z; wm_poly_range_count : Z }.

Record ChunkAssignPayload := mkAssign {
  chunk_id : Z; poly_range_start : Z; poly_range_count : Z; flags : Z
}.
Definition FLAG_FINAL : Z := 1.
Definition FLAG_INITIAL : Z := 2.
Definition FLAG_OVERFLOW : Z := 4.

Record ChunkCompletePayload := mkComplete {
  cc_chunk_id : Z; elapsed_ms : Z; cc_relations_found : Z; cc_partials_found : Z; a_values_consumed : Z
}.

Record ChunkRecallPayload := mkRecall { cr_chunk_id : Z }.
Record StopPayload := mkStop { reason : Z }.

#[export] Program Instance FrameHeader_packed : Packed FrameHeader := {|
  layout_of := [2; 1; 4; 4]%nat;
  fields h := [magic h; msg_type h; seq_no h; payload_len h];
  of_fields l := mkHdr (nth 0 l 0) (nth 1 l 0) (nth 2 l 0) (nth 3 l 0)
|}.
Next Obligation. done. Qed.
Next Obligation. by intros []. Qed.

#[export] Program Instance HelloPayload_packed : Packed HelloPayload := {|
  layout_of := [64; 2; 2; 4; 4; 2; 1; 1; 8]%nat;
  fields h := [gpu_name h; sm_version h; num_sms h; vram_mb h; capacity_estimate h; clock_mhz h;
               resume_from_checkpoint h; resume_worker_id h; resume_relations_sent h];
  of_fields l := mkHello (nth 0 l 0) (nth 1 l 0) (nth 2 l 0) (nth 3 l 0) (nth 4 l 0) (nth 5 l 0)
                   (nth 6 l 0) (nth 7 l 0) (nth 8 l 0)
|}.
Next Obligation. done. Qed.
Next Obligation. by intros []. Qed.

#[export] Program Instance HelloAckPayload_packed : Packed HelloAckPayload := {|
  layout_of := [1; 1]%nat;
  fields h := [worker_id h; status h];
  of_fields l := mkAck (nth 0 l 0) (nth 1 l 0)
|}.
Next Obligation. done. Qed.
Next Obligation. by intros []. Qed.

#[export] Program Instance HeartbeatPayload_packed : Packed HeartbeatPayload := {|
  layout_of := [1; 3; 8; 8; 8; 1; 1; 2; 8]%nat;
  fields h := [hb_worker_id h; hb_pad h; relations_found h; partials_found h; batches_completed h;
               polys_exhausted h; hb_pad2 h; gpu_temp_celsius h; timestamp_ms h];
  of_fields l := mkHeartbeat (nth 0 l 0) (nth 1 l 0) (nth 2 l 0) (nth 3 l 0) (nth 4 l 0) (nth 5 l 0)
                   (nth 6 l 0) (nth 7 l 0) (nth 8 l 0)
|}.
Next Obligation. done. Qed.
Next Obligation. by intros []. Qed.

#[export] Program Instance StatusPayload_packed : Packed StatusPayload := {|
  layout_of := [8; 8; 8; 8; 4]%nat;
  fields h := [total_relations h; target_relations h; total_partials h; lp_matches h; eta_seconds h];
  of_fields l := mkStatus (nth 0 l 0) (nth 1 l 0) (nth 2 l 0) (nth 3 l 0) (nth 4 l 0)
|}.
Next Obligation. done. Qed.
Next Obligation. by intros []. Qed.

#[export] Program Instance WorkMorePayload_packed : Packed WorkMorePayload := {|
  layout_of := [8; 8]%nat;
  fields h := [wm_poly_range_start h; wm_poly_range_count h];
  of_fields l := mkWorkMore (nth 0 l 0) (nth 1 l 0)
|}.
Next Obligation. done. Qed.
Next Obligation. by intros []. Qed.

#[export] Program Instance ChunkAssignPayload_packed : Packed ChunkAssignPayload := {|
  layout_of := [4; 8; 8; 4]%nat;
  fields h := [chunk_id h; poly_range_start h; poly_range_count h; flags h];
  of_fields l := mkAssign (nth 0 l 0) (nth 1 l 0) (nth 2 l 0) (nth 3 l 0)
|}.
Next Obligation. done. Qed.
Next Obligation. by intros []. Qed.

#[export] Program Instance ChunkCompletePayload_packed : Packed ChunkCompletePayload := {|
  layout_of := [4; 4; 8; 8; 8]%nat;
  fields h := [cc_chunk_id h; elapsed_ms h; cc_relations_found h; cc_partials_found h; a_values_consumed h];
  of_fields l := mkComplete (nth 0 l 0) (nth 1 l 0) (nth 2 l 0) (nth 3 l 0) (nth 4 l 0)
|}.
Next Obligation. done. Qed.
Next Obligation. by intros []. Qed.

#[export] Program Instance ChunkRecallPayload_packed : Packed ChunkRecallPayload := {|
  layout_of := [4]%nat;
  fields h := [cr_chunk_id h];
  of_fields l := mkRecall (nth 0 l 0)
|}.
Next Obligation. done. Qed.
Next Obligation. by intros []. Qed.

#[export] Program Instance StopPayload_packed : Packed StopPayload := {|
  layout_of := [1]%nat;
  fields h := [reason h];
  of_fields l := mkStop (nth 0 l 0)
|}.
Next Obligation. done. Qed.
Next Obligation. by intros []. Qed.

(** Every field fits its width. *)
Definition fits (ws : layout) (vs : list Z) : Prop := Forall2 (fun w v => in_width (8 * Z.of_nat w) v) ws vs.
Definition packed_ok {A} `{Packed A} (a : A) : Prop := fits (layout_of A) (fields a).

(** ** Lemmas *)

Lemma code_range t : 0 <= code t < 256.
Proof. destruct t; done. Qed.

Lemma code_inj t1 t2 : code t1 = code t2 -> t1 = t2.
Proof. destruct t1, t2; by intros. Qed.

Lemma length_pack ws vs : length vs = length ws -> length (pack ws vs) = sum_list ws.
Proof.
  revert vs. induction ws as [|w ws IH]; intros [|v vs] H; try done.
  cbn [pack]. rewrite length_app, length_le, IH by (cbn in H; lia). done.
Qed.

Lemma pack_ok ws vs : digits_ok 8 (pack ws vs).
Proof.
  revert vs. induction ws as [|w ws IH]; intros [|v vs]; try constructor.
  apply Forall_app. split; [apply le_ok|apply IH].
Qed.

Lemma unpack_pack ws vs post : fits ws vs -> unpack ws (pack ws vs ++ post) = vs.
Proof.
  intros H. revert post. induction H as [|w v ws vs Hv _ IH]; intros post; [done|].
  cbn [pack unpack]. rewrite <- app_assoc.
  rewrite take_app_le, take_ge, drop_app_le, drop_ge by (rewrite length_le; lia).
  rewrite of_le_le_small by done. f_equal. exact (IH post).
Qed.

Lemma zlen_image {A} `{Packed A} (a : A) : zlen (image a) = sizeof A.
Proof. unfold zlen, image, sizeof, size_of. f_equal. apply length_pack, fields_length. Qed.

(** A received image, whatever follows it, gives the struct back. *)
Lemma copy_from_image {A} `{Packed A} (a : A) post :
  packed_ok a -> copy_from A (image a ++ post) = a.
Proof.
  intros Hok. unfold copy_from, copied, image. rewrite <- app_assoc.
  rewrite take_app_le by (rewrite length_pack by apply fields_length; lia).
  rewrite take_ge by (rewrite length_pack by apply fields_length; lia).
  rewrite <- (app_nil_r (pack _ _)), unpack_pack by done. apply of_fields_fields.
Qed.
