(* ===== verification/Transport.v ===== *)
(** The framed TCP transport of [src/src/cluster/tcp_transport.cpp]: the table-driven
    CRC-32, the frame written by [sendMsg], the retry loop of [sendExact], the
    accumulating receive loop of [recvMsg], and the socket's file descriptor.

    The operating system is a script: the results that [::send] and [::recv] return,
    in order. A call that finds its script empty is still blocked in the system
    call. *)
From Stdlib Require Import ZArith Lia.
From stdpp Require Import base gmap sets list.
From S2P Require Import Prelude Bytes Protocol.
#[local] Open Scope Z_scope.

(** ** CRC-32 *)

(** One round of the table initialisation. *)
Definition crc_bit (crc : Z) : Z :=
  Z.lxor (Z.shiftr crc 1) (if Z.land crc 1 =? 0 then 0 else 0xEDB88320).

Definition crc32_table : list Z := map (fun i => Nat.iter 8 crc_bit (Z.of_nat i)) (seq 0 256).

Definition crc_byte (crc b : Z) : Z :=
  Z.lxor (Z.shiftr crc 8) (nth (Z.to_nat (Z.land (Z.lxor crc b) 0xFF)) crc32_table 0).

Definition computeCRC32 (data : bytes) : Z := Z.lxor (foldl crc_byte 0xFFFFFFFF data) 0xFFFFFFFF.

(** ** The socket *)

Record TcpSocket := mkSock { fd_ : Z; send_seq_ : Z; recv_buf_ : bytes }.

Definition TcpSocket_init (fd : Z) : TcpSocket := mkSock fd 0 [].

Definition isValid (s : TcpSocket) : bool := 0 <=? fd_ s.

(** The descriptors passed to [::close], and the socket. *)
Definition close (s : TcpSocket) : list Z * TcpSocket :=
  if 0 <=? fd_ s then ([fd_ s], mkSock (-1) (send_seq_ s) (recv_buf_ s)) else ([], s).

(** The new socket and the one moved from. *)
Definition move_construct (o : TcpSocket) : TcpSocket * TcpSocket := (o, mkSock (-1) 0 []).

(** [this = std::move(o)] for two different sockets: descriptors closed, [this], [o]. *)
Definition move_assign (s o : TcpSocket) : list Z * TcpSocket * TcpSocket :=
  (fst (close s), o, mkSock (-1) 0 []).

(** [listen(port)]: the results of [::socket], [::bind] and [::listen]. *)
Definition listen (fd bind_rc listen_rc : Z) (s : TcpSocket) : bool * list Z * TcpSocket :=
  let s := mkSock fd (send_seq_ s) (recv_buf_ s) in
  if fd <? 0 then (false, [], s)
  else if bind_rc <? 0 then (false, fst (close s), snd (close s))
  else if listen_rc <? 0 then (false, fst (close s), snd (close s))
  else (true, [], s).

(** [accept()]: the result of [::accept]. *)
Definition accept (client_fd : Z) : TcpSocket :=
  if client_fd <? 0 then TcpSocket_init (-1) else TcpSocket_init client_fd.

(** [connect(host, port)]: the results of [::socket], [inet_pton], [getaddrinfo] (zero
    with a result list) and [::connect]. *)
Definition connect (fd pton_rc : Z) (resolved : bool) (connect_rc : Z) (s : TcpSocket) : bool * list Z * TcpSocket :=
  let s := mkSock fd (send_seq_ s) (recv_buf_ s) in
  if fd <? 0 then (false, [], s)
  else if negb (pton_rc =? 1) && negb resolved then (false, fst (close s), snd (close s))
  else if connect_rc <? 0 then (false, fst (close s), snd (close s))
  else (true, [], s).

(** ** Sending *)

Inductive errno := EINTR | EAGAIN | EOTHER.

(** What [::send] returns. *)
Inductive send_event := SSent (n : Z) | SErr (e : errno).

(** [None]: still inside [::send]. The bytes put on the wire, and the events left. *)
Fixpoint send_loop (buf : bytes) (evs : list send_event) (sent eagain_retries : Z) (wire : bytes)
  : option (bool * bytes * list send_event) :=
  if sent <? zlen buf then
    match evs with
    | [] => None
    | SErr EINTR :: evs' => send_loop buf evs' sent eagain_retries wire
    | SErr EAGAIN :: evs' =>
        if 1000 <? eagain_retries + 1 then Some (false, wire, evs')
        else send_loop buf evs' sent (eagain_retries + 1) wire
    | SErr EOTHER :: evs' => Some (false, wire, evs')
    | SSent n :: evs' =>
        if n =? 0 then Some (false, wire, evs')
        else send_loop buf evs' (sent + n) 0 (wire ++ take (Z.to_nat n) (drop (Z.to_nat sent) buf))
    end
  else Some (true, wire, evs).

Definition sendExact (buf : bytes) (evs : list send_event) : option (bool * bytes * list send_event) :=
  send_loop buf evs 0 0 [].

(** The frame buffer; [None] is a read past the end of the payload. A null payload
    leaves the zero-initialised bytes. *)
Definition frame_body (hdr : FrameHeader) (payload : option bytes) (payload_len : Z) : option bytes :=
  match payload with
  | Some p =>
      if 0 <? payload_len then
        if payload_len <=? zlen p then Some (image hdr ++ take (Z.to_nat payload_len) p) else None
      else Some (image hdr)
  | None => Some (image hdr ++ replicate (Z.to_nat payload_len) 0)
  end.

Definition sendMsg (type : Z) (payload : option bytes) (payload_len : Z) (evs : list send_event) (s : TcpSocket)
  : option (bool * bytes * list send_event * TcpSocket) :=
  let hdr := mkHdr kProtocolMagic type (send_seq_ s) payload_len in
  let s' := mkSock (fd_ s) (wrap 32 (send_seq_ s + 1)) (recv_buf_ s) in
  match frame_body hdr payload payload_len with
  | None => None
  | Some frame_buf =>
      let crc := computeCRC32 frame_buf in
      match sendExact frame_buf evs with
      | None => None
      | Some (false, w, evs1) => Some (false, w, evs1, s')
      | Some (true, w, evs1) =>
          match sendExact (le 4 crc) evs1 with
          | None => None
          | Some (r, w2, evs2) => Some (r, w ++ w2, evs2, s')
          end
      end
  end.

(** ** Receiving *)

Definition kMaxPayloadBytes : Z := 64 * 1024 * 1024.

(** What [::recv] returns; no bytes is the end of the stream. *)
Inductive recv_event := RRecv (bs : bytes) | RErr (e : errno).

(** What the head of the receive buffer holds. *)
Inductive frame_check :=
  | Incomplete
  | Rejected (rest : bytes)
  | Frame (type : Z) (payload rest : bytes).

Definition check_frame (buf : bytes) : frame_check :=
  if sizeof FrameHeader <=? zlen buf then
    let hdr := copy_from FrameHeader (take (Z.to_nat (sizeof FrameHeader)) buf) in
    if negb (magic hdr =? kProtocolMagic) then Rejected []
    else if kMaxPayloadBytes <? payload_len hdr then Rejected []
    else
      let hdr_plus_payload := sizeof FrameHeader + payload_len hdr in
      let frame_total := hdr_plus_payload + kCRC32Size in
      if frame_total <=? zlen buf then
        let wire_crc := of_le (take (Z.to_nat kCRC32Size) (drop (Z.to_nat hdr_plus_payload) buf)) in
        let computed_crc := computeCRC32 (take (Z.to_nat hdr_plus_payload) buf) in
        if negb (wire_crc =? computed_crc) then Rejected (drop (Z.to_nat frame_total) buf)
        else Frame (msg_type hdr)
               (take (Z.to_nat (payload_len hdr)) (drop (Z.to_nat (sizeof FrameHeader)) buf))
               (drop (Z.to_nat frame_total) buf)
      else Incomplete
  else Incomplete.

(** The outcome of a call: the status and the message, or [None] while it is blocked
    in [::recv]. *)
Definition recv_outcome : Type := option (RecvStatus * option (Z * bytes)).

Definition set_buf (s : TcpSocket) (b : bytes) : TcpSocket := mkSock (fd_ s) (send_seq_ s) b.

Fixpoint recvMsg (evs : list recv_event) (s : TcpSocket) : recv_outcome * TcpSocket * list recv_event :=
  match check_frame (recv_buf_ s) with
  | Frame t p rest => (Some (GOT_MSG, Some (t, p)), set_buf s rest, evs)
  | Rejected rest => (Some (TIMEOUT, None), set_buf s rest, evs)
  | Incomplete =>
      match evs with
      | [] => (None, s, [])
      | RRecv bs :: evs' =>
          if 0 <? zlen bs then recvMsg evs' (set_buf s (recv_buf_ s ++ bs))
          else (Some (CLOSED, None), s, evs')
      | RErr EINTR :: evs' => recvMsg evs' s
      | RErr EAGAIN :: evs' => (Some (TIMEOUT, None), s, evs')
      | RErr EOTHER :: evs' => (Some (CLOSED, None), s, evs')
      end
  end.

(** ** Vocabulary of the specifications *)

(** CRC-32 bit by bit, without a table. *)
Definition crc_ref (data : bytes) : Z :=
  Z.lxor (foldl (fun crc b => Nat.iter 8 crc_bit (Z.lxor crc b)) 0xFFFFFFFF data) 0xFFFFFFFF.

(** A message on the wire. *)
Definition header (seq : Z) (m : Z * bytes) : bytes := image (mkHdr kProtocolMagic m.1 seq (zlen m.2)).
Definition frame (seq : Z) (m : Z * bytes) : bytes :=
  header seq m ++ m.2 ++ le 4 (computeCRC32 (header seq m ++ m.2)).

Definition msg_ok (m : Z * bytes) : Prop :=
  in_width 8 m.1 /\ digits_ok 8 m.2 /\ zlen m.2 <= kMaxPayloadBytes.

(** A byte stream that is a sequence of frames, whatever their sequence numbers. *)
Inductive wire_of : list (Z * bytes) -> bytes -> Prop :=
  | wire_nil : wire_of [] []
  | wire_cons seq m ms b : in_width 32 seq -> wire_of ms b -> wire_of (m :: ms) (frame seq m ++ b).

(** Sending messages one after the other until one fails. *)
Fixpoint send_all (ms : list (Z * bytes)) (evs : list send_event) (s : TcpSocket)
  : option (bool * bytes * list send_event * TcpSocket) :=
  match ms with
  | [] => Some (true, [], evs, s)
  | m :: ms' =>
      match sendMsg m.1 (Some m.2) (zlen m.2) evs s with
      | Some (true, w, evs', s') =>
          match send_all ms' evs' s' with
          | Some (r, w', evs'', s'') => Some (r, w ++ w', evs'', s'')
          | None => None
          end
      | r => r
      end
  end.

(** [n] calls of [recvMsg], up to one that blocks: the messages received. *)
Fixpoint poll (n : nat) (evs : list recv_event) (s : TcpSocket) : list (Z * bytes) * TcpSocket * list recv_event :=
  match n with
  | O => ([], s, evs)
  | S n' =>
      match recvMsg evs s with
      | (None, s', evs') => ([], s', evs')
      | (Some (_, o), s', evs') =>
          let '(ms, s'', evs'') := poll n' evs' s' in
          (match o with Some m => m :: ms | None => ms end, s'', evs'')
      end
  end.

(** The bytes a script delivers, the timeouts in it, and a script of a live peer. *)
Definition received (evs : list recv_event) : bytes :=
  concat (map (fun e => match e with RRecv bs => bs | RErr _ => [] end) evs).
Definition is_eagain (e : recv_event) : bool := match e with RErr EAGAIN => true | _ => false end.
Definition timeouts (evs : list recv_event) : nat := length (List.filter is_eagain evs).
Definition alive (e : recv_event) : Prop :=
  match e with RRecv bs => bs <> [] | RErr e => e <> EOTHER end.

(** The bytes that are or will be in the receive buffer. *)
Definition stream (s : TcpSocket) (evs : list recv_event) : bytes := recv_buf_ s ++ received evs.

(** The results [::send] can give: an error or a count that is not negative. *)
Definition send_ok (e : send_event) : Prop := match e with SSent n => 0 <= n | SErr _ => True end.

(** One read is at most the size of the local buffer. *)
Definition read_ok (e : recv_event) : Prop := match e with RRecv bs => zlen bs <= 8192 | RErr _ => True end.
Definition ends_peer (e : recv_event) : Prop := match e with RRecv bs => bs = [] | RErr e => e = EOTHER end.

(** What the outcome of a call says about the reads it used up. *)
Definition call_ok (o : recv_outcome) (evs evs' : list recv_event) : Prop :=
  exists used, evs = used ++ evs' /\
  match o with
  | Some (GOT_MSG, Some m) => zlen m.2 <= kMaxPayloadBytes
  | Some (TIMEOUT, None) => True
  | Some (CLOSED, None) => exists e used', used = used' ++ [e] /\ ends_peer e
  | None => evs' = []
  | _ => False
  end.

(** ** CRC lemmas *)

Lemma crc_bit_odd c : crc_bit c = Z.lxor (Z.shiftr c 1) (if Z.odd c then 0xEDB88320 else 0).
Proof.
  unfold crc_bit. change 1 with (Z.ones 1) at 2. rewrite Z.land_ones by lia.
  change (2 ^ 1) with 2. rewrite Zmod_odd. by destruct (Z.odd c).
Qed.

Lemma crc_bit_lxor a b : crc_bit (Z.lxor a b) = Z.lxor (crc_bit a) (crc_bit b).
Proof.
  rewrite !crc_bit_odd, Z.shiftr_lxor, <- !Z.bit0_odd, Z.lxor_spec. set (P := 0xEDB88320).
  destruct (Z.testbit a 0), (Z.testbit b 0); cbn [xorb]; rewrite ?Z.lxor_0_r; try done.
  - rewrite Z.lxor_assoc, (Z.lxor_comm P), <- !Z.lxor_assoc. rewrite (Z.lxor_assoc _ P P), Z.lxor_nilpotent.
    by rewrite Z.lxor_0_r.
  - by rewrite !Z.lxor_assoc, (Z.lxor_comm P).
  - by rewrite Z.lxor_assoc.
Qed.

Lemma crc_iter_lxor n a b : Nat.iter n crc_bit (Z.lxor a b) = Z.lxor (Nat.iter n crc_bit a) (Nat.iter n crc_bit b).
Proof. induction n as [|n IH]; [done|]. by rewrite !Nat.iter_succ, IH, crc_bit_lxor. Qed.

Lemma crc_iter_shift n y : Nat.iter n crc_bit (Z.shiftl y (Z.of_nat n)) = y.
Proof.
  revert y. induction n as [|n IH]; intros y; [apply Z.shiftl_0_r|].
  rewrite Nat.iter_succ_r. rewrite Nat2Z.inj_succ, <- Z.add_1_r, <- Z.shiftl_shiftl by lia.
  rewrite crc_bit_odd, Z.shiftl_mul_pow2, Z.odd_mul by lia. change (Z.odd (2 ^ 1)) with false.
  rewrite andb_false_r, Z.lxor_0_r, <- Z.shiftl_mul_pow2, Z.shiftr_shiftl_l by lia.
  replace (1 - 1) with 0 by lia. rewrite Z.shiftl_0_r. apply IH.
Qed.

Lemma crc_table_nth i : 0 <= i < 256 -> nth (Z.to_nat i) crc32_table 0 = Nat.iter 8 crc_bit i.
Proof.
  intros Hi. unfold crc32_table. rewrite (nth_indep _ 0 (Nat.iter 8 crc_bit (Z.of_nat 0)))
    by (rewrite length_map, length_seq; lia).
  rewrite (map_nth (fun i => Nat.iter 8 crc_bit (Z.of_nat i))), seq_nth by lia. cbn [plus]. by rewrite Z2Nat.id by lia.
Qed.

Lemma split_low x n : 0 <= n -> x = Z.lxor (Z.shiftl (Z.shiftr x n) n) (Z.land x (Z.ones n)).
Proof.
  intros Hn. apply Z.bits_inj'. intros i Hi. rewrite Z.lxor_spec, Z.land_spec, Z.shiftl_spec by lia.
  destruct (Z.lt_ge_cases i n).
  - rewrite Z.ones_spec_low, (Z.testbit_neg_r _ (i - n)) by lia. by rewrite andb_true_r, xorb_false_l.
  - rewrite Z.ones_spec_high, Z.shiftr_spec by lia. rewrite andb_false_r, xorb_false_r. f_equal. lia.
Qed.

(** The table look-up is eight rounds of the shift register. *)
Lemma crc_byte_bits s b : in_width 8 b -> crc_byte s b = Nat.iter 8 crc_bit (Z.lxor s b).
Proof.
  intros Hb. unfold crc_byte. set (x := Z.lxor s b). change 0xFF with (Z.ones 8).
  rewrite (split_low x 8) at 2 by lia. rewrite crc_iter_lxor. change 8 with (Z.of_nat 8) at 3.
  rewrite crc_iter_shift, crc_table_nth.
  - f_equal. unfold x. rewrite Z.shiftr_lxor. rewrite (Z.shiftr_div_pow2 b), (Z.div_small b) by (lia || apply Hb).
    by rewrite Z.lxor_0_r.
  - rewrite Z.land_ones by lia. apply Z.mod_pos_bound. lia.
Qed.

Lemma crc_bit_width c : in_width 32 c -> in_width 32 (crc_bit c).
Proof.
  intros H. rewrite crc_bit_odd. apply lxor_in_width; [lia| |].
  - pose proof (shiftr_in_width 32 c 1 ltac:(lia) H) as Hs. unfold in_width in *. lia.
  - destruct (Z.odd c); done.
Qed.

Lemma crc_iter_width n c : in_width 32 c -> in_width 32 (Nat.iter n crc_bit c).
Proof. intros H. induction n as [|n IH]; [done|]. rewrite Nat.iter_succ. by apply crc_bit_width. Qed.

Lemma crc_bit_zero c : in_width 32 c -> crc_bit c = 0 -> c = 0.
Proof.
  intros H. rewrite crc_bit_odd. pose proof (shiftr_in_width 32 c 1 ltac:(lia) H) as Hs.
  rewrite Z.shiftr_div_pow2 in * by lia. change (2 ^ 1) with 2 in *. rewrite Z.lxor_eq_0_iff.
  pose proof (Z.div_mod c 2 ltac:(lia)) as E. rewrite Zmod_odd in E.
  destruct (Z.odd c); intros Hc; [|lia]. rewrite Hc in Hs. by destruct Hs.
Qed.

Lemma crc_iter_inj n a b : in_width 32 a -> in_width 32 b -> Nat.iter n crc_bit a = Nat.iter n crc_bit b -> a = b.
Proof.
  intros Ha Hb E. apply Z.lxor_eq. apply Z.lxor_eq_0_iff in E. rewrite <- crc_iter_lxor in E.
  pose proof (lxor_in_width 32 a b ltac:(lia) Ha Hb) as H. revert E. induction n as [|n IH]; [done|].
  rewrite Nat.iter_succ. intros E. apply IH. apply crc_bit_zero in E; [done|]. by apply crc_iter_width.
Qed.

Lemma byte_word b : in_width 8 b -> in_width 32 b.
Proof. unfold in_width. lia. Qed.

Lemma crc_run_width s xs : in_width 32 s -> digits_ok 8 xs -> in_width 32 (foldl crc_byte s xs).
Proof.
  intros Hs Hx. revert s Hs. induction Hx as [|x xs Hx _ IH]; intros s Hs; [done|]. cbn. apply IH.
  rewrite crc_byte_bits by done. apply crc_iter_width. apply lxor_in_width; [lia|done|by apply byte_word].
Qed.

(** The register after a run of bytes, in one go. *)
Lemma crc_run s xs : digits_ok 8 xs -> foldl crc_byte s xs = Nat.iter (8 * length xs) crc_bit (Z.lxor s (of_le xs)).
Proof.
  intros Hx. revert s. induction Hx as [|x xs Hx Hxs IH]; intros s; [by rewrite Z.lxor_0_r|].
  cbn [foldl length]. rewrite IH, crc_byte_bits by done.
  replace (8 * S (length xs))%nat with (8 * length xs + 8)%nat by lia. rewrite Nat.iter_add. f_equal.
  assert (of_le (x :: xs) = Z.lxor x (Z.shiftl (of_le xs) 8)) as ->.
  { change (of_le (x :: xs)) with (x + 2 ^ 8 * of_le xs).
    rewrite <- Z.add_nocarry_lxor; [rewrite Z.shiftl_mul_pow2 by lia; lia|].
    apply Z.bits_inj'. intros i Hi. rewrite Z.land_spec, Z.bits_0. destruct (Z.lt_ge_cases i 8).
    - rewrite Z.shiftl_spec_low by lia. apply andb_false_r.
    - replace x with (wrap 8 x) by by apply wrap_small. unfold wrap.
      rewrite Z.mod_pow2_bits_high by lia. done. }
  rewrite <- Z.lxor_assoc, (crc_iter_lxor 8 (Z.lxor s x)).
  change (Z.shiftl (of_le xs) 8) with (Z.shiftl (of_le xs) (Z.of_nat 8)). by rewrite crc_iter_shift.
Qed.

Lemma crc_run_inj s1 s2 xs : in_width 32 s1 -> in_width 32 s2 -> digits_ok 8 xs ->
  foldl crc_byte s1 xs = foldl crc_byte s2 xs -> s1 = s2.
Proof.
  intros H1 H2 Hx. revert s1 s2 H1 H2. induction Hx as [|x xs Hx _ IH]; intros s1 s2 H1 H2 E; [done|].
  cbn in E. rewrite !crc_byte_bits in E by done. pose proof (byte_word x Hx).
  apply IH in E; [|apply crc_iter_width, lxor_in_width; done || lia..].
  apply crc_iter_inj in E; [|apply lxor_in_width; done || lia..].
  rewrite <- (Z.lxor_0_r s1), <- (Z.lxor_0_r s2), <- (Z.lxor_nilpotent x), <- !Z.lxor_assoc. by rewrite E.
Qed.

(** A change confined to four bytes changes the register. *)
Lemma crc_burst_state s xs ys : in_width 32 s -> digits_ok 8 xs -> digits_ok 8 ys ->
  length xs = length ys -> (length xs <= 4)%nat ->
  foldl crc_byte s xs = foldl crc_byte s ys -> xs = ys.
Proof.
  intros Hs Hx Hy Hl H4 E. rewrite !crc_run, Hl in E by done.
  assert (forall l, digits_ok 8 l -> (length l <= 4)%nat -> in_width 32 (of_le l)) as Hw.
  { intros l Hl' H. pose proof (of_digits_bound 8 ltac:(lia) l Hl') as B. unfold in_width, of_le.
    assert (2 ^ (8 * Z.of_nat (length l)) <= 2 ^ 32) by (apply Z.pow_le_mono_r; lia). lia. }
  apply crc_iter_inj in E; [|apply lxor_in_width; [lia|done|apply Hw; done || lia]..].
  apply (of_digits_inj 8 ltac:(lia)); [done|done|done|].
  change (of_le xs = of_le ys). rewrite <- (Z.lxor_0_l (of_le xs)), <- (Z.lxor_0_l (of_le ys)), <- (Z.lxor_nilpotent s).
  rewrite !Z.lxor_assoc. by rewrite E.
Qed.

Lemma computeCRC32_width data : digits_ok 8 data -> in_width 32 (computeCRC32 data).
Proof. intros H. apply lxor_in_width; [lia|by apply crc_run_width|done]. Qed.

Lemma computeCRC32_inj_state d1 d2 : computeCRC32 d1 = computeCRC32 d2 -> foldl crc_byte 0xFFFFFFFF d1 = foldl crc_byte 0xFFFFFFFF d2.
Proof.
  intros E. apply (f_equal (fun x => Z.lxor x 0xFFFFFFFF)) in E. unfold computeCRC32 in E.
  by rewrite !Z.lxor_assoc, !Z.lxor_nilpotent, !Z.lxor_0_r in E.
Qed.

Lemma crc_burst pre xs ys post :
  digits_ok 8 (pre ++ xs ++ post) -> digits_ok 8 ys -> length xs = length ys -> (length xs <= 4)%nat ->
  computeCRC32 (pre ++ xs ++ post) = computeCRC32 (pre ++ ys ++ post) -> xs = ys.
Proof.
  intros [Hp [Hx Hq]%Forall_app]%Forall_app Hy Hl H4 E. apply computeCRC32_inj_state in E.
  rewrite !foldl_app in E. assert (in_width 32 (foldl crc_byte 0xFFFFFFFF pre)) by by apply crc_run_width.
  apply crc_run_inj in E; [|by apply crc_run_width..|done]. by eapply crc_burst_state.
Qed.

(** ** Framing lemmas *)

Lemma sizeof_header : sizeof FrameHeader = 11.
Proof. done. Qed.

Lemma zlen_header seq m : zlen (header seq m) = 11.
Proof. unfold header. by rewrite zlen_image. Qed.

Lemma zlen_take_drop {A} (l : list A) n : 0 <= n -> zlen (drop (Z.to_nat n) l) = Z.max 0 (zlen l - n).
Proof. unfold zlen. rewrite length_drop. lia. Qed.

Lemma drop_image {A} `{Packed A} (a : A) body n :
  0 <= n -> drop (Z.to_nat (sizeof A + n)) (image a ++ body) = drop (Z.to_nat n) body.
Proof.
  intros Hn. rewrite drop_app_ge; f_equal; pose proof (zlen_image a) as E; unfold zlen in E; lia.
Qed.

Lemma take_image {A} `{Packed A} (a : A) body n :
  0 <= n -> take (Z.to_nat (sizeof A + n)) (image a ++ body) = image a ++ take (Z.to_nat n) body.
Proof.
  intros Hn. rewrite take_app_ge; do 2 f_equal; pose proof (zlen_image a) as E; unfold zlen in E; lia.
Qed.

(** What [recvMsg] makes of a buffer that starts with a header. *)
Lemma check_frame_image hdr body :
  packed_ok hdr -> magic hdr = kProtocolMagic -> payload_len hdr <= kMaxPayloadBytes ->
  check_frame (image hdr ++ body) =
    if payload_len hdr + 4 <=? zlen body then
      if of_le (take 4 (drop (Z.to_nat (payload_len hdr)) body)) =? computeCRC32 (image hdr ++ take (Z.to_nat (payload_len hdr)) body)
      then Frame (msg_type hdr) (take (Z.to_nat (payload_len hdr)) body) (drop (Z.to_nat (payload_len hdr + 4)) body)
      else Rejected (drop (Z.to_nat (payload_len hdr + 4)) body)
    else Incomplete.
Proof.
  intros Hok Hm Hl. pose proof (zlen_nonneg body) as Hb.
  assert (0 <= payload_len hdr) as H0.
  { unfold packed_ok, fits in Hok. cbn in Hok. do 4 (apply Forall2_cons in Hok as [? Hok]). unfold in_width in *. lia. }
  unfold check_frame. rewrite zlen_app, zlen_image, (proj2 (Z.leb_le _ _)) by lia.
  assert (copy_from FrameHeader (take (Z.to_nat (sizeof FrameHeader)) (image hdr ++ body)) = hdr) as ->.
  { rewrite <- (Z.add_0_r (sizeof _)), take_image by lia. by apply copy_from_image. }
  rewrite Hm, Z.eqb_refl. cbn [negb]. rewrite (proj2 (Z.ltb_ge _ _)) by lia.
  rewrite <- Z.add_assoc, !drop_image, take_image by (unfold kCRC32Size; lia).
  change (drop (Z.to_nat (sizeof FrameHeader)) (image hdr ++ body))
    with (drop (Z.to_nat (sizeof FrameHeader + 0)) (image hdr ++ body)).
  rewrite drop_image by lia. change (drop (Z.to_nat 0) body) with body. change (Z.to_nat kCRC32Size) with 4%nat.
  change kCRC32Size with 4.
  destruct (Z.leb_spec (sizeof FrameHeader + (payload_len hdr + 4)) (sizeof FrameHeader + zlen body)),
    (Z.leb_spec (payload_len hdr + 4) (zlen body)); try lia; [|done].
  by destruct (_ =? _).
Qed.

Lemma header_ok seq m : in_width 32 seq -> msg_ok m -> packed_ok (mkHdr kProtocolMagic m.1 seq (zlen m.2)).
Proof.
  intros Hs (Ht & _ & Hl). pose proof (zlen_nonneg m.2). repeat constructor; cbn; try done; unfold in_width, kMaxPayloadBytes in *; lia.
Qed.

Lemma check_frame_of seq m body :
  in_width 32 seq -> msg_ok m ->
  check_frame (header seq m ++ body) =
    if zlen m.2 + 4 <=? zlen body then
      if of_le (take 4 (drop (length m.2) body)) =? computeCRC32 (header seq m ++ take (length m.2) body)
      then Frame m.1 (take (length m.2) body) (drop (length m.2 + 4) body)
      else Rejected (drop (length m.2 + 4) body)
    else Incomplete.
Proof.
  intros Hs Hm. unfold header. rewrite check_frame_image; [|by apply header_ok|done|apply Hm].
  cbn [payload_len msg_type]. unfold zlen. rewrite Nat2Z.id.
  by replace (Z.to_nat (Z.of_nat (length m.2) + 4)) with (length m.2 + 4)%nat by lia.
Qed.

Lemma header_bytes_ok seq m : digits_ok 8 (header seq m).
Proof. apply pack_ok. Qed.

(** A whole message at the front of the buffer. *)
Lemma check_frame_whole seq m c rest :
  in_width 32 seq -> msg_ok m -> in_width 32 c ->
  check_frame (header seq m ++ m.2 ++ le 4 c ++ rest) =
    if c =? computeCRC32 (header seq m ++ m.2) then Frame m.1 m.2 rest else Rejected rest.
Proof.
  intros Hs Hm Hc. rewrite check_frame_of by done. rewrite !zlen_app, zlen_le. pose proof (zlen_nonneg rest).
  destruct (Z.leb_spec (zlen m.2 + 4) (zlen m.2 + (Z.of_nat 4 + zlen rest))); [|lia].
  rewrite drop_app_length, take_app_length.
  replace (take 4 (le 4 c ++ rest)) with (le 4 c) by (by rewrite take_app_le, take_ge by (rewrite length_le; lia)).
  rewrite of_le_le_small by done. rewrite <- drop_drop, drop_app_length.
  by replace (drop 4 (le 4 c ++ rest)) with rest by (by rewrite drop_app_ge, length_le by (rewrite length_le; lia)).
Qed.

Lemma check_frame_frame seq m rest :
  in_width 32 seq -> msg_ok m -> check_frame (frame seq m ++ rest) = Frame m.1 m.2 rest.
Proof.
  intros Hs Hm. unfold frame. rewrite <- !app_assoc.
  rewrite check_frame_whole; [by rewrite Z.eqb_refl|done|done|].
  apply computeCRC32_width, Forall_app. split; [apply header_bytes_ok|apply Hm].
Qed.

Lemma zlen_frame seq m : zlen (frame seq m) = 15 + zlen m.2.
Proof. unfold frame. rewrite !zlen_app, zlen_header, zlen_le. lia. Qed.

(** Part of a message is not acted upon. *)
Lemma check_frame_partial seq m rest buf tl :
  in_width 32 seq -> msg_ok m -> buf ++ tl = frame seq m ++ rest ->
  zlen buf < zlen (frame seq m) -> check_frame buf = Incomplete.
Proof.
  intros Hs Hm E Hl. rewrite zlen_frame in Hl.
  destruct (Z.le_gt_cases 11 (zlen buf)) as [Hle|Hgt].
  - assert (exists body, buf = header seq m ++ body) as [body ->].
    { exists (drop 11 buf). rewrite <- (take_drop 11 buf) at 1. f_equal.
      apply (f_equal (take 11)) in E. unfold frame in E.
      assert (length (header seq m) = 11%nat) as Eh by (pose proof (zlen_header seq m); unfold zlen in *; lia).
      rewrite take_app_le in E by (unfold zlen in *; lia). rewrite E, <- !app_assoc.
      rewrite take_app_le, take_ge by lia. done. }
    rewrite check_frame_of by done. rewrite zlen_app, zlen_header in Hl.
    destruct (Z.leb_spec (zlen m.2 + 4) (zlen body)); [lia|done].
  - unfold check_frame. rewrite sizeof_header. destruct (Z.leb_spec 11 (zlen buf)); [lia|done].
Qed.

Lemma received_app evs1 evs2 : received (evs1 ++ evs2) = received evs1 ++ received evs2.
Proof. unfold received. by rewrite map_app, concat_app. Qed.

Lemma wire_of_inv ms b : wire_of ms b ->
  (ms = [] /\ b = []) \/
  exists seq m ms' b', ms = m :: ms' /\ b = frame seq m ++ b' /\ in_width 32 seq /\ wire_of ms' b'.
Proof. destruct 1 as [|seq m ms b Hs Hb]; [by left|right]. by exists seq, m, ms, b. Qed.

(** One call on a well-formed stream from a live peer: the next message, a timeout
    that loses nothing, or a block with the stream used up. *)
Lemma recvMsg_stream evs : forall s ms,
  Forall alive evs -> Forall msg_ok ms -> wire_of ms (stream s evs) ->
  exists o s' evs', recvMsg evs s = (o, s', evs') /\ Forall alive evs' /\
  match o with
  | Some (GOT_MSG, Some m) => exists ms', ms = m :: ms' /\ wire_of ms' (stream s' evs') /\
                                          (timeouts evs' <= timeouts evs)%nat
  | Some (TIMEOUT, None) => wire_of ms (stream s' evs') /\ (timeouts evs = S (timeouts evs'))%nat
  | None => evs' = [] /\ ms = [] /\ recv_buf_ s' = []
  | _ => False
  end.
Proof.
  induction evs as [|ev evs IH]; intros s ms Ha Hms Hw.
  - unfold stream in Hw. change (received []) with (@nil Z) in Hw. rewrite app_nil_r in Hw.
    destruct (wire_of_inv _ _ Hw) as [(-> & Eb)|(seq & m & ms' & b & -> & Eb & Hseq & Hb)].
    + exists None, s, []. cbn. by rewrite Eb.
    + apply Forall_cons in Hms as [Hm Hms].
      exists (Some (GOT_MSG, Some m)), (set_buf s b), []. cbn [recvMsg]. rewrite Eb, check_frame_frame by done.
      split; [by destruct m|]. split; [done|]. exists ms'. unfold stream. cbn. by rewrite app_nil_r.
  - assert (Forall alive evs /\ alive ev) as [Ha' Hev] by (inversion Ha; done). cbn [recvMsg].
    assert (check_frame (recv_buf_ s) = Incomplete \/
            exists m ms' b, ms = m :: ms' /\ check_frame (recv_buf_ s) = Frame m.1 m.2 b /\
                            wire_of ms' (b ++ received (ev :: evs))) as [->|(m & ms' & b & -> & -> & Hb)].
    { unfold stream in Hw. destruct (wire_of_inv _ _ Hw) as [(-> & Eb)|(seq & m & ms' & b & -> & Eb & Hseq & Hb)].
      - left. apply app_eq_nil in Eb as [-> _]. done.
      - apply Forall_cons in Hms as [Hm _].
        destruct (Z.lt_ge_cases (zlen (recv_buf_ s)) (zlen (frame seq m))) as [Hlt|Hge].
        + left. by eapply check_frame_partial.
        + right. assert (exists b', recv_buf_ s = frame seq m ++ b') as [b' Eb'].
          { exists (drop (length (frame seq m)) (recv_buf_ s)).
            rewrite <- (take_drop (length (frame seq m)) (recv_buf_ s)) at 1. f_equal.
            apply (f_equal (take (length (frame seq m)))) in Eb. unfold zlen in Hge.
            rewrite take_app_length, take_app_le in Eb by lia. done. }
          exists m, ms', b'. split; [done|]. rewrite Eb', check_frame_frame by done. split; [done|].
          rewrite Eb', <- app_assoc in Eb. apply app_inv_head in Eb. by rewrite Eb. }
    + destruct ev as [bs|[]]; cbn [alive] in Hev; try done.
      * assert (0 < zlen bs) as Hpos by (destruct bs; [done|unfold zlen; cbn; lia]).
        rewrite (proj2 (Z.ltb_lt _ _) Hpos).
        destruct (IH (set_buf s (recv_buf_ s ++ bs)) ms Ha' Hms) as (o & s' & evs' & E & Hr & Ho).
        { unfold stream in *. cbn [recv_buf_ set_buf]. rewrite <- app_assoc. exact Hw. }
        exists o, s', evs'. split; [done|]. split; [done|]. done.
      * destruct (IH s ms Ha' Hms Hw) as (o & s' & evs' & E & Hr & Ho). exists o, s', evs'. done.
      * exists (Some (TIMEOUT, None)), s, evs. split; [done|]. split; [done|]. split; [exact Hw|done].
    + eexists (Some (GOT_MSG, Some _)), _, _. split; [done|]. split; [done|]. exists ms'.
      split; [by destruct m|]. split; [exact Hb|done].
Qed.

Lemma poll_stream n : forall evs s ms,
  Forall alive evs -> Forall msg_ok ms -> wire_of ms (stream s evs) ->
  (length ms + timeouts evs < n)%nat ->
  exists s', poll n evs s = (ms, s', []) /\ recv_buf_ s' = [].
Proof.
  induction n as [|n IH]; intros evs s ms Ha Hms Hw Hn; [lia|]. cbn [poll].
  destruct (recvMsg_stream evs s ms Ha Hms Hw) as (o & s' & evs' & -> & Ha' & Ho).
  destruct o as [[[] [m|]]|]; try done.
  - destruct Ho as (ms' & -> & Hw' & Ht). apply Forall_cons in Hms as [_ Hms].
    cbn [length] in Hn. destruct (IH evs' s' ms' Ha' Hms Hw' ltac:(lia)) as (s'' & -> & ?). by exists s''.
  - destruct Ho as [Hw' Ht]. destruct (IH evs' s' ms Ha' Hms Hw' ltac:(lia)) as (s'' & -> & ?). by exists s''.
  - destruct Ho as (-> & -> & ?). by exists s'.
Qed.

Lemma send_loop_spec buf evs : forall sent retries w r w' evs',
  Forall send_ok evs -> 0 <= sent -> send_loop buf evs sent retries w = Some (r, w', evs') ->
  Forall send_ok evs' /\
  exists sfx, w' = w ++ sfx /\ sfx `prefix_of` drop (Z.to_nat sent) buf /\ (r = true -> sfx = drop (Z.to_nat sent) buf).
Proof.
  induction evs as [|e evs IH]; intros sent retries w r w' evs' Hok Hs; cbn [send_loop];
    destruct (Z.ltb_spec sent (zlen buf)) as [Hlt|Hge]; try done.
  1,3: injection 1 as <- <- <-; split; [done|]; exists []; rewrite app_nil_r, drop_ge by (unfold zlen in *; lia);
       split_and!; [done|apply prefix_nil|done].
  assert (Forall send_ok evs /\ send_ok e) as [Hok' He] by (inversion Hok; done).
  assert (forall evs1, Forall send_ok evs1 -> Some (false, w, evs1) = Some (r, w', evs') ->
    Forall send_ok evs' /\ exists sfx, w' = w ++ sfx /\ sfx `prefix_of` drop (Z.to_nat sent) buf /\
    (r = true -> sfx = drop (Z.to_nat sent) buf)) as Hstop.
  { intros evs1 H1 E. injection E as <- <- <-. split; [done|]. exists []. rewrite app_nil_r.
    split_and!; [done|apply prefix_nil|done]. }
  destruct e as [n|[]].
  - destruct (Z.eqb_spec n 0); [by apply Hstop|]. intros E. cbn in He.
    destruct (IH (sent + n) _ _ _ _ _ Hok' ltac:(lia) E) as (Hok'' & sfx & -> & Hp & Hr). split; [done|].
    exists (take (Z.to_nat n) (drop (Z.to_nat sent) buf) ++ sfx). rewrite app_assoc.
    replace (Z.to_nat (sent + n)) with (Z.to_nat sent + Z.to_nat n)%nat in * by lia.
    rewrite <- drop_drop in *. split_and!; [done| |].
    + rewrite <- (take_drop (Z.to_nat n) (drop (Z.to_nat sent) buf)) at 2. by apply prefix_app.
    + intros Ht. rewrite (Hr Ht). apply take_drop.
  - by apply IH.
  - destruct (1000 <? retries + 1); [by apply Hstop|by apply IH].
  - by apply Hstop.
Qed.

(** What a call of [sendMsg] puts on the wire. *)
Lemma sendMsg_spec m evs s r w evs' s' :
  Forall send_ok evs ->
  sendMsg m.1 (Some m.2) (zlen m.2) evs s = Some (r, w, evs', s') ->
  Forall send_ok evs' /\ w `prefix_of` frame (send_seq_ s) m /\ (r = true -> w = frame (send_seq_ s) m) /\
  s' = mkSock (fd_ s) (wrap 32 (send_seq_ s + 1)) (recv_buf_ s).
Proof.
  intros Hok. unfold sendMsg, frame_body.
  assert ((if 0 <? zlen m.2 then if zlen m.2 <=? zlen m.2
           then Some (image (mkHdr kProtocolMagic m.1 (send_seq_ s) (zlen m.2)) ++ take (Z.to_nat (zlen m.2)) m.2) else None
           else Some (image (mkHdr kProtocolMagic m.1 (send_seq_ s) (zlen m.2))))
          = Some (header (send_seq_ s) m ++ m.2)) as ->.
  { rewrite Z.leb_refl. unfold zlen. rewrite Nat2Z.id, firstn_all.
    destruct (Z.ltb_spec 0 (Z.of_nat (length m.2))); [done|]. destruct (m.2) eqn:E; [|cbn in *; lia].
    unfold header. rewrite E. by rewrite app_nil_r. }
  unfold sendExact. 
  assert (frame (send_seq_ s) m = (header (send_seq_ s) m ++ m.2) ++ le 4 (computeCRC32 (header (send_seq_ s) m ++ m.2))) as ->
    by (unfold frame; by rewrite app_assoc).
  generalize (header (send_seq_ s) m ++ m.2). intros fb.
  destruct (send_loop fb evs 0 0 []) as [[[[] w1] evs1]|] eqn:E1; [| |done].
  - destruct (send_loop_spec fb evs 0 0 [] true w1 evs1 Hok ltac:(lia) E1) as (Hok1 & sfx1 & -> & _ & ->); [|done].
    destruct (send_loop (le 4 _) evs1 0 0 []) as [[[r2 w2] evs2]|] eqn:E2; [|done].
    destruct (send_loop_spec _ evs1 0 0 [] r2 w2 evs2 Hok1 ltac:(lia) E2) as (Hok2 & sfx2 & -> & Hp & Hr).
    injection 1 as <- <- <- <-. change (drop (Z.to_nat 0) ?l) with l in *. rewrite !app_nil_l in *.
    split_and!; [done| | |done].
    + by apply prefix_app.
    + intros Ht. by rewrite Hr.
  - destruct (send_loop_spec fb evs 0 0 [] false w1 evs1 Hok ltac:(lia) E1) as (Hok1 & sfx1 & -> & Hp & _).
    injection 1 as <- <- <- <-. split_and!; [done| |done|done].
    by apply prefix_app_r.
Qed.

Lemma send_all_spec ms : forall evs s w evs' s',
  Forall send_ok evs -> in_width 32 (send_seq_ s) ->
  send_all ms evs s = Some (true, w, evs', s') -> wire_of ms w.
Proof.
  induction ms as [|m ms IH]; intros evs s w evs' s' Hok Hs E; cbn [send_all] in E.
  { injection E as <- <- <-. constructor. }
  destruct (sendMsg m.1 (Some m.2) (zlen m.2) evs s) as [[[[[] w1] evs1] s1]|] eqn:E1; [|done|done].
  destruct (sendMsg_spec m evs s true w1 evs1 s1 Hok E1) as (Hok1 & _ & Hw & ->).
  rewrite (Hw eq_refl) in E. clear Hw E1.
  destruct (send_all ms evs1 _) as [[[[r2 w2] evs2] s2]|] eqn:E2; [|done]. injection E as -> <- <- <-.
  constructor; [done|]. eapply IH; [exact Hok1| |exact E2]. by apply wrap_range.
Qed.

Lemma call_ok_cons e o evs evs' : call_ok o evs evs' -> call_ok o (e :: evs) evs'.
Proof.
  intros (used & -> & Ho). exists (e :: used). split; [done|]. destruct o as [[[] [m|]]|]; try exact Ho.
  destruct Ho as (e' & u' & -> & ?). by exists e', (e :: u').
Qed.

Lemma zlen_drop_le {A} (l : list A) n : zlen (drop n l) <= zlen l.
Proof. unfold zlen. rewrite length_drop. lia. Qed.

Lemma check_frame_bounds buf :
  match check_frame buf with
  | Incomplete => zlen buf <= kMaxPayloadBytes + 14
  | Rejected rest => zlen rest <= zlen buf
  | Frame _ p rest => zlen p <= kMaxPayloadBytes /\ zlen rest <= zlen buf
  end.
Proof.
  unfold check_frame. pose proof (zlen_nonneg buf). rewrite sizeof_header. unfold kCRC32Size.
  destruct (Z.leb_spec 11 (zlen buf)); [|unfold kMaxPayloadBytes; lia].
  set (hdr := copy_from FrameHeader _). destruct (negb _); [done|].
  destruct (Z.ltb_spec kMaxPayloadBytes (payload_len hdr)) as [|Hl]; [done|].
  destruct (Z.leb_spec (11 + payload_len hdr + 4) (zlen buf)); [|lia].
  destruct (negb _); [apply zlen_drop_le|]. split; [|apply zlen_drop_le].
  unfold zlen, kMaxPayloadBytes in *. rewrite length_take. lia.
Qed.

(** ** The properties *)

(** The table-driven CRC-32 is the bit-serial CRC-32 of the same polynomial, it
    fits 32 bits, and two byte strings that differ only inside a window of at most
    four bytes never share it. *)
Theorem computeCRC32_correct data :
  digits_ok 8 data ->
  computeCRC32 data = crc_ref data /\ in_width 32 (computeCRC32 data) /\
  forall pre xs ys post, data = pre ++ xs ++ post -> digits_ok 8 ys -> length xs = length ys ->
    (length xs <= 4)%nat -> xs <> ys -> computeCRC32 (pre ++ ys ++ post) <> computeCRC32 data.
Proof.
  intros Hd. split_and!.
  - unfold computeCRC32, crc_ref. f_equal. generalize 0xFFFFFFFF.
    induction Hd as [|x l Hx _ IH]; intros s; [done|]. cbn [foldl]. by rewrite crc_byte_bits, IH.
  - by apply computeCRC32_width.
  - intros pre xs ys post -> Hy Hl H4 Hne E. apply Hne. by eapply crc_burst.
Qed.

Lemma computeCRC32_correct_witness :
  computeCRC32 [49; 50; 51] = crc_ref [49; 50; 51] /\ computeCRC32 [49; 0; 51] <> computeCRC32 [49; 50; 51].
Proof.
  assert (digits_ok 8 [49; 50; 51]) as H by (repeat constructor; done).
  destruct (computeCRC32_correct [49; 50; 51] H) as (E & _ & Hb). split; [exact E|].
  exact (Hb [49] [50] [0] [51] eq_refl ltac:(repeat constructor; done) eq_refl ltac:(cbn; lia) ltac:(done)).
Defined.

(** C39. Whatever messages a sequence of successful [sendMsg] calls wrote — through
    partial sends, interrupts and retries — and however the network cuts the byte
    stream into reads, with interrupts and timeouts in between, polling [recvMsg]
    returns exactly those messages in order, leaves nothing in the receive buffer and
    then blocks. *)
Theorem transport_roundtrip ms sevs s w sevs' s' revs r n :
  Forall msg_ok ms -> Forall send_ok sevs -> in_width 32 (send_seq_ s) ->
  send_all ms sevs s = Some (true, w, sevs', s') ->
  Forall alive revs -> recv_buf_ r ++ received revs = w ->
  (length ms + timeouts revs < n)%nat ->
  exists r', poll n revs r = (ms, r', []) /\ recv_buf_ r' = [].
Proof.
  intros Hms Hs Hq E Ha Ew Hn. apply poll_stream; [done|done| |done].
  unfold stream. rewrite Ew. by eapply send_all_spec.
Qed.

Lemma transport_roundtrip_witness :
  exists r', poll 5
    [RRecv [82; 77; 20; 0; 0; 0; 0]; RErr EINTR; RRecv [2; 0; 0; 0; 7; 8]; RErr EAGAIN;
     RRecv ([17; 122; 19; 218] ++ [82]); RRecv [77; 240; 1; 0; 0; 0; 0; 0; 0; 0; 29; 154; 77; 122]] (TcpSocket_init 3)
    = ([(20, [7; 8]); (240, [])], r', []) /\ recv_buf_ r' = [].
Proof.
  refine (transport_roundtrip [(20, [7; 8]); (240, [])]
    [SSent 5; SErr EAGAIN; SSent 8; SSent 4; SErr EINTR; SSent 11; SSent 4] (TcpSocket_init 4) _ _ _ _ (TcpSocket_init 3) 5
    _ _ _ _ _ _ _).
  - repeat constructor; cbn; done.
  - repeat constructor; cbn; done.
  - done.
  - vm_compute. reflexivity.
  - repeat constructor; done.
  - vm_compute. reflexivity.
  - cbn. lia.
Defined.

(** A frame whose payload was changed inside a window of at most four bytes, or
    whose checksum was changed, is not delivered: [recvMsg] reports a timeout, drops
    exactly that frame and keeps what follows it. *)
Theorem corrupt_frame_rejected seq t pre xs ys post c rest evs s :
  in_width 32 seq -> msg_ok (t, pre ++ xs ++ post) -> digits_ok 8 ys -> length ys = length xs ->
  (length xs <= 4)%nat -> in_width 32 c ->
  (ys <> xs /\ c = computeCRC32 (header seq (t, pre ++ xs ++ post) ++ pre ++ xs ++ post) \/
   ys = xs /\ c <> computeCRC32 (header seq (t, pre ++ xs ++ post) ++ pre ++ xs ++ post)) ->
  recv_buf_ s = header seq (t, pre ++ xs ++ post) ++ (pre ++ ys ++ post) ++ le 4 c ++ rest ->
  recvMsg evs s = (Some (TIMEOUT, None), set_buf s rest, evs).
Proof.
  intros Hs Hm Hy Hl H4 Hc Hor Eb.
  assert (header seq (t, pre ++ xs ++ post) = header seq (t, pre ++ ys ++ post)) as Eh.
  { unfold header. cbn [fst snd]. do 2 f_equal. rewrite !zlen_app. unfold zlen. lia. }
  assert (msg_ok (t, pre ++ ys ++ post)) as Hm'.
  { destruct Hm as (? & Hd & ?). cbn [fst snd] in *. split; [done|]. split.
    - apply Forall_app in Hd as [? [? ?]%Forall_app]. by repeat apply Forall_app_2.
    - cbn [fst snd]. revert H0. rewrite !zlen_app. unfold zlen. lia. }
  assert (check_frame (recv_buf_ s) = Rejected rest) as E.
  { rewrite Eb, Eh. rewrite (check_frame_whole seq (t, pre ++ ys ++ post)) by done. cbn [snd].
    destruct (Z.eqb_spec c (computeCRC32 (header seq (t, pre ++ ys ++ post) ++ pre ++ ys ++ post))) as [Ec|]; [exfalso|done].
    destruct Hor as [[Hne Ec']|[-> Hne]]; [|done].
    apply Hne. symmetry. rewrite Ec', Eh, !app_assoc in Ec. rewrite <- !app_assoc in Ec.
    rewrite !(app_assoc (header _ _) pre) in Ec. eapply crc_burst; [| |symmetry; done|done|exact Ec]; [|done].
    destruct Hm as (_ & [? ?]%Forall_app & _). rewrite <- app_assoc. apply Forall_app.
    split; [apply header_bytes_ok|]. by apply Forall_app. }
  destruct evs; cbn [recvMsg]; by rewrite E.
Qed.

Lemma corrupt_frame_rejected_witness :
  recvMsg [] (mkSock 3 0 (header 9 (20, [7; 8]) ++ [7; 9] ++ le 4 (computeCRC32 (header 9 (20, [7; 8]) ++ [7; 8])) ++ [82]))
  = (Some (TIMEOUT, None), mkSock 3 0 [82], []).
Proof.
  refine (corrupt_frame_rejected 9 20 [7] [8] [9] [] _ [82] [] (mkSock 3 0 _) _ _ _ _ _ _ _ eq_refl);
    [done|split_and!; [done|repeat constructor; done|done]|repeat constructor; done|done|cbn; lia|vm_compute; split; congruence
    |left; split; done].
Defined.

(** The receive buffer stays below 64 MiB plus one read and a header, whatever
    bytes the peer sends; a delivered payload is at most 64 MiB; a call returns a
    message exactly with status GOT_MSG, reports CLOSED only after an orderly shutdown
    or a socket error, and uses up a prefix of the reads. *)
Theorem recvMsg_bounded evs s o s' evs' :
  Forall read_ok evs -> zlen (recv_buf_ s) <= kMaxPayloadBytes + 14 + 8192 ->
  recvMsg evs s = (o, s', evs') ->
  zlen (recv_buf_ s') <= kMaxPayloadBytes + 14 + 8192 /\ call_ok o evs evs'.
Proof.
  intros Hok. revert s. induction Hok as [|e evs He _ IH]; intros s Hs E; cbn [recvMsg] in E;
    pose proof (check_frame_bounds (recv_buf_ s)) as Hb; destruct (check_frame (recv_buf_ s)) as [|rest|t p rest].
  - injection E as <- <- <-. split; [done|]. by exists [].
  - injection E as <- <- <-. split; [cbn; lia|]. by exists [].
  - injection E as <- <- <-. split; [cbn; lia|]. exists []. by split; [|apply Hb].
  - destruct e as [bs|[]].
    + destruct (Z.ltb_spec 0 (zlen bs)) as [Hp|Hz].
      * apply IH in E as [? ?]; [by split; [|apply call_ok_cons]|]. cbn [recv_buf_ set_buf]. rewrite zlen_app. cbn in He. lia.
      * injection E as <- <- <-. split; [done|]. exists [RRecv bs]. split; [done|]. exists (RRecv bs), [].
        split; [done|]. destruct bs; [done|]. unfold zlen in Hz. cbn in Hz. lia.
    + apply IH in E as [? ?]; [by split; [|apply call_ok_cons]|done].
    + injection E as <- <- <-. split; [done|]. by exists [RErr EAGAIN].
    + injection E as <- <- <-. split; [done|]. exists [RErr EOTHER]. split; [done|]. by exists (RErr EOTHER), [].
  - injection E as <- <- <-. split; [cbn; lia|]. by exists [].
  - injection E as <- <- <-. split; [cbn; lia|]. exists []. by split; [|apply Hb].
Qed.

Lemma recvMsg_bounded_witness :
  zlen (recv_buf_ (snd (fst (recvMsg [RRecv [1; 2; 3]; RRecv []] (TcpSocket_init 3))))) <= kMaxPayloadBytes + 14 + 8192.
Proof.
  refine (proj1 (recvMsg_bounded [RRecv [1; 2; 3]; RRecv []] (TcpSocket_init 3) (Some (CLOSED, None)) _ [] _ _ _));
    [repeat constructor; done|done|reflexivity].
Defined.
