(* ===== verification/DataTap.v ===== *)
(** The taps through which the sieve loop hands batches to the cluster: the
    interface of [src/src/cluster/data_tap.h], the coordinator's bounded channel
    ([direct_channel.h]) and the worker's asynchronous network tap
    ([async_network_data_tap.{h,cpp}]).

    Each method of the channel holds its mutex, so it is one step. In the network
    tap the sieve thread's methods and the rounds of the I/O thread interleave; the
    ring between them is the queue of at most 31 slots that [Ring] shows it to be.
    Time and the frames that arrive are arguments. *)
From Stdlib Require Import ZArith Lia.
From stdpp Require Import base gmap sets list.
From S2P Require Import Prelude Bytes Soa Serialization Protocol.
#[local] Open Scope Z_scope.

(** ** The interface *)

(** The a-values a call accounts for: 0 means the default registered by [setRange]. *)
Definition a_advanced (a_values_advanced batch_a_values : Z) : Z :=
  if 0 <? a_values_advanced then a_values_advanced else batch_a_values.

(** What the sieve loop needs of a tap: batches are accounted against the assigned
    range, and the loop is told to stop by the signal or at the end of the range. *)
Class DataTap (T : Type) := {
  onBatchComplete : HostRelationBatch -> HostRelationBatch -> Z -> Z -> T -> T;
  shouldStop : T -> bool;
  tap_stop : T -> bool;
  tap_limit : T -> Z;
  tap_consumed : T -> Z;
  tap_default : T -> Z;
  tap_shouldStop t :
    shouldStop t = tap_stop t || ((0 <? tap_limit t) && (tap_limit t <=? tap_consumed t));
  tap_accounts full partials idx adv t :
    tap_stop t = false ->
    tap_consumed (onBatchComplete full partials idx adv t)
    = wrap 64 (tap_consumed t + a_advanced adv (tap_default t));
  tap_frame full partials idx adv t :
    let t' := onBatchComplete full partials idx adv t in
    tap_stop t' = tap_stop t /\ tap_limit t' = tap_limit t /\ tap_default t' = tap_default t
}.

(** ** The coordinator's channel *)

Module DirectChannel.

Record Payload := mkPayload { full : HostRelationBatch; partials : HostRelationBatch; batch_idx : Z }.

Record DirectChannel := mkChannel {
  buffer_ : list Payload;
  head_ : Z;
  tail_ : Z;
  count_ : Z;
  capacity_ : Z;
  stop_ : bool;
  range_a_consumed_ : Z;
  range_a_limit_ : Z;
  batch_a_values_ : Z
}.

Definition default_payload : Payload := mkPayload batch_empty batch_empty 0.

Definition DirectChannel_init (capacity : Z) : DirectChannel :=
  mkChannel (replicate (Z.to_nat capacity) default_payload) 0 0 0 capacity false 0 0 1.

(** If the queue is full, drop the oldest entry. *)
Definition drop_oldest (c : DirectChannel) : DirectChannel :=
  if count_ c =? capacity_ c then
    mkChannel (buffer_ c) ((head_ c + 1) mod capacity_ c) (tail_ c) (count_ c - 1) (capacity_ c)
      (stop_ c) (range_a_consumed_ c) (range_a_limit_ c) (batch_a_values_ c)
  else c.

Definition enqueue (p : Payload) (c : DirectChannel) : DirectChannel :=
  mkChannel (<[Z.to_nat (tail_ c) := p]> (buffer_ c)) (head_ c) ((tail_ c + 1) mod capacity_ c) (count_ c + 1)
    (capacity_ c) (stop_ c) (range_a_consumed_ c) (range_a_limit_ c) (batch_a_values_ c).

Definition onBatchComplete (full_relations partials : HostRelationBatch) (batch_index a_values_advanced : Z)
    (c : DirectChannel) : DirectChannel :=
  let c := enqueue (mkPayload full_relations partials batch_index) (drop_oldest c) in
  mkChannel (buffer_ c) (head_ c) (tail_ c) (count_ c) (capacity_ c) (stop_ c)
    (wrap 64 (range_a_consumed_ c + a_advanced a_values_advanced (batch_a_values_ c)))
    (range_a_limit_ c) (batch_a_values_ c).

Definition shouldStop (c : DirectChannel) : bool :=
  if stop_ c then true
  else if (0 <? range_a_limit_ c) && (range_a_limit_ c <=? range_a_consumed_ c) then true
  else false.

Definition setRange (count batch_a_vals : Z) (c : DirectChannel) : DirectChannel :=
  mkChannel (buffer_ c) (head_ c) (tail_ c) (count_ c) (capacity_ c) (stop_ c) 0 count
    (if 0 <? batch_a_vals then batch_a_vals else 1).

Definition aValsConsumed (c : DirectChannel) : Z := range_a_consumed_ c.

Definition payload_moved (p : Payload) : Payload :=
  mkPayload (moved_from (full p)) (moved_from (partials p)) (batch_idx p).

Definition slot (c : DirectChannel) (i : Z) : Payload := nth (Z.to_nat i) (buffer_ c) default_payload.

Definition tryPop (c : DirectChannel) : option Payload * DirectChannel :=
  if count_ c =? 0 then (None, c)
  else (Some (slot c (head_ c)),
        mkChannel (<[Z.to_nat (head_ c) := payload_moved (slot c (head_ c))]> (buffer_ c))
          ((head_ c + 1) mod capacity_ c) (tail_ c) (count_ c - 1) (capacity_ c)
          (stop_ c) (range_a_consumed_ c) (range_a_limit_ c) (batch_a_values_ c)).

Definition signalStop (c : DirectChannel) : DirectChannel :=
  mkChannel (buffer_ c) (head_ c) (tail_ c) (count_ c) (capacity_ c) true (range_a_consumed_ c)
    (range_a_limit_ c) (batch_a_values_ c).

Definition stopped (c : DirectChannel) : bool := stop_ c.
Definition empty (c : DirectChannel) : bool := count_ c =? 0.

(** The payloads waiting, oldest first. *)
Definition waiting (c : DirectChannel) : list Payload :=
  map (fun i => slot c ((head_ c + Z.of_nat i) mod capacity_ c)) (seq 0 (Z.to_nat (count_ c))).

Record chan_inv (c : DirectChannel) : Prop := mkChanInv {
  ci_capacity : 0 < capacity_ c;
  ci_buffer : Z.of_nat (length (buffer_ c)) = capacity_ c;
  ci_head : 0 <= head_ c < capacity_ c;
  ci_tail : tail_ c = (head_ c + count_ c) mod capacity_ c;
  ci_count : 0 <= count_ c <= capacity_ c
}.

(** Operations by either thread, and what the pops return. *)
Inductive op :=
  | Complete (f p : HostRelationBatch) (idx adv : Z)
  | Pop
  | Stop
  | Range (count batch_a_vals : Z).

Definition apply_op (o : op) (c : DirectChannel) : option Payload * DirectChannel :=
  match o with
  | Complete f p idx adv => (None, onBatchComplete f p idx adv c)
  | Pop => tryPop c
  | Stop => (None, signalStop c)
  | Range n b => (None, setRange n b c)
  end.

(** The same operation on an unbounded list that keeps its [cap] newest entries. *)
Definition spec_op (cap : nat) (o : op) (q : list Payload) : option Payload * list Payload :=
  match o with
  | Complete f p idx _ => (None, let q' := q ++ [mkPayload f p idx] in drop (length q' - cap) q')
  | Pop => match q with [] => (None, []) | x :: q' => (Some x, q') end
  | _ => (None, q)
  end.

Fixpoint run {S} (step : op -> S -> option Payload * S) (os : list op) (s : S) : list (option Payload) * S :=
  match os with
  | [] => ([], s)
  | o :: os' => let '(x, s1) := step o s in let '(xs, s2) := run step os' s1 in (x :: xs, s2)
  end.

End DirectChannel.

(** ** The worker's network tap *)

Module AsyncTap.

Record TapSlot := mkSlot {
  full : HostRelationBatch; partials : HostRelationBatch; batch_index : Z; a_values_this_batch : Z
}.

Record AsyncNetworkDataTap := mkTap {
  coalesce_count : Z;
  ring_ : list TapSlot;
  shutdown_ : bool;
  batches_sent_ : Z;
  dropped_batches_ : Z;
  stop_ : bool;
  recall_ : bool;
  recalled_chunk_id_ : Z;
  pending_assign_ : ChunkAssignPayload;
  has_pending_assign_ : bool;
  range_a_limit_ : Z;
  range_a_consumed_ : Z;
  current_chunk_id_ : Z;
  batch_a_values_ : Z
}.

Definition AsyncNetworkDataTap_init (coalesce_count : Z) : AsyncNetworkDataTap :=
  mkTap coalesce_count [] false 0 0 false false 0 (mkAssign 0 0 0 0) false 0 0 0 1.

(** A ring of 32 slots holds 31 elements. *)
Definition ring_room : Z := 31.

Definition tryPush (s : TapSlot) (q : list TapSlot) : option (list TapSlot) :=
  if zlen q <? ring_room then Some (q ++ [s]) else None.

Definition onBatchComplete (full_relations partials : HostRelationBatch) (batch_index a_values_advanced : Z)
    (t : AsyncNetworkDataTap) : AsyncNetworkDataTap :=
  if stop_ t then t
  else
    let a_adv := a_advanced a_values_advanced (batch_a_values_ t) in
    let slot := mkSlot full_relations partials batch_index a_adv in
    let '(ring, dropped) :=
      match tryPush slot (ring_ t) with
      | Some q => (q, dropped_batches_ t)
      | None => (ring_ t, wrap 64 (dropped_batches_ t + 1))
      end in
    mkTap (coalesce_count t) ring (shutdown_ t) (wrap 64 (batches_sent_ t + 1)) dropped (stop_ t) (recall_ t)
      (recalled_chunk_id_ t) (pending_assign_ t) (has_pending_assign_ t) (range_a_limit_ t)
      (wrap 64 (range_a_consumed_ t + a_adv)) (current_chunk_id_ t) (batch_a_values_ t).

Definition shouldStop (t : AsyncNetworkDataTap) : bool :=
  if stop_ t then true
  else if (0 <? range_a_limit_ t) && (range_a_limit_ t <=? range_a_consumed_ t) then true
  else false.

Definition setRange (count chunk_id batch_a_vals : Z) (t : AsyncNetworkDataTap) : AsyncNetworkDataTap :=
  mkTap (coalesce_count t) (ring_ t) (shutdown_ t) (batches_sent_ t) (dropped_batches_ t) (stop_ t) (recall_ t)
    (recalled_chunk_id_ t) (pending_assign_ t) (has_pending_assign_ t) count 0 chunk_id batch_a_vals.

Definition currentChunkId (t : AsyncNetworkDataTap) : Z := current_chunk_id_ t.
Definition aValsConsumed (t : AsyncNetworkDataTap) : Z := range_a_consumed_ t.
Definition receivedStop (t : AsyncNetworkDataTap) : bool := stop_ t.
Definition batchesSent (t : AsyncNetworkDataTap) : Z := batches_sent_ t.
Definition droppedBatches (t : AsyncNetworkDataTap) : Z := dropped_batches_ t.
Definition receivedRecall (t : AsyncNetworkDataTap) : bool := recall_ t.

Definition clearRecall (t : AsyncNetworkDataTap) : AsyncNetworkDataTap :=
  mkTap (coalesce_count t) (ring_ t) (shutdown_ t) (batches_sent_ t) (dropped_batches_ t) (stop_ t) false
    0 (pending_assign_ t) (has_pending_assign_ t) (range_a_limit_ t) (range_a_consumed_ t)
    (current_chunk_id_ t) (batch_a_values_ t).

Definition tryTakeChunkAssign (t : AsyncNetworkDataTap) : option ChunkAssignPayload * AsyncNetworkDataTap :=
  if negb (has_pending_assign_ t) then (None, t)
  else (Some (pending_assign_ t),
        mkTap (coalesce_count t) (ring_ t) (shutdown_ t) (batches_sent_ t) (dropped_batches_ t) (stop_ t) (recall_ t)
          (recalled_chunk_id_ t) (pending_assign_ t) false (range_a_limit_ t) (range_a_consumed_ t)
          (current_chunk_id_ t) (batch_a_values_ t)).

(** [shutdown()] up to joining the I/O thread. *)
Definition request_shutdown (t : AsyncNetworkDataTap) : AsyncNetworkDataTap :=
  mkTap (coalesce_count t) (ring_ t) true (batches_sent_ t) (dropped_batches_ t) (stop_ t) (recall_ t)
    (recalled_chunk_id_ t) (pending_assign_ t) (has_pending_assign_ t) (range_a_limit_ t) (range_a_consumed_ t)
    (current_chunk_id_ t) (batch_a_values_ t).

Definition set_ring (q : list TapSlot) (t : AsyncNetworkDataTap) : AsyncNetworkDataTap :=
  mkTap (coalesce_count t) q (shutdown_ t) (batches_sent_ t) (dropped_batches_ t) (stop_ t) (recall_ t)
    (recalled_chunk_id_ t) (pending_assign_ t) (has_pending_assign_ t) (range_a_limit_ t) (range_a_consumed_ t)
    (current_chunk_id_ t) (batch_a_values_ t).

(** The I/O thread leaves its loop. *)
Definition io_finished (t : AsyncNetworkDataTap) : bool :=
  shutdown_ t && (zlen (ring_ t) =? 0).

(** [popBatch(items, coalesce_count)]. *)
Definition popBatch (items : list TapSlot) (t : AsyncNetworkDataTap) : list TapSlot * AsyncNetworkDataTap :=
  let n := Z.to_nat (coalesce_count t) in
  (items ++ take n (ring_ t), set_ring (drop n (ring_ t)) t).

(** The second attempt of a round, [waited]: the coalescing delay is over. *)
Definition popLate (waited : bool) (items : list TapSlot) (t : AsyncNetworkDataTap) : list TapSlot * AsyncNetworkDataTap :=
  if (zlen items =? 0) && negb (shutdown_ t) && (0 <? zlen (ring_ t)) && waited then popBatch items t else (items, t).

(** The message for a group of slots: its type and payload. The outer [None] is an
    access outside a batch's arrays, the inner one nothing to send. *)
Definition coalesce (items : list TapSlot) : option (option (Z * bytes)) :=
  if zlen items =? 0 then Some None
  else
    match mergeRelationBatches (map full items) (map (fun s => num_relations (full s)) items),
          mergeRelationBatches (map partials items) (map (fun s => num_relations (partials s)) items) with
    | Some merged_full, Some merged_partial =>
        match serializeIncrementalBatch merged_full (num_relations merged_full)
                merged_partial (num_relations merged_partial) with
        | Some (buf, len) =>
            Some (if 0 <? len then Some (code INCREMENTAL_BATCH, take (Z.to_nat (wrap 32 len)) buf) else None)
        | None => None
        end
    | _, _ => None
    end.

(** The control frames of the coordinator. *)
Definition on_control (msg : RecvMessage) (t : AsyncNetworkDataTap) : AsyncNetworkDataTap :=
  if negb (valid msg) then t
  else if is_type (type msg) STOP || is_type (type msg) ERROR then
    mkTap (coalesce_count t) (ring_ t) (shutdown_ t) (batches_sent_ t) (dropped_batches_ t) true (recall_ t)
      (recalled_chunk_id_ t) (pending_assign_ t) (has_pending_assign_ t) (range_a_limit_ t) (range_a_consumed_ t)
      (current_chunk_id_ t) (batch_a_values_ t)
  else if is_type (type msg) CHUNK_RECALL then
    let cr := if sizeof ChunkRecallPayload <=? zlen (payload msg) then copy_from ChunkRecallPayload (payload msg)
              else mkRecall 0 in
    if cr_chunk_id cr =? current_chunk_id_ t then
      mkTap (coalesce_count t) (ring_ t) (shutdown_ t) (batches_sent_ t) (dropped_batches_ t) (stop_ t) true
        (cr_chunk_id cr) (pending_assign_ t) (has_pending_assign_ t) (range_a_limit_ t) (range_a_consumed_ t)
        (current_chunk_id_ t) (batch_a_values_ t)
    else t
  else if is_type (type msg) CHUNK_ASSIGN then
    if sizeof ChunkAssignPayload <=? zlen (payload msg) then
      mkTap (coalesce_count t) (ring_ t) (shutdown_ t) (batches_sent_ t) (dropped_batches_ t) (stop_ t) (recall_ t)
        (recalled_chunk_id_ t) (copy_from ChunkAssignPayload (payload msg)) true (range_a_limit_ t) (range_a_consumed_ t)
        (current_chunk_id_ t) (batch_a_values_ t)
    else t
  else t.

(** [sendHeartbeat()]: the message, given the node's own id. *)
Definition heartbeat (self_id : Z) (t : AsyncNetworkDataTap) : Z * bytes :=
  (code HEARTBEAT, image (mkHeartbeat self_id 0 0 0 (batches_sent_ t) 0 0 0 0)).

(** One action of the sieve or main thread, or of the I/O thread, whose local
    variables are the slots [items] it holds. *)
Inductive action :=
  | Complete (f p : HostRelationBatch) (idx adv : Z)
  | Range (count chunk_id batch_a_vals : Z)
  | TakeAssign
  | ClearRecall
  | Shutdown
  | IoPop                     (* items.clear(); popBatch *)
  | IoPopLate (waited : bool)
  | IoSend
  | IoRecv (msg : RecvMessage).

(** The tap, the I/O thread's slots, and the groups it has sent. *)
Record system := mkSystem { tap : AsyncNetworkDataTap; items : list TapSlot; io_sent : list (list TapSlot) }.

Definition system_init (coalesce_count : Z) : system := mkSystem (AsyncNetworkDataTap_init coalesce_count) [] [].

(** An action, when the thread that takes it is at the right place. *)
Definition act (a : action) (s : system) : option system :=
  let '(mkSystem t its l) := s in
  match a with
  | Complete f p idx adv => Some (mkSystem (onBatchComplete f p idx adv t) its l)
  | Range n c b => Some (mkSystem (setRange n c b t) its l)
  | TakeAssign => Some (mkSystem (snd (tryTakeChunkAssign t)) its l)
  | ClearRecall => Some (mkSystem (clearRecall t) its l)
  | Shutdown => Some (mkSystem (request_shutdown t) its l)
  | IoPop =>
      match its with
      | [] => if io_finished t then None
              else let '(its', t') := popBatch [] t in Some (mkSystem t' its' l)
      | _ => None
      end
  | IoPopLate w => let '(its', t') := popLate w its t in Some (mkSystem t' its' l)
  | IoSend => match its with [] => None | _ => Some (mkSystem t [] (l ++ [its])) end
  | IoRecv m => Some (mkSystem (on_control m t) its l)
  end.

(** The slots an action puts in the ring, and the batches it drops. *)
Definition accepted (a : action) (s : system) : list TapSlot :=
  match a with
  | Complete f p idx adv =>
      if negb (stop_ (tap s)) && (zlen (ring_ (tap s)) <? ring_room)
      then [mkSlot f p idx (a_advanced adv (batch_a_values_ (tap s)))] else []
  | _ => []
  end.
Definition dropped (a : action) (s : system) : Z :=
  match a with
  | Complete _ _ _ _ => if negb (stop_ (tap s)) && negb (zlen (ring_ (tap s)) <? ring_room) then 1 else 0
  | _ => 0
  end.

(** A sequence of actions: the system, the slots accepted and the batches dropped. *)
Fixpoint run (os : list action) (s : system) : option (system * list TapSlot * Z) :=
  match os with
  | [] => Some (s, [], 0)
  | a :: os' =>
      match act a s with
      | None => None
      | Some s1 =>
          match run os' s1 with
          | None => None
          | Some (s2, acc, n) => Some (s2, accepted a s ++ acc, dropped a s + n)
          end
      end
  end.

(** What the actions keep, with the counters taken from the slots accepted so far
    and the batches dropped. *)
Record tap_inv (k : Z) (s : system) (acc : list TapSlot) (n : Z) : Prop := mkTapInv {
  ti_order : concat (io_sent s) ++ items s ++ ring_ (tap s) = acc;
  ti_room : zlen (ring_ (tap s)) <= ring_room;
  ti_groups : Forall (fun g => g <> [] /\ zlen g <= Z.max 0 k) (io_sent s);
  ti_items : zlen (items s) <= Z.max 0 k;
  ti_count : coalesce_count (tap s) = k;
  ti_sent : batches_sent_ (tap s) = wrap 64 (zlen acc + n);
  ti_dropped : dropped_batches_ (tap s) = wrap 64 n
}.

End AsyncTap.

#[export] Program Instance DirectChannel_tap : DataTap DirectChannel.DirectChannel := {|
  onBatchComplete := DirectChannel.onBatchComplete;
  shouldStop := DirectChannel.shouldStop;
  tap_stop := DirectChannel.stop_;
  tap_limit := DirectChannel.range_a_limit_;
  tap_consumed := DirectChannel.range_a_consumed_;
  tap_default := DirectChannel.batch_a_values_
|}.
Next Obligation. intros c. unfold DirectChannel.shouldStop. by destruct (DirectChannel.stop_ c), (_ && _). Qed.
Next Obligation.
  intros f p i adv c _. cbn. unfold DirectChannel.drop_oldest. by destruct (_ =? _).
Qed.
Next Obligation. intros f p i adv c. cbn. unfold DirectChannel.drop_oldest. by destruct (_ =? _). Qed.

#[export] Program Instance AsyncTap_tap : DataTap AsyncTap.AsyncNetworkDataTap := {|
  onBatchComplete := AsyncTap.onBatchComplete;
  shouldStop := AsyncTap.shouldStop;
  tap_stop := AsyncTap.stop_;
  tap_limit := AsyncTap.range_a_limit_;
  tap_consumed := AsyncTap.range_a_consumed_;
  tap_default := AsyncTap.batch_a_values_
|}.
Next Obligation. intros t. unfold AsyncTap.shouldStop. by destruct (AsyncTap.stop_ t), (_ && _). Qed.
Next Obligation.
  intros f p i adv t H. unfold AsyncTap.onBatchComplete. rewrite H. by destruct (AsyncTap.tryPush _ _).
Qed.
Next Obligation.
  intros f p i adv t t'. unfold t', AsyncTap.onBatchComplete. destruct (AsyncTap.stop_ t) eqn:E; [done|].
  by destruct (AsyncTap.tryPush _ _).
Qed.

(** ** The client: a sieve loop that polls the tap *)

Record callback := mkCb { cb_full : HostRelationBatch; cb_partials : HostRelationBatch; cb_idx : Z; cb_adv : Z }.

(** [while (work left && !tap->shouldStop()) { ...; tap->onBatchComplete(...); }]: the
    callbacks made and the tap. *)
Fixpoint sieve_loop {T} `{DataTap T} (work : list callback) (t : T) : list callback * T :=
  match work with
  | [] => ([], t)
  | c :: work' =>
      if shouldStop t then ([], t)
      else
        let '(done, t') := sieve_loop work' (onBatchComplete (cb_full c) (cb_partials c) (cb_idx c) (cb_adv c) t) in
        (c :: done, t')
  end.

(** The a-values the callbacks stand for. *)
Definition sieved {T} `{DataTap T} (t : T) (cs : list callback) : Z :=
  zsum (map (fun c => a_advanced (cb_adv c) (tap_default t)) cs).

(** ** Vocabulary of the specifications *)

Definition channel_demo : list DirectChannel.op :=
  [DirectChannel.Complete batch_empty batch_empty 1 0; DirectChannel.Complete batch_empty batch_empty 2 0;
   DirectChannel.Complete batch_empty batch_empty 3 0; DirectChannel.Pop; DirectChannel.Pop; DirectChannel.Pop].

Definition tap_demo : list AsyncTap.action :=
  [AsyncTap.Complete demo_batch batch_empty 0 0; AsyncTap.IoPop; AsyncTap.Complete demo_batch batch_empty 1 4;
   AsyncTap.IoSend; AsyncTap.Shutdown; AsyncTap.IoPop; AsyncTap.IoSend].

(** ** Lemmas: the channel *)

Lemma mod_inj n a b : 0 < n -> a mod n = b mod n -> 0 <= b - a < n -> a = b.
Proof.
  intros Hn E Hd. pose proof (Z.div_mod a n ltac:(lia)). pose proof (Z.div_mod b n ltac:(lia)).
  set (qa := a / n) in *. set (qb := b / n) in *. assert (b - a = n * (qb - qa)) as Eq by (rewrite Z.mul_sub_distr_l; lia).
  assert (qb - qa < 1) by nia. assert (-1 < qb - qa) by nia. assert (qb - qa = 0) as Ez by lia.
  rewrite Ez in Eq. lia.
Qed.

Section channel.
Import DirectChannel.

Lemma channel_init_inv cap : 0 < cap -> chan_inv (DirectChannel_init cap) /\ waiting (DirectChannel_init cap) = [].
Proof.
  intros H. split; [|done]. constructor; cbn; rewrite ?length_replicate; [lia..| |lia]. by rewrite Z.mod_0_l by lia.
Qed.

Lemma waiting_length c : 0 <= count_ c -> Z.of_nat (length (waiting c)) = count_ c.
Proof. intros. unfold waiting. rewrite length_map, length_seq. lia. Qed.

(** Advancing the head drops the oldest entry, whatever the flags and the head slot become. *)
Lemma waiting_advance c c' :
  chan_inv c -> 0 < count_ c -> head_ c' = (head_ c + 1) mod capacity_ c -> count_ c' = count_ c - 1 ->
  capacity_ c' = capacity_ c -> tail_ c' = tail_ c -> length (buffer_ c') = length (buffer_ c) ->
  (forall i, 0 <= i < capacity_ c -> i <> head_ c -> slot c' i = slot c i) ->
  chan_inv c' /\ waiting c = slot c (head_ c) :: waiting c'.
Proof.
  intros H Hc Hh Hn Hcap Ht Hb Hs. pose proof (ci_capacity c H). pose proof (ci_head c H) as Hhd. split.
  - constructor; rewrite ?Hcap, ?Hb, ?Hh, ?Ht, ?Hn; try apply H.
    + apply Z.mod_pos_bound. lia.
    + rewrite (ci_tail c H), Z.add_mod_idemp_l by lia. f_equal. lia.
    + pose proof (ci_count c H). lia.
  - unfold waiting. replace (Z.to_nat (count_ c)) with (S (Z.to_nat (count_ c'))) by lia.
    cbn [seq map]. rewrite Z.add_0_r, Z.mod_small by done. f_equal.
    rewrite <- seq_shift, map_map. apply map_ext_in. intros k Hk. apply in_seq in Hk.
    assert ((head_ c' + Z.of_nat k) mod capacity_ c' = (head_ c + Z.of_nat (S k)) mod capacity_ c) as E.
    { rewrite Hcap, Hh, Z.add_mod_idemp_l by lia. f_equal. lia. }
    rewrite E. symmetry. apply Hs; [by apply Z.mod_pos_bound|]. intros Ei. pose proof (ci_count c H).
    assert (head_ c = head_ c + Z.of_nat (S k)); [|lia]. apply (mod_inj (capacity_ c)); [done| |lia].
    rewrite Ei. by apply Z.mod_small.
Qed.

Lemma waiting_enqueue p c :
  chan_inv c -> count_ c < capacity_ c -> chan_inv (enqueue p c) /\ waiting (enqueue p c) = waiting c ++ [p].
Proof.
  intros H Hc. pose proof (ci_capacity c H). pose proof (ci_count c H). pose proof (ci_tail c H) as Ht.
  assert (0 <= tail_ c < capacity_ c) as Htr by (rewrite Ht; by apply Z.mod_pos_bound).
  split.
  - constructor; cbn; rewrite ?length_insert; try apply H; [|lia].
    rewrite Ht, Z.add_mod_idemp_l by lia. f_equal. lia.
  - unfold waiting. cbn [count_ enqueue capacity_ head_].
    replace (Z.to_nat (count_ c + 1)) with (Z.to_nat (count_ c) + 1)%nat by lia. rewrite seq_app, map_app.
    assert (forall i, 0 <= i -> slot (enqueue p c) i = if decide (i = tail_ c) then p else slot c i) as Hs.
    { intros i Hi. unfold slot. cbn [buffer_ enqueue]. pose proof (ci_buffer c H). destruct (decide (i = tail_ c)) as [->|].
      - apply nth_lookup_Some. apply list_lookup_insert_eq. lia.
      - rewrite !nth_lookup, list_lookup_insert_ne by lia. done. }
    f_equal.
    + apply map_ext_in. intros k Hk. apply in_seq in Hk. rewrite Hs by (apply Z.mod_pos_bound; lia).
      rewrite decide_False; [done|]. rewrite Ht. intros E. apply mod_inj in E; lia.
    + cbn [map seq plus]. f_equal. rewrite Hs by (apply Z.mod_pos_bound; lia). rewrite decide_True; [done|].
      rewrite Ht. do 2 f_equal. lia.
Qed.

Lemma drop_oldest_spec c :
  chan_inv c ->
  chan_inv (drop_oldest c) /\ count_ (drop_oldest c) < capacity_ (drop_oldest c) /\
  capacity_ (drop_oldest c) = capacity_ c /\
  waiting (drop_oldest c) = drop (S (length (waiting c)) - Z.to_nat (capacity_ c)) (waiting c).
Proof.
  intros H. pose proof (ci_capacity c H). pose proof (ci_count c H) as Hc.
  pose proof (waiting_length c ltac:(lia)) as Hl. unfold drop_oldest.
  destruct (Z.eqb_spec (count_ c) (capacity_ c)) as [E|].
  - set (c' := mkChannel _ _ _ _ _ _ _ _ _).
    destruct (waiting_advance c c' H) as [Hi Hw]; try done; [lia|]. split_and!; [done|cbn; lia|done|].
    rewrite Hw in *. cbn [length] in *. replace (S (S (length (waiting c'))) - _)%nat with 1%nat by lia. done.
  - split_and!; [done|lia|done|]. replace (S _ - _)%nat with 0%nat by lia. done.
Qed.

Lemma apply_op_spec o c :
  chan_inv c ->
  let '(x, c') := apply_op o c in
  chan_inv c' /\ capacity_ c' = capacity_ c /\ (x, waiting c') = spec_op (Z.to_nat (capacity_ c)) o (waiting c).
Proof.
  intros H. destruct o as [f p idx adv| | |n b]; cbn [apply_op spec_op].
  - destruct (drop_oldest_spec c H) as (Hi & Hlt & Hcap & Hw).
    destruct (waiting_enqueue (mkPayload f p idx) _ Hi Hlt) as [Hi' Hw'].
    unfold onBatchComplete. set (c1 := enqueue _ _) in *. split_and!; [destruct Hi'; by constructor|done|].
    f_equal. change (waiting _) with (waiting c1) at 1. rewrite Hw', Hw, length_app. cbn [length].
    rewrite drop_app_le by (pose proof (ci_capacity c H); lia). do 2 f_equal. lia.
  - unfold tryPop. destruct (Z.eqb_spec (count_ c) 0) as [E|].
    + split_and!; try done. unfold waiting. by rewrite E.
    + pose proof (ci_count c H). pose proof (ci_head c H). pose proof (ci_buffer c H).
      match goal with |- chan_inv ?x /\ _ => destruct (waiting_advance c x H) as [Hi Hw] end; try done; [lia| | |].
      * cbn. by rewrite length_insert.
      * intros i Hr Hne. unfold slot. cbn [buffer_]. rewrite !nth_lookup, list_lookup_insert_ne by lia. done.
      * split_and!; [done|done|]. by rewrite Hw.
  - split_and!; [destruct H; by constructor|done|done].
  - split_and!; [destruct H; by constructor|done|done].
Qed.

Lemma run_spec os : forall c, chan_inv c ->
  let '(xs, c') := run apply_op os c in
  chan_inv c' /\ (xs, waiting c') = run (spec_op (Z.to_nat (capacity_ c))) os (waiting c).
Proof.
  induction os as [|o os IH]; intros c H; [done|]. cbn [run]. pose proof (apply_op_spec o c H) as Ho.
  destruct (apply_op o c) as [x c1]. destruct Ho as (H1 & Hcap & <-). specialize (IH c1 H1). rewrite Hcap in IH.
  destruct (run apply_op os c1) as [xs c2]. destruct IH as [H2 E]. split; [done|]. by rewrite <- E.
Qed.

End channel.

(** ** Lemmas: the network tap *)

Section async.
Import AsyncTap.

(** An action that leaves ring, counters and slots alone. *)
Lemma tap_inv_same k t t' its l acc n :
  ring_ t' = ring_ t -> coalesce_count t' = coalesce_count t -> batches_sent_ t' = batches_sent_ t ->
  dropped_batches_ t' = dropped_batches_ t ->
  tap_inv k (mkSystem t its l) acc n -> tap_inv k (mkSystem t' its l) acc n.
Proof. intros E1 E2 E3 E4 []. constructor; cbn in *; by rewrite ?E1, ?E2, ?E3, ?E4. Qed.

Lemma tap_inv_pop k t its l acc n :
  its = [] -> tap_inv k (mkSystem t its l) acc n ->
  tap_inv k (mkSystem (snd (popBatch its t)) (fst (popBatch its t)) l) acc n.
Proof.
  intros -> [Ho Hr Hg Hi Hc Hs Hd]. constructor; cbn in *; try done.
  - by rewrite take_drop.
  - unfold zlen in *. rewrite length_drop. lia.
  - rewrite Hc. unfold zlen. rewrite length_take. lia.
Qed.

Lemma wrap_succ w x : wrap w (wrap w x + 1) = wrap w (x + 1).
Proof. apply Zplus_mod_idemp_l. Qed.

Lemma on_control_frame m t :
  ring_ (on_control m t) = ring_ t /\ coalesce_count (on_control m t) = coalesce_count t /\
  batches_sent_ (on_control m t) = batches_sent_ t /\ dropped_batches_ (on_control m t) = dropped_batches_ t.
Proof.
  unfold on_control. destruct (negb _); [done|]. destruct (_ || _); [done|].
  destruct (is_type _ _); [by destruct (_ =? _)|]. destruct (is_type _ _); [|done]. by destruct (_ <=? _).
Qed.

Lemma act_inv k a s s' acc n :
  tap_inv k s acc n -> act a s = Some s' -> tap_inv k s' (acc ++ accepted a s) (n + dropped a s).
Proof.
  intros H E. destruct s as [t its l].
  destruct a as [f p idx adv|c ci b| | | | |w| |m]; cbn [act] in E;
    try (injection E as <-; cbn [accepted dropped]; rewrite app_nil_r, Z.add_0_r; revert H; by apply tap_inv_same).
  - injection E as <-. destruct H as [Ho Hr Hg Hi Hc Hs Hd]. cbn [items io_sent tap] in *.
    unfold onBatchComplete, accepted, dropped, tryPush. cbn [tap].
    destruct (stop_ t) eqn:Es; cbn [negb andb]; [rewrite app_nil_r, Z.add_0_r; by constructor|].
    destruct (Z.ltb_spec (zlen (ring_ t)) ring_room); cbn [negb].
    + constructor; cbn [tap ring_ items io_sent coalesce_count batches_sent_ dropped_batches_]; try done.
      * by rewrite <- Ho, <- !app_assoc.
      * rewrite zlen_app. unfold zlen at 2. cbn. lia.
      * rewrite Hs, wrap_succ, zlen_app. unfold zlen at 3. cbn. f_equal. lia.
      * by rewrite Z.add_0_r.
    + rewrite app_nil_r. constructor; cbn [tap ring_ items io_sent coalesce_count batches_sent_ dropped_batches_]; try done.
      * rewrite Hs, wrap_succ. f_equal. lia.
      * by rewrite Hd, wrap_succ.
  - unfold tryTakeChunkAssign in E. injection E as <-. cbn [accepted dropped]. rewrite app_nil_r, Z.add_0_r.
    revert H. by destruct (negb _); [|apply tap_inv_same].
  - destruct its; [|done]. destruct (io_finished t); [done|]. injection E as <-.
    cbn [accepted dropped]. rewrite app_nil_r, Z.add_0_r. by apply (tap_inv_pop k t [] l).
  - unfold popLate in E. cbn [accepted dropped]. rewrite app_nil_r, Z.add_0_r.
    destruct ((zlen its =? 0) && _ && _ && w) eqn:Eb; [|by injection E as <-].
    assert (its = []) as Ei.
    { destruct its; [done|]. unfold zlen in Eb. cbn [length] in Eb.
      destruct (Z.eqb_spec (Z.of_nat (S (length its))) 0); [lia|done]. }
    injection E as <-. by apply (tap_inv_pop k t its l).
  - destruct its as [|x its]; [done|]. injection E as <-. cbn [accepted dropped]. rewrite app_nil_r, Z.add_0_r.
    destruct H as [Ho Hr Hg Hi Hc Hs Hd]. cbn [items io_sent tap] in *. constructor; cbn [items io_sent tap]; try done.
    + rewrite concat_app. cbn [concat]. by rewrite app_nil_r, <- Ho, <- app_assoc.
    + apply Forall_app. split; [done|]. by repeat constructor.
    + unfold zlen. cbn. lia.
  - injection E as <-. cbn [accepted dropped]. rewrite app_nil_r, Z.add_0_r.
    destruct (on_control_frame m t) as (? & ? & ? & ?). revert H. by apply tap_inv_same.
Qed.

Lemma run_inv k os : forall s s' acc0 n0 acc n,
  tap_inv k s acc0 n0 -> run os s = Some (s', acc, n) -> tap_inv k s' (acc0 ++ acc) (n0 + n).
Proof.
  induction os as [|a os IH]; intros s s' acc0 n0 acc n H E; cbn [run] in E.
  { injection E as <- <- <-. by rewrite app_nil_r, Z.add_0_r. }
  destruct (act a s) as [s1|] eqn:E1; [|done]. destruct (run os s1) as [[[s2 acc1] n1]|] eqn:E2; [|done].
  injection E as <- <- <-. rewrite app_assoc, Z.add_assoc. eapply IH; [|exact E2]. by eapply act_inv.
Qed.

Lemma tap_init_inv k : tap_inv k (system_init k) [] 0.
Proof. constructor; cbn; try done; unfold zlen, ring_room; cbn; lia. Qed.

Lemma slots_counts (g : TapSlot -> HostRelationBatch) items rss :
  Forall2 (fun s rs => repr (g s) rs) items rss ->
  Forall2 repr (map g items) rss /\
  Forall2 (fun rs n => 0 <= n <= zlen rs) rss (map (fun s => num_relations (g s)) items) /\
  merged rss (map (fun s => num_relations (g s)) items) = concat rss.
Proof.
  intros H. induction H as [|s rs its rss Hs _ (IH1 & IH2 & IH3)]; [done|]. cbn [map].
  assert (num_relations (g s) = zlen rs) as E by apply (repr_num_relations _ _ Hs).
  split_and!; [by constructor|constructor; [rewrite E; pose proof (zlen_nonneg rs); lia|done]|].
  rewrite merged_cons, IH3, E. unfold zlen. by rewrite Nat2Z.id, firstn_all.
Qed.

End async.

(** ** The properties *)

(** The coordinator's circular buffer, under every sequence of completed batches,
    pops, stop signals and range changes, returns from each pop what an unbounded list
    that keeps its [capacity] newest entries would return, holds exactly that list at
    the end, and never indexes outside its array. *)
Theorem channel_refines cap os :
  0 < cap ->
  let '(xs, c) := DirectChannel.run DirectChannel.apply_op os (DirectChannel.DirectChannel_init cap) in
  (xs, DirectChannel.waiting c) = DirectChannel.run (DirectChannel.spec_op (Z.to_nat cap)) os [] /\
  0 <= DirectChannel.head_ c < zlen (DirectChannel.buffer_ c) /\ 0 <= DirectChannel.tail_ c < zlen (DirectChannel.buffer_ c).
Proof.
  intros Hc. destruct (channel_init_inv cap Hc) as [Hi Hw]. pose proof (run_spec os _ Hi) as H.
  destruct (DirectChannel.run DirectChannel.apply_op os _) as [xs c]. destruct H as [H E]. rewrite Hw in E.
  unfold zlen. rewrite (DirectChannel.ci_buffer c H). split_and!; [exact E| | | |]; try apply H.
  - rewrite (DirectChannel.ci_tail c H). apply Z.mod_pos_bound, H.
  - rewrite (DirectChannel.ci_tail c H). apply Z.mod_pos_bound, H.
Qed.

Lemma channel_refines_witness :
  (DirectChannel.run DirectChannel.apply_op channel_demo (DirectChannel.DirectChannel_init 2)).1
  = [None; None; None; Some (DirectChannel.mkPayload batch_empty batch_empty 2);
     Some (DirectChannel.mkPayload batch_empty batch_empty 3); None].
Proof.
  pose proof (channel_refines 2 channel_demo eq_refl) as H.
  destruct (DirectChannel.run DirectChannel.apply_op channel_demo (DirectChannel.DirectChannel_init 2)) as [xs c].
  vm_compute in H. exact (f_equal fst (proj1 H)).
Defined.

(** C29. Over every interleaving of the sieve thread, the main thread and the I/O
    thread, the slots the ring accepted are, in order, those already sent, those the
    I/O thread holds and those still in the ring; every group sent is a non-empty one
    of at most [coalesce_count] slots; the counters are exact; and the I/O thread can
    only leave its loop with the ring empty. *)
Theorem tap_exactly_once k os s acc n :
  AsyncTap.run os (AsyncTap.system_init k) = Some (s, acc, n) ->
  concat (AsyncTap.io_sent s) ++ AsyncTap.items s ++ AsyncTap.ring_ (AsyncTap.tap s) = acc /\
  Forall (fun g => g <> [] /\ zlen g <= Z.max 0 k) (AsyncTap.io_sent s) /\
  zlen (AsyncTap.ring_ (AsyncTap.tap s)) <= 31 /\
  AsyncTap.batchesSent (AsyncTap.tap s) = wrap 64 (zlen acc + n) /\
  AsyncTap.droppedBatches (AsyncTap.tap s) = wrap 64 n /\
  (AsyncTap.io_finished (AsyncTap.tap s) = true -> AsyncTap.items s = [] -> concat (AsyncTap.io_sent s) = acc).
Proof.
  intros E. destruct (run_inv k os _ s [] 0 acc n (tap_init_inv k) E) as [Ho Hr Hg Hi Hc Hs Hd].
  split_and!; try done. intros Hf Hi0. unfold AsyncTap.io_finished in Hf. apply andb_true_iff in Hf as [_ Hz%Z.eqb_eq].
  cbn [app] in Ho. rewrite <- Ho, Hi0. destruct (AsyncTap.ring_ (AsyncTap.tap s)); [by rewrite !app_nil_r|].
  unfold zlen in Hz. cbn in Hz. lia.
Qed.

Lemma tap_exactly_once_witness :
  match AsyncTap.run tap_demo (AsyncTap.system_init 8) with
  | Some (s, acc, _) => concat (AsyncTap.io_sent s) = acc /\ length acc = 2%nat
  | None => False
  end.
Proof.
  destruct (AsyncTap.run tap_demo (AsyncTap.system_init 8)) as [[[s acc] n]|] eqn:E; [|vm_compute in E; discriminate E].
  pose proof (proj2 (proj2 (proj2 (proj2 (proj2 (tap_exactly_once 8 tap_demo s acc n E)))))) as H.
  vm_compute in E. injection E as <- <- <-. split; [exact (H eq_refl eq_refl)|reflexivity].
Defined.

(** A group of slots is sent as one message, and the receiver's incremental
    decoder turns it into the concatenation of the slots' full relations and the
    concatenation of their partial relations. *)
Theorem coalesce_decodes items fss pss out1 out2 :
  items <> [] ->
  Forall2 (fun s rs => repr (AsyncTap.full s) rs) items fss ->
  Forall2 (fun s rs => repr (AsyncTap.partials s) rs) items pss ->
  Forall relation_ok (concat fss) -> Forall relation_ok (concat pss) ->
  8 + zlen (wire_batch (concat fss)) + zlen (wire_batch (concat pss)) < 2 ^ 32 ->
  idx (factor_offsets out1) 0 = 0 -> idx (factor_offsets out2) 0 = 0 ->
  exists payload out1' out2',
    AsyncTap.coalesce items = Some (Some (code INCREMENTAL_BATCH, payload)) /\
    deserializeIncrementalBatch payload out1 out2 = (true, out1', out2') /\
    repr out1' (concat fss) /\ repr out2' (concat pss).
Proof.
  intros Hne Hf Hp Of Op Hl O1 O2. unfold AsyncTap.coalesce.
  destruct (Z.eqb_spec (zlen items) 0) as [Hz|_]; [destruct items; [done|unfold zlen in Hz; cbn in Hz; lia]|].
  destruct (slots_counts _ items fss Hf) as (Rf & Cf & Mf). destruct (slots_counts _ items pss Hp) as (Rp & Cp & Mp).
  destruct (merge_exact _ _ _ Rf Cf) as (mf & -> & Nf & Hmf). destruct (merge_exact _ _ _ Rp Cp) as (mp & -> & Np & Hmp).
  rewrite Mf in Nf, Hmf. rewrite Mp in Np, Hmp. rewrite Nf, Np.
  pose proof (zlen_nonneg (wire_batch (concat fss))). pose proof (zlen_nonneg (wire_batch (concat pss))).
  destruct (incremental_exact mf mp _ _ out1 out2 Hmf Hmp Of Op ltac:(lia) ltac:(lia) O1 O2)
    as (buf & o1 & o2 & -> & D & R1 & R2 & Lb).
  destruct (Z.ltb_spec 0 (zlen buf)); [|lia]. exists buf, o1, o2. split; [|done].
  do 3 f_equal. rewrite wrap_small by (split; lia). apply take_ge. unfold zlen. lia.
Qed.

Lemma coalesce_decodes_witness :
  exists payload out1' out2',
    AsyncTap.coalesce [AsyncTap.mkSlot demo_batch demo_batch 0 1; AsyncTap.mkSlot demo_batch demo_batch 1 1]
    = Some (Some (code INCREMENTAL_BATCH, payload)) /\
    deserializeIncrementalBatch payload batch_empty batch_empty = (true, out1', out2') /\
    repr out1' (concat [relations demo_batch; relations demo_batch]) /\
    repr out2' (concat [relations demo_batch; relations demo_batch]).
Proof.
  refine (coalesce_decodes _ _ _ batch_empty batch_empty _ _ _ _ _ _ eq_refl eq_refl);
    [done|repeat constructor; apply wf_repr, demo_batch_wf|repeat constructor; apply wf_repr, demo_batch_wf
    |apply (bool_decide_unpack _); vm_compute; exact I..|reflexivity].
Defined.

(** Whichever tap it polls, a sieve loop that starts a fresh range of [limit]
    a-values and is not told to stop makes callbacks until the assigned range is used
    up, then stops; the a-values accounted for are those of its callbacks and exceed
    the range by less than one callback's step. *)
Theorem sieve_loop_range {T} `{DataTap T} (t : T) work step :
  tap_stop t = false -> 0 < tap_limit t -> tap_consumed t = 0 -> tap_limit t + step < 2 ^ 64 ->
  Forall (fun c => 1 <= a_advanced (cb_adv c) (tap_default t) <= step) work ->
  tap_limit t <= sieved t work ->
  let '(cs, t') := sieve_loop work t in
  shouldStop t' = true /\ tap_consumed t' = sieved t cs /\ cs `prefix_of` work /\
  tap_limit t <= sieved t cs < tap_limit t + step.
Proof.
  intros Hs Hl Hc Hw Hf Hn.
  assert (forall work (u : T) base, tap_stop u = false -> tap_limit u = tap_limit t -> tap_default u = tap_default t ->
    tap_consumed u = base -> 0 <= base < tap_limit t + step ->
    Forall (fun c => 1 <= a_advanced (cb_adv c) (tap_default t) <= step) work -> tap_limit t <= base + sieved t work ->
    let '(cs, u') := sieve_loop work u in
    shouldStop u' = true /\ tap_consumed u' = base + sieved t cs /\ cs `prefix_of` work /\
    tap_limit t <= base + sieved t cs < tap_limit t + step) as Hloop.
  2: { pose proof (Hloop work t 0 Hs eq_refl eq_refl Hc ltac:(destruct work as [|c w]; [cbn in Hn; lia|inversion Hf; lia]) Hf Hn) as Hr.
       by destruct (sieve_loop work t). }
  clear work Hf Hn Hs Hc. intros work. induction work as [|c work IH]; intros u base Us Ul Ud Uc Hb Hf Hn; cbn [sieve_loop].
  - cbn in Hn. rewrite tap_shouldStop, Us, Ul, Uc. cbn.
    split_and!; [apply andb_true_iff; split; [apply Z.ltb_lt|apply Z.leb_le]; lia|lia|done|lia|lia].
  - assert (1 <= a_advanced (cb_adv c) (tap_default t) <= step /\
      Forall (fun c => 1 <= a_advanced (cb_adv c) (tap_default t) <= step) work) as [Hc Hf'] by (inversion Hf; done).
    destruct (shouldStop u) eqn:E.
    + rewrite tap_shouldStop, Us, Ul, Uc in E. cbn in E. apply andb_true_iff in E as [_ E%Z.leb_le]. cbn.
      split_and!; [|lia|apply prefix_nil|lia|lia]. rewrite tap_shouldStop, Us, Ul, Uc. cbn.
      apply andb_true_iff. split; [apply Z.ltb_lt|apply Z.leb_le]; lia.
    + assert (base < tap_limit t) as Hlt.
      { rewrite tap_shouldStop, Us, Ul, Uc in E. cbn in E. apply andb_false_iff in E as [E%Z.ltb_ge|E%Z.leb_gt]; lia. }
      destruct (tap_frame (cb_full c) (cb_partials c) (cb_idx c) (cb_adv c) u) as (Fs & Fl & Fd).
      pose proof (tap_accounts (cb_full c) (cb_partials c) (cb_idx c) (cb_adv c) u Us) as Fa.
      rewrite Uc, Ud, wrap_small in Fa by (unfold in_width; lia).
      set (u1 := onBatchComplete _ _ _ _ u) in *.
      specialize (IH u1 (base + a_advanced (cb_adv c) (tap_default t))).
      assert (forall l, sieved t (c :: l) = a_advanced (cb_adv c) (tap_default t) + sieved t l) as Hsv by done.
      rewrite Hsv in Hn. destruct (sieve_loop work u1) as [cs u'].
      destruct IH as (I1 & I2 & I3 & I4); [congruence..|exact Fa|lia|done|lia|].
      rewrite Hsv. split_and!; [done|lia| |lia|lia]. by apply prefix_cons.
Qed.

Lemma sieve_loop_range_witness :
  shouldStop (snd (sieve_loop [mkCb demo_batch batch_empty 0 0; mkCb demo_batch batch_empty 1 8; mkCb demo_batch batch_empty 2 0]
    (AsyncTap.setRange 10 7 4 (AsyncTap.AsyncNetworkDataTap_init 8)))) = true.
Proof.
  refine (proj1 (sieve_loop_range (AsyncTap.setRange 10 7 4 (AsyncTap.AsyncNetworkDataTap_init 8))
    [mkCb demo_batch batch_empty 0 0; mkCb demo_batch batch_empty 1 8; mkCb demo_batch batch_empty 2 0] 8 _ _ _ _ _ _));
    [done|done|done|done|repeat constructor; cbn; lia|cbn; lia].
Defined.
