(* ===== verification/WorkPool.v ===== *)
(** The coordinator's pool of polynomial work units ([src/src/cluster/work_pool.h],
    [work_pool.cpp]): tracked checkout, completion, reclaim, and the completed
    prefix cursor that the cluster checkpoint stores.

    Every method holds the pool's mutex for its whole body, so a method is one
    atomic step; the steady clock reading of a checkout is an argument. *)
From Stdlib Require Import ZArith Lia.
From stdpp Require Import base gmap sets list.
From S2P Require Import Prelude.
#[local] Open Scope Z_scope.

Record WorkUnit := mkWorkUnit { wu_start : Z; wu_count : Z }.

Record CheckedOutWork := mkCheckedOutWork {
  cw_chunk_id : Z;
  cw_unit : WorkUnit;
  cw_worker_id : Z;
  cw_checkout_time : Z
}.

Record WorkPool := mkWorkPool {
  next_ : Z;
  end_ : Z;
  unit_size_ : Z;
  next_chunk_id_ : Z;
  in_flight_ : list CheckedOutWork;
  returned_ : list WorkUnit
}.

#[global] Instance WorkUnit_eq_dec : EqDecision WorkUnit.
Proof. solve_decision. Defined.
#[global] Instance CheckedOutWork_eq_dec : EqDecision CheckedOutWork.
Proof. solve_decision. Defined.

(** ** Operations *)

Definition WorkPool_init (a_start total_a unit_size : Z) : WorkPool :=
  mkWorkPool a_start (wrap 64 (a_start + total_a)) unit_size 0 [] [].

(** The tail both branches of [checkoutWork] share: number the chunk, log it in
    [in_flight_]. [next_chunk_id_] is a [uint32_t]. *)
Definition recordCheckout (p : WorkPool) (wu : WorkUnit) (worker_id now : Z)
    : WorkPool * CheckedOutWork :=
  let cw := mkCheckedOutWork (next_chunk_id_ p) wu worker_id now in
  (mkWorkPool (next_ p) (end_ p) (unit_size_ p) (wrap 32 (next_chunk_id_ p + 1))
     (in_flight_ p ++ [cw]) (returned_ p), cw).

Definition with_returned (p : WorkPool) (r : list WorkUnit) : WorkPool :=
  mkWorkPool (next_ p) (end_ p) (unit_size_ p) (next_chunk_id_ p) (in_flight_ p) r.
Definition with_next (p : WorkPool) (n : Z) : WorkPool :=
  mkWorkPool n (end_ p) (unit_size_ p) (next_chunk_id_ p) (in_flight_ p) (returned_ p).
Definition with_in_flight (p : WorkPool) (l : list CheckedOutWork) : WorkPool :=
  mkWorkPool (next_ p) (end_ p) (unit_size_ p) (next_chunk_id_ p) l (returned_ p).

Definition checkoutWork (p : WorkPool) (count worker_id now : Z)
    : WorkPool * option CheckedOutWork :=
  match vec_pop_back (returned_ p) with
  | Some (rest, wu) =>
      let '(rest', wu') :=
        if count <? wu_count wu
        then (rest ++ [mkWorkUnit (wrap 64 (wu_start wu + count)) (wrap 64 (wu_count wu - count))],
              mkWorkUnit (wu_start wu) count)
        else (rest, wu) in
      let '(p', cw) := recordCheckout (with_returned p rest') wu' worker_id now in
      (p', Some cw)
  | None =>
      if end_ p <=? next_ p then (p, None)
      else
        let actual := Z.min count (wrap 64 (end_ p - next_ p)) in
        let wu := mkWorkUnit (next_ p) actual in
        let '(p', cw) :=
          recordCheckout (with_next p (wrap 64 (next_ p + actual))) wu worker_id now in
        (p', Some cw)
  end.

Definition requestWork_n (p : WorkPool) (requested_count now : Z) : WorkPool * option WorkUnit :=
  let '(p', cw) := checkoutWork p requested_count 0 now in (p', cw_unit <$> cw).

Definition requestWork (p : WorkPool) (now : Z) : WorkPool * option WorkUnit :=
  let '(p', cw) := checkoutWork p (unit_size_ p) 0 now in (p', cw_unit <$> cw).

Definition has_id (chunk_id : Z) (c : CheckedOutWork) : bool := cw_chunk_id c =? chunk_id.

Definition completeChunk (p : WorkPool) (chunk_id : Z) : WorkPool :=
  with_in_flight p (erase_first (has_id chunk_id) (in_flight_ p)).

Definition returnChunk (p : WorkPool) (chunk_id : Z) : WorkPool * Z :=
  match List.find (has_id chunk_id) (in_flight_ p) with
  | Some cw =>
      (with_in_flight (with_returned p (returned_ p ++ [cw_unit cw]))
         (erase_first (has_id chunk_id) (in_flight_ p)), wu_count (cw_unit cw))
  | None => (p, 0)
  end.

(** The erase loop of [reclaimWork]: (kept in flight, returned, reclaimed count). *)
Fixpoint reclaim_loop (worker_id : Z) (l : list CheckedOutWork)
    (ret : list WorkUnit) (reclaimed : Z) : list CheckedOutWork * list WorkUnit * Z :=
  match l with
  | [] => ([], ret, reclaimed)
  | c :: l' =>
      if cw_worker_id c =? worker_id
      then reclaim_loop worker_id l' (ret ++ [cw_unit c])
             (wrap 64 (reclaimed + wu_count (cw_unit c)))
      else let '(keep, ret', n) := reclaim_loop worker_id l' ret reclaimed in
           (c :: keep, ret', n)
  end.

Definition reclaimWork (p : WorkPool) (worker_id : Z) : WorkPool * Z :=
  let '(keep, ret, n) := reclaim_loop worker_id (in_flight_ p) (returned_ p) 0 in
  (with_in_flight (with_returned p ret) keep, n).

Definition reclaimPartial (p : WorkPool) (chunk_id consumed_count : Z) : WorkPool :=
  match List.find (has_id chunk_id) (in_flight_ p) with
  | None => p
  | Some cw =>
      let unit := cw_unit cw in
      let actual_consumed := Z.min consumed_count (wu_count unit) in
      let remainder := wrap 64 (wu_count unit - actual_consumed) in
      let ret := if 0 <? remainder
                 then returned_ p ++ [mkWorkUnit (wrap 64 (wu_start unit + actual_consumed)) remainder]
                 else returned_ p in
      with_in_flight (with_returned p ret) (erase_first (has_id chunk_id) (in_flight_ p))
  end.

Definition inFlightChunks (p : WorkPool) : list CheckedOutWork := in_flight_ p.

(** [for (auto& wu : ...) total += wu.count] on a [uint64_t]. *)
Definition sum_counts (us : list WorkUnit) : Z :=
  foldl (fun acc u => wrap 64 (acc + wu_count u)) 0 us.

Definition remaining (p : WorkPool) : Z :=
  let linear := if next_ p <? end_ p then wrap 64 (end_ p - next_ p) else 0 in
  wrap 64 (linear + sum_counts (returned_ p)).

Definition exhausted (p : WorkPool) : bool :=
  (end_ p <=? next_ p) && match returned_ p with [] => true | _ => false end.

Definition inFlight (p : WorkPool) : Z := sum_counts (map cw_unit (in_flight_ p)).

Definition inFlightFor (p : WorkPool) (worker_id : Z) : Z :=
  sum_counts (map cw_unit (List.filter (fun c => cw_worker_id c =? worker_id) (in_flight_ p))).

Definition remainingOrInFlight (p : WorkPool) : Z := wrap 64 (remaining p + inFlight p).

Definition nextCursor (p : WorkPool) : Z := next_ p.
Definition endCursor (p : WorkPool) : Z := end_ p.

Definition completedPrefixCursor (p : WorkPool) : Z :=
  let c := foldl (fun c cw => Z.min c (wu_start (cw_unit cw))) (next_ p) (in_flight_ p) in
  foldl (fun c wu => Z.min c (wu_start wu)) c (returned_ p).

(** [setCursor] asserts a clean state and a cursor within the pool. *)
Definition setCursor (p : WorkPool) (cursor : Z) : option WorkPool :=
  match in_flight_ p, returned_ p with
  | [], [] => if cursor <=? end_ p then Some (with_next p cursor) else None
  | _, _ => None
  end.

(** ** The pool as a transition system

    [done] is the history of the units reported sieved: whole chunks by
    [completeChunk], the consumed prefix of a chunk by [reclaimPartial]. *)

Inductive pool_op :=
| OpCheckout (count worker_id now : Z)
| OpComplete (chunk_id : Z)
| OpReturn (chunk_id : Z)
| OpReclaim (worker_id : Z)
| OpReclaimPartial (chunk_id consumed_count : Z).

Definition run_op (op : pool_op) (p : WorkPool) : WorkPool :=
  match op with
  | OpCheckout n w now => (checkoutWork p n w now).1
  | OpComplete id => completeChunk p id
  | OpReturn id => (returnChunk p id).1
  | OpReclaim w => (reclaimWork p w).1
  | OpReclaimPartial id n => reclaimPartial p id n
  end.

Definition sieved_by (op : pool_op) (p : WorkPool) : list WorkUnit :=
  match op with
  | OpComplete id =>
      match List.find (has_id id) (in_flight_ p) with
      | Some c => [cw_unit c] | None => [] end
  | OpReclaimPartial id n =>
      match List.find (has_id id) (in_flight_ p) with
      | Some c => [mkWorkUnit (wu_start (cw_unit c)) (Z.min n (wu_count (cw_unit c)))]
      | None => [] end
  | _ => []
  end.

(** The counts of the protocol messages are [uint64_t]. *)
Definition op_ok (op : pool_op) : Prop :=
  match op with
  | OpCheckout n _ _ => in_width 64 n
  | OpReclaimPartial _ n => in_width 64 n
  | _ => True
  end.

(** 1 when the operation hands out a chunk. *)
Definition issued_by (op : pool_op) (p : WorkPool) : Z :=
  match op with
  | OpCheckout n w now => if (checkoutWork p n w now).2 is Some _ then 1 else 0
  | _ => 0
  end.

(** Pools reachable from the initial one, with the units sieved so far and the
    number of chunks handed out. *)
Inductive pool_reach (a_start total_a unit_size : Z) : list WorkUnit -> Z -> WorkPool -> Prop :=
| reach_init : pool_reach a_start total_a unit_size [] 0 (WorkPool_init a_start total_a unit_size)
| reach_step d k p op :
    pool_reach a_start total_a unit_size d k p -> op_ok op ->
    pool_reach a_start total_a unit_size (d ++ sieved_by op p) (k + issued_by op p) (run_op op p).

Definition in_unit (i : Z) (u : WorkUnit) : bool :=
  (wu_start u <=? i) && (i <? wu_start u + wu_count u).

(** How many of the units contain the a-value index [i]. *)
Definition covers (us : list WorkUnit) (i : Z) : Z :=
  zsum (map (fun u => if in_unit i u then 1 else 0) us).

Definition units_total (us : list WorkUnit) : Z := zsum (map wu_count us).

Definition flying (p : WorkPool) : list WorkUnit := map cw_unit (in_flight_ p).
Definition linear_part (p : WorkPool) : WorkUnit := mkWorkUnit (next_ p) (end_ p - next_ p).

(** ** Vocabulary of the specifications *)

Definition unit_ok (lo hi : Z) (u : WorkUnit) : Prop :=
  0 <= wu_count u /\ lo <= wu_start u /\ wu_start u + wu_count u <= hi.

Record pool_inv (a total : Z) (d : list WorkUnit) (p : WorkPool) : Prop := {
  inv_end : end_ p = a + total;
  inv_next : a <= next_ p <= end_ p;
  inv_done : Forall (unit_ok a (next_ p)) d;
  inv_flying : Forall (unit_ok a (next_ p)) (flying p);
  inv_returned : Forall (unit_ok a (next_ p)) (returned_ p);
  inv_cover : forall i,
    covers d i + covers (flying p) i + covers (returned_ p) i + covers [linear_part p] i =
    if in_unit i (mkWorkUnit a total) then 1 else 0;
  inv_account : units_total d + units_total (flying p) + units_total (returned_ p)
                + (end_ p - next_ p) = total
}.

Definition min_start (c : Z) (us : list WorkUnit) : Z :=
  foldl (fun c u => Z.min c (wu_start u)) c us.

Definition chunk_ids (p : WorkPool) : list Z := map cw_chunk_id (in_flight_ p).

Fixpoint run_trace (ops : list pool_op) (s : list WorkUnit * Z * WorkPool)
    : list WorkUnit * Z * WorkPool :=
  match ops with
  | [] => s
  | op :: ops' =>
      let '(d, k, p) := s in
      run_trace ops' (d ++ sieved_by op p, k + issued_by op p, run_op op p)
  end.

Definition demo_ops : list pool_op :=
  [OpCheckout 64 1 0; OpCheckout 64 2 1; OpCheckout 100 3 2; OpComplete 0;
   OpReclaimPartial 1 10; OpReclaim 3; OpCheckout 30 4 5].
Definition demo_state := run_trace demo_ops ([], 0, WorkPool_init 10 1000 64).

(** ** Covering lemmas *)

Lemma covers_nil i : covers [] i = 0.
Proof. done. Qed.

Lemma covers_cons u us i : covers (u :: us) i = (if in_unit i u then 1 else 0) + covers us i.
Proof. done. Qed.

Lemma covers_app us1 us2 i : covers (us1 ++ us2) i = covers us1 i + covers us2 i.
Proof. unfold covers. by rewrite map_app, zsum_app. Qed.

Lemma covers_nonneg us i : 0 <= covers us i.
Proof. induction us as [|u us IH]; [done|]. rewrite covers_cons. destruct (in_unit i u); lia. Qed.

Lemma units_total_app us1 us2 : units_total (us1 ++ us2) = units_total us1 + units_total us2.
Proof. unfold units_total. by rewrite map_app, zsum_app. Qed.

Lemma units_total_cons u us : units_total (u :: us) = wu_count u + units_total us.
Proof. done. Qed.

Lemma units_total_nil : units_total [] = 0.
Proof. done. Qed.

#[export] Hint Rewrite covers_nil covers_cons covers_app
  units_total_nil units_total_cons units_total_app : mpqs_simpl.

(** Cutting a unit in two covers the same indices. *)
Lemma in_unit_split i s n m :
  0 <= n -> 0 <= m ->
  (if in_unit i (mkWorkUnit s (n + m)) then 1 else 0) =
  (if in_unit i (mkWorkUnit s n) then 1 else 0) +
  (if in_unit i (mkWorkUnit (s + n) m) then 1 else 0).
Proof.
  intros. unfold in_unit; simpl.
  destruct (Z.leb_spec s i), (Z.ltb_spec i (s + n)), (Z.leb_spec (s + n) i),
    (Z.ltb_spec i (s + (n + m))), (Z.ltb_spec i (s + n + m)); simpl; lia.
Qed.

Lemma in_unit_empty i u : wu_count u <= 0 -> in_unit i u = false.
Proof. unfold in_unit. destruct (Z.leb_spec (wu_start u) i), (Z.ltb_spec i (wu_start u + wu_count u)); simpl; lia. Qed.

Lemma covers_member us u i :
  u ∈ us -> in_unit i u = true -> 1 <= covers us i.
Proof.
  induction 1 as [u us|u u' us _ IH]; intros Hi; rewrite covers_cons.
  - rewrite Hi. pose proof (covers_nonneg us i). lia.
  - specialize (IH Hi). destruct (in_unit i u'); lia.
Qed.

Lemma covers_none us i : Forall (fun u => in_unit i u = false) us -> covers us i = 0.
Proof. induction 1 as [|u us Hu _ IH]; [done|]. by rewrite covers_cons, Hu, IH. Qed.

Lemma flying_erase id p c :
  List.find (has_id id) (in_flight_ p) = Some c ->
  exists l1 l2, flying p = l1 ++ cw_unit c :: l2 /\
    map cw_unit (erase_first (has_id id) (in_flight_ p)) = l1 ++ l2.
Proof.
  intros (l1 & l2 & Hl & -> & _)%erase_first_split.
  exists (map cw_unit l1), (map cw_unit l2). unfold flying. by rewrite Hl, !map_app.
Qed.

(** The reclaim loop moves units from in flight to returned. *)
Lemma reclaim_loop_spec w l ret n keep ret' n' :
  reclaim_loop w l ret n = (keep, ret', n') ->
  keep = List.filter (fun c => negb (cw_worker_id c =? w)) l /\
  ret' = ret ++ map cw_unit (List.filter (fun c => cw_worker_id c =? w) l).
Proof.
  revert ret n keep ret' n'. induction l as [|c l IH]; simpl; intros ret n keep ret' n'.
  - intros [= <- <- _]. by rewrite app_nil_r.
  - destruct (cw_worker_id c =? w); simpl.
    + intros H. apply IH in H as [-> ->]. by rewrite <- app_assoc.
    + destruct (reclaim_loop w l ret n) as [[k r] m] eqn:E.
      intros [= <- <- _]. apply IH in E as [-> ->]. done.
Qed.

Lemma covers_filter (P : CheckedOutWork -> bool) l i :
  covers (map cw_unit (List.filter (fun c => negb (P c)) l)) i +
  covers (map cw_unit (List.filter P l)) i = covers (map cw_unit l) i.
Proof.
  induction l as [|c l IH]; [done|]. simpl.
  destruct (P c); simpl; rewrite !covers_cons; lia.
Qed.

Lemma units_total_filter (P : CheckedOutWork -> bool) l :
  units_total (map cw_unit (List.filter (fun c => negb (P c)) l)) +
  units_total (map cw_unit (List.filter P l)) = units_total (map cw_unit l).
Proof.
  induction l as [|c l IH]; [done|]. simpl.
  destruct (P c); simpl; rewrite !units_total_cons; lia.
Qed.

#[local] Ltac covers_simpl :=
  unfold flying, linear_part in *; simpl in *; rewrite ?map_app; simpl;
  autorewrite with mpqs_simpl in *; simpl in *.

(** ** The tiling invariant *)

Lemma unit_ok_mono lo hi hi' us :
  hi <= hi' -> Forall (unit_ok lo hi) us -> Forall (unit_ok lo hi') us.
Proof. intros ? H. eapply Forall_impl; [exact H|]. unfold unit_ok. intros; lia. Qed.

Section tiling.
Context (a total : Z) (Ha : 0 <= a) (Ht : 0 <= total) (Hmax : a + total < 2 ^ 64).

Lemma pool_inv_init unit_size : pool_inv a total [] (WorkPool_init a total unit_size).
Proof using Ha Ht Hmax.
  assert (wrap 64 (a + total) = a + total) as E by (apply wrap_small; unfold in_width; lia).
  unfold WorkPool_init. split; simpl; rewrite ?E; auto; try lia.
  - intros i. unfold linear_part; simpl. rewrite ?E, covers_cons.
    replace (a + total - a) with total by lia. rewrite !covers_nil. lia.
  - covers_simpl. lia.
Qed.

Lemma checkout_inv d p n w now :
  pool_inv a total d p -> in_width 64 n -> pool_inv a total d (checkoutWork p n w now).1.
Proof using Ha Ht Hmax.
  intros [He Hn Hd Hf Hr Hc Hs] Hw. unfold checkoutWork, in_width in *.
  destruct (vec_pop_back (returned_ p)) as [[rest u]|] eqn:Ep.
  - apply vec_pop_back_Some in Ep. rewrite Ep in Hr, Hc, Hs.
    apply Forall_app in Hr as [Hrest [Hu _]%Forall_cons]. destruct u as [us uc].
    unfold unit_ok in Hu; simpl in *.
    destruct (Z.ltb_spec n uc); simpl; split; simpl; auto.
    + unfold flying; simpl. rewrite map_app, Forall_app. split; [done|].
      constructor; [|done]. unfold unit_ok; simpl; lia.
    + apply Forall_app. split; [done|]. constructor; [|done].
      unfold unit_ok; simpl. rewrite !wrap_small by (unfold in_width; lia). lia.
    + intros i. specialize (Hc i). covers_simpl.
      rewrite !wrap_small by (unfold in_width; lia).
      rewrite <- (Zplus_minus n uc) in Hc. rewrite in_unit_split in Hc by lia. lia.
    + covers_simpl. simpl in *. rewrite !wrap_small by (unfold in_width; lia). lia.
    + unfold flying; simpl. rewrite map_app, Forall_app. split; [done|]. by constructor.
    + intros i. specialize (Hc i). covers_simpl. lia.
    + covers_simpl. lia.
  - destruct (Z.leb_spec (end_ p) (next_ p)); [by split|].
    assert (wrap 64 (end_ p - next_ p) = end_ p - next_ p) as E1
      by (apply wrap_small; unfold in_width; lia).
    rewrite E1. set (m := Z.min n (end_ p - next_ p)).
    assert (wrap 64 (next_ p + m) = next_ p + m) as E2
      by (apply wrap_small; unfold in_width; lia).
    rewrite E2. simpl. split; simpl; auto; try lia.
    + eapply unit_ok_mono; [|exact Hd]. lia.
    + unfold flying; simpl. rewrite map_app, Forall_app. split.
      * eapply unit_ok_mono; [|exact Hf]. lia.
      * constructor; [|done]. unfold unit_ok; simpl; lia.
    + eapply unit_ok_mono; [|exact Hr]. lia.
    + intros i. specialize (Hc i). covers_simpl.
      replace (end_ p - next_ p) with (m + (end_ p - (next_ p + m))) in Hc by lia.
      rewrite in_unit_split in Hc by lia. lia.
    + covers_simpl. lia.
Qed.

Lemma complete_inv d p id :
  pool_inv a total d p ->
  pool_inv a total (d ++ sieved_by (OpComplete id) p) (completeChunk p id).
Proof using Type.
  intros [He Hn Hd Hf Hr Hc Hs]. unfold completeChunk, sieved_by.
  destruct (List.find (has_id id) (in_flight_ p)) as [c|] eqn:Ef.
  - destruct (flying_erase _ _ _ Ef) as (l1 & l2 & E1 & E2).
    rewrite E1 in Hf, Hc, Hs. apply Forall_app in Hf as [Hf1 [Hu Hf2]%Forall_cons].
    split; simpl; auto.
    + apply Forall_app. split; [done|]. by constructor.
    + unfold flying; simpl. rewrite E2. by apply Forall_app.
    + intros i. specialize (Hc i). covers_simpl. rewrite E2. autorewrite with mpqs_simpl in *. lia.
    + covers_simpl. rewrite E2. autorewrite with mpqs_simpl in *. lia.
  - rewrite erase_first_none, app_nil_r by done. by split.
Qed.

Lemma return_inv d p id :
  pool_inv a total d p -> pool_inv a total d (returnChunk p id).1.
Proof using Type.
  intros [He Hn Hd Hf Hr Hc Hs]. unfold returnChunk.
  destruct (List.find (has_id id) (in_flight_ p)) as [c|] eqn:Ef; [|by split].
  destruct (flying_erase _ _ _ Ef) as (l1 & l2 & E1 & E2).
  rewrite E1 in Hf, Hc, Hs. apply Forall_app in Hf as [Hf1 [Hu Hf2]%Forall_cons].
  split; simpl; auto.
  - unfold flying; simpl. rewrite E2. by apply Forall_app.
  - apply Forall_app. split; [done|]. by constructor.
  - intros i. specialize (Hc i). covers_simpl. rewrite E2. autorewrite with mpqs_simpl in *. lia.
  - covers_simpl. rewrite E2. autorewrite with mpqs_simpl in *. lia.
Qed.

Lemma reclaim_inv d p w :
  pool_inv a total d p -> pool_inv a total d (reclaimWork p w).1.
Proof using Type.
  intros [He Hn Hd Hf Hr Hc Hs]. unfold reclaimWork.
  destruct (reclaim_loop w (in_flight_ p) (returned_ p) 0) as [[keep ret] n] eqn:El.
  apply reclaim_loop_spec in El as [-> ->]. simpl.
  assert (forall P : CheckedOutWork -> bool, Forall (unit_ok a (next_ p)) (map cw_unit (List.filter P (in_flight_ p)))) as Hsub.
  { intros P. unfold flying in Hf. rewrite Forall_forall in *. intros u.
    rewrite !list_elem_of_In, !in_map_iff in *.
    intros (c & <- & [Hin _]%filter_In). apply Hf, list_elem_of_In, in_map_iff. eauto. }
  split; simpl; auto.
  - apply Hsub.
  - apply Forall_app. split; [done | apply Hsub].
  - intros i. specialize (Hc i). covers_simpl.
    pose proof (covers_filter (fun c => cw_worker_id c =? w) (in_flight_ p) i). simpl in *. lia.
  - covers_simpl. pose proof (units_total_filter (fun c => cw_worker_id c =? w) (in_flight_ p)).
    simpl in *. lia.
Qed.

Lemma reclaimPartial_inv d p id n :
  pool_inv a total d p -> in_width 64 n ->
  pool_inv a total (d ++ sieved_by (OpReclaimPartial id n) p) (reclaimPartial p id n).
Proof using Ha Hmax.
  intros [He Hn Hd Hf Hr Hc Hs] Hw. unfold in_width in Hw. unfold reclaimPartial, sieved_by.
  destruct (List.find (has_id id) (in_flight_ p)) as [c|] eqn:Ef;
    [|rewrite app_nil_r; by split].
  destruct (flying_erase _ _ _ Ef) as (l1 & l2 & E1 & E2).
  rewrite E1 in Hf, Hc, Hs. apply Forall_app in Hf as [Hf1 [Hu Hf2]%Forall_cons].
  destruct (cw_unit c) as [us uc]. unfold unit_ok in Hu; simpl in *.
  set (k := Z.min n uc). assert (0 <= k <= uc) by lia.
  rewrite (wrap_small 64 (uc - k)) by (unfold in_width; lia).
  rewrite (wrap_small 64 (us + k)) by (unfold in_width; lia).
  split; simpl; auto.
  - apply Forall_app. split; [done|]. constructor; [|done]. unfold unit_ok; simpl; lia.
  - unfold flying; simpl. rewrite E2. by apply Forall_app.
  - case_match eqn:E; [|done]. apply Forall_app. split; [done|]. constructor; [|done].
    unfold unit_ok; simpl; lia.
  - intros i. specialize (Hc i). covers_simpl. rewrite E2. autorewrite with mpqs_simpl in *.
    pose proof (in_unit_split i us k (uc - k)) as Hsp. rewrite Zplus_minus in Hsp.
    destruct (Z.ltb_spec 0 (uc - k)); autorewrite with mpqs_simpl; [lia|].
    rewrite (in_unit_empty i (mkWorkUnit (us + k) (uc - k))) in Hsp by (simpl; lia). lia.
  - covers_simpl. rewrite E2. autorewrite with mpqs_simpl in *. simpl in *.
    destruct (Z.ltb_spec 0 (uc - k)); autorewrite with mpqs_simpl; simpl; lia.
Qed.

Lemma pool_inv_reach unit_size d k p :
  pool_reach a total unit_size d k p -> pool_inv a total d p.
Proof using Ha Ht Hmax.
  induction 1 as [|d k p op _ IH Hop]; [apply pool_inv_init|].
  destruct op; simpl in *; rewrite ?app_nil_r.
  - by apply checkout_inv.
  - by apply complete_inv.
  - by apply return_inv.
  - by apply reclaim_inv.
  - by apply reclaimPartial_inv.
Qed.
End tiling.

(** ** The completed prefix *)

Lemma min_start_le c us : min_start c us <= c.
Proof. revert c. induction us as [|u us IH]; intros c; simpl; [lia|]. specialize (IH (Z.min c (wu_start u))). lia. Qed.

Lemma min_start_lower c us u : u ∈ us -> min_start c us <= wu_start u.
Proof.
  intros Hu. revert c. induction Hu as [u us|u u' us _ IH]; intros c; simpl.
  - pose proof (min_start_le (Z.min c (wu_start u)) us). lia.
  - apply IH.
Qed.

Lemma min_start_attained c us : min_start c us = c \/ exists u, u ∈ us /\ min_start c us = wu_start u.
Proof.
  revert c. induction us as [|u us IH]; intros c; simpl; [by left|].
  destruct (IH (Z.min c (wu_start u))) as [E|(v & Hv & E)].
  - destruct (Z.min_spec c (wu_start u)) as [[_ E']|[_ E']]; [left; lia|right].
    exists u. split; [by left | lia].
  - right. exists v. split; [by right | done].
Qed.

Lemma completedPrefixCursor_min p :
  completedPrefixCursor p = min_start (next_ p) (flying p ++ returned_ p).
Proof.
  unfold completedPrefixCursor, min_start, flying. rewrite foldl_app. f_equal.
  generalize (next_ p). induction (in_flight_ p) as [|c l IH]; intros z; simpl; auto.
Qed.

(** Soundness and maximality of the checkpoint cursor: every a-value index
    below [completedPrefixCursor] has been sieved and is neither in flight nor
    waiting to be handed out again, so a resume that restores the pool at the
    cursor skips no work; and when no empty chunk is outstanding the cursor is
    the largest such bound, the index at the cursor itself not being sieved. *)
Theorem completedPrefixCursor_spec a total us d k p :
  0 <= a -> 0 <= total -> a + total < 2 ^ 64 -> pool_reach a total us d k p ->
  a <= completedPrefixCursor p <= next_ p /\
  (forall i, a <= i < completedPrefixCursor p ->
     covers d i = 1 /\ covers (flying p ++ returned_ p) i = 0) /\
  (Forall (fun u => 0 < wu_count u) (flying p ++ returned_ p) ->
   completedPrefixCursor p < end_ p -> covers d (completedPrefixCursor p) = 0).
Proof.
  intros Ha Ht Hm [He Hn Hd Hf Hr Hc _]%pool_inv_reach; [|done..].
  rewrite completedPrefixCursor_min. set (us' := flying p ++ returned_ p).
  assert (forall i, covers d i + covers us' i + covers [linear_part p] i =
    if in_unit i (mkWorkUnit a total) then 1 else 0) as Hc'.
  { intros i. rewrite <- Hc. unfold us'. rewrite covers_app. lia. }
  pose proof (min_start_le (next_ p) us') as Hle. split; [split; [|done]|split].
  - destruct (min_start_attained (next_ p) us') as [E|(u & Hu & E)]; [lia|]. rewrite E.
    pose proof (proj2 (Forall_app _ _ _) (conj Hf Hr)) as Hall. rewrite Forall_forall in Hall.
    apply (Hall u Hu).
  - intros i Hi.
    assert (covers us' i = 0) as Eu.
    { apply covers_none, Forall_forall. intros u Hu.
      pose proof (min_start_lower (next_ p) us' u Hu). unfold in_unit.
      destruct (Z.leb_spec (wu_start u) i); [lia | done]. }
    specialize (Hc' i). rewrite Eu in Hc'. revert Hc'.
    rewrite covers_cons, covers_nil. unfold in_unit, linear_part; simpl.
    destruct (Z.leb_spec a i), (Z.ltb_spec i (a + total)), (Z.leb_spec (next_ p) i); simpl; lia.
  - intros Hpos Hlt. specialize (Hc' (min_start (next_ p) us')).
    pose proof (covers_nonneg d (min_start (next_ p) us')).
    pose proof (covers_nonneg us' (min_start (next_ p) us')).
    assert (1 <= covers us' (min_start (next_ p) us') +
      covers [linear_part p] (min_start (next_ p) us')) as Hone.
    { destruct (min_start_attained (next_ p) us') as [E|(u & Hu & E)].
      - rewrite covers_cons, E. unfold in_unit, linear_part; simpl.
        pose proof (covers_nonneg us' (next_ p)).
        destruct (Z.leb_spec (next_ p) (next_ p)), (Z.ltb_spec (next_ p) (next_ p + (end_ p - next_ p)));
          simpl; rewrite ?covers_nil; lia.
      - rewrite Forall_forall in Hpos. specialize (Hpos u Hu).
        assert (1 <= covers us' (min_start (next_ p) us')).
        { apply (covers_member _ u); [done|]. rewrite E. unfold in_unit.
          destruct (Z.leb_spec (wu_start u) (wu_start u)),
            (Z.ltb_spec (wu_start u) (wu_start u + wu_count u)); simpl; lia. }
        pose proof (covers_nonneg [linear_part p] (min_start (next_ p) us')). lia. }
    destruct (in_unit _ (mkWorkUnit a total)); lia.
Qed.

(** No a-value is lost or handed out twice: over every sequence of checkouts,
    completions, returns and reclaims, each index of the pool's range lies in
    exactly one of the sieved units, the chunks in flight, the returned units
    and the unassigned tail, and no index outside the range lies in any. *)
Theorem pool_partition a total us d k p :
  0 <= a -> 0 <= total -> a + total < 2 ^ 64 -> pool_reach a total us d k p ->
  forall i, covers d i + covers (flying p) i + covers (returned_ p) i + covers [linear_part p] i =
    if in_unit i (mkWorkUnit a total) then 1 else 0.
Proof. intros Ha Ht Hm H. apply (inv_cover _ _ _ _ (pool_inv_reach a total Ha Ht Hm _ _ _ _ H)). Qed.

(** ** Work accounting *)

Lemma sum_counts_small us :
  Forall (fun u => 0 <= wu_count u) us -> units_total us < 2 ^ 64 ->
  sum_counts us = units_total us.
Proof.
  intros Hpos. unfold sum_counts.
  assert (forall acc, 0 <= acc -> acc + units_total us < 2 ^ 64 ->
    foldl (fun acc u => wrap 64 (acc + wu_count u)) acc us = acc + units_total us) as H.
  { induction Hpos as [|u us Hu Hus IH]; intros acc Hacc Hlt; simpl.
    - rewrite units_total_nil. lia.
    - rewrite units_total_cons in *.
      assert (0 <= units_total us) by (apply zsum_nonneg, Forall_map; exact Hus).
      rewrite wrap_small by (unfold in_width; lia). rewrite IH; lia. }
  intros. rewrite H; lia.
Qed.

Lemma unit_ok_nonneg lo hi us : Forall (unit_ok lo hi) us -> Forall (fun u => 0 <= wu_count u) us.
Proof. intros H. eapply Forall_impl; [exact H|]. unfold unit_ok. intros; lia. Qed.

Lemma units_total_nonneg lo hi us : Forall (unit_ok lo hi) us -> 0 <= units_total us.
Proof. intros H%unit_ok_nonneg. by apply zsum_nonneg, Forall_map. Qed.

(** The counters are exact on every reachable pool, with no wrap-around:
    what remains, what is in flight and what has been sieved add up to the pool,
    so [remainingOrInFlight() == 0] holds exactly when all of it has been sieved. *)
Theorem pool_accounting a total us d k p :
  0 <= a -> 0 <= total -> a + total < 2 ^ 64 -> pool_reach a total us d k p ->
  remaining p = units_total (returned_ p) + (end_ p - next_ p) /\
  inFlight p = units_total (flying p) /\
  remainingOrInFlight p = total - units_total d.
Proof.
  intros Ha Ht Hm [He Hn Hd Hf Hr _ Hs]%pool_inv_reach; [|done..].
  pose proof (units_total_nonneg _ _ _ Hd). pose proof (units_total_nonneg _ _ _ Hf).
  pose proof (units_total_nonneg _ _ _ Hr).
  assert (inFlight p = units_total (flying p)) as E2.
  { apply sum_counts_small; [by eapply unit_ok_nonneg | unfold flying in *; lia]. }
  assert (remaining p = units_total (returned_ p) + (end_ p - next_ p)) as E1.
  { unfold remaining. rewrite sum_counts_small; [|by eapply unit_ok_nonneg | lia].
    destruct (Z.ltb_spec (next_ p) (end_ p)).
    - rewrite (wrap_small 64 (end_ p - next_ p)) by (unfold in_width; lia).
      rewrite wrap_small by (unfold in_width; lia). lia.
    - rewrite wrap_small by (unfold in_width; lia). lia. }
  split; [done|]. split; [done|]. unfold remainingOrInFlight.
  rewrite E1, E2, wrap_small by (unfold in_width; lia). lia.
Qed.

(** ** Chunk ids *)

Lemma erase_first_sublist {A} (P : A -> bool) l : sublist (erase_first P l) l.
Proof. induction l as [|x l IH]; simpl; [constructor|]. destruct (P x); by constructor. Qed.

Lemma reclaim_keep_sublist w p : sublist (chunk_ids (reclaimWork p w).1) (chunk_ids p).
Proof.
  unfold reclaimWork, chunk_ids. destruct (reclaim_loop _ _ _ _) as [[keep r] n] eqn:E.
  apply reclaim_loop_spec in E as [-> _]. simpl. apply (fmap_sublist cw_chunk_id).
  induction (in_flight_ p) as [|c l IH]; simpl; [constructor|].
  destruct (cw_worker_id c =? w); simpl; by constructor.
Qed.

Lemma erase_ids_sublist P p l :
  l = erase_first P (in_flight_ p) -> sublist (map cw_chunk_id l) (chunk_ids p).
Proof. intros ->. apply (fmap_sublist cw_chunk_id), erase_first_sublist. Qed.

Lemma sublist_forall {A} (P : A -> Prop) l1 l2 : sublist l1 l2 -> Forall P l2 -> Forall P l1.
Proof. induction 1; intros Hp; inversion Hp; subst; try constructor; auto. Qed.

(** The ids in flight after an operation: some of those before, plus the new one. *)
Lemma run_op_ids op p :
  exists l, sublist l (chunk_ids p) /\
    chunk_ids (run_op op p) = (if issued_by op p =? 1 then l ++ [next_chunk_id_ p] else l) /\
    next_chunk_id_ (run_op op p) = (if issued_by op p =? 1 then wrap 32 (next_chunk_id_ p + 1) else next_chunk_id_ p) /\
    (issued_by op p = 0 \/ issued_by op p = 1).
Proof.
  destruct op as [n w now|id|id|w|id n]; simpl.
  - exists (chunk_ids p). unfold checkoutWork.
    destruct (vec_pop_back (returned_ p)) as [[rest u]|].
    + destruct (n <? wu_count u); simpl; unfold chunk_ids; simpl; rewrite map_app; auto.
    + destruct (end_ p <=? next_ p); simpl; unfold chunk_ids; simpl; rewrite ?map_app; auto.
  - exists (chunk_ids (completeChunk p id)). split; [by eapply erase_ids_sublist|auto].
  - exists (chunk_ids (returnChunk p id).1). unfold returnChunk.
    destruct (List.find _ _); simpl; (split; [|auto]); [by eapply erase_ids_sublist | done].
  - exists (chunk_ids (reclaimWork p w).1). split; [apply reclaim_keep_sublist|].
    unfold reclaimWork. destruct (reclaim_loop _ _ _ _) as [[? ?] ?]. auto.
  - exists (chunk_ids (reclaimPartial p id n)). unfold reclaimPartial.
    destruct (List.find _ _); simpl; (split; [|auto]); [by eapply erase_ids_sublist | done].
Qed.

Lemma pool_ids_inv a total us d k p :
  pool_reach a total us d k p -> k <= 2 ^ 32 ->
  0 <= k /\ next_chunk_id_ p = wrap 32 k /\ NoDup (chunk_ids p) /\
  Forall (fun id => 0 <= id < k) (chunk_ids p).
Proof.
  induction 1 as [|d k p op H IH Hop]; intros Hk.
  - split; [lia|]. split; [done|]. split; constructor.
  - destruct (run_op_ids op p) as (l & Hl & Eids & Enext & Hiss).
    destruct IH as (Hk0 & Hn & Hnd & Hb); [lia|].
    assert (Forall (fun id => 0 <= id < k) l) as Hb' by (by eapply sublist_forall).
    pose proof (sublist_NoDup _ _ Hnd Hl) as Hnd'.
    rewrite Eids, Enext. destruct Hiss as [E|E]; rewrite E; simpl.
    + rewrite Z.add_0_r. auto.
    + assert (next_chunk_id_ p = k) as Ek by (rewrite Hn; apply wrap_small; unfold in_width; lia).
      rewrite Ek. split; [lia|]. split; [done|]. split.
      * apply NoDup_app. split; [done|]. split; [|by apply NoDup_singleton].
        intros x Hx ->%list_elem_of_singleton. rewrite Forall_forall in Hb'.
        specialize (Hb' _ Hx). lia.
      * apply Forall_app. split; [|constructor; [lia|done]].
        eapply Forall_impl; [exact Hb'|]. simpl. intros; lia.
Qed.

Lemma checkout_cases p n w now p' c :
  checkoutWork p n w now = (p', Some c) ->
  in_flight_ p' = in_flight_ p ++ [c] /\ cw_chunk_id c = next_chunk_id_ p /\ cw_worker_id c = w.
Proof.
  unfold checkoutWork. destruct (vec_pop_back (returned_ p)) as [[rest u]|].
  - destruct (n <? wu_count u); intros [= <- <-]; done.
  - destruct (end_ p <=? next_ p); [done|]. intros [= <- <-]; done.
Qed.

Lemma erase_first_snoc {A} (P : A -> bool) l x :
  Forall (fun y => P y = false) l -> P x = true -> erase_first P (l ++ [x]) = l.
Proof.
  intros Hl Hx. induction Hl as [|y l Hy Hl IH]; simpl; [by rewrite Hx|]. by rewrite Hy, IH.
Qed.

(** Chunk ids identify chunks: during the first 2^32 checkouts the chunks in
    flight carry distinct ids, and a freshly checked-out chunk's id completes
    that chunk and no other. *)
Theorem checkout_complete_exact a total us d k p n w now p' c :
  pool_reach a total us d k p -> k < 2 ^ 32 ->
  checkoutWork p n w now = (p', Some c) ->
  NoDup (chunk_ids p') /\
  in_flight_ (completeChunk p' (cw_chunk_id c)) = in_flight_ p /\
  sieved_by (OpComplete (cw_chunk_id c)) p' = [cw_unit c].
Proof.
  intros H Hk Hc. destruct (checkout_cases _ _ _ _ _ _ Hc) as (Ef & Ei & _).
  destruct (pool_ids_inv _ _ _ _ _ _ H) as (Hk0 & Hn & Hnd & Hb); [lia|].
  rewrite wrap_small in Hn by (unfold in_width; lia).
  assert (Forall (fun y => has_id (cw_chunk_id c) y = false) (in_flight_ p)) as Hno.
  { apply Forall_map in Hb. eapply Forall_impl; [exact Hb|]. unfold has_id. intros y Hy.
    apply Z.eqb_neq. simpl in Hy. lia. }
  split; [|split].
  - unfold chunk_ids. rewrite Ef, map_app. apply NoDup_app. split; [done|].
    split; [|by apply NoDup_singleton]. intros x Hx ->%list_elem_of_singleton.
    rewrite Forall_forall in Hb. specialize (Hb _ Hx). lia.
  - unfold completeChunk; simpl. rewrite Ef. apply erase_first_snoc; [done|].
    unfold has_id. apply Z.eqb_refl.
  - unfold sieved_by. rewrite Ef.
    assert (List.find (has_id (cw_chunk_id c)) (in_flight_ p ++ [c]) = Some c) as ->; [|done].
    clear -Hno. induction Hno as [|y l Hy _ IH]; simpl; [|by rewrite Hy].
    unfold has_id. by rewrite Z.eqb_refl.
Qed.

(** What a checkout hands out: nothing exactly when the pool is exhausted;
    otherwise a chunk within the pool of at most the requested size, not empty
    unless an empty one was asked for or returned. *)
Theorem checkoutWork_handout a total us d k p n w now :
  0 <= a -> 0 <= total -> a + total < 2 ^ 64 -> pool_reach a total us d k p -> in_width 64 n ->
  match (checkoutWork p n w now).2 with
  | None => exhausted p = true
  | Some c =>
      exhausted p = false /\ cw_worker_id c = w /\
      unit_ok a (a + total) (cw_unit c) /\ wu_count (cw_unit c) <= n /\
      (0 < n -> Forall (fun u => 0 < wu_count u) (returned_ p) -> 0 < wu_count (cw_unit c))
  end.
Proof.
  intros Ha Ht Hm [He Hn Hd Hf Hr _ _]%pool_inv_reach Hw; [|done..]. unfold in_width in Hw.
  unfold checkoutWork, exhausted. destruct (vec_pop_back (returned_ p)) as [[rest u]|] eqn:Ep.
  - apply vec_pop_back_Some in Ep. rewrite Ep in *.
    apply Forall_app in Hr as [_ [Hu _]%Forall_cons]. unfold unit_ok in Hu.
    assert (forall b, b && match rest ++ [u] with [] => true | _ => false end = false) as Hb
      by (intros b; destruct rest; apply andb_false_r).
    destruct (Z.ltb_spec n (wu_count u)); simpl; rewrite Hb; unfold unit_ok; simpl;
      repeat (split; [done || lia|]); intros ? [_ [? _]%Forall_cons]%Forall_app; lia.
  - apply vec_pop_back_None in Ep. rewrite Ep, andb_true_r.
    destruct (Z.leb_spec (end_ p) (next_ p)); simpl; [done|].
    rewrite (wrap_small 64 (end_ p - next_ p)) by (unfold in_width; lia).
    unfold unit_ok; simpl. repeat (split; [done || lia|]). intros; lia.
Qed.

(** ** Concrete runs *)

Lemma run_trace_reach a total us ops s :
  pool_reach a total us s.1.1 s.1.2 s.2 -> Forall op_ok ops ->
  pool_reach a total us (run_trace ops s).1.1 (run_trace ops s).1.2 (run_trace ops s).2.
Proof.
  intros H Hops. revert s H. induction Hops as [|op ops Hop _ IH]; intros [[d k] p] H; [done|].
  simpl. apply IH. simpl. by apply reach_step.
Qed.

Lemma demo_reach : pool_reach 10 1000 64 demo_state.1.1 demo_state.1.2 demo_state.2.
Proof.
  apply run_trace_reach; [apply reach_init|].
  repeat (constructor; [try exact I; simpl; unfold in_width; lia|]). constructor.
Qed.

Lemma completedPrefixCursor_spec_witness :
  completedPrefixCursor demo_state.2 = 84 /\ covers demo_state.1.1 83 = 1.
Proof.
  split; [reflexivity|].
  destruct (completedPrefixCursor_spec 10 1000 64 demo_state.1.1 demo_state.1.2 demo_state.2
    ltac:(lia) ltac:(lia) ltac:(lia) demo_reach) as (_ & H & _).
  refine (proj1 (H 83 _)). vm_compute. split; congruence.
Defined.

Lemma pool_partition_witness :
  covers demo_state.1.1 500 + covers (flying demo_state.2) 500
  + covers (returned_ demo_state.2) 500 + covers [linear_part demo_state.2] 500 = 1.
Proof.
  exact (pool_partition 10 1000 64 demo_state.1.1 demo_state.1.2 demo_state.2
    ltac:(lia) ltac:(lia) ltac:(lia) demo_reach 500).
Defined.

Lemma pool_accounting_witness : remainingOrInFlight demo_state.2 = 1000 - 74.
Proof.
  destruct (pool_accounting 10 1000 64 demo_state.1.1 demo_state.1.2 demo_state.2
    ltac:(lia) ltac:(lia) ltac:(lia) demo_reach) as (_ & _ & H). exact H.
Defined.

Lemma checkout_complete_exact_witness :
  exists p' c, checkoutWork demo_state.2 5 9 7 = (p', Some c) /\
    in_flight_ (completeChunk p' (cw_chunk_id c)) = in_flight_ demo_state.2.
Proof.
  destruct (checkoutWork demo_state.2 5 9 7) as [p' [c|]] eqn:E; [|vm_compute in E; congruence].
  exists p', c. split; [reflexivity|].
  apply (checkout_complete_exact 10 1000 64 demo_state.1.1 demo_state.1.2 demo_state.2 5 9 7 p' c
    demo_reach ltac:(vm_compute; reflexivity) E).
Defined.

Lemma checkoutWork_handout_witness :
  exists c, (checkoutWork demo_state.2 5 9 7).2 = Some c /\ wu_count (cw_unit c) <= 5.
Proof.
  pose proof (checkoutWork_handout 10 1000 64 demo_state.1.1 demo_state.1.2 demo_state.2 5 9 7
    ltac:(lia) ltac:(lia) ltac:(lia) demo_reach ltac:(unfold in_width; lia)) as H.
  destruct (checkoutWork demo_state.2 5 9 7).2 as [c|] eqn:E; [|vm_compute in H; congruence].
  exists c. split; [reflexivity | apply H].
Defined.
