(* ===== verification/Scheduler.v ===== *)
(** The adaptive chunk scheduler of [src/src/cluster/chunk_scheduler.{h,cpp}]: the
    contiguous ranges handed out at set-up and the size of the next overflow chunk.

    [uint64_t] arithmetic is written with its wrap-around, [uint32_t] arithmetic
    likewise; [double] arithmetic is that of [Doubles]. The order in which the hash
    map of throughputs is iterated is an argument, and so is the value the debug
    environment variable parsed to. *)
From Stdlib Require Import ZArith Lia.
From stdpp Require Import base gmap sets list.
From S2P Require Import Prelude Doubles.
#[local] Open Scope Z_scope.

Definition zero : double := d_of_Z 0.
Definition one : double := d_of_Z 1.

(** ** Throughput model *)

Record WorkerThroughput := mkThroughput {
  rels_per_sec : double;
  a_vals_per_sec : double;
  chunks_completed : Z;
  total_rels : Z;
  total_a_vals : Z
}.

Definition WorkerThroughput_init : WorkerThroughput := mkThroughput zero zero 0 0 0.

Definition update (rels a_vals : Z) (elapsed_s alpha : double) (t : WorkerThroughput) : WorkerThroughput :=
  if d_leb elapsed_s zero then t
  else
    let srps := d_div (d_of_Z rels) elapsed_s in
    let saps := d_div (d_of_Z a_vals) elapsed_s in
    let ema x old := d_add (d_mul alpha x) (d_mul (d_sub one alpha) old) in
    mkThroughput
      (if chunks_completed t =? 0 then srps else ema srps (rels_per_sec t))
      (if chunks_completed t =? 0 then saps else ema saps (a_vals_per_sec t))
      (wrap 32 (chunks_completed t + 1)) (wrap 64 (total_rels t + rels)) (wrap 64 (total_a_vals t + a_vals)).

(** ** The scheduler *)

Record ChunkScheduler := mkScheduler {
  num_workers_ : Z;
  total_a_ : Z;
  H_ : Z;
  Q_ : Z;
  throughput_ : gmap Z WorkerThroughput
}.

Definition ChunkScheduler_init (num_workers total_a hypercube_size quantum : Z) : ChunkScheduler :=
  mkScheduler num_workers total_a hypercube_size quantum ∅.

Definition kMinChunkFallback : Z := 16.
Definition kCalibrationChunks : Z := 2.
Definition kEmaAlpha : double := d_lit 3 10.

Definition roundToQuantum (s : ChunkScheduler) (count : Z) : Z :=
  if Q_ s <=? 1 then count else wrap 64 (wrap 64 (count + Q_ s - 1) / Q_ s * Q_ s).

Definition alignToHypercube (s : ChunkScheduler) (count : Z) : Z :=
  if H_ s =? 0 then count else wrap 64 (wrap 64 (count + H_ s - 1) / H_ s * H_ s).

(** The parsed environment variable: what [std::stoll] returns, if anything. *)
Definition cap_windows (parsed : option Z) : Z :=
  match parsed with Some w => if 1 <=? w then w else 0 | None => 0 end.

Definition applyDebugWindowCap (env : option Z) (s : ChunkScheduler) (count : Z) : Z :=
  if cap_windows env =? 0 then count
  else
    let window := if 0 <? H_ s then H_ s else 1 in
    Z.min count (wrap 64 (cap_windows env * window)).

Definition minChunk (s : ChunkScheduler) : Z := Z.max (Z.max (H_ s) (wrap 64 (4 * Q_ s))) kMinChunkFallback.

Definition maxChunk (s : ChunkScheduler) : Z :=
  let divisor := wrap 64 (2 * wrap 64 (num_workers_ s + 1)) in
  Z.max (minChunk s) (if 0 <? divisor then total_a_ s / divisor else total_a_ s).

Definition baseChunk (s : ChunkScheduler) : Z :=
  let divisor := wrap 64 (10 * wrap 64 (num_workers_ s + 1)) in
  let base := if 0 <? divisor then total_a_ s / divisor else total_a_ s in
  Z.max (minChunk s) (Z.min base (maxChunk s)).

Definition recordCompletion (worker_id rels a_vals : Z) (elapsed_s : double) (s : ChunkScheduler) : ChunkScheduler :=
  mkScheduler (num_workers_ s) (total_a_ s) (H_ s) (Q_ s)
    (<[worker_id := update rels a_vals elapsed_s kEmaAlpha (default WorkerThroughput_init (throughput_ s !! worker_id))]>
       (throughput_ s)).

(** The sum over the calibrated workers, in iteration order, and their number. *)
Definition total_aps (s : ChunkScheduler) (order : list Z) : double * Z :=
  foldl (fun '(sum, n) id =>
           match throughput_ s !! id with
           | Some t => if kCalibrationChunks <=? chunks_completed t
                       then (d_add sum (a_vals_per_sec t), wrap 32 (n + 1)) else (sum, n)
           | None => (sum, n)
           end) (zero, 0) order.

(** [std::clamp(v, lo, hi)]. *)
Definition clamp (v lo hi : Z) : Z := if v <? lo then lo else if hi <? v then hi else v.

Definition d_min (x y : double) : double := if d_ltb y x then y else x.

Definition nextChunkSize (env : option Z) (order : list Z) (worker_id : Z) (s : ChunkScheduler) : Z :=
  match throughput_ s !! worker_id with
  | None => applyDebugWindowCap env s (baseChunk s)
  | Some t =>
      if chunks_completed t <? kCalibrationChunks then applyDebugWindowCap env s (baseChunk s)
      else
        let '(sum, count) := total_aps s order in
        let mean_aps := if 0 <? count then d_div sum (d_of_Z count) else one in
        let ratio := if d_ltb zero mean_aps then d_div (a_vals_per_sec t) mean_aps else one in
        let confidence := d_min one (d_div (d_of_Z (chunks_completed t)) (d_of_Z 4)) in
        let size := wrap 64 (d_trunc (d_mul (d_mul (d_of_Z (baseChunk s)) ratio) confidence)) in
        let aligned := roundToQuantum s (alignToHypercube s size) in
        applyDebugWindowCap env s (clamp aligned (minChunk s) (maxChunk s))
  end.

Definition throughput (worker_id : Z) (s : ChunkScheduler) : WorkerThroughput :=
  default WorkerThroughput_init (throughput_ s !! worker_id).

(** ** Contiguous ranges *)

Record ContiguousRange := mkRange { node_id : Z; start : Z; count : Z }.

(** [5 * H] is a 32-bit product. *)
Definition w_est (num_nodes target_rels H : Z) : Z :=
  let five_h := wrap 32 (5 * H) in
  Z.max (wrap 64 (4 * num_nodes)) (wrap 64 (wrap 64 (target_rels + five_h - 1) / five_h * 2)).

Definition max_count (w H : Z) : Z := wrap 64 (wrap 64 (2 * w) * H).

(** Headroom, quantum alignment and cap of one node's count. *)
Definition adjust_count (w H Q : Z) (headroom_pct : double) (count : Z) : Z :=
  if d_ltb zero headroom_pct then
    let extended := wrap 64 (d_ceil (d_mul (d_of_Z count) (d_add one (d_div headroom_pct (d_of_Z 100))))) in
    let count := wrap 64 (wrap 64 (extended + H - 1) / H * H) in
    let count := if 1 <? Q then wrap 64 (wrap 64 (count + Q - 1) / Q * Q) else count in
    if max_count w H <? count then
      let count := max_count w H / H * H in
      if 1 <? Q then count / Q * Q else count
    else count
  else if 1 <? Q then wrap 64 (wrap 64 (count + Q - 1) / Q * Q) else count.

(** The loop over the nodes, for the window count of each. *)
Fixpoint ranges_loop (adjust : Z -> Z) (windows : list Z) (H i cursor : Z) : list ContiguousRange :=
  match windows with
  | [] => []
  | w :: ws =>
      let c := adjust (wrap 64 (w * H)) in
      mkRange (wrap 8 i) cursor c :: ranges_loop adjust ws H (i + 1) (wrap 64 (cursor + c))
  end.

(** Windows in proportion to the multiprocessor counts, at least one. *)
Definition windows_sm (w s_total sm : Z) : Z :=
  let windows := wrap 64 (wrap 64 (w * sm) + s_total - 1) / s_total in
  if windows =? 0 then 1 else windows.

Definition computeContiguousRanges_sm (env : option Z) (s : ChunkScheduler) (sm_counts : list Z)
    (target_rels H Q : Z) (headroom_pct : double) : list ContiguousRange :=
  let num_nodes := wrap 32 (Z.of_nat (length sm_counts)) in
  if (num_nodes =? 0) || (H =? 0) then []
  else
    let w := w_est num_nodes target_rels H in
    let s_total := foldl (fun acc x => wrap 32 (acc + x)) 0 sm_counts in
    let s_total := if s_total =? 0 then num_nodes else s_total in
    ranges_loop (fun c => applyDebugWindowCap env s (adjust_count w H Q headroom_pct c))
      (map (windows_sm w s_total) (take (Z.to_nat num_nodes) sm_counts)) H 0 0.

(** Windows in proportion to a throughput weight, at least one. *)
Definition windows_tp (w : Z) (t_total weight : double) : Z :=
  let fraction := d_div weight t_total in
  Z.max 1 (wrap 64 (d_ceil (d_mul (d_of_Z w) fraction))).

Definition computeContiguousRanges_tp (env : option Z) (s : ChunkScheduler) (throughput_weights : list double)
    (target_rels H Q : Z) (headroom_pct : double) : list ContiguousRange :=
  let num_nodes := wrap 32 (Z.of_nat (length throughput_weights)) in
  if (num_nodes =? 0) || (H =? 0) then []
  else
    let t_total := foldl d_add zero throughput_weights in
    if d_leb t_total zero then
      computeContiguousRanges_sm env s (replicate (Z.to_nat num_nodes) 1) target_rels H Q headroom_pct
    else
      let w := w_est num_nodes target_rels H in
      ranges_loop (fun c => applyDebugWindowCap env s (adjust_count w H Q headroom_pct c))
        (map (windows_tp w t_total) (take (Z.to_nat num_nodes) throughput_weights)) H 0 0.

(** ** Vocabulary of the specifications *)

(** Ranges numbered from [i] that follow each other from [cursor] on without gap. *)
Fixpoint tiles (rs : list ContiguousRange) (i cursor : Z) : Prop :=
  match rs with
  | [] => True
  | r :: rs' => node_id r = i /\ start r = cursor /\ 0 <= count r /\ tiles rs' (i + 1) (cursor + count r)
  end.

Definition total_count (rs : list ContiguousRange) : Z := zsum (map count rs).

(** The least multiple of [q] that is at least [x]. *)
Definition round_up (q x : Z) : Z := (x + q - 1) / q * q.

(** ** Vocabulary of the specifications *)

(** The count of a node without headroom. *)
Definition aligned_count (Q c : Z) : Z := if 1 <? Q then round_up Q c else c.

(** ** Lemmas *)

Lemma applyDebugWindowCap_nonneg env s c : 0 <= c -> 0 <= applyDebugWindowCap env s c.
Proof.
  intros H. unfold applyDebugWindowCap. destruct (_ =? 0); [done|].
  pose proof (wrap_range 64 (cap_windows env * (if 0 <? H_ s then H_ s else 1)) ltac:(lia)). unfold in_width in *. lia.
Qed.

Lemma wrap_nonneg w x : 0 <= w -> 0 <= wrap w x.
Proof. intros H. apply (wrap_range w x H). Qed.

Lemma adjust_count_nonneg w H Q hp c : 0 < H -> 0 <= c -> 0 <= adjust_count w H Q hp c.
Proof.
  intros HH Hc. unfold adjust_count. destruct (d_ltb zero hp).
  - pose proof (wrap_nonneg 64 (wrap 64 (2 * w) * H) ltac:(lia)) as Hm.
    fold (max_count w H) in Hm. assert (0 <= max_count w H / H * H) by (apply Z.mul_nonneg_nonneg; [apply Z.div_pos; lia|lia]).
    set (c1 := wrap 64 (_ / H * H)). destruct (_ <? _); destruct (Z.ltb_spec 1 Q); try apply wrap_nonneg; try lia.
    apply Z.mul_nonneg_nonneg; [apply Z.div_pos; lia|lia].
  - destruct (1 <? Q); [apply wrap_nonneg; lia|done].
Qed.

Lemma ranges_loop_tiles adjust ws H i cursor :
  (forall c, 0 <= c -> 0 <= adjust c) -> 0 <= i -> i + Z.of_nat (length ws) <= 256 -> 0 <= cursor ->
  cursor + total_count (ranges_loop adjust ws H i cursor) < 2 ^ 64 ->
  tiles (ranges_loop adjust ws H i cursor) i cursor /\ length (ranges_loop adjust ws H i cursor) = length ws /\
  0 <= total_count (ranges_loop adjust ws H i cursor).
Proof.
  intros Hadj. revert i cursor. induction ws as [|w ws IH]; intros i cursor Hi Hl Hc Ht; [done|].
  cbn [ranges_loop tiles length] in *. set (c := adjust (wrap 64 (w * H))) in *.
  assert (0 <= c) as Hc0 by (apply Hadj, wrap_nonneg; lia).
  assert (forall r rs, total_count (r :: rs) = count r + total_count rs) as Ec by done. rewrite Ec in *. cbn [node_id start count] in *.
  assert (cursor + c < 2 ^ 64 -> tiles (ranges_loop adjust ws H (i + 1) (cursor + c)) (i + 1) (cursor + c) /\
    length (ranges_loop adjust ws H (i + 1) (cursor + c)) = length ws /\ 0 <= total_count (ranges_loop adjust ws H (i + 1) (cursor + c))) as IH'.
  { intros Hs. apply IH; [lia|lia|lia|]. rewrite wrap_small in Ht by (unfold in_width; lia). lia. }
  destruct (Z.lt_ge_cases (cursor + c) (2 ^ 64)) as [Hlt|Hge].
  - rewrite (wrap_small 64) by (unfold in_width; lia). rewrite (wrap_small 8) by (unfold in_width; lia).
    destruct (IH' Hlt) as (I1 & I2 & I3). split_and!; [done|done|done|exact I1|by f_equal|lia].
  - exfalso. assert (forall ws i cu, 0 <= total_count (ranges_loop adjust ws H i cu)) as Hp.
    { clear - Hadj. induction ws as [|w ws IH]; intros i cu; [done|]. cbn [ranges_loop].
      change (total_count (?r :: ?rs)) with (count r + total_count rs). cbn [count].
      pose proof (Hadj (wrap 64 (w * H)) (wrap_nonneg 64 _ ltac:(lia))). pose proof (IH (i + 1) (wrap 64 (cu + adjust (wrap 64 (w * H))))). lia. }
    pose proof (Hp ws (i + 1) (wrap 64 (cursor + c))). lia.
Qed.

Lemma round_up_spec q x : 0 < q -> 0 <= x -> x <= round_up q x < x + q /\ (q | round_up q x).
Proof.
  intros Hq Hx. unfold round_up. split; [|by exists ((x + q - 1) / q)].
  pose proof (Z.div_mod (x + q - 1) q ltac:(lia)). pose proof (Z.mod_pos_bound (x + q - 1) q Hq). lia.
Qed.

Lemma wrap_round_up q x : 0 < q -> 0 <= x -> x + q < 2 ^ 64 -> wrap 64 (wrap 64 (x + q - 1) / q * q) = round_up q x.
Proof.
  intros Hq Hx Hb. rewrite (wrap_small 64 (x + q - 1)) by (unfold in_width; lia).
  apply wrap_small. change (in_width 64 (round_up q x)). pose proof (round_up_spec q x Hq Hx). unfold in_width. lia.
Qed.

Lemma adjust_count_plain w H Q hp c :
  d_ltb zero hp = false -> 0 <= Q -> 0 <= c -> c + Q < 2 ^ 64 -> adjust_count w H Q hp c = aligned_count Q c.
Proof.
  intros Hh HQ Hc Hb. unfold adjust_count, aligned_count. rewrite Hh.
  destruct (Z.ltb_spec 1 Q); [|done]. apply wrap_round_up; lia.
Qed.

Lemma aligned_count_ge Q c : 0 <= c -> c <= aligned_count Q c.
Proof. intros Hc. unfold aligned_count. destruct (Z.ltb_spec 1 Q); [|done]. apply round_up_spec; lia. Qed.

Lemma sum_wrap l acc : Forall (fun x => 0 <= x) l -> 0 <= acc -> acc + zsum l < 2 ^ 32 ->
  foldl (fun a x => wrap 32 (a + x)) acc l = acc + zsum l.
Proof.
  intros Hl. revert acc. induction Hl as [|x l Hx Hl IH]; intros acc Ha Hs; [cbn; lia|].
  cbn [foldl]. rewrite zsum_cons in *. pose proof (zsum_nonneg l Hl).
  rewrite wrap_small by (unfold in_width; lia). rewrite IH; lia.
Qed.

Lemma windows_sm_exact w st sm : 0 <= w -> 0 <= sm -> 0 < st -> w * sm + st < 2 ^ 64 ->
  windows_sm w st sm = Z.max 1 ((w * sm + st - 1) / st).
Proof.
  intros Hw Hs Ht Hb. pose proof (Z.mul_nonneg_nonneg w sm Hw Hs). unfold windows_sm.
  rewrite (wrap_small 64 (w * sm)) by (unfold in_width; lia). rewrite wrap_small by (unfold in_width; lia).
  pose proof (Z.div_pos (w * sm + st - 1) st ltac:(lia) Ht). destruct (Z.eqb_spec ((w * sm + st - 1) / st) 0); lia.
Qed.

Lemma windows_total w st l : 0 <= w -> 0 < st -> Forall (fun x => 0 <= x) l ->
  w * zsum l <= st * zsum (map (fun sm => Z.max 1 ((w * sm + st - 1) / st)) l).
Proof.
  intros Hw Ht Hl. induction Hl as [|x l Hx _ IH]; [cbn; lia|]. cbn [map]. rewrite !zsum_cons, !Z.mul_add_distr_l.
  pose proof (Z.div_mod (w * x + st - 1) st ltac:(lia)). pose proof (Z.mod_pos_bound (w * x + st - 1) st Ht).
  assert (st * ((w * x + st - 1) / st) <= st * Z.max 1 ((w * x + st - 1) / st)) by (apply Z.mul_le_mono_nonneg_l; lia). lia.
Qed.

Lemma zsum_aligned Q H f (l : list Z) : 0 < H -> (forall x, 0 <= f x) ->
  zsum (map f l) * H <= zsum (map (fun x => aligned_count Q (f x * H)) l).
Proof.
  intros HH Hf. induction l as [|x l IH]; [done|]. cbn [map]. rewrite !zsum_cons, Z.mul_add_distr_r.
  pose proof (aligned_count_ge Q (f x * H) ltac:(apply Z.mul_nonneg_nonneg; [apply Hf|lia])). lia.
Qed.

Lemma w_est_exact n target H :
  1 <= n <= 255 -> in_width 32 target -> 0 < H -> 5 * H < 2 ^ 32 ->
  w_est n target H = Z.max (4 * n) (2 * ((target + 5 * H - 1) / (5 * H))) /\ 4 <= w_est n target H < 2 ^ 31.
Proof.
  intros Hn Ht HH H5. unfold in_width in Ht. unfold w_est. rewrite (wrap_small 32 (5 * H)) by (unfold in_width; lia).
  rewrite (wrap_small 64 (4 * n)) by (unfold in_width; lia).
  rewrite (wrap_small 64 (target + 5 * H - 1)) by (unfold in_width; lia).
  assert (0 <= (target + 5 * H - 1) / (5 * H) < 2 ^ 30) as Hd.
  { split; [apply Z.div_pos; lia|]. apply Z.div_lt_upper_bound; lia. }
  rewrite wrap_small by (unfold in_width; lia). lia.
Qed.

Lemma ranges_loop_counts adjust ws H i cursor :
  map count (ranges_loop adjust ws H i cursor) = map (fun w => adjust (wrap 64 (w * H))) ws.
Proof. revert i cursor. induction ws as [|w ws IH]; intros i cursor; [done|]. cbn. by rewrite IH. Qed.

Lemma applyDebugWindowCap_off env s c : cap_windows env = 0 -> applyDebugWindowCap env s c = c.
Proof. intros E. unfold applyDebugWindowCap. by rewrite E. Qed.

Lemma chunk_limits s : kMinChunkFallback <= minChunk s /\ minChunk s <= maxChunk s /\ minChunk s <= baseChunk s <= maxChunk s.
Proof. unfold baseChunk, maxChunk, minChunk. lia. Qed.

Lemma clamp_range v lo hi : lo <= hi -> lo <= clamp v lo hi <= hi.
Proof. intros H. unfold clamp. destruct (Z.ltb_spec v lo), (Z.ltb_spec hi v); lia. Qed.

(** ** The properties *)

(** Whatever the weights, the headroom, the quantum and the debug cap, both range
    computations give every node one range, numbered in order, and the ranges follow
    each other from index 0 on without gap or overlap as long as their total is below
    2^64. *)
Theorem contiguous_ranges_tile env s target H Q hp rs :
  0 < H -> total_count rs < 2 ^ 64 ->
  (forall sm, rs = computeContiguousRanges_sm env s sm target H Q hp -> (length sm <= 255)%nat ->
     tiles rs 0 0 /\ length rs = length sm) /\
  (forall ws, rs = computeContiguousRanges_tp env s ws target H Q hp -> (length ws <= 255)%nat ->
     tiles rs 0 0 /\ length rs = length ws).
Proof.
  intros HH Ht.
  assert (forall w c, 0 <= c -> 0 <= applyDebugWindowCap env s (adjust_count w H Q hp c)) as Hadj
    by (intros; by apply applyDebugWindowCap_nonneg, adjust_count_nonneg).
  assert (forall sm, rs = computeContiguousRanges_sm env s sm target H Q hp -> (length sm <= 255)%nat ->
     tiles rs 0 0 /\ length rs = length sm) as Hsm.
  { intros sm E Hl. unfold computeContiguousRanges_sm in E.
    rewrite (wrap_small 32) in E by (unfold in_width; lia). rewrite (proj2 (Z.eqb_neq H 0)), orb_false_r in E by lia.
    destruct (Z.eqb_spec (Z.of_nat (length sm)) 0); [subst rs; by destruct sm|].
    rewrite Nat2Z.id, firstn_all in E. subst rs.
    match goal with |- context [ranges_loop ?a ?l ?h 0 0] =>
      destruct (ranges_loop_tiles a l h 0 0 (Hadj _)) as (T & L & _) end;
      rewrite ?length_map in *; [lia|lia|lia|lia|done]. }
  split; [exact Hsm|]. intros ws E Hl. unfold computeContiguousRanges_tp in E.
  rewrite (wrap_small 32) in E by (unfold in_width; lia). rewrite (proj2 (Z.eqb_neq H 0)), orb_false_r in E by lia.
  destruct (Z.eqb_spec (Z.of_nat (length ws)) 0); [subst rs; by destruct ws|]. rewrite Nat2Z.id in E.
  destruct (d_leb _ zero).
  - apply Hsm in E; rewrite length_replicate in *; [done|lia].
  - rewrite firstn_all in E. subst rs.
    match goal with |- context [ranges_loop ?a ?l ?h 0 0] =>
      destruct (ranges_loop_tiles a l h 0 0 (Hadj _)) as (T & L & _) end;
      rewrite ?length_map in *; [lia|lia|lia|lia|done].
Qed.

Lemma contiguous_ranges_tile_witness :
  tiles (computeContiguousRanges_sm None (ChunkScheduler_init 2 1000000 64 24) [68; 16; 8] 5000 64 24 (d_of_Z 10)) 0 0.
Proof.
  refine (proj1 (proj1 (contiguous_ranges_tile None (ChunkScheduler_init 2 1000000 64 24) 5000 64 24 (d_of_Z 10) _ _ _)
    [68; 16; 8] eq_refl _)); [done|vm_compute; reflexivity|cbn; lia].
Defined.

(** Without headroom and debug cap the ranges by multiprocessor count are exact: a
    node gets its share of the estimated windows, rounded up, at least one, times the
    hypercube size, rounded up to the quantum; no intermediate value overflows; and
    together the ranges cover the whole estimate. *)
Theorem ranges_sm_exact env s sm target H Q hp :
  cap_windows env = 0 -> d_ltb zero hp = false -> 0 < H -> 5 * H < 2 ^ 32 -> in_width 32 Q -> in_width 32 target ->
  Forall (fun x => 0 <= x) sm -> 0 < zsum sm < 2 ^ 32 -> (1 <= length sm <= 255)%nat ->
  let w := Z.max (4 * Z.of_nat (length sm)) (2 * ((target + 5 * H - 1) / (5 * H))) in
  let rs := computeContiguousRanges_sm env s sm target H Q hp in
  map count rs = map (fun x => aligned_count Q (Z.max 1 ((w * x + zsum sm - 1) / zsum sm) * H)) sm /\
  w * H <= total_count rs.
Proof.
  intros He Hh HH H5 HQ Ht Hs Hz Hl w rs.
  destruct (w_est_exact (Z.of_nat (length sm)) target H ltac:(lia) Ht HH H5) as [Ew Bw]. fold w in Ew. rewrite Ew in Bw.
  assert (map count rs = map (fun x => aligned_count Q (Z.max 1 ((w * x + zsum sm - 1) / zsum sm) * H)) sm) as E.
  { unfold rs, computeContiguousRanges_sm. rewrite (wrap_small 32) by (unfold in_width; lia).
    rewrite (proj2 (Z.eqb_neq (Z.of_nat (length sm)) 0)), (proj2 (Z.eqb_neq H 0)) by lia. cbn [orb].
    rewrite (sum_wrap sm 0 Hs ltac:(lia)) by lia. rewrite Z.add_0_l, (proj2 (Z.eqb_neq (zsum sm) 0)) by lia.
    rewrite Nat2Z.id, firstn_all, Ew, ranges_loop_counts, map_map. apply map_ext_in. intros x Hx.
    apply list_elem_of_In in Hx. assert (0 <= x <= zsum sm) as Hxs.
    { rewrite Forall_forall in Hs. split; [by apply Hs|]. apply list_elem_of_split in Hx as (l1 & l2 & ->).
      rewrite zsum_app, zsum_cons in *.
      assert (0 <= zsum l1) by (apply zsum_nonneg; apply Forall_forall; intros y Hy; apply Hs; apply elem_of_app; by left).
      assert (0 <= zsum l2) by (apply zsum_nonneg; apply Forall_forall; intros y Hy; apply Hs; apply elem_of_app; right; apply elem_of_cons; by right).
      lia. }
    assert (w * x <= 2 ^ 31 * 2 ^ 32) by (apply Z.mul_le_mono_nonneg; lia).
    rewrite windows_sm_exact by lia. set (k := Z.max 1 _).
    assert (1 <= k <= 2 ^ 31) as Hk.
    { unfold k. split; [lia|]. apply Z.max_lub; [lia|].
      assert ((w * x + zsum sm - 1) / zsum sm < w + 1) by (apply Z.div_lt_upper_bound; nia). lia. }
    assert (k * H <= 2 ^ 31 * 2 ^ 32) by (apply Z.mul_le_mono_nonneg; lia). assert (0 <= k * H) by (apply Z.mul_nonneg_nonneg; lia).
    rewrite (wrap_small 64) by (unfold in_width; lia). rewrite applyDebugWindowCap_off by done.
    unfold in_width in HQ. apply adjust_count_plain; lia || done. }
  split; [exact E|]. unfold total_count. rewrite E.
  pose proof (windows_total w (zsum sm) sm ltac:(lia) ltac:(lia) Hs) as Hw. rewrite Z.mul_comm in Hw.
  apply Z.mul_le_mono_pos_l in Hw; [|lia].
  apply Z.le_trans with (zsum (map (fun x => Z.max 1 ((w * x + zsum sm - 1) / zsum sm)) sm) * H); [apply Z.mul_le_mono_nonneg_r; lia|].
  apply (zsum_aligned Q H (fun x => Z.max 1 ((w * x + zsum sm - 1) / zsum sm))); lia.
Qed.

Lemma ranges_sm_exact_witness :
  map count (computeContiguousRanges_sm None (ChunkScheduler_init 2 1000000 64 24) [68; 16; 8] 5000 64 24 zero)
  = map (fun x => aligned_count 24 (Z.max 1 ((32 * x + 92 - 1) / 92) * 64)) [68; 16; 8].
Proof.
  refine (proj1 (ranges_sm_exact None (ChunkScheduler_init 2 1000000 64 24) [68; 16; 8] 5000 64 24 zero
    eq_refl eq_refl _ _ _ _ _ _ _)); [done|done|done|done|repeat constructor; done|done|cbn; lia].
Defined.

(** The next chunk is never empty and, whatever was measured and in whatever order
    the workers are visited, lies between the minimum and the maximum chunk when the
    debug cap is off, and never above the cap when it is on. *)
Theorem nextChunkSize_bounds env order worker s :
  let n := nextChunkSize env order worker s in
  n <= maxChunk s /\
  (cap_windows env = 0 -> minChunk s <= n) /\
  (0 < cap_windows env -> n <= wrap 64 (cap_windows env * (if 0 <? H_ s then H_ s else 1))) /\
  (cap_windows env * (if 0 <? H_ s then H_ s else 1) < 2 ^ 64 -> 0 < n).
Proof.
  assert (exists c, nextChunkSize env order worker s = applyDebugWindowCap env s c /\ minChunk s <= c <= maxChunk s) as (c & -> & Hc).
  { pose proof (chunk_limits s) as (_ & Hm & Hb). unfold nextChunkSize.
    destruct (throughput_ s !! worker) as [t|]; [|by eexists].
    destruct (_ <? _); [by eexists|]. destruct (total_aps s order) as [sum count]. eexists. split; [reflexivity|].
    by apply clamp_range. }
  pose proof (chunk_limits s) as (Hf & _). unfold kMinChunkFallback in Hf. unfold applyDebugWindowCap.
  set (win := if 0 <? H_ s then H_ s else 1). assert (0 < win) by (unfold win; destruct (Z.ltb_spec 0 (H_ s)); lia).
  destruct (Z.eqb_spec (cap_windows env) 0) as [E|E]; [split_and!; lia|].
  assert (0 < cap_windows env) as Hp by (unfold cap_windows in *; destruct env as [x|]; [destruct (Z.leb_spec 1 x)|]; lia).
  split_and!; [lia|lia|lia|]. intros Hb.
  assert (0 < cap_windows env * win) by (apply Z.mul_pos_pos; lia). rewrite wrap_small by (unfold in_width; lia). lia.
Qed.

Lemma nextChunkSize_bounds_witness :
  0 < nextChunkSize (Some 2) [1] 1 (recordCompletion 1 100 500 (d_of_Z 2) (recordCompletion 1 90 400 (d_of_Z 2)
        (ChunkScheduler_init 2 1000000 64 24))).
Proof.
  refine (proj2 (proj2 (proj2 (nextChunkSize_bounds (Some 2) [1] 1 _))) _). vm_compute. reflexivity.
Defined.

(** The documented alignment of ranges and chunks does not hold in general: a quantum
    that is not a multiple of the hypercube size moves the starts off its multiples,
    and the first chunks are not aligned at all. *)
Lemma ranges_unaligned :
  map (fun r => start r mod 64)
    (computeContiguousRanges_sm None (ChunkScheduler_init 2 1000000 64 40) [68; 16; 8] 5000 64 40 zero) = [0; 24; 40].
Proof. vm_compute. done. Qed.

Lemma nextChunkSize_unaligned :
  nextChunkSize None [] 1 (ChunkScheduler_init 1 100000 64 8) mod 64 <> 0.
Proof. vm_compute. done. Qed.
