(* ===== verification/Gf2.v ===== *)
(** Sparse matrices over GF(2) as the host code of [src/src/matrix] has them
    ([matrix_constructor.h], [merge_tree.{h,cpp}] and the shared parts of
    [merge_filter.cpp]): the CSR record, the symmetric difference of rows, column
    weights, compaction, the merge tree and the expansion of kernel vectors. *)
From Stdlib Require Import ZArith Lia Sorted.
From stdpp Require Import base gmap sets list sorting.
From S2P Require Import Prelude Soa.
#[local] Open Scope Z_scope.

(** ** Vectors indexed by 32-bit integers *)

(** [v[i]]; in range wherever the code indexes. *)
Definition vget {A} (d : A) (l : list A) (i : Z) : A := nth (Z.to_nat i) l d.
Definition vset {A} (l : list A) (i : Z) (x : A) : list A := <[Z.to_nat i := x]> l.

(** The values of a loop variable that counts from 0 below [n]. *)
Definition upto (n : Z) : list Z := map Z.of_nat (seq 0 (Z.to_nat n)).

Definition UINT32_MAX : Z := 2 ^ 32 - 1.

(** ** Matrices *)

Record HostMatrixCSR := mkCSR { row_offsets : list Z; col_indices : list Z; n_rows : Z; n_cols : Z }.

Definition csr_row (m : HostMatrixCSR) (r : Z) : list Z :=
  slice (col_indices m) (idx (row_offsets m) r) (idx (row_offsets m) (r + 1)).

(** [xor_rows]: the two-pointer merge of two vectors, cancelling equal heads. *)
Fixpoint xor_rows (a : list Z) : list Z -> list Z :=
  match a with
  | [] => fun b => b
  | x :: a' =>
      fix go (b : list Z) : list Z :=
        match b with
        | [] => x :: a'
        | y :: b' => if x <? y then x :: xor_rows a' (y :: b')
                     else if y <? x then y :: go b'
                     else xor_rows a' b'
        end
  end.

(** [std::binary_search] on a sorted vector. *)
Definition binary_search (l : list Z) (x : Z) : bool := existsb (Z.eqb x) l.

(** [cr.erase(std::remove(cr.begin(), cr.end(), r), cr.end())]. *)
Definition erase_remove (l : list Z) (r : Z) : list Z := List.filter (fun x => negb (x =? r)) l.

(** Column weights: [col_weight[c]++] and [col_weight[c]--]. *)
Definition bump (w : list Z) (c : Z) : list Z := vset w c (wrap 32 (vget 0 w c + 1)).
Definition drop1 (w : list Z) (c : Z) : list Z := vset w c (wrap 32 (vget 0 w c - 1)).

(** ** Compaction *)

(** Columns of weight 0 are dropped, the others renumbered in order: the
    old-to-new table, the new-to-old one, and their number. *)
Definition compact_col (w : list Z) (st : list Z * list Z * Z) (c : Z) : list Z * list Z * Z :=
  let '(old_to_new, col_map, new_col_count) := st in
  if 0 <? vget 0 w c then (vset old_to_new c new_col_count, col_map ++ [c], wrap 32 (new_col_count + 1)) else st.

Definition compact_cols (w : list Z) (n_cols : Z) : list Z * list Z * Z :=
  foldl (compact_col w) (replicate (Z.to_nat n_cols) UINT32_MAX, [], 0) (upto n_cols).

(** The alive rows are written out with renumbered columns, each with its label;
    [fin] is what is done to a finished row. *)
Definition compact_row (alive : list bool) (row : Z -> list Z) (label : Z -> Z) (fin : list Z -> list Z)
    (old_to_new : list Z) (st : list Z * list Z * list Z) (r : Z) : list Z * list Z * list Z :=
  let '(offsets, cols, row_map) := st in
  if negb (vget false alive r) then st
  else
    let cols := cols ++ fin (map (vget 0 old_to_new) (row r)) in
    (offsets ++ [wrap 32 (Z.of_nat (length cols))], cols, row_map ++ [label r]).

Definition compact_rows (alive : list bool) (row : Z -> list Z) (label : Z -> Z) (fin : list Z -> list Z)
    (old_to_new : list Z) (n_rows : Z) : list Z * list Z * list Z :=
  foldl (compact_row alive row label fin old_to_new) ([0], [], []) (upto n_rows).

(** ** The merge tree *)

Record MergeTree := mkTree { num_leaves : Z; internal_nodes : list (Z * Z) }.

(** The loop of [expand]; [None]: the bounds assertion fails, or the fuel is used up. *)
Fixpoint expand_loop (fuel : nat) (t : MergeTree) (work out : list Z) : option (list Z) :=
  match work with
  | [] => Some out
  | i :: work' =>
      match fuel with
      | O => None
      | S f =>
          if i <? num_leaves t then expand_loop f t work' (out ++ [i])
          else
            match internal_nodes t !! Z.to_nat (i - num_leaves t) with
            | None => None
            | Some (lft, rgt) => expand_loop f t (rgt :: lft :: work') out
            end
      end
  end.

Definition expand (fuel : nat) (t : MergeTree) (node_idx : Z) : option (list Z) := expand_loop fuel t [node_idx] [].

(** [freq[leaf]++]. *)
Definition count_leaf (freq : gmap Z Z) (leaf : Z) : gmap Z Z :=
  <[leaf := wrap 32 (default 0 (freq !! leaf) + 1)]> freq.

(** The loop over the reduced rows [i], [i + 1], ..., [n] of them. *)
Fixpoint kernel_loop (fuel : nat) (packed_bits row_map : list Z) (t : MergeTree) (i : Z) (n : nat) (freq : gmap Z Z)
  : option (gmap Z Z) :=
  match n with
  | O => Some freq
  | S n' =>
      let word := i / 64 in
      let bit := i mod 64 in
      if Z.of_nat (length packed_bits) <=? word then Some freq
      else if Z.land (idx packed_bits word) (Z.shiftl 1 bit) =? 0 then kernel_loop fuel packed_bits row_map t (i + 1) n' freq
      else
        match expand fuel t (idx row_map i) with
        | None => None
        | Some leaves => kernel_loop fuel packed_bits row_map t (i + 1) n' (foldl count_leaf freq leaves)
        end
  end.

(** The odd-frequency leaves, sorted. *)
Definition expandKernelVector (fuel : nat) (packed_bits : list Z) (num_reduced_rows : Z) (row_map : list Z) (t : MergeTree)
  : option (list Z) :=
  match kernel_loop fuel packed_bits row_map t 0 (Z.to_nat num_reduced_rows) ∅ with
  | None => None
  | Some freq =>
      Some (merge_sort Z.le (map fst (List.filter (fun kv => negb (Z.land kv.2 1 =? 0)) (map_to_list freq))))
  end.

(** [selectKernelVectorRows] of [preprocess.cpp]. *)
Definition selectKernelVectorRows (packed_bits : list Z) (num_reduced_rows : Z) (row_map : list Z) : list Z :=
  merge_sort Z.le
    (map (idx row_map)
       (List.filter (fun i => let word := i / 64 in let bit := i mod 64 in
                         (word <? Z.of_nat (length packed_bits)) && negb (Z.land (Z.shiftr (idx packed_bits word) bit) 1 =? 0))
          (upto num_reduced_rows))).

(** ** Vocabulary of the specifications *)

(** Entry [c] of a row: how often it is listed, over GF(2). *)
Definition entry (c : Z) (row : list Z) : bool := foldr (fun x b => xorb (x =? c) b) false row.

(** The GF(2) sum of [f] over a list. *)
Definition xsum {A} (f : A -> bool) (l : list A) : bool := foldr (fun x b => xorb (f x) b) false l.

(** Bit [i] of a kernel vector. *)
Definition kbit (packed_bits : list Z) (i : Z) : bool := Z.testbit (idx packed_bits (i / 64)) (i mod 64).

(** The leaves below a node, in the order [expand] visits them. *)
Inductive leaves_of (t : MergeTree) : Z -> list Z -> Prop :=
  | leaf_self i : 0 <= i < num_leaves t -> leaves_of t i [i]
  | leaf_node i lft rgt ls rs :
      num_leaves t <= i -> internal_nodes t !! Z.to_nat (i - num_leaves t) = Some (lft, rgt) ->
      leaves_of t rgt rs -> leaves_of t lft ls -> leaves_of t i (rs ++ ls).

(** Every node's children are older than the node. *)
Definition tree_wf (t : MergeTree) : Prop :=
  0 <= num_leaves t /\
  forall k l r, internal_nodes t !! k = Some (l, r) ->
    0 <= l < num_leaves t + Z.of_nat k /\ 0 <= r < num_leaves t + Z.of_nat k.

Definition node_ok (t : MergeTree) (i : Z) : Prop := 0 <= i < num_leaves t + Z.of_nat (length (internal_nodes t)).

(** How often a row lists a column. *)
Definition occ (c : Z) (row : list Z) : Z := zsum (map (fun x => if x =? c then 1 else 0) row).

(** The sum of [f] over the indices below [n]. *)
Definition zsum_upto (n : Z) (f : Z -> Z) : Z := zsum (map f (upto n)).

(** The columns that compaction keeps. *)
Definition kept (w : list Z) (n : Z) : list Z := List.filter (fun c => 0 <? vget 0 w c) (upto n).

(** Strictly increasing rows. *)
Definition sorted_row (row : list Z) : Prop := StronglySorted Z.lt row.

(** A valid CSR matrix: consecutive slices of strictly increasing in-range columns. *)
Record csr_ok (m : HostMatrixCSR) : Prop := mkCsrOk {
  co_rows : 0 <= n_rows m < 2 ^ 32;
  co_cols : 0 <= n_cols m < 2 ^ 32;
  co_sorted : forall r, 0 <= r < n_rows m -> sorted_row (csr_row m r) /\ Forall (fun c => 0 <= c < n_cols m) (csr_row m r)
}.

(** ** Vocabulary of the specifications *)

(** [w] holds the totals [X], reduced to 32 bits. *)
Definition weights (w : list Z) (n : Z) (X : Z -> Z) : Prop :=
  length w = Z.to_nat n /\ forall c, 0 <= c < n -> vget 0 w c = wrap 32 (X c).

(** The rows a compaction writes. *)
Definition alive_rows (alive : list bool) (n : Z) : list Z := List.filter (vget false alive) (upto n).

(** Prefix lengths of concatenated rows. *)
Fixpoint ends_from (o : Z) (ls : list (list Z)) : list Z :=
  match ls with [] => [] | l :: ls' => (o + Z.of_nat (length l)) :: ends_from (o + Z.of_nat (length l)) ls' end.

(** The matrix with the given rows. *)
Definition csr_of (rows : list (list Z)) (n_cols : Z) : HostMatrixCSR :=
  mkCSR (0 :: ends_from 0 rows) (concat rows) (Z.of_nat (length rows)) n_cols.

(** The GF(2) sum of [g] over the leaves counted an odd number of times. *)
Definition odd_sum (g : Z -> bool) (freq : gmap Z Z) : bool :=
  map_fold (fun k v b => xorb (Z.odd v && g k) b) false freq.

Definition odd_leaves (freq : gmap Z Z) : list Z :=
  map fst (List.filter (fun kv => negb (Z.land kv.2 1 =? 0)) (map_to_list freq)).

(** ** Lemmas: vectors *)

Lemma vget_vset_eq {A} (d : A) l i x : 0 <= i < Z.of_nat (length l) -> vget d (vset l i x) i = x.
Proof. intros H. unfold vget, vset. apply nth_lookup_Some. apply list_lookup_insert_eq. lia. Qed.

Lemma vget_vset_ne {A} (d : A) l i j x : 0 <= i -> 0 <= j -> i <> j -> vget d (vset l i x) j = vget d l j.
Proof. intros Hi Hj H. unfold vget, vset. rewrite !nth_lookup, list_lookup_insert_ne by lia. done. Qed.

Lemma length_vset {A} (l : list A) i x : length (vset l i x) = length l.
Proof. apply length_insert. Qed.

Lemma vget_replicate {A} (d x : A) n i : 0 <= i < Z.of_nat n -> vget d (replicate n x) i = x.
Proof. intros H. unfold vget. apply nth_lookup_Some. apply lookup_replicate_2. lia. Qed.

Lemma elem_of_upto n i : i ∈ upto n <-> 0 <= i < n.
Proof.
  unfold upto. rewrite list_elem_of_In, in_map_iff. split.
  - intros (k & <- & Hk). apply in_seq in Hk. lia.
  - intros H. exists (Z.to_nat i). rewrite in_seq. lia.
Qed.

Lemma length_upto n : length (upto n) = Z.to_nat n.
Proof. unfold upto. by rewrite length_map, length_seq. Qed.

Lemma upto_S n : 0 <= n -> upto (n + 1) = upto n ++ [n].
Proof.
  intros H. unfold upto. replace (Z.to_nat (n + 1)) with (Z.to_nat n + 1)%nat by lia.
  rewrite seq_app, map_app. cbn. by rewrite Z2Nat.id.
Qed.

Lemma upto_0 : upto 0 = [].
Proof. done. Qed.

Lemma lookup_upto n k : (k < Z.to_nat n)%nat -> upto n !! k = Some (Z.of_nat k).
Proof. intros H. unfold upto. rewrite list_lookup_fmap, lookup_seq_lt by done. done. Qed.

Lemma vget_map_upto {A} (d : A) (f : Z -> A) n i : 0 <= i < n -> vget d (map f (upto n)) i = f i.
Proof.
  intros H. unfold vget. apply nth_lookup_Some. rewrite list_lookup_fmap, lookup_upto by lia. cbn. by rewrite Z2Nat.id by lia.
Qed.

(** Induction over a fold on the indices below [n]. *)
Lemma foldl_upto {A} (P : Z -> A -> Prop) (f : A -> Z -> A) a n :
  0 <= n -> P 0 a -> (forall i a, 0 <= i < n -> P i a -> P (i + 1) (f a i)) -> P n (foldl f a (upto n)).
Proof.
  intros Hn H0 HS. assert (forall m, 0 <= m -> m <= n -> P m (foldl f a (upto m))) as H; [|by apply H].
  intros m Hm. pattern m. apply natlike_ind; [by intros _|clear m Hm|done].
  intros m Hm IH Hl. change (Z.succ m) with (m + 1). rewrite upto_S, foldl_snoc by done.
  apply HS; [lia|]. apply IH. lia.
Qed.

Lemma zsum_upto_S n f : 0 <= n -> zsum_upto (n + 1) f = zsum_upto n f + f n.
Proof. intros H. unfold zsum_upto. rewrite upto_S, map_app, zsum_app by done. cbn. lia. Qed.

Lemma zsum_upto_ext n f g : (forall i, 0 <= i < n -> f i = g i) -> zsum_upto n f = zsum_upto n g.
Proof.
  intros H. unfold zsum_upto. f_equal. apply map_ext_in. intros i Hi. apply H. apply elem_of_upto. by apply list_elem_of_In.
Qed.

Lemma zsum_upto_update n f g k :
  0 <= k < n -> (forall i, 0 <= i < n -> i <> k -> g i = f i) -> zsum_upto n g = zsum_upto n f - f k + g k.
Proof.
  intros Hk H. assert (forall m, 0 <= m -> m <= n ->
    zsum_upto m g = zsum_upto m f + if k <? m then g k - f k else 0) as Hm.
  { intros m Hm. pattern m. apply natlike_ind; [by intros _; destruct (Z.ltb_spec k 0); [lia|]|clear m Hm|done].
    intros m Hm IH Hl. change (Z.succ m) with (m + 1). rewrite !zsum_upto_S, IH by lia.
    destruct (Z.ltb_spec k m), (Z.ltb_spec k (m + 1)); try lia.
    - rewrite (H m) by lia. lia.
    - replace m with k by lia. lia.
    - rewrite (H m) by lia. lia. }
  rewrite Hm by lia. destruct (Z.ltb_spec k n); lia.
Qed.

Lemma zsum_upto_bounds n f lo hi : 0 <= n -> (forall i, 0 <= i < n -> lo <= f i <= hi) -> n * lo <= zsum_upto n f <= n * hi.
Proof.
  intros Hn H. assert (forall m, 0 <= m -> m <= n -> m * lo <= zsum_upto m f <= m * hi) as Hm; [|apply Hm; lia].
  intros m Hm. pattern m. apply natlike_ind; [intros _; change (zsum_upto 0 f) with 0; lia|clear m Hm|done].
  intros m Hm IH Hl. change (Z.succ m) with (m + 1). rewrite zsum_upto_S by done. specialize (H m ltac:(lia)).
  specialize (IH ltac:(lia)). lia.
Qed.

Lemma zsum_upto_ge n f k : 0 <= k < n -> (forall i, 0 <= i < n -> 0 <= f i) -> f k <= zsum_upto n f.
Proof.
  intros Hk H. rewrite (zsum_upto_update n (fun i => if i =? k then 0 else f i) f k Hk).
  - rewrite Z.eqb_refl. pose proof (zsum_upto_bounds n (fun i => if i =? k then 0 else f i) 0 (zsum_upto n (fun i => Z.max 0 (f i)))) as Hb.
    assert (0 <= zsum_upto n (fun i => if i =? k then 0 else f i)); [|lia].
    unfold zsum_upto. apply zsum_nonneg. apply Forall_forall. intros x Hx. apply list_elem_of_In, in_map_iff in Hx as (i & <- & Hi).
    destruct (i =? k); [lia|]. apply H. apply elem_of_upto. by apply list_elem_of_In.
  - intros i Hi Hne. by rewrite (proj2 (Z.eqb_neq i k) Hne).
Qed.

(** ** Lemmas: rows over GF(2) *)

Lemma entry_cons c x row : entry c (x :: row) = xorb (x =? c) (entry c row).
Proof. done. Qed.

Lemma entry_app c r1 r2 : entry c (r1 ++ r2) = xorb (entry c r1) (entry c r2).
Proof. induction r1 as [|x r1 IH]; [cbn [app]; by destruct (entry c r2)|]. cbn [app]. by rewrite !entry_cons, IH, xorb_assoc. Qed.

Lemma xor_rows_cons x a y b :
  xor_rows (x :: a) (y :: b)
  = if x <? y then x :: xor_rows a (y :: b) else if y <? x then y :: xor_rows (x :: a) b else xor_rows a b.
Proof. done. Qed.

Lemma xor_rows_nil_r a : xor_rows a [] = a.
Proof. by destruct a. Qed.

Lemma xor_rows_ind (P : list Z -> list Z -> list Z -> Prop) :
  (forall b, P [] b b) -> (forall a, P a [] a) ->
  (forall x a y b, x < y -> P a (y :: b) (xor_rows a (y :: b)) -> P (x :: a) (y :: b) (x :: xor_rows a (y :: b))) ->
  (forall x a y b, y < x -> P (x :: a) b (xor_rows (x :: a) b) -> P (x :: a) (y :: b) (y :: xor_rows (x :: a) b)) ->
  (forall x a b, P a b (xor_rows a b) -> P (x :: a) (x :: b) (xor_rows a b)) ->
  forall a b, P a b (xor_rows a b).
Proof.
  intros H1 H2 H3 H4 H5 a. induction a as [|x a IHa]; intros b; [apply H1|].
  induction b as [|y b IHb]; [apply H2|]. rewrite xor_rows_cons.
  destruct (Z.ltb_spec x y); [by apply H3|]. destruct (Z.ltb_spec y x); [by apply H4|].
  replace y with x by lia. by apply H5.
Qed.

(** Whatever the columns are called. *)
Lemma entry_map_xor_rows (g : Z -> Z) c a b :
  entry c (map g (xor_rows a b)) = xorb (entry c (map g a)) (entry c (map g b)).
Proof.
  apply (xor_rows_ind (fun a b r => entry c (map g r) = xorb (entry c (map g a)) (entry c (map g b)))); clear a b.
  - intros b. cbn [map]. by destruct (entry c (map g b)).
  - intros a. cbn. by rewrite xorb_false_r.
  - intros x a y b _ IH. cbn [map] in *. by rewrite entry_cons, IH, !(entry_cons c (g x)), xorb_assoc.
  - intros x a y b _ IH. cbn [map] in *. rewrite entry_cons, IH, (entry_cons c (g y)).
    by rewrite <- !xorb_assoc, (xorb_comm (g y =? c)).
  - intros x a b IH. cbn [map] in *. rewrite !entry_cons, IH.
    destruct (g x =? c), (entry c (map g a)), (entry c (map g b)); done.
Qed.

Lemma entry_xor_rows c a b : entry c (xor_rows a b) = xorb (entry c a) (entry c b).
Proof. pose proof (entry_map_xor_rows id c a b) as H. by rewrite !map_id in H. Qed.

Lemma xor_rows_Forall (P : Z -> Prop) a b : Forall P a -> Forall P b -> Forall P (xor_rows a b).
Proof.
  apply (xor_rows_ind (fun a b r => Forall P a -> Forall P b -> Forall P r)); clear a b; try done.
  - intros x a y b _ IH [? ?]%Forall_cons ?. constructor; [done|by apply IH].
  - intros x a y b _ IH ? [? ?]%Forall_cons. constructor; [done|by apply IH].
  - intros x a b IH [_ ?]%Forall_cons [_ ?]%Forall_cons. by apply IH.
Qed.

Lemma sorted_row_cons x l : sorted_row (x :: l) <-> sorted_row l /\ Forall (Z.lt x) l.
Proof. split; [intros H; by inversion H|intros [? ?]; by constructor]. Qed.

Lemma xor_rows_sorted a b : sorted_row a -> sorted_row b -> sorted_row (xor_rows a b).
Proof.
  apply (xor_rows_ind (fun a b r => sorted_row a -> sorted_row b -> sorted_row r)); clear a b; try done.
  - intros x a y b Hlt IH [Ha Hx]%sorted_row_cons Hb. apply sorted_row_cons. split; [by apply IH|].
    apply xor_rows_Forall; [done|]. apply sorted_row_cons in Hb as [_ Hy]. constructor; [done|].
    eapply Forall_impl; [exact Hy|]. cbn. lia.
  - intros x a y b Hlt IH Ha [Hb Hy]%sorted_row_cons. apply sorted_row_cons. split; [by apply IH|].
    apply xor_rows_Forall; [|done]. apply sorted_row_cons in Ha as [_ Hx]. constructor; [done|].
    eapply Forall_impl; [exact Hx|]. cbn. lia.
  - intros x a b IH [Ha _]%sorted_row_cons [Hb _]%sorted_row_cons. by apply IH.
Qed.

Lemma sorted_row_entry row c : sorted_row row -> entry c row = true <-> c ∈ row.
Proof.
  intros H. induction row as [|x row IH]; [split; [done|by intros ?%elem_of_nil]|].
  apply sorted_row_cons in H as [Hs Hx]. rewrite entry_cons, elem_of_cons. specialize (IH Hs).
  destruct (Z.eqb_spec x c) as [->|Hne].
  - split; [by left|]. intros _. destruct (entry c row) eqn:E; [|done]. exfalso.
    rewrite Forall_forall in Hx. pose proof (Hx c (proj1 IH eq_refl)). lia.
  - rewrite xorb_false_l, IH. split; [by right|]. intros [->|?]; [lia|done].
Qed.

Lemma occ_cons c x row : occ c (x :: row) = (if x =? c then 1 else 0) + occ c row.
Proof. done. Qed.

Lemma occ_app c r1 r2 : occ c (r1 ++ r2) = occ c r1 + occ c r2.
Proof. unfold occ. by rewrite map_app, zsum_app. Qed.

Lemma occ_nonneg c row : 0 <= occ c row.
Proof. induction row as [|x row IH]; [done|]. rewrite occ_cons. destruct (x =? c); lia. Qed.

Lemma occ_pos c row : 0 < occ c row <-> c ∈ row.
Proof.
  induction row as [|x row IH]; [split; [done|by intros ?%elem_of_nil]|].
  rewrite occ_cons, elem_of_cons, <- IH. pose proof (occ_nonneg c row).
  destruct (Z.eqb_spec x c) as [->|Hne]; [split; [by left|lia]|]. split; [right; lia|intros [->|?]; lia].
Qed.

Lemma sorted_occ c row : sorted_row row -> occ c row = if entry c row then 1 else 0.
Proof.
  intros H. induction row as [|x row IH]; [done|]. pose proof (proj1 (sorted_row_cons _ _) H) as [Hs Hx].
  rewrite occ_cons, IH, entry_cons by done. destruct (Z.eqb_spec x c) as [->|Hne]; [|done].
  destruct (entry c row) eqn:E; [|done]. exfalso. apply (sorted_row_entry row c Hs) in E.
  rewrite Forall_forall in Hx. pose proof (Hx c E). lia.
Qed.

Lemma sorted_occ_le c row : sorted_row row -> occ c row <= 1.
Proof. intros H. rewrite sorted_occ by done. destruct (entry c row); lia. Qed.

(** ** Lemmas: weights *)

Lemma weights_ext w n X Y : weights w n X -> (forall c, 0 <= c < n -> X c = Y c) -> weights w n Y.
Proof. intros [H1 H2] H. split; [done|]. intros c Hc. by rewrite H2, H. Qed.

Lemma weights_step w n X c d :
  0 <= c < n -> weights w n X ->
  weights (vset w c (wrap 32 (vget 0 w c + d))) n (fun x => X x + if c =? x then d else 0).
Proof.
  intros Hc [Hl Hw]. split; [by rewrite length_vset|]. intros x Hx. destruct (Z.eqb_spec c x) as [->|Hne].
  - rewrite vget_vset_eq by lia. rewrite Hw by done. apply Zplus_mod_idemp_l.
  - rewrite vget_vset_ne by lia. rewrite Z.add_0_r. by apply Hw.
Qed.

Lemma weights_bump w n X l :
  Forall (fun c => 0 <= c < n) l -> weights w n X -> weights (foldl bump w l) n (fun c => X c + occ c l).
Proof.
  intros Hl. revert w X. induction Hl as [|x l Hx _ IH]; intros w X Hw.
  - eapply weights_ext; [exact Hw|]. intros c _. cbn. lia.
  - cbn [foldl]. eapply weights_ext; [apply IH; unfold bump; by apply (weights_step w n X x 1)|].
    intros c _. cbn beta. rewrite occ_cons. lia.
Qed.

Lemma weights_drop w n X l :
  Forall (fun c => 0 <= c < n) l -> weights w n X -> weights (foldl drop1 w l) n (fun c => X c - occ c l).
Proof.
  intros Hl. revert w X. induction Hl as [|x l Hx _ IH]; intros w X Hw.
  - eapply weights_ext; [exact Hw|]. intros c _. cbn. lia.
  - cbn [foldl]. eapply weights_ext; [apply IH; unfold drop1; by apply (weights_step w n X x (-1))|].
    intros c _. cbn beta. rewrite occ_cons. destruct (x =? c); lia.
Qed.

(** ** Lemmas: compaction *)

Lemma filter_true_In {A} (f : A -> bool) l x : x ∈ List.filter f l <-> x ∈ l /\ f x = true.
Proof. rewrite !list_elem_of_In. apply filter_In. Qed.

Lemma upto_sorted n : sorted_row (upto n).
Proof.
  unfold upto. generalize 0%nat as i. induction (Z.to_nat n) as [|m IH]; intros i; [constructor|].
  cbn [seq map]. apply sorted_row_cons. split; [apply IH|]. apply Forall_forall. intros x Hx.
  apply list_elem_of_In, in_map_iff in Hx as (k & <- & Hk). apply in_seq in Hk. lia.
Qed.

Lemma filter_sorted f row : sorted_row row -> sorted_row (List.filter f row).
Proof.
  intros H. induction row as [|x row IH]; [done|]. apply sorted_row_cons in H as [Hs Hx]. cbn.
  destruct (f x); [|by apply IH]. apply sorted_row_cons. split; [by apply IH|].
  apply Forall_forall. intros y [Hy _]%filter_true_In. rewrite Forall_forall in Hx. by apply Hx.
Qed.

Lemma sorted_row_NoDup row : sorted_row row -> NoDup row.
Proof.
  induction row as [|x row IH]; [constructor|]. intros [Hs Hx]%sorted_row_cons. constructor; [|by apply IH].
  intros Hin. rewrite Forall_forall in Hx. pose proof (Hx x Hin). lia.
Qed.

Lemma kept_spec w n c : c ∈ kept w n <-> 0 <= c < n /\ 0 < vget 0 w c.
Proof. unfold kept. rewrite filter_true_In, elem_of_upto, Z.ltb_lt. done. Qed.

Lemma kept_sorted w n : sorted_row (kept w n).
Proof. apply filter_sorted, upto_sorted. Qed.

(** The two tables of column compaction are inverse to each other. *)
Lemma compact_cols_spec w n :
  0 <= n < 2 ^ 32 ->
  exists o2n, compact_cols w n = (o2n, kept w n, Z.of_nat (length (kept w n))) /\
  forall k c, kept w n !! k = Some c -> vget 0 o2n c = Z.of_nat k.
Proof.
  intros Hn. unfold compact_cols.
  assert (let '(o2n, cm, cnt) := foldl (compact_col w) (replicate (Z.to_nat n) UINT32_MAX, [], 0) (upto n) in
    length o2n = Z.to_nat n /\ cm = kept w n /\ cnt = Z.of_nat (length (kept w n)) /\
    forall k c, kept w n !! k = Some c -> vget 0 o2n c = Z.of_nat k) as H.
  { apply (foldl_upto (fun i st => let '(o2n, cm, cnt) := st in
      length o2n = Z.to_nat n /\ cm = kept w i /\ cnt = Z.of_nat (length (kept w i)) /\
      forall k c, kept w i !! k = Some c -> vget 0 o2n c = Z.of_nat k)); [lia| |].
    { split_and!; [by rewrite length_replicate|done|done|done]. }
    intros i [[o2n cm] cnt] Hi (Hl & -> & -> & Hk). cbn [compact_col].
    assert (kept w (i + 1) = kept w i ++ if 0 <? vget 0 w i then [i] else []) as E.
    { unfold kept. rewrite upto_S by lia. rewrite List.filter_app. cbn. by destruct (_ <? _). }
    rewrite E. destruct (0 <? vget 0 w i); [|by rewrite app_nil_r].
    assert (length (kept w i) <= Z.to_nat i)%nat.
    { unfold kept. rewrite List.filter_length_le. by rewrite length_upto. }
    split_and!; [by rewrite length_vset|done| |].
    - rewrite length_app. cbn [length]. rewrite wrap_small by (unfold in_width; lia). lia.
    - intros k c Hc. destruct (decide (k < length (kept w i))%nat).
      + rewrite lookup_app_l in Hc by done. pose proof (list_elem_of_lookup_2 _ _ _ Hc) as [Hin _]%kept_spec.
        rewrite vget_vset_ne by lia. by apply Hk.
      + rewrite lookup_app_r in Hc by lia. destruct (k - length (kept w i))%nat eqn:Ek; [|done].
        injection Hc as <-. rewrite vget_vset_eq by lia. f_equal. lia. }
  destruct (foldl _ _ _) as [[o2n cm] cnt]. destruct H as (_ & -> & -> & Hk). by exists o2n.
Qed.

Lemma ends_from_app o l1 l2 : ends_from o (l1 ++ l2) = ends_from o l1 ++ ends_from (o + Z.of_nat (length (concat l1))) l2.
Proof.
  revert o. induction l1 as [|l l1 IH]; intros o; [cbn; by rewrite Z.add_0_r|]. cbn [app ends_from concat].
  rewrite IH, length_app. do 3 f_equal. lia.
Qed.

Lemma compact_rows_spec alive row label fin o2n n :
  0 <= n ->
  let rs := map (fun r => fin (map (vget 0 o2n) (row r))) (alive_rows alive n) in
  compact_rows alive row label fin o2n n
  = (0 :: map (wrap 32) (ends_from 0 rs), concat rs, map label (alive_rows alive n)).
Proof.
  intros Hn rs. unfold compact_rows, rs.
  apply (foldl_upto (fun i st => st = (0 :: map (wrap 32) (ends_from 0 (map (fun r => fin (map (vget 0 o2n) (row r))) (alive_rows alive i))),
    concat (map (fun r => fin (map (vget 0 o2n) (row r))) (alive_rows alive i)), map label (alive_rows alive i)))); [done|done|].
  intros i st Hi ->. cbn [compact_row].
  assert (alive_rows alive (i + 1) = alive_rows alive i ++ if vget false alive i then [i] else []) as ->.
  { unfold alive_rows. rewrite upto_S by lia. rewrite List.filter_app. cbn. by destruct (vget _ _ _). }
  destruct (vget false alive i); cbn [negb]; [|by rewrite app_nil_r].
  rewrite !map_app, concat_app, ends_from_app, map_app. cbn [map concat ends_from app]. rewrite app_nil_r, length_app.
  by rewrite Nat2Z.inj_add, Z.add_0_l.
Qed.

(** Reading a row back. *)
Lemma csr_row_concat (rs : list (list Z)) n nc k r :
  Z.of_nat (length (concat rs)) < 2 ^ 32 -> rs !! k = Some r ->
  csr_row (mkCSR (0 :: map (wrap 32) (ends_from 0 rs)) (concat rs) n nc) (Z.of_nat k) = r.
Proof.
  intros Hl Hk. unfold csr_row. cbn [row_offsets col_indices].
  assert (forall j, (j <= length rs)%nat ->
    idx (0 :: map (wrap 32) (ends_from 0 rs)) (Z.of_nat j) = Z.of_nat (length (concat (take j rs)))) as Hidx.
  { intros j Hj. unfold idx. rewrite Nat2Z.id. destruct j as [|j]; [done|]. cbn [nth].
    rewrite <- (take_drop (S j) rs) at 1. rewrite ends_from_app, map_app.
    assert (exists l x, take (S j) rs = l ++ [x]) as (l & x & E).
    { destruct (lookup_lt_is_Some_2 rs j) as [x Hx]; [lia|]. exists (take j rs), x. by apply take_S_r. }
    rewrite E. rewrite ends_from_app, map_app. cbn [ends_from map].
    assert (length l = j) as El by (apply (f_equal length) in E; rewrite length_app, length_take in E; cbn [length] in E; lia).
    assert (forall o ls, length (ends_from o ls) = length ls) as Le by (intros o ls; revert o; induction ls; intros; cbn; auto).
    rewrite <- app_assoc. rewrite app_nth2 by (rewrite length_map, Le; lia). rewrite length_map, Le, El, Nat.sub_diag. cbn [nth app].
    rewrite concat_app, length_app. cbn [concat]. rewrite app_nil_r.
    assert (length (concat (l ++ [x])) <= length (concat rs))%nat as Hle.
    { rewrite <- E. transitivity (length (concat (take (S j) rs ++ drop (S j) rs)));
      [rewrite concat_app, length_app; lia|rewrite take_drop; lia]. }
    rewrite concat_app, length_app in Hle. cbn [concat] in Hle. rewrite app_nil_r in Hle.
    rewrite wrap_small by (unfold in_width; lia). lia. }
  pose proof (lookup_lt_Some _ _ _ Hk). replace (Z.of_nat k + 1) with (Z.of_nat (S k)) by lia.
  rewrite !Hidx by lia. unfold slice. rewrite (take_S_r _ _ _ Hk), concat_app, length_app. cbn [concat]. rewrite app_nil_r.
  replace (Z.to_nat _) with (length r) by lia. rewrite Nat2Z.id.
  rewrite <- (take_drop_middle rs k r Hk) at 2. rewrite concat_app. cbn [concat].
  rewrite drop_app_length. by rewrite take_app_length.
Qed.

(** ** Lemmas: GF(2) sums *)

Lemma xsum_cons {A} (f : A -> bool) x l : xsum f (x :: l) = xorb (f x) (xsum f l).
Proof. done. Qed.

Lemma xsum_app {A} (f : A -> bool) l1 l2 : xsum f (l1 ++ l2) = xorb (xsum f l1) (xsum f l2).
Proof.
  induction l1 as [|x l1 IH]; [cbn [app]; by destruct (xsum f l2)|]. cbn [app]. by rewrite !xsum_cons, IH, xorb_assoc.
Qed.

Lemma xsum_ext {A} (f g : A -> bool) l : (forall x, x ∈ l -> f x = g x) -> xsum f l = xsum g l.
Proof.
  induction l as [|x l IH]; intros H; [done|]. rewrite !xsum_cons, (H x), IH; [done| |by left].
  intros y Hy. apply H. by right.
Qed.

Lemma xsum_false {A} (f : A -> bool) l : (forall x, x ∈ l -> f x = false) -> xsum f l = false.
Proof.
  intros H. rewrite (xsum_ext f (fun _ => false)) by done. clear H.
  induction l as [|x l IH]; [done|]. by rewrite xsum_cons, IH.
Qed.

Lemma xsum_xorb {A} (f g : A -> bool) l : xsum (fun x => xorb (f x) (g x)) l = xorb (xsum f l) (xsum g l).
Proof. induction l as [|x l IH]; [done|]. rewrite !xsum_cons, IH. by destruct (f x), (g x), (xsum f l), (xsum g l). Qed.

Lemma xsum_andb {A} (b : bool) (f : A -> bool) l : xsum (fun x => b && f x) l = b && xsum f l.
Proof. destruct b; [done|]. by rewrite xsum_false. Qed.

Lemma xsum_swap {A B} (f : A -> B -> bool) la lb :
  xsum (fun a => xsum (fun b => f a b) lb) la = xsum (fun b => xsum (fun a => f a b) la) lb.
Proof.
  induction la as [|a la IH]; [by rewrite (xsum_false _ lb)|]. rewrite xsum_cons, IH, <- xsum_xorb. done.
Qed.

Lemma xsum_perm {A} (f : A -> bool) l1 l2 : l1 ≡ₚ l2 -> xsum f l1 = xsum f l2.
Proof.
  induction 1 as [|x l1 l2 _ IH|x y l|l1 l2 l3 _ IH1 _ IH2]; rewrite ?xsum_cons; [done|by rewrite IH| |congruence].
  by rewrite <- !xorb_assoc, (xorb_comm (f x)).
Qed.

Lemma xsum_map {A B} (f : B -> bool) (g : A -> B) l : xsum f (map g l) = xsum (fun x => f (g x)) l.
Proof. induction l as [|x l IH]; [done|]. cbn [map]. by rewrite !xsum_cons, IH. Qed.

Lemma xsum_filter {A} (f p : A -> bool) l : xsum f (List.filter p l) = xsum (fun x => p x && f x) l.
Proof.
  induction l as [|x l IH]; [done|]. cbn [List.filter]. rewrite xsum_cons, <- IH.
  destruct (p x); [by rewrite xsum_cons|]. by destruct (xsum f _).
Qed.

Lemma entry_xsum c row : entry c row = xsum (fun x => x =? c) row.
Proof. done. Qed.

(** One selected element of a list without repetition. *)
Lemma xsum_single {A} (f : A -> bool) l x :
  NoDup l -> x ∈ l -> (forall y, y ∈ l -> y <> x -> f y = false) -> xsum f l = f x.
Proof.
  intros Hd Hx Hf. apply list_elem_of_split in Hx as (l1 & l2 & ->).
  apply NoDup_app in Hd as (_ & Hd1 & Hd2). apply NoDup_cons in Hd2 as [Hd2 _].
  rewrite xsum_app, xsum_cons, (xsum_false f l1), (xsum_false f l2); [by destruct (f x)| |].
  - intros y Hy. apply Hf; [apply elem_of_app; right; by right|]. by intros ->.
  - intros y Hy. apply Hf; [apply elem_of_app; by left|]. intros ->. apply (Hd1 x Hy). by left.
Qed.

(** Renaming columns injectively moves the entries along. *)
Lemma entry_map (g : Z -> Z) row c P :
  (forall x y, P x -> P y -> g x = g y -> x = y) -> Forall P row -> P c -> entry (g c) (map g row) = entry c row.
Proof.
  intros Hg Hr Hc. induction Hr as [|x row Hx _ IH]; [done|]. cbn [map]. rewrite !entry_cons, IH. f_equal.
  destruct (Z.eqb_spec x c) as [->|Hne]; [apply Z.eqb_refl|]. apply Z.eqb_neq. intros E. by apply Hne, Hg.
Qed.

Lemma entry_not_in c row : c ∉ row -> entry c row = false.
Proof.
  induction row as [|x row IH]; [done|]. intros [Hne Hn]%not_elem_of_cons. rewrite entry_cons, IH by done.
  by rewrite (proj2 (Z.eqb_neq x c)) by congruence.
Qed.

(** ** Lemmas: the merge tree *)

Lemma leaves_exist t i : tree_wf t -> node_ok t i -> exists ls, leaves_of t i ls.
Proof.
  intros [H0 Hw] Hi. unfold node_ok in Hi.
  assert (forall (k : nat) i, (Z.to_nat i < k)%nat -> 0 <= i < num_leaves t + Z.of_nat (length (internal_nodes t)) ->
    exists ls, leaves_of t i ls) as H; [|by apply (H (S (Z.to_nat i))); [lia|]].
  clear i Hi. intros k. induction k as [|k IH]; intros i Hk Hi; [lia|].
  destruct (Z.lt_ge_cases i (num_leaves t)) as [Hlt|Hge]; [exists [i]; apply leaf_self; lia|].
  destruct (lookup_lt_is_Some_2 (internal_nodes t) (Z.to_nat (i - num_leaves t))) as [[l r] E]; [lia|].
  destruct (Hw _ _ _ E) as [Hl Hr]. destruct (IH l) as [ls Hls]; [lia|lia|]. destruct (IH r) as [rs Hrs]; [lia|lia|].
  exists (rs ++ ls). by econstructor.
Qed.

Lemma leaves_unique t i ls1 ls2 : leaves_of t i ls1 -> leaves_of t i ls2 -> ls1 = ls2.
Proof.
  intros H. revert ls2. induction H as [i Hi|i l r ls rs Hi E _ IHr _ IHl]; intros ls2 H2.
  - inversion H2; [done|lia].
  - inversion H2 as [|? l' r' ls' rs' _ E' Hr' Hl']; subst; [lia|]. rewrite E in E'. injection E' as <- <-.
    f_equal; [by apply IHr|by apply IHl].
Qed.

Lemma leaves_range t i ls : leaves_of t i ls -> Forall (fun x => 0 <= x < num_leaves t) ls.
Proof. induction 1; [by apply Forall_singleton|]. apply Forall_app. by split. Qed.

(** A tree that only grew keeps the leaves of its nodes. *)
Lemma leaves_grow t t' i ls :
  num_leaves t' = num_leaves t -> internal_nodes t `prefix_of` internal_nodes t' -> leaves_of t i ls -> leaves_of t' i ls.
Proof.
  intros Hn Hp. induction 1 as [i Hi|i l r ls rs Hi E _ IHr _ IHl]; [constructor; lia|].
  eapply leaf_node; [lia| |exact IHr|exact IHl]. rewrite Hn. by eapply prefix_lookup_Some.
Qed.

Lemma expand_loop_leaves t i ls :
  leaves_of t i ls -> exists k, forall f work out, expand_loop (k + f) t (i :: work) out = expand_loop f t work (out ++ ls).
Proof.
  induction 1 as [i Hi|i l r ls rs Hi E _ [kr IHr] _ [kl IHl]].
  - exists 1%nat. intros f work out. cbn. destruct (Z.ltb_spec i (num_leaves t)); [done|lia].
  - exists (S (kr + kl)). intros f work out. cbn [expand_loop plus]. destruct (Z.ltb_spec i (num_leaves t)); [lia|].
    rewrite E, <- Nat.add_assoc, IHr, IHl. by rewrite app_assoc.
Qed.

Lemma expand_leaves t i ls : leaves_of t i ls -> exists k, forall f, (k <= f)%nat -> expand f t i = Some ls.
Proof.
  intros H. destruct (expand_loop_leaves t i ls H) as [k Hk]. exists k. intros f Hf. unfold expand.
  replace f with (k + (f - k))%nat by lia. rewrite Hk. by destruct (f - k)%nat.
Qed.

(** ** Lemmas: kernel vectors *)

Lemma odd_sum_insert g freq k v : freq !! k = None -> odd_sum g (<[k := v]> freq) = xorb (Z.odd v && g k) (odd_sum g freq).
Proof.
  intros H. unfold odd_sum. rewrite (map_fold_insert_L (fun k v b => xorb (Z.odd v && g k) b)); [done| |done].
  intros j1 j2 z1 z2 y _ _ _. by rewrite <- !xorb_assoc, (xorb_comm (Z.odd z1 && g j1)).
Qed.

Lemma odd_sum_split g freq k :
  odd_sum g freq = xorb (Z.odd (default 0 (freq !! k)) && g k) (odd_sum g (delete k freq)).
Proof.
  destruct (freq !! k) as [v|] eqn:E; cbn [default].
  - rewrite <- (insert_delete_id freq k v E) at 1. by rewrite odd_sum_insert by apply lookup_delete_eq.
  - rewrite delete_id by done. by destruct (odd_sum g freq).
Qed.

Lemma odd_wrap32 x : Z.odd (wrap 32 x) = Z.odd x.
Proof. unfold wrap. rewrite <- !Z.bit0_odd. by apply Z.mod_pow2_bits_low. Qed.

Lemma odd_sum_count g freq leaf : odd_sum g (count_leaf freq leaf) = xorb (g leaf) (odd_sum g freq).
Proof.
  unfold count_leaf. rewrite (odd_sum_split g freq leaf), (odd_sum_split g (<[leaf := _]> freq) leaf).
  rewrite lookup_insert_eq. change (default 0 (Some ?x)) with x. rewrite delete_insert_eq, odd_wrap32, Z.odd_add.
  destruct (Z.odd (default 0 (freq !! leaf))), (g leaf), (odd_sum g (delete leaf freq)); done.
Qed.

Lemma odd_sum_leaves g ls freq : odd_sum g (foldl count_leaf freq ls) = xorb (xsum g ls) (odd_sum g freq).
Proof.
  revert freq. induction ls as [|l ls IH]; intros freq; [cbn [foldl]; by destruct (odd_sum g freq)|]. cbn [foldl].
  rewrite xsum_cons, IH, odd_sum_count. by destruct (g l), (xsum g ls), (odd_sum g freq).
Qed.

Lemma land_1_odd v : negb (Z.land v 1 =? 0) = Z.odd v.
Proof. change 1 with (Z.ones 1). rewrite Z.land_ones by lia. change (2 ^ 1) with 2. rewrite Zmod_odd. by destruct (Z.odd v). Qed.

Lemma odd_sum_odd_leaves g freq : odd_sum g freq = xsum g (odd_leaves freq).
Proof.
  unfold odd_sum, odd_leaves. rewrite map_fold_foldr, xsum_map, xsum_filter. unfold xsum.
  induction (map_to_list freq) as [|[k v] l IH]; [done|]. cbn. rewrite IH, land_1_odd. done.
Qed.

Lemma odd_leaves_spec freq k : k ∈ odd_leaves freq <-> exists v, freq !! k = Some v /\ Z.odd v = true.
Proof.
  unfold odd_leaves. rewrite list_elem_of_In, in_map_iff. split.
  - intros ([k' v] & <- & Hin). apply list_elem_of_In, filter_true_In in Hin as [Hin Ho]. exists v. cbn in *.
    rewrite land_1_odd in Ho. split; [by apply elem_of_map_to_list|done].
  - intros (v & Hv & Ho). exists (k, v). split; [done|]. apply list_elem_of_In, filter_true_In. cbn.
    rewrite land_1_odd. split; [by apply elem_of_map_to_list|done].
Qed.

Lemma odd_leaves_NoDup freq : NoDup (odd_leaves freq).
Proof.
  unfold odd_leaves. pose proof (NoDup_fst_map_to_list freq) as H. revert H.
  change (fst <$> map_to_list freq) with (map fst (map_to_list freq)).
  induction (map_to_list freq) as [|[k v] l IH]; [by constructor|]. cbn. intros [Hk Hl]%NoDup_cons.
  destruct (negb _); [|by apply IH]. cbn. constructor; [|by apply IH]. intros Hin. apply Hk.
  apply list_elem_of_In, in_map_iff in Hin as (x & <- & Hx). apply list_elem_of_In, filter_true_In in Hx as [Hx _].
  apply list_elem_of_In, in_map, list_elem_of_In. done.
Qed.

Lemma count_leaf_dom ls freq k : k ∈ dom (foldl count_leaf freq ls) -> k ∈ dom freq \/ k ∈ ls.
Proof.
  revert freq. induction ls as [|l ls IH]; intros freq H; [by left|]. cbn in H. apply IH in H as [H|H]; [|right; by right].
  unfold count_leaf in H. rewrite dom_insert, elem_of_union, elem_of_singleton in H.
  destruct H as [->|H]; [right; by left|by left].
Qed.

Lemma sort_strict l : NoDup l -> sorted_row (merge_sort Z.le l).
Proof.
  intros Hd. pose proof (StronglySorted_merge_sort Z.le l) as Hs. pose proof (merge_sort_Permutation Z.le l) as Hp.
  rewrite <- Hp in Hd. clear Hp. induction Hs as [|x l' Hs IH Hx]; [constructor|].
  apply NoDup_cons in Hd as [Hn Hd]. constructor; [by apply IH|]. apply Forall_forall. intros y Hy.
  rewrite Forall_forall in Hx. pose proof (Hx y Hy). destruct (Z.eq_dec x y) as [->|]; [done|lia].
Qed.

Lemma land_bit x b : 0 <= b -> (Z.land x (Z.shiftl 1 b) =? 0) = negb (Z.testbit x b).
Proof.
  intros Hb. assert (Z.land x (Z.shiftl 1 b) = if Z.testbit x b then 2 ^ b else 0) as ->.
  { apply Z.bits_inj'. intros i Hi. rewrite Z.land_spec, Z.shiftl_mul_pow2, Z.mul_1_l by done.
    destruct (Z.eq_dec i b) as [->|Hne].
    - rewrite Z.pow2_bits_true by done. destruct (Z.testbit x b); [by rewrite Z.pow2_bits_true|by rewrite Z.bits_0].
    - rewrite Z.pow2_bits_false, andb_false_r by congruence.
      destruct (Z.testbit x b); [by rewrite Z.pow2_bits_false by congruence|by rewrite Z.bits_0]. }
  pose proof (Z.pow_pos_nonneg 2 b ltac:(lia) Hb). destruct (Z.testbit x b); [apply Z.eqb_neq; lia|done].
Qed.

Lemma kbit_beyond bits i : Z.of_nat (length bits) <= i / 64 -> kbit bits i = false.
Proof. intros H. unfold kbit, idx. rewrite nth_overflow by lia. apply Z.bits_0. Qed.

(** With enough fuel the loop counts exactly the leaves of the selected rows. *)
Lemma kernel_loop_spec t (Hw : tree_wf t) bits row_map n : forall i,
  0 <= i -> (forall k, i <= k < i + Z.of_nat n -> node_ok t (idx row_map k)) ->
  exists ls fuel0,
    Forall (fun x => 0 <= x < num_leaves t) ls /\
    (forall fuel freq, (fuel0 <= fuel)%nat -> kernel_loop fuel bits row_map t i n freq = Some (foldl count_leaf freq ls)) /\
    forall g lv, (forall k, i <= k < i + Z.of_nat n -> leaves_of t (idx row_map k) (lv k)) ->
      xsum g ls = xsum (fun k => kbit bits k && xsum g (lv k)) (map (fun j => i + Z.of_nat j) (seq 0 n)).
Proof.
  induction n as [|n IH]; intros i Hi Hn.
  { exists [], 0%nat. split; [constructor|]. by split. }
  destruct (Z.le_gt_cases (Z.of_nat (length bits)) (i / 64)) as [Hge|Hlt].
  { exists [], 0%nat. split; [constructor|]. split.
    - intros fuel freq _. cbn [kernel_loop]. by rewrite (proj2 (Z.leb_le _ _) Hge).
    - intros g lv _. symmetry. apply xsum_false. intros k Hk. apply list_elem_of_In, in_map_iff in Hk as (j & <- & _).
      rewrite kbit_beyond; [done|]. apply Z.le_trans with (i / 64); [done|]. apply Z.div_le_mono; lia. }
  destruct (IH (i + 1)) as (ls & fuel0 & Hr & He & Hx); [lia|intros k Hk; apply Hn; lia|].
  assert (seq 0 (S n) = 0%nat :: map S (seq 0 n)) as Es by (cbn; by rewrite seq_shift).
  assert (forall g lv, (forall k, i <= k < i + Z.of_nat (S n) -> leaves_of t (idx row_map k) (lv k)) ->
    xsum (fun k => kbit bits k && xsum g (lv k)) (map (fun j => i + Z.of_nat j) (seq 0 (S n)))
    = xorb (kbit bits i && xsum g (lv i)) (xsum g ls)) as Hsum.
  { intros g lv Hlv. rewrite Es. cbn [map]. rewrite xsum_cons, Z.add_0_r. f_equal.
    rewrite (Hx g lv) by (intros k Hk; apply Hlv; lia). rewrite map_map, !xsum_map. apply xsum_ext. intros k _.
    by replace (i + Z.of_nat (S k)) with (i + 1 + Z.of_nat k) by lia. }
  assert (Z.land (idx bits (i / 64)) (Z.shiftl 1 (i mod 64)) =? 0 = negb (kbit bits i)) as Hb
    by (apply land_bit, Z.mod_pos_bound; lia).
  destruct (kbit bits i) eqn:Ek; cbn [negb] in Hb.
  - destruct (leaves_exist t (idx row_map i) Hw (Hn i ltac:(lia))) as [li Hli].
    destruct (expand_leaves t _ li Hli) as [fi Hfi].
    exists (li ++ ls), (Nat.max fi fuel0). split; [by apply Forall_app; split; [eapply leaves_range|]|]. split.
    + intros fuel freq Hf. cbn [kernel_loop]. rewrite (proj2 (Z.leb_gt _ _) Hlt), Hb, Hfi by lia.
      rewrite He by lia. by rewrite foldl_app.
    + intros g lv Hlv. rewrite Hsum, xsum_app by done. cbn [andb]. f_equal. f_equal.
      eapply leaves_unique; [exact Hli|apply Hlv; lia].
  - exists ls, fuel0. split; [done|]. split.
    + intros fuel freq Hf. cbn [kernel_loop]. rewrite (proj2 (Z.leb_gt _ _) Hlt), Hb. by apply He.
    + intros g lv Hlv. rewrite Hsum by done. by destruct (xsum g ls).
Qed.

Lemma expandKernelVector_spec t bits n row_map lv :
  tree_wf t -> 0 <= n -> (forall k, 0 <= k < n -> node_ok t (idx row_map k) /\ leaves_of t (idx row_map k) (lv k)) ->
  exists fuel0, forall fuel, (fuel0 <= fuel)%nat ->
  exists res, expandKernelVector fuel bits n row_map t = Some res /\ sorted_row res /\
    Forall (fun x => 0 <= x < num_leaves t) res /\
    forall g, xsum g res = xsum (fun k => kbit bits k && xsum g (lv k)) (upto n).
Proof.
  intros Hw Hn Hk.
  destruct (kernel_loop_spec t Hw bits row_map (Z.to_nat n) 0) as (ls & fuel0 & Hr & He & Hx);
    [lia|intros k Hk'; apply Hk; lia|].
  exists fuel0. intros fuel Hf. unfold expandKernelVector. rewrite He by done. eexists. split; [reflexivity|].
  set (freq := foldl count_leaf ∅ ls). fold (odd_leaves freq).
  pose proof (merge_sort_Permutation Z.le (odd_leaves freq)) as Hp.
  split; [apply sort_strict, odd_leaves_NoDup|]. split.
  - apply Forall_forall. intros x Hx'. rewrite Hp in Hx'. apply odd_leaves_spec in Hx' as (v & Hv & _).
    assert (x ∈ dom freq) as Hd by by eapply elem_of_dom_2. apply count_leaf_dom in Hd as [Hd|Hd].
    + by rewrite dom_empty in Hd.
    + rewrite Forall_forall in Hr. by apply Hr.
  - intros g. rewrite (xsum_perm g _ _ Hp), <- odd_sum_odd_leaves. unfold freq. rewrite odd_sum_leaves.
    change (odd_sum g ∅) with (map_fold (fun k v b => xorb (Z.odd v && g k) b) false (∅ : gmap Z Z)).
    rewrite map_fold_empty, xorb_false_r. apply Hx. intros k Hk'. apply Hk. lia.
Qed.

(** More fuel never changes a result. *)
Lemma expand_loop_mono t f : forall f' work out r, expand_loop f t work out = Some r -> (f <= f')%nat -> expand_loop f' t work out = Some r.
Proof.
  induction f as [|f IH]; intros [|f'] [|i work] out r H Hf; cbn [expand_loop] in *; try done; try lia.
  destruct (i <? num_leaves t); [apply IH; [done|lia]|]. destruct (internal_nodes t !! _) as [[lft rgt]|]; [apply IH; [done|lia]|done].
Qed.

Lemma kernel_loop_mono bits rm t f f' n : forall i freq r,
  kernel_loop f bits rm t i n freq = Some r -> (f <= f')%nat -> kernel_loop f' bits rm t i n freq = Some r.
Proof.
  induction n as [|n IH]; intros i freq r H Hf; cbn [kernel_loop] in *; [done|]. destruct (_ <=? _); [done|]. destruct (_ =? 0); [by apply IH|].
  destruct (expand f t (idx rm i)) as [leaves|] eqn:E; [|done]. unfold expand in *. rewrite (expand_loop_mono t f f' _ _ _ E Hf). by apply IH.
Qed.

Lemma expandKernelVector_mono f f' bits n rm t r :
  expandKernelVector f bits n rm t = Some r -> (f <= f')%nat -> expandKernelVector f' bits n rm t = Some r.
Proof.
  unfold expandKernelVector. intros H Hf. destruct (kernel_loop f _ _ _ _ _ _) as [freq|] eqn:E; [|done].
  by rewrite (kernel_loop_mono _ _ _ _ f' _ _ _ _ E Hf).
Qed.
