(* ===== verification/Batches.v ===== *)
(** Loops over relation batches as the host code writes them (an index, the CSR slice of a
    relation) turned into folds over the relations a batch represents, and subsets of the
    relations given by packed bits. *)
From Stdlib Require Import ZArith Lia.
From stdpp Require Import base gmap sets list.
From S2P Require Import Prelude Soa Gf2.
#[local] Open Scope Z_scope.

(** The elements of [l] whose index, from [i] on, is selected. *)
Fixpoint select {A} (sel : Z -> bool) (i : Z) (l : list A) : list A :=
  match l with
  | [] => []
  | x :: l' => if sel i then x :: select sel (i + 1) l' else select sel (i + 1) l'
  end.

(** What a relation contributes: its sign, its exponent of factor-base prime [j], its large prime. *)
Definition neg_count (r : relation) : Z := if r_sign r =? 1 then 0 else 1.
Definition expo (j : Z) (r : relation) : Z := zsum (map (fun f => if f.1 =? j then f.2 else 0) (r_factors r)).
Definition lp_val (r : relation) : Z := if 1 <? r_lp r then r_lp r else 1.

(** ** Lemmas: selections *)

Lemma select_app {A} sel i (l1 l2 : list A) :
  select sel i (l1 ++ l2) = select sel i l1 ++ select sel (i + Z.of_nat (length l1)) l2.
Proof.
  revert i. induction l1 as [|x l1 IH]; intros i; cbn [app select length].
  { by rewrite Z.add_0_r. }
  rewrite IH. replace (i + 1 + Z.of_nat (length l1)) with (i + Z.of_nat (S (length l1))) by lia. by destruct (sel i).
Qed.

Lemma select_sub {A} sel i (l : list A) x : x ∈ select sel i l -> x ∈ l.
Proof.
  revert i. induction l as [|y l IH]; intros i; cbn [select]; [done|].
  destruct (sel i); rewrite ?elem_of_cons; naive_solver.
Qed.

Lemma Forall_select {A} (P : A -> Prop) sel i l : Forall P l -> Forall P (select sel i l).
Proof. rewrite !Forall_forall. intros H x Hx. eapply H, select_sub, Hx. Qed.

(** A loop over indices that skips the unmasked ones is a loop over the selected elements. *)
Lemma foldl_select {A B} (f : B -> Z -> B) (g : B -> A -> B) (sel : Z -> bool) l b :
  (forall i x acc, l !! i = Some x -> f acc (Z.of_nat i) = if sel (Z.of_nat i) then g acc x else acc) ->
  foldl f b (upto (Z.of_nat (length l))) = foldl g b (select sel 0 l).
Proof.
  induction l as [|x l IH] using rev_ind; intros H; [done|].
  rewrite length_app, select_app. cbn [length select]. replace (Z.of_nat (length l + 1)) with (Z.of_nat (length l) + 1) by lia.
  rewrite upto_S, foldl_snoc, foldl_app by lia. rewrite IH.
  - rewrite (H (length l) x) by (by rewrite list_lookup_middle). rewrite Z.add_0_l. by destruct (sel (Z.of_nat (length l))).
  - intros i y acc Hi. apply H. by rewrite lookup_app_l by (by eapply lookup_lt_Some).
Qed.

Lemma foldl_indices {A B} (f : B -> Z -> B) (g : B -> A -> B) l b :
  (forall i x acc, l !! i = Some x -> f acc (Z.of_nat i) = g acc x) -> foldl f b (upto (Z.of_nat (length l))) = foldl g b l.
Proof.
  intros H. rewrite (foldl_select f g (fun _ => true) l b H). f_equal. clear. generalize 0.
  induction l as [|x l IH]; intros i; [done|]. cbn [select]. by rewrite IH.
Qed.

(** ** Lemmas: reading the batch *)

Lemma factor_at b rs i r j f :
  repr b rs -> rs !! i = Some r -> r_factors r !! j = Some f ->
  let k := idx (factor_offsets b) (Z.of_nat i) + Z.of_nat j in
  idx (factor_indices b) k = f.1 /\ idx (factor_counts b) k = f.2.
Proof.
  intros H Hi Hj k. pose proof (lookup_lt_Some _ _ _ Hi). pose proof (lookup_lt_Some _ _ _ Hj).
  assert (all_factors rs !! (length (all_factors (take i rs)) + j)%nat = Some f) as Hf.
  { pose proof (all_factors_slice rs i r Hi) as Es. rewrite <- Es in Hj. rewrite lookup_take_lt in Hj by (rewrite Es in Hj; lia || done).
    by rewrite lookup_drop in Hj. }
  unfold k. rewrite (repr_offset b rs) by (done || lia). rewrite <- Nat2Z.inj_add.
  pose proof (lookup_lt_Some _ _ _ Hf). unfold idx. rewrite Nat2Z.id.
  rewrite (prefix_nth _ _ _ (repr_indices b rs H)), (prefix_nth _ _ _ (repr_counts b rs H)) by (rewrite length_map; done).
  split; apply nth_lookup_Some; rewrite list_lookup_fmap, Hf; done.
Qed.

Lemma row_length b rs i r :
  repr b rs -> rs !! i = Some r ->
  idx (factor_offsets b) (Z.of_nat i + 1) - idx (factor_offsets b) (Z.of_nat i) = Z.of_nat (length (r_factors r)).
Proof.
  intros H Hi. pose proof (lookup_lt_Some _ _ _ Hi). replace (Z.of_nat i + 1) with (Z.of_nat (S i)) by lia.
  rewrite !(repr_offset b rs) by (done || lia). rewrite (all_factors_take_S rs i r Hi). lia.
Qed.

(** A CSR loop is a loop over the relation's factors. *)
Lemma csr_loop {B} (f : B -> Z -> B) (g : B -> Z * Z -> B) b rs i r acc :
  repr b rs -> rs !! i = Some r ->
  (forall k p acc, idx (factor_indices b) k = p.1 -> idx (factor_counts b) k = p.2 -> f acc k = g acc p) ->
  let start := idx (factor_offsets b) (Z.of_nat i) in
  foldl f acc (map (Z.add start) (upto (idx (factor_offsets b) (Z.of_nat i + 1) - start))) = foldl g acc (r_factors r).
Proof.
  intros H Hi Hf start. unfold start. rewrite (row_length b rs i r H Hi).
  rewrite <- (foldl_indices (fun acc j => f acc (idx (factor_offsets b) (Z.of_nat i) + j)) g).
  - generalize (upto (Z.of_nat (length (r_factors r)))). intros l. revert acc. induction l as [|x l IH]; intros acc; [done|]. apply IH.
  - intros j p acc' Hj. destruct (factor_at b rs i r j p H Hi Hj). by apply Hf.
Qed.

Lemma zsum_snoc {A} (f : A -> Z) l x : zsum (map f (l ++ [x])) = zsum (map f l) + f x.
Proof. rewrite map_app, zsum_app. cbn. lia. Qed.
