(* ===== verification/RowOps.v ===== *)
(** What the passes of [merge_filter.cpp] have in common: they work on a set of rows
    each of which stands for a sum of original relations, recorded in the merge tree.
    [faithful] says the set represents the same dependencies as the original rows; the
    lemmas say that adding a row to another, removing a row that is alone in some
    column and renumbering keep it. *)
From Stdlib Require Import ZArith Lia Sorted.
From stdpp Require Import base gmap sets list sorting.
From S2P Require Import Prelude Soa Gf2.
#[local] Open Scope Z_scope.

(** A set of original rows whose GF(2) sum is zero; [base i c] is entry [c] of row [i]. *)
Definition dependency (N : Z) (base : Z -> Z -> bool) (S : Z -> bool) : Prop :=
  (forall i, S i = true -> 0 <= i < N) /\ forall c, xsum (fun i => S i && base i c) (upto N) = false.

(** [lv] gives the leaves of each listed row. *)
Definition leaves_at (t : MergeTree) (l : list Z) (node : Z -> Z) (lv : Z -> list Z) : Prop :=
  forall r, r ∈ l -> leaves_of t (node r) (lv r).

(** How often, over GF(2), the selected rows use a leaf. *)
Definition combine (l : list Z) (sel : Z -> bool) (lv : Z -> list Z) (leaf : Z) : bool :=
  xsum (fun r => sel r && entry leaf (lv r)) l.

(** The rows of [l] stand for sums of original rows, are independent as such sums, and
    every dependency of the original rows is a sum of them. *)
Record faithful (t : MergeTree) (N : Z) (base : Z -> Z -> bool) (l : list Z) (node : Z -> Z) (R : Z -> list Z) : Prop :=
  mkFaithful {
  f_nodup : NoDup l;
  f_tree : tree_wf t;
  f_leaves : num_leaves t <= N;
  f_node : forall r, r ∈ l -> node_ok t (node r);
  f_comb : forall r ls c, r ∈ l -> leaves_of t (node r) ls -> xsum (fun i => base i c) ls = entry c (R r);
  f_indep : forall sel lv, leaves_at t l node lv -> (forall leaf, combine l sel lv leaf = false) ->
    forall r, r ∈ l -> sel r = false;
  f_complete : forall S lv, dependency N base S -> leaves_at t l node lv ->
    exists sel, forall leaf, S leaf = combine l sel lv leaf
}.

(** ** Lemmas *)

Lemma xsum_at (x : Z) v l : NoDup l -> x ∈ l -> xsum (fun y => (y =? x) && v) l = v.
Proof.
  intros Hd Hx. rewrite (xsum_single _ _ x); [by rewrite Z.eqb_refl|done|done|].
  intros y _ Hne. by rewrite (proj2 (Z.eqb_neq y x) Hne).
Qed.

Lemma NoDup_upto n : NoDup (upto n).
Proof. apply sorted_row_NoDup, upto_sorted. Qed.

Lemma xsum_entry N f ls : Forall (fun x => 0 <= x < N) ls -> xsum (fun i => entry i ls && f i) (upto N) = xsum f ls.
Proof.
  induction 1 as [|x ls Hx _ IH]; [by apply xsum_false|].
  rewrite xsum_cons, <- IH, <- (xsum_at x (f x) (upto N)) at 1 by (apply NoDup_upto || by apply elem_of_upto).
  rewrite <- xsum_xorb. apply xsum_ext. intros i _. rewrite entry_cons, (Z.eqb_sym x i).
  destruct (Z.eqb_spec i x) as [->|]; [|done]. by destruct (entry x ls), (f x).
Qed.

Lemma leaves_at_exist t l node : tree_wf t -> (forall r, r ∈ l -> node_ok t (node r)) -> exists lv, leaves_at t l node lv.
Proof.
  intros Ht. induction l as [|r l IH]; intros Hn; [by exists (fun _ => []); intros r ?%elem_of_nil|].
  destruct IH as [lv Hlv]; [intros x Hx; apply Hn; by right|].
  destruct (leaves_exist t (node r) Ht) as [ls Hls]; [apply Hn; by left|].
  exists (fun x => if x =? r then ls else lv x). intros x Hx. destruct (Z.eqb_spec x r) as [->|Hne]; [done|].
  apply elem_of_cons in Hx as [->|Hx]; [done|by apply Hlv].
Qed.

Section faithful.
Context (t : MergeTree) (N : Z) (base : Z -> Z -> bool).
Implicit Types (l : list Z) (node : Z -> Z) (R : Z -> list Z).

(** The sum of the original rows that a selection uses is the sum of the selected rows. *)
Lemma combine_base l node R sel lv c :
  faithful t N base l node R -> leaves_at t l node lv ->
  xsum (fun i => combine l sel lv i && base i c) (upto N) = xsum (fun r => sel r && entry c (R r)) l.
Proof.
  intros H Hlv. unfold combine.
  rewrite (xsum_ext _ (fun i => xsum (fun r => (sel r && entry i (lv r)) && base i c) l)).
  2:{ intros i _. rewrite andb_comm, <- xsum_andb. apply xsum_ext. intros r _. apply andb_comm. }
  rewrite xsum_swap. apply xsum_ext. intros r Hr.
  rewrite (xsum_ext _ (fun i => sel r && (entry i (lv r) && base i c))) by (intros i _; by rewrite andb_assoc).
  rewrite xsum_andb, xsum_entry.
  - by rewrite (f_comb _ _ _ _ _ _ H r (lv r) c Hr (Hlv r Hr)).
  - eapply Forall_impl; [eapply leaves_range, Hlv, Hr|]. intros x Hx. cbn beta in Hx. pose proof (f_leaves _ _ _ _ _ _ H). lia.
Qed.

(** A selection of dependent rows gives a dependency of the original ones. *)
Lemma combine_dependency l node R sel lv :
  faithful t N base l node R -> leaves_at t l node lv ->
  (forall c, xsum (fun r => sel r && entry c (R r)) l = false) -> dependency N base (combine l sel lv).
Proof.
  intros H Hlv Hz. split; [|intros c; by rewrite (combine_base l node R)].
  intros i Hi. destruct (decide (0 <= i < N)) as [|Hn]; [done|]. exfalso.
  enough (combine l sel lv i = false) by congruence. apply xsum_false. intros r Hr.
  rewrite (entry_not_in i (lv r)); [by destruct (sel r)|]. intros Hin.
  pose proof (leaves_range _ _ _ (Hlv r Hr)) as Hf. rewrite Forall_forall in Hf. specialize (Hf i Hin). cbn beta in Hf.
  pose proof (f_leaves _ _ _ _ _ _ H). lia.
Qed.

(** A row that is alone in some column takes part in no dependency. *)
Lemma private_unused l node R p c S sel lv :
  faithful t N base l node R -> leaves_at t l node lv -> p ∈ l ->
  entry c (R p) = true -> (forall r, r ∈ l -> r <> p -> entry c (R r) = false) ->
  dependency N base S -> (forall leaf, S leaf = combine l sel lv leaf) -> sel p = false.
Proof.
  intros H Hlv Hp Hc Ho [_ HS] E. rewrite <- (HS c).
  rewrite (xsum_ext _ (fun i => combine l sel lv i && base i c)) by (intros i _; by rewrite E).
  rewrite (combine_base l node R) by done. rewrite (xsum_single _ _ p); [by rewrite Hc, andb_true_r|by eapply f_nodup|done|].
  intros r Hr Hne. by rewrite Ho, andb_false_r.
Qed.

Lemma faithful_delete l l' node R p c :
  faithful t N base l node R -> l ≡ₚ p :: l' ->
  entry c (R p) = true -> (forall r, r ∈ l -> r <> p -> entry c (R r) = false) -> faithful t N base l' node R.
Proof.
  intros H E Hc Ho. assert (p ∈ l) as Hp by (rewrite E; by left).
  assert (forall r, r ∈ l' -> r ∈ l) as Hsub by (intros r Hr; rewrite E; by right).
  pose proof (f_nodup _ _ _ _ _ _ H) as Hd. rewrite E in Hd. apply NoDup_cons in Hd as [Hpl Hd].
  assert (forall lv, leaves_at t l' node lv -> exists lp, leaves_of t (node p) lp /\
    leaves_at t l node (fun x => if x =? p then lp else lv x)) as Hext.
  { intros lv Hlv. destruct (leaves_exist t (node p)) as [lp Hlp]; [by eapply f_tree|by eapply f_node|].
    exists lp. split; [done|]. intros x Hx. destruct (Z.eqb_spec x p) as [->|Hne]; [done|]. apply Hlv.
    rewrite E in Hx. by apply elem_of_cons in Hx as [?|?]. }
  assert (forall sel lv lp leaf, combine l sel (fun x => if x =? p then lp else lv x) leaf
    = xorb (sel p && entry leaf lp) (combine l' sel lv leaf)) as Hsplit.
  { intros sel lv lp leaf. unfold combine. rewrite (xsum_perm _ _ _ E), xsum_cons, Z.eqb_refl. f_equal.
    apply xsum_ext. intros x Hx. by destruct (Z.eqb_spec x p) as [->|]. }
  constructor; [done|by eapply f_tree|by eapply f_leaves|intros r Hr; eapply f_node; [done|by apply Hsub]| | |].
  - intros r ls c' Hr. by apply (f_comb _ _ _ _ _ _ H), Hsub.
  - intros sel lv Hlv Hz r Hr. destruct (Hext lv Hlv) as (lp & _ & Hl).
    pose proof (f_indep _ _ _ _ _ _ H (fun x => negb (x =? p) && sel x) _ Hl) as Hi.
    assert (r <> p) as Hne by (by intros ->). specialize (fun h => Hi h r (Hsub r Hr)). cbn beta in Hi.
    rewrite (proj2 (Z.eqb_neq r p) Hne) in Hi. apply Hi. intros leaf. rewrite Hsplit, Z.eqb_refl, <- (Hz leaf).
    unfold combine. rewrite xorb_false_l. apply xsum_ext. intros x Hx.
    destruct (Z.eqb_spec x p) as [->|]; done.
  - intros S lv HS Hlv. destruct (Hext lv Hlv) as (lp & _ & Hl).
    destruct (f_complete _ _ _ _ _ _ H S _ HS Hl) as [sel Hsel]. exists sel. intros leaf.
    rewrite Hsel, Hsplit, (private_unused l node R p c S sel _ H Hl Hp Hc Ho HS Hsel). by destruct (combine l' sel lv leaf).
Qed.

Lemma inverse_exists (f : Z -> Z) l : NoDup (map f l) -> exists h, forall k, k ∈ l -> h (f k) = k.
Proof.
  induction l as [|x l IH]; [by exists id; intros k ?%elem_of_nil|]. cbn [map]. intros [Hx Hd]%NoDup_cons.
  destruct (IH Hd) as [h Hh]. exists (fun y => if y =? f x then x else h y). intros k Hk.
  apply elem_of_cons in Hk as [->|Hk]; [by rewrite Z.eqb_refl|].
  destruct (Z.eqb_spec (f k) (f x)) as [E|]; [|by apply Hh]. exfalso. apply Hx. rewrite <- E.
  apply list_elem_of_In, in_map, list_elem_of_In, Hk.
Qed.

(** The same rows under other numbers. *)
Lemma faithful_reindex l (f : Z -> Z) node R node' R' :
  faithful t N base (map f l) node R -> (forall k, k ∈ l -> node' k = node (f k)) ->
  (forall k c, k ∈ l -> entry c (R' k) = entry c (R (f k))) -> faithful t N base l node' R'.
Proof.
  intros H En ER. pose proof (f_nodup _ _ _ _ _ _ H) as Hd. destruct (inverse_exists f l Hd) as [h Hh].
  assert (forall k, k ∈ l -> f k ∈ map f l) as Hm by (intros k Hk; by apply list_elem_of_In, in_map, list_elem_of_In).
  assert (forall lv, leaves_at t l node' lv -> leaves_at t (map f l) node (fun y => lv (h y))) as Hlv.
  { intros lv Hlv y Hy. apply list_elem_of_In, in_map_iff in Hy as (k & <- & Hk%list_elem_of_In).
    rewrite Hh, <- En by done. by apply Hlv. }
  assert (forall sel lv leaf, combine (map f l) (fun y => sel (h y)) (fun y => lv (h y)) leaf = combine l sel lv leaf) as Hc.
  { intros sel lv leaf. unfold combine. rewrite xsum_map. apply xsum_ext. intros k Hk. by rewrite Hh. }
  constructor; [by eapply NoDup_fmap_1|by eapply f_tree|by eapply f_leaves| | | |].
  - intros k Hk. rewrite En by done. by apply (f_node _ _ _ _ _ _ H), Hm.
  - intros k ls c Hk Hl. rewrite En in Hl by done. rewrite ER by done. apply (f_comb _ _ _ _ _ _ H); [by apply Hm|done].
  - intros sel lv Hl Hz k Hk. rewrite <- (Hh k Hk).
    apply (f_indep _ _ _ _ _ _ H (fun y => sel (h y)) _ (Hlv lv Hl)); [|by apply Hm]. intros leaf. by rewrite Hc.
  - intros S lv HS Hl. destruct (f_complete _ _ _ _ _ _ H S _ HS (Hlv lv Hl)) as [sel Hsel].
    exists (fun k => sel (f k)). intros leaf. rewrite Hsel. unfold combine. rewrite xsum_map. apply xsum_ext.
    intros k Hk. by rewrite Hh.
Qed.

End faithful.

(** Row [r] replaced by its sum with row [p], under a new node. *)
Lemma faithful_replace t t' N base l node node' R R' r p a b :
  faithful t N base l node R -> r ∈ l -> p ∈ l -> r <> p ->
  a = node p /\ b = node r \/ a = node r /\ b = node p ->
  t' = mkTree (num_leaves t) (internal_nodes t ++ [(a, b)]) ->
  node' r = num_leaves t + Z.of_nat (length (internal_nodes t)) -> (forall x, x ∈ l -> x <> r -> node' x = node x) ->
  (forall c, entry c (R' r) = xorb (entry c (R r)) (entry c (R p))) ->
  (forall x c, x ∈ l -> x <> r -> entry c (R' x) = entry c (R x)) ->
  faithful t' N base l node' R'.
Proof.
  intros H Hr Hp Hne Hab Et Enew Eold ERr ERx. pose proof (f_tree _ _ _ _ _ _ H) as Ht. pose proof Ht as [H0 Hw].
  pose proof (f_node _ _ _ _ _ _ H) as Hok.
  assert (num_leaves t' = num_leaves t) as En by by rewrite Et.
  assert (internal_nodes t' = internal_nodes t ++ [(a, b)]) as Ei by by rewrite Et.
  clear Et. pose proof (Hok r Hr) as O1. pose proof (Hok p Hp) as O2. unfold node_ok in O1, O2.
  assert (forall x ls, x ∈ l -> leaves_of t' (node x) ls -> leaves_of t (node x) ls) as Hold.
  { intros x ls Hx Hl. destruct (leaves_exist t (node x) Ht (Hok x Hx)) as [ls' H'].
    assert (leaves_of t' (node x) ls') as H'' by (eapply leaves_grow; [exact En|rewrite Ei; by eexists|exact H']).
    by rewrite (leaves_unique _ _ _ _ Hl H''). }
  assert (forall ls, leaves_of t' (node' r) ls -> exists lr lp, leaves_of t (node r) lr /\ leaves_of t (node p) lp /\
      forall f, xsum f ls = xorb (xsum f lr) (xsum f lp)) as Hnew.
  { intros ls Hl. rewrite Enew in Hl. inversion Hl as [i Hi' E1 E2|i l0 r0 ls0 rs0 Hi' E1 Hl1 Hl2 E2 E3]; subst; [lia|].
    rewrite En, Ei in E1. replace (Z.to_nat _) with (length (internal_nodes t)) in E1 by lia.
    rewrite lookup_app_r, Nat.sub_diag in E1 by lia. injection E1 as <- <-.
    destruct Hab as [[-> ->]|[-> ->]].
    - exists rs0, ls0. split; [by apply Hold|]. split; [by apply Hold|]. intros f. apply xsum_app.
    - exists ls0, rs0. split; [by apply Hold|]. split; [by apply Hold|]. intros f. by rewrite xsum_app, xorb_comm. }
  (* the same sums before and after *)
  set (swap := fun (sel : Z -> bool) x => if x =? p then xorb (sel p) (sel r) else sel x).
  assert (forall lv, leaves_at t' l node' lv -> exists lr, leaves_at t l node (fun x => if x =? r then lr else lv x) /\
    forall sel leaf, combine l (swap sel) (fun x => if x =? r then lr else lv x) leaf = combine l sel lv leaf) as Hsum.
  { intros lv Hlv. destruct (Hnew _ (Hlv r Hr)) as (lr & lp & H1 & H2 & Hf).
    assert (forall x, x ∈ l -> x <> r -> leaves_of t (node x) (lv x)) as Hx
      by (intros x Hxl Hxr; apply Hold; [done|]; rewrite <- (Eold x Hxl Hxr); by apply Hlv).
    exists lr. split; [intros x Hxl; destruct (Z.eqb_spec x r) as [->|]; [done|by apply Hx]|].
    assert (lp = lv p) as -> by (eapply leaves_unique; [exact H2|by apply Hx; congruence]).
    intros sel leaf. pose proof (Hf (fun x => x =? leaf)) as Hfl. rewrite <- !entry_xsum in Hfl.
    unfold combine. set (v := sel r && entry leaf (lv p)).
    rewrite (xsum_ext _ (fun x => xorb (sel x && entry leaf (lv x)) (xorb ((x =? r) && v) ((x =? p) && v)))).
    { rewrite !xsum_xorb, !xsum_at by (done || by eapply f_nodup). by destruct v, (xsum _ _). }
    intros x Hxl. unfold swap, v. destruct (Z.eqb_spec x r) as [->|Hxr].
    + rewrite (proj2 (Z.eqb_neq r p) Hne), Hfl. by destruct (sel r), (entry leaf lr), (entry leaf (lv p)).
    + destruct (Z.eqb_spec x p) as [->|Hxp]; [|cbn [andb xorb]; by rewrite xorb_false_r].
      by destruct (sel p), (sel r), (entry leaf (lv p)). }
  assert (forall sel x, swap (swap sel) x = sel x) as Hswap.
  { intros sel x. unfold swap. rewrite Z.eqb_refl, (proj2 (Z.eqb_neq r p) Hne).
    destruct (Z.eqb_spec x p) as [->|]; [|done]. by destruct (sel p), (sel r). }
  constructor.
  - by eapply f_nodup.
  - split; [lia|]. rewrite En, Ei. intros k l0 r0 Hk. destruct (decide (k < length (internal_nodes t))%nat).
    + rewrite lookup_app_l in Hk by done. by apply Hw.
    + rewrite lookup_app_r in Hk by lia. destruct (k - length (internal_nodes t))%nat eqn:Ek; [|done]. injection Hk as <- <-.
      replace (Z.of_nat k) with (Z.of_nat (length (internal_nodes t))) by lia. destruct Hab as [[-> ->]|[-> ->]]; done.
  - rewrite En. by eapply f_leaves.
  - intros x Hx. unfold node_ok. rewrite En, Ei, length_app. cbn [length]. destruct (Z.eq_dec x r) as [->|Hxr]; [lia|].
    rewrite Eold by done. pose proof (Hok x Hx) as O. unfold node_ok in O. lia.
  - intros x ls c Hx Hl. destruct (Z.eq_dec x r) as [->|Hxr].
    + destruct (Hnew ls Hl) as (lr & lp & H1 & H2 & Hf). rewrite Hf, ERr.
      by rewrite (f_comb _ _ _ _ _ _ H r lr c), (f_comb _ _ _ _ _ _ H p lp c).
    + rewrite ERx by done. rewrite Eold in Hl by done. apply (f_comb _ _ _ _ _ _ H); [done|]. by apply Hold.
  - intros sel lv Hlv Hz x Hx. destruct (Hsum lv Hlv) as (lr & Hl & E).
    assert (forall y, y ∈ l -> swap sel y = false) as Hs
      by (apply (f_indep _ _ _ _ _ _ H _ _ Hl); intros leaf; by rewrite E).
    rewrite <- Hswap. unfold swap at 1. rewrite !Hs by done. by destruct (x =? p).
  - intros S lv HS Hlv. destruct (Hsum lv Hlv) as (lr & Hl & E).
    destruct (f_complete _ _ _ _ _ _ H S _ HS Hl) as [sel Hsel]. exists (swap sel). intros leaf.
    rewrite Hsel, <- E. unfold combine. apply xsum_ext. intros x _. by rewrite Hswap.
Qed.
