(* ===== verification/MergeFilter.v ===== *)
(** The merge and filter pipeline of [src/src/matrix/merge_filter.{h,cpp}]: singleton removal, weight-2 merges and
    higher-weight merges of a sparse GF(2) matrix. *)
From Stdlib Require Import ZArith Lia Sorted.
From stdpp Require Import base gmap sets list sorting.
From S2P Require Import Prelude Soa Doubles Gf2 RowOps.
#[local] Open Scope Z_scope.

(** ** Singleton removal *)

Record SingletonResult := mkSingleton {
  sr_reduced : HostMatrixCSR;
  sr_row_map : list Z;
  sr_col_map : list Z;
  sr_iterations : Z;
  sr_rows_removed : Z;
  sr_cols_removed : Z
}.

Definition kMaxSingletonIterations : nat := 100.

(** The sweep's state: alive flags, column weights, rows removed in this pass. *)
Definition sweep_row (input : HostMatrixCSR) (st : list bool * list Z * Z) (r : Z) : list bool * list Z * Z :=
  let '(alive, w, removed) := st in
  if negb (vget false alive r) then st
  else if existsb (fun c => vget 0 w c =? 1) (csr_row input r)
  then (vset alive r false, foldl drop1 w (csr_row input r), wrap 32 (removed + 1))
  else st.

Definition sweep (input : HostMatrixCSR) (alive : list bool) (w : list Z) : list bool * list Z * Z :=
  foldl (sweep_row input) (alive, w, 0) (upto (n_rows input)).

(** [n] iterations left: alive flags, weights, total removed, iterations done. *)
Fixpoint sweeps (n : nat) (input : HostMatrixCSR) (alive : list bool) (w : list Z) (total iteration : Z)
  : list bool * list Z * Z * Z :=
  match n with
  | O => (alive, w, total, iteration)
  | S n' =>
      let '(alive, w, removed) := sweep input alive w in
      let total := wrap 32 (total + removed) in
      if removed =? 0 then (alive, w, total, iteration + 1) else sweeps n' input alive w total (iteration + 1)
  end.

(** [col_weight[c]++] over all rows. *)
Definition initial_weights (row : Z -> list Z) (n_rows n_cols : Z) : list Z :=
  foldl (fun w r => foldl bump w (row r)) (replicate (Z.to_nat n_cols) 0) (upto n_rows).

Definition removeSingletons (input : HostMatrixCSR) : SingletonResult :=
  let n_rows := n_rows input in
  let n_cols := n_cols input in
  let w0 := initial_weights (csr_row input) n_rows n_cols in
  let '(alive, w, total_removed, iteration) :=
    sweeps kMaxSingletonIterations input (replicate (Z.to_nat n_rows) true) w0 0 0 in
  let '(old_to_new_col, col_map, new_col_count) := compact_cols w n_cols in
  let '(offsets, cols, row_map) := compact_rows alive (csr_row input) (fun r => r) (fun l => l) old_to_new_col n_rows in
  mkSingleton (mkCSR offsets cols (wrap 32 (n_rows - total_removed)) new_col_count) row_map col_map iteration
    total_removed (wrap 32 (n_cols - new_col_count)).

(** ** Merging *)

Record MergeResult := mkMerge {
  reduced : HostMatrixCSR;
  mr_row_map : list Z;
  merge_tree : MergeTree;
  merges_performed : Z;
  rows_removed : Z
}.

(** The working state of both merge passes. *)
Record merging := mkMerging {
  rows : list (list Z);
  node_of : list Z;
  col_weight : list Z;
  col_rows : list (list Z);
  row_alive : list bool;
  nodes : list (Z * Z)
}.

Definition row (s : merging) (r : Z) : list Z := vget [] (rows s) r.

(** The inverted index: row [r] is appended to each of its columns. *)
Definition index_row (st : list (list Z)) (r : Z) (cs : list Z) : list (list Z) :=
  foldl (fun cr c => vset cr c (vget [] cr c ++ [r])) st cs.

Definition merging_init (input : HostMatrixCSR) (node_of : list Z) (nodes : list (Z * Z)) : merging :=
  let rows := map (csr_row input) (upto (n_rows input)) in
  mkMerging rows node_of
    (initial_weights (fun r => vget [] rows r) (n_rows input) (n_cols input))
    (foldl (fun st r => index_row st r (vget [] rows r)) (replicate (Z.to_nat (n_cols input)) []) (upto (n_rows input)))
    (replicate (Z.to_nat (n_rows input)) true) nodes.

(** Row [r] leaves the index of the columns [cs]. *)
Definition unindex (cr : list (list Z)) (r : Z) (cs : list Z) : list (list Z) :=
  foldl (fun cr c => vset cr c (erase_remove (vget [] cr c) r)) cr cs.

(** The columns of [cs] that are not in [l]. *)
Definition not_in (l cs : list Z) : list Z := List.filter (fun c => negb (binary_search l c)) cs.

(** The index of the internal node just pushed. *)
Definition new_node (num_leaves : Z) (nodes : list (Z * Z)) : Z :=
  wrap 32 (num_leaves + Z.of_nat (length nodes) - 1).

(** *** Weight 2 *)

(** The alive rows listed for column [c]: the first two of them. *)
Definition two_alive (s : merging) (c : Z) : option (Z * Z) :=
  match List.filter (vget false (row_alive s)) (vget [] (col_rows s) c) with
  | r1 :: r2 :: _ => Some (r1, r2)
  | _ => None
  end.

(** Rows [r1] and [r2] are merged into [r1]; the columns whose weight may have become 2. *)
Definition merge_pair (num_leaves : Z) (r1 r2 : Z) (s : merging) : merging * list Z :=
  let old1 := row s r1 in
  let old2 := row s r2 in
  let new_row := xor_rows old1 old2 in
  let nodes := nodes s ++ [(vget 0 (node_of s) r1, vget 0 (node_of s) r2)] in
  let w := foldl drop1 (foldl drop1 (col_weight s) old1) old2 in
  let cr := unindex (col_rows s) r2 old2 in
  let cr := unindex cr r1 (not_in new_row old1) in
  let w := foldl bump w new_row in
  let cr := index_row cr r1 (not_in old1 new_row) in
  (mkMerging (vset (vset (rows s) r1 new_row) r2 []) (vset (node_of s) r1 (new_node num_leaves nodes)) w cr
     (vset (row_alive s) r2 false) nodes,
   List.filter (fun c => vget 0 w c =? 2) (old1 ++ old2 ++ new_row)).

(** The loop over the ordered set of weight-2 columns; [None]: out of fuel. *)
Fixpoint weight2_loop (fuel : nat) (num_leaves : Z) (w2_cols : gset Z) (s : merging) (merges : Z) : option (merging * Z) :=
  match merge_sort Z.le (elements w2_cols) with
  | [] => Some (s, merges)
  | c :: _ =>
      match fuel with
      | O => None
      | S f =>
          let w2_cols := w2_cols ∖ {[c]} in
          if negb (vget 0 (col_weight s) c =? 2) then weight2_loop f num_leaves w2_cols s merges
          else
            match two_alive s c with
            | None => weight2_loop f num_leaves w2_cols s merges
            | Some (r1, r2) =>
                let '(s', cs) := merge_pair num_leaves r1 r2 s in
                weight2_loop f num_leaves (w2_cols ∪ list_to_set cs) s' (wrap 32 (merges + 1))
            end
      end
  end.

Definition max_element (l : list Z) : Z := foldr Z.max 0 l.

(** Column and row compaction of a finished merge. *)
Definition rebuild (fin : list Z -> list Z) (n_rows n_cols : Z) (s : merging) : HostMatrixCSR * list Z :=
  let '(old_to_new_col, _, new_col_count) := compact_cols (col_weight s) n_cols in
  let '(offsets, cols, row_map) := compact_rows (row_alive s) (row s) (vget 0 (node_of s)) fin old_to_new_col n_rows in
  (mkCSR offsets cols (wrap 32 (Z.of_nat (length row_map))) new_col_count, row_map).

(** One past the largest original row index. *)
Definition leaf_count (input_row_map : list Z) : Z :=
  match input_row_map with [] => 0 | _ => wrap 32 (max_element input_row_map + 1) end.

Definition mergeWeight2 (fuel : nat) (input : HostMatrixCSR) (input_row_map : list Z) : option MergeResult :=
  let num_leaves := leaf_count input_row_map in
  let node_of := map (vget 0 input_row_map) (upto (n_rows input)) in
  let s := merging_init input node_of [] in
  let w2_cols := list_to_set (List.filter (fun c => vget 0 (col_weight s) c =? 2) (upto (n_cols input))) in
  match weight2_loop fuel num_leaves w2_cols s 0 with
  | None => None
  | Some (s, merges) =>
      let '(csr, row_map) := rebuild (fun l => l) (n_rows input) (n_cols input) s in
      Some (mkMerge csr row_map (mkTree num_leaves (nodes s)) merges merges)
  end.

(** *** Higher weights *)

(** The position of the lightest row, the first of several. *)
Definition lightest_step (s : merging) (containing : list Z) (pivot_idx i : Z) : Z :=
  if Z.of_nat (length (row s (idx containing i))) <? Z.of_nat (length (row s (idx containing pivot_idx))) then i else pivot_idx.
Definition lightest (s : merging) (containing : list Z) : Z :=
  foldl (lightest_step s containing) 0 (map (fun i => i + 1) (upto (Z.of_nat (length containing) - 1))).

(** The rows other than the pivot with what they become; [None]: one is too heavy. *)
Fixpoint plan_rows (s : merging) (pivot effective_max : Z) (rs : list Z) : option (list (Z * list Z)) :=
  match rs with
  | [] => Some []
  | r :: rs' =>
      let candidate := xor_rows (row s pivot) (row s r) in
      if effective_max <? Z.of_nat (length candidate) then None
      else
        match plan_rows s pivot effective_max rs' with
        | None => None
        | Some plan => Some ((r, candidate) :: plan)
        end
  end.

(** One planned row operation. *)
Definition commit (num_leaves pivot : Z) (s : merging) (p : Z * list Z) : merging :=
  let '(r, candidate) := p in
  let old := row s r in
  let nodes := nodes s ++ [(vget 0 (node_of s) pivot, vget 0 (node_of s) r)] in
  let w := foldl drop1 (col_weight s) old in
  let cr := unindex (col_rows s) r (not_in candidate old) in
  let w := foldl bump w candidate in
  let cr := index_row cr r (not_in old candidate) in
  mkMerging (vset (rows s) r candidate) (vset (node_of s) r (new_node num_leaves nodes)) w cr (row_alive s) nodes.

Definition delete_row (pivot : Z) (s : merging) : merging :=
  mkMerging (vset (rows s) pivot []) (node_of s) (foldl drop1 (col_weight s) (row s pivot))
    (unindex (col_rows s) pivot (row s pivot)) (vset (row_alive s) pivot false) (nodes s).

(** One target column. *)
Definition eliminate (num_leaves k_max effective_max : Z) (st : merging * Z * Z) (c : Z) : merging * Z * Z :=
  let '(s, cols_eliminated, rows_removed) := st in
  if vget 0 (col_weight s) c =? 0 then st
  else if k_max <? vget 0 (col_weight s) c then st
  else
    let containing := List.filter (vget false (row_alive s)) (vget [] (col_rows s) c) in
    if Z.of_nat (length containing) <? 2 then st
    else
      let pivot_idx := lightest s containing in
      let pivot := idx containing pivot_idx in
      let others := take (Z.to_nat pivot_idx) containing ++ drop (S (Z.to_nat pivot_idx)) containing in
      match plan_rows s pivot effective_max others with
      | None | Some [] => st
      | Some plan =>
          (delete_row pivot (foldl (commit num_leaves pivot) s plan), wrap 32 (cols_eliminated + 1), wrap 32 (rows_removed + 1))
      end.

(** The pass over the columns that have weight [w] when it starts. *)
Definition weight_pass (num_leaves n_cols k_max effective_max : Z) (st : merging * Z * Z) (w : Z) : merging * Z * Z :=
  let target_cols := List.filter (fun c => vget 0 (col_weight st.1.1) c =? w) (upto n_cols) in
  foldl (eliminate num_leaves k_max effective_max) st target_cols.

(** [max(max_weight, (uint32_t)(2.0 * avg_initial))]. *)
Definition effective_max (max_weight total_nnz n_rows : Z) : Z :=
  let avg_initial := d_div (d_of_Z total_nnz) (d_of_Z (Z.max 1 n_rows)) in
  Z.max max_weight (wrap 32 (d_trunc (d_mul (d_of_Z 2) avg_initial))).

Definition mergeHigherWeight (input : MergeResult) (k_max max_weight : Z) : MergeResult :=
  let csr := reduced input in
  let s := merging_init csr (mr_row_map input) (internal_nodes (merge_tree input)) in
  let total_nnz := wrap 64 (zsum (map (fun r => Z.of_nat (length (row s r))) (upto (n_rows csr)))) in
  let num_leaves := num_leaves (merge_tree input) in
  let '(s, cols_eliminated, rows_removed) :=
    foldl (weight_pass num_leaves (n_cols csr) k_max (effective_max max_weight total_nnz (n_rows csr)))
      (s, 0, 0) (map (fun w => w + 3) (upto (k_max - 2))) in
  let '(out, row_map) := rebuild (merge_sort Z.le) (n_rows csr) (n_cols csr) s in
  mkMerge out row_map (mkTree num_leaves (nodes s)) cols_eliminated rows_removed.

(** ** Vocabulary of the specifications *)

(** The index lists, for each column, the rows that have it. *)
Definition index_ok (n nc : Z) (cr : list (list Z)) (f : Z -> list Z) : Prop :=
  length cr = Z.to_nat nc /\
  forall c, 0 <= c < nc -> NoDup (vget [] cr c) /\ forall r, r ∈ vget [] cr c <-> 0 <= r < n /\ c ∈ f r.

Section core.
Context (nl n nc N : Z) (base : Z -> Z -> bool) (g : Z -> Z).

Definition tree_of (s : merging) : MergeTree := mkTree nl (nodes s).
Definition node (s : merging) (r : Z) : Z := vget 0 (node_of s) r.
Definition alive (s : merging) (r : Z) : bool := vget false (row_alive s) r.

(** What both merge passes keep, for [n] rows, [nc] columns and [nl] leaves: [base i c]
    is entry [c] of the original row [i], and [g] the original number of a column. *)
Record core (s : merging) : Prop := mkCore {
  c_rows : length (rows s) = Z.to_nat n;
  c_nodes : length (node_of s) = Z.to_nat n;
  c_alive : length (row_alive s) = Z.to_nat n;
  c_cr : length (col_rows s) = Z.to_nat nc;
  c_sorted : forall r, 0 <= r < n -> sorted_row (row s r) /\ Forall (fun c => 0 <= c < nc) (row s r);
  c_dead : forall r, 0 <= r < n -> alive s r = false -> row s r = [];
  c_weights : weights (col_weight s) nc (fun c => zsum_upto n (fun r => occ c (row s r)));
  c_index : forall c, 0 <= c < nc ->
    NoDup (vget [] (col_rows s) c) /\ forall r, r ∈ vget [] (col_rows s) c <-> 0 <= r < n /\ c ∈ row s r;
  c_faithful : faithful (tree_of s) N base (alive_rows (row_alive s) n) (node s) (fun r => map g (row s r))
}.

End core.

(** ** Lemmas: one merge step *)

Lemma elem_of_alive_rows s n r : r ∈ alive_rows (row_alive s) n <-> 0 <= r < n /\ alive s r = true.
Proof. unfold alive_rows. by rewrite filter_true_In, elem_of_upto. Qed.

Section core_lemmas.
Context (nl n nc N : Z) (base : Z -> Z -> bool) (g : Z -> Z).
Notation core := (core nl n nc N base g).

(** Rows [r] and [p] replaced by their sum, in the place of [r]. *)
Lemma core_replace s s' r p a b new :
  core s -> 0 <= r < n -> 0 <= p < n -> r <> p -> alive s r = true -> alive s p = true ->
  a = node s p /\ b = node s r \/ a = node s r /\ b = node s p ->
  rows s' = vset (rows s) r new -> sorted_row new -> Forall (fun c => 0 <= c < nc) new ->
  (forall c, entry c (map g new) = xorb (entry c (map g (row s r))) (entry c (map g (row s p)))) ->
  node_of s' = vset (node_of s) r (nl + Z.of_nat (length (nodes s))) -> nodes s' = nodes s ++ [(a, b)] ->
  row_alive s' = row_alive s -> length (col_rows s') = Z.to_nat nc ->
  weights (col_weight s') nc (fun c => zsum_upto n (fun r => occ c (row s' r))) ->
  (forall c, 0 <= c < nc ->
    NoDup (vget [] (col_rows s') c) /\ forall r, r ∈ vget [] (col_rows s') c <-> 0 <= r < n /\ c ∈ row s' r) ->
  core s'.
Proof.
  intros H Hr Hp Hne Ar Ap Hab Er Hsn Hrn Hx Eo En Ea Lc Hw Hi.
  pose proof (c_rows _ _ _ _ _ _ s H) as L1. pose proof (c_nodes _ _ _ _ _ _ s H) as L2.
  assert (row s' r = new) as Erow by (unfold row; rewrite Er; apply vget_vset_eq; lia).
  assert (forall x, 0 <= x < n -> x <> r -> row s' x = row s x) as Erow'
    by (intros x Hxn Hxr; unfold row; rewrite Er; apply vget_vset_ne; lia).
  constructor; rewrite ?Er, ?Eo, ?Ea, ?length_vset; try done; try apply H.
  - intros x Hxn. destruct (Z.eq_dec x r) as [->|Hxr]; [by rewrite Erow|]. rewrite Erow' by done. by apply H.
  - intros x Hxn Hd. unfold alive in Hd. rewrite Ea in Hd.
    destruct (Z.eq_dec x r) as [->|Hxr]; [unfold alive in Ar; congruence|]. rewrite Erow' by done. by eapply c_dead.
  - apply (faithful_replace (tree_of nl s) (tree_of nl s') N base _ (node s) (node s') (fun r => map g (row s r)) _ r p a b);
      [apply H|by apply elem_of_alive_rows|by apply elem_of_alive_rows|done|done| | | | |].
    + unfold tree_of. by rewrite En.
    + unfold node. rewrite Eo. apply vget_vset_eq. lia.
    + intros x [Hxn _]%elem_of_alive_rows Hxr. unfold node. rewrite Eo. apply vget_vset_ne; lia.
    + intros c. cbn beta. by rewrite Erow, Hx.
    + intros x c [Hxn _]%elem_of_alive_rows Hxr. cbn beta. by rewrite Erow'.
Qed.

(** Row [p] removed; it is the only one with column [cp]. *)
Lemma core_delete s s' p cp :
  (forall x y, 0 <= x < nc -> 0 <= y < nc -> g x = g y -> x = y) ->
  core s -> 0 <= p < n -> alive s p = true -> cp ∈ row s p -> (forall x, 0 <= x < n -> x <> p -> cp ∉ row s x) ->
  rows s' = vset (rows s) p [] -> node_of s' = node_of s -> nodes s' = nodes s ->
  row_alive s' = vset (row_alive s) p false -> length (col_rows s') = Z.to_nat nc ->
  weights (col_weight s') nc (fun c => zsum_upto n (fun r => occ c (row s' r))) ->
  (forall c, 0 <= c < nc ->
    NoDup (vget [] (col_rows s') c) /\ forall r, r ∈ vget [] (col_rows s') c <-> 0 <= r < n /\ c ∈ row s' r) ->
  core s'.
Proof.
  intros Hg H Hp Hap Hcp Hcx Er Eo En Ea Lc Hw Hi.
  pose proof (c_rows _ _ _ _ _ _ s H) as L1. pose proof (c_alive _ _ _ _ _ _ s H) as L2.
  assert (row s' p = []) as Erow by (unfold row; rewrite Er; apply vget_vset_eq; lia).
  assert (forall x, 0 <= x < n -> x <> p -> row s' x = row s x) as Erow'
    by (intros x Hxn Hxr; unfold row; rewrite Er; apply vget_vset_ne; lia).
  assert (alive s' p = false) as Eal by (unfold alive; rewrite Ea; apply vget_vset_eq; lia).
  assert (forall x, 0 <= x < n -> x <> p -> alive s' x = alive s x) as Eal'
    by (intros x Hxn Hxr; unfold alive; rewrite Ea; apply vget_vset_ne; lia).
  assert (forall c, 0 <= c < nc -> forall x, 0 <= x < n -> entry (g c) (map g (row s x)) = entry c (row s x)) as Eg
    by (intros c Hc x Hxn; apply (entry_map g _ _ (fun c => 0 <= c < nc)); [exact Hg|by eapply c_sorted|done]).
  assert (0 <= cp < nc) as Hcr by (destruct (c_sorted _ _ _ _ _ _ s H p Hp) as [_ Hf]; rewrite Forall_forall in Hf; by apply Hf).
  assert (faithful (tree_of nl s') N base (alive_rows (row_alive s') n) (node s) (fun r => map g (row s r))) as Hf.
  { apply (faithful_delete _ N base (alive_rows (row_alive s) n) _ _ _ p (g cp)).
    - unfold tree_of. rewrite En. apply H.
    - apply NoDup_Permutation.
      + apply H.
      + constructor; [rewrite elem_of_alive_rows, Eal; by intros [_ ?]|]. apply sorted_row_NoDup, filter_sorted, upto_sorted.
      + intros x. rewrite elem_of_cons, !elem_of_alive_rows. destruct (Z.eq_dec x p) as [->|Hxp]; [tauto|].
        split; [intros [? ?]; right; split; [done|by rewrite Eal']|]. intros [?|[? Hx]]; [done|]. by rewrite Eal' in Hx.
    - cbn beta. rewrite Eg by done. apply sorted_row_entry; [by eapply c_sorted|done].
    - intros x [Hxn _]%elem_of_alive_rows Hxp. cbn beta. rewrite Eg by done. apply entry_not_in. by apply Hcx. }
  constructor; rewrite ?Er, ?Eo, ?Ea, ?length_vset; try done; try apply H.
  - intros x Hxn. destruct (Z.eq_dec x p) as [->|Hxr]; [rewrite Erow; split; constructor|]. rewrite Erow' by done. by apply H.
  - intros x Hxn Hd. destruct (Z.eq_dec x p) as [->|Hxr]; [done|]. rewrite Erow' by done. rewrite Eal' in Hd by done. by eapply c_dead.
  - rewrite <- Ea. rewrite <- (map_id (alive_rows (row_alive s') n)) in Hf. eapply faithful_reindex; [exact Hf| |].
    + intros k _. unfold node. by rewrite Eo.
    + intros k c [Hkn Hka]%elem_of_alive_rows. cbn beta. destruct (Z.eq_dec k p) as [->|Hkp]; [congruence|]. by rewrite Erow'.
Qed.

End core_lemmas.

(** ** Lemmas: the inverted index *)

Lemma binary_search_spec l x : binary_search l x = true <-> x ∈ l.
Proof.
  unfold binary_search. rewrite existsb_exists, list_elem_of_In. split.
  - intros (y & Hy & E%Z.eqb_eq). by subst.
  - intros H. exists x. by rewrite Z.eqb_refl.
Qed.

Lemma elem_of_not_in l cs c : c ∈ not_in l cs <-> c ∈ cs /\ c ∉ l.
Proof.
  unfold not_in. rewrite filter_true_In, negb_true_iff. pose proof (binary_search_spec l c) as [H1 H2].
  destruct (binary_search l c); [|naive_solver]. split; [by intros [_ ?]|]. intros [_ Hn]. by destruct Hn; apply H1.
Qed.

Lemma filter_NoDup {A} (f : A -> bool) l : NoDup l -> NoDup (List.filter f l).
Proof.
  induction 1 as [|x l Hx _ IH]; [constructor|]. cbn. destruct (f x); [|done]. constructor; [|done].
  by intros [? _]%filter_true_In.
Qed.

Lemma filter_idem {A} (f : A -> bool) l : List.filter f (List.filter f l) = List.filter f l.
Proof. induction l as [|x l IH]; [done|]. cbn. destruct (f x) eqn:E; cbn; rewrite ?E; congruence. Qed.

Lemma elem_of_erase l r x : x ∈ erase_remove l r <-> x ∈ l /\ x <> r.
Proof. unfold erase_remove. by rewrite filter_true_In, negb_true_iff, Z.eqb_neq. Qed.

Section index.
Context (n nc : Z).
Notation index_ok := (index_ok n nc).

Lemma index_row_spec cs : forall cr r c,
  length cr = Z.to_nat nc -> NoDup cs -> Forall (fun c => 0 <= c < nc) cs -> 0 <= c < nc ->
  length (index_row cr r cs) = Z.to_nat nc /\
  vget [] (index_row cr r cs) c = vget [] cr c ++ (if decide (c ∈ cs) then [r] else []).
Proof.
  induction cs as [|x cs IH]; intros cr r c Hl Hd Hf Hc.
  { split; [done|]. rewrite decide_False by apply not_elem_of_nil. cbn. by rewrite app_nil_r. }
  apply NoDup_cons in Hd as [Hx Hd]. apply Forall_cons in Hf as [Hxr Hf].
  destruct (IH (vset cr x (vget [] cr x ++ [r])) r c) as [I1 I2]; [by rewrite length_vset|done|done|done|].
  split; [exact I1|]. change (index_row cr r (x :: cs)) with (index_row (vset cr x (vget [] cr x ++ [r])) r cs).
  rewrite I2. destruct (Z.eq_dec c x) as [->|Hne].
  - rewrite vget_vset_eq by lia. rewrite decide_False, decide_True by (done || apply elem_of_cons; by left).
    by rewrite app_nil_r.
  - rewrite vget_vset_ne by lia. f_equal. apply decide_ext. rewrite elem_of_cons. naive_solver.
Qed.

Lemma unindex_spec cs : forall cr r c,
  length cr = Z.to_nat nc -> Forall (fun c => 0 <= c < nc) cs -> 0 <= c < nc ->
  length (unindex cr r cs) = Z.to_nat nc /\
  vget [] (unindex cr r cs) c = if decide (c ∈ cs) then erase_remove (vget [] cr c) r else vget [] cr c.
Proof.
  induction cs as [|x cs IH]; intros cr r c Hl Hf Hc.
  { split; [done|]. by rewrite decide_False by apply not_elem_of_nil. }
  apply Forall_cons in Hf as [Hxr Hf].
  destruct (IH (vset cr x (erase_remove (vget [] cr x) r)) r c) as [I1 I2]; [by rewrite length_vset|done|done|].
  split; [exact I1|]. change (unindex cr r (x :: cs)) with (unindex (vset cr x (erase_remove (vget [] cr x) r)) r cs).
  rewrite I2. destruct (Z.eq_dec c x) as [->|Hne].
  - rewrite vget_vset_eq by lia. rewrite (decide_True (P := x ∈ x :: cs)) by (apply elem_of_cons; by left).
    destruct (decide (x ∈ cs)); [apply filter_idem|done].
  - rewrite vget_vset_ne by lia. apply decide_ext. rewrite elem_of_cons. naive_solver.
Qed.

Lemma index_delete cr f f' p old :
  index_ok cr f -> old = f p -> Forall (fun c => 0 <= c < nc) old ->
  (forall x, 0 <= x < n -> x <> p -> f' x = f x) -> f' p = [] -> index_ok (unindex cr p old) f'.
Proof.
  intros [Hl H] -> Hf Hx Hp. split.
  { destruct (Z.lt_ge_cases 0 nc); [exact (proj1 (unindex_spec (f p) cr p 0 Hl Hf ltac:(lia)))|].
    destruct (f p) as [|c l]; [done|]. apply Forall_cons in Hf as [? _]. lia. }
  intros c Hc. destruct (unindex_spec (f p) cr p c Hl Hf Hc) as [_ ->]. destruct (H c Hc) as [Hd Hin].
  split.
  - destruct (decide (c ∈ f p)); [by apply filter_NoDup|done].
  - intros x. assert (x ∈ (if decide (c ∈ f p) then erase_remove (vget [] cr c) p else vget [] cr c)
                       <-> x ∈ vget [] cr c /\ x <> p) as ->.
    { destruct (decide (c ∈ f p)); [by rewrite elem_of_erase|]. split; [|by intros [? _]].
      intros Hx'. split; [done|]. intros ->. by apply Hin in Hx' as [_ ?]. }
    rewrite Hin. destruct (Z.eq_dec x p) as [->|Hne].
    + rewrite Hp, elem_of_nil. tauto.
    + split; [intros [[Hxn Hxc] _]; by rewrite Hx|]. intros [Hxn Hxc]. by rewrite Hx in Hxc.
Qed.

Lemma index_replace cr f f' r old new :
  index_ok cr f -> 0 <= r < n -> old = f r -> new = f' r -> Forall (fun c => 0 <= c < nc) old ->
  NoDup new -> Forall (fun c => 0 <= c < nc) new ->
  (forall x, 0 <= x < n -> x <> r -> f' x = f x) ->
  index_ok (index_row (unindex cr r (not_in new old)) r (not_in old new)) f'.
Proof.
  intros [Hl H] Hr Eo En Hfo Hd Hfn Hx.
  assert (Forall (fun c => 0 <= c < nc) (not_in new old)) as F1
    by (apply Forall_forall; intros c [Hc _]%elem_of_not_in; rewrite Forall_forall in Hfo; by apply Hfo).
  assert (Forall (fun c => 0 <= c < nc) (not_in old new)) as F2
    by (apply Forall_forall; intros c [Hc _]%elem_of_not_in; rewrite Forall_forall in Hfn; by apply Hfn).
  assert (NoDup (not_in old new)) as D2 by by apply filter_NoDup.
  split.
  { destruct (Z.lt_ge_cases 0 nc) as [Hpos|Hneg].
    - exact (proj1 (index_row_spec _ _ _ 0 (proj1 (unindex_spec _ _ _ 0 Hl F1 ltac:(lia))) D2 F2 ltac:(lia))).
    - destruct (not_in old new) as [|c l]; [|apply Forall_cons in F2 as [? _]; lia].
      destruct (not_in new old) as [|c l]; [done|apply Forall_cons in F1 as [? _]; lia]. }
  intros c Hc. destruct (unindex_spec (not_in new old) cr r c Hl F1 Hc) as [L1 U].
  destruct (index_row_spec (not_in old new) (unindex cr r (not_in new old)) r c L1 D2 F2 Hc) as [_ ->]. rewrite U. clear U L1.
  destruct (H c Hc) as [Hdc Hin].
  assert (NoDup (if decide (c ∈ not_in new old) then erase_remove (vget [] cr c) r else vget [] cr c)) as D3
    by (destruct (decide _); [by apply filter_NoDup|done]).
  assert (forall x, x ∈ (if decide (c ∈ not_in new old) then erase_remove (vget [] cr c) r else vget [] cr c)
     <-> (x ∈ vget [] cr c /\ (x = r -> c ∈ new))) as M3.
  { intros x. destruct (decide (c ∈ not_in new old)) as [Hi|Hi]; rewrite elem_of_not_in in Hi.
    - rewrite elem_of_erase. split; [intros [? ?]; by split|]. intros [? Himp]. split; [done|]. intros ->. by apply Hi, Himp.
    - split; [|by intros [? _]]. intros Hxc. split; [done|]. intros ->. destruct (decide (c ∈ new)); [done|].
      exfalso. apply Hi. split; [|done]. rewrite Eo. by apply Hin in Hxc as [_ ?]. }
  split.
  - apply NoDup_app. split; [done|]. split.
    + intros x Hxi. rewrite M3 in Hxi. destruct (decide (c ∈ not_in old new)) as [Hi|]; [|apply not_elem_of_nil].
      rewrite elem_of_not_in in Hi. intros ->%list_elem_of_singleton. destruct Hxi as [Hxc _]. apply Hi. rewrite Eo.
      by apply Hin in Hxc as [_ ?].
    + destruct (decide (c ∈ not_in old new)); [apply NoDup_singleton|constructor].
  - intros x. rewrite elem_of_app, M3, Hin.
    assert (x ∈ (if decide (c ∈ not_in old new) then [r] else []) <-> x = r /\ c ∈ new /\ c ∉ old) as ->.
    { destruct (decide (c ∈ not_in old new)) as [Hi|Hi]; rewrite elem_of_not_in in Hi.
      - rewrite list_elem_of_singleton. tauto.
      - rewrite elem_of_nil. tauto. }
    destruct (Z.eq_dec x r) as [->|Hne].
    + rewrite <- En, <- Eo. destruct (decide (c ∈ old)); naive_solver.
    + split; [intros [[[Hxn Hxc] _]|[? _]]; [by rewrite Hx|done]|].
      intros [Hxn Hxc]. left. rewrite Hx in Hxc by done. by split.
Qed.

End index.

(** ** Lemmas: the code's steps keep [core] *)

Section steps.
Context (nl n nc N : Z) (base : Z -> Z -> bool) (g : Z -> Z).
Context (Hnl : 0 <= nl) (Hg : forall x y, 0 <= x < nc -> 0 <= y < nc -> g x = g y -> x = y).
Notation core := (core nl n nc N base g).

Lemma core_index s : core s -> index_ok n nc (col_rows s) (row s).
Proof. intros H. split; apply H. Qed.

Lemma row_vset s rs r x new :
  rs = vset (rows s) r new -> core s -> 0 <= r < n -> 0 <= x < n ->
  vget [] rs x = if x =? r then new else row s x.
Proof.
  intros -> H Hr Hx. pose proof (c_rows _ _ _ _ _ _ s H). destruct (Z.eqb_spec x r) as [->|].
  - apply vget_vset_eq. lia.
  - apply vget_vset_ne; lia.
Qed.

Lemma weights_replace w X f f' r :
  0 <= r < n -> Forall (fun c => 0 <= c < nc) (f r) -> Forall (fun c => 0 <= c < nc) (f' r) ->
  (forall x, 0 <= x < n -> x <> r -> f' x = f x) ->
  X = (fun c => zsum_upto n (fun x => occ c (f x))) -> weights w nc X ->
  weights (foldl bump (foldl drop1 w (f r)) (f' r)) nc (fun c => zsum_upto n (fun x => occ c (f' x))).
Proof.
  intros Hr F1 F2 Hx -> Hw. eapply weights_ext; [apply weights_bump; [exact F2|]; apply weights_drop; [exact F1|exact Hw]|].
  intros c _. cbn beta. rewrite (zsum_upto_update n (fun x => occ c (f x)) (fun x => occ c (f' x)) r); [done|done|].
  intros x Hxn Hne. by rewrite Hx.
Qed.

Lemma weights_remove w f f' r :
  0 <= r < n -> Forall (fun c => 0 <= c < nc) (f r) -> f' r = [] ->
  (forall x, 0 <= x < n -> x <> r -> f' x = f x) ->
  weights w nc (fun c => zsum_upto n (fun x => occ c (f x))) ->
  weights (foldl drop1 w (f r)) nc (fun c => zsum_upto n (fun x => occ c (f' x))).
Proof.
  intros Hr F1 E Hx Hw. change (foldl drop1 w (f r)) with (foldl bump (foldl drop1 w (f r)) []). rewrite <- E.
  eapply weights_replace; [done|done|by rewrite E|done|reflexivity|done].
Qed.

Lemma new_node_small s p :
  0 <= nl + Z.of_nat (length (nodes s)) < 2 ^ 32 -> new_node nl (nodes s ++ [p]) = nl + Z.of_nat (length (nodes s)).
Proof.
  intros H. unfold new_node. rewrite length_app. cbn [length]. rewrite wrap_small; [lia|]. unfold in_width. lia.
Qed.

(** One planned operation of a higher-weight merge. *)
Lemma commit_core s pivot r :
  core s -> 0 <= r < n -> 0 <= pivot < n -> r <> pivot -> alive s r = true -> alive s pivot = true ->
  nl + Z.of_nat (length (nodes s)) < 2 ^ 32 -> core (commit nl pivot s (r, xor_rows (row s pivot) (row s r))).
Proof.
  intros H Hr Hp Hne Ar Ap Hb. set (new := xor_rows (row s pivot) (row s r)).
  destruct (c_sorted _ _ _ _ _ _ s H r Hr) as [S1 F1]. destruct (c_sorted _ _ _ _ _ _ s H pivot Hp) as [S2 F2].
  assert (sorted_row new) as S3 by by apply xor_rows_sorted.
  assert (Forall (fun c => 0 <= c < nc) new) as F3 by by apply xor_rows_Forall.
  set (s' := commit _ _ _ _).
  assert (forall x, 0 <= x < n -> row s' x = if x =? r then new else row s x) as Erow
    by (intros x Hx; by apply (row_vset s (rows s') r x new)).
  assert (row s' r = new) as Er by (rewrite Erow, Z.eqb_refl by done; done).
  assert (forall x, 0 <= x < n -> x <> r -> row s' x = row s x) as Ex
    by (intros x Hx Hxr; rewrite Erow, (proj2 (Z.eqb_neq x r) Hxr) by done; done).
  assert (index_ok n nc (col_rows s') (row s')) as [I1 I2].
  { apply (index_replace n nc (col_rows s) (row s) (row s') r); try done; [by apply core_index|by apply sorted_row_NoDup]. }
  apply (core_replace nl n nc N base g s s' r pivot (node s pivot) (node s r) new); try done.
  - by left.
  - intros c. unfold new. by rewrite entry_map_xor_rows, xorb_comm.
  - cbn. unfold new_node. f_equal. apply new_node_small. lia.
  - change (col_weight s') with (foldl bump (foldl drop1 (col_weight s) (row s r)) new). rewrite <- Er.
    eapply weights_replace; [done|done|by rewrite Er|exact Ex|reflexivity|by eapply c_weights].
Qed.

(** Deleting the pivot. *)
Lemma delete_core s p c :
  core s -> 0 <= p < n -> alive s p = true -> c ∈ row s p -> (forall x, 0 <= x < n -> x <> p -> c ∉ row s x) ->
  core (delete_row p s).
Proof.
  intros H Hp Ap Hc Hcx. set (s' := delete_row p s). destruct (c_sorted _ _ _ _ _ _ s H p Hp) as [S1 F1].
  assert (forall x, 0 <= x < n -> row s' x = if x =? p then [] else row s x) as Erow
    by (intros x Hx; by apply (row_vset s (rows s') p x [])).
  assert (row s' p = []) as Er by (rewrite Erow, Z.eqb_refl by done; done).
  assert (forall x, 0 <= x < n -> x <> p -> row s' x = row s x) as Ex
    by (intros x Hx Hxr; rewrite Erow, (proj2 (Z.eqb_neq x p) Hxr) by done; done).
  assert (index_ok n nc (col_rows s') (row s')) as [I1 I2]
    by (eapply index_delete; [by apply core_index|reflexivity|done|exact Ex|done]).
  apply (core_delete nl n nc N base g s s' p c); try done.
  change (col_weight s') with (foldl drop1 (col_weight s) (row s p)).
  apply (weights_remove _ (row s)); [done|done|done|exact Ex|by eapply c_weights].
Qed.

(** A weight-2 merge: the replacement of [r1], then the removal of [r2]. *)
Lemma merge_pair_core s r1 r2 c :
  core s -> c ∈ row s r1 -> c ∈ row s r2 -> (forall x, 0 <= x < n -> x <> r1 -> x <> r2 -> c ∉ row s x) -> 0 <= r1 < n -> 0 <= r2 < n -> r1 <> r2 -> alive s r1 = true -> alive s r2 = true ->
  nl + Z.of_nat (length (nodes s)) < 2 ^ 32 -> core (merge_pair nl r1 r2 s).1.
Proof.
  intros H Hc1 Hc2 Hcx Hr1 Hr2 Hne A1 A2 Hb. set (new := xor_rows (row s r1) (row s r2)).
  destruct (c_sorted _ _ _ _ _ _ s H r1 Hr1) as [S1 F1]. destruct (c_sorted _ _ _ _ _ _ s H r2 Hr2) as [S2 F2].
  assert (sorted_row new) as S3 by by apply xor_rows_sorted.
  assert (Forall (fun c => 0 <= c < nc) new) as F3 by by apply xor_rows_Forall.
  set (s' := (merge_pair nl r1 r2 s).1). pose proof (c_weights _ _ _ _ _ _ s H) as Hw.
  set (f1 := fun x => if x =? r1 then new else row s x).
  assert (f1 r1 = new) as Ef1 by (unfold f1; by rewrite Z.eqb_refl).
  assert (forall x, x <> r1 -> f1 x = row s x) as Ef1' by (intros x Hx; unfold f1; by rewrite (proj2 (Z.eqb_neq x r1) Hx)).
  set (s1 := mkMerging (vset (rows s) r1 new) (vset (node_of s) r1 (new_node nl (nodes s ++ [(node s r1, node s r2)])))
    (foldl bump (foldl drop1 (col_weight s) (row s r1)) new)
    (index_row (unindex (col_rows s) r1 (not_in new (row s r1))) r1 (not_in (row s r1) new))
    (row_alive s) (nodes s ++ [(node s r1, node s r2)])).
  assert (forall x, 0 <= x < n -> row s1 x = f1 x) as Erow1 by (intros x Hx; by apply (row_vset s (rows s1) r1 x new)).
  assert (core s1) as H1.
  { assert (index_ok n nc (col_rows s1) (row s1)) as [I1 I2].
    { apply (index_replace n nc (col_rows s) (row s) (row s1) r1); try done.
      - by apply core_index.
      - by rewrite Erow1.
      - by apply sorted_row_NoDup.
      - intros x Hx Hxr. rewrite Erow1 by done. by apply Ef1'. }
    apply (core_replace nl n nc N base g s s1 r1 r2 (node s r1) (node s r2) new); try done.
    - by right.
    - intros x. apply entry_map_xor_rows.
    - cbn. f_equal. apply new_node_small. lia.
    - change (col_weight s1) with (foldl bump (foldl drop1 (col_weight s) (row s r1)) new).
      replace new with (row s1 r1) by by rewrite Erow1.
      eapply weights_replace; [done|done|by rewrite Erow1, Ef1| |reflexivity|done].
      intros x Hx Hxr. rewrite Erow1 by done. by apply Ef1'. }
  pose proof (c_rows _ _ _ _ _ _ s1 H1) as L1.
  assert (forall x, 0 <= x < n -> row s' x = if x =? r2 then [] else row s1 x) as Erow
    by (intros x Hx; by apply (row_vset s1 (rows s') r2 x [])).
  assert (forall x, 0 <= x < n -> x <> r1 -> x <> r2 -> row s' x = row s x) as Ex.
  { intros x Hx Hx1 Hx2. rewrite Erow, (proj2 (Z.eqb_neq x r2) Hx2), Erow1 by done. by apply Ef1'. }
  assert (row s' r1 = new) as Er1 by (rewrite Erow, (proj2 (Z.eqb_neq r1 r2) Hne), Erow1 by done; done).
  assert (row s' r2 = []) as Er2 by (rewrite Erow, Z.eqb_refl by done; done).
  set (f2 := fun x => if x =? r2 then [] else row s x).
  assert (forall x, x <> r2 -> f2 x = row s x) as Ef2' by (intros x Hx; unfold f2; by rewrite (proj2 (Z.eqb_neq x r2) Hx)).
  assert (index_ok n nc (col_rows s') (row s')) as [I1 I2].
  { apply (index_replace n nc (unindex (col_rows s) r2 (row s r2)) f2 (row s') r1); try done.
    - eapply index_delete; [by apply core_index|reflexivity|done| |unfold f2; by rewrite Z.eqb_refl].
      intros x _ Hx. by apply Ef2'.
    - by rewrite Ef2'.
    - by apply sorted_row_NoDup.
    - intros x Hx Hx1. destruct (Z.eq_dec x r2) as [->|Hx2]; [unfold f2; by rewrite Z.eqb_refl, Er2|].
      rewrite Ex by done. by rewrite Ef2'. }
  assert (c ∉ new) as Hcn.
  { rewrite <- sorted_row_entry by done. unfold new. rewrite entry_xor_rows.
    by rewrite (proj2 (sorted_row_entry _ c S1) Hc1), (proj2 (sorted_row_entry _ c S2) Hc2). }
  apply (core_delete nl n nc N base g s1 s' r2 c); try done.
  { by rewrite Erow1, Ef1' by done. }
  { intros x Hx Hx2. rewrite Erow1 by done. destruct (Z.eq_dec x r1) as [->|Hx1]; [by rewrite Ef1|]. rewrite Ef1' by done. by apply Hcx. }
  change (col_weight s') with (foldl bump (foldl drop1 (foldl drop1 (col_weight s) (row s r1)) (row s r2)) new).
  eapply weights_ext; [apply weights_bump; [done|]; apply weights_drop; [done|]; apply weights_drop; [done|exact Hw]|].
  clear c Hc1 Hc2 Hcx Hcn. intros c _. cbn beta.
  rewrite (zsum_upto_update n (fun x => occ c (f2 x)) (fun x => occ c (row s' x)) r1); [|done|].
  - rewrite (zsum_upto_update n (fun x => occ c (row s x)) (fun x => occ c (f2 x)) r2); [|done|].
    + rewrite Er1, (Ef2' r1 Hne). unfold f2 at 1. rewrite Z.eqb_refl. change (occ c []) with 0. lia.
    + intros x _ Hx. by rewrite Ef2'.
  - intros x Hx Hx1. f_equal. destruct (Z.eq_dec x r2) as [->|Hx2]; [unfold f2; by rewrite Z.eqb_refl, Er2|].
    rewrite Ex by done. by rewrite Ef2'.
Qed.

End steps.
