(* ===== verification/MergeStages.v ===== *)
(** The passes of [merge_filter.cpp] as a whole: each takes a matrix whose rows stand
    for sums of original relations to a smaller one of the same kind. *)
From Stdlib Require Import ZArith Lia Sorted.
From stdpp Require Import base gmap sets list sorting.
From S2P Require Import Prelude Soa Gf2 RowOps MergeFilter.
#[local] Open Scope Z_scope.

(** A matrix between two passes: row [k] stands for the relations below node
    [row_map[k]] of the tree, and column [j] is column [g j] of the original matrix. *)
Record stage (m : HostMatrixCSR) (row_map : list Z) (t : MergeTree) (N : Z) (base : Z -> Z -> bool) (g : Z -> Z) : Prop :=
  mkStage {
  sg_csr : csr_ok m;
  sg_len : length row_map = Z.to_nat (n_rows m);
  sg_faithful : faithful t N base (upto (n_rows m)) (idx row_map) (fun k => map g (csr_row m k));
  sg_inj : forall x y, 0 <= x < n_cols m -> 0 <= y < n_cols m -> g x = g y -> x = y
}.

(** The weight of a column, and the number of entries. *)
Definition col_count (m : HostMatrixCSR) (c : Z) : Z := zsum_upto (n_rows m) (fun r => occ c (csr_row m r)).
Definition nnz (m : HostMatrixCSR) : Z := zsum_upto (n_rows m) (fun r => Z.of_nat (length (csr_row m r))).

(** What a pass may do to a finished row: nothing, or sort it. *)
Definition harmless (fin : list Z -> list Z) : Prop := forall l, sorted_row l -> sorted_row (fin l) /\ fin l ≡ₚ l.

Section compacted.
Context (w : list Z) (n nc : Z) (al : list bool) (row : Z -> list Z) (label : Z -> Z).
Context (t : MergeTree) (N : Z) (base : Z -> Z -> bool) (g : Z -> Z).

(** What the compacted matrix [m] with row map [rm] is. *)
Record compacted (m : HostMatrixCSR) (rm : list Z) : Prop := mkCompacted {
  cp_stage : stage m rm t N base (fun j => g (idx (kept w nc) j));
  cp_rows : n_rows m = Z.of_nat (length (alive_rows al n));
  cp_cols : n_cols m = Z.of_nat (length (kept w nc));
  cp_row : forall k r, alive_rows al n !! k = Some r ->
    idx rm (Z.of_nat k) = label r /\ map (idx (kept w nc)) (csr_row m (Z.of_nat k)) ≡ₚ row r
}.

End compacted.

(** The number of alive rows. *)
Definition n_alive (n : Z) (s : merging) : Z := Z.of_nat (length (alive_rows (row_alive s) n)).

Section runs.
Context (nl n nc N : Z) (base : Z -> Z -> bool) (g : Z -> Z) (k_max : Z).
Notation core := (core nl n nc N base g).
Notation n_alive := (n_alive n).

(** What a run of the loop from [s] to [s'] has kept. *)
Definition w2_run (s s' : merging) : Prop :=
  core s' /\ Z.of_nat (length (nodes s')) + n_alive s' = Z.of_nat (length (nodes s)) + n_alive s /\
  zsum_upto n (fun r => Z.of_nat (length (row s' r))) <= zsum_upto n (fun r => Z.of_nat (length (row s r))) /\
  n_alive s' <= n_alive s.

(** What the state of the pass satisfies, [B] bounding the nodes it can still create. *)
Definition higher_inv (B : Z) (st : merging * Z * Z) : Prop :=
  let '(s, cols_eliminated, rows_removed) := st in
  core s /\ cols_eliminated = n - n_alive s /\ rows_removed = n - n_alive s /\
  Z.of_nat (length (nodes s)) + Z.max 0 (k_max - 1) * n_alive s <= B.

End runs.

Section singleton_invariant.
Context (input : HostMatrixCSR).
Notation n := (n_rows input).
Notation nc := (n_cols input).

(** Entry [c] of the original row [i]. *)
Definition base_of (i c : Z) : bool := entry c (csr_row input i).

(** How many of the alive rows have column [c]. *)
Definition alive_count (al : list bool) (c : Z) : Z :=
  zsum_upto n (fun r => if vget false al r then occ c (csr_row input r) else 0).

Definition no_singleton (al : list bool) (w : list Z) (r : Z) : Prop :=
  vget false al r = true -> forall c, c ∈ csr_row input r -> vget 0 w c <> 1.

Definition count_alive (al : list bool) : Z := Z.of_nat (length (alive_rows al n)).

Record sinv (al : list bool) (w : list Z) : Prop := mkSinv {
  si_len : length al = Z.to_nat n;
  si_weights : weights w nc (alive_count al);
  si_faithful : faithful (mkTree n []) n base_of (alive_rows al n) (fun r => r) (csr_row input)
}.

(** One sweep: the invariant, the count, and if nothing was removed there is no singleton left. *)
Definition sweep_post (al0 : list bool) (w0 : list Z) (i : Z) (st : list bool * list Z * Z) : Prop :=
  let '(al, w, removed) := st in
  sinv al w /\ removed = count_alive al0 - count_alive al /\ 0 <= removed /\
  (removed = 0 -> al = al0 /\ w = w0 /\ forall r, 0 <= r < i -> no_singleton al0 w0 r).

End singleton_invariant.

(** ** Lemmas: compaction *)

Lemma harmless_id : harmless (fun l => l).
Proof. by intros l H. Qed.

Lemma harmless_sort : harmless (merge_sort Z.le).
Proof.
  intros l H. split; [by apply sort_strict, sorted_row_NoDup|]. apply merge_sort_Permutation.
Qed.

Lemma occ_perm c l1 l2 : l1 ≡ₚ l2 -> occ c l1 = occ c l2.
Proof.
  induction 1 as [|x l1 l2 _ IH|x y l|l1 l2 l3 _ IH1 _ IH2]; rewrite ?occ_cons; try lia.
Qed.

Lemma entry_perm c l1 l2 : l1 ≡ₚ l2 -> entry c l1 = entry c l2.
Proof. intros H. rewrite !entry_xsum. by apply xsum_perm. Qed.

Lemma sorted_row_lookup l i j x y : sorted_row l -> l !! i = Some x -> l !! j = Some y -> x < y -> (i < j)%nat.
Proof.
  intros Hs. revert i j. induction l as [|z l IH]; intros [|i] [|j] Hi Hj Hlt; try done; cbn in *.
  - injection Hi as ->. injection Hj as ->. lia.
  - lia.
  - injection Hj as ->. apply sorted_row_cons in Hs as [_ Hf]. rewrite Forall_forall in Hf.
    pose proof (Hf x (list_elem_of_lookup_2 _ _ _ Hi)). lia.
  - apply sorted_row_cons in Hs as [Hs _]. specialize (IH Hs i j Hi Hj Hlt). lia.
Qed.

Lemma sorted_row_map f l :
  sorted_row l -> (forall x y, x ∈ l -> y ∈ l -> x < y -> f x < f y) -> sorted_row (map f l).
Proof.
  intros Hs Hf. induction l as [|x l IH]; [constructor|]. apply sorted_row_cons in Hs as [Hs Hx]. cbn [map].
  apply sorted_row_cons. split; [apply IH; [done|]; intros a b Ha Hb; apply Hf; by right|].
  apply Forall_forall. intros y (z & <- & Hz%list_elem_of_In)%list_elem_of_In%in_map_iff.
  rewrite Forall_forall in Hx. apply Hf; [by left|by right|by apply Hx].
Qed.

Lemma zsum_alive al n f :
  0 <= n -> (forall r, 0 <= r < n -> vget false al r = false -> f r = 0) -> zsum (map f (alive_rows al n)) = zsum_upto n f.
Proof.
  intros Hn Hf. unfold alive_rows, zsum_upto.
  assert (forall l, (forall r, r ∈ l -> 0 <= r < n) -> zsum (map f (List.filter (vget false al) l)) = zsum (map f l)) as H.
  { induction l as [|x l IH]; intros Hl; [done|]. cbn [List.filter]. specialize (IH ltac:(intros r Hr; apply Hl; by right)).
    destruct (vget false al x) eqn:E; [by rewrite !map_cons, !zsum_cons, IH|].
    rewrite map_cons, zsum_cons, IH, Hf; [done|apply Hl; by left|done]. }
  apply H. intros r. by rewrite elem_of_upto.
Qed.

(** The renumbered rows name the same columns. *)
Section compaction.
Context (w : list Z) (n nc : Z) (al : list bool) (row : Z -> list Z) (label : Z -> Z) (fin : list Z -> list Z).
Context (Hn : 0 <= n < 2 ^ 32) (Hnc : 0 <= nc < 2 ^ 32) (Hfin : harmless fin).
Context (Hrow : forall r, r ∈ alive_rows al n -> sorted_row (row r) /\ forall c, c ∈ row r -> c ∈ kept w nc).
Context (o2n : list Z) (Ho : forall k c, kept w nc !! k = Some c -> vget 0 o2n c = Z.of_nat k).

Notation new_row r := (fin (map (vget 0 o2n) (row r))).

Lemma o2n_inverse c : c ∈ kept w nc -> 0 <= vget 0 o2n c < Z.of_nat (length (kept w nc)) /\ idx (kept w nc) (vget 0 o2n c) = c.
Proof.
  intros [k Hk]%list_elem_of_lookup. rewrite (Ho k c Hk). pose proof (lookup_lt_Some _ _ _ Hk). split; [lia|].
  unfold idx. rewrite Nat2Z.id. by apply nth_lookup_Some.
Qed.

Lemma o2n_mono x y : x ∈ kept w nc -> y ∈ kept w nc -> x < y -> vget 0 o2n x < vget 0 o2n y.
Proof.
  intros [i Hi]%list_elem_of_lookup [j Hj]%list_elem_of_lookup Hlt. rewrite (Ho i x Hi), (Ho j y Hj).
  pose proof (sorted_row_lookup _ i j x y (kept_sorted w nc) Hi Hj Hlt). lia.
Qed.

Lemma new_row_spec r :
  r ∈ alive_rows al n ->
  sorted_row (new_row r) /\ Forall (fun c => 0 <= c < Z.of_nat (length (kept w nc))) (new_row r) /\
  map (idx (kept w nc)) (new_row r) ≡ₚ row r /\ length (new_row r) = length (row r).
Proof.
  intros Hr. destruct (Hrow r Hr) as [Hs Hk].
  assert (sorted_row (map (vget 0 o2n) (row r))) as Hs'
    by (apply sorted_row_map; [done|]; intros x y Hx Hy; apply o2n_mono; by apply Hk).
  destruct (Hfin _ Hs') as [H1 H2]. split; [done|]. split.
  - apply Forall_forall. intros c Hc. rewrite H2 in Hc. apply list_elem_of_In, in_map_iff in Hc as (x & <- & Hx%list_elem_of_In).
    by apply o2n_inverse, Hk.
  - split; [|by rewrite H2, length_map]. rewrite H2, map_map.
    rewrite (map_ext_in _ id), map_id; [done|]. intros x Hx%list_elem_of_In. by apply o2n_inverse, Hk.
Qed.

(** The compacted matrix. *)
Lemma compaction_rows rs k r :
  rs = map (fun r => new_row r) (alive_rows al n) -> Z.of_nat (length (concat rs)) < 2 ^ 32 ->
  alive_rows al n !! k = Some r ->
  csr_row (mkCSR (0 :: map (wrap 32) (ends_from 0 rs)) (concat rs) (Z.of_nat (length (alive_rows al n)))
    (Z.of_nat (length (kept w nc)))) (Z.of_nat k) = new_row r.
Proof.
  intros -> Hl Hk. apply csr_row_concat; [done|]. rewrite list_lookup_fmap, Hk. done.
Qed.

End compaction.

(** Compaction as the passes do it, from any set of alive rows. *)
Section compact_stage.
Context (w : list Z) (n nc : Z) (al : list bool) (row : Z -> list Z) (label : Z -> Z) (fin : list Z -> list Z).
Context (Hn : 0 <= n < 2 ^ 32) (Hnc : 0 <= nc < 2 ^ 32) (Hfin : harmless fin).
Context (Hrow : forall r, r ∈ alive_rows al n -> sorted_row (row r) /\ forall c, c ∈ row r -> c ∈ kept w nc).
Context (t : MergeTree) (N : Z) (base : Z -> Z -> bool) (g : Z -> Z).
Context (Hg : forall x y, 0 <= x < nc -> 0 <= y < nc -> g x = g y -> x = y).
Context (Hf : faithful t N base (alive_rows al n) label (fun r => map g (row r))).

Notation compacted := (compacted w n nc al row label t N base g).

Lemma compact_stage offsets cols rm o2n cm cnt :
  compact_cols w nc = (o2n, cm, cnt) -> compact_rows al row label fin o2n n = (offsets, cols, rm) ->
  Z.of_nat (length cols) < 2 ^ 32 ->
  cm = kept w nc /\ length rm = length (alive_rows al n) /\
  compacted (mkCSR offsets cols (Z.of_nat (length (alive_rows al n))) cnt) rm.
Proof.
  intros Ec Er Hl. destruct (compact_cols_spec w nc Hnc) as (o2n' & Ec' & Ho). rewrite Ec' in Ec. injection Ec as -> <- <-.
  rewrite compact_rows_spec in Er by lia. injection Er as <- <- <-.
  split; [done|]. split; [by rewrite length_map|].
  set (rs := map _ (alive_rows al n)) in *. set (m := mkCSR _ _ _ _).
  assert (length (alive_rows al n) <= Z.to_nat n)%nat as Hlen
    by (unfold alive_rows; rewrite List.filter_length_le; by rewrite length_upto).
  assert (length (kept w nc) <= Z.to_nat nc)%nat as Hlen'
    by (unfold kept; rewrite List.filter_length_le; by rewrite length_upto).
  assert (forall k, 0 <= k < n_rows m -> exists r, alive_rows al n !! Z.to_nat k = Some r /\ r ∈ alive_rows al n /\
    csr_row m k = fin (map (vget 0 o2n) (row r))) as Hm.
  { intros k Hk. cbn in Hk. destruct (lookup_lt_is_Some_2 (alive_rows al n) (Z.to_nat k)) as [r Hr]; [lia|].
    exists r. split; [done|]. split; [by eapply list_elem_of_lookup_2|].
    rewrite <- (Z2Nat.id k) at 1 by lia. by apply (compaction_rows w n nc al row fin o2n rs). }
  assert (forall x y, 0 <= x < n_cols m -> 0 <= y < n_cols m -> idx (kept w nc) x = idx (kept w nc) y -> x = y) as Hinj.
  { intros x y Hx Hy E. cbn in Hx, Hy. unfold idx in E.
    assert (Z.to_nat x = Z.to_nat y); [|lia].
    eapply (proj1 (NoDup_nth (kept w nc) 0)); [apply NoDup_ListNoDup, sorted_row_NoDup, kept_sorted|lia|lia|exact E]. }
  assert (forall x, 0 <= x < n_cols m -> 0 <= idx (kept w nc) x < nc) as Hrange.
  { intros x Hx. cbn in Hx. destruct (lookup_lt_is_Some_2 (kept w nc) (Z.to_nat x)) as [c Hc]; [lia|].
    unfold idx. rewrite (nth_lookup_Some _ _ _ _ Hc). apply list_elem_of_lookup_2, kept_spec in Hc. by destruct Hc. }
  constructor; [|done|done|].
  - assert (n_rows m = Z.of_nat (length (alive_rows al n))) as En by done. assert (n_cols m = Z.of_nat (length (kept w nc))) as Em by done.
    constructor; [constructor; [lia|lia|]|rewrite length_map; lia| |].
    + intros k Hk. destruct (Hm k Hk) as (r & _ & Hr & ->).
      destruct (new_row_spec w n nc al row fin Hfin Hrow o2n Ho r Hr) as (H1 & H2 & _). by split.
    + set (f := fun k => idx (alive_rows al n) k).
      apply (faithful_reindex _ _ _ _ f label (fun r => map g (row r))).
      * assert (map f (upto (n_rows m)) = alive_rows al n) as ->; [|done].
        apply list_eq. intros i. rewrite list_lookup_fmap. destruct (decide (i < length (alive_rows al n))%nat).
        -- rewrite lookup_upto by lia. cbn. unfold f, idx. rewrite Nat2Z.id.
           destruct (lookup_lt_is_Some_2 (alive_rows al n) i) as [r Hr]; [done|]. rewrite Hr. f_equal. by apply nth_lookup_Some.
        -- rewrite (lookup_ge_None_2 (upto _)), lookup_ge_None_2 by (rewrite ?length_upto; lia). done.
      * intros k Hk%elem_of_upto. destruct (Hm k Hk) as (r & Hr & _ & _). unfold f, idx.
        rewrite (nth_lookup_Some _ _ _ _ Hr). apply nth_lookup_Some. rewrite list_lookup_fmap, Hr. done.
      * intros k c Hk%elem_of_upto. cbn beta. destruct (Hm k Hk) as (r & Hr & Hr' & ->). unfold f, idx at 2.
        rewrite (nth_lookup_Some _ _ _ _ Hr). apply entry_perm.
        destruct (new_row_spec w n nc al row fin Hfin Hrow o2n Ho r Hr') as (_ & _ & Hp & _).
        rewrite <- Hp at 2. by rewrite map_map.
    + intros x y Hx Hy E. apply Hg in E; [|by apply Hrange|by apply Hrange]. by apply Hinj.
  - intros k r Hk. split.
    + unfold idx. rewrite Nat2Z.id. apply nth_lookup_Some. rewrite list_lookup_fmap, Hk. done.
    + unfold m. rewrite (compaction_rows w n nc al row fin o2n rs k r) by done.
      by apply (new_row_spec w n nc al row fin Hfin Hrow o2n Ho r (list_elem_of_lookup_2 _ _ _ Hk)).
Qed.

End compact_stage.

(** Summing over the compacted rows is summing over the alive ones. *)
Lemma zsum_upto_idx (F : Z -> Z) l : zsum_upto (Z.of_nat (length l)) (fun k => F (idx l k)) = zsum (map F l).
Proof.
  unfold zsum_upto. f_equal. rewrite <- (map_map (idx l) F). f_equal. apply list_eq. intros i.
  rewrite list_lookup_fmap. destruct (decide (i < length l)%nat).
  - rewrite lookup_upto by lia. cbn. unfold idx. rewrite Nat2Z.id.
    destruct (lookup_lt_is_Some_2 l i) as [x Hx]; [done|]. rewrite Hx. f_equal. by apply nth_lookup_Some.
  - rewrite (lookup_ge_None_2 (upto _)), lookup_ge_None_2 by (rewrite ?length_upto; lia). done.
Qed.

Lemma occ_map f c row (P : Z -> Prop) :
  (forall x y, P x -> P y -> f x = f y -> x = y) -> Forall P row -> P c -> occ (f c) (map f row) = occ c row.
Proof.
  intros Hf Hr Hc. induction Hr as [|x row Hx _ IH]; [done|]. rewrite map_cons, !occ_cons, IH. f_equal.
  destruct (Z.eqb_spec x c) as [->|Hne]; [by rewrite Z.eqb_refl|].
  destruct (Z.eqb_spec (f x) (f c)) as [E|]; [|done]. exfalso. by apply Hne, Hf.
Qed.

Section compacted_sums.
Context (w : list Z) (n nc : Z) (al : list bool) (row : Z -> list Z) (label : Z -> Z).
Context (t : MergeTree) (N : Z) (base : Z -> Z -> bool) (g : Z -> Z) (m : HostMatrixCSR) (rm : list Z).
Context (H : compacted w n nc al row label t N base g m rm).

Lemma compacted_sum (F : list Z -> Z) (G : list Z -> Z) :
  (forall k r, 0 <= k < n_rows m -> map (idx (kept w nc)) (csr_row m k) ≡ₚ row r -> F (csr_row m k) = G (row r)) ->
  zsum_upto (n_rows m) (fun k => F (csr_row m k)) = zsum (map (fun r => G (row r)) (alive_rows al n)).
Proof.
  intros HFG. rewrite <- (zsum_upto_idx (fun r => G (row r))). rewrite (cp_rows _ _ _ _ _ _ _ _ _ _ _ _ H).
  apply zsum_upto_ext. intros k Hk. destruct (lookup_lt_is_Some_2 (alive_rows al n) (Z.to_nat k)) as [r Hr]; [lia|].
  unfold idx at 1. rewrite (nth_lookup_Some _ _ _ _ Hr). apply HFG; [by rewrite (cp_rows _ _ _ _ _ _ _ _ _ _ _ _ H)|].
  pose proof (cp_row _ _ _ _ _ _ _ _ _ _ _ _ H _ _ Hr) as [_ Hp]. by rewrite Z2Nat.id in Hp by lia.
Qed.

Lemma compacted_count j :
  0 <= j < n_cols m -> col_count m j = zsum (map (fun r => occ (idx (kept w nc) j) (row r)) (alive_rows al n)).
Proof.
  intros Hj. apply (compacted_sum (occ j) (occ (idx (kept w nc) j))). intros k r Hk Hp. rewrite <- (occ_perm _ _ _ Hp). symmetry.
  pose proof (cp_stage _ _ _ _ _ _ _ _ _ _ _ _ H) as Hs.
  apply (occ_map _ _ _ (fun c => 0 <= c < n_cols m)); [|by apply (co_sorted _ (sg_csr _ _ _ _ _ _ Hs))|done].
  intros x y Hx Hy E. apply (sg_inj _ _ _ _ _ _ Hs); [done|done|]. by rewrite E.
Qed.

Lemma compacted_nnz : nnz m = zsum (map (fun r => Z.of_nat (length (row r))) (alive_rows al n)).
Proof.
  apply (compacted_sum (fun l => Z.of_nat (length l)) (fun l => Z.of_nat (length l))). intros k r _ Hp.
  by rewrite <- Hp, length_map.
Qed.

End compacted_sums.

(** ** Lemmas: the state of a pass *)

Section core_facts.
Context (nl n nc N : Z) (base : Z -> Z -> bool) (g : Z -> Z).
Context (Hn : 0 <= n < 2 ^ 32) (Hnc : 0 <= nc < 2 ^ 32).
Context (Hg : forall x y, 0 <= x < nc -> 0 <= y < nc -> g x = g y -> x = y).
Notation core := (core nl n nc N base g).

Lemma weight_exact s c : core s -> 0 <= c < nc -> vget 0 (col_weight s) c = zsum_upto n (fun r => occ c (row s r)).
Proof.
  intros H Hc. destruct (c_weights _ _ _ _ _ _ s H) as [_ Hw]. rewrite Hw by done. apply wrap_small. unfold in_width.
  pose proof (zsum_upto_bounds n (fun r => occ c (row s r)) 0 1 ltac:(lia)) as Hb.
  assert (n * 0 <= zsum_upto n (fun r => occ c (row s r)) <= n * 1); [|lia].
  apply Hb. intros r Hr. split; [apply occ_nonneg|]. apply sorted_occ_le. by eapply c_sorted.
Qed.

Lemma core_kept s r c : core s -> 0 <= r < n -> c ∈ row s r -> c ∈ kept (col_weight s) nc.
Proof.
  intros H Hr Hc. assert (0 <= c < nc) as Hcr.
  { destruct (c_sorted _ _ _ _ _ _ s H r Hr) as [_ Hf]. rewrite Forall_forall in Hf. by apply Hf. }
  apply kept_spec. split; [done|]. rewrite (weight_exact s c H Hcr).
  pose proof (zsum_upto_ge n (fun r => occ c (row s r)) r Hr ltac:(intros; apply occ_nonneg)) as Hge. cbn beta in Hge.
  apply occ_pos in Hc. lia.
Qed.

Lemma core_dead_sum s F : core s -> F [] = 0 -> zsum (map (fun r => F (row s r)) (alive_rows (row_alive s) n)) = zsum_upto n (fun r => F (row s r)).
Proof.
  intros H HF. apply (zsum_alive _ n (fun r => F (row s r))); [lia|]. intros r Hr Ha.
  by rewrite (c_dead _ _ _ _ _ _ s H r Hr Ha).
Qed.

(** The end of a pass. *)
Lemma rebuild_stage s fin csr rm :
  core s -> harmless fin -> rebuild fin n nc s = (csr, rm) -> Z.of_nat (length (col_indices csr)) < 2 ^ 32 ->
  exists g', stage csr rm (tree_of nl s) N base g' /\
    nnz csr = zsum_upto n (fun r => Z.of_nat (length (row s r))) /\
    n_rows csr = Z.of_nat (length (alive_rows (row_alive s) n)) /\
    forall j, 0 <= j < n_cols csr -> exists c, 0 <= c < nc /\ g' j = g c /\
      col_count csr j = vget 0 (col_weight s) c /\ 0 < vget 0 (col_weight s) c.
Proof.
  intros H Hfin E Hl. unfold rebuild in E.
  destruct (compact_cols (col_weight s) nc) as [[o2n cm] cnt] eqn:Ec.
  destruct (compact_rows _ _ _ _ _ _) as [[offsets cols] rm'] eqn:Er. injection E as <- <-. cbn [col_indices] in Hl.
  assert (forall r, r ∈ alive_rows (row_alive s) n -> sorted_row (row s r) /\ forall c, c ∈ row s r -> c ∈ kept (col_weight s) nc) as Hrow.
  { intros r [Hr _]%elem_of_alive_rows. split; [by eapply c_sorted|]. intros c. by apply core_kept. }
  destruct (compact_stage _ n nc _ _ _ fin Hn Hnc Hfin Hrow _ N base g Hg (c_faithful _ _ _ _ _ _ s H) _ _ _ _ _ _ Ec Er Hl)
    as (-> & Hlen & Hc).
  assert (length (alive_rows (row_alive s) n) <= Z.to_nat n)%nat as Hle
    by (unfold alive_rows; rewrite List.filter_length_le; by rewrite length_upto).
  rewrite Hlen, wrap_small by (unfold in_width; lia).
  exists (fun j => g (idx (kept (col_weight s) nc) j)). split; [by eapply cp_stage|]. split; [|split; [done|]].
  - rewrite (compacted_nnz _ _ _ _ _ _ _ _ _ _ _ _ Hc). by apply (core_dead_sum s (fun l => Z.of_nat (length l))).
  - intros j Hj. exists (idx (kept (col_weight s) nc) j).
    assert (idx (kept (col_weight s) nc) j ∈ kept (col_weight s) nc) as Hk.
    { rewrite (cp_cols _ _ _ _ _ _ _ _ _ _ _ _ Hc) in Hj.
      destruct (lookup_lt_is_Some_2 (kept (col_weight s) nc) (Z.to_nat j)) as [c Hc']; [lia|].
      unfold idx. rewrite (nth_lookup_Some _ _ _ _ Hc'). by eapply list_elem_of_lookup_2. }
    apply kept_spec in Hk as [Hk Hpos]. split; [done|]. split; [done|]. split; [|done].
    rewrite (compacted_count _ _ _ _ _ _ _ _ _ _ _ _ Hc j Hj), weight_exact by done. by apply (core_dead_sum s (occ _)).
Qed.

Lemma rebuild_length s fin csr rm :
  core s -> harmless fin -> rebuild fin n nc s = (csr, rm) ->
  Z.of_nat (length (col_indices csr)) = zsum_upto n (fun r => Z.of_nat (length (row s r))).
Proof.
  intros H Hfin E. unfold rebuild in E. destruct (compact_cols_spec (col_weight s) nc Hnc) as (o2n & Ec & Ho). rewrite Ec in E.
  rewrite compact_rows_spec in E by lia. injection E as <- _. cbn [col_indices].
  rewrite <- (core_dead_sum s (fun l => Z.of_nat (length l))) by done.
  assert (forall l, (forall r, r ∈ l -> r ∈ alive_rows (row_alive s) n) ->
    Z.of_nat (length (concat (map (fun r => fin (map (vget 0 o2n) (row s r))) l))) = zsum (map (fun r => Z.of_nat (length (row s r))) l)) as Hl;
    [|by apply Hl].
  induction l as [|x l IH]; intros Hx; [done|]. rewrite !map_cons, zsum_cons. cbn [concat]. rewrite length_app, Nat2Z.inj_add.
  rewrite IH by (intros r Hr; apply Hx; by right). f_equal. f_equal.
  apply (new_row_spec (col_weight s) n nc (row_alive s) (row s) fin); [done| |done|apply Hx; by left].
  intros r [Hr _]%elem_of_alive_rows. split; [by eapply c_sorted|]. intros c. by apply core_kept.
Qed.

End core_facts.

(** ** Lemmas: the start of a pass *)

Lemma initial_weights_spec row n nc :
  0 <= n -> (forall r, 0 <= r < n -> Forall (fun c => 0 <= c < nc) (row r)) ->
  weights (initial_weights row n nc) nc (fun c => zsum_upto n (fun r => occ c (row r))).
Proof.
  intros Hn Hr. unfold initial_weights.
  apply (foldl_upto (fun m w => weights w nc (fun c => zsum_upto m (fun r => occ c (row r))))); [done| |].
  - split; [by rewrite length_replicate|]. intros c Hc. by rewrite vget_replicate by lia.
  - intros i w Hi Hw. eapply weights_ext; [apply weights_bump; [by apply Hr|exact Hw]|].
    intros c Hc. cbn beta. by rewrite zsum_upto_S by lia.
Qed.

(** The rows below [m] indexed. *)
Lemma initial_index_spec (row : Z -> list Z) n nc :
  0 <= n -> (forall r, 0 <= r < n -> sorted_row (row r) /\ Forall (fun c => 0 <= c < nc) (row r)) ->
  index_ok n nc (foldl (fun st r => index_row st r (row r)) (replicate (Z.to_nat nc) []) (upto n)) row.
Proof.
  intros Hn Hr.
  apply (foldl_upto (fun m st => index_ok m nc st row)); [done| |].
  - split; [by rewrite length_replicate|]. intros c Hc. rewrite vget_replicate by lia. split; [constructor|].
    intros r. rewrite elem_of_nil. lia.
  - intros i st Hi [Hl H]. destruct (Hr i Hi) as [Hs Hf]. split.
    + destruct (Z.lt_ge_cases 0 nc).
      * exact (proj1 (index_row_spec nc (row i) st i 0 Hl (sorted_row_NoDup _ Hs) Hf ltac:(lia))).
      * destruct (row i) as [|c l]; [done|]. apply Forall_cons in Hf as [? _]. lia.
    + intros c Hc. destruct (index_row_spec nc (row i) st i c Hl (sorted_row_NoDup _ Hs) Hf Hc) as [_ ->].
      destruct (H c Hc) as [Hd Hin]. assert (forall r, r ∈ (if decide (c ∈ row i) then [i] else []) <-> r = i /\ c ∈ row i) as E.
      { intros r. destruct (decide (c ∈ row i)); [rewrite list_elem_of_singleton|rewrite elem_of_nil]; tauto. }
      split.
      * apply NoDup_app. split; [done|]. split; [|destruct (decide _); [apply NoDup_singleton|constructor]].
        intros r Hr1 [-> _]%E. apply Hin in Hr1. lia.
      * intros r. rewrite elem_of_app, E, Hin. split; [intros [[? ?]|[-> ?]]; split; (done || lia)|].
        intros [Hr1 Hr2]. destruct (Z.eq_dec r i) as [->|]; [by right|left; split; [lia|done]].
Qed.

Lemma init_core m rm t N base g node_of0 :
  stage m rm t N base g -> length node_of0 = Z.to_nat (n_rows m) ->
  (forall r, 0 <= r < n_rows m -> vget 0 node_of0 r = idx rm r) ->
  core (num_leaves t) (n_rows m) (n_cols m) N base g (merging_init m node_of0 (internal_nodes t)).
Proof.
  intros H Hl Hno. destruct (sg_csr _ _ _ _ _ _ H) as [Hr Hc Hs]. set (s := merging_init _ _ _).
  assert (forall r, 0 <= r < n_rows m -> row s r = csr_row m r) as Erow by (intros r Hr'; by apply vget_map_upto).
  assert (forall r, 0 <= r < n_rows m -> sorted_row (row s r) /\ Forall (fun c => 0 <= c < n_cols m) (row s r)) as Hs'
    by (intros r Hr'; rewrite Erow by done; by apply Hs).
  assert (index_ok (n_rows m) (n_cols m) (col_rows s) (row s)) as [I1 I2] by (apply (initial_index_spec (row s)); [lia|done]).
  assert (forall r, 0 <= r < n_rows m -> alive s r = true) as Hal by (intros r Hr'; apply vget_replicate; lia).
  assert (alive_rows (row_alive s) (n_rows m) = upto (n_rows m)) as Eal.
  { apply List.forallb_filter_id, forallb_forall. intros r Hr'%list_elem_of_In%elem_of_upto. by apply Hal. }
  constructor; try done.
  - unfold s. cbn. by rewrite length_map, length_upto.
  - unfold s. cbn. by rewrite length_replicate.
  - intros r Hr' Hd. by rewrite Hal in Hd.
  - apply initial_weights_spec; [lia|]. intros r Hr'. by apply Hs'.
  - assert (tree_of (num_leaves t) s = t) as -> by by destruct t. rewrite Eal.
    pose proof (sg_faithful _ _ _ _ _ _ H) as Hf. rewrite <- (map_id (upto (n_rows m))) in Hf.
    eapply faithful_reindex; [exact Hf| |].
    + intros k Hk%elem_of_upto. by apply Hno.
    + intros k c Hk%elem_of_upto. cbn beta. by rewrite Erow.
Qed.

(** ** Lemmas: the rows of a column *)

Lemma index_count (row : Z -> list Z) n c L :
  0 <= n -> (forall r, 0 <= r < n -> sorted_row (row r)) -> NoDup L -> (forall r, r ∈ L <-> 0 <= r < n /\ c ∈ row r) ->
  Z.of_nat (length L) = zsum_upto n (fun r => occ c (row r)).
Proof.
  intros Hn Hs Hd HL. assert (L ≡ₚ List.filter (fun r => binary_search (row r) c) (upto n)) as ->.
  { apply NoDup_Permutation; [done|apply sorted_row_NoDup, filter_sorted, upto_sorted|].
    intros r. by rewrite HL, filter_true_In, elem_of_upto, binary_search_spec. }
  unfold zsum_upto. assert (forall l, (forall r, r ∈ l -> 0 <= r < n) ->
    Z.of_nat (length (List.filter (fun r => binary_search (row r) c) l)) = zsum (map (fun r => occ c (row r)) l)) as H;
    [|by apply H; intros r; rewrite elem_of_upto].
  induction l as [|x l IH]; intros Hl; [done|]. specialize (IH ltac:(intros r Hr; apply Hl; by right)).
  rewrite map_cons, zsum_cons, <- IH, (sorted_occ c (row x)) by (apply Hs, Hl; by left). cbn [List.filter].
  destruct (entry c (row x)) eqn:E.
  - rewrite (proj2 (binary_search_spec _ _)); [cbn [length]; lia|]. apply sorted_row_entry; [apply Hs, Hl; by left|done].
  - destruct (binary_search (row x) c) eqn:E2; [|lia]. apply binary_search_spec in E2.
    apply sorted_row_entry in E2; [congruence|apply Hs, Hl; by left].
Qed.

Lemma alive_rows_delete al n p :
  length al = Z.to_nat n -> 0 <= p < n -> vget false al p = true -> alive_rows al n ≡ₚ p :: alive_rows (vset al p false) n.
Proof.
  intros Hl Hp Ha. apply NoDup_Permutation.
  - apply sorted_row_NoDup, filter_sorted, upto_sorted.
  - constructor; [|apply sorted_row_NoDup, filter_sorted, upto_sorted].
    unfold alive_rows. rewrite filter_true_In, vget_vset_eq by lia. by intros [_ ?].
  - intros x. unfold alive_rows. rewrite elem_of_cons, !filter_true_In, elem_of_upto. destruct (Z.eq_dec x p) as [->|Hne].
    + rewrite vget_vset_eq by lia. tauto.
    + split; [intros [? ?]; right; rewrite vget_vset_ne by lia; by split|]. intros [?|[? Hx]]; [done|].
      rewrite vget_vset_ne in Hx by lia. by split.
Qed.

Section loops.
Context (nl n nc N : Z) (base : Z -> Z -> bool) (g : Z -> Z).
Context (Hn : 0 <= n < 2 ^ 32) (Hnc : 0 <= nc < 2 ^ 32) (Hnl : 0 <= nl).
Context (Hg : forall x y, 0 <= x < nc -> 0 <= y < nc -> g x = g y -> x = y).
Notation core := (core nl n nc N base g).

Notation n_alive := (n_alive n).
Notation w2_run := (w2_run nl n nc N base g).

Lemma containing_spec s c :
  core s -> 0 <= c < nc ->
  List.filter (vget false (row_alive s)) (vget [] (col_rows s) c) = vget [] (col_rows s) c /\
  Z.of_nat (length (vget [] (col_rows s) c)) = vget 0 (col_weight s) c /\
  NoDup (vget [] (col_rows s) c) /\
  forall r, r ∈ vget [] (col_rows s) c <-> (0 <= r < n /\ alive s r = true) /\ c ∈ row s r.
Proof.
  intros H Hc. destruct (c_index _ _ _ _ _ _ s H c Hc) as [Hd Hin].
  assert (forall r, 0 <= r < n -> c ∈ row s r -> alive s r = true) as Ha.
  { intros r Hr Hcr. destruct (alive s r) eqn:E; [done|]. rewrite (c_dead _ _ _ _ _ _ s H r Hr E) in Hcr.
    by apply elem_of_nil in Hcr. }
  split.
  - apply List.forallb_filter_id, forallb_forall. intros r Hr%list_elem_of_In. apply Hin in Hr as [Hr Hcr]. by apply Ha.
  - split; [|split; [done|intros r; rewrite Hin; split; [intros [? ?]; split; [split; [done|by apply Ha]|done]|tauto]]].
    rewrite (weight_exact nl n nc N base g Hn s c H Hc). apply index_count; [lia| |done|done].
    intros r Hr. by eapply c_sorted.
Qed.

(** A column of weight 2 is in exactly two rows. *)
Lemma two_alive_spec s c :
  core s -> 0 <= c < nc -> vget 0 (col_weight s) c = 2 ->
  exists r1 r2, two_alive s c = Some (r1, r2) /\ r1 <> r2 /\
    (0 <= r1 < n /\ alive s r1 = true) /\ (0 <= r2 < n /\ alive s r2 = true) /\ c ∈ row s r1 /\ c ∈ row s r2 /\
    forall x, 0 <= x < n -> x <> r1 -> x <> r2 -> c ∉ row s x.
Proof.
  intros H Hc Hw. destruct (containing_spec s c H Hc) as (Hf & Hl & Hd & Hin). unfold two_alive. rewrite Hf. clear Hf.
  rewrite Hw in Hl. destruct (vget [] (col_rows s) c) as [|r1 [|r2 [|r3 L]]]; cbn [length] in Hl; try lia.
  exists r1, r2. apply NoDup_cons in Hd as [Hd _].
  pose proof (proj1 (Hin r1) ltac:(by left)) as [H1 H1']. pose proof (proj1 (Hin r2) ltac:(right; by left)) as [H2 H2'].
  repeat split; try done; try apply H1; try apply H2.
  - intros ->. apply Hd. by left.
  - intros x Hx Hx1 Hx2 Hcx. assert (x ∈ [r1; r2]) as Hx'.
    { apply Hin. split; [|done]. split; [done|]. destruct (alive s x) eqn:E; [done|].
      rewrite (c_dead _ _ _ _ _ _ s H x Hx E) in Hcx. by apply elem_of_nil in Hcx. }
    rewrite !elem_of_cons, elem_of_nil in Hx'. naive_solver.
Qed.

Lemma n_alive_delete s al p :
  core s -> 0 <= p < n -> alive s p = true -> al = vset (row_alive s) p false ->
  Z.of_nat (length (alive_rows al n)) = n_alive s - 1.
Proof.
  intros H Hp Ha ->. unfold n_alive. rewrite (alive_rows_delete (row_alive s) n p) by (done || apply H). cbn [length]. lia.
Qed.

Lemma length_xor_rows a b : (length (xor_rows a b) <= length a + length b)%nat.
Proof.
  apply (xor_rows_ind (fun a b r => (length r <= length a + length b)%nat)); clear a b; intros; cbn [length] in *; lia.
Qed.

(** The columns that have weight 2 after a merge are among the old ones and the ones returned. *)
Lemma merge_pair_w2 s r1 r2 c :
  core s -> 0 <= r1 < n -> 0 <= r2 < n -> 0 <= c < nc ->
  vget 0 (col_weight (merge_pair nl r1 r2 s).1) c = 2 ->
  vget 0 (col_weight s) c = 2 /\ c ∉ row s r1 \/ c ∈ (merge_pair nl r1 r2 s).2.
Proof.
  intros H Hr1 Hr2 Hc Hw.
  destruct (decide (c ∈ row s r1 ++ row s r2 ++ xor_rows (row s r1) (row s r2))) as [Hi|Hi].
  { right. apply filter_true_In. split; [exact Hi|]. by apply Z.eqb_eq. }
  left. rewrite !not_elem_of_app in Hi. destruct Hi as (Hi1 & Hi2 & Hi3). split; [|done]. rewrite <- Hw.
  destruct (c_sorted _ _ _ _ _ _ s H r1 Hr1) as [_ F1]. destruct (c_sorted _ _ _ _ _ _ s H r2 Hr2) as [_ F2].
  pose proof (weights_bump _ nc _ _ (xor_rows_Forall _ _ _ F1 F2)
    (weights_drop _ nc _ _ F2 (weights_drop _ nc _ _ F1 (c_weights _ _ _ _ _ _ s H)))) as [_ Hw'].
  change (col_weight (merge_pair nl r1 r2 s).1) with
    (foldl bump (foldl drop1 (foldl drop1 (col_weight s) (row s r1)) (row s r2)) (xor_rows (row s r1) (row s r2))).
  rewrite Hw' by done. cbn beta. destruct (c_weights _ _ _ _ _ _ s H) as [_ ->]; [|done].
  assert (forall l, c ∉ l -> occ c l = 0) as Hz.
  { intros l Hl. pose proof (occ_nonneg c l). pose proof (occ_pos c l). destruct (Z.eq_dec (occ c l) 0); [done|]. exfalso. apply Hl, occ_pos. lia. }
  rewrite (Hz _ Hi1), (Hz _ Hi2), (Hz _ Hi3). f_equal. lia.
Qed.

Lemma merge_pair_nnz s r1 r2 :
  core s -> 0 <= r1 < n -> 0 <= r2 < n -> r1 <> r2 ->
  zsum_upto n (fun r => Z.of_nat (length (row (merge_pair nl r1 r2 s).1 r))) <= zsum_upto n (fun r => Z.of_nat (length (row s r))).
Proof.
  intros H Hr1 Hr2 Hne. pose proof (c_rows _ _ _ _ _ _ s H) as L.
  set (f1 := fun r => if r =? r1 then Z.of_nat (length (xor_rows (row s r1) (row s r2))) else Z.of_nat (length (row s r))).
  rewrite (zsum_upto_update n f1 _ r2 Hr2), (zsum_upto_update n (fun r => Z.of_nat (length (row s r))) f1 r1 Hr1).
  - unfold f1. rewrite Z.eqb_refl, (proj2 (Z.eqb_neq r2 r1)) by congruence.
    change (row (merge_pair nl r1 r2 s).1 r2) with (vget [] (vset (vset (rows s) r1 (xor_rows (row s r1) (row s r2))) r2 []) r2).
    rewrite vget_vset_eq by (rewrite length_vset; lia). cbn [length]. pose proof (length_xor_rows (row s r1) (row s r2)). lia.
  - intros i _ Hi. unfold f1. by rewrite (proj2 (Z.eqb_neq i r1) Hi).
  - intros i Hi Hi2. unfold f1.
    change (row (merge_pair nl r1 r2 s).1 i) with (vget [] (vset (vset (rows s) r1 (xor_rows (row s r1) (row s r2))) r2 []) i).
    rewrite vget_vset_ne by lia. destruct (Z.eqb_spec i r1) as [->|Hi1]; [by rewrite vget_vset_eq by lia|].
    by rewrite vget_vset_ne by lia.
Qed.

Lemma size_upto (X : gset Z) : (forall c, c ∈ X -> 0 <= c < nc) -> Z.of_nat (size X) <= nc.
Proof.
  intros HX. assert (X ⊆ list_to_set (upto nc)) as Hs by (intros c Hc; by apply elem_of_list_to_set, elem_of_upto, HX).
  apply subseteq_size in Hs. rewrite size_list_to_set, length_upto in Hs by apply NoDup_upto. lia.
Qed.

Lemma w2_front (X : gset Z) :
  match merge_sort Z.le (elements X) with
  | [] => X = ∅
  | c :: _ => c ∈ X /\ Z.of_nat (size (X ∖ {[c]})) = Z.of_nat (size X) - 1
  end.
Proof.
  pose proof (merge_sort_Permutation Z.le (elements X)) as Hp. destruct (merge_sort Z.le (elements X)) as [|c l].
  - apply Permutation_nil in Hp. apply set_eq. intros x. rewrite <- (elem_of_elements X), Hp. set_solver.
  - assert (c ∈ X) as Hc by (apply elem_of_elements; rewrite <- Hp; by left). split; [done|].
    rewrite size_difference by set_solver. rewrite size_singleton.
    assert (size X <> 0%nat) by (intros E%size_empty_inv; set_solver). lia.
Qed.

Lemma merge_pair_run s r1 r2 c :
  core s -> c ∈ row s r1 -> c ∈ row s r2 -> (forall x, 0 <= x < n -> x <> r1 -> x <> r2 -> c ∉ row s x) ->
  0 <= r1 < n -> 0 <= r2 < n -> r1 <> r2 -> alive s r1 = true -> alive s r2 = true ->
  nl + Z.of_nat (length (nodes s)) < 2 ^ 32 ->
  w2_run s (merge_pair nl r1 r2 s).1 /\ n_alive (merge_pair nl r1 r2 s).1 = n_alive s - 1 /\
  forall x, x ∈ (merge_pair nl r1 r2 s).2 -> 0 <= x < nc.
Proof.
  intros H Hc1 Hc2 Hcx Hr1 Hr2 Hne A1 A2 Hb.
  assert (n_alive (merge_pair nl r1 r2 s).1 = n_alive s - 1) as Ea by by apply (n_alive_delete s _ r2).
  split; [|split; [done|]].
  - split; [by apply (merge_pair_core nl n nc N base g Hnl Hg s r1 r2 c)|]. split; [|split; [by apply merge_pair_nnz|lia]].
    rewrite Ea. change (nodes (merge_pair nl r1 r2 s).1) with (nodes s ++ [(node s r1, node s r2)]).
    rewrite length_app. cbn [length]. lia.
  - intros x [Hx _]%filter_true_In.
    destruct (c_sorted _ _ _ _ _ _ s H r1 Hr1) as [_ F1]. destruct (c_sorted _ _ _ _ _ _ s H r2 Hr2) as [_ F2].
    assert (Forall (fun c => 0 <= c < nc) (row s r1 ++ row s r2 ++ xor_rows (row s r1) (row s r2))) as F.
    { rewrite !Forall_app. split; [done|]. split; [done|]. by apply xor_rows_Forall. }
    rewrite Forall_forall in F. by apply F.
Qed.

Lemma weight2_loop_spec fuel : forall (X : gset Z) s merges,
  core s -> (forall c, c ∈ X -> 0 <= c < nc) -> (forall c, 0 <= c < nc -> vget 0 (col_weight s) c = 2 -> c ∈ X) ->
  nl + Z.of_nat (length (nodes s)) + n_alive s <= 2 ^ 32 -> 0 <= merges -> merges + n_alive s < 2 ^ 32 ->
  Z.of_nat (size X) + n_alive s * (nc + 1) <= Z.of_nat fuel ->
  exists s', weight2_loop fuel nl X s merges = Some (s', merges + (n_alive s - n_alive s')) /\ w2_run s s' /\
    forall c, 0 <= c < nc -> vget 0 (col_weight s') c <> 2.
Proof.
  induction fuel as [|fuel IH]; intros X s merges H HX Hw2 Hb Hm0 Hm Hf; cbn [weight2_loop];
    pose proof (w2_front X) as Hfront; destruct (merge_sort Z.le (elements X)) as [|c l].
  - exists s. split; [do 2 f_equal; lia|]. split; [by split_and!|]. intros c Hc Hw. apply (Hw2 c Hc) in Hw. set_solver.
  - exfalso. destruct Hfront as [Hc _]. assert (size X <> 0%nat) by (intros E%size_empty_inv; set_solver).
    assert (0 <= n_alive s) by (unfold n_alive; lia). nia.
  - exists s. split; [do 2 f_equal; lia|]. split; [by split_and!|]. intros c Hc Hw. apply (Hw2 c Hc) in Hw. set_solver.
  - destruct Hfront as [HcX Hsize]. pose proof (HX c HcX) as Hc.
    destruct (Z.eqb_spec (vget 0 (col_weight s) c) 2) as [Hw|Hw]; cbn [negb].
    2:{ apply IH; [done|set_solver| |done|done|done|lia]. intros x Hx Hwx. pose proof (Hw2 x Hx Hwx).
        assert (x <> c) by congruence. set_solver. }
    destruct (two_alive_spec s c H Hc Hw) as (r1 & r2 & -> & Hne & [Hr1 A1] & [Hr2 A2] & Hc1 & Hc2 & Hcx).
    assert (2 <= n_alive s) as Hal.
    { unfold n_alive. rewrite (alive_rows_delete (row_alive s) n r1) by (done || apply H).
      rewrite (alive_rows_delete (vset (row_alive s) r1 false) n r2).
      - cbn [length]. lia.
      - rewrite length_vset. apply H.
      - done.
      - by rewrite vget_vset_ne by lia. }
    destruct (merge_pair_run s r1 r2 c) as [[H' [Hlen [Hnnz Hal']]] [Ea Hcs]]; [done..|lia|].
    pose proof (fun x Hx => merge_pair_w2 s r1 r2 x H Hr1 Hr2 Hx) as Hw'.
    destruct (merge_pair nl r1 r2 s) as [s' cs]. cbn [fst snd] in *.
    assert (forall x, x ∈ X ∖ {[c]} ∪ list_to_set cs -> 0 <= x < nc) as HX'.
    { intros x [Hx|Hx%elem_of_list_to_set]%elem_of_union; [apply HX; set_solver|by apply Hcs]. }
    rewrite wrap_small by (unfold in_width; lia).
    destruct (IH (X ∖ {[c]} ∪ list_to_set cs) s' (merges + 1)) as (s'' & -> & (R1 & R2 & R3 & R4) & R5).
    + done.
    + done.
    + intros x Hx Hwx. destruct (Hw' x Hx Hwx) as [[Hold Hnot]|Hin]; [|by apply elem_of_union_r, elem_of_list_to_set].
      pose proof (Hw2 x Hx Hold). assert (x <> c) by congruence. set_solver.
    + lia.
    + lia.
    + lia.
    + pose proof (size_upto _ HX'). nia.
    + exists s''. split; [do 2 f_equal; lia|]. split; [|done]. split; [done|]. split; [lia|]. split; lia.
Qed.

End loops.

(** ** Weight-2 merges *)

Section passes.
Context (N : Z) (base : Z -> Z -> bool).

Lemma mergeWeight2_spec fuel m rm g :
  stage m rm (mkTree (leaf_count rm) []) N base g -> nnz m < 2 ^ 32 -> leaf_count rm + n_rows m <= 2 ^ 32 ->
  (n_rows m + 1) * (n_cols m + 1) <= Z.of_nat fuel ->
  exists r g', mergeWeight2 fuel m rm = Some r /\ stage (reduced r) (mr_row_map r) (merge_tree r) N base g' /\
    num_leaves (merge_tree r) = leaf_count rm /\
    Z.of_nat (length (internal_nodes (merge_tree r))) = merges_performed r /\
    n_rows (reduced r) = n_rows m - merges_performed r /\ nnz (reduced r) <= nnz m /\
    forall j, 0 <= j < n_cols (reduced r) -> 0 < col_count (reduced r) j /\ col_count (reduced r) j <> 2.
Proof.
  intros H Hnnz Hb Hf. pose proof (sg_csr _ _ _ _ _ _ H) as [Hr Hc Hs]. pose proof (sg_inj _ _ _ _ _ _ H) as Hg.
  pose proof (f_tree _ _ _ _ _ _ (sg_faithful _ _ _ _ _ _ H)) as [Hnl _]. cbn [num_leaves] in Hnl. cbn zeta.
  unfold mergeWeight2. set (n := n_rows m) in *. set (nc := n_cols m) in *. set (nl := leaf_count rm) in *.
  set (no := map (vget 0 rm) (upto n)). set (s := merging_init m no []).
  assert (core nl n nc N base g s) as H0.
  { apply (init_core m rm (mkTree nl []) N base g no H); [unfold no; by rewrite length_map, length_upto|].
    intros r Hr'. by apply vget_map_upto. }
  set (X := list_to_set _).
  assert (forall c : Z, c ∈ X <-> 0 <= c < nc /\ vget 0 (col_weight s) c = 2) as HX.
  { intros c. unfold X. by rewrite elem_of_list_to_set, filter_true_In, elem_of_upto, Z.eqb_eq. }
  assert (n_alive n s = n) as Ha.
  { unfold n_alive. assert (alive_rows (row_alive s) n = upto n) as ->; [|rewrite length_upto; lia].
    apply List.forallb_filter_id, forallb_forall. intros r Hr'%list_elem_of_In%elem_of_upto. apply vget_replicate. fold n. lia. }
  pose proof (size_upto nc ltac:(lia) X ltac:(intros c Hc'; by apply HX)) as Hsize.
  destruct (weight2_loop_spec nl n nc N base g Hr Hc Hnl Hg fuel X s 0) as (s' & -> & (R1 & R2 & R3 & R4) & R5);
    [done|intros c; rewrite HX; tauto|intros c; rewrite HX; tauto|rewrite Ha; cbn; lia|lia|lia|rewrite Ha; nia|].
  destruct (rebuild (fun l => l) n nc s') as [csr rm'] eqn:Er.
  assert (zsum_upto n (fun r => Z.of_nat (length (row s r))) = nnz m) as En.
  { apply zsum_upto_ext. intros r Hr'. do 2 f_equal. by apply vget_map_upto. }
  destruct (rebuild_stage nl n nc N base g Hr Hc Hg s' _ csr rm' R1 harmless_id Er) as (g' & S1 & S2 & S3 & S4).
  { rewrite (rebuild_length nl n nc N base g Hr Hc s' _ csr rm' R1 harmless_id Er). lia. }
  eexists. exists g'. split; [reflexivity|]. cbn. split; [exact S1|]. split; [done|].
  rewrite Ha in *. change (length (nodes s)) with 0%nat in R2. fold (n_alive n s') in S3.
  split; [lia|]. split; [lia|]. split; [lia|].
  intros j Hj. destruct (S4 j Hj) as (c & Hc' & _ & -> & Hpos). split; [done|]. by apply R5.
Qed.

End passes.

(** ** Higher-weight merges *)

Lemma plan_rows_spec s pivot em rs plan :
  plan_rows s pivot em rs = Some plan -> plan = map (fun r => (r, xor_rows (row s pivot) (row s r))) rs.
Proof.
  revert plan. induction rs as [|r rs IH]; intros plan E; cbn [plan_rows] in E; [by injection E as <-|].
  destruct (em <? _); [done|]. destruct (plan_rows s pivot em rs) as [p|] eqn:Ep; [|done]. injection E as <-.
  cbn [map]. f_equal. by apply IH.
Qed.

Lemma lightest_range s containing :
  containing <> [] -> 0 <= lightest s containing < Z.of_nat (length containing).
Proof.
  intros Hne. unfold lightest. assert (0 < Z.of_nat (length containing)) by (destruct containing; [done|cbn [length]; lia]).
  assert (forall l p, 0 <= p < Z.of_nat (length containing) -> (forall i, i ∈ l -> 0 <= i < Z.of_nat (length containing)) ->
    0 <= foldl (lightest_step s containing) p l < Z.of_nat (length containing)) as H'.
  { induction l as [|i l IH]; intros p Hp Hl; [done|]. cbn [foldl]. apply IH; [|intros j Hj; apply Hl; by right].
    unfold lightest_step. destruct (_ <? _); [apply Hl; by left|done]. }
  apply H'; [lia|]. intros i (j & <- & Hj%list_elem_of_In%elem_of_upto)%list_elem_of_In%in_map_iff. lia.
Qed.

(** The pivot is taken out of the list of rows. *)
Lemma pivot_split l p :
  0 <= p < Z.of_nat (length l) -> l ≡ₚ idx l p :: (take (Z.to_nat p) l ++ drop (S (Z.to_nat p)) l).
Proof.
  intros Hp. destruct (lookup_lt_is_Some_2 l (Z.to_nat p)) as [x Hx]; [lia|].
  unfold idx. rewrite (nth_lookup_Some _ _ _ _ Hx). rewrite <- (take_drop_middle l _ x Hx) at 1.
  by rewrite Permutation_middle.
Qed.

Section higher.
Context (nl n nc N : Z) (base : Z -> Z -> bool) (g : Z -> Z) (k_max : Z).
Context (Hn : 0 <= n < 2 ^ 32) (Hnc : 0 <= nc < 2 ^ 32) (Hnl : 0 <= nl).
Context (Hg : forall x y, 0 <= x < nc -> 0 <= y < nc -> g x = g y -> x = y).
Notation core := (core nl n nc N base g).

Notation higher_inv := (higher_inv nl n nc N base g k_max).

Lemma commits_core c pivot rs : forall s,
  core s -> 0 <= pivot < n -> alive s pivot = true -> c ∈ row s pivot -> NoDup rs ->
  (forall r, r ∈ rs -> 0 <= r < n /\ r <> pivot /\ alive s r = true /\ c ∈ row s r) ->
  (forall x, 0 <= x < n -> x <> pivot -> x ∉ rs -> c ∉ row s x) ->
  nl + Z.of_nat (length (nodes s)) + Z.of_nat (length rs) <= 2 ^ 32 ->
  let s' := foldl (commit nl pivot) s (map (fun r => (r, xor_rows (row s pivot) (row s r))) rs) in
  core s' /\ row s' pivot = row s pivot /\ row_alive s' = row_alive s /\
  length (nodes s') = (length (nodes s) + length rs)%nat /\ forall x, 0 <= x < n -> x <> pivot -> c ∉ row s' x.
Proof.
  induction rs as [|r rs IH]; intros s H Hp Hap Hcp Hd Hrs Hx Hb; cbn [map foldl].
  { split; [done|]. split; [done|]. split; [done|]. split; [cbn; lia|]. intros x Hxn Hne. apply Hx; [done|done|apply not_elem_of_nil]. }
  destruct (Hrs r ltac:(by left)) as (Hr & Hrp & Har & Hcr). apply NoDup_cons in Hd as [Hrd Hd].
  set (s1 := commit nl pivot s (r, xor_rows (row s pivot) (row s r))). cbn [length] in Hb.
  assert (core s1) as H1 by (apply (commit_core nl n nc N base g Hnl); try done; lia).
  pose proof (c_rows _ _ _ _ _ _ s H) as L.
  assert (forall x, 0 <= x < n -> x <> r -> row s1 x = row s x) as E1 by (intros x Hxn Hne; apply vget_vset_ne; lia).
  assert (row s1 r = xor_rows (row s pivot) (row s r)) as E2 by (apply vget_vset_eq; lia).
  assert (map (fun r => (r, xor_rows (row s pivot) (row s r))) rs = map (fun r => (r, xor_rows (row s1 pivot) (row s1 r))) rs) as ->.
  { apply map_ext_in. intros x Hxr%list_elem_of_In. rewrite !E1; [done| | |done|congruence].
    - by apply Hrs; right.
    - by intros ->. }
  destruct (IH s1) as (I1 & I2 & I3 & I4 & I5); [done|done|done|by rewrite E1 by done|done| | | |].
  - intros x Hxr. destruct (Hrs x ltac:(by right)) as (? & ? & ? & ?). do 3 (split; [done|]).
    rewrite E1; [done|done|]. by intros ->.
  - intros x Hxn Hne Hxr. destruct (Z.eq_dec x r) as [->|Hxr'].
    + rewrite E2, <- sorted_row_entry, entry_xor_rows.
      * destruct (c_sorted _ _ _ _ _ _ s H r Hr) as [S1 _]. destruct (c_sorted _ _ _ _ _ _ s H pivot Hp) as [S2 _].
        by rewrite (proj2 (sorted_row_entry _ c S1) Hcr), (proj2 (sorted_row_entry _ c S2) Hcp).
      * apply xor_rows_sorted; by eapply c_sorted.
    + rewrite E1 by done. apply Hx; [done|done|]. by intros [?|?]%elem_of_cons.
  - change (nodes s1) with (nodes s ++ [(node s pivot, node s r)]). rewrite length_app. cbn [length]. lia.
  - split; [exact I1|]. split; [by rewrite I2, (E1 pivot Hp (not_eq_sym Hrp))|]. split; [exact I3|]. split; [|exact I5].
    rewrite I4. change (nodes s1) with (nodes s ++ [(node s pivot, node s r)]). rewrite length_app. cbn [length]. lia.
Qed.

Lemma eliminate_inv B em st c :
  nl + B <= 2 ^ 32 -> 0 <= c < nc -> higher_inv B st -> higher_inv B (eliminate nl k_max em st c).
Proof.
  destruct st as [[s e] rr]. intros HB Hc (H & -> & -> & Hnodes). assert (higher_inv B (s, n - n_alive n s, n - n_alive n s)) as Hsame by done.
  unfold eliminate. destruct (_ =? 0); [exact Hsame|]. destruct (Z.ltb_spec k_max (vget 0 (col_weight s) c)) as [|Hk]; [exact Hsame|].
  destruct (containing_spec nl n nc N base g Hn Hnc s c H Hc) as (-> & Hlen & Hd & Hin).
  set (L := vget [] (col_rows s) c) in *. destruct (Z.ltb_spec (Z.of_nat (length L)) 2) as [|H2]; [exact Hsame|].
  assert (L <> []) as HLne by (intros E; rewrite E in H2; cbn in H2; lia).
  pose proof (lightest_range s L HLne) as Hpi. set (pi := lightest s L) in *.
  pose proof (pivot_split L pi Hpi) as Hsplit. set (pivot := idx L pi) in *. set (others := take _ L ++ drop _ L) in *.
  destruct (plan_rows s pivot em others) as [plan|] eqn:Ep; [|exact Hsame]. apply plan_rows_spec in Ep.
  destruct plan as [|p plan]; [exact Hsame|]. rewrite Ep.
  assert (pivot ∈ L) as HpL by (rewrite Hsplit; by left). pose proof (proj1 (Hin pivot) HpL) as [[Hp Hap] Hcp].
  rewrite Hsplit in Hd. apply NoDup_cons in Hd as [Hpo Hdo].
  assert (Z.of_nat (length others) = vget 0 (col_weight s) c - 1) as Hlo by (rewrite <- Hlen, Hsplit; cbn [length]; lia).
  assert (1 <= n_alive n s) as Hal1.
  { unfold n_alive. rewrite (alive_rows_delete (row_alive s) n pivot) by (done || apply H). cbn [length]. lia. }
  destruct (commits_core c pivot others s) as (C1 & C2 & C3 & C4 & C5); [done|done|done|done|done| | | |].
  - intros r Hr. assert (r ∈ L) as HrL by (rewrite Hsplit; by right). apply Hin in HrL as [[Hr1 Hr2] Hr3].
    split; [done|]. split; [by intros ->|by split].
  - intros x Hx Hxp Hxo Hcx. apply Hxo. assert (x ∈ L) as HxL.
    { apply Hin. split; [|done]. split; [done|]. destruct (alive s x) eqn:E; [done|].
      rewrite (c_dead _ _ _ _ _ _ s H x Hx E) in Hcx. by apply elem_of_nil in Hcx. }
    rewrite Hsplit in HxL. by apply elem_of_cons in HxL as [?|?].
  - nia.
  - set (s1 := foldl _ s _) in *.
    assert (core (delete_row pivot s1)) as HD.
    { apply (delete_core nl n nc N base g Hg s1 pivot c); [done|done|unfold alive; by rewrite C3|by rewrite C2|done]. }
    assert (n_alive n (delete_row pivot s1) = n_alive n s - 1) as Ea
      by (apply (n_alive_delete nl n nc N base g s _ pivot); [done|done|done|cbn; by rewrite C3]).
    assert (n_alive n s <= n) as Han.
    { unfold n_alive, alive_rows. pose proof (List.filter_length_le (vget false (row_alive s)) (upto n)). rewrite length_upto in *. lia. }
    rewrite !wrap_small by (unfold in_width; lia). split; [done|]. rewrite Ea. split; [lia|]. split; [lia|].
    change (nodes (delete_row pivot s1)) with (nodes s1). rewrite C4. nia.
Qed.

Lemma weight_pass_inv B em st w :
  nl + B <= 2 ^ 32 -> higher_inv B st -> higher_inv B (weight_pass nl nc k_max em st w).
Proof.
  intros HB H. unfold weight_pass.
  assert (forall l st, (forall c, c ∈ l -> 0 <= c < nc) -> higher_inv B st -> higher_inv B (foldl (eliminate nl k_max em) st l)) as Hl.
  { induction l as [|c l IH]; intros st' Hc Hst; [done|]. cbn [foldl]. apply IH; [intros x Hx; apply Hc; by right|].
    apply eliminate_inv; [done|apply Hc; by left|done]. }
  apply Hl; [|done]. intros c [Hc _]%filter_true_In. by apply elem_of_upto.
Qed.

End higher.

Section higher_pass.
Context (N : Z) (base : Z -> Z -> bool).

Lemma mergeHigherWeight_spec input g k_max max_weight :
  stage (reduced input) (mr_row_map input) (merge_tree input) N base g ->
  let n := n_rows (reduced input) in
  num_leaves (merge_tree input) + Z.of_nat (length (internal_nodes (merge_tree input))) + Z.max 0 (k_max - 1) * n <= 2 ^ 32 ->
  let r := mergeHigherWeight input k_max max_weight in
  Z.of_nat (length (col_indices (reduced r))) < 2 ^ 32 ->
  exists g', stage (reduced r) (mr_row_map r) (merge_tree r) N base g' /\
    num_leaves (merge_tree r) = num_leaves (merge_tree input) /\
    merges_performed r = rows_removed r /\ n_rows (reduced r) = n - rows_removed r /\
    forall j, 0 <= j < n_cols (reduced r) -> 0 < col_count (reduced r) j.
Proof.
  intros H n HB. pose proof (sg_csr _ _ _ _ _ _ H) as [Hr Hc Hs]. pose proof (sg_inj _ _ _ _ _ _ H) as Hg.
  pose proof (f_tree _ _ _ _ _ _ (sg_faithful _ _ _ _ _ _ H)) as [Hnl _].
  unfold mergeHigherWeight. set (m := reduced input) in *. set (nc := n_cols m) in *. set (t := merge_tree input) in *.
  set (s := merging_init m _ _). set (em := effective_max _ _ _). set (nl := num_leaves t) in *. fold n.
  assert (core nl n nc N base g s) as H0
    by (apply (init_core m (mr_row_map input) t N base g); [done|apply H|done]).
  assert (n_alive n s = n) as Ha.
  { unfold n_alive. assert (alive_rows (row_alive s) n = upto n) as ->; [|rewrite length_upto; lia].
    apply List.forallb_filter_id, forallb_forall. intros r Hr'%list_elem_of_In%elem_of_upto. apply vget_replicate. fold n. lia. }
  set (B := Z.of_nat (length (internal_nodes t)) + Z.max 0 (k_max - 1) * n).
  assert (higher_inv nl n nc N base g k_max B (s, 0, 0)) as Hi
    by (split; [done|]; rewrite Ha; split; [lia|]; split; [lia|]; change (nodes s) with (internal_nodes t); lia).
  assert (forall l st, higher_inv nl n nc N base g k_max B st ->
    higher_inv nl n nc N base g k_max B (foldl (weight_pass nl nc k_max em) st l)) as Hl.
  { induction l as [|w l IH]; intros st Hst; [done|]. cbn [foldl]. apply IH, weight_pass_inv; done || lia. }
  specialize (Hl (map (fun w => w + 3) (upto (k_max - 2))) _ Hi). revert Hl.
  destruct (foldl _ _ _) as [[s' e] rr]. intros (R1 & -> & -> & _).
  destruct (rebuild (merge_sort Z.le) n nc s') as [csr rm'] eqn:Er. cbn. intros Hlen.
  destruct (rebuild_stage nl n nc N base g Hr Hc Hg s' _ csr rm' R1 harmless_sort Er Hlen) as (g' & S1 & _ & S3 & S4).
  exists g'. split; [exact S1|]. split; [done|]. split; [done|]. fold (n_alive n s') in S3. split; [lia|].
  intros j Hj. by destruct (S4 j Hj) as (c & _ & _ & -> & Hpos).
Qed.

End higher_pass.

(** ** Singleton removal *)

Section singletons.
Context (input : HostMatrixCSR) (Hok : csr_ok input).
Notation n := (n_rows input).
Notation nc := (n_cols input).

Notation base_of := (base_of input).
Notation alive_count := (alive_count input).
Notation no_singleton := (no_singleton input).
Notation count_alive := (count_alive input).
Notation sinv := (sinv input).
Notation sweep_post := (sweep_post input).

Lemma sinv_weight al w c : sinv al w -> 0 <= c < nc -> vget 0 w c = alive_count al c.
Proof.
  intros H Hc. destruct Hok as [Hr _ Hs]. destruct (si_weights _ _ _ H) as [_ ->]; [|done]. apply wrap_small. unfold in_width, alive_count.
  match goal with |- 0 <= zsum_upto _ ?F < _ => pose proof (zsum_upto_bounds n F 0 1 ltac:(lia)) as Hb; assert (n * 0 <= zsum_upto n F <= n * 1); [|lia] end.
  apply Hb. intros r Hr'. destruct (vget false al r); [|lia]. split; [apply occ_nonneg|]. by apply sorted_occ_le, Hs.
Qed.

Lemma count_alive_bound al : 0 <= count_alive al <= Z.max 0 n.
Proof.
  unfold count_alive, alive_rows. pose proof (List.filter_length_le (vget false al) (upto n)). rewrite length_upto in *. lia.
Qed.

(** A weight of 1 means that no other alive row has the column. *)
Lemma weight_one al w r c x :
  sinv al w -> 0 <= r < n -> vget false al r = true -> c ∈ csr_row input r -> vget 0 w c = 1 ->
  0 <= x < n -> vget false al x = true -> x <> r -> c ∉ csr_row input x.
Proof.
  intros H Hr Har Hc Hw Hx Hax Hne Hcx. destruct Hok as [Hn _ Hs]. destruct (Hs r Hr) as [_ Hf]. rewrite Forall_forall in Hf.
  rewrite (sinv_weight al w c H (Hf c Hc)) in Hw. unfold alive_count in Hw.
  set (F := fun r => if vget false al r then occ c (csr_row input r) else 0) in *.
  rewrite (zsum_upto_update n (fun y => if y =? r then 0 else F y) F r Hr) in Hw
    by (intros i _ Hi; by rewrite (proj2 (Z.eqb_neq i r) Hi)).
  rewrite Z.eqb_refl in Hw.
  pose proof (zsum_upto_ge n (fun y => if y =? r then 0 else F y) x Hx) as Hge. cbn beta in Hge.
  rewrite (proj2 (Z.eqb_neq x r) Hne) in Hge.
  assert (forall y, 0 <= F y) as HF by (intros y; unfold F; destruct (vget false al y); [apply occ_nonneg|lia]).
  specialize (Hge ltac:(intros y _; destruct (y =? r); [lia|apply HF])).
  assert (F r = occ c (csr_row input r)) as E1 by (unfold F; by rewrite Har).
  assert (F x = occ c (csr_row input x)) as E2 by (unfold F; by rewrite Hax).
  apply occ_pos in Hc. apply occ_pos in Hcx. lia.
Qed.

Lemma sinv_remove al w r c :
  sinv al w -> 0 <= r < n -> vget false al r = true -> c ∈ csr_row input r -> vget 0 w c = 1 ->
  sinv (vset al r false) (foldl drop1 w (csr_row input r)) /\ count_alive (vset al r false) = count_alive al - 1.
Proof.
  intros H Hr Har Hc Hw. pose proof Hok as [Hn _ Hs]. destruct (Hs r Hr) as [Hsr Hf]. pose proof (si_len _ _ _ H) as Hl.
  pose proof (alive_rows_delete al n r Hl Hr Har) as Hp. split; [|unfold count_alive; rewrite Hp; cbn [length]; lia].
  constructor; [by rewrite length_vset| |].
  - eapply weights_ext; [apply weights_drop; [exact Hf|by apply H]|]. intros x Hx. cbn beta. unfold alive_count.
    rewrite (zsum_upto_update n (fun y => if vget false al y then occ x (csr_row input y) else 0)
      (fun y => if vget false (vset al r false) y then occ x (csr_row input y) else 0) r Hr).
    + cbn beta. rewrite Har, vget_vset_eq by lia. lia.
    + intros i Hi Hne. by rewrite vget_vset_ne by lia.
  - apply (faithful_delete _ _ _ _ _ _ _ r c (si_faithful _ _ _ H) Hp).
    + by apply sorted_row_entry.
    + intros x Hx Hne. apply filter_true_In in Hx as [Hx%elem_of_upto Hax]. apply entry_not_in. by apply (weight_one al w r).
Qed.

Lemma sweep_spec al0 w0 : sinv al0 w0 -> sweep_post al0 w0 n (sweep input al0 w0).
Proof.
  intros H0. pose proof Hok as [Hn _ Hs]. unfold sweep.
  apply (foldl_upto (sweep_post al0 w0)); [lia|split; [done|]; split; [lia|]; split; [lia|]; intros _; split; [done|]; split; [done|]; intros r Hr; lia|].
  intros r [[al w] removed] Hr (H & Er & Hge & Hz). unfold sweep_row.
  destruct (vget false al r) eqn:Har; cbn [negb].
  2:{ split; [done|]. split; [done|]. split; [done|]. intros E. destruct (Hz E) as (-> & -> & Hns). split; [done|]. split; [done|].
      intros x Hx. destruct (Z.eq_dec x r) as [->|]; [|apply Hns; lia]. intros Hx'. congruence. }
  destruct (existsb _ _) eqn:Ex.
  - apply existsb_exists in Ex as (c & Hc%list_elem_of_In & Hw%Z.eqb_eq).
    destruct (sinv_remove al w r c H Hr Har Hc Hw) as [H' Ec].
    pose proof (count_alive_bound al0). pose proof (count_alive_bound (vset al r false)).
    rewrite wrap_small by (unfold in_width; lia).
    split; [done|]. split; [lia|]. split; [lia|]. lia.
  - split; [done|]. split; [done|]. split; [done|]. intros E. destruct (Hz E) as (-> & -> & Hns). split; [done|]. split; [done|].
    intros x Hx. destruct (Z.eq_dec x r) as [->|]; [|apply Hns; lia]. intros _ c Hc Hw.
    assert (existsb (fun c => vget 0 w0 c =? 1) (csr_row input r) = true) as Ex'; [|congruence].
    apply existsb_exists. exists c. split; [by apply list_elem_of_In|by apply Z.eqb_eq].
Qed.

Lemma sweeps_spec k : forall al w total it,
  sinv al w -> total = n - count_alive al ->
  let '(al', w', total', it') := sweeps k input al w total it in
  sinv al' w' /\ total' = n - count_alive al' /\ it <= it' <= it + Z.of_nat k /\
  (it' < it + Z.of_nat k -> forall r, 0 <= r < n -> no_singleton al' w' r).
Proof.
  pose proof Hok as [Hn _ _].
  induction k as [|k IH]; intros al w total it H ->; cbn [sweeps]; [split; [done|]; split; [done|]; split; [lia|lia]|].
  pose proof (sweep_spec al w H) as Hsw. destruct (sweep input al w) as [[al' w'] removed]. destruct Hsw as (H' & Er & Hge & Hz).
  pose proof (count_alive_bound al). pose proof (count_alive_bound al').
  rewrite wrap_small by (unfold in_width; lia).
  destruct (Z.eqb_spec removed 0) as [E|E].
  - destruct (Hz E) as (-> & -> & Hns). split; [done|]. split; [lia|]. split; [lia|]. by intros _.
  - specialize (IH al' w' (n - count_alive al + removed) (it + 1) H' ltac:(lia)).
    destruct (sweeps k input al' w' _ _) as [[[al2 w2] total2] it2]. destruct IH as (I1 & I2 & I3 & I4).
    split; [done|]. split; [done|]. split; [lia|]. intros Hlt. apply I4. lia.
Qed.

Lemma leaf_only N i ls : 0 <= i < N -> leaves_of (mkTree N []) i ls -> ls = [i].
Proof. intros Hi H. inversion H as [? ? E|]; [done|]. cbn in *. lia. Qed.

Lemma combine_leaves l N sel lv leaf :
  NoDup l -> (forall r, r ∈ l -> 0 <= r < N) -> leaves_at (mkTree N []) l (fun r => r) lv ->
  combine l sel lv leaf = (if decide (leaf ∈ l) then sel leaf else false).
Proof.
  intros Hd Hr Hlv. assert (forall r, r ∈ l -> lv r = [r]) as E by (intros r Hrl; apply (leaf_only N); [by apply Hr|by apply Hlv]).
  unfold combine. rewrite (xsum_ext _ (fun r => (r =? leaf) && sel leaf)).
  - destruct (decide (leaf ∈ l)); [by apply xsum_at|]. apply xsum_false. intros r Hrl.
    destruct (Z.eqb_spec r leaf) as [->|]; done.
  - intros r Hrl. rewrite (E r Hrl). cbn. destruct (Z.eqb_spec r leaf) as [->|]; [by rewrite andb_true_r|]. by rewrite andb_false_r.
Qed.

Lemma faithful_all : faithful (mkTree n []) n base_of (upto n) (fun r => r) (csr_row input).
Proof.
  destruct Hok as [Hn _ _].
  assert (forall sel lv leaf, leaves_at (mkTree n []) (upto n) (fun r => r) lv ->
    combine (upto n) sel lv leaf = if decide (leaf ∈ upto n) then sel leaf else false) as Hc.
  { intros sel lv leaf. apply combine_leaves; [apply NoDup_upto|]. intros r. by rewrite elem_of_upto. }
  constructor; [apply NoDup_upto|split; [cbn; lia|by intros k l r Hk]|cbn; lia|intros r Hr%elem_of_upto; unfold node_ok; cbn; lia| | |].
  - intros r ls c Hr%elem_of_upto Hl. rewrite (leaf_only n r ls Hr Hl). cbn. by rewrite xorb_false_r.
  - intros sel lv Hlv Hz r Hr. specialize (Hz r). rewrite Hc in Hz by done. by rewrite decide_True in Hz.
  - intros S lv [HS _] Hlv. exists S. intros leaf. rewrite Hc by done. destruct (decide (leaf ∈ upto n)) as [|Hl]; [done|].
    destruct (S leaf) eqn:E; [|done]. exfalso. by apply Hl, elem_of_upto, HS.
Qed.

Lemma sinv_initial :
  sinv (replicate (Z.to_nat n) true) (initial_weights (csr_row input) n nc) /\ count_alive (replicate (Z.to_nat n) true) = n.
Proof.
  destruct Hok as [Hn Hc Hs].
  assert (forall r, 0 <= r < n -> vget false (replicate (Z.to_nat n) true) r = true) as Ha by (intros r Hr; apply vget_replicate; lia).
  assert (alive_rows (replicate (Z.to_nat n) true) n = upto n) as Eal.
  { apply List.forallb_filter_id, forallb_forall. intros r Hr%list_elem_of_In%elem_of_upto. by apply Ha. }
  split; [|unfold count_alive; rewrite Eal, length_upto; lia]. constructor.
  - apply length_replicate.
  - eapply weights_ext; [apply initial_weights_spec; [lia|]; intros r Hr; by apply Hs|]. intros c _. cbn beta.
    apply zsum_upto_ext. intros r Hr. by rewrite Ha.
  - rewrite Eal. apply faithful_all.
Qed.

Lemma alive_count_rows al c : zsum (map (fun r => occ c (csr_row input r)) (alive_rows al n)) = alive_count al c.
Proof.
  destruct Hok as [Hn _ _]. unfold alive_count. rewrite <- (zsum_alive al n (fun r => if vget false al r then occ c (csr_row input r) else 0)).
  - f_equal. apply map_ext_in. intros r Hr%list_elem_of_In. apply filter_true_In in Hr as [_ Hr]. by rewrite Hr.
  - lia.
  - intros r _ Hr. by rewrite Hr.
Qed.

(** What is left after singleton removal. *)
Lemma removeSingletons_spec (r := removeSingletons input) :
  nnz input < 2 ^ 32 ->
  stage (sr_reduced r) (sr_row_map r) (mkTree n []) n base_of (idx (sr_col_map r)) /\
  (n_rows (sr_reduced r) = n - sr_rows_removed r /\ n_cols (sr_reduced r) = nc - sr_cols_removed r /\
    0 <= sr_rows_removed r /\ 0 <= sr_cols_removed r) /\
  (forall k, 0 <= k < n_rows (sr_reduced r) -> 0 <= idx (sr_row_map r) k < n /\
    map (idx (sr_col_map r)) (csr_row (sr_reduced r) k) ≡ₚ csr_row input (idx (sr_row_map r) k)) /\
  (sorted_row (sr_row_map r) /\ sorted_row (sr_col_map r)) /\
  nnz (sr_reduced r) <= nnz input /\ 0 <= sr_iterations r <= 100 /\
  forall j, 0 <= j < n_cols (sr_reduced r) ->
    1 <= col_count (sr_reduced r) j /\ (sr_iterations r < 100 -> 2 <= col_count (sr_reduced r) j).
Proof.
  intros Hnnz. pose proof Hok as [Hn Hc Hs]. unfold r, removeSingletons. destruct sinv_initial as [H0 E0].
  pose proof (sweeps_spec kMaxSingletonIterations _ _ 0 0 H0 ltac:(lia)) as Hsw. revert Hsw.
  destruct (sweeps _ _ _ _ _ _) as [[[al w] total] it]. intros (H & -> & Hit & Hns).
  change (Z.of_nat kMaxSingletonIterations) with 100 in *.
  destruct (compact_cols w nc) as [[o2n cm] cnt] eqn:Ec. destruct (compact_rows _ _ _ _ _ _) as [[offsets cols] rm] eqn:Er.
  cbn [sr_reduced sr_row_map sr_col_map sr_iterations sr_rows_removed sr_cols_removed].
  assert (forall r, r ∈ alive_rows al n -> 0 <= r < n /\ vget false al r = true) as Hal
    by (intros x [Hx%elem_of_upto Hx']%filter_true_In; done).
  assert (forall r, r ∈ alive_rows al n -> sorted_row (csr_row input r) /\ forall c, c ∈ csr_row input r -> c ∈ kept w nc) as Hrow.
  { intros x Hx. destruct (Hal x Hx) as [Hxn Hxa]. destruct (Hs x Hxn) as [S1 S2]. split; [done|]. intros c Hcx.
    rewrite Forall_forall in S2. apply kept_spec. split; [by apply S2|]. rewrite (sinv_weight al w c H) by by apply S2.
    pose proof (zsum_upto_ge n (fun y => if vget false al y then occ c (csr_row input y) else 0) x Hxn) as Hge. cbn beta in Hge.
    rewrite Hxa in Hge. apply occ_pos in Hcx.
    specialize (Hge ltac:(intros y _; destruct (vget false al y); [apply occ_nonneg|lia])). unfold alive_count. lia. }
  assert (zsum (map (fun r => Z.of_nat (length (csr_row input r))) (alive_rows al n)) <= nnz input) as Hle.
  { unfold nnz, zsum_upto, alive_rows. induction (upto n) as [|x l IH]; [done|]. cbn [List.filter].
    destruct (vget false al x); rewrite ?map_cons, ?zsum_cons; lia. }
  destruct (compact_cols_spec w nc Hc) as (o2n' & Ec' & Ho). pose proof Ec as Ec2. rewrite Ec' in Ec2. injection Ec2 as <- <- <-.
  assert (Z.of_nat (length cols) = zsum (map (fun r => Z.of_nat (length (csr_row input r))) (alive_rows al n))) as Elen.
  { pose proof Er as Er2. rewrite compact_rows_spec in Er2 by lia. injection Er2 as _ <- _. clear.
    induction (alive_rows al n) as [|x l IH]; [done|]. rewrite !map_cons, zsum_cons. cbn [concat]. rewrite length_app, length_map. lia. }
  destruct (compact_stage w n nc al (csr_row input) (fun r => r) (fun l => l) Hn Hc harmless_id Hrow (mkTree n []) n base_of (fun c => c)
    ltac:(done)) with (offsets := offsets) (cols := cols) (rm := rm) (o2n := o2n') (cm := kept w nc) (cnt := Z.of_nat (length (kept w nc)))
    as (_ & Hlen & Hcp); [|done|done|lia|].
  { pose proof (si_faithful _ _ _ H) as Hf. rewrite <- (map_id (alive_rows al n)) in Hf.
    eapply faithful_reindex; [exact Hf|done|]. intros k c _. cbn beta. by rewrite map_id. }
  pose proof (count_alive_bound al) as Hb. assert (n - (n - count_alive al) = count_alive al) as E by lia.
  rewrite E, !wrap_small; try (unfold in_width; lia).
  2:{ unfold in_width, kept. pose proof (List.filter_length_le (fun c => 0 <? vget 0 w c) (upto nc)). rewrite length_upto in *. lia. }
  fold (count_alive al) in Hcp. pose proof (cp_stage _ _ _ _ _ _ _ _ _ _ _ _ Hcp) as Hst.
  split; [exact Hst|]. cbn [n_rows n_cols].
  assert (length (kept w nc) <= Z.to_nat nc)%nat
    by (unfold kept; rewrite List.filter_length_le; by rewrite length_upto).
  split; [lia|].
  assert (forall k, 0 <= k < count_alive al -> exists x, alive_rows al n !! Z.to_nat k = Some x) as Hx
    by (intros k Hk; apply lookup_lt_is_Some_2; unfold count_alive in Hk; lia).
  assert (rm = alive_rows al n) as ->.
  { rewrite compact_rows_spec in Er by lia. injection Er as _ _ <-. apply map_id. }
  split; [|split; [split; [apply filter_sorted, upto_sorted|apply kept_sorted]|split; [|split; [lia|]]]].
  - intros k Hk. destruct (Hx k Hk) as [x Hx']. destruct (cp_row _ _ _ _ _ _ _ _ _ _ _ _ Hcp _ _ Hx') as [E1 E2].
    rewrite Z2Nat.id in E1, E2 by lia. rewrite E1. split; [|done]. by apply Hal, (list_elem_of_lookup_2 _ _ _ Hx').
  - by rewrite (compacted_nnz _ _ _ _ _ _ _ _ _ _ _ _ Hcp).
  - intros j Hj. rewrite (compacted_count _ _ _ _ _ _ _ _ _ _ _ _ Hcp j) by done. rewrite alive_count_rows.
    destruct (lookup_lt_is_Some_2 (kept w nc) (Z.to_nat j)) as [c Hc']; [lia|].
    assert (idx (kept w nc) j = c) as -> by (unfold idx; by apply nth_lookup_Some).
    apply list_elem_of_lookup_2, kept_spec in Hc' as [Hcr Hpos]. pose proof (sinv_weight al w c H Hcr) as Ew.
    split; [lia|]. intros Hlt. specialize (Hns ltac:(lia)).
    enough (vget 0 w c <> 1) by lia. intros Hw.
    (* some alive row has the column *)
    assert (exists x, 0 <= x < n /\ vget false al x = true /\ c ∈ csr_row input x) as (x & Hxn & Hxa & Hxc).
    { destruct (decide (Exists (fun x => vget false al x = true /\ c ∈ csr_row input x) (upto n))) as [He|He].
      - apply Exists_exists in He as (x & Hxn%elem_of_upto & ? & ?). by exists x.
      - exfalso. rewrite Ew in Hpos. unfold alive_count in Hpos. rewrite (zsum_upto_ext n _ (fun _ => 0)) in Hpos.
        + pose proof (zsum_upto_bounds n (fun _ => 0) 0 0 ltac:(lia) ltac:(intros; lia)). lia.
        + intros x Hxn. destruct (vget false al x) eqn:Exa; [|done].
          destruct (Z.eq_dec (occ c (csr_row input x)) 0); [done|]. exfalso. apply He, Exists_exists. exists x.
          rewrite elem_of_upto. split; [done|]. split; [done|]. apply occ_pos. pose proof (occ_nonneg c (csr_row input x)). lia. }
    by apply (Hns x Hxn Hxa c Hxc).
Qed.

End singletons.
