(* ===== verification/Preprocess.v ===== *)
(** The driver of the matrix preprocessing, [src/src/matrix/preprocess.cpp] on its CPU
    path, composed of the three passes of [merge_filter.cpp]; and what it means for the
    square root step: kernel vectors of the reduced matrix and dependencies among the
    original relations correspond. *)
From Stdlib Require Import ZArith Lia Sorted.
From stdpp Require Import base gmap sets list sorting.
From S2P Require Import Prelude Soa Gf2 RowOps MergeFilter MergeStages.
#[local] Open Scope Z_scope.

Record PreprocessResult := mkPreprocess {
  pr_reduced : HostMatrixCSR;
  pr_row_map : list Z;
  pr_merge_tree : MergeTree;
  singletons_removed : Z;
  singleton_iterations : Z;
  w2_merges : Z;
  hw_merges : Z
}.

Inductive MatrixBackend := BackendCPU | BackendGPU | BackendAUTO.

(** [resolveBackend]; [device_count] is what [cudaGetDeviceCount] reports. *)
Definition resolveBackend (device_count : Z) (requested : MatrixBackend) (n_rows : Z) : MatrixBackend :=
  match requested with
  | BackendCPU => BackendCPU
  | _ =>
      if device_count =? 0 then BackendCPU
      else
        match requested with
        | BackendGPU => BackendGPU
        | _ => if 10000 <? n_rows then BackendGPU else BackendCPU
        end
  end.

(** [preprocessMatrix] when the backend resolves to the CPU; [None]: out of fuel. *)
Definition preprocessMatrix_cpu (fuel : nat) (expanded : HostMatrixCSR) (k_max max_weight : Z) : option PreprocessResult :=
  let sr := removeSingletons expanded in
  match mergeWeight2 fuel (sr_reduced sr) (sr_row_map sr) with
  | None => None
  | Some w2 =>
      let hw := mergeHigherWeight w2 k_max max_weight in
      Some (mkPreprocess (reduced hw) (mr_row_map hw) (merge_tree hw) (sr_rows_removed sr) (sr_iterations sr)
              (merges_performed w2) (merges_performed hw))
  end.

(** ** Vocabulary of the specifications *)

(** The selected rows of the matrix sum to zero. *)
Definition kernel_vector (m : HostMatrixCSR) (packed_bits : list Z) : Prop :=
  forall j, xsum (fun k => kbit packed_bits k && entry j (csr_row m k)) (upto (n_rows m)) = false.

(** A sorted set of relations whose rows sum to zero in every column. *)
Definition relation_set (m : HostMatrixCSR) (rels : list Z) : Prop :=
  sorted_row rels /\ Forall (fun i => 0 <= i < n_rows m) rels /\
  forall c, xsum (fun i => entry c (csr_row m i)) rels = false.

(** What the preprocessing assumes of its input: 32-bit offsets, and nodes that fit in 32 bits. *)
Record preprocessable (m : HostMatrixCSR) (k_max : Z) : Prop := mkPreprocessable {
  pp_csr : csr_ok m;
  pp_nnz : nnz m < 2 ^ 32;
  pp_nodes : n_rows m * (2 + Z.max 0 (k_max - 1)) <= 2 ^ 32
}.

(** Enough iterations for the weight-2 loop. *)
Definition enough_fuel (m : HostMatrixCSR) (fuel : nat) : Prop := (n_rows m + 1) * (n_cols m + 1) <= Z.of_nat fuel.

(** A 64-bit packed vector with the given bits. *)
Definition pack_word (sel : Z -> bool) (w : Z) : Z :=
  foldr (fun j acc => Z.lor (if sel (64 * w + j) then Z.shiftl 1 j else 0) acc) 0 (upto 64).
Definition pack_bits (n : Z) (sel : Z -> bool) : list Z := map (pack_word sel) (upto ((n + 63) / 64)).

(** The test behind [csr_ok]. *)
Definition csr_okb (m : HostMatrixCSR) : bool :=
  (0 <=? n_rows m) && (n_rows m <? 2 ^ 32) && (0 <=? n_cols m) && (n_cols m <? 2 ^ 32) &&
  forallb (fun r => bool_decide (StronglySorted Z.lt (csr_row m r)) && forallb (fun c => (0 <=? c) && (c <? n_cols m)) (csr_row m r))
    (upto (n_rows m)).

(** ** Vocabulary of the specifications *)

(** A matrix that goes through all three passes: relation 7 has a singleton column. *)
Definition demo : HostMatrixCSR := csr_of [[0; 1]; [0; 1; 2]; [1; 2]; [0; 2]; [0; 1; 3]; [3; 4]; [0; 4]; [5]] 6.

(** ** Lemmas *)

Lemma csr_okb_ok m : csr_okb m = true -> csr_ok m.
Proof.
  unfold csr_okb. rewrite !andb_true_iff, forallb_forall. intros ((((H1 & H2) & H3) & H4) & H5).
  constructor; [lia|lia|]. intros r Hr. specialize (H5 r ltac:(by apply list_elem_of_In, elem_of_upto)).
  rewrite andb_true_iff, forallb_forall in H5. destruct H5 as [H5%bool_decide_eq_true H6]. split; [done|].
  apply Forall_forall. intros c Hc%list_elem_of_In. specialize (H6 c Hc). lia.
Qed.

Lemma testbit_pack_word sel w b : 0 <= b < 64 -> Z.testbit (pack_word sel w) b = sel (64 * w + b).
Proof.
  intros Hb. unfold pack_word. assert (forall l, NoDup l -> (forall j, j ∈ l -> 0 <= j) ->
    Z.testbit (foldr (fun j acc => Z.lor (if sel (64 * w + j) then Z.shiftl 1 j else 0) acc) 0 l) b
    = if decide (b ∈ l) then sel (64 * w + b) else false) as H.
  { induction l as [|x l IH]; intros Hd Hl; [by rewrite Z.testbit_0_l|]. apply NoDup_cons in Hd as [Hx Hd].
    cbn [foldr]. rewrite Z.lor_spec, IH; [|done|intros j Hj; apply Hl; by right].
    assert (Z.testbit (if sel (64 * w + x) then Z.shiftl 1 x else 0) b = (x =? b) && sel (64 * w + x)) as ->.
    { destruct (sel (64 * w + x)); [|by rewrite Z.testbit_0_l, andb_false_r].
      rewrite Z.shiftl_mul_pow2, Z.mul_1_l, Z.pow2_bits_eqb by (apply Hl; by left). by rewrite andb_true_r. }
    destruct (Z.eqb_spec x b) as [->|Hne].
    - rewrite (decide_True (P := b ∈ b :: l)), (decide_False (P := b ∈ l)) by (done || by left). by rewrite orb_false_r.
    - cbn [andb orb]. apply decide_ext. rewrite elem_of_cons. naive_solver. }
  rewrite H; [|apply NoDup_upto|intros j Hj%elem_of_upto; lia]. by rewrite decide_True by by apply elem_of_upto.
Qed.

Lemma kbit_pack_bits n sel k : 0 <= k < n -> kbit (pack_bits n sel) k = sel k.
Proof.
  intros Hk. unfold kbit, pack_bits, idx. pose proof (Z.div_mod k 64 ltac:(lia)). pose proof (Z.mod_pos_bound k 64 ltac:(lia)).
  assert (0 <= k / 64 < (n + 63) / 64) as Hw.
  { split; [apply Z.div_pos; lia|]. apply Z.div_lt_upper_bound; [lia|].
    pose proof (Z.div_mod (n + 63) 64 ltac:(lia)). pose proof (Z.mod_pos_bound (n + 63) 64 ltac:(lia)). lia. }
  change (nth (Z.to_nat (k / 64))) with (fun l d => vget (A := Z) d l (k / 64)). cbn beta.
  rewrite vget_map_upto, testbit_pack_word by done. f_equal. lia.
Qed.

Lemma sorted_row_ext l1 l2 : sorted_row l1 -> sorted_row l2 -> (forall x, entry x l1 = entry x l2) -> l1 = l2.
Proof.
  intros H1 H2 E. assert (AntiSymm (=) Z.lt) by (intros x y ? ?; lia).
  apply (StronglySorted_unique Z.lt); [done|done|].
  apply NoDup_Permutation; [by apply sorted_row_NoDup|by apply sorted_row_NoDup|].
  intros x. by rewrite <- !sorted_row_entry, E.
Qed.

Lemma max_element_le l B : 0 <= B -> (forall x, x ∈ l -> x <= B) -> 0 <= max_element l <= B.
Proof.
  intros HB. induction l as [|x l IH]; intros Hl; [cbn; lia|]. unfold max_element in *. cbn [foldr].
  specialize (IH ltac:(intros y Hy; apply Hl; by right)). pose proof (Hl x ltac:(by left)). lia.
Qed.

Lemma max_element_ge l x : x ∈ l -> x <= max_element l.
Proof.
  induction l as [|y l IH]; [by intros ?%elem_of_nil|]. intros [->|Hx]%elem_of_cons; unfold max_element in *; cbn [foldr]; [lia|].
  specialize (IH Hx). lia.
Qed.

Lemma leaf_count_spec rm N :
  0 <= N < 2 ^ 32 -> Forall (fun x => 0 <= x < N) rm ->
  0 <= leaf_count rm <= N /\ forall x, x ∈ rm -> 0 <= x < leaf_count rm.
Proof.
  intros HN Hf. unfold leaf_count. destruct rm as [|y rm]; [split; [lia|intros x ?%elem_of_nil; done]|].
  rewrite Forall_forall in Hf. pose proof (Hf y ltac:(by left)) as Hy. cbn beta in Hy.
  destruct (max_element_le (y :: rm) (N - 1)) as [H1 H2]; [lia|intros x Hx; pose proof (Hf x Hx) as Hx'; cbn beta in Hx'; lia|].
  rewrite wrap_small by (unfold in_width; lia). split; [lia|]. intros x Hx. pose proof (max_element_ge _ _ Hx).
  pose proof (Hf x Hx) as Hx'. cbn beta in Hx'. lia.
Qed.

(** Rows that are leaves do not care how many leaves there are. *)
Lemma faithful_fewer_leaves nl N base l node R :
  faithful (mkTree N []) N base l node R -> 0 <= nl <= N -> (forall r, r ∈ l -> 0 <= node r < nl) ->
  faithful (mkTree nl []) N base l node R.
Proof.
  intros H Hnl Hr.
  assert (forall i ls, 0 <= i < nl -> leaves_of (mkTree nl []) i ls <-> leaves_of (mkTree N []) i ls) as E.
  { intros i ls Hi. split; intros Hl.
    - rewrite (leaf_only nl i ls Hi Hl). apply leaf_self. cbn. lia.
    - rewrite (leaf_only N i ls ltac:(lia) Hl). by apply leaf_self. }
  assert (forall lv, leaves_at (mkTree nl []) l node lv -> leaves_at (mkTree N []) l node lv) as El
    by (intros lv Hlv r Hrl; apply E; [by apply Hr|by apply Hlv]).
  constructor.
  - by eapply f_nodup.
  - split; [cbn; lia|]. by intros k a b Hk.
  - cbn. lia.
  - intros r Hrl. unfold node_ok. cbn. specialize (Hr r Hrl). lia.
  - intros r ls c Hrl Hl. apply (f_comb _ _ _ _ _ _ H); [done|]. apply E; [by apply Hr|done].
  - intros sel lv Hlv. by apply (f_indep _ _ _ _ _ _ H), El.
  - intros S lv HS Hlv. by apply (f_complete _ _ _ _ _ _ H), El.
Qed.

(** ** The pipeline *)

Section pipeline.
Context (input : HostMatrixCSR) (k_max max_weight : Z) (fuel : nat).
Context (Hpre : preprocessable input k_max) (Hfuel : enough_fuel input fuel).
Notation N := (n_rows input).

Notation sr := (removeSingletons input).

(** The matrix without singletons, as the weight-2 pass receives it. *)
Lemma singleton_stage :
  stage (sr_reduced sr) (sr_row_map sr) (mkTree (leaf_count (sr_row_map sr)) []) N (base_of input) (idx (sr_col_map sr)) /\
  0 <= leaf_count (sr_row_map sr) <= N.
Proof.
  destruct Hpre as [Hok Hnnz _]. destruct (removeSingletons_spec input Hok Hnnz) as (S1 & _ & S4 & _).
  pose proof (sg_csr _ _ _ _ _ _ S1) as [Hr _ _]. pose proof (sg_len _ _ _ _ _ _ S1) as Hlen.
  assert (Forall (fun x => 0 <= x < N) (sr_row_map sr)) as Hrange.
  { apply Forall_forall. intros x [k Hk]%list_elem_of_lookup. pose proof (lookup_lt_Some _ _ _ Hk).
    destruct (S4 (Z.of_nat k)) as [Hx _]; [lia|]. unfold idx in Hx. rewrite Nat2Z.id in Hx. by rewrite (nth_lookup_Some _ _ _ _ Hk) in Hx. }
  destruct (leaf_count_spec _ N (co_rows _ Hok) Hrange) as [L1 L2]. split; [|done].
  destruct S1 as [T1 T2 T3 T4]. constructor; [done|done| |done]. apply (faithful_fewer_leaves _ N); [done|done|].
  intros r Hr'%elem_of_upto. apply L2. unfold idx. apply list_elem_of_In, nth_In. lia.
Qed.

Lemma weight2_stage :
  exists w2 g, mergeWeight2 fuel (sr_reduced sr) (sr_row_map sr) = Some w2 /\
    stage (reduced w2) (mr_row_map w2) (merge_tree w2) N (base_of input) g /\
    num_leaves (merge_tree w2) + Z.of_nat (length (internal_nodes (merge_tree w2))) <= N + n_rows (sr_reduced sr) - n_rows (reduced w2) /\
    n_rows (reduced w2) = n_rows (sr_reduced sr) - merges_performed w2 /\
    n_rows (sr_reduced sr) = N - sr_rows_removed sr /\ 0 <= n_rows (reduced w2) <= N /\ nnz (reduced w2) <= nnz input /\
    forall j, 0 <= j < n_cols (reduced w2) -> 0 < col_count (reduced w2) j /\ col_count (reduced w2) j <> 2.
Proof.
  destruct singleton_stage as [S1 HL]. destruct Hpre as [Hok Hnnz Hnodes].
  destruct (removeSingletons_spec input Hok Hnnz) as (_ & (S2 & S3 & Hrem & Hcols) & _ & _ & S6 & _).
  pose proof (sg_csr _ _ _ _ _ _ S1) as [Hr Hc _]. pose proof (co_rows _ Hok) as HN.
  destruct (mergeWeight2_spec N (base_of input) fuel _ _ _ S1) as (w2 & g2 & E & W1 & W2 & W3 & W4 & W5 & W6); [lia|nia| |].
  { unfold enough_fuel in Hfuel. nia. }
  pose proof (sg_csr _ _ _ _ _ _ W1) as [Hr2 _ _]. exists w2, g2.
  split; [done|]. split; [done|]. split; [lia|]. split; [done|]. split; [done|]. split; [lia|]. split; [lia|done].
Qed.

Lemma pipeline_stage :
  exists p, preprocessMatrix_cpu fuel input k_max max_weight = Some p /\
    (Z.of_nat (length (col_indices (pr_reduced p))) < 2 ^ 32 ->
     exists g, stage (pr_reduced p) (pr_row_map p) (pr_merge_tree p) N (base_of input) g /\
       n_rows (pr_reduced p) = N - singletons_removed p - w2_merges p - hw_merges p).
Proof.
  destruct weight2_stage as (w2 & g2 & E & W1 & W2 & W3 & W4 & W5 & _). unfold preprocessMatrix_cpu. rewrite E.
  eexists. split; [reflexivity|]. cbn [pr_reduced pr_row_map pr_merge_tree singletons_removed w2_merges hw_merges].
  intros Hout. destruct Hpre as [_ _ Hnodes].
  destruct (mergeHigherWeight_spec N (base_of input) w2 g2 k_max max_weight W1) as (g & V1 & _ & V3 & V4 & _); [|done|].
  - pose proof (sg_csr _ _ _ _ _ _ (proj1 singleton_stage)) as [Hr _ _].
    assert (n_rows (sr_reduced sr) <= N) by (destruct Hpre as [Hok Hnnz _]; pose proof (removeSingletons_spec input Hok Hnnz) as (_ & ? & _); lia).
    nia.
  - exists g. split; [done|]. rewrite V4, V3. lia.
Qed.

End pipeline.

(** ** Kernel vectors of a stage *)

Section stage_kernel.
Context (m : HostMatrixCSR) (rm : list Z) (t : MergeTree) (input : HostMatrixCSR) (g : Z -> Z).
Context (H : stage m rm t (n_rows input) (base_of input) g).

Lemma entry_map_columns c k :
  0 <= k < n_rows m -> entry c (map g (csr_row m k)) = xsum (fun j => (g j =? c) && entry j (csr_row m k)) (upto (n_cols m)).
Proof using H.
  intros Hk. destruct (co_sorted _ (sg_csr _ _ _ _ _ _ H) k Hk) as [_ Hf].
  rewrite entry_xsum, xsum_map, <- (xsum_entry (n_cols m)) by done. apply xsum_ext. intros i _. apply andb_comm.
Qed.

(** Zero in every reduced column is zero in every original column, and conversely. *)
Lemma kernel_columns sel :
  (forall j, xsum (fun k => sel k && entry j (csr_row m k)) (upto (n_rows m)) = false) <->
  (forall c, xsum (fun k => sel k && entry c (map g (csr_row m k))) (upto (n_rows m)) = false).
Proof using H.
  split; intros Hz.
  - intros c. rewrite (xsum_ext _ (fun k => xsum (fun j => (g j =? c) && (sel k && entry j (csr_row m k))) (upto (n_cols m)))).
    + rewrite xsum_swap. apply xsum_false. intros j _. by rewrite xsum_andb, Hz, andb_false_r.
    + intros k Hk%elem_of_upto. rewrite entry_map_columns by done. rewrite <- xsum_andb. apply xsum_ext. intros j _.
      by destruct (g j =? c), (sel k).
  - intros j. destruct (decide (0 <= j < n_cols m)) as [Hj|Hj].
    + rewrite <- (Hz (g j)). apply xsum_ext. intros k Hk%elem_of_upto. f_equal. symmetry.
      apply (entry_map g _ _ (fun c => 0 <= c < n_cols m)); [apply H|by apply (co_sorted _ (sg_csr _ _ _ _ _ _ H))|done].
    + apply xsum_false. intros k Hk%elem_of_upto. rewrite entry_not_in; [by rewrite andb_false_r|]. intros Hin.
      destruct (co_sorted _ (sg_csr _ _ _ _ _ _ H) k Hk) as [_ Hf]. rewrite Forall_forall in Hf. by apply Hj, Hf.
Qed.

(** The expansion of any vector, in terms of the leaves of the selected rows. *)
Lemma stage_expand bits :
  exists lv f0, leaves_at t (upto (n_rows m)) (idx rm) lv /\ forall f, (f0 <= f)%nat ->
  exists rels, expandKernelVector f bits (n_rows m) rm t = Some rels /\ sorted_row rels /\
    Forall (fun x => 0 <= x < n_rows input) rels /\
    forall leaf, entry leaf rels = combine (upto (n_rows m)) (kbit bits) lv leaf.
Proof using H.
  pose proof (sg_faithful _ _ _ _ _ _ H) as Hf. pose proof (co_rows _ (sg_csr _ _ _ _ _ _ H)) as Hn.
  destruct (leaves_at_exist t (upto (n_rows m)) (idx rm)) as [lv Hlv]; [by eapply f_tree|apply Hf|].
  destruct (expandKernelVector_spec t bits (n_rows m) rm lv) as [f0 Hx].
  { by eapply f_tree. }
  { lia. }
  { intros k Hk. split; [by apply (f_node _ _ _ _ _ _ Hf), elem_of_upto|by apply Hlv, elem_of_upto]. }
  exists lv, f0. split; [done|]. intros f Hle. destruct (Hx f Hle) as (rels & E & Hs & Hr & Hg). exists rels.
  split; [done|]. split; [done|]. split.
  - eapply Forall_impl; [exact Hr|]. intros x Hxr. cbn beta in *. pose proof (f_leaves _ _ _ _ _ _ Hf). lia.
  - intros leaf. rewrite entry_xsum, Hg. done.
Qed.

(** A selection of original rows as a list. *)
Lemma dependency_rels S rels :
  sorted_row rels -> Forall (fun x => 0 <= x < n_rows input) rels -> (forall i, entry i rels = S i) ->
  (forall c, xsum (fun i => entry c (csr_row input i)) rels = xsum (fun i => S i && base_of input i c) (upto (n_rows input))).
Proof using Type.
  intros Hs Hr E c. rewrite <- (xsum_entry (n_rows input)) by done. apply xsum_ext. intros i _. by rewrite E.
Qed.

Lemma stage_sound bits :
  kernel_vector m bits ->
  exists f0, forall f, (f0 <= f)%nat -> exists rels, expandKernelVector f bits (n_rows m) rm t = Some rels /\
    relation_set input rels /\ forall k, 0 <= k < n_rows m -> kbit bits k = true -> rels <> [].
Proof using H.
  intros Hk. destruct (stage_expand bits) as (lv & f0 & Hlv & Hx). exists f0. intros f Hle.
  destruct (Hx f Hle) as (rels & E & Hs & Hr & Hc). exists rels. pose proof (sg_faithful _ _ _ _ _ _ H) as Hf. split; [done|]. split.
  - split; [done|]. split; [done|]. intros c. rewrite (dependency_rels (combine (upto (n_rows m)) (kbit bits) lv)) by done.
    rewrite (combine_base t (n_rows input) (base_of input) _ _ _ _ _ c Hf Hlv). by apply (proj1 (kernel_columns (kbit bits))).
  - intros k Hkn Hbit ->. enough (kbit bits k = false) by congruence.
    apply (f_indep _ _ _ _ _ _ Hf (kbit bits) lv Hlv); [|by apply elem_of_upto]. intros leaf. by rewrite <- Hc.
Qed.

Lemma stage_complete rels :
  relation_set input rels ->
  exists bits, kernel_vector m bits /\ exists f0, forall f, (f0 <= f)%nat -> expandKernelVector f bits (n_rows m) rm t = Some rels.
Proof using H.
  intros (Hs & Hr & Hz). pose proof (sg_faithful _ _ _ _ _ _ H) as Hf.
  destruct (leaves_at_exist t (upto (n_rows m)) (idx rm)) as [lv0 Hlv0]; [by eapply f_tree|apply Hf|].
  assert (dependency (n_rows input) (base_of input) (fun i => entry i rels)) as Hd.
  { split.
    - intros i Hi. destruct (decide (i ∈ rels)) as [Hin|Hin]; [rewrite Forall_forall in Hr; by apply Hr|].
      by rewrite entry_not_in in Hi.
    - intros c. rewrite <- (dependency_rels _ rels) by done. apply Hz. }
  destruct (f_complete _ _ _ _ _ _ Hf _ _ Hd Hlv0) as [sel Hsel].
  exists (pack_bits (n_rows m) sel). destruct (stage_expand (pack_bits (n_rows m) sel)) as (lv & f0 & Hlv & Hx).
  assert (forall leaf, combine (upto (n_rows m)) (kbit (pack_bits (n_rows m) sel)) lv leaf = entry leaf rels) as Ec.
  { intros leaf. rewrite Hsel. unfold combine. apply xsum_ext. intros k Hk. pose proof Hk as Hk'%elem_of_upto.
    rewrite kbit_pack_bits by done. by rewrite (leaves_unique _ _ _ _ (Hlv k Hk) (Hlv0 k Hk)). }
  split.
  - intros j. apply (proj2 (kernel_columns _)). intros c.
    rewrite <- (combine_base t (n_rows input) (base_of input) _ _ _ _ _ c Hf Hlv).
    rewrite (xsum_ext _ (fun i => entry i rels && base_of input i c)) by (intros i _; by rewrite Ec). by apply Hd.
  - exists f0. intros f Hle. destruct (Hx f Hle) as (rels' & E & Hs' & _ & Hc). rewrite E. f_equal.
    apply sorted_row_ext; [done|done|]. intros x. by rewrite Hc, Ec.
Qed.

End stage_kernel.

(** ** Properties *)

(** Singleton removal keeps the surviving rows as they are, up to the numbering
    of the columns; when it stops before its iteration limit every remaining column
    occurs in at least two rows; and no relation that takes part in any dependency is
    ever removed. *)
Theorem removeSingletons_correct input :
  csr_ok input -> nnz input < 2 ^ 32 ->
  let r := removeSingletons input in
  n_rows (sr_reduced r) = n_rows input - sr_rows_removed r /\
  (forall k, 0 <= k < n_rows (sr_reduced r) ->
     map (idx (sr_col_map r)) (csr_row (sr_reduced r) k) ≡ₚ csr_row input (idx (sr_row_map r) k)) /\
  (sr_iterations r < 100 -> forall j, 0 <= j < n_cols (sr_reduced r) -> 2 <= col_count (sr_reduced r) j) /\
  (forall rels, relation_set input rels -> Forall (fun i => i ∈ sr_row_map r) rels).
Proof.
  intros Hok Hnnz r. destruct (removeSingletons_spec input Hok Hnnz) as (S1 & (S2 & _) & S4 & _ & _ & _ & S7). fold r in S1, S2, S4, S7.
  split; [done|]. split; [by intros k Hk; apply S4|]. split; [intros Hit j Hj; by apply S7|].
  intros rels Hrels. destruct (stage_complete _ _ _ _ _ S1 rels Hrels) as (bits & _ & f0 & Hx).
  destruct (stage_expand _ _ _ _ _ S1 bits) as (lv & f1 & Hlv & Hx').
  destruct (Hx' (Nat.max f0 f1) ltac:(lia)) as (rels' & E & _ & Hr & Hc). rewrite Hx in E by lia. injection E as <-.
  apply Forall_forall. intros i Hi. destruct (decide (i ∈ sr_row_map r)) as [|Hn]; [done|]. exfalso.
  assert (entry i rels = false) as Hz.
  { rewrite Hc. apply xsum_false. intros k Hk. pose proof (sg_len _ _ _ _ _ _ S1) as Hlen. pose proof Hk as Hk'%elem_of_upto.
    destruct (S4 k Hk') as [Hkr _]. rewrite (leaf_only _ _ _ Hkr (Hlv k Hk)). cbn.
    destruct (Z.eqb_spec (idx (sr_row_map r) k) i) as [E|_]; [|by rewrite andb_false_r]. exfalso. apply Hn. rewrite <- E.
    unfold idx. apply list_elem_of_In, nth_In. lia. }
  destruct Hrels as [Hs _]. rewrite (proj2 (sorted_row_entry rels i Hs) Hi) in Hz. done.
Qed.

(** The weight-2 pass on the singleton-free matrix terminates after at most
    (rows + 1) * (columns + 1) iterations of its loop; it removes one row per merge,
    never increases the number of entries, and leaves no column of weight 2 and none of weight 0. *)
Theorem mergeWeight2_terminates input k_max fuel :
  preprocessable input k_max -> enough_fuel input fuel ->
  let r := removeSingletons input in
  exists w2, mergeWeight2 fuel (sr_reduced r) (sr_row_map r) = Some w2 /\
    n_rows (reduced w2) = n_rows (sr_reduced r) - merges_performed w2 /\ nnz (reduced w2) <= nnz input /\
    forall j, 0 <= j < n_cols (reduced w2) -> 0 < col_count (reduced w2) j /\ col_count (reduced w2) j <> 2.
Proof.
  intros Hpre Hfuel r. destruct (weight2_stage input k_max fuel Hpre Hfuel) as (w2 & _ & E & _ & _ & W4 & _ & _ & W7 & W8).
  by exists w2.
Qed.

(** C5. The whole CPU preprocessing terminates. If the entries of its result can be
    counted in 32 bits, every kernel vector of the reduced matrix expands, through the
    merge tree, to a sorted set of original relations whose rows sum to zero over GF(2) in
    every original column, and the set is not empty when the vector selects a row. *)
Theorem preprocess_sound input k_max max_weight fuel :
  preprocessable input k_max -> enough_fuel input fuel ->
  exists p, preprocessMatrix_cpu fuel input k_max max_weight = Some p /\
    (Z.of_nat (length (col_indices (pr_reduced p))) < 2 ^ 32 ->
     n_rows (pr_reduced p) = n_rows input - singletons_removed p - w2_merges p - hw_merges p /\
     forall bits, kernel_vector (pr_reduced p) bits ->
     exists f0, forall f, (f0 <= f)%nat ->
     exists rels, expandKernelVector f bits (n_rows (pr_reduced p)) (pr_row_map p) (pr_merge_tree p) = Some rels /\
       relation_set input rels /\ forall k, 0 <= k < n_rows (pr_reduced p) -> kbit bits k = true -> rels <> []).
Proof.
  intros Hpre Hfuel. destruct (pipeline_stage input k_max max_weight fuel Hpre Hfuel) as (p & E & Hs). exists p.
  split; [done|]. intros Hlen. destruct (Hs Hlen) as (g & S1 & S2). split; [done|]. intros bits. by eapply stage_sound.
Qed.

(** C6. The preprocessing loses no dependency: every set of original relations whose
    rows sum to zero is the expansion of some kernel vector of the reduced matrix. *)
Theorem preprocess_complete input k_max max_weight fuel rels :
  preprocessable input k_max -> enough_fuel input fuel -> relation_set input rels ->
  exists p, preprocessMatrix_cpu fuel input k_max max_weight = Some p /\
    (Z.of_nat (length (col_indices (pr_reduced p))) < 2 ^ 32 ->
     exists bits, kernel_vector (pr_reduced p) bits /\
     exists f0, forall f, (f0 <= f)%nat ->
       expandKernelVector f bits (n_rows (pr_reduced p)) (pr_row_map p) (pr_merge_tree p) = Some rels).
Proof.
  intros Hpre Hfuel Hrels. destruct (pipeline_stage input k_max max_weight fuel Hpre Hfuel) as (p & E & Hs). exists p.
  split; [done|]. intros Hlen. destruct (Hs Hlen) as (g & S1 & _). by eapply stage_complete.
Qed.

(** ** Examples *)

Lemma demo_preprocessable : preprocessable demo 5.
Proof. constructor; [by apply csr_okb_ok; vm_compute|by vm_compute|by vm_compute]. Defined.

(** A column of weight 1 is left when two equal rows cancel in a column of weight 3. *)
Example mergeWeight2_leaves_weight1 :
  exists w2, mergeWeight2 100 (csr_of [[0; 1]; [0; 1]; [1]] 2) [0; 1; 2] = Some w2 /\ col_count (reduced w2) 0 = 1.
Proof. eexists. split; vm_compute; reflexivity. Qed.

Lemma removeSingletons_correct_witness :
  csr_ok demo /\ nnz demo < 2 ^ 32 /\
  let r := removeSingletons demo in
  n_rows (sr_reduced r) = n_rows demo - sr_rows_removed r /\
  (forall k, 0 <= k < n_rows (sr_reduced r) ->
     map (idx (sr_col_map r)) (csr_row (sr_reduced r) k) ≡ₚ csr_row demo (idx (sr_row_map r) k)) /\
  (sr_iterations r < 100 -> forall j, 0 <= j < n_cols (sr_reduced r) -> 2 <= col_count (sr_reduced r) j) /\
  (forall rels, relation_set demo rels -> Forall (fun i => i ∈ sr_row_map r) rels).
Proof.
  assert (csr_ok demo) as H1 by by apply csr_okb_ok; vm_compute.
  assert (nnz demo < 2 ^ 32) as H2 by by vm_compute.
  exact (conj H1 (conj H2 (removeSingletons_correct demo H1 H2))).
Defined.

Lemma mergeWeight2_terminates_witness :
  enough_fuel demo 100 /\
  let r := removeSingletons demo in
  exists w2, mergeWeight2 100 (sr_reduced r) (sr_row_map r) = Some w2 /\
    n_rows (reduced w2) = n_rows (sr_reduced r) - merges_performed w2 /\ nnz (reduced w2) <= nnz demo /\
    forall j, 0 <= j < n_cols (reduced w2) -> 0 < col_count (reduced w2) j /\ col_count (reduced w2) j <> 2.
Proof.
  assert (enough_fuel demo 100) as H1 by by vm_compute.
  exact (conj H1 (mergeWeight2_terminates demo 5 100 demo_preprocessable H1)).
Defined.

Lemma preprocess_sound_witness :
  enough_fuel demo 100 /\
  exists p, preprocessMatrix_cpu 100 demo 5 200 = Some p /\
    (Z.of_nat (length (col_indices (pr_reduced p))) < 2 ^ 32 ->
     n_rows (pr_reduced p) = n_rows demo - singletons_removed p - w2_merges p - hw_merges p /\
     forall bits, kernel_vector (pr_reduced p) bits ->
     exists f0, forall f, (f0 <= f)%nat ->
     exists rels, expandKernelVector f bits (n_rows (pr_reduced p)) (pr_row_map p) (pr_merge_tree p) = Some rels /\
       relation_set demo rels /\ forall k, 0 <= k < n_rows (pr_reduced p) -> kbit bits k = true -> rels <> []).
Proof.
  assert (enough_fuel demo 100) as H1 by by vm_compute.
  exact (conj H1 (preprocess_sound demo 5 200 100 demo_preprocessable H1)).
Defined.

(** Rows 0, 2 and 3 of the example sum to zero. *)
Lemma demo_relation_set : relation_set demo [0; 2; 3].
Proof.
  split; [repeat constructor|]. split; [repeat constructor; by vm_compute|]. intros c.
  change (xorb (entry c [0; 1]) (xorb (entry c [1; 2]) (xorb (entry c [0; 2]) false)) = false).
  rewrite !entry_cons. change (entry c []) with false.
  destruct (0 =? c), (1 =? c), (2 =? c); reflexivity.
Defined.

Lemma preprocess_complete_witness :
  enough_fuel demo 100 /\ relation_set demo [0; 2; 3] /\
  exists p, preprocessMatrix_cpu 100 demo 5 200 = Some p /\
    (Z.of_nat (length (col_indices (pr_reduced p))) < 2 ^ 32 ->
     exists bits, kernel_vector (pr_reduced p) bits /\
     exists f0, forall f, (f0 <= f)%nat ->
       expandKernelVector f bits (n_rows (pr_reduced p)) (pr_row_map p) (pr_merge_tree p) = Some [0; 2; 3]).
Proof.
  assert (enough_fuel demo 100) as H1 by by vm_compute.
  exact (conj H1 (conj demo_relation_set (preprocess_complete demo 5 200 100 [0; 2; 3] demo_preprocessable H1 demo_relation_set))).
Defined.
