(* ===== verification/Truncation.v ===== *)
(** Truncation of the reduced matrix before the solver, [src/src/matrix/matrix_truncation.cpp],
    and the step of the orchestrator that applies it: which rows are kept, that every
    column survives, that the relaxation loop is never entered, and that the kernel
    vectors of what is left are kernel vectors of the whole matrix. *)
From Stdlib Require Import ZArith Lia Sorted.
From stdpp Require Import base gmap sets list sorting.
From S2P Require Import Prelude Soa Gf2 RowOps MergeFilter MergeStages Preprocess Doubles.
#[local] Open Scope Z_scope.

Definition kCoverageThreshold : Z := 1.
Definition kRelaxationMaxIters : nat := 64.

Record TruncationResult := mkTrunc {
  tr_truncated : HostMatrixCSR;
  tr_row_map : list Z;
  tr_rows_removed : Z;
  tr_cols_removed : Z
}.

(** What the selection keeps: a flag per row, a counter per column, and the two totals. *)
Record admission := mkAdm { admitted : list bool; admitted_coverage : list Z; admitted_count : Z; covered_cols : Z }.

Section select.
Context (input : HostMatrixCSR).

(** [weight], and the order of [std::sort]'s comparator. *)
Definition row_weight (r : Z) : Z := wrap 32 (idx (row_offsets input) (r + 1) - idx (row_offsets input) r).

Definition row_le (a b : Z) : Prop := row_weight a < row_weight b \/ (row_weight a = row_weight b /\ a <= b).

#[export] Instance row_le_dec a b : Decision (row_le a b).
Proof. unfold row_le. apply _. Defined.

Definition sorted_indices : list Z := merge_sort row_le (upto (n_rows input)).

(** [input_col_count] and [cols_with_coverage]. *)
Definition input_col_count : list Z :=
  foldl (fun w c => if c <? n_cols input then bump w c else w) (replicate (Z.to_nat (n_cols input)) 0) (col_indices input).

Definition cols_with_coverage : Z :=
  foldl (fun n c => if 0 <? vget 0 input_col_count c then wrap 32 (n + 1) else n) 0 (upto (n_cols input)).

(** [admit_row]. *)
Definition cover_col (st : list Z * Z) (c : Z) : list Z * Z :=
  let '(cov, covered) := st in
  if c <? n_cols input then (bump cov c, if vget 0 cov c =? 0 then wrap 32 (covered + 1) else covered) else st.

Definition admit_row (st : admission) (r : Z) : admission :=
  let '(cov, covered) := foldl cover_col (admitted_coverage st, covered_cols st) (csr_row input r) in
  mkAdm (vset (admitted st) r true) cov (wrap 32 (admitted_count st + 1)) covered.

(** The row has a column that is not covered yet. *)
Definition useful (st : admission) (r : Z) : bool :=
  existsb (fun c => (c <? n_cols input) && (vget 0 (admitted_coverage st) c <? kCoverageThreshold)) (csr_row input r).

Definition is_admitted (st : admission) (r : Z) : bool := vget false (admitted st) r.

(** A pass over the rows: [continue] on [skip], [break] at the target, admit on [want]. *)
Fixpoint pass (skip want : admission -> Z -> bool) (target : Z) (indices : list Z) (st : admission) : admission :=
  match indices with
  | [] => st
  | r :: rest =>
      if skip st r then pass skip want target rest st
      else if target <=? admitted_count st then st
      else pass skip want target rest (if want st r then admit_row st r else st)
  end.

Definition coverage_pass : Z -> list Z -> admission -> admission := pass (fun _ _ => false) useful.
Definition fill_pass : Z -> list Z -> admission -> admission := pass (fun _ _ => false) (fun st r => negb (is_admitted st r)).
Definition relaxed_coverage_pass : Z -> list Z -> admission -> admission := pass is_admitted useful.
Definition relaxed_fill_pass : Z -> list Z -> admission -> admission := pass is_admitted (fun _ _ => true).

Definition no_rows : admission :=
  mkAdm (replicate (Z.to_nat (n_rows input)) false) (replicate (Z.to_nat (n_cols input)) 0) 0 0.

(** Steps 3 and 4: the coverage pass, then the fill pass. *)
Definition select_rows (target : Z) : admission :=
  let st := coverage_pass target sorted_indices no_rows in
  if admitted_count st <? target then fill_pass target sorted_indices st else st.

(** Step 5: the relaxation loop, entered when a column is not covered. *)
Definition grown_target (relaxed_target : Z) : Z :=
  let new_target := wrap 32 (Z.min (wrap 64 (d_ceil (d_mul (d_of_Z relaxed_target) (d_lit 11 10)))) (n_rows input)) in
  if new_target =? relaxed_target then Z.min (wrap 32 (relaxed_target + 1)) (n_rows input) else new_target.

Fixpoint relax (iters : nat) (relaxed_target : Z) (st : admission) : admission :=
  match iters with
  | O => st
  | S iters =>
      if cols_with_coverage <=? covered_cols st then st
      else if n_rows input <=? relaxed_target then st
      else
        let relaxed_target := grown_target relaxed_target in
        let st := relaxed_coverage_pass relaxed_target sorted_indices st in
        let st := if admitted_count st <? relaxed_target then relaxed_fill_pass relaxed_target sorted_indices st else st in
        relax iters relaxed_target st
  end.

(** The whole selection; [None]: coverage was not reached, truncation is skipped. *)
Definition relaxed_rows (target : Z) (st : admission) : option admission :=
  if covered_cols st <? cols_with_coverage then
    let st := relax kRelaxationMaxIters target st in
    if covered_cols st <? cols_with_coverage then None else Some st
  else Some st.

(** Steps 6 to 8: the selected rows in their order, without the columns that became empty. *)
Definition build_row (input_row_map : list Z) (st : list Z * list Z * list Z) (r : Z) : list Z * list Z * list Z :=
  let '(offsets, cols, new_row_map) := st in
  let cols := cols ++ csr_row input r in
  (offsets ++ [wrap 32 (Z.of_nat (length cols))], cols, new_row_map ++ [idx input_row_map r]).

Definition build_truncated (input_row_map : list Z) (selected : list Z) : TruncationResult :=
  let effective_k := wrap 32 (Z.of_nat (length selected)) in
  let '(offsets, cols, new_row_map) := foldl (build_row input_row_map) ([0], [], []) selected in
  let col_weight := foldl bump (replicate (Z.to_nat (n_cols input)) 0) cols in
  let '(old_to_new, _, new_col_count) := compact_cols col_weight (n_cols input) in
  mkTrunc (mkCSR offsets (map (vget 0 old_to_new) cols) effective_k new_col_count) new_row_map
    (wrap 32 (n_rows input - effective_k)) (wrap 32 (n_cols input - new_col_count)).

Definition truncation_target (n_extra_cols k_excess : Z) : Z :=
  wrap 32 (Z.min (wrap 64 (wrap 64 (n_cols input + n_extra_cols) + k_excess)) (n_rows input)).

Definition truncateMatrix (input_row_map : list Z) (truncation_factor : double) (n_extra_cols k_excess : Z) : TruncationResult :=
  let unchanged := mkTrunc input input_row_map 0 0 in
  if d_leb truncation_factor (d_of_Z 0) then unchanged
  else
    let target := truncation_target n_extra_cols k_excess in
    if n_rows input <=? target then unchanged
    else
      match relaxed_rows target (select_rows target) with
      | None => unchanged
      | Some st => build_truncated input_row_map (List.filter (is_admitted st) (upto (n_rows input)))
      end.

End select.

(** The orchestrator's step: 32 character columns are appended later. *)
Definition kCharColCount : Z := 32.

Definition truncate_step (truncation_factor : double) (truncation_min_rows matrix_truncation_excess : Z)
    (reduced : HostMatrixCSR) (row_map : list Z) : HostMatrixCSR * list Z :=
  if d_ltb (d_of_Z 0) truncation_factor && (truncation_min_rows <? n_rows reduced) then
    let trunc := truncateMatrix reduced row_map truncation_factor kCharColCount matrix_truncation_excess in
    if 0 <? tr_rows_removed trunc then (tr_truncated trunc, tr_row_map trunc) else (reduced, row_map)
  else (reduced, row_map).


(** ** Vocabulary of the specifications *)

(** The columns a list of rows has. *)
Definition touched (input : HostMatrixCSR) (rows : list Z) : list Z := concat (map (csr_row input) rows).

(** The entries of the matrix are those of its rows, in order. *)
Definition flat (m : HostMatrixCSR) : Prop := col_indices m = touched m (upto (n_rows m)).

(** [st] is the state after the rows [adm] were admitted, in this order. *)
Record tracks (input : HostMatrixCSR) (st : admission) (adm : list Z) : Prop := mkTracks {
  tk_range : Forall (fun r => 0 <= r < n_rows input) adm;
  tk_nodup : NoDup adm;
  tk_len : length (admitted st) = Z.to_nat (n_rows input);
  tk_flag : forall r, 0 <= r < n_rows input -> is_admitted st r = true <-> r ∈ adm;
  tk_cov_len : length (admitted_coverage st) = Z.to_nat (n_cols input);
  tk_cov : forall c, 0 <= c < n_cols input -> vget 0 (admitted_coverage st) c = occ c (touched input adm);
  tk_count : admitted_count st = Z.of_nat (length adm);
  tk_covered : covered_cols st = Z.of_nat (length (List.filter (fun c => 0 <? occ c (touched input adm)) (upto (n_cols input))))
}.

(** The columns of the row are all touched. *)
Definition all_covered (m : HostMatrixCSR) (adm : list Z) (r : Z) : Prop := forall c, c ∈ csr_row m r -> c ∈ touched m adm.

(** The rows of the whole matrix a kernel vector of the truncated one selects. *)
Definition picked (selected bits : list Z) : list Z :=
  map (idx selected) (List.filter (kbit bits) (upto (Z.of_nat (length selected)))).

Definition extend (n : Z) (selected bits : list Z) : list Z := pack_bits n (fun r => entry r (picked selected bits)).

(** A matrix for the solver: its rows are nodes of the merge tree, and its kernel vectors
    expand to sets of original relations whose rows sum to zero. *)
Record reduction (input : HostMatrixCSR) (t : MergeTree) (red : HostMatrixCSR) (rm : list Z) : Prop := mkReduction {
  rd_csr : csr_ok red;
  rd_len : Z.of_nat (length rm) = n_rows red;
  rd_tree : tree_wf t;
  rd_nodes : forall k, 0 <= k < n_rows red -> node_ok t (idx rm k);
  rd_sound : forall bits, kernel_vector red bits -> exists f0, forall f, (f0 <= f)%nat ->
    exists rels, expandKernelVector f bits (n_rows red) rm t = Some rels /\
      relation_set input rels /\ forall k, 0 <= k < n_rows red -> kbit bits k = true -> rels <> []
}.

(** The result [r] is the matrix of the [selected] rows, the columns named by [cols]. *)
Record keeps (input : HostMatrixCSR) (input_row_map selected cols : list Z) (r : TruncationResult) : Prop := mkKeeps {
  kp_sorted : sorted_row selected;
  kp_range : Forall (fun i => 0 <= i < n_rows input) selected;
  kp_cols : cols = List.filter (fun c => 0 <? occ c (touched input selected)) (upto (n_cols input));
  kp_csr : csr_ok (tr_truncated r);
  kp_rows : n_rows (tr_truncated r) = Z.of_nat (length selected);
  kp_ncols : n_cols (tr_truncated r) = Z.of_nat (length cols);
  kp_row : forall k, 0 <= k < Z.of_nat (length selected) ->
    map (idx cols) (csr_row (tr_truncated r) k) = csr_row input (idx selected k);
  kp_map : tr_row_map r = map (idx input_row_map) selected;
  kp_rows_removed : tr_rows_removed r = n_rows input - Z.of_nat (length selected);
  kp_cols_removed : tr_cols_removed r = n_cols input - Z.of_nat (length cols)
}.

(** Column 5 occurs in no row; two of ten rows go. *)
Definition ex_wide : HostMatrixCSR := csr_of [[0; 1]; [0; 1; 2]; [1; 2]; [0; 2]; [0; 1; 3]; [3; 4]; [0; 4]; [0; 4]; [4]; [3]] 6.

(** Sixty rows on four columns: too heavy to merge, and 24 rows are truncated. *)
Definition ex_tall : HostMatrixCSR :=
  csr_of (concat (replicate 4 [[0]; [1]; [2]; [3]; [0; 1]; [0; 2]; [0; 3]; [1; 2]; [1; 3]; [2; 3]; [0; 1; 2]; [0; 1; 3]; [0; 2; 3]; [1; 2; 3]; [0; 1; 2; 3]])) 4.

(** ** Lemmas *)

Lemma touched_app m l1 l2 : touched m (l1 ++ l2) = touched m l1 ++ touched m l2.
Proof. unfold touched. by rewrite map_app, concat_app. Qed.

Lemma elem_of_touched m l c : c ∈ touched m l <-> exists r, r ∈ l /\ c ∈ csr_row m r.
Proof.
  unfold touched. rewrite list_elem_of_In, in_concat. split.
  - intros (x & (r & <- & Hr)%in_map_iff & Hc). exists r. by rewrite !list_elem_of_In.
  - intros (r & Hr & Hc). exists (csr_row m r). rewrite in_map_iff. rewrite !list_elem_of_In in *. eauto.
Qed.

Lemma length_touched m l : Z.of_nat (length (touched m l)) = zsum (map (fun r => Z.of_nat (length (csr_row m r))) l).
Proof. induction l as [|r l IH]; [done|]. unfold touched in *. cbn [map concat]. rewrite length_app, Nat2Z.inj_add, IH. done. Qed.


Lemma nodup_range_perm l n : NoDup l -> Forall (fun r => 0 <= r < n) l -> exists k, upto n ≡ₚ l ++ k.
Proof.
  intros Hd Hr. apply submseteq_Permutation. apply NoDup_submseteq; [done|]. intros x Hx. apply elem_of_upto.
  rewrite Forall_forall in Hr. by apply Hr.
Qed.

Lemma touched_le_nnz m l : NoDup l -> Forall (fun r => 0 <= r < n_rows m) l -> Z.of_nat (length (touched m l)) <= nnz m.
Proof.
  intros Hd Hr. destruct (nodup_range_perm l (n_rows m) Hd Hr) as [k Hk]. rewrite length_touched. unfold nnz, zsum_upto.
  rewrite (zsum_perm _ _ (Permutation_map _ Hk)), map_app, zsum_app.
  pose proof (zsum_nonneg (map (fun r => Z.of_nat (length (csr_row m r))) k)) as Hz. rewrite Forall_map in Hz.
  specialize (Hz ltac:(apply Forall_true; intros; cbn; lia)). lia.
Qed.

Lemma occ_le_length c l : occ c l <= Z.of_nat (length l).
Proof. induction l as [|x l IH]; [done|]. rewrite occ_cons. cbn [length]. destruct (x =? c); lia. Qed.

Lemma filter_le {A} (f g : A -> bool) l : (forall x, x ∈ l -> f x = true -> g x = true) ->
  (length (List.filter f l) <= length (List.filter g l))%nat.
Proof.
  induction l as [|x l IH]; intros H; [done|]. cbn. assert (length (List.filter f l) <= length (List.filter g l))%nat by (apply IH; intros; apply H; [by right|done]).
  destruct (f x) eqn:E; [rewrite (H x ltac:(left) E); cbn; lia|]. destruct (g x); cbn; lia.
Qed.

(** The number of indices with a property when one more gets it. *)
Lemma filter_upto_one (f g : Z -> bool) n x :
  0 <= x < n -> f x = false -> g x = true -> (forall y, y <> x -> g y = f y) ->
  length (List.filter g (upto n)) = S (length (List.filter f (upto n))).
Proof.
  intros Hx Hf Hg Hfg. assert (x ∈ upto n) as Hin by by apply elem_of_upto. revert Hin. pose proof (NoDup_upto n) as Hd.
  induction Hd as [|y l Hy Hd IH]; intros Hin; [by apply elem_of_nil in Hin|]. cbn. destruct (decide (y = x)) as [->|Hne].
  - rewrite Hf, Hg. cbn. f_equal. f_equal. apply List.filter_ext_in. intros z Hz%list_elem_of_In. apply Hfg. by intros ->.
  - rewrite (Hfg y Hne). destruct (f y); cbn; (rewrite IH; [done|]); by apply elem_of_cons in Hin as [?|?].
Qed.

Section tracking.
Context (m : HostMatrixCSR) (Hok : csr_ok m) (Hnnz : nnz m < 2 ^ 32).

Notation covered L := (Z.of_nat (length (List.filter (fun c => 0 <? occ c L) (upto (n_cols m))))).

Lemma covered_le L : 0 <= covered L <= n_cols m.
Proof using Hok. pose proof (co_cols m Hok). pose proof (List.filter_length_le (fun c => 0 <? occ c L) (upto (n_cols m))) as Hz. rewrite length_upto in Hz. lia. Qed.

Lemma covered_mono L L' : (forall c, c ∈ L -> c ∈ L') -> covered L <= covered L'.
Proof using Type. intros H. apply inj_le, filter_le. intros x _. rewrite !Z.ltb_lt, !occ_pos. auto. Qed.

(** The counters after one more row. *)
Lemma cover_spec l : forall L cov,
  Forall (fun c => 0 <= c < n_cols m) l -> length cov = Z.to_nat (n_cols m) -> Z.of_nat (length (L ++ l)) < 2 ^ 32 ->
  (forall c, 0 <= c < n_cols m -> vget 0 cov c = occ c L) ->
  exists cov', foldl (cover_col m) (cov, covered L) l = (cov', covered (L ++ l)) /\ length cov' = Z.to_nat (n_cols m) /\
    forall c, 0 <= c < n_cols m -> vget 0 cov' c = occ c (L ++ l).
Proof using Hok.
  induction l as [|x l IH]; intros L cov Hl Hlen Hw Hcov.
  { exists cov. rewrite app_nil_r. done. }
  apply Forall_cons in Hl as [Hx Hl]. cbn [foldl cover_col]. rewrite (proj2 (Z.ltb_lt _ _) (proj2 Hx)).
  replace (L ++ x :: l) with ((L ++ [x]) ++ l) in * by by rewrite <- app_assoc.
  assert (Z.of_nat (length (L ++ [x])) < 2 ^ 32) by (rewrite length_app in Hw; lia).
  assert (forall c, occ c (L ++ [x]) = occ c L + if x =? c then 1 else 0) as Hone.
  { intros c. rewrite occ_app, occ_cons. change (occ c []) with 0. lia. }
  assert ((if vget 0 cov x =? 0 then wrap 32 (covered L + 1) else covered L) = covered (L ++ [x])) as ->.
  { rewrite Hcov by done. destruct (Z.eqb_spec (occ x L) 0) as [E|E].
    - rewrite (filter_upto_one (fun c => 0 <? occ c L) (fun c => 0 <? occ c (L ++ [x])) (n_cols m) x Hx).
      + pose proof (covered_le L). pose proof (co_cols m Hok). pose proof (covered_le (L ++ [x])) as Hz.
        rewrite (filter_upto_one (fun c => 0 <? occ c L) (fun c => 0 <? occ c (L ++ [x])) (n_cols m) x Hx) in Hz;
          [rewrite wrap_small by (unfold in_width; lia); lia|by rewrite E| |].
        * rewrite Hone, E, Z.eqb_refl. done.
        * intros y Hy. rewrite Hone. destruct (Z.eqb_spec x y); [congruence|by rewrite Z.add_0_r].
      + by rewrite E.
      + rewrite Hone, E, Z.eqb_refl. done.
      + intros y Hy. rewrite Hone. destruct (Z.eqb_spec x y); [congruence|by rewrite Z.add_0_r].
    - f_equal. f_equal. apply List.filter_ext_in. intros y _. rewrite Hone. pose proof (occ_nonneg y L).
      destruct (Z.eqb_spec x y) as [<-|]; [|by rewrite Z.add_0_r]. rewrite !(proj2 (Z.ltb_lt _ _)); [done|lia|lia]. }
  apply IH; [done|by unfold bump; rewrite length_vset|done|].
  intros c Hc. unfold bump. rewrite Hone. destruct (Z.eqb_spec x c) as [->|Hne].
  - rewrite vget_vset_eq by lia. rewrite Hcov by done. pose proof (occ_nonneg c L). pose proof (occ_le_length c (L ++ [c])) as Hz.
    rewrite Hone, Z.eqb_refl in Hz. apply wrap_small. unfold in_width. lia.
  - rewrite vget_vset_ne by lia. rewrite Hcov by done. lia.
Qed.

Notation tracks := (tracks m).

Lemma tracks_start : tracks (no_rows m) [].
Proof using Hok.
  pose proof (co_rows m Hok). pose proof (co_cols m Hok). constructor.
  - constructor.
  - constructor.
  - cbn. by rewrite length_replicate.
  - intros r Hr. unfold is_admitted, no_rows. cbn [admitted]. rewrite vget_replicate by lia. split; [done|]. by intros ?%elem_of_nil.
  - cbn. by rewrite length_replicate.
  - intros c Hc. unfold no_rows. cbn [admitted_coverage]. by rewrite vget_replicate by lia.
  - done.
  - cbn. by induction (upto (n_cols m)).
Qed.

Lemma admit_tracks st adm r : tracks st adm -> 0 <= r < n_rows m -> r ∉ adm -> tracks (admit_row m st r) (adm ++ [r]).
Proof using Hok Hnnz.
  intros [T1 T2 T3 T4 T5 T6 T7 T8] Hr Hn. unfold admit_row. rewrite T8.
  assert (NoDup (adm ++ [r])) as Hd.
  { apply NoDup_app. split; [done|]. split; [|by apply NoDup_singleton]. intros x Hx ->%list_elem_of_singleton. done. }
  assert (Forall (fun r => 0 <= r < n_rows m) (adm ++ [r])) as Hf by (apply Forall_app; split; [done|by apply Forall_singleton]).
  pose proof (touched_le_nnz m _ Hd Hf) as Hb.
  assert (touched m (adm ++ [r]) = touched m adm ++ csr_row m r) as E.
  { rewrite touched_app. unfold touched at 2. cbn. by rewrite app_nil_r. }
  destruct (cover_spec (csr_row m r) (touched m adm) (admitted_coverage st)) as (cov' & -> & C2 & C3);
    [by apply (co_sorted m Hok)|done|rewrite <- E; lia|done|].
  constructor; cbn [admitted admitted_coverage admitted_count covered_cols]; rewrite ?E; try done.
  - by rewrite length_vset.
  - intros x Hx. unfold is_admitted in *. cbn [admitted]. rewrite elem_of_app, list_elem_of_singleton. destruct (decide (x = r)) as [->|Hne].
    + rewrite vget_vset_eq by lia. naive_solver.
    + rewrite vget_vset_ne by lia. rewrite <- (T4 x Hx). naive_solver.
  - rewrite T7, length_app. cbn. destruct (nodup_range_perm _ _ Hd Hf) as [k Hk]. apply Permutation_length in Hk.
    rewrite length_app, length_upto, length_app in Hk. cbn in Hk. pose proof (co_rows m Hok). rewrite wrap_small; [lia|unfold in_width; lia].
Qed.

(** A useful row is one with a column no admitted row has. *)
Lemma useful_spec st adm r : tracks st adm -> 0 <= r < n_rows m ->
  useful m st r = true <-> exists c, c ∈ csr_row m r /\ c ∉ touched m adm.
Proof using Hok.
  intros T Hr. destruct (co_sorted m Hok r Hr) as [_ Hf]. rewrite Forall_forall in Hf. unfold useful. rewrite existsb_exists.
  assert (forall c, c ∈ csr_row m r -> (c <? n_cols m) && (vget 0 (admitted_coverage st) c <? kCoverageThreshold) = true <-> c ∉ touched m adm) as Hc.
  { intros c Hc. pose proof (Hf c Hc) as Hcr. rewrite (tk_cov _ _ _ T c Hcr), andb_true_iff, !Z.ltb_lt, <- (occ_pos c). unfold kCoverageThreshold.
    pose proof (occ_nonneg c (touched m adm)). lia. }
  split; intros (c & H1 & H2); exists c; (split; [by apply list_elem_of_In|]); apply Hc; try done; by apply list_elem_of_In.
Qed.

Lemma useful_new st adm r : tracks st adm -> 0 <= r < n_rows m -> useful m st r = true -> r ∉ adm.
Proof using Hok. intros T Hr (c & Hc & Hn)%(useful_spec st adm) Hin; try done. apply Hn, elem_of_touched. eauto. Qed.

(** What a pass that admits only new rows does. [Done adm r] says that [adm] leaves nothing to do for row [r]. *)
Lemma pass_spec skip want target (Done : list Z -> Z -> Prop) :
  (forall st adm r, tracks st adm -> 0 <= r < n_rows m -> skip st r = false -> want st r = true -> r ∉ adm) ->
  (forall st adm r, tracks st adm -> 0 <= r < n_rows m -> skip st r = true \/ want st r = false -> Done adm r) ->
  (forall adm r new, r ∈ new \/ Done adm r -> Done (adm ++ new) r) ->
  forall l st adm, Forall (fun r => 0 <= r < n_rows m) l -> tracks st adm ->
  exists new, tracks (pass m skip want target l st) (adm ++ new) /\
    admitted_count (pass m skip want target l st) <= Z.max target (admitted_count st) /\
    (target <= admitted_count (pass m skip want target l st) \/ forall r, r ∈ l -> Done (adm ++ new) r).
Proof using Hok Hnnz.
  intros Hnew Hstop Hmono. induction l as [|r l IH]; intros st adm Hl Ht; cbn [pass].
  { exists []. rewrite app_nil_r. split; [done|]. split; [lia|]. right. by intros r ?%elem_of_nil. }
  apply Forall_cons in Hl as [Hr Hl].
  assert (forall st' new', tracks st' (adm ++ new') -> admitted_count st' <= Z.max target (admitted_count st) ->
    Done (adm ++ new') r ->
    exists new, tracks (pass m skip want target l st') (adm ++ new) /\
      admitted_count (pass m skip want target l st') <= Z.max target (admitted_count st) /\
      (target <= admitted_count (pass m skip want target l st') \/ forall x, x ∈ r :: l -> Done (adm ++ new) x)) as Hgo.
  { intros st' new' Ht' Hc' Hd'. destruct (IH st' (adm ++ new') Hl Ht') as (new & P1 & P2 & P3). exists (new' ++ new).
    rewrite app_assoc. split; [done|]. split; [lia|]. destruct P3 as [P3|P3]; [by left|right].
    intros x [->|Hx]%elem_of_cons; [apply Hmono; by right|by apply P3]. }
  destruct (skip st r) eqn:Es.
  { apply (Hgo st []); rewrite ?app_nil_r; [done|lia|]. eapply Hstop; eauto. }
  destruct (Z.leb_spec target (admitted_count st)) as [Hle|Hgt].
  { exists []. rewrite app_nil_r. split; [done|]. split; [lia|by left]. }
  destruct (want st r) eqn:Ew.
  - pose proof (Hnew _ _ _ Ht Hr Es Ew) as Hn. pose proof (admit_tracks _ _ _ Ht Hr Hn) as Ht'. apply (Hgo _ [r]); [done| |].
    + rewrite (tk_count _ _ _ Ht'), length_app, Nat2Z.inj_add, <- (tk_count _ _ _ Ht). cbn. lia.
    + apply Hmono. left. by left.
  - apply (Hgo st []); rewrite ?app_nil_r; [done|lia|]. eapply Hstop; eauto.
Qed.

Lemma indices_range : Forall (fun r => 0 <= r < n_rows m) (sorted_indices m).
Proof using Type.
  apply Forall_forall. intros r Hr. unfold sorted_indices in Hr. rewrite merge_sort_Permutation in Hr. by apply elem_of_upto.
Qed.

Lemma elem_of_indices r : 0 <= r < n_rows m -> r ∈ sorted_indices m.
Proof using Type. intros Hr. unfold sorted_indices. rewrite merge_sort_Permutation. by apply elem_of_upto. Qed.

Notation all_covered := (all_covered m).

Lemma coverage_spec skip target l st adm :
  (forall st r, skip st r = true -> is_admitted st r = true) ->
  Forall (fun r => 0 <= r < n_rows m) l -> tracks st adm ->
  exists new, tracks (pass m skip (useful m) target l st) (adm ++ new) /\
    admitted_count (pass m skip (useful m) target l st) <= Z.max target (admitted_count st) /\
    (target <= admitted_count (pass m skip (useful m) target l st) \/ forall r, r ∈ l -> all_covered (adm ++ new) r).
Proof using Hok Hnnz.
  intros Hskip. apply pass_spec.
  - intros st' adm' r Ht Hr _ Hw. by eapply useful_new.
  - intros st' adm' r Ht Hr [Hs|Hw] c Hc.
    + apply elem_of_touched. exists r. split; [|done]. apply (tk_flag _ _ _ Ht r Hr). by apply Hskip.
    + destruct (decide (c ∈ touched m adm')) as [|Hn]; [done|]. exfalso. apply not_true_iff_false in Hw. apply Hw.
      apply (useful_spec _ _ _ Ht Hr). by exists c.
  - intros adm' r new [Hin|Hd] c Hc; rewrite touched_app, elem_of_app; [right|left; by apply Hd].
    apply elem_of_touched. by exists r.
Qed.

Lemma fill_spec skip want target l st adm :
  (forall st r, skip st r = true \/ want st r = false <-> is_admitted st r = true) ->
  Forall (fun r => 0 <= r < n_rows m) l -> tracks st adm ->
  exists new, tracks (pass m skip want target l st) (adm ++ new) /\
    admitted_count (pass m skip want target l st) <= Z.max target (admitted_count st) /\
    (target <= admitted_count (pass m skip want target l st) \/ forall r, r ∈ l -> r ∈ adm ++ new).
Proof using Hok Hnnz.
  intros Hw. apply (pass_spec skip want target (fun adm r => r ∈ adm)).
  - intros st' adm' r Ht Hr Hs Hwr Hin. apply (tk_flag _ _ _ Ht r Hr), Hw in Hin as [Hin|Hin]; congruence.
  - intros st' adm' r Ht Hr H. by apply (tk_flag _ _ _ Ht r Hr), Hw.
  - intros adm' r new [H|H]; rewrite elem_of_app; auto.
Qed.

Lemma negb_admitted st r : false = true \/ negb (is_admitted st r) = false <-> is_admitted st r = true.
Proof using Type. destruct (is_admitted st r); naive_solver. Qed.

Lemma skip_admitted st r : is_admitted st r = true \/ true = false <-> is_admitted st r = true.
Proof using Type. naive_solver. Qed.

(** Every row the coverage pass admits brings a column. *)
Lemma coverage_gain target l : forall st adm,
  Forall (fun r => 0 <= r < n_rows m) l -> tracks st adm -> admitted_count st <= covered_cols st ->
  admitted_count (coverage_pass m target l st) <= covered_cols (coverage_pass m target l st).
Proof using Hok Hnnz.
  unfold coverage_pass. induction l as [|r l IH]; intros st adm Hl Ht Hc; cbn [pass]; [done|]. apply Forall_cons in Hl as [Hr Hl].
  destruct (target <=? admitted_count st); [done|]. destruct (useful m st r) eqn:E; [|by eapply IH].
  pose proof (admit_tracks _ _ _ Ht Hr (useful_new _ _ _ Ht Hr E)) as Ht'. eapply IH; [done|exact Ht'|].
  rewrite (tk_count _ _ _ Ht'), (tk_covered _ _ _ Ht'). rewrite (tk_count _ _ _ Ht), (tk_covered _ _ _ Ht) in Hc.
  rewrite length_app, touched_app. apply (useful_spec _ _ _ Ht Hr) in E as (c & Hin & Hn).
  assert (0 <= c < n_cols m) as Hcr. { destruct (co_sorted m Hok r Hr) as [_ Hf]. rewrite Forall_forall in Hf. by apply Hf. }
  set (f := fun x => if x =? c then true else 0 <? occ x (touched m adm)).
  assert (length (List.filter f (upto (n_cols m))) = S (length (List.filter (fun x => 0 <? occ x (touched m adm)) (upto (n_cols m))))) as Ef.
  { apply (filter_upto_one _ _ _ c Hcr); unfold f.
    - apply Z.ltb_ge. rewrite <- occ_pos in Hn. lia.
    - by rewrite Z.eqb_refl.
    - intros y Hy. by rewrite (proj2 (Z.eqb_neq y c) Hy). }
  assert (length (List.filter f (upto (n_cols m))) <= length (List.filter (fun x => (0 <? occ x (touched m adm ++ touched m [r]))%Z) (upto (n_cols m))))%nat as Hle.
  { apply filter_le. intros x _. unfold f. rewrite Z.ltb_lt, occ_pos, elem_of_app. destruct (Z.eqb_spec x c) as [->|_].
    - intros _. right. apply elem_of_touched. exists r. split; [by left|done].
    - rewrite Z.ltb_lt, occ_pos. by left. }
  cbn [length]. lia.
Qed.

Notation target_reached target st := (target <= admitted_count st).

(** The two passes: as many rows as the target, and every column that occurs. *)
Lemma select_spec target : 0 <= target < n_rows m ->
  exists adm, tracks (select_rows m target) adm /\ admitted_count (select_rows m target) = target /\
    (n_cols m <= target -> forall r, 0 <= r < n_rows m -> all_covered adm r).
Proof using Hok Hnnz.
  intros Ht. destruct (coverage_spec (fun _ _ => false) target (sorted_indices m) _ _ ltac:(done) indices_range tracks_start)
    as (adm & T1 & C1 & D1). cbn [app] in *. fold (coverage_pass m target (sorted_indices m) (no_rows m)) in T1, C1, D1.
  pose proof (coverage_gain target (sorted_indices m) _ _ indices_range tracks_start ltac:(done)) as G1.
  set (st1 := coverage_pass m target (sorted_indices m) (no_rows m)) in *. cbn in C1.
  assert (n_cols m <= target -> forall r, 0 <= r < n_rows m -> all_covered adm r) as Hcov.
  { intros Hnc r Hr. destruct D1 as [D1|D1]; [|by apply D1, elem_of_indices]. intros c Hc.
    rewrite (tk_covered _ _ _ T1) in G1. destruct (co_sorted m Hok r Hr) as [_ Hf]. rewrite Forall_forall in Hf. pose proof (Hf c Hc).
    pose proof (covered_le (touched m adm)). assert (forallb (fun c => 0 <? occ c (touched m adm)) (upto (n_cols m)) = true) as Hall.
    { apply List.filter_length_forallb. rewrite length_upto. lia. }
    rewrite forallb_forall in Hall. apply occ_pos, Z.ltb_lt, Hall. by apply list_elem_of_In, elem_of_upto. }
  unfold select_rows. fold st1. destruct (Z.ltb_spec (admitted_count st1) target) as [Hlt|Hge].
  - destruct (fill_spec (fun _ _ => false) (fun st r => negb (is_admitted st r)) target (sorted_indices m) _ _ negb_admitted indices_range T1)
      as (new & T2 & C2 & D2). exists (adm ++ new). split; [done|]. unfold fill_pass. split.
    + destruct D2 as [D2|D2]; [lia|]. exfalso.
      assert (n_rows m <= admitted_count (fill_pass m target (sorted_indices m) st1)) as Hall; [|unfold fill_pass in Hall; lia].
      rewrite (tk_count _ _ _ T2 : admitted_count (fill_pass m target (sorted_indices m) st1) = _).
      assert (length (upto (n_rows m)) <= length (adm ++ new))%nat as Hle; [|rewrite length_upto in Hle; lia].
      apply NoDup_incl_length; [apply NoDup_ListNoDup, NoDup_upto|]. intros x Hx%list_elem_of_In%elem_of_upto.
      apply list_elem_of_In, D2. by apply elem_of_indices.
    + intros Hnc r Hr c Hc. rewrite touched_app, elem_of_app. left. by apply (Hcov Hnc r Hr).
  - exists adm. split; [done|]. split; [lia|done].
Qed.

(** What the relaxation loop may do: admit more rows. *)
Lemma relax_tracks iters : forall target st adm, tracks st adm -> exists adm', tracks (relax m iters target st) adm'.
Proof using Hok Hnnz.
  induction iters as [|iters IH]; intros target st adm Ht; cbn [relax]; [by exists adm|].
  destruct (_ <=? _); [by exists adm|]. destruct (_ <=? _); [by exists adm|]. set (g := grown_target m target).
  destruct (coverage_spec is_admitted g (sorted_indices m) st adm ltac:(done) indices_range Ht) as (n1 & T1 & _).
  destruct (_ <? g).
  - destruct (fill_spec is_admitted (fun _ _ => true) g (sorted_indices m) _ _ skip_admitted indices_range T1) as (n2 & T2 & _).
    by eapply IH.
  - by eapply IH.
Qed.

Lemma relaxed_tracks target st st' adm : tracks st adm -> relaxed_rows m target st = Some st' -> exists adm', tracks st' adm'.
Proof using Hok Hnnz.
  intros Ht. unfold relaxed_rows. destruct (_ <? _); [|intros [= <-]; by exists adm].
  destruct (relax_tracks kRelaxationMaxIters target st adm Ht) as [adm' Ht']. revert Ht'.
  generalize (relax m kRelaxationMaxIters target st). intros st2 Ht'. destruct (_ <? _); [done|]. intros [= <-]. by exists adm'.
Qed.

(** The rows written out, in their order. *)
Lemma selected_spec st adm : tracks st adm ->
  let sel := List.filter (is_admitted st) (upto (n_rows m)) in
  sorted_row sel /\ Forall (fun i => 0 <= i < n_rows m) sel /\ sel ≡ₚ adm.
Proof using Type.
  intros T sel. assert (sorted_row sel) as Hs by apply filter_sorted, upto_sorted.
  assert (forall x, x ∈ sel <-> x ∈ adm) as Hin.
  { intros x. unfold sel. rewrite filter_true_In, elem_of_upto. pose proof (tk_range _ _ _ T) as Hr. rewrite Forall_forall in Hr.
    split; [intros [Hx E]; by apply (tk_flag _ _ _ T x Hx)|]. intros Hx. split; [by apply Hr|]. by apply (tk_flag _ _ _ T x (Hr x Hx)). }
  split; [done|]. split; [|apply NoDup_Permutation; [by apply sorted_row_NoDup|apply T|done]].
  apply Forall_forall. intros x Hx%Hin. pose proof (tk_range _ _ _ T) as Hr. rewrite Forall_forall in Hr. by apply Hr.
Qed.

Lemma build_rows_spec rm sel : forall offsets cols rmap,
  foldl (build_row m rm) (offsets, cols, rmap) sel
  = (offsets ++ map (wrap 32) (ends_from (Z.of_nat (length cols)) (map (csr_row m) sel)), cols ++ touched m sel, rmap ++ map (idx rm) sel).
Proof using Type.
  induction sel as [|r sel IH]; intros offsets cols rmap; cbn [foldl]; [unfold touched; cbn; by rewrite !app_nil_r|].
  cbn [build_row]. rewrite IH. unfold touched. cbn [map concat ends_from]. rewrite <- !app_assoc, length_app, Nat2Z.inj_add. done.
Qed.

Lemma ends_from_map (f : Z -> Z) ls : forall o, ends_from o (map (map f) ls) = ends_from o ls.
Proof using Type. induction ls as [|l ls IH]; intros o; [done|]. cbn [map ends_from]. by rewrite length_map, IH. Qed.

(** The truncated matrix. *)
Lemma build_keeps rm sel :
  sorted_row sel -> Forall (fun i => 0 <= i < n_rows m) sel ->
  keeps m rm sel (List.filter (fun c => 0 <? occ c (touched m sel)) (upto (n_cols m))) (build_truncated m rm sel).
Proof using Hok Hnnz.
  intros Hs Hr. pose proof (co_rows m Hok) as Hn. pose proof (co_cols m Hok) as Hnc.
  pose proof (sorted_row_NoDup _ Hs) as Hd. pose proof (touched_le_nnz m sel Hd Hr) as Hlen.
  destruct (nodup_range_perm _ _ Hd Hr) as [rest Hp]. apply Permutation_length in Hp. rewrite length_app, length_upto in Hp.
  unfold build_truncated. rewrite build_rows_spec. cbn [app length].
  set (w := foldl bump _ (touched m sel)).
  assert (Forall (fun c => 0 <= c < n_cols m) (touched m sel)) as Ht.
  { apply Forall_forall. intros c (r & H1 & H2)%elem_of_touched. rewrite Forall_forall in Hr.
    destruct (co_sorted m Hok r (Hr r H1)) as [_ Hf]. rewrite Forall_forall in Hf. by apply Hf. }
  assert (forall c, 0 <= c < n_cols m -> vget 0 w c = occ c (touched m sel)) as Hw.
  { assert (weights (replicate (Z.to_nat (n_cols m)) 0) (n_cols m) (fun _ => 0)) as W0.
    { split; [by rewrite length_replicate|]. intros c Hc. rewrite vget_replicate by lia. done. }
    destruct (weights_bump _ _ _ _ Ht W0) as [_ Hb]. intros c Hc. unfold w. rewrite Hb by done.
    pose proof (occ_nonneg c (touched m sel)). pose proof (occ_le_length c (touched m sel)). rewrite wrap_small; [done|unfold in_width; lia]. }
  assert (kept w (n_cols m) = List.filter (fun c => 0 <? occ c (touched m sel)) (upto (n_cols m))) as Ek.
  { apply List.filter_ext_in. intros c Hc%list_elem_of_In%elem_of_upto. by rewrite Hw. }
  destruct (compact_cols_spec w (n_cols m) Hnc) as (o2n & -> & Ho). rewrite <- Ek.
  assert (forall r c, r ∈ sel -> c ∈ csr_row m r -> c ∈ kept w (n_cols m)) as Hkept.
  { intros r c H1 H2. assert (c ∈ touched m sel) as Hc by (apply elem_of_touched; by exists r). rewrite Ek. apply filter_true_In.
    rewrite Forall_forall in Ht. split; [by apply elem_of_upto, Ht|]. by apply Z.ltb_lt, occ_pos. }
  rewrite (wrap_small 32 (Z.of_nat (length sel))) by (unfold in_width; lia).
  assert (length (kept w (n_cols m)) <= Z.to_nat (n_cols m))%nat as Hkl.
  { unfold kept. rewrite List.filter_length_le. by rewrite length_upto. }
  set (T := mkCSR _ _ _ _).
  assert (forall k, 0 <= k < Z.of_nat (length sel) -> csr_row T k = map (vget 0 o2n) (csr_row m (idx sel k)) /\ idx sel k ∈ sel) as Hrow.
  { intros k Hk. destruct (lookup_lt_is_Some_2 sel (Z.to_nat k)) as [r Hrk]; [lia|].
    assert (idx sel k = r) as -> by (unfold idx; by apply nth_lookup_Some). split; [|by eapply list_elem_of_lookup_2].
    unfold T, touched. rewrite <- (ends_from_map (vget 0 o2n)), concat_map. rewrite <- (Z2Nat.id k) by lia.
    apply csr_row_concat; [|by rewrite map_map, list_lookup_fmap, Hrk].
    rewrite <- concat_map, length_map. fold (touched m sel). lia. }
  constructor; cbn [tr_truncated tr_row_map tr_rows_removed tr_cols_removed]; try done.
  - constructor; [cbn; lia|cbn; lia|]. intros k Hk. destruct (Hrow k Hk) as [-> Hin]. rewrite Forall_forall in Hr.
    destruct (co_sorted m Hok _ (Hr _ Hin)) as [Hsr _]. split.
    + apply sorted_row_map; [done|]. intros x y Hx Hy. apply (o2n_mono w (n_cols m) o2n Ho); by eapply Hkept.
    + apply Forall_forall. intros c Hc. apply list_elem_of_In, in_map_iff in Hc as (x & <- & Hx%list_elem_of_In).
      apply (o2n_inverse w (n_cols m) o2n Ho). by eapply Hkept.
  - intros k Hk. destruct (Hrow k Hk) as [-> Hin]. rewrite map_map. rewrite (map_ext_in _ id), map_id; [done|].
    intros x Hx%list_elem_of_In. apply (o2n_inverse w (n_cols m) o2n Ho). by eapply Hkept.
  - rewrite wrap_small; [done|unfold in_width; lia].
  - rewrite wrap_small; [done|unfold in_width; lia].
Qed.

(** Whatever the relaxation does: the input itself, or the matrix of some of its rows. *)
Lemma truncate_cases rm factor extra excess :
  0 <= extra < 2 ^ 32 -> 0 <= excess < 2 ^ 32 ->
  truncateMatrix m rm factor extra excess = mkTrunc m rm 0 0 \/
  exists sel cols, keeps m rm sel cols (truncateMatrix m rm factor extra excess).
Proof using Hok Hnnz.
  intros He Hx. unfold truncateMatrix. pose proof (co_rows m Hok). pose proof (co_cols m Hok).
  destruct (d_leb _ _); [by left|]. destruct (Z.leb_spec (n_rows m) (truncation_target m extra excess)) as [|Hlt]; [by left|].
  destruct (select_spec (truncation_target m extra excess)) as (adm & T & _).
  { split; [|done]. unfold truncation_target. apply wrap_range. lia. }
  destruct (relaxed_rows _ _ _) as [st|] eqn:E; [|by left]. right.
  destruct (relaxed_tracks _ _ _ _ T E) as [adm' T']. destruct (selected_spec st adm' T') as (S1 & S2 & _).
  eexists _, _. by apply build_keeps.
Qed.

End tracking.

(** ** Lemmas: the whole routine on a consistent matrix *)

Section exact.
Context (m : HostMatrixCSR) (Hok : csr_ok m) (Hflat : flat m) (Hlen : Z.of_nat (length (col_indices m)) < 2 ^ 32).

Notation occurring := (List.filter (fun c => 0 <? occ c (col_indices m)) (upto (n_cols m))).

Lemma flat_nnz : nnz m < 2 ^ 32.
Proof using Hflat Hlen. unfold nnz, zsum_upto. rewrite <- length_touched, <- Hflat. done. Qed.

Lemma cols_with_coverage_spec : cols_with_coverage m = Z.of_nat (length occurring).
Proof using Hok Hflat Hlen.
  pose proof (co_cols m Hok) as Hnc.
  assert (Forall (fun c => 0 <= c < n_cols m) (col_indices m)) as Hf.
  { apply Forall_forall. intros c Hc. rewrite Hflat in Hc. apply elem_of_touched in Hc as (r & Hr%elem_of_upto & Hc).
    destruct (co_sorted m Hok r Hr) as [_ Hf]. rewrite Forall_forall in Hf. by apply Hf. }
  assert (input_col_count m = foldl bump (replicate (Z.to_nat (n_cols m)) 0) (col_indices m)) as E.
  { unfold input_col_count. clear Hflat Hlen. generalize (replicate (Z.to_nat (n_cols m)) 0). induction Hf as [|c l Hc _ IH]; intros w; [done|].
    cbn [foldl]. rewrite (proj2 (Z.ltb_lt _ _) (proj2 Hc)). apply IH. }
  assert (weights (replicate (Z.to_nat (n_cols m)) 0) (n_cols m) (fun _ => 0)) as W0.
  { split; [by rewrite length_replicate|]. intros c Hc. rewrite vget_replicate by lia. done. }
  destruct (weights_bump _ _ _ _ Hf W0) as [_ Hw]. rewrite <- E in Hw. unfold cols_with_coverage.
  apply (foldl_upto (fun i k => k = Z.of_nat (length (List.filter (fun c => 0 <? occ c (col_indices m)) (upto i))))); [lia|done|].
  intros i k Hi ->. rewrite upto_S, List.filter_app, length_app by lia. cbn [List.filter]. rewrite Hw by done.
  pose proof (occ_nonneg i (col_indices m)). pose proof (occ_le_length i (col_indices m)). rewrite (wrap_small 32 (0 + _)) by (unfold in_width; lia).
  rewrite Z.add_0_l. destruct (0 <? occ i (col_indices m)); [|by rewrite Nat.add_0_r]. cbn [length].
  pose proof (List.filter_length_le (fun c => 0 <? occ c (col_indices m)) (upto i)) as Hl. rewrite length_upto in Hl.
  rewrite wrap_small; [lia|unfold in_width; lia].
Qed.

(** The selected rows have every column that occurs. *)
Lemma select_exact target : n_cols m <= target < n_rows m ->
  exists adm, tracks m (select_rows m target) adm /\ Z.of_nat (length adm) = target /\
    List.filter (fun c => 0 <? occ c (touched m adm)) (upto (n_cols m)) = occurring.
Proof using Hok Hflat Hlen.
  intros Ht. pose proof (co_cols m Hok). destruct (select_spec m Hok flat_nnz target) as (adm & T & C & D); [lia|].
  exists adm. split; [done|]. split; [by rewrite <- (tk_count _ _ _ T)|]. apply List.filter_ext_in. intros c _.
  apply eq_true_iff_eq. rewrite !Z.ltb_lt, !occ_pos. rewrite Hflat, !elem_of_touched. pose proof (tk_range _ _ _ T) as Hr. rewrite Forall_forall in Hr.
  split; intros (r & H1 & H2).
  - exists r. split; [by apply elem_of_upto, Hr|done].
  - apply elem_of_upto in H1. apply elem_of_touched. by apply (D (proj1 Ht) r).
Qed.

Lemma never_relaxed target : n_cols m <= target < n_rows m -> relaxed_rows m target (select_rows m target) = Some (select_rows m target).
Proof using Hok Hflat Hlen.
  intros Ht. destruct (select_exact target Ht) as (adm & T & _ & E). unfold relaxed_rows.
  by rewrite (tk_covered _ _ _ T), E, cols_with_coverage_spec, Z.ltb_irrefl.
Qed.

Lemma truncate_spec rm factor extra excess :
  0 <= extra < 2 ^ 32 -> 0 <= excess < 2 ^ 32 ->
  let target := n_cols m + extra + excess in
  if d_leb factor (d_of_Z 0) || (n_rows m <=? target) then truncateMatrix m rm factor extra excess = mkTrunc m rm 0 0
  else exists selected, Z.of_nat (length selected) = target /\ keeps m rm selected occurring (truncateMatrix m rm factor extra excess).
Proof using Hok Hflat Hlen.
  intros He Hx target. pose proof (co_rows m Hok). pose proof (co_cols m Hok). unfold truncateMatrix.
  assert (truncation_target m extra excess = Z.min target (n_rows m)) as ->.
  { unfold truncation_target. rewrite (wrap_small 64 (n_cols m + extra)), (wrap_small 64 (n_cols m + extra + excess)) by (unfold in_width; lia). rewrite wrap_small; [done|unfold in_width; lia]. }
  destruct (d_leb factor (d_of_Z 0)); cbn [orb]; [done|]. destruct (Z.leb_spec (n_rows m) target) as [Hle|Hgt].
  { rewrite Z.min_r by done. by rewrite Z.leb_refl. }
  rewrite Z.min_l by lia. rewrite (proj2 (Z.leb_gt _ _) Hgt), never_relaxed by lia.
  destruct (select_exact target ltac:(lia)) as (adm & T & C & E). destruct (selected_spec m _ _ T) as (S1 & S2 & S3).
  set (sel := List.filter _ (upto (n_rows m))) in *. exists sel. split; [by rewrite S3|].
  rewrite <- E. erewrite (List.filter_ext_in (fun c => 0 <? occ c (touched m adm))); [apply build_keeps; try done; apply flat_nnz|].
  intros c _. cbn beta. f_equal. apply occ_perm. unfold touched. by rewrite S3.
Qed.

End exact.

(** ** Lemmas: kernel vectors *)

Section kernel.
Context (m : HostMatrixCSR) (rm sel cols : list Z) (r : TruncationResult).
Context (Hok : csr_ok m) (K : keeps m rm sel cols r).

Lemma picked_sum f bits : xsum f (picked sel bits) = xsum (fun k => kbit bits k && f (idx sel k)) (upto (Z.of_nat (length sel))).
Proof using Type. unfold picked. by rewrite xsum_map, xsum_filter. Qed.

Lemma picked_range bits : Forall (fun i => 0 <= i < n_rows m) (picked sel bits).
Proof using K.
  apply Forall_forall. intros x Hx. unfold picked in Hx. apply list_elem_of_In, in_map_iff in Hx as (k & <- & Hk%list_elem_of_In).
  apply filter_true_In in Hk as [Hk%elem_of_upto _]. pose proof (kp_range _ _ _ _ _ K) as Hr. rewrite Forall_forall in Hr. apply Hr.
  unfold idx. apply list_elem_of_In, nth_In. lia.
Qed.

Lemma extend_sum f bits :
  xsum (fun i => kbit (extend (n_rows m) sel bits) i && f i) (upto (n_rows m))
  = xsum (fun k => kbit bits k && f (idx sel k)) (upto (Z.of_nat (length sel))).
Proof using K.
  rewrite <- picked_sum, <- (xsum_entry (n_rows m) f (picked sel bits)) by apply picked_range. apply xsum_ext. intros i Hi%elem_of_upto.
  unfold extend. by rewrite kbit_pack_bits.
Qed.

Lemma extend_selected bits k : 0 <= k < Z.of_nat (length sel) -> kbit bits k = true -> kbit (extend (n_rows m) sel bits) (idx sel k) = true.
Proof using K.
  intros Hk Hb. assert (idx sel k ∈ sel) as Hin by (unfold idx; apply list_elem_of_In, nth_In; lia).
  pose proof (kp_range _ _ _ _ _ K) as Hr. rewrite Forall_forall in Hr. unfold extend. rewrite kbit_pack_bits by by apply Hr.
  rewrite entry_xsum, picked_sum. rewrite (xsum_single _ _ k); [by rewrite Hb, Z.eqb_refl|apply NoDup_upto|by apply elem_of_upto|].
  intros j Hj%elem_of_upto Hne. rewrite (proj2 (Z.eqb_neq _ _)); [by rewrite andb_false_r|]. intros E. apply Hne. unfold idx in E.
  assert (Z.to_nat j = Z.to_nat k); [|lia].
  eapply (proj1 (NoDup_nth sel 0)); [apply NoDup_ListNoDup, sorted_row_NoDup, K|lia|lia|exact E].
Qed.

(** Zero in the columns that are left is zero in all columns. *)
Lemma kernel_extend bits : kernel_vector (tr_truncated r) bits <-> kernel_vector m (extend (n_rows m) sel bits).
Proof using Hok K.
  assert (forall c, xsum (fun i => kbit (extend (n_rows m) sel bits) i && entry c (csr_row m i)) (upto (n_rows m))
    = xsum (fun k => kbit bits k && entry c (map (idx cols) (csr_row (tr_truncated r) k))) (upto (n_rows (tr_truncated r)))) as E.
  { intros c. rewrite (extend_sum (fun i => entry c (csr_row m i))), (kp_rows _ _ _ _ _ K). apply xsum_ext. intros k Hk%elem_of_upto.
    by rewrite (kp_row _ _ _ _ _ K k Hk). }
  assert (forall k, 0 <= k < n_rows (tr_truncated r) -> Forall (fun c => 0 <= c < Z.of_nat (length cols)) (csr_row (tr_truncated r) k)) as Hf.
  { intros k Hk. rewrite <- (kp_ncols _ _ _ _ _ K). by apply (co_sorted _ (kp_csr _ _ _ _ _ K)). }
  assert (NoDup cols) as Hd. { rewrite (kp_cols _ _ _ _ _ K). apply sorted_row_NoDup, filter_sorted, upto_sorted. }
  assert (forall j k, 0 <= j < Z.of_nat (length cols) -> 0 <= k < n_rows (tr_truncated r) ->
    entry (idx cols j) (map (idx cols) (csr_row (tr_truncated r) k)) = entry j (csr_row (tr_truncated r) k)) as Hcol.
  { intros j k Hj Hk. apply (entry_map (idx cols) _ _ (fun c => 0 <= c < Z.of_nat (length cols))); [|by apply Hf|done].
    intros x y Hx Hy Exy. unfold idx in Exy. assert (Z.to_nat x = Z.to_nat y); [|lia].
    eapply (proj1 (NoDup_nth cols 0)); [by apply NoDup_ListNoDup|lia|lia|exact Exy]. }
  split; intros Hz.
  - intros c. rewrite E. destruct (decide (c ∈ cols)) as [Hc|Hc].
    + apply list_elem_of_lookup in Hc as [i Hi]. pose proof (lookup_lt_Some _ _ _ Hi). rewrite <- (Hz (Z.of_nat i)).
      apply xsum_ext. intros k Hk%elem_of_upto. f_equal. rewrite <- (Hcol (Z.of_nat i) k) by lia. f_equal. unfold idx. rewrite Nat2Z.id.
      symmetry. by apply nth_lookup_Some.
    + apply xsum_false. intros k Hk%elem_of_upto. rewrite entry_not_in; [by rewrite andb_false_r|]. intros Hin. apply Hc.
      apply list_elem_of_In, in_map_iff in Hin as (j & <- & Hj%list_elem_of_In). pose proof (Hf k Hk) as Hfk. rewrite Forall_forall in Hfk.
      specialize (Hfk j Hj). cbn in Hfk. unfold idx. apply list_elem_of_In, nth_In. lia.
  - intros j. destruct (decide (0 <= j < Z.of_nat (length cols))) as [Hj|Hj].
    + rewrite <- (Hz (idx cols j)), E. apply xsum_ext. intros k Hk%elem_of_upto. f_equal. symmetry. by apply Hcol.
    + apply xsum_false. intros k Hk%elem_of_upto. rewrite entry_not_in; [by rewrite andb_false_r|]. intros Hin.
      pose proof (Hf k Hk) as Hfk. rewrite Forall_forall in Hfk. by apply Hj, Hfk.
Qed.

(** The row maps agree. *)
Lemma kept_node k : 0 <= k < Z.of_nat (length sel) -> 0 <= idx sel k < n_rows m /\ idx (tr_row_map r) k = idx rm (idx sel k).
Proof using K.
  intros Hk. pose proof (kp_range _ _ _ _ _ K) as Hr. rewrite Forall_forall in Hr. rewrite (kp_map _ _ _ _ _ K).
  split; [apply Hr; unfold idx; apply list_elem_of_In, nth_In; lia|].
  unfold idx at 1. rewrite (nth_indep _ 0 (idx rm 0)) by (rewrite length_map; lia). rewrite map_nth. done.
Qed.

(** The expansion of a vector does not depend on where it is taken. *)
Lemma expand_extend t bits :
  tree_wf t -> (forall i, 0 <= i < n_rows m -> node_ok t (idx rm i)) ->
  exists f0, forall f, (f0 <= f)%nat ->
    expandKernelVector f bits (n_rows (tr_truncated r)) (tr_row_map r) t
    = expandKernelVector f (extend (n_rows m) sel bits) (n_rows m) rm t.
Proof using Hok K.
  intros Hw Hn. pose proof (co_rows m Hok) as Hmr.
  destruct (leaves_at_exist t (upto (n_rows m)) (idx rm) Hw) as [lv Hlv]; [intros i Hi%elem_of_upto; by apply Hn|].
  destruct (expandKernelVector_spec t (extend (n_rows m) sel bits) (n_rows m) rm lv Hw) as [f1 H1]; [lia| |].
  { intros i Hi. split; [by apply Hn|by apply Hlv, elem_of_upto]. }
  destruct (expandKernelVector_spec t bits (n_rows (tr_truncated r)) (tr_row_map r) (fun k => lv (idx sel k)) Hw) as [f2 H2].
  { rewrite (kp_rows _ _ _ _ _ K). lia. }
  { rewrite (kp_rows _ _ _ _ _ K). intros k Hks. destruct (kept_node k Hks) as [Hi ->]. split; [by apply Hn|by apply Hlv, elem_of_upto]. }
  exists (Nat.max f1 f2). intros f Hf. destruct (H1 f ltac:(lia)) as (l1 & -> & S1 & _ & E1). destruct (H2 f ltac:(lia)) as (l2 & -> & S2 & _ & E2).
  f_equal. apply sorted_row_ext; [done|done|]. intros x. rewrite !entry_xsum, E1, E2.
  rewrite (extend_sum (fun i => xsum (fun y => y =? x) (lv i))), (kp_rows _ _ _ _ _ K). done.
Qed.

End kernel.

Lemma stage_reduction input m rm t g : stage m rm t (n_rows input) (base_of input) g -> reduction input t m rm.
Proof.
  intros S. pose proof (sg_faithful _ _ _ _ _ _ S) as Hf. pose proof (co_rows m (sg_csr _ _ _ _ _ _ S)). constructor.
  - apply S.
  - pose proof (sg_len _ _ _ _ _ _ S). lia.
  - by eapply f_tree.
  - intros i Hi. by apply (f_node _ _ _ _ _ _ Hf), elem_of_upto.
  - intros bits. by eapply stage_sound.
Qed.

Lemma truncate_step_reduction input m rm t g factor min_rows excess :
  stage m rm t (n_rows input) (base_of input) g -> nnz m < 2 ^ 32 -> 0 <= excess < 2 ^ 32 ->
  let '(red, rm') := truncate_step factor min_rows excess m rm in reduction input t red rm'.
Proof.
  intros S Hnnz Hx. pose proof (stage_reduction _ _ _ _ _ S) as R. pose proof (rd_csr _ _ _ _ R) as Hok. unfold truncate_step.
  destruct (_ && _); [|exact R].
  pose proof (truncate_cases m Hok Hnnz rm factor kCharColCount excess ltac:(done) Hx) as Hc.
  set (r := truncateMatrix m rm factor kCharColCount excess) in *. destruct (0 <? tr_rows_removed r) eqn:Er; [|exact R].
  destruct Hc as [->|(sel & cols & K)]; [done|]. pose proof (kp_rows _ _ _ _ _ K) as En. constructor.
  - apply K.
  - rewrite (kp_map _ _ _ _ _ K), length_map. by rewrite En.
  - apply R.
  - intros k Hk. rewrite En in Hk. destruct (kept_node m rm sel cols r K k Hk) as [Hi ->]. by apply R.
  - intros bits Hb. apply (kernel_extend m rm sel cols r Hok K) in Hb. destruct (rd_sound _ _ _ _ R _ Hb) as [f1 H1].
    destruct (expand_extend m rm sel cols r Hok K t bits (rd_tree _ _ _ _ R) (rd_nodes _ _ _ _ R)) as [f2 H2].
    exists (Nat.max f1 f2). intros f Hle. destruct (H1 f ltac:(lia)) as (rels & R1 & R2 & R3). exists rels.
    split; [by rewrite H2 by lia|]. split; [done|]. intros k Hk Hkb. rewrite En in Hk. apply (R3 (idx sel k)).
    + by apply (kept_node m rm sel cols r K).
    + by apply (extend_selected m rm sel cols r K).
Qed.

(** ** Properties *)

(** C9. On a consistent matrix truncation is the identity when it is switched off or
    the matrix has no more rows than the target [n_cols + n_extra_cols + k_excess];
    otherwise exactly the target number of rows is kept, in their order and with their
    labels, every column that occurs in the input still occurs, and the result is the
    matrix of the kept rows with its columns renumbered. *)
Theorem truncation_exact m rm factor extra excess :
  csr_ok m -> flat m -> Z.of_nat (length (col_indices m)) < 2 ^ 32 ->
  0 <= extra < 2 ^ 32 -> 0 <= excess < 2 ^ 32 ->
  let target := n_cols m + extra + excess in
  if d_leb factor (d_of_Z 0) || (n_rows m <=? target) then truncateMatrix m rm factor extra excess = mkTrunc m rm 0 0
  else exists selected,
    Z.of_nat (length selected) = target /\
    keeps m rm selected (List.filter (fun c => 0 <? occ c (col_indices m)) (upto (n_cols m))) (truncateMatrix m rm factor extra excess).
Proof. intros. by apply truncate_spec. Qed.

(** The relaxation loop of the truncation is never entered: the two passes leave no
    column uncovered, because each row of the first pass brings a column and the target
    is at least the number of columns. *)
Theorem relaxation_unreachable m target :
  csr_ok m -> flat m -> Z.of_nat (length (col_indices m)) < 2 ^ 32 -> n_cols m <= target < n_rows m ->
  relaxed_rows m target (select_rows m target) = Some (select_rows m target).
Proof. intros. by apply never_relaxed. Qed.

(** C8. Preprocessing followed by the orchestrator's truncation step: every kernel vector
    of the matrix that goes to the solver still expands, through the truncated row map and
    the merge tree, to a set of original relations whose rows sum to zero, and the set is not
    empty when the vector selects a row. *)
Theorem truncation_sound input k_max max_weight fuel factor min_rows excess :
  preprocessable input k_max -> enough_fuel input fuel -> 0 <= excess < 2 ^ 32 ->
  exists p, preprocessMatrix_cpu fuel input k_max max_weight = Some p /\
    (Z.of_nat (length (col_indices (pr_reduced p))) < 2 ^ 32 -> nnz (pr_reduced p) < 2 ^ 32 ->
     let '(red, rm) := truncate_step factor min_rows excess (pr_reduced p) (pr_row_map p) in
     forall bits, kernel_vector red bits ->
     exists f0, forall f, (f0 <= f)%nat ->
     exists rels, expandKernelVector f bits (n_rows red) rm (pr_merge_tree p) = Some rels /\
       relation_set input rels /\ forall k, 0 <= k < n_rows red -> kbit bits k = true -> rels <> []).
Proof.
  intros Hpre Hfuel Hx. destruct (pipeline_stage input k_max max_weight fuel Hpre Hfuel) as (p & E & Hs). exists p.
  split; [done|]. intros Hlen Hnnz. destruct (Hs Hlen) as (g & S1 & _).
  pose proof (truncate_step_reduction input _ _ _ g factor min_rows excess S1 Hnnz Hx) as R.
  destruct (truncate_step _ _ _ _ _) as [red rm]. apply R.
Qed.

(** ** Examples *)

Lemma ex_wide_ok : csr_ok ex_wide /\ flat ex_wide /\ Z.of_nat (length (col_indices ex_wide)) < 2 ^ 32.
Proof. split; [by apply csr_okb_ok; vm_compute|]. split; [by vm_compute|by vm_compute]. Defined.

Example ex_wide_result : tr_row_map (truncateMatrix ex_wide (upto 10) (d_of_Z 1) 1 1) = [0; 2; 3; 5; 6; 7; 8; 9].
Proof. vm_compute. reflexivity. Qed.

Lemma truncation_exact_witness :
  exists selected, Z.of_nat (length selected) = 8 /\
    keeps ex_wide (upto 10) selected [0; 1; 2; 3; 4] (truncateMatrix ex_wide (upto 10) (d_of_Z 1) 1 1).
Proof.
  exact (truncation_exact ex_wide (upto 10) (d_of_Z 1) 1 1 (proj1 ex_wide_ok) (proj1 (proj2 ex_wide_ok)) (proj2 (proj2 ex_wide_ok))
    ltac:(lia) ltac:(lia)).
Defined.

Lemma relaxation_unreachable_witness : relaxed_rows ex_wide 8 (select_rows ex_wide 8) = Some (select_rows ex_wide 8).
Proof.
  exact (relaxation_unreachable ex_wide 8 (proj1 ex_wide_ok) (proj1 (proj2 ex_wide_ok)) (proj2 (proj2 ex_wide_ok))
    (conj (proj1 (Z.leb_le 6 8) eq_refl) (proj1 (Z.ltb_lt 8 10) eq_refl))).
Defined.

Lemma ex_tall_preprocessable : preprocessable ex_tall 5.
Proof. constructor; [by apply csr_okb_ok; vm_compute|by vm_compute|by vm_compute]. Defined.

Example ex_tall_truncated :
  exists p, preprocessMatrix_cpu 305 ex_tall 5 200 = Some p /\ n_rows (pr_reduced p) = 60 /\
    n_rows (fst (truncate_step (d_of_Z 1) 0 0 (pr_reduced p) (pr_row_map p))) = 36.
Proof. eexists. split; [vm_compute; reflexivity|]. vm_compute. done. Qed.

Lemma truncation_sound_witness :
  enough_fuel ex_tall 305 /\
  exists p, preprocessMatrix_cpu 305 ex_tall 5 200 = Some p /\
    (Z.of_nat (length (col_indices (pr_reduced p))) < 2 ^ 32 -> nnz (pr_reduced p) < 2 ^ 32 ->
     let '(red, rm) := truncate_step (d_of_Z 1) 0 0 (pr_reduced p) (pr_row_map p) in
     forall bits, kernel_vector red bits ->
     exists f0, forall f, (f0 <= f)%nat ->
     exists rels, expandKernelVector f bits (n_rows red) rm (pr_merge_tree p) = Some rels /\
       relation_set ex_tall rels /\ forall k, 0 <= k < n_rows red -> kbit bits k = true -> rels <> []).
Proof.
  assert (enough_fuel ex_tall 305) as H1 by by vm_compute.
  exact (conj H1 (truncation_sound ex_tall 5 200 305 (d_of_Z 1) 0 0 ex_tall_preprocessable H1 (conj (Z.le_refl 0) (eq_refl Lt : 0 < 2 ^ 32)))).
Defined.
