(* ===== verification/Congruence.v ===== *)
(** Congruence modulo an integer as a setoid, finite products, and what two different square
    roots modulo [N] say about its factors: shared by the files that model the square-root step. *)
From Stdlib Require Import ZArith Lia Setoid Morphisms.
From stdpp Require Import base gmap sets list.
From S2P Require Import Prelude Gf2.
#[local] Open Scope Z_scope.

Definition cong (n a b : Z) : Prop := a mod n = b mod n.

Declare Scope cong_scope.
Notation "a ≅{ n } b" := (cong n a b) (at level 70, n at level 1, format "a  ≅{ n }  b") : cong_scope.
#[global] Open Scope cong_scope.

(** The product of a list, and of [f 0 .. f (n - 1)]. *)
Definition zprod (l : list Z) : Z := foldr Z.mul 1 l.
Definition zprod_upto (n : Z) (f : Z -> Z) : Z := zprod (map f (upto n)).

(** ** The setoid *)

#[global] Instance cong_equivalence n : Equivalence (cong n).
Proof. split; [done|by intros x y|unfold cong; intros x y z; congruence]. Qed.

#[global] Instance cong_add n : Proper (cong n ==> cong n ==> cong n) Z.add.
Proof. intros a a' Ha b b' Hb. unfold cong in *. by rewrite Zplus_mod, Ha, Hb, <- Zplus_mod. Qed.
#[global] Instance cong_sub n : Proper (cong n ==> cong n ==> cong n) Z.sub.
Proof. intros a a' Ha b b' Hb. unfold cong in *. by rewrite Zminus_mod, Ha, Hb, <- Zminus_mod. Qed.
#[global] Instance cong_mul n : Proper (cong n ==> cong n ==> cong n) Z.mul.
Proof. intros a a' Ha b b' Hb. unfold cong in *. by rewrite Zmult_mod, Ha, Hb, <- Zmult_mod. Qed.
#[global] Instance cong_opp n : Proper (cong n ==> cong n) Z.opp.
Proof. intros a a' Ha. rewrite <- !Z.sub_0_l. by rewrite Ha. Qed.
#[global] Instance cong_pow n : Proper (cong n ==> eq ==> cong n) Z.pow.
Proof. intros a a' Ha e ? <-. unfold cong in *. by rewrite <- Z.mod_pow_l, Ha, Z.mod_pow_l. Qed.

Lemma cong_mod n a : a mod n ≅{n} a.
Proof. apply Zmod_mod. Qed.

Lemma cong_divide n a b : n <> 0 -> a ≅{n} b <-> (n | a - b).
Proof.
  intros Hn. unfold cong. split.
  - intros H. apply Z.mod_divide; [done|]. by rewrite Zminus_mod, H, Z.sub_diag, Z.mod_0_l.
  - intros [k Hk]. replace a with (b + k * n) by lia. by apply Z.mod_add.
Qed.

#[export] Hint Resolve cong_mod : mpqs.

(** ** Products *)

#[global] Arguments zprod : simpl never.

Lemma zprod_nil : zprod [] = 1.
Proof. done. Qed.

Lemma zprod_cons x l : zprod (x :: l) = x * zprod l.
Proof. done. Qed.

Lemma zprod_app l1 l2 : zprod (l1 ++ l2) = zprod l1 * zprod l2.
Proof. induction l1 as [|x l1 IH]; [by rewrite zprod_nil, Z.mul_1_l|]. cbn [app]. rewrite !zprod_cons, IH. ring. Qed.

Lemma zprod_mul {A} (f g : A -> Z) l : zprod (map (fun x => f x * g x) l) = zprod (map f l) * zprod (map g l).
Proof. induction l as [|x l IH]; [done|]. cbn [map]. rewrite !zprod_cons, IH. ring. Qed.

Lemma zprod_pow {A} (f : A -> Z) (e : Z) l : 0 <= e -> zprod (map (fun x => f x ^ e) l) = zprod (map f l) ^ e.
Proof.
  intros He. induction l as [|x l IH]; [cbn [map]; by rewrite zprod_nil, Z.pow_1_l|]. cbn [map]. by rewrite !zprod_cons, IH, Z.pow_mul_l.
Qed.

Lemma zprod_exp {A} (f : A -> Z) (b : Z) l : Forall (fun x => 0 <= f x) l -> zprod (map (fun x => b ^ f x) l) = b ^ zsum (map f l).
Proof.
  induction 1 as [|x l Hx Hl IH]; [done|]. cbn [map]. rewrite zprod_cons, zsum_cons, IH, Z.pow_add_r; [done|done|].
  apply zsum_nonneg. by apply Forall_map.
Qed.

Lemma zprod_one {A} (l : list A) : zprod (map (fun _ => 1) l) = 1.
Proof. induction l as [|x l IH]; [done|]. cbn [map]. by rewrite zprod_cons, IH. Qed.

Lemma zprod_perm l1 l2 : l1 ≡ₚ l2 -> zprod l1 = zprod l2.
Proof. induction 1; rewrite ?zprod_cons; lia. Qed.

Lemma zprod_cong n {A} (f g : A -> Z) l : Forall (fun x => f x ≅{n} g x) l -> zprod (map f l) ≅{n} zprod (map g l).
Proof. induction 1 as [|x l Hx _ IH]; [done|]. cbn [map]. rewrite !zprod_cons. by rewrite Hx, IH. Qed.

Lemma zprod_upto_0 f : zprod_upto 0 f = 1.
Proof. done. Qed.

Lemma zprod_upto_S n f : 0 <= n -> zprod_upto (n + 1) f = zprod_upto n f * f n.
Proof. intros H. unfold zprod_upto. rewrite upto_S, map_app, zprod_app by done. cbn [map]. by rewrite zprod_cons, zprod_nil, Z.mul_1_r. Qed.

Lemma zprod_upto_ext n f g : (forall i, 0 <= i < n -> f i = g i) -> zprod_upto n f = zprod_upto n g.
Proof.
  intros H. unfold zprod_upto. f_equal. apply map_ext_in. intros i Hi. apply H, elem_of_upto, list_elem_of_In, Hi.
Qed.

Lemma zprod_upto_mul n f g : zprod_upto n (fun i => f i * g i) = zprod_upto n f * zprod_upto n g.
Proof. apply zprod_mul. Qed.

(** A product over a range with one factor that is not 1. *)
Lemma zprod_upto_single n f k : 0 <= k < n -> (forall i, 0 <= i < n -> i <> k -> f i = 1) -> zprod_upto n f = f k.
Proof.
  intros Hk H. assert (forall m, 0 <= m -> m <= n -> zprod_upto m f = if k <? m then f k else 1) as HP.
  { intros m Hm. pattern m. apply natlike_ind; [| |done].
    - intros _. destruct (Z.ltb_spec k 0); [lia|done].
    - clear m Hm. intros m Hm IH Hle. change (Z.succ m) with (m + 1). rewrite zprod_upto_S, IH by lia.
      destruct (Z.ltb_spec k m), (Z.ltb_spec k (m + 1)); try lia.
      + rewrite (H m); lia.
      + assert (m = k) as -> by lia. lia.
      + rewrite (H m); lia. }
  rewrite HP by lia. destruct (Z.ltb_spec k n); [done|lia].
Qed.

(** ** Square roots and factors *)

(** Two square roots of the same residue that are not equal up to sign split [N]. *)
Lemma square_roots_split N X Y :
  1 < N -> X * X ≅{N} Y * Y -> ~ X ≅{N} Y -> ~ X ≅{N} - Y -> 1 < Z.gcd (X - Y) N < N.
Proof.
  intros HN Hsq Hne Hne'. pose proof (Z.gcd_nonneg (X - Y) N). pose proof (Z.gcd_divide_r (X - Y) N) as Hd.
  assert (Z.gcd (X - Y) N <> 0) as H0 by (intros E; apply Z.gcd_eq_0_r in E; lia).
  assert (Z.gcd (X - Y) N <= N) as Hle by (apply Z.divide_pos_le; [lia|done]).
  apply cong_divide in Hsq; [|lia]. replace (X * X - Y * Y) with ((X - Y) * (X + Y)) in Hsq by ring.
  assert (Z.gcd (X - Y) N <> 1) as H1.
  { intros E. apply Hne'. apply cong_divide; [lia|]. replace (X - - Y) with (X + Y) by ring.
    apply Z.gauss with (X - Y); [done|]. by rewrite Z.gcd_comm. }
  assert (Z.gcd (X - Y) N <> N) as HN'; [|lia].
  intros E. apply Hne. apply cong_divide; [lia|]. rewrite <- E. apply Z.gcd_divide_l.
Qed.

Lemma gcd_abs_diff X Y N : Z.gcd (if X <? Y then Y - X else X - Y) N = Z.gcd (X - Y) N.
Proof. destruct (Z.ltb_spec X Y); [|done]. replace (Y - X) with (- (X - Y)) by ring. apply Z.gcd_opp_l. Qed.

Lemma gcd_mod_l a N : N <> 0 -> Z.gcd (a mod N) N = Z.gcd a N.
Proof. intros H. by rewrite Z.gcd_mod, Z.gcd_comm. Qed.
