(* ===== verification/SqrtStep.v ===== *)
(** The square-root step on the host ([src/src/sqrt/sqrt_step.cu]: [ComputeX], [ComputeY],
    [SanityCheck], [Perform]): from a set of relations whose exponents are even to a congruence
    of squares and a factorisation. [None] stands for fuel that ran out in a power or gcd; the
    theorems show that it does not. *)
From Stdlib Require Import ZArith Lia Setoid Morphisms.
From stdpp Require Import base gmap sets list.
From S2P Require Import Prelude UInt512 UInt512Div Montgomery MathUtils Soa Gf2 Batches Congruence.
#[local] Open Scope Z_scope.

(** ** Code *)

Definition unpack_bits_local (packed : list Z) (n_bits : Z) : list Z :=
  map (fun i => if negb (Z.land (Z.shiftr (idx packed (i / 64)) (i mod 64)) 1 =? 0) then 1 else 0) (upto n_bits).

Definition ComputeX_step (mask : list Z) (batch : HostRelationBatch) (mont : Montgomery) (X_mont : uint512) (i : Z) : uint512 :=
  if negb (idx mask i =? 0) then mont_mul mont X_mont (mont_transform mont (u512_of_Z (idx (sqrt_Q batch) i)))
  else X_mont.

Definition ComputeX (mask : list Z) (batch : HostRelationBatch) (mont : Montgomery) : uint512 :=
  let X_mont := mont_transform mont (u512_of_u32 1) in
  let n := Z.min (Z.of_nat (length mask)) (num_relations batch) in
  mont_reduce mont (foldl (ComputeX_step mask batch mont) X_mont (upto n)).

(** The accumulators of [ComputeY]. *)
Record totals := mkTotals {
  total_exponents : list Z;
  total_exp_minus_1 : Z;
  total_exp_2 : Z;
  Y_large_primes_mont : uint512
}.

Definition add_factor (batch : HostRelationBatch) (exps : list Z) (k : Z) : list Z :=
  let fb_idx := idx (factor_indices batch) k in
  if fb_idx <? Z.of_nat (length exps) then vset exps fb_idx (wrap 64 (vget 0 exps fb_idx + idx (factor_counts batch) k))
  else exps.

Definition ComputeY_step (mask : list Z) (batch : HostRelationBatch) (mont : Montgomery) (t : totals) (i : Z) : totals :=
  if negb (idx mask i =? 0) then
    let lp := idx (large_primes batch) i in
    let start := idx (factor_offsets batch) i in
    let end_ := idx (factor_offsets batch) (i + 1) in
    {| total_exponents := foldl (add_factor batch) (total_exponents t) (map (Z.add start) (upto (end_ - start)));
       total_exp_minus_1 :=
         if negb (idx (signs batch) i =? 1) then wrap 64 (total_exp_minus_1 t + 1) else total_exp_minus_1 t;
       total_exp_2 := wrap 64 (total_exp_2 t + wrap 64 (idx (val_2_exps batch) i));
       Y_large_primes_mont :=
         if 1 <? lp then mont_mul mont (Y_large_primes_mont t) (mont_transform mont (u512_of_u128 lp))
         else Y_large_primes_mont t |}
  else t.

(** Multiply by [base ^ (e / 2)]; the exponent is truncated to 32 bits first. *)
Definition power_term (mont : Montgomery) (Y_mont : uint512) (base e : Z) : option uint512 :=
  term ← mont_pow mont (mont_transform mont (u512_of_u32 base)) (u512_of_u32 (wrap 32 e / 2));
  Some (mont_mul mont Y_mont term).

Definition fb_step (mont : Montgomery) (factor_base exps : list Z) (Y : option uint512) (j : Z) : option uint512 :=
  Y_mont ← Y;
  if vget 0 exps j =? 0 then Some Y_mont else power_term mont Y_mont (idx factor_base j) (vget 0 exps j).

Definition ComputeY (N : uint512) (mask : list Z) (batch : HostRelationBatch) (factor_base : list Z) (mont : Montgomery) : option uint512 :=
  let one := mont_transform mont (u512_of_u32 1) in
  let n := Z.min (Z.of_nat (length mask)) (num_relations batch) in
  let t := foldl (ComputeY_step mask batch mont) (mkTotals (replicate (length factor_base) 0) 0 0 one) (upto n) in
  let Y_mont := if negb (Z.land (total_exp_minus_1 t / 2) 1 =? 0) then negate_mod_inplace one N else one in
  Y_mont ← (if 0 <? total_exp_2 t then power_term mont Y_mont 2 (total_exp_2 t) else Some Y_mont);
  Y_mont ← foldl (fb_step mont factor_base (total_exponents t)) (Some Y_mont) (upto (Z.of_nat (length factor_base)));
  Some (mont_reduce mont (mont_mul mont Y_mont (Y_large_primes_mont t))).

Definition SanityCheck (N X Y : uint512) : option bool :=
  X2 ← modpow_u32 X 2 N;
  Y2 ← modpow_u32 Y 2 N;
  Some (u512_eqb X2 Y2).

Definition abs_diff (X Y : uint512) : uint512 := if u512_ltb X Y then sub Y X else sub X Y.
Definition trivial_factor (N f : uint512) : bool := is_one f || u512_eqb f N.

(** Multiply by the correction for split large primes, given in Montgomery form. *)
Definition apply_correction (mont : Montgomery) (Y correction : uint512) : uint512 :=
  mont_reduce mont (mont_mul mont (mont_transform mont Y) correction).

Definition Perform (N : uint512) (solution_bits : list Z) (batch : HostRelationBatch) (factor_base : list Z)
    (lp_correction : option uint512) : option (uint512 * uint512) :=
  let mask := unpack_bits_local solution_bits (num_relations batch) in
  let mont := Montgomery_init N in
  let X := ComputeX mask batch mont in
  Y ← ComputeY N mask batch factor_base mont;
  let Y := match lp_correction with Some c => apply_correction mont Y c | None => Y end in
  if is_zero Y then Some (u512_of_u32 0, u512_of_u32 0)
  else
    sane ← SanityCheck N X Y;
    if negb sane then Some (u512_of_u32 0, u512_of_u32 0)
    else
      factor1 ← gcd (abs_diff X Y) N;
      factor2 ← gcd (add_mod X Y N) N;
      if negb (trivial_factor N factor1) then Some (factor1, div N factor1)
      else if negb (trivial_factor N factor2) then Some (factor2, div N factor2)
      else Some (u512_of_u32 1, N).

(** ** Vocabulary of the specifications *)

Definition tot_minus (rs : list relation) : Z := zsum (map neg_count rs).
Definition tot_2 (rs : list relation) : Z := zsum (map r_val2 rs).
Definition tot_p (rs : list relation) (j : Z) : Z := zsum (map (expo j) rs).

(** What the code computes as [Y]: every exponent halved. *)
Definition Y_root (factor_base : list Z) (rs : list relation) : Z :=
  (-1) ^ (tot_minus rs / 2) * 2 ^ (tot_2 rs / 2)
  * zprod_upto (Z.of_nat (length factor_base)) (fun j => idx factor_base j ^ (tot_p rs j / 2)) * zprod (map lp_val rs).

(** The right-hand side of a relation: the signed factorisation, a large prime squared. *)
Definition rhs (factor_base : list Z) (r : relation) : Z :=
  (-1) ^ neg_count r * 2 ^ r_val2 r * zprod (map (fun f => idx factor_base f.1 ^ f.2) (r_factors r)) * (lp_val r) ^ 2.

(** Exponents small enough for the 32-bit truncations. *)
Record exponents_fit (factor_base : list Z) (rs : list relation) : Prop := mkFit {
  fit_minus : tot_minus rs < 2 ^ 32;
  fit_2 : 0 <= tot_2 rs < 2 ^ 32;
  fit_p : forall j, 0 <= j < Z.of_nat (length factor_base) -> tot_p rs j < 2 ^ 32
}.

(** Every exponent of the product of the relations is even. *)
Record all_even (factor_base : list Z) (rs : list relation) : Prop := mkEven {
  even_minus : Z.even (tot_minus rs) = true;
  even_2 : Z.even (tot_2 rs) = true;
  even_p : forall j, 0 <= j < Z.of_nat (length factor_base) -> Z.even (tot_p rs j) = true
}.

Definition factors_in_base (factor_base : list Z) (r : relation) : Prop :=
  0 <= r_val2 r /\ Forall (fun f => 0 <= f.1 < Z.of_nat (length factor_base) /\ 0 <= f.2) (r_factors r).

(** ** Vocabulary of the specifications *)

Definition add_factor_rel (exps : list Z) (p : Z * Z) : list Z :=
  if p.1 <? Z.of_nat (length exps) then vset exps p.1 (wrap 64 (vget 0 exps p.1 + p.2)) else exps.

(** One relation's effect on the totals. *)
Definition add_relation (mont : Montgomery) (t : totals) (r : relation) : totals :=
  {| total_exponents := foldl add_factor_rel (total_exponents t) (r_factors r);
     total_exp_minus_1 := if negb (r_sign r =? 1) then wrap 64 (total_exp_minus_1 t + 1) else total_exp_minus_1 t;
     total_exp_2 := wrap 64 (total_exp_2 t + wrap 64 (r_val2 r));
     Y_large_primes_mont :=
       if 1 <? r_lp r then mont_mul mont (Y_large_primes_mont t) (mont_transform mont (u512_of_u128 (r_lp r)))
       else Y_large_primes_mont t |}.

(** The totals of a list of relations, as the accumulators hold them. *)
Record counted (mont : Montgomery) (fbn : nat) (t : totals) (rs : list relation) : Prop := mkCounted {
  ct_len : length (total_exponents t) = fbn;
  ct_width : Forall (in_width 64) (total_exponents t);
  ct_p : forall j, 0 <= j < Z.of_nat fbn -> vget 0 (total_exponents t) j = wrap 64 (tot_p rs j);
  ct_minus : total_exp_minus_1 t = wrap 64 (tot_minus rs);
  ct_2 : total_exp_2 t = wrap 64 (tot_2 rs);
  ct_lp : mont_form mont (Y_large_primes_mont t) (zprod (map lp_val rs))
}.

Definition correction_value (mont : Montgomery) (c : option uint512) (k : Z) : Prop :=
  match c with None => k = 1 | Some c => mont_form mont c k end.

(** [r_sqrt_Q^2] is congruent to the signed factorisation the relation records. *)
Definition relation_holds (n : Z) (fb : list Z) (r : relation) : Prop :=
  factors_in_base fb r /\ r_sqrt_Q r * r_sqrt_Q r ≅{n} rhs fb r.

(** [1649 = 17 * 97]: [41^2 = 2^5] and [43^2 = 2^3 * 5^2]. *)
Definition rels_1649 : list relation := [mkRel 41 1 5 1 0 []; mkRel 43 1 3 1 0 [(0, 2)]].

Lemma unpack_bits_spec packed n i : 0 <= i < n -> negb (idx (unpack_bits_local packed n) i =? 0) = kbit packed i.
Proof.
  intros Hi. unfold unpack_bits_local. change (idx ?l i) with (vget 0 l i). rewrite vget_map_upto by done.
  unfold kbit. set (w := idx packed (i / 64)). pose proof (Z.mod_pos_bound i 64 ltac:(lia)).
  assert (Z.land (Z.shiftr w (i mod 64)) 1 = Z.b2z (Z.testbit w (i mod 64))) as ->.
  { pose proof (Z.land_ones (Z.shiftr w (i mod 64)) 1 ltac:(lia)) as E. change (Z.ones 1) with 1 in E. change (2 ^ 1) with 2 in E.
    rewrite E, <- Z.bit0_mod, Z.shiftr_spec by lia. by rewrite Z.add_0_l. }
  by destruct (Z.testbit w (i mod 64)).
Qed.

(** ** Lemmas: Montgomery forms up to congruence *)

Section forms.
Context (mont : Montgomery) (Hmont : mont_ok mont).
Notation n := (u512_val (Montgomery.N mont)).
Notation form := (mont_form mont).

#[local] Instance mont_form_cong x : Proper (cong n ==> iff) (form x).
Proof.
  intros v w E. unfold mont_form. assert (v * R512 ≅{n} w * R512) as E' by (by rewrite E). unfold cong in E'. by rewrite E'.
Qed.

Lemma form_of x v w : form x v -> v ≅{n} w -> form x w.
Proof using Type. intros H E. by rewrite <- E. Qed.

Lemma form_transform a v : u512_ok a -> u512_val a = v -> form (mont_transform mont a) v.
Proof using Hmont. intros Ha <-. by apply mont_transform_form. Qed.

Lemma form_one : form (mont_transform mont (u512_of_u32 1)) 1.
Proof using Hmont. apply form_transform; apply u512_one. Qed.

Lemma form_u32 v : in_width 32 v -> form (mont_transform mont (u512_of_u32 v)) v.
Proof using Hmont. intros Hv. by apply form_transform; apply u512_one_ok. Qed.

Lemma form_u512_of_Z v : in_width 512 v -> form (mont_transform mont (u512_of_Z v)) v.
Proof using Hmont.
  intros Hv. destruct (u512_of_Z_spec v) as [O E]. apply form_transform; [done|]. by rewrite E, wrap_small.
Qed.

Lemma form_negate x v : form x v -> form (negate_mod_inplace x (Montgomery.N mont)) (- v).
Proof using Hmont.
  intros [Hx E]. destruct (negate_mod_spec _ (mo_N _ Hmont) x Hx) as [G1 G2]. split; [done|]. rewrite G2, E.
  assert (- (v * R512) mod n ≅{n} - (v * R512)) as Hc by apply cong_mod. change ((- ((v * R512) mod n)) ≅{n} - v * R512).
  replace (- v * R512) with (- (v * R512)) by ring. by rewrite cong_mod.
Qed.

(** Multiplying accumulators: a fold of products keeps the form. *)
Lemma form_fold {A} (f : A -> uint512) (g : A -> Z) l acc a :
  Forall (fun x => form (f x) (g x)) l -> form acc a -> form (foldl (fun acc x => mont_mul mont acc (f x)) acc l) (a * zprod (map g l)).
Proof using Hmont.
  intros H. revert acc a. induction H as [|x l Hx _ IH]; intros acc a Ha; cbn [foldl map].
  { by rewrite zprod_nil, Z.mul_1_r. }
  rewrite zprod_cons, Z.mul_assoc. apply IH. by apply mont_mul_form.
Qed.

Lemma power_term_form Y y base e :
  form Y y -> in_width 32 base -> in_width 32 e ->
  exists r, power_term mont Y base e = Some r /\ form r (y * base ^ (e / 2)).
Proof using Hmont.
  intros HY Hb He. unfold power_term. rewrite (wrap_small 32) by done. unfold in_width in *.
  assert (in_width 32 (e / 2)) as Hh by (split; [apply Z.div_pos|apply Z.div_lt_upper_bound]; lia).
  destruct (u512_one_ok _ Hh) as [O E].
  destruct (mont_pow_form mont Hmont _ (u512_of_u32 (e / 2)) base (form_u32 base ltac:(done)) O) as (t & -> & Ft).
  rewrite E in Ft. cbn [mbind option_bind]. eexists. split; [done|]. by apply mont_mul_form.
Qed.

Lemma form_value x v : form x v -> u512_reduced (Montgomery.N mont) (mont_reduce mont x) /\ u512_val (mont_reduce mont x) = v mod n.
Proof using Hmont. apply (mont_reduce_form mont Hmont). Qed.

(** A reduced number is determined by its residue. *)
Lemma reduced_eq x y :
  u512_reduced (Montgomery.N mont) x -> u512_reduced (Montgomery.N mont) y -> u512_val x ≅{n} u512_val y -> x = y.
Proof using Type.
  intros [Ox Lx] [Oy Ly] E. apply u512_val_inj; [done|done|]. pose proof (u512_bound _ Ox). pose proof (u512_bound _ Oy).
  unfold cong in E. by rewrite !Z.mod_small in E by lia.
Qed.

End forms.

(** ** Lemmas: the two loops *)

Section loops.
Context (mont : Montgomery) (b : HostRelationBatch) (rs : list relation) (Hb : repr b rs) (packed : list Z).
Notation mask := (unpack_bits_local packed (num_relations b)).
Notation chosen := (select (kbit packed) 0 rs).

Lemma mask_bound : Z.min (Z.of_nat (length mask)) (num_relations b) = Z.of_nat (length rs).
Proof using Hb.
  unfold unpack_bits_local. rewrite length_map, length_upto, (repr_num_relations b rs Hb). lia.
Qed.

Lemma mask_at i r : rs !! i = Some r -> negb (idx mask (Z.of_nat i) =? 0) = kbit packed (Z.of_nat i).
Proof using Hb.
  intros Hi. apply unpack_bits_spec. rewrite (repr_num_relations b rs Hb). apply lookup_lt_Some in Hi. lia.
Qed.

Lemma ComputeX_selected :
  ComputeX mask b mont
  = mont_reduce mont (foldl (fun X r => mont_mul mont X (mont_transform mont (u512_of_Z (r_sqrt_Q r)))) (mont_transform mont (u512_of_u32 1)) chosen).
Proof using Hb.
  unfold ComputeX. rewrite mask_bound. f_equal. apply foldl_select. intros i r acc Hi. unfold ComputeX_step.
  rewrite (mask_at i r Hi), (idx_map_prefix _ rs _ i r (repr_sqrt_Q b rs Hb) Hi). done.
Qed.

Lemma totals_selected t :
  foldl (ComputeY_step mask b mont) t (upto (Z.min (Z.of_nat (length mask)) (num_relations b))) = foldl (add_relation mont) t chosen.
Proof using Hb.
  rewrite mask_bound. apply foldl_select. intros i r acc Hi. unfold ComputeY_step, add_relation.
  rewrite (mask_at i r Hi), (idx_map_prefix _ rs _ i r (repr_signs b rs Hb) Hi), (idx_map_prefix _ rs _ i r (repr_val2 b rs Hb) Hi),
    (idx_map_prefix _ rs _ i r (repr_lp b rs Hb) Hi).
  rewrite (csr_loop (add_factor b) add_factor_rel b rs i r); [done|done|done|].
  intros k p e E1 E2. unfold add_factor, add_factor_rel. by rewrite E1, E2.
Qed.

End loops.

Lemma add_factors_spec fs exps j :
  Forall (fun f => 0 <= f.1) fs -> Forall (in_width 64) exps -> 0 <= j < Z.of_nat (length exps) ->
  let e := foldl add_factor_rel exps fs in
  length e = length exps /\ Forall (in_width 64) e /\
  vget 0 e j = wrap 64 (vget 0 exps j + zsum (map (fun f => if f.1 =? j then f.2 else 0) fs)).
Proof.
  intros Hfs. revert exps. induction Hfs as [|f fs Hf _ IH]; intros exps He Hj; cbn [foldl map].
  { split; [done|]. split; [done|]. cbn. rewrite Z.add_0_r. symmetry. apply wrap_small. unfold vget.
    rewrite Forall_forall in He. apply He. apply list_elem_of_In, nth_In. lia. }
  assert (length (add_factor_rel exps f) = length exps) as L by (unfold add_factor_rel; destruct (_ <? _); [apply length_vset|done]).
  assert (Forall (in_width 64) (add_factor_rel exps f)) as W.
  { unfold add_factor_rel. destruct (_ <? _); [|done]. apply Forall_insert; [done|]. by apply wrap_range. }
  assert (vget 0 (add_factor_rel exps f) j = wrap 64 (vget 0 exps j + (if f.1 =? j then f.2 else 0))) as V.
  { unfold add_factor_rel. destruct (Z.ltb_spec f.1 (Z.of_nat (length exps))).
    - destruct (Z.eqb_spec f.1 j) as [->|Hne].
      + by rewrite vget_vset_eq.
      + rewrite vget_vset_ne by lia. rewrite Z.add_0_r. symmetry. apply wrap_small.
        rewrite Forall_forall in He. apply He. apply list_elem_of_In, nth_In. lia.
    - destruct (Z.eqb_spec f.1 j); [lia|]. rewrite Z.add_0_r. symmetry. apply wrap_small.
      rewrite Forall_forall in He. apply He. apply list_elem_of_In, nth_In. lia. }
  destruct (IH (add_factor_rel exps f) W ltac:(lia)) as (I1 & I2 & I3). split; [lia|]. split; [done|].
  rewrite I3, V, zsum_cons. unfold wrap. rewrite Zplus_mod_idemp_l. f_equal. lia.
Qed.

Lemma zprod_snoc {A} (f : A -> Z) l x : zprod (map f (l ++ [x])) = zprod (map f l) * f x.
Proof. rewrite map_app, zprod_app. cbn [map]. by rewrite zprod_cons, zprod_nil, Z.mul_1_r. Qed.

Lemma wrap_add_l w a b : wrap w (wrap w a + b) = wrap w (a + b).
Proof. apply Zplus_mod_idemp_l. Qed.
Lemma wrap_add_r w a b : wrap w (a + wrap w b) = wrap w (a + b).
Proof. apply Zplus_mod_idemp_r. Qed.

Lemma u512_of_u128_ok v : in_width 128 v -> u512_ok (u512_of_u128 v) /\ u512_val (u512_of_u128 v) = v.
Proof.
  intros Hv. unfold u512_of_u128. split.
  - split; [done|]. repeat (constructor; [by apply wrap_range|]). by apply replicate_0_ok.
  - unfold u512_val. cbn [limbs of_digits app]. rewrite of_digits_zeros.
    pose proof (limb_split v) as E0. pose proof (limb_split (Z.shiftr v 32)) as E1.
    pose proof (limb_split (Z.shiftr v 64)) as E2. pose proof (limb_split (Z.shiftr v 96)) as E3.
    rewrite Z.shiftr_shiftr in E1, E2, E3 by lia. change (32 + 32) with 64 in E1. change (64 + 32) with 96 in E2.
    assert (Z.shiftr v (96 + 32) = 0) as E4 by (rewrite Z.shiftr_div_pow2 by lia; apply Z.div_small, Hv).
    rewrite E4 in E3. lia.
Qed.

Lemma add_relations_spec mont fbn rs :
  mont_ok mont -> Forall relation_ok rs ->
  counted mont fbn (foldl (add_relation mont) (mkTotals (replicate fbn 0) 0 0 (mont_transform mont (u512_of_u32 1))) rs) rs.
Proof.
  intros Hmont. induction rs as [|r rs IH] using rev_ind; intros Hok.
  { constructor; cbn [foldl total_exponents total_exp_minus_1 total_exp_2 Y_large_primes_mont]; [apply length_replicate|by apply Forall_replicate| |done..|by apply form_one].
    intros j Hj. by rewrite vget_replicate by lia. }
  apply Forall_app in Hok as [Hrs Hr]. inversion Hr as [|? ? (H1 & H2 & H3 & H4 & H5 & H6) _]; subst. specialize (IH Hrs).
  rewrite foldl_snoc. set (t := foldl _ _ rs) in *. destruct IH as [I1 I2 I3 I4 I5 I6].
  assert (Forall (fun f => 0 <= f.1) (r_factors r)) as Hf.
  { eapply Forall_impl; [exact H6|]. intros f [Hf _]. apply Hf. }
  assert (forall j, 0 <= j < Z.of_nat fbn -> let e := foldl add_factor_rel (total_exponents t) (r_factors r) in
    length e = fbn /\ Forall (in_width 64) e /\ vget 0 e j = wrap 64 (tot_p (rs ++ [r]) j)) as HE.
  { intros j Hj. destruct (add_factors_spec (r_factors r) (total_exponents t) j Hf I2 ltac:(lia)) as (G1 & G2 & G3).
    split; [by rewrite G1|]. split; [done|]. rewrite G3, I3, wrap_add_l by done. unfold tot_p. by rewrite zsum_snoc. }
  assert (length (foldl add_factor_rel (total_exponents t) (r_factors r)) = fbn /\ Forall (in_width 64) (foldl add_factor_rel (total_exponents t) (r_factors r))) as [L W].
  { clear HE I3. revert I1 I2. generalize (total_exponents t). generalize (r_factors r). intros fs. induction fs as [|f fs IHf]; intros e Le We; [done|].
    cbn [foldl]. apply IHf; unfold add_factor_rel; destruct (_ <? _); [by rewrite length_vset|done| |done].
    apply Forall_insert; [done|]. by apply wrap_range. }
  constructor; cbn [add_relation total_exponents total_exp_minus_1 total_exp_2 Y_large_primes_mont]; [done|done|by intros j Hj; apply HE| | |].
  - unfold tot_minus. rewrite zsum_snoc, I4. fold (tot_minus rs). unfold neg_count.
    destruct (r_sign r =? 1); cbn [negb]; [by rewrite Z.add_0_r|apply wrap_add_l].
  - unfold tot_2. rewrite zsum_snoc, I5, wrap_add_l, wrap_add_r. done.
  - rewrite zprod_snoc. unfold lp_val at 2.
    destruct (1 <? r_lp r); [|by rewrite Z.mul_1_r]. apply mont_mul_form; [done|done|]. by apply form_transform; [done|apply u512_of_u128_ok..].
Qed.

(** ** Lemmas: [X] and [Y] *)

Lemma neg_one_pow k : 0 <= k -> (-1) ^ k = if Z.land k 1 =? 0 then 1 else -1.
Proof.
  intros Hk. pose proof (Z.land_ones k 1 ltac:(lia)) as E. change (Z.ones 1) with 1 in E. change (2 ^ 1) with 2 in E. rewrite E.
  pose proof (Z.div_mod k 2 ltac:(lia)) as Ed. pose proof (Z.mod_pos_bound k 2 ltac:(lia)). assert (0 <= k / 2) by (apply Z.div_pos; lia).
  rewrite Ed at 1. rewrite Z.pow_add_r, Z.pow_mul_r by lia. change ((-1) ^ 2) with 1. rewrite Z.pow_1_l, Z.mul_1_l by lia.
  destruct (Z.eqb_spec (k mod 2) 0) as [->|]; [done|]. by assert (k mod 2 = 1) as -> by lia.
Qed.

Lemma tot_minus_nonneg rs : 0 <= tot_minus rs.
Proof.
  apply zsum_nonneg, Forall_map, Forall_true. intros r. unfold neg_count. destruct (_ =? _); cbn; lia.
Qed.

Lemma expo_nonneg j r : Forall (fun f => 0 <= f.2) (r_factors r) -> 0 <= expo j r.
Proof.
  intros H. apply zsum_nonneg, Forall_map. eapply Forall_impl; [exact H|]. intros f Hf. cbn in *. destruct (_ =? _); lia.
Qed.

Lemma tot_p_nonneg rs j : Forall (fun r => Forall (fun f => 0 <= f.2) (r_factors r)) rs -> 0 <= tot_p rs j.
Proof. intros H. apply zsum_nonneg, Forall_map. eapply Forall_impl; [exact H|]. intros r. apply expo_nonneg. Qed.

Lemma relation_ok_counts r : relation_ok r -> Forall (fun f => 0 <= f.2) (r_factors r).
Proof. intros (_ & _ & _ & _ & _ & H). eapply Forall_impl; [exact H|]. by intros f [_ [? _]]. Qed.

Section results.
Context (mont : Montgomery) (Hmont : mont_ok mont).
Notation NN := (Montgomery.N mont).
Notation n := (u512_val NN).
Context (b : HostRelationBatch) (rs : list relation) (Hb : repr b rs) (Hrs : Forall relation_ok rs) (packed : list Z).
Notation mask := (unpack_bits_local packed (num_relations b)).
Notation chosen := (select (kbit packed) 0 rs).

Lemma ComputeX_spec : u512_reduced NN (ComputeX mask b mont) /\ u512_val (ComputeX mask b mont) = zprod (map r_sqrt_Q chosen) mod n.
Proof using Hmont Hb Hrs.
  rewrite (ComputeX_selected mont b rs Hb). apply form_value; [done|].
  rewrite <- (Z.mul_1_l (zprod _)). apply (form_fold mont Hmont (fun r => mont_transform mont (u512_of_Z (r_sqrt_Q r)))); [|by apply form_one].
  apply Forall_select. eapply Forall_impl; [exact Hrs|]. intros r (Hq & _). by apply form_u512_of_Z.
Qed.

Context (factor_base : list Z) (Hfb : Forall (in_width 32) factor_base) (Hfit : exponents_fit factor_base chosen).

Lemma fb_loop_spec exps Y y :
  mont_form mont Y y ->
  (forall j, 0 <= j < Z.of_nat (length factor_base) -> vget 0 exps j = tot_p chosen j /\ in_width 32 (tot_p chosen j)) ->
  exists r, foldl (fb_step mont factor_base exps) (Some Y) (upto (Z.of_nat (length factor_base))) = Some r /\
    mont_form mont r (y * zprod_upto (Z.of_nat (length factor_base)) (fun j => idx factor_base j ^ (tot_p chosen j / 2))).
Proof using Hmont Hfb.
  intros HY He.
  apply (foldl_upto (fun i st => exists r, st = Some r /\ mont_form mont r (y * zprod_upto i (fun j => idx factor_base j ^ (tot_p chosen j / 2))))); [lia| |].
  { exists Y. split; [done|]. by rewrite zprod_upto_0, Z.mul_1_r. }
  intros i st Hi (r & -> & Hr). destruct (He i Hi) as [E W]. unfold fb_step. cbn [mbind option_bind]. rewrite E, zprod_upto_S, Z.mul_assoc by lia.
  destruct (Z.eqb_spec (tot_p chosen i) 0) as [->|].
  { exists r. split; [done|]. by rewrite Z.pow_0_r, Z.mul_1_r. }
  apply power_term_form; [done|done| |done]. rewrite Forall_forall in Hfb. apply Hfb. apply list_elem_of_In, nth_In. lia.
Qed.

Lemma ComputeY_spec :
  exists Y, ComputeY NN mask b factor_base mont = Some Y /\ u512_reduced NN Y /\ u512_val Y = Y_root factor_base chosen mod n.
Proof using Hmont Hb Hrs Hfb Hfit.
  unfold ComputeY. rewrite (totals_selected mont b rs Hb).
  assert (Forall relation_ok chosen) as Hch by by apply Forall_select.
  destruct (add_relations_spec mont (length factor_base) chosen Hmont Hch) as [T1 T2 T3 T4 T5 T6].
  set (t := foldl (add_relation mont) _ chosen) in *. destruct Hfit as [F1 F2 F3]. pose proof (tot_minus_nonneg chosen) as Hm0.
  rewrite wrap_small in T4 by (unfold in_width; lia). rewrite wrap_small in T5 by (unfold in_width; lia). rewrite T4, T5.
  assert (Forall (fun r => Forall (fun f => 0 <= f.2) (r_factors r)) chosen) as Hcounts by (eapply Forall_impl; [exact Hch|apply relation_ok_counts]).
  pose proof (form_one mont Hmont) as H1.
  set (Y0 := if negb (Z.land (tot_minus chosen / 2) 1 =? 0) then _ else _).
  assert (mont_form mont Y0 ((-1) ^ (tot_minus chosen / 2))) as HY0.
  { rewrite neg_one_pow by (apply Z.div_pos; lia). unfold Y0. destruct (_ =? 0); cbn [negb]; [done|].
    apply (form_negate mont Hmont _ 1 H1). }
  assert (exists Y1, (if 0 <? tot_2 chosen then power_term mont Y0 2 (tot_2 chosen) else Some Y0) = Some Y1 /\
    mont_form mont Y1 ((-1) ^ (tot_minus chosen / 2) * 2 ^ (tot_2 chosen / 2))) as (Y1 & -> & HY1).
  { destruct (Z.ltb_spec 0 (tot_2 chosen)).
    - apply power_term_form; [done|done|done|unfold in_width; lia].
    - exists Y0. split; [done|]. assert (tot_2 chosen = 0) as -> by lia. by rewrite Z.mul_1_r. }
  cbn [mbind option_bind].
  destruct (fb_loop_spec (total_exponents t) Y1 _ HY1) as (Y2 & -> & HY2).
  { intros j Hj. rewrite T3 by done. pose proof (tot_p_nonneg chosen j Hcounts). specialize (F3 j Hj).
    rewrite wrap_small by (unfold in_width; lia). split; [done|unfold in_width; lia]. }
  cbn [mbind option_bind]. eexists. split; [done|]. apply form_value; [done|]. unfold Y_root. by apply mont_mul_form.
Qed.

End results.

(** ** Lemmas: the product of the right-hand sides *)

Lemma even_pow x e : 0 <= e -> Z.even e = true -> x ^ e = x ^ (e / 2) * x ^ (e / 2).
Proof.
  intros He Hev. apply Z.even_spec in Hev as [k ->]. rewrite Z.mul_comm, Z.div_mul by lia.
  rewrite <- Z.pow_add_r by lia. f_equal. lia.
Qed.

(** A product of prime powers, grouped by prime. *)
Lemma group_powers (p : Z -> Z) n fs :
  Forall (fun f : Z * Z => 0 <= f.1 < n /\ 0 <= f.2) fs ->
  zprod (map (fun f => p f.1 ^ f.2) fs) = zprod_upto n (fun j => p j ^ zsum (map (fun f => if f.1 =? j then f.2 else 0) fs)).
Proof.
  induction 1 as [|f fs [Hf Hf2] Hfs IH]; cbn [map].
  { rewrite (zprod_upto_ext n _ (fun _ => 1)) by done. symmetry. apply zprod_one. }
  rewrite zprod_cons, IH.
  symmetry. etransitivity; [apply (zprod_upto_ext n _ (fun j => p j ^ (if f.1 =? j then f.2 else 0) * p j ^ zsum (map (fun f => if f.1 =? j then f.2 else 0) fs)))|].
  - intros j Hj. rewrite zsum_cons, Z.pow_add_r; [done|destruct (_ =? _); lia|].
    apply zsum_nonneg, Forall_map. eapply Forall_impl; [exact Hfs|]. intros g [_ Hg]. cbn. destruct (_ =? _); lia.
  - rewrite zprod_upto_mul. f_equal. rewrite (zprod_upto_single n _ f.1); [by rewrite Z.eqb_refl|lia|].
    intros i Hi Hne. by rewrite (proj2 (Z.eqb_neq _ _)) by done.
Qed.

Lemma group_relations (p : Z -> Z) n rs :
  Forall (fun r => Forall (fun f : Z * Z => 0 <= f.1 < n /\ 0 <= f.2) (r_factors r)) rs ->
  zprod (map (fun r => zprod (map (fun f => p f.1 ^ f.2) (r_factors r))) rs) = zprod_upto n (fun j => p j ^ tot_p rs j).
Proof.
  induction 1 as [|r rs Hr Hrs IH]; cbn [map].
  { rewrite (zprod_upto_ext n _ (fun _ => 1)) by done. symmetry. apply zprod_one. }
  assert (forall r, Forall (fun f : Z * Z => 0 <= f.1 < n /\ 0 <= f.2) (r_factors r) -> Forall (fun f => 0 <= f.2) (r_factors r)) as Hc.
  { intros r' H. eapply Forall_impl; [exact H|]. by intros f [_ ?]. }
  rewrite zprod_cons, IH, (group_powers p n) by done. rewrite <- zprod_upto_mul. apply zprod_upto_ext. intros j Hj.
  unfold tot_p. cbn [map]. rewrite zsum_cons, Z.pow_add_r; [done|apply expo_nonneg; auto|].
  apply tot_p_nonneg. eapply Forall_impl; [exact Hrs|exact Hc].
Qed.

Lemma rhs_product fb rs :
  Forall (factors_in_base fb) rs ->
  zprod (map (rhs fb) rs)
  = (-1) ^ tot_minus rs * 2 ^ tot_2 rs * zprod_upto (Z.of_nat (length fb)) (fun j => idx fb j ^ tot_p rs j) * zprod (map lp_val rs) ^ 2.
Proof.
  intros H. unfold rhs. rewrite !zprod_mul, zprod_pow by lia. unfold tot_minus, tot_2. rewrite !zprod_exp.
  - f_equal. f_equal. apply group_relations. eapply Forall_impl; [exact H|]. by intros r [_ ?].
  - eapply Forall_impl; [exact H|]. by intros r [? _].
  - apply Forall_true. intros r. unfold neg_count. destruct (_ =? _); cbn; lia.
Qed.

(** Even exponents: the product is the square of what the code computes. *)
Lemma rhs_square fb rs :
  Forall (factors_in_base fb) rs -> all_even fb rs -> zprod (map (rhs fb) rs) = Y_root fb rs * Y_root fb rs.
Proof.
  intros H [E1 E2 E3]. rewrite rhs_product by done. unfold Y_root.
  assert (0 <= tot_2 rs) by (apply zsum_nonneg, Forall_map; eapply Forall_impl; [exact H|]; by intros r [? _]).
  rewrite (even_pow (-1)), (even_pow 2) by (done || apply tot_minus_nonneg).
  rewrite (zprod_upto_ext _ _ (fun j => idx fb j ^ (tot_p rs j / 2) * idx fb j ^ (tot_p rs j / 2))).
  - rewrite zprod_upto_mul. ring.
  - intros j Hj. apply even_pow; [|by apply E3]. apply tot_p_nonneg. eapply Forall_impl; [exact H|].
    intros r [_ Hr]. eapply Forall_impl; [exact Hr|]. by intros f [_ ?].
Qed.

(** ** Lemmas: factors *)

Lemma u512_eqb_val x y : u512_ok x -> u512_ok y -> u512_eqb x y = (u512_val x =? u512_val y).
Proof.
  intros Hx Hy. apply eq_true_iff_eq. rewrite u512_eqb_spec, Z.eqb_eq by done. split; [by intros ->|by apply u512_val_inj].
Qed.

Lemma SanityCheck_spec N X Y :
  u512_ok N -> u512_val N <> 0 -> u512_ok X -> u512_ok Y ->
  SanityCheck N X Y = Some ((u512_val X * u512_val X) mod u512_val N =? (u512_val Y * u512_val Y) mod u512_val N).
Proof.
  intros HN Hz HX HY. unfold SanityCheck.
  destruct (modpow_u32_spec N HN Hz X 2 HX ltac:(done)) as (X2 & -> & OX & EX).
  destruct (modpow_u32_spec N HN Hz Y 2 HY ltac:(done)) as (Y2 & -> & OY & EY). cbn [mbind option_bind].
  rewrite u512_eqb_val, EX, EY by done. unfold power_value. cbn [Z.eqb]. by rewrite !Z.pow_2_r.
Qed.

Lemma abs_diff_spec X Y :
  u512_ok X -> u512_ok Y -> u512_ok (abs_diff X Y) /\
  u512_val (abs_diff X Y) = if u512_val X <? u512_val Y then u512_val Y - u512_val X else u512_val X - u512_val Y.
Proof.
  intros HX HY. unfold abs_diff. rewrite u512_ltb_spec by done. pose proof (u512_bound _ HX). pose proof (u512_bound _ HY).
  destruct (Z.ltb_spec (u512_val X) (u512_val Y)).
  - destruct (sub_spec Y X HY HX) as [G1 G2]. split; [done|]. rewrite G2. apply wrap_small. unfold in_width. lia.
  - destruct (sub_spec X Y HX HY) as [G1 G2]. split; [done|]. rewrite G2. apply wrap_small. unfold in_width. lia.
Qed.

Lemma trivial_factor_spec N f :
  u512_ok N -> u512_ok f -> trivial_factor N f = (u512_val f =? 1) || (u512_val f =? u512_val N).
Proof. intros HN Hf. unfold trivial_factor. by rewrite is_one_spec, u512_eqb_val. Qed.

(** A non-trivial divisor with its cofactor. *)
Lemma cofactor_spec N f :
  u512_ok N -> u512_ok f -> (u512_val f | u512_val N) -> 0 < u512_val f ->
  u512_ok (div N f) /\ u512_val f * u512_val (div N f) = u512_val N.
Proof.
  intros HN Hf Hd Hpos. destruct (div_spec N f HN Hf ltac:(lia)) as [G1 G2]. split; [done|]. rewrite G2.
  destruct Hd as [k ->]. rewrite Z.div_mul; lia.
Qed.

Lemma gcd_factor_bound a N : 1 < N -> Z.gcd a N <> N -> 1 <= Z.gcd a N < N.
Proof.
  intros HN Hne. pose proof (Z.gcd_nonneg a N). assert (Z.gcd a N <> 0) by (intros E; apply Z.gcd_eq_0_r in E; lia).
  pose proof (Z.divide_pos_le (Z.gcd a N) N ltac:(lia) (Z.gcd_divide_r a N)). lia.
Qed.

(** The two gcds of the last part of [Perform]. *)
Lemma both_gcds N X Y :
  u512_ok N -> 1 < u512_val N -> u512_reduced N X -> u512_reduced N Y ->
  exists f1 f2, gcd (abs_diff X Y) N = Some f1 /\ gcd (add_mod X Y N) N = Some f2 /\ u512_ok f1 /\ u512_ok f2 /\
    u512_val f1 = Z.gcd (u512_val X - u512_val Y) (u512_val N) /\ u512_val f2 = Z.gcd (u512_val X + u512_val Y) (u512_val N).
Proof.
  intros HN HN1 HX HY. destruct (abs_diff_spec X Y (proj1 HX) (proj1 HY)) as [D1 D2].
  destruct (add_mod_spec N HN X Y HX HY) as [[A1 _] A2].
  destruct (gcd_spec _ N D1 HN) as (f1 & E1 & O1 & V1). destruct (gcd_spec _ N A1 HN) as (f2 & E2 & O2 & V2).
  exists f1, f2. split; [done|]. split; [done|]. split; [done|]. split; [done|]. split.
  - rewrite V1, D2. apply gcd_abs_diff.
  - rewrite V2, A2. apply gcd_mod_l. lia.
Qed.

(** The last part of [Perform]: whatever it reports multiplies to [N]; two roots that differ by more than
    the sign give a proper factor. *)
Lemma gcd_steps_spec N X Y :
  u512_ok N -> 1 < u512_val N -> u512_reduced N X -> u512_reduced N Y -> u512_val X * u512_val X ≅{u512_val N} u512_val Y * u512_val Y ->
  exists f co,
    (factor1 ← gcd (abs_diff X Y) N;
     factor2 ← gcd (add_mod X Y N) N;
     if negb (trivial_factor N factor1) then Some (factor1, div N factor1)
     else if negb (trivial_factor N factor2) then Some (factor2, div N factor2)
     else Some (u512_of_u32 1, N)) = Some (f, co) /\
    u512_val f * u512_val co = u512_val N /\ 1 <= u512_val f < u512_val N /\
    (~ u512_val X ≅{u512_val N} u512_val Y -> ~ u512_val X ≅{u512_val N} - u512_val Y -> 1 < u512_val f) /\ u512_ok f /\ u512_ok co.
Proof.
  intros HN HN1 HX HY Hsq. destruct (both_gcds N X Y HN HN1 HX HY) as (f1 & f2 & -> & -> & O1 & O2 & V1 & V2).
  cbn [mbind option_bind]. rewrite !trivial_factor_spec by done.
  assert (forall f a, u512_ok f -> u512_val f = Z.gcd a (u512_val N) -> (u512_val f =? 1) || (u512_val f =? u512_val N) = false ->
    u512_val f * u512_val (div N f) = u512_val N /\ 1 <= u512_val f < u512_val N /\ 1 < u512_val f /\ u512_ok (div N f)) as Hgood.
  { intros f a Of Vf Ht. apply orb_false_iff in Ht as [H1 H2]. apply Z.eqb_neq in H1, H2.
    pose proof (gcd_factor_bound a _ HN1 ltac:(congruence)) as Hb. rewrite <- Vf in Hb.
    destruct (cofactor_spec N f HN Of) as [Hco Hc]; [rewrite Vf; apply Z.gcd_divide_r|lia|]. split; [done|]. split; [lia|]. split; [lia|done]. }
  destruct (_ || _) eqn:T1; cbn [negb].
  2:{ exists f1, (div N f1). destruct (Hgood f1 _ O1 V1 T1) as (G1 & G2 & G3 & G4). do 3 (split; [done|]). split; [by intros _ _|done]. }
  assert (u512_val X ≅{u512_val N} u512_val Y \/ u512_val X ≅{u512_val N} - u512_val Y) as Htriv.
  { destruct (decide (u512_val X mod u512_val N = u512_val Y mod u512_val N)) as [|Hne]; [by left|].
    destruct (decide (u512_val X mod u512_val N = (- u512_val Y) mod u512_val N)) as [|Hne']; [by right|]. exfalso.
    pose proof (square_roots_split _ _ _ HN1 Hsq Hne Hne') as Hs. rewrite <- V1 in Hs.
    apply orb_true_iff in T1 as [T1%Z.eqb_eq|T1%Z.eqb_eq]; lia. }
  destruct ((u512_val f2 =? 1) || _) eqn:T2; cbn [negb].
  - exists (u512_of_u32 1), N. pose proof u512_one as [? ->]. split; [done|]. split; [lia|]. split; [lia|]. split; [intros; by destruct Htriv|done].
  - exists f2, (div N f2). destruct (Hgood f2 _ O2 V2 T2) as (G1 & G2 & G3 & G4). do 3 (split; [done|]). split; [by intros _ _|done].
Qed.

(** ** [Perform] *)

(** Any set of relations, any correction: with [X] the product of the left-hand sides and [Y] the halved
    product times the correction, [Perform] fails when [Y = 0] or [X^2 <> Y^2] modulo [N], and else
    reports factors. *)
Lemma Perform_run N b rs packed fb c k :
  u512_ok N -> Z.odd (u512_val N) = true -> 1 < u512_val N -> repr b rs -> Forall relation_ok rs -> Forall (in_width 32) fb ->
  let chosen := select (kbit packed) 0 rs in
  exponents_fit fb chosen -> correction_value (Montgomery_init N) c k ->
  let X := zprod (map r_sqrt_Q chosen) in
  let Y := Y_root fb chosen * k in
  let n := u512_val N in
  if (Y mod n =? 0) || negb ((X * X) mod n =? (Y * Y) mod n)
  then Perform N packed b fb c = Some (u512_of_u32 0, u512_of_u32 0)
  else exists f co, Perform N packed b fb c = Some (f, co) /\ u512_val f * u512_val co = n /\ 1 <= u512_val f < n /\
    (~ X ≅{n} Y -> ~ X ≅{n} - Y -> 1 < u512_val f) /\ u512_ok f /\ u512_ok co.
Proof.
  intros HN Ho HN1 Hb Hrs Hfb chosen Hfit Hc X Y n.
  pose proof (Montgomery_init_ok N HN Ho) as Hmont. unfold Perform. set (mont := Montgomery_init N) in *.
  destruct (ComputeX_spec mont Hmont b rs Hb Hrs packed) as [RX VX].
  destruct (ComputeY_spec mont Hmont b rs Hb Hrs packed fb Hfb Hfit) as (Y0 & EY & RY & VY).
  change (Montgomery.N mont) with N in *. set (X0 := ComputeX _ b mont) in *. rewrite EY. cbn [mbind option_bind]. fold chosen n X in VX, VY.
  set (Y1 := match c with Some c => apply_correction mont Y0 c | None => Y0 end).
  assert (u512_reduced N Y1 /\ u512_val Y1 = Y mod n) as [RY1 VY1].
  { unfold Y1, Y. destruct c as [c|]; cbn [correction_value] in Hc.
    - apply (mont_reduce_form mont Hmont). eapply (form_of mont); [apply mont_mul_form; [done|by apply mont_transform_form; [|apply RY]|exact Hc]|].
      change (Montgomery.N mont) with N. fold n. rewrite VY. by rewrite cong_mod.
    - by rewrite Hc, Z.mul_1_r. }
  clearbody Y1 X0. destruct RX as [OX LX]. pose proof (u512_bound _ OX). destruct RY1 as [OY LY].
  rewrite is_zero_spec, VY1 by done. destruct (Y mod n =? 0) eqn:EZ; cbn [orb]; [done|].
  rewrite SanityCheck_spec, VX, VY1 by (done || lia). cbn [mbind option_bind]. fold n. rewrite <- !Zmult_mod.
  destruct (Z.eqb_spec ((X * X) mod n) ((Y * Y) mod n)) as [Esq|Esq]; cbn [negb]; [|done].
  destruct (gcd_steps_spec N X0 Y1 HN HN1 (conj OX LX) (conj OY LY)) as (f & co & E & G1 & G2 & G3 & G4).
  { rewrite VX, VY1. fold n. rewrite !cong_mod. exact Esq. }
  exists f, co. split; [exact E|]. split; [done|]. split; [done|]. split; [|exact G4]. intros H1 H2. fold n in G3. rewrite VX, VY1 in G3. apply G3.
  - by rewrite !cong_mod.
  - by rewrite !cong_mod.
Qed.

Lemma Perform_spec N b rs packed fb c k :
  u512_ok N -> Z.odd (u512_val N) = true -> 1 < u512_val N -> repr b rs -> Forall relation_ok rs -> Forall (in_width 32) fb ->
  let chosen := select (kbit packed) 0 rs in
  exponents_fit fb chosen -> correction_value (Montgomery_init N) c k ->
  let X := zprod (map r_sqrt_Q chosen) in
  let Y := Y_root fb chosen * k in
  let n := u512_val N in
  if (Y mod n =? 0) || negb ((X * X) mod n =? (Y * Y) mod n)
  then Perform N packed b fb c = Some (u512_of_u32 0, u512_of_u32 0)
  else exists f co, Perform N packed b fb c = Some (f, co) /\ u512_val f * u512_val co = n /\ 1 <= u512_val f < n /\
    (~ X ≅{n} Y -> ~ X ≅{n} - Y -> 1 < u512_val f).
Proof.
  intros HN Ho HN1 Hb Hrs Hfb chosen Hfit Hc X Y n. pose proof (Perform_run N b rs packed fb c k HN Ho HN1 Hb Hrs Hfb Hfit Hc) as H.
  cbv zeta in H. fold chosen X n in H. fold Y in H. destruct (_ || _); [done|]. destruct H as (f & co & H1 & H2 & H3 & H4 & _). by exists f, co.
Qed.

Lemma holds_square n fb rs :
  Forall (relation_holds n fb) rs -> all_even fb rs -> zprod (map r_sqrt_Q rs) * zprod (map r_sqrt_Q rs) ≅{n} Y_root fb rs * Y_root fb rs.
Proof.
  intros H He. rewrite <- (rhs_square fb rs); [|eapply Forall_impl; [exact H|by intros r [? _]]|done].
  rewrite <- zprod_mul. apply zprod_cong. eapply Forall_impl; [exact H|]. by intros r [_ ?].
Qed.

(** The base primes and the large primes decide whether the root can vanish modulo [N]. *)
Lemma gcd1_pow x e n : 0 <= e -> Z.gcd x n = 1 -> Z.gcd (x ^ e) n = 1.
Proof.
  intros He Hx. pattern e. apply natlike_ind; [| |done]; [apply Z.gcd_1_l|]. clear e He. intros e He IH. rewrite Z.pow_succ_r by done. by apply Z.coprime_mul_l.
Qed.

Lemma gcd1_zprod l n : Forall (fun x => Z.gcd x n = 1) l -> Z.gcd (zprod l) n = 1.
Proof. induction 1 as [|x l Hx Hl IH]; [apply Z.gcd_1_l|]. rewrite zprod_cons. by apply Z.coprime_mul_l. Qed.

Lemma Y_root_coprime n fb rs : Z.odd n = true -> 1 < n -> Forall (factors_in_base fb) rs ->
  Forall (fun p => Z.gcd p n = 1) fb -> Forall (fun r => Z.gcd (lp_val r) n = 1) rs -> Y_root fb rs mod n <> 0.
Proof.
  intros Ho Hn Hin Hfb Hlp E. assert (Z.gcd (Y_root fb rs) n = 1) as H1.
  - unfold Y_root. repeat apply Z.coprime_mul_l.
    + apply gcd1_pow; [apply Z.div_pos; [apply tot_minus_nonneg|lia]|]. change (-1) with (- (1)). rewrite Z.gcd_opp_l. apply Z.gcd_1_l.
    + apply gcd1_pow; [apply Z.div_pos; [|lia]|].
      * apply zsum_nonneg, Forall_map. eapply Forall_impl; [exact Hin|]. by intros r [? _].
      * rewrite (Z.div_mod n 2), Zmod_odd, Ho by lia. rewrite (Z.add_comm (2 * _)), (Z.mul_comm 2), Z.gcd_add_mult_diag_r. apply Z.gcd_1_r.
    + apply gcd1_zprod, Forall_map, Forall_forall. intros j [Hj1 Hj2]%elem_of_upto. cbn. apply gcd1_pow.
      * apply Z.div_pos; [|lia]. apply tot_p_nonneg. eapply Forall_impl; [exact Hin|]. intros r [_ Hr]. eapply Forall_impl; [exact Hr|]. by intros f [_ ?].
      * rewrite Forall_forall in Hfb. apply Hfb. unfold idx. apply list_elem_of_In, nth_In. lia.
    + apply gcd1_zprod, Forall_map. exact Hlp.
  - apply Z.mod_divide in E; [|lia]. pose proof (Z.divide_gcd_iff n (Y_root fb rs) ltac:(lia)) as [G _]. specialize (G E). rewrite Z.gcd_comm in G. lia.
Qed.

(** ** Properties *)

(** C4. A set of valid relations whose exponents are even, and sum below 2^32 ([exponents_fit]: the code sums them in 32-bit words), gives a
    congruence of squares. If the root [Y] vanishes modulo [N], which needs a base prime or a large prime that shares a factor with [N], the
    host square-root step returns (0, 0). If not, it does not reject the set, and the two numbers it returns multiply to [N]; when the two roots
    differ by more than the sign, both are proper factors. *)
Theorem Perform_factors N b rs packed fb :
  u512_ok N -> Z.odd (u512_val N) = true -> 1 < u512_val N -> repr b rs -> Forall relation_ok rs -> Forall (in_width 32) fb ->
  let chosen := select (kbit packed) 0 rs in
  let X := zprod (map r_sqrt_Q chosen) in
  let Y := Y_root fb chosen in
  let n := u512_val N in
  exponents_fit fb chosen -> all_even fb chosen -> Forall (relation_holds n fb) chosen ->
  X * X ≅{n} Y * Y /\
  (Forall (fun p => Z.gcd p n = 1) fb -> Forall (fun r => Z.gcd (lp_val r) n = 1) chosen -> Y mod n <> 0) /\
  if Y mod n =? 0 then Perform N packed b fb None = Some (u512_of_u32 0, u512_of_u32 0)
  else exists f co, Perform N packed b fb None = Some (f, co) /\ u512_val f * u512_val co = n /\ 1 <= u512_val f < n /\
    (~ X ≅{n} Y -> ~ X ≅{n} - Y -> 1 < u512_val f).
Proof.
  intros HN Ho HN1 Hb Hrs Hfb chosen X Y n Hfit Hev Hh.
  pose proof (Perform_spec N b rs packed fb None 1 HN Ho HN1 Hb Hrs Hfb Hfit eq_refl) as H.
  cbv zeta in H. fold chosen in H. fold X n in H. rewrite Z.mul_1_r in H. fold Y in H. pose proof (holds_square _ fb chosen Hh Hev) as Hsq. fold X Y in Hsq.
  split; [done|]. split.
  { intros H1 H2. apply Y_root_coprime; [done|done| |done|done]. eapply Forall_impl; [exact Hh|]. by intros r [? _]. }
  unfold cong in Hsq. rewrite Hsq, Z.eqb_refl in H. cbn [negb] in H. rewrite orb_false_r in H. exact H.
Qed.

Lemma Perform_factors_witness :
  exists f co, Perform (u512_of_Z 1649) [3] (batch_of rels_1649) [5] None = Some (f, co) /\ u512_val f * u512_val co = 1649 /\ 1 < u512_val f < 1649.
Proof.
  destruct (Perform_factors (u512_of_Z 1649) (batch_of rels_1649) rels_1649 [3] [5]) as (_ & Hcop & H).
  - apply u512_of_Z_spec.
  - reflexivity.
  - reflexivity.
  - apply repr_batch_of.
  - apply (bool_decide_unpack (Forall relation_ok rels_1649)). vm_compute. exact I.
  - apply (bool_decide_unpack (Forall (in_width 32) [5])). vm_compute. exact I.
  - constructor; [reflexivity|by vm_compute|]. intros j Hj. cbn in Hj. assert (j = 0) as -> by lia. reflexivity.
  - constructor; [reflexivity|reflexivity|]. intros j Hj. cbn in Hj. assert (j = 0) as -> by lia. reflexivity.
  - repeat (constructor; [split; [split; [by vm_compute|by repeat constructor]|reflexivity]|]). constructor.
  - assert (Y_root [5] rels_1649 mod 1649 <> 0) as Hy.
    { apply Hcop; apply (bool_decide_unpack _); by vm_compute. }
    change (Y_root [5] (select (kbit [3]) 0 rels_1649) mod 1649 =? 0) with false in H. destruct H as (f & co & E & H1 & H2 & H3). exists f, co. split; [exact E|]. split; [exact H1|]. split; [apply H3; by vm_compute|apply H2].
Defined.
