(* ===== verification/ExpandedMatrix.v ===== *)
(** The expanded GF(2) matrix ([src/src/matrix/expanded_matrix.cpp]) and the CSR validation of
    [matrix_constructor.cu]: a row per relation, with columns for the sign, the exponent of 2, the
    factor base and, for partial relations, the large prime. *)
From Stdlib Require Import ZArith Lia Sorted.
From stdpp Require Import base gmap sets list sorting.
From S2P Require Import Prelude Soa Gf2 Batches.
#[local] Open Scope Z_scope.

(** ** Validation *)

(** Row [i]: a non-negative length, columns in range and strictly increasing. *)
Definition valid_row (M : HostMatrixCSR) (i : Z) : bool :=
  let start := idx (row_offsets M) i in
  let end_ := idx (row_offsets M) (i + 1) in
  (start <=? end_) &&
  forallb (fun d => let k := start + d in
             (idx (col_indices M) k <? n_cols M) &&
             ((k <=? start) || (idx (col_indices M) (k - 1) <? idx (col_indices M) k)))
    (upto (end_ - start)).

Definition ValidateHostMatrixCSR (M : HostMatrixCSR) : bool :=
  (Z.of_nat (length (row_offsets M)) =? wrap 32 (n_rows M + 1)) &&
  (idx (row_offsets M) 0 =? 0) &&
  (List.last (row_offsets M) 0 =? Z.of_nat (length (col_indices M))) &&
  forallb (valid_row M) (upto (n_rows M)).

(** ** Rows *)

Definition b2n (b : bool) : Z := if b then 1 else 0.

Definition factor_range (batch : HostRelationBatch) (rel_idx : Z) : list Z :=
  let off_start := idx (factor_offsets batch) rel_idx in
  map (Z.add off_start) (upto (idx (factor_offsets batch) (rel_idx + 1) - off_start)).

Definition countRowCols (batch : HostRelationBatch) (rel_idx lp_col : Z) : Z :=
  let count := b2n (negb (idx (signs batch) rel_idx =? 1)) in
  let count := count + b2n (Z.odd (idx (val_2_exps batch) rel_idx)) in
  let count := foldl (fun count j => if Z.odd (idx (factor_counts batch) j) then wrap 32 (count + 1) else count)
                 count (factor_range batch rel_idx) in
  if negb (lp_col =? UINT32_MAX) then wrap 32 (count + 1) else count.

(** What is written from [out] on. *)
Definition fillRowCols (batch : HostRelationBatch) (rel_idx lp_col : Z) : list Z :=
  let head := (if negb (idx (signs batch) rel_idx =? 1) then [0] else [])
              ++ (if Z.odd (idx (val_2_exps batch) rel_idx) then [1] else []) in
  let fb := foldl (fun out j => if Z.odd (idx (factor_counts batch) j) then out ++ [wrap 32 (idx (factor_indices batch) j + 2)] else out)
              [] (factor_range batch rel_idx) in
  head ++ merge_sort Z.le fb ++ (if negb (lp_col =? UINT32_MAX) then [lp_col] else []).

(** ** The builder *)

Record ExpandedMatrixResult := mkExpanded {
  matrix : HostMatrixCSR;
  lp_col_map : gmap Z Z;
  num_lp_cols : Z
}.

(** [emplace] a large prime, with the next column when it is new. *)
Definition assign_lp (st : gmap Z Z * Z) (lp : Z) : gmap Z Z * Z :=
  let '(m, next_lp_col) := st in
  match m !! lp with
  | Some _ => (m, next_lp_col)
  | None => (<[lp := next_lp_col]> m, wrap 32 (next_lp_col + 1))
  end.

(** The key: [static_cast<uint64_t>(large_primes[i])]. *)
Definition lp_key (partials : HostRelationBatch) (i : Z) : Z := wrap 64 (idx (large_primes partials) i).
Definition lp_col (m : gmap Z Z) (partials : HostRelationBatch) (i : Z) : Z := default 0 (m !! lp_key partials i).

(** In-place prefix sums. *)
Definition prefix_sums (total_rows : Z) (ro : list Z) : list Z :=
  foldl (fun ro i => vset ro (i + 1) (wrap 32 (vget 0 ro (i + 1) + vget 0 ro i))) ro (upto total_rows).

(** Consecutive stores from [out + off] on. *)
Definition write_at (out : list Z) (off : Z) (l : list Z) : list Z :=
  take (Z.to_nat off) out ++ l ++ drop (Z.to_nat off + length l) out.

Definition empty_result : ExpandedMatrixResult := mkExpanded (mkCSR [] [] 0 0) ∅ 0.

Definition build (smooths partials : HostRelationBatch) (fb_size : Z) : ExpandedMatrixResult :=
  let ns := num_relations smooths in
  let np := num_relations partials in
  let '(lps, next_lp_col) := foldl assign_lp (∅, wrap 32 (fb_size + 2)) (map (lp_key partials) (upto np)) in
  let num_lp_cols := wrap 32 (next_lp_col - wrap 32 (fb_size + 2)) in
  let total_rows := wrap 32 (ns + np) in
  let total_cols := wrap 32 (fb_size + 2 + num_lp_cols) in
  let row_offsets := replicate (Z.to_nat (wrap 32 (total_rows + 1))) 0 in
  let row_offsets := foldl (fun ro i => vset ro (i + 1) (countRowCols smooths i UINT32_MAX)) row_offsets (upto ns) in
  let row_offsets := foldl (fun ro i => vset ro (wrap 32 (ns + i) + 1) (countRowCols partials i (lp_col lps partials i))) row_offsets (upto np) in
  let row_offsets := prefix_sums total_rows row_offsets in
  let total_nnz := vget 0 row_offsets total_rows in
  let col_indices := replicate (Z.to_nat total_nnz) 0 in
  let col_indices := foldl (fun ci i => write_at ci (vget 0 row_offsets i) (fillRowCols smooths i UINT32_MAX)) col_indices (upto ns) in
  let col_indices := foldl (fun ci i => write_at ci (vget 0 row_offsets (wrap 32 (ns + i))) (fillRowCols partials i (lp_col lps partials i)))
                       col_indices (upto np) in
  let csr := mkCSR row_offsets col_indices total_rows total_cols in
  if ValidateHostMatrixCSR csr then mkExpanded csr lps num_lp_cols else empty_result.

(** ** Vocabulary of the specifications *)

(** The columns of a relation; [None]: no large-prime column. *)
Definition row_of (lp : option Z) (r : relation) : list Z :=
  (if negb (r_sign r =? 1) then [0] else []) ++ (if Z.odd (r_val2 r) then [1] else []) ++
  merge_sort Z.le (map (fun f => f.1 + 2) (List.filter (fun f => Z.odd f.2) (r_factors r))) ++ option_list lp.

(** A relation over a factor base of [fb_size] primes, each listed at most once. *)
Definition over_base (fb_size : Z) (r : relation) : Prop :=
  NoDup (map fst (r_factors r)) /\ Forall (fun f => 0 <= f.1 < fb_size) (r_factors r).

(** Columns by large prime: distinct primes have distinct columns, behind the factor base. *)
Record lp_columns (fb_size L : Z) (m : gmap Z Z) : Prop := mkLpColumns {
  lc_range : forall p c, m !! p = Some c -> fb_size + 2 <= c < fb_size + 2 + L;
  lc_inj : forall p q c, m !! p = Some c -> m !! q = Some c -> p = q
}.

(** The rows of the matrix. *)
Definition expanded_rows (lps : gmap Z Z) (smooths partials : list relation) : list (list Z) :=
  map (row_of None) smooths ++ map (fun r => row_of (lps !! r_lp r) r) partials.

(** ** Vocabulary of the specifications *)

(** Length of row [i], and the offset at which it starts. *)
Definition len_of (rows : list (list Z)) (i : Z) : Z := Z.of_nat (length (nth (Z.to_nat i) rows [])).

Definition off_of (rows : list (list Z)) (i : Z) : Z := Z.of_nat (length (concat (take (Z.to_nat i) rows))).

(** What the builder assumes: distinct in-range factors, and sizes that fit in 32 bits. *)
Record buildable (fb_size : Z) (ss ps : list relation) : Prop := mkBuildable {
  bd_over : Forall (over_base fb_size) (ss ++ ps);
  bd_lp : Forall (fun r => in_width 64 (r_lp r)) ps;
  bd_cols : 0 <= fb_size /\ fb_size + 2 + Z.of_nat (length ps) < UINT32_MAX;
  bd_rows : Z.of_nat (length (ss ++ ps)) + 1 < 2 ^ 32;
  bd_nnz : Z.of_nat (3 * length (ss ++ ps) + length (all_factors (ss ++ ps))) < 2 ^ 32
}.

(** ** Lemmas: one row *)

Lemma foldl_filter {A} (P : Z * Z -> bool) (f : Z * Z -> A) fs out :
  foldl (fun out p => if P p then out ++ [f p] else out) out fs = out ++ map f (List.filter P fs).
Proof.
  revert out. induction fs as [|p fs IH]; intros out; cbn [foldl List.filter map]; [by rewrite app_nil_r|].
  rewrite IH. destruct (P p); [|done]. cbn [map]. by rewrite <- app_assoc.
Qed.

Lemma foldl_count (P : Z * Z -> bool) fs c :
  in_width 32 c -> 
  foldl (fun c p => if P p then wrap 32 (c + 1) else c) c fs = wrap 32 (c + Z.of_nat (length (List.filter P fs))).
Proof.
  revert c. induction fs as [|p fs IH]; intros c Hc; cbn [foldl List.filter]; [by rewrite Z.add_0_r, wrap_small|].
  destruct (P p); [|by apply IH]. rewrite IH by (by apply wrap_range). cbn [length]. unfold wrap. rewrite Zplus_mod_idemp_l. f_equal. lia.
Qed.

Lemma factor_columns_nodup fs :
  NoDup (map fst fs) -> NoDup (map (fun f : Z * Z => f.1 + 2) (List.filter (fun f => Z.odd f.2) fs)).
Proof.
  induction fs as [|f l IH]; intros Hd; [constructor|]. cbn [map List.filter] in *.
  apply NoDup_cons in Hd as [Hn Hd]. destruct (Z.odd f.2); [|by apply IH]. cbn [map]. apply NoDup_cons. split; [|by apply IH].
  rewrite list_elem_of_In, in_map_iff. intros (p & E & Hp). apply filter_In in Hp as [Hp _].
  apply Hn. assert (f.1 = p.1) as -> by lia. apply list_elem_of_In. by apply in_map.
Qed.

Section row.
Context (b : HostRelationBatch) (rs : list relation) (Hb : repr b rs) (i : nat) (r : relation) (Hi : rs !! i = Some r).
Context (fb_size : Z) (Hfb : 0 <= fb_size < UINT32_MAX - 2) (Hr : over_base fb_size r).

Lemma in_base_filter P p : p ∈ List.filter P (r_factors r) -> 0 <= p.1 < fb_size.
Proof using Hr.
  intros Hp. destruct Hr as [_ H]. rewrite Forall_forall in H. apply H. apply list_elem_of_In in Hp. apply filter_In in Hp as [Hp _].
  by apply list_elem_of_In.
Qed.

Lemma fillRowCols_row lp :
  (forall c, lp = Some c -> c <> UINT32_MAX) -> fillRowCols b (Z.of_nat i) (default UINT32_MAX lp) = row_of lp r.
Proof using Hb Hi Hfb Hr.
  intros Hlp. unfold fillRowCols, row_of, factor_range.
  rewrite (idx_map_prefix _ rs _ i r (repr_signs b rs Hb) Hi), (idx_map_prefix _ rs _ i r (repr_val2 b rs Hb) Hi).
  rewrite (csr_loop _ (fun out p => if Z.odd p.2 then out ++ [wrap 32 (p.1 + 2)] else out) b rs i r); [|done|done|].
  2:{ intros k p acc E1 E2. by rewrite E1, E2. }
  rewrite (foldl_filter (fun p => Z.odd p.2) (fun p => wrap 32 (p.1 + 2))). cbn [app].
  rewrite <- app_assoc. f_equal. f_equal. f_equal.
  - f_equal. apply map_ext_in. intros p Hp%list_elem_of_In%in_base_filter. apply wrap_small. unfold in_width, UINT32_MAX in *. lia.
  - destruct lp as [c|]; cbn [default]; [|by rewrite Z.eqb_refl]. rewrite (proj2 (Z.eqb_neq _ _)) by (by apply Hlp). done.
Qed.

Lemma countRowCols_row lp :
  (forall c, lp = Some c -> c <> UINT32_MAX) -> Z.of_nat (length (row_of lp r)) < 2 ^ 32 ->
  countRowCols b (Z.of_nat i) (default UINT32_MAX lp) = Z.of_nat (length (row_of lp r)).
Proof using Hb Hi.
  intros Hlp Hlen. unfold countRowCols, row_of, factor_range in *.
  rewrite (idx_map_prefix _ rs _ i r (repr_signs b rs Hb) Hi), (idx_map_prefix _ rs _ i r (repr_val2 b rs Hb) Hi).
  rewrite !length_app, merge_sort_Permutation, length_map in *.
  rewrite (csr_loop _ (fun c p => if Z.odd p.2 then wrap 32 (c + 1) else c) b rs i r); [|done|done|by intros k p acc _ ->].
  rewrite foldl_count by (unfold in_width, b2n; destruct (negb _), (Z.odd (r_val2 r)); lia).
  set (k := length (List.filter _ _)) in *.
  assert (b2n (negb (r_sign r =? 1)) + b2n (Z.odd (r_val2 r)) = Z.of_nat (length (if negb (r_sign r =? 1) then [0] else []) + length (if Z.odd (r_val2 r) then [1] else []))) as ->.
  { by destruct (negb _), (Z.odd (r_val2 r)). }
  rewrite (wrap_small 32 (Z.of_nat (_ + _) + Z.of_nat k)) by (unfold in_width; lia). destruct lp as [c|];
    [change (length (option_list (Some c))) with 1%nat in *|change (length (option_list None)) with 0%nat in *]; cbn [default] in *.
  - rewrite (proj2 (Z.eqb_neq _ _)) by (by apply Hlp). cbn [negb]. rewrite wrap_small by (unfold in_width; lia). lia.
  - rewrite Z.eqb_refl. cbn [negb]. lia.
Qed.

(** A row is strictly increasing and in range. *)
Lemma row_of_sorted lp n :
  fb_size + 2 <= n -> (forall c, lp = Some c -> fb_size + 2 <= c < n) ->
  sorted_row (row_of lp r) /\ Forall (fun c => 0 <= c < n) (row_of lp r).
Proof using Hr Hfb.
  intros Hn Hlp. unfold row_of. set (fs := map _ _).
  assert (NoDup fs) as Hd by apply factor_columns_nodup, Hr.
  assert (forall c, c ∈ merge_sort Z.le fs -> 2 <= c < fb_size + 2) as Hrange.
  { intros c Hc. rewrite merge_sort_Permutation in Hc. unfold fs in Hc. apply list_elem_of_In, in_map_iff in Hc as (p & <- & Hp).
    apply list_elem_of_In, in_base_filter in Hp. lia. }
  assert (forall l1 l2, sorted_row l1 -> sorted_row l2 -> (forall x y, x ∈ l1 -> y ∈ l2 -> x < y) -> sorted_row (l1 ++ l2)) as Happ.
  { intros l1 l2 H1 H2 H12. unfold sorted_row in *. induction H1 as [|x l1 H1 IH Hx]; [done|]. cbn. constructor.
    - apply IH. intros a c Ha Hc. apply H12; [by apply elem_of_cons; right|done].
    - apply Forall_app. split; [done|]. apply Forall_forall. intros y Hy. apply H12; [apply elem_of_cons; by left|done]. }
  pose proof (sort_strict fs Hd) as Hs.
  assert (forall x l, sorted_row (if x : bool then [l] else [])) as Hone by (intros [] l; repeat constructor).
  assert (forall x (l c : Z), c ∈ (if x : bool then [l] else []) -> c = l) as Hin by (intros [] l c Hc; [by apply list_elem_of_singleton in Hc|by apply elem_of_nil in Hc]).
  assert (forall c, c ∈ option_list lp -> fb_size + 2 <= c < n) as Hopt.
  { intros c Hc. apply Hlp. destruct lp as [c'|]; cbn in Hc; [apply list_elem_of_singleton in Hc as ->; done|by apply elem_of_nil in Hc]. }
  split.
  - apply Happ; [apply Hone|apply Happ; [apply Hone|apply Happ; [done|destruct lp; repeat constructor|]|]|].
    + intros x y Hx%Hrange Hy%Hopt. lia.
    + intros x y Hx%Hin Hy. apply elem_of_app in Hy as [Hy%Hrange|Hy%Hopt]; lia.
    + intros x y Hx%Hin Hy. apply elem_of_app in Hy as [Hy%Hin|Hy]; [lia|]. apply elem_of_app in Hy as [Hy%Hrange|Hy%Hopt]; lia.
  - apply Forall_forall. intros c Hc. rewrite !elem_of_app in Hc. destruct Hc as [Hc%Hin|[Hc%Hin|[Hc%Hrange|Hc%Hopt]]]; lia.
Qed.
End row.

(** ** Lemmas: large-prime columns *)

Lemma assign_lps_spec B keys :
  0 <= B -> B + Z.of_nat (length keys) < 2 ^ 32 ->
  let '(m, next) := foldl assign_lp (∅, B) keys in
  next = B + Z.of_nat (size m) /\ (size m <= length keys)%nat /\
  (forall p c, m !! p = Some c -> B <= c < next) /\
  (forall p q c, m !! p = Some c -> m !! q = Some c -> p = q) /\ (forall p, p ∈ keys -> is_Some (m !! p)).
Proof.
  intros HB. induction keys as [|p keys IH] using rev_ind; intros Hlen.
  { cbn. split; [by rewrite map_size_empty, Z.add_0_r|]. split; [by rewrite map_size_empty|].
    split; [intros p c Hp; by rewrite lookup_empty in Hp|]. split; [intros p q c Hp; by rewrite lookup_empty in Hp|].
    intros p Hp. by apply elem_of_nil in Hp. }
  rewrite length_app in Hlen. cbn in Hlen. rewrite foldl_snoc. specialize (IH ltac:(lia)). destruct (foldl assign_lp (∅, B) keys) as [m next].
  destruct IH as (I1 & I2 & I3 & I4 & I5). unfold assign_lp. rewrite length_app. cbn [length]. destruct (m !! p) as [c0|] eqn:Ep.
  - split; [done|]. split; [lia|]. split; [done|]. split; [done|]. intros q [Hq|Hq]%elem_of_app; [by apply I5|].
    apply list_elem_of_singleton in Hq as ->. by rewrite Ep.
  - rewrite wrap_small by (unfold in_width; lia). rewrite map_size_insert_None by done.
    split; [lia|]. split; [lia|]. split; [|split].
    + intros q c Hq. destruct (Z.eq_dec p q) as [->|Hne]; [rewrite lookup_insert_eq in Hq; injection Hq as <-; lia|].
      rewrite lookup_insert_ne in Hq by done. specialize (I3 q c Hq). lia.
    + intros q q' c Hq Hq'. destruct (Z.eq_dec p q) as [<-|Hne], (Z.eq_dec p q') as [<-|Hne']; [done| | |].
      * rewrite lookup_insert_eq in Hq. rewrite lookup_insert_ne in Hq' by done. injection Hq as <-. specialize (I3 q' _ Hq'). lia.
      * rewrite lookup_insert_eq in Hq'. rewrite lookup_insert_ne in Hq by done. injection Hq' as <-. specialize (I3 q _ Hq). lia.
      * rewrite lookup_insert_ne in Hq, Hq' by done. by apply (I4 q q' c).
    + intros q [Hq|Hq]%elem_of_app.
      * destruct (Z.eq_dec p q) as [->|Hne]; [by rewrite lookup_insert_eq|]. rewrite lookup_insert_ne by done. by apply I5.
      * apply list_elem_of_singleton in Hq as ->. by rewrite lookup_insert_eq.
Qed.

(** ** Lemmas: filling the two arrays *)

Lemma vget_ext {A} (d : A) l1 l2 :
  length l1 = length l2 -> (forall i, 0 <= i < Z.of_nat (length l1) -> vget d l1 i = vget d l2 i) -> l1 = l2.
Proof.
  intros Hl H. apply (nth_ext _ _ d d Hl). intros i Hi. specialize (H (Z.of_nat i) ltac:(lia)). unfold vget in H. by rewrite Nat2Z.id in H.
Qed.

(** A loop that stores [f i] in slot [k + i]. *)
Lemma fill_slots (f : Z -> Z) k n ro :
  0 <= k -> 0 <= n -> k + n <= Z.of_nat (length ro) ->
  let ro' := foldl (fun ro i => vset ro (k + i) (f i)) ro (upto n) in
  length ro' = length ro /\ forall j, 0 <= j -> vget 0 ro' j = if (k <=? j) && (j <? k + n) then f (j - k) else vget 0 ro j.
Proof.
  intros Hk Hn Hlen. apply (foldl_upto (fun m ro' => length ro' = length ro /\
    forall j, 0 <= j -> vget 0 ro' j = if (k <=? j) && (j <? k + m) then f (j - k) else vget 0 ro j)); [done| |].
  - split; [done|]. intros j Hj. destruct (Z.leb_spec k j), (Z.ltb_spec j (k + 0)); cbn; lia || done.
  - intros i ro' Hi [L H]. split; [by rewrite length_vset|]. intros j Hj. destruct (Z.eq_dec (k + i) j) as [<-|Hne].
    + rewrite vget_vset_eq by lia. rewrite (proj2 (Z.leb_le _ _)), (proj2 (Z.ltb_lt _ _)) by lia. cbn. f_equal. lia.
    + rewrite vget_vset_ne, H by lia. destruct (Z.leb_spec k j), (Z.ltb_spec j (k + i)), (Z.ltb_spec j (k + (i + 1))); cbn; lia || done.
Qed.

Lemma prefix_sums_spec (F : Z -> Z) n ro :
  0 <= n -> Z.of_nat (length ro) = n + 1 -> F 0 = vget 0 ro 0 ->
  (forall i, 0 <= i < n -> F (i + 1) = vget 0 ro (i + 1) + F i /\ in_width 32 (F (i + 1))) ->
  let ro' := prefix_sums n ro in length ro' = length ro /\ forall j, 0 <= j <= n -> vget 0 ro' j = F j.
Proof.
  intros Hn Hlen H0 HS. unfold prefix_sums.
  assert (let ro' := foldl (fun ro i => vset ro (i + 1) (wrap 32 (vget 0 ro (i + 1) + vget 0 ro i))) ro (upto n) in
    length ro' = length ro /\ forall j, 0 <= j -> vget 0 ro' j = if j <=? n then F j else vget 0 ro j) as [L H].
  { apply (foldl_upto (fun m ro' => length ro' = length ro /\ forall j, 0 <= j -> vget 0 ro' j = if j <=? m then F j else vget 0 ro j)); [done| |].
    - split; [done|]. intros j Hj. destruct (Z.leb_spec j 0); [|done]. assert (j = 0) as -> by lia. by symmetry.
    - intros i ro' Hi [L H]. split; [by rewrite length_vset|]. intros j Hj. destruct (HS i Hi) as [E W].
      destruct (Z.eq_dec (i + 1) j) as [<-|Hne].
      + rewrite vget_vset_eq, !H by lia. rewrite (proj2 (Z.leb_gt (i + 1) i)) by lia. rewrite !Z.leb_refl.
        rewrite <- E. by apply wrap_small.
      + rewrite vget_vset_ne, H by lia. destruct (Z.leb_spec j i), (Z.leb_spec j (i + 1)); lia || done. }
  split; [done|]. intros j Hj. rewrite H by lia. by rewrite (proj2 (Z.leb_le _ _)) by lia.
Qed.

(** A loop that stores consecutive rows. *)
Lemma fill_rows (rows : list (list Z)) (row : Z -> list Z) (off : Z -> Z) pre post :
  (forall i r, rows !! i = Some r -> row (Z.of_nat i) = r /\ off (Z.of_nat i) = Z.of_nat (length pre + length (concat (take i rows)))) ->
  foldl (fun ci i => write_at ci (off i) (row i)) (pre ++ replicate (length (concat rows)) 0 ++ post) (upto (Z.of_nat (length rows)))
  = pre ++ concat rows ++ post.
Proof.
  revert post. induction rows as [|r rows IH] using rev_ind; intros post H; [done|].
  rewrite length_app. cbn [length]. replace (Z.of_nat (length rows + 1)) with (Z.of_nat (length rows) + 1) by lia. rewrite upto_S, foldl_snoc by lia.
  rewrite concat_app, length_app, replicate_add. cbn [concat]. rewrite app_nil_r, <- (app_assoc (replicate _ _)), IH.
  2:{ intros i r' Hr'. pose proof (lookup_lt_Some _ _ _ Hr'). destruct (H i r') as [E1 E2]; [by rewrite lookup_app_l|].
      split; [done|]. by rewrite take_app_le in E2 by lia. }
  destruct (H (length rows) r) as [-> ->]; [by apply list_lookup_middle|]. rewrite take_app_length. unfold write_at. rewrite Nat2Z.id.
  rewrite !app_assoc. rewrite <- (app_assoc (pre ++ concat rows)). rewrite <- length_app.
  rewrite take_app_length. rewrite drop_app_ge by lia. rewrite Nat.add_comm, Nat.add_sub.
  rewrite drop_app_length' by (by rewrite length_replicate). by rewrite <- !app_assoc.
Qed.

(** ** Lemmas: matrices given by their rows *)

Lemma offsets_ends o (ls : list (list Z)) : offsets_from o ls = o :: ends_from o ls.
Proof. revert o. induction ls as [|l ls IH]; intros o; [done|]. cbn. by rewrite IH. Qed.

Section rows.
Context (rows : list (list Z)) (n : Z).
Notation m := (csr_of rows n).

Lemma csr_of_offset i : (i <= length rows)%nat -> idx (row_offsets m) (Z.of_nat i) = Z.of_nat (length (concat (take i rows))).
Proof using Type.
  intros Hi. unfold csr_of, idx. cbn [row_offsets]. rewrite <- offsets_ends, Nat2Z.id, offsets_from_lookup by done. lia.
Qed.

Lemma csr_of_row i r : rows !! i = Some r -> csr_row m (Z.of_nat i) = r.
Proof using Type.
  intros Hi. pose proof (lookup_lt_Some _ _ _ Hi). unfold csr_row. replace (Z.of_nat i + 1) with (Z.of_nat (S i)) by lia.
  rewrite !csr_of_offset by lia. unfold slice. cbn [csr_of col_indices]. rewrite (concat_take_S rows i r Hi).
  rewrite Nat2Z.id. replace (Z.to_nat _) with (length r) by lia. by apply concat_slice.
Qed.

Lemma csr_of_entry i r d : rows !! i = Some r -> (d < length r)%nat ->
  idx (col_indices m) (idx (row_offsets m) (Z.of_nat i) + Z.of_nat d) = nth d r 0.
Proof using Type.
  intros Hi Hd. pose proof (lookup_lt_Some _ _ _ Hi). rewrite csr_of_offset by lia. unfold idx. cbn [csr_of col_indices].
  rewrite <- (take_drop_middle rows i r Hi) at 2. rewrite concat_app. cbn [concat]. rewrite app_nth2 by lia. rewrite app_nth1 by lia.
  f_equal. lia.
Qed.

Hypothesis Hrows : forall r, r ∈ rows -> sorted_row r /\ Forall (fun c => 0 <= c < n) r.

Lemma sorted_row_nth r k : sorted_row r -> (S k < length r)%nat -> nth k r 0 < nth (S k) r 0.
Proof using Type.
  intros Hs. revert k. induction Hs as [|x l Hs IH Hx]; intros k Hk; [cbn in Hk; lia|]. destruct k as [|k].
  - cbn [nth]. destruct l as [|y l]; [cbn in Hk; lia|]. by inversion Hx.
  - cbn [nth] in *. cbn [length] in Hk. apply IH. lia.
Qed.

Lemma csr_of_valid : Z.of_nat (length rows) + 1 < 2 ^ 32 -> ValidateHostMatrixCSR m = true.
Proof using Hrows.
  intros Hlen. unfold ValidateHostMatrixCSR. rewrite !andb_true_iff. split; [split; [split|]|].
  - apply Z.eqb_eq. cbn [csr_of row_offsets n_rows]. rewrite wrap_small by (unfold in_width; lia). rewrite <- offsets_ends, length_offsets_from. lia.
  - done.
  - apply Z.eqb_eq. pose proof (csr_of_offset (length rows) ltac:(done)) as E. rewrite firstn_all in E. unfold idx in E. rewrite Nat2Z.id in E.
    cbn [csr_of row_offsets col_indices] in *. rewrite <- E. rewrite <- offsets_ends in *.
    pose proof (length_offsets_from 0 rows) as L. clear -L. revert L. generalize (offsets_from 0 rows). intros l L.
    destruct (exists_last (l := l)) as (l' & x & ->); [by destruct l|]. rewrite List.last_last. rewrite length_app in L. cbn in L.
    rewrite app_nth2 by lia. by replace (length rows - length l')%nat with 0%nat by lia.
  - apply forallb_forall. intros i Hi. apply list_elem_of_In, elem_of_upto in Hi. cbn [csr_of n_rows] in Hi.
    destruct (lookup_lt_is_Some_2 rows (Z.to_nat i)) as [r Hr]; [lia|]. replace i with (Z.of_nat (Z.to_nat i)) by lia.
    pose proof (lookup_lt_Some _ _ _ Hr). destruct (Hrows r) as [Hs Hin]; [by eapply list_elem_of_lookup_2|].
    unfold valid_row. replace (Z.of_nat (Z.to_nat i) + 1) with (Z.of_nat (S (Z.to_nat i))) by lia. rewrite (csr_of_offset (S (Z.to_nat i))) by lia.
    rewrite (concat_take_S rows _ r Hr), Nat2Z.inj_add, <- csr_of_offset by lia. set (st := idx (row_offsets m) _).
    rewrite andb_true_iff. split; [apply Z.leb_le; lia|]. replace (st + Z.of_nat (length r) - st) with (Z.of_nat (length r)) by lia.
    apply forallb_forall. intros d Hd. apply list_elem_of_In, elem_of_upto in Hd. replace d with (Z.of_nat (Z.to_nat d)) by lia.
    unfold st. rewrite (csr_of_entry _ r) by (done || lia). rewrite andb_true_iff. split.
    + rewrite Forall_forall in Hin. apply Z.ltb_lt. cbn [csr_of n_cols]. apply Hin. apply list_elem_of_In, nth_In. lia.
    + destruct (Z.to_nat d) as [|d'] eqn:Ed; [apply orb_true_iff; left; apply Z.leb_le; lia|]. apply orb_true_iff. right. apply Z.ltb_lt.
      replace (idx (row_offsets m) (Z.of_nat (Z.to_nat i)) + Z.of_nat (S d') - 1) with (idx (row_offsets m) (Z.of_nat (Z.to_nat i)) + Z.of_nat d') by lia.
      rewrite (csr_of_entry _ r) by (done || lia). apply sorted_row_nth; [done|lia].
Qed.

Lemma csr_of_ok : Z.of_nat (length rows) < 2 ^ 32 -> 0 <= n < 2 ^ 32 -> csr_ok m.
Proof using Hrows.
  intros Hlen Hn. constructor; [cbn [csr_of n_rows]; lia|done|]. intros i Hi. cbn [csr_of n_rows n_cols] in *.
  destruct (lookup_lt_is_Some_2 rows (Z.to_nat i)) as [r Hr]; [lia|]. replace i with (Z.of_nat (Z.to_nat i)) by lia.
  rewrite (csr_of_row _ r Hr). apply Hrows. by eapply list_elem_of_lookup_2.
Qed.
End rows.

(** ** The builder *)

Lemma lp_keys partials ps :
  repr partials ps -> Forall (fun r => in_width 64 (r_lp r)) ps -> map (lp_key partials) (upto (num_relations partials)) = map r_lp ps.
Proof.
  intros Hp Hw. rewrite (repr_num_relations _ _ Hp). apply list_eq. intros i. rewrite !list_lookup_fmap.
  destruct (ps !! i) as [r|] eqn:Ei.
  - rewrite lookup_upto by (apply lookup_lt_Some in Ei; lia). cbn. f_equal. unfold lp_key.
    rewrite (idx_map_prefix _ ps _ i r (repr_lp _ _ Hp) Ei). apply wrap_small. rewrite Forall_forall in Hw. apply Hw. by eapply list_elem_of_lookup_2.
  - rewrite lookup_ge_None_2; [done|]. rewrite length_upto. apply lookup_ge_None_1 in Ei. lia.
Qed.

Section builder.
Context (smooths partials : HostRelationBatch) (ss ps : list relation) (Hs : repr smooths ss) (Hp : repr partials ps).
Context (fb_size : Z) (Hover : Forall (over_base fb_size) (ss ++ ps)) (Hlps : Forall (fun r => in_width 64 (r_lp r)) ps).
Context (Hcols : 0 <= fb_size /\ fb_size + 2 + Z.of_nat (length ps) < UINT32_MAX) (Hrows : Z.of_nat (length (ss ++ ps)) + 1 < 2 ^ 32).

Lemma key_at i r : ps !! i = Some r -> lp_key partials (Z.of_nat i) = r_lp r.
Proof using Hp Hlps.
  intros Hi. unfold lp_key. rewrite (idx_map_prefix _ ps _ i r (repr_lp _ _ Hp) Hi). apply wrap_small.
  rewrite Forall_forall in Hlps. apply Hlps. by eapply list_elem_of_lookup_2.
Qed.

Lemma expanded_lookup lps i r : ss !! i = Some r -> expanded_rows lps ss ps !! i = Some (row_of None r).
Proof using Type. intros Hi. unfold expanded_rows. rewrite lookup_app_l by (rewrite length_map; by eapply lookup_lt_Some). by rewrite list_lookup_fmap, Hi. Qed.

Lemma expanded_lookup_r lps i r : ps !! i = Some r -> expanded_rows lps ss ps !! (length ss + i)%nat = Some (row_of (lps !! r_lp r) r).
Proof using Type.
  intros Hi. unfold expanded_rows. rewrite lookup_app_r by (rewrite length_map; lia). rewrite length_map, Nat.add_comm, Nat.add_sub.
  by rewrite list_lookup_fmap, Hi.
Qed.

Lemma length_expanded lps : length (expanded_rows lps ss ps) = length (ss ++ ps).
Proof using Type. unfold expanded_rows. by rewrite !length_app, !length_map. Qed.

Context (lps : gmap Z Z) (L : Z) (Hlpc : lp_columns fb_size L lps) (HL : 0 <= L <= Z.of_nat (length ps)).
Context (Hdom : forall r, r ∈ ps -> is_Some (lps !! r_lp r)).
Notation rows := (expanded_rows lps ss ps).
Context (Hnnz : Z.of_nat (length (concat rows)) < 2 ^ 32).

Lemma expanded_rows_ok r : r ∈ rows -> sorted_row r /\ Forall (fun c => 0 <= c < fb_size + 2 + L) r.
Proof using Hover Hcols Hlpc HL.
  intros Hr. unfold expanded_rows in Hr. apply Forall_app in Hover as [Ho1 Ho2]. rewrite Forall_forall in Ho1, Ho2.
  apply elem_of_app in Hr as [Hr|Hr]; apply list_elem_of_In, in_map_iff in Hr as (q & <- & Hq); apply list_elem_of_In in Hq.
  - apply (row_of_sorted q fb_size); [unfold UINT32_MAX in *; lia|by apply Ho1|lia|done].
  - apply (row_of_sorted q fb_size); [unfold UINT32_MAX in *; lia|by apply Ho2|lia|]. intros c. apply (lc_range _ _ _ Hlpc).
Qed.

Lemma row_length_fits i r : rows !! i = Some r -> Z.of_nat (length r) < 2 ^ 32.
Proof using Hnnz.
  intros Hi. pose proof (concat_take_S rows i r Hi). pose proof (concat_take_le rows (S i)). lia.
Qed.

Lemma lp_not_max r c : lps !! r_lp r = Some c -> c <> UINT32_MAX.
Proof using Hlpc HL Hcols. intros Hc. pose proof (lc_range _ _ _ Hlpc _ _ Hc) as H. clear -H HL Hcols. unfold UINT32_MAX in *. lia. Qed.

Lemma lp_col_default i r : ps !! i = Some r -> lp_col lps partials (Z.of_nat i) = default UINT32_MAX (lps !! r_lp r).
Proof using Hp Hlps Hdom.
  intros Hi. unfold lp_col. rewrite (key_at i r Hi). destruct (Hdom r) as [c ->]; [by eapply list_elem_of_lookup_2|done].
Qed.

(** Row counts and row contents, both loops at once. *)
Lemma smooth_row i r : ss !! i = Some r ->
  countRowCols smooths (Z.of_nat i) UINT32_MAX = Z.of_nat (length (row_of None r)) /\ fillRowCols smooths (Z.of_nat i) UINT32_MAX = row_of None r.
Proof using Hs Hover Hcols Hnnz.
  intros Hi. assert (over_base fb_size r) as Ho.
  { apply Forall_app in Hover as [Ho _]. rewrite Forall_forall in Ho. apply Ho. by eapply list_elem_of_lookup_2. }
  pose proof (row_length_fits i _ (expanded_lookup lps i r Hi)). split.
  - by apply (countRowCols_row smooths ss Hs i r Hi None).
  - apply (fillRowCols_row smooths ss Hs i r Hi fb_size ltac:(unfold UINT32_MAX in *; lia) Ho None). done.
Qed.

Lemma partial_row i r : ps !! i = Some r ->
  countRowCols partials (Z.of_nat i) (lp_col lps partials (Z.of_nat i)) = Z.of_nat (length (row_of (lps !! r_lp r) r)) /\
  fillRowCols partials (Z.of_nat i) (lp_col lps partials (Z.of_nat i)) = row_of (lps !! r_lp r) r.
Proof using Hp Hover Hcols Hnnz Hlps Hdom Hlpc HL.
  intros Hi. assert (over_base fb_size r) as Ho.
  { apply Forall_app in Hover as [_ Ho]. rewrite Forall_forall in Ho. apply Ho. by eapply list_elem_of_lookup_2. }
  pose proof (row_length_fits _ _ (expanded_lookup_r lps i r Hi)). rewrite (lp_col_default i r Hi). split.
  - apply (countRowCols_row partials ps Hp i r Hi); [apply lp_not_max|done].
  - apply (fillRowCols_row partials ps Hp i r Hi fb_size ltac:(unfold UINT32_MAX in *; lia) Ho). apply lp_not_max.
Qed.
End builder.

Lemma row_of_length lp r : (length (row_of lp r) <= 3 + length (r_factors r))%nat.
Proof.
  unfold row_of. rewrite !length_app, merge_sort_Permutation, length_map. pose proof (List.filter_length_le (fun f => Z.odd f.2) (r_factors r)).
  assert (length (option_list lp) <= 1)%nat by (destruct lp; cbn; lia).
  destruct (negb (r_sign r =? 1)), (Z.odd (r_val2 r)); cbn [length]; lia.
Qed.

Lemma concat_rows_length (f : relation -> list Z) rs :
  (forall r, (length (f r) <= 3 + length (r_factors r))%nat) -> (length (concat (map f rs)) <= 3 * length rs + length (all_factors rs))%nat.
Proof.
  intros H. induction rs as [|r rs IH]; [done|]. cbn [map concat]. rewrite all_factors_cons, !length_app. cbn [length]. specialize (H r). lia.
Qed.

Lemma expanded_nnz lps ss ps :
  (length (concat (expanded_rows lps ss ps)) <= 3 * length (ss ++ ps) + length (all_factors (ss ++ ps)))%nat.
Proof.
  unfold expanded_rows. rewrite concat_app, all_factors_app, !length_app.
  pose proof (concat_rows_length (row_of None) ss (row_of_length None)).
  pose proof (concat_rows_length (fun r => row_of (lps !! r_lp r) r) ps (fun r => row_of_length _ r)). lia.
Qed.

Lemma fold_map {A B C} (f : A -> B -> A) (g : C -> B) l a : foldl f a (map g l) = foldl (fun a c => f a (g c)) a l.
Proof. revert a. induction l as [|x l IH]; intros a; [done|]. apply IH. Qed.

Lemma foldl_ext_in {A B} (f g : A -> B -> A) l a : (forall a x, x ∈ l -> f a x = g a x) -> foldl f a l = foldl g a l.
Proof.
  revert a. induction l as [|x l IH]; intros a H; [done|]. cbn. rewrite H by (apply elem_of_cons; by left). apply IH.
  intros a' y Hy. apply H, elem_of_cons. by right.
Qed.

Section assemble.
Context (smooths partials : HostRelationBatch) (ss ps : list relation) (Hs : repr smooths ss) (Hp : repr partials ps).
Context (fb_size : Z) (Hb : buildable fb_size ss ps).
Context (lps : gmap Z Z) (L : Z) (Hlpc : lp_columns fb_size L lps) (HL : 0 <= L <= Z.of_nat (length ps)).
Context (Hdom : forall r, r ∈ ps -> is_Some (lps !! r_lp r)).
Notation rows := (expanded_rows lps ss ps).
Notation ns := (Z.of_nat (length ss)).
Notation np := (Z.of_nat (length ps)).

Notation len_at := (len_of rows).
Notation off_at := (off_of rows).

Lemma off_at_S i : 0 <= i < ns + np -> off_at (i + 1) = len_at i + off_at i /\ in_width 32 (off_at (i + 1)).
Proof using Hb.
  intros Hi. destruct (lookup_lt_is_Some_2 rows (Z.to_nat i)) as [r Hr]; [rewrite length_expanded, length_app; lia|].
  unfold off_of, len_of. replace (Z.to_nat (i + 1)) with (S (Z.to_nat i)) by lia. rewrite (nth_lookup_Some _ _ _ _ Hr).
  pose proof (concat_take_le rows (S (Z.to_nat i))). pose proof (expanded_nnz lps ss ps). pose proof (bd_nnz _ _ _ Hb).
  rewrite (concat_take_S rows _ r Hr) in *. split; [lia|unfold in_width; lia].
Qed.

Lemma nnz_bound : Z.of_nat (length (concat rows)) < 2 ^ 32.
Proof using Hb. pose proof (expanded_nnz lps ss ps). pose proof (bd_nnz _ _ _ Hb). lia. Qed.

Lemma smooth_at i : 0 <= i < ns -> countRowCols smooths i UINT32_MAX = len_at i /\ fillRowCols smooths i UINT32_MAX = nth (Z.to_nat i) rows [].
Proof using Hs Hb.
  intros Hi. destruct (lookup_lt_is_Some_2 ss (Z.to_nat i)) as [r Hr]; [lia|].
  destruct (smooth_row smooths ss ps Hs fb_size (bd_over _ _ _ Hb) (bd_cols _ _ _ Hb) lps nnz_bound _ r Hr) as [E1 E2].
  rewrite Z2Nat.id in E1, E2 by lia. unfold len_of. rewrite (nth_lookup_Some _ _ _ _ (expanded_lookup ss ps lps _ r Hr)). done.
Qed.

Lemma partial_at i : 0 <= i < np ->
  countRowCols partials i (lp_col lps partials i) = len_at (ns + i) /\ fillRowCols partials i (lp_col lps partials i) = nth (Z.to_nat (ns + i)) rows [].
Proof using Hp Hb Hlpc HL Hdom.
  intros Hi. destruct (lookup_lt_is_Some_2 ps (Z.to_nat i)) as [r Hr]; [lia|].
  destruct (partial_row partials ss ps Hp fb_size (bd_over _ _ _ Hb) (bd_lp _ _ _ Hb) (bd_cols _ _ _ Hb) lps L Hlpc HL Hdom nnz_bound _ r Hr) as [E1 E2].
  rewrite Z2Nat.id in E1, E2 by lia. unfold len_of. replace (Z.to_nat (ns + i)) with (length ss + Z.to_nat i)%nat by lia.
  rewrite (nth_lookup_Some _ _ _ _ (expanded_lookup_r ss ps lps _ r Hr)). done.
Qed.

Lemma build_offsets :
  let ro := replicate (Z.to_nat (wrap 32 (wrap 32 (ns + np) + 1))) 0 in
  let ro := foldl (fun ro i => vset ro (i + 1) (countRowCols smooths i UINT32_MAX)) ro (upto ns) in
  let ro := foldl (fun ro i => vset ro (wrap 32 (ns + i) + 1) (countRowCols partials i (lp_col lps partials i))) ro (upto np) in
  prefix_sums (wrap 32 (ns + np)) ro = 0 :: ends_from 0 rows.
Proof using Hs Hp Hb Hlpc HL Hdom.
  pose proof (bd_rows _ _ _ Hb) as Hr. rewrite length_app in Hr. rewrite (wrap_small 32 (ns + np)) by (unfold in_width; lia).
  rewrite wrap_small by (unfold in_width; lia). intros ro0. cbv zeta.
  rewrite (foldl_ext_in (fun ro i => vset ro (i + 1) (countRowCols smooths i UINT32_MAX)) (fun ro i => vset ro (1 + i) (len_at i))).
  2:{ intros a i Hi%elem_of_upto. f_equal; [lia|by apply smooth_at]. }
  destruct (fill_slots len_at 1 ns ro0) as [L1 V1]; [lia|lia|unfold ro0; rewrite length_replicate; lia|].
  set (ro1 := foldl _ ro0 (upto ns)) in *. rewrite (foldl_ext_in _ (fun ro i => vset ro (ns + 1 + i) (len_at (ns + i)))).
  2:{ intros a i Hi%elem_of_upto. rewrite wrap_small by (unfold in_width; lia). f_equal; [lia|by apply partial_at]. }
  destruct (fill_slots (fun i => len_at (ns + i)) (ns + 1) np ro1) as [L2 V2]; [lia|lia|rewrite L1; unfold ro0; rewrite length_replicate; lia|].
  set (ro2 := foldl _ ro1 (upto np)) in *. assert (length ro0 = Z.to_nat (ns + np + 1)) as L0 by apply length_replicate.
  destruct (prefix_sums_spec off_at (ns + np) ro2) as [L3 V3]; [lia|lia| | |].
  { rewrite V2, V1 by lia. rewrite (proj2 (Z.leb_gt (ns + 1) 0)) by lia. cbn [andb]. rewrite (proj2 (Z.leb_gt 1 0)) by lia. cbn [andb].
    unfold ro0. rewrite vget_replicate by lia. done. }
  { intros i Hi. destruct (off_at_S i Hi) as [E W]. split; [|done]. rewrite E. f_equal. rewrite V2, V1 by lia.
    destruct (Z.leb_spec (ns + 1) (i + 1)), (Z.ltb_spec (i + 1) (ns + 1 + np)); cbn [andb]; [f_equal; lia|lia| |lia].
    rewrite (proj2 (Z.leb_le 1 (i + 1))), (proj2 (Z.ltb_lt (i + 1) (1 + ns))) by lia. cbn [andb]. f_equal. lia. }
  apply (vget_ext 0).
  - rewrite L3, L2, L1, L0, <- offsets_ends, length_offsets_from, length_expanded, length_app. lia.
  - intros i Hi. rewrite L3, L2, L1, L0 in Hi. rewrite V3 by lia.
    replace i with (Z.of_nat (Z.to_nat i)) at 2 by lia. unfold off_of. symmetry.
    apply (csr_of_offset rows 0 (Z.to_nat i)). rewrite length_expanded, length_app. lia.
Qed.

Lemma build_columns ro :
  ro = 0 :: ends_from 0 rows ->
  let ci := replicate (Z.to_nat (vget 0 ro (wrap 32 (ns + np)))) 0 in
  let ci := foldl (fun ci i => write_at ci (vget 0 ro i) (fillRowCols smooths i UINT32_MAX)) ci (upto ns) in
  foldl (fun ci i => write_at ci (vget 0 ro (wrap 32 (ns + i))) (fillRowCols partials i (lp_col lps partials i))) ci (upto np) = concat rows.
Proof using Hs Hp Hb Hlpc HL Hdom.
  intros ->. pose proof (bd_rows _ _ _ Hb) as Hr. rewrite length_app in Hr. rewrite (wrap_small 32 (ns + np)) by (unfold in_width; lia).
  assert (forall i, 0 <= i <= ns + np -> vget 0 (0 :: ends_from 0 rows) i = off_at i) as Hoff.
  { intros i Hi. replace i with (Z.of_nat (Z.to_nat i)) at 1 by lia. apply (csr_of_offset rows 0 (Z.to_nat i)). rewrite length_expanded, length_app. lia. }
  rewrite Hoff by lia. set (rs1 := map (row_of None) ss). set (rs2 := map (fun r => row_of (lps !! r_lp r) r) ps).
  assert (rows = rs1 ++ rs2) as Erows by done.
  assert (off_at (ns + np) = Z.of_nat (length (concat rs1) + length (concat rs2))) as ->.
  { unfold off_of. rewrite firstn_all2 by (rewrite length_expanded, length_app; lia). by rewrite Erows, concat_app, length_app. }
  rewrite Nat2Z.id, replicate_add. intros ci. cbv zeta.
  assert (forall i, 0 <= i < ns + np -> off_at i = Z.of_nat (length (concat (take (Z.to_nat i) rows)))) as Ho by done.
  pose proof (fill_rows rs1 (fun i => fillRowCols smooths i UINT32_MAX) (vget 0 (0 :: ends_from 0 rows)) [] (replicate (length (concat rs2)) 0)) as H1.
  cbn [app] in H1. rewrite (eq_refl : length rs1 = length (map (row_of None) ss)), length_map in H1. unfold ci. rewrite H1.
  2:{ intros i r Hi. pose proof (lookup_lt_Some _ _ _ Hi) as Hlt. unfold rs1 in Hlt. rewrite length_map in Hlt. split.
      - rewrite (proj2 (smooth_at (Z.of_nat i) ltac:(lia))), Nat2Z.id, Erows. apply nth_lookup_Some. by rewrite lookup_app_l by (unfold rs1; rewrite length_map; lia).
      - rewrite Hoff by lia. unfold off_of. rewrite Nat2Z.id, Erows, take_app_le by (unfold rs1; rewrite length_map; lia). done. }
  pose proof (fill_rows rs2 (fun i => fillRowCols partials i (lp_col lps partials i)) (fun i => vget 0 (0 :: ends_from 0 rows) (ns + i)) (concat rs1) []) as H2.
  rewrite (eq_refl : length rs2 = length (map (fun r => row_of (lps !! r_lp r) r) ps)), length_map, !app_nil_r in H2.
  rewrite (foldl_ext_in _ (fun ci i => write_at ci (vget 0 (0 :: ends_from 0 rows) (ns + i)) (fillRowCols partials i (lp_col lps partials i)))).
  2:{ intros a i Hi%elem_of_upto. rewrite wrap_small by (unfold in_width; lia). done. }
  rewrite H2; [by rewrite Erows, concat_app|].
  intros i r Hi. pose proof (lookup_lt_Some _ _ _ Hi) as Hlt. unfold rs2 in Hlt. rewrite length_map in Hlt. split.
  - rewrite (proj2 (partial_at (Z.of_nat i) ltac:(lia))), Erows. apply nth_lookup_Some.
    rewrite lookup_app_r by (unfold rs1; rewrite length_map; lia). unfold rs1. rewrite length_map. by replace (Z.to_nat (ns + Z.of_nat i) - length ss)%nat with i by lia.
  - rewrite Hoff by lia. unfold off_of. rewrite Erows, take_app_ge by (unfold rs1; rewrite length_map; lia). rewrite concat_app, length_app. unfold rs1 at 2. rewrite length_map.
    by replace (Z.to_nat (ns + Z.of_nat i) - length ss)%nat with i by lia.
Qed.
End assemble.

Lemma build_spec smooths partials ss ps fb_size :
  repr smooths ss -> repr partials ps -> buildable fb_size ss ps ->
  exists lps L, build smooths partials fb_size = mkExpanded (csr_of (expanded_rows lps ss ps) (fb_size + 2 + L)) lps L /\
    lp_columns fb_size L lps /\ 0 <= L <= Z.of_nat (length ps) /\ (forall r, r ∈ ps -> is_Some (lps !! r_lp r)).
Proof.
  intros Hs Hp Hb. pose proof (bd_cols _ _ _ Hb) as Hc. unfold UINT32_MAX in Hc. pose proof (bd_rows _ _ _ Hb) as Hr.
  unfold build. rewrite (wrap_small 32 (fb_size + 2)) by (unfold in_width; lia).
  rewrite (lp_keys partials ps Hp (bd_lp _ _ _ Hb)), (repr_num_relations _ _ Hs), (repr_num_relations _ _ Hp).
  pose proof (assign_lps_spec (fb_size + 2) (map r_lp ps) ltac:(lia) ltac:(rewrite length_map; lia)) as HA.
  destruct (foldl assign_lp (∅, fb_size + 2) (map r_lp ps)) as [lps next]. destruct HA as (A1 & A2 & A3 & A4 & A5). rewrite length_map in A2.
  assert (next - (fb_size + 2) = Z.of_nat (size lps)) as -> by lia. set (L := Z.of_nat (size lps)) in *.
  rewrite (wrap_small 32 L) by (unfold in_width; lia).
  assert (lp_columns fb_size L lps) as Hlpc by (constructor; [intros p c Hpc; specialize (A3 p c Hpc); lia|exact A4]).
  assert (forall r, r ∈ ps -> is_Some (lps !! r_lp r)) as Hdom by (intros r Hin; apply A5; apply list_elem_of_In; apply in_map; by apply list_elem_of_In).
  assert (0 <= L <= Z.of_nat (length ps)) as HL by lia.
  pose proof (build_offsets smooths partials ss ps Hs Hp fb_size Hb lps L Hlpc HL Hdom) as E1. cbv zeta in E1. rewrite E1. clear E1.
  pose proof (build_columns smooths partials ss ps Hs Hp fb_size Hb lps L Hlpc HL Hdom _ eq_refl) as E2. cbv zeta in E2. rewrite E2. clear E2.
  rewrite length_app in Hr. rewrite (wrap_small 32 (_ + Z.of_nat (length ps))) by (unfold in_width; lia).
  rewrite (wrap_small 32 (fb_size + 2 + L)) by (unfold in_width; lia).
  assert (mkCSR (0 :: ends_from 0 (expanded_rows lps ss ps)) (concat (expanded_rows lps ss ps)) (Z.of_nat (length ss) + Z.of_nat (length ps)) (fb_size + 2 + L)
    = csr_of (expanded_rows lps ss ps) (fb_size + 2 + L)) as ->.
  { unfold csr_of. f_equal. rewrite length_expanded, length_app. lia. }
  rewrite csr_of_valid; [|intros r; apply (expanded_rows_ok ss ps fb_size); [apply Hb|apply Hb|done|done]|rewrite length_expanded, length_app; lia].
  by exists lps, L.
Qed.

(** ** The entries of a row *)

Lemma odd_expo j fs : NoDup (map fst fs) ->
  Z.odd (zsum (map (fun f : Z * Z => if f.1 =? j then f.2 else 0) fs)) = existsb (fun f => (f.1 =? j) && Z.odd f.2) fs.
Proof.
  induction fs as [|f fs IH]; [done|]. cbn [map existsb]. intros [Hn Hd]%NoDup_cons. rewrite zsum_cons, Z.odd_add, IH by done.
  destruct (Z.eqb_spec f.1 j) as [Ej|]; cbn [andb orb]; [|by destruct (existsb _ _)].
  assert (existsb (fun p => (p.1 =? j) && Z.odd p.2) fs = false) as ->; [|by rewrite xorb_false_r, orb_false_r].
  apply not_true_iff_false. rewrite existsb_exists. intros (p & Hp & E). apply andb_true_iff in E as [E%Z.eqb_eq _].
  apply Hn. rewrite Ej, <- E. apply list_elem_of_In. by apply in_map.
Qed.

Section entries.
Context (fb_size : Z) (r : relation) (Hr : over_base fb_size r) (Hfb : 0 <= fb_size).
Context (lp : option Z) (Hlp : forall c, lp = Some c -> fb_size + 2 <= c).

Lemma entry_one (x : bool) (l c : Z) : entry c (if x then [l] else []) = x && (l =? c).
Proof using Type. destruct x; cbn; [apply xorb_false_r|done]. Qed.

Lemma entry_factors c :
  entry c (merge_sort Z.le (map (fun f => f.1 + 2) (List.filter (fun f => Z.odd f.2) (r_factors r)))) = Z.odd (expo (c - 2) r).
Proof using Hr.
  unfold expo. rewrite odd_expo by apply Hr. set (fs := map _ _).
  assert (NoDup fs) as Hd by apply factor_columns_nodup, Hr.
  apply eq_true_iff_eq. rewrite (sorted_row_entry _ c (sort_strict fs Hd)), merge_sort_Permutation, existsb_exists. unfold fs.
  rewrite list_elem_of_In, in_map_iff. split.
  - intros (p & <- & Hp). apply filter_In in Hp as [Hp Ho]. exists p. split; [done|]. rewrite Ho, andb_true_r. apply Z.eqb_eq. lia.
  - intros (p & Hp & E). apply andb_true_iff in E as [E%Z.eqb_eq Ho]. exists p. split; [lia|]. by apply filter_In.
Qed.

(** Every entry of a row, by kind of column. *)
Lemma row_entries :
  entry 0 (row_of lp r) = negb (r_sign r =? 1) /\ entry 1 (row_of lp r) = Z.odd (r_val2 r) /\
  (forall j, 0 <= j < fb_size -> entry (j + 2) (row_of lp r) = Z.odd (expo j r)) /\
  (forall c, fb_size + 2 <= c -> entry c (row_of lp r) = bool_decide (lp = Some c)).
Proof using Hr Hfb Hlp.
  assert (forall c, entry c (option_list lp) = bool_decide (lp = Some c)) as Eo.
  { intros c. destruct lp as [c'|]; cbn; [|done]. rewrite xorb_false_r. destruct (Z.eqb_spec c' c) as [->|]; [by rewrite bool_decide_true|].
    rewrite bool_decide_false; [done|congruence]. }
  assert (forall j, (j < 0 \/ fb_size <= j) -> Z.odd (expo j r) = false) as Ez.
  { intros j Hj. unfold expo. rewrite odd_expo by apply Hr. apply not_true_iff_false. rewrite existsb_exists. intros (p & Hp & E).
    apply andb_true_iff in E as [E%Z.eqb_eq _]. destruct Hr as [_ Hin]. rewrite Forall_forall in Hin. specialize (Hin p ltac:(by apply list_elem_of_In)). lia. }
  assert (forall c, c < fb_size + 2 -> bool_decide (lp = Some c) = false) as Hlow.
  { intros c Hc. apply bool_decide_false. intros E. specialize (Hlp c E). lia. }
  unfold row_of. split; [|split; [|split]].
  - rewrite !entry_app, !entry_one, entry_factors, Eo, Ez, Hlow by lia. cbn. by rewrite andb_true_r, andb_false_r, !xorb_false_r.
  - rewrite !entry_app, !entry_one, entry_factors, Eo, Ez, Hlow by lia. cbn. by rewrite andb_true_r, andb_false_r, !xorb_false_r.
  - intros j Hj. rewrite !entry_app, !entry_one, entry_factors, Eo, Hlow by lia. rewrite (proj2 (Z.eqb_neq 0 _)), (proj2 (Z.eqb_neq 1 _)) by lia.
    rewrite !andb_false_r, xorb_false_r. cbn. f_equal. f_equal. lia.
  - intros c Hc. rewrite !entry_app, !entry_one, entry_factors, Eo, Ez by lia. rewrite (proj2 (Z.eqb_neq 0 _)), (proj2 (Z.eqb_neq 1 _)) by lia.
    rewrite !andb_false_r. done.
Qed.
End entries.

(** The entries of every row of the assembled matrix. *)
Lemma expanded_entries fb_size ss ps lps L i r :
  Forall (over_base fb_size) (ss ++ ps) -> 0 <= fb_size -> lp_columns fb_size L lps -> (ss ++ ps) !! i = Some r ->
  let row := csr_row (csr_of (expanded_rows lps ss ps) (fb_size + 2 + L)) (Z.of_nat i) in
  entry 0 row = negb (r_sign r =? 1) /\ entry 1 row = Z.odd (r_val2 r) /\
  (forall j, 0 <= j < fb_size -> entry (j + 2) row = Z.odd (expo j r)) /\
  (forall c, fb_size + 2 <= c -> entry c row = bool_decide ((length ss <= i)%nat /\ lps !! r_lp r = Some c)).
Proof.
  intros Hover Hfb Hlpc Hi. assert (over_base fb_size r) as Ho.
  { rewrite Forall_forall in Hover. apply Hover. by eapply list_elem_of_lookup_2. }
  destruct (decide (i < length ss)%nat) as [Hlt|Hge].
  - rewrite lookup_app_l in Hi by done. rewrite (csr_of_row _ _ _ _ (expanded_lookup ss ps lps i r Hi)).
    destruct (row_entries fb_size r Ho Hfb None) as (E1 & E2 & E3 & E4); [done|].
    split; [done|]. split; [done|]. split; [done|]. intros c Hcc. rewrite E4 by done. rewrite !bool_decide_false; [done|intros [? _]; lia|done].
  - rewrite lookup_app_r in Hi by lia. pose proof (csr_of_row _ (fb_size + 2 + L) _ _ (expanded_lookup_r ss ps lps _ r Hi)) as Er.
    replace (length ss + (i - length ss))%nat with i in Er by lia. rewrite Er.
    destruct (row_entries fb_size r Ho Hfb (lps !! r_lp r)) as (E1 & E2 & E3 & E4).
    { intros c Hcc. apply (lc_range _ _ _ Hlpc _ _ Hcc). }
    split; [done|]. split; [done|]. split; [done|]. intros c Hcc. rewrite E4 by done. apply bool_decide_ext. naive_solver lia.
Qed.

(** ** Properties *)

(** C10. The expanded matrix of valid batches passes its validation and has one row per relation, smooth
    relations first, with exactly the parities of that relation: sign, exponent of 2, exponent of each prime
    of the factor base, and one column for the large prime of a partial relation; distinct large primes have
    distinct columns. *)
Theorem expanded_matrix_exact smooths partials ss ps fb_size :
  repr smooths ss -> repr partials ps -> buildable fb_size ss ps ->
  let result := build smooths partials fb_size in
  let m := matrix result in
  ValidateHostMatrixCSR m = true /\ csr_ok m /\ n_rows m = Z.of_nat (length ss + length ps) /\ n_cols m = fb_size + 2 + num_lp_cols result /\
  lp_columns fb_size (num_lp_cols result) (lp_col_map result) /\
  forall i r, (ss ++ ps) !! i = Some r ->
    let row := csr_row m (Z.of_nat i) in
    entry 0 row = negb (r_sign r =? 1) /\ entry 1 row = Z.odd (r_val2 r) /\
    (forall j, 0 <= j < fb_size -> entry (j + 2) row = Z.odd (expo j r)) /\
    (forall c, fb_size + 2 <= c -> entry c row = bool_decide ((length ss <= i)%nat /\ lp_col_map result !! r_lp r = Some c)).
Proof.
  intros Hs Hp Hb. destruct (build_spec smooths partials ss ps fb_size Hs Hp Hb) as (lps & L & -> & Hlpc & HL & Hdom).
  cbn [matrix num_lp_cols lp_col_map]. pose proof (bd_cols _ _ _ Hb) as Hc. unfold UINT32_MAX in Hc. pose proof (bd_rows _ _ _ Hb) as Hr.
  assert (forall r, r ∈ expanded_rows lps ss ps -> sorted_row r /\ Forall (fun c => 0 <= c < fb_size + 2 + L) r) as Hok.
  { intros r. apply (expanded_rows_ok ss ps fb_size); [apply Hb|apply Hb|done|done]. }
  split; [apply csr_of_valid; [done|rewrite length_expanded; lia]|].
  split; [apply csr_of_ok; [done|rewrite length_expanded; lia|lia]|].
  split; [cbn [csr_of n_rows]; by rewrite length_expanded, length_app|]. split; [done|]. split; [done|].
  intros i r Hi. apply expanded_entries; [apply Hb|lia|done|done].
Qed.

Lemma expanded_matrix_exact_witness :
  let result := build (batch_of [mkRel 41 1 5 1 0 [(3, 1)]]) (batch_of [mkRel 7 255 2 101 0 [(2, 3); (0, 1)]; mkRel 9 1 1 101 0 []]) 4 in
  ValidateHostMatrixCSR (matrix result) = true /\ csr_row (matrix result) 1 = [0; 2; 4; 6].
Proof.
  assert (buildable 4 [mkRel 41 1 5 1 0 [(3, 1)]] [mkRel 7 255 2 101 0 [(2, 3); (0, 1)]; mkRel 9 1 1 101 0 []]) as Hb.
  { constructor; [repeat (constructor; [split; [apply (bool_decide_unpack _); vm_compute; exact I|repeat (constructor; [cbn; lia|]); constructor]|]); constructor
    |repeat (constructor; [by unfold in_width|]); constructor|by vm_compute|by vm_compute|by vm_compute]. }
  split; [exact (proj1 (expanded_matrix_exact _ _ _ _ 4 (repr_batch_of _) (repr_batch_of _) Hb))|by vm_compute].
Defined.
