(* ===== verification/Factorization.v ===== *)
(** From relations to factors: the parts of [src/src/orchestrator/orchestrator.cpp] that feed the
    expanded matrix and that carry kernel vectors back to the square-root step (filtering of
    partial relations, concatenation of the batches, repacking, the correction for large primes, the
    loop over the solutions), and the composition of matrix construction, preprocessing and
    square root. *)
From Stdlib Require Import ZArith Lia Sorted.
From stdpp Require Import base gmap sets list sorting.
From S2P Require Import Prelude UInt512 UInt512Div Montgomery MathUtils Soa Gf2 Batches RowOps MergeStages Preprocess Congruence SqrtStep ExpandedMatrix.
#[local] Open Scope Z_scope.

(** ** Selecting relations *)

(** Append relation [i] of [src]; the offsets end with the running count of factors. *)
Definition push_relation (src dst : HostRelationBatch) (i : Z) : HostRelationBatch :=
  let f_begin := idx (factor_offsets src) i in
  let f_end := idx (factor_offsets src) (i + 1) in
  let ks := map (Z.add f_begin) (upto (f_end - f_begin)) in
  let factor_cursor := wrap 64 (num_factors dst + (f_end - f_begin)) in
  {| sqrt_Q := sqrt_Q dst ++ [idx (sqrt_Q src) i];
     signs := signs dst ++ [idx (signs src) i];
     val_2_exps := val_2_exps dst ++ [idx (val_2_exps src) i];
     large_primes := large_primes dst ++ [idx (large_primes src) i];
     char_bits := char_bits dst;
     factor_offsets := factor_offsets dst ++ [factor_cursor];
     factor_indices := foldl (fun l j => l ++ [idx (factor_indices src) j]) (factor_indices dst) ks;
     factor_counts := foldl (fun l j => l ++ [idx (factor_counts src) j]) (factor_counts dst) ks;
     num_relations := num_relations dst + 1;
     num_factors := factor_cursor |}.

(** An empty batch with the first CSR offset. *)
Definition batch_start : HostRelationBatch := mkBatch [] [] [] [] [] [0] [] [] 0 0.

Definition lp_freq (lps : list Z) : gmap Z Z :=
  foldl (fun m lp => <[lp := wrap 32 (default 0 (m !! lp) + 1)]> m) ∅ lps.

(** Keep the partial relations whose large prime occurs at least twice. *)
Definition filter_partials (partials : HostRelationBatch) : HostRelationBatch :=
  let n_part := num_relations partials in
  let freq := lp_freq (map (idx (large_primes partials)) (upto n_part)) in
  foldl (fun filtered i =>
           if default 0 (freq !! idx (large_primes partials) i) <? 2 then filtered else push_relation partials filtered i)
    batch_start (upto n_part).

(** Keep the relations without a large prime. *)
Definition raw_smooths (relations : HostRelationBatch) : HostRelationBatch :=
  foldl (fun out i => if 1 <? idx (large_primes relations) i then out else push_relation relations out i)
    batch_start (upto (num_relations relations)).

(** ** Back from kernel vectors *)

(** Smooth relations, then partial ones; the character bits are not carried over. *)
Definition concat_batches (a b : HostRelationBatch) : HostRelationBatch :=
  {| sqrt_Q := sqrt_Q a ++ sqrt_Q b;
     signs := signs a ++ signs b;
     val_2_exps := val_2_exps a ++ val_2_exps b;
     large_primes := large_primes a ++ large_primes b;
     char_bits := [];
     factor_offsets := factor_offsets a ++ map (fun o => wrap 64 (o + num_factors a)) (tail (factor_offsets b));
     factor_indices := factor_indices a ++ factor_indices b;
     factor_counts := factor_counts a ++ factor_counts b;
     num_relations := num_relations a + num_relations b;
     num_factors := wrap 64 (num_factors a + num_factors b) |}.

Definition repack (n : Z) (orig_indices : list Z) : list Z :=
  foldl (fun bits i =>
           if i <? n then vset bits (i / 64) (Z.lor (vget 0 bits (i / 64)) (wrap 64 (Z.shiftl 1 (i mod 64)))) else bits)
    (replicate (Z.to_nat ((n + 63) / 64)) 0) orig_indices.

(** How often each large prime enters the right-hand sides: twice for a combined relation ([i < ns]). *)
Definition count_lp (bits : list Z) (combined : HostRelationBatch) (ns : Z) (counts : gmap Z Z) (i : Z) : gmap Z Z :=
  if Z.land (vget 0 bits (i / 64)) (wrap 64 (Z.shiftl 1 (i mod 64))) =? 0 then counts
  else
    let lp := idx (large_primes combined) i in
    if 1 <? lp then <[lp := wrap 32 (default 0 (counts !! lp) + (if i <? ns then 2 else 1))]> counts else counts.

Definition lp_counts (bits : list Z) (combined : HostRelationBatch) (ns : Z) : gmap Z Z :=
  foldl (count_lp bits combined ns) ∅ (upto (num_relations combined)).

(** The product of the halved powers, over the entries in the order the hash map enumerates them. *)
Definition lp_term (mont : Montgomery) (product : option uint512) (e : Z * Z) : option uint512 :=
  product_mont ← product;
  let half := e.2 / 2 in
  if 0 <? half then
    term ← mont_pow mont (mont_transform mont (u512_of_u128 e.1)) (u512_of_u32 half);
    Some (mont_mul mont product_mont term)
  else Some product_mont.

Definition lp_correction (mont : Montgomery) (entries : list (Z * Z)) : option uint512 :=
  foldl (lp_term mont) (Some (mont_transform mont (u512_of_u32 1))) entries.

(** The square-root step no longer sees large primes. *)
Definition clear_lps (b : HostRelationBatch) : HostRelationBatch :=
  {| sqrt_Q := sqrt_Q b; signs := signs b; val_2_exps := val_2_exps b;
     large_primes := foldl (fun l i => vset l i 1) (large_primes b) (upto (num_relations b));
     char_bits := char_bits b; factor_offsets := factor_offsets b; factor_indices := factor_indices b;
     factor_counts := factor_counts b; num_relations := num_relations b; num_factors := num_factors b |}.

(** ** The loop over the solutions *)

(** Host path of [SquareRootStage]: try the kernel vectors, each with its correction, until two proper factors
    multiply to [N]. *)
Fixpoint try_solutions (N : uint512) (relations : HostRelationBatch) (factor_base : list Z)
    (solutions : list (list Z * option uint512)) : option (option (uint512 * uint512)) :=
  match solutions with
  | [] => Some None
  | (bits, correction) :: rest =>
      factors ← Perform N bits relations factor_base correction;
      let '(f1, f2) := factors in
      if is_zero f1 || is_zero f2 then try_solutions N relations factor_base rest
      else if is_one f1 || u512_eqb f1 N then try_solutions N relations factor_base rest
      else if negb (u512_eqb (mult f1 f2) N) then try_solutions N relations factor_base rest
      else Some (Some (f1, f2))
  end.

(** ** Vocabulary of the specifications *)

(** A batch with other character bits: the square-root step and the matrix do not read them. *)
Definition with_chars (cs : list Z) (b : HostRelationBatch) : HostRelationBatch :=
  mkBatch (sqrt_Q b) (signs b) (val_2_exps b) (large_primes b) cs (factor_offsets b) (factor_indices b) (factor_counts b)
    (num_relations b) (num_factors b).

(** [b] holds exactly the relations [rs], up to character bits. *)
Definition holds_exactly (b : HostRelationBatch) (rs : list relation) : Prop := with_chars [] b = with_chars [] (batch_of rs).

Definition clear_lp (r : relation) : relation := mkRel (r_sqrt_Q r) (r_sign r) (r_val2 r) 1 (r_char r) (r_factors r).

(** A valid relation of the data path: a combined (or full) relation has its large prime squared, a partial one has it
    once. *)
Definition smooth_holds (n : Z) (fb : list Z) (r : relation) : Prop :=
  factors_in_base fb r /\ r_sqrt_Q r * r_sqrt_Q r ≅{n} rhs fb (clear_lp r) * (lp_val r * lp_val r).
Definition partial_holds (n : Z) (fb : list Z) (r : relation) : Prop :=
  factors_in_base fb r /\ 1 < r_lp r /\ r_sqrt_Q r * r_sqrt_Q r ≅{n} rhs fb (clear_lp r) * r_lp r.

(** Large primes with multiplicities. *)
Definition weighted (ns : Z) (i : Z) (r : relation) : Z * Z := (r_lp r, if i <? ns then 2 else 1).
Definition add_count (counts : gmap Z Z) (w : Z * Z) : gmap Z Z :=
  if 1 <? w.1 then <[w.1 := wrap 32 (default 0 (counts !! w.1) + w.2)]> counts else counts.
Definition power_of (e : Z * Z) : Z := e.1 ^ e.2.

(** ** Lemmas: batches *)

(** A congruence of squares that splits [n]. *)
Definition splits (n X Y : Z) : Prop := X * X ≅{n} Y * Y /\ ~ Y ≅{n} 0 /\ ~ X ≅{n} Y /\ ~ X ≅{n} - Y.

(** The two roots of a solution [(bits, (correction, its value))]. *)
Definition left_root (rs : list relation) (s : list Z * (option uint512 * Z)) : Z := zprod (map r_sqrt_Q (select (kbit s.1) 0 rs)).

Definition right_root (fb : list Z) (rs : list relation) (s : list Z * (option uint512 * Z)) : Z :=
  Y_root fb (select (kbit s.1) 0 rs) * s.2.2.

Definition solution_ok (N : uint512) (fb : list Z) (rs : list relation) (s : list Z * (option uint512 * Z)) : Prop :=
  exponents_fit fb (select (kbit s.1) 0 rs) /\ correction_value (Montgomery_init N) s.2.1 s.2.2.

(** A full relation and two partial ones modulo 1649, over the factor base 5, and what the preprocessing makes of them. *)
Definition smooths_1649 : list relation := [mkRel 43 1 3 1 0 [(0, 2)]].

Definition partials_1649 : list relation := [mkRel 45 1 3 47 0 []; mkRel 49 1 4 47 0 []].

Definition preprocessed_1649 : PreprocessResult :=
  {| pr_reduced := {| row_offsets := [0; 0]; col_indices := []; n_rows := 1; n_cols := 0 |}; pr_row_map := [4];
     pr_merge_tree := {| num_leaves := 3; internal_nodes := [(0, 1); (2, 3)] |};
     singletons_removed := 0; singleton_iterations := 1; w2_merges := 2; hw_merges := 0 |}.

(** ** Vocabulary of the specifications *)

(** The relation of a row of the expanded matrix. *)
Definition rel_at (ss ps : list relation) (i : Z) : relation := nth (Z.to_nat i) (ss ++ ps) (mkRel 0 0 0 0 0 []).

(** Occurrences of [lp] in a list. *)
Definition occurrences (lp : Z) (lps : list Z) : Z := Z.of_nat (length (List.filter (Z.eqb lp) lps)).

Definition weight_at (lp : Z) (w : Z * Z) : Z := if (1 <? lp) && (w.1 =? lp) then w.2 else 0.

(** Valid relations of the data path over a factor base. *)
Record valid_relations (n : Z) (fb : list Z) (ss ps : list relation) : Prop := mkValidRels {
  vr_ok : Forall relation_ok (ss ++ ps);
  vr_smooth : Forall (smooth_holds n fb) ss;
  vr_partial : Forall (partial_holds n fb) ps;
  vr_build : buildable (Z.of_nat (length fb)) ss ps;
  vr_count : 2 * Z.of_nat (length (ss ++ ps)) < 2 ^ 32;
  vr_fb : Forall (in_width 32) fb
}.

(** What the recombination hands to [Perform] for a set of relations: the packed bits, and the entries of the
    large-prime counts. *)
Definition solution_bits (combined : HostRelationBatch) (rels : list Z) : list Z := repack (num_relations combined) rels.

Lemma batch_of_exactly rs : holds_exactly (batch_of rs) rs.
Proof. done. Qed.

Lemma holds_exactly_fields b rs :
  holds_exactly b rs ->
  sqrt_Q b = map r_sqrt_Q rs /\ signs b = map r_sign rs /\ val_2_exps b = map r_val2 rs /\ large_primes b = map r_lp rs /\
  factor_offsets b = offsets_from 0 (map r_factors rs) /\ factor_indices b = map fst (all_factors rs) /\ factor_counts b = map snd (all_factors rs) /\
  num_relations b = Z.of_nat (length rs) /\ num_factors b = Z.of_nat (length (all_factors rs)).
Proof. intros H. unfold holds_exactly, with_chars in H. by injection H. Qed.

Lemma with_chars_repr b rs : holds_exactly b rs -> repr (with_chars (map r_char rs) b) rs.
Proof.
  intros H. destruct (holds_exactly_fields b rs H) as (D1 & D2 & D3 & D4 & D5 & D6 & D7 & D8 & D9).
  unfold with_chars. rewrite D1, D2, D3, D4, D5, D6, D7, D8, D9. by constructor.
Qed.

Lemma exactly_intro b rs :
  sqrt_Q b = map r_sqrt_Q rs -> signs b = map r_sign rs -> val_2_exps b = map r_val2 rs -> large_primes b = map r_lp rs ->
  factor_offsets b = offsets_from 0 (map r_factors rs) -> factor_indices b = map fst (all_factors rs) -> factor_counts b = map snd (all_factors rs) ->
  num_relations b = Z.of_nat (length rs) -> num_factors b = Z.of_nat (length (all_factors rs)) -> holds_exactly b rs.
Proof. intros. unfold holds_exactly, with_chars. cbn. congruence. Qed.

Lemma foldl_collect {A} (f : Z * Z -> A) (g : list A -> Z -> list A) src rs i r l :
  repr src rs -> rs !! i = Some r ->
  (forall k p acc, idx (factor_indices src) k = p.1 -> idx (factor_counts src) k = p.2 -> g acc k = acc ++ [f p]) ->
  let start := idx (factor_offsets src) (Z.of_nat i) in
  foldl g l (map (Z.add start) (upto (idx (factor_offsets src) (Z.of_nat i + 1) - start))) = l ++ map f (r_factors r).
Proof.
  intros Hs Hi Hg start. unfold start. rewrite (csr_loop g (fun acc p => acc ++ [f p]) src rs i r l Hs Hi Hg). clear.
  revert l. induction (r_factors r) as [|p fs IH]; intros l; cbn [foldl map]; [by rewrite app_nil_r|]. by rewrite IH, <- app_assoc.
Qed.

Lemma push_relation_exactly src srs dst rs i r :
  repr src srs -> srs !! i = Some r -> holds_exactly dst rs -> in_width 64 (Z.of_nat (length (all_factors (rs ++ [r])))) ->
  holds_exactly (push_relation src dst (Z.of_nat i)) (rs ++ [r]).
Proof.
  intros Hs Hi Hd Hw. destruct (holds_exactly_fields _ _ Hd) as (D1 & D2 & D3 & D4 & D5 & D6 & D7 & D8 & D9).
  rewrite all_factors_app, length_app in Hw. unfold all_factors at 2 in Hw. cbn [map concat] in Hw. rewrite app_nil_r in Hw.
  assert (wrap 64 (num_factors dst + (idx (factor_offsets src) (Z.of_nat i + 1) - idx (factor_offsets src) (Z.of_nat i))) = Z.of_nat (length (all_factors (rs ++ [r])))) as Ec.
  { rewrite D9, (row_length src srs i r Hs Hi). rewrite wrap_small by (unfold in_width in *; lia).
    rewrite all_factors_app, length_app. unfold all_factors at 3. cbn [map concat]. rewrite app_nil_r. lia. }
  unfold push_relation. apply exactly_intro; cbn [sqrt_Q signs val_2_exps large_primes factor_offsets factor_indices factor_counts num_relations num_factors];
    rewrite ?Ec, ?map_app; cbn [map].
  - by rewrite D1, (idx_map_prefix _ srs _ i r (repr_sqrt_Q _ _ Hs) Hi).
  - by rewrite D2, (idx_map_prefix _ srs _ i r (repr_signs _ _ Hs) Hi).
  - by rewrite D3, (idx_map_prefix _ srs _ i r (repr_val2 _ _ Hs) Hi).
  - by rewrite D4, (idx_map_prefix _ srs _ i r (repr_lp _ _ Hs) Hi).
  - rewrite offsets_from_snoc, D5. f_equal. f_equal. rewrite all_factors_app, length_app. unfold all_factors. cbn [map concat]. rewrite app_nil_r. lia.
  - rewrite (foldl_collect fst _ src srs i r _ Hs Hi) by (by intros k p acc -> _). rewrite D6, all_factors_app, map_app.
    unfold all_factors at 3. cbn [map concat]. by rewrite app_nil_r.
  - rewrite (foldl_collect snd _ src srs i r _ Hs Hi) by (by intros k p acc _ ->). rewrite D7, all_factors_app, map_app.
    unfold all_factors at 3. cbn [map concat]. by rewrite app_nil_r.
  - rewrite D8, length_app. cbn [length]. lia.
  - done.
Qed.

(** A loop that appends the relations a predicate keeps. *)
Lemma push_loop src srs (keep : Z -> bool) (P : relation -> bool) :
  repr src srs -> (forall i r, srs !! i = Some r -> keep (Z.of_nat i) = P r) -> in_width 64 (Z.of_nat (length (all_factors srs))) ->
  holds_exactly (foldl (fun dst i => if keep i then push_relation src dst i else dst) batch_start (upto (num_relations src))) (List.filter P srs).
Proof.
  intros Hs Hk Hw. rewrite (repr_num_relations _ _ Hs).
  assert (forall n, (n <= length srs)%nat -> holds_exactly (foldl (fun dst i => if keep i then push_relation src dst i else dst) batch_start (upto (Z.of_nat n)))
    (List.filter P (take n srs))) as H.
  { induction n as [|n IH]; intros Hn; [done|]. specialize (IH ltac:(lia)).
    replace (Z.of_nat (S n)) with (Z.of_nat n + 1) by lia. rewrite upto_S, foldl_snoc by lia.
    destruct (lookup_lt_is_Some_2 srs n) as [r Hr]; [lia|]. rewrite (take_S_r _ _ _ Hr), List.filter_app. cbn [List.filter]. rewrite (Hk n r Hr).
    destruct (P r); [|by rewrite app_nil_r]. apply (push_relation_exactly src srs); [done|done|done|].
    assert (length (all_factors (List.filter P (take n srs) ++ [r])) <= length (all_factors srs))%nat; [|unfold in_width in *; lia].
    rewrite all_factors_app, length_app. pose proof (all_factors_take_S srs n r Hr) as E. pose proof (all_factors_take_le srs (S n)).
    assert (forall l, length (all_factors (List.filter P l)) <= length (all_factors l))%nat as Hf.
    { induction l as [|x l IHl]; [done|]. cbn [List.filter]. rewrite all_factors_cons, length_app. destruct (P x); [rewrite all_factors_cons, length_app|]; lia. }
    specialize (Hf (take n srs)). unfold all_factors at 2. cbn [map concat]. rewrite app_nil_r. lia. }
  specialize (H (length srs) ltac:(lia)). by rewrite firstn_all in H.
Qed.

Lemma lp_freq_spec lps k : Z.of_nat (length lps) < 2 ^ 32 -> default 0 (lp_freq lps !! k) = occurrences k lps.
Proof.
  unfold lp_freq, occurrences. induction lps as [|x lps IH] using rev_ind; intros Hlen; [cbn [foldl]; by rewrite lookup_empty|].
  rewrite length_app in Hlen. cbn in Hlen. specialize (IH ltac:(lia)). rewrite foldl_snoc, List.filter_app, length_app. cbn [List.filter].
  pose proof (List.filter_length_le (Z.eqb x) lps) as Hle. pose proof (List.filter_length_le (Z.eqb k) lps).
  destruct (Z.eqb_spec k x) as [->|Hne].
  - rewrite lookup_insert_eq. cbn [default from_option id length]. rewrite IH. rewrite wrap_small by (unfold in_width; lia). lia.
  - rewrite lookup_insert_ne, IH by done. cbn. lia.
Qed.

Lemma lps_of_batch b rs : repr b rs -> map (idx (large_primes b)) (upto (num_relations b)) = map r_lp rs.
Proof.
  intros Hb. rewrite (repr_num_relations _ _ Hb). apply list_eq. intros i. rewrite !list_lookup_fmap.
  destruct (rs !! i) as [r|] eqn:Ei.
  - rewrite lookup_upto by (apply lookup_lt_Some in Ei; lia). cbn. f_equal. apply (idx_map_prefix _ rs _ i r (repr_lp _ _ Hb) Ei).
  - rewrite lookup_ge_None_2; [done|]. rewrite length_upto. apply lookup_ge_None_1 in Ei. lia.
Qed.

Lemma filter_partials_exactly b ps :
  repr b ps -> Z.of_nat (length ps) < 2 ^ 32 -> in_width 64 (Z.of_nat (length (all_factors ps))) ->
  holds_exactly (filter_partials b) (List.filter (fun r => 2 <=? occurrences (r_lp r) (map r_lp ps)) ps).
Proof.
  intros Hb Hlen Hw. unfold filter_partials. rewrite (lps_of_batch b ps Hb).
  rewrite (foldl_ext_in _ (fun filtered i => if 2 <=? default 0 (lp_freq (map r_lp ps) !! idx (large_primes b) i) then push_relation b filtered i else filtered)).
  2:{ intros a i _. destruct (Z.ltb_spec (default 0 (lp_freq (map r_lp ps) !! idx (large_primes b) i)) 2), (Z.leb_spec 2 (default 0 (lp_freq (map r_lp ps) !! idx (large_primes b) i))); lia || done. }
  apply push_loop; [done| |done]. intros i r Hi. rewrite lp_freq_spec by (by rewrite length_map).
  by rewrite (idx_map_prefix _ ps _ i r (repr_lp _ _ Hb) Hi).
Qed.

Lemma raw_smooths_exactly b rs :
  repr b rs -> in_width 64 (Z.of_nat (length (all_factors rs))) ->
  holds_exactly (raw_smooths b) (List.filter (fun r => r_lp r <=? 1) rs).
Proof.
  intros Hb Hw. unfold raw_smooths.
  rewrite (foldl_ext_in _ (fun out i => if idx (large_primes b) i <=? 1 then push_relation b out i else out)).
  2:{ intros a i _. destruct (Z.ltb_spec 1 (idx (large_primes b) i)), (Z.leb_spec (idx (large_primes b) i) 1); lia || done. }
  apply push_loop; [done| |done]. intros i r Hi. by rewrite (idx_map_prefix _ rs _ i r (repr_lp _ _ Hb) Hi).
Qed.

Lemma offsets_from_shift {A} o d (fs : list (list A)) : map (fun x => x + d) (offsets_from o fs) = offsets_from (o + d) fs.
Proof. revert o. induction fs as [|f fs IH]; intros o; [done|]. cbn. rewrite IH. f_equal. f_equal. lia. Qed.

Lemma offsets_from_le {A} o (fs : list (list A)) x : x ∈ offsets_from o fs -> o <= x <= o + Z.of_nat (length (concat fs)).
Proof.
  revert o. induction fs as [|f fs IH]; intros o Hx; cbn [offsets_from concat] in *.
  - apply list_elem_of_singleton in Hx as ->. cbn. lia.
  - rewrite length_app. apply elem_of_cons in Hx as [->|Hx]; [lia|]. apply IH in Hx. lia.
Qed.

Lemma offsets_from_last {A} o (fs : list (list A)) : offsets_from o fs = removelast (offsets_from o fs) ++ [o + Z.of_nat (length (concat fs))].
Proof.
  revert o. induction fs as [|f fs IH]; intros o; [cbn; by rewrite Z.add_0_r|]. cbn [offsets_from concat]. rewrite IH at 1.
  rewrite length_app. pose proof (length_offsets_from (o + Z.of_nat (length f)) fs) as L. destruct (offsets_from (o + Z.of_nat (length f)) fs); [done|].
  cbn [removelast app]. do 3 f_equal. lia.
Qed.

Lemma offsets_from_split {A} (fs gs : list (list A)) :
  offsets_from 0 (fs ++ gs) = offsets_from 0 fs ++ tail (offsets_from (0 + Z.of_nat (length (concat fs))) gs).
Proof.
  rewrite offsets_from_app. rewrite (offsets_from_last 0 fs) at 2. rewrite <- app_assoc. f_equal. by destruct gs.
Qed.

(** Concatenation of batches is concatenation of the relations. *)
Lemma concat_batches_exactly a b ra rb :
  holds_exactly a ra -> holds_exactly b rb -> in_width 64 (Z.of_nat (length (all_factors (ra ++ rb)))) ->
  holds_exactly (concat_batches a b) (ra ++ rb).
Proof.
  intros Ha Hb Hw. destruct (holds_exactly_fields _ _ Ha) as (A1 & A2 & A3 & A4 & A5 & A6 & A7 & A8 & A9).
  destruct (holds_exactly_fields _ _ Hb) as (B1 & B2 & B3 & B4 & B5 & B6 & B7 & B8 & B9).
  pose proof Hw as Hw'. rewrite all_factors_app, length_app in Hw'.
  apply exactly_intro; unfold concat_batches; cbn [sqrt_Q signs val_2_exps large_primes factor_offsets factor_indices factor_counts num_relations num_factors];
    rewrite ?map_app, ?all_factors_app, ?map_app.
  - by rewrite A1, B1.
  - by rewrite A2, B2.
  - by rewrite A3, B3.
  - by rewrite A4, B4.
  - rewrite A5, B5, A9. set (na := Z.of_nat (length (all_factors ra))).
    rewrite offsets_from_split, <- (offsets_from_shift 0 na), <- tl_map. do 2 f_equal. apply map_ext_in. intros o Ho.
    apply list_elem_of_In, offsets_from_le in Ho. apply wrap_small. unfold in_width, all_factors in *. lia.
  - by rewrite A6, B6.
  - by rewrite A7, B7.
  - rewrite A8, B8, length_app. lia.
  - rewrite A9, B9, length_app, wrap_small by (unfold in_width in *; lia). lia.
Qed.

(** ** Lemmas: repacking *)

Lemma bit_word b k : 0 <= b < 64 -> Z.testbit (wrap 64 (Z.shiftl 1 b)) k = (k =? b).
Proof.
  intros Hb. rewrite Z.shiftl_1_l, wrap_small by (split; [lia|apply Z.pow_lt_mono_r; lia]).
  destruct (Z.eqb_spec k b) as [->|Hne]; [apply Z.pow2_bits_true; lia|]. destruct (Z.le_gt_cases 0 k); [apply Z.pow2_bits_false; lia|by apply Z.testbit_neg_r].
Qed.

Lemma div_mod_64 i : 0 <= i -> 0 <= i / 64 /\ 0 <= i mod 64 < 64 /\ i = 64 * (i / 64) + i mod 64.
Proof. intros Hi. pose proof (Z.div_mod i 64 ltac:(lia)). pose proof (Z.mod_pos_bound i 64 ltac:(lia)). split; [apply Z.div_pos; lia|lia]. Qed.

Lemma repack_spec n l i : 0 <= i < n -> Forall (fun x => 0 <= x) l -> kbit (repack n l) i = bool_decide (i ∈ l).
Proof.
  intros Hi Hl. unfold repack. set (zeros := replicate _ 0).
  assert (Z.of_nat (length zeros) = (n + 63) / 64) as Lz.
  { unfold zeros. rewrite length_replicate. pose proof (Z.div_pos (n + 63) 64 ltac:(lia) ltac:(lia)). lia. }
  assert (kbit zeros i = false) as Hz by (unfold kbit, idx, zeros; by rewrite nth_zeros, Z.testbit_0_l).
  assert (forall bits, Z.of_nat (length bits) = (n + 63) / 64 ->
    kbit (foldl (fun bits i => if i <? n then vset bits (i / 64) (Z.lor (vget 0 bits (i / 64)) (wrap 64 (Z.shiftl 1 (i mod 64)))) else bits) bits l) i
    = kbit bits i || bool_decide (i ∈ l)) as H; [|by rewrite H, Hz].
  clear zeros Lz Hz. induction Hl as [|x l Hx _ IH]; intros bits Lb; cbn [foldl]; [by rewrite orb_false_r|].
  rewrite IH by (destruct (x <? n); [by rewrite length_vset|done]).
  assert (bool_decide (i ∈ x :: l) = (i =? x) || bool_decide (i ∈ l)) as ->.
  { apply eq_true_iff_eq. rewrite orb_true_iff, !bool_decide_eq_true, Z.eqb_eq. apply elem_of_cons. }
  rewrite orb_assoc. f_equal. destruct (Z.ltb_spec x n) as [Hlt|Hge].
  2:{ rewrite (proj2 (Z.eqb_neq i x)) by lia. by rewrite orb_false_r. }
  destruct (div_mod_64 i ltac:(lia)) as (I1 & I2 & I3). destruct (div_mod_64 x Hx) as (X1 & X2 & X3).
  assert (x / 64 < (n + 63) / 64) as Hxb by (apply Z.div_lt_upper_bound in Hlt || idtac; pose proof (Z.div_mod (n + 63) 64 ltac:(lia)); pose proof (Z.mod_pos_bound (n + 63) 64 ltac:(lia)); lia).
  unfold kbit. change (idx ?l ?k) with (vget 0 l k). destruct (Z.eq_dec (x / 64) (i / 64)) as [E|E].
  - rewrite <- E, vget_vset_eq by lia. rewrite Z.lor_spec, bit_word by done. f_equal.
    destruct (Z.eqb_spec (i mod 64) (x mod 64)), (Z.eqb_spec i x); lia || done.
  - rewrite vget_vset_ne by lia. rewrite (proj2 (Z.eqb_neq i x)) by congruence. by rewrite orb_false_r.
Qed.

(** The selected relations, by index. *)
Lemma select_by_index (sel : Z -> bool) (rs : list relation) d :
  select sel 0 rs = map (fun i => nth (Z.to_nat i) rs d) (List.filter sel (upto (Z.of_nat (length rs)))).
Proof.
  induction rs as [|r rs IH] using rev_ind; [done|]. rewrite select_app, length_app, IH. cbn [select length].
  replace (Z.of_nat (length rs + 1)) with (Z.of_nat (length rs) + 1) by lia. rewrite upto_S, List.filter_app, map_app, Z.add_0_l by lia. f_equal.
  - apply map_ext_in. intros i Hi. apply filter_In in Hi as [Hi _]. apply list_elem_of_In, elem_of_upto in Hi. symmetry. apply app_nth1. lia.
  - cbn [List.filter]. destruct (sel (Z.of_nat (length rs))); [|done]. cbn [map]. rewrite Nat2Z.id. f_equal. symmetry. apply nth_middle.
Qed.

Lemma filter_sorted_set (sel : Z -> bool) n rels :
  sorted_row rels -> Forall (fun i => 0 <= i < n) rels -> (forall i, 0 <= i < n -> sel i = bool_decide (i ∈ rels)) ->
  List.filter sel (upto n) = rels.
Proof.
  intros Hs Hr Hsel. rewrite Forall_forall in Hr. pose proof (filter_sorted sel _ (upto_sorted n)) as Hf.
  apply sorted_row_ext; [done|done|]. intros x. apply eq_true_iff_eq. rewrite !sorted_row_entry by done.
  rewrite list_elem_of_In, filter_In, <- list_elem_of_In, elem_of_upto. split.
  - intros [Hx E]. rewrite Hsel in E by done. by apply bool_decide_eq_true in E.
  - intros Hx. split; [by apply Hr|]. rewrite Hsel by (by apply Hr). by apply bool_decide_eq_true.
Qed.

(** ** Lemmas: parities *)

Lemma odd_zsum {A} (f : A -> Z) l : Z.odd (zsum (map f l)) = xsum (fun x => Z.odd (f x)) l.
Proof. induction l as [|x l IH]; [done|]. cbn [map xsum foldr]. by rewrite zsum_cons, Z.odd_add, IH. Qed.

Lemma xsum_ext_in {A} (f g : A -> bool) l : (forall x, x ∈ l -> f x = g x) -> xsum f l = xsum g l.
Proof.
  intros H. induction l as [|x l IH]; [done|]. cbn. f_equal; [apply H, elem_of_cons; by left|]. apply IH. intros y Hy. apply H, elem_of_cons. by right.
Qed.

Lemma xsum_const_false {A} (l : list A) : xsum (fun _ => false) l = false.
Proof. by induction l. Qed.

Section kernel.
Context (fb : list Z) (ss ps : list relation) (lps : gmap Z Z) (L : Z).
Notation fb_size := (Z.of_nat (length fb)).
Notation rs := (ss ++ ps).
Notation ns := (Z.of_nat (length ss)).
Notation m := (csr_of (expanded_rows lps ss ps) (fb_size + 2 + L)).
Context (Hover : Forall (over_base fb_size) rs) (Hlpc : lp_columns fb_size L lps) (Hdom : forall r, r ∈ ps -> is_Some (lps !! r_lp r)).
Context (rels : list Z) (Hrels : relation_set m rels).

Notation at_ := (rel_at ss ps).

Lemma rels_in_range i : i ∈ rels -> 0 <= i < Z.of_nat (length rs) /\ rs !! Z.to_nat i = Some (at_ i).
Proof using Hrels.
  intros Hi. destruct Hrels as (_ & Hr & _). rewrite Forall_forall in Hr. specialize (Hr i Hi). cbn [csr_of n_rows] in Hr.
  rewrite length_expanded in Hr. split; [lia|]. unfold rel_at. rewrite nth_lookup.
  destruct (lookup_lt_is_Some_2 rs (Z.to_nat i)) as [r ->]; [lia|done].
Qed.

(** A column that lists the parity of [f] makes the total of [f] even. *)
Lemma column_even (f : relation -> Z) c :
  (forall i, i ∈ rels -> entry c (csr_row m i) = Z.odd (f (at_ i))) -> Z.even (zsum (map f (map at_ rels))) = true.
Proof using Hrels.
  intros H. rewrite map_map, <- Z.negb_odd, odd_zsum, (xsum_ext_in _ (fun i => entry c (csr_row m i))).
  - destruct Hrels as (_ & _ & Hz). by rewrite Hz.
  - intros i Hi. symmetry. by apply H.
Qed.

Lemma kernel_all_even : all_even fb (map clear_lp (map at_ rels)).
Proof using Hrels Hover Hlpc.
  assert (forall (f : relation -> Z) c, (forall r, f (clear_lp r) = f r) ->
    (forall i r, rs !! Z.to_nat i = Some r -> 0 <= i -> entry c (csr_row m i) = Z.odd (f r)) -> Z.even (zsum (map f (map clear_lp (map at_ rels)))) = true) as H.
  { intros f c Hf He. rewrite (map_map clear_lp f), (map_ext _ f) by done. apply (column_even f c). intros i Hi.
    destruct (rels_in_range i Hi) as [Hr Ei]. apply He; [done|lia]. }
  assert (forall i r, rs !! Z.to_nat i = Some r -> 0 <= i -> csr_row m i = csr_row m (Z.of_nat (Z.to_nat i))) as Hid by (intros; f_equal; lia).
  assert (0 <= fb_size) as H0 by lia. constructor.
  - apply (H neg_count 0); [done|]. intros i r Hi Hp. rewrite (Hid i r) by done.
    destruct (expanded_entries fb_size ss ps lps L _ r Hover H0 Hlpc Hi) as (E & _). rewrite E. unfold neg_count. by destruct (r_sign r =? 1).
  - apply (H r_val2 1); [done|]. intros i r Hi Hp. rewrite (Hid i r) by done.
    apply (expanded_entries fb_size ss ps lps L _ r Hover H0 Hlpc Hi).
  - intros j Hj. apply (H (expo j) (j + 2)); [done|]. intros i r Hi Hp. rewrite (Hid i r) by done.
    by apply (expanded_entries fb_size ss ps lps L _ r Hover H0 Hlpc Hi).
Qed.

Lemma kernel_lp_even lp : Z.even (zsum (map (fun i => if i <? ns then 0 else if r_lp (at_ i) =? lp then 1 else 0) rels)) = true.
Proof using Hrels Hover Hlpc Hdom.
  assert (0 <= fb_size) as H0 by lia.
  destruct (existsb (fun r => r_lp r =? lp) ps) eqn:Ex.
  - apply existsb_exists in Ex as (r0 & Hr0 & E0%Z.eqb_eq). apply list_elem_of_In in Hr0. destruct (Hdom r0 Hr0) as [c Hc]. rewrite E0 in Hc.
    rewrite <- Z.negb_odd, odd_zsum, (xsum_ext_in _ (fun i => entry c (csr_row m i))); [destruct Hrels as (_ & _ & Hz); by rewrite Hz|].
    intros i Hi. destruct (rels_in_range i Hi) as [Hr Ei]. replace i with (Z.of_nat (Z.to_nat i)) at 3 by lia.
    destruct (expanded_entries fb_size ss ps lps L _ _ Hover H0 Hlpc Ei) as (_ & _ & _ & E).
    rewrite E by (apply (lc_range _ _ _ Hlpc _ _ Hc)). destruct (Z.ltb_spec i ns); [symmetry; apply bool_decide_false; lia|].
    destruct (Z.eqb_spec (r_lp (at_ i)) lp) as [->|Hne]; cbn [Z.odd]; symmetry; [apply bool_decide_true; split; [lia|done]|].
    apply bool_decide_false. intros [_ Hc']. apply Hne. by apply (lc_inj _ _ _ Hlpc _ _ c).
  - assert (forall i, i ∈ rels -> (if i <? ns then 0 else if r_lp (at_ i) =? lp then 1 else 0) = 0) as H.
    { intros i Hi. destruct (rels_in_range i Hi) as [Hr Ei]. destruct (Z.ltb_spec i ns); [done|]. destruct (Z.eqb_spec (r_lp (at_ i)) lp) as [E|]; [|done].
      exfalso. assert (existsb (fun r => r_lp r =? lp) ps = true); [|congruence]. apply existsb_exists. exists (at_ i). split; [|by apply Z.eqb_eq].
      apply list_elem_of_In. rewrite lookup_app_r in Ei by lia. by eapply list_elem_of_lookup_2. }
    rewrite (map_ext_in _ (fun _ => 0)) by (intros i Hi; apply H; by apply list_elem_of_In). clear. induction rels as [|x l IH]; [done|]. cbn [map]. by rewrite zsum_cons.
Qed.
End kernel.

(** ** Lemmas: the correction for large primes *)

Lemma foldl_filtered {A B} (f : A -> B -> A) (sel : B -> bool) l a :
  foldl (fun a x => if sel x then f a x else a) a l = foldl f a (List.filter sel l).
Proof. revert a. induction l as [|x l IH]; intros a; [done|]. cbn. rewrite IH. by destruct (sel x). Qed.

(** The map holds the weights of the large primes, without wrap-around. *)
Lemma counts_spec es :
  Forall (fun w => 0 <= w.2 <= 2) es -> 2 * Z.of_nat (length es) < 2 ^ 32 ->
  let m := foldl add_count ∅ es in
  (forall k, default 0 (m !! k) = zsum (map (weight_at k) es)) /\
  zprod (map power_of (map_to_list m)) = zprod (map power_of (List.filter (fun w => 1 <? w.1) es)) /\
  (forall k v, m !! k = Some v -> k ∈ map fst es).
Proof.
  induction es as [|w es IH] using rev_ind; intros Hw Hlen; cbv zeta.
  { cbn [foldl map List.filter]. split; [intros k; by rewrite lookup_empty|]. split; [by rewrite map_to_list_empty|]. intros k v Hk. by rewrite lookup_empty in Hk. }
  apply Forall_app in Hw as [Hes Hw]. inversion Hw as [|? ? Hw2 _]; subst. rewrite length_app in Hlen. cbn in Hlen.
  destruct (IH Hes ltac:(lia)) as (I1 & I2 & I3). rewrite foldl_snoc. set (m := foldl add_count ∅ es) in *.
  rewrite List.filter_app, map_app, zprod_app. cbn [List.filter]. unfold add_count. destruct (Z.ltb_spec 1 w.1) as [Hgt|Hle].
  - assert (0 <= zsum (map (weight_at w.1) es) <= 2 * Z.of_nat (length es)) as Hb.
    { clear -Hes. induction Hes as [|x l Hx _ IHl]; [cbn; lia|]. cbn [map length]. rewrite zsum_cons. unfold weight_at at 1 3.
      destruct ((1 <? w.1) && (x.1 =? w.1)); lia. }
    rewrite I1, wrap_small by (unfold in_width; lia). set (v := zsum (map (weight_at w.1) es)) in *. split; [|split].
    + intros k. rewrite zsum_snoc. unfold weight_at at 2. destruct (Z.eq_dec w.1 k) as [<-|Hne].
      * rewrite lookup_insert_eq, (proj2 (Z.ltb_lt _ _) Hgt), Z.eqb_refl. done.
      * rewrite lookup_insert_ne, I1, (proj2 (Z.eqb_neq w.1 k)), andb_false_r by done. lia.
    + cbn [map]. rewrite zprod_cons, zprod_nil, Z.mul_1_r, <- I2. unfold power_of at 3.
      destruct (m !! w.1) as [v0|] eqn:Em.
      * pose proof (I1 w.1) as Ev. rewrite Em in Ev. cbn in Ev. change v0 with (id v0) in Ev. fold v in Ev. unfold id in Ev. subst v0.
        rewrite <- (insert_delete_eq m w.1 (v + w.2)). rewrite <- (insert_id m w.1 v Em) at 2. rewrite <- (insert_delete_eq m w.1 v).
        assert (delete w.1 m !! w.1 = None) as Hd by apply lookup_delete_eq.
        rewrite !(zprod_perm _ _ (Permutation_map _ (map_to_list_insert _ _ _ Hd))). cbn [map]. rewrite !zprod_cons. unfold power_of at 1 3. cbn [fst snd].
        rewrite Z.pow_add_r by lia. ring.
      * pose proof (I1 w.1) as Ev. rewrite Em in Ev. cbn in Ev. fold v in Ev. rewrite <- Ev, Z.add_0_l.
        rewrite (zprod_perm _ _ (Permutation_map _ (map_to_list_insert _ _ _ Em))). cbn [map]. rewrite zprod_cons. unfold power_of at 1. cbn [fst snd]. ring.
    + intros k v' Hk. rewrite map_app. apply elem_of_app. destruct (Z.eq_dec w.1 k) as [<-|Hne]; [right; cbn; by apply list_elem_of_singleton|].
      rewrite lookup_insert_ne in Hk by done. left. by eapply I3.
  - split; [|split].
    + intros k. rewrite zsum_snoc, I1. unfold weight_at at 3. destruct (Z.ltb_spec 1 k), (Z.eqb_spec w.1 k); cbn [andb]; lia.
    + cbn [map]. by rewrite zprod_nil, Z.mul_1_r.
    + intros k v' Hk. rewrite map_app. apply elem_of_app. left. by eapply I3.
Qed.

(** The correction is computed without running out of fuel, whatever the order of the entries. *)
Lemma lp_correction_form mont entries :
  mont_ok mont -> Forall (fun e => in_width 128 e.1 /\ in_width 32 e.2) entries ->
  exists c, lp_correction mont entries = Some c /\ mont_form mont c (zprod (map (fun e => e.1 ^ (e.2 / 2)) entries)).
Proof.
  intros Hmont. unfold lp_correction. induction entries as [|e es IH] using rev_ind; intros He.
  { eexists. split; [done|]. by apply form_one. }
  apply Forall_app in He as [Hes He]. inversion He as [|? ? [H1 H2] _]; subst. destruct (IH Hes) as (c & Ec & Fc).
  rewrite foldl_snoc, Ec, zprod_snoc. unfold lp_term. cbn [mbind option_bind]. destruct (Z.ltb_spec 0 (e.2 / 2)) as [Hpos|Hz].
  - unfold in_width in H2. assert (in_width 32 (e.2 / 2)) as Hh by (split; [lia|apply Z.div_lt_upper_bound; lia]).
    destruct (u512_one_ok _ Hh) as [O E]. destruct (u512_of_u128_ok e.1 H1) as [O1 E1].
    destruct (mont_pow_form mont Hmont _ (u512_of_u32 (e.2 / 2)) e.1 (form_transform mont Hmont _ e.1 O1 E1) O) as (t & -> & Ft).
    rewrite E in Ft. cbn [mbind option_bind]. eexists. split; [done|]. by apply mont_mul_form.
  - exists c. split; [done|]. assert (e.2 / 2 = 0) as -> by (pose proof (Z.div_pos e.2 2 ltac:(apply H2) ltac:(lia)); lia).
    by rewrite Z.pow_0_r, Z.mul_1_r.
Qed.

Lemma halves_square entries :
  Forall (fun e => 0 <= e.2 /\ Z.even e.2 = true) entries ->
  zprod (map (fun e => e.1 ^ (e.2 / 2)) entries) * zprod (map (fun e => e.1 ^ (e.2 / 2)) entries) = zprod (map power_of entries).
Proof.
  intros H. rewrite <- zprod_mul. f_equal. apply map_ext_in. intros e He. rewrite Forall_forall in H.
  destruct (H e ltac:(by apply list_elem_of_In)) as [H1 H2]. symmetry. by apply even_pow.
Qed.

(** ** Lemmas: the batch the square-root step sees *)

Lemma clear_lps_exactly b rs : holds_exactly b rs -> holds_exactly (clear_lps b) (map clear_lp rs).
Proof.
  intros H. destruct (holds_exactly_fields b rs H) as (D1 & D2 & D3 & D4 & D5 & D6 & D7 & D8 & D9).
  apply exactly_intro; unfold clear_lps; cbn [sqrt_Q signs val_2_exps large_primes factor_offsets factor_indices factor_counts num_relations num_factors];
    rewrite ?D1, ?D2, ?D3, ?D5, ?D6, ?D7, ?D8, ?D9, ?map_map, ?length_map; try done.
  - rewrite D4. change (fun l i => vset l i 1) with (fun l i => vset l (0 + i) ((fun _ : Z => 1) i)).
    destruct (fill_slots (fun _ => 1) 0 (Z.of_nat (length rs)) (map r_lp rs)) as [L V]; [lia|lia|rewrite length_map; lia|].
    apply (vget_ext 0); rewrite L, length_map; [by rewrite length_map|]. intros i Hi. rewrite V, (proj2 (Z.leb_le 0 i)), (proj2 (Z.ltb_lt i _)) by lia. cbn [andb].
    symmetry. unfold vget. apply nth_lookup_Some. rewrite list_lookup_fmap. destruct (lookup_lt_is_Some_2 rs (Z.to_nat i)) as [r ->]; [lia|done].
  - f_equal. unfold all_factors. by rewrite map_map.
  - f_equal. unfold all_factors. by rewrite map_map.
  - unfold all_factors. by rewrite map_map.
Qed.

Lemma select_map {A B} (f : A -> B) sel i l : select sel i (map f l) = map f (select sel i l).
Proof. revert i. induction l as [|x l IH]; intros i; [done|]. cbn [map select]. rewrite IH. by destruct (sel i). Qed.

Section solution.
Context (ss ps : list relation) (combined : HostRelationBatch) (Hc : holds_exactly combined (ss ++ ps)).
Notation rs := (ss ++ ps).
Notation ns := (Z.of_nat (length ss)).
Notation n := (num_relations combined).
Context (rels : list Z) (Hsorted : sorted_row rels) (Hrange : Forall (fun i => 0 <= i < Z.of_nat (length rs)) rels).
Notation bits := (repack n rels).

Lemma bits_spec i : 0 <= i < Z.of_nat (length rs) -> kbit bits i = bool_decide (i ∈ rels).
Proof using Hc Hrange.
  intros Hi. destruct (holds_exactly_fields _ _ Hc) as (_ & _ & _ & _ & _ & _ & _ & D8 & _). rewrite D8. apply repack_spec; [done|].
  eapply Forall_impl; [exact Hrange|]. cbn. lia.
Qed.

Lemma chosen_relations : select (kbit bits) 0 rs = map (rel_at ss ps) rels.
Proof using Hc Hsorted Hrange.
  rewrite (select_by_index _ rs (mkRel 0 0 0 0 0 [])), (filter_sorted_set _ _ rels); [done|done|done|exact bits_spec].
Qed.

Lemma lp_counts_spec :
  lp_counts bits combined ns = foldl add_count ∅ (map (fun i => weighted ns i (rel_at ss ps i)) rels).
Proof using Hc Hsorted Hrange.
  unfold lp_counts. destruct (holds_exactly_fields _ _ Hc) as (_ & _ & _ & D4 & _ & _ & _ & D8 & _).
  rewrite (foldl_ext_in _ (fun counts i => if kbit bits i then add_count counts (weighted ns i (rel_at ss ps i)) else counts)).
  - rewrite (foldl_filtered (fun counts i => add_count counts (weighted ns i (rel_at ss ps i)))), fold_map.
    f_equal. rewrite D8 at 2. apply filter_sorted_set; [done|done|exact bits_spec].
  - intros counts i Hi%elem_of_upto. rewrite D8 in Hi. unfold count_lp. destruct (div_mod_64 i ltac:(lia)) as (I1 & I2 & I3).
    rewrite wrap_small by (unfold in_width; rewrite Z.shiftl_1_l; split; [lia|apply Z.pow_lt_mono_r; lia]). rewrite land_bit by lia.
    change (Z.testbit (vget 0 bits (i / 64)) (i mod 64)) with (kbit bits i). destruct (kbit bits i); cbn [negb]; [|done].
    assert (idx (large_primes combined) i = r_lp (rel_at ss ps i)) as ->.
    { rewrite D4. unfold idx, rel_at. change 0 with (r_lp (mkRel 0 0 0 0 0 [])) at 1. apply map_nth. }
    unfold add_count, weighted. done.
Qed.
End solution.

(** ** From a set of relations to factors *)

Section factors.
Context (N : uint512) (HN : u512_ok N) (Hodd : Z.odd (u512_val N) = true) (HN1 : 1 < u512_val N).
Notation n := (u512_val N).
Notation mont := (Montgomery_init N).
Context (fb : list Z) (ss ps : list relation) (Hv : valid_relations n fb ss ps).
Notation fb_size := (Z.of_nat (length fb)).
Notation rs := (ss ++ ps).
Notation ns := (Z.of_nat (length ss)).
Context (lps : gmap Z Z) (L : Z) (Hlpc : lp_columns fb_size L lps) (Hdom : forall r, r ∈ ps -> is_Some (lps !! r_lp r)).
Context (rels : list Z) (Hrels : relation_set (csr_of (expanded_rows lps ss ps) (fb_size + 2 + L)) rels).
Notation at_ := (rel_at ss ps).
Notation es := (map (fun i => weighted ns i (at_ i)) rels).
Notation counts := (foldl add_count ∅ es).
Context (entries : list (Z * Z)) (Hent : entries ≡ₚ map_to_list counts).
Notation kappa := (zprod (map (fun e => e.1 ^ (e.2 / 2)) entries)).

Lemma rels_bound : (length rels <= length rs)%nat.
Proof using Hrels.
  destruct Hrels as (Hs & Hr & _). cbn [csr_of n_rows] in Hr. rewrite length_expanded in Hr.
  assert (rels ⊆+ upto (Z.of_nat (length rs))) as Hsub.
  { apply NoDup_submseteq; [by apply sorted_row_NoDup|]. intros i Hi. rewrite Forall_forall in Hr. apply elem_of_upto. by apply Hr. }
  apply submseteq_length in Hsub. rewrite length_upto in Hsub. lia.
Qed.

Lemma rel_ok i : i ∈ rels -> relation_ok (at_ i).
Proof using Hrels Hv.
  intros Hi. destruct (rels_in_range fb ss ps lps L rels Hrels i Hi) as [_ E].
  pose proof (vr_ok _ _ _ _ Hv) as H. rewrite Forall_forall in H. apply H. by eapply list_elem_of_lookup_2.
Qed.

Lemma entries_spec e : e ∈ entries -> in_width 128 e.1 /\ in_width 32 e.2 /\ Z.even e.2 = true.
Proof using Hrels Hv Hlpc Hdom Hent.
  intros He. rewrite Hent in He. destruct e as [k v]. apply elem_of_map_to_list in He. cbn [fst snd].
  assert (Forall (fun w => 0 <= w.2 <= 2) es) as Hw by (apply Forall_map, Forall_true; intros i; unfold weighted; cbn; destruct (_ <? _); lia).
  pose proof rels_bound as Hlen. pose proof (vr_count _ _ _ _ Hv) as Hcount.
  destruct (counts_spec es Hw ltac:(rewrite length_map; lia)) as (C1 & _ & C3).
  specialize (C1 k). rewrite He in C1. cbn in C1. specialize (C3 k v He). change (id v) with v in C1. split; [|split].
  - rewrite map_map in C3. apply list_elem_of_In, in_map_iff in C3 as (i & <- & Hi). cbn. apply list_elem_of_In in Hi. apply (rel_ok i Hi).
  - rewrite C1. assert (0 <= zsum (map (weight_at k) es) <= 2 * Z.of_nat (length es)); [|rewrite length_map in *; unfold in_width; lia].
    clear -Hw. induction Hw as [|w l Hw _ IH]; [cbn; lia|]. cbn [map length]. rewrite zsum_cons. unfold weight_at at 1 3. destruct (_ && _); lia.
  - rewrite C1, map_map, <- Z.negb_odd, odd_zsum. destruct (Z.ltb_spec 1 k) as [Hk|Hk].
    + rewrite (xsum_ext_in _ (fun i => Z.odd (if i <? ns then 0 else if r_lp (at_ i) =? k then 1 else 0))).
      * rewrite <- odd_zsum, Z.negb_odd. apply (kernel_lp_even fb ss ps lps L); [apply Hv|done|done|done].
      * intros i Hi. unfold weight_at, weighted. cbn [fst snd]. rewrite (proj2 (Z.ltb_lt _ _) Hk). cbn [andb].
        destruct (i <? ns), (r_lp (at_ i) =? k); done.
    + rewrite (xsum_ext_in _ (fun _ => false)); [by rewrite xsum_const_false|]. intros i _. unfold weight_at. by rewrite (proj2 (Z.ltb_ge _ _) Hk).
Qed.

Lemma kappa_square : kappa * kappa = zprod (map power_of (List.filter (fun w => 1 <? w.1) es)).
Proof using Hrels Hv Hlpc Hdom Hent.
  rewrite halves_square.
  - rewrite (zprod_perm _ _ (Permutation_map power_of Hent)).
    pose proof rels_bound as Hlen. pose proof (vr_count _ _ _ _ Hv) as Hcount.
    apply counts_spec; [apply Forall_map, Forall_true; intros i; unfold weighted; cbn; destruct (_ <? _); lia|rewrite length_map; lia].
  - apply Forall_forall. intros e He. destruct (entries_spec e He) as (_ & [? _] & ?). done.
Qed.

(** The large primes of the right-hand side of one relation. *)
Lemma relation_rhs i : i ∈ rels ->
  factors_in_base fb (at_ i) /\
  r_sqrt_Q (at_ i) * r_sqrt_Q (at_ i) ≅{n} rhs fb (clear_lp (at_ i)) * (if 1 <? r_lp (at_ i) then power_of (weighted ns i (at_ i)) else 1).
Proof using Hrels Hv.
  intros Hi. destruct (rels_in_range fb ss ps lps L rels Hrels i Hi) as [Hr E]. unfold weighted, power_of. cbn [fst snd].
  destruct (Z.ltb_spec i ns) as [Hlt|Hge].
  - rewrite lookup_app_l in E by lia. pose proof (vr_smooth _ _ _ _ Hv) as H. rewrite Forall_forall in H.
    destruct (H (at_ i)) as [H1 H2]; [by eapply list_elem_of_lookup_2|]. split; [done|]. rewrite H2. unfold lp_val.
    destruct (1 <? r_lp (at_ i)); [by rewrite Z.pow_2_r|done].
  - rewrite lookup_app_r in E by lia. pose proof (vr_partial _ _ _ _ Hv) as H. rewrite Forall_forall in H.
    destruct (H (at_ i)) as (H1 & H2 & H3); [by eapply list_elem_of_lookup_2|]. split; [done|]. rewrite H3.
    by rewrite (proj2 (Z.ltb_lt _ _) H2), Z.pow_1_r.
Qed.

Lemma solution_congruence :
  let X := zprod (map r_sqrt_Q (map at_ rels)) in let Y := Y_root fb (map clear_lp (map at_ rels)) * kappa in X * X ≅{n} Y * Y.
Proof using Hrels Hv Hlpc Hdom Hent.
  intros X Y. set (Yr := Y_root fb (map clear_lp (map at_ rels))) in *.
  assert (Y * Y = (Yr * Yr) * (kappa * kappa)) as -> by (unfold Y; ring). rewrite kappa_square. unfold Yr.
  rewrite <- rhs_square; [| |apply (kernel_all_even fb ss ps lps L); [apply Hv|done|done]].
  2:{ apply Forall_map, Forall_map, Forall_forall. intros i Hi. apply (relation_rhs i Hi). }
  assert (zprod (map power_of (List.filter (fun w => 1 <? w.1) es)) = zprod (map (fun i => if 1 <? r_lp (at_ i) then power_of (weighted ns i (at_ i)) else 1) rels)) as ->.
  { clear. induction rels as [|i l IH]; [done|]. cbn [map List.filter]. rewrite zprod_cons, <- IH. unfold weighted at 1. cbn [fst].
    destruct (1 <? r_lp (at_ i)); [cbn [map]; by rewrite zprod_cons|by rewrite Z.mul_1_l]. }
  unfold X. rewrite !map_map, <- !zprod_mul. apply zprod_cong, Forall_forall. intros i Hi. apply (relation_rhs i Hi).
Qed.

Context (combined : HostRelationBatch) (Hc : holds_exactly combined rs).
Context (Hfit : exponents_fit fb (map clear_lp (map at_ rels))).

Lemma solution_factors :
  let X := zprod (map r_sqrt_Q (map at_ rels)) in
  let Y := Y_root fb (map clear_lp (map at_ rels)) * kappa in
  exists c, lp_correction mont entries = Some c /\ X * X ≅{n} Y * Y /\
  if Y mod n =? 0 then Perform N (solution_bits combined rels) (clear_lps combined) fb (Some c) = Some (u512_of_u32 0, u512_of_u32 0)
  else exists f co, Perform N (solution_bits combined rels) (clear_lps combined) fb (Some c) = Some (f, co) /\
    u512_val f * u512_val co = n /\ 1 <= u512_val f < n /\ (~ X ≅{n} Y -> ~ X ≅{n} - Y -> 1 < u512_val f).
Proof using HN Hodd HN1 Hv Hlpc Hdom Hrels Hent Hc Hfit.
  pose proof (Montgomery_init_ok N HN Hodd) as Hmont.
  destruct (lp_correction_form mont entries Hmont) as (c & Ec & Fc).
  { apply Forall_forall. intros e He. destruct (entries_spec e He) as (? & ? & _). done. }
  pose proof solution_congruence as Hsq. cbv zeta in Hsq.
  cbv zeta. exists c. split; [done|]. split; [exact Hsq|].
  pose proof (clear_lps_exactly _ _ Hc) as Hcl. pose proof (with_chars_repr _ _ Hcl) as Hrep.
  assert (Forall relation_ok (map clear_lp rs)) as Hok.
  { apply Forall_map. eapply Forall_impl; [apply (vr_ok _ _ _ _ Hv)|]. intros r (H1 & H2 & H3 & H4 & H5 & H6).
    assert (in_width 128 1) as H1' by done. exact (conj H1 (conj H2 (conj H3 (conj H1' (conj H5 H6))))). }
  destruct Hrels as (Hs & Hr & _). cbn [csr_of n_rows] in Hr. rewrite length_expanded in Hr.
  pose proof (chosen_relations ss ps combined Hc rels Hs Hr) as Hch.
  assert (select (kbit (solution_bits combined rels)) 0 (map clear_lp rs) = map clear_lp (map at_ rels)) as Hsel.
  { unfold solution_bits. rewrite select_map, Hch. done. }
  pose proof (Perform_spec N _ _ (solution_bits combined rels) fb (Some c) kappa HN Hodd HN1 Hrep Hok (vr_fb _ _ _ _ Hv)) as HP.
  cbv zeta in HP. rewrite Hsel in HP. specialize (HP Hfit Fc).
  assert (map r_sqrt_Q (map clear_lp (map at_ rels)) = map r_sqrt_Q (map at_ rels)) as EX by by rewrite (map_map clear_lp).
  rewrite EX in HP. unfold cong in Hsq. rewrite Hsq, Z.eqb_refl in HP. cbn [negb] in HP. rewrite orb_false_r in HP. exact HP.
Qed.
End factors.

(** ** The loop over the solutions *)

Lemma zero_fails : is_zero (u512_of_u32 0) = true.
Proof. reflexivity. Qed.

Lemma try_trivial N b fb bits c rest f co :
  u512_ok N -> u512_ok f -> u512_ok co -> Perform N bits b fb c = Some (f, co) ->
  u512_val f * u512_val co = u512_val N -> 1 <= u512_val f < u512_val N ->
  try_solutions N b fb ((bits, c) :: rest) = if 1 <? u512_val f then Some (Some (f, co)) else try_solutions N b fb rest.
Proof.
  intros HN Hf Hco E Hprod Hrange. cbn [try_solutions]. rewrite E. cbn [mbind option_bind].
  pose proof (u512_bound _ HN). rewrite !is_zero_spec by done.
  destruct (Z.eqb_spec (u512_val f) 0); [lia|]. destruct (Z.eqb_spec (u512_val co) 0) as [E0|]; [rewrite E0 in Hprod; lia|]. cbn [orb].
  assert (u512_eqb f N = false) as ->.
  { apply not_true_is_false. rewrite u512_eqb_spec by done. intros ->. lia. }
  rewrite is_one_spec, orb_false_r by done. destruct (Z.eqb_spec (u512_val f) 1) as [->|]; [done|].
  rewrite (proj2 (Z.ltb_lt 1 _)) by lia. destruct (mult_spec f co Hf Hco) as [Om Vm].
  rewrite (proj2 (u512_eqb_spec _ _ Om HN)); [done|]. apply u512_val_inj; [done|done|]. rewrite Vm, Hprod. by apply wrap_small.
Qed.

(** The loop over any solutions. *)
Lemma try_solutions_spec N b rs fb solutions :
  u512_ok N -> Z.odd (u512_val N) = true -> 1 < u512_val N -> repr b rs -> Forall relation_ok rs -> Forall (in_width 32) fb ->
  Forall (solution_ok N fb rs) solutions ->
  exists r, try_solutions N b fb (map (fun s => (s.1, s.2.1)) solutions) = Some r /\
  match r with
  | Some (f, co) => u512_val f * u512_val co = u512_val N /\ 1 < u512_val f < u512_val N
  | None => Forall (fun s => ~ splits (u512_val N) (left_root rs s) (right_root fb rs s)) solutions
  end.
Proof.
  intros HN Ho HN1 Hb Hrs Hfb Hsol. induction Hsol as [|[bits [c k]] rest [Hfit Hc] _ (r & Er & Hr)]; [by exists None|].
  cbn [map fst snd] in *. pose proof (Perform_run N b rs bits fb c k HN Ho HN1 Hb Hrs Hfb Hfit Hc) as H. cbv zeta in H.
  set (X := zprod (map r_sqrt_Q _)) in H. set (Y := Y_root _ _ * k) in H.
  assert (match r with Some (f, co) => u512_val f * u512_val co = u512_val N /\ 1 < u512_val f < u512_val N | None => ~ splits (u512_val N) X Y -> Forall (fun s => ~ splits (u512_val N) (left_root rs s) (right_root fb rs s)) ((bits, (c, k)) :: rest) end) as Hr'.
  { destruct r as [[? ?]|]; [exact Hr|]. intros Hn. by constructor. }
  destruct (_ || _) eqn:Efail.
  - exists r. cbn [try_solutions]. rewrite H. cbn [mbind option_bind]. rewrite zero_fails. cbn [orb]. split; [exact Er|].
    destruct r as [[? ?]|]; [exact Hr'|]. apply Hr'. intros (Hsq & Hy & _). unfold cong in Hsq, Hy. rewrite Hsq, Z.eqb_refl, orb_false_r in Efail.
    apply Z.eqb_eq in Efail. by rewrite Zmod_0_l in Hy.
  - destruct H as (f & co & E & Hprod & Hrange & Hsplit & Of & Oco). rewrite (try_trivial _ _ _ _ _ _ f co) by done.
    destruct (Z.ltb_spec 1 (u512_val f)) as [Hlt|Hge]; [exists (Some (f, co)); split; [done|]; split; [done|lia]|].
    exists r. split; [exact Er|]. destruct r as [[? ?]|]; [exact Hr'|]. apply Hr'. intros (_ & _ & H1 & H2). specialize (Hsplit H1 H2). lia.
Qed.

(** ** Composition *)

Lemma zsum_lengths (rows : list (list Z)) n : nnz (csr_of rows n) = Z.of_nat (length (concat rows)).
Proof.
  unfold nnz. cbn [csr_of n_rows]. fold (csr_of rows n). rewrite (zsum_upto_ext _ _ (fun i => Z.of_nat (length (nth (Z.to_nat i) rows [])))).
  - unfold zsum_upto. induction rows as [|r rows IH] using rev_ind; [done|]. rewrite length_app. cbn [length].
    replace (Z.of_nat (length rows + 1)) with (Z.of_nat (length rows) + 1) by lia. rewrite upto_S, map_app, zsum_app, concat_app, length_app by lia. cbn [map concat].
    rewrite zsum_cons, app_nil_r, app_nth2, Nat2Z.id, Nat.sub_diag by lia. cbn [nth]. rewrite Nat2Z.inj_add, <- IH. f_equal; [|cbn; lia].
    f_equal. apply map_ext_in. intros i Hi. apply list_elem_of_In, elem_of_upto in Hi. by rewrite app_nth1 by lia.
  - intros i Hi. destruct (lookup_lt_is_Some_2 rows (Z.to_nat i)) as [r Hr]; [lia|]. replace i with (Z.of_nat (Z.to_nat i)) at 1 by lia.
    by rewrite (csr_of_row _ _ _ r Hr), (nth_lookup_Some _ _ _ _ Hr).
Qed.

(** ** Properties *)

(** The loop over the solutions ends without running out of fuel, whatever sets of relations it is given. A pair it
    returns is a proper factorisation of [N]; it returns none only when no solution is a congruence of squares with roots
    that differ by more than the sign. *)
Theorem try_solutions_finds N b rs fb solutions :
  u512_ok N -> Z.odd (u512_val N) = true -> 1 < u512_val N -> repr b rs -> Forall relation_ok rs -> Forall (in_width 32) fb ->
  Forall (solution_ok N fb rs) solutions ->
  exists r, try_solutions N b fb (map (fun s => (s.1, s.2.1)) solutions) = Some r /\
  match r with
  | Some (f, co) => u512_val f * u512_val co = u512_val N /\ 1 < u512_val f < u512_val N
  | None => Forall (fun s => ~ splits (u512_val N) (left_root rs s) (right_root fb rs s)) solutions
  end.
Proof. apply try_solutions_spec. Qed.

(** The relations with square roots 41 and 43 modulo 1649: alone they are no solution, together they split it. *)
Lemma try_solutions_finds_witness :
  exists f co, try_solutions (u512_of_Z 1649) (batch_of rels_1649) [5] [([1], None); ([3], None)] = Some (Some (f, co)) /\
    u512_val f * u512_val co = 1649 /\ 1 < u512_val f < 1649.
Proof.
  destruct (try_solutions_finds (u512_of_Z 1649) (batch_of rels_1649) rels_1649 [5] [([1], (None, 1)); ([3], (None, 1))]) as (r & E & H).
  - apply u512_of_Z_spec.
  - reflexivity.
  - reflexivity.
  - apply repr_batch_of.
  - apply (bool_decide_unpack (Forall relation_ok rels_1649)). vm_compute. exact I.
  - apply (bool_decide_unpack (Forall (in_width 32) [5])). vm_compute. exact I.
  - repeat (constructor; [split; [constructor; [by vm_compute|by vm_compute|intros j Hj; cbn in Hj; assert (j = 0) as -> by lia; reflexivity]|reflexivity]|]). constructor.
  - destruct r as [[f co]|]; [exists f, co; split; [exact E|exact H]|]. exfalso. apply Forall_inv_tail, Forall_inv in H. apply H.
    split; [by vm_compute|]. split; [by vm_compute|]. split; by vm_compute.
Defined.

(** C1. From relations to factors: for valid smooth and partial relations, the expanded matrix preprocesses, and every
    kernel vector of the reduced matrix expands to a set of relations for which the recombined batch and the large-prime
    correction (in whatever order the hash map enumerates) give a congruence of squares. [Perform] then never fails its
    sanity check: it returns two numbers whose product is [N], a proper factorisation when the roots differ by more than
    the sign. The one exception is [Y = 0] modulo [N], which is reported as (0, 0). *)
Theorem kernel_vector_factors N fb smooths partials ss ps k_max max_weight fuel :
  u512_ok N -> Z.odd (u512_val N) = true -> 1 < u512_val N ->
  holds_exactly smooths ss -> holds_exactly partials ps -> valid_relations (u512_val N) fb ss ps ->
  let m := matrix (build smooths partials (Z.of_nat (length fb))) in
  let combined := concat_batches smooths partials in
  n_rows m * (2 + Z.max 0 (k_max - 1)) <= 2 ^ 32 -> enough_fuel m fuel ->
  exists p, preprocessMatrix_cpu fuel m k_max max_weight = Some p /\
  (Z.of_nat (length (col_indices (pr_reduced p))) < 2 ^ 32 -> forall bits, kernel_vector (pr_reduced p) bits ->
   let expansion f := expandKernelVector f bits (n_rows (pr_reduced p)) (pr_row_map p) (pr_merge_tree p) in
   (exists f0, forall f, (f0 <= f)%nat -> is_Some (expansion f)) /\
   forall f rels entries, expansion f = Some rels ->
     exponents_fit fb (map clear_lp (map (rel_at ss ps) rels)) ->
     entries ≡ₚ map_to_list (lp_counts (solution_bits combined rels) combined (num_relations smooths)) ->
     let X := zprod (map r_sqrt_Q (map (rel_at ss ps) rels)) in
     let Y := Y_root fb (map clear_lp (map (rel_at ss ps) rels)) * zprod (map (fun e => e.1 ^ (e.2 / 2)) entries) in
     exists c, lp_correction (Montgomery_init N) entries = Some c /\ X * X ≅{u512_val N} Y * Y /\
     if Y mod u512_val N =? 0
     then Perform N (solution_bits combined rels) (clear_lps combined) fb (Some c) = Some (u512_of_u32 0, u512_of_u32 0)
     else exists f co, Perform N (solution_bits combined rels) (clear_lps combined) fb (Some c) = Some (f, co) /\
       u512_val f * u512_val co = u512_val N /\ 1 <= u512_val f < u512_val N /\
       (~ X ≅{u512_val N} Y -> ~ X ≅{u512_val N} - Y -> 1 < u512_val f)).
Proof.
  intros HN Ho HN1 Hs Hp Hv m combined Hnodes Hfuel. pose proof (vr_build _ _ _ _ Hv) as Hb.
  destruct (build_spec _ _ ss ps _ (with_chars_repr _ _ Hs) (with_chars_repr _ _ Hp) Hb) as (lps & L & EB & Hlpc & HL & Hdom).
  assert (m = csr_of (expanded_rows lps ss ps) (Z.of_nat (length fb) + 2 + L)) as Em by (unfold m; change (build smooths partials (Z.of_nat (length fb))) with
    (build (with_chars (map r_char ss) smooths) (with_chars (map r_char ps) partials) (Z.of_nat (length fb))); by rewrite EB).
  pose proof (bd_cols _ _ _ Hb) as Hcols. unfold UINT32_MAX in Hcols. pose proof (bd_rows _ _ _ Hb) as Hrows.
  assert (preprocessable m k_max) as Hpre.
  { constructor; [|rewrite Em, zsum_lengths; by apply (nnz_bound ss ps _ Hb)|done]. rewrite Em. apply csr_of_ok; [|rewrite length_expanded; lia|lia].
    intros r. apply (expanded_rows_ok ss ps (Z.of_nat (length fb))); [apply Hb|apply Hb|done|done]. }
  destruct (pipeline_stage m k_max max_weight fuel Hpre Hfuel) as (p & Ep & Hstage). exists p. split; [done|].
  intros Hlen bits Hk expansion. destruct (Hstage Hlen) as (g & Sg & _). edestruct stage_sound as (f0 & Hf0); [exact Sg|exact Hk|].
  split; [exists f0; intros f Hf; destruct (Hf0 f Hf) as (rels & E & _); by exists rels|].
  intros f rels entries Ex Hfit Hent. destruct (Hf0 (Nat.max f f0) ltac:(lia)) as (rels' & E' & Hrels & _).
  unfold expansion in Ex. rewrite (expandKernelVector_mono f (Nat.max f f0) _ _ _ _ _ Ex) in E' by lia. injection E' as <-.
  rewrite Em in Hrels. assert (holds_exactly combined (ss ++ ps)) as Hc.
  { apply concat_batches_exactly; [done|done|]. pose proof (bd_nnz _ _ _ Hb). unfold in_width. lia. }
  destruct Hrels as (Hsorted & Hrange & Hzero). pose proof Hrange as Hrange'. cbn [csr_of n_rows] in Hrange'. rewrite length_expanded in Hrange'.
  destruct (holds_exactly_fields _ _ Hs) as (_ & _ & _ & _ & _ & _ & _ & D8 & _). rewrite D8 in Hent.
  unfold solution_bits in Hent. rewrite (lp_counts_spec ss ps combined Hc rels Hsorted Hrange') in Hent.
  apply (solution_factors N HN Ho HN1 fb ss ps Hv lps L Hlpc Hdom rels (conj Hsorted (conj Hrange Hzero)) entries Hent combined Hc Hfit).
Qed.

(** [43^2 = 2^3 * 5^2], [45^2 = 2^3 * 47] and [49^2 = 2^4 * 47] modulo [1649 = 17 * 97]. *)
Lemma valid_1649 : valid_relations 1649 [5] smooths_1649 partials_1649.
Proof.
  constructor.
  - apply (bool_decide_unpack (Forall relation_ok (smooths_1649 ++ partials_1649))). vm_compute. exact I.
  - repeat (constructor; [split; [split; [by vm_compute|by repeat constructor]|reflexivity]|]). constructor.
  - repeat (constructor; [split; [split; [by vm_compute|by repeat constructor]|split; [by vm_compute|reflexivity]]|]). constructor.
  - constructor; [repeat (constructor; [split; [apply (bool_decide_unpack _); vm_compute; exact I|repeat (constructor; [cbn; lia|]); constructor]|]); constructor
    |repeat (constructor; [by unfold in_width|]); constructor|by vm_compute|by vm_compute|by vm_compute].
  - by vm_compute.
  - apply (bool_decide_unpack (Forall (in_width 32) [5])). vm_compute. exact I.
Defined.

Lemma exponents_fit_1649 : exponents_fit [5] (map clear_lp (map (rel_at smooths_1649 partials_1649) [0; 1; 2])).
Proof. constructor; [by vm_compute|by vm_compute|]. intros j Hj. cbn in Hj. assert (j = 0) as -> by lia. reflexivity. Defined.

Lemma kernel_vector_factors_witness :
  exists p rels f co, preprocessMatrix_cpu 20 (matrix (build (batch_of smooths_1649) (batch_of partials_1649) 1)) 5 200 = Some p /\
    (exists f0, expandKernelVector f0 [1] (n_rows (pr_reduced p)) (pr_row_map p) (pr_merge_tree p) = Some rels) /\
    Perform (u512_of_Z 1649) (solution_bits (concat_batches (batch_of smooths_1649) (batch_of partials_1649)) rels)
      (clear_lps (concat_batches (batch_of smooths_1649) (batch_of partials_1649))) [5]
      (lp_correction (Montgomery_init (u512_of_Z 1649)) [(47, 2)]) = Some (f, co) /\
    u512_val f * u512_val co = 1649 /\ 1 < u512_val f < 1649.
Proof.
  destruct (kernel_vector_factors (u512_of_Z 1649) [5] (batch_of smooths_1649) (batch_of partials_1649) smooths_1649 partials_1649 5 200 20)
    as (p & Ep & Hp).
  - apply u512_of_Z_spec.
  - reflexivity.
  - reflexivity.
  - reflexivity.
  - reflexivity.
  - exact valid_1649.
  - by vm_compute.
  - by vm_compute.
  - assert (preprocessMatrix_cpu 20 (matrix (build (batch_of smooths_1649) (batch_of partials_1649) 1)) 5 200 = Some preprocessed_1649) as Ep' by (vm_compute; reflexivity).
    change (Z.of_nat (length [5])) with 1 in Ep. rewrite Ep in Ep'. injection Ep' as ->.
    destruct (Hp eq_refl [1]) as [(f0 & _) Hx].
    { intros j. change (xorb (kbit [1] 0 && entry j []) false = false). by rewrite andb_false_r. }
    destruct (Hx 20%nat [0; 1; 2] [(47, 2)]) as (c & Ec & _ & H).
    + vm_compute. reflexivity.
    + exact exponents_fit_1649.
    + vm_compute. reflexivity.
    + match type of H with if ?b then _ else _ => assert (b = false) as EY by (vm_compute; reflexivity); rewrite EY in H end. destruct H as (f & co & E & H1 & H2 & H3).
      exists preprocessed_1649, [0; 1; 2], f, co. rewrite Ec. split; [exact Ep|]. split; [exists 20%nat; vm_compute; reflexivity|]. split; [exact E|].
      split; [exact H1|]. split; [clear -H3; apply H3; by vm_compute|apply H2].
Defined.
