(* ===== verification/SqrtKernels.v ===== *)
(** The device kernels of the square-root step ([src/src/sqrt/sqrt_step.cu]): Montgomery transforms,
    products by chunks, accumulation of exponents, halving, exponentiation, the correction for large
    primes. A kernel launch is the list of its threads (or blocks): threads that store to one slot each
    are a [scatter]; a block that works between barriers is a sequence of simultaneous steps on its
    shared array; atomic additions take effect one by one, in an order that is an argument. Buffers are
    lists, whose length is their allocation. *)
From Stdlib Require Import ZArith Lia.
From stdpp Require Import base gmap sets list.
From S2P Require Import Prelude UInt512 UInt512Div Montgomery MathUtils Soa Gf2 Batches Congruence SqrtStep.
#[local] Open Scope Z_scope.

(** ** Launches *)

Definition SQRT_CHUNK_SIZE : Z := 256.
Definition SQRT_TRANSFORM_BLOCK : Z := 256.
Definition SQRT_REDUCE_BLOCK : Z := 256.
Definition SQRT_EXP_THREADS : Z := 256.
Definition SQRT_WINDOW_BITS : Z := 4.
Definition SQRT_WINDOW_THRESHOLD : Z := 16.

(** [(n + block - 1) / block] in 32 bits. *)
Definition blocks_for (n block : Z) : Z := wrap 32 (n + block - 1) / block.

(** The global indices of a one-dimensional launch, and the blocks [(x, y)] of a two-dimensional one. *)
Definition threads_for (n block : Z) : list Z := upto (blocks_for n block * block).

Definition grid2 (nx ny : Z) : list (Z * Z) := flat_map (fun y => map (fun x => (x, y)) (upto nx)) (upto ny).

(** Every thread [t] that passes [guard] stores [val t] at [ix t]. *)
Definition scatter {T A} (guard : T -> bool) (ix : T -> Z) (val : T -> A) (threads : list T) (out : list A) : list A :=
  foldl (fun out t => if guard t then vset out (ix t) (val t) else out) out threads.

(** The values [tid], [tid + step], ... below [n] of a strided loop; [n + step] fits in 32 bits. *)
Definition strided (tid n step : Z) : list Z := map (fun k => tid + step * k) (upto ((n - tid + step - 1) / step)).

(** The packed solutions, a row of words each. *)
Record BWKernelSolutionView := mkView { d_data : list Z; num_solutions : Z; words_per_vec : Z; num_rows : Z }.

Definition selected (solutions : BWKernelSolutionView) (sol_idx rel_idx : Z) : bool :=
  let word_idx := rel_idx / 64 in
  let bit_idx := rel_idx mod 64 in
  let mask_word := idx (d_data solutions) (wrap 32 (wrap 32 (sol_idx * words_per_vec solutions) + word_idx)) in
  negb (Z.land (Z.shiftr mask_word bit_idx) 1 =? 0).

(** ** Transforms *)

Notation dget := (vget u512_zero).

Definition mont_one (mont : Montgomery) : uint512 := mont_transform mont (u512_of_u32 1).

Definition TransformSqrtQ (d_sqrt_Q : list Z) (mont : Montgomery) (K : Z) (d_sqrt_Q_mont : list uint512) : list uint512 :=
  scatter (fun i => i <? K) id (fun i => mont_transform mont (u512_of_Z (idx d_sqrt_Q i))) (threads_for K SQRT_TRANSFORM_BLOCK) d_sqrt_Q_mont.

Definition TransformLargePrimes (d_large_primes : list Z) (mont : Montgomery) (K : Z) (d_lp_mont : list uint512) : list uint512 :=
  scatter (fun i => i <? K) id
    (fun i => let lp := idx d_large_primes i in if 1 <? lp then mont_transform mont (u512_of_u128 lp) else mont_one mont)
    (threads_for K SQRT_TRANSFORM_BLOCK) d_lp_mont.

Definition TransformFactorBase (d_factor_base : list Z) (mont : Montgomery) (fb_size : Z) (d_factor_base_mont : list uint512) : list uint512 :=
  scatter (fun i => i <? fb_size) id (fun i => mont_transform mont (u512_of_u32 (idx d_factor_base i)))
    (threads_for fb_size SQRT_TRANSFORM_BLOCK) d_factor_base_mont.

(** ** Products *)

(** Between two barriers the threads below [stride] multiply in the upper half. *)
Definition tree_step (mont : Montgomery) (stride : Z) (shared : list uint512) : list uint512 :=
  map (fun tid => if tid <? stride then mont_mul mont (dget shared tid) (dget shared (tid + stride)) else dget shared tid)
    (upto (Z.of_nat (length shared))).

Fixpoint tree_loop (fuel : nat) (mont : Montgomery) (stride : Z) (shared : list uint512) : list uint512 :=
  match fuel with
  | O => shared
  | S f => if 0 <? stride then tree_loop f mont (Z.shiftr stride 1) (tree_step mont stride shared) else shared
  end.

(** The reduction of a block, one entry of [shared] per thread: a 32-bit [stride] is halved at most 32 times. *)
Definition tree_reduce (mont : Montgomery) (shared : list uint512) : uint512 :=
  dget (tree_loop 32 mont (Z.shiftr (Z.of_nat (length shared)) 1) shared) 0.

Definition chunk_value (d_vals : list uint512) (solutions : BWKernelSolutionView) (mont : Montgomery) (K chunk_size chunk_idx sol_idx tid : Z) : uint512 :=
  let rel_idx := wrap 32 (wrap 32 (chunk_idx * chunk_size) + tid) in
  if rel_idx <? K then if selected solutions sol_idx rel_idx then dget d_vals rel_idx else mont_one mont
  else mont_one mont.

Definition ComputeX_ChunkReduce (d_vals : list uint512) (solutions : BWKernelSolutionView) (mont : Montgomery) (K chunk_size : Z)
    (blocks : list (Z * Z)) (d_partials : list uint512) : list uint512 :=
  scatter (fun b => b.2 <? num_solutions solutions)
    (fun b => wrap 32 (wrap 32 (b.1 * num_solutions solutions) + b.2))
    (fun b => tree_reduce mont (map (chunk_value d_vals solutions mont K chunk_size b.1 b.2) (upto chunk_size)))
    blocks d_partials.

Definition FinalReduce (d_partials : list uint512) (mont : Montgomery) (n_chunks n_solutions : Z) (do_reduce : bool)
    (d_output : list uint512) : list uint512 :=
  scatter (fun sol => sol <? n_solutions) id
    (fun sol =>
       let acc tid := foldl (fun acc c => mont_mul mont acc (dget d_partials (wrap 32 (wrap 32 (c * n_solutions) + sol))))
                        (mont_one mont) (strided tid n_chunks SQRT_REDUCE_BLOCK) in
       let product := tree_reduce mont (map acc (upto SQRT_REDUCE_BLOCK)) in
       if do_reduce then mont_reduce mont product else product)
    (upto n_solutions) d_output.

(** ** Exponents *)

Record accum := mkAccum { d_exp_matrix : list Z; d_sign_counts : list Z; d_exp2_accum : list Z }.

Inductive cell := ExpMatrix (i : Z) | SignCount (i : Z) | Exp2 (i : Z).

#[global] Instance cell_eq_dec : EqDecision cell.
Proof. solve_decision. Defined.

Definition add_at (l : list Z) (i v : Z) : list Z := vset l i (wrap 32 (vget 0 l i + v)).

Definition atomicAdd (a : accum) (op : cell * Z) : accum :=
  match op.1 with
  | ExpMatrix i => mkAccum (add_at (d_exp_matrix a) i op.2) (d_sign_counts a) (d_exp2_accum a)
  | SignCount i => mkAccum (d_exp_matrix a) (add_at (d_sign_counts a) i op.2) (d_exp2_accum a)
  | Exp2 i => mkAccum (d_exp_matrix a) (d_sign_counts a) (add_at (d_exp2_accum a) i op.2)
  end.

(** The additions of one thread of [AccumExponents_Parallel], in program order. *)
Definition accum_thread (solutions : BWKernelSolutionView) (batch : HostRelationBatch) (K fb_size chunk_size chunk_idx sol_idx tid : Z) : list (cell * Z) :=
  let rel_idx := wrap 32 (wrap 32 (chunk_idx * chunk_size) + tid) in
  if num_solutions solutions <=? sol_idx then []
  else if K <=? rel_idx then []
  else if negb (selected solutions sol_idx rel_idx) then []
  else
    let csr_start := idx (factor_offsets batch) rel_idx in
    let csr_end := idx (factor_offsets batch) (rel_idx + 1) in
    (if negb (idx (signs batch) rel_idx =? 1) then [(SignCount sol_idx, 1)] else [])
    ++ [(Exp2 sol_idx, wrap 32 (idx (val_2_exps batch) rel_idx))]
    ++ map (fun k => (ExpMatrix (wrap 32 (wrap 32 (sol_idx * fb_size) + idx (factor_indices batch) k)), idx (factor_counts batch) k))
         (map (Z.add csr_start) (upto (csr_end - csr_start))).

Definition accum_ops (solutions : BWKernelSolutionView) (batch : HostRelationBatch) (K fb_size chunk_size : Z) (blocks : list (Z * Z)) : list (cell * Z) :=
  flat_map (fun b => flat_map (accum_thread solutions batch K fb_size chunk_size b.1 b.2) (upto chunk_size)) blocks.

(** The additions take effect in the order [order], some interleaving of [accum_ops]. *)
Definition AccumExponents_Parallel (order : list (cell * Z)) (a : accum) : accum := foldl atomicAdd a order.

(** One thread of [HalveExponents]: [t] is [(p_idx, sol_idx)]. *)
Definition halve_thread (n_solutions fb_size : Z) (st : accum * list Z) (t : Z * Z) : accum * list Z :=
  let '(a, d_valid) := st in
  let '(p_idx, sol_idx) := t in
  if n_solutions <=? sol_idx then st
  else
    let '(a, d_valid) :=
      if p_idx =? 0 then
        let d_valid := if Z.odd (vget 0 (d_sign_counts a) sol_idx) then vset d_valid sol_idx 0 else d_valid in
        let e2 := vget 0 (d_exp2_accum a) sol_idx in
        let d_valid := if Z.odd e2 then vset d_valid sol_idx 0 else d_valid in
        (mkAccum (d_exp_matrix a) (d_sign_counts a) (vset (d_exp2_accum a) sol_idx (Z.shiftr e2 1)), d_valid)
      else (a, d_valid) in
    if fb_size <=? p_idx then (a, d_valid)
    else
      let i := wrap 32 (wrap 32 (sol_idx * fb_size) + p_idx) in
      let val := vget 0 (d_exp_matrix a) i in
      (mkAccum (vset (d_exp_matrix a) i (Z.shiftr val 1)) (d_sign_counts a) (d_exp2_accum a),
       if Z.odd val then vset d_valid sol_idx 0 else d_valid).

Definition HalveExponents (n_solutions fb_size : Z) (threads : list (Z * Z)) (a : accum) (d_valid : list Z) : accum * list Z :=
  foldl (halve_thread n_solutions fb_size) (a, d_valid) threads.

(** ** Exponentiation *)

(** [table[i] = base^(i + 1)]. *)
Definition window_table (mont : Montgomery) (base : uint512) : list uint512 :=
  foldl (fun table i => table ++ [mont_mul mont (dget table i) base]) [base] (upto (2 ^ SQRT_WINDOW_BITS - 2)).

(** The highest set bit, rounded up to the end of its window. *)
Definition top_position (e : Z) : Z :=
  Z.land (Z.log2 e + SQRT_WINDOW_BITS) (Z.lnot (SQRT_WINDOW_BITS - 1)) - 1.

Fixpoint window_loop (fuel : nat) (mont : Montgomery) (table : list uint512) (e pos : Z) (result : uint512) : uint512 :=
  match fuel with
  | O => result
  | S f =>
      if SQRT_WINDOW_BITS - 1 <=? pos then
        let result := Nat.iter (Z.to_nat SQRT_WINDOW_BITS) (fun r => mont_mul mont r r) result in
        let window := Z.land (Z.shiftr e (pos - (SQRT_WINDOW_BITS - 1))) (2 ^ SQRT_WINDOW_BITS - 1) in
        let result := if 0 <? window then mont_mul mont result (dget table (window - 1)) else result in
        window_loop f mont table e (pos - SQRT_WINDOW_BITS) result
      else result
  end.

(** A 32-bit exponent has 8 windows. *)
Definition windowed_pow (mont : Montgomery) (base : uint512) (e : Z) : uint512 :=
  window_loop 8 mont (window_table mont base) e (top_position e) (mont_one mont).

Definition exp_step (d_exp_matrix : list Z) (d_factor_base_mont : list uint512) (mont : Montgomery) (fb_size sol_idx : Z)
    (partial : option uint512) (p : Z) : option uint512 :=
  partial ← partial;
  let exp_val := vget 0 d_exp_matrix (wrap 32 (wrap 32 (sol_idx * fb_size) + p)) in
  let base := dget d_factor_base_mont p in
  if exp_val =? 0 then Some partial
  else if exp_val =? 1 then Some (mont_mul mont partial base)
  else if exp_val <=? SQRT_WINDOW_THRESHOLD then
    term ← mont_pow mont base (u512_of_u32 exp_val);
    Some (mont_mul mont partial term)
  else Some (mont_mul mont partial (windowed_pow mont base exp_val)).

(** The block of one solution. *)
Definition exponentiate (a : accum) (d_Y_lp_mont d_factor_base_mont : list uint512) (mont : Montgomery) (N : uint512) (fb_size sol_idx : Z) : option uint512 :=
  shared ← mapM (fun tid => foldl (exp_step (d_exp_matrix a) d_factor_base_mont mont fb_size sol_idx) (Some (mont_one mont))
                             (strided tid fb_size SQRT_EXP_THREADS)) (upto SQRT_EXP_THREADS);
  let Y_mont := tree_reduce mont shared in
  let Y_mont := if Z.odd (vget 0 (d_sign_counts a) sol_idx / 2) then negate_mod_inplace Y_mont N else Y_mont in
  let exp2_half := vget 0 (d_exp2_accum a) sol_idx in
  Y_mont ← (if 0 <? exp2_half then
              term2 ← mont_pow mont (mont_transform mont (u512_of_u32 2)) (u512_of_u32 exp2_half);
              Some (mont_mul mont Y_mont term2)
            else Some Y_mont);
  Some (mont_reduce mont (mont_mul mont Y_mont (dget d_Y_lp_mont sol_idx))).

Definition BatchedExponentiateY (a : accum) (d_Y_lp_mont d_factor_base_mont : list uint512) (d_valid : list Z) (mont : Montgomery)
    (N : uint512) (n_solutions fb_size : Z) (d_Y_out : list uint512) : option (list uint512) :=
  foldl (fun out sol_idx =>
           out ← out;
           if vget 0 d_valid sol_idx =? 0 then Some out
           else y ← exponentiate a d_Y_lp_mont d_factor_base_mont mont N fb_size sol_idx; Some (vset out sol_idx y))
    (Some d_Y_out) (upto n_solutions).

Definition ApplyLPCorrectionKernel (d_Y d_correction_mont : list uint512) (mont : Montgomery) (n_solutions : Z) : list uint512 :=
  scatter (fun sol => sol <? n_solutions) id (fun sol => apply_correction mont (dget d_Y sol) (dget d_correction_mont sol))
    (threads_for n_solutions 256) d_Y.

(** ** Vocabulary of the specifications *)

(** A cell of the accumulators, whether it is allocated, and what a list of additions adds to it. *)
Definition cell_get (a : accum) (c : cell) : Z :=
  match c with
  | ExpMatrix i => vget 0 (d_exp_matrix a) i
  | SignCount i => vget 0 (d_sign_counts a) i
  | Exp2 i => vget 0 (d_exp2_accum a) i
  end.

Definition cell_index (c : cell) : Z := match c with ExpMatrix i => i | SignCount i => i | Exp2 i => i end.

Definition cell_room (a : accum) (c : cell) : Z :=
  match c with
  | ExpMatrix _ => Z.of_nat (length (d_exp_matrix a))
  | SignCount _ => Z.of_nat (length (d_sign_counts a))
  | Exp2 _ => Z.of_nat (length (d_exp2_accum a))
  end.

Definition amount (c : cell) (ops : list (cell * Z)) : Z := zsum (map (fun op : cell * Z => if decide (op.1 = c) then op.2 else 0) ops).

(** What one selected relation adds for solution [s]. *)
Definition relation_ops (s fb_size : Z) (r : relation) : list (cell * Z) :=
  (if negb (r_sign r =? 1) then [(SignCount s, 1)] else [])
  ++ [(Exp2 s, wrap 32 (r_val2 r))]
  ++ map (fun f : Z * Z => (ExpMatrix (wrap 32 (wrap 32 (s * fb_size) + f.1)), f.2)) (r_factors r).

(** What a relation selected by solution [s] adds to a cell. *)
Definition contribution (fb_size : Z) (c : cell) (s : Z) (r : relation) : Z :=
  match c with
  | SignCount s' => if s' =? s then neg_count r else 0
  | Exp2 s' => if s' =? s then wrap 32 (r_val2 r) else 0
  | ExpMatrix i => if i / fb_size =? s then expo (i mod fb_size) r else 0
  end.

(** An odd count that a thread of [HalveExponents] sees. *)
Definition odd_count (a : accum) (fb_size : Z) (t : Z * Z) : bool :=
  ((t.1 =? 0) && (Z.odd (vget 0 (d_sign_counts a) t.2) || Z.odd (vget 0 (d_exp2_accum a) t.2)))
  || ((t.1 <? fb_size) && Z.odd (vget 0 (d_exp_matrix a) (t.2 * fb_size + t.1))).

(** The counts and flags after the threads [done] of [HalveExponents]. *)
Record halved (a : accum) (d_valid : list Z) (n_solutions fb_size : Z) (done : list (Z * Z)) (st : accum * list Z) : Prop := mkHalved {
  hv_lengths : length (d_exp_matrix st.1) = length (d_exp_matrix a) /\ length (d_exp2_accum st.1) = length (d_exp2_accum a) /\ length st.2 = length d_valid;
  hv_signs : d_sign_counts st.1 = d_sign_counts a;
  hv_exp2 : forall s, 0 <= s < n_solutions ->
    vget 0 (d_exp2_accum st.1) s = if decide ((0, s) ∈ done) then Z.shiftr (vget 0 (d_exp2_accum a) s) 1 else vget 0 (d_exp2_accum a) s;
  hv_exp : forall s p, 0 <= s < n_solutions -> 0 <= p < fb_size ->
    vget 0 (d_exp_matrix st.1) (s * fb_size + p)
    = if decide ((p, s) ∈ done) then Z.shiftr (vget 0 (d_exp_matrix a) (s * fb_size + p)) 1 else vget 0 (d_exp_matrix a) (s * fb_size + p);
  hv_valid : forall s, 0 <= s < n_solutions ->
    vget 0 st.2 s = if existsb (fun t => (t.2 =? s) && odd_count a fb_size t) done then 0 else vget 0 d_valid s
}.

(** ** Lemmas: launches *)

Lemma length_scatter {T A} guard ix (val : T -> A) ts out : length (scatter guard ix val ts out) = length out.
Proof.
  unfold scatter. induction ts as [|t ts IH] using rev_ind; [done|]. rewrite foldl_snoc. destruct (guard t); [by rewrite length_vset|done].
Qed.

(** Whatever the order of the threads, a slot that is stored to holds the value stored there. *)
Lemma scatter_get {T A} (d : A) guard ix (val : T -> A) ts out t :
  (forall t t', t ∈ ts -> t' ∈ ts -> guard t = true -> guard t' = true -> ix t = ix t' -> val t = val t') ->
  (forall t, t ∈ ts -> guard t = true -> 0 <= ix t < Z.of_nat (length out)) ->
  t ∈ ts -> guard t = true -> vget d (scatter guard ix val ts out) (ix t) = val t.
Proof.
  induction ts as [|u ts IH] using rev_ind; intros Hagree Hrange Ht Hg; [by apply not_elem_of_nil in Ht|].
  assert (u ∈ ts ++ [u]) as Hu by (apply elem_of_app; right; by apply list_elem_of_singleton).
  assert (t ∈ ts -> vget d (scatter guard ix val ts out) (ix t) = val t) as IH'.
  { intros H. apply IH; [|intros t' Ht'; apply Hrange; apply elem_of_app; by left|done|done].
    intros t1 t2 H1 H2. apply Hagree; apply elem_of_app; by left. }
  unfold scatter in *. rewrite foldl_snoc. apply elem_of_app in Ht as Ht'. rewrite list_elem_of_singleton in Ht'. destruct (guard u) eqn:Eu.
  - destruct (decide (ix t = ix u)) as [E|Hne].
    + rewrite E, vget_vset_eq; [by apply Hagree|]. fold (scatter guard ix val ts out). rewrite length_scatter. by apply Hrange.
    + rewrite vget_vset_ne; [|by apply Hrange|by apply Hrange|congruence]. apply IH'. destruct Ht' as [?| ->]; done.
  - apply IH'. destruct Ht' as [?| ->]; [done|congruence].
Qed.

(** The same, when the indices of different threads differ: [ix] is the identity. *)
Lemma scatter_id {A} (d : A) guard (val : Z -> A) ts out i :
  (forall t, t ∈ ts -> guard t = true -> 0 <= t < Z.of_nat (length out)) -> i ∈ ts -> guard i = true ->
  vget d (scatter guard id val ts out) i = val i.
Proof. intros Hr Hi Hg. change i with (id i) at 1. apply scatter_get; [|done|done|done]. intros t t' _ _ _ _ E. unfold id in E. by subst. Qed.

Lemma blocks_for_covers n block : 0 <= n -> 0 < block -> n + block - 1 < 2 ^ 32 -> n <= blocks_for n block * block.
Proof.
  intros Hn Hb Hlt. unfold blocks_for. rewrite wrap_small by (unfold in_width; lia).
  pose proof (Z.div_mod (n + block - 1) block ltac:(lia)). pose proof (Z.mod_pos_bound (n + block - 1) block ltac:(lia)). nia.
Qed.

Lemma blocks_for_bound n block : 0 <= n -> 0 < block -> n + block - 1 < 2 ^ 32 -> 0 <= blocks_for n block /\ blocks_for n block * block <= n + block - 1.
Proof.
  intros Hn Hb Hlt. unfold blocks_for. rewrite wrap_small by (unfold in_width; lia).
  pose proof (Z.div_pos (n + block - 1) block ltac:(lia) ltac:(lia)). pose proof (Z.mul_div_le (n + block - 1) block ltac:(lia)). lia.
Qed.

Lemma elem_of_threads n block i : 0 <= n -> 0 < block -> n + block - 1 < 2 ^ 32 -> 0 <= i < n -> i ∈ threads_for n block.
Proof. intros Hn Hb Hlt Hi. apply elem_of_upto. pose proof (blocks_for_covers n block Hn Hb Hlt). lia. Qed.

Lemma elem_of_grid2 nx ny x y : (x, y) ∈ grid2 nx ny <-> 0 <= x < nx /\ 0 <= y < ny.
Proof.
  unfold grid2. rewrite <- !elem_of_upto, !list_elem_of_In, in_flat_map. split.
  - intros (y' & Hy & Hx). apply in_map_iff in Hx as (x' & [= -> ->] & Hx). done.
  - intros [Hx Hy]. exists y. split; [done|]. apply in_map_iff. by exists x.
Qed.

(** A one-dimensional transform: slot [i] below [n] gets [val i]. *)
Lemma transform_get {A} (d : A) (val : Z -> A) n block out i :
  0 < block -> n + block - 1 < 2 ^ 32 -> n <= Z.of_nat (length out) -> 0 <= i < n ->
  vget d (scatter (fun i => i <? n) id val (threads_for n block) out) i = val i.
Proof.
  intros Hb Hlt Hlen Hi. apply scatter_id; [|apply elem_of_threads; lia|apply Z.ltb_lt; lia].
  intros t Ht%elem_of_upto Hg%Z.ltb_lt. lia.
Qed.

(** ** Lemmas: products over ranges *)

Lemma upto_add a b : 0 <= a -> 0 <= b -> upto (a + b) = upto a ++ map (Z.add a) (upto b).
Proof.
  intros Ha Hb. pattern b. apply natlike_ind; [by rewrite Z.add_0_r, app_nil_r| |done].
  clear b Hb. intros b Hb IH. change (Z.succ b) with (b + 1). by rewrite Z.add_assoc, !upto_S, IH, map_app, app_assoc by lia.
Qed.

Lemma zprod_upto_add a b f : 0 <= a -> 0 <= b -> zprod_upto (a + b) f = zprod_upto a f * zprod_upto b (fun i => f (a + i)).
Proof. intros Ha Hb. unfold zprod_upto. by rewrite upto_add, map_app, zprod_app, map_map by done. Qed.

(** Products by chunks of [s]. *)
Lemma zprod_upto_chunks n s f : 0 <= n -> 0 <= s -> zprod_upto n (fun c => zprod_upto s (fun t => f (c * s + t))) = zprod_upto (n * s) f.
Proof.
  intros Hn Hs. pattern n. apply natlike_ind; [done| |done].
  clear n Hn. intros n Hn IH. change (Z.succ n) with (n + 1). by rewrite zprod_upto_S, IH, Z.mul_add_distr_r, Z.mul_1_l, zprod_upto_add by nia.
Qed.

(** Factors beyond [n] that are 1. *)
Lemma zprod_upto_tail n m f : 0 <= n -> n <= m -> (forall i, n <= i < m -> f i = 1) -> zprod_upto m f = zprod_upto n f.
Proof.
  intros Hn Hm H. replace m with (n + (m - n)) by lia. rewrite zprod_upto_add by lia.
  rewrite (zprod_upto_ext (m - n) _ (fun _ => 1)) by (intros i Hi; apply H; lia). unfold zprod_upto at 2. by rewrite zprod_one, Z.mul_1_r.
Qed.

Lemma strided_count tid n step : 0 <= tid < step -> 0 <= n ->
  (n + 1 - tid + step - 1) / step = (n - tid + step - 1) / step + (if n mod step =? tid then 1 else 0) /\ 0 <= (n - tid + step - 1) / step /\
  (n mod step = tid -> tid + step * ((n - tid + step - 1) / step) = n).
Proof.
  intros Ht Hn. pose proof (Z.div_mod n step ltac:(lia)) as E. pose proof (Z.mod_pos_bound n step ltac:(lia)) as Hm.
  set (q := n / step) in *. set (r := n mod step) in *. assert (0 <= q) by (apply Z.div_pos; lia).
  destruct (Z.eqb_spec r tid) as [Er|Er].
  - assert ((n - tid + step - 1) / step = q) as -> by (symmetry; apply (Z.div_unique_pos _ _ _ (step - 1)); lia).
    assert ((n + 1 - tid + step - 1) / step = q + 1) as -> by (symmetry; apply (Z.div_unique_pos _ _ _ 0); lia). lia.
  - destruct (Z.ltb_spec r tid).
    + assert ((n - tid + step - 1) / step = q) as -> by (symmetry; apply (Z.div_unique_pos _ _ _ (r - tid + step - 1)); lia).
      assert ((n + 1 - tid + step - 1) / step = q) as -> by (symmetry; apply (Z.div_unique_pos _ _ _ (r - tid + step)); lia). lia.
    + assert ((n - tid + step - 1) / step = q + 1) as -> by (symmetry; apply (Z.div_unique_pos _ _ _ (r - tid - 1)); lia).
      assert ((n + 1 - tid + step - 1) / step = q + 1) as -> by (symmetry; apply (Z.div_unique_pos _ _ _ (r - tid)); lia). lia.
Qed.

Lemma strided_S tid n step : 0 <= tid < step -> 0 <= n ->
  strided tid (n + 1) step = strided tid n step ++ (if n mod step =? tid then [n] else []).
Proof.
  intros Ht Hn. destruct (strided_count tid n step Ht Hn) as (E & H0 & H1). unfold strided. rewrite E.
  destruct (Z.eqb_spec (n mod step) tid) as [Em|]; [|by rewrite Z.add_0_r, app_nil_r].
  rewrite upto_S, map_app by done. cbn [map]. by rewrite H1.
Qed.

(** The strided loops of the threads of a block share out the range. *)
Lemma zprod_strided n step f : 0 <= n -> 0 < step -> zprod_upto step (fun tid => zprod (map f (strided tid n step))) = zprod_upto n f.
Proof.
  intros Hn Hs. pattern n. apply natlike_ind; [| |done].
  - rewrite zprod_upto_0, (zprod_upto_ext _ _ (fun _ => 1)); [apply zprod_one|]. intros i Hi. unfold strided.
    rewrite Z.div_small by lia. done.
  - clear n Hn. intros n Hn IH. change (Z.succ n) with (n + 1). rewrite zprod_upto_S, <- IH by done.
    rewrite (zprod_upto_ext _ _ (fun tid => zprod (map f (strided tid n step)) * (if n mod step =? tid then f n else 1))).
    + rewrite zprod_upto_mul. f_equal. pose proof (Z.mod_pos_bound n step Hs).
      rewrite (zprod_upto_single _ _ (n mod step)); [by rewrite Z.eqb_refl|done|]. intros i _ Hi. destruct (Z.eqb_spec (n mod step) i); [lia|done].
    + intros tid Ht. rewrite strided_S, map_app, zprod_app by done. destruct (_ =? _); [|done]. cbn [map]. by rewrite zprod_cons, zprod_nil, Z.mul_1_r.
Qed.

Lemma strided_bound tid n step c : 0 <= tid < step -> 0 <= n -> c ∈ strided tid n step -> 0 <= c < n.
Proof.
  intros Ht Hn. pattern n. apply natlike_ind; [| |done].
  - unfold strided. rewrite Z.div_small by lia. intros H. by apply not_elem_of_nil in H.
  - clear n Hn. intros n Hn IH. change (Z.succ n) with (n + 1). rewrite strided_S, elem_of_app by done.
    intros [H|H]; [specialize (IH H); lia|]. destruct (_ =? _); [apply list_elem_of_singleton in H; lia|by apply not_elem_of_nil in H].
Qed.

(** A product over the selected elements. *)
Lemma zprod_select {A} (f : A -> Z) (g : Z -> Z) (sel : Z -> bool) (l : list A) :
  (forall i x, l !! i = Some x -> g (Z.of_nat i) = f x) ->
  zprod_upto (Z.of_nat (length l)) (fun i => if sel i then g i else 1) = zprod (map f (select sel 0 l)).
Proof.
  induction l as [|x l IH] using rev_ind; intros H; [done|]. rewrite length_app, select_app, map_app, zprod_app. cbn [length select].
  replace (Z.of_nat (length l + 1)) with (Z.of_nat (length l) + 1) by lia. rewrite zprod_upto_S by lia. rewrite IH.
  - rewrite Z.add_0_l. destruct (sel _); [|done]. cbn [map]. rewrite zprod_cons, zprod_nil, Z.mul_1_r.
    by rewrite (H (length l) x) by (by rewrite list_lookup_middle).
  - intros i y Hi. apply H. by rewrite lookup_app_l by (by eapply lookup_lt_Some).
Qed.

(** ** Lemmas: products *)

Section products.
Context (mont : Montgomery) (Hmont : mont_ok mont).
Notation form := (mont_form mont).

Lemma tree_loop_form k : forall fuel sh v,
  (k <= fuel)%nat -> 2 ^ Z.of_nat k <= Z.of_nat (length sh) -> (forall i, 0 <= i < 2 ^ Z.of_nat k -> form (dget sh i) (v i)) ->
  form (dget (tree_loop fuel mont (Z.shiftr (2 ^ Z.of_nat k) 1) sh) 0) (zprod_upto (2 ^ Z.of_nat k) v).
Proof using Hmont.
  induction k as [|k IH]; intros fuel sh v Hk Hlen Hv.
  - change (Z.shiftr (2 ^ Z.of_nat 0) 1) with 0. replace (tree_loop fuel mont 0 sh) with sh by by destruct fuel.
    change (zprod_upto (2 ^ Z.of_nat 0) v) with (v 0 * 1). rewrite Z.mul_1_r. by apply Hv.
  - destruct fuel as [|f]; [lia|]. replace (Z.of_nat (S k)) with (Z.of_nat k + 1) in * by lia.
    assert (2 ^ (Z.of_nat k + 1) = 2 ^ Z.of_nat k + 2 ^ Z.of_nat k) as E by (rewrite Z.pow_add_r by lia; lia).
    pose proof (Z.pow_pos_nonneg 2 (Z.of_nat k) ltac:(lia) ltac:(lia)) as Hpos.
    assert (Z.shiftr (2 ^ (Z.of_nat k + 1)) 1 = 2 ^ Z.of_nat k) as Es by (rewrite Z.shiftr_div_pow2, E by lia; symmetry; apply (Z.div_unique_pos _ _ _ 0); lia).
    rewrite Es. cbn [tree_loop]. rewrite (proj2 (Z.ltb_lt 0 _)) by lia.
    rewrite E, zprod_upto_add, <- zprod_upto_mul by lia. apply IH; [lia|unfold tree_step; rewrite length_map, length_upto; lia|].
    intros i Hi. unfold tree_step. rewrite vget_map_upto by lia. rewrite (proj2 (Z.ltb_lt i _)) by lia.
    apply mont_mul_form; [done|apply Hv; lia|]. replace (i + 2 ^ Z.of_nat k) with (2 ^ Z.of_nat k + i) by lia. apply Hv. lia.
Qed.

Lemma tree_reduce_form (f : Z -> uint512) v k :
  (k <= 32)%nat -> (forall i, 0 <= i < 2 ^ Z.of_nat k -> form (f i) (v i)) ->
  form (tree_reduce mont (map f (upto (2 ^ Z.of_nat k)))) (zprod_upto (2 ^ Z.of_nat k) v).
Proof using Hmont.
  intros Hk Hv. pose proof (Z.pow_pos_nonneg 2 (Z.of_nat k) ltac:(lia) ltac:(lia)) as Hpos.
  unfold tree_reduce. rewrite length_map, length_upto, Z2Nat.id by lia. apply tree_loop_form; [done|rewrite length_map, length_upto; lia|].
  intros i Hi. rewrite vget_map_upto by done. by apply Hv.
Qed.

Lemma mont_one_form : form (mont_one mont) 1.
Proof using Hmont. by apply form_one. Qed.

Context (solutions : BWKernelSolutionView) (K : Z) (HK : 0 <= K /\ K + 255 < 2 ^ 32).
Notation n_sol := (num_solutions solutions).
Notation n_chunks := (blocks_for K SQRT_CHUNK_SIZE).
Context (Hpart : 0 <= n_sol /\ n_chunks * n_sol < 2 ^ 32).

Lemma chunks_cover : 0 <= n_chunks /\ K <= n_chunks * 256 < 2 ^ 32.
Proof using HK.
  pose proof (blocks_for_covers K 256 ltac:(lia) ltac:(lia) ltac:(lia)). pose proof (blocks_for_bound K 256 ltac:(lia) ltac:(lia) ltac:(lia)).
  unfold SQRT_CHUNK_SIZE. lia.
Qed.

(** The slot of a partial product. *)
Lemma partial_slot c s : 0 <= c < n_chunks -> 0 <= s < n_sol -> wrap 32 (wrap 32 (c * n_sol) + s) = c * n_sol + s /\ 0 <= c * n_sol + s < n_chunks * n_sol.
Proof using Hpart HK.
  intros Hc Hs. assert (0 <= c * n_sol + s < n_chunks * n_sol) by nia. rewrite (wrap_small 32 (c * n_sol)) by (unfold in_width; nia).
  rewrite wrap_small by (unfold in_width; lia). done.
Qed.

Context (d_vals : list uint512) (val : Z -> Z) (Hval : forall i, 0 <= i < K -> form (dget d_vals i) (val i)).
Notation sel_val s := (fun i => if i <? K then if selected solutions s i then val i else 1 else 1).

Lemma chunk_value_form c s t :
  0 <= c < n_chunks -> 0 <= t < 256 -> form (chunk_value d_vals solutions mont K SQRT_CHUNK_SIZE c s t) (sel_val s (c * 256 + t)).
Proof using Hmont HK Hval.
  intros Hc Ht. pose proof chunks_cover. unfold chunk_value. change SQRT_CHUNK_SIZE with 256 in *. rewrite (wrap_small 32 (c * 256)) by (unfold in_width; lia).
  rewrite wrap_small by (unfold in_width; lia). destruct (Z.ltb_spec (c * 256 + t) K); [|by apply mont_one_form].
  destruct (selected _ _ _); [|by apply mont_one_form]. apply Hval. lia.
Qed.

Lemma ChunkReduce_form blocks out c s :
  blocks ≡ₚ grid2 n_chunks n_sol -> n_chunks * n_sol <= Z.of_nat (length out) -> 0 <= c < n_chunks -> 0 <= s < n_sol ->
  form (dget (ComputeX_ChunkReduce d_vals solutions mont K SQRT_CHUNK_SIZE blocks out) (c * n_sol + s)) (zprod_upto 256 (fun t => sel_val s (c * 256 + t))).
Proof using Hmont HK Hval Hpart.
  intros Hb Hlen Hc Hs. unfold ComputeX_ChunkReduce. destruct (partial_slot c s Hc Hs) as [Es _]. rewrite <- Es.
  assert (forall b, b ∈ blocks -> 0 <= b.1 < n_chunks /\ 0 <= b.2 < n_sol) as Hin.
  { intros [x y] H. rewrite Hb in H. by apply elem_of_grid2. }
  match goal with |- context [scatter ?g ?ix ?v _ _] => pose proof (scatter_get u512_zero g ix v blocks out (c, s)) as HG end.
  cbn [fst snd] in HG. rewrite HG.
  - apply (tree_reduce_form _ _ 8); [lia|]. intros t Ht. by apply chunk_value_form.
  - intros [c1 s1] [c2 s2] H1 H2 _ _ E. cbn [fst snd] in *. apply Hin in H1 as [H1 H1']. apply Hin in H2 as [H2 H2']. cbn [fst snd] in *.
    rewrite (proj1 (partial_slot c1 s1 H1 H1')), (proj1 (partial_slot c2 s2 H2 H2')) in E.
    destruct (Z.div_mod_unique n_sol c1 c2 s1 s2) as [-> ->]; [left; lia|left; lia|lia|done].
  - intros [x y] H _. apply Hin in H as [H H']. cbn [fst snd] in *. destruct (partial_slot x y H H') as [-> ?]. lia.
  - rewrite Hb. by apply elem_of_grid2.
  - apply Z.ltb_lt. lia.
Qed.

(** The partial products of a solution, reduced to the product of what it selects. *)
Lemma FinalReduce_form blocks d_partials do_reduce out s :
  blocks ≡ₚ grid2 n_chunks n_sol -> n_chunks * n_sol <= Z.of_nat (length d_partials) -> n_sol <= Z.of_nat (length out) -> 0 <= s < n_sol ->
  exists x, form x (zprod_upto K (fun i => if selected solutions s i then val i else 1)) /\
    dget (FinalReduce (ComputeX_ChunkReduce d_vals solutions mont K SQRT_CHUNK_SIZE blocks d_partials) mont n_chunks n_sol do_reduce out) s
    = if do_reduce then mont_reduce mont x else x.
Proof using Hmont HK Hval Hpart.
  intros Hb Hlen Hout Hs. pose proof chunks_cover as [Hc HK']. set (parts := ComputeX_ChunkReduce _ _ _ _ _ _ _).
  exists (tree_reduce mont (map (fun tid => foldl (fun acc c => mont_mul mont acc (dget parts (wrap 32 (wrap 32 (c * n_sol) + s)))) (mont_one mont)
    (strided tid n_chunks 256)) (upto 256))). split.
  2:{ unfold FinalReduce. rewrite scatter_id; [done| |by apply elem_of_upto|apply Z.ltb_lt; lia]. intros t Ht%elem_of_upto _. lia. }
  rewrite (zprod_upto_ext K _ (sel_val s)) by (intros i Hi; by rewrite (proj2 (Z.ltb_lt i K)) by lia).
  rewrite <- (zprod_upto_tail K (n_chunks * 256) (sel_val s)); [|lia|lia|intros i Hi; by rewrite (proj2 (Z.ltb_ge i K)) by lia].
  rewrite <- zprod_upto_chunks by lia. rewrite <- (zprod_strided n_chunks 256) by lia.
  apply (tree_reduce_form _ _ 8); [lia|]. intros tid Ht. rewrite <- (Z.mul_1_l (zprod _)).
  apply (form_fold mont Hmont (fun c => dget parts (wrap 32 (wrap 32 (c * n_sol) + s)))); [|by apply mont_one_form].
  apply Forall_forall. intros c Hin. apply strided_bound in Hin; [|lia|done]. rewrite (proj1 (partial_slot c s Hin Hs)).
  by apply ChunkReduce_form.
Qed.

End products.

(** ** Lemmas: atomic additions *)

Lemma amount_app c l1 l2 : amount c (l1 ++ l2) = amount c l1 + amount c l2.
Proof. unfold amount. by rewrite map_app, zsum_app. Qed.

Lemma amount_cons c op l : amount c (op :: l) = (if decide (op.1 = c) then op.2 else 0) + amount c l.
Proof. done. Qed.

Lemma amount_perm c l1 l2 : l1 ≡ₚ l2 -> amount c l1 = amount c l2.
Proof. intros H. unfold amount. by apply zsum_perm, Permutation_map. Qed.

Lemma cell_room_add a op c : cell_room (atomicAdd a op) c = cell_room a c.
Proof. destruct op as [[i|i|i] v], c; cbn; unfold add_at; by rewrite ?length_vset. Qed.

Lemma vget_add_at l i j v :
  0 <= i -> 0 <= j < Z.of_nat (length l) -> in_width 32 (vget 0 l j) ->
  vget 0 (add_at l i v) j = wrap 32 (vget 0 l j + (if decide (i = j) then v else 0)).
Proof.
  intros Hi Hj Hw. unfold add_at. destruct (decide (i = j)) as [->|Hne]; [by rewrite vget_vset_eq|].
  rewrite vget_vset_ne by lia. rewrite Z.add_0_r. symmetry. by apply wrap_small.
Qed.

Lemma cell_get_add a op c :
  0 <= cell_index op.1 -> 0 <= cell_index c < cell_room a c -> in_width 32 (cell_get a c) ->
  cell_get (atomicAdd a op) c = wrap 32 (cell_get a c + (if decide (op.1 = c) then op.2 else 0)).
Proof.
  intros Hi Hc Hw. destruct op as [[i|i|i] v], c as [j|j|j]; cbn [atomicAdd fst snd cell_get cell_index cell_room d_exp_matrix d_sign_counts d_exp2_accum] in *.
  all: try (rewrite decide_False by done; rewrite Z.add_0_r; symmetry; by apply wrap_small).
  all: rewrite vget_add_at by done; destruct (decide (i = j)) as [->|Hne]; [by rewrite decide_True|rewrite decide_False by congruence; done].
Qed.

(** After any sequence of additions a cell has grown by what they add to it, modulo 2^32. *)
Lemma atomics_get ops a c :
  Forall (fun op : cell * Z => 0 <= cell_index op.1) ops -> 0 <= cell_index c < cell_room a c -> in_width 32 (cell_get a c) ->
  cell_get (foldl atomicAdd a ops) c = wrap 32 (cell_get a c + amount c ops) /\ cell_room (foldl atomicAdd a ops) c = cell_room a c.
Proof.
  intros H. revert a. induction H as [|op ops Hop _ IH]; intros a Hc Hw.
  { cbn [foldl]. split; [|done]. unfold amount. cbn. rewrite Z.add_0_r. symmetry. by apply wrap_small. }
  cbn [foldl]. pose proof (cell_get_add a op c Hop Hc Hw) as E. destruct (IH (atomicAdd a op)) as [I1 I2].
  - by rewrite cell_room_add.
  - rewrite E. by apply wrap_range.
  - rewrite I1, I2, E, cell_room_add, amount_cons, wrap_add_l. split; [f_equal; lia|done].
Qed.

Lemma flat_map_chunks {A} (f : Z -> list A) n s :
  0 <= n -> 0 <= s -> flat_map (fun c => flat_map (fun t => f (c * s + t)) (upto s)) (upto n) = flat_map f (upto (n * s)).
Proof.
  intros Hn Hs. pattern n. apply natlike_ind; [done| |done].
  clear n Hn. intros n Hn IH. change (Z.succ n) with (n + 1). rewrite upto_S, flat_map_app, IH, Z.mul_add_distr_r, Z.mul_1_l, upto_add, flat_map_app by nia.
  f_equal. cbn [flat_map]. rewrite app_nil_r, !flat_map_concat_map, map_map. done.
Qed.

Lemma flat_map_tail {A} (f : Z -> list A) n m : 0 <= n -> n <= m -> (forall i, n <= i < m -> f i = []) -> flat_map f (upto m) = flat_map f (upto n).
Proof.
  intros Hn Hm H. replace m with (n + (m - n)) by lia. rewrite upto_add, flat_map_app by lia.
  rewrite <- (app_nil_r (flat_map f (upto n))) at 2. f_equal.
  assert (forall i, i ∈ map (Z.add n) (upto (m - n)) -> f i = []) as H'.
  { intros i (j & <- & Hj)%list_elem_of_In%in_map_iff. apply list_elem_of_In, elem_of_upto in Hj. apply H. lia. }
  induction (map _ _) as [|x l IH]; [done|]. cbn [flat_map]. rewrite H' by (apply elem_of_cons; by left). apply IH. intros i Hi. apply H', elem_of_cons. by right.
Qed.

Lemma flat_map_ext_in {A B} (f g : A -> list B) l : (forall x, x ∈ l -> f x = g x) -> flat_map f l = flat_map g l.
Proof. intros H. rewrite !flat_map_concat_map. f_equal. apply map_ext_in. intros x Hx. by apply H, list_elem_of_In. Qed.

Lemma flat_map_select {A B} (f : A -> list B) (g : Z -> list B) (sel : Z -> bool) (l : list A) :
  (forall i x, l !! i = Some x -> g (Z.of_nat i) = f x) ->
  flat_map (fun i => if sel i then g i else []) (upto (Z.of_nat (length l))) = flat_map f (select sel 0 l).
Proof.
  induction l as [|x l IH] using rev_ind; intros H; [done|]. rewrite length_app, select_app, flat_map_app. cbn [length select].
  replace (Z.of_nat (length l + 1)) with (Z.of_nat (length l) + 1) by lia. rewrite upto_S, flat_map_app by lia. rewrite IH.
  - rewrite Z.add_0_l. cbn [flat_map]. rewrite app_nil_r. f_equal. destruct (sel _); [|done]. cbn [flat_map]. rewrite app_nil_r. apply H. by rewrite list_lookup_middle.
  - intros i y Hi. apply H. by rewrite lookup_app_l by (by eapply lookup_lt_Some).
Qed.

Lemma flat_map_map {A B C} (F : B -> list C) (g : A -> B) l : flat_map F (map g l) = flat_map (fun x => F (g x)) l.
Proof. induction l as [|x l IH]; [done|]. cbn [map flat_map]. by rewrite IH. Qed.

Lemma flat_map_grid {A} (F : Z * Z -> list A) nx ny : flat_map F (grid2 nx ny) = flat_map (fun y => flat_map (fun x => F (x, y)) (upto nx)) (upto ny).
Proof.
  unfold grid2. induction (upto ny) as [|y l IH]; [done|]. cbn [flat_map]. by rewrite flat_map_app, flat_map_map, IH.
Qed.

Section accumulate.
Context (b : HostRelationBatch) (rs : list relation) (Hb : repr b rs) (solutions : BWKernelSolutionView) (fb_size : Z).
Notation K := (Z.of_nat (length rs)).
Notation n_sol := (num_solutions solutions).
Notation n_chunks := (blocks_for K SQRT_CHUNK_SIZE).
Notation chosen s := (select (selected solutions s) 0 rs).
Context (HK : K + 255 < 2 ^ 32) (Hn : 0 <= n_sol) (Hfb : 0 <= fb_size) (Hcells : n_sol * fb_size < 2 ^ 32).
Context (Hin : Forall (fun r => Forall (fun f : Z * Z => 0 <= f.1 < fb_size /\ 0 <= f.2) (r_factors r)) rs).

Lemma thread_ops c s t :
  0 <= s < n_sol -> 0 <= c < n_chunks -> 0 <= t < 256 ->
  accum_thread solutions b K fb_size 256 c s t
  = if c * 256 + t <? K then (if selected solutions s (c * 256 + t) then
      match rs !! Z.to_nat (c * 256 + t) with Some r => relation_ops s fb_size r | None => [] end else []) else [].
Proof using Hb HK.
  intros Hs Hc Ht. destruct (chunks_cover K ltac:(lia)) as [_ HC]. unfold accum_thread. cbv zeta. rewrite (wrap_small 32 (c * 256)) by (unfold in_width; lia).
  rewrite wrap_small by (unfold in_width; lia). set (i := c * 256 + t) in *. rewrite (proj2 (Z.leb_gt n_sol s)) by lia.
  destruct (Z.leb_spec K i); [by rewrite (proj2 (Z.ltb_ge i K))|]. rewrite (proj2 (Z.ltb_lt i K)) by done.
  destruct (selected solutions s i); [|done]. cbn [negb].
  destruct (lookup_lt_is_Some_2 rs (Z.to_nat i)) as [r Hr]; [lia|]. rewrite Hr. unfold relation_ops.
  replace i with (Z.of_nat (Z.to_nat i)) by lia.
  rewrite (idx_map_prefix _ rs _ _ r (repr_signs b rs Hb) Hr), (idx_map_prefix _ rs _ _ r (repr_val2 b rs Hb) Hr). do 2 f_equal.
  rewrite (row_length b rs _ r Hb Hr), map_map. apply list_eq. intros j. rewrite !list_lookup_fmap.
  destruct (decide (j < length (r_factors r))%nat) as [Hj|Hj].
  - rewrite lookup_upto by lia. destruct (lookup_lt_is_Some_2 _ _ Hj) as [f Hf]. rewrite Hf. cbn [fmap option_fmap option_map].
    destruct (factor_at b rs _ r j f Hb Hr Hf) as [-> ->]. done.
  - rewrite !lookup_ge_None_2; [done|lia|rewrite length_upto; lia].
Qed.

(** What a launch adds: the additions of every selected relation, solution by solution. *)
Lemma accum_ops_selected :
  accum_ops solutions b K fb_size 256 (grid2 n_chunks n_sol) = flat_map (fun s => flat_map (relation_ops s fb_size) (chosen s)) (upto n_sol).
Proof using Hb HK.
  destruct (chunks_cover K ltac:(lia)) as [Hc0 HC]. unfold accum_ops. rewrite flat_map_grid.
  apply flat_map_ext_in. intros s Hs%elem_of_upto. cbn [fst snd].
  set (rel i := match rs !! Z.to_nat i with Some r => relation_ops s fb_size r | None => [] end).
  transitivity (flat_map (fun c => flat_map (fun t => (fun i => if i <? K then (if selected solutions s i then rel i else []) else []) (c * 256 + t)) (upto 256)) (upto n_chunks)).
  - apply flat_map_ext_in. intros c Hc%elem_of_upto. apply flat_map_ext_in. intros t Ht%elem_of_upto. by apply thread_ops.
  - rewrite (flat_map_chunks (fun i => if i <? K then (if selected solutions s i then rel i else []) else [])) by lia.
    rewrite (flat_map_tail _ K) by (lia || (intros i Hi; by rewrite (proj2 (Z.ltb_ge i K)) by lia)).
    rewrite <- (flat_map_select (relation_ops s fb_size) rel).
    + apply flat_map_ext_in. intros i Hi%elem_of_upto. by rewrite (proj2 (Z.ltb_lt i K)) by lia.
    + intros i r Hr. unfold rel. by rewrite Nat2Z.id, Hr.
Qed.

Lemma slot_small s j : 0 <= s < n_sol -> 0 <= j < fb_size -> wrap 32 (wrap 32 (s * fb_size) + j) = s * fb_size + j /\ 0 <= s * fb_size + j < n_sol * fb_size.
Proof using Hcells Hfb.
  clear -Hcells Hfb. intros Hs Hj. assert (0 <= s * fb_size + j < n_sol * fb_size) by nia. rewrite (wrap_small 32 (s * fb_size)) by (unfold in_width; nia).
  rewrite wrap_small by (unfold in_width; lia). done.
Qed.

Lemma amount_relation c s r :
  r ∈ rs -> 0 <= s < n_sol -> (match c with ExpMatrix _ => 0 < fb_size | _ => True end) -> amount c (relation_ops s fb_size r) = contribution fb_size c s r.
Proof using Hin Hcells Hfb.
  intros Hr Hs Hpos. unfold relation_ops. rewrite !amount_app.
  assert (amount c (if negb (r_sign r =? 1) then [(SignCount s, 1)] else []) = match c with SignCount s' => if s' =? s then neg_count r else 0 | _ => 0 end) as ->.
  { unfold neg_count. destruct (r_sign r =? 1); cbn [negb].
    - unfold amount. cbn. destruct c; try done. by destruct (_ =? _).
    - unfold amount. cbn [map]. destruct c as [i|i|i]; cbn; [done| |done]. destruct (Z.eqb_spec i s) as [->|]; [by rewrite decide_True|by rewrite decide_False by congruence]. }
  assert (amount c [(Exp2 s, wrap 32 (r_val2 r))] = match c with Exp2 s' => if s' =? s then wrap 32 (r_val2 r) else 0 | _ => 0 end) as ->.
  { unfold amount. cbn [map]. destruct c as [i|i|i]; rewrite zsum_cons; cbn; [done|done|].
    destruct (Z.eqb_spec i s) as [->|]; [rewrite decide_True by done; lia|by rewrite decide_False by congruence]. }
  assert (amount c (map (fun f : Z * Z => (ExpMatrix (wrap 32 (wrap 32 (s * fb_size) + f.1)), f.2)) (r_factors r))
    = match c with ExpMatrix i => if i / fb_size =? s then expo (i mod fb_size) r else 0 | _ => 0 end) as ->.
  2:{ unfold contribution. destruct c; lia. }
  rewrite Forall_forall in Hin. specialize (Hin r Hr). unfold amount, expo. rewrite map_map. cbn [fst snd].
  destruct c as [i|i|i]; [|induction (r_factors r) as [|f l IH]; [done|]; apply Forall_cons in Hin as [_ Hl]; cbn [map]; rewrite zsum_cons, decide_False by done; by apply IH..].
  induction Hin as [|f l [Hf _] _ IH]; [by destruct (_ =? _)|]. cbn [map]. rewrite !zsum_cons, IH.
  rewrite (proj1 (slot_small s f.1 Hs Hf)).
  destruct (Z.eqb_spec (i / fb_size) s) as [Es|Es].
  - f_equal. destruct (Z.eqb_spec f.1 (i mod fb_size)) as [Ef|Ef].
    + rewrite decide_True; [done|]. f_equal. rewrite Ef, <- Es. pose proof (Z.div_mod i fb_size). lia.
    + rewrite decide_False; [done|]. intros [= <-]. apply Ef. rewrite Z.add_comm, Z.mod_add, Z.mod_small by lia. done.
  - rewrite decide_False; [done|]. intros [= <-]. apply Es. rewrite Z.add_comm, Z.div_add, Z.div_small by lia. lia.
Qed.

Lemma amount_flat_map {A} c (F : A -> list (cell * Z)) l : amount c (flat_map F l) = zsum (map (fun x => amount c (F x)) l).
Proof using Type. induction l as [|x l IH]; [done|]. cbn [flat_map map]. by rewrite amount_app, IH. Qed.

Lemma amount_total c s :
  0 <= s < n_sol -> (forall s' r, s' <> s -> contribution fb_size c s' r = 0) -> (match c with ExpMatrix _ => 0 < fb_size | _ => True end) ->
  amount c (accum_ops solutions b K fb_size 256 (grid2 n_chunks n_sol)) = zsum (map (contribution fb_size c s) (chosen s)).
Proof using Hb HK Hin Hcells Hfb.
  intros Hs H0 Hpos. rewrite accum_ops_selected, amount_flat_map.
  assert (forall s', 0 <= s' < n_sol -> amount c (flat_map (relation_ops s' fb_size) (chosen s')) = if s' =? s then zsum (map (contribution fb_size c s) (chosen s)) else 0) as E.
  { intros s' Hs'. rewrite amount_flat_map.
    assert (forall l, (forall r, r ∈ l -> r ∈ rs) -> zsum (map (fun r => amount c (relation_ops s' fb_size r)) l) = zsum (map (contribution fb_size c s') l)) as El.
    { induction l as [|r l IH]; intros Hl; [done|]. cbn [map]. rewrite !zsum_cons, IH by (intros r' Hr'; apply Hl, elem_of_cons; by right). f_equal.
      apply amount_relation; [apply Hl, elem_of_cons; by left|done|done]. }
    rewrite El by (intros r; apply select_sub).
    destruct (Z.eqb_spec s' s) as [->|Hne]; [done|]. induction (chosen s') as [|r l IH]; [done|]. cbn [map]. by rewrite zsum_cons, H0. }
  set (T := zsum (map (contribution fb_size c s) (chosen s))) in *. set (g := fun s' => amount c (flat_map (relation_ops s' fb_size) (chosen s'))) in *.
  assert (forall s', 0 <= s' < n_sol -> g s' = if s' =? s then T else 0) as Eg by exact E. clearbody T g. clear -Eg Hs.
  assert (forall m, 0 <= m -> m <= n_sol -> zsum (map g (upto m)) = if s <? m then T else 0) as H.
  { intros m Hm. pattern m. apply natlike_ind; [| |done].
    - intros _. destruct (Z.ltb_spec s 0); [lia|done].
    - clear m Hm. intros m Hm IH Hle. change (Z.succ m) with (m + 1). rewrite upto_S, map_app, zsum_app, IH by lia. cbn. rewrite Eg by lia.
      destruct (Z.ltb_spec s m), (Z.ltb_spec s (m + 1)), (Z.eqb_spec m s); lia. }
  rewrite H by lia. by rewrite (proj2 (Z.ltb_lt s n_sol)) by lia.
Qed.
End accumulate.

(** ** Lemmas: halving *)

Lemma clear_if (b : bool) (v : list Z) s s' :
  0 <= s < Z.of_nat (length v) -> 0 <= s' -> vget 0 (if b then vset v s 0 else v) s' = if (s =? s') && b then 0 else vget 0 v s'.
Proof.
  intros Hs Hs'. destruct b; [|by rewrite andb_false_r]. rewrite andb_true_r.
  destruct (Z.eqb_spec s s') as [<-|Hne]; [by apply vget_vset_eq|]. by apply vget_vset_ne; [lia|lia|].
Qed.

Lemma length_clear (b : bool) (v : list Z) s : length (if b then vset v s 0 else v) = length v.
Proof. destruct b; [apply length_vset|done]. Qed.

Section halve.
Context (a : accum) (d_valid : list Z) (n_sol fb_size : Z) (Hfb : 0 <= fb_size) (Hcells : n_sol * fb_size < 2 ^ 32).
Context (Hexp : n_sol * fb_size <= Z.of_nat (length (d_exp_matrix a))) (He2 : n_sol <= Z.of_nat (length (d_exp2_accum a))).
Context (Hv : n_sol <= Z.of_nat (length d_valid)).

Lemma halve_exp st p s l :
  halved a d_valid n_sol fb_size l st -> 0 <= s < n_sol -> 0 <= p < fb_size -> (p, s) ∉ l ->
  vget 0 (d_exp_matrix st.1) (s * fb_size + p) = vget 0 (d_exp_matrix a) (s * fb_size + p) /\
  forall s' p', 0 <= s' < n_sol -> 0 <= p' < fb_size ->
    vget 0 (vset (d_exp_matrix st.1) (s * fb_size + p) (Z.shiftr (vget 0 (d_exp_matrix a) (s * fb_size + p)) 1)) (s' * fb_size + p')
    = if decide ((p', s') ∈ l ++ [(p, s)]) then Z.shiftr (vget 0 (d_exp_matrix a) (s' * fb_size + p')) 1 else vget 0 (d_exp_matrix a) (s' * fb_size + p').
Proof using Hfb Hcells Hexp He2 Hv.
  intros H Hs Hp Hnot. split; [rewrite (hv_exp _ _ _ _ _ _ H s p Hs Hp); by rewrite decide_False|]. intros s' p' Hs' Hp'.
  destruct (hv_lengths _ _ _ _ _ _ H) as (L & _ & _). destruct (decide ((p', s') = (p, s))) as [[= -> ->]|Hne].
  - rewrite decide_True by set_solver. rewrite vget_vset_eq by nia. done.
  - rewrite vget_vset_ne, (hv_exp _ _ _ _ _ _ H s' p' Hs' Hp') by (nia || (intros E; apply Hne; destruct (Z.div_mod_unique fb_size s s' p p') as [-> ->]; [left; lia|left; lia|lia|done])).
    apply decide_ext. set_solver.
Qed.

Lemma halve_exp2 st p s l :
  halved a d_valid n_sol fb_size l st -> 0 <= s < n_sol -> (p, s) ∉ l ->
  (p = 0 -> vget 0 (d_exp2_accum st.1) s = vget 0 (d_exp2_accum a) s) /\
  forall s', 0 <= s' < n_sol -> vget 0 (if p =? 0 then vset (d_exp2_accum st.1) s (Z.shiftr (vget 0 (d_exp2_accum a) s) 1) else d_exp2_accum st.1) s'
    = if decide ((0, s') ∈ l ++ [(p, s)]) then Z.shiftr (vget 0 (d_exp2_accum a) s') 1 else vget 0 (d_exp2_accum a) s'.
Proof using Hfb Hcells Hexp He2 Hv.
  intros H Hs Hnot. split; [intros ->; rewrite (hv_exp2 _ _ _ _ _ _ H s Hs); by rewrite decide_False|].
  intros s' Hs'. destruct (hv_lengths _ _ _ _ _ _ H) as (_ & L & _). destruct (Z.eqb_spec p 0) as [->|Hp].
  - destruct (decide (s = s')) as [<-|Hne].
    + rewrite decide_True by set_solver. by rewrite vget_vset_eq by lia.
    + rewrite vget_vset_ne, (hv_exp2 _ _ _ _ _ _ H s' Hs') by lia. apply decide_ext. set_solver.
  - rewrite (hv_exp2 _ _ _ _ _ _ H s' Hs'). apply decide_ext. set_solver.
Qed.

Lemma halve_step st p s l :
  halved a d_valid n_sol fb_size l st -> 0 <= p -> 0 <= s < n_sol -> (p, s) ∉ l -> halved a d_valid n_sol fb_size (l ++ [(p, s)]) (halve_thread n_sol fb_size st (p, s)).
Proof using Hfb Hcells Hexp He2 Hv.
  intros H Hp Hs Hnot. destruct (halve_exp2 st p s l H Hs Hnot) as [E2 N2]. destruct (hv_lengths _ _ _ _ _ _ H) as (L1 & L2 & L3).
  pose proof (hv_signs _ _ _ _ _ _ H) as HS. pose proof (hv_valid _ _ _ _ _ _ H) as HV. pose proof (hv_exp _ _ _ _ _ _ H) as HE.
  destruct st as [a1 v1]. cbn [fst snd] in *. unfold halve_thread. rewrite (proj2 (Z.leb_gt n_sol s)) by lia.
  set (v2 := if p =? 0 then (if Z.odd (vget 0 (d_exp2_accum a) s) then vset (if Z.odd (vget 0 (d_sign_counts a) s) then vset v1 s 0 else v1) s 0
    else (if Z.odd (vget 0 (d_sign_counts a) s) then vset v1 s 0 else v1)) else v1).
  assert (forall s', 0 <= s' -> vget 0 v2 s' = if (s =? s') && ((p =? 0) && (Z.odd (vget 0 (d_sign_counts a) s) || Z.odd (vget 0 (d_exp2_accum a) s))) then 0 else vget 0 v1 s') as HV2.
  { intros s' Hs'. unfold v2. destruct (p =? 0); [|by rewrite andb_false_r]. rewrite !clear_if by (rewrite ?length_clear; lia).
    by destruct (s =? s'), (Z.odd (vget 0 (d_sign_counts a) s)), (Z.odd (vget 0 (d_exp2_accum a) s)). }
  assert (length v2 = length v1) as L4 by (unfold v2; destruct (p =? 0); by rewrite ?length_clear).
  set (a2 := mkAccum (d_exp_matrix a1) (d_sign_counts a1) (if p =? 0 then vset (d_exp2_accum a1) s (Z.shiftr (vget 0 (d_exp2_accum a) s) 1) else d_exp2_accum a1)).
  assert ((if p =? 0 then
      (mkAccum (d_exp_matrix a1) (d_sign_counts a1) (vset (d_exp2_accum a1) s (Z.shiftr (vget 0 (d_exp2_accum a1) s) 1)),
       if Z.odd (vget 0 (d_exp2_accum a1) s) then vset (if Z.odd (vget 0 (d_sign_counts a1) s) then vset v1 s 0 else v1) s 0 else (if Z.odd (vget 0 (d_sign_counts a1) s) then vset v1 s 0 else v1))
      else (a1, v1)) = (a2, v2)) as ->.
  { unfold a2, v2. rewrite HS. destruct (Z.eqb_spec p 0) as [->|]; [by rewrite E2|]. by destruct a1; cbn in *; subst. }
  assert (forall s' w, (forall s', 0 <= s' -> vget 0 w s' = if (s =? s') && odd_count a fb_size (p, s) then 0 else vget 0 v1 s') -> 0 <= s' < n_sol ->
    vget 0 w s' = if existsb (fun t => (t.2 =? s') && odd_count a fb_size t) (l ++ [(p, s)]) then 0 else vget 0 d_valid s') as HW.
  { intros s' w Hw Hs'. rewrite Hw, existsb_app, HV by lia. cbn [existsb snd]. rewrite orb_false_r.
    destruct (existsb _ l), (s =? s'), (odd_count a fb_size (p, s)); done. }
  assert (length (if p =? 0 then vset (d_exp2_accum a1) s (Z.shiftr (vget 0 (d_exp2_accum a) s) 1) else d_exp2_accum a1) = length (d_exp2_accum a)) as L5
    by (destruct (p =? 0); rewrite ?length_vset; done).
  destruct (Z.leb_spec fb_size p) as [Hle|Hlt].
  - constructor; cbn [fst snd d_exp_matrix d_sign_counts d_exp2_accum a2]; [lia|done|done| |].
    + intros s' p' Hs' Hp'. rewrite HE by done. apply decide_ext. rewrite elem_of_app, list_elem_of_singleton. split; [by left|]. intros [?|[= -> ->]]; [done|lia].
    + intros s' Hs'. apply HW; [|done]. intros s2 Hs2. rewrite HV2 by done. unfold odd_count. cbn [fst snd].
      rewrite (proj2 (Z.ltb_ge p fb_size)) by done. cbn [andb]. by rewrite orb_false_r.
  - destruct (halve_exp (a1, v1) p s l H Hs ltac:(lia) Hnot) as [EE NE]. cbn [fst] in EE, NE.
    assert (wrap 32 (wrap 32 (s * fb_size) + p) = s * fb_size + p) as -> by (rewrite !wrap_small by (unfold in_width; rewrite ?wrap_small by (unfold in_width; nia); nia); done).
    cbn [a2 d_exp_matrix d_sign_counts d_exp2_accum]. rewrite EE.
    constructor; cbn [fst snd d_exp_matrix d_sign_counts d_exp2_accum]; [rewrite length_vset, length_clear; lia|done|done|done|].
    intros s' Hs'. apply HW; [|done]. intros s2 Hs2. rewrite clear_if, HV2 by lia. unfold odd_count. cbn [fst snd].
    rewrite (proj2 (Z.ltb_lt p fb_size)) by done. cbn [andb].
    destruct (s =? s2), (p =? 0), (Z.odd (vget 0 (d_exp_matrix a) _)), (Z.odd (vget 0 (d_sign_counts a) s)), (Z.odd (vget 0 (d_exp2_accum a) s)); done.
Qed.

(** In whatever order the threads run: every count is halved, and a flag is cleared when a count was odd. *)
Lemma HalveExponents_spec threads :
  NoDup threads -> (forall p s, (p, s) ∈ threads -> 0 <= p /\ 0 <= s < n_sol) ->
  halved a d_valid n_sol fb_size threads (HalveExponents n_sol fb_size threads a d_valid).
Proof using Hfb Hcells Hexp He2 Hv.
  unfold HalveExponents. induction threads as [|[p s] l IH] using rev_ind; intros Hnd Hin.
  { constructor; try done. }
  rewrite foldl_snoc. apply NoDup_app in Hnd as (Hl & Hd & _). destruct (Hin p s) as [Hp Hs]; [set_solver|].
  apply halve_step; [|done|done|set_solver]. apply IH; [done|]. intros p' s' H'. apply Hin. set_solver.
Qed.
End halve.

(** ** Lemmas: exponentiation *)

Lemma mapM_Some {A B} (f : A -> option B) (g : A -> B) l : (forall x, x ∈ l -> f x = Some (g x)) -> mapM f l = Some (map g l).
Proof.
  induction l as [|x l IH]; intros H; [done|]. cbn [mapM map]. rewrite H by (apply elem_of_cons; by left).
  cbn [mbind option_bind]. rewrite IH by (intros y Hy; apply H, elem_of_cons; by right). done.
Qed.

Section exponentiation.
Context (mont : Montgomery) (Hmont : mont_ok mont).
Notation form := (mont_form mont).
Notation NN := (Montgomery.N mont).

Lemma window_table_form base w i :
  form base w -> 0 <= i < 15 -> form (dget (window_table mont base) i) (w ^ (i + 1)).
Proof using Hmont.
  intros Hb Hi. unfold window_table. change (2 ^ SQRT_WINDOW_BITS - 2) with 14.
  assert (let P := fun m t => Z.of_nat (length t) = m + 1 /\ forall j, 0 <= j <= m -> form (dget t j) (w ^ (j + 1)) in
    P 14 (foldl (fun table i => table ++ [mont_mul mont (dget table i) base]) [base] (upto 14))) as [_ H]; [|apply H; lia].
  apply foldl_upto; [lia| |].
  - split; [done|]. intros j Hj. assert (j = 0) as -> by lia. by rewrite Z.pow_1_r.
  - intros m t Hm [Hlen Ht]. split; [rewrite length_app; cbn [length]; lia|]. intros j Hj. unfold vget.
    destruct (decide (j = m + 1)) as [->|Hne].
    + rewrite app_nth2, (proj2 (Nat.sub_0_le _ _)) by lia. cbn [nth]. replace (m + 1 + 1) with (Z.succ (m + 1)) by lia.
      rewrite Z.pow_succ_r, Z.mul_comm by lia. apply mont_mul_form; [done|apply Ht; lia|done].
    + rewrite app_nth1 by lia. apply Ht. lia.
Qed.

Lemma window_value e k : 0 <= e -> 0 <= k -> Z.land (Z.shiftr e (4 * (k + 1) - 1 - 3)) 15 = (e / 2 ^ (4 * k)) mod 16.
Proof using Type.
  intros He Hk. replace (4 * (k + 1) - 1 - 3) with (4 * k) by lia. rewrite Z.shiftr_div_pow2 by lia.
  change 15 with (Z.ones 4). by rewrite Z.land_ones by lia.
Qed.

Lemma window_loop_form base w e k : forall fuel result,
  form base w -> 0 <= e -> (k <= fuel)%nat -> form result (w ^ (e / 2 ^ (4 * Z.of_nat k))) ->
  form (window_loop fuel mont (window_table mont base) e (4 * Z.of_nat k - 1) result) (w ^ e).
Proof using Hmont.
  induction k as [|k IH]; intros fuel result Hb He Hk Hr.
  - change (4 * Z.of_nat 0) with 0 in *. rewrite Z.pow_0_r, Z.div_1_r in Hr. by destruct fuel.
  - destruct fuel as [|f]; [lia|]. replace (Z.of_nat (S k)) with (Z.of_nat k + 1) in * by lia. cbn [window_loop].
    change (SQRT_WINDOW_BITS - 1) with 3. change (2 ^ SQRT_WINDOW_BITS - 1) with 15. rewrite (proj2 (Z.leb_le 3 _)), window_value by lia.
    change SQRT_WINDOW_BITS with 4. replace (4 * (Z.of_nat k + 1) - 1 - 4) with (4 * Z.of_nat k - 1) by lia. apply IH; [done|done|lia|].
    set (x := e / 2 ^ (4 * Z.of_nat k)). assert (e / 2 ^ (4 * (Z.of_nat k + 1)) = x / 16) as Ex.
    { unfold x. rewrite Z.div_div by lia. f_equal. rewrite Z.mul_add_distr_l, Z.pow_add_r by lia. done. }
    rewrite Ex in Hr. assert (0 <= x) by (apply Z.div_pos; lia). pose proof (Z.div_mod x 16 ltac:(lia)) as Ed. pose proof (Z.mod_pos_bound x 16 ltac:(lia)) as Hm.
    assert (0 <= x / 16) by (apply Z.div_pos; lia).
    assert (form (Nat.iter (Z.to_nat 4) (fun r => mont_mul mont r r) result) (w ^ (16 * (x / 16)))) as Hs.
    { rewrite Z.mul_comm, Z.pow_mul_r by lia. set (y := w ^ (x / 16)) in *. replace (y ^ 16) with ((((y * y) * (y * y)) * ((y * y) * (y * y))) * (((y * y) * (y * y)) * ((y * y) * (y * y)))) by ring.
      cbn. by repeat apply mont_mul_form. }
    destruct (Z.ltb_spec 0 (x mod 16)) as [Hw|Hw].
    + rewrite Ed at 2. rewrite Z.pow_add_r by lia. apply mont_mul_form; [done|done|].
      replace (x mod 16) with (x mod 16 - 1 + 1) at 2 by lia. apply window_table_form; [done|lia].
    + rewrite Ed. assert (x mod 16 = 0) as -> by lia. by rewrite Z.add_0_r.
Qed.

Lemma windowed_pow_form base w e : form base w -> 0 < e < 2 ^ 32 -> form (windowed_pow mont base e) (w ^ e).
Proof using Hmont.
  intros Hb He. unfold windowed_pow, top_position. change (Z.lnot (SQRT_WINDOW_BITS - 1)) with (Z.lnot (Z.ones 2)). change SQRT_WINDOW_BITS with 4.
  rewrite <- Z.ldiff_land, Z.ldiff_ones_r, Z.shiftl_mul_pow2, Z.shiftr_div_pow2 by lia. change (2 ^ 2) with 4.
  pose proof (Z.log2_nonneg e). pose proof (Z.log2_spec e ltac:(lia)) as [_ Hl]. assert (Z.log2 e < 32) by (apply Z.log2_lt_pow2; lia).
  set (k := (Z.log2 e + 4) / 4). pose proof (Z.div_mod (Z.log2 e + 4) 4 ltac:(lia)) as Ed. pose proof (Z.mod_pos_bound (Z.log2 e + 4) 4 ltac:(lia)). fold k in Ed.
  replace (k * 4 - 1) with (4 * Z.of_nat (Z.to_nat k) - 1) by lia. apply window_loop_form; [done|lia|lia|].
  rewrite Z.div_small, Z.pow_0_r; [by apply mont_one_form|]. split; [lia|]. eapply Z.lt_le_trans; [exact Hl|]. apply Z.pow_le_mono_r; lia.
Qed.

Lemma exp_step_form exps fbm fb_size s partial v p w :
  form partial v -> form (dget fbm p) w -> let e := vget 0 exps (wrap 32 (wrap 32 (s * fb_size) + p)) in in_width 32 e ->
  exists r, exp_step exps fbm mont fb_size s (Some partial) p = Some r /\ form r (v * w ^ e).
Proof using Hmont.
  intros Hv Hw e He. unfold exp_step. cbn [mbind option_bind]. fold e. unfold in_width in He.
  destruct (Z.eqb_spec e 0) as [->|]; [exists partial; split; [done|]; by rewrite Z.pow_0_r, Z.mul_1_r|].
  destruct (Z.eqb_spec e 1) as [->|]; [eexists; split; [done|]; rewrite Z.pow_1_r; by apply mont_mul_form|].
  destruct (Z.leb_spec e SQRT_WINDOW_THRESHOLD).
  - destruct (u512_one_ok e He) as [O E]. destruct (mont_pow_form mont Hmont _ (u512_of_u32 e) w Hw O) as (t & -> & Ft). rewrite E in Ft.
    cbn [mbind option_bind]. eexists. split; [done|]. by apply mont_mul_form.
  - eexists. split; [done|]. apply mont_mul_form; [done|done|]. apply windowed_pow_form; [done|lia].
Qed.

Lemma exp_steps_form exps fbm fb_size s (w e : Z -> Z) l : forall partial v,
  form partial v -> (forall p, p ∈ l -> form (dget fbm p) (w p) /\ vget 0 exps (wrap 32 (wrap 32 (s * fb_size) + p)) = e p /\ in_width 32 (e p)) ->
  exists r, foldl (exp_step exps fbm mont fb_size s) (Some partial) l = Some r /\ form r (v * zprod (map (fun p => w p ^ e p) l)).
Proof using Hmont.
  induction l as [|p l IH]; intros partial v Hv H; cbn [foldl map].
  { exists partial. split; [done|]. by rewrite zprod_nil, Z.mul_1_r. }
  destruct (H p) as (Hw & He & Wd); [apply elem_of_cons; by left|].
  destruct (exp_step_form exps fbm fb_size s partial v p (w p) Hv Hw) as (r & -> & Fr); [by rewrite He|].
  rewrite He in Fr. destruct (IH r _ Fr) as (r' & Er & Fr'); [intros q Hq; apply H, elem_of_cons; by right|].
  exists r'. split; [done|]. by rewrite zprod_cons, Z.mul_assoc.
Qed.

Lemma odd_land x : Z.odd x = negb (Z.land x 1 =? 0).
Proof using Type. by rewrite land_1_odd. Qed.

(** The block of a solution with halved exponents [e], halved exponent [e2] of two and sign count [sg]. *)
Lemma exponentiate_form a lpm fbm fb_size s (w e : Z -> Z) sg e2 L :
  0 <= fb_size -> (forall p, 0 <= p < fb_size -> form (dget fbm p) (w p) /\ vget 0 (d_exp_matrix a) (wrap 32 (wrap 32 (s * fb_size) + p)) = e p /\ in_width 32 (e p)) ->
  vget 0 (d_sign_counts a) s = sg -> 0 <= sg -> vget 0 (d_exp2_accum a) s = e2 -> in_width 32 e2 -> form (dget lpm s) L ->
  exists y, exponentiate a lpm fbm mont NN fb_size s = Some y /\ u512_reduced NN y /\
    u512_val y = ((-1) ^ (sg / 2) * 2 ^ e2 * zprod_upto fb_size (fun p => w p ^ e p) * L) mod u512_val NN.
Proof using Hmont.
  intros Hfb H Hsg Hsg0 He2 W2 HL. unfold exponentiate. change SQRT_EXP_THREADS with 256.
  set (run tid := foldl (exp_step (d_exp_matrix a) fbm mont fb_size s) (Some (mont_one mont)) (strided tid fb_size 256)).
  assert (forall tid, tid ∈ upto 256 -> exists r, run tid = Some r /\ form r (zprod (map (fun p => w p ^ e p) (strided tid fb_size 256)))) as Hrun.
  { intros tid Ht%elem_of_upto. rewrite <- (Z.mul_1_l (zprod _)). apply exp_steps_form; [by apply mont_one_form|].
    intros p Hp. apply H. by apply strided_bound in Hp. }
  rewrite (mapM_Some run (fun tid => default u512_zero (run tid))) by (intros tid Ht; by destruct (Hrun tid Ht) as (r & -> & _)).
  cbn [mbind option_bind].
  assert (form (tree_reduce mont (map (fun tid => default u512_zero (run tid)) (upto 256))) (zprod_upto fb_size (fun p => w p ^ e p))) as HY.
  { rewrite <- (zprod_strided fb_size 256) by lia. apply (tree_reduce_form mont Hmont _ _ 8); [lia|]. intros tid Ht.
    destruct (Hrun tid) as (r & -> & Fr); [by apply elem_of_upto|]. done. }
  set (Y0 := tree_reduce _ _) in *. clearbody Y0. rewrite Hsg, He2, odd_land.
  set (Y1 := if negb _ then _ else Y0). assert (form Y1 ((-1) ^ (sg / 2) * zprod_upto fb_size (fun p => w p ^ e p))) as HY1.
  { unfold Y1. rewrite neg_one_pow by (apply Z.div_pos; lia). destruct (_ =? 0); cbn [negb]; [by rewrite Z.mul_1_l|].
    replace (-1 * _) with (- zprod_upto fb_size (fun p => w p ^ e p)) by ring. by apply form_negate. }
  clearbody Y1.
  assert (exists Y2, (if 0 <? e2 then term2 ← mont_pow mont (mont_transform mont (u512_of_u32 2)) (u512_of_u32 e2); Some (mont_mul mont Y1 term2) else Some Y1) = Some Y2 /\
    form Y2 ((-1) ^ (sg / 2) * 2 ^ e2 * zprod_upto fb_size (fun p => w p ^ e p))) as (Y2 & -> & HY2).
  { unfold in_width in W2. destruct (Z.ltb_spec 0 e2).
    - destruct (u512_one_ok e2 W2) as [O E]. destruct (mont_pow_form mont Hmont _ (u512_of_u32 e2) 2 (form_u32 mont Hmont 2 ltac:(done)) O) as (t & -> & Ft).
      rewrite E in Ft. cbn [mbind option_bind]. eexists. split; [done|].
      replace ((-1) ^ (sg / 2) * 2 ^ e2 * _) with ((-1) ^ (sg / 2) * zprod_upto fb_size (fun p => w p ^ e p) * 2 ^ e2) by ring. by apply mont_mul_form.
    - assert (e2 = 0) as -> by lia. exists Y1. split; [done|]. by rewrite Z.pow_0_r, Z.mul_1_r. }
  cbn [mbind option_bind]. eexists. split; [done|]. apply form_value; [done|]. by apply mont_mul_form.
Qed.
End exponentiation.
