(* ===== verification/Refine.v ===== *)
(** Factor extraction on the device ([src/src/sqrt/sqrt_step.cu]: [BatchedGCDKernel],
    [decode_triangular], [RefineFactorsKernel], [BatchedGCD]): gcds of every solution, and the refinement
    of the pool of factors by pairwise gcds. The order in which the threads' atomic counters take effect
    is an argument of the kernels; [None] is fuel that ran out in a gcd. *)
From Stdlib Require Import ZArith Lia.
From stdpp Require Import base gmap sets list.
From S2P Require Import Prelude UInt512 UInt512Div MathUtils Gf2 Congruence SqrtStep SqrtKernels.
#[local] Open Scope Z_scope.

Definition REFINE_BLOCK_SIZE : Z := 128.
Definition MAX_POOL : Z := 64.
Definition MAX_REFINE_ROUNDS : nat := 8.

(** ** Gcds *)

(** The factor a thread stores, if any, and its status. *)
Definition gcd_thread (Xj Yj N : uint512) : option (option uint512 * Z) :=
  f1 ← gcd (abs_diff Xj Yj) N;
  if negb (trivial_factor N f1) then Some (Some f1, 1)
  else
    f2 ← gcd (add_mod Xj Yj N) N;
    if negb (trivial_factor N f2) then Some (Some f2, 2) else Some (None, 0).

Definition store_gcd (raw : list uint512 * list Z) (j : Z) (r : option uint512 * Z) : list uint512 * list Z :=
  (match r.1 with Some f => vset raw.1 j f | None => raw.1 end, vset raw.2 j r.2).

Definition BatchedGCDKernel (d_X d_Y : list uint512) (N : uint512) (n : Z) (d_factors : list uint512) (d_factor_status : list Z)
  : option (list uint512 * list Z) :=
  foldl (fun out j =>
           raw ← out;
           r ← gcd_thread (vget u512_zero d_X j) (vget u512_zero d_Y j) N;
           Some (store_gcd raw j r))
    (Some (d_factors, d_factor_status)) (upto n).

(** ** The pool *)

(** The while loop of [decode_triangular]; a row per step. *)
Fixpoint decode_loop (fuel : nat) (p m row acc : Z) : Z * Z :=
  match fuel with
  | O => (row, acc)
  | S f => if acc + (m - 1 - row) <=? p then decode_loop f p m (row + 1) (acc + (m - 1 - row)) else (row, acc)
  end.

Definition decode_triangular (p m : Z) : Z * Z :=
  let '(row, acc) := decode_loop (Z.to_nat m) p m 0 0 in (row, row + 1 + (p - acc)).

(** Insertion sort: the sorted prefix, last element first; larger elements shift up past [key]. *)
Fixpoint shift_in (key : uint512) (prefix : list uint512) : list uint512 :=
  match prefix with
  | [] => [key]
  | x :: rest => if u512_ltb key x then x :: shift_in key rest else key :: prefix
  end.

Definition insertion_sort (l : list uint512) : list uint512 := rev (foldl (fun prefix key => shift_in key prefix) [] l).

(** Entry [i] of a sorted array is dropped: equal to its neighbour, 1, or [N]. *)
Definition dropped (N : uint512) (l : list uint512) (i : Z) : bool :=
  ((0 <? i) && u512_eqb (vget u512_zero l i) (vget u512_zero l (i - 1))) || is_one (vget u512_zero l i) || u512_eqb (vget u512_zero l i) N.

(** The first pass compacts the pool in place. *)
Definition dedup_in_place (N : uint512) (pool : list uint512) : list uint512 :=
  let '(pool, write) :=
    foldl (fun st i => if dropped N st.1 i then st else (vset st.1 st.2 (vget u512_zero st.1 i), st.2 + 1))
      (pool, 0) (upto (Z.of_nat (length pool))) in
  take (Z.to_nat write) pool.

(** The later ones copy from the local array. *)
Definition dedup_into (N : uint512) (tmp : list uint512) : list uint512 :=
  foldl (fun pool i => if dropped N tmp i then pool
                       else if Z.of_nat (length pool) <? MAX_POOL then pool ++ [vget u512_zero tmp i] else pool)
    [] (upto (Z.of_nat (length tmp))).

(** ** A round *)

(** The split [(g, A / g, B / g)] that the thread [tid] finds, if any. *)
Definition split_of (pool : list uint512) (tid : Z) : option (option (uint512 * uint512 * uint512)) :=
  let '(i, j) := decode_triangular tid (Z.of_nat (length pool)) in
  let A := vget u512_zero pool i in
  let B := vget u512_zero pool j in
  g ← gcd A B;
  Some (if negb (is_one g) && negb (u512_eqb g A) && negb (u512_eqb g B) then Some (g, div A g, div B g) else None).

(** The splits of a round in the order of [s_split_count], the first [MAX_POOL] of them. *)
Definition round_splits (order : list Z) (pool : list uint512) : option (list (uint512 * uint512 * uint512)) :=
  let m := Z.of_nat (length pool) in
  let total_pairs := m * (m - 1) / 2 in
  found ← mapM (split_of pool) (List.filter (fun tid => tid <? total_pairs) order);
  Some (omap id found).

Definition add_fragment (N : uint512) (tmp : list uint512) (x : uint512) : list uint512 :=
  if negb (is_one x) && negb (u512_eqb x N) && (Z.of_nat (length tmp) <? MAX_POOL * 2) then tmp ++ [x] else tmp.

(** Mark the pool entries equal to [A] or [B]. *)
Definition involve (pool : list uint512) (A B : uint512) (involved : Z) : Z :=
  foldl (fun involved k => if u512_eqb (vget u512_zero pool k) A || u512_eqb (vget u512_zero pool k) B
                           then Z.lor involved (wrap 64 (Z.shiftl 1 k)) else involved)
    involved (upto (Z.of_nat (length pool))).

Definition apply_split (N : uint512) (pool : list uint512) (st : list uint512 * Z) (split : uint512 * uint512 * uint512) : list uint512 * Z :=
  let '(tmp, involved) := st in
  let '(g, a_dg, b_dg) := split in
  (add_fragment N (add_fragment N (add_fragment N tmp g) a_dg) b_dg, involve pool (mult g a_dg) (mult g b_dg) involved).

Definition rebuild_pool (N : uint512) (pool : list uint512) (splits : list (uint512 * uint512 * uint512)) : list uint512 :=
  let '(tmp, involved) := foldl (apply_split N pool) ([], 0) (take (Z.to_nat MAX_POOL) splits) in
  let tmp := foldl (fun tmp k => if (Z.land involved (wrap 64 (Z.shiftl 1 k)) =? 0) && (Z.of_nat (length tmp) <? MAX_POOL * 2)
                                 then tmp ++ [vget u512_zero pool k] else tmp)
               tmp (upto (Z.of_nat (length pool))) in
  dedup_into N (insertion_sort tmp).

(** At most one round per order in [orders]; the loop ends when a round finds no split. *)
Fixpoint refine_rounds (orders : list (list Z)) (N : uint512) (pool : list uint512) : option (list uint512) :=
  match orders with
  | [] => Some pool
  | order :: rest =>
      splits ← round_splits order pool;
      match splits with
      | [] => Some pool
      | _ => refine_rounds rest N (rebuild_pool N pool splits)
      end
  end.

(** ** The kernel and its caller *)

Definition RefineFactorsKernel (order : list Z) (orders : list (list Z)) (d_factors : list uint512) (d_factor_status : list Z)
    (N : uint512) (n : Z) : option (list uint512) :=
  let pool := take (Z.to_nat MAX_POOL) (map (vget u512_zero d_factors)
                (List.filter (fun tid => (tid <? n) && negb (vget 0 d_factor_status tid =? 0)) order)) in
  match pool with
  | [] => Some []
  | _ => match dedup_in_place N (insertion_sort pool) with
         | [] => Some []
         | pool => refine_rounds orders N pool
         end
  end.

(** The exception, or the pair returned. *)
Inductive gcd_result := Threw | Pair (factor cofactor : uint512).

(** The scan of the raw factors, used when the refinement is empty. *)
Definition fallback (N : uint512) (factors : list uint512) (status : list Z) (n : Z) : gcd_result :=
  match List.find (fun j => negb (vget 0 status j =? 0) && u512_eqb (mult (vget u512_zero factors j) (div N (vget u512_zero factors j))) N) (upto n) with
  | Some j => Pair (vget u512_zero factors j) (div N (vget u512_zero factors j))
  | None => Pair (u512_of_u32 1) N
  end.

Definition BatchedGCD (order : list Z) (orders : list (list Z)) (N : uint512) (d_X d_Y : list uint512) (n : Z) (d_factors : list uint512)
  : option gcd_result :=
  if 1024 <? n then Some Threw
  else
    raw ← BatchedGCDKernel d_X d_Y N n d_factors (replicate (Z.to_nat n) 0);
    refined ← RefineFactorsKernel order orders raw.1 raw.2 N n;
    Some (match refined with
          | factor :: _ => Pair factor (div N factor)
          | [] => fallback N raw.1 raw.2 n
          end).

(** ** Vocabulary of the specifications *)

(** A proper divisor. *)
Definition proper (N x : uint512) : Prop := u512_ok x /\ 1 < u512_val x < u512_val N /\ (u512_val x | u512_val N).

(** A schedule: the threads of the block in some order, for the compaction and for every round. *)
Definition schedule (order : list Z) (orders : list (list Z)) : Prop :=
  order ≡ₚ upto REFINE_BLOCK_SIZE /\ Forall (fun o => o ≡ₚ upto REFINE_BLOCK_SIZE) orders /\ length orders = MAX_REFINE_ROUNDS.

(** What the passes keep: neither 1 nor [N]. *)
Definition nontrivial (N x : uint512) : Prop := u512_val x <> 1 /\ u512_val x <> u512_val N.

(** A fragment of a split: a divisor below [N]. *)
Definition fragment (N x : uint512) : Prop := u512_ok x /\ 1 <= u512_val x < u512_val N /\ (u512_val x | u512_val N).

(** A split, and what is kept of it. *)
Definition split_ok (N : uint512) (s : uint512 * uint512 * uint512) : Prop := proper N s.1.1 /\ fragment N s.1.2 /\ fragment N s.2.

Definition kept_piece (N x : uint512) : Prop := fragment N x /\ nontrivial N x.

(** One gcd of a solution is a proper factor. *)
Definition yields_factor (N X Y : uint512) : Prop :=
  1 < Z.gcd (u512_val X - u512_val Y) (u512_val N) < u512_val N \/ 1 < Z.gcd (u512_val X + u512_val Y) (u512_val N) < u512_val N.

(** ** Vocabulary of the specifications *)

Definition identity_orders : list (list Z) := replicate MAX_REFINE_ROUNDS (upto REFINE_BLOCK_SIZE).

(** ** Lemmas: the triangular indices *)

Lemma decode_loop_spec m p : 2 * p < m * (m - 1) -> forall fuel row acc,
  0 <= row <= m -> Z.of_nat fuel = m - row -> 2 * acc = row * (2 * m - row - 1) -> acc <= p ->
  let '(row', acc') := decode_loop fuel p m row acc in
  0 <= row' < m - 1 /\ 2 * acc' = row' * (2 * m - row' - 1) /\ acc' <= p < acc' + (m - 1 - row').
Proof.
  intros Hp. induction fuel as [|f IH]; intros row acc Hrow Hf Hacc Hle; cbn [decode_loop].
  { assert (row = m) as -> by lia. nia. }
  destruct (Z.leb_spec (acc + (m - 1 - row)) p) as [H|H]; [|lia].
  apply IH; [|lia|nia|done]. lia.
Qed.

Lemma decode_triangular_spec m p :
  0 <= m -> 0 <= p < m * (m - 1) / 2 ->
  let '(i, j) := decode_triangular p m in 0 <= i < j /\ j < m /\ 2 * p = i * (2 * m - i - 1) + 2 * (j - i - 1).
Proof.
  intros Hm Hp. assert (2 * p < m * (m - 1)) as Hp2 by (pose proof (Z.mul_div_le (m * (m - 1)) 2 ltac:(lia)); lia).
  pose proof (decode_loop_spec m p Hp2 (Z.to_nat m) 0 0 ltac:(lia) ltac:(lia) ltac:(lia) ltac:(lia)) as H.
  unfold decode_triangular. destruct (decode_loop _ _ _ _ _) as [row acc]. lia.
Qed.

(** Every pair is decoded from one index. *)
Lemma decode_triangular_surj m i j :
  0 <= i < j -> j < m -> exists p, 0 <= p < m * (m - 1) / 2 /\ decode_triangular p m = (i, j).
Proof.
  intros Hi Hj. assert (exists a, 2 * a = i * (2 * m - i - 1)) as [a Ha].
  { exists (i * (2 * m - i - 1) / 2). rewrite <- Z_div_exact_2; [done|lia|]. rewrite Zmod_even.
    replace (i * (2 * m - i - 1)) with (2 * (i * m) - i * (i + 1)) by ring. rewrite Z.even_sub, !Z.even_mul, Z.even_add. cbn. by destruct (Z.even i). }
  exists (a + (j - i - 1)). assert (0 <= a) by nia.
  assert (0 <= a + (j - i - 1) < m * (m - 1) / 2) as Hp.
  { split; [lia|]. apply Z.lt_le_trans with (a + (j - i - 1) + 1); [lia|]. apply Z.div_le_lower_bound; [lia|].
    assert (m * (m - 1) - i * (2 * m - i - 1) = (m - i) * (m - i - 1)) by ring. nia. }
  split; [done|]. pose proof (decode_triangular_spec m (a + (j - i - 1)) ltac:(lia) Hp) as Hd.
  destruct (decode_triangular _ _) as [i' j']. destruct Hd as (H1 & H2 & H3).
  assert (i' = i) as ->; [|f_equal; lia].
  clear Hp H. destruct (Z.lt_trichotomy i' i) as [Hlt|[|Hgt]]; [|done|]; exfalso.
  - pose proof (Z.mul_nonneg_nonneg (i - i' - 1) (2 * m - 2 - i - i') ltac:(lia) ltac:(lia)). lia.
  - pose proof (Z.mul_nonneg_nonneg (i' - i - 1) (2 * m - 2 - i - i') ltac:(lia) ltac:(lia)). lia.
Qed.

(** ** Lemmas: sorting and removing duplicates *)

Lemma shift_in_perm key p : shift_in key p ≡ₚ key :: p.
Proof. induction p as [|x p IH]; [done|]. cbn [shift_in]. destruct (u512_ltb key x); [|done]. by rewrite IH, Permutation_swap. Qed.

Lemma insertion_sort_perm l : insertion_sort l ≡ₚ l.
Proof.
  unfold insertion_sort. rewrite <- Permutation_rev. rewrite <- (app_nil_r l) at 2. generalize (@nil uint512).
  induction l as [|x l IH]; intros acc; [done|]. cbn [foldl app]. rewrite IH, shift_in_perm. by rewrite Permutation_middle.
Qed.

Lemma dget_in (l : list uint512) i : 0 <= i < Z.of_nat (length l) -> vget u512_zero l i ∈ l.
Proof. intros Hi. unfold vget. apply list_elem_of_In, nth_In. lia. Qed.

Lemma in_dget (l : list uint512) x : x ∈ l -> exists i, 0 <= i < Z.of_nat (length l) /\ vget u512_zero l i = x.
Proof.
  intros [i Hi]%list_elem_of_lookup. exists (Z.of_nat i). pose proof (lookup_lt_Some _ _ _ Hi). split; [lia|].
  unfold vget. rewrite Nat2Z.id. by apply nth_lookup_Some.
Qed.

Section dedup.
Context (N : uint512) (HN : u512_ok N).

Lemma kept_nontrivial l i : u512_ok (vget u512_zero l i) -> dropped N l i = false -> nontrivial N (vget u512_zero l i).
Proof using HN.
  intros Hi. unfold dropped. rewrite !orb_false_iff, is_one_spec, (u512_eqb_val _ N), !Z.eqb_neq by done. intros [[_ H1] H2]. done.
Qed.

Lemma dropped_nontrivial l i :
  u512_ok (vget u512_zero l i) -> u512_ok (vget u512_zero l (i - 1)) -> dropped N l i = true -> nontrivial N (vget u512_zero l i) ->
  0 < i /\ vget u512_zero l (i - 1) = vget u512_zero l i.
Proof using HN.
  intros Hi Hi' H [H1 H2]. unfold dropped in H. rewrite is_one_spec, (u512_eqb_val _ N), !orb_true_iff, !Z.eqb_eq, andb_true_iff, Z.ltb_lt in H by done.
  destruct H as [[[H3 H4]|H4]|H4]; [|done|done]. split; [done|]. symmetry. by apply u512_eqb_spec.
Qed.

Lemma zero_or_in l i : Forall u512_ok l -> u512_ok (vget u512_zero l i).
Proof using Type.
  intros H. unfold vget. destruct (decide (Z.to_nat i < length l)%nat) as [Hi|Hi].
  - rewrite Forall_forall in H. apply H. apply list_elem_of_In, nth_In. lia.
  - rewrite nth_overflow by lia. apply u512_zero_spec.
Qed.

Lemma dedup_into_spec tmp :
  Forall u512_ok tmp ->
  Forall (fun x => x ∈ tmp /\ nontrivial N x) (dedup_into N tmp) /\ (forall x, x ∈ tmp -> nontrivial N x -> dedup_into N tmp <> []).
Proof using HN.
  intros Hok. unfold dedup_into.
  assert (let P := fun i pool => Forall (fun x => x ∈ tmp /\ nontrivial N x) pool /\
    (forall k, 0 <= k < i -> nontrivial N (vget u512_zero tmp k) -> pool <> []) in
    P (Z.of_nat (length tmp)) (foldl (fun pool i => if dropped N tmp i then pool
      else if Z.of_nat (length pool) <? MAX_POOL then pool ++ [vget u512_zero tmp i] else pool) [] (upto (Z.of_nat (length tmp))))) as [H1 H2].
  { apply foldl_upto; [lia|split; [done|lia]|]. intros i pool Hi [H1 H2]. pose proof (zero_or_in tmp i Hok) as Oi. pose proof (zero_or_in tmp (i - 1) Hok) as Oi'.
    destruct (dropped N tmp i) eqn:Ed.
    - split; [done|]. intros k Hk Hn. destruct (decide (k = i)) as [->|]; [|by apply (H2 k); [lia|]].
      destruct (dropped_nontrivial tmp i Oi Oi' Ed Hn) as [Hpos E]. apply (H2 (i - 1)); [lia|by rewrite E].
    - pose proof (kept_nontrivial tmp i Oi Ed) as Hn. destruct (Z.ltb_spec (Z.of_nat (length pool)) MAX_POOL).
      + split; [apply Forall_app; split; [done|]; constructor; [split; [by apply dget_in|done]|constructor]|]. intros _ _ _ E. by apply app_eq_nil in E as [_ E].
      + split; [done|]. intros _ _ _ ->. cbn in *. unfold MAX_POOL in *. lia. }
  split; [done|]. intros x (k & Hk & <-)%in_dget Hn. by apply (H2 k).
Qed.

Lemma dedup_in_place_spec pool :
  Forall u512_ok pool ->
  Forall (fun x => x ∈ pool /\ nontrivial N x) (dedup_in_place N pool) /\ (forall x, x ∈ pool -> nontrivial N x -> dedup_in_place N pool <> []).
Proof using HN.
  intros Hok. unfold dedup_in_place. set (step := fun (st : list uint512 * Z) i => _).
  assert (let P := fun i (st : list uint512 * Z) => length st.1 = length pool /\ 0 <= st.2 <= i /\
    (forall k, st.2 <= k -> vget u512_zero st.1 k = vget u512_zero pool k) /\
    (forall k, 0 <= k < st.2 -> vget u512_zero st.1 k ∈ pool /\ nontrivial N (vget u512_zero st.1 k)) /\
    (forall k, 0 <= k < i -> nontrivial N (vget u512_zero pool k) -> 0 < st.2) in
    P (Z.of_nat (length pool)) (foldl step (pool, 0) (upto (Z.of_nat (length pool))))) as (H1 & H2 & H3 & H4 & H5).
  { apply foldl_upto; [lia|cbn; repeat split; lia|]. intros i [l w] Hi (L & Hw & Hsame & Hfront & Hsome). cbn [fst snd] in *.
    assert (vget u512_zero l i = vget u512_zero pool i) as Ei by (apply Hsame; lia).
    assert (u512_ok (vget u512_zero l i)) as Oi by (rewrite Ei; by apply zero_or_in).
    assert (u512_ok (vget u512_zero l (i - 1))) as Oi'.
    { destruct (decide (w <= i - 1)); [rewrite Hsame by done; by apply zero_or_in|]. destruct (decide (0 < i)).
      - destruct (Hfront (i - 1)) as [Hin _]; [lia|]. rewrite Forall_forall in Hok. by apply Hok.
      - assert (i = 0) as -> by lia. exact Oi. }
    unfold step. cbn [fst snd]. destruct (dropped N l i) eqn:Ed; cbn [fst snd].
    - split; [done|]. split; [lia|]. split; [done|]. split; [done|]. intros k Hk Hn. destruct (decide (k = i)) as [->|]; [|by apply (Hsome k); [lia|]].
      rewrite <- Ei in Hn. destruct (dropped_nontrivial l i Oi Oi' Ed Hn) as [Hpos E]. destruct (decide (w <= i - 1)); [|lia].
      apply (Hsome (i - 1)); [lia|]. rewrite <- Hsame by done. by rewrite E.
    - pose proof (kept_nontrivial l i Oi Ed) as Hn. rewrite length_vset. split; [done|]. split; [lia|]. split; [|split; [|lia]].
      + intros k Hk. rewrite vget_vset_ne by lia. apply Hsame. lia.
      + intros k Hk. destruct (decide (k = w)) as [->|].
        * rewrite vget_vset_eq by lia. split; [rewrite Ei; by apply dget_in|done].
        * rewrite vget_vset_ne by lia. apply Hfront. lia. }
  destruct (foldl step _ _) as [l w]. cbn [fst snd] in *. split.
  - apply Forall_forall. intros x Hx. apply list_elem_of_lookup in Hx as [k Hk]. pose proof (lookup_lt_Some _ _ _ Hk) as Hlt. rewrite length_take in Hlt.
    rewrite lookup_take_lt in Hk by lia. specialize (H4 (Z.of_nat k) ltac:(lia)). unfold vget in H4. rewrite Nat2Z.id, (nth_lookup_Some _ _ _ _ Hk) in H4. done.
  - intros x (k & Hk & <-)%in_dget Hn E. specialize (H5 k Hk Hn). apply (f_equal length) in E. rewrite length_take in E. cbn in E. lia.
Qed.
End dedup.

(** ** Lemmas: a round *)

Section rounds.
Context (N : uint512) (HN : u512_ok N) (HN1 : 1 < u512_val N).
Notation good_split := (split_ok N).
Notation piece := (kept_piece N).

Lemma proper_nontrivial x : proper N x -> nontrivial N x.
Proof using Type. intros (_ & [? ?] & _). split; lia. Qed.

Lemma fragment_proper x : fragment N x -> nontrivial N x -> proper N x.
Proof using Type. intros (Ox & Hx & Hd) [H1 _]. split; [done|]. split; [lia|done]. Qed.

Lemma proper_fragment x : proper N x -> fragment N x.
Proof using Type. intros (Ox & Hx & Hd). split; [done|]. split; [lia|done]. Qed.

(** The quotient of a proper divisor by a divisor. *)
Lemma quotient_fragment A g : proper N A -> u512_ok g -> (u512_val g | u512_val A) -> 1 < u512_val g -> fragment N (div A g).
Proof using Type.
  intros (OA & HA & HD) Og Hg Hg1. destruct (cofactor_spec A g OA Og Hg ltac:(lia)) as [Oq E]. pose proof (u512_bound _ Oq).
  split; [done|]. split; [nia|]. etransitivity; [|exact HD]. exists (u512_val g). lia.
Qed.

Lemma split_of_spec pool tid :
  Forall (proper N) pool -> 0 <= tid < Z.of_nat (length pool) * (Z.of_nat (length pool) - 1) / 2 ->
  exists r, split_of pool tid = Some r /\
  match r with
  | Some (g, a, b) => proper N g /\ fragment N a /\ fragment N b
  | None => let '(i, j) := decode_triangular tid (Z.of_nat (length pool)) in
      let A := u512_val (vget u512_zero pool i) in let B := u512_val (vget u512_zero pool j) in Z.gcd A B = 1 \/ (A | B) \/ (B | A)
  end.
Proof using Type.
  intros Hpool Htid. unfold split_of. pose proof (decode_triangular_spec (Z.of_nat (length pool)) tid ltac:(lia) Htid) as Hd.
  destruct (decode_triangular _ _) as [i j]. destruct Hd as (Hi & Hj & _). rewrite Forall_forall in Hpool.
  pose proof (Hpool _ (dget_in pool i ltac:(lia))) as HA. pose proof (Hpool _ (dget_in pool j ltac:(lia))) as HB.
  set (A := vget u512_zero pool i) in *. set (B := vget u512_zero pool j) in *. pose proof HA as (OA & BA & DA). pose proof HB as (OB & BB & DB).
  destruct (gcd_spec A B OA OB) as (g & -> & Og & Eg). cbn [mbind option_bind]. eexists. split; [done|].
  pose proof (Z.gcd_divide_l (u512_val A) (u512_val B)) as DgA. pose proof (Z.gcd_divide_r (u512_val A) (u512_val B)) as DgB. rewrite <- Eg in DgA, DgB.
  rewrite is_one_spec, !u512_eqb_val by done.
  destruct (Z.eqb_spec (u512_val g) 1); [left; congruence|]. destruct (Z.eqb_spec (u512_val g) (u512_val A)) as [E|]; [right; left; by rewrite <- E|].
  destruct (Z.eqb_spec (u512_val g) (u512_val B)) as [E|]; [right; right; by rewrite <- E|]. cbn [negb andb].
  pose proof (Z.gcd_nonneg (u512_val A) (u512_val B)). assert (u512_val g <> 0) by (intros E; rewrite E in DgA; apply Z.divide_0_l in DgA; lia).
  pose proof (Z.divide_pos_le (u512_val g) (u512_val A) ltac:(lia) DgA). split; [|split; apply quotient_fragment; (done || lia)].
  split; [done|]. split; [lia|]. by transitivity (u512_val A).
Qed.

Lemma order_range order tid : order ≡ₚ upto REFINE_BLOCK_SIZE -> tid ∈ order -> 0 <= tid < 128.
Proof using Type. intros H Ht. rewrite H in Ht. by apply elem_of_upto. Qed.

Lemma round_splits_spec order pool :
  Forall (proper N) pool -> order ≡ₚ upto REFINE_BLOCK_SIZE ->
  exists splits, round_splits order pool = Some splits /\ Forall good_split splits /\
  (splits = [] -> forall tid, 0 <= tid < 128 -> tid < Z.of_nat (length pool) * (Z.of_nat (length pool) - 1) / 2 -> split_of pool tid = Some None).
Proof using Type.
  intros Hpool Ho. unfold round_splits. set (total := _ / 2). set (tids := List.filter _ order).
  assert (forall tid, tid ∈ tids <-> 0 <= tid < 128 /\ tid < total) as Htids.
  { intros tid. unfold tids. rewrite list_elem_of_In, filter_In, <- list_elem_of_In, Ho, elem_of_upto, Z.ltb_lt. done. }
  assert (forall tid, tid ∈ tids -> exists r, split_of pool tid = Some r /\ match r with Some s => good_split s | None => True end) as Hs.
  { intros tid [Ht Hlt]%Htids. destruct (split_of_spec pool tid Hpool ltac:(fold total; lia)) as (r & -> & Hr). exists r. split; [done|].
    destruct r as [[[g a] b]|]; [exact Hr|done]. }
  rewrite (mapM_Some _ (fun tid => default None (split_of pool tid))) by (intros tid Ht; by destruct (Hs tid Ht) as (r & -> & _)).
  cbn [mbind option_bind]. eexists. split; [done|]. split.
  - apply Forall_forall. intros s Hin. apply list_elem_of_omap in Hin as (o & Ho' & E). cbn in E. subst o.
    apply list_elem_of_In, in_map_iff in Ho' as (tid & E & Ht). apply list_elem_of_In in Ht. destruct (Hs tid Ht) as (r & Er & Hr).
    rewrite Er in E. cbn in E. by subst r.
  - intros E tid H1 H2. assert (tid ∈ tids) as Ht by by apply Htids. destruct (Hs tid Ht) as (r & Er & _). rewrite Er. do 2 f_equal.
    destruct r as [s|]; [|done]. exfalso. assert (s ∈ omap id (map (fun tid => default None (split_of pool tid)) tids)) as Hin; [|rewrite E in Hin; by apply not_elem_of_nil in Hin].
    apply list_elem_of_omap. exists (Some s). split; [|done]. apply list_elem_of_In, in_map_iff. exists tid. rewrite Er. split; [done|]. by apply list_elem_of_In.
Qed.

Lemma add_fragment_piece tmp x : Forall piece tmp -> fragment N x -> Forall piece (add_fragment N tmp x) /\ (tmp <> [] -> add_fragment N tmp x <> []).
Proof using HN.
  intros Ht Hx. unfold add_fragment. destruct (_ && _) eqn:E; [|done]. split.
  - apply Forall_app. split; [done|]. constructor; [|constructor]. split; [done|].
    apply andb_true_iff in E as [E _]. apply andb_true_iff in E as [E1 E2]. rewrite negb_true_iff in E1, E2.
    rewrite is_one_spec, Z.eqb_neq in E1 by apply Hx. rewrite u512_eqb_val, Z.eqb_neq in E2 by (apply Hx || done). done.
  - intros _ E'. by apply app_eq_nil in E' as [_ ?].
Qed.

Lemma add_fragment_first g : proper N g -> add_fragment N [] g <> [].
Proof using HN.
  intros Hg. destruct (proper_nontrivial g Hg) as [H1 H2]. destruct Hg as (Og & _). unfold add_fragment.
  rewrite is_one_spec, u512_eqb_val by done. rewrite (proj2 (Z.eqb_neq _ _) H1), (proj2 (Z.eqb_neq _ _) H2). done.
Qed.

Lemma apply_splits_spec pool splits st :
  Forall good_split splits -> Forall piece st.1 ->
  let st' := foldl (apply_split N pool) st splits in
  Forall piece st'.1 /\ (st.1 <> [] \/ splits <> [] -> (length st.1 = 0%nat \/ st.1 <> []) -> st'.1 <> []).
Proof using HN.
  intros Hs. revert st. induction Hs as [|[[g a] b] splits (Hg & Ha & Hb) _ IH]; intros [tmp inv] Ht; cbn [foldl].
  { split; [done|]. intros [?|?] _; done. }
  cbn [fst snd] in *. unfold apply_split at 2 4.
  destruct (add_fragment_piece tmp g Ht (proper_fragment g Hg)) as [P1 Q1]. destruct (add_fragment_piece _ a P1 Ha) as [P2 Q2].
  destruct (add_fragment_piece _ b P2 Hb) as [P3 Q3].
  destruct (IH (add_fragment N (add_fragment N (add_fragment N tmp g) a) b, involve pool (mult g a) (mult g b) inv) P3) as [I1 I2]. cbn [fst] in *.
  split; [done|]. intros _ H. assert (add_fragment N (add_fragment N (add_fragment N tmp g) a) b <> []) as Hne; [|apply I2; [by left|by right]].
  apply Q3, Q2. destruct H as [H|H]; [|by apply Q1]. apply nil_length_inv in H. subst. by apply add_fragment_first.
Qed.

Lemma rebuild_pool_spec pool splits :
  Forall (proper N) pool -> Forall good_split splits -> splits <> [] ->
  Forall (proper N) (rebuild_pool N pool splits) /\ rebuild_pool N pool splits <> [].
Proof using HN.
  intros Hpool Hs Hne. unfold rebuild_pool.
  destruct (apply_splits_spec pool (take (Z.to_nat MAX_POOL) splits) ([], 0)) as [P Q]; [by apply Forall_take|constructor|].
  destruct (foldl (apply_split N pool) _ _) as [tmp inv]. cbn [fst] in *.
  assert (tmp <> []) as Hn by (apply Q; [right; by destruct splits|by left]). clear Q Hs.
  set (tmp' := foldl _ tmp _).
  assert (Forall piece tmp' /\ tmp' <> []) as [P' Hn'].
  { unfold tmp'. apply (foldl_upto (fun _ t => Forall piece t /\ t <> [])); [lia|done|]. intros k t Hk [H1 H2]. destruct (_ && _); [|done].
    split; [|intros E; by apply app_eq_nil in E as [_ ?]]. apply Forall_app. split; [done|]. constructor; [|constructor].
    rewrite Forall_forall in Hpool. pose proof (Hpool _ (dget_in pool k Hk)) as Hp. split; [by apply proper_fragment|by apply proper_nontrivial]. }
  assert (Forall piece (insertion_sort tmp')) as P2 by by rewrite insertion_sort_perm.
  destruct (dedup_into_spec N HN (insertion_sort tmp')) as [D1 D2]; [eapply Forall_impl; [exact P2|]; by intros x [[? _] _]|].
  split.
  - eapply Forall_impl; [exact D1|]. intros x [Hin Hx]. rewrite Forall_forall in P2. by apply fragment_proper; [apply P2|].
  - destruct tmp' as [|x t] eqn:E; [done|]. apply (D2 x); [rewrite insertion_sort_perm; apply elem_of_cons; by left|]. by apply Forall_cons in P' as [[_ ?] _].
Qed.

Lemma refine_rounds_spec orders : forall pool,
  Forall (fun o => o ≡ₚ upto REFINE_BLOCK_SIZE) orders -> Forall (proper N) pool -> pool <> [] ->
  exists refined, refine_rounds orders N pool = Some refined /\ Forall (proper N) refined /\ refined <> [].
Proof using HN.
  induction orders as [|o orders IH]; intros pool Ho Hp Hne; cbn [refine_rounds]; [by exists pool|].
  apply Forall_cons in Ho as [Ho Hos]. destruct (round_splits_spec o pool Hp Ho) as (splits & -> & Hs & _). cbn [mbind option_bind].
  destruct splits as [|s splits]; [by exists pool|]. destruct (rebuild_pool_spec pool (s :: splits) Hp Hs ltac:(done)) as [R1 R2]. by apply IH.
Qed.

(** A round that finds nothing on a pool small enough for its threads leaves pairs that are coprime, or of which
    one divides the other. *)
Lemma no_split_spec order pool :
  Forall (proper N) pool -> order ≡ₚ upto REFINE_BLOCK_SIZE -> Z.of_nat (length pool) * (Z.of_nat (length pool) - 1) / 2 <= REFINE_BLOCK_SIZE ->
  round_splits order pool = Some [] -> forall i j, 0 <= i < j -> j < Z.of_nat (length pool) ->
  let A := u512_val (vget u512_zero pool i) in let B := u512_val (vget u512_zero pool j) in Z.gcd A B = 1 \/ (A | B) \/ (B | A).
Proof using Type.
  intros Hp Ho Hsmall E i j Hi Hj. destruct (round_splits_spec order pool Hp Ho) as (splits & E' & _ & H). rewrite E in E'. injection E' as <-.
  destruct (decode_triangular_surj _ i j Hi Hj) as (p & Hrange & Ed). specialize (H eq_refl p). change REFINE_BLOCK_SIZE with 128 in Hsmall.
  specialize (H ltac:(lia) ltac:(lia)). destruct (split_of_spec pool p Hp Hrange) as (r & Er & Hr). rewrite H in Er. injection Er as <-. by rewrite Ed in Hr.
Qed.

Lemma RefineFactorsKernel_spec order orders factors status n :
  schedule order orders -> (forall j, 0 <= j < n -> vget 0 status j <> 0 -> proper N (vget u512_zero factors j)) ->
  exists refined, RefineFactorsKernel order orders factors status N n = Some refined /\ Forall (proper N) refined /\
  ((exists j, 0 <= j < n /\ j < REFINE_BLOCK_SIZE /\ vget 0 status j <> 0) -> refined <> []) /\
  (refined <> [] -> exists j, 0 <= j < n /\ vget 0 status j <> 0).
Proof using HN.
  intros (Ho & Hos & _) Hf. unfold RefineFactorsKernel. set (found := List.filter _ order).
  assert (forall j, j ∈ found <-> 0 <= j < 128 /\ j < n /\ vget 0 status j <> 0) as Hfound.
  { intros j. unfold found. rewrite list_elem_of_In, filter_In, <- list_elem_of_In, Ho, elem_of_upto, andb_true_iff, Z.ltb_lt, negb_true_iff, Z.eqb_neq. done. }
  set (pool := take _ _). assert (Forall (proper N) pool) as Hp.
  { apply Forall_take, Forall_forall. intros x (j & <- & Hj)%list_elem_of_In%in_map_iff. apply list_elem_of_In, Hfound in Hj. apply Hf; [lia|apply Hj]. }
  assert ((exists j, 0 <= j < n /\ j < REFINE_BLOCK_SIZE /\ vget 0 status j <> 0) -> pool <> []) as Hne.
  { intros (j & H1 & H2 & H3). assert (j ∈ found) as Hj by (apply Hfound; unfold REFINE_BLOCK_SIZE in H2; split; [lia|split; [lia|done]]).
    unfold pool. destruct found; [by apply not_elem_of_nil in Hj|done]. }
  assert (pool <> [] -> exists j, 0 <= j < n /\ vget 0 status j <> 0) as Hback.
  { intros Hx. destruct found as [|j l] eqn:Ef; [done|]. destruct (proj1 (Hfound j)) as (H1 & H2 & H3); [apply elem_of_cons; by left|]. exists j. split; [lia|done]. }
  clearbody pool. destruct pool as [|x pool]; [exists []; split; [done|]; split; [constructor|]; done|]. clear Hne. specialize (Hback ltac:(done)).
  assert (Forall (proper N) (insertion_sort (x :: pool))) as Hps by by rewrite insertion_sort_perm.
  destruct (dedup_in_place_spec N HN (insertion_sort (x :: pool))) as [D1 D2]; [eapply Forall_impl; [exact Hps|]; by intros y [? _]|].
  assert (dedup_in_place N (insertion_sort (x :: pool)) <> []) as Hne.
  { apply (D2 x); [rewrite insertion_sort_perm; apply elem_of_cons; by left|]. apply Forall_cons in Hp as [? _]. by apply proper_nontrivial. }
  destruct (dedup_in_place N (insertion_sort (x :: pool))) as [|y l]; [done|].
  destruct (refine_rounds_spec orders (y :: l) Hos) as (refined & E & R1 & R2); [|done|by exists refined; split; [|split; [|split]]].
  eapply Forall_impl; [exact D1|]. intros z [Hz _]. rewrite Forall_forall in Hps. by apply Hps.
Qed.

Lemma gcd_thread_spec X Y :
  u512_reduced N X -> u512_reduced N Y ->
  exists r, gcd_thread X Y N = Some r /\
  match r.1 with Some f => r.2 <> 0 /\ proper N f /\ yields_factor N X Y | None => r.2 = 0 /\ ~ yields_factor N X Y end.
Proof using HN HN1.
  intros HX HY. unfold gcd_thread, yields_factor. destruct (both_gcds N X Y HN HN1 HX HY) as (f1 & f2 & -> & -> & O1 & O2 & V1 & V2).
  cbn [mbind option_bind]. rewrite !trivial_factor_spec, <- V1, <- V2 by done.
  assert (forall f a, u512_ok f -> u512_val f = Z.gcd a (u512_val N) -> (u512_val f =? 1) || (u512_val f =? u512_val N) = negb (bool_decide (1 < u512_val f < u512_val N)) /\
    (1 < u512_val f < u512_val N -> proper N f)) as Hg.
  { intros f a Of Vf. split.
    - destruct (decide (u512_val f = u512_val N)) as [E|Hne].
      + rewrite E, Z.eqb_refl, orb_true_r, bool_decide_false by lia. done.
      + pose proof (gcd_factor_bound a _ HN1 ltac:(congruence)) as Hb. rewrite <- Vf in Hb.
        rewrite (proj2 (Z.eqb_neq (u512_val f) (u512_val N))), orb_false_r by done.
        destruct (Z.eqb_spec (u512_val f) 1); [by rewrite bool_decide_false by lia|by rewrite bool_decide_true by lia].
    - intros H. split; [done|]. split; [done|]. rewrite Vf. apply Z.gcd_divide_r. }
  destruct (Hg f1 _ O1 V1) as [-> P1]. destruct (Hg f2 _ O2 V2) as [-> P2]. rewrite !negb_involutive.
  destruct (decide (1 < u512_val f1 < u512_val N)) as [H1|H1].
  - rewrite (bool_decide_true _ H1). eexists. split; [done|]. cbn. split; [done|]. split; [by apply P1|by left].
  - rewrite (bool_decide_false _ H1). destruct (decide (1 < u512_val f2 < u512_val N)) as [H2|H2].
    + rewrite (bool_decide_true _ H2). eexists. split; [done|]. cbn. split; [done|]. split; [by apply P2|by right].
    + rewrite (bool_decide_false _ H2). eexists. split; [done|]. cbn. split; [done|]. by intros [?|?].
Qed.

Lemma bind_Some {A B} (f : A -> option B) a : (Some a ≫= f) = f a.
Proof using Type. done. Qed.

Lemma BatchedGCDKernel_spec d_X d_Y n factors status :
  0 <= n -> n <= Z.of_nat (length factors) -> n <= Z.of_nat (length status) ->
  (forall j, 0 <= j < n -> u512_reduced N (vget u512_zero d_X j) /\ u512_reduced N (vget u512_zero d_Y j)) ->
  exists raw, BatchedGCDKernel d_X d_Y N n factors status = Some raw /\ forall j, 0 <= j < n ->
    (vget 0 raw.2 j <> 0 <-> yields_factor N (vget u512_zero d_X j) (vget u512_zero d_Y j)) /\ (vget 0 raw.2 j <> 0 -> proper N (vget u512_zero raw.1 j)).
Proof using HN HN1.
  intros Hn Lf Ls HXY. unfold BatchedGCDKernel. set (G := foldl _ _ _).
  assert (exists raw, G = Some raw /\ length raw.1 = length factors /\ length raw.2 = length status /\ forall j, 0 <= j < n ->
    (vget 0 raw.2 j <> 0 <-> yields_factor N (vget u512_zero d_X j) (vget u512_zero d_Y j)) /\ (vget 0 raw.2 j <> 0 -> proper N (vget u512_zero raw.1 j)))
    as (raw & E & _ & _ & H); [|by exists raw].
  unfold G. apply (foldl_upto (fun i out => exists raw, out = Some raw /\ length raw.1 = length factors /\ length raw.2 = length status /\ forall j, 0 <= j < i ->
    (vget 0 raw.2 j <> 0 <-> yields_factor N (vget u512_zero d_X j) (vget u512_zero d_Y j)) /\ (vget 0 raw.2 j <> 0 -> proper N (vget u512_zero raw.1 j)))); [done| |].
  - exists (factors, status). split; [done|]. split; [done|]. split; [done|lia].
  - intros i out Hi ([fs ss] & -> & L1 & L2 & H). destruct (HXY i Hi) as [HX HY].
    destruct (gcd_thread_spec _ _ HX HY) as ([o st] & -> & Hr). rewrite !bind_Some. eexists. split; [reflexivity|]. unfold store_gcd. cbn [fst snd] in *.
    rewrite length_vset. split; [by destruct o; rewrite ?length_vset|]. split; [done|]. intros j Hj. destruct (decide (j = i)) as [->|Hne].
    + rewrite vget_vset_eq by lia. destruct o as [f|].
      * destruct Hr as (H1 & H2 & H3). rewrite vget_vset_eq by lia. done.
      * destruct Hr as [-> H2]. split; [|done]. split; [done|]. intros H3. by destruct H2.
    + rewrite vget_vset_ne by lia. destruct (H j ltac:(lia)) as [H1 H2]. split; [exact H1|]. intros Hst. destruct o; [rewrite vget_vset_ne by lia|]; by apply H2.
Qed.

Lemma cofactor_product f : proper N f -> u512_ok (div N f) /\ u512_val f * u512_val (div N f) = u512_val N /\ u512_eqb (mult f (div N f)) N = true.
Proof using HN.
  intros (Of & Hf & Hd). destruct (cofactor_spec N f HN Of Hd ltac:(lia)) as [Oc E]. split; [done|]. split; [done|].
  destruct (mult_spec f (div N f) Of Oc) as [Om Vm]. apply u512_eqb_spec; [done|done|]. apply u512_val_inj; [done|done|]. rewrite Vm, E. apply wrap_small.
  pose proof (u512_bound _ HN). done.
Qed.

(** The pair returned for any solutions, in whatever order the atomics of the refinement take effect. *)
Lemma BatchedGCD_spec order orders d_X d_Y n factors :
  schedule order orders -> 0 <= n <= 1024 -> n <= Z.of_nat (length factors) ->
  (forall j, 0 <= j < n -> u512_reduced N (vget u512_zero d_X j) /\ u512_reduced N (vget u512_zero d_Y j)) ->
  exists f co, BatchedGCD order orders N d_X d_Y n factors = Some (Pair f co) /\ u512_ok f /\ u512_ok co /\ u512_val f * u512_val co = u512_val N /\
    1 <= u512_val f < u512_val N /\
    ((exists j, 0 <= j < n /\ yields_factor N (vget u512_zero d_X j) (vget u512_zero d_Y j)) <-> 1 < u512_val f).
Proof using HN HN1.
  intros Hsch Hn Lf HXY. unfold BatchedGCD. rewrite (proj2 (Z.ltb_ge 1024 n)) by lia.
  destruct (BatchedGCDKernel_spec d_X d_Y n factors (replicate (Z.to_nat n) 0)) as (raw & -> & Hraw); [lia|done|rewrite length_replicate; lia|done|].
  cbn [mbind option_bind]. destruct (RefineFactorsKernel_spec order orders raw.1 raw.2 n Hsch) as (refined & -> & Hp & _ & Hback); [intros j Hj; by apply Hraw|].
  cbn [mbind option_bind]. destruct refined as [|f refined].
  - unfold fallback. destruct (List.find _ _) as [j|] eqn:Ef.
    + apply List.find_some in Ef as [Hj Ht]. apply list_elem_of_In, elem_of_upto in Hj. apply andb_true_iff in Ht as [Hst _].
      rewrite negb_true_iff, Z.eqb_neq in Hst. destruct (Hraw j Hj) as [H1 H2]. destruct (cofactor_product _ (H2 Hst)) as (Oc & E & _).
      destruct (H2 Hst) as (Of & Bf & _). eexists _, _. split; [done|]. split; [done|]. split; [done|]. split; [done|]. split; [lia|].
      split; [lia|]. intros _. exists j. split; [done|by apply H1].
    + destruct u512_one as [O1 V1]. exists (u512_of_u32 1), N. split; [done|]. split; [done|]. split; [done|]. rewrite V1. split; [lia|]. split; [lia|].
      split; [|lia]. intros (j & Hj & Hy). destruct (Hraw j Hj) as [H1 H2]. apply H1 in Hy. exfalso.
      pose proof (List.find_none _ _ Ef j (proj1 (list_elem_of_In _ _) (proj2 (elem_of_upto _ _) Hj))) as Hf. cbn beta in Hf.
      destruct (cofactor_product _ (H2 Hy)) as (_ & _ & Em). rewrite Em, (proj2 (Z.eqb_neq _ _) Hy) in Hf. done.
  - apply Forall_cons in Hp as [Hf _]. destruct (cofactor_product f Hf) as (Oc & E & _). destruct Hf as (Of & Bf & Df). exists f, (div N f).
    split; [done|]. split; [done|]. split; [done|]. split; [done|]. split; [lia|]. split; [lia|]. intros _.
    destruct (Hback ltac:(done)) as (j & Hj & Hst). exists j. split; [done|]. by apply (proj1 (Hraw j Hj)).
Qed.
End rounds.

(** ** Properties *)

(** C28. The factor extraction of the device: for any solutions (at most 1024) and any order of the
    threads' atomic counters, refinement included, it returns two numbers with product [N], the first a proper factor
    exactly when some gcd of some solution is one. *)
Theorem BatchedGCD_finds N order orders d_X d_Y n factors :
  u512_ok N -> 1 < u512_val N -> schedule order orders -> 0 <= n <= 1024 -> n <= Z.of_nat (length factors) ->
  (forall j, 0 <= j < n -> u512_reduced N (vget u512_zero d_X j) /\ u512_reduced N (vget u512_zero d_Y j)) ->
  exists f co, BatchedGCD order orders N d_X d_Y n factors = Some (Pair f co) /\ u512_val f * u512_val co = u512_val N /\
    1 <= u512_val f < u512_val N /\
    ((exists j, 0 <= j < n /\ yields_factor N (vget u512_zero d_X j) (vget u512_zero d_Y j)) <-> 1 < u512_val f).
Proof.
  intros HN HN1 Hs Hn Hl HXY. destruct (BatchedGCD_spec N HN HN1 order orders d_X d_Y n factors Hs Hn Hl HXY) as (f & co & E & _ & _ & H1 & H2 & H3).
  by exists f, co.
Qed.

Lemma identity_schedule : schedule (upto REFINE_BLOCK_SIZE) identity_orders.
Proof. split; [done|]. split; [by apply Forall_replicate|apply length_replicate]. Qed.

Lemma reduced_105 : Forall (fun p : uint512 * uint512 => u512_reduced (u512_of_Z 105) p.1 /\ u512_reduced (u512_of_Z 105) p.2)
  [(u512_of_Z 2, u512_of_Z 103); (u512_of_Z 11, u512_of_Z 4)].
Proof. repeat constructor; cbn [fst snd]; first [apply u512_of_Z_spec|by vm_compute]. Qed.

(** The solutions (2, 103), trivial, and (11, 4), which splits 105. *)
Lemma BatchedGCD_finds_witness :
  exists f co, BatchedGCD (upto REFINE_BLOCK_SIZE) identity_orders (u512_of_Z 105) [u512_of_Z 2; u512_of_Z 11] [u512_of_Z 103; u512_of_Z 4] 2 [u512_zero; u512_zero]
    = Some (Pair f co) /\ u512_val f * u512_val co = 105 /\ 1 < u512_val f.
Proof.
  destruct (BatchedGCD_finds (u512_of_Z 105) (upto REFINE_BLOCK_SIZE) identity_orders [u512_of_Z 2; u512_of_Z 11] [u512_of_Z 103; u512_of_Z 4] 2 [u512_zero; u512_zero])
    as (f & co & E & H1 & _ & H3).
  - apply u512_of_Z_spec.
  - reflexivity.
  - exact identity_schedule.
  - lia.
  - cbn [length]. lia.
  - intros j Hj. pose proof reduced_105 as H. assert (j = 0 \/ j = 1) as [->| ->] by lia.
    + exact (Forall_inv H).
    + exact (Forall_inv (Forall_inv_tail H)).
  - exists f, co. split; [exact E|]. split; [exact H1|]. apply H3. exists 1. split; [lia|]. left. vm_compute. split; reflexivity.
Defined.

(** The refined pool need not be pairwise coprime: a pair of which one divides the other is not split. *)
Lemma refined_not_coprime :
  RefineFactorsKernel (upto REFINE_BLOCK_SIZE) identity_orders [u512_of_Z 3; u512_of_Z 15] [1; 1] (u512_of_Z 105) 2 = Some [u512_of_Z 3; u512_of_Z 15].
Proof. by vm_compute. Qed.
