(* ===== verification/SqrtDevice.v ===== *)
(** The batched square-root step as the host drives it ([src/src/sqrt/sqrt_step.cu]:
    [allocateDeviceBuffers], [ComputeXBatchedGPU], [ComputeYBatchedGPU], [ApplyLPCorrection]; the device path of
    [SquareRootStage] in [orchestrator.cpp]), and its agreement with the host path of [SqrtStep]. What a fresh
    allocation holds is arbitrary, and so is the order of blocks, threads and atomic additions. Calls of the CUDA
    runtime succeed. *)
From Stdlib Require Import ZArith Lia.
From stdpp Require Import base gmap sets list.
From S2P Require Import Prelude UInt512 UInt512Div Montgomery MathUtils Soa Gf2 Batches RowOps Congruence SqrtStep ExpandedMatrix Factorization SqrtKernels Refine.
#[local] Open Scope Z_scope.

(** ** Device buffers *)

(** The buffers whose contents outlive a call, with the sizes of the allocation. *)
Record DeviceBuffers := mkBuffers {
  d_X : list uint512;
  d_Y : list uint512;
  d_valid : list Z;
  d_factor_base_mont : list uint512;
  d_factors : list uint512;
  max_K : Z;
  max_nnz : Z;
  max_fb : Z;
  max_n : Z;
  allocated : bool;
  fb_transformed : bool
}.

Definition no_buffers : DeviceBuffers := mkBuffers [] [] [] [] [] 0 0 0 0 false false.

(** [static_cast<uint32_t>(n * 1.5)]. *)
Definition with_margin (n : Z) : Z := n * 3 / 2.

Section device.
(** What an allocation of a given length holds. *)
Context (fresh : Z -> list uint512) (freshZ : Z -> list Z).

Definition allocateDeviceBuffers (K nnz fb n : Z) (bufs : DeviceBuffers) : DeviceBuffers :=
  if allocated bufs && (K <=? max_K bufs) && (nnz <=? max_nnz bufs) && (fb <=? max_fb bufs) && (n <=? max_n bufs) then bufs
  else
    mkBuffers (fresh (with_margin n)) (fresh (with_margin n)) (freshZ (with_margin n)) (fresh (with_margin fb)) (fresh (with_margin n))
      (with_margin K) (with_margin nnz) (with_margin fb) (with_margin n) true false.

(** [max_chunks * max_n] and [max_n * max_fb], products in 32 bits. *)
Definition partials_size (bufs : DeviceBuffers) : Z := wrap 32 (blocks_for (max_K bufs) SQRT_CHUNK_SIZE * max_n bufs).

Definition exp_matrix_size (bufs : DeviceBuffers) : Z := wrap 32 (max_n bufs * max_fb bufs).

(** [cudaMemset] of the first [n] entries. *)
Definition memset {A} (l : list A) (n : Z) (v : A) : list A := replicate (Z.to_nat n) v ++ drop (Z.to_nat n) l.

(** ** The calls *)

Definition ComputeXBatchedGPU (blocks : list (Z * Z)) (N : uint512) (solutions : BWKernelSolutionView) (batch : HostRelationBatch)
    (bufs : DeviceBuffers) : DeviceBuffers :=
  let K := wrap 32 (num_relations batch) in
  let n := num_solutions solutions in
  let bufs := allocateDeviceBuffers K (wrap 32 (num_factors batch)) 0 n bufs in
  let mont := Montgomery_init N in
  let sqrt_Q_mont := TransformSqrtQ (sqrt_Q batch) mont K (fresh (max_K bufs)) in
  let n_chunks := blocks_for K SQRT_CHUNK_SIZE in
  let partials := ComputeX_ChunkReduce sqrt_Q_mont solutions mont K SQRT_CHUNK_SIZE blocks (fresh (partials_size bufs)) in
  mkBuffers (FinalReduce partials mont n_chunks n true (d_X bufs)) (d_Y bufs) (d_valid bufs) (d_factor_base_mont bufs) (d_factors bufs)
    (max_K bufs) (max_nnz bufs) (max_fb bufs) (max_n bufs) (allocated bufs) (fb_transformed bufs).

(** The orders in which one call of [ComputeYBatchedGPU] runs. *)
Record y_order := mkYOrder {
  lp_blocks : list (Z * Z);
  additions : list (cell * Z);
  halvings : list (Z * Z)
}.

Definition ComputeYBatchedGPU (order : y_order) (N : uint512) (solutions : BWKernelSolutionView) (batch : HostRelationBatch)
    (factor_base : list Z) (bufs : DeviceBuffers) : option DeviceBuffers :=
  let K := wrap 32 (num_relations batch) in
  let n := num_solutions solutions in
  let fb_size := wrap 32 (Z.of_nat (length factor_base)) in
  let bufs := allocateDeviceBuffers K (wrap 32 (num_factors batch)) fb_size n bufs in
  let mont := Montgomery_init N in
  let fbm := if fb_transformed bufs then d_factor_base_mont bufs
             else TransformFactorBase (map (wrap 32) factor_base) mont fb_size (d_factor_base_mont bufs) in
  let counts := mkAccum (memset (freshZ (exp_matrix_size bufs)) (n * fb_size) 0) (memset (freshZ (max_n bufs)) n 0) (memset (freshZ (max_n bufs)) n 0) in
  let valid := memset (d_valid bufs) n 1 in
  let Y := memset (d_Y bufs) n u512_zero in
  let n_chunks := blocks_for K SQRT_CHUNK_SIZE in
  let lp_mont := TransformLargePrimes (large_primes batch) mont K (fresh (max_K bufs)) in
  let partials := ComputeX_ChunkReduce lp_mont solutions mont K SQRT_CHUNK_SIZE (lp_blocks order) (fresh (partials_size bufs)) in
  let Y_lp := FinalReduce partials mont n_chunks n false (fresh (max_n bufs)) in
  let counts := AccumExponents_Parallel (additions order) counts in
  let '(counts, valid) := HalveExponents n fb_size (halvings order) counts valid in
  Y ← BatchedExponentiateY counts Y_lp fbm valid mont N n fb_size Y;
  Some (mkBuffers (d_X bufs) Y valid fbm (d_factors bufs) (max_K bufs) (max_nnz bufs) (max_fb bufs) (max_n bufs) (allocated bufs) true).

Definition ApplyLPCorrection (N : uint512) (correction_mont : list uint512) (n_solutions : Z) (bufs : DeviceBuffers) : DeviceBuffers :=
  mkBuffers (d_X bufs) (ApplyLPCorrectionKernel (d_Y bufs) correction_mont (Montgomery_init N) n_solutions) (d_valid bufs) (d_factor_base_mont bufs)
    (d_factors bufs) (max_K bufs) (max_nnz bufs) (max_fb bufs) (max_n bufs) (allocated bufs) (fb_transformed bufs).

(** ** The device path of [SquareRootStage] *)

(** The solutions, packed row after row. *)
Definition pack_solutions (kernel_solutions : list (list Z)) (num_relations : Z) : BWKernelSolutionView :=
  let n_sol := wrap 32 (Z.of_nat (length kernel_solutions)) in
  let n_rows := wrap 32 num_relations in
  let wpv := wrap 32 (n_rows + 63) / 64 in
  let packed := foldl (fun packed j => write_at packed (j * wpv) (take (Z.to_nat wpv) (nth (Z.to_nat j) kernel_solutions [])))
                  (replicate (Z.to_nat (n_sol * wpv)) 0) (upto n_sol) in
  mkView packed n_sol wpv n_rows.

(** Everything that is not determined by the inputs. *)
Record device_order := mkOrder {
  x_blocks : list (Z * Z);
  y_orders : y_order;
  refine_order : list Z;
  refine_orders : list (list Z)
}.

(** [X], [Y] and the pair of [BatchedGCD]; [corrections] is empty when there is none. *)
Definition device_roots (o : device_order) (N : uint512) (kernel_solutions : list (list Z)) (corrections : list uint512)
    (relations : HostRelationBatch) (factor_base : list Z) : option DeviceBuffers :=
  let sol_view := pack_solutions kernel_solutions (num_relations relations) in
  let bufs := allocateDeviceBuffers (wrap 32 (num_relations relations)) (wrap 32 (num_factors relations)) (wrap 32 (Z.of_nat (length factor_base)))
                (num_solutions sol_view) no_buffers in
  let bufs := ComputeXBatchedGPU (x_blocks o) N sol_view relations bufs in
  bufs ← ComputeYBatchedGPU (y_orders o) N sol_view relations factor_base bufs;
  Some (match corrections with [] => bufs | _ => ApplyLPCorrection N corrections (wrap 32 (Z.of_nat (length corrections))) bufs end).

(** The stage: the device's pair if it is proper and multiplies to [N], or else the loop of the host. *)
Definition square_root_stage (o : device_order) (N : uint512) (kernel_solutions : list (list Z)) (corrections : list uint512)
    (relations : HostRelationBatch) (factor_base : list Z) : option (option gcd_result) :=
  bufs ← device_roots o N kernel_solutions corrections relations factor_base;
  r ← BatchedGCD (refine_order o) (refine_orders o) N (d_X bufs) (d_Y bufs) (Z.of_nat (length kernel_solutions)) (d_factors bufs);
  match r with
  | Threw => Some (Some Threw)
  | Pair f1 f2 =>
      if negb (is_zero f1) && negb (is_zero f2) && negb (is_one f1) && negb (u512_eqb f1 N) && u512_eqb (mult f1 f2) N then Some (Some (Pair f1 f2))
      else
        r ← try_solutions N relations factor_base
              (map (fun j => (nth (Z.to_nat j) kernel_solutions [], if j <? Z.of_nat (length corrections) then Some (vget u512_zero corrections j) else None))
                 (upto (Z.of_nat (length kernel_solutions))));
        Some (match r with Some (f1, f2) => Some (Pair f1 f2) | None => None end)
  end.
End device.

(** ** Vocabulary of the specifications *)

(** The products of sizes that the code forms in 32 bits do not overflow. *)
Record fits (K nnz fb n : Z) : Prop := mkFits {
  ft_K : 0 <= K /\ with_margin K + 255 < 2 ^ 32;
  ft_nnz : 0 <= nnz < 2 ^ 32;
  ft_fb : 0 < fb /\ with_margin fb + 255 < 2 ^ 32;
  ft_n : 0 < n /\ with_margin n + 255 < 2 ^ 32;
  ft_exp : with_margin n * with_margin fb < 2 ^ 32;
  ft_partials : blocks_for (with_margin K) SQRT_CHUNK_SIZE * with_margin n < 2 ^ 32
}.

(** Buffers large enough for a problem; a factor base that is marked as transformed is. *)
Record buffers_ok (mont : Montgomery) (factor_base : list Z) (K nnz n : Z) (bufs : DeviceBuffers) : Prop := mkBuffersOk {
  bo_allocated : allocated bufs = true;
  bo_K : 0 <= K <= max_K bufs /\ max_K bufs + 255 < 2 ^ 32;
  bo_nnz : 0 <= nnz <= max_nnz bufs;
  bo_fb : 0 < Z.of_nat (length factor_base) <= max_fb bufs /\ max_fb bufs + 255 < 2 ^ 32;
  bo_n : 0 <= n <= max_n bufs /\ max_n bufs + 255 < 2 ^ 32;
  bo_exp : max_n bufs * max_fb bufs < 2 ^ 32;
  bo_partials : blocks_for (max_K bufs) SQRT_CHUNK_SIZE * max_n bufs < 2 ^ 32;
  bo_lengths : n <= Z.of_nat (length (d_X bufs)) /\ n <= Z.of_nat (length (d_Y bufs)) /\ n <= Z.of_nat (length (d_valid bufs)) /\
    Z.of_nat (length factor_base) <= Z.of_nat (length (d_factor_base_mont bufs)) /\ n <= Z.of_nat (length (d_factors bufs));
  bo_transformed : fb_transformed bufs = true ->
    forall j, 0 <= j < Z.of_nat (length factor_base) -> mont_form mont (dget (d_factor_base_mont bufs) j) (idx factor_base j)
}.

(** The orders of a run are permutations of the work. *)
Record y_schedule (solutions : BWKernelSolutionView) (batch : HostRelationBatch) (K fb_size : Z) (o : y_order) : Prop := mkYSchedule {
  ys_blocks : lp_blocks o ≡ₚ grid2 (blocks_for K SQRT_CHUNK_SIZE) (num_solutions solutions);
  ys_additions : additions o ≡ₚ accum_ops solutions batch K fb_size SQRT_CHUNK_SIZE (grid2 (blocks_for K SQRT_CHUNK_SIZE) (num_solutions solutions));
  ys_halvings : halvings o ≡ₚ grid2 (blocks_for fb_size 256 * 256) (num_solutions solutions)
}.

(** The orders of the device path. *)
Record device_schedule (solutions : BWKernelSolutionView) (batch : HostRelationBatch) (fb_size : Z) (o : device_order) : Prop := mkSchedule {
  ds_blocks : x_blocks o ≡ₚ grid2 (blocks_for (num_relations batch) SQRT_CHUNK_SIZE) (num_solutions solutions);
  ds_y : y_schedule solutions batch (num_relations batch) fb_size (y_orders o);
  ds_refine : schedule (refine_order o) (refine_orders o)
}.

(** No corrections, or one for every solution. *)
Definition corrections_of (corrections : list uint512) (sols : list (list Z * (option uint512 * Z))) : Prop :=
  (corrections = [] /\ Forall (fun s => s.2.1 = None) sols) \/ map Some corrections = map (fun s => s.2.1) sols.

Definition allocates (fresh : Z -> list uint512) (freshZ : Z -> list Z) : Prop :=
  (forall n, length (fresh n) = Z.to_nat n) /\ (forall n, length (freshZ n) = Z.to_nat n).

(** What the device path is given: any batch of well-formed relations, any solutions. *)
Record stage_ok (fresh : Z -> list uint512) (freshZ : Z -> list Z) (N : uint512) (b : HostRelationBatch) (rs : list relation) (factor_base : list Z)
    (sols : list (list Z * (option uint512 * Z))) (corrections : list uint512) (o : device_order) : Prop := mkStageOk {
  so_alloc : allocates fresh freshZ;
  so_N : u512_ok N;
  so_odd : Z.odd (u512_val N) = true;
  so_N1 : 1 < u512_val N;
  so_repr : repr b rs;
  so_rels : Forall relation_ok rs;
  so_fb : Forall (in_width 32) factor_base;
  so_in : Forall (factors_in_base factor_base) rs;
  so_sols : Forall (solution_ok N factor_base rs) sols;
  so_fits : fits (num_relations b) (wrap 32 (num_factors b)) (Z.of_nat (length factor_base)) (Z.of_nat (length sols));
  so_words : Z.of_nat (length sols) * ((num_relations b + 63) / 64) < 2 ^ 32;
  so_corr : corrections_of corrections sols;
  so_orders : device_schedule (pack_solutions (map fst sols) (num_relations b)) b (Z.of_nat (length factor_base)) o
}.

(** Zeroed buffers, and every thread in the order of its index. *)
Definition zeros (n : Z) : list uint512 := replicate (Z.to_nat n) u512_zero.
Definition zerosZ (n : Z) : list Z := replicate (Z.to_nat n) 0.

Definition canonical_order (kernel_solutions : list (list Z)) (batch : HostRelationBatch) (fb_size : Z) : device_order :=
  let view := pack_solutions kernel_solutions (num_relations batch) in
  let blocks := grid2 (blocks_for (num_relations batch) SQRT_CHUNK_SIZE) (num_solutions view) in
  mkOrder blocks
    (mkYOrder blocks (accum_ops view batch (num_relations batch) fb_size SQRT_CHUNK_SIZE blocks) (grid2 (blocks_for fb_size 256 * 256) (num_solutions view)))
    (upto REFINE_BLOCK_SIZE) (replicate MAX_REFINE_ROUNDS (upto REFINE_BLOCK_SIZE)).

(** ** Lemmas: the buffers *)

Lemma with_margin_le n : 0 <= n -> n <= with_margin n.
Proof. intros Hn. unfold with_margin. apply Z.div_le_lower_bound; lia. Qed.

Lemma length_memset {A} (l : list A) n v : 0 <= n <= Z.of_nat (length l) -> length (memset l n v) = length l.
Proof. intros Hn. unfold memset. rewrite length_app, length_replicate, length_drop. lia. Qed.

Lemma vget_memset {A} (d : A) l n v i : 0 <= i < n -> vget d (memset l n v) i = v.
Proof.
  intros Hi. unfold memset, vget. rewrite app_nth1 by (rewrite length_replicate; lia).
  apply (vget_replicate d v). lia.
Qed.

Lemma NoDup_grid2 nx ny : 0 <= ny -> NoDup (grid2 nx ny).
Proof.
  intros Hny. unfold grid2. pattern ny. apply natlike_ind; [constructor| |done]. clear ny Hny. intros ny Hny IH. change (Z.succ ny) with (ny + 1).
  rewrite upto_S, flat_map_app by done. cbn [flat_map]. rewrite app_nil_r. apply NoDup_app. split; [done|]. split.
  - intros [x y] H1 H2. apply list_elem_of_In, in_map_iff in H2 as (x' & [= -> ->] & _).
    apply list_elem_of_In, in_flat_map in H1 as (y' & Hy' & H1). apply list_elem_of_In, elem_of_upto in Hy'. apply in_map_iff in H1 as (x'' & [= -> ->] & _). lia.
  - apply NoDup_fmap_2; [intros x x' [= ->]; done|]. apply NoDup_upto.
Qed.

Section buffers.
Context (fresh : Z -> list uint512) (freshZ : Z -> list Z) (Halloc : allocates fresh freshZ).
Context (mont : Montgomery) (factor_base : list Z).
Notation fb_size := (Z.of_nat (length factor_base)).

Lemma allocate_ok K nnz n : fits K nnz fb_size n -> buffers_ok mont factor_base K nnz n (allocateDeviceBuffers fresh freshZ K nnz fb_size n no_buffers).
Proof using Halloc.
  intros [H1 H2 H3 H4 H5 H6]. destruct Halloc as [Hl HlZ]. unfold allocateDeviceBuffers. cbn [allocated no_buffers andb].
  pose proof (with_margin_le K ltac:(lia)). pose proof (with_margin_le nnz ltac:(lia)). pose proof (with_margin_le fb_size ltac:(lia)). pose proof (with_margin_le n ltac:(lia)).
  constructor; cbn [allocated max_K max_nnz max_fb max_n d_X d_Y d_valid d_factor_base_mont d_factors fb_transformed]; rewrite ?Hl, ?HlZ; try done; lia.
Qed.

Lemma allocate_again K nnz fb n bufs :
  buffers_ok mont factor_base K nnz n bufs -> 0 <= fb <= fb_size -> allocateDeviceBuffers fresh freshZ K nnz fb n bufs = bufs.
Proof using Type.
  intros [H1 [H2 _] H3 [H4 _] [H5 _] _ _ _ _] Hfb. unfold allocateDeviceBuffers. rewrite H1. cbn [andb].
  by rewrite !(proj2 (Z.leb_le _ _)) by lia.
Qed.

(** The sizes of the arrays of partial products and of exponents. *)
Lemma partials_room K nnz n bufs :
  buffers_ok mont factor_base K nnz n bufs ->
  blocks_for K SQRT_CHUNK_SIZE * n <= Z.of_nat (length (fresh (partials_size bufs))) /\ blocks_for K SQRT_CHUNK_SIZE * n < 2 ^ 32.
Proof using Halloc.
  intros [_ [H1 H2] _ _ [H3 H4] _ H5 _ _]. rewrite (proj1 Halloc). unfold partials_size.
  pose proof (blocks_for_bound K 256 ltac:(lia) ltac:(lia) ltac:(lia)) as [B1 _]. change SQRT_CHUNK_SIZE with 256 in *.
  assert (blocks_for K 256 <= blocks_for (max_K bufs) 256) as B2.
  { unfold blocks_for. rewrite !wrap_small by (unfold in_width; lia). apply Z.div_le_mono; lia. }
  rewrite wrap_small by (unfold in_width; nia). nia.
Qed.

Lemma exp_room K nnz n bufs :
  buffers_ok mont factor_base K nnz n bufs -> n * fb_size <= Z.of_nat (length (freshZ (exp_matrix_size bufs))) /\ n * fb_size < 2 ^ 32.
Proof using Halloc.
  intros [_ _ _ [H1 H2] [H3 H4] H5 _ _ _]. rewrite (proj2 Halloc). unfold exp_matrix_size. rewrite wrap_small by (unfold in_width; nia). nia.
Qed.
End buffers.

(** ** Lemmas: the calls *)

Section calls.
Context (fresh : Z -> list uint512) (freshZ : Z -> list Z) (Halloc : allocates fresh freshZ).
Context (N : uint512) (HN : u512_ok N) (Ho : Z.odd (u512_val N) = true).
Context (b : HostRelationBatch) (rs : list relation) (Hb : repr b rs) (Hrs : Forall relation_ok rs).
Context (factor_base : list Z) (Hfb : Forall (in_width 32) factor_base) (Hin : Forall (factors_in_base factor_base) rs).
Context (solutions : BWKernelSolutionView) (bufs : DeviceBuffers).
Notation fb_size := (Z.of_nat (length factor_base)).
Notation n_sol := (num_solutions solutions).
Notation chosen s := (select (selected solutions s) 0 rs).
Notation mont := (Montgomery_init N).
Notation form := (mont_form mont).
Context (Hbufs : buffers_ok mont factor_base (num_relations b) (wrap 32 (num_factors b)) n_sol bufs).

Lemma K_value : wrap 32 (num_relations b) = Z.of_nat (length rs) /\ num_relations b = Z.of_nat (length rs) /\ Z.of_nat (length rs) + 255 < 2 ^ 32.
Proof using Hb Hbufs.
  pose proof (repr_num_relations b rs Hb) as E. pose proof (bo_K _ _ _ _ _ _ Hbufs). rewrite <- E.
  rewrite wrap_small by (unfold in_width; lia). lia.
Qed.

Lemma mont_is_ok : mont_ok mont.
Proof using HN Ho. by apply Montgomery_init_ok. Qed.

Lemma rel_at_index i r : rs !! i = Some r -> relation_ok r.
Proof using Hrs. intros H. rewrite Forall_forall in Hrs. apply Hrs. by eapply list_elem_of_lookup_2. Qed.

(** The values that the product kernels read. *)
Lemma sqrt_Q_form i : 0 <= i < Z.of_nat (length rs) ->
  form (dget (TransformSqrtQ (sqrt_Q b) mont (Z.of_nat (length rs)) (fresh (max_K bufs))) i) (match rs !! Z.to_nat i with Some r => r_sqrt_Q r | None => 1 end).
Proof using HN Ho Hb Hrs Hbufs Halloc.
  intros Hi. pose proof K_value as (_ & EK & HK). unfold TransformSqrtQ. rewrite (transform_get u512_zero _ _ SQRT_TRANSFORM_BLOCK).
  - destruct (lookup_lt_is_Some_2 rs (Z.to_nat i)) as [r Hr]; [lia|]. rewrite Hr.
    replace i with (Z.of_nat (Z.to_nat i)) by lia. rewrite (idx_map_prefix _ rs _ _ r (repr_sqrt_Q b rs Hb) Hr).
    apply form_u512_of_Z; [apply mont_is_ok|]. apply (rel_at_index _ _ Hr).
  - done.
  - unfold SQRT_TRANSFORM_BLOCK. lia.
  - rewrite (proj1 Halloc). pose proof (bo_K _ _ _ _ _ _ Hbufs). lia.
  - done.
Qed.

Lemma large_prime_form i : 0 <= i < Z.of_nat (length rs) ->
  form (dget (TransformLargePrimes (large_primes b) mont (Z.of_nat (length rs)) (fresh (max_K bufs))) i) (match rs !! Z.to_nat i with Some r => lp_val r | None => 1 end).
Proof using HN Ho Hb Hrs Hbufs Halloc.
  intros Hi. pose proof K_value as (_ & EK & HK). unfold TransformLargePrimes. rewrite (transform_get u512_zero _ _ SQRT_TRANSFORM_BLOCK).
  - destruct (lookup_lt_is_Some_2 rs (Z.to_nat i)) as [r Hr]; [lia|]. rewrite Hr.
    replace i with (Z.of_nat (Z.to_nat i)) by lia. rewrite (idx_map_prefix _ rs _ _ r (repr_lp b rs Hb) Hr).
    unfold lp_val. destruct (1 <? r_lp r); [|apply mont_one_form, mont_is_ok].
    destruct (rel_at_index _ _ Hr) as (_ & _ & _ & H & _). destruct (u512_of_u128_ok _ H) as [O E]. by apply form_transform; [apply mont_is_ok|..].
  - done.
  - unfold SQRT_TRANSFORM_BLOCK. lia.
  - rewrite (proj1 Halloc). pose proof (bo_K _ _ _ _ _ _ Hbufs). lia.
  - done.
Qed.

(** Slot [s] of a product kernel: the product over the relations that solution [s] selects. *)
Lemma product_slot vals (val : relation -> Z) blocks do_reduce out s :
  (forall i, 0 <= i < Z.of_nat (length rs) -> form (dget vals i) (match rs !! Z.to_nat i with Some r => val r | None => 1 end)) ->
  blocks ≡ₚ grid2 (blocks_for (Z.of_nat (length rs)) SQRT_CHUNK_SIZE) n_sol -> n_sol <= Z.of_nat (length out) -> 0 <= s < n_sol ->
  exists x, form x (zprod (map val (chosen s))) /\
    dget (FinalReduce (ComputeX_ChunkReduce vals solutions mont (Z.of_nat (length rs)) SQRT_CHUNK_SIZE blocks (fresh (partials_size bufs))) mont
      (blocks_for (Z.of_nat (length rs)) SQRT_CHUNK_SIZE) n_sol do_reduce out) s = if do_reduce then mont_reduce mont x else x.
Proof using HN Ho Hb Hbufs Halloc.
  intros Hv Hbl Hout Hs. pose proof K_value as (_ & EK & HK).
  destruct (partials_room fresh freshZ Halloc mont factor_base _ _ _ bufs Hbufs) as [R1 R2]. rewrite EK in R1, R2.
  destruct (FinalReduce_form mont mont_is_ok solutions (Z.of_nat (length rs)) ltac:(lia) ltac:(lia) vals _ Hv blocks (fresh (partials_size bufs)) do_reduce out s)
    as (x & Hx & E); [done|exact R1|done|done|].
  exists x. split; [|exact E]. rewrite <- (zprod_select val (fun i => match rs !! Z.to_nat i with Some r => val r | None => 1 end)); [exact Hx|].
  intros i r Hr. by rewrite Nat2Z.id, Hr.
Qed.

(** [X]: the product of the left-hand sides. *)
Lemma device_X blocks s :
  blocks ≡ₚ grid2 (blocks_for (num_relations b) SQRT_CHUNK_SIZE) n_sol -> 0 <= s < n_sol ->
  let x := dget (d_X (ComputeXBatchedGPU fresh freshZ blocks N solutions b bufs)) s in
  u512_reduced N x /\ u512_val x = zprod (map r_sqrt_Q (chosen s)) mod u512_val N.
Proof using HN Ho Hb Hrs Hbufs Halloc.
  intros Hbl Hs x. pose proof K_value as (EW & EK & HK). rewrite EK in Hbl. subst x. unfold ComputeXBatchedGPU. cbv zeta. rewrite EW, <- EK.
  rewrite (allocate_again fresh freshZ mont factor_base _ _ 0 _ bufs Hbufs) by lia. cbn [d_X]. rewrite EK.
  destruct (product_slot _ r_sqrt_Q blocks true (d_X bufs) s sqrt_Q_form Hbl) as (x & Hx & ->); [apply (bo_lengths _ _ _ _ _ _ Hbufs)|done|].
  by apply (form_value mont mont_is_ok).
Qed.

Lemma X_buffers blocks : buffers_ok mont factor_base (num_relations b) (wrap 32 (num_factors b)) n_sol (ComputeXBatchedGPU fresh freshZ blocks N solutions b bufs).
Proof using Hbufs Hb.
  unfold ComputeXBatchedGPU. pose proof K_value as (EW & EK & HK). rewrite EW, <- EK. cbv zeta.
  rewrite (allocate_again fresh freshZ mont factor_base _ _ 0 _ bufs Hbufs) by lia. destruct Hbufs as [? ? ? ? ? ? ? (? & ? & ? & ? & ?) ?].
  constructor; cbn; try done. unfold FinalReduce. by rewrite length_scatter.
Qed.
(** ** Lemmas: exponents *)

Context (order : y_order) (Horder : y_schedule solutions b (num_relations b) fb_size order).
Context (Hfit : forall s, 0 <= s < n_sol -> exponents_fit factor_base (chosen s)).

Notation counts0 := (mkAccum (memset (freshZ (exp_matrix_size bufs)) (n_sol * fb_size) 0) (memset (freshZ (max_n bufs)) n_sol 0) (memset (freshZ (max_n bufs)) n_sol 0)).
Notation counts1 := (AccumExponents_Parallel (additions order) counts0).

Lemma room_kept ops a c : cell_room (foldl atomicAdd a ops) c = cell_room a c.
Proof using Type. revert a. induction ops as [|op ops IH]; intros a; [done|]. cbn [foldl]. by rewrite IH, cell_room_add. Qed.

Lemma counts_room :
  n_sol * fb_size <= Z.of_nat (length (d_exp_matrix counts1)) /\ n_sol <= Z.of_nat (length (d_sign_counts counts1)) /\
  n_sol <= Z.of_nat (length (d_exp2_accum counts1)) /\ n_sol * fb_size < 2 ^ 32 /\ 0 <= n_sol /\ 0 < fb_size.
Proof using Hbufs Halloc.
  destruct (exp_room fresh freshZ Halloc mont factor_base _ _ _ bufs Hbufs) as [R1 R2]. pose proof (bo_n _ _ _ _ _ _ Hbufs) as [R3 _]. pose proof (bo_fb _ _ _ _ _ _ Hbufs) as [R4 _].
  pose proof (room_kept (additions order) counts0 (ExpMatrix 0)) as E1. pose proof (room_kept (additions order) counts0 (SignCount 0)) as E2.
  pose proof (room_kept (additions order) counts0 (Exp2 0)) as E3. cbn [cell_room d_exp_matrix d_sign_counts d_exp2_accum] in E1, E2, E3.
  assert (0 <= n_sol * fb_size) by nia. assert (Z.of_nat (length (freshZ (max_n bufs))) = max_n bufs) as EL by (rewrite (proj2 Halloc); lia).
  unfold AccumExponents_Parallel. rewrite E1, E2, E3. rewrite !length_memset by lia. lia.
Qed.

Lemma additions_in_range : Forall (fun op : cell * Z => 0 <= cell_index op.1) (additions order).
Proof using Hb Hbufs Horder.
  pose proof K_value as (_ & EK & HK). pose proof (ys_additions _ _ _ _ _ Horder) as HP. rewrite EK in HP.
  change SQRT_CHUNK_SIZE with 256 in HP at 1. rewrite (accum_ops_selected b rs Hb solutions fb_size HK) in HP. rewrite HP, Forall_forall.
  intros op (s & Hs & (r & _ & Hop)%in_flat_map)%list_elem_of_In%in_flat_map. apply list_elem_of_In, elem_of_upto in Hs.
  unfold relation_ops in Hop. rewrite !in_app_iff in Hop. destruct Hop as [Hop|[[<-|[]]|(f & <- & _)%in_map_iff]]; cbn [fst cell_index]; [|lia|apply wrap_range; lia].
  destruct (negb _); [|done]. destruct Hop as [<-|[]]. cbn. lia.
Qed.

(** A cell after the additions: the sum of what the selected relations contribute. *)
Lemma cell_total c s :
  0 <= s < n_sol -> 0 <= cell_index c < cell_room counts1 c -> cell_get counts0 c = 0 -> (forall s' r, s' <> s -> contribution fb_size c s' r = 0) ->
  cell_get counts1 c = wrap 32 (zsum (map (contribution fb_size c s) (chosen s))).
Proof using Hb Hin Hbufs Halloc Horder.
  intros Hs Hc H0 Hother. pose proof K_value as (_ & EK & HK). destruct counts_room as (_ & _ & _ & Hcells & Hn & Hfb0).
  destruct (atomics_get (additions order) counts0 c additions_in_range) as [E _].
  - unfold AccumExponents_Parallel in Hc. by rewrite room_kept in Hc.
  - by rewrite H0.
  - unfold AccumExponents_Parallel. rewrite E, H0, Z.add_0_l. f_equal. rewrite (amount_perm c _ _ (ys_additions _ _ _ _ _ Horder)), EK.
    apply (amount_total b rs Hb solutions fb_size HK); [lia|done| |done|done|by destruct c].
    eapply Forall_impl; [exact Hin|]. by intros r [_ ?].
Qed.

Lemma chosen_sub s : Forall relation_ok (chosen s) /\ Forall (factors_in_base factor_base) (chosen s).
Proof using Hrs Hin. split; by apply Forall_select. Qed.

(** The counts of solution [s]. *)
Lemma device_counts s :
  0 <= s < n_sol ->
  vget 0 (d_sign_counts counts1) s = tot_minus (chosen s) /\ vget 0 (d_exp2_accum counts1) s = tot_2 (chosen s) /\
  forall j, 0 <= j < fb_size -> vget 0 (d_exp_matrix counts1) (s * fb_size + j) = tot_p (chosen s) j.
Proof using Hb Hrs Hin Hbufs Halloc Horder Hfit.
  intros Hs. destruct counts_room as (R1 & R2 & R3 & Hcells & Hn & Hfb0). destruct (chosen_sub s) as [C1 C2]. destruct (Hfit s Hs) as [F1 F2 F3].
  split; [|split].
  - pose proof (cell_total (SignCount s) s Hs) as E. cbn [cell_get cell_index cell_room d_sign_counts contribution] in E. rewrite E.
    + rewrite (map_ext _ neg_count) by (intros r; unfold contribution; by rewrite Z.eqb_refl). fold (tot_minus (chosen s)). apply wrap_small. pose proof (tot_minus_nonneg (chosen s)). unfold in_width. lia.
    + lia.
    + by apply vget_memset.
    + intros s' r Hne. unfold contribution. by rewrite (proj2 (Z.eqb_neq s s')) by done.
  - pose proof (cell_total (Exp2 s) s Hs) as E. cbn [cell_get cell_index cell_room d_exp2_accum contribution] in E. rewrite E.
    + rewrite (map_ext_in _ r_val2); [fold (tot_2 (chosen s)); by apply wrap_small|]. intros r Hr%list_elem_of_In. unfold contribution. rewrite Z.eqb_refl.
      rewrite Forall_forall in C1, C2. destruct (C1 r Hr) as (_ & _ & H & _). destruct (C2 r Hr) as [H' _]. apply wrap_small. unfold in_width. lia.
    + lia.
    + by apply vget_memset.
    + intros s' r Hne. unfold contribution. by rewrite (proj2 (Z.eqb_neq s s')) by done.
  - intros j Hj. assert (0 <= s * fb_size + j < n_sol * fb_size) as Hi by (clear -Hs Hj Hn; nia).
    assert ((s * fb_size + j) / fb_size = s) as Ed by (rewrite Z.add_comm, Z.div_add, Z.div_small by lia; lia).
    assert ((s * fb_size + j) mod fb_size = j) as Em by (rewrite Z.add_comm, Z.mod_add, Z.mod_small by lia; lia).
    pose proof (cell_total (ExpMatrix (s * fb_size + j)) s Hs) as E. cbn [cell_get cell_index cell_room d_exp_matrix contribution] in E. rewrite E.
    + rewrite (map_ext _ (expo j)) by (intros r; unfold contribution; by rewrite ?Ed, ?Em, Z.eqb_refl). fold (tot_p (chosen s) j). apply wrap_small. split; [|by apply F3].
      apply tot_p_nonneg. eapply Forall_impl; [exact C1|apply relation_ok_counts].
    + lia.
    + by apply vget_memset.
    + intros s' r Hne. unfold contribution. rewrite Ed. by rewrite (proj2 (Z.eqb_neq s s')) by done.
Qed.
(** ** Lemmas: flags and roots *)

Lemma halvings_cover p s : (p, s) ∈ halvings order <-> 0 <= p < blocks_for fb_size 256 * 256 /\ 0 <= s < n_sol.
Proof using Horder. rewrite (ys_halvings _ _ _ _ _ Horder). apply elem_of_grid2. Qed.

Lemma halve_threads : 0 < fb_size <= blocks_for fb_size 256 * 256.
Proof using Hbufs. pose proof (bo_fb _ _ _ _ _ _ Hbufs). pose proof (blocks_for_covers fb_size 256 ltac:(lia) ltac:(lia) ltac:(lia)). lia. Qed.

(** The threads of a solution see an odd count exactly when some exponent is odd. *)
Lemma flag_spec s :
  0 <= s < n_sol -> existsb (fun t : Z * Z => (t.2 =? s) && odd_count counts1 fb_size t) (halvings order) = false <-> all_even factor_base (chosen s).
Proof using Hb Hrs Hin Hbufs Halloc Horder Hfit.
  intros Hs. destruct (device_counts s Hs) as (E1 & E2 & E3). pose proof halve_threads as Hth.
  rewrite <- not_true_iff_false, existsb_exists. split.
  - intros H. assert (forall p, 0 <= p < blocks_for fb_size 256 * 256 -> odd_count counts1 fb_size (p, s) = false) as Hp.
    { intros p Hp. apply not_true_is_false. intros Hodd. apply H. exists (p, s). split; [apply list_elem_of_In, halvings_cover; lia|]. cbn [snd]. by rewrite Z.eqb_refl, Hodd. }
    unfold odd_count in Hp. cbn [fst snd] in Hp. rewrite E1, E2 in Hp. constructor.
    + specialize (Hp 0 ltac:(lia)). apply orb_false_iff in Hp as [Hp _]. apply orb_false_iff in Hp as [Hp _]. by rewrite <- Z.negb_odd, Hp.
    + specialize (Hp 0 ltac:(lia)). apply orb_false_iff in Hp as [Hp _]. apply orb_false_iff in Hp as [_ Hp]. by rewrite <- Z.negb_odd, Hp.
    + intros j Hj. specialize (Hp j ltac:(lia)). apply orb_false_iff in Hp as [_ Hp]. rewrite (proj2 (Z.ltb_lt j fb_size)), E3 in Hp by lia. cbn [andb] in Hp. by rewrite <- Z.negb_odd, Hp.
  - intros [V1 V2 V3] ([p s'] & Hin' & Ht). apply list_elem_of_In, halvings_cover in Hin' as [Hp Hs']. cbn [snd] in Ht. apply andb_true_iff in Ht as [->%Z.eqb_eq Ht].
    unfold odd_count in Ht. cbn [fst snd] in Ht. rewrite E1, E2, <- !Z.negb_even, V1, V2, orb_diag, andb_false_r in Ht. cbn [negb orb] in Ht.
    destruct (Z.ltb_spec p fb_size); [|done]. rewrite E3, V3 in Ht by lia. done.
Qed.

Notation valid0 := (memset (d_valid bufs) n_sol 1).
Notation halved_state := (HalveExponents n_sol fb_size (halvings order) counts1 valid0).

Lemma halved_spec : halved counts1 valid0 n_sol fb_size (halvings order) halved_state.
Proof using Hbufs Halloc Horder.
  destruct counts_room as (R1 & R2 & R3 & Hcells & Hn & Hfb0). pose proof (bo_lengths _ _ _ _ _ _ Hbufs) as (_ & _ & HL & _).
  apply HalveExponents_spec; [lia|done|done|done|rewrite length_memset; lia| |].
  - rewrite (ys_halvings _ _ _ _ _ Horder). by apply NoDup_grid2.
  - intros p s H%halvings_cover. lia.
Qed.

(** A flag survives exactly when every exponent is even. *)
Lemma valid_spec s : 0 <= s < n_sol -> vget 0 halved_state.2 s <> 0 <-> all_even factor_base (chosen s).
Proof using Hb Hrs Hin Hbufs Halloc Horder Hfit.
  intros Hs. rewrite <- (flag_spec s Hs), (hv_valid _ _ _ _ _ _ halved_spec s Hs), vget_memset by done.
  destruct (existsb _ _); by split.
Qed.
(** The factor base as the call finds or makes it. *)
Notation fbm := (if fb_transformed bufs then d_factor_base_mont bufs else TransformFactorBase (map (wrap 32) factor_base) mont fb_size (d_factor_base_mont bufs)).

Lemma factor_base_form j : 0 <= j < fb_size -> form (dget fbm j) (idx factor_base j).
Proof using HN Ho Hfb Hbufs.
  intros Hj. destruct (fb_transformed bufs) eqn:Et; [by apply (bo_transformed _ _ _ _ _ _ Hbufs)|].
  pose proof (bo_fb _ _ _ _ _ _ Hbufs). pose proof (bo_lengths _ _ _ _ _ _ Hbufs) as (_ & _ & _ & HL & _).
  unfold TransformFactorBase. rewrite (transform_get u512_zero _ _ SQRT_TRANSFORM_BLOCK); [|done|unfold SQRT_TRANSFORM_BLOCK; lia|done|done].
  assert (in_width 32 (idx factor_base j)) as Hw by (rewrite Forall_forall in Hfb; apply Hfb; apply list_elem_of_In, nth_In; lia).
  assert (idx (map (wrap 32) factor_base) j = idx factor_base j) as ->.
  { unfold idx. change 0 with (wrap 32 0) at 1. rewrite map_nth. by apply wrap_small. }
  by apply form_u32; [apply mont_is_ok|].
Qed.

Notation lp_mont := (TransformLargePrimes (large_primes b) mont (Z.of_nat (length rs)) (fresh (max_K bufs))).
Notation Y_lp := (FinalReduce (ComputeX_ChunkReduce lp_mont solutions mont (Z.of_nat (length rs)) SQRT_CHUNK_SIZE (lp_blocks order) (fresh (partials_size bufs))) mont
      (blocks_for (Z.of_nat (length rs)) SQRT_CHUNK_SIZE) n_sol false (fresh (max_n bufs))).

(** The block of solution [s]: the halved product times the large primes. *)
Lemma device_exponentiate s :
  0 <= s < n_sol ->
  exists y, exponentiate halved_state.1 Y_lp fbm mont N fb_size s = Some y /\ u512_reduced N y /\ u512_val y = Y_root factor_base (chosen s) mod u512_val N.
Proof using HN Ho Hb Hrs Hfb Hin Hbufs Halloc Horder Hfit.
  intros Hs. destruct (device_counts s Hs) as (E1 & E2 & E3). destruct counts_room as (R1 & R2 & R3 & Hcells & Hn & Hfb0). pose proof halve_threads as Hth.
  pose proof halved_spec as Hh. destruct (Hfit s Hs) as [F1 F2 F3]. destruct (chosen_sub s) as [C1 _].
  pose proof K_value as (_ & EK & HK). pose proof (ys_blocks _ _ _ _ _ Horder) as Hbl. rewrite EK in Hbl.
  destruct (product_slot lp_mont lp_val (lp_blocks order) false (fresh (max_n bufs)) s large_prime_form Hbl) as (L & HL & EL);
    [rewrite (proj1 Halloc); pose proof (bo_n _ _ _ _ _ _ Hbufs); lia|done|].
  assert (forall x, Z.shiftr x 1 = x / 2) as Hshift by (intros x; by rewrite Z.shiftr_div_pow2).
  destruct (exponentiate_form mont mont_is_ok halved_state.1 Y_lp fbm fb_size s (idx factor_base) (fun j => tot_p (chosen s) j / 2) (tot_minus (chosen s)) (tot_2 (chosen s) / 2)
    (zprod (map lp_val (chosen s)))) as (y & Ey & Ry & Vy); [lia| | | | | | |].
  - intros p Hp. split; [by apply factor_base_form|]. rewrite (proj1 (slot_small solutions fb_size ltac:(lia) Hcells s p Hs Hp)).
    rewrite (hv_exp _ _ _ _ _ _ Hh s p Hs Hp), decide_True by (apply halvings_cover; lia). rewrite E3, Hshift by done. split; [done|].
    assert (0 <= tot_p (chosen s) p) by (apply tot_p_nonneg; eapply Forall_impl; [exact C1|apply relation_ok_counts]). specialize (F3 p Hp).
    split; [apply Z.div_pos|apply Z.div_lt_upper_bound]; lia.
  - by rewrite (hv_signs _ _ _ _ _ _ Hh).
  - apply tot_minus_nonneg.
  - rewrite (hv_exp2 _ _ _ _ _ _ Hh s Hs), decide_True by (apply halvings_cover; lia). by rewrite E2, Hshift.
  - split; [apply Z.div_pos|apply Z.div_lt_upper_bound]; lia.
  - by rewrite EL.
  - exists y. split; [exact Ey|]. split; [exact Ry|exact Vy].
Qed.

Lemma BatchedExponentiateY_spec a lpm fm valid Y0 :
  n_sol <= Z.of_nat (length Y0) -> (forall s, 0 <= s < n_sol -> is_Some (exponentiate a lpm fm mont N fb_size s)) ->
  exists Y, BatchedExponentiateY a lpm fm valid mont N n_sol fb_size Y0 = Some Y /\ length Y = length Y0 /\
  forall s, 0 <= s < n_sol -> dget Y s = if vget 0 valid s =? 0 then dget Y0 s else default u512_zero (exponentiate a lpm fm mont N fb_size s).
Proof using Hbufs.
  intros HL HS. pose proof (bo_n _ _ _ _ _ _ Hbufs) as [Hn _]. unfold BatchedExponentiateY. set (G := foldl _ _ _).
  assert (exists Y, G = Some Y /\ length Y = length Y0 /\ forall s, 0 <= s ->
    dget Y s = if s <? n_sol then if vget 0 valid s =? 0 then dget Y0 s else default u512_zero (exponentiate a lpm fm mont N fb_size s) else dget Y0 s) as (Y & E & L & H).
  2:{ exists Y. split; [done|]. split; [done|]. intros s Hs. rewrite H by lia. by rewrite (proj2 (Z.ltb_lt s n_sol)) by lia. }
  unfold G. apply (foldl_upto (fun i out => exists Y, out = Some Y /\ length Y = length Y0 /\ forall s, 0 <= s ->
    dget Y s = if s <? i then if vget 0 valid s =? 0 then dget Y0 s else default u512_zero (exponentiate a lpm fm mont N fb_size s) else dget Y0 s)); [lia| |].
  - exists Y0. split; [done|]. split; [done|]. intros s Hs. by rewrite (proj2 (Z.ltb_ge s 0)) by lia.
  - intros i out Hi (Y & -> & L & H). rewrite bind_Some. destruct (HS i Hi) as [y Ey]. destruct (Z.eqb_spec (vget 0 valid i) 0) as [Ez|Ez].
    + exists Y. split; [done|]. split; [done|]. intros s Hs. rewrite H by done. destruct (Z.ltb_spec s i), (Z.ltb_spec s (i + 1)); try lia; [done| |done].
      assert (s = i) as -> by lia. by rewrite Ez.
    + rewrite Ey, bind_Some. eexists. split; [done|]. rewrite length_vset. split; [done|]. intros s Hs. destruct (decide (s = i)) as [->|Hne].
      * rewrite vget_vset_eq by lia. rewrite (proj2 (Z.ltb_lt i (i + 1))), (proj2 (Z.eqb_neq _ _) Ez), Ey by lia. done.
      * rewrite vget_vset_ne, H by lia. destruct (Z.ltb_spec s i), (Z.ltb_spec s (i + 1)); try lia; done.
Qed.

(** [Y]: for a solution with even exponents the halved product, for any other zero. *)
Lemma device_Y :
  exists bufs', ComputeYBatchedGPU fresh freshZ order N solutions b factor_base bufs = Some bufs' /\ d_X bufs' = d_X bufs /\
  buffers_ok mont factor_base (num_relations b) (wrap 32 (num_factors b)) n_sol bufs' /\ fb_transformed bufs' = true /\
  forall s, 0 <= s < n_sol ->
    (vget 0 (d_valid bufs') s <> 0 <-> all_even factor_base (chosen s)) /\
    (all_even factor_base (chosen s) -> u512_reduced N (dget (d_Y bufs') s) /\ u512_val (dget (d_Y bufs') s) = Y_root factor_base (chosen s) mod u512_val N) /\
    (~ all_even factor_base (chosen s) -> dget (d_Y bufs') s = u512_zero).
Proof using HN Ho Hb Hrs Hfb Hin Hbufs Halloc Horder Hfit.
  pose proof K_value as (EW & EK & HK). pose proof (bo_lengths _ _ _ _ _ _ Hbufs) as (L1 & L2 & L3 & L4 & L5). pose proof (bo_n _ _ _ _ _ _ Hbufs) as [Hn _].
  pose proof (bo_fb _ _ _ _ _ _ Hbufs) as [Hf1 Hf2].
  destruct (BatchedExponentiateY_spec halved_state.1 Y_lp fbm halved_state.2 (memset (d_Y bufs) n_sol u512_zero)) as (Y & EY & LY & HY).
  { rewrite length_memset; lia. }
  { intros s Hs. destruct (device_exponentiate s Hs) as (y & Ey & _). by exists y. }
  unfold ComputeYBatchedGPU. cbv zeta. rewrite EW. rewrite (wrap_small 32 fb_size) by (unfold in_width; lia).
  pose proof (allocate_again fresh freshZ mont factor_base _ _ fb_size _ bufs Hbufs ltac:(lia)) as EA. rewrite EK in EA. rewrite EA. clear EA.
  pose proof valid_spec as HV. pose proof (hv_lengths _ _ _ _ _ _ halved_spec) as (_ & _ & LV).
  destruct halved_state as [a v] eqn:Eh. cbn [fst snd] in *. rewrite EY, bind_Some. eexists. split; [reflexivity|]. cbn [d_X fb_transformed]. split; [done|].
  rewrite length_memset in LY by lia. rewrite length_memset in LV by lia. split; [|split; [done|]].
  - destruct Hbufs as [? ? ? ? ? ? ? ? ?]. constructor; cbn; try done.
    + split; [done|]. split; [lia|]. split; [lia|]. split; [|done]. destruct (fb_transformed bufs); [done|]. unfold TransformFactorBase. by rewrite length_scatter.
    + intros _ j Hj. by apply factor_base_form.
  - intros s Hs. cbn [d_valid d_Y]. split; [by apply HV|]. rewrite (HY s Hs). split.
    + intros He%HV; [|done]. rewrite (proj2 (Z.eqb_neq _ _) He). destruct (device_exponentiate s Hs) as (y & Ey & Hy). rewrite Eh in Ey. cbn [fst] in Ey. rewrite Ey. exact Hy.
    + intros He. destruct (Z.eqb_spec (vget 0 v s) 0) as [_|Hne]; [by apply vget_memset|]. destruct He. by apply HV.
Qed.
End calls.

(** ** Lemmas: packed solutions *)

Lemma idx_write_at out off l i :
  0 <= off -> off + Z.of_nat (length l) <= Z.of_nat (length out) -> 0 <= i ->
  length (write_at out off l) = length out /\
  idx (write_at out off l) i = if (off <=? i) && (i <? off + Z.of_nat (length l)) then idx l (i - off) else idx out i.
Proof.
  intros Ho Hl Hi. unfold write_at. split; [rewrite !length_app, length_take, length_drop; lia|]. unfold idx.
  destruct (Z.leb_spec off i); cbn [andb]; [destruct (Z.ltb_spec i (off + Z.of_nat (length l)))|].
  - rewrite app_nth2 by (rewrite length_take; lia). rewrite app_nth1 by (rewrite length_take; lia). f_equal. rewrite length_take. lia.
  - rewrite !app_nth2 by (rewrite ?length_take; lia). rewrite !nth_lookup, lookup_drop. do 2 f_equal. rewrite length_take. lia.
  - rewrite app_nth1 by (rewrite length_take; lia). rewrite !nth_lookup, lookup_take_lt by lia. done.
Qed.

Section pack.
Context (kernel_solutions : list (list Z)) (K : Z).
Notation n_sol := (Z.of_nat (length kernel_solutions)).
Notation wpv := ((K + 63) / 64).
Context (HK : 0 <= K /\ K + 255 < 2 ^ 32) (Hn : n_sol * wpv < 2 ^ 32) (Hn32 : n_sol < 2 ^ 32).
Notation view := (pack_solutions kernel_solutions K).
Notation row j := (nth (Z.to_nat j) kernel_solutions []).

Lemma pack_shape : num_solutions view = n_sol /\ words_per_vec view = wpv.
Proof using HK Hn32.
  unfold pack_solutions. cbv zeta. cbn [num_solutions words_per_vec]. rewrite !wrap_small; [done|..]; unfold in_width; rewrite ?wrap_small; unfold in_width; lia.
Qed.

Lemma packed_word s w : 0 <= s < n_sol -> 0 <= w < wpv -> idx (d_data view) (s * wpv + w) = idx (row s) w.
Proof using HK Hn32.
  intros Hs Hw. assert (0 <= wpv) as Hwpv by lia. unfold pack_solutions. cbv zeta. cbn [d_data].
  rewrite (wrap_small 32 n_sol) by (unfold in_width; lia). rewrite (wrap_small 32 K) by (unfold in_width; lia). rewrite (wrap_small 32 (K + 63)) by (unfold in_width; lia).
  set (W := wpv) in *. clearbody W. set (G := foldl _ _ _).
  assert (Z.of_nat (length G) = n_sol * W /\ (forall s w, 0 <= s < n_sol -> 0 <= w < W -> idx G (s * W + w) = idx (row s) w) /\
    (forall s w, n_sol <= s < n_sol -> 0 <= w < W -> idx G (s * W + w) = 0)) as (_ & H2 & _); [|by apply H2].
  unfold G. apply (foldl_upto (fun j l => Z.of_nat (length l) = n_sol * W /\ (forall s w, 0 <= s < j -> 0 <= w < W -> idx l (s * W + w) = idx (row s) w) /\
    (forall s w, j <= s < n_sol -> 0 <= w < W -> idx l (s * W + w) = 0))); [lia| |].
  - split; [rewrite length_replicate; nia|]. split; [lia|]. intros s' w' Hs' Hw'. apply (vget_replicate 0 0). clear -Hs' Hw'. nia.
  - intros j l Hj (I1 & I2 & I3). set (r := take (Z.to_nat W) (row j)). assert (Z.of_nat (length r) <= W) as Hr by (unfold r; rewrite length_take; lia).
    assert (j * W + W <= n_sol * W) as Hroom by (clear -Hj Hwpv; nia). assert (0 <= j * W) as Hjw by (clear -Hj Hwpv; nia).
    assert (forall s w, 0 <= s -> 0 <= w < W -> idx (write_at l (j * W) r) (s * W + w) = if (s =? j) && (w <? Z.of_nat (length r)) then idx r w else idx l (s * W + w)) as HI.
    { intros s' w' Hs' Hw'. rewrite (proj2 (idx_write_at l (j * W) r (s' * W + w') Hjw ltac:(lia) ltac:(clear -Hs' Hw'; nia))).
      destruct (Z.eqb_spec s' j) as [->|Hne]; cbn [andb].
      - rewrite (proj2 (Z.leb_le _ _)) by lia. cbn [andb]. replace (j * W + w' - j * W) with w' by lia.
        destruct (Z.ltb_spec w' (Z.of_nat (length r))), (Z.ltb_spec (j * W + w') (j * W + Z.of_nat (length r))); try lia; done.
      - destruct (Z.leb_spec (j * W) (s' * W + w')), (Z.ltb_spec (s' * W + w') (j * W + Z.of_nat (length r))); cbn [andb]; try done.
        exfalso. clear -H H0 Hne Hw' Hr. nia. }
    split; [by rewrite (proj1 (idx_write_at l (j * W) r 0 Hjw ltac:(lia) ltac:(lia)))|]. split; intros s' w' Hs' Hw'; rewrite HI by lia.
    + destruct (Z.eqb_spec s' j) as [->|Hne]; cbn [andb]; [|apply I2; lia].
      assert (idx r w' = idx (row j) w') as Er. { unfold idx, r. rewrite !nth_lookup, lookup_take_lt by lia. done. }
      destruct (Z.ltb_spec w' (Z.of_nat (length r))) as [_|Hge]; [exact Er|]. rewrite I3, <- Er by lia. unfold idx. by rewrite nth_overflow by lia.
    + rewrite (proj2 (Z.eqb_neq s' j)) by lia. apply I3; lia.
Qed.

(** The kernels read the bits of the solutions. *)
Lemma selected_bit s i : 0 <= s < n_sol -> 0 <= i < K -> selected view s i = kbit (row s) i.
Proof using HK Hn Hn32.
  intros Hs Hi. destruct pack_shape as [_ Ew]. unfold selected, kbit. cbv zeta. rewrite Ew.
  pose proof (Z.div_mod i 64 ltac:(lia)) as Ed. pose proof (Z.mod_pos_bound i 64 ltac:(lia)) as Hm. pose proof (Z.div_mod (K + 63) 64 ltac:(lia)). pose proof (Z.mod_pos_bound (K + 63) 64 ltac:(lia)).
  assert (0 <= i / 64 < wpv) as Hq by lia. assert (0 <= s * wpv + i / 64 < n_sol * wpv) by nia.
  rewrite (wrap_small 32 (s * wpv)) by (unfold in_width; nia). rewrite wrap_small by (unfold in_width; lia). rewrite packed_word by done.
  rewrite <- odd_land, <- Z.bit0_odd, Z.shiftr_spec by lia. by rewrite Z.add_0_l.
Qed.

Lemma select_bits {A} s (l : list A) : 0 <= s < n_sol -> Z.of_nat (length l) <= K -> select (selected view s) 0 l = select (kbit (row s)) 0 l.
Proof using HK Hn Hn32.
  intros Hs. induction l as [|x l IH] using rev_ind; intros Hl; [done|]. rewrite length_app in Hl. cbn [length] in Hl.
  rewrite !select_app, IH by lia. f_equal. cbn [select]. by rewrite selected_bit by lia.
Qed.
End pack.

(** ** Lemmas: the stage *)

Lemma apply_correction_spec mont Y c k :
  mont_ok mont -> u512_reduced (Montgomery.N mont) Y -> mont_form mont c k ->
  u512_reduced (Montgomery.N mont) (apply_correction mont Y c) /\ u512_val (apply_correction mont Y c) = (u512_val Y * k) mod u512_val (Montgomery.N mont).
Proof.
  intros Hm [OY LY] Hc. unfold apply_correction. apply form_value; [done|]. apply mont_mul_form; [done|by apply mont_transform_form|done].
Qed.

Section stage.
Context (fresh : Z -> list uint512) (freshZ : Z -> list Z) (Halloc : allocates fresh freshZ).
Context (N : uint512) (HN : u512_ok N) (Ho : Z.odd (u512_val N) = true) (HN1 : 1 < u512_val N).
Context (b : HostRelationBatch) (rs : list relation) (Hb : repr b rs) (Hrs : Forall relation_ok rs).
Context (factor_base : list Z) (Hfb : Forall (in_width 32) factor_base) (Hin : Forall (factors_in_base factor_base) rs).
Context (sols : list (list Z * (option uint512 * Z))) (Hsols : Forall (solution_ok N factor_base rs) sols).
Notation fb_size := (Z.of_nat (length factor_base)).
Notation n_sol := (Z.of_nat (length sols)).
Notation rows := (map fst sols).
Notation view := (pack_solutions rows (num_relations b)).
Notation mont := (Montgomery_init N).
Notation chosen sol := (select (kbit sol.1) 0 rs).
Context (Hfits : fits (num_relations b) (wrap 32 (num_factors b)) fb_size n_sol).
Context (Hwords : n_sol * ((num_relations b + 63) / 64) < 2 ^ 32).
Context (corrections : list uint512) (Hcorr : corrections_of corrections sols).
Context (o : device_order) (Horder : device_schedule view b fb_size o).

Lemma stage_sizes : 0 <= num_relations b /\ num_relations b + 255 < 2 ^ 32 /\ 0 < fb_size < 2 ^ 32 /\ 0 < n_sol /\ n_sol + 255 < 2 ^ 32.
Proof using Hfits.
  destruct Hfits as [H1 H2 H3 H4 _ _]. pose proof (with_margin_le (num_relations b) ltac:(lia)). pose proof (with_margin_le fb_size ltac:(lia)).
  pose proof (with_margin_le n_sol ltac:(lia)). lia.
Qed.

Lemma view_solutions : num_solutions view = n_sol /\ forall s sol, sols !! s = Some sol -> select (selected view (Z.of_nat s)) 0 rs = chosen sol.
Proof using Hfits Hwords Hb.
  pose proof stage_sizes as (H1 & H2 & H3 & H4 & H5). pose proof (length_map fst sols) as EL. split.
  - destruct (pack_shape rows (num_relations b)) as [-> _]; [lia|rewrite EL; lia|]. by rewrite EL.
  - intros s sol Hs. pose proof (lookup_lt_Some _ _ _ Hs) as Hlt. rewrite (select_bits rows (num_relations b)); [|lia|rewrite EL; lia|rewrite EL; lia|rewrite EL; lia|].
    + rewrite Nat2Z.id. do 2 f_equal. rewrite nth_lookup, list_lookup_fmap, Hs. done.
    + rewrite (repr_num_relations b rs Hb). lia.
Qed.

(** The roots of the device for every solution, in whatever order blocks, threads and additions run. *)
Lemma device_roots_spec :
  exists bufs, device_roots fresh freshZ o N rows corrections b factor_base = Some bufs /\ n_sol <= Z.of_nat (length (d_factors bufs)) /\
  forall s sol, sols !! s = Some sol ->
    let X := dget (d_X bufs) (Z.of_nat s) in let Y := dget (d_Y bufs) (Z.of_nat s) in
    (u512_reduced N X /\ u512_val X = left_root rs sol mod u512_val N) /\ u512_reduced N Y /\
    (vget 0 (d_valid bufs) (Z.of_nat s) <> 0 <-> all_even factor_base (chosen sol)) /\
    (all_even factor_base (chosen sol) -> u512_val Y = right_root factor_base rs sol mod u512_val N) /\
    (~ all_even factor_base (chosen sol) -> u512_val Y = 0).
Proof using All.
  pose proof stage_sizes as (S1 & S2 & S3 & S4 & S5). destruct view_solutions as [En Ech]. pose proof (Montgomery_init_ok N HN Ho) as Hmont.
  destruct Horder as [Hx Hy _]. unfold device_roots. cbv zeta.
  rewrite (wrap_small 32 (num_relations b)), (wrap_small 32 fb_size) by (unfold in_width; lia). rewrite En.
  set (B0 := allocateDeviceBuffers _ _ _ _ _ _ _).
  assert (buffers_ok mont factor_base (num_relations b) (wrap 32 (num_factors b)) (num_solutions view) B0) as O0 by (rewrite En; by apply allocate_ok).
  set (B1 := ComputeXBatchedGPU _ _ _ _ _ _ _). pose proof (X_buffers fresh freshZ N b rs Hb factor_base view B0 O0 (x_blocks o)) as O1. fold B1 in O1.
  assert (forall s, 0 <= s < num_solutions view -> exponents_fit factor_base (select (selected view s) 0 rs)) as Hfit.
  { intros s Hs. destruct (lookup_lt_is_Some_2 sols (Z.to_nat s)) as [sol Hsol]; [lia|]. replace s with (Z.of_nat (Z.to_nat s)) by lia. rewrite (Ech _ _ Hsol).
    rewrite Forall_forall in Hsols. apply (Hsols sol). by eapply list_elem_of_lookup_2. }
  destruct (device_Y fresh freshZ Halloc N HN Ho b rs Hb Hrs factor_base Hfb Hin view B1 O1 (y_orders o) Hy Hfit) as (B2 & -> & EX & O2 & _ & HY2).
  rewrite bind_Some. eexists. split; [reflexivity|]. pose proof (bo_lengths _ _ _ _ _ _ O2) as (_ & LY & _ & _ & LF). rewrite En in LY, LF. split; [by destruct corrections|].
  intros s sol Hsol. cbv zeta. pose proof (lookup_lt_Some _ _ _ Hsol) as Hlt.
  pose proof (device_X fresh freshZ Halloc N HN Ho b rs Hb Hrs factor_base view B0 O0 (x_blocks o) (Z.of_nat s) Hx ltac:(lia)) as HX. cbv zeta in HX. fold B1 in HX.
  destruct (HY2 (Z.of_nat s) ltac:(lia)) as (V1 & V2 & V3). rewrite (Ech s sol Hsol) in *. rewrite <- EX in HX.
  assert (u512_reduced N (dget (d_Y B2) (Z.of_nat s)) /\ u512_val (dget (d_Y B2) (Z.of_nat s)) = if decide (vget 0 (d_valid B2) (Z.of_nat s) = 0) then 0 else Y_root factor_base (chosen sol) mod u512_val N) as [RY VY].
  { destruct (decide _) as [E|E]; [rewrite V3 by (intros H%V1; done); split; [split; [apply u512_zero_spec|rewrite (proj2 u512_zero_spec); lia]|apply u512_zero_spec]|by apply V2, V1]. }
  unfold right_root, left_root. destruct Hcorr as [[-> Hnone]|Hsome].
  - rewrite Forall_forall in Hnone, Hsols. pose proof (Hnone sol ltac:(by eapply list_elem_of_lookup_2)) as E1. destruct (Hsols sol ltac:(by eapply list_elem_of_lookup_2)) as [_ E2].
    rewrite E1 in E2. cbn [correction_value] in E2. rewrite E2, Z.mul_1_r. split; [exact HX|]. split; [exact RY|]. split; [exact V1|]. rewrite VY.
    split; intros H; [rewrite decide_False by (by apply V1); done|]. destruct (decide _) as [|Hne]; [done|]. by apply V1 in Hne.
  - assert (length corrections = length sols) as LC by (rewrite <- (length_map Some corrections), Hsome; apply length_map).
    assert (exists c, corrections !! s = Some c /\ sol.2.1 = Some c) as (c & Ec & Es).
    { destruct (lookup_lt_is_Some_2 corrections s) as [c Hc]; [lia|]. exists c. split; [done|].
      assert (map Some corrections !! s = map (fun s => s.2.1) sols !! s) as E by by rewrite Hsome. rewrite !list_lookup_fmap, Hc, Hsol in E. by injection E. }
    rewrite Forall_forall in Hsols. destruct (Hsols sol ltac:(by eapply list_elem_of_lookup_2)) as [_ E2]. rewrite Es in E2. cbn [correction_value] in E2.
    assert (corrections <> []) as Hne by (intros ->; done). destruct corrections as [|c0 cs] eqn:Ecs; [done|]. rewrite <- Ecs in *.
    cbn [ApplyLPCorrection d_X d_Y d_valid]. rewrite LC, (wrap_small 32 n_sol) by (unfold in_width; lia). unfold ApplyLPCorrectionKernel.
    rewrite (transform_get u512_zero _ n_sol 256) by lia.
    assert (dget corrections (Z.of_nat s) = c) as -> by (unfold vget; rewrite Nat2Z.id, nth_lookup, Ec; done).
    destruct (apply_correction_spec mont (dget (d_Y B2) (Z.of_nat s)) c sol.2.2 Hmont RY E2) as [RC VC]. change (Montgomery.N mont) with N in *.
    split; [exact HX|]. split; [exact RC|]. split; [exact V1|]. rewrite VC, VY. split; intros H.
    + rewrite decide_False by (by apply V1). by rewrite Z.mul_mod_idemp_l by lia.
    + destruct (decide _) as [|Hne']; [by rewrite Zmod_0_l|]. by apply V1 in Hne'.
Qed.
End stage.

Lemma find_pair_proper N f co :
  u512_ok N -> u512_ok f -> u512_ok co -> u512_val f * u512_val co = u512_val N -> 1 <= u512_val f < u512_val N ->
  negb (is_zero f) && negb (is_zero co) && negb (is_one f) && negb (u512_eqb f N) && u512_eqb (mult f co) N = (1 <? u512_val f).
Proof.
  intros HN Hf Hco E Hr. destruct (mult_spec f co Hf Hco) as [Om Vm]. rewrite !is_zero_spec, is_one_spec, !u512_eqb_val, Vm, E by done.
  rewrite wrap_small by by apply u512_bound. destruct (Z.eqb_spec (u512_val f) 0); [lia|]. destruct (Z.eqb_spec (u512_val co) 0) as [E0|]; [rewrite E0 in E; lia|].
  destruct (Z.eqb_spec (u512_val f) (u512_val N)); [lia|]. rewrite Z.eqb_refl. destruct (Z.eqb_spec (u512_val f) 1), (Z.ltb_spec 1 (u512_val f)); try lia; done.
Qed.

Lemma stage_solutions (sols : list (list Z * (option uint512 * Z))) corrections :
  corrections_of corrections sols ->
  map (fun j => (nth (Z.to_nat j) (map fst sols) [], if j <? Z.of_nat (length corrections) then Some (dget corrections j) else None)) (upto (Z.of_nat (length (map fst sols))))
  = map (fun s => (s.1, s.2.1)) sols.
Proof.
  intros Hc. rewrite length_map. apply list_eq. intros i. rewrite !list_lookup_fmap.
  destruct (decide (i < length sols)%nat) as [Hi|Hi]; [|by rewrite !lookup_ge_None_2 by (rewrite ?length_upto; lia)].
  rewrite lookup_upto by lia. destruct (lookup_lt_is_Some_2 sols i Hi) as [s Hs]. rewrite Hs. cbn [fmap option_fmap option_map].
  rewrite Nat2Z.id, nth_lookup, list_lookup_fmap, Hs. cbn. f_equal. f_equal. destruct Hc as [[-> Hn]|Hm].
  - cbn [length]. rewrite (proj2 (Z.ltb_ge _ _)) by lia. rewrite Forall_forall in Hn. symmetry. apply Hn. by eapply list_elem_of_lookup_2.
  - assert (map Some corrections !! i = map (fun s => s.2.1) sols !! i) as E by by rewrite Hm. rewrite !list_lookup_fmap, Hs in E.
    destruct (corrections !! i) as [c|] eqn:Ec; [|done]. injection E as <-. apply lookup_lt_Some in Ec as Hlt. rewrite (proj2 (Z.ltb_lt _ _)) by lia.
    unfold vget. by rewrite Nat2Z.id, nth_lookup, Ec.
Qed.

(** ** Properties *)

(** C3. The device path agrees with the host path, whatever the order of its blocks, threads and atomic additions and
    whatever its fresh buffers held: for every solution the chunked product is the host's [X]; the flag of the halving kernel survives exactly when
    every exponent is even; in that case [Y] (windowed powers, tree reductions and correction included) is the host's, and
    otherwise it is 0. *)
Theorem device_matches_host fresh freshZ N b rs factor_base sols corrections o :
  stage_ok fresh freshZ N b rs factor_base sols corrections o ->
  exists bufs, device_roots fresh freshZ o N (map fst sols) corrections b factor_base = Some bufs /\
  forall s sol, sols !! s = Some sol ->
    let mask := unpack_bits_local sol.1 (num_relations b) in
    let mont := Montgomery_init N in
    let even := all_even factor_base (select (kbit sol.1) 0 rs) in
    dget (d_X bufs) (Z.of_nat s) = ComputeX mask b mont /\
    (vget 0 (d_valid bufs) (Z.of_nat s) <> 0 <-> even) /\
    (even -> exists Y, ComputeY N mask b factor_base mont = Some Y /\
       dget (d_Y bufs) (Z.of_nat s) = match sol.2.1 with Some c => apply_correction mont Y c | None => Y end) /\
    (~ even -> dget (d_Y bufs) (Z.of_nat s) = u512_zero).
Proof.
  intros [Ha HN Ho HN1 Hb Hrs Hfb Hin Hsols Hfits Hwords Hcorr Hord]. pose proof (Montgomery_init_ok N HN Ho) as Hmont.
  destruct (device_roots_spec fresh freshZ Ha N HN Ho HN1 b rs Hb Hrs factor_base Hfb Hin sols Hsols Hfits Hwords corrections Hcorr o Hord) as (bufs & E & _ & H).
  exists bufs. split; [exact E|]. intros s sol Hs. cbv zeta. destruct (H s sol Hs) as ([RX VX] & RY & HV & HE & HO).
  rewrite Forall_forall in Hsols. destruct (Hsols sol ltac:(by eapply list_elem_of_lookup_2)) as [Hfit Hc].
  destruct (ComputeX_spec _ Hmont b rs Hb Hrs sol.1) as [RX' VX']. destruct (ComputeY_spec _ Hmont b rs Hb Hrs sol.1 factor_base Hfb Hfit) as (Y & EY & RY' & VY').
  change (Montgomery.N (Montgomery_init N)) with N in *. split; [|split; [exact HV|split]].
  - apply u512_val_inj; [apply RX|apply RX'|]. by rewrite VX, VX'.
  - intros Hev. exists Y. split; [exact EY|]. specialize (HE Hev). unfold right_root in HE. destruct sol as [bits [[c|] k]]; cbn [fst snd correction_value] in *.
    + destruct (apply_correction_spec _ Y c k Hmont RY' Hc) as [RC VC]. change (Montgomery.N (Montgomery_init N)) with N in *.
      apply u512_val_inj; [apply RY|apply RC|]. by rewrite HE, VC, VY', Z.mul_mod_idemp_l by lia.
    + apply u512_val_inj; [apply RY|apply RY'|]. by rewrite HE, VY', Hc, Z.mul_1_r.
  - intros Hodd. apply u512_val_inj; [apply RY|apply u512_zero_spec|]. by rewrite HO, (proj2 u512_zero_spec).
Qed.

(** C2. The square-root stage on any solutions (at most 1024) ends with a proper factorisation of [N], or
    with none, and then no solution is a congruence of squares with roots that differ by more than the sign. It neither
    runs out of fuel nor reports a wrong factor, even for solutions that are no congruence. *)
Theorem square_root_stage_factors fresh freshZ N b rs factor_base sols corrections o :
  stage_ok fresh freshZ N b rs factor_base sols corrections o -> Z.of_nat (length sols) <= 1024 ->
  exists r, square_root_stage fresh freshZ o N (map fst sols) corrections b factor_base = Some r /\
  match r with
  | Some (Pair f co) => u512_val f * u512_val co = u512_val N /\ 1 < u512_val f < u512_val N
  | Some Threw => False
  | None => Forall (fun s => ~ splits (u512_val N) (left_root rs s) (right_root factor_base rs s)) sols
  end.
Proof.
  intros [Ha HN Ho HN1 Hb Hrs Hfb Hin Hsols Hfits Hwords Hcorr Hord] Hn.
  destruct (device_roots_spec fresh freshZ Ha N HN Ho HN1 b rs Hb Hrs factor_base Hfb Hin sols Hsols Hfits Hwords corrections Hcorr o Hord) as (bufs & E & L & H).
  unfold square_root_stage. rewrite E, bind_Some, length_map.
  destruct (BatchedGCD_spec N HN HN1 (refine_order o) (refine_orders o) (d_X bufs) (d_Y bufs) (Z.of_nat (length sols)) (d_factors bufs)) as (f & co & -> & Of & Oco & Ep & Hr & _);
    [by apply Hord|lia|done| |].
  { intros j Hj. destruct (lookup_lt_is_Some_2 sols (Z.to_nat j)) as [sol Hs]; [lia|]. destruct (H _ _ Hs) as ([RX _] & RY & _). rewrite Z2Nat.id in RX, RY by lia. done. }
  rewrite bind_Some, find_pair_proper by done. destruct (Z.ltb_spec 1 (u512_val f)); [eexists; split; [done|]; split; [done|lia]|].
  rewrite <- (length_map fst sols), (stage_solutions sols corrections Hcorr).
  destruct (try_solutions_spec N b rs factor_base sols HN Ho HN1 Hb Hrs Hfb Hsols) as (r & -> & Hr'). rewrite bind_Some. eexists. split; [done|].
  by destruct r as [[f1 f2]|].
Qed.

Lemma canonical_schedule ks b fb_size : device_schedule (pack_solutions ks (num_relations b)) b fb_size (canonical_order ks b fb_size).
Proof.
  unfold canonical_order. cbv zeta. constructor; [done|by constructor|]. cbn [refine_order refine_orders]. split; [done|]. split; [|apply length_replicate].
  by apply Forall_replicate.
Qed.

Lemma stage_1649_ok : stage_ok zeros zerosZ (u512_of_Z 1649) (batch_of rels_1649) rels_1649 [5] [([3], (None, 1))] [] (canonical_order [[3]] (batch_of rels_1649) 1).
Proof.
  constructor.
  - split; intros n; apply length_replicate.
  - apply u512_of_Z_spec.
  - reflexivity.
  - reflexivity.
  - apply repr_batch_of.
  - apply (bool_decide_unpack (Forall relation_ok rels_1649)). vm_compute. exact I.
  - apply (bool_decide_unpack (Forall (in_width 32) [5])). vm_compute. exact I.
  - repeat (constructor; [split; [by vm_compute|by repeat constructor]|]). constructor.
  - repeat (constructor; [split; [constructor; [by vm_compute|by vm_compute|intros j Hj; cbn in Hj; assert (j = 0) as -> by lia; reflexivity]|reflexivity]|]). constructor.
  - by constructor.
  - reflexivity.
  - left. split; [done|]. by repeat constructor.
  - apply canonical_schedule.
Qed.

Lemma splits_1649 : splits 1649 (left_root rels_1649 ([3], (None, 1))) (right_root [5] rels_1649 ([3], (None, 1))).
Proof. split; [by vm_compute|]. split; [by vm_compute|]. split; by vm_compute. Qed.

Lemma device_matches_host_witness :
  exists bufs, device_roots zeros zerosZ (canonical_order [[3]] (batch_of rels_1649) 1) (u512_of_Z 1649) [[3]] [] (batch_of rels_1649) [5] = Some bufs /\
    dget (d_X bufs) 0 = ComputeX (unpack_bits_local [3] 2) (batch_of rels_1649) (Montgomery_init (u512_of_Z 1649)).
Proof.
  destruct (device_matches_host _ _ _ _ _ _ _ _ _ stage_1649_ok) as (bufs & E & H). exists bufs. split; [exact E|].
  destruct (H 0%nat _ eq_refl) as [HX _]. exact HX.
Defined.

Lemma square_root_stage_factors_witness :
  exists f co, square_root_stage zeros zerosZ (canonical_order [[3]] (batch_of rels_1649) 1) (u512_of_Z 1649) [[3]] [] (batch_of rels_1649) [5] = Some (Some (Pair f co)) /\
    u512_val f * u512_val co = 1649 /\ 1 < u512_val f < 1649.
Proof.
  destruct (square_root_stage_factors _ _ _ _ _ _ _ _ _ stage_1649_ok ltac:(vm_compute; discriminate)) as (r & E & H).
  destruct r as [[|f co]|]; [destruct H|exists f, co; split; [exact E|exact H]|]. exfalso. apply Forall_inv in H. exact (H splits_1649).
Defined.
