(* ===== verification/Residues.v ===== *)
(** Quadratic residues, for the files that model the factor base and the polynomials: the Jacobi symbol by
    the signs of a half system (Gauss, Schering), its multiplicativity and reciprocity, Euler's criterion, and the bound on the
    number of roots of a polynomial that gives a non-residue. *)
From Stdlib Require Import ZArith Lia Setoid Morphisms.
From stdpp Require Import base gmap sets list.
From S2P Require Import Prelude Gf2 RowOps Congruence.
#[local] Open Scope Z_scope.

(** ** Definitions *)

(** [1, ..., (n - 1) / 2]. *)
Definition half (n : Z) : list Z := map (Z.add 1) (upto ((n - 1) / 2)).

(** The half in which a residue lies, and its distance to the nearest multiple of [n]. *)
Definition side (n x : Z) : Z := if x mod n <=? (n - 1) / 2 then 1 else -1.
Definition dist (n x : Z) : Z := if x mod n <=? (n - 1) / 2 then x mod n else n - x mod n.

(** The Jacobi symbol of coprime [a] and odd [n]. *)
Definition symbol (a n : Z) : Z := zprod (map (fun k => side n (a * k)) (half n)).

(** The Jacobi symbol, 0 when there is a common factor. *)
Definition jacobi_symbol (a n : Z) : Z := if Z.gcd a n =? 1 then symbol a n else 0.

(** Polynomials by their coefficients, constant term first. *)
Definition peval (c : list Z) (x : Z) : Z := foldr (fun a acc => a + x * acc) 0 c.

Definition is_root (p : Z) (c : list Z) (x : Z) : Prop := peval c x ≅{p} 0.

Definition residue (p a : Z) : Prop := exists x, x * x ≅{p} a.

(** ** Vocabulary of the specifications *)

(** [x^h - 1]. *)
Definition power_minus_one (h : nat) : list Z := -1 :: replicate (h - 1) 0 ++ [1].

(** ** Lemmas: congruences *)

Lemma cong_small n x y : 0 <= x < n -> 0 <= y < n -> x ≅{n} y -> x = y.
Proof. intros Hx Hy E. unfold cong in E. by rewrite !Z.mod_small in E. Qed.

Lemma cong_0 n x : n <> 0 -> x ≅{n} 0 <-> (n | x).
Proof. intros Hn. rewrite cong_divide by done. by rewrite Z.sub_0_r. Qed.

(** A unit cancels. *)
Lemma cong_cancel n k x y : n <> 0 -> Z.gcd k n = 1 -> k * x ≅{n} k * y -> x ≅{n} y.
Proof.
  intros Hn Hk. rewrite !cong_divide by done. rewrite <- Z.mul_sub_distr_l. intros H. apply Z.gauss with k; [done|]. by rewrite Z.gcd_comm.
Qed.

Lemma gcd_mul_1 a b n : Z.gcd a n = 1 -> Z.gcd b n = 1 -> Z.gcd (a * b) n = 1.
Proof. apply Z.coprime_mul_l. Qed.

Lemma gcd_cong a b n : a ≅{n} b -> Z.gcd a n = Z.gcd b n.
Proof. intros E. rewrite <- (Z.gcd_mod_l a n), <- (Z.gcd_mod_l b n). by rewrite E. Qed.

Lemma elem_of_half n k : k ∈ half n <-> 1 <= k <= (n - 1) / 2.
Proof.
  unfold half. rewrite list_elem_of_In, in_map_iff. split.
  - intros (i & <- & Hi). apply list_elem_of_In, elem_of_upto in Hi. lia.
  - intros Hk. exists (k - 1). split; [lia|]. apply list_elem_of_In, elem_of_upto. lia.
Qed.

Lemma NoDup_half n : NoDup (half n).
Proof. apply NoDup_fmap_2; [intros x y; lia|apply NoDup_upto]. Qed.

Lemma zprod_const {A} c (l : list A) : zprod (map (fun _ => c) l) = c ^ Z.of_nat (length l).
Proof. induction l as [|x l IH]; [done|]. cbn [map length]. by rewrite zprod_cons, IH, Nat2Z.inj_succ, Z.pow_succ_r by lia. Qed.

Lemma length_half n : 0 < n -> Z.of_nat (length (half n)) = (n - 1) / 2.
Proof. intros Hn. unfold half. rewrite length_map, length_upto. apply Z2Nat.id, Z.div_pos; lia. Qed.

(** ** The half system *)

Section half_system.
Context (n : Z) (Hn : 0 < n) (Hodd : n mod 2 = 1).
Notation h := ((n - 1) / 2).

Lemma n_half : n = 2 * h + 1.
Proof using Hodd. pose proof (Z.div_mod (n - 1) 2 ltac:(lia)) as E. assert ((n - 1) mod 2 = 0) by (rewrite Zminus_mod, Hodd; done). lia. Qed.

Lemma side_sign x : side n x = 1 \/ side n x = -1.
Proof using Type. unfold side. destruct (_ <=? _); auto. Qed.

Lemma side_dist x : x ≅{n} side n x * dist n x.
Proof using Hn.
  unfold side, dist. destruct (_ <=? _).
  - rewrite Z.mul_1_l. symmetry. apply cong_mod.
  - replace (-1 * (n - x mod n)) with (x mod n + (-1) * n) by ring. unfold cong. by rewrite Z.mod_add, Zmod_mod by lia.
Qed.

Lemma dist_range x : x mod n <> 0 -> 1 <= dist n x <= h.
Proof using Hn Hodd.
  intros Hz. pose proof n_half. pose proof (Z.mod_pos_bound x n Hn) as Hm. unfold dist. destruct (Z.leb_spec (x mod n) h); lia.
Qed.

Lemma side_cong x y : x ≅{n} y -> side n x = side n y.
Proof using Type. intros E. unfold side. by rewrite E. Qed.

Lemma dist_cong x y : x ≅{n} y -> dist n x = dist n y.
Proof using Type. intros E. unfold dist. by rewrite E. Qed.

(** The sign is an odd function. *)
Lemma side_mul s x : s = 1 \/ s = -1 -> x mod n <> 0 -> side n (s * x) = s * side n x.
Proof using Hn Hodd.
  intros [-> | ->] Hz; [by rewrite !Z.mul_1_l|]. replace (-1 * x) with (- x) by ring. pose proof n_half. pose proof (Z.mod_pos_bound x n Hn) as Hm.
  unfold side. rewrite Z.mod_opp_l_nz by lia. destruct (Z.leb_spec (x mod n) h), (Z.leb_spec (n - x mod n) h); lia.
Qed.

Lemma unit_half a k : Z.gcd a n = 1 -> k ∈ half n -> (a * k) mod n <> 0.
Proof using Hn Hodd.
  intros Ha Hk%elem_of_half E. pose proof n_half. apply Z.mod_divide in E; [|lia]. apply Z.gauss in E; [|by rewrite Z.gcd_comm].
  apply Z.divide_pos_le in E; lia.
Qed.

(** Multiplication by a unit permutes the half system up to signs. *)
Lemma dist_inj a x y : Z.gcd a n = 1 -> x ∈ half n -> y ∈ half n -> dist n (a * x) = dist n (a * y) -> x = y.
Proof using Hn Hodd.
  intros Ha Hx%elem_of_half Hy%elem_of_half E. pose proof n_half.
  pose proof (side_dist (a * x)) as Ex. pose proof (side_dist (a * y)) as Ey. rewrite <- E in Ey.
  assert (a * x ≅{n} a * y \/ a * x ≅{n} a * (- y)) as [Hc|Hc].
  { destruct (side_sign (a * x)) as [Sx|Sx], (side_sign (a * y)) as [Sy|Sy]; rewrite Sx in Ex; rewrite Sy in Ey.
    - left. by rewrite Ex, Ey.
    - right. rewrite Z.mul_opp_r. rewrite Ex, Ey. by replace (- (-1 * dist n (a * x))) with (1 * dist n (a * x)) by ring.
    - right. rewrite Z.mul_opp_r. rewrite Ex, Ey. by replace (- (1 * dist n (a * x))) with (-1 * dist n (a * x)) by ring.
    - left. by rewrite Ex, Ey. }
  - apply cong_cancel in Hc; [|lia|done]. apply (cong_small n); [lia|lia|done].
  - apply cong_cancel in Hc; [|lia|done]. apply cong_divide in Hc; [|lia]. destruct Hc as [q Hq]. assert (q = 0 \/ q >= 1 \/ q <= -1) as [->|[?|?]] by lia; [lia|nia|nia].
Qed.
Lemma half_perm a : Z.gcd a n = 1 -> map (fun k => dist n (a * k)) (half n) ≡ₚ half n.
Proof using Hn Hodd.
  intros Ha. apply submseteq_length_Permutation; [|by rewrite length_map]. apply NoDup_submseteq.
  - apply NoDup_fmap_2_strong; [|apply NoDup_half]. intros x y Hx Hy. by apply dist_inj.
  - intros x (k & <- & Hk)%list_elem_of_In%in_map_iff. apply list_elem_of_In in Hk. apply elem_of_half. by apply dist_range, unit_half.
Qed.

Lemma zprod_half (f : Z -> Z) a : Z.gcd a n = 1 -> zprod (map (fun k => f (dist n (a * k))) (half n)) = zprod (map f (half n)).
Proof using Hn Hodd. intros Ha. rewrite <- (map_map _ f). apply zprod_perm, Permutation_map. by apply half_perm. Qed.

(** ** Lemmas: the symbol *)

Lemma symbol_cong a b : a ≅{n} b -> symbol a n = symbol b n.
Proof using Type. intros E. unfold symbol. f_equal. apply map_ext. intros k. apply side_cong. by rewrite E. Qed.

Lemma symbol_one : symbol 1 n = 1.
Proof using Hn Hodd.
  unfold symbol. rewrite (map_ext_in _ (fun _ => 1)); [apply zprod_one|]. intros k Hk%list_elem_of_In%elem_of_half. pose proof n_half.
  unfold side. rewrite Z.mul_1_l, Z.mod_small by lia. by rewrite (proj2 (Z.leb_le k _)) by lia.
Qed.

Lemma symbol_mul a b : Z.gcd a n = 1 -> Z.gcd b n = 1 -> symbol (a * b) n = symbol a n * symbol b n.
Proof using Hn Hodd.
  intros Ha Hb. unfold symbol. rewrite <- (zprod_half (fun k => side n (a * k)) b Hb), <- zprod_mul. f_equal.
  apply map_ext_in. intros k Hk%list_elem_of_In. pose proof (unit_half b k Hb Hk) as Hz.
  assert (a * b * k ≅{n} side n (b * k) * (a * dist n (b * k))) as E.
  { rewrite <- Z.mul_assoc. rewrite (side_dist (b * k)) at 1. by replace (a * (side n (b * k) * dist n (b * k))) with (side n (b * k) * (a * dist n (b * k))) by ring. }
  rewrite (side_cong _ _ E), side_mul; [ring|apply side_sign|]. apply unit_half; [done|]. apply elem_of_half. by apply dist_range.
Qed.

Lemma symbol_sign a : Z.gcd a n = 1 -> symbol a n * symbol a n = 1.
Proof using Hn Hodd.
  intros Ha. unfold symbol. rewrite <- zprod_mul, (map_ext _ (fun _ => 1)); [apply zprod_one|]. intros k. by destruct (side_sign (a * k)) as [-> | ->].
Qed.

Lemma symbol_pow2 a z : Z.gcd a n = 1 -> Z.gcd 2 n = 1 -> 0 <= z -> symbol (2 ^ z * a) n = symbol 2 n ^ z * symbol a n.
Proof using Hn Hodd.
  intros Ha H2 Hz. pattern z. apply natlike_ind; [by rewrite !Z.pow_0_r, !Z.mul_1_l| |done].
  clear z Hz. intros z Hz IH. rewrite !Z.pow_succ_r by done. rewrite <- !Z.mul_assoc, symbol_mul, IH; [ring|done|].
  apply gcd_mul_1; [|done]. by apply Z.coprime_pow_l.
Qed.

(** Gauss's lemma: modulo a prime the symbol is Euler's power. *)
Lemma euler_power a : Z.prime n -> Z.gcd a n = 1 -> a ^ h ≅{n} symbol a n.
Proof using Hn Hodd.
  intros Hp Ha. pose proof n_half. apply (cong_cancel n (zprod (half n))); [lia| |].
  - assert (forall l, (forall k, k ∈ l -> k ∈ half n) -> Z.gcd (zprod l) n = 1) as H'; [|by apply H'].
    induction l as [|k l IH]; intros Hl; [rewrite zprod_nil; apply Z.gcd_1_l|]. rewrite zprod_cons. apply gcd_mul_1; [|apply IH; intros x Hx; apply Hl, elem_of_cons; by right].
    rewrite Z.gcd_comm. assert (k ∈ half n) as Hk%elem_of_half by (apply Hl, elem_of_cons; by left). apply Z.coprime_prime_small; [done|lia].
  - transitivity (zprod (map (fun k => a * k) (half n))).
    + by rewrite zprod_mul, map_id, zprod_const, length_half, Z.mul_comm.
    + transitivity (zprod (map (fun k => side n (a * k) * dist n (a * k)) (half n))).
      * apply zprod_cong, Forall_true. intros k. apply side_dist.
      * rewrite zprod_mul. fold (symbol a n). rewrite (zprod_half (fun k => k) a Ha), map_id. by rewrite Z.mul_comm.
Qed.

(** Eisenstein: the sign by the parity of the quotients. *)
Lemma symbol_floor a : 0 < a -> a mod 2 = 1 -> Z.gcd a n = 1 -> symbol a n = zprod (map (fun k => (-1) ^ (a * k / n)) (half n)).
Proof using Hn Hodd.
  intros Ha0 Ha2 Ha. pose proof n_half.
  assert (zprod (map (fun k => (-1) ^ (a * k / n)) (half n)) = zprod (map (fun k => (-1) ^ k * ((-1) ^ dist n (a * k) * side n (a * k))) (half n))) as ->.
  2:{ rewrite !zprod_mul, (zprod_half (fun k => (-1) ^ k) a Ha). fold (symbol a n). rewrite Z.mul_assoc, <- zprod_mul, (map_ext_in _ (fun _ => 1)).
      - by rewrite zprod_one, Z.mul_1_l.
      - intros k Hk%list_elem_of_In%elem_of_half. rewrite <- Z.pow_mul_l. apply Z.pow_1_l. lia. }
  f_equal. apply map_ext_in. intros k Hk%list_elem_of_In%elem_of_half.
  pose proof (Z.div_mod (a * k) n ltac:(lia)) as E. pose proof (Z.mod_pos_bound (a * k) n Hn) as Hm. assert (0 <= a * k / n) as Hq by (apply Z.div_pos; nia).
  assert (forall x, 0 <= x -> (-1) ^ x = if x mod 2 =? 0 then 1 else -1) as Hpow.
  { intros x Hx. rewrite (Z.div_mod x 2) at 1 by lia. rewrite Z.pow_add_r, Z.pow_mul_r by (pose proof (Z.mod_pos_bound x 2); pose proof (Z.div_pos x 2); lia).
    change ((-1) ^ 2) with 1. rewrite Z.pow_1_l, Z.mul_1_l by (apply Z.div_pos; lia). pose proof (Z.mod_pos_bound x 2 ltac:(lia)).
    destruct (Z.eqb_spec (x mod 2) 0) as [->|]; [done|]. by assert (x mod 2 = 1) as -> by lia. }
  assert (a * k = k + 2 * (a / 2 * k)) as Eak by (pose proof (Z.div_mod a 2 ltac:(lia)); nia).
  set (q := a * k / n) in *. set (r := (a * k) mod n) in *. assert (n * q = q + 2 * (h * q)) as Enq by (rewrite H at 1; ring). unfold dist, side. fold r.
  destruct (Z.leb_spec r h).
  - rewrite Z.mul_1_r, !Hpow by lia. replace q with (k + r + 2 * (a / 2 * k - h * q - r)) by lia. rewrite Z.mul_comm, Z_mod_plus_full, Zplus_mod.
    pose proof (Z.mod_pos_bound k 2 ltac:(lia)). pose proof (Z.mod_pos_bound r 2 ltac:(lia)).
    assert (k mod 2 = 0 \/ k mod 2 = 1) as [-> | ->] by lia; assert (r mod 2 = 0 \/ r mod 2 = 1) as [-> | ->] by lia; done.
  - rewrite !Hpow by lia. replace q with (k + r + 2 * (a / 2 * k - h * q - r)) by lia. replace (n - r) with (1 + r + 2 * (h - r)) by lia.
    rewrite !(Z.mul_comm 2), !Z_mod_plus_full, (Zplus_mod k r), (Zplus_mod 1 r).
    pose proof (Z.mod_pos_bound k 2 ltac:(lia)). pose proof (Z.mod_pos_bound r 2 ltac:(lia)).
    assert (k mod 2 = 0 \/ k mod 2 = 1) as [-> | ->] by lia; assert (r mod 2 = 0 \/ r mod 2 = 1) as [-> | ->] by lia; done.
Qed.
End half_system.

Lemma neg_one_parity x : 0 <= x -> (-1) ^ x = if Z.even x then 1 else -1.
Proof.
  intros Hx. pose proof (Z.div_mod x 2 ltac:(lia)) as E. rewrite Zmod_odd in E. assert (0 <= x / 2) by (apply Z.div_pos; lia).
  rewrite E at 1. rewrite <- Z.negb_odd. destruct (Z.odd x); cbn [negb].
  - rewrite Z.pow_add_r, Z.pow_mul_r by lia. change ((-1) ^ 2) with 1. by rewrite Z.pow_1_l.
  - rewrite Z.add_0_r, Z.pow_mul_r by lia. change ((-1) ^ 2) with 1. by rewrite Z.pow_1_l.
Qed.

(** Counting by signs: the elements of [1 .. m] up to a bound. *)
Lemma zprod_threshold m b : 0 <= m -> 0 <= b -> zprod (map (fun j => if j <=? b then -1 else 1) (map (Z.add 1) (upto m))) = (-1) ^ Z.min m b.
Proof.
  intros Hm Hb. pattern m. apply natlike_ind; [by rewrite Z.min_l by lia| |done].
  clear m Hm. intros m Hm IH. change (Z.succ m) with (m + 1). rewrite upto_S, !map_app, zprod_app, IH by done. cbn [map]. rewrite zprod_cons, zprod_nil, Z.mul_1_r.
  destruct (Z.leb_spec (1 + m) b).
  - rewrite !Z.min_l by lia. rewrite Z.pow_add_r by lia. done.
  - rewrite !Z.min_r by lia. lia.
Qed.

(** The supplementary law for 2. *)
Lemma symbol_two n : 0 < n -> n mod 2 = 1 -> symbol 2 n = if (n mod 8 =? 3) || (n mod 8 =? 5) then -1 else 1.
Proof.
  intros Hn Hodd. pose proof (n_half n Hodd) as E. set (h := (n - 1) / 2) in *. unfold symbol.
  rewrite (map_ext_in _ (fun k => -1 * (if k <=? h / 2 then -1 else 1))).
  2:{ intros k Hk%list_elem_of_In%elem_of_half. fold h in Hk. unfold side. fold h. rewrite Z.mod_small by lia. pose proof (Z.div_mod h 2 ltac:(lia)). pose proof (Z.mod_pos_bound h 2 ltac:(lia)).
      destruct (Z.leb_spec (2 * k) h), (Z.leb_spec k (h / 2)); lia. }
  rewrite zprod_mul. unfold half. fold h. assert (0 <= h) by lia. assert (0 <= h / 2 <= h) by (split; [apply Z.div_pos; lia|apply Z.div_le_upper_bound; lia]).
  rewrite zprod_threshold, Z.min_r by lia. rewrite map_map.
  rewrite zprod_const, length_upto, Z2Nat.id by lia.
  rewrite <- Z.pow_add_r by lia. rewrite neg_one_parity by lia.
  pose proof (Z.div_mod h 4 ltac:(lia)) as E4. pose proof (Z.mod_pos_bound h 4 ltac:(lia)) as M4. set (q := h / 4) in *. set (r := h mod 4) in *.
  assert (h / 2 = 2 * q + r / 2) as -> by (symmetry; rewrite E4; replace (4 * q + r) with (r + (2 * q) * 2) by ring; rewrite Z.div_add by lia; lia).
  assert (n mod 8 = 2 * r + 1) as -> by (rewrite E, E4; replace (2 * (4 * q + r) + 1) with (2 * r + 1 + q * 8) by ring; rewrite Z.mod_add, Z.mod_small by lia; done).
  rewrite E4. replace (4 * q + r + (2 * q + r / 2)) with (r + r / 2 + 2 * (3 * q)) by ring. rewrite Z.even_add_mul_2.
  assert (r = 0 \/ r = 1 \/ r = 2 \/ r = 3) as [-> |[-> |[-> | ->]]] by lia; done.
Qed.

(** ** Reciprocity *)

Lemma zprod_exchange {A B} (f : A -> B -> Z) la lb :
  zprod (map (fun x => zprod (map (f x) lb)) la) = zprod (map (fun y => zprod (map (fun x => f x y) la)) lb).
Proof.
  induction la as [|x la IH]; cbn [map]; [rewrite zprod_nil; symmetry; apply zprod_one|].
  rewrite zprod_cons, IH, <- zprod_mul. f_equal.
Qed.

(** A row of lattice points below the diagonal. *)
Lemma floor_row a n k : 0 < n -> 0 < a -> a mod 2 = 1 -> n mod 2 = 1 -> k ∈ half n ->
  (-1) ^ (a * k / n) = zprod (map (fun j => if n * j <=? a * k then -1 else 1) (half a)).
Proof.
  intros Hn Ha Ha2 Hn2 Hk%elem_of_half. pose proof (n_half n Hn2) as En. pose proof (n_half a Ha2) as Ea.
  assert (0 <= a * k / n <= (a - 1) / 2) as Hq.
  { split; [apply Z.div_pos; nia|]. apply Z.lt_succ_r, Z.div_lt_upper_bound; [done|]. nia. }
  rewrite (map_ext _ (fun j => if j <=? a * k / n then -1 else 1)).
  - unfold half. rewrite zprod_threshold by lia. by rewrite Z.min_r by lia.
  - intros j. pose proof (Z.div_mod (a * k) n ltac:(lia)) as E. pose proof (Z.mod_pos_bound (a * k) n Hn).
    destruct (Z.leb_spec (n * j) (a * k)), (Z.leb_spec j (a * k / n)); [done|nia|nia|done].
Qed.

Lemma reciprocity a n :
  0 < a -> 0 < n -> a mod 2 = 1 -> n mod 2 = 1 -> Z.gcd a n = 1 -> symbol a n * symbol n a = if (a mod 4 =? 3) && (n mod 4 =? 3) then -1 else 1.
Proof.
  intros Ha Hn Ha2 Hn2 Hg. pose proof (n_half n Hn2) as En. pose proof (n_half a Ha2) as Ea. set (h := (n - 1) / 2) in *. set (g := (a - 1) / 2) in *.
  rewrite (symbol_floor n Hn Hn2 a), (symbol_floor a Ha Ha2 n) by (done || by rewrite Z.gcd_comm).
  rewrite (map_ext_in _ (fun k => zprod (map (fun j => if n * j <=? a * k then -1 else 1) (half a))) (half n)) by (intros k Hk%list_elem_of_In; by apply floor_row).
  rewrite (map_ext_in _ (fun j => zprod (map (fun k => if a * k <=? n * j then -1 else 1) (half n))) (half a)) by (intros j Hj%list_elem_of_In; by apply floor_row).
  rewrite (zprod_exchange _ (half n) (half a)), <- zprod_mul.
  rewrite (map_ext_in _ (fun _ => (-1) ^ h)).
  2:{ intros j Hj%list_elem_of_In. apply elem_of_half in Hj. fold g in Hj. rewrite <- zprod_mul, (map_ext_in _ (fun _ => -1)).
    - by rewrite zprod_const, length_half.
    - intros k Hk%list_elem_of_In. assert (n * j <> a * k) as Hne.
      { intros E. assert ((a * k) mod n <> 0) as H by by apply unit_half. apply H. rewrite <- E, Z.mul_comm. by apply Z_mod_mult. }
      destruct (Z.leb_spec (n * j) (a * k)), (Z.leb_spec (a * k) (n * j)); try lia; done. }
  rewrite zprod_const, length_half, <- Z.pow_mul_r by lia. fold g.
  rewrite neg_one_parity, Z.even_mul by (apply Z.mul_nonneg_nonneg; lia).
  assert (forall m e, m = 2 * e + 1 -> (m mod 4 =? 3) = negb (Z.even e)) as H4.
  { intros m e ->. pose proof (Z.div_mod e 2 ltac:(lia)) as E. rewrite Zmod_odd in E. rewrite E at 1. rewrite Z.negb_even. destruct (Z.odd e).
    - replace (2 * (2 * (e / 2) + 1) + 1) with (3 + e / 2 * 4) by ring. by rewrite Z.mod_add, Z.mod_small by lia.
    - replace (2 * (2 * (e / 2) + 0) + 1) with (1 + e / 2 * 4) by ring. by rewrite Z.mod_add, Z.mod_small by lia. }
  rewrite (H4 a g Ea), (H4 n h En). by destruct (Z.even g), (Z.even h).
Qed.

(** ** Roots of polynomials *)

Lemma peval_divide c r : exists q, length q = (length c - 1)%nat /\ (2 <= length c -> last q = last c)%nat /\ forall x, peval c x = peval c r + (x - r) * peval q x.
Proof.
  induction c as [|a c IH]; [by exists []; split; [|split; [cbn; lia|intros; cbn; lia]]|].
  destruct c as [|b c]; [by exists []; split; [|split; [cbn; lia|intros; cbn; lia]]|].
  destruct IH as (q & Hl & Hlast & Hq). exists (peval (b :: c) r :: q). split; [cbn [length] in *; lia|]. split.
  - intros _. destruct c as [|b' c].
    + destruct q; [|cbn in Hl; lia]. cbn. f_equal. lia.
    + destruct q as [|q0 q]; [cbn in Hl; lia|]. change (last (q0 :: q) = last (b :: b' :: c)). apply Hlast. cbn. lia.
  - intros x. change (peval (a :: b :: c) x) with (a + x * peval (b :: c) x). change (peval (a :: b :: c) r) with (a + r * peval (b :: c) r).
    change (peval (_ :: q) x) with (peval (b :: c) r + x * peval q x). rewrite Hq. ring.
Qed.

(** A monic polynomial has at most as many roots modulo a prime as its degree. *)
Lemma roots_bound p l : Z.prime p -> NoDup l -> Forall (fun x => 0 <= x < p) l -> forall c, last c = Some 1 -> Forall (is_root p c) l -> (length l < length c)%nat.
Proof.
  intros Hp Hnd. induction Hnd as [|r l Hr _ IH]; intros Hl c Hlast Hroots; [destruct c; [done|cbn; lia]|].
  apply Forall_cons in Hl as [Hr0 Hl]. apply Forall_cons in Hroots as [Rr Hroots]. pose proof (Z.prime_ge_2 p Hp).
  destruct (peval_divide c r) as (q & Lq & Hq & Eq). destruct (decide (2 <= length c)%nat) as [Hc|Hc].
  - assert (length l < length q)%nat; [|cbn [length]; lia]. apply IH; [done|by rewrite Hq|].
    rewrite Forall_forall in *. intros s Hs. specialize (Hroots s Hs). specialize (Hl s Hs). unfold is_root in *. apply cong_0; [lia|]. rewrite Eq in Hroots.
    assert ((s - r) * peval q s ≅{p} 0) as Hz by (rewrite <- Hroots, Rr; by rewrite Z.add_0_l). apply cong_0, Z.divide_prime_mul in Hz; [|done|lia]. destruct Hz as [Hz|]; [|done].
    exfalso. assert (s = r) as ->; [|done]. apply (cong_small p); [done|done|]. apply cong_divide; [lia|done].
  - destruct c as [|a [|? ?]]; [done| |cbn in Hc; lia]. injection Hlast as ->. unfold is_root in Rr. cbn in Rr. exfalso. apply cong_0 in Rr; [|lia].
    rewrite Z.mul_0_r, Z.add_0_r in Rr. apply Z.divide_1_r in Rr. lia.
Qed.

Lemma power_minus_one_eval h x : (0 < h)%nat -> peval (power_minus_one h) x = x ^ Z.of_nat h - 1.
Proof.
  intros Hh. unfold power_minus_one. destruct h as [|h]; [lia|]. replace (S h - 1)%nat with h by lia. cbn [peval foldr]. fold (peval (replicate h 0 ++ [1]) x).
  rewrite Nat2Z.inj_succ, Z.pow_succ_r by lia. assert (peval (replicate h 0 ++ [1]) x = x ^ Z.of_nat h) as ->; [|lia].
  clear Hh. induction h as [|h IH]; [cbn; lia|]. cbn [replicate app]. change (peval (0 :: ?l) x) with (0 + x * peval l x). rewrite IH, Nat2Z.inj_succ, Z.pow_succ_r by lia. lia.
Qed.

(** ** Euler's criterion *)

Section prime.
Context (p : Z) (Hp : Z.prime p) (Hp2 : 2 < p).
Notation h := ((p - 1) / 2).

Lemma prime_odd : p mod 2 = 1.
Proof using Hp Hp2.
  pose proof (Z.mod_pos_bound p 2 ltac:(lia)). destruct (decide (p mod 2 = 0)) as [E|]; [|lia]. apply Z.mod_divide in E; [|lia].
  by destruct (proj2 Hp 2 ltac:(lia)).
Qed.

Lemma prime_half : p = 2 * h + 1.
Proof using Hp Hp2. apply n_half, prime_odd. Qed.

Lemma prime_gcd a : ~ a ≅{p} 0 -> Z.gcd a p = 1.
Proof using Hp Hp2. intros H. rewrite Z.gcd_comm. apply Z.coprime_prime_l; [done|]. intros Hd. apply H. by apply cong_0; [lia|]. Qed.

Lemma euler_sign a : ~ a ≅{p} 0 -> a ^ h ≅{p} symbol a p /\ (symbol a p = 1 \/ symbol a p = -1).
Proof using Hp Hp2.
  intros Ha. pose proof (prime_gcd a Ha) as Hg. pose proof prime_odd. split; [apply euler_power; by (done || lia)|].
  pose proof (symbol_sign p ltac:(lia) ltac:(done) a Hg). assert ((symbol a p - 1) * (symbol a p + 1) = 0) as E by lia. apply Z.mul_eq_0 in E. lia.
Qed.

Lemma fermat a : ~ a ≅{p} 0 -> a ^ (p - 1) ≅{p} 1.
Proof using Hp Hp2.
  intros Ha. destruct (euler_sign a Ha) as [E Hs]. pose proof prime_half as Eh. replace (p - 1) with (h * 2) at 1 by lia. rewrite Z.pow_mul_r by lia.
  rewrite E. by destruct Hs as [-> | ->].
Qed.

(** Some residue is no square. *)
Lemma non_residue : exists z, 2 <= z < p /\ z ^ h ≅{p} -1.
Proof using Hp Hp2.
  pose proof prime_half as Eh. assert (0 < h) as Hh by (apply Z.div_str_pos; lia).
  destruct (decide (Exists (fun z => z ^ h mod p <> 1) (map (Z.add 1) (upto (p - 1))))) as [H|H].
  - apply Exists_exists in H as (z & Hz & H). apply list_elem_of_In, in_map_iff in Hz as (i & <- & Hi). apply list_elem_of_In, elem_of_upto in Hi.
    exists (1 + i). assert (~ (1 + i) ≅{p} 0) as Hne by (rewrite cong_0 by lia; intros Hd%Z.divide_pos_le; lia).
    destruct (euler_sign (1 + i) Hne) as [E [Es|Es]]; rewrite Es in E; [exfalso; apply H; rewrite E; apply Z.mod_small; lia|].
    split; [|done]. assert (i <> 0); [|lia]. intros ->. apply H. rewrite Z.add_0_r, Z.pow_1_l by lia. apply Z.mod_small. lia.
  - exfalso. assert (length (map (Z.add 1) (upto (p - 1))) < length (power_minus_one (Z.to_nat h)))%nat as Hlen.
    { apply (roots_bound p); [done| | |by unfold power_minus_one; rewrite app_comm_cons, last_snoc|].
      - apply NoDup_fmap_2; [intros x y; lia|apply NoDup_upto].
      - apply Forall_forall. intros x (i & <- & Hi)%list_elem_of_In%in_map_iff. apply list_elem_of_In, elem_of_upto in Hi. lia.
      - apply Forall_forall. intros x Hx. unfold is_root. rewrite power_minus_one_eval, Z2Nat.id by lia.
        destruct (decide (x ^ h mod p = 1)) as [E|E]; [|exfalso; apply H, Exists_exists; eauto]. unfold cong. by rewrite Zminus_mod, E, (Z.mod_small 1 p), Z.sub_diag by lia. }
    rewrite length_map, length_upto in Hlen. unfold power_minus_one in Hlen. cbn [length] in Hlen. rewrite length_app, length_replicate in Hlen. cbn [length] in Hlen. lia.
Qed.

(** A square has symbol 1. *)
Lemma residue_symbol a : ~ a ≅{p} 0 -> residue p a -> symbol a p = 1.
Proof using Hp Hp2.
  intros Ha [x Hx]. assert (~ x ≅{p} 0) as Hx0 by (intros E; apply Ha; rewrite <- Hx, E; done).
  destruct (euler_sign a Ha) as [E [Es|Es]]; [done|]. exfalso. rewrite Es, <- Hx in E. pose proof prime_half as Eh. assert (0 < h) by (apply Z.div_str_pos; lia).
  rewrite <- Z.pow_2_r, <- Z.pow_mul_r in E by lia. replace (2 * h) with (p - 1) in E by lia. rewrite fermat in E by done.
  apply cong_divide in E; [|lia]. replace (1 - -1) with 2 in E by lia. apply Z.divide_pos_le in E; lia.
Qed.
End prime.
