(* ===== verification/PrimeAlgorithms.v ===== *)
(** Number theory of the sieve's host side ([src/src/sieve/prime_algorithms.cu],
    [src/src/common/uint128_helper.cuh]): modular powers, the Jacobi symbol, square roots and inverses modulo primes and their
    squares, primality, and the factor base. [None]: the search for a non-residue is still running. *)
From Stdlib Require Import ZArith Lia Setoid Morphisms Sorting.Sorted.
From stdpp Require Import base gmap sets list sorting.
From S2P Require Import Prelude UInt512 UInt512Div UInt512Sqrt Gf2 RowOps Congruence Residues.
#[local] Open Scope Z_scope.

(** ** Powers *)

(** A 128-bit product, reduced. *)
Definition mul_mod_u128 (a b m : Z) : Z := wrap 64 (wrap 128 (a * b) mod m).

Fixpoint pow_mod_loop (fuel : nat) (res base exp modulus : Z) : Z :=
  match fuel with
  | O => res
  | S f =>
      if 0 <? exp then
        let res := if exp mod 2 =? 1 then mul_mod_u128 res base modulus else res in
        pow_mod_loop f res (mul_mod_u128 base base modulus) (Z.shiftr exp 1) modulus
      else res
  end.

(** A 64-bit exponent has 64 bits. *)
Definition pow_mod (base exp modulus : Z) : Z := pow_mod_loop 64 1 (base mod modulus) exp modulus.

(** The helpers of [mpqs::math]. *)
Definition math_add_mod (a b m : Z) : Z := wrap 64 (wrap 128 (a + b) mod m).
Definition math_sub_mod (a b m : Z) : Z := if b <=? a then wrap 64 (a - b) else wrap 64 (m - wrap 64 (b - a)).
Definition math_mul_mod (a b m : Z) : Z := wrap 64 (wrap 128 (a * b) mod m).

Fixpoint math_pow_mod_loop (fuel : nat) (res base exp m : Z) : Z :=
  match fuel with
  | O => res
  | S f =>
      if 0 <? exp then
        let res := if exp mod 2 =? 1 then math_mul_mod res base m else res in
        math_pow_mod_loop f res (math_mul_mod base base m) (exp / 2) m
      else res
  end.

Definition math_pow_mod (base exp m : Z) : Z := math_pow_mod_loop 64 1 (base mod m) exp m.

(** ** The Jacobi symbol *)

Fixpoint jacobi_loop (fuel : nat) (a n t : Z) : Z :=
  match fuel with
  | O => 0
  | S f =>
      if a =? 0 then (if n =? 1 then t else 0)
      else
        let zeros := ctz32 a in
        let a := Z.shiftr a zeros in
        let t := if zeros mod 2 =? 1 then (if (n mod 8 =? 3) || (n mod 8 =? 5) then - t else t) else t in
        let t := if (a mod 4 =? 3) && (n mod 4 =? 3) then - t else t in
        jacobi_loop f (n mod a) a t
  end.

(** Every step at least halves the product [a * n]. *)
Definition jacobi (a n : Z) : Z := jacobi_loop 65 (a mod n) n 1.
Definition jacobi_u64 (a n : Z) : Z := jacobi_loop 129 (a mod n) n 1.

(** ** Square roots modulo a prime *)

Fixpoint odd_part (fuel : nat) (Q e : Z) : Z * Z :=
  match fuel with
  | O => (Q, e)
  | S f => if Z.land Q 1 =? 0 then odd_part f (Z.shiftr Q 1) (e + 1) else (Q, e)
  end.

(** The search for a quadratic non-residue, from [z] on. *)
Fixpoint find_z (fuel : nat) (pow : Z -> Z -> Z -> Z) (p z : Z) : option Z :=
  match fuel with
  | O => None
  | S f => if negb (pow z ((p - 1) / 2) p =? p - 1) then find_z f pow p (z + 1) else Some z
  end.

(** The inner loop: the [i] at which it stops, at most [M]. *)
Fixpoint order_loop (fuel : nat) (sq : Z -> Z) (i M temp_t : Z) : Z :=
  match fuel with
  | O => i
  | S f => if i <? M then (let temp_t := sq temp_t in if temp_t =? 1 then i else order_loop f sq (i + 1) M temp_t) else i
  end.

(** The main loop; [M] decreases. *)
Fixpoint tonelli_loop (fuel : nat) (w : Z) (mul : Z -> Z -> Z) (M c t R : Z) : Z :=
  match fuel with
  | O => 0
  | S f =>
      if t =? 0 then 0
      else if t =? 1 then wrap w R
      else
        let i := order_loop (Z.to_nat M) (fun x => mul x x) 1 M t in
        if i =? M then 0
        else
          let b := Nat.iter (Z.to_nat (wrap w (M - i - 1))) (fun b => mul b b) c in
          let c := mul b b in
          tonelli_loop f w mul i c (mul t c) (mul R b)
  end.

(** The products of the 32-bit version are not widened. *)
Definition mul32 (p a b : Z) : Z := wrap 64 (a * b) mod p.

Definition Tonelli_Shanks (n p : Z) : option Z :=
  if n =? 0 then Some 0
  else if negb (pow_mod n ((p - 1) / 2) p =? 1) then Some 0
  else
    let '(Q, e) := odd_part 32 (p - 1) 0 in
    z ← find_z (Z.to_nat p) pow_mod p 2;
    Some (tonelli_loop 33 32 (mul32 p) e (pow_mod z Q p) (pow_mod n Q p) (pow_mod n ((Q + 1) / 2) p)).

Definition Tonelli_Shanks_u64 (n p : Z) : option Z :=
  if n =? 0 then Some 0
  else if negb (math_pow_mod n ((p - 1) / 2) p =? 1) then Some 0
  else
    let '(Q, e) := odd_part 64 (p - 1) 0 in
    z ← find_z (Z.to_nat p) math_pow_mod p 2;
    Some (tonelli_loop 65 64 (fun a b => math_mul_mod a b p) e (math_pow_mod z Q p) (math_pow_mod n Q p) (math_pow_mod n ((Q + 1) / 2) p)).

(** ** Primality *)

Definition witnesses : list Z := [2; 3; 5; 7; 11; 13; 17; 19; 23; 29; 31; 37].

(** The squarings of one witness: whether [n - 1] is met. *)
Fixpoint meets_minus_one (count : nat) (x n : Z) : bool :=
  match count with
  | O => false
  | S c => let x := math_mul_mod x x n in if x =? n - 1 then true else meets_minus_one c x n
  end.

Definition passes_witness (n d r a : Z) : bool :=
  let x := math_pow_mod a d n in
  (x =? 1) || (x =? n - 1) || meets_minus_one (Z.to_nat (r - 1)) x n.

(** The quick check: the verdict if there is one. *)
Fixpoint quick_check (ws : list Z) (n : Z) : option bool :=
  match ws with
  | [] => None
  | w :: ws => if n =? w then Some true else if n mod w =? 0 then Some false else quick_check ws n
  end.

Definition is_prime_u64 (n : Z) : bool :=
  if n <? 2 then false
  else
    match quick_check witnesses n with
    | Some verdict => verdict
    | None => let '(d, r) := odd_part 64 (n - 1) 0 in forallb (passes_witness n d r) witnesses
    end.

(** ** Roots and inverses *)

Definition findRoot (d N : uint512) (p : Z) : option Z :=
  sqrt_N ← Tonelli_Shanks (mod_uint32 N p) p;
  Some (wrap 32 (wrap 64 (mod_uint32 d p + sqrt_N) mod p)).

Definition modInv (a p : Z) : Z := wrap 32 (pow_mod a (wrap 32 (p - 2)) p).

Definition modInvSquare (a p : Z) : Z :=
  let p_sq := wrap 64 (p * p) in
  pow_mod a (wrap 64 (wrap 64 (p_sq - p) - 1)) p_sq.

Definition liftRoot (r reduced_N p : Z) : Z :=
  let p_sq := wrap 64 (p * p) in
  let r_sq := mul_mod_u128 r r p_sq in
  let diff := if reduced_N <=? r_sq then r_sq - reduced_N else wrap 64 (p_sq - (reduced_N - r_sq)) in
  let two_r := wrap 32 (2 * wrap 32 r) mod p in
  let inv_p := modInv two_r p in
  let term := mul_mod_u128 diff inv_p p_sq in
  if term <=? r then r - term else wrap 64 (p_sq - (term - r)).

(** ** The factor base *)

(** [for (i = lo; i <= hi; i += step)]. *)
Definition steps (lo hi step : Z) : list Z := map (fun k => lo + step * k) (upto ((hi - lo) / step + 1)).

Definition mark (isComposite : list bool) (l : list Z) : list bool := foldl (fun c i => vset c i true) isComposite l.

Definition sieve_odd (F : Z) (isComposite : list bool) (i : Z) : list bool :=
  if negb (vget false isComposite i) then mark isComposite (steps (wrap 32 (i * i)) F (2 * i)) else isComposite.

(** [(uint32_t)std::sqrt(F)] is the integer square root: a double is exact here. *)
Definition isComposite (F : Z) : list bool :=
  let c := replicate (Z.to_nat (F + 1)) false in
  let c := vset (vset c 0 true) 1 true in
  let c := mark c (steps 4 F 2) in
  foldl (sieve_odd F) c (steps 3 (Z.sqrt F) 2).

Definition add_prime (N : uint512) (composite : list bool) (st : option (list Z * list Z)) (p : Z) : option (list Z * list Z) :=
  '(F_B, rootN) ← st;
  if negb (vget false composite p) then
    let reduced_N := mod_uint32 N p in
    if jacobi reduced_N p =? 1 then
      root ← Tonelli_Shanks reduced_N p;
      let root := if Z.shiftr p 1 <? root then p - root else root in
      Some (F_B ++ [p], rootN ++ [root])
    else Some (F_B, rootN)
  else Some (F_B, rootN).

(** [factorBase] and [rootN]. *)
Definition generateFactorBase (N : uint512) (F : Z) : option (list Z * list Z) :=
  foldl (add_prime N (isComposite F)) (Some ([], [])) (steps 3 F 2).

(** ** Parameters *)

Definition choose_F (bits F : Z) : Z :=
  if F =? 0 then
    if bits <? 180 then 60000
    else if bits <? 220 then 350000
    else if bits <? 235 then 500000
    else if bits <? 250 then 900000
    else if bits <? 280 then 1500000
    else if bits <? 340 then 3000000
    else if bits <? 370 then 4000000
    else if bits <? 400 then 5000000
    else if bits <? 440 then 7500000
    else 10000000
  else F.

(** [F], [M] and [a_target]. *)
Definition determineParams (N : uint512) (F M : Z) : Z * Z * uint512 :=
  let F := choose_F (msb N) F in
  let M := if M =? 0 then 262144 else M in
  (F, M, (div_uint32_inplace (isqrt_2N N) M).1).

(** ** Vocabulary of the specifications *)

(** What a square-root routine promises: a root of a residue, 0 for a non-residue. *)
Definition sqrt_result (p n r : Z) : Prop := 0 <= r < p /\ (residue p n -> r * r ≅{p} n) /\ (~ residue p n -> r = 0).

(** What the sieve has marked after the odd numbers below [m]. *)
Definition marked_below (F m : Z) (c : list bool) : Prop :=
  Z.of_nat (length c) = F + 1 /\
  forall j, 3 <= j <= F -> j mod 2 = 1 -> vget false c j = true <-> exists d, 3 <= d < m /\ d mod 2 = 1 /\ d * d <= j /\ (d | j).

Definition in_factor_base (N : uint512) (p : Z) : Prop := Z.prime p /\ ~ u512_val N ≅{p} 0 /\ residue p (u512_val N).

Definition root_ok (N : uint512) (p r : Z) : Prop := 0 < r <= p / 2 /\ r * r ≅{p} u512_val N.

(** ** Lemmas: powers *)

Lemma mul_mod_u128_spec a b m : in_width 64 a -> in_width 64 b -> 0 < m < 2 ^ 64 -> mul_mod_u128 a b m = (a * b) mod m.
Proof.
  unfold in_width. intros Ha Hb Hm. unfold mul_mod_u128. rewrite (wrap_small 128) by (unfold in_width; change (2 ^ 128) with (2 ^ 64 * 2 ^ 64); nia).
  apply wrap_small. pose proof (Z.mod_pos_bound (a * b) m). unfold in_width. lia.
Qed.

Lemma math_mul_mod_eq a b m : math_mul_mod a b m = mul_mod_u128 a b m.
Proof. done. Qed.

Lemma pow_mod_loop_spec m fuel : 1 < m < 2 ^ 64 -> forall res base exp,
  0 <= res < m -> 0 <= base < m -> 0 <= exp < 2 ^ Z.of_nat fuel -> pow_mod_loop fuel res base exp m = (res * base ^ exp) mod m.
Proof.
  intros Hm. induction fuel as [|f IH]; intros res base exp Hr Hb He; cbn [pow_mod_loop].
  { change (2 ^ Z.of_nat 0) with 1 in He. assert (exp = 0) as -> by lia. by rewrite Z.pow_0_r, Z.mul_1_r, Z.mod_small. }
  destruct (Z.ltb_spec 0 exp) as [Hpos|Hz].
  2:{ assert (exp = 0) as -> by lia. by rewrite Z.pow_0_r, Z.mul_1_r, Z.mod_small. }
  rewrite Nat2Z.inj_succ, Z.pow_succ_r in He by lia.
  rewrite !mul_mod_u128_spec by (unfold in_width; lia). pose proof (Z.mod_pos_bound (res * base) m ltac:(lia)). pose proof (Z.mod_pos_bound (base * base) m ltac:(lia)).
  rewrite Z.shiftr_div_pow2 by lia. change (2 ^ 1) with 2. pose proof (Z.div_mod exp 2 ltac:(lia)) as E. pose proof (Z.mod_pos_bound exp 2 ltac:(lia)).
  assert (0 <= exp / 2) by (apply Z.div_pos; lia). rewrite IH; [|destruct (_ =? 1); lia|lia|split; [done|apply Z.div_lt_upper_bound; lia]].
  change (?x mod m = ?y mod m) with (x ≅{m} y). assert (base ^ exp = (base * base) ^ (exp / 2) * base ^ (exp mod 2)) as -> by (rewrite E at 1; by rewrite Z.pow_add_r, Z.pow_mul_r, Z.pow_2_r by lia).
  assert ((base * base) mod m ≅{m} base * base) as Eb by apply cong_mod. rewrite Eb.
  destruct (Z.eqb_spec (exp mod 2) 1) as [->|].
  - rewrite Z.pow_1_r. assert ((res * base) mod m ≅{m} res * base) as Er by apply cong_mod. rewrite Er.
    by replace (res * base * (base * base) ^ (exp / 2)) with (res * ((base * base) ^ (exp / 2) * base)) by ring.
  - assert (exp mod 2 = 0) as -> by lia. by rewrite Z.pow_0_r, Z.mul_1_r.
Qed.

Lemma pow_mod_spec base exp m : 1 < m < 2 ^ 64 -> in_width 64 exp -> pow_mod base exp m = base ^ exp mod m.
Proof.
  intros Hm He. unfold pow_mod. rewrite (pow_mod_loop_spec m) by (lia || done || by apply Z.mod_pos_bound; lia). rewrite Z.mul_1_l. by rewrite Z.mod_pow_l.
Qed.

Lemma math_pow_mod_eq base exp m : math_pow_mod base exp m = pow_mod base exp m.
Proof.
  unfold math_pow_mod, pow_mod. generalize 64%nat. intros fuel. generalize 1. generalize (base mod m). revert exp.
  induction fuel as [|f IH]; intros exp b r; [done|]. cbn [math_pow_mod_loop pow_mod_loop]. destruct (0 <? exp); [|done].
  rewrite IH, Z.shiftr_div_pow2 by lia. done.
Qed.

(** ** Lemmas: the Jacobi symbol *)

Lemma pos_ctz_nonneg q : 0 <= pos_ctz q.
Proof. induction q as [q IH|q IH|]; cbn [pos_ctz]; lia. Qed.

Lemma ctz32_spec a : 0 < a -> 0 <= ctz32 a /\ a = 2 ^ ctz32 a * Z.shiftr a (ctz32 a) /\ Z.shiftr a (ctz32 a) mod 2 = 1.
Proof.
  intros Ha. destruct a as [|q|]; try lia. clear Ha. cbn [ctz32]. induction q as [q IH|q IH|]; cbn [pos_ctz].
  - rewrite Z.pow_0_r, Z.shiftr_0_r. split; [lia|]. split; [lia|]. rewrite Pos2Z.inj_xI, Z.add_comm, (Z.mul_comm 2). by rewrite Z.mod_add by lia.
  - destruct IH as (H1 & H2 & H3). split; [lia|]. assert (Z.shiftr (Z.pos q~0) (1 + pos_ctz q) = Z.shiftr (Z.pos q) (pos_ctz q)) as ->.
    { by rewrite <- Z.shiftr_shiftr by lia. }
    split; [|done]. rewrite Z.pow_add_r by lia. rewrite (Pos2Z.inj_xO q) at 1. rewrite H2 at 1. change (2 ^ 1) with 2. ring.
  - done.
Qed.

Lemma jacobi_symbol_cong a b n : a ≅{n} b -> jacobi_symbol a n = jacobi_symbol b n.
Proof. intros E. unfold jacobi_symbol. by rewrite (gcd_cong _ _ _ E), (symbol_cong n _ _ E). Qed.

(** Powers of two and reciprocity, as the loop uses them. *)
Lemma jacobi_symbol_step z a n :
  0 <= z -> 0 < a -> a mod 2 = 1 -> 0 < n -> n mod 2 = 1 ->
  jacobi_symbol (2 ^ z * a) n =
    (if z mod 2 =? 1 then (if (n mod 8 =? 3) || (n mod 8 =? 5) then -1 else 1) else 1) * (if (a mod 4 =? 3) && (n mod 4 =? 3) then -1 else 1) * jacobi_symbol n a.
Proof.
  intros Hz Ha Ha2 Hn Hn2. assert (Z.gcd 2 n = 1) as H2.
  { apply Z.coprime_prime_l; [apply Z.prime_2|]. intros [k Hk]. rewrite Hk, Z.mod_mul in Hn2 by lia. done. }
  unfold jacobi_symbol. assert (Z.gcd (2 ^ z * a) n = Z.gcd n a) as ->.
  { rewrite (Z.gcd_comm n a). apply Z.divide_antisym_nonneg; [apply Z.gcd_nonneg|apply Z.gcd_nonneg| |].
    - apply Z.gcd_greatest; [|apply Z.gcd_divide_r]. apply Z.gauss with (2 ^ z); [apply Z.gcd_divide_l|].
      assert (Z.gcd (2 ^ z) (Z.gcd (2 ^ z * a) n) | Z.gcd (2 ^ z) n) as Hd by (apply Z.gcd_greatest; [apply Z.gcd_divide_l|etransitivity; [apply Z.gcd_divide_r|apply Z.gcd_divide_r]]).
      assert (Z.gcd (2 ^ z) n = 1) as E by by apply Z.coprime_pow_l. rewrite E in Hd. rewrite Z.gcd_comm. apply Z.divide_1_r_nonneg; [apply Z.gcd_nonneg|done].
    - apply Z.gcd_greatest; [apply Z.divide_mul_r|]; [apply Z.gcd_divide_l|apply Z.gcd_divide_r]. }
  destruct (Z.eqb_spec (Z.gcd n a) 1) as [Hg|]; [|ring]. assert (Z.gcd a n = 1) as Hg' by by rewrite Z.gcd_comm.
  rewrite symbol_pow2 by done. rewrite <- Z.mul_assoc. f_equal.
  - rewrite symbol_two by done. pose proof (Z.div_mod z 2 ltac:(lia)) as E. pose proof (Z.mod_pos_bound z 2 ltac:(lia)). assert (0 <= z / 2) by (apply Z.div_pos; lia).
    destruct (_ || _); [|rewrite Z.pow_1_l by done; by destruct (_ =? 1)]. rewrite neg_one_parity by done. rewrite <- Z.negb_odd. rewrite Zmod_odd. by destruct (Z.odd z).
  - pose proof (reciprocity a n Ha Hn Ha2 Hn2 Hg') as R. pose proof (symbol_sign a ltac:(lia) Ha2 n Hg) as S. rewrite <- R, <- Z.mul_assoc, S. ring.
Qed.

Lemma jacobi_loop_spec k : forall a n t,
  0 <= a < n -> n mod 2 = 1 -> a * n < 2 ^ Z.of_nat k -> jacobi_loop (S k) a n t = t * jacobi_symbol a n.
Proof.
  induction k as [|k IH]; intros a n t Ha Hn2 Hlt; [|set (f := S k) in IH |- *]; cbn [jacobi_loop].
  all: destruct (Z.eqb_spec a 0) as [->|Hnz].
  1,3: unfold jacobi_symbol; rewrite Z.gcd_0_l, Z.abs_eq by lia; destruct (Z.eqb_spec n 1) as [->|]; [|ring]; change (symbol 0 1) with 1; ring.
  { change (2 ^ Z.of_nat 0) with 1 in Hlt. nia. }
  destruct (ctz32_spec a ltac:(lia)) as (Hz & Ea & Hodd). set (z := ctz32 a) in *. set (a' := Z.shiftr a z) in *. clearbody z a'.
  assert (0 < 2 ^ z) by (apply Z.pow_pos_nonneg; lia). assert (0 < a') by nia. assert (a' <= a) by nia.
  pose proof (Z.mod_pos_bound n a' ltac:(lia)) as Hm. pose proof (Z.div_mod n a' ltac:(lia)) as Ed. rewrite Nat2Z.inj_succ, Z.pow_succ_r in Hlt by lia.
  assert (1 <= n / a') by (apply Z.div_le_lower_bound; lia). assert (n mod a' * 2 <= n) by nia.
  rewrite IH; [|lia|done|nia].
  rewrite (jacobi_symbol_cong (n mod a') n a') by apply cong_mod. replace (jacobi_symbol a n) with (jacobi_symbol (2 ^ z * a') n) by (by rewrite <- Ea). rewrite jacobi_symbol_step by (done || lia).
  destruct (z mod 2 =? 1), ((n mod 8 =? 3) || (n mod 8 =? 5)), ((a' mod 4 =? 3) && (n mod 4 =? 3)); ring.
Qed.

Lemma jacobi_eq a n : 0 <= a -> 0 < n < 2 ^ 32 -> n mod 2 = 1 -> jacobi a n = jacobi_symbol a n.
Proof.
  intros Ha Hn Ho. unfold jacobi. pose proof (Z.mod_pos_bound a n ltac:(lia)) as Hm. rewrite (jacobi_loop_spec 64); [|done|done|change (2 ^ Z.of_nat 64) with (2 ^ 32 * 2 ^ 32); nia].
  rewrite Z.mul_1_l. apply jacobi_symbol_cong, cong_mod.
Qed.

Lemma jacobi_u64_eq a n : 0 <= a -> 0 < n < 2 ^ 64 -> n mod 2 = 1 -> jacobi_u64 a n = jacobi_symbol a n.
Proof.
  intros Ha Hn Ho. unfold jacobi_u64. pose proof (Z.mod_pos_bound a n ltac:(lia)) as Hm. rewrite (jacobi_loop_spec 128); [|done|done|change (2 ^ Z.of_nat 128) with (2 ^ 64 * 2 ^ 64); nia].
  rewrite Z.mul_1_l. apply jacobi_symbol_cong, cong_mod.
Qed.

(** ** Lemmas: Tonelli and Shanks *)

Lemma odd_part_spec fuel : forall Q e, 0 < Q < 2 ^ Z.of_nat fuel ->
  let '(Q', e') := odd_part fuel Q e in 0 < Q' <= Q /\ Q' mod 2 = 1 /\ e <= e' <= e + Z.of_nat fuel /\ Q = Q' * 2 ^ (e' - e).
Proof.
  induction fuel as [|f IH]; intros Q e HQ; cbn [odd_part]; [change (2 ^ Z.of_nat 0) with 1 in HQ; lia|].
  rewrite Nat2Z.inj_succ, Z.pow_succ_r in HQ by lia. assert (Z.land Q 1 = Q mod 2) as -> by (change 1 with (Z.ones 1); by rewrite Z.land_ones by lia).
  pose proof (Z.div_mod Q 2 ltac:(lia)) as E. pose proof (Z.mod_pos_bound Q 2 ltac:(lia)). destruct (Z.eqb_spec (Q mod 2) 0) as [E0|].
  - rewrite Z.shiftr_div_pow2 by lia. change (2 ^ 1) with 2. specialize (IH (Q / 2) (e + 1) ltac:(lia)). destruct (odd_part f (Q / 2) (e + 1)) as [Q' e'].
    destruct IH as (H1 & H2 & H3 & H4). split; [lia|]. split; [done|]. split; [lia|]. replace (e' - e) with (1 + (e' - (e + 1))) by lia. rewrite Z.pow_add_r by lia. lia.
  - split; [lia|]. split; [lia|]. split; [lia|]. rewrite Z.sub_diag, Z.pow_0_r. lia.
Qed.

Section tonelli.
Context (p : Z) (Hp : Z.prime p) (Hp2 : 2 < p).
Context (mul : Z -> Z -> Z) (Hmul : forall a b, 0 <= a < p -> 0 <= b < p -> mul a b = (a * b) mod p).
Notation h := ((p - 1) / 2).

Lemma mul_range a b : 0 <= a < p -> 0 <= b < p -> 0 <= mul a b < p.
Proof using Hmul Hp2. intros Ha Hb. rewrite Hmul by done. apply Z.mod_pos_bound. lia. Qed.

Lemma mul_cong a b : 0 <= a < p -> 0 <= b < p -> mul a b ≅{p} a * b.
Proof using Hmul. intros Ha Hb. rewrite Hmul by done. apply cong_mod. Qed.

Lemma unit_one x : 0 <= x < p -> x ≅{p} 1 <-> x = 1.
Proof using Hp2. intros Hx. split; [|by intros ->]. intros E. apply (cong_small p); [done|lia|done]. Qed.

Lemma square_one x : x * x ≅{p} 1 -> x ≅{p} 1 \/ x ≅{p} -1.
Proof using Hp Hp2.
  rewrite !cong_divide by lia. replace (x * x - 1) with ((x - 1) * (x - -1)) by ring. by apply Z.divide_prime_mul.
Qed.

Lemma pow_pow2 x k : 0 <= k -> x ^ 2 ^ (k + 1) = x ^ 2 ^ k * x ^ 2 ^ k.
Proof using Type. intros Hk. rewrite Z.pow_add_r by lia. change (2 ^ 1) with 2. by rewrite Z.pow_mul_r, Z.pow_2_r by (try apply Z.pow_nonneg; lia). Qed.

(** The inner loop finds the order of [t] in the squarings, if it is below [M]. *)
Lemma order_loop_spec t M fuel : 0 <= t < p -> forall i temp,
  1 <= i -> Z.of_nat fuel >= M - i -> 0 <= temp < p -> temp ≅{p} t ^ 2 ^ (i - 1) ->
  let i' := order_loop fuel (fun x => mul x x) i M temp in
  i <= i' /\ (i <= M -> i' <= M) /\ (i' < M -> t ^ 2 ^ i' ≅{p} 1) /\ forall j, i <= j < i' -> ~ t ^ 2 ^ j ≅{p} 1.
Proof using Hmul Hp2.
  intros Ht. induction fuel as [|f IH]; intros i temp Hi Hf Hr Et; cbn [order_loop].
  { split; [lia|]. split; [done|]. split; [lia|]. lia. }
  destruct (Z.ltb_spec i M); [|split; [lia|split; [done|split; [lia|lia]]]].
  assert (mul temp temp ≅{p} t ^ 2 ^ i) as E.
  { rewrite mul_cong, Et by done. replace i with (i - 1 + 1) at 3 by lia. by rewrite pow_pow2 by lia. }
  pose proof (mul_range temp temp Hr Hr) as Hr'. cbv zeta. destruct (Z.eqb_spec (mul temp temp) 1) as [E1|E1].
  - split; [lia|]. split; [lia|]. split; [intros _; by rewrite <- E, E1|lia].
  - destruct (IH (i + 1) (mul temp temp) ltac:(lia) ltac:(lia) Hr') as (I1 & I2 & I3 & I4); [by replace (i + 1 - 1) with i by lia|].
    split; [lia|]. split; [lia|]. split; [done|]. intros j Hj. destruct (decide (j = i)) as [->|]; [|apply I4; lia].
    rewrite <- E. by rewrite unit_one.
Qed.

Lemma squarings c k : 0 <= c < p -> let b := Nat.iter k (fun b => mul b b) c in 0 <= b < p /\ b ≅{p} c ^ 2 ^ Z.of_nat k.
Proof using Hmul Hp2.
  intros Hc. induction k as [|k [IH1 IH2]]; [cbn; by rewrite Z.pow_1_r|]. rewrite Nat.iter_succ.
  cbv zeta. split; [by apply mul_range|]. rewrite mul_cong, IH2 by done. rewrite Nat2Z.inj_succ. change (Z.succ (Z.of_nat k)) with (Z.of_nat k + 1). by rewrite pow_pow2 by lia.
Qed.

Lemma find_z_spec pow fuel z0 : (forall z, 0 <= z -> pow z h p = z ^ h mod p) -> forall z,
  0 <= z <= z0 -> z0 ^ h ≅{p} -1 -> Z.of_nat fuel > z0 - z -> exists z', find_z fuel pow p z = Some z' /\ z <= z' /\ z' ^ h ≅{p} -1.
Proof using Hp2.
  intros Hpow. induction fuel as [|f IH]; intros z Hz E Hf; [lia|]. cbn [find_z]. rewrite Hpow by lia.
  assert (forall x, x ^ h mod p = p - 1 <-> x ^ h ≅{p} -1) as Hm.
  { intros x. unfold cong. replace ((-1) mod p) with (p - 1); [done|]. apply (Z.mod_unique_pos _ _ (-1)); lia. }
  destruct (Z.eqb_spec (z ^ h mod p) (p - 1)) as [H|H]; cbn [negb]; [exists z; split; [done|split; [lia|by apply Hm]]|].
  destruct (IH (z + 1)) as (z' & E' & H1 & H2); [|done|lia|by exists z'; split; [done|split; [lia|done]]].
  split; [lia|]. destruct (decide (z = z0)) as [->|]; [|lia]. by apply Hm in E.
Qed.
Context (w : Z) (Hw : 64 <= 2 ^ w /\ p <= 2 ^ w).

(** The main loop returns a square root. *)
Lemma tonelli_loop_spec n fuel : forall M c t R,
  1 <= M <= 64 -> Z.of_nat fuel >= M -> 0 <= c < p -> 0 <= t < p -> 0 <= R < p ->
  c ^ 2 ^ (M - 1) ≅{p} -1 -> t ^ 2 ^ (M - 1) ≅{p} 1 -> R * R ≅{p} t * n ->
  let r := tonelli_loop fuel w mul M c t R in 0 <= r < p /\ r * r ≅{p} n.
Proof using Hp Hp2 Hmul Hw.
  induction fuel as [|f IH]; intros M c t R HM Hf Hc Ht HR Ec Et ER; [lia|]. cbn [tonelli_loop].
  destruct (Z.eqb_spec t 0) as [->|Ht0].
  { exfalso. rewrite Z.pow_0_l in Et by (apply Z.pow_pos_nonneg; lia). unfold cong in Et. rewrite Zmod_0_l, Z.mod_small in Et; lia. }
  destruct (Z.eqb_spec t 1) as [->|Ht1].
  { rewrite wrap_small by (unfold in_width; lia). split; [done|]. by rewrite ER, Z.mul_1_l. }
  destruct (order_loop_spec t M (Z.to_nat M) Ht 1 t ltac:(lia) ltac:(lia) Ht) as (I1 & I2 & I3 & I4); [change (1 - 1) with 0; by rewrite Z.pow_0_r, Z.pow_1_r|].
  set (i := order_loop _ _ _ _ _) in *. specialize (I2 ltac:(lia)).
  assert (i <> M) as Hne.
  { intros E. destruct (decide (M = 1)) as [->|]; [rewrite Z.pow_0_r, Z.pow_1_r in Et; by apply unit_one in Et|]. apply (I4 (M - 1)); [lia|done]. }
  rewrite (proj2 (Z.eqb_neq i M) Hne). specialize (I3 ltac:(lia)).
  rewrite wrap_small by (unfold in_width; lia). destruct (squarings c (Z.to_nat (M - i - 1)) Hc) as [Hb Eb]. set (b := Nat.iter _ _ c) in *. rewrite Z2Nat.id in Eb by lia.
  pose proof (mul_range b b Hb Hb) as Hbb.
  assert (mul b b ≅{p} c ^ 2 ^ (M - i)) as Ebb by (rewrite mul_cong, Eb by done; rewrite <- pow_pow2 by lia; by replace (M - i - 1 + 1) with (M - i) by lia).
  assert ((c ^ 2 ^ (M - i)) ^ 2 ^ (i - 1) ≅{p} -1) as Ec'.
  { rewrite <- Z.pow_mul_r, <- Z.pow_add_r by (try apply Z.pow_nonneg; lia). by replace (M - i + (i - 1)) with (M - 1) by lia. }
  assert (t ^ 2 ^ (i - 1) ≅{p} -1) as Eti.
  { destruct (square_one (t ^ 2 ^ (i - 1))) as [H|H]; [|exfalso|done].
    - rewrite <- pow_pow2 by lia. by replace (i - 1 + 1) with i by lia.
    - destruct (decide (i = 1)) as [E|]; [|apply (I4 (i - 1)); [lia|done]]. rewrite E, Z.pow_0_r, Z.pow_1_r in H. by apply unit_one in H. }
  apply IH; [lia|lia|done|by apply mul_range|by apply mul_range|by rewrite Ebb| |].
  - rewrite mul_cong, Ebb, Z.pow_mul_l, Eti, Ec' by done. done.
  - rewrite !mul_cong by (done || by apply mul_range). replace (R * b * (R * b)) with (R * R * (b * b)) by ring. rewrite ER.
    by replace (t * n * (b * b)) with (t * (b * b) * n) by ring.
Qed.

Context (pow : Z -> Z -> Z -> Z) (Hpow : forall base exp, 0 <= base -> 0 <= exp < p -> pow base exp p = base ^ exp mod p).
Context (bits fuel : nat) (Hbits : p <= 2 ^ Z.of_nat bits /\ (bits <= 64)%nat /\ (bits <= fuel)%nat).

(** From the initial values on. *)
Lemma tonelli_core n :
  0 <= n -> n ^ h ≅{p} 1 ->
  exists r, (let '(Q, e) := odd_part bits (p - 1) 0 in
    z ← find_z (Z.to_nat p) pow p 2; Some (tonelli_loop fuel w mul e (pow z Q p) (pow n Q p) (pow n ((Q + 1) / 2) p))) = Some r /\ 0 <= r < p /\ r * r ≅{p} n.
Proof using Hp Hp2 Hmul Hw Hpow Hbits.
  intros Hn En. pose proof (prime_half p Hp Hp2) as Eh. pose proof (odd_part_spec bits (p - 1) 0 ltac:(lia)) as Ho.
  destruct (odd_part bits (p - 1) 0) as [Q e]. destruct Ho as (HQ & HQ2 & He & EQ). rewrite Z.sub_0_r in EQ.
  assert (1 <= e) as He1. { destruct (decide (e = 0)) as [->|]; [|lia]. rewrite Z.pow_0_r, Z.mul_1_r in EQ. rewrite <- EQ, Eh in HQ2. replace (2 * h + 1 - 1) with (h * 2) in HQ2 by lia. by rewrite Z.mod_mul in HQ2 by lia. }
  assert (h = Q * 2 ^ (e - 1)) as EhQ. { replace e with (1 + (e - 1)) in EQ by lia. rewrite Z.pow_add_r in EQ by lia. lia. }
  destruct (non_residue p Hp Hp2) as (z0 & Hz0 & Ez0). destruct (find_z_spec pow (Z.to_nat p) z0) with (z := 2) as (z & -> & Hz & Ez); [intros x Hx; apply Hpow; lia|lia|done|lia|].
  cbn [mbind option_bind]. eexists. split; [reflexivity|].
  assert (0 <= (Q + 1) / 2 < p) as HQ' by (split; [apply Z.div_pos; lia|apply Z.div_lt_upper_bound; lia]).
  rewrite !Hpow by lia.
  assert (forall x, x ^ Q ≅{p} x ^ Q mod p) as Hm by (intros x; symmetry; apply cong_mod).
  apply (tonelli_loop_spec n); [lia|lia|by apply Z.mod_pos_bound; lia..| | |].
  - rewrite <- Hm, <- Z.pow_mul_r, <- EhQ by (try apply Z.pow_nonneg; lia). done.
  - rewrite <- Hm, <- Z.pow_mul_r, <- EhQ by (try apply Z.pow_nonneg; lia). done.
  - rewrite <- Hm. assert (n ^ ((Q + 1) / 2) mod p ≅{p} n ^ ((Q + 1) / 2)) as -> by apply cong_mod. rewrite <- Z.pow_add_r by lia.
    assert ((Q + 1) / 2 + (Q + 1) / 2 = Q + 1) as ->. { pose proof (Z.div_mod Q 2 ltac:(lia)) as E. rewrite HQ2 in E. rewrite E at 1 2. replace (2 * (Q / 2) + 1 + 1) with ((Q / 2 + 1) * 2) by ring. rewrite Z.div_mul by lia. lia. }
    rewrite Z.pow_add_r, Z.pow_1_r by lia. done.
Qed.
End tonelli.

Lemma euler_criterion p n : Z.prime p -> 2 < p -> ~ n ≅{p} 0 -> residue p n -> n ^ ((p - 1) / 2) ≅{p} 1.
Proof. intros Hp Hp2 Hn Hr. destruct (euler_sign p Hp Hp2 n Hn) as [E _]. by rewrite E, (residue_symbol p Hp Hp2 n Hn Hr). Qed.

(** The early exits and the loops together. *)
Lemma sqrt_cases p n (pow_is_one : bool) (main : option Z) :
  Z.prime p -> 2 < p -> 0 <= n -> (pow_is_one = true <-> n ^ ((p - 1) / 2) ≅{p} 1) ->
  (n ^ ((p - 1) / 2) ≅{p} 1 -> exists r, main = Some r /\ 0 <= r < p /\ r * r ≅{p} n) ->
  exists r, (if n =? 0 then Some 0 else if negb pow_is_one then Some 0 else main) = Some r /\ sqrt_result p n r.
Proof.
  intros Hp Hp2 Hn Hone Hmain. unfold sqrt_result. destruct (Z.eqb_spec n 0) as [->|Hz].
  { exists 0. split; [done|]. split; [lia|]. split; [done|]. done. }
  destruct pow_is_one; cbn [negb].
  - destruct Hmain as (r & -> & Hr & E); [by apply Hone|]. exists r. split; [done|]. split; [done|]. split; [done|]. intros Hno. destruct Hno. by exists r.
  - exists 0. split; [done|]. split; [lia|]. split; [|done]. intros Hr. destruct (decide (n mod p = 0)) as [E|E]; [unfold cong; by rewrite E, Zmod_0_l|].
    exfalso. assert (false = true); [|done]. apply Hone. apply euler_criterion; [done|done| |done]. unfold cong. by rewrite Zmod_0_l.
Qed.

Lemma Tonelli_Shanks_spec n p : Z.prime p -> 2 < p < 2 ^ 32 -> 0 <= n -> exists r, Tonelli_Shanks n p = Some r /\ sqrt_result p n r.
Proof.
  intros Hp Hp2 Hn. assert (forall base exp, 0 <= base -> 0 <= exp < p -> pow_mod base exp p = base ^ exp mod p) as Hpow.
  { intros base exp _ He. apply pow_mod_spec; [lia|unfold in_width; lia]. }
  unfold Tonelli_Shanks. apply sqrt_cases; [done|lia|done| |].
  - pose proof (prime_half p Hp ltac:(lia)). rewrite Hpow by lia. rewrite Z.eqb_eq. unfold cong. by rewrite (Z.mod_small 1 p) by lia.
  - intros E. apply (tonelli_core p Hp ltac:(lia) (mul32 p)); [|split; [done|lia]|done|split; [change (2 ^ Z.of_nat 32) with (2 ^ 32); lia|lia]|done|done].
    intros a b Ha Hb. unfold mul32. rewrite wrap_small; [done|]. unfold in_width. change (2 ^ 64) with (2 ^ 32 * 2 ^ 32). nia.
Qed.

Lemma Tonelli_Shanks_u64_spec n p : Z.prime p -> 2 < p < 2 ^ 64 -> 0 <= n -> exists r, Tonelli_Shanks_u64 n p = Some r /\ sqrt_result p n r.
Proof.
  intros Hp Hp2 Hn. assert (forall base exp, 0 <= base -> 0 <= exp < p -> math_pow_mod base exp p = base ^ exp mod p) as Hpow.
  { intros base exp _ He. rewrite math_pow_mod_eq. apply pow_mod_spec; [lia|unfold in_width; lia]. }
  unfold Tonelli_Shanks_u64. apply sqrt_cases; [done|lia|done| |].
  - pose proof (prime_half p Hp ltac:(lia)). rewrite Hpow by lia. rewrite Z.eqb_eq. unfold cong. by rewrite (Z.mod_small 1 p) by lia.
  - intros E. apply (tonelli_core p Hp ltac:(lia) (fun a b => math_mul_mod a b p)); [|split; [done|lia]|done|split; [change (2 ^ Z.of_nat 64) with (2 ^ 64); lia|lia]|done|done].
    intros a b Ha Hb. rewrite math_mul_mod_eq. apply mul_mod_u128_spec; unfold in_width; lia.
Qed.

(** ** Lemmas: inverses *)

Lemma prime_square_unit p a : Z.prime p -> 2 < p -> ~ a ≅{p} 0 -> a ^ (p * p - p) ≅{p * p} 1.
Proof.
  intros Hp Hp2 Ha. pose proof (fermat p Hp Hp2 a Ha) as E. apply cong_divide in E; [|lia]. destruct E as [k Ek].
  replace (p * p - p) with ((p - 1) * p) by ring. rewrite Z.pow_mul_r by lia. assert (a ^ (p - 1) = 1 + k * p) as -> by lia.
  assert (forall m, 0 <= m -> (1 + k * p) ^ m ≅{p * p} 1 + m * (k * p)) as H.
  { intros m Hm. pattern m. apply natlike_ind; [rewrite Z.pow_0_r, Z.mul_0_l, Z.add_0_r; done| |done]. clear m Hm. intros m Hm IH.
    rewrite Z.pow_succ_r, IH by done. apply cong_divide; [lia|]. exists (m * k * k). unfold Z.succ. ring. }
  rewrite H by lia. apply cong_divide; [lia|]. exists k. ring.
Qed.

Lemma modInv_spec a p : Z.prime p -> 2 < p < 2 ^ 32 -> 0 <= a -> ~ a ≅{p} 0 -> 0 <= modInv a p < p /\ a * modInv a p ≅{p} 1.
Proof.
  intros Hp Hp2 Ha Hu. unfold modInv. rewrite (wrap_small 32 (p - 2)) by (unfold in_width; lia). rewrite pow_mod_spec by (unfold in_width; lia).
  pose proof (Z.mod_pos_bound (a ^ (p - 2)) p ltac:(lia)). rewrite wrap_small by (unfold in_width; lia). split; [done|].
  assert (a ^ (p - 2) mod p ≅{p} a ^ (p - 2)) as -> by apply cong_mod. rewrite <- Z.pow_succ_r by lia. replace (Z.succ (p - 2)) with (p - 1) by lia. by apply fermat; [|lia|].
Qed.

Lemma modInvSquare_spec a p : Z.prime p -> 2 < p < 2 ^ 32 -> 0 <= a -> ~ a ≅{p} 0 -> 0 <= modInvSquare a p < p * p /\ a * modInvSquare a p ≅{p * p} 1.
Proof.
  intros Hp Hp2 Ha Hu. unfold modInvSquare. assert (p < p * p < 2 ^ 64) by (change (2 ^ 64) with (2 ^ 32 * 2 ^ 32); nia).
  rewrite (wrap_small 64 (p * p)) by (unfold in_width; lia). assert (3 * p <= p * p) by nia. rewrite (wrap_small 64 (p * p - p)) by (unfold in_width; lia).
  rewrite (wrap_small 64) by (unfold in_width; lia). rewrite pow_mod_spec by (unfold in_width; lia).
  split; [apply Z.mod_pos_bound; lia|]. assert (forall x, x mod (p * p) ≅{p * p} x) as -> by (intros; apply cong_mod).
  rewrite <- Z.pow_succ_r by lia. replace (Z.succ (p * p - p - 1)) with (p * p - p) by lia. by apply prime_square_unit; [|lia|].
Qed.

(** Hensel's step. *)
Lemma hensel_step p r n diff inv x :
  p <> 0 -> r * r ≅{p} n -> diff ≅{p * p} r * r - n -> 2 * r * inv ≅{p} 1 -> x ≅{p * p} r - diff * inv -> x * x ≅{p * p} n /\ x ≅{p} r.
Proof.
  intros Hp E Ed Ei Ex. assert (p * p <> 0) as Hpp by lia. split.
  - rewrite Ex. apply cong_divide in Ed; [|done]. apply cong_divide in Ei; [|done]. apply cong_divide in E; [|done]. destruct Ed as [d Ed], Ei as [u Ei], E as [v E].
    assert (diff = p * (v + d * p)) as -> by lia. apply cong_divide; [done|]. set (s := v + d * p) in *. exists (s * s * inv * inv - d - s * u).
    assert (2 * r * inv = 1 + u * p) as Hui by lia. replace ((r - p * s * inv) * (r - p * s * inv)) with (r * r - p * s * (2 * r * inv) + p * p * (s * s * inv * inv)) by ring.
    rewrite Hui. unfold s in *. assert (r * r = n + v * p) as -> by lia. ring.
  - apply cong_divide in Ed; [|done]. apply cong_divide in E; [|done]. apply cong_divide in Ex; [|done]. destruct Ed as [d Ed], E as [v E], Ex as [q Ex].
    assert (diff = p * (v + d * p)) as -> by lia. apply cong_divide; [done|]. exists (q * p - (v + d * p) * inv). lia.
Qed.

(** A difference modulo [m], as the code forms it. *)
Lemma sub_cases a b m : 0 <= a < m -> 0 <= b < m -> m < 2 ^ 64 ->
  let d := if b <=? a then a - b else wrap 64 (m - (b - a)) in 0 <= d < m /\ d ≅{m} a - b.
Proof.
  intros Ha Hb Hm. cbv zeta. destruct (Z.leb_spec b a); [split; [lia|done]|]. rewrite wrap_small by (unfold in_width; lia). split; [lia|].
  apply cong_divide; [lia|]. exists 1. ring.
Qed.

(** Hensel: a root modulo [p] lifts to a root modulo [p^2]. *)
Lemma liftRoot_spec r n p :
  Z.prime p -> 2 < p < 2 ^ 31 -> 0 <= r < p -> 0 <= n < p * p -> r * r ≅{p} n -> ~ n ≅{p} 0 ->
  let x := liftRoot r n p in 0 <= x < p * p /\ x * x ≅{p * p} n /\ x ≅{p} r.
Proof.
  intros Hp Hp2 Hr Hn E Hu. unfold liftRoot. cbv zeta. assert (p < p * p < 2 ^ 64) as Hpp by (change (2 ^ 64) with (2 ^ 32 * 2 ^ 32); nia).
  rewrite (wrap_small 64 (p * p)), (wrap_small 32 r), (wrap_small 32 (2 * r)) by (unfold in_width; lia).
  rewrite (mul_mod_u128_spec r r) by (unfold in_width; lia). pose proof (Z.mod_pos_bound (r * r) (p * p) ltac:(lia)) as Hm.
  destruct (sub_cases _ n (p * p) Hm Hn ltac:(lia)) as [Hd Ed]. set (diff := if n <=? _ then _ else _) in *. clearbody diff. rewrite cong_mod in Ed. clear Hm.
  assert (~ (2 * r) mod p ≅{p} 0) as H2r.
  { rewrite cong_mod, cong_0 by lia. intros H. apply Z.divide_prime_mul in H; [|done]. destruct H as [H|H]; [apply Z.divide_pos_le in H; lia|].
    apply Hu. rewrite <- E. apply cong_0; [lia|]. by apply Z.divide_mul_l. }
  destruct (modInv_spec ((2 * r) mod p) p Hp ltac:(lia)) as [Hi Ei]; [apply Z.mod_pos_bound; lia|done|]. set (inv := modInv _ _) in *. clearbody inv. rewrite cong_mod in Ei.
  rewrite mul_mod_u128_spec by (unfold in_width; lia). pose proof (Z.mod_pos_bound (diff * inv) (p * p) ltac:(lia)) as Ht.
  destruct (sub_cases r _ (p * p) ltac:(lia) Ht ltac:(lia)) as [Hx Ex]. set (x := if _ <=? r then _ else _) in *. clearbody x. rewrite cong_mod in Ex.
  split; [done|]. apply (hensel_step p r n diff inv x); [lia|done..].
Qed.

(** ** Lemmas: residues by the symbol *)

Lemma jacobi_symbol_residue p a : Z.prime p -> 2 < p < 2 ^ 64 -> 0 <= a -> jacobi_symbol a p = 1 <-> ~ a ≅{p} 0 /\ residue p a.
Proof.
  intros Hp Hp2 Ha. unfold jacobi_symbol. split.
  - destruct (Z.eqb_spec (Z.gcd a p) 1) as [Hg|]; [|done]. intros Hs. assert (~ a ≅{p} 0) as Hu.
    { rewrite cong_0 by lia. intros Hd. assert (p | Z.gcd a p) as H by (by apply Z.gcd_greatest). rewrite Hg in H. apply Z.divide_1_r in H. lia. }
    split; [done|]. destruct (euler_sign p Hp ltac:(lia) a Hu) as [E _]. rewrite Hs in E.
    destruct (tonelli_core p Hp ltac:(lia) (fun x y => (x * y) mod p) ltac:(done) 64) with (pow := fun b e m : Z => b ^ e mod m) (bits := 64%nat) (fuel := 64%nat) (n := a) as (r & _ & _ & Hr); [lia|done|lia|done|done|by exists r].
  - intros [Hu Hr]. rewrite (prime_gcd p Hp ltac:(lia) a Hu), Z.eqb_refl. by apply (residue_symbol p Hp ltac:(lia)).
Qed.

(** ** Lemmas: the sieve *)

Lemma elem_of_steps lo hi step x : 0 < step -> x ∈ steps lo hi step <-> exists k, 0 <= k /\ x = lo + step * k /\ x <= hi.
Proof.
  intros Hs. unfold steps. rewrite list_elem_of_In, in_map_iff. split.
  - intros (k & <- & Hk). apply list_elem_of_In, elem_of_upto in Hk. exists k. split; [lia|]. split; [done|].
    pose proof (Z.mul_div_le (hi - lo) step Hs). nia.
  - intros (k & Hk & -> & Hle). exists k. split; [done|]. apply list_elem_of_In, elem_of_upto. split; [done|].
    assert (k <= (hi - lo) / step) by (apply Z.div_le_lower_bound; lia). lia.
Qed.

Lemma mark_spec c l : Forall (fun i => 0 <= i < Z.of_nat (length c)) l ->
  length (mark c l) = length c /\ forall j, 0 <= j -> vget false (mark c l) j = true <-> vget false c j = true \/ j ∈ l.
Proof.
  intros H. unfold mark. induction l as [|i l IH] using rev_ind; [split; [done|]; intros j _; rewrite elem_of_nil; tauto|].
  apply Forall_app in H as [Hl Hi]. apply Forall_cons in Hi as [Hi _]. destruct (IH Hl) as [I1 I2]. rewrite foldl_snoc. split; [by rewrite length_vset|].
  intros j Hj. destruct (decide (j = i)) as [->|Hne].
  - rewrite vget_vset_eq by lia. set_solver.
  - rewrite vget_vset_ne, I2 by lia. set_solver.
Qed.

Lemma odd_divisor d j : j mod 2 = 1 -> (d | j) -> d mod 2 = 1.
Proof.
  intros Hj [q ->]. rewrite Z.mul_mod in Hj by lia. pose proof (Z.mod_pos_bound d 2 ltac:(lia)). assert (d mod 2 = 0 \/ d mod 2 = 1) as [E|] by lia; [|done].
  by rewrite E, Z.mul_0_r in Hj.
Qed.

Lemma odd_quotient d q : (q * d) mod 2 = 1 -> q mod 2 = 1.
Proof. intros H. apply (odd_divisor q (q * d) H). by exists d; ring. Qed.

Lemma odd_double x : x mod 2 = 1 -> exists k, x = 2 * k + 1.
Proof. intros H. exists (x / 2). pose proof (Z.div_mod x 2 ltac:(lia)). lia. Qed.

Lemma sieve_odd_spec F i c : F < 2 ^ 31 -> 3 <= i <= Z.sqrt F -> i mod 2 = 1 -> marked_below F i c -> marked_below F (i + 2) (sieve_odd F c i).
Proof.
  intros HF Hi Hodd [Hlen H]. pose proof (Z.sqrt_spec F) as Hsq. assert (0 <= F) by (destruct (Z.le_gt_cases 0 F); [done|rewrite Z.sqrt_neg in Hi by done; lia]).
  specialize (Hsq ltac:(done)). cbv zeta in Hsq. assert (i * i <= F) as Hii by (pose proof (Z.mul_le_mono_nonneg i (Z.sqrt F) i (Z.sqrt F)); lia). clear Hsq. unfold sieve_odd.
  assert (forall d, d < i + 2 -> d mod 2 = 1 -> d < i \/ d = i) as Hd.
  { intros d Hlt Hdo. destruct (odd_double _ Hodd) as [a ->], (odd_double _ Hdo) as [b ->]. lia. }
  destruct (vget false c i) eqn:Ei; cbn [negb].
  - split; [done|]. intros j Hj Hjo. rewrite H by done. split; intros (d & H1 & H2 & H3 & H4); [exists d; split; [lia|done]|].
    destruct (Hd d ltac:(lia) H2) as [| ->]; [exists d; split; [lia|done]|]. apply H in Ei as (e & E1 & E2 & E3 & E4); [|nia|done].
    exists e. split; [lia|]. split; [done|]. split; [nia|]. by apply Z.divide_trans with i.
  - rewrite wrap_small by (unfold in_width; nia). destruct (mark_spec c (steps (i * i) F (2 * i))) as [M1 M2].
    { apply Forall_forall. intros x (k & Hk & -> & Hle)%elem_of_steps; [|lia]. nia. }
    split; [lia|]. intros j Hj Hjo. rewrite M2, H, elem_of_steps by (done || lia). split.
    + intros [(d & H1 & H2)|(k & Hk & -> & Hle)]; [exists d; split; [lia|done]|]. exists i. split; [lia|]. split; [done|]. split; [nia|]. exists (i + 2 * k). ring.
    + intros (d & H1 & H2 & H3 & H4). destruct (Hd d ltac:(lia) H2) as [| ->]; [left; exists d; split; [lia|done]|]. right. destruct H4 as [q ->].
      pose proof (odd_quotient _ _ Hjo) as Hq. destruct (odd_double _ Hodd) as [a Ea], (odd_double _ Hq) as [b Eb]. exists (b - a). split; [nia|]. split; [|lia]. rewrite Eb, Ea. ring.
Qed.

Lemma isComposite_spec F : 1 <= F < 2 ^ 31 -> forall j, 3 <= j <= F -> j mod 2 = 1 -> vget false (isComposite F) j = false <-> Z.prime j.
Proof.
  intros HF j Hj Hjo. unfold isComposite. set (c0 := vset (vset _ 0 true) 1 true). assert (Z.of_nat (length c0) = F + 1) as L0 by (unfold c0; rewrite !length_vset, length_replicate; lia).
  destruct (mark_spec c0 (steps 4 F 2)) as [M1 M2]; [apply Forall_forall; intros x (k & Hk & -> & Hle)%elem_of_steps; lia|]. set (c1 := mark c0 _) in *.
  assert (marked_below F 3 c1) as H1.
  { split; [lia|]. intros i Hi Hio. rewrite M2, elem_of_steps by lia. unfold c0. rewrite !vget_vset_ne, vget_replicate by lia. split; [|intros (d & ? & _); lia].
    intros [|(k & Hk & -> & _)]; [done|]. replace (4 + 2 * k) with ((2 + k) * 2) in Hio by ring. by rewrite Z.mod_mul in Hio by lia. }
  assert (forall n, 0 <= n -> 3 + 2 * (n - 1) <= Z.sqrt F -> marked_below F (3 + 2 * n) (foldl (sieve_odd F) c1 (map (fun k => 3 + 2 * k) (upto n)))) as HS.
  { intros n Hn. pattern n. apply natlike_ind; [by rewrite Z.mul_0_r, Z.add_0_r| |done]. clear n Hn. intros n Hn IH Hle. change (Z.succ n) with (n + 1) in *.
    rewrite upto_S, map_app, foldl_app by done. cbn [map foldl]. replace (3 + 2 * (n + 1)) with (3 + 2 * n + 2) by ring. apply sieve_odd_spec; [lia|lia| |apply IH; lia].
    replace (3 + 2 * n) with (1 + (n + 1) * 2) by ring. by rewrite Z.mod_add by lia. }
  pose proof (Z.sqrt_spec F ltac:(lia)) as Hsq. cbv zeta in Hsq. set (s := Z.sqrt F) in *. set (n := Z.max 0 ((s - 3) / 2 + 1)).
  assert (steps 3 s 2 = map (fun k => 3 + 2 * k) (upto n)) as ->.
  { unfold steps, n. destruct (Z.max_spec 0 ((s - 3) / 2 + 1)) as [[_ ->]|[Hle ->]]; [done|]. unfold upto. by replace (Z.to_nat ((s - 3) / 2 + 1)) with 0%nat by lia. }
  assert (forall x, 0 <= x -> x * x <= F -> x <= s) as Hsmall by (intros x Hx Hxx; destruct (Z.le_gt_cases x s); [done|]; pose proof (Z.mul_le_mono_nonneg (s + 1) x (s + 1) x); lia).
  pose proof (Z.div_mod (s - 3) 2 ltac:(lia)) as Ed. pose proof (Z.mod_pos_bound (s - 3) 2 ltac:(lia)) as Em. assert (0 <= s) by apply Z.sqrt_nonneg.
  destruct (decide (s < 3)) as [Hs|Hs].
  - assert (n = 0) as -> by (unfold n; lia). destruct H1 as [_ H1]. rewrite <- not_true_iff_false, (H1 j Hj Hjo). split; [|intros _ (d & ? & _); lia]. intros _. split; [lia|].
    intros d Hd Hdj. pose proof (odd_divisor d j Hjo Hdj) as Hdo. destruct Hdj as [q Hq]. pose proof (odd_quotient d q ltac:(by rewrite <- Hq)) as Hqo.
    destruct (odd_double _ Hdo) as [a Ea], (odd_double _ Hqo) as [b Eb]. assert (1 < q) by nia. assert (3 <= q /\ 3 <= d) as [Hq3 Hd3] by lia.
    assert (9 <= q * d) by nia. assert (s = 0 \/ s = 1 \/ s = 2) as [E|[E|E]] by lia; rewrite E in Hsq; lia.
  - destruct (HS n ltac:(unfold n; lia) ltac:(unfold n; lia)) as [_ HM]. rewrite <- not_true_iff_false, (HM j Hj Hjo). split.
    + intros Hno. split; [lia|]. intros d Hd Hdj. pose proof (odd_divisor d j Hjo Hdj) as Hdo. destruct Hdj as [q Hq]. pose proof (odd_quotient d q ltac:(by rewrite <- Hq)) as Hqo.
      destruct (odd_double _ Hdo) as [a Ea], (odd_double _ Hqo) as [b Eb]. apply Hno. destruct (Z.le_gt_cases d q).
      * assert (d * d <= j) by (rewrite Hq; apply Z.mul_le_mono_nonneg_r; lia). pose proof (Hsmall d ltac:(lia) ltac:(lia)). exists d. split; [unfold n; lia|]. split; [done|]. split; [done|]. by exists q.
      * assert (1 < q) by nia. assert (q * q <= j) by (rewrite Hq; apply Z.mul_le_mono_nonneg_l; lia). pose proof (Hsmall q ltac:(lia) ltac:(lia)).
        exists q. split; [unfold n; lia|]. split; [done|]. split; [done|]. exists d. lia.
    + intros [_ Hp] (d & H1' & H2 & H3 & H4). apply (Hp d); [nia|done].
Qed.

(** ** Lemmas: the factor base *)

Lemma mod_uint32_spec N p : u512_ok N -> 0 < p < 2 ^ 32 -> mod_uint32 N p = u512_val N mod p.
Proof. intros HN Hp. rewrite mod_uint32_eq. destruct (Z.eqb_spec p 0); [lia|]. by apply div_uint32_inplace_spec. Qed.

Lemma add_prime_spec N F st p :
  u512_ok N -> 1 <= F < 2 ^ 31 -> 3 <= p <= F -> p mod 2 = 1 ->
  (in_factor_base N p /\ exists r, add_prime N (isComposite F) (Some st) p = Some (st.1 ++ [p], st.2 ++ [r]) /\ root_ok N p r) \/
  (~ in_factor_base N p /\ add_prime N (isComposite F) (Some st) p = Some st).
Proof.
  intros HN HF Hp Hpo. destruct st as [fb roots]. unfold add_prime. cbn [mbind option_bind]. pose proof (isComposite_spec F HF p Hp Hpo) as HC.
  destruct (vget false (isComposite F) p); cbn [negb].
  { right. split; [intros [H _]; by apply HC in H|done]. }
  assert (Z.prime p) as Hpr by by apply HC. rewrite mod_uint32_spec by (done || lia). pose proof (Z.mod_pos_bound (u512_val N) p ltac:(lia)) as Hm.
  rewrite jacobi_eq by (done || lia). rewrite (jacobi_symbol_cong _ (u512_val N)) by apply cong_mod. pose proof (u512_bound N HN) as HB.
  destruct (Z.eqb_spec (jacobi_symbol (u512_val N) p) 1) as [Ej|Ej].
  2:{ right. split; [intros (_ & H1 & H2); apply Ej, jacobi_symbol_residue; [done|lia|apply HB|done]|done]. }
  apply jacobi_symbol_residue in Ej as [Hu Hr]; [|done|lia|apply HB]. left. split; [done|].
  destruct (Tonelli_Shanks_spec (u512_val N mod p) p Hpr ltac:(lia) ltac:(lia)) as (r & -> & Hr0 & Hroot & _). cbn [mbind option_bind].
  assert (r * r ≅{p} u512_val N) as Er.
  { assert (residue p (u512_val N mod p)) as H by (destruct Hr as [x Hx]; exists x; by rewrite Hx, cong_mod). rewrite (Hroot H). apply cong_mod. }
  assert (r <> 0) as Hnz by (intros ->; by apply Hu). rewrite Z.shiftr_div_pow2 by lia. change (2 ^ 1) with 2. eexists. split; [reflexivity|].
  pose proof (Z.div_mod p 2 ltac:(lia)). unfold root_ok. destruct (Z.ltb_spec (p / 2) r); split; [lia| |lia|done].
  transitivity (r * r); [|done]. apply cong_divide; [lia|]. exists (p - 2 * r). ring.
Qed.

Lemma generate_spec N F l :
  u512_ok N -> 1 <= F < 2 ^ 31 -> StronglySorted Z.lt l -> Forall (fun p => 3 <= p <= F /\ p mod 2 = 1) l ->
  exists fb roots, foldl (add_prime N (isComposite F)) (Some ([], [])) l = Some (fb, roots) /\ Forall2 (root_ok N) fb roots /\ StronglySorted Z.lt fb /\
    forall p, p ∈ fb <-> p ∈ l /\ in_factor_base N p.
Proof.
  intros HN HF. induction l as [|p l IH] using rev_ind; intros Hs Hl.
  { exists [], []. split; [done|]. split; [done|]. split; [constructor|]. intros p. rewrite elem_of_nil. tauto. }
  apply StronglySorted_app in Hs as (Hlt & Hsl & _). apply Forall_app in Hl as [Hl Hp]. apply Forall_cons in Hp as [[Hp Hpo] _].
  destruct (IH Hsl Hl) as (fb & roots & E & HR & HS & HM). rewrite foldl_snoc, E.
  destruct (add_prime_spec N F (fb, roots) p HN HF Hp Hpo) as [[Hb (r & -> & Hr)]|[Hb ->]].
  - exists (fb ++ [p]), (roots ++ [r]). split; [done|]. split; [by apply Forall2_app; [|constructor]|]. split.
    + apply StronglySorted_app. split; [|split; [done|by repeat constructor]]. intros x y Hx Hy. apply Hlt; [by apply HM|done].
    + intros q. rewrite !elem_of_app, !list_elem_of_singleton, HM. naive_solver.
  - exists fb, roots. split; [done|]. split; [done|]. split; [done|]. intros q. rewrite elem_of_app, list_elem_of_singleton, HM. naive_solver.
Qed.

Lemma steps_sorted lo hi step : 0 < step -> StronglySorted Z.lt (steps lo hi step).
Proof.
  intros Hs. unfold steps. set (n := (hi - lo) / step + 1). destruct (Z.le_gt_cases n 0) as [Hn|Hn]; [unfold upto; replace (Z.to_nat n) with 0%nat by lia; constructor|].
  assert (0 <= n) as Hn0 by lia. clear Hn. pattern n. apply natlike_ind; [constructor| |done]. clear -Hs. intros m Hm IH. change (Z.succ m) with (m + 1).
  rewrite upto_S, map_app by done. apply StronglySorted_app. split; [|split; [done|by repeat constructor]].
  intros x y (k & <- & Hk)%list_elem_of_In%in_map_iff ->%list_elem_of_singleton. apply list_elem_of_In, elem_of_upto in Hk. nia.
Qed.

(** The factor base: in increasing order the odd primes up to [F] that do not divide [N] and modulo which [N] is a square, each with the
    smaller square root. *)
Lemma generateFactorBase_spec N F :
  u512_ok N -> 1 <= F < 2 ^ 31 ->
  exists fb roots, generateFactorBase N F = Some (fb, roots) /\ Forall2 (root_ok N) fb roots /\ StronglySorted Z.lt fb /\
    forall p, p ∈ fb <-> 3 <= p <= F /\ in_factor_base N p.
Proof.
  intros HN HF. destruct (generate_spec N F (steps 3 F 2) HN HF) as (fb & roots & E & H1 & H2 & H3); [by apply steps_sorted| |].
  - apply Forall_forall. intros p (k & Hk & -> & Hle)%elem_of_steps; [|lia]. split; [lia|]. replace (3 + 2 * k) with (1 + (1 + k) * 2) by ring. by rewrite Z.mod_add by lia.
  - exists fb, roots. split; [exact E|]. split; [done|]. split; [done|]. intros p. rewrite H3, elem_of_steps by lia. split.
    + intros [(k & Hk & -> & Hle) Hb]. split; [lia|done].
    + intros [Hp Hb]. split; [|done]. pose proof (prime_odd p (proj1 Hb) ltac:(lia)) as Ho. destruct (odd_double p Ho) as [k ->]. exists (k - 1). lia.
Qed.

(** ** Lemmas: primality *)

Lemma meets_spec n c : Z.prime n -> 2 < n < 2 ^ 64 -> forall x,
  0 <= x < n -> x ^ 2 ^ (Z.of_nat c + 1) ≅{n} 1 -> ~ x ≅{n} 1 -> ~ x ≅{n} -1 -> meets_minus_one c x n = true.
Proof.
  intros Hp Hn. induction c as [|c IH]; intros x Hx E H1 H2.
  - change (2 ^ (Z.of_nat 0 + 1)) with 2 in E. rewrite Z.pow_2_r in E. by destruct (square_one n Hp ltac:(lia) x E).
  - cbn [meets_minus_one]. cbv zeta. rewrite math_mul_mod_eq, mul_mod_u128_spec by (unfold in_width; lia). pose proof (Z.mod_pos_bound (x * x) n ltac:(lia)) as Hm.
    assert ((x * x) mod n ≅{n} x * x) as Ey by apply cong_mod. destruct (Z.eqb_spec ((x * x) mod n) (n - 1)) as [|Hne]; [done|]. apply IH; [done| | |].
    + rewrite Ey. replace (Z.of_nat (S c) + 1) with (Z.succ (Z.of_nat c + 1)) in E by lia. rewrite Z.pow_succ_r, Z.pow_mul_r, Z.pow_2_r in E by (try apply Z.pow_nonneg; lia). done.
    + rewrite Ey. intros E1. by destruct (square_one n Hp ltac:(lia) x E1).
    + intros E1. apply Hne. apply (cong_small n); [lia|lia|]. rewrite E1. apply cong_divide; [lia|]. exists (-1). ring.
Qed.

Lemma passes_prime n d r a : Z.prime n -> 2 < n < 2 ^ 64 -> 0 < d -> 1 <= r -> n - 1 = d * 2 ^ r -> 0 < a < n -> passes_witness n d r a = true.
Proof.
  intros Hp Hn Hd Hr E Ha. unfold passes_witness. assert (d <= n - 1) by (assert (0 < 2 ^ r) by (apply Z.pow_pos_nonneg; lia); nia).
  rewrite math_pow_mod_eq, pow_mod_spec by (unfold in_width; lia). pose proof (Z.mod_pos_bound (a ^ d) n ltac:(lia)) as Hm. set (x := a ^ d mod n) in *.
  destruct (Z.eqb_spec x 1) as [|H1]; [done|]. destruct (Z.eqb_spec x (n - 1)) as [|H2]; [done|]. cbn [orb]. apply meets_spec; [done|done|done| | |].
  - rewrite Z2Nat.id by lia. replace (r - 1 + 1) with r by lia. assert (x ≅{n} a ^ d) as -> by apply cong_mod. rewrite <- Z.pow_mul_r, <- E by (try apply Z.pow_nonneg; lia).
    apply fermat; [done|lia|]. rewrite cong_0 by lia. intros Hd'%Z.divide_pos_le; lia.
  - rewrite unit_one by lia. done.
  - intros E1. apply H2. apply (cong_small n); [lia|lia|]. rewrite E1. apply cong_divide; [lia|]. exists (-1). ring.
Qed.

Lemma quick_check_prime ws n : Z.prime n -> Forall (fun w => 1 < w) ws -> quick_check ws n = Some true \/ (quick_check ws n = None /\ Forall (fun w => n <> w) ws).
Proof.
  intros Hp. induction 1 as [|w ws Hw _ IH]; [by right|]. cbn [quick_check]. destruct (Z.eqb_spec n w) as [|Hne]; [by left|].
  destruct (Z.eqb_spec (n mod w) 0) as [E|]; [|destruct IH as [|[H1 H2]]; [by left|right; split; [done|by constructor]]].
  exfalso. apply Z.mod_divide in E; [|lia]. pose proof (Z.prime_ge_2 n Hp). pose proof (Z.divide_pos_le w n ltac:(lia) E). by apply (proj2 Hp w); [lia|].
Qed.

Lemma is_prime_u64_prime n : Z.prime n -> n < 2 ^ 64 -> is_prime_u64 n = true.
Proof.
  intros Hp Hn. pose proof (Z.prime_ge_2 n Hp). unfold is_prime_u64. rewrite (proj2 (Z.ltb_ge n 2)) by lia.
  destruct (quick_check_prime witnesses n Hp) as [-> |[-> Hne]]; [by repeat constructor|done|].
  assert (n <> 2) as H2 by (by apply Forall_cons in Hne as [? _]). pose proof (odd_part_spec 64 (n - 1) 0 ltac:(change (2 ^ Z.of_nat 64) with (2 ^ 64); lia)) as Ho.
  destruct (odd_part 64 (n - 1) 0) as [d r]. destruct Ho as (Hd & Hd2 & Hr & E). rewrite Z.sub_0_r in E.
  assert (1 <= r) as Hr1.
  { destruct (decide (r = 0)) as [->|]; [|lia]. rewrite Z.pow_0_r, Z.mul_1_r in E. pose proof (prime_half n Hp ltac:(lia)) as Eh. rewrite <- E in Hd2.
    replace (n - 1) with ((n - 1) / 2 * 2) in Hd2 by lia. by rewrite Z.mod_mul in Hd2 by lia. }
  assert (37 < n) as Hbig.
  { destruct (Z.le_gt_cases n 37) as [Hle|]; [|done]. exfalso. assert (forallb (fun m => existsb (Z.eqb m) witnesses || existsb (fun w => (m mod w =? 0) && (w <? m)) witnesses) (map (Z.add 2) (upto 36)) = true) as HB by by vm_compute.
    rewrite forallb_forall in HB. specialize (HB n ltac:(apply in_map_iff; exists (n - 2); split; [lia|apply list_elem_of_In, elem_of_upto; lia])).
    apply orb_true_iff in HB as [HB|HB]; apply existsb_exists in HB as (w & Hw & HB); apply list_elem_of_In in Hw.
    - apply Z.eqb_eq in HB. rewrite Forall_forall in Hne. by apply (Hne w Hw).
    - apply andb_true_iff in HB as [H1%Z.eqb_eq H3%Z.ltb_lt]. assert (1 < w) by (assert (Forall (fun w => 1 < w) witnesses) as HF by (by repeat constructor); rewrite Forall_forall in HF; by apply HF).
      apply Z.mod_divide in H1; [|lia]. by apply (proj2 Hp w). }
  apply forallb_forall. intros a Ha%list_elem_of_In. apply passes_prime; [done|lia|lia|done|done|].
  assert (Forall (fun w => 0 < w <= 37) witnesses) as HF by (by repeat constructor). rewrite Forall_forall in HF. specialize (HF a Ha). lia.
Qed.

(** ** Properties *)

(** C26. The factor base: generation ends, and lists in increasing order exactly the odd primes up to [F] that do not divide [N]
    and modulo which [N] is a square, each with the smaller of its two square roots. Quadratic reciprocity is what makes
    the Jacobi loop decide this. *)
Theorem factor_base_exact N F :
  u512_ok N -> 1 <= F < 2 ^ 31 ->
  exists fb roots, generateFactorBase N F = Some (fb, roots) /\ Forall2 (root_ok N) fb roots /\ StronglySorted Z.lt fb /\
    forall p, p ∈ fb <-> 3 <= p <= F /\ in_factor_base N p.
Proof. apply generateFactorBase_spec. Qed.

Lemma factor_base_exact_witness : exists fb roots, generateFactorBase (u512_of_Z 1649) 60 = Some (fb, roots) /\ Forall2 (root_ok (u512_of_Z 1649)) fb roots.
Proof.
  destruct (factor_base_exact (u512_of_Z 1649) 60) as (fb & roots & E & H & _); [apply u512_of_Z_spec|lia|]. exists fb, roots. split; [exact E|exact H].
Defined.

(** Square roots modulo odd primes, in both widths: the loops end; the result is a root of the argument when it is a
    square and 0 when it is not. *)
Theorem tonelli_exact n p :
  Z.prime p -> 2 < p -> 0 <= n ->
  (p < 2 ^ 32 -> exists r, Tonelli_Shanks n p = Some r /\ sqrt_result p n r) /\
  (p < 2 ^ 64 -> exists r, Tonelli_Shanks_u64 n p = Some r /\ sqrt_result p n r).
Proof. intros Hp Hp2 Hn. split; intros Hlt; [by apply Tonelli_Shanks_spec|by apply Tonelli_Shanks_u64_spec]. Qed.

Lemma prime_97 : Z.prime 97.
Proof.
  split; [lia|]. intros d Hd Hdiv. assert (forallb (fun d => negb (97 mod d =? 0)) (map (Z.add 2) (upto 95)) = true) as H by by vm_compute.
  rewrite forallb_forall in H. specialize (H d ltac:(apply in_map_iff; exists (d - 2); split; [lia|apply list_elem_of_In, elem_of_upto; lia])).
  apply Z.mod_divide in Hdiv; [|lia]. by rewrite Hdiv in H.
Qed.

Lemma tonelli_exact_witness : exists r, Tonelli_Shanks 2 97 = Some r /\ sqrt_result 97 2 r.
Proof. apply (tonelli_exact 2 97 prime_97); lia. Defined.

(** The Jacobi loop computes the Jacobi symbol of any odd modulus, 0 exactly when there is a common factor; modulo an odd
    prime it is 1 exactly for the squares that the prime does not divide. *)
Theorem jacobi_exact a n :
  0 <= a -> 0 < n < 2 ^ 32 -> n mod 2 = 1 ->
  jacobi a n = jacobi_symbol a n /\ jacobi_u64 a n = jacobi_symbol a n /\ (jacobi a n = 0 <-> Z.gcd a n <> 1) /\
  (Z.prime n -> 2 < n -> jacobi a n = 1 <-> ~ a ≅{n} 0 /\ residue n a).
Proof.
  intros Ha Hn Ho. rewrite jacobi_eq by done. split; [done|]. split; [apply jacobi_u64_eq; [done|lia|done]|]. split.
  - unfold jacobi_symbol. destruct (Z.eqb_spec (Z.gcd a n) 1) as [E|E]; [|done]. pose proof (symbol_sign n ltac:(lia) Ho a E) as S. split; [|done]. intros H0. by rewrite H0 in S.
  - intros Hp Hn2. by apply jacobi_symbol_residue; [|lia|].
Qed.

Lemma jacobi_exact_witness : jacobi 8 15 = jacobi_symbol 8 15.
Proof. destruct (jacobi_exact 8 15) as [H _]; [lia|lia|reflexivity|exact H]. Defined.

(** Inverses modulo a prime and its square, and Hensel lifting of a square root, for primes below 2^31. *)
Theorem inverses_exact a p :
  Z.prime p -> 2 < p < 2 ^ 31 -> 0 <= a -> ~ a ≅{p} 0 ->
  (0 <= modInv a p < p /\ a * modInv a p ≅{p} 1) /\ (0 <= modInvSquare a p < p * p /\ a * modInvSquare a p ≅{p * p} 1) /\
  forall r, 0 <= r < p -> r * r ≅{p} a -> let x := liftRoot r (a mod (p * p)) p in 0 <= x < p * p /\ x * x ≅{p * p} a /\ x ≅{p} r.
Proof.
  intros Hp Hp2 Ha Hu. split; [apply modInv_spec; [done|lia|done|done]|]. split; [apply modInvSquare_spec; [done|lia|done|done]|].
  intros r Hr E. cbv zeta. pose proof (Z.mod_pos_bound a (p * p) ltac:(lia)) as Hm.
  assert (a mod (p * p) ≅{p} a) as Em. { apply cong_divide; [lia|]. exists (- (p * (a / (p * p)))). pose proof (Z.div_mod a (p * p) ltac:(lia)). lia. }
  destruct (liftRoot_spec r (a mod (p * p)) p Hp Hp2 Hr Hm) as (H1 & H2 & H3); [by rewrite Em|by rewrite Em|]. split; [done|]. split; [|done]. by rewrite H2, cong_mod.
Qed.

Lemma inverses_exact_witness : 2 * modInv 2 97 ≅{97} 1 /\ liftRoot 14 2 97 * liftRoot 14 2 97 ≅{97 * 97} 2.
Proof.
  destruct (inverses_exact 2 97 prime_97) as ((_ & H1) & _ & H2); [lia|lia|by vm_compute|]. split; [exact H1|].
  destruct (H2 14) as (_ & H3 & _); [lia|reflexivity|]. exact H3.
Defined.

(** The primality test accepts every prime below 2^64. *)
Theorem primes_accepted n : Z.prime n -> n < 2 ^ 64 -> is_prime_u64 n = true.
Proof. apply is_prime_u64_prime. Qed.

Lemma primes_accepted_witness : is_prime_u64 97 = true.
Proof. apply (primes_accepted 97 prime_97). lia. Defined.
