(* ===== verification/CharPrimes.v ===== *)
(** The characters of relations: the Jacobi symbols of [src/src/matrix/gpu_char_cols.cuh],
    their capture when a relation is born ([src/src/postprocessing/postprocessing.cu]) and the
    choice of the auxiliary primes ([CharacterColumnComputer::selectAuxPrimes] of
    [src/src/matrix/character_columns.cpp]). *)
From Stdlib Require Import ZArith Lia Sorted.
From stdpp Require Import base gmap sets list sorting.
From S2P Require Import Prelude Soa Gf2 RowOps Preprocess Doubles.
From S2P Require Import UInt512 UInt512Div Congruence Residues PrimeAlgorithms.
#[local] Open Scope Z_scope.

Inductive CharMode := NORM | BRANCH | NONE.

(** ** The symbols *)

(** The inner loop of [jacobi_symbol_dev]: factors of 2, one at a time. *)
Fixpoint strip_twos (fuel : nat) (a n t : Z) : Z * Z :=
  match fuel with
  | O => (a, t)
  | S f =>
      if Z.land a 1 =? 0 then
        let r := Z.land n 7 in
        strip_twos f (Z.shiftr a 1) n (if (r =? 3) || (r =? 5) then - t else t)
      else (a, t)
  end.

Fixpoint jacobi_dev_loop (fuel : nat) (a n t : Z) : Z :=
  match fuel with
  | O => 0
  | S f =>
      if a =? 0 then (if n =? 1 then t else 0)
      else
        let '(a, t) := strip_twos 64 a n t in
        let '(a, n) := (n, a) in
        let t := if (Z.land a 3 =? 3) && (Z.land n 3 =? 3) then - t else t in
        jacobi_dev_loop f (a mod n) n t
  end.

Definition jacobi_symbol_dev (a n : Z) : Z := jacobi_dev_loop 65 (a mod n) n 1.
Definition jacobi_symbol_dev_u64 (a n : Z) : Z := jacobi_dev_loop 129 (a mod n) n 1.

Definition branchCharBit (axb_mod_q t_s q : Z) : Z :=
  let diff := math_sub_mod axb_mod_q t_s q in
  if jacobi_symbol_dev_u64 diff q =? -1 then 1 else 0.

(** The characters of a relation at its birth, from [|a x + b|] and its sign. *)
Definition birth_bit (sqrt_Q : uint512) (sign_axb : Z) (char_bits : Z) (s : Z * (Z * Z)) : Z :=
  let '(s, (q, t)) := s in
  let aq := mod_uint64 sqrt_Q q in
  let axb_mod_q := if sign_axb =? -1 then math_sub_mod 0 aq q else aq in
  Z.lor char_bits (wrap 32 (Z.shiftl (branchCharBit axb_mod_q t q) s)).

Definition birth_char_bits (char_q char_t : list Z) (sqrt_Q : uint512) (sign_axb : Z) : Z :=
  foldl (birth_bit sqrt_Q sign_axb) 0 (zip (upto (Z.of_nat (length char_q))) (zip char_q char_t)).

(** ** Auxiliary primes *)

(** Trial division up to the truncated square root, plus one. *)
Definition is_prime_small (candidate : Z) : bool :=
  if candidate <? 2 then false
  else if candidate =? 2 then true
  else if Z.land candidate 1 =? 0 then false
  else
    let limit := wrap 32 (wrap 32 (d_trunc (d_sqrt (d_of_Z candidate))) + 1) in
    forallb (fun d => negb (candidate mod d =? 0)) (steps 3 limit 2).

Record CharacterColumnComputer := mkComputer { aux_primes_ : list Z; n_mod_q_ : list Z; t_s_ : list Z }.

(** The walk over the odd candidates of [w] bits until [k] primes are found; [accept] gives what
    is pushed, [None] for [continue]. [None] as the result: out of fuel. *)
Fixpoint walk {A} (w : Z) (accept : Z -> option (option A)) (k : Z) (fuel : nat) (candidate : Z) (acc : list A) : option (list A) :=
  match fuel with
  | O => None
  | S f =>
      if k <=? Z.of_nat (length acc) then Some acc
      else
        match accept candidate with
        | None => None
        | Some r => walk w accept k f (wrap w (candidate + 2)) (match r with Some x => acc ++ [x] | None => acc end)
        end
  end.

(** NORM: the prime and [N] modulo it. *)
Definition norm_accept (N : uint512) (fb : list Z) (candidate : Z) : option (option (Z * Z)) :=
  if negb (is_prime_small candidate) then Some None
  else if existsb (Z.eqb candidate) fb then Some None
  else
    let n_mod := mod_uint32 N candidate in
    if negb (jacobi_symbol_dev n_mod candidate =? 1) then Some None
    else Some (Some (candidate, n_mod)).

(** BRANCH: the prime and the smaller square root of [N] modulo it. *)
Definition branch_accept (N : uint512) (candidate : Z) : option (option (Z * Z)) :=
  if negb (is_prime_u64 candidate) then Some None
  else
    let n_mod := mod_uint64 N candidate in
    if negb (jacobi_u64 n_mod candidate =? 1) then Some None
    else
      match Tonelli_Shanks_u64 n_mod candidate with
      | None => None
      | Some t => Some (Some (candidate, Z.min t (wrap 64 (candidate - t))))
      end.

Definition branch_start (lp1_bound : Z) : Z :=
  let candidate := wrap 64 (lp1_bound + 1) in
  if Z.land candidate 1 =? 0 then wrap 64 (candidate + 1) else candidate.

(** The code calls this with NORM or BRANCH only. *)
Definition selectAuxPrimes (fuel : nat) (N : uint512) (fb : list Z) (mode : CharMode) (lp1_bound k : Z) : option CharacterColumnComputer :=
  match mode with
  | NORM =>
      l ← walk 32 (norm_accept N fb) k fuel 3 [];
      Some (mkComputer (map fst l) (map snd l) [])
  | _ =>
      l ← walk 64 (branch_accept N) k fuel (branch_start lp1_bound) [];
      Some (mkComputer (map fst l) [] (map snd l))
  end.

(** ** Vocabulary of the specifications *)

(** What NORM asks of an auxiliary prime. *)
Definition norm_prime (N : uint512) (fb : list Z) (q : Z) : Prop :=
  3 <= q /\ Z.prime q /\ q ∉ fb /\ jacobi_symbol (u512_val N) q = 1.

(** What BRANCH asks of a candidate. *)
Definition branch_prime (N : uint512) (lp1_bound q : Z) : Prop :=
  lp1_bound < q /\ 3 <= q /\ Z.prime q /\ jacobi_symbol (u512_val N) q = 1.

(** The root that is stored. *)
Definition smaller_root (N : uint512) (q : Z) : Z :=
  match Tonelli_Shanks_u64 (u512_val N mod q) q with Some t => Z.min t (q - t) | None => 0 end.

(** The candidates of a walk. *)
Definition candidates (c : Z) (n : nat) : list Z := map (fun i => c + 2 * Z.of_nat i) (seq 0 n).

(** The factor base of 1649 up to 60, and the first three auxiliary primes. *)
Definition ex_fb : list Z := [5; 7; 23; 29; 37; 41; 43; 47; 53].
Definition ex_aux : list Z := [71; 89; 101].

(** ** Lemmas: symbols *)

Lemma land_1 a : Z.land a 1 = a mod 2.
Proof. change 1 with (Z.ones 1) at 1. by rewrite Z.land_ones. Qed.

Lemma land_3 a : Z.land a 3 = a mod 4.
Proof. change 3 with (Z.ones 2). by rewrite Z.land_ones. Qed.

Lemma land_7 a : Z.land a 7 = a mod 8.
Proof. change 7 with (Z.ones 3). by rewrite Z.land_ones. Qed.

Lemma strip_twos_spec f n : forall a t, 0 < a < 2 ^ Z.of_nat f ->
  exists z a', 0 <= z /\ a = 2 ^ z * a' /\ 0 < a' /\ a' mod 2 = 1 /\
    strip_twos f a n t = (a', t * if z mod 2 =? 1 then (if (n mod 8 =? 3) || (n mod 8 =? 5) then -1 else 1) else 1).
Proof.
  induction f as [|f IH]; intros a t Ha; [change (2 ^ Z.of_nat 0) with 1 in Ha; lia|]. cbn [strip_twos]. rewrite land_1, land_7.
  pose proof (Z.div_mod a 2 ltac:(lia)) as Ed. pose proof (Z.mod_pos_bound a 2 ltac:(lia)). rewrite Nat2Z.inj_succ, Z.pow_succ_r in Ha by lia.
  destruct (Z.eqb_spec (a mod 2) 0) as [E|E].
  - rewrite Z.shiftr_div_pow2 by lia. change (2 ^ 1) with 2.
    destruct (IH (a / 2) (if (n mod 8 =? 3) || (n mod 8 =? 5) then - t else t)) as (z & a' & H1 & H2 & H3 & H4 & ->); [lia|].
    exists (z + 1), a'. split; [lia|]. split; [rewrite Z.pow_add_r, Z.pow_1_r by lia; lia|]. split; [done|]. split; [done|]. f_equal.
    assert ((z + 1) mod 2 =? 1 = negb (z mod 2 =? 1)) as ->.
    { rewrite Zplus_mod. pose proof (Z.mod_pos_bound z 2 ltac:(lia)). by assert (z mod 2 = 0 \/ z mod 2 = 1) as [-> | ->] by lia. }
    destruct (z mod 2 =? 1), ((n mod 8 =? 3) || (n mod 8 =? 5)); cbn [negb]; lia.
  - exists 0, a. split; [lia|]. split; [lia|]. split; [lia|]. split; [lia|]. change (0 mod 2 =? 1) with false. by rewrite Z.mul_1_r.
Qed.

Lemma jacobi_dev_loop_spec k : forall a n t,
  0 <= a < n -> n < 2 ^ 64 -> n mod 2 = 1 -> a * n < 2 ^ Z.of_nat k -> jacobi_dev_loop (S k) a n t = t * jacobi_symbol a n.
Proof.
  induction k as [|k IH]; intros a n t Ha Hn Hn2 Hlt; [|set (f := S k) in IH |- *]; cbn [jacobi_dev_loop].
  all: destruct (Z.eqb_spec a 0) as [->|Hnz].
  1,3: unfold jacobi_symbol; rewrite Z.gcd_0_l, Z.abs_eq by lia; destruct (Z.eqb_spec n 1) as [->|]; [|ring]; change (symbol 0 1) with 1; ring.
  { change (2 ^ Z.of_nat 0) with 1 in Hlt. nia. }
  destruct (strip_twos_spec 64 n a t) as (z & a' & Hz & Ea & Hpos & Hodd & ->); [change (2 ^ Z.of_nat 64) with (2 ^ 64); lia|].
  assert (0 < 2 ^ z) by (apply Z.pow_pos_nonneg; lia). assert (a' <= a) by nia.
  pose proof (Z.mod_pos_bound n a' ltac:(lia)) as Hm. pose proof (Z.div_mod n a' ltac:(lia)) as Ed. rewrite Nat2Z.inj_succ, Z.pow_succ_r in Hlt by lia.
  assert (1 <= n / a') by (apply Z.div_le_lower_bound; lia). assert (n mod a' * 2 <= n) by nia.
  rewrite IH; [|lia|lia|done|nia]. rewrite !land_3.
  rewrite (jacobi_symbol_cong (n mod a') n a') by apply cong_mod. rewrite Ea, jacobi_symbol_step by (done || lia).
  rewrite (andb_comm (n mod 4 =? 3)).
  destruct (z mod 2 =? 1), ((n mod 8 =? 3) || (n mod 8 =? 5)), ((a' mod 4 =? 3) && (n mod 4 =? 3)); ring.
Qed.

Lemma jacobi_dev_eq a n : 0 <= a -> 0 < n < 2 ^ 32 -> n mod 2 = 1 -> jacobi_symbol_dev a n = jacobi_symbol a n.
Proof.
  intros Ha Hn Ho. unfold jacobi_symbol_dev. pose proof (Z.mod_pos_bound a n ltac:(lia)) as Hm.
  rewrite (jacobi_dev_loop_spec 64); [|done|lia|done|change (2 ^ Z.of_nat 64) with (2 ^ 32 * 2 ^ 32); nia].
  rewrite Z.mul_1_l. apply jacobi_symbol_cong, cong_mod.
Qed.

Lemma jacobi_dev_u64_eq a n : 0 <= a -> 0 < n < 2 ^ 64 -> n mod 2 = 1 -> jacobi_symbol_dev_u64 a n = jacobi_symbol a n.
Proof.
  intros Ha Hn Ho. unfold jacobi_symbol_dev_u64. pose proof (Z.mod_pos_bound a n ltac:(lia)) as Hm.
  rewrite (jacobi_dev_loop_spec 128); [|done|lia|done|change (2 ^ Z.of_nat 128) with (2 ^ 64 * 2 ^ 64); nia].
  rewrite Z.mul_1_l. apply jacobi_symbol_cong, cong_mod.
Qed.

(** The subtraction of residues. *)
Lemma math_sub_mod_spec a b m : 0 <= a < m -> 0 <= b <= m -> m < 2 ^ 64 -> 0 <= math_sub_mod a b m <= m /\ math_sub_mod a b m ≅{m} a - b.
Proof.
  intros Ha Hb Hm. unfold math_sub_mod. destruct (Z.leb_spec b a).
  - rewrite wrap_small by (unfold in_width; lia). split; [lia|done].
  - rewrite (wrap_small 64 (b - a)), wrap_small by (unfold in_width; lia). split; [lia|]. apply cong_divide; [lia|]. exists 1. ring.
Qed.

Lemma branchCharBit_01 v t q : branchCharBit v t q = 0 \/ branchCharBit v t q = 1.
Proof. unfold branchCharBit. destruct (_ =? _); auto. Qed.

Lemma branchCharBit_spec v t q : 0 <= v < q -> 0 <= t < q -> q < 2 ^ 64 -> q mod 2 = 1 ->
  branchCharBit v t q = if jacobi_symbol (v - t) q =? -1 then 1 else 0.
Proof.
  intros Hv Ht Hq Ho. unfold branchCharBit. destruct (math_sub_mod_spec v t q Hv ltac:(lia) Hq) as [Hr Hc].
  rewrite jacobi_dev_u64_eq by (done || lia). by rewrite (jacobi_symbol_cong _ _ _ Hc).
Qed.

(** ** Lemmas: auxiliary primes *)

(** A proper divisor of an odd number gives an odd one up to the root. *)
Lemma small_divisor c d : 0 < c -> c mod 2 = 1 -> 1 < d < c -> (d | c) -> exists x, 3 <= x <= Z.sqrt c /\ x mod 2 = 1 /\ (x | c).
Proof.
  intros Hc Ho Hd Hdc. pose proof (odd_divisor d c Ho Hdc) as Hdo. destruct Hdc as [q Hq].
  pose proof (odd_quotient d q ltac:(by rewrite <- Hq)) as Hqo. destruct (odd_double _ Hdo) as [a Ea], (odd_double _ Hqo) as [b Eb].
  assert (1 < q) by nia. destruct (Z.le_gt_cases d q).
  - exists d. split; [|split; [done|by exists q]]. split; [lia|]. apply Z.sqrt_le_square; nia.
  - exists q. split; [|split; [done|exists d; lia]]. split; [lia|]. apply Z.sqrt_le_square; nia.
Qed.

Lemma is_prime_small_spec c : 0 <= c < 2 ^ 32 -> is_prime_small c = true <-> Z.prime c.
Proof.
  intros Hc. unfold is_prime_small. destruct (Z.ltb_spec c 2).
  { split; [done|]. intros Hp. pose proof (Z.prime_ge_2 c Hp). lia. }
  destruct (Z.eqb_spec c 2) as [->|H2]; [split; [intros _; apply Z.prime_2|done]|]. rewrite land_1.
  destruct (Z.eqb_spec (c mod 2) 0) as [E|E].
  { split; [done|]. intros Hp. pose proof (prime_odd c Hp ltac:(lia)). lia. }
  pose proof (Z.mod_pos_bound c 2 ltac:(lia)). assert (c mod 2 = 1) as Ho by lia. clear E.
  pose proof (d_sqrt_bound c ltac:(lia)) as Hs. pose proof (Z.sqrt_nonneg c). pose proof (Z.sqrt_spec c ltac:(lia)) as Hsq. cbv zeta in Hsq.
  assert (Z.sqrt c < 2 ^ 16) by (apply Z.sqrt_lt_square; lia).
  rewrite (wrap_small 32 (d_trunc _)), wrap_small by (unfold in_width; lia).
  set (limit := d_trunc (d_sqrt (d_of_Z c)) + 1) in *. rewrite forallb_forall.
  assert (forall d, d ∈ steps 3 limit 2 <-> 3 <= d <= limit /\ d mod 2 = 1) as Hst.
  { intros d. rewrite elem_of_steps by lia. split.
    - intros (k & Hk & -> & Hle). split; [lia|]. replace (3 + 2 * k) with (1 + (1 + k) * 2) by ring. by rewrite Z.mod_add by lia.
    - intros [Hd Hdo]. destruct (odd_double d Hdo) as [k ->]. exists (k - 1). lia. }
  split.
  - intros Hall. split; [lia|]. intros d Hd Hdc. destruct (small_divisor c d ltac:(lia) Ho Hd Hdc) as (x & Hx & Hxo & Hxc).
    specialize (Hall x ltac:(apply list_elem_of_In, Hst; unfold limit; split; [lia|done])).
    rewrite (proj2 (Z.mod_divide c x ltac:(lia)) Hxc) in Hall. done.
  - intros [_ Hp] d Hd%list_elem_of_In%Hst. destruct (Z.eqb_spec (c mod d) 0) as [E|]; [|done]. exfalso.
    apply Z.mod_divide in E; [|lia]. assert (limit < c); [|apply (Hp d); [lia|done]].
    destruct (decide (c = 3)) as [->|]; [by vm_compute|]. destruct (decide (c = 5)) as [->|]; [by vm_compute|].
    assert (c <> 4 /\ c <> 6) by (split; intros ->; done). unfold limit. nia.
Qed.

Section walking.
Context {A : Type} (w : Z) (k : Z) (accept : Z -> option (option A)) (o : Z -> option A).

Lemma candidates_S c n : candidates c (S n) = c :: candidates (c + 2) n.
Proof using Type.
  unfold candidates. cbn [seq map]. f_equal; [lia|]. rewrite <- seq_shift, map_map. apply map_ext. intros i. lia.
Qed.

Lemma elem_of_candidates c n q : q ∈ candidates c n <-> exists i, 0 <= i < Z.of_nat n /\ q = c + 2 * i.
Proof using Type.
  unfold candidates. rewrite list_elem_of_In, in_map_iff. split.
  - intros (i & <- & Hi%in_seq). exists (Z.of_nat i). lia.
  - intros (i & Hi & ->). exists (Z.to_nat i). split; [lia|]. apply in_seq. lia.
Qed.

(** The walk takes the first [k] of what the candidates give. *)
Lemma walk_spec n : forall c acc,
  0 <= k -> 0 <= c -> c + 2 * Z.of_nat n < 2 ^ w -> (forall i, 0 <= i < Z.of_nat n -> accept (c + 2 * i) = Some (o (c + 2 * i))) ->
  Z.of_nat (length acc) <= k <= Z.of_nat (length (acc ++ omap o (candidates c n))) ->
  walk w accept k (S n) c acc = Some (take (Z.to_nat k) (acc ++ omap o (candidates c n))).
Proof using Type.
  induction n as [|n IH]; intros c acc Hk Hc Hw Ha Hlen.
  - cbn [candidates seq map omap list_omap] in *. rewrite app_nil_r in *. cbn [walk]. rewrite (proj2 (Z.leb_le _ _)) by lia.
    by rewrite take_ge by lia.
  - rewrite candidates_S in *. cbn [walk]. destruct (Z.leb_spec k (Z.of_nat (length acc))) as [Hle|Hgt].
    { assert (Z.to_nat k = length acc) as -> by lia. by rewrite take_app_length. }
    assert (accept c = Some (o c)) as -> by (specialize (Ha 0 ltac:(lia)); by rewrite Z.mul_0_r, Z.add_0_r in Ha).
    rewrite wrap_small by (unfold in_width; lia).
    assert (acc ++ omap o (c :: candidates (c + 2) n) = (match o c with Some x => acc ++ [x] | None => acc end) ++ omap o (candidates (c + 2) n)) as E.
    { cbn. destruct (o c); [by rewrite <- app_assoc|done]. }
    rewrite E in *. apply IH; [done|lia|lia| |].
    + intros i Hi. replace (c + 2 + 2 * i) with (c + 2 * (i + 1)) by ring. apply Ha. lia.
    + split; [|lia]. destruct (o c); [rewrite length_app; cbn|]; lia.
Qed.

End walking.

Lemma candidates_sorted c n : sorted_row (candidates c n).
Proof.
  revert c. induction n as [|n IH]; intros c; [constructor|]. rewrite candidates_S. constructor; [apply IH|].
  apply Forall_forall. intros x (i & Hi & ->)%elem_of_candidates. lia.
Qed.

Lemma candidates_odd c n q : c mod 2 = 1 -> q ∈ candidates c n -> q mod 2 = 1 /\ c <= q < c + 2 * Z.of_nat n.
Proof.
  intros Hc (i & Hi & ->)%elem_of_candidates. split; [|lia]. rewrite (Z.mul_comm 2). by rewrite Z.mod_add by lia.
Qed.

(** A prefix of a sorted list is closed downwards. *)
Lemma take_downwards l n x q : sorted_row l -> x ∈ take n l -> q ∈ l -> q <= x -> q ∈ take n l.
Proof.
  intros Hs. revert n. induction l as [|y l IH]; intros n Hx Hq Hle; [by apply elem_of_nil in Hq|]. destruct n as [|n]; [by apply elem_of_nil in Hx|].
  apply sorted_row_cons in Hs as [Hs Hy]. cbn [take] in *. rewrite elem_of_cons in *. destruct Hq as [->|Hq]; [by left|].
  rewrite Forall_forall in Hy. destruct Hx as [->|Hx]; [pose proof (Hy q Hq); lia|]. right. by apply IH.
Qed.

Section first.
Context (w k : Z) (accept : Z -> option (option (Z * Z))) (P : Z -> Prop) (good : Z -> bool) (g : Z -> Z) (c : Z) (n : nat).
Context (Hc : 0 <= c) (Hw : c + 2 * Z.of_nat n < 2 ^ w).
Context (Haccept : forall q, q ∈ candidates c n -> accept q = Some (if good q then Some (q, g q) else None)).
Context (Hgood : forall q, q ∈ candidates c n -> good q = true <-> P q).

(** If [k] candidates qualify, the walk ends with the first [k] that do. *)
Lemma walk_first l : NoDup l -> Z.of_nat (length l) = k -> Forall (fun q => q ∈ candidates c n /\ P q) l ->
  exists aux, walk w accept k (S n) c [] = Some (map (fun q => (q, g q)) aux) /\ Z.of_nat (length aux) = k /\ sorted_row aux /\
    Forall (fun q => q ∈ candidates c n /\ P q) aux /\
    forall x q, x ∈ aux -> q <= x -> q ∈ candidates c n -> P q -> q ∈ aux.
Proof using Hc Hw Haccept Hgood.
  intros Hd Hl Hf. set (F := List.filter good (candidates c n)).
  assert (forall q, q ∈ F <-> q ∈ candidates c n /\ P q) as HF.
  { intros q. unfold F. rewrite filter_true_In. split; intros [H1 H2]; (split; [done|]); by apply (Hgood q H1). }
  assert (length l <= length F)%nat as Hle.
  { apply NoDup_incl_length; [by apply NoDup_ListNoDup|]. intros x Hx%list_elem_of_In. apply list_elem_of_In, HF.
    rewrite Forall_forall in Hf. by apply Hf. }
  set (o := fun q => if good q then Some (q, g q) else None).
  assert (omap o (candidates c n) = map (fun q => (q, g q)) F) as Eo.
  { unfold F, o. clear. induction (candidates c n) as [|q cs IH]; [done|]. cbn. destruct (good q); cbn; rewrite IH; done. }
  assert (sorted_row F) as Hs by apply filter_sorted, candidates_sorted.
  exists (take (length l) F). split; [|split; [rewrite length_take; lia|split; [|split]]].
  - rewrite (walk_spec w k accept o); [|lia|done|done| |].
    + cbn [app]. rewrite Eo, <- Hl, Nat2Z.id. by rewrite <- firstn_map.
    + intros i Hi. apply Haccept, elem_of_candidates. by exists i.
    + cbn [app length]. rewrite Eo, length_map. lia.
  - pose proof (take_drop (length l) F) as E. rewrite <- E in Hs. by apply StronglySorted_app in Hs as (_ & ? & _).
  - apply Forall_forall. intros q Hq. apply HF. rewrite <- (take_drop (length l) F). apply elem_of_app. by left.
  - intros x q Hx Hq H1 H2. eapply take_downwards; [done|exact Hx|by apply HF|done].
Qed.

End first.

Lemma norm_accept_spec N fb q : u512_ok N -> 3 <= q < 2 ^ 32 -> q mod 2 = 1 ->
  norm_accept N fb q
  = Some (if is_prime_small q && negb (existsb (Z.eqb q) fb) && (jacobi_symbol (u512_val N) q =? 1) then Some (q, u512_val N mod q) else None).
Proof.
  intros HN Hq Ho. unfold norm_accept. pose proof (u512_bound N HN). destruct (is_prime_small q); cbn [negb andb]; [|done].
  destruct (existsb (Z.eqb q) fb); cbn [negb andb]; [done|]. rewrite mod_uint32_spec by (done || lia).
  pose proof (Z.mod_pos_bound (u512_val N) q ltac:(lia)). rewrite jacobi_dev_eq by (done || lia).
  rewrite (jacobi_symbol_cong _ (u512_val N)) by apply cong_mod. by destruct (_ =? 1).
Qed.

Lemma norm_good_spec N fb q : 3 <= q < 2 ^ 32 ->
  is_prime_small q && negb (existsb (Z.eqb q) fb) && (jacobi_symbol (u512_val N) q =? 1) = true <-> norm_prime N fb q.
Proof.
  intros Hq. rewrite !andb_true_iff, is_prime_small_spec, negb_true_iff, Z.eqb_eq by lia. unfold norm_prime.
  assert (existsb (Z.eqb q) fb = false <-> q ∉ fb) as ->; [|split; [intros [[? ?] ?]; split_and!; [lia|done..]|intros (? & ? & ? & ?); done]].
  rewrite <- not_true_iff_false, existsb_exists. split.
  - intros Hn Hin. apply Hn. exists q. split; [by apply list_elem_of_In|apply Z.eqb_refl].
  - intros Hn (x & Hx & ->%Z.eqb_eq). by apply Hn, list_elem_of_In.
Qed.

Lemma mod_uint64_spec N p : u512_ok N -> 0 < p < 2 ^ 64 -> mod_uint64 N p = u512_val N mod p.
Proof. intros HN Hp. rewrite mod_uint64_eq. destruct (Z.eqb_spec p 0); [lia|]. by apply div_uint64_inplace_spec. Qed.

Lemma branch_accept_spec N q : u512_ok N -> 3 <= q < 2 ^ 64 -> q mod 2 = 1 -> (is_prime_u64 q = true -> Z.prime q) ->
  branch_accept N q = Some (if is_prime_u64 q && (jacobi_symbol (u512_val N) q =? 1) then Some (q, smaller_root N q) else None).
Proof.
  intros HN Hq Ho Hp. unfold branch_accept. destruct (is_prime_u64 q) eqn:E; cbn [negb andb]; [|done]. specialize (Hp eq_refl).
  rewrite mod_uint64_spec by (done || lia). pose proof (Z.mod_pos_bound (u512_val N) q ltac:(lia)) as Hm.
  rewrite jacobi_u64_eq by (done || lia). rewrite (jacobi_symbol_cong _ (u512_val N)) by apply cong_mod.
  destruct (jacobi_symbol (u512_val N) q =? 1); cbn [negb]; [|done]. unfold smaller_root.
  destruct (Tonelli_Shanks_u64_spec (u512_val N mod q) q Hp ltac:(lia) ltac:(lia)) as (t & -> & Ht & _).
  by rewrite wrap_small by (unfold in_width; lia).
Qed.

Lemma branch_good_spec N B q : B < q -> 3 <= q < 2 ^ 64 -> (is_prime_u64 q = true -> Z.prime q) ->
  is_prime_u64 q && (jacobi_symbol (u512_val N) q =? 1) = true <-> branch_prime N B q.
Proof.
  intros HB Hq Hp. rewrite andb_true_iff, Z.eqb_eq. unfold branch_prime. split; [intros [H1 H2]; auto with lia|].
  intros (_ & _ & H1 & H2). split; [|done]. apply is_prime_u64_prime; [done|lia].
Qed.

(** The root that is stored: the smaller square root of [N] modulo the prime. *)
Lemma smaller_root_spec N q : u512_ok N -> Z.prime q -> 3 <= q < 2 ^ 64 -> jacobi_symbol (u512_val N) q = 1 ->
  0 <= smaller_root N q <= q / 2 /\ smaller_root N q * smaller_root N q ≅{q} u512_val N.
Proof.
  intros HN Hp Hq Hj. pose proof (u512_bound N HN) as HB. pose proof (Z.mod_pos_bound (u512_val N) q ltac:(lia)) as Hm.
  unfold smaller_root. destruct (Tonelli_Shanks_u64_spec (u512_val N mod q) q Hp ltac:(lia) ltac:(lia)) as (t & -> & Ht & Hroot & _).
  apply jacobi_symbol_residue in Hj as [Hu Hr]; [|done|lia|lia].
  assert (t * t ≅{q} u512_val N) as Et.
  { rewrite Hroot; [apply cong_mod|]. destruct Hr as [x Hx]. exists x. by rewrite Hx, cong_mod. }
  pose proof (Z.div_mod q 2 ltac:(lia)). pose proof (prime_odd q Hp ltac:(lia)). destruct (Z.min_spec t (q - t)) as [[Hlt ->]|[Hge ->]]; (split; [lia|]); [done|].
  rewrite <- Et. apply cong_divide; [lia|]. exists (q - 2 * t). ring.
Qed.

(** ** Lemmas: the captured bits *)

Lemma testbit_foldl_lor {A} (f : A -> Z) i l : forall acc,
  Z.testbit (foldl (fun a x => Z.lor a (f x)) acc l) i = Z.testbit acc i || existsb (fun x => Z.testbit (f x) i) l.
Proof.
  induction l as [|x l IH]; intros acc; cbn [foldl existsb]; [by rewrite orb_false_r|]. rewrite IH, Z.lor_spec. by rewrite orb_assoc.
Qed.

Lemma shifted_bit b s i : b = 0 \/ b = 1 -> 0 <= s -> 0 <= i < 32 -> Z.testbit (wrap 32 (Z.shiftl b s)) i = (s =? i) && (b =? 1).
Proof.
  intros Hb Hs Hi. unfold wrap. rewrite Z.mod_pow2_bits_low, Z.shiftl_spec by lia. destruct (Z.eqb_spec s i) as [->|Hne]; cbn [andb].
  - rewrite Z.sub_diag. by destruct Hb as [-> | ->].
  - destruct (Z.neg_nonneg_cases (i - s)); [by rewrite Z.testbit_neg_r|].
    destruct Hb as [-> | ->]; [by rewrite Z.bits_0|]. change 1 with (2 ^ 0). rewrite Z.pow2_bits_eqb by lia. apply Z.eqb_neq. lia.
Qed.

Section birth.
Context (sqrt_Q : uint512) (sign : Z) (Hok : u512_ok sqrt_Q) (Hsign : sign = 1 \/ sign = -1 \/ (sign = 0 /\ u512_val sqrt_Q = 0)).

(** The value of the bit of one prime. *)
Lemma birth_symbol q t : 0 < q < 2 ^ 64 -> q mod 2 = 1 -> 0 <= t < q ->
  branchCharBit (if sign =? -1 then math_sub_mod 0 (mod_uint64 sqrt_Q q) q else mod_uint64 sqrt_Q q) t q
  = if jacobi_symbol (sign * u512_val sqrt_Q - t) q =? -1 then 1 else 0.
Proof using Hok Hsign.
  intros Hq Ho Ht. rewrite mod_uint64_spec by done. pose proof (Z.mod_pos_bound (u512_val sqrt_Q) q ltac:(lia)) as Hm.
  set (m := u512_val sqrt_Q mod q) in *. assert (m ≅{q} u512_val sqrt_Q) as Em by apply cong_mod.
  destruct (Z.eqb_spec sign (-1)) as [->|Hs].
  - destruct (math_sub_mod_spec 0 m q ltac:(lia) ltac:(lia) ltac:(lia)) as [Hb Hc].
    unfold branchCharBit. destruct (decide (math_sub_mod 0 m q = q)) as [E|E].
    + unfold math_sub_mod in E. destruct (Z.leb_spec m 0); [rewrite wrap_small in E by (unfold in_width; lia); lia|].
      rewrite (wrap_small 64 (m - 0)), wrap_small in E by (unfold in_width; lia). lia.
    + fold (branchCharBit (math_sub_mod 0 m q) t q). rewrite branchCharBit_spec by (done || lia).
      erewrite jacobi_symbol_cong; [done|]. apply cong_sub; [|done]. rewrite Hc. replace (-1 * u512_val sqrt_Q) with (0 - u512_val sqrt_Q) by ring.
      by apply cong_sub.
  - rewrite branchCharBit_spec by (done || lia). erewrite jacobi_symbol_cong; [done|]. apply cong_sub; [|done]. rewrite Em.
    destruct Hsign as [-> |[-> |[-> ->]]]; [by rewrite Z.mul_1_l|done|done].
Qed.

Context (char_q char_t : list Z) (Hlen : length char_t = length char_q) (Hr : Z.of_nat (length char_q) <= 32).

Lemma birth_spec s q t : char_q !! s = Some q -> char_t !! s = Some t -> 0 < q < 2 ^ 64 -> q mod 2 = 1 -> 0 <= t < q ->
  Z.testbit (birth_char_bits char_q char_t sqrt_Q sign) (Z.of_nat s) = (jacobi_symbol (sign * u512_val sqrt_Q - t) q =? -1).
Proof using Hlen Hr Hok Hsign.
  intros Hsq Hst Hq Ho Ht. pose proof (lookup_lt_Some _ _ _ Hsq) as Hs. unfold birth_char_bits.
  set (f := fun x : Z * (Z * Z) => let '(s, (q, t)) := x in
    wrap 32 (Z.shiftl (branchCharBit (if sign =? -1 then math_sub_mod 0 (mod_uint64 sqrt_Q q) q else mod_uint64 sqrt_Q q) t q) s)).
  assert (forall l acc, foldl (birth_bit sqrt_Q sign) acc l = foldl (fun a x => Z.lor a (f x)) acc l) as ->.
  { intros l. induction l as [|[s' [q' t']] l IH]; intros acc; [done|]. cbn [foldl]. apply IH. }
  rewrite testbit_foldl_lor, Z.bits_0, orb_false_l. apply eq_true_iff_eq. rewrite existsb_exists. split.
  - intros ([s' [q' t']] & Hin & Hb). apply list_elem_of_In, list_elem_of_lookup in Hin as [k Hk]. unfold f in Hb.
    apply lookup_zip_with_Some in Hk as (s1 & qt & [= <- <-] & H1 & H2).
    apply lookup_zip_with_Some in H2 as (q1 & t1 & [= <- <-] & H2 & H3). pose proof (lookup_lt_Some _ _ _ H2) as Hk2.
    rewrite lookup_upto in H1 by lia. injection H1 as <-.
    rewrite shifted_bit in Hb; [|apply branchCharBit_01|lia|lia]. apply andb_true_iff in Hb as [E%Z.eqb_eq Hb].
    assert (k = s) as -> by lia. rewrite Hsq in H2. rewrite Hst in H3. injection H2 as <-. injection H3 as <-.
    rewrite birth_symbol in Hb by done. by destruct (jacobi_symbol _ _ =? -1).
  - intros Hj. exists (Z.of_nat s, (q, t)). split.
    + apply list_elem_of_In, list_elem_of_lookup. exists s. apply lookup_zip_with_Some. exists (Z.of_nat s), (q, t). split; [done|].
      split; [apply lookup_upto; lia|]. apply lookup_zip_with_Some. by exists q, t.
    + unfold f. rewrite shifted_bit; [|apply branchCharBit_01|lia|lia]. rewrite birth_symbol by done. by rewrite Z.eqb_refl, Hj.
Qed.

End birth.

(** The XOR of the bits is the bit of the product, when no factor vanishes modulo the prime. *)
Lemma symbol_product q us : 0 < q -> q mod 2 = 1 -> Forall (fun u => Z.gcd u q = 1) us ->
  Z.gcd (zprod us) q = 1 /\ xsum (fun u => jacobi_symbol u q =? -1) us = (jacobi_symbol (zprod us) q =? -1).
Proof.
  intros Hq Ho. induction 1 as [|u us Hu _ [IH1 IH2]].
  { change (zprod []) with 1. split; [apply Z.gcd_1_l|]. unfold jacobi_symbol. by rewrite Z.gcd_1_l, (symbol_one q). }
  rewrite zprod_cons, xsum_cons, IH2. assert (Z.gcd (u * zprod us) q = 1) as Hg by by apply gcd_mul_1. split; [done|].
  unfold jacobi_symbol. rewrite Hu, IH1, Hg, !Z.eqb_refl, (symbol_mul q Hq Ho) by done.
  pose proof (symbol_sign q Hq Ho u Hu) as S1. pose proof (symbol_sign q Hq Ho (zprod us) IH1) as S2.
  assert (symbol u q = 1 \/ symbol u q = -1) as [-> | ->] by nia; assert (symbol (zprod us) q = 1 \/ symbol (zprod us) q = -1) as [-> | ->] by nia; done.
Qed.

Lemma odd_prime q : 3 <= q -> Z.prime q -> q mod 2 = 1.
Proof. intros Hq Hp. apply (prime_odd q Hp). lia. Qed.

Lemma odd_candidate c n q : c mod 2 = 1 -> q mod 2 = 1 -> c <= q < c + 2 * Z.of_nat n -> q ∈ candidates c n.
Proof.
  intros Hc Hq Hr. apply elem_of_candidates. exists ((q - c) / 2). pose proof (Z.div_mod (q - c) 2 ltac:(lia)) as E.
  assert ((q - c) mod 2 = 0) as E0 by (rewrite Zminus_mod, Hc, Hq; done). lia.
Qed.

Lemma branch_start_spec B : 0 <= B -> B + 2 < 2 ^ 64 ->
  branch_start B mod 2 = 1 /\ B < branch_start B <= B + 2 /\ forall q, q mod 2 = 1 -> B < q -> branch_start B <= q.
Proof.
  intros HB Hw. unfold branch_start. rewrite (wrap_small 64 (B + 1)), land_1 by (unfold in_width; lia).
  pose proof (Z.div_mod (B + 1) 2 ltac:(lia)) as E. pose proof (Z.mod_pos_bound (B + 1) 2 ltac:(lia)). destruct (Z.eqb_spec ((B + 1) mod 2) 0) as [E0|E0].
  - rewrite wrap_small by (unfold in_width; lia). split; [rewrite Zplus_mod, E0; done|]. split; [lia|]. intros q Hq Hlt.
    assert (q <> B + 1) by (intros ->; lia). lia.
  - split; [lia|]. split; [lia|]. intros; lia.
Qed.

(** Whatever a walk returns was accepted. *)
Lemma walk_sound {A} w (accept : Z -> option (option A)) k fuel : 1 <= w -> forall c acc l,
  in_width w c -> c mod 2 = 1 -> Z.of_nat (length acc) <= k -> walk w accept k fuel c acc = Some l ->
  Z.of_nat (length l) = k /\ forall x, x ∈ l -> x ∈ acc \/ exists q, in_width w q /\ q mod 2 = 1 /\ accept q = Some (Some x).
Proof.
  intros Hw. induction fuel as [|fuel IH]; intros c acc l Hc Ho Hacc; cbn [walk]; [done|].
  destruct (Z.leb_spec k (Z.of_nat (length acc))); [intros [= <-]; split; [lia|auto]|]. destruct (accept c) as [r|] eqn:E; [|done].
  intros Hl. destruct (IH (wrap w (c + 2)) (match r with Some x => acc ++ [x] | None => acc end) l) as [H1 H2]; [apply wrap_range; lia| | |done|].
  - unfold wrap. rewrite Z.mod_mod_divide; [by rewrite Zplus_mod, Ho|]. exists (2 ^ (w - 1)). rewrite Z.mul_comm, <- Z.pow_succ_r by lia. f_equal. lia.
  - destruct r; [rewrite length_app; cbn|]; lia.
  - split; [done|]. intros x Hx. destruct (H2 x Hx) as [Hin|Hq]; [|by right]. destruct r as [y|]; [|by left].
    apply elem_of_app in Hin as [Hin| ->%list_elem_of_singleton]; [by left|right]. by exists c.
Qed.

Lemma norm_select_sound fuel N fb lp1_bound k cc : u512_ok N -> 0 <= k -> selectAuxPrimes fuel N fb NORM lp1_bound k = Some cc ->
  Z.of_nat (length (aux_primes_ cc)) = k /\ Forall (fun q => norm_prime N fb q /\ q < 2 ^ 32) (aux_primes_ cc).
Proof.
  intros HN Hk. unfold selectAuxPrimes. destruct (walk 32 _ _ _ _ _) as [l|] eqn:E; cbn [mbind option_bind]; [|done]. intros [= <-].
  apply walk_sound in E as [E1 E2]; [|lia|unfold in_width; lia|done|cbn; lia]. cbn [aux_primes_]. rewrite length_map. split; [done|].
  apply Forall_map, Forall_forall. intros x Hx. destruct (E2 x Hx) as [Hin|(q & Hq & Ho & Ha)]; [by apply elem_of_nil in Hin|]. cbn beta.
  assert (q <> 1) by (intros ->; done). unfold in_width in Hq. pose proof (Z.mod_pos_bound q 2 ltac:(lia)).
  assert (3 <= q) by (assert (q <> 0 /\ q <> 2) by (split; intros ->; done); lia).
  rewrite norm_accept_spec in Ha by (done || lia). destruct (is_prime_small q && _ && _) eqn:Eg; [|done]. injection Ha as <-. cbn [fst].
  split; [|lia]. apply norm_good_spec; [lia|exact Eg].
Qed.

(** ** Properties *)

(** NORM: when [k] primes qualify below the walked bound, the walk over the odd numbers from 3 ends with
    the first [k] primes outside the factor base modulo which [N] has symbol 1, in order, and the residues of
    [N]; with the sieve's factor base all of them lie above its bound. *)
Theorem norm_primes_first N fb lp1_bound k n l :
  u512_ok N -> 3 + 2 * Z.of_nat n < 2 ^ 32 ->
  NoDup l -> Z.of_nat (length l) = k -> Forall (fun q => norm_prime N fb q /\ q < 3 + 2 * Z.of_nat n) l ->
  exists aux, selectAuxPrimes (S n) N fb NORM lp1_bound k = Some (mkComputer aux (map (fun q => u512_val N mod q) aux) []) /\
    Z.of_nat (length aux) = k /\ sorted_row aux /\ Forall (norm_prime N fb) aux /\
    (forall x q, x ∈ aux -> q <= x -> norm_prime N fb q -> q ∈ aux) /\
    (forall F roots, 1 <= F < 2 ^ 31 -> generateFactorBase N F = Some (fb, roots) -> Forall (fun q => F < q) aux).
Proof.
  intros HN Hn Hd Hk Hl. assert (forall q, norm_prime N fb q -> q < 3 + 2 * Z.of_nat n -> q ∈ candidates 3 n) as Hcand.
  { intros q (H3 & Hp & _) Hq. apply odd_candidate; [done|by apply odd_prime|lia]. }
  assert (forall q, q ∈ candidates 3 n -> 3 <= q < 2 ^ 32 /\ q mod 2 = 1) as Hr.
  { intros q Hq%candidates_odd; [|done]. split; [lia|apply Hq]. }
  destruct (walk_first 32 k (norm_accept N fb) (norm_prime N fb)
    (fun q => is_prime_small q && negb (existsb (Z.eqb q) fb) && (jacobi_symbol (u512_val N) q =? 1)) (fun q => u512_val N mod q) 3 n
    ltac:(lia) Hn) with (l := l) as (aux & E & A1 & A2 & A3 & A4); [| |done|done| |].
  - intros q [Hq Hqo]%Hr. by apply norm_accept_spec.
  - intros q [Hq Hqo]%Hr. by apply norm_good_spec.
  - eapply Forall_impl; [exact Hl|]. intros q [H1 H2]. split; [by apply Hcand|done].
  - exists aux. assert (Forall (norm_prime N fb) aux) as A3' by (eapply Forall_impl; [exact A3|]; by intros q [_ ?]).
    unfold selectAuxPrimes. rewrite E. cbn [mbind option_bind]. rewrite !map_map. cbn [fst snd]. rewrite map_id. split; [done|]. split; [done|]. split; [done|]. split; [done|]. split.
    + intros x q Hx Hle Hq. apply (A4 x q Hx Hle); [|done]. rewrite Forall_forall in A3. destruct (A3 x Hx) as [Hxc%candidates_odd _]; [|done].
      apply Hcand; [done|lia].
    + intros F roots HF Efb. destruct (generateFactorBase_spec N F HN HF) as (fb' & roots' & Efb' & _ & _ & Hfb). rewrite Efb in Efb'. injection Efb' as <- <-.
      rewrite Forall_forall in A3 |- *. intros q Hq. destruct (A3 q Hq) as [Hc (H3 & Hp & Hnot & Hj)]. apply Hr in Hc as [Hb _].
      destruct (Z.lt_ge_cases F q) as [|Hle]; [done|]. exfalso. apply Hnot, Hfb. split; [lia|]. split; [done|]. pose proof (u512_bound N HN).
      apply jacobi_symbol_residue; [done|lia|lia|done].
Qed.

(** BRANCH: when [k] primes qualify among the walked numbers above the large-prime bound, the walk ends with the
    first [k], each with the smaller square root of [N] modulo it. That the Miller-Rabin test accepts only primes in
    the walked range is a hypothesis. *)
Theorem branch_primes_first N fb lp1_bound k n l :
  u512_ok N -> 2 <= lp1_bound -> lp1_bound + 2 + 2 * Z.of_nat n < 2 ^ 64 ->
  (forall q, lp1_bound < q < lp1_bound + 2 + 2 * Z.of_nat n -> is_prime_u64 q = true -> Z.prime q) ->
  NoDup l -> Z.of_nat (length l) = k -> Forall (fun q => branch_prime N lp1_bound q /\ q < lp1_bound + 2 * Z.of_nat n) l ->
  exists aux, selectAuxPrimes (S n) N fb BRANCH lp1_bound k = Some (mkComputer aux [] (map (smaller_root N) aux)) /\
    Z.of_nat (length aux) = k /\ sorted_row aux /\
    Forall (fun q => branch_prime N lp1_bound q /\ 0 <= smaller_root N q <= q / 2 /\ smaller_root N q * smaller_root N q ≅{q} u512_val N) aux /\
    (forall x q, x ∈ aux -> q <= x -> branch_prime N lp1_bound q -> q ∈ aux).
Proof.
  intros HN HB Hn Hmr Hd Hk Hl. destruct (branch_start_spec lp1_bound ltac:(lia) ltac:(lia)) as (S1 & S2 & S3). set (c := branch_start lp1_bound) in *.
  assert (forall q, branch_prime N lp1_bound q -> q < lp1_bound + 2 * Z.of_nat n -> q ∈ candidates c n) as Hcand.
  { intros q (Hq & H3 & Hp & _) Hlt. pose proof (odd_prime q H3 Hp). apply odd_candidate; [done|done|]. pose proof (S3 q ltac:(done) Hq). lia. }
  assert (forall q, q ∈ candidates c n -> lp1_bound < q < lp1_bound + 2 + 2 * Z.of_nat n /\ 3 <= q < 2 ^ 64 /\ q mod 2 = 1) as Hr.
  { intros q Hq%candidates_odd; [|done]. split; [lia|]. split; [lia|apply Hq]. }
  destruct (walk_first 64 k (branch_accept N) (branch_prime N lp1_bound) (fun q => is_prime_u64 q && (jacobi_symbol (u512_val N) q =? 1)) (smaller_root N) c n
    ltac:(lia) ltac:(lia)) with (l := l) as (aux & E & A1 & A2 & A3 & A4); [| |done|done| |].
  - intros q (H1 & H2 & H3)%Hr. apply branch_accept_spec; auto.
  - intros q (H1 & H2 & H3)%Hr. apply branch_good_spec; auto; lia.
  - eapply Forall_impl; [exact Hl|]. intros q [H1 H2]. split; [by apply Hcand|done].
  - exists aux. unfold selectAuxPrimes. fold c. rewrite E. cbn [mbind option_bind]. rewrite !map_map. cbn [fst snd]. rewrite map_id. split; [done|]. split; [done|]. split; [done|]. split.
    + eapply Forall_impl; [exact A3|]. intros q [Hc Hp]. split; [done|]. apply Hr in Hc as (_ & Hb & _). destruct Hp as (_ & _ & Hp & Hj). by apply smaller_root_spec.
    + intros x q Hx Hle Hq. apply (A4 x q Hx Hle); [|done]. rewrite Forall_forall in A3. destruct (A3 x Hx) as [Hxc%candidates_odd _]; [|done].
      destruct Hq as (Hq & H3 & Hp & _). pose proof (odd_prime q H3 Hp). apply odd_candidate; [done|done|]. pose proof (S3 q ltac:(done) Hq). lia.
Qed.

(** C27. The characters captured at birth multiply: for relations none of whose values [a x + b - t] is divisible by the
    auxiliary prime, the XOR of their bits tells whether the product of the values is a non-residue. *)
Theorem birth_characters_multiply char_q char_t rs s q t :
  length char_t = length char_q -> Z.of_nat (length char_q) <= 32 ->
  char_q !! s = Some q -> char_t !! s = Some t -> 0 < q < 2 ^ 64 -> q mod 2 = 1 -> 0 <= t < q ->
  Forall (fun r => u512_ok r.1 /\ (r.2 = 1 \/ r.2 = -1) /\ Z.gcd (r.2 * u512_val r.1 - t) q = 1) rs ->
  xsum (fun r => Z.testbit (birth_char_bits char_q char_t r.1 r.2) (Z.of_nat s)) rs
  = (jacobi_symbol (zprod (map (fun r => r.2 * u512_val r.1 - t) rs)) q =? -1).
Proof.
  intros Hlen Hr Hsq Hst Hq Ho Ht Hrs. destruct (symbol_product q (map (fun r => r.2 * u512_val r.1 - t) rs) ltac:(lia) Ho) as [_ <-].
  { apply Forall_map. eapply Forall_impl; [exact Hrs|]. by intros r (_ & _ & ?). }
  rewrite xsum_map. apply xsum_ext. intros r Hin. rewrite Forall_forall in Hrs. destruct (Hrs r Hin) as (H1 & H2 & _).
  apply birth_spec; try done. tauto.
Qed.

(** ** Examples *)

(** One relation whose value is divisible by the prime: the XOR no longer is the character of the product. *)
Example zero_factor_breaks_xor :
  let bits := map (fun v => birth_char_bits [7] [0] (u512_of_Z v) 1) [7; 3] in
  foldl Z.lxor 0 bits = 1 /\ branchCharBit ((7 * 3) mod 7) 0 7 = 0.
Proof. by vm_compute. Qed.

Lemma ex_norm_prime q : q ∈ ex_aux -> norm_prime (u512_of_Z 1649) ex_fb q /\ q < 3 + 2 * Z.of_nat 99.
Proof.
  intros Hq. assert (0 <= q < 2 ^ 32 /\ is_prime_small q = true /\ bool_decide (q ∈ ex_fb) = false /\ jacobi_symbol (u512_val (u512_of_Z 1649)) q = 1 /\ 3 <= q < 201) as (H1 & H2 & H3 & H4 & H5).
  { unfold ex_aux in Hq. rewrite !elem_of_cons, elem_of_nil in Hq. destruct Hq as [->|[->|[->|[]]]]; (split; [lia|]; split; [by vm_compute|]; split; [by vm_compute|]; split; [by vm_compute|lia]). }
  split; [|lia]. split; [lia|]. split; [by apply is_prime_small_spec|]. split; [by apply bool_decide_eq_false in H3|done].
Qed.

Lemma norm_primes_first_witness :
  exists aux, selectAuxPrimes 100 (u512_of_Z 1649) ex_fb NORM 0 3 = Some (mkComputer aux (map (fun q => u512_val (u512_of_Z 1649) mod q) aux) []) /\
    Z.of_nat (length aux) = 3 /\ Forall (fun q => 60 < q) aux.
Proof.
  destruct (norm_primes_first (u512_of_Z 1649) ex_fb 0 3 99 ex_aux (proj1 (u512_of_Z_spec 1649)) ltac:(lia)
    ltac:(by apply sorted_row_NoDup; repeat constructor) eq_refl) as (aux & E & A1 & _ & _ & _ & A2).
  { apply Forall_forall. exact ex_norm_prime. }
  exists aux. split; [exact E|]. split; [exact A1|]. apply (A2 60 [2; 2; 4; 5; 13; 3; 12; 2; 18]); [lia|]. vm_compute. reflexivity.
Defined.

Lemma ex_miller_rabin q : 100 < q < 182 -> is_prime_u64 q = true -> Z.prime q.
Proof.
  intros Hq Hp. apply is_prime_small_spec; [lia|].
  assert (forallb (fun q => implb (is_prime_u64 q) (is_prime_small q)) (map (Z.add 101) (upto 81)) = true) as Hall by by vm_compute.
  rewrite forallb_forall in Hall. specialize (Hall q). rewrite Hp in Hall. apply Hall. apply in_map_iff. exists (q - 101). split; [lia|].
  apply list_elem_of_In, elem_of_upto. lia.
Qed.

Lemma ex_branch_prime q : q ∈ [101; 103; 107] -> branch_prime (u512_of_Z 1649) 100 q /\ q < 100 + 2 * Z.of_nat 40.
Proof.
  intros Hq. assert (100 < q < 182 /\ is_prime_u64 q = true /\ jacobi_symbol (u512_val (u512_of_Z 1649)) q = 1 /\ q < 180) as (H1 & H2 & H3 & H4).
  { rewrite !elem_of_cons, elem_of_nil in Hq. destruct Hq as [->|[->|[->|[]]]]; (split; [lia|]; split; [by vm_compute|]; split; [by vm_compute|lia]). }
  split; [|lia]. split; [lia|]. split; [lia|]. split; [by apply ex_miller_rabin|done].
Qed.

Lemma branch_primes_first_witness :
  exists aux, selectAuxPrimes 41 (u512_of_Z 1649) [] BRANCH 100 3 = Some (mkComputer aux [] (map (smaller_root (u512_of_Z 1649)) aux)) /\
    Z.of_nat (length aux) = 3 /\ sorted_row aux.
Proof.
  destruct (branch_primes_first (u512_of_Z 1649) [] 100 3 40 [101; 103; 107] (proj1 (u512_of_Z_spec 1649)) ltac:(lia) ltac:(lia) ex_miller_rabin
    ltac:(by apply sorted_row_NoDup; repeat constructor) eq_refl) as (aux & E & A1 & A2 & _).
  { apply Forall_forall. exact ex_branch_prime. }
  exists aux. split; [exact E|]. split; [exact A1|exact A2].
Defined.

(** Two relations with values 3 and -1 modulo 7: both are non-residues, their product is a residue. *)
Lemma birth_characters_multiply_witness :
  xsum (fun r => Z.testbit (birth_char_bits [7; 11] [0; 2] r.1 r.2) (Z.of_nat 0)) [(u512_of_Z 3, 1); (u512_of_Z 1, -1)]
  = (jacobi_symbol (zprod (map (fun r => r.2 * u512_val r.1 - 0) [(u512_of_Z 3, 1); (u512_of_Z 1, -1)])) 7 =? -1).
Proof.
  apply (birth_characters_multiply [7; 11] [0; 2] [(u512_of_Z 3, 1); (u512_of_Z 1, -1)] 0 7 0); [done|done|done|done|lia|done|lia|].
  assert (u512_ok (u512_of_Z 3) /\ u512_ok (u512_of_Z 1)) as [O3 O1] by (split; apply u512_of_Z_spec).
  apply Forall_cons. split; [split; [exact O3|split; [by left|by vm_compute]]|]. apply Forall_singleton. split; [exact O1|split; [by right|by vm_compute]].
Defined.
