(* ===== verification/CharColumns.v ===== *)
(** Character columns of the matrix ([src/src/matrix/character_columns.cpp]) and the step of
    the orchestrator that appends those of the reduced rows: what a column holds, and what a
    kernel vector of the augmented matrix says about the relations it selects. *)
From Stdlib Require Import ZArith Lia Sorted.
From stdpp Require Import base gmap sets list sorting.
From S2P Require Import Prelude Soa Gf2 RowOps MergeFilter MergeStages Preprocess Doubles Truncation.
From S2P Require Import UInt512 UInt512Div Montgomery Congruence Residues PrimeAlgorithms CharPrimes.
#[local] Open Scope Z_scope.

Record CharacterColumns := mkChars { cc_aux_primes : list Z; cc_columns : list (list Z); cc_k : Z }.

(** ** Columns *)

(** Bit [j] of every entry, as column [j]. *)
Definition unpack_columns (k : Z) (vs : list Z) : list (list Z) :=
  map (fun j => map (fun v => Z.land (Z.shiftr v j) 1) vs) (upto k).

(** The symbol of [S^2 - N], as the NORM loops compute it. *)
Definition norm_bit (q nq : Z) (S : uint512) : Z :=
  let sq_mod_q := mod_uint32 S q in
  let sq2 := wrap 64 (sq_mod_q * sq_mod_q) in
  let Q_mod_q := wrap 32 (wrap 64 (wrap 64 (sq2 mod q + q) - nq) mod q) in
  if jacobi_symbol_dev Q_mod_q q =? -1 then 1 else 0.

(** [char_bits[i]], 0 where the vector is too short. *)
Definition stored_bits (bits : list Z) (i : Z) : Z := if i <? Z.of_nat (length bits) then idx bits i else 0.

Definition compute (cc : CharacterColumnComputer) (batch : HostRelationBatch) (mode : CharMode) : CharacterColumns :=
  let k := Z.of_nat (length (aux_primes_ cc)) in
  let n_rels := upto (wrap 32 (num_relations batch)) in
  mkChars (aux_primes_ cc)
    (match mode with
     | BRANCH => unpack_columns k (map (stored_bits (char_bits batch)) n_rels)
     | _ => map (fun j => map (fun i => norm_bit (wrap 32 (idx (aux_primes_ cc) j)) (idx (n_mod_q_ cc) j) (u512_of_Z (idx (sqrt_Q batch) i))) n_rels) (upto k)
     end) k.

(** [AppendCharacterColumns]: row [i] gets column [base_col + j] for every [j] with [columns[j][i] == 1]. *)
Definition char_entries (base_col : Z) (chars : CharacterColumns) (i : Z) : list Z :=
  map (fun j => wrap 32 (base_col + j)) (List.filter (fun j => vget 0 (vget [] (cc_columns chars) j) i =? 1) (upto (cc_k chars))).

Definition append_row (csr : HostMatrixCSR) (chars : CharacterColumns) (st : list Z * list Z) (i : Z) : list Z * list Z :=
  let '(new_offsets, new_indices) := st in
  let new_indices := new_indices ++ csr_row csr i ++ char_entries (n_cols csr) chars i in
  (new_offsets ++ [wrap 32 (Z.of_nat (length new_indices))], new_indices).

Definition AppendCharacterColumns (csr : HostMatrixCSR) (chars : CharacterColumns) (n_rels : Z) : HostMatrixCSR :=
  let '(new_offsets, new_indices) := foldl (append_row csr chars) ([0], []) (upto n_rels) in
  mkCSR new_offsets new_indices (n_rows csr) (wrap 32 (n_cols csr + cc_k chars)).

Definition ConcatenateCharacterColumns (a b : CharacterColumns) : CharacterColumns :=
  mkChars (cc_aux_primes a) (map (fun j => vget [] (cc_columns a) j ++ vget [] (cc_columns b) j) (upto (cc_k a))) (cc_k a).

(** ** Characters of the reduced rows *)

Section product.
Context (ns : Z) (smooth_batch partial_batch : HostRelationBatch).

Definition leaf_char_bits (leaf : Z) : Z :=
  if leaf <? ns then stored_bits (char_bits smooth_batch) leaf
  else stored_bits (char_bits partial_batch) (wrap 32 (leaf - wrap 32 ns)).

Definition get_sqrt_Q (leaf : Z) : uint512 :=
  u512_of_Z (if leaf <? ns then idx (sqrt_Q smooth_batch) leaf else idx (sqrt_Q partial_batch) (leaf - ns)).

(** The product of the leaves' square roots modulo [N]; a node has at least one leaf. *)
Definition product_sqrt_Q (mont : Montgomery) (leaves : list Z) : uint512 :=
  match leaves with
  | [l] => get_sqrt_Q l
  | [] => u512_zero
  | l :: rest =>
      mont_reduce mont (foldl (fun S_mont l => mont_mul mont S_mont (mont_transform mont (get_sqrt_Q l))) (mont_transform mont (get_sqrt_Q l)) rest)
  end.

Definition branch_row (leaves : list Z) : Z := foldl (fun v leaf => Z.lxor v (leaf_char_bits leaf)) 0 leaves.

(** [walk_fuel] bounds the search for primes, [fuel] the expansion of a node. *)
Definition computeProductCharacterColumns (walk_fuel fuel : nat) (row_map : list Z) (tree : MergeTree) (N : uint512) (fb : list Z)
    (mode : CharMode) (lp1_bound k : Z) : option CharacterColumns :=
  cc ← selectAuxPrimes walk_fuel N fb mode lp1_bound k;
  leaves ← mapM (expand fuel tree) row_map;
  Some (mkChars (aux_primes_ cc)
    (match mode with
     | BRANCH => unpack_columns k (map branch_row leaves)
     | _ =>
         let mont := Montgomery_init N in
         map (fun j =>
           let q := wrap 32 (idx (aux_primes_ cc) j) in
           let n_mod_q := wrap 32 (div_uint64_inplace N (idx (aux_primes_ cc) j)).2 in
           map (fun ls => norm_bit q n_mod_q (product_sqrt_Q mont ls)) leaves) (upto k)
     end) k).

(** The orchestrator's step, with the default of 32 columns. *)
Definition append_product_chars (walk_fuel fuel : nat) (N : uint512) (fb : list Z) (mode : CharMode) (lp1_bound : Z)
    (reduced : HostMatrixCSR) (row_map : list Z) (tree : MergeTree) : option HostMatrixCSR :=
  match mode with
  | NONE => Some reduced
  | _ =>
      chars ← computeProductCharacterColumns walk_fuel fuel row_map tree N fb mode lp1_bound 32;
      Some (AppendCharacterColumns reduced chars (n_rows reduced))
  end.

End product.

(** ** Vocabulary of the specifications *)

(** Entry [i] of character column [j]. *)
Definition char_at (chars : CharacterColumns) (j i : Z) : bool := vget 0 (vget [] (cc_columns chars) j) i =? 1.

(** Two columns on three rows. *)
Definition ex_chars : CharacterColumns := mkChars [71; 89] [[1; 0; 1]; [0; 1; 1]] 2.

(** A batch of sixty relations with characters. *)
Definition ex_batch : HostRelationBatch := mkBatch (replicate 60 5) [] [] [] (map (fun i => i * 7 + 3) (upto 60)) [] [] [] 60 0.

(** ** Lemmas: appending *)

Section append.
Context (m : HostMatrixCSR) (chars : CharacterColumns) (Hok : csr_ok m) (Hk : 0 <= cc_k chars) (Hcols : n_cols m + cc_k chars < 2 ^ 32).

Notation new_row i := (csr_row m i ++ char_entries (n_cols m) chars i).
Notation rows := (map (fun i => new_row i) (upto (n_rows m))).

Lemma char_entries_eq i : char_entries (n_cols m) chars i = map (Z.add (n_cols m)) (List.filter (fun j => char_at chars j i) (upto (cc_k chars))).
Proof using Hok Hcols.
  pose proof (co_cols m Hok). unfold char_entries. apply map_ext_in. intros j Hj%list_elem_of_In. apply filter_true_In in Hj as [Hj%elem_of_upto _].
  apply wrap_small. unfold in_width. lia.
Qed.

Lemma append_rows_spec l : forall offsets indices,
  foldl (append_row m chars) (offsets, indices) l
  = (offsets ++ map (wrap 32) (ends_from (Z.of_nat (length indices)) (map (fun i => new_row i) l)), indices ++ concat (map (fun i => new_row i) l)).
Proof using Type.
  induction l as [|i l IH]; intros offsets indices; cbn [foldl]; [cbn; by rewrite !app_nil_r|].
  cbn [append_row]. rewrite IH. cbn [map concat ends_from]. rewrite <- !app_assoc, !length_app, !Nat2Z.inj_add. done.
Qed.

Lemma append_eq : AppendCharacterColumns m chars (n_rows m)
  = mkCSR (0 :: map (wrap 32) (ends_from 0 rows)) (concat rows) (n_rows m) (n_cols m + cc_k chars).
Proof using Hok Hk Hcols.
  pose proof (co_cols m Hok). unfold AppendCharacterColumns. rewrite append_rows_spec. cbn [app length]. rewrite wrap_small by (unfold in_width; lia). done.
Qed.

Lemma new_rows_bound : Z.of_nat (length (concat rows)) <= nnz m + n_rows m * cc_k chars.
Proof using Hok Hk Hcols.
  pose proof (co_rows m Hok) as Hn. unfold nnz, zsum_upto.
  assert (forall l, Z.of_nat (length (concat (map (fun i => new_row i) l))) <= zsum (map (fun r => Z.of_nat (length (csr_row m r))) l) + Z.of_nat (length l) * cc_k chars) as H.
  { induction l as [|i l IH]; [cbn; lia|]. cbn [map concat]. rewrite zsum_cons, !length_app, char_entries_eq, length_map.
    pose proof (List.filter_length_le (fun j => char_at chars j i) (upto (cc_k chars))) as Hf. rewrite length_upto in Hf. cbn [length]. lia. }
  specialize (H (upto (n_rows m))). rewrite length_upto, Z2Nat.id in H by lia. done.
Qed.

Context (Hnnz : nnz m + n_rows m * cc_k chars < 2 ^ 32).
Notation m' := (AppendCharacterColumns m chars (n_rows m)).

Lemma append_row_eq i : 0 <= i < n_rows m -> csr_row m' i = new_row i.
Proof using Hok Hk Hcols Hnnz.
  intros Hi. rewrite append_eq. rewrite <- (Z2Nat.id i) at 1 by lia. apply csr_row_concat; [pose proof new_rows_bound; lia|].
  rewrite list_lookup_fmap, lookup_upto by lia. cbn. by rewrite Z2Nat.id by lia.
Qed.

Lemma append_ok : csr_ok m' /\ n_rows m' = n_rows m /\ n_cols m' = n_cols m + cc_k chars.
Proof using Hok Hk Hcols Hnnz.
  pose proof (co_rows m Hok). pose proof (co_cols m Hok). assert (n_rows m' = n_rows m /\ n_cols m' = n_cols m + cc_k chars) as [E1 E2] by by rewrite append_eq.
  split; [|done]. constructor; [lia|lia|]. intros i Hi. rewrite E1 in Hi. rewrite append_row_eq, E2, char_entries_eq by done.
  destruct (co_sorted m Hok i Hi) as [Hs Hf]. rewrite Forall_forall in Hf.
  assert (forall c, c ∈ map (Z.add (n_cols m)) (List.filter (fun j => char_at chars j i) (upto (cc_k chars))) -> n_cols m <= c < n_cols m + cc_k chars) as Hx.
  { intros c (j & <- & Hj%list_elem_of_In)%list_elem_of_In%in_map_iff. apply filter_true_In in Hj as [Hj%elem_of_upto _]. lia. }
  split.
  - apply StronglySorted_app. split; [intros x y Hxr Hy%Hx; pose proof (Hf x Hxr); lia|]. split; [done|].
    apply sorted_row_map; [apply filter_sorted, upto_sorted|]. intros; lia.
  - apply Forall_app. split; [apply Forall_forall; intros c Hc; pose proof (Hf c Hc); lia|]. apply Forall_forall. intros c Hc%Hx. lia.
Qed.

(** The entries of the augmented matrix. *)
Lemma append_entry i c : 0 <= i < n_rows m ->
  entry c (csr_row m' i) = if c <? n_cols m then entry c (csr_row m i) else (c <? n_cols m + cc_k chars) && char_at chars (c - n_cols m) i.
Proof using Hok Hk Hcols Hnnz.
  intros Hi. rewrite append_row_eq, char_entries_eq, entry_app by done. destruct (co_sorted m Hok i Hi) as [_ Hf]. rewrite Forall_forall in Hf.
  set (L := List.filter (fun j => char_at chars j i) (upto (cc_k chars))).
  assert (sorted_row (map (Z.add (n_cols m)) L)) as HL.
  { apply sorted_row_map; [apply filter_sorted, upto_sorted|]. intros; lia. }
  destruct (Z.ltb_spec c (n_cols m)) as [Hlt|Hge].
  - rewrite (entry_not_in c (map _ L)), xorb_false_r; [done|]. intros (j & E & Hj%list_elem_of_In)%list_elem_of_In%in_map_iff.
    apply filter_true_In in Hj as [Hj%elem_of_upto _]. lia.
  - rewrite (entry_not_in c (csr_row m i)), xorb_false_l by (intros Hc; pose proof (Hf c Hc); lia).
    apply eq_true_iff_eq. rewrite (sorted_row_entry _ _ HL), andb_true_iff, Z.ltb_lt, list_elem_of_In, in_map_iff. split.
    + intros (j & <- & Hj%list_elem_of_In). apply filter_true_In in Hj as [Hj%elem_of_upto Hb]. split; [lia|]. by replace (n_cols m + j - n_cols m) with j by ring.
    + intros [Hc Hb]. exists (c - n_cols m). split; [lia|]. apply list_elem_of_In, filter_true_In. split; [apply elem_of_upto; lia|done].
Qed.

(** A kernel vector of the augmented matrix: one of the matrix, with even characters. *)
Lemma append_kernel bits : kernel_vector m' bits <->
  kernel_vector m bits /\ forall j, 0 <= j < cc_k chars -> xsum (fun i => kbit bits i && char_at chars j i) (upto (n_rows m)) = false.
Proof using Hok Hk Hcols Hnnz.
  destruct append_ok as (_ & En & _). unfold kernel_vector. rewrite En.
  assert (forall c i, 0 <= i < n_rows m -> n_cols m <= c -> entry c (csr_row m i) = false) as Hout.
  { intros c i Hi Hc. apply entry_not_in. intros Hin. destruct (co_sorted m Hok i Hi) as [_ Hf]. rewrite Forall_forall in Hf. pose proof (Hf c Hin). lia. }
  split.
  - intros H. split.
    + intros c. destruct (Z.lt_ge_cases c (n_cols m)) as [Hlt|Hge].
      * rewrite <- (H c). apply xsum_ext. intros i Hi%elem_of_upto. rewrite append_entry by done. by rewrite (proj2 (Z.ltb_lt _ _) Hlt).
      * apply xsum_false. intros i Hi%elem_of_upto. rewrite Hout by done. apply andb_false_r.
    + intros j Hj. rewrite <- (H (n_cols m + j)). apply xsum_ext. intros i Hi%elem_of_upto. rewrite append_entry by done.
      rewrite (proj2 (Z.ltb_ge _ _)), (proj2 (Z.ltb_lt _ _)) by lia. cbn [andb]. by replace (n_cols m + j - n_cols m) with j by ring.
  - intros [H1 H2] c. destruct (Z.lt_ge_cases c (n_cols m)) as [Hlt|Hge].
    + rewrite <- (H1 c). apply xsum_ext. intros i Hi%elem_of_upto. rewrite append_entry by done. by rewrite (proj2 (Z.ltb_lt _ _) Hlt).
    + destruct (Z.ltb_spec c (n_cols m + cc_k chars)) as [Hc|Hc].
      * rewrite <- (H2 (c - n_cols m)) by lia. apply xsum_ext. intros i Hi%elem_of_upto. rewrite append_entry by done.
        by rewrite (proj2 (Z.ltb_ge _ _) Hge), (proj2 (Z.ltb_lt _ _) Hc).
      * apply xsum_false. intros i Hi%elem_of_upto. rewrite append_entry by done.
        rewrite (proj2 (Z.ltb_ge _ _) Hge), (proj2 (Z.ltb_ge _ _) Hc). apply andb_false_r.
Qed.

End append.

(** ** Lemmas: the columns *)

Lemma unpack_at p k vs j i : 0 <= j < k -> 0 <= i < Z.of_nat (length vs) ->
  char_at (mkChars p (unpack_columns k vs) k) j i = Z.testbit (idx vs i) j.
Proof.
  intros Hj Hi. unfold char_at, unpack_columns. cbn [cc_columns]. rewrite vget_map_upto by done.
  unfold vget. rewrite (nth_indep _ 0 (Z.land (Z.shiftr 0 j) 1)) by (rewrite length_map; lia).
  rewrite (map_nth (fun v => Z.land (Z.shiftr v j) 1)). fold (idx vs i). rewrite land_1, <- (Z.bit0_mod (Z.shiftr (idx vs i) j)), Z.shiftr_spec, Z.add_0_l by lia.
  by destruct (Z.testbit (idx vs i) j).
Qed.

Lemma branch_row_bit ns sb pb leaves j : 0 <= j -> Z.testbit (branch_row ns sb pb leaves) j = xsum (fun leaf => Z.testbit (leaf_char_bits ns sb pb leaf) j) leaves.
Proof.
  intros Hj. unfold branch_row. assert (forall l v, Z.testbit (foldl (fun v leaf => Z.lxor v (leaf_char_bits ns sb pb leaf)) v l) j
    = xorb (Z.testbit v j) (xsum (fun leaf => Z.testbit (leaf_char_bits ns sb pb leaf) j) l)) as H.
  { induction l as [|x l IH]; intros v; cbn [foldl]; [by rewrite xorb_false_r|]. rewrite IH, Z.lxor_spec, xsum_cons. by rewrite xorb_assoc. }
  by rewrite H, Z.bits_0, xorb_false_l.
Qed.

(** With enough fuel every node is expanded. *)
Lemma mapM_expand t l (lv : Z -> list Z) : (forall x, x ∈ l -> leaves_of t x (lv x)) ->
  exists f0, forall f, (f0 <= f)%nat -> mapM (expand f t) l = Some (map lv l).
Proof.
  induction l as [|x l IH]; intros Hl; [by exists 0%nat|]. destruct IH as [f1 H1]; [intros; apply Hl; by right|].
  destruct (expand_leaves t x (lv x) (Hl x ltac:(by left))) as [f2 H2]. exists (Nat.max f1 f2). intros f Hf.
  cbn. rewrite H2, H1 by lia. done.
Qed.

Lemma nodes_leaves t (l : list Z) : tree_wf t -> (forall x, x ∈ l -> node_ok t x) -> exists lv, forall x, x ∈ l -> leaves_of t x (lv x).
Proof. intros Ht Hl. by apply (leaves_at_exist t l (fun x => x) Ht Hl). Qed.

(** The NORM value of a product. *)
Lemma norm_bit_spec q N S : u512_ok N -> u512_ok S -> 0 < q < 2 ^ 32 -> q mod 2 = 1 ->
  norm_bit q (u512_val N mod q) S = if jacobi_symbol (u512_val S * u512_val S - u512_val N) q =? -1 then 1 else 0.
Proof.
  intros HN HS Hq Ho. unfold norm_bit. rewrite mod_uint32_spec by done. pose proof (Z.mod_pos_bound (u512_val S) q ltac:(lia)) as H1.
  pose proof (Z.mod_pos_bound (u512_val N) q ltac:(lia)) as H2. set (s := u512_val S mod q) in *. set (nq := u512_val N mod q) in *.
  rewrite (wrap_small 64 (s * s)) by (unfold in_width; nia). pose proof (Z.mod_pos_bound (s * s) q ltac:(lia)) as H3.
  rewrite (wrap_small 64 ((s * s) mod q + q)), (wrap_small 64 ((s * s) mod q + q - nq)) by (unfold in_width; lia).
  set (v := (s * s) mod q + q - nq) in *. pose proof (Z.mod_pos_bound v q ltac:(lia)) as H4.
  rewrite (wrap_small 32) by (unfold in_width; lia). rewrite jacobi_dev_eq by (done || lia).
  rewrite (jacobi_symbol_cong (v mod q) (u512_val S * u512_val S - u512_val N)); [done|].
  assert (v ≅{q} s * s - nq) as E.
  { transitivity ((s * s) mod q - nq); [apply cong_divide; [lia|exists 1; unfold v; ring]|]. apply cong_sub; [apply cong_mod|done]. }
  transitivity v; [apply cong_mod|]. rewrite E. apply cong_sub; [|apply cong_mod]. by apply cong_mul; apply cong_mod.
Qed.

Section product.
Context (N : uint512) (ns : Z) (sb pb : HostRelationBatch).
Context (HN : u512_ok N) (Hodd : Z.odd (u512_val N) = true).
Notation root l := (get_sqrt_Q ns sb pb l).

(** The Montgomery loop multiplies. *)
Lemma product_loop l : forall x v, mont_form (Montgomery_init N) x v -> Forall (fun l => u512_ok (root l)) l ->
  mont_form (Montgomery_init N) (foldl (fun S_mont l => mont_mul (Montgomery_init N) S_mont (mont_transform (Montgomery_init N) (root l))) x l)
    (v * zprod (map (fun l => u512_val (root l)) l)).
Proof using HN Hodd.
  pose proof (Montgomery_init_ok N HN Hodd) as Hm.
  induction l as [|y l IH]; intros x v Hx Hl; cbn [foldl map]; [change (zprod []) with 1; by rewrite Z.mul_1_r|].
  apply Forall_cons in Hl as [Hy Hl]. rewrite zprod_cons, Z.mul_assoc. apply IH; [|done].
  apply mont_mul_form; [done|done|]. by apply mont_transform_form.
Qed.

Lemma product_sqrt_Q_spec l : l <> [] -> Forall (fun l => u512_ok (root l)) l ->
  u512_ok (product_sqrt_Q ns sb pb (Montgomery_init N) l) /\
  u512_val (product_sqrt_Q ns sb pb (Montgomery_init N) l) ≅{u512_val N} zprod (map (fun l => u512_val (root l)) l) /\
  ((2 <= length l)%nat -> u512_val (product_sqrt_Q ns sb pb (Montgomery_init N) l) < u512_val N).
Proof using HN Hodd.
  intros Hne Hl. pose proof (Montgomery_init_ok N HN Hodd) as Hm. pose proof (u512_bound N HN).
  assert (u512_val N <> 0) by (intros E; by rewrite E in Hodd).
  destruct l as [|x [|y l]]; [done| |].
  - apply Forall_cons in Hl as [Hl _]. cbn [map]. change (product_sqrt_Q ns sb pb (Montgomery_init N) [x]) with (root x). rewrite zprod_cons.
    change (zprod []) with 1. rewrite Z.mul_1_r. split; [exact Hl|]. split; [done|]. cbn. lia.
  - cbn [product_sqrt_Q]. set (rest := y :: l) in *. apply Forall_cons in Hl as [Hx Hl].
    pose proof (product_loop rest _ _ (mont_transform_form _ Hm _ Hx) Hl) as Hf. destruct (mont_reduce_form _ Hm _ _ Hf) as [[R1 R2] R3].
    change (Montgomery.N (Montgomery_init N)) with N in R2, R3. cbn [map]. rewrite zprod_cons. split; [done|]. split; [|done]. rewrite R3. apply cong_mod.
Qed.

End product.

(** ** Lemmas: the columns of given rows *)

Section nodes.
Context (t : MergeTree) (rm : list Z) (Ht : tree_wf t) (Hrm : forall x, x ∈ rm -> node_ok t x).
Context (N : uint512) (ns : Z) (sb pb : HostRelationBatch).

(** The leaves of the reduced rows. *)
Lemma row_leaves : exists lv : Z -> list Z, (forall x, x ∈ rm -> leaves_of t x (lv x)) /\
  exists e0, forall e, (e0 <= e)%nat -> mapM (expand e t) rm = Some (map lv rm).
Proof using Ht Hrm.
  destruct (nodes_leaves t rm Ht Hrm) as [lv Hlv]. exists lv. split; [done|]. by apply mapM_expand.
Qed.

(** NORM: every entry is the symbol of [S^2 - N] for the product [S] of its leaves' roots. *)
Lemma norm_columns walk_fuel cc fb lp1_bound k :
  u512_ok N -> Z.odd (u512_val N) = true -> (forall leaf, u512_ok (get_sqrt_Q ns sb pb leaf)) -> 0 <= k ->
  selectAuxPrimes walk_fuel N fb NORM lp1_bound k = Some cc ->
  exists e0, forall e, (e0 <= e)%nat -> exists chars,
    computeProductCharacterColumns ns sb pb walk_fuel e rm t N fb NORM lp1_bound k = Some chars /\ cc_k chars = k /\
    forall r, 0 <= r < Z.of_nat (length rm) -> exists leaves S,
      leaves_of t (idx rm r) leaves /\ S ≅{u512_val N} zprod (map (fun l => u512_val (get_sqrt_Q ns sb pb l)) leaves) /\
      forall j, 0 <= j < k -> char_at chars j r = (jacobi_symbol (S * S - u512_val N) (idx (aux_primes_ cc) j) =? -1).
Proof using Ht Hrm.
  intros HN Hodd Hroots Hk Hcc. destruct (norm_select_sound _ _ _ _ _ _ HN Hk Hcc) as [Hlen Hq]. destruct row_leaves as (lv & Hlv & e0 & He). exists e0. intros e Hle.
  unfold computeProductCharacterColumns. rewrite Hcc, (He e Hle). cbn [mbind option_bind]. eexists. split; [reflexivity|]. split; [done|].
  intros r Hr. assert (idx rm r ∈ rm) as Hir by (unfold idx; apply list_elem_of_In, nth_In; lia). pose proof (Hlv _ Hir) as Hl.
  assert (lv (idx rm r) <> []) as Hne.
  { intros E. rewrite E in Hl. inversion Hl as [|i l1 l2 ls rs H1 H2 H3 H4 H5 E5]. apply app_eq_nil in E5 as [-> ->].
    clear -H4. remember [] as ls. induction H4; [done|]. apply app_eq_nil in Heqls as [-> ->]. auto. }
  destruct (product_sqrt_Q_spec N ns sb pb HN Hodd (lv (idx rm r)) Hne) as (P1 & P2 & _).
  { apply Forall_forall. intros l _. apply Hroots. }
  exists (lv (idx rm r)), (u512_val (product_sqrt_Q ns sb pb (Montgomery_init N) (lv (idx rm r)))).
  split; [done|]. split; [done|]. intros j Hj. unfold char_at. cbn [cc_columns]. rewrite vget_map_upto by done.
  assert (idx (aux_primes_ cc) j ∈ aux_primes_ cc) as Hin by (unfold idx; apply list_elem_of_In, nth_In; lia).
  rewrite Forall_forall in Hq. destruct (Hq _ Hin) as [(Hb & Hp & _) Hlt]. pose proof (odd_prime _ Hb Hp) as Ho. set (q := idx (aux_primes_ cc) j) in *.
  unfold vget. set (nq := wrap 32 (div_uint64_inplace N q).2). set (F := fun ls => norm_bit (wrap 32 q) nq (product_sqrt_Q ns sb pb (Montgomery_init N) ls)).
  rewrite (nth_indep _ 0 (F (lv 0))) by (rewrite !length_map; lia). rewrite map_nth, map_nth. unfold F. fold (idx rm r).
  assert (nq = u512_val N mod q) as ->.
  { unfold nq. rewrite (proj2 (proj2 (div_uint64_inplace_spec N q HN ltac:(lia)))). pose proof (Z.mod_pos_bound (u512_val N) q ltac:(lia)). apply wrap_small. unfold in_width. lia. }
  rewrite (wrap_small 32 q) by (unfold in_width; lia). rewrite norm_bit_spec by (done || lia). by destruct (jacobi_symbol _ _ =? -1).
Qed.

End nodes.

(** ** Lemmas: the augmented matrix *)

Section augmented.
Context (input : HostMatrixCSR) (t : MergeTree) (red : HostMatrixCSR) (rm : list Z) (R : reduction input t red rm).
Context (N : uint512) (ns : Z) (sb pb : HostRelationBatch).

Lemma row_nodes x : x ∈ rm -> node_ok t x.
Proof using R.
  intros [k Hk]%list_elem_of_lookup. pose proof (lookup_lt_Some _ _ _ Hk). pose proof (rd_len _ _ _ _ R).
  replace x with (idx rm (Z.of_nat k)); [apply (rd_nodes _ _ _ _ R); lia|]. unfold idx. rewrite Nat2Z.id. by apply nth_lookup_Some.
Qed.

Lemma elem_of_row_map k : 0 <= k < n_rows red -> idx rm k ∈ rm.
Proof using R. intros Hk. pose proof (rd_len _ _ _ _ R). unfold idx. apply list_elem_of_In, nth_In. lia. Qed.

(** The GF(2) sum of anything over the relations a vector selects is its sum over the leaves of the rows. *)
Lemma expansion_sum lv bits rels g : (forall x, x ∈ rm -> leaves_of t x (lv x)) ->
  (exists f0, forall f, (f0 <= f)%nat -> expandKernelVector f bits (n_rows red) rm t = Some rels) ->
  xsum g rels = xsum (fun k => kbit bits k && xsum g (lv (idx rm k))) (upto (n_rows red)).
Proof using R.
  intros Hlv [f0 Hf]. pose proof (co_rows red (rd_csr _ _ _ _ R)).
  destruct (expandKernelVector_spec t bits (n_rows red) rm (fun k => lv (idx rm k)) (rd_tree _ _ _ _ R)) as [f1 H1]; [lia| |].
  { intros k Hk. split; [by apply R|]. by apply Hlv, elem_of_row_map. }
  destruct (H1 (Nat.max f0 f1) ltac:(lia)) as (res & E & _ & _ & Hg). rewrite Hf in E by lia. injection E as <-. apply Hg.
Qed.

Lemma branch_augmented walk_fuel cc fb lp1_bound :
  n_cols red + 32 < 2 ^ 32 -> nnz red + n_rows red * 32 < 2 ^ 32 ->
  selectAuxPrimes walk_fuel N fb BRANCH lp1_bound 32 = Some cc ->
  exists e0, forall e, (e0 <= e)%nat -> exists final,
    append_product_chars ns sb pb walk_fuel e N fb BRANCH lp1_bound red rm t = Some final /\ csr_ok final /\ n_rows final = n_rows red /\
    forall bits, kernel_vector final bits -> exists f0, forall f, (f0 <= f)%nat ->
    exists rels, expandKernelVector f bits (n_rows final) rm t = Some rels /\
      relation_set input rels /\ (forall k, 0 <= k < n_rows final -> kbit bits k = true -> rels <> []) /\
      forall j, 0 <= j < 32 -> xsum (fun leaf => Z.testbit (leaf_char_bits ns sb pb leaf) j) rels = false.
Proof using R.
  intros Hc Hn Hcc. destruct (row_leaves t rm (rd_tree _ _ _ _ R) row_nodes) as (lv & Hlv & e0 & He). exists e0. intros e Hle.
  unfold append_product_chars, computeProductCharacterColumns. rewrite Hcc, (He e Hle). cbn [mbind option_bind].
  set (chars := mkChars _ _ 32). eexists. split; [reflexivity|]. pose proof (rd_csr _ _ _ _ R) as Hok.
  destruct (append_ok red chars Hok ltac:(cbn; lia) ltac:(cbn; lia) ltac:(cbn; lia)) as (F1 & F2 & _). rewrite F2. split; [done|]. split; [done|].
  intros bits [Hb Hj]%(append_kernel red chars Hok ltac:(cbn; lia) ltac:(cbn; lia) ltac:(cbn; lia)).
  destruct (rd_sound _ _ _ _ R bits Hb) as [f0 Hf]. exists f0. intros f Hle'. destruct (Hf f Hle') as (rels & E & Hr & Hne). exists rels.
  split; [done|]. split; [done|]. split; [done|]. intros j Hjr.
  rewrite (expansion_sum lv bits rels _ Hlv).
  - rewrite <- (Hj j Hjr). apply xsum_ext. intros k Hk%elem_of_upto. f_equal. unfold chars. pose proof (rd_len _ _ _ _ R).
    rewrite unpack_at by (rewrite ?length_map; lia). unfold idx at 2. rewrite (nth_indep _ 0 (branch_row ns sb pb (lv 0))) by (rewrite !length_map; lia).
    rewrite map_nth, map_nth. by rewrite branch_row_bit by lia.
  - exists f. intros f' Hf'. by apply (expandKernelVector_mono f).
Qed.

End augmented.

(** ** Properties *)

(** A vector is in the kernel of the matrix with appended character columns exactly when it is in the kernel
    of the matrix and, for every character, an even number of the rows it selects have the bit; the augmented
    matrix is a valid one. *)
Theorem append_characters_exact m chars bits :
  csr_ok m -> 0 <= cc_k chars -> n_cols m + cc_k chars < 2 ^ 32 -> nnz m + n_rows m * cc_k chars < 2 ^ 32 ->
  let m' := AppendCharacterColumns m chars (n_rows m) in
  csr_ok m' /\ n_rows m' = n_rows m /\ n_cols m' = n_cols m + cc_k chars /\
  (kernel_vector m' bits <->
   kernel_vector m bits /\ forall j, 0 <= j < cc_k chars -> xsum (fun i => kbit bits i && char_at chars j i) (upto (n_rows m)) = false).
Proof.
  intros Hok Hk Hc Hn m'. destruct (append_ok m chars Hok Hk Hc Hn) as (H1 & H2 & H3). split; [done|]. split; [done|]. split; [done|].
  by apply append_kernel.
Qed.

(** C7. Preprocessing, truncation and the character columns of BRANCH mode together: every kernel vector of the
    matrix that goes to the solver expands to a set of original relations whose rows sum to zero and whose captured
    characters cancel at every auxiliary prime, not empty when the vector selects a row. *)
Theorem branch_kernel_even input k_max max_weight fuel factor min_rows excess walk_fuel cc N fb lp1_bound ns sb pb :
  preprocessable input k_max -> enough_fuel input fuel -> 0 <= excess < 2 ^ 32 ->
  selectAuxPrimes walk_fuel N fb BRANCH lp1_bound 32 = Some cc ->
  exists p, preprocessMatrix_cpu fuel input k_max max_weight = Some p /\
    (Z.of_nat (length (col_indices (pr_reduced p))) < 2 ^ 32 -> nnz (pr_reduced p) < 2 ^ 32 ->
     let '(red, rm) := truncate_step factor min_rows excess (pr_reduced p) (pr_row_map p) in
     n_cols red + 32 < 2 ^ 32 -> nnz red + n_rows red * 32 < 2 ^ 32 ->
     exists e0, forall e, (e0 <= e)%nat -> exists final,
       append_product_chars ns sb pb walk_fuel e N fb BRANCH lp1_bound red rm (pr_merge_tree p) = Some final /\
       csr_ok final /\ n_rows final = n_rows red /\
       forall bits, kernel_vector final bits -> exists f0, forall f, (f0 <= f)%nat ->
       exists rels, expandKernelVector f bits (n_rows final) rm (pr_merge_tree p) = Some rels /\
         relation_set input rels /\ (forall k, 0 <= k < n_rows final -> kbit bits k = true -> rels <> []) /\
         forall j, 0 <= j < 32 -> xsum (fun leaf => Z.testbit (leaf_char_bits ns sb pb leaf) j) rels = false).
Proof.
  intros Hpre Hfuel Hx Hcc. destruct (pipeline_stage input k_max max_weight fuel Hpre Hfuel) as (p & E & Hs). exists p.
  split; [done|]. intros Hlen Hnnz. destruct (Hs Hlen) as (g & S1 & _).
  pose proof (truncate_step_reduction input _ _ _ g factor min_rows excess S1 Hnnz Hx) as R.
  destruct (truncate_step _ _ _ _ _) as [red rm]. intros Hc Hn. by eapply branch_augmented.
Qed.

(** NORM mode: entry [r] of column [j] is the Jacobi symbol of [S^2 - N] at the [j]-th auxiliary prime, [S] being
    congruent modulo [N] to the product of the square roots of the relations that make up row [r]. *)
Theorem norm_columns_exact t rm N ns sb pb walk_fuel cc fb lp1_bound k :
  tree_wf t -> (forall x, x ∈ rm -> node_ok t x) ->
  u512_ok N -> Z.odd (u512_val N) = true -> (forall leaf, u512_ok (get_sqrt_Q ns sb pb leaf)) -> 0 <= k ->
  selectAuxPrimes walk_fuel N fb NORM lp1_bound k = Some cc ->
  exists e0, forall e, (e0 <= e)%nat -> exists chars,
    computeProductCharacterColumns ns sb pb walk_fuel e rm t N fb NORM lp1_bound k = Some chars /\ cc_k chars = k /\
    forall r, 0 <= r < Z.of_nat (length rm) -> exists leaves S,
      leaves_of t (idx rm r) leaves /\ S ≅{u512_val N} zprod (map (fun l => u512_val (get_sqrt_Q ns sb pb l)) leaves) /\
      forall j, 0 <= j < k -> char_at chars j r = (jacobi_symbol (S * S - u512_val N) (idx (aux_primes_ cc) j) =? -1).
Proof. intros Ht Hrm HN Hodd Hroots Hk Hcc. by apply norm_columns. Qed.

(** ** Examples *)

Lemma append_characters_exact_witness :
  let m' := AppendCharacterColumns (csr_of [[0; 1]; [1]; [0]] 2) ex_chars 3 in
  csr_ok m' /\ n_rows m' = 3 /\ n_cols m' = 4 /\
  (kernel_vector m' [7] <->
   kernel_vector (csr_of [[0; 1]; [1]; [0]] 2) [7] /\ forall j, 0 <= j < 2 -> xsum (fun i => kbit [7] i && char_at ex_chars j i) (upto 3) = false).
Proof.
  apply (append_characters_exact (csr_of [[0; 1]; [1]; [0]] 2) ex_chars [7]); [by apply csr_okb_ok; vm_compute|done|done|done].
Defined.

Lemma branch_kernel_even_witness :
  exists cc, selectAuxPrimes 400 (u512_of_Z 1649) [] BRANCH 100 32 = Some cc /\
  exists p, preprocessMatrix_cpu 305 ex_tall 5 200 = Some p /\
    (Z.of_nat (length (col_indices (pr_reduced p))) < 2 ^ 32 -> nnz (pr_reduced p) < 2 ^ 32 ->
     let '(red, rm) := truncate_step (d_of_Z 1) 0 0 (pr_reduced p) (pr_row_map p) in
     n_cols red + 32 < 2 ^ 32 -> nnz red + n_rows red * 32 < 2 ^ 32 ->
     exists e0, forall e, (e0 <= e)%nat -> exists final,
       append_product_chars 60 ex_batch batch_empty 400 e (u512_of_Z 1649) [] BRANCH 100 red rm (pr_merge_tree p) = Some final /\
       csr_ok final /\ n_rows final = n_rows red /\
       forall bits, kernel_vector final bits -> exists f0, forall f, (f0 <= f)%nat ->
       exists rels, expandKernelVector f bits (n_rows final) rm (pr_merge_tree p) = Some rels /\
         relation_set ex_tall rels /\ (forall k, 0 <= k < n_rows final -> kbit bits k = true -> rels <> []) /\
         forall j, 0 <= j < 32 -> xsum (fun leaf => Z.testbit (leaf_char_bits 60 ex_batch batch_empty leaf) j) rels = false).
Proof.
  assert (exists cc, selectAuxPrimes 400 (u512_of_Z 1649) [] BRANCH 100 32 = Some cc) as [cc E] by (eexists; vm_compute; reflexivity).
  exists cc. split; [exact E|]. assert (enough_fuel ex_tall 305) as H1 by by vm_compute.
  exact (branch_kernel_even ex_tall 5 200 305 (d_of_Z 1) 0 0 400 cc (u512_of_Z 1649) [] 100 60 ex_batch batch_empty
    ex_tall_preprocessable H1 (conj (Z.le_refl 0) (eq_refl Lt : 0 < 2 ^ 32)) E).
Defined.

Lemma norm_columns_exact_witness :
  exists cc e0, forall e, (e0 <= e)%nat -> exists chars,
    computeProductCharacterColumns 60 ex_batch batch_empty 100 e [0; 3] (mkTree 3 [(0, 1)]) (u512_of_Z 1649) ex_fb NORM 0 3 = Some chars /\ cc_k chars = 3 /\
    forall r, 0 <= r < 2 -> exists leaves S,
      leaves_of (mkTree 3 [(0, 1)]) (idx [0; 3] r) leaves /\
      S ≅{u512_val (u512_of_Z 1649)} zprod (map (fun l => u512_val (get_sqrt_Q 60 ex_batch batch_empty l)) leaves) /\
      forall j, 0 <= j < 3 -> char_at chars j r = (jacobi_symbol (S * S - u512_val (u512_of_Z 1649)) (idx (aux_primes_ cc) j) =? -1).
Proof.
  assert (exists cc, selectAuxPrimes 100 (u512_of_Z 1649) ex_fb NORM 0 3 = Some cc) as [cc E] by (eexists; vm_compute; reflexivity).
  exists cc. apply (norm_columns_exact (mkTree 3 [(0, 1)]) [0; 3] (u512_of_Z 1649) 60 ex_batch batch_empty 100 cc ex_fb 0 3);
    [|intros x Hx|apply u512_of_Z_spec|by vm_compute|intros leaf; apply u512_of_Z_spec|lia|exact E].
  - split; [done|]. intros [|k] lft rgt Hk; [injection Hk as <- <-; cbn; lia|done].
  - unfold node_ok. cbn. rewrite !elem_of_cons, elem_of_nil in Hx. lia.
Defined.
