(* ===== verification/Candidates.v ===== *)
(** The candidates of the sieve and the relations they become
    ([src/src/postprocessing/postprocessing.cu]): [expandAndAccumulateKernel] sorts the hints of
    a candidate, merges them with the factors of [a] and appends it to the dense buffer;
    [processCandidate] evaluates the polynomial, divides the value by the hinted primes and
    classifies what is left. *)
From Stdlib Require Import ZArith Lia Sorted.
From stdpp Require Import base gmap sets list sorting.
From S2P Require Import Prelude Soa Gf2 UInt512 UInt512Div UInt512Sqrt MathUtils Congruence PrimeAlgorithms.
From S2P Require Import Batches Factorization SqrtStep CharPrimes.
#[local] Open Scope Z_scope.
#[local] Open Scope cong_scope.

(** ** Data *)

(** [candidateRelation], the fields post-processing reads; [cr_factors] has 32 entries. *)
Record candidateRelation := mkCandidate {
  cr_b : uint512;
  cr_sieve_offset : Z;
  cr_num_factors : Z;
  cr_factors : list Z
}.

(** [DenseCandidate]; of the 48 entries of [factor_indices] the first [dc_num_factors] are written. *)
Record DenseCandidate := mkDense {
  dc_a : uint512;
  dc_b : uint512;
  dc_true_x : Z;
  dc_num_factors : Z;
  dc_factor_indices : list Z
}.

(** An accumulation buffer and its atomic counter. *)
Record accumulation := mkAccumulation { ac_buffer : list DenseCandidate; ac_counter : Z }.

(** The parts of [PostProcConfig] the kernels read. *)
Record PostProcConfig := mkPostProc {
  accumulate_buffer_size : Z;
  accumulate_batch_purge_threshold : Z;
  lp1_bound : Z;
  char_branch : bool;
  char_r : Z;
  d_char_q : list Z;
  d_char_t : list Z
}.

(** ** [expandAndAccumulateKernel] *)

(** The inner loop of the insertion sort: [hole] is [j + 1]. *)
Fixpoint shift_up (key : Z) (hole : nat) (l : list Z) : list Z :=
  match hole with
  | O => <[0%nat := key]> l
  | S j => if key <? nth j l 0 then shift_up key j (<[S j := nth j l 0]> l) else <[S j := key]> l
  end.

(** [for (i = 1; i < n; ++i)], [n] rounds left. *)
Fixpoint sort_from (i n : nat) (l : list Z) : list Z :=
  match n with
  | O => l
  | S n' => sort_from (S i) n' (shift_up (nth i l 0) i l)
  end.

Definition sort_hints (n : Z) (l : list Z) : list Z := sort_from 1 (Z.to_nat n - 1) l.

(** The merge loop while both lists last; [room] is [48 - count]. Returns what is left of each. *)
Fixpoint merge_both (room : nat) (a s : list Z) : list Z * (nat * list Z * list Z) :=
  match room, a, s with
  | S room', x :: a', y :: s' =>
      if x <? y then let '(out, rest) := merge_both room' a' s in (x :: out, rest)
      else let '(out, rest) := merge_both room' a s' in (y :: out, rest)
  | _, _, _ => ([], (room, a, s))
  end.

(** The three loops that fill [factor_indices]. *)
Definition merge_factors (a s : list Z) : list Z :=
  let '(out, (room, a, s)) := merge_both 48 a s in
  let flushed := take room a in
  out ++ flushed ++ take (room - length flushed) s.

(** What one thread writes into its slot. *)
Definition expand_candidate (current_a : uint512) (a_factors : list Z) (r : candidateRelation) : DenseCandidate :=
  let sieve := take (Z.to_nat (cr_num_factors r)) (sort_hints (cr_num_factors r) (cr_factors r)) in
  let merged := merge_factors a_factors sieve in
  mkDense current_a (cr_b r) (cr_sieve_offset r) (Z.of_nat (length merged)) merged.

Definition has_hints (r : candidateRelation) : bool := (0 <? cr_num_factors r) && negb (32 <? cr_num_factors r).

(** One thread: the slot is reserved by [atomicAdd]. *)
Definition expand_thread (current_a : uint512) (a_factors : list Z) (max_capacity : Z) (st : accumulation) (r : candidateRelation) : accumulation :=
  if has_hints r then
    let pos := ac_counter st in
    mkAccumulation
      (if pos <? max_capacity then <[Z.to_nat pos := expand_candidate current_a a_factors r]> (ac_buffer st) else ac_buffer st)
      (wrap 32 (pos + 1))
  else st.

(** The kernel, [order] being the inputs in the order of their [atomicAdd]s. *)
Definition expandAndAccumulateKernel (current_a : uint512) (a_factors : list Z) (max_capacity : Z) (order : list candidateRelation) (st : accumulation) : accumulation :=
  foldl (expand_thread current_a a_factors max_capacity) st order.

Definition clampCounterKernel (max_capacity : Z) (st : accumulation) : accumulation :=
  if max_capacity <? ac_counter st then mkAccumulation (ac_buffer st) max_capacity else st.

(** ** [processCandidate] *)

(** [while (Q.mod_uint32(p) == 0)]; [None] when it does not end, which happens for [Q = 0] only. *)
Fixpoint divide_out (fuel : nat) (Q : uint512) (p cnt : Z) : option (uint512 * Z) :=
  match fuel with
  | O => None
  | S f => if mod_uint32 Q p =? 0 then divide_out f (div_uint32_inplace Q p).1 p (wrap 8 (cnt + 1)) else Some (Q, cnt)
  end.

(** One round of the factorization loop; the state is [Q] and the arrays of factors and counts. *)
Definition trial_step (factorBase : list Z) (st : uint512 * list (Z * Z)) (fb_idx : Z) : option (uint512 * list (Z * Z)) :=
  let '(Q, found) := st in
  let p := idx factorBase fb_idx in
  if 1 <? p then
    '(Q, cnt) ← divide_out 513 Q p 0;
    Some (Q, if (0 <? cnt) && (Z.of_nat (length found) <? 64) then found ++ [(fb_idx, cnt)] else found)
  else Some (Q, found).

Fixpoint trial_division (factorBase : list Z) (st : uint512 * list (Z * Z)) (hints : list Z) : option (uint512 * list (Z * Z)) :=
  match hints with
  | [] => Some st
  | fb_idx :: hints' => st ← trial_step factorBase st fb_idx; trial_division factorBase st hints'
  end.

(** The powers of two taken out before the loop. *)
Definition strip_val2 (Q : uint512) : Z * uint512 :=
  let val_2_exp := countr_zero Q in
  (val_2_exp, if 0 <? val_2_exp then rshift Q val_2_exp else Q).

(** What is handed to the two appends: the two predicates and the relation. *)
Record birth := mkBirth { is_full : bool; is_valid_partial : bool; born : relation }.

Definition classify (cfg : PostProcConfig) (sqrt_Q : uint512) (sign_axb sign val_2_exp : Z) (Q : uint512) (found : list (Z * Z)) : birth :=
  let is_one := is_one Q in
  let fits_128 := fits_in_128 Q in
  let remainder := if negb is_one && fits_128 then to_uint128 Q else 0 in
  let is_valid_partial := negb is_one && fits_128 && (remainder <? lp1_bound cfg) in
  let char_bits :=
    if char_branch cfg && (is_one || is_valid_partial)
    then birth_char_bits (take (Z.to_nat (char_r cfg)) (d_char_q cfg)) (take (Z.to_nat (char_r cfg)) (d_char_t cfg)) sqrt_Q sign_axb
    else 0 in
  mkBirth is_one is_valid_partial
    (mkRel (u512_val sqrt_Q) (wrap 8 sign) val_2_exp (if is_one then 1 else remainder) char_bits found).

Definition processCandidate (factorBase : list Z) (cfg : PostProcConfig) (N : uint512) (c : DenseCandidate) : option birth :=
  let '(sqrt_Q, sign_axb) := calculate_sqrt_of_QX (dc_a c) (dc_b c) (dc_true_x c) in
  let '(Q, sign) := abs_square_minus_N sqrt_Q N in
  let '(val_2_exp, Q) := strip_val2 Q in
  '(Q, found) ← trial_division factorBase (Q, []) (take (Z.to_nat (dc_num_factors c)) (dc_factor_indices c));
  Some (classify cfg sqrt_Q sign_axb sign val_2_exp Q found).

(** ** Vocabulary and examples *)

(** The 8-bit exponent counter of the prime [p] does not hold. *)
Definition count_overflows (p Q : Z) : Prop := (p ^ 256 | Q).

(** The inputs a candidate comes from: what the code's arithmetic needs of the polynomial value. *)
Record candidate_ok (fb : list Z) (N : uint512) (c : DenseCandidate) : Prop := mkCandOk {
  co_a : u512_ok (dc_a c);
  co_b : u512_ok (dc_b c);
  co_N : u512_ok N;
  co_x : - 2 ^ 31 <= dc_true_x c < 2 ^ 31;
  co_v : - 2 ^ 511 <= u512_val (dc_a c) * dc_true_x c + u512_val (dc_b c) < 2 ^ 511;
  co_Q : 0 < Z.abs ((u512_val (dc_a c) * dc_true_x c + u512_val (dc_b c)) ^ 2 - u512_val N) < 2 ^ 512;
  co_fb : Forall (in_width 32) fb;
  co_hints : Forall (fun k => 0 <= k < Z.of_nat (length fb)) (dc_factor_indices c);
  co_count : 0 <= dc_num_factors c <= 48;
  co_exp : Forall (fun k => 1 < idx fb k -> ~ count_overflows (idx fb k) ((u512_val (dc_a c) * dc_true_x c + u512_val (dc_b c)) ^ 2 - u512_val N)) (dc_factor_indices c)
}.

(** [43^2 - 1649 = 2^3 * 5^2] and [45^2 - 1649 = 2^3 * 47]. *)
Definition ex_fb : list Z := [2; 5; 7].
Definition ex_cfg : PostProcConfig := mkPostProc 100 90 60 false 0 [] [].
Definition ex_hit (x : Z) : candidateRelation := mkCandidate (u512_of_Z 4) x 2 ([2; 1] ++ replicate 30 0).
Definition ex_full : DenseCandidate := expand_candidate (u512_of_Z 3) [2] (ex_hit 13).
Definition ex_partial : DenseCandidate := mkDense (u512_of_Z 1) (u512_of_Z 32) 13 1 [1].
(** A candidate whose value is divisible by a power of 3 the 8-bit counter does not hold. *)
Definition ex_wrap : uint512 := u512_of_Z (3 ^ 256).

Example ex_sort : sort_hints 5 [4; 2; 9; 2; 1; 7] = [1; 2; 2; 4; 9; 7].
Proof. by vm_compute. Qed.

Example ex_merge : merge_factors [2; 5] [1; 2; 8] = [1; 2; 2; 5; 8].
Proof. by vm_compute. Qed.

Example ex_full_born : option_map born (processCandidate ex_fb ex_cfg (u512_of_Z 1649) ex_full) = Some (mkRel 43 1 3 1 0 [(1, 2)]).
Proof. by vm_compute. Qed.

Example ex_partial_born :
  processCandidate ex_fb ex_cfg (u512_of_Z 1649) ex_partial = Some (mkBirth false true (mkRel 45 1 3 47 0 [])).
Proof. by vm_compute. Qed.

(** The power is divided out, its count wraps to 0 and the factor is lost. *)
Example count_wraps : exists Q, trial_division [3] (ex_wrap, []) [0] = Some (Q, []) /\ is_one Q = true.
Proof. eexists. split; [vm_compute; reflexivity|done]. Qed.

(** ** Vocabulary of the specifications *)

(** A factor found: its index, and its exponent in a counter. *)
Definition found_value (fb : list Z) (found : list (Z * Z)) : Z := zprod (map (fun f => idx fb f.1 ^ f.2) found).

(** The value [(a x + b)^2 - N] of a candidate. *)
Definition candidate_value (N : uint512) (c : DenseCandidate) : Z := (u512_val (dc_a c) * dc_true_x c + u512_val (dc_b c)) ^ 2 - u512_val N.

Definition hint_list (c : DenseCandidate) : list Z := take (Z.to_nat (dc_num_factors c)) (dc_factor_indices c).

(** Every divisor of [m] above 1 is even or divisible by a hinted prime: [m] is smooth over 2 and the hinted primes. *)
Definition splits_over (fb hints : list Z) (m : Z) : Prop :=
  forall q, 1 < q -> (q | m) -> (2 | q) \/ exists k, k ∈ hints /\ 1 < idx fb k /\ (idx fb k | q).

(** What is promised of the outcome of a candidate. *)
Record birth_ok (fb : list Z) (cfg : PostProcConfig) (N : uint512) (c : DenseCandidate) (o : birth) : Prop := mkBirthOk {
  bo_sqrt : r_sqrt_Q (born o) = Z.abs (u512_val (dc_a c) * dc_true_x c + u512_val (dc_b c));
  bo_nodup : NoDup (map fst (r_factors (born o)));
  bo_hinted : Forall (fun f => f.1 ∈ hint_list c) (r_factors (born o));
  bo_full : is_full o = true -> relation_holds (u512_val N) fb (born o) /\ smooth_holds (u512_val N) fb (born o) /\ r_lp (born o) = 1;
  bo_partial : is_valid_partial o = true ->
    partial_holds (u512_val N) fb (born o) /\ r_lp (born o) < lp1_bound cfg /\ is_full o = false /\
    forall k, k ∈ hint_list c -> 1 < idx fb k -> ~ (idx fb k | r_lp (born o));
  bo_complete : splits_over fb (hint_list c) (candidate_value N c) -> is_full o = true
}.

(** ** The sort *)

Lemma shift_up_spec key pre x rest :
  exists p, p ≡ₚ key :: pre /\ (StronglySorted Z.le pre -> StronglySorted Z.le p) /\
    shift_up key (length pre) (pre ++ x :: rest) = p ++ rest.
Proof.
  revert x rest. induction pre as [|y pre IH] using rev_ind; intros x rest.
  { exists [key]. split; [done|]. split; [by repeat constructor|done]. }
  assert (forall z, <[S (length pre) := z]> ((pre ++ [y]) ++ x :: rest) = pre ++ y :: z :: rest) as Eins.
  { intros z. rewrite <- app_assoc. cbn [app]. rewrite insert_app_r_alt by lia. by replace (S (length pre) - length pre)%nat with 1%nat by lia. }
  rewrite length_app, Nat.add_1_r. cbn [shift_up]. rewrite !Eins, <- app_assoc. cbn [app]. rewrite nth_middle.
  destruct (Z.ltb_spec key y) as [Hlt|Hge].
  - destruct (IH y (y :: rest)) as (p & P1 & P2 & ->). exists (p ++ [y]). rewrite <- app_assoc. split; [|split; [|done]].
    + rewrite P1. cbn. constructor. by rewrite Permutation_app_comm.
    + intros (Hall & Hs & _)%StronglySorted_app. apply StronglySorted_app. split; [|split; [by apply P2|by repeat constructor]].
      intros u z Hu ->%list_elem_of_singleton. rewrite P1 in Hu. apply elem_of_cons in Hu as [->|Hu]; [lia|]. apply Hall; [done|by left].
  - exists ((pre ++ [y]) ++ [key]). split; [by rewrite Permutation_app_comm|]. split; [|by rewrite <- !app_assoc].
    intros Hs. apply StronglySorted_app. split; [|split; [done|by repeat constructor]]. apply StronglySorted_app in Hs as (Hall & _).
    intros u z Hu ->%list_elem_of_singleton. apply elem_of_app in Hu as [Hu|Hu%list_elem_of_singleton]; [|lia].
    specialize (Hall u y Hu ltac:(by left)). lia.
Qed.

Lemma sort_from_spec n pre mid rest :
  length mid = n -> StronglySorted Z.le pre ->
  exists p, p ≡ₚ pre ++ mid /\ StronglySorted Z.le p /\ sort_from (length pre) n (pre ++ mid ++ rest) = p ++ rest.
Proof.
  revert pre mid. induction n as [|n IH]; intros pre mid Hn Hs.
  { destruct mid; [|done]. exists pre. rewrite app_nil_r. done. }
  destruct mid as [|x mid]; [done|]. cbn [sort_from app]. rewrite nth_middle.
  destruct (shift_up_spec x pre x (mid ++ rest)) as (p & P1 & P2 & ->).
  destruct (IH p mid ltac:(by injection Hn) (P2 Hs)) as (p' & Q1 & Q2 & Q3). exists p'.
  pose proof (Permutation_length P1) as Hl. cbn [length] in Hl. rewrite Hl in Q3. split; [|done].
  rewrite Q1, P1. cbn. by rewrite Permutation_middle.
Qed.

(** The first [n] entries come out sorted, the others untouched. *)
Lemma sort_hints_spec n l :
  0 < n <= Z.of_nat (length l) ->
  exists p, p ≡ₚ take (Z.to_nat n) l /\ StronglySorted Z.le p /\ sort_hints n l = p ++ drop (Z.to_nat n) l.
Proof.
  intros Hn. destruct l as [|x l]; [cbn in Hn; lia|]. destruct (Z.to_nat n) as [|m] eqn:Em; [lia|].
  unfold sort_hints. rewrite Em. replace (S m - 1)%nat with m by lia. cbn [take drop length] in *.
  destruct (sort_from_spec m [x] (take m l) (drop m l)) as (p & P1 & P2 & P3); [rewrite length_take; lia|by repeat constructor|].
  exists p. cbn [app length] in *. rewrite take_drop in P3. done.
Qed.

(** ** The merge *)

Lemma merge_both_spec room a s :
  let '(out, (room', a', s')) := merge_both room a s in
  (length out + room' = room)%nat /\ (room' = 0%nat \/ a' = [] \/ s' = []) /\ out ++ a' ++ s' ≡ₚ a ++ s /\
  (StronglySorted Z.le a -> StronglySorted Z.le s -> StronglySorted Z.le out /\ StronglySorted Z.le a' /\ StronglySorted Z.le s' /\
     forall x y, x ∈ out -> y ∈ a' ++ s' -> x <= y).
Proof.
  revert a s. induction room as [|room IH]; intros a s; cbn [merge_both].
  { split; [done|]. split; [by left|]. split; [done|]. intros Ha Hs. split_and!; [constructor|done|done|]. by intros x y ?%not_elem_of_nil. }
  destruct a as [|x a].
  { split; [cbn; lia|]. split; [by auto|]. split; [done|]. intros Ha Hs. split_and!; [constructor|done|done|]. by intros u v ?%not_elem_of_nil. }
  destruct s as [|y s].
  { split; [cbn; lia|]. split; [by auto|]. split; [done|]. intros Ha Hs. split_and!; [constructor|done|done|]. by intros u v ?%not_elem_of_nil. }
  assert (forall z a1 s1 out room' a' s',
    out ++ a' ++ s' ≡ₚ a1 ++ s1 -> (forall u, u ∈ a1 ++ s1 -> z <= u) ->
    StronglySorted Z.le out /\ (forall u v, u ∈ out -> v ∈ a' ++ s' -> u <= v) ->
    StronglySorted Z.le (z :: out) /\ (forall u v, u ∈ z :: out -> v ∈ a' ++ s' -> u <= v) /\ (S (length out) + room' = S (length out + room'))%nat) as Hstep.
  { intros z a1 s1 out room' a' s' Hp Hz [Hso Hb].
    assert (forall u, u ∈ out ++ a' ++ s' -> z <= u) as Hz' by (intros u Hu; apply Hz; by rewrite <- Hp).
    split_and!; [|intros u v [->|Hu]%elem_of_cons Hv; [apply Hz', elem_of_app; by right|by apply Hb]|done].
    constructor; [done|]. apply Forall_forall. intros u Hu. apply Hz', elem_of_app. by left. }
  destruct (Z.ltb_spec x y) as [Hlt|Hge].
  - specialize (IH a (y :: s)). destruct (merge_both room a (y :: s)) as [out [[room' a'] s']]. destruct IH as (L & E & P & S).
    split; [cbn; lia|]. split; [done|]. split; [cbn; by rewrite P|].
    intros [Ha1 Ha2]%StronglySorted_inv Hs. destruct (S Ha1 Hs) as (S1 & S2 & S3 & S4).
    destruct (Hstep x _ _ out room' a' s' P) as (H1 & H2 & _); [|done|done].
    intros u [Hu|[->|Hu]%elem_of_cons]%elem_of_app; [rewrite Forall_forall in Ha2; by apply Ha2|lia|].
    apply StronglySorted_inv in Hs as [_ Hs]. rewrite Forall_forall in Hs. specialize (Hs u Hu). lia.
  - specialize (IH (x :: a) s). destruct (merge_both room (x :: a) s) as [out [[room' a'] s']]. destruct IH as (L & E & P & S).
    split; [cbn; lia|]. split; [done|]. split; [cbn; rewrite P; cbn; by rewrite <- Permutation_middle; constructor|].
    intros Ha [Hs1 Hs2]%StronglySorted_inv. destruct (S Ha Hs1) as (S1 & S2 & S3 & S4).
    destruct (Hstep y _ _ out room' a' s' P) as (H1 & H2 & _); [|done|done].
    intros u [[->|Hu]%elem_of_cons|Hu]%elem_of_app; [lia| |rewrite Forall_forall in Hs2; by apply Hs2].
    apply StronglySorted_inv in Ha as [_ Ha]. rewrite Forall_forall in Ha. specialize (Ha u Hu). lia.
Qed.

Lemma StronglySorted_take (n : nat) (l : list Z) : StronglySorted Z.le l -> StronglySorted Z.le (take n l).
Proof. intros H. rewrite <- (take_drop n l) in H. by apply StronglySorted_app in H as (_ & ? & _). Qed.

(** Sorted, at most 48 entries, only hints and factors of [a] - all of them when there is room. *)
Lemma merge_factors_spec a s :
  (length (merge_factors a s) = (48 `min` (length a + length s)))%nat /\
  (exists dropped, merge_factors a s ++ dropped ≡ₚ a ++ s) /\
  (StronglySorted Z.le a -> StronglySorted Z.le s -> StronglySorted Z.le (merge_factors a s)).
Proof.
  unfold merge_factors. pose proof (merge_both_spec 48 a s) as H. destruct (merge_both 48 a s) as [out [[room a'] s']].
  destruct H as (L & E & P & S). pose proof (Permutation_length P) as HP. rewrite !length_app in HP.
  assert ((take room a' ++ take (room - length (take room a')) s') = take room (a' ++ s')) as ->.
  { rewrite take_app. f_equal. f_equal. rewrite length_take. lia. }
  split; [|split].
  - rewrite length_app, length_take, length_app. lia.
  - exists (drop room (a' ++ s')). by rewrite <- app_assoc, take_drop.
  - intros Ha Hs. destruct (S Ha Hs) as (S1 & S2 & S3 & S4). apply StronglySorted_app. split; [|split; [done|]].
    + intros x y Hx Hy. apply S4; [done|]. rewrite <- (take_drop room (a' ++ s')). apply elem_of_app. by left.
    + destruct E as [->|[->| ->]]; [constructor|..]; apply StronglySorted_take; [done|by rewrite app_nil_r].
Qed.

Lemma expand_candidate_spec current_a a_factors r :
  has_hints r = true -> length (cr_factors r) = 32%nat ->
  let c := expand_candidate current_a a_factors r in
  let hints := take (Z.to_nat (cr_num_factors r)) (cr_factors r) in
  dc_num_factors c = Z.of_nat (length (dc_factor_indices c)) /\
  (length (dc_factor_indices c) = 48 `min` (length a_factors + length hints))%nat /\
  (exists dropped, dc_factor_indices c ++ dropped ≡ₚ a_factors ++ hints) /\
  (StronglySorted Z.le a_factors -> StronglySorted Z.le (dc_factor_indices c)).
Proof.
  intros Hh Hl c hints. unfold has_hints in Hh. apply andb_true_iff in Hh as [H1%Z.ltb_lt H2%negb_true_iff%Z.ltb_ge].
  destruct (sort_hints_spec (cr_num_factors r) (cr_factors r) ltac:(lia)) as (p & P1 & P2 & P3).
  assert (take (Z.to_nat (cr_num_factors r)) (sort_hints (cr_num_factors r) (cr_factors r)) = p) as E.
  { rewrite P3. rewrite take_app_length'; [done|]. rewrite (Permutation_length P1), length_take. lia. }
  unfold c, expand_candidate. cbn [dc_num_factors dc_factor_indices]. rewrite E. destruct (merge_factors_spec a_factors p) as (M1 & M2 & M3).
  fold hints in P1. split; [done|]. rewrite M1, (Permutation_length P1). split; [done|]. split; [|by auto].
  destruct M2 as [d Hd]. exists d. by rewrite Hd, P1.
Qed.

(** ** The accumulation kernel *)

Section kernel.
Context (current_a : uint512) (a_factors : list Z) (cap : Z) (Hcap : 0 <= cap).

(** The counter counts the candidates with hints, also those that found no room. *)
Lemma expand_kernel_spec order st :
  Z.of_nat (length (ac_buffer st)) = cap -> 0 <= ac_counter st ->
  ac_counter st + Z.of_nat (length order) < 2 ^ 32 ->
  let new := map (expand_candidate current_a a_factors) (List.filter has_hints order) in
  let st' := expandAndAccumulateKernel current_a a_factors cap order st in
  ac_counter st' = ac_counter st + Z.of_nat (length new) /\ Z.of_nat (length (ac_buffer st')) = cap /\
  take (Z.to_nat (ac_counter st')) (ac_buffer st')
  = take (Z.to_nat cap) (take (Z.to_nat (ac_counter st)) (ac_buffer st) ++ new).
Proof using Hcap.
  revert st. induction order as [|r order IH]; intros st Hb H0 Hlt; cbn [foldl List.filter map].
  { cbn. rewrite app_nil_r, Z.add_0_r. split; [done|]. split; [done|]. rewrite (take_ge _ (Z.to_nat cap)); [done|]. rewrite length_take. lia. }
  cbn [length] in Hlt. change (expandAndAccumulateKernel current_a a_factors cap (r :: order) st)
    with (expandAndAccumulateKernel current_a a_factors cap order (expand_thread current_a a_factors cap st r)).
  unfold expand_thread. destruct (has_hints r) eqn:Eh; [|apply (IH st); lia].
  cbn [map length]. set (c := expand_candidate current_a a_factors r). rewrite wrap_small by (unfold in_width; lia).
  set (st1 := mkAccumulation _ _). destruct (IH st1) as (I1 & I2 & I3); [|cbn; lia|cbn; lia|].
  { cbn. destruct (_ <? _); [by rewrite length_insert|done]. }
  rewrite I3. split; [rewrite I1; cbn; lia|]. split; [done|]. cbn [ac_counter ac_buffer st1].
  destruct (Z.ltb_spec (ac_counter st) cap) as [Hr|Hr].
  - replace (Z.to_nat (ac_counter st + 1)) with (S (Z.to_nat (ac_counter st))) by lia.
    rewrite (take_S_r _ _ c) by (apply list_lookup_insert_eq; lia). rewrite take_insert_ge, <- app_assoc by lia. done.
  - rewrite !take_app, !length_take. rewrite !(take_ge (take _ _)) by (rewrite length_take; lia).
    rewrite !(take_ge (ac_buffer st)) by lia. f_equal. replace (Z.to_nat cap - _)%nat with 0%nat by lia. by replace (Z.to_nat cap - _)%nat with 0%nat by lia.
Qed.

(** After the clamp, the counter is the number of filled slots. *)
Lemma clamped_kernel_spec order st :
  Z.of_nat (length (ac_buffer st)) = cap -> 0 <= ac_counter st <= cap ->
  ac_counter st + Z.of_nat (length order) < 2 ^ 32 ->
  let new := map (expand_candidate current_a a_factors) (List.filter has_hints order) in
  let st' := clampCounterKernel cap (expandAndAccumulateKernel current_a a_factors cap order st) in
  ac_counter st' = Z.min cap (ac_counter st + Z.of_nat (length new)) /\ Z.of_nat (length (ac_buffer st')) = cap /\
  take (Z.to_nat (ac_counter st')) (ac_buffer st')
  = take (Z.to_nat cap) (take (Z.to_nat (ac_counter st)) (ac_buffer st) ++ new).
Proof using Hcap.
  intros Hb H0 Hlt new st'. destruct (expand_kernel_spec order st Hb ltac:(lia) Hlt) as (K1 & K2 & K3). fold new in K1, K3.
  unfold st', clampCounterKernel. destruct (Z.ltb_spec cap (ac_counter (expandAndAccumulateKernel current_a a_factors cap order st))).
  - cbn [ac_counter ac_buffer]. split; [lia|]. split; [done|]. rewrite <- K3, !take_ge by lia. done.
  - split; [lia|]. done.
Qed.

End kernel.

(** ** Trailing zeros and narrow conversions *)

Lemma ctz_loop_spec i l :
  digits_ok 32 l -> of_digits 32 l <> 0 ->
  exists k, ctz_loop i l = k + i * 32 /\ 0 <= k < 32 * Z.of_nat (length l) /\ (2 ^ k | of_digits 32 l) /\ (of_digits 32 l / 2 ^ k) mod 2 = 1.
Proof.
  revert i. induction l as [|x l IH]; intros i Hl Hz; [done|]. apply digits_ok_cons in Hl as [Hx Hl]. cbn [ctz_loop of_digits length] in *.
  pose proof (of_digits_nonneg 32 ltac:(lia) l Hl) as Hn. destruct (Z.eqb_spec x 0) as [->|Hx0].
  - destruct (IH (i + 1) Hl ltac:(lia)) as (k & E & Hk & [m Hm] & Ho). exists (k + 32). split; [lia|]. split; [lia|].
    rewrite Z.add_0_l, Hm, Z.div_mul in * by (apply Z.pow_nonzero; lia). rewrite Z.pow_add_r by lia. split; [exists m; ring|].
    replace (2 ^ 32 * (m * 2 ^ k)) with (m * (2 ^ k * 2 ^ 32)) by ring. rewrite Z.div_mul; [done|]. pose proof (Z.pow_pos_nonneg 2 k ltac:(lia) ltac:(lia)). nia.
  - unfold in_width in Hx. destruct (ctz32_spec x ltac:(lia)) as (H1 & H2 & H3). rewrite Z.shiftr_div_pow2 in H2, H3 by lia.
    assert (ctz32 x < 32) as H4.
    { apply (Z.pow_lt_mono_r_iff 2); [lia..|]. pose proof (Z.pow_pos_nonneg 2 (ctz32 x) ltac:(lia) H1). set (q := x / 2 ^ ctz32 x) in *. set (t := 2 ^ ctz32 x) in *. clearbody q t. clear - H2 H Hx Hx0. assert (1 <= q) by nia. assert (t * 1 <= t * q) by (apply Z.mul_le_mono_nonneg_l; lia). lia. }
    exists (ctz32 x). split; [done|]. split; [lia|].
    assert (x + 2 ^ 32 * of_digits 32 l = (x / 2 ^ ctz32 x + 2 ^ (32 - ctz32 x) * of_digits 32 l) * 2 ^ ctz32 x) as E.
    { rewrite H2 at 1. replace (2 ^ 32) with (2 ^ (32 - ctz32 x) * 2 ^ ctz32 x) by (rewrite <- Z.pow_add_r by lia; f_equal; lia). ring. }
    split; [eexists; exact E|]. rewrite E, Z.div_mul by (apply Z.pow_nonzero; lia).
    replace (32 - ctz32 x) with (31 - ctz32 x + 1) by lia. rewrite Z.pow_add_r by lia.
    replace (_ + _ * 2 ^ 1 * _) with (x / 2 ^ ctz32 x + 2 ^ (31 - ctz32 x) * of_digits 32 l * 2) by ring. by rewrite Z.mod_add by lia.
Qed.

Lemma strip_val2_spec Q :
  u512_ok Q -> u512_val Q <> 0 ->
  let '(v, Q') := strip_val2 Q in
  0 <= v < 512 /\ u512_ok Q' /\ u512_val Q = 2 ^ v * u512_val Q' /\ u512_val Q' mod 2 = 1.
Proof.
  intros [Hl Hd] Hz. destruct (ctz_loop_spec 0 (limbs Q) Hd Hz) as (k & E & Hk & [m Hm] & Ho). unfold strip_val2, countr_zero.
  rewrite E, Hl in *. replace (k + 0 * 32) with k by lia. split; [lia|]. assert (0 < 2 ^ k) by (apply Z.pow_pos_nonneg; lia).
  unfold u512_val in Hz. destruct (Z.ltb_spec 0 k).
  - destruct (rshift_spec Q k) as [R1 R2]; [done|lia|]. split; [done|]. rewrite R2. unfold u512_val. split; [|done]. rewrite Hm, Z.div_mul by lia. lia.
  - replace k with 0 in * by lia. rewrite Z.div_1_r in Ho. split; [done|]. split; [unfold u512_val; lia|done].
Qed.

Lemma to_uint128_spec Q : u512_ok Q -> fits_in_128 Q = (u512_val Q <? 2 ^ 128) /\ (u512_val Q < 2 ^ 128 -> to_uint128 Q = u512_val Q).
Proof.
  intros [Hl Hd]. unfold fits_in_128, to_uint128, u512_val. destruct (limbs Q) as [|a [|b [|c [|d l]]]] eqn:E; try done.
  cbn [drop nth]. rewrite drop_0. do 4 apply digits_ok_cons in Hd as [? Hd]. rewrite all_zero_spec by done. cbn [of_digits].
  pose proof (of_digits_nonneg 32 ltac:(lia) l Hd) as Hn. unfold in_width in *. split.
  - destruct (Z.eqb_spec (of_digits 32 l) 0) as [->|]; symmetry; [apply Z.ltb_lt|apply Z.ltb_ge]; lia.
  - intros Hlt. assert (of_digits 32 l = 0) as -> by lia.
    rewrite !(lor_shiftl_add_l _ _ 32) by (unfold in_width; lia). rewrite wrap_small by (rewrite Z.shiftl_mul_pow2 by lia; unfold in_width; lia).
    rewrite lor_shiftl_add_l by (unfold in_width; lia). lia.
Qed.

(** ** Trial division *)

Lemma divide_out_spec p f Q cnt :
  1 < p < 2 ^ 32 -> in_width 8 cnt -> u512_ok Q -> 0 < u512_val Q < 2 ^ Z.of_nat f ->
  exists e Q', divide_out (S f) Q p cnt = Some (Q', wrap 8 (cnt + e)) /\
    0 <= e /\ u512_ok Q' /\ u512_val Q = p ^ e * u512_val Q' /\ ~ (p | u512_val Q').
Proof.
  intros Hp. revert Q cnt. induction f as [|f IH]; intros Q cnt Hcnt HQ Hb; [change (2 ^ Z.of_nat 0) with 1 in Hb; lia|].
  cbn [divide_out]. rewrite mod_uint32_spec by (done || lia). destruct (Z.eqb_spec (u512_val Q mod p) 0) as [E|E].
  - destruct (div_uint32_inplace_spec Q p HQ ltac:(lia)) as (D1 & D2 & _). pose proof (Z.div_mod (u512_val Q) p ltac:(lia)) as Ed.
    rewrite E, Z.add_0_r, <- D2 in Ed. rewrite Nat2Z.inj_succ, Z.pow_succ_r in Hb by lia.
    destruct (IH (div_uint32_inplace Q p).1 (wrap 8 (cnt + 1))) as (e & Q' & F1 & F2 & F3 & F4 & F5); [apply wrap_range; lia|done|nia|].
    exists (e + 1), Q'. cbn [divide_out] in F1. rewrite F1. split; [|split; [lia|]; split; [done|]; split; [|done]].
    + do 2 f_equal. unfold wrap. rewrite Z.add_mod_idemp_l by lia. f_equal. lia.
    + rewrite Ed, F4, Z.pow_add_r by lia. ring.
  - exists 0, Q. rewrite Z.add_0_r, wrap_small by done. split; [done|]. split; [lia|]. split; [done|]. split; [lia|].
    intros [m Hm]. apply E. rewrite Hm. by apply Z.mod_mul; lia.
Qed.

Lemma divide_out_total p Q :
  1 < p < 2 ^ 32 -> u512_ok Q -> 0 < u512_val Q < 2 ^ 512 ->
  exists e Q', divide_out 513 Q p 0 = Some (Q', wrap 8 e) /\
    0 <= e /\ u512_ok Q' /\ u512_val Q = p ^ e * u512_val Q' /\ ~ (p | u512_val Q').
Proof.
  intros Hp HQ Hb. assert (in_width 8 0) as H0 by (unfold in_width; lia). assert (Z.of_nat 512 = 512) as E by (vm_compute; reflexivity).
  pose proof (divide_out_spec p 512 Q 0 Hp H0 HQ) as H. rewrite E in H. exact (H Hb).
Qed.

Section trial.
Context (fb : list Z) (Hfb : Forall (in_width 32) fb).

Notation prime_at k := (idx fb k).

(** The state of the loop on [Q0], the prefix [ks] of the hints done. *)
Record trial_inv (Q0 : Z) (ks : list Z) (st : uint512 * list (Z * Z)) : Prop := mkTrialInv {
  ti_ok : u512_ok st.1;
  ti_pos : 0 < u512_val st.1 < 2 ^ 512;
  ti_prod : Q0 = found_value fb st.2 * u512_val st.1;
  ti_length : (length st.2 <= length ks)%nat;
  ti_found : Forall (fun f => 0 <= f.1 < Z.of_nat (length fb) /\ 0 < f.2 < 256 /\ 1 < prime_at f.1) st.2;
  ti_nodup : NoDup (map fst st.2);
  ti_hinted : forall f, f ∈ st.2 -> f.1 ∈ ks;
  ti_done : forall k, k ∈ ks -> 1 < prime_at k -> ~ (prime_at k | u512_val st.1)
}.

Lemma prime_at_width k : 0 <= k < Z.of_nat (length fb) -> in_width 32 (prime_at k).
Proof using Hfb. intros Hk. rewrite Forall_forall in Hfb. apply Hfb, list_elem_of_In, nth_In. lia. Qed.

Lemma trial_step_spec Q0 ks st k :
  trial_inv Q0 ks st -> (length ks < 64)%nat -> 0 <= k < Z.of_nat (length fb) ->
  (1 < prime_at k -> ~ count_overflows (prime_at k) Q0) ->
  exists st', trial_step fb st k = Some st' /\ trial_inv Q0 (ks ++ [k]) st'.
Proof using Hfb.
  intros I Hks Hk Hexp. destruct st as [Q found]. pose proof (prime_at_width k Hk) as Hw. unfold in_width in Hw. destruct I as [I1 I2 I3 I4 I5 I6 I7 I8].
  cbn [fst snd] in *. unfold trial_step. destruct (Z.ltb_spec 1 (prime_at k)) as [Hp|Hp].
  2: { eexists. split; [done|]. constructor; cbn [fst snd]; [exact I1|exact I2|exact I3|rewrite length_app; lia|exact I5|exact I6| |].
       - intros f Hf. apply elem_of_app. left. by apply I7.
       - intros k' [Hk'| ->%list_elem_of_singleton]%elem_of_app; [by apply I8|lia]. }
  destruct (divide_out_total (prime_at k) Q ltac:(lia) I1 I2) as (e & Q' & -> & E1 & E2 & E3 & E4).
  cbn [mbind option_bind]. specialize (Hexp Hp). assert (0 < prime_at k ^ e) by (apply Z.pow_pos_nonneg; lia).
  assert (0 < u512_val Q') by nia. assert (u512_val Q' <= u512_val Q) by nia.
  assert (e < 256) as He.
  { destruct (Z.lt_ge_cases e 256) as [|Hge]; [done|]. exfalso. apply Hexp. unfold count_overflows. rewrite I3, E3.
    replace e with (256 + (e - 256)) by lia. rewrite Z.pow_add_r by lia.
    exists (found_value fb found * (prime_at k ^ (e - 256) * u512_val Q')). ring. }
  rewrite wrap_small by (unfold in_width; lia). destruct (Z.ltb_spec (Z.of_nat (length found)) 64); [|lia]. rewrite andb_true_r.
  assert (forall k', k' ∈ ks ++ [k] -> 1 < prime_at k' -> ~ (prime_at k' | u512_val Q')) as Hdone.
  { intros k' [Hk'| ->%list_elem_of_singleton]%elem_of_app Hp'; [|done]. intros Hd. apply (I8 k' Hk' Hp'). rewrite E3. by apply Z.divide_mul_r. }
  eexists. split; [done|]. destruct (Z.ltb_spec 0 e) as [He0|He0].
  - assert (k ∉ ks) as Hfresh.
    { intros Hin. apply (I8 k Hin Hp). rewrite E3. apply Z.divide_mul_l.
      replace (prime_at k ^ e) with (prime_at k * prime_at k ^ (e - 1)) by (rewrite <- Z.pow_succ_r by lia; f_equal; lia).
      apply Z.divide_factor_l. }
    constructor; cbn [fst snd]; [exact E2|lia| | | | | |exact Hdone].
    + rewrite I3, E3. unfold found_value. rewrite map_app, zprod_app. cbn [map fst snd]. rewrite zprod_cons, zprod_nil. ring.
    + rewrite !length_app. cbn. lia.
    + apply Forall_app. split; [done|]. apply Forall_singleton. cbn [fst snd]. lia.
    + rewrite map_app. apply NoDup_app. split; [done|]. split; [|apply NoDup_singleton].
      intros x Hx Hxk. apply list_elem_of_fmap in Hx as (f & -> & Hf). cbn [map fst] in Hxk. apply list_elem_of_singleton in Hxk.
      apply Hfresh. rewrite <- Hxk. by apply I7.
    + intros f [Hf| ->%list_elem_of_singleton]%elem_of_app; apply elem_of_app; [left; by apply I7|right; by left].
  - assert (e = 0) as -> by lia. rewrite Z.pow_0_r, Z.mul_1_l in E3. constructor; cbn [fst snd]; [exact E2|lia|by rewrite I3, E3|rewrite length_app; lia|exact I5|exact I6| |exact Hdone].
    intros f Hf. apply elem_of_app. left. by apply I7.
Qed.

Lemma trial_division_spec Q0 hints ks st :
  trial_inv Q0 ks st -> (length ks + length hints <= 64)%nat -> Forall (fun k => 0 <= k < Z.of_nat (length fb)) hints ->
  Forall (fun k => 1 < prime_at k -> ~ count_overflows (prime_at k) Q0) hints ->
  exists st', trial_division fb st hints = Some st' /\ trial_inv Q0 (ks ++ hints) st'.
Proof using Hfb.
  revert ks st. induction hints as [|k hints IH]; intros ks st I Hl Hr Hexp.
  { exists st. by rewrite app_nil_r. }
  apply Forall_cons in Hr as [Hk Hr]. apply Forall_cons in Hexp as [He Hexp]. cbn [length] in Hl.
  destruct (trial_step_spec Q0 ks st k I ltac:(lia) Hk He) as (st1 & E1 & I1).
  destruct (IH (ks ++ [k]) st1 I1) as (st2 & E2 & I2); [rewrite length_app; cbn; lia|done|done|].
  exists st2. cbn [trial_division]. rewrite E1. cbn [mbind option_bind]. by rewrite <- app_assoc in I2.
Qed.

End trial.

(** ** The candidate *)

Lemma sqrt_value_spec a b x :
  u512_ok a -> u512_ok b -> - 2 ^ 31 <= x < 2 ^ 31 -> - 2 ^ 511 <= u512_val a * x + u512_val b < 2 ^ 511 ->
  let v := u512_val a * x + u512_val b in
  u512_ok (calculate_sqrt_of_QX a b x).1 /\ u512_val (calculate_sqrt_of_QX a b x).1 = Z.abs v /\ (calculate_sqrt_of_QX a b x).2 = Z.sgn v.
Proof. intros Ha Hb Hx Hv v. destruct (eval_axb_spec a b x Ha Hb Hx) as [E1 E2]. by apply abs_twos_complement_spec. Qed.

(** What [processCandidate] computes: the square root, the 2-power, the exponents of the hinted primes and the cofactor. *)
Lemma process_candidate_spec fb cfg N c :
  candidate_ok fb N c ->
  let v := u512_val (dc_a c) * dc_true_x c + u512_val (dc_b c) in
  exists sqrt_Q Q found val2 sign,
    processCandidate fb cfg N c = Some (classify cfg sqrt_Q (Z.sgn v) sign val2 Q found) /\
    u512_ok sqrt_Q /\ u512_val sqrt_Q = Z.abs v /\ (sign = 1 \/ sign = -1) /\ 0 <= val2 < 512 /\
    candidate_value N c = sign * 2 ^ val2 * found_value fb found * u512_val Q /\ u512_val Q mod 2 = 1 /\
    (exists Q0, trial_inv fb Q0 (hint_list c) (Q, found)).
Proof.
  intros [Ha Hb HN Hx Hv HQ Hfb Hh Hc He] v. unfold processCandidate. fold v in Hv, HQ, He.
  destruct (sqrt_value_spec (dc_a c) (dc_b c) (dc_true_x c) Ha Hb Hx Hv) as (S1 & S2 & S3). fold v in S2, S3.
  destruct (calculate_sqrt_of_QX (dc_a c) (dc_b c) (dc_true_x c)) as [sqrt_Q sg]. cbn [fst snd] in S1, S2, S3. subst sg.
  assert (u512_val sqrt_Q * u512_val sqrt_Q - u512_val N = v ^ 2 - u512_val N) as Esq by (rewrite S2; lia).
  destruct (abs_square_minus_N_spec sqrt_Q N S1 HN ltac:(lia)) as (A1 & A2 & A3). rewrite Esq in A2.
  destruct (abs_square_minus_N sqrt_Q N) as [Q sign]. cbn [fst snd] in A1, A2, A3.
  pose proof (strip_val2_spec Q A1 ltac:(lia)) as Hst. destruct (strip_val2 Q) as [val2 Q1]. destruct Hst as (V1 & V2 & V3 & V4).
  assert (0 < 2 ^ val2) as Hp2 by (apply Z.pow_pos_nonneg; lia).
  assert (v ^ 2 - u512_val N = sign * u512_val Q /\ (sign = 1 \/ sign = -1)) as [Hval Hsign].
  { rewrite A2, A3. destruct (Z.leb_spec (u512_val N) (u512_val sqrt_Q * u512_val sqrt_Q)); split; lia. }
  assert (0 < u512_val Q1 < 2 ^ 512) as Hpos by (split; nia).
  fold (hint_list c).
  destruct (trial_division_spec fb Hfb (u512_val Q1) (hint_list c) [] (Q1, [])) as ([Q2 found] & E & I).
  - constructor; cbn [fst snd]; [exact V2|exact Hpos|unfold found_value; cbn [map]; rewrite zprod_nil; lia|done|constructor|constructor|by intros f ?%not_elem_of_nil|by intros k ?%not_elem_of_nil].
  - cbn [length]. unfold hint_list. rewrite length_take. lia.
  - by apply Forall_take.
  - apply Forall_take. eapply Forall_impl; [exact He|]. intros k Hk Hp Ho. apply (Hk Hp). unfold count_overflows in *.
    rewrite Hval, V3. apply Z.divide_mul_r, Z.divide_mul_r. exact Ho.
  - exists sqrt_Q, Q2, found, val2, sign. rewrite E. split; [done|]. split; [done|]. split; [done|]. split; [done|]. split; [done|].
    pose proof (ti_prod _ _ _ _ I) as HP. cbn [fst snd] in HP. unfold candidate_value. fold v. split; [|split].
    + rewrite Hval, V3, HP. ring.
    + pose proof V4 as Hodd. rewrite HP in Hodd. destruct (Z.mod_pos_bound (u512_val Q2) 2 ltac:(lia)).
      assert (u512_val Q2 mod 2 <> 0); [|lia]. intros Hz. rewrite <- Zmult_mod_idemp_r, Hz, Z.mul_0_r in Hodd. done.
    + exists (u512_val Q1). done.
Qed.

Lemma found_in_base fb Q0 ks st sq sg v2 lp ch :
  trial_inv fb Q0 ks st -> 0 <= v2 -> factors_in_base fb (mkRel sq sg v2 lp ch st.2).
Proof.
  intros I Hv. split; [done|]. cbn [r_factors]. eapply Forall_impl; [exact (ti_found _ _ _ _ I)|]. cbn beta. lia.
Qed.

Lemma rhs_value fb sq sign v2 ch found :
  sign = 1 \/ sign = -1 -> rhs fb (mkRel sq (wrap 8 sign) v2 1 ch found) = sign * 2 ^ v2 * found_value fb found.
Proof.
  intros Hs. unfold rhs, neg_count, lp_val, found_value. cbn [r_sign r_val2 r_lp r_factors].
  change (1 <? 1) with false. cbn iota. rewrite Z.pow_1_l by lia.
  assert ((-1) ^ (if wrap 8 sign =? 1 then 0 else 1) = sign) as -> by (by destruct Hs as [-> | ->]). ring.
Qed.

Lemma value_cong n v m : v ^ 2 - n = m -> Z.abs v * Z.abs v ≅{n} m.
Proof.
  intros H. rewrite <- Z.abs_mul, Z.abs_eq by nia. unfold cong. replace (v * v) with (m + 1 * n) by lia.
  destruct (Z.eq_dec n 0) as [->|]; [by rewrite Z.mul_0_r, Z.add_0_r|]. by rewrite Z.mod_add.
Qed.

(** The record from its fields, as one conjunction. *)
Lemma birth_ok_intro fb cfg N c o :
  r_sqrt_Q (born o) = Z.abs (u512_val (dc_a c) * dc_true_x c + u512_val (dc_b c)) /\
  NoDup (map fst (r_factors (born o))) /\ Forall (fun f => f.1 ∈ hint_list c) (r_factors (born o)) /\
  (is_full o = true -> relation_holds (u512_val N) fb (born o) /\ smooth_holds (u512_val N) fb (born o) /\ r_lp (born o) = 1) /\
  (is_valid_partial o = true ->
     partial_holds (u512_val N) fb (born o) /\ r_lp (born o) < lp1_bound cfg /\ is_full o = false /\
     forall k, k ∈ hint_list c -> 1 < idx fb k -> ~ (idx fb k | r_lp (born o))) /\
  (splits_over fb (hint_list c) (candidate_value N c) -> is_full o = true) -> birth_ok fb cfg N c o.
Proof. intros (H1 & H2 & H3 & H4 & H5 & H6). by constructor. Qed.

Lemma processCandidate_spec fb cfg N c : candidate_ok fb N c -> exists o, processCandidate fb cfg N c = Some o /\ birth_ok fb cfg N c o.
Proof.
  intros Hok. destruct (process_candidate_spec fb cfg N c Hok) as (sq & Q & found & v2 & sign & E & S1 & S2 & S3 & V & EQ & Ho & Q0 & I).
  set (v := u512_val (dc_a c) * dc_true_x c + u512_val (dc_b c)) in *. exists (classify cfg sq (Z.sgn v) sign v2 Q found). split; [done|]. apply birth_ok_intro.
  pose proof (ti_ok _ _ _ _ I) as HQ. pose proof (ti_pos _ _ _ _ I) as HQp. pose proof (ti_done _ _ _ _ I) as Hdone. cbn [fst snd] in HQ, HQp, Hdone.
  destruct (to_uint128_spec Q HQ) as [F1 F2]. pose proof (is_one_spec Q HQ) as F3.
  unfold classify. cbn [born is_full is_valid_partial r_sqrt_Q r_factors r_lp]. split; [done|].
  split; [exact (ti_nodup _ _ _ _ I)|]. split; [apply Forall_forall, (ti_hinted _ _ _ _ I)|]. rewrite F1, F3.
  set (ch := if char_branch cfg && _ then _ else 0). clearbody ch.
  pose proof (fun lp => found_in_base fb Q0 _ _ (u512_val sq) (wrap 8 sign) v2 lp ch I (proj1 V)) as Hin. cbn [snd] in Hin.
  split; [|split].
  - intros E1. rewrite E1. apply Z.eqb_eq in E1.
    assert (u512_val sq * u512_val sq ≅{u512_val N} rhs fb (mkRel (u512_val sq) (wrap 8 sign) v2 1 ch found)) as Hc.
    { rewrite rhs_value by done. rewrite S2. apply value_cong. unfold candidate_value in EQ. fold v in EQ. rewrite EQ, E1. ring. }
    split; [split; [exact (Hin 0)|exact Hc]|]. split; [|done]. split; [exact (Hin 0)|]. cbn [r_sqrt_Q]. unfold clear_lp, lp_val. cbn. by rewrite Z.mul_1_r.
  - intros [[E1%negb_true_iff E2%Z.ltb_lt]%andb_true_iff E3%Z.ltb_lt]%andb_true_iff. rewrite E1 in *. cbn [negb andb] in *.
    apply Z.eqb_neq in E1. rewrite (proj2 (Z.ltb_lt _ _) E2) in E3 |- *. rewrite F2 in E3 |- * by lia.
    split; [|split; [done|split; [done|]]].
    + split; [exact (Hin 0)|]. split; [cbn; lia|]. cbn [r_sqrt_Q r_lp]. unfold clear_lp. cbn [r_sqrt_Q r_sign r_val2 r_lp r_char r_factors].
      rewrite rhs_value by done. rewrite S2. apply value_cong. unfold candidate_value in EQ. fold v in EQ. exact EQ.
    + exact Hdone.
  - intros Hsm. apply Z.eqb_eq. destruct (Z.lt_ge_cases 1 (u512_val Q)) as [Hgt|]; [exfalso|lia].
    destruct (Hsm (u512_val Q) Hgt) as [[m Hm]|(k & Hk & Hp & Hd)].
    + rewrite EQ. apply Z.divide_factor_r.
    + rewrite Hm, Z.mod_mul in Ho by lia. done.
    + by apply (Hdone k).
Qed.

(** ** Properties *)

(** C19. The relation of a candidate satisfies its equation: it carries [|a x + b|], the sign, the 2-power and the exact
    exponents of hinted primes, each once; a full relation is one whose cofactor is 1, a partial one has its cofactor as large prime, below
    the bound and not divisible by a hinted prime. *)
Theorem processCandidate_sound fb cfg N c :
  candidate_ok fb N c ->
  exists o, processCandidate fb cfg N c = Some o /\
    r_sqrt_Q (born o) = Z.abs (u512_val (dc_a c) * dc_true_x c + u512_val (dc_b c)) /\
    NoDup (map fst (r_factors (born o))) /\ Forall (fun f => f.1 ∈ hint_list c) (r_factors (born o)) /\
    (is_full o = true -> relation_holds (u512_val N) fb (born o) /\ smooth_holds (u512_val N) fb (born o) /\ r_lp (born o) = 1) /\
    (is_valid_partial o = true ->
       partial_holds (u512_val N) fb (born o) /\ r_lp (born o) < lp1_bound cfg /\ is_full o = false /\
       forall k, k ∈ hint_list c -> 1 < idx fb k -> ~ (idx fb k | r_lp (born o))) /\
    (splits_over fb (hint_list c) (candidate_value N c) -> is_full o = true).
Proof. intros H. destruct (processCandidate_spec fb cfg N c H) as (o & E & [H1 H2 H3 H4 H5 H6]). by exists o. Qed.

Lemma small_no_overflow k m : 2 <= k -> 0 < m < 1000 -> ~ count_overflows k m.
Proof.
  intros Hk Hm [c Hc]. assert (1000 <= k ^ 256) as Hbig.
  { transitivity (2 ^ 256); [by vm_compute|]. apply Z.pow_le_mono_l. by split. }
  set (t := k ^ 256) in *. clearbody t. clear - Hm Hc Hbig. destruct (Z.le_gt_cases c 0); nia.
Qed.

Lemma ex_full_ok : candidate_ok ex_fb (u512_of_Z 1649) ex_full.
Proof.
  constructor; [apply u512_of_Z_spec..|by vm_compute|by vm_compute|by vm_compute| | |by vm_compute|].
  - unfold ex_fb. repeat constructor; unfold in_width; lia.
  - apply (bool_decide_unpack _). by vm_compute.
  - assert (dc_factor_indices ex_full = [1; 2; 2]) as -> by (vm_compute; reflexivity).
    change ((u512_val (dc_a ex_full) * dc_true_x ex_full + u512_val (dc_b ex_full)) ^ 2 - u512_val (u512_of_Z 1649)) with 200.
    repeat constructor; intros _; apply small_no_overflow; by vm_compute.
Qed.

Lemma ex_partial_ok : candidate_ok ex_fb (u512_of_Z 1649) ex_partial.
Proof.
  constructor; [apply u512_of_Z_spec..|by vm_compute|by vm_compute|by vm_compute| | |by vm_compute|].
  - unfold ex_fb. repeat constructor; unfold in_width; lia.
  - apply (bool_decide_unpack _). by vm_compute.
  - change ((u512_val (dc_a ex_partial) * dc_true_x ex_partial + u512_val (dc_b ex_partial)) ^ 2 - u512_val (u512_of_Z 1649)) with 376.
    repeat constructor; intros _; apply small_no_overflow; by vm_compute.
Qed.

Lemma processCandidate_sound_witness :
  exists o, processCandidate ex_fb ex_cfg (u512_of_Z 1649) ex_full = Some o /\ relation_holds 1649 ex_fb (born o) /\ r_sqrt_Q (born o) = 43.
Proof.
  destruct (processCandidate_sound ex_fb ex_cfg (u512_of_Z 1649) ex_full ex_full_ok) as (o & E & H1 & _ & _ & H2 & _).
  assert (processCandidate ex_fb ex_cfg (u512_of_Z 1649) ex_full = Some (mkBirth true false (mkRel 43 1 3 1 0 [(1, 2)]))) as E' by (vm_compute; reflexivity).
  rewrite E' in E. injection E as <-. eexists. split; [exact E'|]. split; [exact (proj1 (H2 eq_refl))|done].
Defined.

(** The accumulation: whatever the order of the reservations, the clamped counter is the number of filled slots and the buffer holds the
    candidates with 1 to 32 hints, in that order, cut at the capacity; each has its hints and the factors of [a] in ascending order,
    all of them when they are at most 48. *)
Theorem accumulation_exact current_a a_factors cap order st :
  Z.of_nat (length (ac_buffer st)) = cap -> 0 <= ac_counter st <= cap -> ac_counter st + Z.of_nat (length order) < 2 ^ 32 ->
  StronglySorted Z.le a_factors -> Forall (fun r => length (cr_factors r) = 32%nat) order ->
  let new := map (expand_candidate current_a a_factors) (List.filter has_hints order) in
  let st' := clampCounterKernel cap (expandAndAccumulateKernel current_a a_factors cap order st) in
  ac_counter st' = Z.min cap (ac_counter st + Z.of_nat (length new)) /\
  take (Z.to_nat (ac_counter st')) (ac_buffer st') = take (Z.to_nat cap) (take (Z.to_nat (ac_counter st)) (ac_buffer st) ++ new) /\
  Forall (fun r => has_hints r = true ->
    let c := expand_candidate current_a a_factors r in
    StronglySorted Z.le (dc_factor_indices c) /\ dc_num_factors c = Z.of_nat (length (dc_factor_indices c)) /\ dc_num_factors c <= 48 /\
    (Z.of_nat (length a_factors) + cr_num_factors r <= 48 ->
       dc_factor_indices c ≡ₚ a_factors ++ take (Z.to_nat (cr_num_factors r)) (cr_factors r))) order.
Proof.
  intros Hb H0 Hlt Ha Hlen new st'. destruct (clamped_kernel_spec current_a a_factors cap ltac:(lia) order st Hb H0 Hlt) as (K1 & K2 & K3).
  split; [exact K1|]. split; [exact K3|]. eapply Forall_impl; [exact Hlen|]. intros r Hr Hh c.
  destruct (expand_candidate_spec current_a a_factors r Hh Hr) as (E1 & E2 & [d E3] & E4). fold c in E1, E2, E3, E4.
  split; [by apply E4|]. split; [exact E1|]. split; [lia|]. intros Hroom. unfold has_hints in Hh. apply andb_true_iff in Hh as [Hn%Z.ltb_lt _].
  assert (d = []) as ->; [|by rewrite app_nil_r in E3].
  pose proof (Permutation_length E3) as El. rewrite !length_app, E2, !length_take, Hr in El. destruct d; [done|cbn [length] in El; lia].
Qed.

Lemma accumulation_exact_witness :
  let st' := clampCounterKernel 2 (expandAndAccumulateKernel (u512_of_Z 3) [2] 2 [ex_hit 13; mkCandidate (u512_of_Z 4) 0 0 (replicate 32 0); ex_hit 14; ex_hit 15]
    (mkAccumulation [ex_partial; ex_partial] 0)) in
  ac_counter st' = 2 /\ map dc_true_x (ac_buffer st') = [13; 14].
Proof.
  pose proof (accumulation_exact (u512_of_Z 3) [2] 2 [ex_hit 13; mkCandidate (u512_of_Z 4) 0 0 (replicate 32 0); ex_hit 14; ex_hit 15]
    (mkAccumulation [ex_partial; ex_partial] 0) eq_refl ltac:(cbn; lia) ltac:(cbn; lia) ltac:(by repeat constructor) ltac:(by repeat constructor)) as (H1 & H2 & _).
  cbv zeta. split; [exact H1|]. rewrite H1 in H2. apply (f_equal (map dc_true_x)) in H2. exact H2.
Defined.
