(* ===== verification/WarpAppend.v ===== *)
(** The concurrent append of relations to a device batch ([append_to_soa] of
    [src/src/postprocessing/postprocessing.cu]): the warp scans, the reservation by
    compare-and-swap on the packed dual counter, and the stores. The kernel is a step relation
    over warps; every single store is a step of its own, so that the stores of different threads
    interleave freely. *)
From Stdlib Require Import ZArith Lia.
From stdpp Require Import base gmap sets list relations.
From S2P Require Import Prelude Soa Gf2.
#[local] Open Scope Z_scope.

(** ** The packed dual counter *)

Definition pack_rf (R F : Z) : Z := Z.lor (wrap 64 (Z.shiftl R 32)) F.
Definition unpack_r (x : Z) : Z := wrap 32 (Z.shiftr x 32).
Definition unpack_f (x : Z) : Z := wrap 32 (Z.land x 0xFFFFFFFF).

(** ** Views and stores *)

(** [RelationBatchView]: its bounds; the arrays and the two global counters are those of the batch in the state. *)
Record RelationBatchView := mkView { max_relations : Z; max_factors : Z; view_target_cap : Z }.

Inductive array := ASqrtQ | ASigns | AVal2 | ALargePrimes | ACharBits | AOffsets | AIndices | ACounts.

#[global] Instance array_eq_dec : EqDecision array.
Proof. solve_decision. Defined.

Definition cells (b : HostRelationBatch) (a : array) : list Z :=
  match a with
  | ASqrtQ => sqrt_Q b | ASigns => signs b | AVal2 => val_2_exps b | ALargePrimes => large_primes b
  | ACharBits => char_bits b | AOffsets => factor_offsets b | AIndices => factor_indices b | ACounts => factor_counts b
  end.

Definition set_cells (b : HostRelationBatch) (a : array) (l : list Z) : HostRelationBatch :=
  let 'mkBatch sq sg v2 lp ch off ind cnt nr nf := b in
  match a with
  | ASqrtQ => mkBatch l sg v2 lp ch off ind cnt nr nf
  | ASigns => mkBatch sq l v2 lp ch off ind cnt nr nf
  | AVal2 => mkBatch sq sg l lp ch off ind cnt nr nf
  | ALargePrimes => mkBatch sq sg v2 l ch off ind cnt nr nf
  | ACharBits => mkBatch sq sg v2 lp l off ind cnt nr nf
  | AOffsets => mkBatch sq sg v2 lp ch l ind cnt nr nf
  | AIndices => mkBatch sq sg v2 lp ch off l cnt nr nf
  | ACounts => mkBatch sq sg v2 lp ch off ind l nr nf
  end.

(** The entries an array has for [nr] relations with [nf] factors. *)
Definition extent (a : array) (nr nf : Z) : Z :=
  match a with AOffsets => nr + 1 | AIndices | ACounts => nf | _ => nr end.

(** One store [array[i] = v]. *)
Record store := mkStore { st_array : array; st_index : Z; st_value : Z }.

Definition apply_store (b : HostRelationBatch) (s : store) : HostRelationBatch :=
  set_cells b (st_array s) (<[Z.to_nat (st_index s) := st_value s]> (cells b (st_array s))).

(** ** The warp scans *)

(** [__ballot_sync]: bit [l] is the predicate of lane [l]. *)
Fixpoint ballot (preds : list bool) : Z :=
  match preds with
  | [] => 0
  | p :: preds' => Z.b2z p + 2 * ballot preds'
  end.

Definition popc (mask : Z) : Z := Z.of_nat (length (List.filter (Z.testbit mask) (upto 32))).

(** One round of the Kogge-Stone scan: lane [l >= i] adds the value of lane [l - i]. *)
Definition scan_round (i : nat) (vals : list Z) : list Z :=
  imap (fun l v => if (i <=? l)%nat then wrap 32 (v + nth (l - i) vals 0) else v) vals.

Definition kogge_stone (vals : list Z) : list Z := foldl (fun v i => scan_round i v) vals [1; 2; 4; 8; 16]%nat.

(** A lane of the warp: the relation of a thread whose predicate holds. *)
Definition lane := option relation.

Definition predicate (o : lane) : bool := match o with Some _ => true | None => false end.
Definition lane_factors (o : lane) : Z := match o with Some r => Z.of_nat (length (r_factors r)) | None => 0 end.

(** [total_rels_warp] and [total_factors_warp], the latter read from the highest active lane. *)
Definition total_rels (lanes : list lane) : Z := popc (ballot (map predicate lanes)).
Definition total_factors (lanes : list lane) : Z := nth (length lanes - 1) (kogge_stone (map lane_factors lanes)) 0.

(** ** The reservation *)

(** One round of the leader's loop on the value [old] it read: the bases and the value to install, or the sentinel. *)
Definition reserve (v : RelationBatchView) (dR dF old : Z) : option (Z * Z * Z) :=
  let R := wrap 32 (Z.shiftr old 32) in
  let F := wrap 32 (Z.land old 0xFFFFFFFF) in
  if (0 <? view_target_cap v) && (view_target_cap v <=? R) then None
  else if max_relations v <? wrap 32 (R + dR) then None
  else Some (R, F, pack_rf (wrap 32 (R + dR)) (wrap 32 (F + dF))).

(** ** The stores of a warp *)

Definition relation_stores (R F : Z) (r : relation) : list store :=
  [mkStore ASqrtQ R (r_sqrt_Q r); mkStore ASigns R (r_sign r); mkStore AVal2 R (r_val2 r); mkStore ALargePrimes R (r_lp r);
   mkStore ACharBits R (r_char r); mkStore AOffsets R F; mkStore AOffsets (R + 1) (F + Z.of_nat (length (r_factors r)))]
  ++ imap (fun i f => mkStore AIndices (F + Z.of_nat i) f.1) (r_factors r)
  ++ imap (fun i f => mkStore ACounts (F + Z.of_nat i) f.2) (r_factors r).

(** The thread of lane [l], given the bases. *)
Definition lane_stores (v : RelationBatchView) (lanes : list lane) (base_rel_idx base_factor_idx : Z) (l : nat) (o : lane) : list store :=
  match o with
  | None => []
  | Some r =>
      let my_rel_rank := popc (Z.land (ballot (map predicate lanes)) (Z.shiftl 1 (Z.of_nat l) - 1)) in
      let my_factor_offset := wrap 32 (nth l (kogge_stone (map lane_factors lanes)) 0 - lane_factors o) in
      let my_global_rel_idx := base_rel_idx + my_rel_rank in
      let my_global_factor_start := base_factor_idx + my_factor_offset in
      if max_relations v <=? my_global_rel_idx then []
      else if max_factors v <? my_global_factor_start + Z.of_nat (length (r_factors r)) then []
      else relation_stores my_global_rel_idx my_global_factor_start r
  end.

Definition warp_stores (v : RelationBatchView) (lanes : list lane) (base_rel_idx base_factor_idx : Z) : list store :=
  concat (imap (lane_stores v lanes base_rel_idx base_factor_idx) lanes).

(** ** The kernel as a step relation *)

(** The arrays, the dual counter, the warps that have not reserved yet - each with the value its leader last read - and the stores that
    have not reached memory yet. [as_accepted] lists the relations of the successful reservations in their order, [as_dropped] the others. *)
Record append_state := mkAppend {
  as_batch : HostRelationBatch;
  as_dual : Z;
  as_waiting : list (list lane * option Z);
  as_pending : list store;
  as_accepted : list relation;
  as_dropped : list relation
}.

Section kernel.
Context (v : RelationBatchView).

Inductive append_step : append_state -> append_state -> Prop :=
  | step_idle b d w1 w2 lanes p acc dr :
      (** no lane has data: the warp returns *)
      ballot (map predicate lanes) = 0 ->
      append_step (mkAppend b d (w1 ++ (lanes, None) :: w2) p acc dr) (mkAppend b d (w1 ++ w2) p acc dr)
  | step_load b d w1 w2 lanes p acc dr :
      (** [old = atomicAdd(dual_counter, 0)] *)
      ballot (map predicate lanes) <> 0 ->
      append_step (mkAppend b d (w1 ++ (lanes, None) :: w2) p acc dr) (mkAppend b d (w1 ++ (lanes, Some d) :: w2) p acc dr)
  | step_skip b d w1 w2 lanes old p acc dr :
      (** the cap or the capacity is reached in the value read *)
      reserve v (total_rels lanes) (total_factors lanes) old = None ->
      append_step (mkAppend b d (w1 ++ (lanes, Some old) :: w2) p acc dr) (mkAppend b d (w1 ++ w2) p acc (dr ++ omap id lanes))
  | step_retry b d w1 w2 lanes old p acc dr r :
      (** [atomicCAS] fails and returns the present value *)
      reserve v (total_rels lanes) (total_factors lanes) old = Some r -> d <> old ->
      append_step (mkAppend b d (w1 ++ (lanes, Some old) :: w2) p acc dr) (mkAppend b d (w1 ++ (lanes, Some d) :: w2) p acc dr)
  | step_reserve b d w1 w2 lanes p acc dr R F desired :
      (** [atomicCAS] succeeds *)
      reserve v (total_rels lanes) (total_factors lanes) d = Some (R, F, desired) ->
      append_step (mkAppend b d (w1 ++ (lanes, Some d) :: w2) p acc dr)
        (mkAppend b desired (w1 ++ w2) (p ++ warp_stores v lanes R F) (acc ++ omap id lanes) dr)
  | step_store b d w p1 p2 s acc dr :
      (** any outstanding store reaches memory *)
      append_step (mkAppend b d w (p1 ++ s :: p2) acc dr) (mkAppend (apply_store b s) d w (p1 ++ p2) acc dr).

End kernel.

Definition append_start (b : HostRelationBatch) (dual : Z) (warps : list (list lane)) : append_state :=
  mkAppend b dual (map (fun w => (w, None)) warps) [] [] [].

Definition finished (st : append_state) : Prop := as_waiting st = [] /\ as_pending st = [].

(** [commit_dual_counter_kernel] and [sync_dual_counter_from_batch_kernel]. *)
Definition set_counts (b : HostRelationBatch) (nr nf : Z) : HostRelationBatch :=
  mkBatch (sqrt_Q b) (signs b) (val_2_exps b) (large_primes b) (char_bits b) (factor_offsets b) (factor_indices b) (factor_counts b) nr nf.

Definition commit_dual_counter_kernel (dual : Z) (b : HostRelationBatch) : HostRelationBatch := set_counts b (unpack_r dual) (unpack_f dual).

Definition sync_dual_counter_from_batch_kernel (b : HostRelationBatch) : Z := pack_rf (wrap 32 (num_relations b)) (wrap 32 (num_factors b)).

(** A scheduler: the warps one after the other, each with its stores. *)
Definition append_warp (v : RelationBatchView) (st : HostRelationBatch * Z) (lanes : list lane) : HostRelationBatch * Z :=
  let '(b, d) := st in
  if ballot (map predicate lanes) =? 0 then st
  else match reserve v (total_rels lanes) (total_factors lanes) d with
       | None => st
       | Some (R, F, desired) => (foldl apply_store b (warp_stores v lanes R F), desired)
       end.

(** ** Vocabulary and examples *)

Definition rels_of (lanes : list lane) : list relation := omap id lanes.

(** Everything the warps offer. *)
Definition offered (warps : list (list lane)) : list relation := concat (map rels_of warps).

(** A warp: at most 32 active lanes, contiguous from lane 0, each relation within the kernel's 64 local factors. *)
Definition warp_ok (lanes : list lane) : Prop := (length lanes <= 32)%nat /\ Forall (fun r => (length (r_factors r) <= 64)%nat) (rels_of lanes).

Definition nfac (rs : list relation) : Z := Z.of_nat (length (all_factors rs)).

(** The arrays have the capacity of the view. *)
Definition allocated (v : RelationBatchView) (b : HostRelationBatch) : Prop :=
  forall a, Z.of_nat (length (cells b a)) = extent a (max_relations v) (max_factors v).

Definition ex_view : RelationBatchView := mkView 4 8 3.
Definition ex_store : HostRelationBatch :=
  mkBatch (replicate 4 7) (replicate 4 7) (replicate 4 7) (replicate 4 7) (replicate 4 7) (0 :: replicate 4 7) (replicate 8 7) (replicate 8 7) 0 0.
Definition ex_rel (k : Z) (n : nat) : relation := mkRel k 1 0 1 0 (replicate n (k, 1)).
Definition ex_warps : list (list lane) := [[None; Some (ex_rel 1 2); Some (ex_rel 2 1)]; [None; None]; [Some (ex_rel 3 3)]; [Some (ex_rel 4 1)]].

Example ex_scan : kogge_stone [3; 1; 4; 1; 5] = [3; 4; 8; 9; 14].
Proof. by vm_compute. Qed.

(** The third warp fills the batch to the target cap, the fourth is discarded. *)
Example ex_append :
  let '(b, d) := foldl (append_warp ex_view) (ex_store, 0) ex_warps in
  relations (commit_dual_counter_kernel d b) = [ex_rel 1 2; ex_rel 2 1; ex_rel 3 3].
Proof. by vm_compute. Qed.

(** A relation that does not fit the factor arrays is counted all the same: the committed batch holds what the slot held before. *)
Example ex_counted_not_stored :
  let '(b, d) := foldl (append_warp (mkView 4 3 0)) (ex_store, 0) [[Some (ex_rel 1 2)]; [Some (ex_rel 2 2)]] in
  num_relations (commit_dual_counter_kernel d b) = 2 /\ map (idx (sqrt_Q b)) [0; 1] = [1; 7].
Proof. by vm_compute. Qed.

(** ** Vocabulary of the specifications *)

Definition count (preds : list bool) : Z := Z.of_nat (length (List.filter id preds)).

(** Sums over a window of [w] lanes. *)
Definition window (vals : list Z) (w l : nat) : Z := zsum (take (S l) vals) - zsum (take (S l - w) vals).

Fixpoint stores_from (R F : Z) (rs : list relation) : list store :=
  match rs with
  | [] => []
  | r :: rs' => relation_stores R F r ++ stores_from (R + 1) (F + Z.of_nat (length (r_factors r))) rs'
  end.

(** A store is a cell of the batch that holds exactly [rs]. *)
Definition is_cell (rs : list relation) (s : store) : Prop :=
  0 <= st_index s /\ cells (batch_of rs) (st_array s) !! Z.to_nat (st_index s) = Some (st_value s).

(** A cell of memory holds the value of the store. *)
Definition holds_store (b : HostRelationBatch) (s : store) : Prop := cells b (st_array s) !! Z.to_nat (st_index s) = Some (st_value s).

(** What a relation adds to each array. *)
Definition extension (F : Z) (r : relation) (a : array) : list Z :=
  match a with
  | ASqrtQ => [r_sqrt_Q r] | ASigns => [r_sign r] | AVal2 => [r_val2 r] | ALargePrimes => [r_lp r] | ACharBits => [r_char r]
  | AOffsets => [F + Z.of_nat (length (r_factors r))] | AIndices => map fst (r_factors r) | ACounts => map snd (r_factors r)
  end.

(** ** The scans *)

Lemma ballot_testbit preds i : 0 <= i -> Z.testbit (ballot preds) i = nth (Z.to_nat i) preds false.
Proof.
  revert i. induction preds as [|p preds IH]; intros i Hi; cbn [ballot].
  { rewrite Z.bits_0. by destruct (Z.to_nat i). }
  destruct (Z.eq_dec i 0) as [->|].
  - rewrite Z.add_comm, Z.testbit_0_r. done.
  - replace i with (Z.succ (i - 1)) at 1 by lia. rewrite Z.add_comm, Z.testbit_succ_r, IH by lia.
    replace (Z.to_nat i) with (S (Z.to_nat (i - 1))) by lia. done.
Qed.

Lemma ballot_nonneg preds : 0 <= ballot preds.
Proof. induction preds as [|p preds IH]; cbn [ballot]; [done|]. destruct p; cbn; lia. Qed.

Lemma filter_over_map {A B} (f : A -> B) (P : B -> bool) l : List.filter P (map f l) = map f (List.filter (fun x => P (f x)) l).
Proof. induction l as [|x l IH]; cbn; [done|]. rewrite IH. by destruct (P (f x)). Qed.

Lemma count_positions preds n :
  (length preds <= n)%nat -> length (List.filter (fun i => nth i preds false) (seq 0 n)) = length (List.filter id preds).
Proof.
  revert n. induction preds as [|p preds IH]; intros n Hn.
  { rewrite (filter_ext_in _ (fun _ => false)); [by rewrite List.filter_false|]. intros i _. by destruct i. }
  destruct n as [|n]; [cbn in Hn; lia|]. cbn [length] in Hn. cbn [seq]. rewrite <- seq_shift.
  pose proof (IH n ltac:(lia)) as E. cbn [List.filter nth]. rewrite filter_over_map. cbn [nth]. change (id p) with p.
  destruct p; cbn [length]; rewrite length_map, E; done.
Qed.

Lemma popc_count mask preds :
  (length preds <= 32)%nat -> (forall i, 0 <= i < 32 -> Z.testbit mask i = nth (Z.to_nat i) preds false) -> popc mask = count preds.
Proof.
  intros Hl Hb. unfold popc, count, upto. rewrite filter_over_map, length_map. f_equal. rewrite <- (count_positions preds 32 Hl). f_equal.
  apply filter_ext_in. intros i Hi%in_seq. rewrite Hb by lia. by rewrite Nat2Z.id.
Qed.

Lemma total_rels_spec lanes : (length lanes <= 32)%nat -> total_rels lanes = Z.of_nat (length (rels_of lanes)).
Proof.
  intros Hl. unfold total_rels. rewrite (popc_count _ (map predicate lanes)); [|by rewrite length_map|intros i Hi; apply ballot_testbit; lia].
  unfold count. f_equal. unfold rels_of. clear Hl. induction lanes as [|[r|] lanes IH]; cbn; [done|f_equal; done|done].
Qed.

Lemma rank_spec lanes l :
  (length lanes <= 32)%nat -> (l <= length lanes)%nat ->
  popc (Z.land (ballot (map predicate lanes)) (Z.shiftl 1 (Z.of_nat l) - 1)) = Z.of_nat (length (rels_of (take l lanes))).
Proof.
  intros Hl Hi. rewrite (popc_count _ (map predicate (take l lanes))).
  - unfold count. f_equal. unfold rels_of. clear. generalize (take l lanes). intros k. induction k as [|[r|] k IH]; cbn; [done|f_equal; done|done].
  - rewrite length_map, length_take. lia.
  - intros i Hi'. rewrite Z.land_spec, ballot_testbit by lia. rewrite <- firstn_map, nth_firstn.
    replace (Z.shiftl 1 (Z.of_nat l) - 1) with (Z.ones (Z.of_nat l)) by (rewrite Z.ones_equiv, Z.shiftl_1_l; lia). rewrite Z.testbit_ones_nonneg by lia.
    destruct (Z.ltb_spec i (Z.of_nat l)), (Nat.ltb_spec (Z.to_nat i) l); try lia; by rewrite ?andb_true_r, ?andb_false_r.
Qed.

Lemma no_relation lanes : ballot (map predicate lanes) = 0 <-> rels_of lanes = [].
Proof.
  induction lanes as [|[r|] lanes IH]; cbn [map ballot predicate rels_of omap list_omap id] in *; [done| |].
  - pose proof (ballot_nonneg (map predicate lanes)). cbn. split; [lia|done].
  - cbn. rewrite <- IH. lia.
Qed.

Lemma scan_round_spec vals vs w :
  length vs = length vals -> (0 < w)%nat -> (forall l, (l < length vals)%nat -> vs !! l = Some (wrap 32 (window vals w l))) ->
  length (scan_round w vs) = length vals /\
  (forall l, (l < length vals)%nat -> scan_round w vs !! l = Some (wrap 32 (window vals (2 * w) l))).
Proof.
  intros Hlen Hw Hvs. unfold scan_round. split; [by rewrite length_imap|]. intros l Hl.
  rewrite list_lookup_imap, (Hvs l Hl). cbn [fmap option_fmap option_map]. f_equal. unfold window. destruct (Nat.leb_spec w l).
  - rewrite (nth_lookup_Some _ _ _ _ (Hvs (l - w)%nat ltac:(lia))). unfold window, wrap. rewrite <- Z.add_mod by lia. f_equal.
    replace (S (l - w)) with (S l - w)%nat by lia. replace (S l - w - w)%nat with (S l - 2 * w)%nat by lia. lia.
  - replace (S l - w)%nat with 0%nat by lia. by replace (S l - 2 * w)%nat with 0%nat by lia.
Qed.

Lemma zsum_take_S (vals : list Z) l x : vals !! l = Some x -> zsum (take (S l) vals) = zsum (take l vals) + x.
Proof. intros H. rewrite (take_S_r _ _ _ H), zsum_app. cbn. lia. Qed.

Lemma kogge_stone_spec vals :
  (length vals <= 32)%nat -> Forall (in_width 32) vals ->
  length (kogge_stone vals) = length vals /\
  (forall l, (l < length vals)%nat -> kogge_stone vals !! l = Some (wrap 32 (zsum (take (S l) vals)))).
Proof.
  intros Hl Hv. assert (length vals = length vals /\ (forall l, (l < length vals)%nat -> vals !! l = Some (wrap 32 (window vals 1 l)))) as [L0 H0].
  { split; [done|]. intros l Hlt. destruct (lookup_lt_is_Some_2 vals l Hlt) as [x Hx]. unfold window. rewrite (zsum_take_S _ _ _ Hx), Hx.
    replace (S l - 1)%nat with l by lia. f_equal. rewrite Z.add_simpl_l. symmetry. apply wrap_small. by apply (Forall_lookup_1 _ _ _ _ Hv Hx). }
  unfold kogge_stone. cbn [foldl].
  destruct (scan_round_spec vals vals 1 L0 ltac:(lia) H0) as [L1 H1]. destruct (scan_round_spec vals _ 2 L1 ltac:(lia) H1) as [L2 H2].
  destruct (scan_round_spec vals _ 4 L2 ltac:(lia) H2) as [L3 H3]. destruct (scan_round_spec vals _ 8 L3 ltac:(lia) H3) as [L4 H4].
  destruct (scan_round_spec vals _ 16 L4 ltac:(lia) H4) as [L5 H5]. split; [exact L5|]. intros l Hlt. rewrite (H5 l Hlt). do 2 f_equal.
  unfold window. replace (S l - 2 * 16)%nat with 0%nat by lia. rewrite take_0. change (zsum []) with 0. lia.
Qed.

(** ** The stores of a warp are those of consecutive relations *)

Lemma lane_factors_sum lanes : zsum (map lane_factors lanes) = nfac (rels_of lanes).
Proof.
  unfold nfac, rels_of. induction lanes as [|[r|] lanes IH]; cbn [map omap list_omap id lane_factors]; [done| |]; rewrite zsum_cons, IH.
  - cbn. rewrite length_app. unfold all_factors. lia.
  - done.
Qed.

Lemma nfac_app rs1 rs2 : nfac (rs1 ++ rs2) = nfac rs1 + nfac rs2.
Proof. unfold nfac. rewrite all_factors_app, length_app. lia. Qed.

Lemma nfac_nonneg rs : 0 <= nfac rs.
Proof. unfold nfac. lia. Qed.

Lemma nfac_bound lanes : warp_ok lanes -> nfac (rels_of lanes) <= 2048.
Proof.
  intros [Hl Hf]. assert (length (rels_of lanes) <= 32)%nat as Hn.
  { transitivity (length lanes); [|done]. unfold rels_of. clear. induction lanes as [|[r|] l IH]; cbn; lia. }
  assert (nfac (rels_of lanes) <= 64 * Z.of_nat (length (rels_of lanes))); [|lia]. clear Hn Hl.
  induction Hf as [|r rs Hr Hf IH]; [done|]. unfold nfac in *. rewrite all_factors_cons, length_app. cbn [length]. lia.
Qed.

Lemma rels_of_take lanes n : exists rest, rels_of lanes = rels_of (take n lanes) ++ rest.
Proof. exists (rels_of (drop n lanes)). unfold rels_of. rewrite <- omap_app. by rewrite take_drop. Qed.

Section warp.
Context (v : RelationBatchView) (lanes : list lane) (Hok : warp_ok lanes).

Lemma lane_factors_width : Forall (in_width 32) (map lane_factors lanes).
Proof using Hok.
  apply Forall_map, Forall_forall. intros [r|] Hin; unfold in_width; cbn; [|lia]. destruct Hok as [_ Hf].
  rewrite Forall_forall in Hf. specialize (Hf r). assert (r ∈ rels_of lanes) as Hr by (apply list_elem_of_omap; eauto). specialize (Hf Hr). lia.
Qed.

Lemma scan_spec l : (l < length lanes)%nat -> nth l (kogge_stone (map lane_factors lanes)) 0 = nfac (rels_of (take (S l) lanes)).
Proof using Hok.
  intros Hl. destruct (kogge_stone_spec (map lane_factors lanes)) as [_ H]; [rewrite length_map; apply Hok|apply lane_factors_width|].
  rewrite (nth_lookup_Some _ _ _ _ (H l ltac:(by rewrite length_map))), firstn_map, lane_factors_sum. apply wrap_small.
  destruct (rels_of_take lanes (S l)) as [rest E]. pose proof (nfac_bound lanes Hok) as Hb. rewrite E, nfac_app in Hb.
  pose proof (nfac_nonneg rest). pose proof (nfac_nonneg (rels_of (take (S l) lanes))). unfold in_width. lia.
Qed.

Lemma total_factors_spec : total_factors lanes = nfac (rels_of lanes).
Proof using Hok.
  unfold total_factors. destruct (decide (length lanes = 0%nat)) as [E|E].
  - destruct lanes; [done|done].
  - rewrite scan_spec by lia. by rewrite take_ge by lia.
Qed.

(** The lanes from position [length pre] on write the relations they hold one after the other. *)
Lemma suffix_stores R F pre suf :
  lanes = pre ++ suf -> R + Z.of_nat (length (rels_of lanes)) <= max_relations v -> F + nfac (rels_of lanes) <= max_factors v ->
  concat (imap (fun l o => lane_stores v lanes R F (length pre + l) o) suf)
  = stores_from (R + Z.of_nat (length (rels_of pre))) (F + nfac (rels_of pre)) (rels_of suf).
Proof using Hok.
  intros E HR HF. revert pre E. induction suf as [|o suf IH]; intros pre E; [done|].
  assert (rels_of lanes = rels_of pre ++ rels_of (o :: suf)) as Er by (rewrite E; apply omap_app).
  assert (length pre < length lanes)%nat as Hlt by (rewrite E, length_app; cbn; lia).
  assert (rels_of (pre ++ [o]) = rels_of pre ++ rels_of [o]) as Eo by apply omap_app.
  cbn [imap concat]. rewrite Nat.add_0_r. specialize (IH (pre ++ [o]) ltac:(by rewrite <- app_assoc)).
  assert (concat (imap ((fun l o0 => lane_stores v lanes R F (length pre + l) o0) ∘ S) suf)
    = concat (imap (fun l o0 => lane_stores v lanes R F (length (pre ++ [o]) + l) o0) suf)) as ->.
  { f_equal. apply imap_ext. intros i x _. cbn. f_equal. rewrite length_app. cbn. lia. }
  rewrite IH. destruct o as [r|]; cbn [lane_stores].
  2: { rewrite Eo. cbn. by rewrite app_nil_r. }
  rewrite rank_spec by (apply Hok || lia). rewrite scan_spec by done.
  assert (take (length pre) lanes = pre) as -> by (rewrite E; apply take_app_length).
  assert (take (S (length pre)) lanes = pre ++ @cons lane (Some r) []) as ->.
  { rewrite E. rewrite (take_S_r _ _ (Some r)), take_app_length; [done|]. by apply list_lookup_middle. }
  rewrite Er in HR, HF. rewrite nfac_app in HF. rewrite length_app in HR. rewrite Eo, nfac_app, length_app.
  assert (rels_of (@cons lane (Some r) []) = [r]) as E1 by done. assert (rels_of (@cons lane (Some r) suf) = r :: rels_of suf) as E2 by done. rewrite E1. rewrite E2 in *.
  change (r :: rels_of suf) with ([r] ++ rels_of suf) in HF. rewrite nfac_app in HF. pose proof (nfac_nonneg (rels_of suf)) as Hn.
  assert (nfac [r] = Z.of_nat (length (r_factors r))) as Er1 by (unfold nfac; cbn; by rewrite app_nil_r). rewrite Er1 in *.
  cbn [lane_factors length] in *. rewrite wrap_small.
  2: { pose proof (nfac_bound lanes Hok) as Hb. rewrite Er, nfac_app in Hb. pose proof (nfac_nonneg (rels_of pre)). pose proof (nfac_nonneg (r :: rels_of suf)). unfold in_width. lia. }
  destruct (Z.leb_spec (max_relations v) (R + Z.of_nat (length (rels_of pre)))); [lia|].
  rewrite Z.add_simpl_r. destruct (Z.ltb_spec (max_factors v) (F + nfac (rels_of pre) + Z.of_nat (length (r_factors r)))); [lia|].
  cbn [stores_from]. f_equal. f_equal; lia.
Qed.

Lemma warp_stores_spec R F :
  R + Z.of_nat (length (rels_of lanes)) <= max_relations v -> F + nfac (rels_of lanes) <= max_factors v ->
  warp_stores v lanes R F = stores_from R F (rels_of lanes).
Proof using Hok.
  intros HR HF. unfold warp_stores. pose proof (suffix_stores R F [] lanes eq_refl HR HF) as H. cbn in H. rewrite !Z.add_0_r in H. exact H.
Qed.

End warp.

(** ** Cells and stores *)

Lemma cells_snoc rs r a : cells (batch_of (rs ++ [r])) a = cells (batch_of rs) a ++ extension (nfac rs) r a.
Proof.
  destruct a; cbn [cells batch_of sqrt_Q signs val_2_exps large_primes char_bits factor_offsets factor_indices factor_counts extension];
    rewrite ?all_factors_app, ?map_app; try done.
  - cbn [map]. rewrite offsets_from_snoc. done.
  - f_equal. cbn. by rewrite app_nil_r.
  - f_equal. cbn. by rewrite app_nil_r.
Qed.

Lemma cells_length rs a :
  length (cells (batch_of rs) a)
  = match a with AOffsets => S (length rs) | AIndices | ACounts => length (all_factors rs) | _ => length rs end.
Proof. destruct a; cbn; rewrite ?length_offsets_from, ?length_map; done. Qed.

Lemma cells_last_offset rs : cells (batch_of rs) AOffsets !! length rs = Some (nfac rs).
Proof.
  destruct (nth_lookup_or_length (cells (batch_of rs) AOffsets) (length rs) 0) as [E|E]; [rewrite E; f_equal|rewrite cells_length in E; lia].
  cbn. rewrite offsets_from_lookup by (rewrite length_map; lia). rewrite take_ge by (rewrite length_map; lia). done.
Qed.

Lemma imap_store a F (f : Z * Z -> Z) l s :
  0 <= F -> s ∈ imap (fun i x => mkStore a (F + Z.of_nat i) (f x)) l <->
  st_array s = a /\ F <= st_index s /\ map f l !! Z.to_nat (st_index s - F) = Some (st_value s).
Proof.
  intros HF. rewrite elem_of_lookup_imap. split.
  - intros (i & x & -> & Hi). cbn. split; [done|]. split; [lia|]. replace (Z.to_nat (F + Z.of_nat i - F)) with i by lia.
    rewrite list_lookup_fmap, Hi. done.
  - destruct s as [a' i v]. cbn. intros (-> & Hi & Hv). rewrite list_lookup_fmap in Hv. apply fmap_Some in Hv as (x & Hx & ->).
    exists (Z.to_nat (i - F)), x. split; [|done]. f_equal. lia.
Qed.

(** The stores of one more relation are its new cells, and the offset cell it shares with its predecessor. *)
Lemma relation_stores_cells rs r s :
  s ∈ relation_stores (Z.of_nat (length rs)) (nfac rs) r -> is_cell (rs ++ [r]) s.
Proof.
  unfold relation_stores, is_cell. pose proof (nfac_nonneg rs) as Hn. rewrite cells_snoc, !elem_of_app.
  intros [Hs|[Hs|Hs]].
  - repeat (apply elem_of_cons in Hs as [->|Hs]); [..|by apply not_elem_of_nil in Hs]; cbn [st_array st_index st_value]; (split; [lia|]).
    all: try (rewrite lookup_app_r, cells_length, Nat2Z.id, Nat.sub_diag by (rewrite cells_length; lia); done).
    + rewrite lookup_app_l by (rewrite cells_length; lia). rewrite Nat2Z.id. apply cells_last_offset.
    + rewrite lookup_app_r by (rewrite cells_length; lia). rewrite cells_length. replace (_ - _)%nat with 0%nat by lia. done.
  - apply imap_store in Hs as (Ha & Hi & Hv); [|done]. rewrite Ha. split; [lia|]. rewrite lookup_app_r, cells_length by (rewrite cells_length; unfold nfac in *; lia).
    rewrite <- Hv. cbn [extension]. f_equal. unfold nfac in *. lia.
  - apply imap_store in Hs as (Ha & Hi & Hv); [|done]. rewrite Ha. split; [lia|]. rewrite lookup_app_r, cells_length by (rewrite cells_length; unfold nfac in *; lia).
    rewrite <- Hv. cbn [extension]. f_equal. unfold nfac in *. lia.
Qed.

Lemma new_cells_stored rs r s :
  is_cell (rs ++ [r]) s -> is_cell rs s \/ s ∈ relation_stores (Z.of_nat (length rs)) (nfac rs) r.
Proof.
  intros [H0 H]. rewrite cells_snoc in H. apply lookup_app_Some in H as [H|[Hge H]]; [by left|right].
  rewrite cells_length in Hge, H. destruct s as [a i v]. cbn [st_array st_index st_value] in *. unfold relation_stores. rewrite !elem_of_app.
  assert (forall (x : Z) k, [x] !! k = Some v -> v = x /\ k = 0%nat) as H1.
  { intros x k Hk. apply list_lookup_singleton_Some in Hk as [-> ->]. done. }
  destruct a; cbn [extension] in H.
  1-5: left; apply H1 in H as [-> E]; replace i with (Z.of_nat (length rs)) by lia; set_solver.
  - left. apply H1 in H as [-> E]. replace i with (Z.of_nat (length rs) + 1) by lia. set_solver.
  - right. left. apply imap_store; [apply nfac_nonneg|]. cbn. split; [done|]. unfold nfac. split; [lia|]. rewrite <- H. f_equal. lia.
  - right. right. apply imap_store; [apply nfac_nonneg|]. cbn. split; [done|]. unfold nfac. split; [lia|]. rewrite <- H. f_equal. lia.
Qed.

Lemma is_cell_app rs new s : is_cell rs s -> is_cell (rs ++ new) s.
Proof.
  revert rs. induction new as [|r new IH]; intros rs Hs; [by rewrite app_nil_r|].
  replace (rs ++ r :: new) with ((rs ++ [r]) ++ new) by (by rewrite <- app_assoc). apply IH. destruct Hs as [H0 Hs]. split; [done|].
  rewrite cells_snoc. by apply lookup_app_l_Some.
Qed.

Lemma stores_from_cells rs new s :
  s ∈ stores_from (Z.of_nat (length rs)) (nfac rs) new -> is_cell (rs ++ new) s.
Proof.
  revert rs. induction new as [|r new IH]; intros rs Hs; [by apply not_elem_of_nil in Hs|].
  replace (rs ++ r :: new) with ((rs ++ [r]) ++ new) by (by rewrite <- app_assoc). cbn [stores_from] in Hs.
  apply elem_of_app in Hs as [Hs|Hs]; [by apply is_cell_app, relation_stores_cells|]. apply IH.
  rewrite nfac_app, length_app. cbn [length]. unfold nfac at 2. cbn. rewrite app_nil_r.
  by replace (Z.of_nat (length rs + 1)) with (Z.of_nat (length rs) + 1) by lia.
Qed.

Lemma stores_from_complete rs new s :
  is_cell (rs ++ new) s -> is_cell rs s \/ s ∈ stores_from (Z.of_nat (length rs)) (nfac rs) new.
Proof.
  revert rs. induction new as [|r new IH]; intros rs Hs; [left; by rewrite app_nil_r in Hs|].
  replace (rs ++ r :: new) with ((rs ++ [r]) ++ new) in Hs by (by rewrite <- app_assoc). cbn [stores_from]. rewrite elem_of_app.
  apply IH in Hs as [Hs|Hs]; [apply new_cells_stored in Hs; tauto|]. right. right.
  rewrite nfac_app, length_app in Hs. cbn [length] in Hs. unfold nfac in Hs at 2. cbn in Hs. rewrite app_nil_r in Hs.
  by replace (Z.of_nat (length rs + 1)) with (Z.of_nat (length rs) + 1) in Hs by lia.
Qed.

(** Two stores to the same cell carry the same value. *)
Lemma is_cell_functional rs s1 s2 :
  is_cell rs s1 -> is_cell rs s2 -> st_array s1 = st_array s2 -> Z.to_nat (st_index s1) = Z.to_nat (st_index s2) -> st_value s1 = st_value s2.
Proof. intros [_ H1] [_ H2] Ea Ei. rewrite Ea, Ei in H1. congruence. Qed.

Lemma cells_set b a l a' : cells (set_cells b a l) a' = if decide (a = a') then l else cells b a'.
Proof. destruct b, a, a'; done. Qed.

(** A store to a cell of [rs] keeps every cell of [rs] that holds already. *)
Lemma apply_store_holds rs b s t : is_cell rs s -> is_cell rs t -> holds_store b t -> holds_store (apply_store b s) t.
Proof.
  intros Hs Ht H. unfold holds_store, apply_store in *. rewrite cells_set. destruct (decide (st_array s = st_array t)) as [E|]; [|done].
  destruct (decide (Z.to_nat (st_index s) = Z.to_nat (st_index t))) as [Ei|Ei].
  - rewrite E, Ei, list_lookup_insert_eq by (by apply lookup_lt_Some in H). f_equal. by eapply is_cell_functional.
  - rewrite E. by rewrite list_lookup_insert_ne.
Qed.

Lemma apply_store_written b s : (Z.to_nat (st_index s) < length (cells b (st_array s)))%nat -> holds_store (apply_store b s) s.
Proof. intros H. unfold holds_store, apply_store. rewrite cells_set, decide_True by done. by apply list_lookup_insert_eq. Qed.

Lemma apply_store_allocated v b s : allocated v b -> allocated v (apply_store b s).
Proof. intros H a. unfold apply_store. rewrite cells_set. destruct (decide _) as [<-|]; [rewrite length_insert|]; apply H. Qed.

(** A batch all of whose cells hold represents the relations. *)
Lemma cells_repr b rs nr nf :
  (forall s, is_cell rs s -> holds_store b s) -> nr = Z.of_nat (length rs) -> nf = nfac rs -> repr (set_counts b nr nf) rs.
Proof.
  intros H -> ->. assert (forall a, cells (batch_of rs) a `prefix_of` cells b a) as Hp.
  { intros a. assert (forall i x, cells (batch_of rs) a !! i = Some x -> cells b a !! i = Some x) as Hi.
    { intros i x Hx. specialize (H (mkStore a (Z.of_nat i) x)). unfold is_cell, holds_store in H. cbn in H. rewrite Nat2Z.id in H. apply H. split; [lia|done]. }
    assert (length (cells (batch_of rs) a) <= length (cells b a))%nat as Hl.
    { destruct (length (cells (batch_of rs) a)) as [|n] eqn:E; [lia|]. destruct (lookup_lt_is_Some_2 (cells (batch_of rs) a) n ltac:(lia)) as [x Hx].
      apply Hi, lookup_lt_Some in Hx. lia. }
    apply prefix_of_idx; [done|]. intros i Hlt. destruct (lookup_lt_is_Some_2 _ _ Hlt) as [x Hx]. unfold idx. rewrite Nat2Z.id.
    by rewrite (nth_lookup_Some _ _ _ _ Hx), (nth_lookup_Some _ _ _ _ (Hi i x Hx)). }
  constructor; cbn [set_counts sqrt_Q signs val_2_exps large_primes char_bits factor_offsets factor_indices factor_counts num_relations num_factors].
  - exact (Hp ASqrtQ).
  - exact (Hp ASigns).
  - exact (Hp AVal2).
  - exact (Hp ALargePrimes).
  - exact (Hp ACharBits).
  - exact (Hp AOffsets).
  - exact (Hp AIndices).
  - exact (Hp ACounts).
  - done.
  - done.
Qed.

Lemma repr_cells b rs s : repr b rs -> is_cell rs s -> holds_store b s.
Proof.
  intros H [_ Hs]. unfold holds_store. destruct (st_array s); cbn [cells batch_of] in *; (eapply prefix_lookup_Some; [exact Hs|]); apply H.
Qed.

(** ** The reservation *)

Lemma pack_value R F : in_width 32 R -> in_width 32 F -> pack_rf R F = R * 2 ^ 32 + F.
Proof.
  unfold in_width. intros HR HF. unfold pack_rf. rewrite wrap_small by (rewrite Z.shiftl_mul_pow2 by lia; unfold in_width; lia).
  apply lor_shiftl_add; [lia|done].
Qed.

Lemma unpack_pack_rf R F : in_width 32 R -> in_width 32 F -> unpack_r (pack_rf R F) = R /\ unpack_f (pack_rf R F) = F.
Proof.
  intros HR HF. unfold unpack_r, unpack_f. rewrite pack_value by done. split.
  - rewrite Z.shiftr_div_pow2, Z.div_add_l, (Z.div_small F), Z.add_0_r by (unfold in_width in *; lia). by apply wrap_small.
  - change 0xFFFFFFFF with (Z.ones 32). rewrite Z.land_ones by lia. rewrite Z.add_comm, Z.mod_add, (Z.mod_small F) by (unfold in_width in *; lia).
    by apply wrap_small.
Qed.

Lemma reserve_pack v dR dF R F :
  in_width 32 R -> in_width 32 F -> in_width 32 (R + dR) -> in_width 32 (F + dF) ->
  reserve v dR dF (pack_rf R F) =
    if (0 <? view_target_cap v) && (view_target_cap v <=? R) then None
    else if max_relations v <? R + dR then None else Some (R, F, pack_rf (R + dR) (F + dF)).
Proof.
  intros HR HF HR' HF'. destruct (unpack_pack_rf R F HR HF) as [E1 E2]. unfold unpack_r, unpack_f in E1, E2. unfold reserve.
  rewrite E1, E2, !(wrap_small 32) by done. done.
Qed.

(** ** The invariant *)

Section invariant.
Context (v : RelationBatchView) (rs0 : list relation).
Context (Hmr' : max_relations v + 32 < 2 ^ 32) (Hmf : max_factors v + 2048 < 2 ^ 32).

Notation Z_len l := (Z.of_nat (length l)).

(** The relations the dual counter counts. *)
Definition counted (st : append_state) : list relation := rs0 ++ as_accepted st.

Definition fits (st : append_state) : Prop := nfac (counted st) <= max_factors v.

(** The batch does not take the dropped relations: the target cap is reached, or they do not fit - nor would a whole warp. *)
Definition full_up (rs dropped : list relation) : Prop :=
  (0 < view_target_cap v /\ view_target_cap v <= Z_len rs) \/ max_relations v < Z_len rs + Z.min 32 (Z_len dropped).

Record append_inv (st : append_state) : Prop := mkAppendInv {
  ai_alloc : allocated v (as_batch st);
  ai_dual : as_dual st = pack_rf (Z_len (counted st)) (nfac (counted st));
  ai_count : Z_len (counted st) <= max_relations v;
  ai_pending : Forall (is_cell (counted st)) (as_pending st);
  ai_cells : forall s, is_cell (counted st) s -> s ∈ as_pending st \/ holds_store (as_batch st) s;
  ai_warps : Forall (fun w => warp_ok w.1) (as_waiting st);
  ai_read : Forall (fun w => match w.2 with
    | None => True
    | Some old => exists rs, rs `prefix_of` counted st /\ old = pack_rf (Z_len rs) (nfac rs)
    end) (as_waiting st);
  ai_dropped : as_dropped st <> [] -> full_up (counted st) (as_dropped st);
  ai_target : 0 < view_target_cap v -> Z_len (counted st) <= Z.max (Z_len rs0) (view_target_cap v + 31)
}.

Lemma counted_width rs : Z_len rs <= max_relations v -> nfac rs <= max_factors v -> in_width 32 (Z_len rs) /\ in_width 32 (nfac rs).
Proof using Hmr' Hmf. intros H1 H2. pose proof (nfac_nonneg rs). unfold in_width. lia. Qed.

Lemma offered_middle w1 lanes o w2 :
  offered (map fst (w1 ++ (lanes, o) :: w2 : list (list lane * option Z))) ≡ₚ rels_of lanes ++ offered (map fst (w1 ++ w2)).
Proof.
  unfold offered. rewrite !map_app, !concat_app. cbn [map concat fst]. rewrite !app_assoc. f_equiv. apply Permutation_app_comm.
Qed.

(** No relation is lost or made up on the way. *)
Lemma step_offered st st' :
  append_step v st st' ->
  as_accepted st' ++ as_dropped st' ++ offered (map fst (as_waiting st')) ≡ₚ as_accepted st ++ as_dropped st ++ offered (map fst (as_waiting st)).
Proof using Type.
  intros Hs. destruct Hs as [b d w1 w2 lanes p acc dr Hz|b d w1 w2 lanes p acc dr Hz|b d w1 w2 lanes old p acc dr Hr|b d w1 w2 lanes old p acc dr r Hr Hne
    |b d w1 w2 lanes p acc dr R F desired Hr|b d w p1 p2 s acc dr]; cbn [as_waiting as_accepted as_dropped]; rewrite ?offered_middle.
  - apply no_relation in Hz. by rewrite Hz.
  - done.
  - fold (rels_of lanes). by rewrite <- !app_assoc.
  - done.
  - fold (rels_of lanes). rewrite <- !app_assoc. apply Permutation_app_head. rewrite !app_assoc. apply Permutation_app_tail, Permutation_app_comm.
  - done.
Qed.

Lemma steps_offered b d warps st :
  rtc (append_step v) (append_start b d warps) st ->
  as_accepted st ++ as_dropped st ++ offered (map fst (as_waiting st)) ≡ₚ offered warps.
Proof using Type.
  intros H. remember (append_start b d warps) as st0 eqn:E0.
  assert (as_accepted st ++ as_dropped st ++ offered (map fst (as_waiting st)) ≡ₚ as_accepted st0 ++ as_dropped st0 ++ offered (map fst (as_waiting st0))) as ->.
  { clear E0. induction H as [|x y z Hxy _ IH]; [done|]. rewrite IH. by apply step_offered. }
  subst st0. cbn [append_start as_accepted as_dropped as_waiting app]. rewrite map_map. cbn [fst]. by rewrite List.map_id.
Qed.

Lemma total_rels_bound lanes : warp_ok lanes -> 0 <= Z_len (rels_of lanes) <= 32.
Proof.
  intros [Hl _]. split; [lia|]. assert (length (rels_of lanes) <= length lanes)%nat; [|lia]. unfold rels_of. clear.
  induction lanes as [|[r|] l IH]; cbn; lia.
Qed.

(** What [reserve] answers in a state of the invariant. *)
Lemma reserve_spec rs lanes :
  warp_ok lanes -> Z_len rs <= max_relations v -> nfac rs <= max_factors v ->
  reserve v (total_rels lanes) (total_factors lanes) (pack_rf (Z_len rs) (nfac rs)) =
    if (0 <? view_target_cap v) && (view_target_cap v <=? Z_len rs) then None
    else if max_relations v <? Z_len rs + Z_len (rels_of lanes) then None
    else Some (Z_len rs, nfac rs, pack_rf (Z_len (rs ++ rels_of lanes)) (nfac (rs ++ rels_of lanes))).
Proof using Hmr' Hmf.
  intros Hok H1 H2. rewrite total_rels_spec by apply Hok. rewrite total_factors_spec by done.
  pose proof (total_rels_bound lanes Hok). pose proof (nfac_bound lanes Hok). pose proof (nfac_nonneg rs). pose proof (nfac_nonneg (rels_of lanes)).
  rewrite reserve_pack by (unfold in_width; lia). rewrite length_app, nfac_app, Nat2Z.inj_add. done.
Qed.

Lemma prefix_lengths rs rs' : rs `prefix_of` rs' -> Z_len rs <= Z_len rs' /\ nfac rs <= nfac rs'.
Proof. intros [k ->]. rewrite length_app, nfac_app. pose proof (nfac_nonneg k). lia. Qed.

Lemma start_inv b warps :
  allocated v b -> repr b rs0 -> Forall warp_ok warps -> Z_len rs0 <= max_relations v ->
  append_inv (append_start b (pack_rf (Z_len rs0) (nfac rs0)) warps).
Proof using Type.
  intros Ha Hb Hw Hn. assert (counted (append_start b (pack_rf (Z_len rs0) (nfac rs0)) warps) = rs0) as Hc by apply app_nil_r.
  constructor; rewrite ?Hc; cbn [append_start as_batch as_dual as_waiting as_pending as_accepted as_dropped]; try done.
  - intros s Hs. right. by eapply repr_cells.
  - apply Forall_map. done.
  - apply Forall_map, Forall_forall. by intros w _.
  - intros. lia.
Qed.

Lemma step_inv st st' : append_inv st -> append_step v st st' -> fits st' -> append_inv st'.
Proof using Hmr' Hmf.
  intros I Hs Hf. destruct I as [I1 I2 I3 I4 I5 I6 I7 I9 I10].
  destruct Hs as [b d w1 w2 lanes p acc dr Hz|b d w1 w2 lanes p acc dr Hz|b d w1 w2 lanes old p acc dr Hr|b d w1 w2 lanes old p acc dr r Hr Hne
    |b d w1 w2 lanes p acc dr R F desired Hr|b d w p1 p2 s acc dr];
    unfold fits, counted in *; cbn [as_batch as_dual as_waiting as_pending as_accepted as_dropped] in *.
  - apply no_relation in Hz. apply Forall_app in I6 as [A1 [_ A2]%Forall_cons], I7 as [B1 [_ B2]%Forall_cons].
    constructor; unfold counted; cbn [as_batch as_dual as_waiting as_pending as_accepted as_dropped]; try done; by apply Forall_app.
  - apply Forall_app in I6 as [A1 [A0 A2]%Forall_cons], I7 as [B1 [_ B2]%Forall_cons].
    constructor; unfold counted; cbn [as_batch as_dual as_waiting as_pending as_accepted as_dropped]; try done; [apply Forall_app; split; [done|]; by constructor|apply Forall_app; split; [done|]; constructor; [|done]].
    cbn. exists (rs0 ++ acc). split; [done|]. exact I2.
  - apply Forall_app in I6 as [A1 [A0 A2]%Forall_cons], I7 as [B1 [(rs & Hp & Eold) B2]%Forall_cons]. cbn in A0.
    pose proof (prefix_lengths _ _ Hp) as [Hp1 Hp2]. rewrite Eold, reserve_spec in Hr by (done || lia).
    constructor; unfold counted; cbn [as_batch as_dual as_waiting as_pending as_accepted as_dropped]; try done; [by apply Forall_app|by apply Forall_app|].
    intros _. unfold full_up. fold (rels_of lanes). rewrite (length_app dr). pose proof (total_rels_bound lanes A0). destruct ((0 <? view_target_cap v) && (view_target_cap v <=? Z_len rs)) eqn:Et.
    + apply andb_true_iff in Et as [?%Z.ltb_lt ?%Z.leb_le]. lia.
    + destruct (Z.ltb_spec (max_relations v) (Z_len rs + Z_len (rels_of lanes))); [lia|done].
  - apply Forall_app in I6 as [A1 [A0 A2]%Forall_cons], I7 as [B1 [_ B2]%Forall_cons].
    constructor; unfold counted; cbn [as_batch as_dual as_waiting as_pending as_accepted as_dropped]; try done; [apply Forall_app; split; [done|]; by constructor|apply Forall_app; split; [done|]; constructor; [|done]].
    cbn. exists (rs0 ++ acc). split; [done|]. exact I2.
  - apply Forall_app in I6 as [A1 [A0 A2]%Forall_cons], I7 as [B1 [_ B2]%Forall_cons]. cbn in A0. fold (rels_of lanes) in *.
    rewrite app_assoc in Hf. rewrite nfac_app in Hf. pose proof (nfac_nonneg (rels_of lanes)) as Hn.
    rewrite I2, reserve_spec in Hr by (done || lia). pose proof (total_rels_bound lanes A0) as Hb.
    destruct ((0 <? view_target_cap v) && (view_target_cap v <=? Z_len (rs0 ++ acc))) eqn:Et; [done|].
    destruct (Z.ltb_spec (max_relations v) (Z_len (rs0 ++ acc) + Z_len (rels_of lanes))) as [|Hroom]; [done|]. injection Hr as <- <- <-.
    rewrite warp_stores_spec by (done || lia).
    constructor; unfold counted; cbn [as_batch as_dual as_waiting as_pending as_accepted as_dropped]; rewrite ?app_assoc; try done.
    + rewrite length_app. lia.
    + apply Forall_app. split; [eapply Forall_impl; [exact I4|]; intros s Hs; by apply is_cell_app|]. apply Forall_forall. intros s Hs. by apply stores_from_cells.
    + intros s [Hs|Hs]%stores_from_complete; rewrite elem_of_app; [apply I5 in Hs|]; tauto.
    + by apply Forall_app.
    + apply Forall_app. split; (eapply Forall_impl; [eassumption|]); intros [ln [old|]]; cbn; try done; intros (rs & Hp & ->); exists rs; (split; [|done]);
        by apply prefix_app_r.
    + intros Hd. specialize (I9 Hd). unfold full_up in *. rewrite length_app. lia.
    + intros Ht. specialize (I10 Ht). rewrite length_app. apply andb_false_iff in Et as [?%Z.ltb_ge|?%Z.leb_gt]; lia.
  - apply Forall_app in I4 as [P1 [P0 P2]%Forall_cons].
    constructor; unfold counted; cbn [as_batch as_dual as_waiting as_pending as_accepted as_dropped]; try done.
    + by apply apply_store_allocated.
    + by apply Forall_app.
    + intros t Ht. destruct (I5 t Ht) as [Hin|Hh].
      * apply elem_of_app in Hin as [Hin|[->|Hin]%elem_of_cons]; [left; apply elem_of_app; by left| |left; apply elem_of_app; by right].
        right. apply apply_store_written. destruct P0 as [P0 Pc]. apply lookup_lt_Some in Pc. rewrite cells_length in Pc. specialize (I1 (st_array s)).
        unfold extent in I1. unfold nfac in Hf. destruct (st_array s); lia.
      * right. by eapply apply_store_holds.
Qed.

Lemma step_fits st st' : append_step v st st' -> fits st' -> fits st.
Proof using Type.
  intros Hs. destruct Hs; unfold fits, counted; cbn [as_accepted]; try done. rewrite app_assoc, nfac_app. pose proof (nfac_nonneg (omap id lanes)). lia.
Qed.

Lemma steps_inv st st' : append_inv st -> rtc (append_step v) st st' -> fits st' -> append_inv st'.
Proof using Hmr' Hmf.
  intros I H Hf. induction H as [|x y z Hxy Hyz IH]; [done|]. apply IH; [|done]. apply (step_inv x y I Hxy).
  clear - Hyz Hf. induction Hyz as [|x y z Hxy _ IH]; [done|]. eapply step_fits; [exact Hxy|]. by apply IH.
Qed.

Lemma finished_spec b warps st :
  allocated v b -> repr b rs0 -> Forall warp_ok warps -> Z_len rs0 <= max_relations v ->
  rtc (append_step v) (append_start b (pack_rf (Z_len rs0) (nfac rs0)) warps) st -> finished st -> fits st ->
  repr (commit_dual_counter_kernel (as_dual st) (as_batch st)) (counted st) /\ allocated v (as_batch st) /\ append_inv st.
Proof using Hmr' Hmf.
  intros Ha Hb Hw Hn Hst [_ Hp] Hf. pose proof (steps_inv _ st (start_inv b warps Ha Hb Hw Hn) Hst Hf) as I.
  split; [|split; [apply I|exact I]]. unfold commit_dual_counter_kernel. destruct (counted_width (counted st)) as [W1 W2]; [apply I|exact Hf|].
  rewrite (ai_dual st I). destruct (unpack_pack_rf _ _ W1 W2) as [-> ->]. apply cells_repr; [|done|done].
  intros s Hs. destruct (ai_cells st I s Hs) as [Hin|]; [|done]. rewrite Hp in Hin. by apply not_elem_of_nil in Hin.
Qed.

End invariant.

(** ** Every run can be finished *)

Lemma drain_stores v b d w p acc dr : exists b', rtc (append_step v) (mkAppend b d w p acc dr) (mkAppend b' d w [] acc dr).
Proof.
  revert b. induction p as [|s p IH]; intros b; [by exists b|]. destruct (IH (apply_store b s)) as [b' H]. exists b'.
  eapply rtc_l; [apply (step_store v b d w [] p s)|exact H].
Qed.

Lemma finish_warp v b d lanes o w p acc dr :
  exists d' p' acc' dr', rtc (append_step v) (mkAppend b d ((lanes, o) :: w) p acc dr) (mkAppend b d' w p' acc' dr').
Proof.
  assert (forall o', reserve v (total_rels lanes) (total_factors lanes) d = o' -> exists d' p' acc' dr',
    rtc (append_step v) (mkAppend b d ((lanes, Some d) :: w) p acc dr) (mkAppend b d' w p' acc' dr')) as Hnow.
  { intros [[[R F] desired]|] E; do 4 eexists; apply rtc_once.
    - by apply (step_reserve v b d [] w lanes p acc dr R F desired).
    - by apply (step_skip v b d [] w lanes d p acc dr). }
  destruct o as [old|].
  - destruct (reserve v (total_rels lanes) (total_factors lanes) old) as [r|] eqn:E.
    + destruct (decide (d = old)) as [<-|Hne]; [by eapply Hnow|]. destruct (Hnow _ eq_refl) as (d' & p' & acc' & dr' & H).
      do 4 eexists. eapply rtc_l; [|exact H]. by apply (step_retry v b d [] w lanes old p acc dr r).
    + do 4 eexists. apply rtc_once. by apply (step_skip v b d [] w lanes old p acc dr).
  - destruct (decide (ballot (map predicate lanes) = 0)) as [Hz|Hz].
    + do 4 eexists. apply rtc_once. by apply (step_idle v b d [] w lanes p acc dr).
    + destruct (Hnow _ eq_refl) as (d' & p' & acc' & dr' & H). do 4 eexists. eapply rtc_l; [|exact H]. by apply (step_load v b d [] w lanes p acc dr).
Qed.

Lemma can_finish v st : exists st', rtc (append_step v) st st' /\ finished st'.
Proof.
  destruct st as [b d w p acc dr]. revert d p acc dr. induction w as [|[lanes o] w IH]; intros d p acc dr.
  - destruct (drain_stores v b d [] p acc dr) as [b' H]. by eexists.
  - destruct (finish_warp v b d lanes o w p acc dr) as (d' & p' & acc' & dr' & H). destruct (IH d' p' acc' dr') as (st' & H' & Hf).
    exists st'. split; [by etrans|done].
Qed.

(** ** Properties *)

(** C20. Whatever the order in which warps read and swap the counter and in which single stores reach memory, the committed batch holds the earlier
    relations followed by those of the successful reservations, each whole and once; every offered relation is accepted or dropped, a drop
    means that the target cap was reached or that the dropped relations, or those of one warp, do not fit, and the cap is passed by less than one warp. This assumes that the accepted relations
    fit the factor arrays. *)
Theorem append_to_soa_exact v b rs0 warps st :
  max_relations v + 32 < 2 ^ 32 -> max_factors v + 2048 < 2 ^ 32 ->
  allocated v b -> repr b rs0 -> Z.of_nat (length rs0) <= max_relations v -> Forall warp_ok warps ->
  rtc (append_step v) (append_start b (sync_dual_counter_from_batch_kernel b) warps) st -> finished st -> fits v rs0 st ->
  repr (commit_dual_counter_kernel (as_dual st) (as_batch st)) (rs0 ++ as_accepted st) /\
  as_accepted st ++ as_dropped st ≡ₚ offered warps /\
  Z.of_nat (length (rs0 ++ as_accepted st)) <= max_relations v /\
  (as_dropped st <> [] -> full_up v (rs0 ++ as_accepted st) (as_dropped st)) /\
  (0 < view_target_cap v -> Z.of_nat (length (rs0 ++ as_accepted st)) <= Z.max (Z.of_nat (length rs0)) (view_target_cap v + 31)).
Proof.
  intros Hmr Hmf Ha Hb Hn Hw Hst Hfin Hf.
  assert (nfac rs0 <= max_factors v) as Hf0 by (unfold fits, counted in Hf; rewrite nfac_app in Hf; pose proof (nfac_nonneg (as_accepted st)); lia).
  destruct (counted_width v Hmr Hmf rs0 Hn Hf0) as [W1 W2]. unfold sync_dual_counter_from_batch_kernel in Hst.
  rewrite (repr_num_relations b rs0 Hb), (repr_num_factors b rs0 Hb), !(wrap_small 32) in Hst by done.
  destruct (finished_spec v rs0 Hmr Hmf b warps st Ha Hb Hw Hn Hst Hfin Hf) as (H1 & _ & I).
  split; [exact H1|]. split; [|split; [apply I|split; apply I]].
  pose proof (steps_offered v b _ warps st Hst) as Ho. destruct Hfin as [Hw0 _]. rewrite Hw0 in Ho. cbn in Ho. by rewrite app_nil_r in Ho.
Qed.

Lemma ex_store_ok : allocated ex_view ex_store /\ repr ex_store [].
Proof.
  split; [intros []; by vm_compute|]. constructor; try (by apply prefix_nil); [|done|done].
  exists (replicate 4 7). done.
Qed.

Lemma append_to_soa_exact_witness :
  exists st, rtc (append_step ex_view) (append_start ex_store (sync_dual_counter_from_batch_kernel ex_store) ex_warps) st /\ finished st /\
    repr (commit_dual_counter_kernel (as_dual st) (as_batch st)) (as_accepted st) /\
    (as_dropped st <> [] -> full_up ex_view (as_accepted st) (as_dropped st)).
Proof.
  destruct (can_finish ex_view (append_start ex_store (sync_dual_counter_from_batch_kernel ex_store) ex_warps)) as (st & H & Hf).
  destruct ex_store_ok as [Ha Hr]. exists st. split; [exact H|]. split; [exact Hf|].
  assert (fits ex_view [] st) as Hfit.
  { pose proof (steps_offered ex_view ex_store _ ex_warps st H) as Ho. unfold fits, counted. cbn [app].
    assert (nfac (as_accepted st) <= nfac (offered ex_warps)) as Hle; [|transitivity (nfac (offered ex_warps)); [exact Hle|by vm_compute]].
    assert (forall l1 l2, l1 ≡ₚ l2 -> nfac l1 = nfac l2) as Hp by (intros l1 l2 Hp; unfold nfac, all_factors; by rewrite Hp).
    rewrite <- (Hp _ _ Ho), nfac_app. pose proof (nfac_nonneg (as_dropped st ++ offered (map fst (as_waiting st)))). lia. }
  destruct (append_to_soa_exact ex_view ex_store [] ex_warps st) as (H1 & _ & _ & H4 & _);
    [by vm_compute|by vm_compute|exact Ha|exact Hr|by vm_compute| |exact H|exact Hf|exact Hfit|].
  - repeat constructor; cbn; lia.
  - split; [exact H1|exact H4].
Defined.

(** No run gets stuck: from every state the warps can reserve or give up and the stores can land, until none is left. *)
Theorem append_progress v b dual warps st :
  rtc (append_step v) (append_start b dual warps) st ->
  exists st', rtc (append_step v) st st' /\ finished st' /\ as_accepted st' ++ as_dropped st' ≡ₚ offered warps.
Proof.
  intros H. destruct (can_finish v st) as (st' & H' & Hf). exists st'. split; [done|]. split; [done|].
  pose proof (steps_offered v b dual warps st' ltac:(by etrans)) as Ho. destruct Hf as [Hw _]. rewrite Hw in Ho. cbn in Ho. by rewrite app_nil_r in Ho.
Qed.

Lemma append_progress_witness :
  exists st', rtc (append_step ex_view) (append_start ex_store 0 ex_warps) st' /\ finished st' /\ as_accepted st' ++ as_dropped st' ≡ₚ offered ex_warps.
Proof. exact (append_progress ex_view ex_store 0 ex_warps _ (rtc_refl _ _)). Defined.
