(* ===== verification/DeviceBatch.v ===== *)
(** The device relation batch ([RelationBatch] of [src/src/common/mpqs_soa.cu]): the arrays with
    their allocated capacities and the operations the host drives on them - clearing, growing,
    appending another batch with the surplus discarded, downloading a batch or a range of it and
    uploading a host batch. Device memory is uninitialised after an allocation: its contents are
    the parameter [fresh]. *)
From Stdlib Require Import ZArith Lia Sorted.
From stdpp Require Import base gmap sets list sorting.
From S2P Require Import Prelude Soa Gf2 WarpAppend.
#[local] Open Scope Z_scope.

(** ** Data *)

(** The device arrays and the two device counters, the capacities and [target_cap_]. The pinned mirror of the counters is scratch memory. *)
Record RelationBatch := mkDevice { d_batch : HostRelationBatch; cap_rels : Z; cap_factors : Z; target_cap_ : Z }.

(** A batch given array by array. *)
Definition of_cells (f : array -> list Z) (nr nf : Z) : HostRelationBatch :=
  mkBatch (f ASqrtQ) (f ASigns) (f AVal2) (f ALargePrimes) (f ACharBits) (f AOffsets) (f AIndices) (f ACounts) nr nf.

(** [memcpy(dst + pos, src, n)], in elements. *)
Definition memcpy (dst : list Z) (pos : Z) (src : list Z) (n : Z) : list Z :=
  take (Z.to_nat pos) dst ++ take (Z.to_nat n) src ++ drop (Z.to_nat (pos + n)) dst.

Definition get_view (d : RelationBatch) : RelationBatchView := mkView (wrap 32 (cap_rels d)) (cap_factors d) (target_cap_ d).

Definition getCount (d : RelationBatch) : Z := num_relations (d_batch d).

(** ** Operations *)

Definition set_offset0 (l : list Z) : list Z := memcpy l 0 [0] 1.

Definition clear_device (d : RelationBatch) : RelationBatch :=
  mkDevice (of_cells (fun a => match a with AOffsets => set_offset0 (cells (d_batch d) AOffsets) | _ => cells (d_batch d) a end) 0 0)
    (cap_rels d) (cap_factors d) (target_cap_ d).

Definition reset_counters (d : RelationBatch) : RelationBatch :=
  mkDevice (set_counts (d_batch d) 0 0) (cap_rels d) (cap_factors d) (target_cap_ d).

Section device.
(** What a fresh allocation of [n] elements holds. *)
Context (fresh : array -> Z -> list Z).
(** [thrust::upper_bound] on a sorted range: the position of the first element above the value. *)
Context (upper_bound : list Z -> Z -> Z).

(** [RelationBatch::resize]. *)
Definition resize_device (d : RelationBatch) (num_rels_needed num_factors_needed : Z) : RelationBatch :=
  let new_cap_rels := Z.max (cap_rels d) num_rels_needed in
  let new_cap_factors := Z.max (cap_factors d) num_factors_needed in
  if (new_cap_rels =? cap_rels d) && (new_cap_factors =? cap_factors d) then d
  else
    let b := d_batch d in
    let copy_rels := Z.min (Z.min (cap_rels d) new_cap_rels) (num_relations b) in
    let copy_factors := Z.min (Z.min (cap_factors d) new_cap_factors) (num_factors b) in
    let new a := fresh a (extent a new_cap_rels new_cap_factors) in
    let copied a :=
      match a with
      | ACharBits => memcpy (replicate (Z.to_nat new_cap_rels) 0) 0 (cells b a) copy_rels
      | AOffsets => if 0 <? copy_rels then memcpy (new a) 0 (cells b a) (copy_rels + 1) else set_offset0 (new a)
      | AIndices | ACounts => memcpy (new a) 0 (cells b a) copy_factors
      | _ => memcpy (new a) 0 (cells b a) copy_rels
      end in
    mkDevice (of_cells copied (num_relations b) (num_factors b)) new_cap_rels new_cap_factors (target_cap_ d).

(** How many of the first [other_count_rels] relations of [other] are appended, and their factors. *)
Definition append_amount (d other : RelationBatch) (other_count_rels : Z) : Z * Z :=
  let start_rels := num_relations (d_batch d) in
  let start_factors := num_factors (d_batch d) in
  let avail_rels := if start_rels <? cap_rels d then cap_rels d - start_rels else 0 in
  let avail_factors := if start_factors <? cap_factors d then cap_factors d - start_factors else 0 in
  let candidate_rels := Z.min other_count_rels avail_rels in
  if candidate_rels =? 0 then (0, 0)
  else
    let offsets := factor_offsets (d_batch other) in
    let factors_needed := idx offsets candidate_rels in
    if avail_factors <? factors_needed then
      let i := upper_bound (take (Z.to_nat (candidate_rels + 1)) offsets) avail_factors in
      let actual := if 0 <? i then i - 1 else 0 in
      (actual, if 0 <? actual then idx offsets actual else 0)
    else (candidate_rels, factors_needed).

(** [rebase_kernel]: [dst[idx] = src[idx + 1] + base]. *)
Definition rebase_kernel (dst : list Z) (pos : Z) (src : list Z) (base count : Z) : list Z :=
  memcpy dst pos (map (fun o => wrap 64 (o + base)) (drop 1 src)) count.

(** [RelationBatch::append]. *)
Definition append (d other : RelationBatch) (other_count_rels : Z) : RelationBatch :=
  if other_count_rels =? 0 then d
  else
    let '(actual_rels, actual_factors) := append_amount d other other_count_rels in
    if actual_rels =? 0 then d
    else
      let start_rels := num_relations (d_batch d) in
      let start_factors := num_factors (d_batch d) in
      let copied a :=
        match a with
        | AOffsets => rebase_kernel (cells (d_batch d) a) (start_rels + 1) (cells (d_batch other) a) start_factors (wrap 32 actual_rels)
        | AIndices | ACounts => memcpy (cells (d_batch d) a) start_factors (cells (d_batch other) a) actual_factors
        | _ => memcpy (cells (d_batch d) a) start_rels (cells (d_batch other) a) actual_rels
        end in
      mkDevice (of_cells copied (start_rels + actual_rels) (start_factors + actual_factors)) (cap_rels d) (cap_factors d) (target_cap_ d).

(** [RelationBatch::moveToHost]: both transfer paths copy the same ranges. *)
Definition moveToHost (d : RelationBatch) (dest : HostRelationBatch) : HostRelationBatch :=
  let n_rels := num_relations (d_batch d) in
  let n_factors := num_factors (d_batch d) in
  let dest := resize dest n_rels n_factors in
  if n_rels =? 0 then dest
  else of_cells (fun a => memcpy (cells dest a) 0 (cells (d_batch d) a) (extent a n_rels n_factors)) n_rels n_factors.

(** [RelationBatch::moveRangeToHost]. *)
Definition moveRangeToHost (d : RelationBatch) (dest : HostRelationBatch) (offset count : Z) : HostRelationBatch :=
  if count =? 0 then set_counts dest 0 0
  else
    let dest := resize dest count (wrap 64 (count * 32)) in
    let offsets := memcpy (cells dest AOffsets) 0 (drop (Z.to_nat offset) (cells (d_batch d) AOffsets)) (count + 1) in
    let factor_start := idx offsets 0 in
    let factor_end := idx offsets count in
    let n_factors := factor_end - factor_start in
    let copied a :=
      match a with
      | AOffsets => map (fun o => o - factor_start) (take (Z.to_nat (count + 1)) offsets) ++ drop (Z.to_nat (count + 1)) offsets
      | AIndices | ACounts => memcpy (grow (cells dest a) n_factors) 0 (drop (Z.to_nat factor_start) (cells (d_batch d) a)) n_factors
      | _ => memcpy (cells dest a) 0 (drop (Z.to_nat offset) (cells (d_batch d) a)) count
      end in
    of_cells copied count n_factors.

(** [RelationBatch::uploadFromHost]. *)
Definition uploadFromHost (d : RelationBatch) (host : HostRelationBatch) : RelationBatch :=
  if num_relations host =? 0 then d
  else
    let nr := num_relations host in
    let nf := num_factors host in
    let d := resize_device d nr nf in
    let copied a :=
      match a with
      | ACharBits => if char_bits host then cells (d_batch d) a else memcpy (cells (d_batch d) a) 0 (cells host a) nr
      | _ => memcpy (cells (d_batch d) a) 0 (cells host a) (extent a nr nf)
      end in
    mkDevice (of_cells copied nr nf) (cap_rels d) (cap_factors d) (target_cap_ d).

End device.

(** ** Vocabulary and examples *)

(** The arrays have their capacity. *)
Definition device_ok (d : RelationBatch) : Prop :=
  0 <= cap_rels d < 2 ^ 32 /\ 0 <= cap_factors d < 2 ^ 63 /\ forall a, Z.of_nat (length (cells (d_batch d) a)) = extent a (cap_rels d) (cap_factors d).

Definition fresh_ok (fresh : array -> Z -> list Z) : Prop := forall a n, 0 <= n -> Z.of_nat (length (fresh a n)) = n.

Definition upper_bound_ok (upper_bound : list Z -> Z -> Z) : Prop :=
  forall l x, StronglySorted Z.le l ->
    0 <= upper_bound l x <= Z.of_nat (length l) /\
    forall i y, l !! i = Some y -> (Z.of_nat i < upper_bound l x <-> y <= x).

Definition ex_fresh (a : array) (n : Z) : list Z := replicate (Z.to_nat n) 99.
Definition ex_upper_bound (l : list Z) (x : Z) : Z := Z.of_nat (length (List.filter (fun y => y <=? x) l)).

(** A device batch of 3 relations and 4 factors that holds one relation. *)
Definition ex_device : RelationBatch := resize_device ex_fresh (uploadFromHost ex_fresh (mkDevice batch_empty 0 0 0) (batch_of [ex_rel 5 1])) 3 4.
Definition ex_other : RelationBatch := uploadFromHost ex_fresh (mkDevice batch_empty 0 0 0) (batch_of [ex_rel 1 2; ex_rel 2 2; ex_rel 3 1]).

(** The second relation would need a fifth factor slot: it and the rest are discarded. *)
Example ex_discard : relations (d_batch (append ex_upper_bound ex_device ex_other 3)) = [ex_rel 5 1; ex_rel 1 2].
Proof. by vm_compute. Qed.

Example ex_range : relations (moveRangeToHost ex_other batch_empty 1 2) = [ex_rel 2 2; ex_rel 3 1].
Proof. by vm_compute. Qed.

(** Uploading a batch without characters into a batch that is large enough leaves the characters of the earlier relations. *)
Example ex_stale_characters :
  let d := uploadFromHost ex_fresh (mkDevice batch_empty 0 0 0) (batch_of [mkRel 5 1 0 1 77 []]) in
  let host := mkBatch [6] [1] [0] [1] [] [0; 0] [] [] 1 0 in
  map r_char (relations (d_batch (uploadFromHost ex_fresh d host))) = [77].
Proof. by vm_compute. Qed.

(** ** Vocabulary of the specifications *)

(** What the relations [new] add to each array behind [rs]. *)
Definition added (rs new : list relation) (a : array) : list Z :=
  match a with AOffsets => map (fun o => o + nfac rs) (drop 1 (cells (batch_of new) AOffsets)) | _ => cells (batch_of new) a end.

(** ** Lemmas *)

Lemma cells_of_cells f nr nf a : cells (of_cells f nr nf) a = f a.
Proof. by destruct a. Qed.

Lemma repr_prefix b rs :
  repr b rs <-> (forall a, cells (batch_of rs) a `prefix_of` cells b a) /\ num_relations b = Z.of_nat (length rs) /\ num_factors b = nfac rs.
Proof.
  split.
  - intros H. split; [|split; apply H]. intros []; apply H.
  - intros (H & Hn & Hf). constructor; [exact (H ASqrtQ)|exact (H ASigns)|exact (H AVal2)|exact (H ALargePrimes)|exact (H ACharBits)
      |exact (H AOffsets)|exact (H AIndices)|exact (H ACounts)|exact Hn|exact Hf].
Qed.

Lemma cells_extent rs a : Z.of_nat (length (cells (batch_of rs) a)) = extent a (Z.of_nat (length rs)) (nfac rs).
Proof. rewrite cells_length. unfold extent, nfac. destruct a; lia. Qed.

Lemma length_memcpy dst pos src n :
  0 <= pos -> 0 <= n -> pos + n <= Z.of_nat (length dst) -> n <= Z.of_nat (length src) -> length (memcpy dst pos src n) = length dst.
Proof. intros. unfold memcpy. rewrite !length_app, !length_take, length_drop. lia. Qed.

(** Copying behind a prefix extends it. *)
Lemma memcpy_prefix pre new dst src pos n :
  pre `prefix_of` dst -> new `prefix_of` src -> pos = Z.of_nat (length pre) -> n = Z.of_nat (length new) ->
  pre ++ new `prefix_of` memcpy dst pos src n.
Proof.
  intros Hp Hn -> ->. unfold memcpy. rewrite !Nat2Z.id, !prefix_take by done. exists (drop (Z.to_nat (Z.of_nat (length pre) + Z.of_nat (length new))) dst).
  by rewrite <- app_assoc.
Qed.

Lemma memcpy_prefix0 new dst src n : new `prefix_of` src -> n = Z.of_nat (length new) -> new `prefix_of` memcpy dst 0 src n.
Proof. intros H Hn. by apply (memcpy_prefix [] new dst src 0 n); [apply prefix_nil| | |]. Qed.

Lemma offsets_shift {A} b o (fs : list (list A)) : map (fun x => x + b) (offsets_from o fs) = offsets_from (o + b) fs.
Proof. revert o. induction fs as [|f fs IH]; intros o; cbn; [done|]. rewrite IH. do 2 f_equal. lia. Qed.

Lemma offsets_from_app_drop {A} o (fs1 fs2 : list (list A)) :
  offsets_from o (fs1 ++ fs2) = offsets_from o fs1 ++ drop 1 (offsets_from (o + Z.of_nat (length (concat fs1))) fs2).
Proof.
  revert o. induction fs1 as [|f fs1 IH]; intros o; cbn [app offsets_from concat].
  { cbn [length]. rewrite Z.add_0_r. by destruct fs2. }
  rewrite IH, length_app, Nat2Z.inj_add, Z.add_assoc. done.
Qed.

Lemma cells_app rs new a : cells (batch_of (rs ++ new)) a = cells (batch_of rs) a ++ added rs new a.
Proof.
  destruct a; cbn [cells batch_of sqrt_Q signs val_2_exps large_primes char_bits factor_offsets factor_indices factor_counts added];
    rewrite ?all_factors_app, ?map_app; try done.
  rewrite <- skipn_map, offsets_shift, offsets_from_app_drop. done.
Qed.

Lemma added_length rs new a :
  Z.of_nat (length (added rs new a)) = match a with AIndices | ACounts => nfac new | _ => Z.of_nat (length new) end.
Proof.
  unfold added. destruct a; rewrite ?length_map, ?length_drop, cells_length; unfold nfac; lia.
Qed.

Lemma nfac_nil : nfac [] = 0.
Proof. done. Qed.

Lemma nfac_take rs k : nfac (take k rs) <= nfac rs.
Proof. rewrite <- (take_drop k rs) at 2. rewrite nfac_app. pose proof (nfac_nonneg (drop k rs)). lia. Qed.

Lemma offset_nfac b rs k : repr b rs -> 0 <= k <= Z.of_nat (length rs) -> idx (factor_offsets b) k = nfac (take (Z.to_nat k) rs).
Proof. intros H Hk. rewrite <- (Z2Nat.id k) at 1 by lia. by rewrite (repr_offset b rs) by (done || lia). Qed.

Lemma offsets_sorted {A} o (fs : list (list A)) : StronglySorted Z.le (offsets_from o fs) /\ Forall (fun x => o <= x) (offsets_from o fs).
Proof.
  revert o. induction fs as [|f fs IH]; intros o; cbn [offsets_from]; [split; repeat constructor; lia|].
  destruct (IH (o + Z.of_nat (length f))) as [H1 H2]. assert (Forall (fun x => o <= x) (offsets_from (o + Z.of_nat (length f)) fs)) as H3.
  { eapply Forall_impl; [exact H2|]. cbn. lia. }
  by split; constructor.
Qed.

Section device_laws.
Context (fresh : array -> Z -> list Z) (Hfresh : fresh_ok fresh).

Lemma fits_caps d rs : device_ok d -> repr (d_batch d) rs -> Z.of_nat (length rs) <= cap_rels d /\ nfac rs <= cap_factors d.
Proof using Type.
  intros (_ & _ & Ha) H. pose proof (prefix_length_le _ _ (repr_sqrt_Q _ _ H)) as L1. pose proof (prefix_length_le _ _ (repr_indices _ _ H)) as L2.
  rewrite length_map in L1, L2. pose proof (Ha ASqrtQ) as A1. pose proof (Ha AIndices) as A2. cbn in A1, A2. unfold nfac. lia.
Qed.

Lemma extent_mono a nr nr' nf nf' : nr <= nr' -> nf <= nf' -> extent a nr nf <= extent a nr' nf'.
Proof using Type. unfold extent. destruct a; lia. Qed.

Lemma set_offset0_spec l : (0 < length l)%nat -> [0] `prefix_of` set_offset0 l /\ length (set_offset0 l) = length l.
Proof using Type. intros H. split; [by apply memcpy_prefix0|]. apply length_memcpy; cbn; lia. Qed.

(** The shape of a batch survives an operation that keeps or grows it. *)
Lemma resize_device_spec d nr nf rs :
  device_ok d -> repr (d_batch d) rs -> 0 <= nr < 2 ^ 32 -> 0 <= nf < 2 ^ 63 ->
  let d' := resize_device fresh d nr nf in
  device_ok d' /\ repr (d_batch d') rs /\ cap_rels d' = Z.max (cap_rels d) nr /\ cap_factors d' = Z.max (cap_factors d) nf /\ target_cap_ d' = target_cap_ d.
Proof using Hfresh.
  intros Hd H Hnr Hnf. pose proof (fits_caps d rs Hd H) as [Fr Ff]. destruct Hd as (Hcr & Hcf & Ha). unfold resize_device.
  destruct ((Z.max (cap_rels d) nr =? cap_rels d) && (Z.max (cap_factors d) nf =? cap_factors d)) eqn:E.
  { apply andb_true_iff in E as [->%Z.eqb_eq ->%Z.eqb_eq]. by split. }
  pose proof (repr_num_relations _ _ H) as Nr. pose proof (repr_num_factors _ _ H) as Nf. fold (nfac rs) in Nf. pose proof (nfac_nonneg rs) as Hn0.
  set (cr := Z.max (cap_rels d) nr) in *. set (cf := Z.max (cap_factors d) nf) in *. cbn zeta. cbn [d_batch cap_rels cap_factors target_cap_].
  rewrite Nr, Nf, !Z.min_r by (unfold cr, cf; lia). apply repr_prefix in H as (Hp & _ & _).
  assert (forall a, 0 <= extent a cr cf) as He by (intros []; cbn; unfold cr, cf; lia).
  assert (forall a, Z.of_nat (length (fresh a (extent a cr cf))) = extent a cr cf) as Hfl by (intros a; by apply Hfresh).
  split; [|split; [|by repeat split]].
  - split; [unfold cr; cbn; lia|]. split; [unfold cf; cbn; lia|]. intros a. cbn [d_batch cap_rels cap_factors]. rewrite cells_of_cells.
    pose proof (Hfl a) as Hla. pose proof (Ha a) as Hda. unfold extent in Hda, Hla |- *.
    destruct a; [..|]; try (rewrite length_memcpy; rewrite ?length_replicate; unfold cr, cf in *; lia).
    destruct (0 <? Z.of_nat (length rs)); [rewrite length_memcpy; unfold cr, cf in *; lia|]. rewrite (proj2 (set_offset0_spec (fresh AOffsets (cr + 1)) ltac:(unfold cr in *; lia))). lia.
  - apply repr_prefix. split; [|done]. intros a. cbn [d_batch]. rewrite cells_of_cells. pose proof (Hp a) as Hpa. pose proof (cells_extent rs a) as Hx. unfold extent in Hx.
    destruct a; [..|]; try (by apply memcpy_prefix0).
    destruct (Z.ltb_spec 0 (Z.of_nat (length rs))); [by apply memcpy_prefix0|]. destruct rs as [|r rs]; [|cbn [length] in *; lia].
    apply set_offset0_spec. specialize (Hfl AOffsets). unfold extent in *. unfold cr in *. lia.
Qed.

(** ** Appending *)

Context (upper_bound : list Z -> Z -> Z) (Hub : upper_bound_ok upper_bound).

(** The number of relations appended is the largest that fits both capacities. *)
Lemma append_amount_spec d other rs rs' count :
  device_ok d -> repr (d_batch d) rs -> repr (d_batch other) rs' -> 0 < count <= Z.of_nat (length rs') ->
  let '(k, f) := append_amount upper_bound d other count in
  0 <= k <= count /\ f = nfac (take (Z.to_nat k) rs') /\
  Z.of_nat (length rs) + k <= cap_rels d /\ nfac rs + f <= cap_factors d /\
  (k < count -> Z.of_nat (length rs) + k = cap_rels d \/ cap_factors d < nfac rs + nfac (take (Z.to_nat (k + 1)) rs')).
Proof using Hub.
  intros Hd H H' Hc. pose proof (fits_caps d rs Hd H) as [Fr Ff]. unfold append_amount.
  rewrite (repr_num_relations _ _ H), (repr_num_factors _ _ H). fold (nfac rs).
  assert ((if Z.of_nat (length rs) <? cap_rels d then cap_rels d - Z.of_nat (length rs) else 0) = cap_rels d - Z.of_nat (length rs)) as ->
    by (destruct (Z.ltb_spec (Z.of_nat (length rs)) (cap_rels d)); lia).
  assert ((if nfac rs <? cap_factors d then cap_factors d - nfac rs else 0) = cap_factors d - nfac rs) as ->
    by (destruct (Z.ltb_spec (nfac rs) (cap_factors d)); lia).
  set (cand := Z.min count (cap_rels d - Z.of_nat (length rs))). destruct (Z.eqb_spec cand 0) as [E0|E0].
  { unfold cand in E0. rewrite take_0, nfac_nil. lia. }
  rewrite (offset_nfac _ rs') by (done || lia). destruct (Z.ltb_spec (cap_factors d - nfac rs) (nfac (take (Z.to_nat cand) rs'))) as [Hov|Hfit].
  2: { split; [lia|]. split; [done|]. split; [lia|]. split; [lia|]. lia. }
  assert (take (Z.to_nat (cand + 1)) (factor_offsets (d_batch other)) = offsets_from 0 (map r_factors (take (Z.to_nat cand) rs'))) as Eoff.
  { rewrite <- firstn_map, offsets_from_take by (rewrite length_map; lia). replace (S (Z.to_nat cand)) with (Z.to_nat (cand + 1)) by lia.
    destruct (repr_offsets _ _ H') as [l ->]. rewrite take_app_le; [done|]. rewrite length_offsets_from, length_map. lia. }
  rewrite Eoff. destruct (Hub (offsets_from 0 (map r_factors (take (Z.to_nat cand) rs'))) (cap_factors d - nfac rs)) as [Hu1 Hu2].
  { apply (offsets_sorted 0). }
  set (u := upper_bound _ _) in *. rewrite length_offsets_from, length_map, length_take in Hu1.
  assert (forall i, 0 <= i <= cand -> i < u <-> nfac (take (Z.to_nat i) rs') <= cap_factors d - nfac rs) as Hu3.
  { intros i Hi. rewrite <- (Z2Nat.id i) at 1 by lia. apply Hu2.
    destruct (nth_lookup_or_length (offsets_from 0 (map r_factors (take (Z.to_nat cand) rs'))) (Z.to_nat i) 0) as [E|E].
    - rewrite E. f_equal. rewrite offsets_from_lookup by (rewrite length_map, length_take; lia). rewrite firstn_map, take_take.
      replace (Z.to_nat i `min` Z.to_nat cand)%nat with (Z.to_nat i) by lia. done.
    - rewrite length_offsets_from, length_map, length_take in E. lia. }
  assert (0 < u) as Hu0 by (apply (Hu3 0); [lia|]; rewrite take_0, nfac_nil; lia).
  assert (u <= cand) as Hu4. { destruct (Z.lt_ge_cases cand u) as [Hlt|]; [|done]. apply Hu3 in Hlt; lia. }
  destruct (Z.ltb_spec 0 u); [|lia]. pose proof (proj1 (Hu3 (u - 1) ltac:(lia)) ltac:(lia)) as Hk.
  assert ((if 0 <? u - 1 then idx (factor_offsets (d_batch other)) (u - 1) else 0) = nfac (take (Z.to_nat (u - 1)) rs')) as ->.
  { destruct (Z.ltb_spec 0 (u - 1)); [by rewrite (offset_nfac _ rs') by (done || lia)|]. replace (u - 1) with 0 by lia. done. }
  split; [lia|]. split; [done|]. split; [lia|]. split; [lia|]. intros _. right. replace (u - 1 + 1) with u by lia.
  destruct (Z.lt_ge_cases (cap_factors d - nfac rs) (nfac (take (Z.to_nat u) rs'))) as [|Hle]; [lia|]. apply Hu3 in Hle; lia.
Qed.

Lemma append_spec d other rs rs' count :
  device_ok d -> repr (d_batch d) rs -> repr (d_batch other) rs' -> 0 < count <= Z.of_nat (length rs') ->
  let k := (append_amount upper_bound d other count).1 in
  let d' := append upper_bound d other count in
  device_ok d' /\ repr (d_batch d') (rs ++ take (Z.to_nat k) rs') /\ cap_rels d' = cap_rels d /\ cap_factors d' = cap_factors d /\ target_cap_ d' = target_cap_ d.
Proof using Hub.
  intros Hd H H' Hc. pose proof (append_amount_spec d other rs rs' count Hd H H' Hc) as Hk. pose proof (fits_caps d rs Hd H) as [Fr Ff].
  unfold append. destruct (Z.eqb_spec count 0); [lia|]. destruct (append_amount upper_bound d other count) as [k f]. cbn [fst]. cbn zeta.
  destruct Hk as (K1 & K2 & K3 & K4 & _). destruct (Z.eqb_spec k 0) as [->|Hk0].
  { rewrite take_0, app_nil_r. by split. }
  pose proof (repr_num_relations _ _ H) as Nr. pose proof (repr_num_factors _ _ H) as Nf. fold (nfac rs) in Nf. rewrite Nr, Nf.
  destruct Hd as (Hcr & Hcf & Ha). apply repr_prefix in H as (Hp & _ & _). apply repr_prefix in H' as (Hp' & _ & _).
  set (new := take (Z.to_nat k) rs') in *. assert (Z.of_nat (length new) = k) as Hnew by (unfold new; rewrite length_take; lia).
  pose proof (nfac_nonneg new) as Hn0. pose proof (nfac_nonneg rs) as Hn1. rewrite (wrap_small 32 k) by (unfold in_width; lia).
  assert (forall a, cells (batch_of new) a `prefix_of` cells (d_batch other) a) as Hpn.
  { intros a. etrans; [|apply Hp']. rewrite <- (take_drop (Z.to_nat k) rs'), cells_app. by apply prefix_app_r. }
  assert (forall a, Z.of_nat (length (cells (d_batch other) a)) >= extent a k f) as Hlo.
  { intros a. pose proof (prefix_length_le _ _ (Hpn a)) as Hl. pose proof (cells_extent new a) as Hx. rewrite Hnew in Hx. rewrite K2. lia. }
  split; [|split; [|done]].
  - split; [done|]. split; [done|]. intros a. cbn [d_batch cap_rels cap_factors]. rewrite cells_of_cells. pose proof (Ha a) as Hda. pose proof (Hlo a) as Hla.
    unfold extent in Hda, Hla |- *. destruct a; try (rewrite length_memcpy; lia).
    unfold rebase_kernel. rewrite length_memcpy; rewrite ?length_map, ?length_drop; lia.
  - apply repr_prefix. rewrite length_app, nfac_app, Nat2Z.inj_add, Hnew, <- K2. split; [|done]. intros a. cbn [d_batch]. rewrite cells_of_cells, cells_app.
    pose proof (cells_extent rs a) as Hx. pose proof (added_length rs new a) as Hy. rewrite Hnew in Hy. unfold extent in Hx. unfold rebase_kernel.
    assert (forall pos src n, added rs new a `prefix_of` src -> pos = Z.of_nat (length (cells (batch_of rs) a)) -> n = Z.of_nat (length (added rs new a)) ->
      cells (batch_of rs) a ++ added rs new a `prefix_of` memcpy (cells (d_batch d) a) pos src n) as Hcopy by (intros; by apply memcpy_prefix).
    destruct a; try (apply Hcopy; [apply Hpn|lia|lia]).
    apply Hcopy; [|lia|lia]. cbn [added]. destruct (Hpn AOffsets) as [l El]. exists (map (fun o => wrap 64 (o + nfac rs)) l).
    rewrite El, drop_app_le by (rewrite cells_length; lia). rewrite map_app. f_equal. apply map_ext_in. intros o Ho%list_elem_of_In. apply wrap_small.
    assert (0 <= o <= nfac new) as Hob; [|unfold in_width; lia].
    apply list_elem_of_lookup in Ho as [i Hi]. rewrite lookup_drop in Hi. cbn [cells batch_of factor_offsets] in Hi.
    apply (nth_lookup_Some _ _ 0) in Hi as Hi'. pose proof (lookup_lt_Some _ _ _ Hi) as Hlt. rewrite length_offsets_from, length_map in Hlt.
    rewrite offsets_from_lookup in Hi' by (rewrite length_map; lia). rewrite firstn_map in Hi'. fold (all_factors (take (1 + i) new)) in Hi'.
    pose proof (nfac_take new (1 + i)). unfold nfac in *. lia.
Qed.

(** ** Transfers *)

Lemma resize_cells dest nr nf a : cells (resize dest nr nf) a = grow (cells dest a) (extent a nr nf).
Proof using Type. by destruct a. Qed.

Lemma moveToHost_spec d dest rs : repr (d_batch d) rs -> rs <> [] -> repr (moveToHost d dest) rs.
Proof using Type.
  intros H Hne. unfold moveToHost. rewrite (repr_num_relations _ _ H), (repr_num_factors _ _ H). fold (nfac rs).
  destruct (Z.eqb_spec (Z.of_nat (length rs)) 0) as [E|_]; [destruct rs; done|]. apply repr_prefix in H as (Hp & _ & _).
  apply repr_prefix. split; [|done]. intros a. rewrite cells_of_cells. apply memcpy_prefix0; [apply Hp|]. by rewrite cells_extent.
Qed.

(** The cells of a middle section of a batch. *)
Lemma range_prefix b rs offset count a :
  repr b rs -> (offset + count <= length rs)%nat -> (match a with AOffsets | AIndices | ACounts => False | _ => True end) ->
  cells (batch_of (take count (drop offset rs))) a `prefix_of` drop offset (cells b a).
Proof using Type.
  intros H Hr Ha. apply repr_prefix in H as (Hp & _ & _). destruct (Hp a) as [l ->].
  rewrite drop_app_le by (rewrite cells_length; destruct a; try done; lia). apply prefix_app_r.
  destruct a; try done; cbn [cells batch_of sqrt_Q signs val_2_exps large_primes char_bits]; rewrite skipn_map, <- firstn_map; eexists; symmetry; apply take_drop.
Qed.

Lemma moveRangeToHost_spec d dest rs offset count :
  repr (d_batch d) rs -> 0 <= offset -> 0 < count -> offset + count <= Z.of_nat (length rs) ->
  repr (moveRangeToHost d dest offset count) (take (Z.to_nat count) (drop (Z.to_nat offset) rs)).
Proof using Type.
  intros H Ho Hc Hr. unfold moveRangeToHost. destruct (Z.eqb_spec count 0); [lia|]. set (dst := resize dest count _).
  set (new := take (Z.to_nat count) (drop (Z.to_nat offset) rs)). set (pre := take (Z.to_nat offset) rs).
  assert (rs = pre ++ new ++ drop (Z.to_nat (offset + count)) rs) as Ers.
  { unfold pre, new. rewrite <- (take_drop (Z.to_nat offset) rs) at 1. f_equal. rewrite <- (take_drop (Z.to_nat count) (drop (Z.to_nat offset) rs)) at 1.
    f_equal. rewrite drop_drop. f_equal. lia. }
  assert (Z.of_nat (length new) = count) as Hnew by (unfold new; rewrite length_take, length_drop; lia).
  pose proof (nfac_nonneg new) as Hn0. pose proof (nfac_nonneg pre) as Hn1.
  assert (length (offsets_from (nfac pre) (map r_factors new)) = Z.to_nat (count + 1)) as Loff by (rewrite length_offsets_from, length_map; lia).
  (* the offsets copied are those of the range, shifted by the factors before it *)
  assert (offsets_from (nfac pre) (map r_factors new) `prefix_of` drop (Z.to_nat offset) (cells (d_batch d) AOffsets)) as Hoff.
  { destruct (repr_offsets _ _ H) as [l El]. cbn [cells]. rewrite El, drop_app_le by (rewrite length_offsets_from, length_map; lia). apply prefix_app_r.
    rewrite Ers, map_app, offsets_from_app. fold (all_factors pre). rewrite drop_app_length'.
    2: { rewrite removelast_firstn_len, length_take, length_offsets_from, length_map. unfold pre. rewrite length_take. lia. }
    rewrite map_app, offsets_from_app_drop, Z.add_0_l. by apply prefix_app_r. }
  set (offs := memcpy (cells dst AOffsets) 0 _ (count + 1)).
  assert (offsets_from (nfac pre) (map r_factors new) `prefix_of` offs) as Hoffs by (apply memcpy_prefix0; [exact Hoff|lia]).
  assert (take (Z.to_nat (count + 1)) offs = offsets_from (nfac pre) (map r_factors new)) as Etake by (rewrite <- Loff; by apply prefix_take).
  assert (forall i, 0 <= i <= count -> idx offs i = nfac pre + nfac (take (Z.to_nat i) new)) as Hidx.
  { intros i Hi. unfold idx. rewrite (prefix_nth _ _ _ Hoffs) by lia. rewrite offsets_from_lookup by (rewrite length_map; lia).
    rewrite firstn_map. done. }
  rewrite (Hidx 0), (Hidx count), take_0, nfac_nil, Z.add_0_r by lia. rewrite (take_ge new (Z.to_nat count)) by lia.
  replace (nfac pre + nfac new - nfac pre) with (nfac new) by lia.
  apply repr_prefix. split; [|cbn; lia]. intros a. rewrite cells_of_cells.
  assert (forall f : Z * Z -> Z, map f (all_factors new) `prefix_of` drop (Z.to_nat (nfac pre)) (map f (all_factors rs))) as Hfac.
  { intros f. rewrite Ers, all_factors_app, map_app, drop_app_length' by (rewrite length_map; unfold nfac; lia). rewrite all_factors_app, map_app. by apply prefix_app_r. }
  destruct a; try (apply memcpy_prefix0; [apply (range_prefix (d_batch d) rs); try done; lia|rewrite cells_length; lia]).
  - rewrite Etake. cbn [cells batch_of factor_offsets]. apply prefix_app_r.
    rewrite (map_ext _ (fun x => x + - nfac pre)) by (intros; lia). rewrite offsets_shift. by replace (nfac pre + - nfac pre) with 0 by lia.
  - apply memcpy_prefix0; [|rewrite cells_length; done]. destruct (repr_indices _ _ H) as [l El]. cbn [cells batch_of factor_indices]. rewrite El.
    rewrite drop_app_le; [apply prefix_app_r, Hfac|]. rewrite length_map. pose proof (nfac_take rs (Z.to_nat offset)). fold pre in H0. unfold nfac in *. lia.
  - apply memcpy_prefix0; [|rewrite cells_length; done]. destruct (repr_counts _ _ H) as [l El]. cbn [cells batch_of factor_counts]. rewrite El.
    rewrite drop_app_le; [apply prefix_app_r, Hfac|]. rewrite length_map. pose proof (nfac_take rs (Z.to_nat offset)). fold pre in H0. unfold nfac in *. lia.
Qed.

Lemma uploadFromHost_spec d host rs rs0 :
  device_ok d -> repr (d_batch d) rs0 -> repr host rs -> char_bits host <> [] -> 0 < Z.of_nat (length rs) < 2 ^ 32 -> nfac rs < 2 ^ 63 ->
  let d' := uploadFromHost fresh d host in
  device_ok d' /\ repr (d_batch d') rs.
Proof using Hfresh.
  intros Hd Hd0 H Hch Hn Hf. unfold uploadFromHost. rewrite (repr_num_relations _ _ H), (repr_num_factors _ _ H). fold (nfac rs).
  pose proof (nfac_nonneg rs). destruct (Z.eqb_spec (Z.of_nat (length rs)) 0); [lia|].
  destruct (resize_device_spec d (Z.of_nat (length rs)) (nfac rs) rs0 Hd Hd0 ltac:(lia) ltac:(lia)) as (R1 & _ & R3 & R4 & _).
  set (d1 := resize_device fresh d _ _) in *. apply repr_prefix in H as (Hp & _ & _). cbn zeta. destruct (char_bits host) as [|c cs] eqn:Ech; [done|].
  assert (forall a, Z.of_nat (length (cells host a)) >= extent a (Z.of_nat (length rs)) (nfac rs)) as Hl.
  { intros a. pose proof (prefix_length_le _ _ (Hp a)). pose proof (cells_extent rs a). lia. }
  destruct R1 as (B1 & B2 & B3). split.
  - split; [done|]. split; [done|]. intros a. cbn [d_batch cap_rels cap_factors]. rewrite cells_of_cells. pose proof (B3 a) as Hb. pose proof (Hl a) as Hla.
    pose proof (extent_mono a (Z.of_nat (length rs)) (cap_rels d1) (nfac rs) (cap_factors d1) ltac:(lia) ltac:(lia)) as Hm.
    destruct a; (rewrite length_memcpy; [exact Hb|..]); unfold extent in *; lia.
  - apply repr_prefix. split; [|done]. intros a. cbn [d_batch]. rewrite cells_of_cells.
    destruct a; (apply memcpy_prefix0; [apply Hp|]); by rewrite cells_extent.
Qed.

End device_laws.

(** ** Properties *)

(** A device batch that holds [rs] and is appended the first [count] relations of another holds [rs] and the longest
    prefix of them that fits both capacities; nothing else of it changes, its arrays keep their sizes. *)
Theorem append_exact upper_bound d other rs rs' count :
  upper_bound_ok upper_bound -> device_ok d -> repr (d_batch d) rs -> repr (d_batch other) rs' -> 0 < count <= Z.of_nat (length rs') ->
  let k := (append_amount upper_bound d other count).1 in
  let d' := append upper_bound d other count in
  device_ok d' /\ repr (d_batch d') (rs ++ take (Z.to_nat k) rs') /\ 0 <= k <= count /\
  (k < count -> Z.of_nat (length rs) + k = cap_rels d \/ cap_factors d < nfac (rs ++ take (Z.to_nat (k + 1)) rs')).
Proof.
  intros Hub Hd H H' Hc. pose proof (append_amount_spec upper_bound Hub d other rs rs' count Hd H H' Hc) as Hk.
  destruct (append_spec upper_bound Hub d other rs rs' count Hd H H' Hc) as (A1 & A2 & _).
  destruct (append_amount upper_bound d other count) as [k f]. cbn [fst] in *. destruct Hk as (K1 & _ & _ & _ & K5). rewrite nfac_app.
  split; [exact A1|]. split; [exact A2|]. split; [exact K1|exact K5].
Qed.

Lemma ex_fresh_ok : fresh_ok ex_fresh.
Proof. intros a n Hn. unfold ex_fresh. rewrite length_replicate. lia. Qed.

Lemma ex_upper_bound_ok : upper_bound_ok ex_upper_bound.
Proof.
  intros l x. unfold ex_upper_bound. induction l as [|y l IH]; intros Hs; [split; [cbn; lia|]; intros i y; by rewrite lookup_nil|].
  apply StronglySorted_inv in Hs as [Hs Hall]. destruct (IH Hs) as [I1 I2]. cbn [List.filter length]. destruct (Z.leb_spec y x) as [Hle|Hgt]; cbn [length].
  - split; [lia|]. intros [|i] z Hz; [injection Hz as <-; lia|]. apply I2 in Hz. lia.
  - assert (List.filter (fun z => z <=? x) l = []) as E.
    { rewrite (filter_ext_in _ (fun _ => false)); [by rewrite List.filter_false|]. intros z Hz%list_elem_of_In. rewrite Forall_forall in Hall. specialize (Hall z Hz). apply Z.leb_gt. lia. }
    rewrite E. cbn. split; [lia|]. intros i z Hz. apply list_elem_of_lookup_2 in Hz. split; [lia|]. intros Hzx.
    apply elem_of_cons in Hz as [->|Hz]; [lia|]. rewrite Forall_forall in Hall. specialize (Hall z Hz). lia.
Qed.

Lemma ex_device_ok : device_ok ex_device /\ repr (d_batch ex_device) [ex_rel 5 1] /\ device_ok ex_other /\ repr (d_batch ex_other) [ex_rel 1 2; ex_rel 2 2; ex_rel 3 1].
Proof.
  split; [|split; [|split]].
  - split; [by vm_compute|]. split; [by vm_compute|]. intros []; by vm_compute.
  - constructor; try (eexists; vm_compute; reflexivity); by vm_compute.
  - split; [by vm_compute|]. split; [by vm_compute|]. intros []; by vm_compute.
  - constructor; try (eexists; vm_compute; reflexivity); by vm_compute.
Qed.

Lemma append_exact_witness : repr (d_batch (append ex_upper_bound ex_device ex_other 3)) [ex_rel 5 1; ex_rel 1 2].
Proof.
  destruct ex_device_ok as (H1 & H2 & _ & H3).
  exact (proj1 (proj2 (append_exact ex_upper_bound ex_device ex_other _ _ 3 ex_upper_bound_ok H1 H2 H3 ltac:(cbn; lia)))).
Defined.

(** Growing keeps the relations, an upload replaces them by those of the host batch, and a download of everything or of a range gives
    back the relations at those positions, whatever the destination held. *)
Theorem transfer_roundtrip fresh d host rs rs0 dest nr nf offset count :
  fresh_ok fresh -> device_ok d -> repr (d_batch d) rs0 -> repr host rs -> char_bits host <> [] ->
  0 < Z.of_nat (length rs) < 2 ^ 32 -> nfac rs < 2 ^ 63 -> 0 <= nr < 2 ^ 32 -> 0 <= nf < 2 ^ 63 ->
  0 <= offset -> 0 < count -> offset + count <= Z.of_nat (length rs) ->
  let d' := resize_device fresh (uploadFromHost fresh d host) nr nf in
  device_ok d' /\ nr <= cap_rels d' /\ nf <= cap_factors d' /\ repr (d_batch d') rs /\
  repr (moveToHost d' dest) rs /\ repr (moveRangeToHost d' dest offset count) (take (Z.to_nat count) (drop (Z.to_nat offset) rs)).
Proof.
  intros Hfr Hd H0 H Hch Hn Hf Hnr Hnf Ho Hc Hr d'. destruct (uploadFromHost_spec fresh Hfr d host rs rs0 Hd H0 H Hch Hn Hf) as [U1 U2].
  destruct (resize_device_spec fresh Hfr _ nr nf rs U1 U2 Hnr Hnf) as (R1 & R2 & R3 & R4 & _). fold d' in R1, R2, R3, R4.
  split; [done|]. split; [lia|]. split; [lia|]. split; [done|]. split; [|by apply moveRangeToHost_spec].
  apply moveToHost_spec; [done|]. intros E. rewrite E in Hn. cbn in Hn. lia.
Qed.

Lemma transfer_roundtrip_witness :
  repr (moveRangeToHost (resize_device ex_fresh (uploadFromHost ex_fresh ex_device (batch_of [ex_rel 1 2; ex_rel 2 2; ex_rel 3 1])) 9 9) batch_empty 1 1) [ex_rel 2 2].
Proof.
  destruct ex_device_ok as (H1 & H2 & _ & _).
  destruct (transfer_roundtrip ex_fresh ex_device (batch_of [ex_rel 1 2; ex_rel 2 2; ex_rel 3 1]) _ _ batch_empty 9 9 1 1 ex_fresh_ok H1 H2 (repr_batch_of _))
    as (_ & _ & _ & _ & _ & H); first [done|cbn; lia|by vm_compute|exact H].
Defined.
