(* ===== verification/Dedup.v ===== *)
(** Removal of duplicate relations on the device ([compute_relation_hashes_soa] and
    [deduplicatePersistentBatch] of [src/src/postprocessing/postprocessing.cu]): hash every
    relation, sort the indices by hash, keep the first of each run and gather the survivors into a
    fresh batch. The Thrust algorithms are parameters with their documented behaviour. *)
From Stdlib Require Import ZArith Lia Sorted.
From stdpp Require Import base gmap sets list sorting.
From S2P Require Import Prelude Soa Gf2 WarpAppend DeviceBatch.
#[local] Open Scope Z_scope.

(** ** The hash kernel *)

(** The loop body for factor [k]. *)
Definition hash_factor (b : HostRelationBatch) (acc : Z * Z) (k : Z) : Z * Z :=
  let '(exp_xor, body_xor) := acc in
  (Z.lxor exp_xor (wrap 16 (idx (factor_counts b) k)), Z.lxor body_xor (wrap 32 (idx (factor_indices b) k * MAGIC))).

(** One thread of [compute_relation_hashes_soa]. *)
Definition device_hash (b : HostRelationBatch) (i : Z) : Z :=
  let start := idx (factor_offsets b) i in
  let end_ := idx (factor_offsets b) (i + 1) in
  let len := wrap 16 (wrap 64 (end_ - start)) in
  let '(exp_xor, body_xor) := foldl (hash_factor b) (0, 0) (map (Z.add start) (upto (end_ - start))) in
  let sign_val := if negb (idx (signs b) i =? 1) then -1 else 1 in
  let shift_val := sign_val * Z.shiftl 1 (Z.land (idx (val_2_exps b) i) 0x1F) in
  let body_xor := Z.lxor body_xor (wrap 32 shift_val) in
  Z.lor (Z.lor (Z.shiftl len 48) (Z.shiftl exp_xor 32)) body_xor.

Definition compute_relation_hashes_soa (b : HostRelationBatch) (num_relations : Z) : list Z := map (device_hash b) (upto num_relations).

(** ** The gather kernels *)

Definition compute_new_lengths_kernel (old_offsets survivors : list Z) : list Z :=
  map (fun old_idx => wrap 32 (idx old_offsets (old_idx + 1) - idx old_offsets old_idx)) survivors.

(** One thread of [gather_soa_relations_kernel]: relation [old_idx] of [src] becomes relation [new_idx] of [dest]. *)
Definition gather_relation (src dest : HostRelationBatch) (x : Z * Z) : HostRelationBatch :=
  let '(new_idx, old_idx) := x in
  let src_start := idx (factor_offsets src) old_idx in
  let len := idx (factor_offsets src) (old_idx + 1) - src_start in
  let dest_start := idx (factor_offsets dest) new_idx in
  let scalar a := memcpy (cells dest a) new_idx (drop (Z.to_nat old_idx) (cells src a)) 1 in
  let segment a := memcpy (cells dest a) dest_start (drop (Z.to_nat src_start) (cells src a)) len in
  of_cells (fun a => match a with AOffsets => cells dest AOffsets | AIndices | ACounts => segment a | _ => scalar a end)
    (num_relations dest) (num_factors dest).

Definition gather_soa_relations_kernel (src dest : HostRelationBatch) (survivors : list Z) : HostRelationBatch :=
  foldl (gather_relation src) dest (zip (upto (Z.of_nat (length survivors))) survivors).

(** ** The controller *)

Section dedup.
Context (fresh : array -> Z -> list Z).
(** [thrust::sort_by_key] and [thrust::unique_by_key], on (key, value) pairs, and [thrust::exclusive_scan]. *)
Context (sort_by_key unique_by_key : list (Z * Z) -> list (Z * Z)) (exclusive_scan : list Z -> list Z).

(** The indices that survive, in the order of their hashes. *)
Definition survivors_of (b : HostRelationBatch) (current_size : Z) : list Z :=
  map snd (unique_by_key (sort_by_key (zip (compute_relation_hashes_soa b current_size) (upto current_size)))).

Definition deduplicatePersistentBatch (d : RelationBatch) : RelationBatch :=
  let b := d_batch d in
  let current_size := wrap 32 (getCount d) in
  let survivors := survivors_of b current_size in
  let new_size := Z.of_nat (length survivors) in
  let duplicates := wrap 32 (current_size - new_size) in
  if duplicates =? 0 then d
  else
    let new_lengths := compute_new_lengths_kernel (factor_offsets b) survivors in
    let new_offsets := exclusive_scan new_lengths in
    let total_new_factors := idx new_offsets (new_size - 1) + idx new_lengths (new_size - 1) in
    let clean := resize_device fresh (mkDevice batch_empty 0 0 0) new_size total_new_factors in
    let dest := of_cells (fun a => match a with
      | AOffsets => memcpy (cells (d_batch clean) AOffsets) 0 (new_offsets ++ [total_new_factors]) (new_size + 1)
      | _ => cells (d_batch clean) a end) 0 0 in
    let gathered := gather_soa_relations_kernel b dest survivors in
    mkDevice (set_counts gathered new_size total_new_factors) (cap_rels clean) (cap_factors clean) (target_cap_ clean).

End dedup.

(** ** Vocabulary and examples *)

Definition sort_ok (sort_by_key : list (Z * Z) -> list (Z * Z)) : Prop :=
  forall l, sort_by_key l ≡ₚ l /\ StronglySorted (fun x y => x.1 <= y.1) (sort_by_key l).

(** The first of every group of consecutive equal keys; [last] is the key of the group we are in. *)
Fixpoint runs_after (last : option Z) (l : list (Z * Z)) : list (Z * Z) :=
  match l with
  | [] => []
  | x :: l' => if match last with Some k => k =? x.1 | None => false end then runs_after last l' else x :: runs_after (Some x.1) l'
  end.

Definition first_of_runs (l : list (Z * Z)) : list (Z * Z) := runs_after None l.

Definition unique_ok (unique_by_key : list (Z * Z) -> list (Z * Z)) : Prop := forall l, unique_by_key l = first_of_runs l.

(** Sums of the elements before each position, in 32 bits. *)
Definition scan_ok (exclusive_scan : list Z -> list Z) : Prop :=
  forall l, Forall (fun x => 0 <= x) l -> zsum l < 2 ^ 32 -> exclusive_scan l = map (fun i => zsum (take i l)) (seq 0 (length l)).

Definition by_key (x y : Z * Z) : Prop := x.1 <= y.1.
#[global] Instance by_key_dec x y : Decision (by_key x y).
Proof. unfold by_key. apply _. Defined.
Definition ex_sort_by_key (l : list (Z * Z)) : list (Z * Z) := merge_sort by_key l.
Definition ex_scan_sums (l : list Z) : list Z := map (fun i => zsum (take i l)) (seq 0 (length l)).

Definition ex_dup_rels : list relation := [mkRel 9 1 0 1 0 [(4, 1); (2, 2)]; ex_rel 1 2; mkRel 8 1 0 1 5 [(2, 2); (4, 1)]; ex_rel 3 1].
Definition ex_dup : RelationBatch := uploadFromHost ex_fresh (mkDevice batch_empty 0 0 7) (batch_of ex_dup_rels).

Example ex_dedup :
  map r_sqrt_Q (relations (d_batch (deduplicatePersistentBatch ex_fresh ex_sort_by_key first_of_runs ex_scan_sums ex_dup))) = [3; 1; 9].
Proof. by vm_compute. Qed.

(** ** Vocabulary of the specifications *)

Definition rel_nth (rs : list relation) (i : Z) : relation := nth (Z.to_nat i) rs (mkRel 0 0 0 0 0 []).

(** ** The hashes *)

Lemma hash_loop_fold b k n e x : hash_loop b k n e x = foldl (hash_factor b) (e, x) (map (Z.add k) (map Z.of_nat (seq 0 n))).
Proof.
  revert k e x. induction n as [|n IH]; intros k e x; [done|]. cbn [hash_loop seq map foldl hash_factor]. rewrite Z.add_0_r, IH.
  f_equal. rewrite <- seq_shift, !map_map. apply map_ext. intros i. lia.
Qed.

(** The kernel computes the hash of the host code. *)
Lemma device_hash_host b i : 0 <= idx (factor_offsets b) (i + 1) - idx (factor_offsets b) i < 2 ^ 64 -> device_hash b i = computeRelationHash b i.
Proof.
  intros H. unfold device_hash, computeRelationHash, hash_combine, upto. rewrite (wrap_small 64) by done. by rewrite hash_loop_fold.
Qed.

Lemma hashes_spec b rs : repr b rs -> nfac rs < 2 ^ 64 -> compute_relation_hashes_soa b (Z.of_nat (length rs)) = map rel_hash rs.
Proof.
  intros H Hf. unfold compute_relation_hashes_soa, upto. rewrite Nat2Z.id, map_map. apply list_eq. intros i.
  rewrite !list_lookup_fmap. destruct (decide (i < length rs)%nat) as [Hlt|Hge].
  - destruct (lookup_lt_is_Some_2 rs i Hlt) as [r Hr]. rewrite lookup_seq_lt, Hr by done. cbn. f_equal. rewrite device_hash_host.
    + by apply (computeRelationHash_rel b rs).
    + rewrite !(offset_nfac b rs) by (done || lia). replace (Z.to_nat (Z.of_nat i + 1)) with (S i) by lia. rewrite Nat2Z.id.
      rewrite (take_S_r _ _ r Hr), nfac_app. pose proof (nfac_nonneg [r]). pose proof (nfac_take rs (S i)) as Hle. rewrite (take_S_r _ _ r Hr), nfac_app in Hle.
      pose proof (nfac_nonneg (take i rs)). lia.
  - rewrite lookup_seq_ge by lia. rewrite (lookup_ge_None_2 rs) by lia. done.
Qed.

(** ** Runs of equal keys *)

Lemma runs_after_sublist last l : runs_after last l `sublist_of` l.
Proof.
  revert last. induction l as [|x l IH]; intros last; [done|]. cbn [runs_after]. destruct (match last with Some _ => _ | None => _ end); [by constructor|by constructor].
Qed.

Lemma runs_after_spec last l :
  StronglySorted by_key l -> (match last with Some k => Forall (fun y => k <= y.1) l | None => True end) ->
  StronglySorted (fun x y => x.1 < y.1) (runs_after last l) /\
  (forall k, last = Some k -> Forall (fun y => k < y.1) (runs_after last l)) /\
  (forall x, x ∈ l -> last = Some x.1 \/ exists y, y ∈ runs_after last l /\ y.1 = x.1).
Proof.
  revert last. induction l as [|x l IH]; intros last Hs Hl; cbn [runs_after].
  { split; [constructor|]. split; [by constructor|]. by intros x ?%not_elem_of_nil. }
  apply StronglySorted_inv in Hs as [Hs Hx]. assert (Forall (fun y => x.1 <= y.1) l) as Hx' by exact Hx.
  destruct (match last with Some k => k =? x.1 | None => false end) eqn:E.
  - destruct last as [k|]; [|done]. apply Z.eqb_eq in E as ->. destruct (IH (Some x.1) Hs Hx') as (I1 & I2 & I3). split; [done|]. split; [done|].
    intros y [->|Hy]%elem_of_cons; [by left|by apply I3].
  - destruct (IH (Some x.1) Hs Hx') as (I1 & I2 & I3). specialize (I2 _ eq_refl). split; [by constructor|]. split.
    + intros k ->. apply Z.eqb_neq in E. apply Forall_cons in Hl as [Hk _]. constructor; [lia|]. eapply Forall_impl; [exact I2|]. cbn. lia.
    + intros y [->|Hy]%elem_of_cons; [right; exists x; split; [by left|done]|]. destruct (I3 y Hy) as [[= E']|(z & Hz & Ez)]; right.
      * exists x. split; [by left|done].
      * exists z. split; [by right|done].
Qed.

Lemma first_of_runs_spec l :
  StronglySorted by_key l ->
  first_of_runs l `sublist_of` l /\ NoDup (map fst (first_of_runs l)) /\ (forall x, x ∈ l -> x.1 ∈ map fst (first_of_runs l)).
Proof.
  intros Hs. destruct (runs_after_spec None l Hs I) as (H1 & _ & H3). split; [apply runs_after_sublist|]. fold (first_of_runs l) in H1, H3. split.
  - clear H3. induction H1 as [|x m Hm IH Hx]; cbn; [constructor|]. constructor; [|done]. intros Hin. apply list_elem_of_fmap in Hin as (y & Ey & Hy).
    rewrite Forall_forall in Hx. specialize (Hx y Hy). lia.
  - intros x Hx. destruct (H3 x Hx) as [|(y & Hy & <-)]; [done|]. by apply list_elem_of_fmap_2.
Qed.

(** ** The survivors *)

Section survivors.
Context (sort_by_key unique_by_key : list (Z * Z) -> list (Z * Z)) (Hsort : sort_ok sort_by_key) (Hunique : unique_ok unique_by_key).

Lemma rel_nth_all rs : map (rel_nth rs) (upto (Z.of_nat (length rs))) = rs.
Proof using Type.
  unfold upto. rewrite Nat2Z.id, map_map. apply list_eq. intros i. rewrite list_lookup_fmap. destruct (decide (i < length rs)%nat) as [Hlt|Hge].
  - destruct (lookup_lt_is_Some_2 rs i Hlt) as [r Hr]. rewrite lookup_seq_lt, Hr by done. cbn. f_equal. unfold rel_nth. rewrite Nat2Z.id. by apply nth_lookup_Some.
  - rewrite lookup_seq_ge, (lookup_ge_None_2 rs) by lia. done.
Qed.

Lemma survivors_spec b rs :
  repr b rs -> nfac rs < 2 ^ 64 ->
  let s := survivors_of sort_by_key unique_by_key b (Z.of_nat (length rs)) in
  let rs' := map (rel_nth rs) s in
  Forall (fun k => 0 <= k < Z.of_nat (length rs)) s /\
  (exists dropped, s ++ dropped ≡ₚ upto (Z.of_nat (length rs))) /\
  NoDup (map rel_hash rs') /\ (forall r, r ∈ rs -> rel_hash r ∈ map rel_hash rs').
Proof using Hsort Hunique.
  intros H Hf s rs'. set (pairs := zip (map rel_hash rs) (upto (Z.of_nat (length rs)))).
  assert (s = map snd (first_of_runs (sort_by_key pairs))) as Es by (unfold s, survivors_of, pairs; rewrite hashes_spec by done; by rewrite Hunique).
  destruct (Hsort pairs) as [P1 P2]. destruct (first_of_runs_spec _ P2) as (S1 & S2 & S3). set (kept := first_of_runs (sort_by_key pairs)) in *.
  assert (length (map rel_hash rs) = length (upto (Z.of_nat (length rs)))) as Hlen by (unfold upto; rewrite !length_map, length_seq; lia).
  assert (map snd pairs = upto (Z.of_nat (length rs))) as Esnd by (apply snd_zip; lia).
  assert (forall x, x ∈ pairs -> 0 <= x.2 < Z.of_nat (length rs) /\ x.1 = rel_hash (rel_nth rs x.2)) as Hpair.
  { intros x Hx. apply list_elem_of_lookup in Hx as [k Hk]. apply lookup_zip_with_Some in Hk as (h & i & -> & H1 & H2). cbn.
    pose proof (lookup_lt_Some _ _ _ H2) as Hlt. unfold upto in Hlt, H2. rewrite length_map, length_seq in Hlt. rewrite list_lookup_fmap, lookup_seq_lt in H2 by done. injection H2 as <-.
    split; [lia|]. rewrite list_lookup_fmap in H1. apply fmap_Some in H1 as (r & Hr & ->). unfold rel_nth. rewrite Nat2Z.id. by rewrite (nth_lookup_Some _ _ _ _ Hr). }
  assert (forall x, x ∈ kept -> x ∈ pairs) as Hkept by (intros x Hx; rewrite <- P1; by eapply elem_of_sublist).
  assert (map rel_hash rs' = map fst kept) as Ehash.
  { unfold rs'. rewrite Es, !map_map. apply map_ext_in. intros x Hx%list_elem_of_In. symmetry. by apply Hpair, Hkept. }
  split; [|split; [|split]].
  - rewrite Es. apply Forall_map, Forall_forall. intros x Hx. by apply Hpair, Hkept.
  - apply sublist_submseteq, submseteq_Permutation in S1 as [dropped Hd]. exists (map snd dropped).
    rewrite Es, <- map_app, <- Hd, P1, Esnd. done.
  - by rewrite Ehash.
  - intros r Hr. rewrite Ehash. apply list_elem_of_lookup in Hr as [k Hk]. pose proof (lookup_lt_Some _ _ _ Hk) as Hlt.
    assert ((rel_hash r, Z.of_nat k) ∈ pairs) as Hin.
    { apply list_elem_of_lookup. exists k. apply lookup_zip_with_Some. exists (rel_hash r), (Z.of_nat k). split; [done|]. split.
      - by rewrite list_lookup_fmap, Hk.
      - unfold upto. rewrite list_lookup_fmap, lookup_seq_lt by lia. done. }
    rewrite <- P1 in Hin. exact (S3 _ Hin).
Qed.

End survivors.

(** ** The gather *)

Lemma new_batch_length fresh nr nf a :
  fresh_ok fresh -> 0 < nr -> 0 <= nf -> Z.of_nat (length (cells (d_batch (resize_device fresh (mkDevice batch_empty 0 0 0) nr nf)) a)) = extent a nr nf.
Proof.
  intros Hf Hr Hn. unfold resize_device. cbn [d_batch cap_rels cap_factors target_cap_ num_relations num_factors batch_empty].
  rewrite !Z.max_r by lia. destruct (Z.eqb_spec nr 0); [lia|]. cbn [andb]. cbn zeta.
  replace (Z.min (Z.min 0 nr) 0) with 0 by lia. replace (Z.min (Z.min 0 nf) 0) with 0 by lia. cbn [d_batch]. rewrite cells_of_cells.
  assert (forall dst src, memcpy dst 0 src 0 = dst) as Em by (intros; unfold memcpy; by rewrite !take_0, drop_0).
  assert (forall a, 0 <= extent a nr nf) as He by (intros []; cbn; lia). pose proof (Hf a (extent a nr nf) (He a)) as Hl.
  rewrite !Em. change (0 <? 0) with false. cbn iota.
  destruct a; try exact Hl; [rewrite length_replicate; cbn; lia|]. rewrite (proj2 (set_offset0_spec (fresh AOffsets (extent AOffsets nr nf)) ltac:(unfold extent in *; lia))). exact Hl.
Qed.

Section gather.
Context (src : HostRelationBatch) (rs : list relation) (Hsrc : repr src rs).
Context (survivors : list Z) (Hin : Forall (fun k => 0 <= k < Z.of_nat (length rs)) survivors).

Notation kept := (map (rel_nth rs) survivors).

Lemma survivor_relation k : 0 <= k < Z.of_nat (length rs) -> rs !! Z.to_nat k = Some (rel_nth rs k).
Proof using Type. intros Hk. destruct (lookup_lt_is_Some_2 rs (Z.to_nat k) ltac:(lia)) as [r Hr]. unfold rel_nth. by rewrite (nth_lookup_Some _ _ _ _ Hr). Qed.

(** The cells of one relation, at its place in the source. *)
Lemma source_scalar k a : 0 <= k < Z.of_nat (length rs) ->
  match a with AOffsets | AIndices | ACounts => True | _ => extension 0 (rel_nth rs k) a `prefix_of` drop (Z.to_nat k) (cells src a) end.
Proof using Hsrc.
  intros Hk. pose proof (survivor_relation k Hk) as Hr.
  assert (forall (l : list Z) (f : relation -> Z), map f rs `prefix_of` l -> [f (rel_nth rs k)] `prefix_of` drop (Z.to_nat k) l) as Hp.
  { intros l f [m ->]. rewrite drop_app_le by (rewrite length_map; lia). apply prefix_app_r. rewrite skipn_map, (drop_S _ _ _ Hr). cbn. by exists (map f (drop (S (Z.to_nat k)) rs)). }
  destruct a; try done; apply Hp; apply Hsrc.
Qed.

Lemma source_segment k (f : Z * Z -> Z) (l : list Z) : 0 <= k < Z.of_nat (length rs) -> map f (all_factors rs) `prefix_of` l ->
  map f (r_factors (rel_nth rs k)) `prefix_of` drop (Z.to_nat (idx (factor_offsets src) k)) l.
Proof using Hsrc.
  intros Hk [m ->]. pose proof (survivor_relation k Hk) as Hr. rewrite (offset_nfac src rs) by (done || lia).
  pose proof (nfac_take rs (Z.to_nat k)) as Hle. unfold nfac in *. rewrite drop_app_le by (rewrite length_map; lia). apply prefix_app_r.
  assert (all_factors rs = all_factors (take (Z.to_nat k) rs) ++ r_factors (rel_nth rs k) ++ all_factors (drop (S (Z.to_nat k)) rs)) as ->.
  { rewrite <- (take_drop_middle rs _ _ Hr) at 1. by rewrite all_factors_app, all_factors_cons. }
  rewrite map_app, Nat2Z.id, drop_app_length' by (by rewrite length_map). rewrite map_app. by apply prefix_app_r.
Qed.

Lemma source_length k : 0 <= k < Z.of_nat (length rs) -> idx (factor_offsets src) (k + 1) - idx (factor_offsets src) k = nfac [rel_nth rs k].
Proof using Hsrc.
  intros Hk. pose proof (survivor_relation k Hk) as Hr. rewrite !(offset_nfac src rs) by (done || lia). replace (Z.to_nat (k + 1)) with (S (Z.to_nat k)) by lia.
  rewrite (take_S_r _ _ _ Hr), nfac_app. lia.
Qed.

Lemma nfac_one r : nfac [r] = Z.of_nat (length (r_factors r)).
Proof using Type. unfold nfac. cbn. by rewrite app_nil_r. Qed.

(** After [j] rounds the first [j] survivors are in place. *)
Record gather_inv (dest : HostRelationBatch) (j : nat) (g : HostRelationBatch) : Prop := mkGatherInv {
  gi_offsets : cells g AOffsets = cells dest AOffsets;
  gi_cells : forall a, a <> AOffsets -> cells (batch_of (take j kept)) a `prefix_of` cells g a;
  gi_length : forall a, length (cells g a) = length (cells dest a)
}.

Lemma gather_step dest j k g :
  offsets_from 0 (map r_factors kept) `prefix_of` cells dest AOffsets ->
  (forall a, Z.of_nat (length (cells dest a)) = extent a (Z.of_nat (length kept)) (nfac kept)) ->
  survivors !! j = Some k -> gather_inv dest j g -> gather_inv dest (S j) (gather_relation src g (Z.of_nat j, k)).
Proof using Hsrc Hin.
  intros Hoff Hlen Hj [G1 G2 G3]. pose proof (Forall_lookup_1 _ _ _ _ Hin Hj) as Hk. cbn beta in Hk. pose proof (lookup_lt_Some _ _ _ Hj) as Hlt.
  assert (kept !! j = Some (rel_nth rs k)) as Hkj by (by rewrite list_lookup_fmap, Hj). unfold gather_relation.
  assert (idx (factor_offsets g) (Z.of_nat j) = nfac (take j kept)) as ->.
  { change (factor_offsets g) with (cells g AOffsets). rewrite G1. unfold idx. rewrite Nat2Z.id.
    rewrite (prefix_nth _ _ _ Hoff) by (rewrite length_offsets_from, !length_map; lia). rewrite offsets_from_lookup by (rewrite !length_map; lia).
    rewrite firstn_map. done. }
  rewrite source_length by done. pose proof (source_scalar k) as Hsc. pose proof (nfac_nonneg [rel_nth rs k]) as Hn.
  assert (nfac (take j kept) + nfac [rel_nth rs k] <= nfac kept) as Hroom.
  { pose proof (nfac_take kept (S j)) as Hle. by rewrite (take_S_r _ _ _ Hkj), nfac_app in Hle. }
  assert (Z.of_nat (length (take j kept)) = Z.of_nat j) as Hjl by (rewrite length_take, length_map; lia).
  pose proof (source_segment k fst (cells src AIndices) Hk (repr_indices _ _ Hsrc)) as Hs1.
  pose proof (source_segment k snd (cells src ACounts) Hk (repr_counts _ _ Hsrc)) as Hs2.
  constructor.
  - by rewrite cells_of_cells.
  - intros a Ha. rewrite cells_of_cells, (take_S_r _ _ _ Hkj), cells_snoc.
    assert (forall pos s n, extension (nfac (take j kept)) (rel_nth rs k) a `prefix_of` s -> pos = Z.of_nat (length (cells (batch_of (take j kept)) a)) ->
      n = Z.of_nat (length (extension (nfac (take j kept)) (rel_nth rs k) a)) ->
      cells (batch_of (take j kept)) a ++ extension (nfac (take j kept)) (rel_nth rs k) a `prefix_of` memcpy (cells g a) pos s n) as Hcopy
      by (intros; apply memcpy_prefix; auto).
    specialize (Hsc a Hk). destruct a; try done; (apply Hcopy; [first [exact Hsc|exact Hs1|exact Hs2]|rewrite cells_length; unfold nfac; lia|]);
      cbn [extension]; rewrite ?length_map, ?nfac_one; done.
  - intros a. rewrite cells_of_cells, <- G3. pose proof (G3 a) as Hg. pose proof (Hlen a) as Hl. unfold extent in Hl. rewrite length_map in Hl.
    specialize (Hsc a Hk). destruct a; try done; apply length_memcpy; try (pose proof (nfac_nonneg (take j kept))); try lia.
    all: first [apply prefix_length_le in Hsc; cbn [extension length] in Hsc; lia|apply prefix_length_le in Hs1; rewrite length_map in Hs1; rewrite nfac_one; lia
      |apply prefix_length_le in Hs2; rewrite length_map in Hs2; rewrite nfac_one; lia].
Qed.

Lemma gather_spec dest :
  offsets_from 0 (map r_factors kept) `prefix_of` cells dest AOffsets ->
  (forall a, Z.of_nat (length (cells dest a)) = extent a (Z.of_nat (length kept)) (nfac kept)) ->
  gather_inv dest (length survivors) (gather_soa_relations_kernel src dest survivors).
Proof using Hsrc Hin.
  intros Hoff Hlen. unfold gather_soa_relations_kernel, upto. rewrite Nat2Z.id.
  assert (forall n, (n <= length survivors)%nat ->
    gather_inv dest n (foldl (gather_relation src) dest (zip (map Z.of_nat (seq 0 n)) (take n survivors)))) as H.
  { intros n. induction n as [|n IH]; intros Hn.
    - constructor; [done| |done]. intros a Ha. rewrite take_0. destruct a; try done; apply prefix_nil.
    - destruct (lookup_lt_is_Some_2 survivors n ltac:(lia)) as [k Hk]. rewrite (take_S_r _ _ _ Hk), seq_S, map_app, zip_with_app.
      2: { rewrite length_map, length_seq, length_take. lia. }
      rewrite foldl_app. cbn [map zip_with foldl]. apply gather_step; [done|done|done|]. apply IH. lia. }
  specialize (H (length survivors) ltac:(lia)). by rewrite take_ge in H by lia.
Qed.

End gather.

(** ** The compaction *)

Lemma lengths_spec src rs survivors :
  repr src rs -> Forall (fun k => 0 <= k < Z.of_nat (length rs)) survivors -> nfac rs < 2 ^ 32 ->
  compute_new_lengths_kernel (factor_offsets src) survivors = map (fun r => nfac [r]) (map (rel_nth rs) survivors).
Proof.
  intros Hsrc Hin Hf. unfold compute_new_lengths_kernel. rewrite map_map. apply map_ext_in. intros k Hk%list_elem_of_In.
  rewrite Forall_forall in Hin. specialize (Hin k Hk). rewrite (source_length src rs Hsrc k Hin). apply wrap_small.
  pose proof (survivor_relation rs k Hin) as Hr. pose proof (nfac_take rs (S (Z.to_nat k))) as Hle. rewrite (take_S_r _ _ _ Hr), nfac_app in Hle.
  pose proof (nfac_nonneg (take (Z.to_nat k) rs)). pose proof (nfac_nonneg [rel_nth rs k]). unfold in_width. lia.
Qed.

Lemma zsum_nfac rs : zsum (map (fun r => nfac [r]) rs) = nfac rs.
Proof. induction rs as [|r rs IH]; [done|]. cbn [map]. rewrite zsum_cons, IH. rewrite (nfac_app [r] rs : nfac (r :: rs) = _). done. Qed.

(** The scanned lengths and their total are the offsets of the kept relations. *)
Lemma scanned_offsets exclusive_scan rs :
  scan_ok exclusive_scan -> nfac rs < 2 ^ 32 -> rs <> [] ->
  let lens := map (fun r => nfac [r]) rs in
  let offs := exclusive_scan lens in
  let n := Z.of_nat (length rs) in
  idx offs (n - 1) + idx lens (n - 1) = nfac rs /\ offs ++ [nfac rs] = offsets_from 0 (map r_factors rs).
Proof.
  intros Hscan Hf Hne lens offs n. assert (Forall (fun x => 0 <= x) lens) as Hpos by (apply Forall_map, Forall_true; intros r; apply nfac_nonneg).
  pose proof (Hscan lens Hpos ltac:(unfold lens; by rewrite zsum_nfac)) as Eoffs. fold offs in Eoffs.
  assert (length lens = length rs) as Ll by (unfold lens; by rewrite length_map).
  assert (forall i, (i < length rs)%nat -> offs !! i = Some (nfac (take i rs))) as Hi.
  { intros i Hlt. rewrite Eoffs, list_lookup_fmap, lookup_seq_lt by lia. cbn. f_equal. unfold lens. rewrite firstn_map. apply zsum_nfac. }
  assert (length offs = length rs) as Lo by (by rewrite Eoffs, length_map, length_seq). split.
  - destruct (exists_last Hne) as (pre & r & E). unfold idx, n, lens. rewrite E, length_app. cbn [length].
    replace (Z.to_nat (Z.of_nat (length pre + 1) - 1)) with (length pre) by lia. rewrite E, length_app in Hi. cbn [length] in Hi.
    rewrite (nth_lookup_Some _ _ _ _ (Hi (length pre) ltac:(lia))), take_app_length, map_app, nfac_app. f_equal.
    replace (length pre) with (length (map (fun r => nfac [r]) pre)) by apply length_map. cbn [map]. by rewrite nth_middle.
  - apply list_eq. intros i. destruct (decide (i < length rs)%nat) as [Hlt|Hge].
    + rewrite lookup_app_l, Hi by lia. symmetry. destruct (nth_lookup_or_length (offsets_from 0 (map r_factors rs)) i 0) as [E|E].
      * rewrite E, offsets_from_lookup by (rewrite length_map; lia). rewrite firstn_map. done.
      * rewrite length_offsets_from, length_map in E. lia.
    + destruct (decide (i = length rs)) as [->|].
      * pose proof (cells_last_offset rs) as Hc. cbn [cells batch_of factor_offsets] in Hc. rewrite Hc, <- Lo. by apply list_lookup_middle.
      * rewrite !lookup_ge_None_2; [done| |]; rewrite ?length_offsets_from, ?length_app, ?length_map; cbn; lia.
Qed.

(** ** Properties *)

(** C21. Deduplication keeps, for every hash that occurs, exactly one of the relations that have it, whole, and nothing else: the persistent batch
    holds a sub-multiset of its relations with pairwise different hashes. Without duplicates the batch is unchanged;
    otherwise it is a fresh one, as large as needed and without a target cap. *)
Theorem deduplicatePersistentBatch_exact fresh sort_by_key unique_by_key exclusive_scan d rs :
  fresh_ok fresh -> sort_ok sort_by_key -> unique_ok unique_by_key -> scan_ok exclusive_scan ->
  device_ok d -> repr (d_batch d) rs -> nfac rs < 2 ^ 32 ->
  let d' := deduplicatePersistentBatch fresh sort_by_key unique_by_key exclusive_scan d in
  exists rs' dropped, device_ok d' /\ repr (d_batch d') rs' /\ rs' ++ dropped ≡ₚ rs /\
    NoDup (map rel_hash rs') /\ (forall r, r ∈ rs -> rel_hash r ∈ map rel_hash rs') /\
    (dropped = [] /\ d' = d \/ dropped <> [] /\ cap_rels d' = Z.of_nat (length rs') /\ cap_factors d' = nfac rs' /\ target_cap_ d' = 0).
Proof.
  intros Hfr Hsort Hun Hscan Hd H Hf. destruct Hd as (Hcr & Hcf & Ha). pose proof (fits_caps d rs (conj Hcr (conj Hcf Ha)) H) as [Fr Ff].
  unfold deduplicatePersistentBatch, getCount. rewrite (repr_num_relations _ _ H), (wrap_small 32 (Z.of_nat (length rs))) by (unfold in_width; lia).
  destruct (survivors_spec sort_by_key unique_by_key Hsort Hun (d_batch d) rs H ltac:(lia)) as (S1 & [dropped S2] & S3 & S4).
  set (s := survivors_of sort_by_key unique_by_key (d_batch d) (Z.of_nat (length rs))) in *. set (rs' := map (rel_nth rs) s) in *.
  assert (rs' ++ map (rel_nth rs) dropped ≡ₚ rs) as Hperm by (unfold rs'; by rewrite <- map_app, S2, rel_nth_all).
  pose proof (Permutation_length Hperm) as Hlen. rewrite length_app, !length_map in Hlen.
  assert (Z.of_nat (length rs') = Z.of_nat (length s)) as Es by (unfold rs'; by rewrite length_map).
  cbn zeta. rewrite (wrap_small 32) by (unfold in_width; lia). destruct (Z.eqb_spec (Z.of_nat (length rs) - Z.of_nat (length s)) 0) as [E0|E0].
  { assert (dropped = []) as -> by (destruct dropped; [done|cbn [length] in Hlen; lia]). cbn in Hperm. rewrite app_nil_r in Hperm.
    exists rs, []. rewrite app_nil_r. split; [done|]. split; [done|]. split; [done|]. split; [by rewrite <- Hperm|]. split; [|by left].
    intros r Hr. by apply list_elem_of_fmap_2. }
  assert (nfac rs' <= nfac rs) as Hfle.
  { assert (forall l1 l2, l1 ≡ₚ l2 -> nfac l1 = nfac l2) as Hp by (intros l1 l2 Hp; unfold nfac, all_factors; by rewrite Hp).
    rewrite <- (Hp _ _ Hperm), nfac_app. pose proof (nfac_nonneg (map (rel_nth rs) dropped)). lia. }
  pose proof (nfac_nonneg rs') as Hn0.
  assert (rs' <> []) as Hne.
  { intros E. rewrite E in S4. destruct rs as [|r rs]; [cbn [length] in E0, Hlen; lia|]. specialize (S4 r ltac:(by left)). by apply not_elem_of_nil in S4. }
  assert (0 < Z.of_nat (length s)) as Hs0 by (rewrite <- Es; destruct rs'; [done|cbn; lia]).
  rewrite (lengths_spec (d_batch d) rs s H S1 Hf). fold rs'.
  destruct (scanned_offsets exclusive_scan rs' Hscan ltac:(lia) Hne) as [T1 T2]. rewrite Es in T1. rewrite T1, T2.
  set (clean := resize_device fresh _ _ _). pose proof (fun a => new_batch_length fresh (Z.of_nat (length s)) (nfac rs') a Hfr Hs0 Hn0) as Lc. fold clean in Lc.
  set (dest := of_cells _ 0 0).
  assert (cells dest AOffsets = memcpy (cells (d_batch clean) AOffsets) 0 (offsets_from 0 (map r_factors rs')) (Z.of_nat (length s) + 1)) as Eoff by done.
  assert (offsets_from 0 (map r_factors rs') `prefix_of` cells dest AOffsets) as Hoff.
  { rewrite Eoff. apply memcpy_prefix0; [done|]. rewrite length_offsets_from, length_map. lia. }
  assert (forall a, Z.of_nat (length (cells dest a)) = extent a (Z.of_nat (length rs')) (nfac rs')) as Hdl.
  { intros a. rewrite Es, <- (Lc a). destruct a; try done. rewrite Eoff, length_memcpy; [done|..]; rewrite ?length_offsets_from, ?length_map; try lia.
    specialize (Lc AOffsets). unfold extent in Lc. lia. }
  destruct (gather_spec (d_batch d) rs H s S1 dest Hoff Hdl) as [G1 G2 G3]. fold rs' in G2. rewrite take_ge in G2 by lia.
  assert (cap_rels clean = Z.of_nat (length s) /\ cap_factors clean = nfac rs' /\ target_cap_ clean = 0) as (C1 & C2 & C3).
  { unfold clean, resize_device. cbn [cap_rels cap_factors]. rewrite !Z.max_r by lia. destruct (Z.eqb_spec (Z.of_nat (length s)) 0); [lia|]. done. }
  exists rs', (map (rel_nth rs) dropped). cbn [d_batch cap_rels cap_factors target_cap_]. rewrite C1, C2, C3. split; [|split; [|split; [done|split; [done|split; [done|]]]]].
  - split; [cbn; lia|]. split; [cbn; lia|]. intros a. cbn [d_batch cap_rels cap_factors]. change (cells (set_counts ?g _ _) a) with (cells (set_counts g 0 0) a).
    transitivity (Z.of_nat (length (cells dest a))); [|rewrite Hdl, Es; done]. f_equal. rewrite <- G3. by destruct a.
  - apply repr_prefix. split; [|split; [cbn; lia|done]]. intros a. assert (forall g nr nf, cells (set_counts g nr nf) a = cells g a) as -> by (by destruct a).
    destruct (decide (a = AOffsets)) as [->|Hna]; [by rewrite G1|by apply G2].
  - right. split; [|lia]. intros E. apply map_eq_nil in E. rewrite E in Hlen. cbn [length] in Hlen. lia.
Qed.

Lemma ex_sort_ok : sort_ok ex_sort_by_key.
Proof.
  intros l. assert (Transitive by_key) by (intros x y z; unfold by_key; lia).
  assert (Total by_key) by (intros x y; unfold by_key; lia). split; [apply merge_sort_Permutation|]. by apply (StronglySorted_merge_sort by_key).
Qed.

Lemma deduplicatePersistentBatch_exact_witness :
  let d' := deduplicatePersistentBatch ex_fresh ex_sort_by_key first_of_runs ex_scan_sums ex_dup in
  exists rs', repr (d_batch d') rs' /\ NoDup (map rel_hash rs') /\ map r_sqrt_Q rs' = [3; 1; 9].
Proof.
  destruct (deduplicatePersistentBatch_exact ex_fresh ex_sort_by_key first_of_runs ex_scan_sums ex_dup ex_dup_rels) as (rs' & dropped & _ & H & _ & H1 & _).
  - exact ex_fresh_ok.
  - exact ex_sort_ok.
  - intros l. reflexivity.
  - intros l _ _. reflexivity.
  - split; [by vm_compute|]. split; [by vm_compute|]. intros []; by vm_compute.
  - constructor; try (eexists; vm_compute; reflexivity); by vm_compute.
  - by vm_compute.
  - exists rs'. split; [exact H|]. split; [exact H1|]. rewrite <- (repr_relations _ _ H). vm_compute. reflexivity.
Defined.
