(* ===== verification/Postprocess.v ===== *)
(** The controller of post-processing ([DevicePostProcessingController] of
    [src/src/postprocessing/postprocessing.cu]): double-buffered accumulation of candidates, the
    batched factorization with its two concurrent appends, the consolidation into the persistent
    batch, the batch-sieve path that writes there directly, and the yield prediction. The kernels
    run concurrently, so an operation that launches one is a relation between states. *)
From Stdlib Require Import ZArith Lia.
From stdpp Require Import base gmap sets list relations.
From S2P Require Import Prelude Soa Gf2 UInt512 Doubles Congruence SqrtStep Factorization.
From S2P Require Import Candidates WarpAppend DeviceBatch.
#[local] Open Scope Z_scope.

(** ** State *)

(** The accumulation side ([d_accumulation_buffer] and its counter) and the processing side, which [swapBuffers] exchanges; in the
    batch-sieve path, which works on the same two arrays, they are [buffers[active_accum_idx]] and the other one. Then the host count and
    flag, the temporary batches and the persistent one, and the dual counters of the batch-sieve path. *)
Record postproc := mkPost {
  pp_accumulation : accumulation;
  pp_processing : accumulation;
  accumulation_count : Z;
  is_flushed : bool;
  d_full_batch : RelationBatch;
  d_partial_batch : option RelationBatch;
  d_persistent_batch : option RelationBatch;
  d_partial_dual_counter : Z;
  d_persistent_dual_counter : Z
}.

(** ** The factorization kernels *)

(** Blocks of 256 threads: the warps take the candidates in groups of 32, the last one partly active. *)
Fixpoint warps_of {A} (fuel : nat) (l : list A) : list (list A) :=
  match fuel, l with
  | S f, _ :: _ => take 32 l :: warps_of f (drop 32 l)
  | _, _ => []
  end.

Section kernel.
Context (factorBase : list Z) (cfg : PostProcConfig) (N : uint512).

(** The lanes of the first and of the second append: the relation of a thread whose predicate holds. *)
Definition full_lane (c : DenseCandidate) : lane :=
  b ← processCandidate factorBase cfg N c; if is_full b then Some (born b) else None.
Definition partial_lane (c : DenseCandidate) : lane :=
  b ← processCandidate factorBase cfg N c; if is_valid_partial b then Some (born b) else None.

(** A finished run of one of the appends of [batchedFactorizationKernel] (or [batchedBatchFactorizationKernelSoA]) on the candidates,
    from the given value of the dual counter, then committed. *)
Definition append_run (to_lane : DenseCandidate -> lane) (d : RelationBatch) (dual : Z) (cands : list DenseCandidate) (st : append_state) : Prop :=
  rtc (append_step (get_view d)) (append_start (d_batch d) dual (map (map to_lane) (warps_of (length cands) cands))) st /\ finished st.

Definition committed (d : RelationBatch) (st : append_state) : RelationBatch :=
  mkDevice (commit_dual_counter_kernel (as_dual st) (as_batch st)) (cap_rels d) (cap_factors d) (target_cap_ d).

(** The partial append is skipped when there is no partial batch. *)
Inductive partial_run (cands : list DenseCandidate) : option RelationBatch -> Z -> option RelationBatch -> Z -> Prop :=
  | partial_none dual : partial_run cands None dual None dual
  | partial_some d dual st : append_run partial_lane d dual cands st -> partial_run cands (Some d) dual (Some (committed d st)) (as_dual st).

(** ** Operations *)

(** [accumulate]: [order] is the raw input in the order in which its threads reserve their slots. Returns whether to purge. *)
Definition accumulate (current_a : uint512) (a_factors : list Z) (order : list candidateRelation) (s : postproc) : postproc * bool :=
  let cap := accumulate_buffer_size cfg in
  let acc := clampCounterKernel cap (expandAndAccumulateKernel current_a a_factors cap order (pp_accumulation s)) in
  let count := ac_counter acc in
  (mkPost acc (pp_processing s) count false (d_full_batch s) (d_partial_batch s) (d_persistent_batch s) (d_partial_dual_counter s) (d_persistent_dual_counter s),
   accumulate_batch_purge_threshold cfg <=? count).

(** [swapBuffers] and [resetAccumulation]. *)
Definition swap_and_reset (s : postproc) : postproc :=
  mkPost (mkAccumulation (ac_buffer (pp_processing s)) 0) (pp_accumulation s) 0 (is_flushed s) (d_full_batch s) (d_partial_batch s)
    (d_persistent_batch s) (d_partial_dual_counter s) (d_persistent_dual_counter s).

(** [thrust::sort] by [true_x]. *)
Context (sort_candidates : list DenseCandidate -> list DenseCandidate).

(** [processBufferedCandidates]. *)
Inductive processBufferedCandidates (s : postproc) : postproc -> Prop :=
  | process_flushed : is_flushed s = true -> processBufferedCandidates s s
  | process_empty : is_flushed s = false -> accumulation_count s = 0 -> processBufferedCandidates s (swap_and_reset s)
  | process_run st partial dual :
      is_flushed s = false -> accumulation_count s <> 0 ->
      let s1 := swap_and_reset s in
      let count := Z.to_nat (accumulation_count s) in
      let sorted := sort_candidates (take count (ac_buffer (pp_processing s1))) in
      let full := reset_counters (d_full_batch s1) in
      append_run full_lane full 0 sorted st ->
      partial_run sorted (reset_counters <$> d_partial_batch s1) (if d_partial_batch s1 then 0 else d_partial_dual_counter s1) partial dual ->
      processBufferedCandidates s
        (mkPost (pp_accumulation s1) (mkAccumulation (sorted ++ drop count (ac_buffer (pp_processing s1))) (ac_counter (pp_processing s1)))
           0 false (committed full st) partial (d_persistent_batch s1) dual (d_persistent_dual_counter s1)).

Context (upper_bound : list Z -> Z -> Z).

Definition consolidateToPersistent (s : postproc) : postproc :=
  match d_persistent_batch s with
  | None => s
  | Some p =>
      let new_full_count := getCount (d_full_batch s) in
      if new_full_count =? 0 then s
      else mkPost (pp_accumulation s) (pp_processing s) (accumulation_count s) (is_flushed s) (reset_counters (d_full_batch s)) (d_partial_batch s)
             (Some (append upper_bound p (d_full_batch s) new_full_count)) (d_partial_dual_counter s) (d_persistent_dual_counter s)
  end.

(** [flush]: the host count is read back from the counter first. *)
Definition read_count (s : postproc) : postproc :=
  mkPost (pp_accumulation s) (pp_processing s) (ac_counter (pp_accumulation s)) (is_flushed s) (d_full_batch s) (d_partial_batch s)
    (d_persistent_batch s) (d_partial_dual_counter s) (d_persistent_dual_counter s).

Inductive flush (s : postproc) : postproc -> Prop :=
  | flush_empty : accumulation_count (read_count s) <= 0 -> flush s (read_count s)
  | flush_run s' : 0 < accumulation_count (read_count s) -> processBufferedCandidates (read_count s) s' -> flush s (consolidateToPersistent s').

Definition resetPartialBatch (s : postproc) : postproc :=
  match d_partial_batch s with
  | None => s
  | Some p => mkPost (pp_accumulation s) (pp_processing s) (accumulation_count s) (is_flushed s) (d_full_batch s) (Some (reset_counters p))
                (d_persistent_batch s) 0 (d_persistent_dual_counter s)
  end.

Definition resyncPersistentDualCounter (s : postproc) : postproc :=
  match d_persistent_batch s with
  | None => s
  | Some p => mkPost (pp_accumulation s) (pp_processing s) (accumulation_count s) (is_flushed s) (d_full_batch s) (d_partial_batch s)
                (Some p) (d_partial_dual_counter s) (sync_dual_counter_from_batch_kernel (d_batch p))
  end.

(** [processBatchBufferedCandidates] on the active buffer: the candidates are the first [*d_counter] slots, the full relations go to the
    persistent batch and neither dual counter is reset; at the end the buffer's counter is zero and the other buffer is the active one. *)
Inductive processBatchBufferedCandidates (s : postproc) : postproc -> Prop :=
  | process_batch_none : d_persistent_batch s = None -> processBatchBufferedCandidates s s
  | process_batch p st partial dual :
      d_persistent_batch s = Some p ->
      let active := pp_accumulation s in
      let cands := take (Z.to_nat (ac_counter active)) (ac_buffer active) in
      append_run full_lane p (d_persistent_dual_counter s) cands st ->
      partial_run cands (d_partial_batch s) (d_partial_dual_counter s) partial dual ->
      processBatchBufferedCandidates s
        (mkPost (pp_processing s) (mkAccumulation (ac_buffer active) 0) (accumulation_count s) (is_flushed s) (d_full_batch s) partial
           (Some (committed p st)) dual (as_dual st)).

End kernel.

(** [yield_prediction_kernel], the termination test: a margin of 5 %. *)
Definition should_terminate (global_count target : Z) : bool :=
  wrap 32 (target + target / 20) <=? wrap 32 global_count.

Definition advance_steps_kernel (steps delta : Z) : Z := wrap 64 (steps + delta).

(** ** Vocabulary of the specifications *)

(** The candidates in the accumulation buffer. *)
Definition buffered (s : postproc) : list DenseCandidate := take (Z.to_nat (ac_counter (pp_accumulation s))) (ac_buffer (pp_accumulation s)).

Definition sort_perm (sort_candidates : list DenseCandidate -> list DenseCandidate) : Prop := forall l, sort_candidates l ≡ₚ l.

Definition ex_device_batch (nr nf cap : Z) : RelationBatch :=
  let d := resize_device ex_fresh (mkDevice batch_empty 0 0 0) nr nf in mkDevice (d_batch d) (cap_rels d) (cap_factors d) cap.
Definition ex_post : postproc :=
  mkPost (mkAccumulation [ex_full; ex_partial; ex_full] 2) (mkAccumulation [ex_partial; ex_partial; ex_partial] 0) 2 false
    (ex_device_batch 8 16 0) (Some (ex_device_batch 8 16 0)) (Some (ex_device_batch 4 9 3)) 0 0.

(** ** The warps *)

Lemma warps_of_concat {A} n (l : list A) : (length l <= n)%nat -> concat (warps_of n l) = l.
Proof.
  revert l. induction n as [|n IH]; intros [|x l] Hl; try done; [cbn in Hl; lia|]. cbn [warps_of concat]. rewrite IH.
  - apply take_drop.
  - rewrite length_drop. cbn [length] in *. lia.
Qed.

Lemma warps_of_length {A} n (l : list A) : Forall (fun w => (length w <= 32)%nat) (warps_of n l).
Proof. revert l. induction n as [|n IH]; intros [|x l]; cbn [warps_of]; constructor; [rewrite length_take; lia|apply IH]. Qed.

(** ** The lanes *)

Lemma trial_step_64 fb Q found k Q' found' :
  trial_step fb (Q, found) k = Some (Q', found') -> (length found <= 64)%nat -> (length found' <= 64)%nat.
Proof.
  unfold trial_step. intros H Hl. destruct (1 <? idx fb k); [|by injection H as <- <-].
  destruct (divide_out 513 Q (idx fb k) 0) as [[Q1 cnt]|]; [|done]. cbn [mbind option_bind] in H. injection H as <- <-.
  destruct (Z.ltb_spec (Z.of_nat (length found)) 64); [|by rewrite andb_false_r]. destruct (_ && _); [|done]. rewrite length_app. cbn. lia.
Qed.

Lemma trial_division_64 fb hints Q found Q' found' :
  trial_division fb (Q, found) hints = Some (Q', found') -> (length found <= 64)%nat -> (length found' <= 64)%nat.
Proof.
  revert Q found. induction hints as [|k hints IH]; intros Q found H Hl; cbn [trial_division] in H; [by injection H as <- <-|].
  destruct (trial_step fb (Q, found) k) as [[Q1 found1]|] eqn:E; [|done]. apply trial_step_64 in E; [|done]. by eapply IH.
Qed.

Lemma born_factors fb cfg N c o : processCandidate fb cfg N c = Some o -> (length (r_factors (born o)) <= 64)%nat.
Proof.
  unfold processCandidate. destruct (MathUtils.calculate_sqrt_of_QX _ _ _) as [sq sg]. destruct (abs_square_minus_N sq N) as [Q sign].
  destruct (strip_val2 Q) as [v2 Q1]. destruct (trial_division fb (Q1, []) _) as [[Q2 found]|] eqn:E; [|done]. cbn [mbind option_bind].
  intros [= <-]. apply trial_division_64 in E; [done|cbn; lia].
Qed.

Section runs.
Context (fb : list Z) (cfg : PostProcConfig) (N : uint512).

Definition full_births (cands : list DenseCandidate) : list relation := omap (full_lane fb cfg N) cands.
Definition partial_births (cands : list DenseCandidate) : list relation := omap (partial_lane fb cfg N) cands.

(** A lane function that offers relations of candidates only. *)
Definition offers (to_lane : DenseCandidate -> lane) : Prop :=
  forall c r, to_lane c = Some r -> exists o, processCandidate fb cfg N c = Some o /\ r = born o.

Lemma full_offers : offers (full_lane fb cfg N).
Proof using Type. intros c r. unfold full_lane. destruct (processCandidate fb cfg N c) as [o|]; [|done]. cbn. destruct (is_full o); [|done]. intros [= <-]. by exists o. Qed.

Lemma partial_offers : offers (partial_lane fb cfg N).
Proof using Type. intros c r. unfold partial_lane. destruct (processCandidate fb cfg N c) as [o|]; [|done]. cbn. destruct (is_valid_partial o); [|done]. intros [= <-]. by exists o. Qed.

Lemma rels_of_map (to_lane : DenseCandidate -> lane) (w : list DenseCandidate) : rels_of (map to_lane w) = omap to_lane w.
Proof using Type. unfold rels_of. induction w as [|c w IH]; [done|]. cbn. rewrite <- IH. by destruct (to_lane c). Qed.

Lemma offered_warps (to_lane : DenseCandidate -> lane) cands : offered (map (map to_lane) (warps_of (length cands) cands)) = omap to_lane cands.
Proof using Type.
  rewrite <- (warps_of_concat (length cands) cands) at 3 by done. generalize (warps_of (length cands) cands). intros ws.
  induction ws as [|w ws IH]; [done|]. unfold offered in *. cbn [map concat]. by rewrite IH, rels_of_map, omap_app.
Qed.

Lemma warps_ok (to_lane : DenseCandidate -> lane) cands : offers to_lane -> Forall warp_ok (map (map to_lane) (warps_of (length cands) cands)).
Proof using Type.
  intros Ho. apply Forall_map. eapply Forall_impl; [apply warps_of_length|]. intros w Hw. split; [by rewrite length_map|].
  rewrite rels_of_map. apply Forall_forall. intros r Hr. apply list_elem_of_omap in Hr as (c & _ & Hc). destruct (Ho c r Hc) as (o & Eo & ->).
  by eapply born_factors.
Qed.

(** The relations born of good candidates are valid. *)
Lemma full_births_valid cands : Forall (candidate_ok fb N) cands -> Forall (fun r => smooth_holds (u512_val N) fb r /\ relation_holds (u512_val N) fb r /\ r_lp r = 1) (full_births cands).
Proof using Type.
  intros Hc. apply Forall_forall. intros r Hr. apply list_elem_of_omap in Hr as (c & Hin & E). rewrite Forall_forall in Hc.
  destruct (processCandidate_spec fb cfg N c (Hc c Hin)) as (o & Eo & Hb). unfold full_lane in E. rewrite Eo in E. cbn in E.
  destruct (is_full o) eqn:Ef; [|done]. injection E as <-. destruct (bo_full _ _ _ _ _ Hb Ef) as (? & ? & ?). done.
Qed.

Lemma partial_births_valid cands : Forall (candidate_ok fb N) cands -> Forall (fun r => partial_holds (u512_val N) fb r /\ r_lp r < lp1_bound cfg) (partial_births cands).
Proof using Type.
  intros Hc. apply Forall_forall. intros r Hr. apply list_elem_of_omap in Hr as (c & Hin & E). rewrite Forall_forall in Hc.
  destruct (processCandidate_spec fb cfg N c (Hc c Hin)) as (o & Eo & Hb). unfold partial_lane in E. rewrite Eo in E. cbn in E.
  destruct (is_valid_partial o) eqn:Ef; [|done]. injection E as <-. destruct (bo_partial _ _ _ _ _ Hb Ef) as (? & ? & ?). done.
Qed.

(** A batch that a kernel can append to: within the bounds of the packed counter. *)
Record appendable (d : RelationBatch) (rs : list relation) (dual : Z) : Prop := mkAppendable {
  ap_ok : device_ok d;
  ap_repr : repr (d_batch d) rs;
  ap_dual : dual = pack_rf (Z.of_nat (length rs)) (nfac rs);
  ap_rels : cap_rels d + 32 < 2 ^ 32;
  ap_factors : cap_factors d + 2048 < 2 ^ 32
}.

Lemma allocated_view d : device_ok d -> allocated (get_view d) (d_batch d).
Proof using Type. intros (Hr & _ & Ha) a. unfold get_view. cbn [max_relations max_factors]. rewrite wrap_small by done. apply Ha. Qed.

(** The outcome of an append: what it accepts and what it drops. *)
Lemma append_run_spec (to_lane : DenseCandidate -> lane) d rs dual cands st :
  offers to_lane -> appendable d rs dual -> append_run to_lane d dual cands st ->
  nfac (rs ++ omap to_lane cands) <= cap_factors d ->
  exists acc dropped, acc ++ dropped ≡ₚ omap to_lane cands /\ appendable (committed d st) (rs ++ acc) (as_dual st) /\
    (dropped <> [] -> full_up (get_view d) (rs ++ acc) dropped) /\
    (0 < target_cap_ d -> Z.of_nat (length (rs ++ acc)) <= Z.max (Z.of_nat (length rs)) (target_cap_ d + 31)).
Proof using Type.
  intros Ho [Hd Hr -> Hcr Hcf] [Hst Hfin] Hfit. pose proof (steps_offered (get_view d) (d_batch d) _ _ st Hst) as Hoff. rewrite offered_warps in Hoff.
  pose proof (fits_caps d rs Hd Hr) as [Fr Ff]. pose proof Hd as (Hcap & Hcap' & Harr).
  assert (max_relations (get_view d) = cap_rels d) as Ev by (cbn; by apply wrap_small).
  assert (fits (get_view d) rs st) as Hfits.
  { unfold fits, counted. cbn [get_view max_factors]. rewrite nfac_app in *.
    assert (forall l1 l2, l1 ≡ₚ l2 -> nfac l1 = nfac l2) as Hp by (intros l1 l2 Hp; unfold nfac, all_factors; by rewrite Hp).
    rewrite <- (Hp _ _ Hoff), nfac_app in Hfit. pose proof (nfac_nonneg (as_dropped st ++ offered (map fst (as_waiting st)))). lia. }
  destruct (finished_spec (get_view d) rs ltac:(rewrite Ev; lia) ltac:(cbn; lia) (d_batch d) _ st (allocated_view d Hd) Hr (warps_ok to_lane cands Ho)
    ltac:(rewrite Ev; lia) Hst Hfin Hfits) as (H1 & H2 & I).
  destruct Hfin as [Hw _]. rewrite Hw in Hoff. cbn in Hoff. rewrite app_nil_r in Hoff.
  exists (as_accepted st), (as_dropped st). split; [done|]. split; [|split; apply I].
  constructor; [|exact H1|apply I|done|done]. split; [done|]. split; [done|]. intros a. cbn [committed d_batch cap_rels cap_factors].
  transitivity (Z.of_nat (length (cells (as_batch st) a))); [by destruct a|]. rewrite (H2 a). cbn [get_view max_relations max_factors]. by rewrite wrap_small.
Qed.

Lemma reset_appendable d rs : device_ok d -> repr (d_batch d) rs -> cap_rels d + 32 < 2 ^ 32 -> cap_factors d + 2048 < 2 ^ 32 -> appendable (reset_counters d) [] 0.
Proof using Type.
  intros Hd Hr H1 H2. constructor; [| |done|done|done].
  - destruct Hd as (? & ? & Ha). split; [done|]. split; [done|]. intros a. etrans; [|apply (Ha a)]. by destruct a.
  - apply repr_prefix. split; [|done]. intros a. apply repr_prefix in Hr as (Hp & _ & _). cbn [reset_counters d_batch].
    assert (cells (set_counts (d_batch d) 0 0) a = cells (d_batch d) a) as -> by (by destruct a). etrans; [|apply Hp].
    rewrite (cells_app [] rs a : cells (batch_of rs) a = _). by apply prefix_app_r.
Qed.

End runs.

(** ** The operations *)

(** A state of the controller with a persistent and a partial batch: its batches hold [rsf], [rs0] and [rsp]. *)
Record post_ok (s : postproc) (rs0 rsf rsp : list relation) (p q : RelationBatch) : Prop := mkPostOk {
  po_counter : 0 <= ac_counter (pp_accumulation s) <= Z.of_nat (length (ac_buffer (pp_accumulation s)));
  po_full : device_ok (d_full_batch s) /\ repr (d_batch (d_full_batch s)) rsf /\ cap_rels (d_full_batch s) + 32 < 2 ^ 32 /\ cap_factors (d_full_batch s) + 2048 < 2 ^ 32;
  po_persistent : d_persistent_batch s = Some p /\ device_ok p /\ repr (d_batch p) rs0;
  po_partial : d_partial_batch s = Some q /\ device_ok q /\ repr (d_batch q) rsp /\ cap_rels q + 32 < 2 ^ 32 /\ cap_factors q + 2048 < 2 ^ 32
}.

Lemma omap_perm {A B} (f : A -> option B) l1 l2 : l1 ≡ₚ l2 -> omap f l1 ≡ₚ omap f l2.
Proof.
  induction 1 as [|x l1 l2 _ IH|x y l|l1 l2 l3 _ IH1 _ IH2]; cbn; [done| | |by etrans].
  - destruct (f x); [by rewrite IH|done].
  - destruct (f x), (f y); try done. constructor.
Qed.

Lemma nfac_perm l1 l2 : l1 ≡ₚ l2 -> nfac l1 = nfac l2.
Proof. intros Hp. unfold nfac, all_factors. by rewrite Hp. Qed.

Section operations.
Context (fb : list Z) (cfg : PostProcConfig) (N : uint512).

Lemma births_length cands : (length (full_births fb cfg N cands) <= length cands)%nat.
Proof using Type. unfold full_births. induction cands as [|c l IH]; cbn; [done|]. destruct (full_lane fb cfg N c); cbn; lia. Qed.

(** [processBufferedCandidates] on a filled buffer. *)
Lemma process_spec sort_candidates s s' rs0 rsf rsp p q :
  sort_perm sort_candidates -> post_ok s rs0 rsf rsp p q ->
  is_flushed s = false -> accumulation_count s = ac_counter (pp_accumulation s) -> 0 < accumulation_count s ->
  accumulation_count s <= cap_rels (d_full_batch s) -> target_cap_ (d_full_batch s) = 0 ->
  nfac (full_births fb cfg N (buffered s)) <= cap_factors (d_full_batch s) -> nfac (partial_births fb cfg N (buffered s)) <= cap_factors q ->
  processBufferedCandidates fb cfg N sort_candidates s s' ->
  exists acc accp dropped q2,
    acc ≡ₚ full_births fb cfg N (buffered s) /\ repr (d_batch (d_full_batch s')) acc /\
    accp ++ dropped ≡ₚ partial_births fb cfg N (buffered s) /\ d_partial_batch s' = Some q2 /\ repr (d_batch q2) accp /\
    d_persistent_batch s' = d_persistent_batch s /\ accumulation_count s' = 0 /\ ac_counter (pp_accumulation s') = 0.
Proof using Type.
  intros Hsort [Hc (F1 & F2 & F3 & F4) _ (Q1 & Q2 & Q3 & Q4 & Q5)] Hfl Hcount Hpos Hroom Hcap Hfit Hfitp Hproc.
  destruct Hproc as [Hf|_ Hf|st partial dual _ _ s1 count sorted full Hfull Hpart]; [congruence|lia|].
  assert (sorted ≡ₚ buffered s) as Hsorted by (unfold sorted, count; rewrite Hcount; apply Hsort).
  assert (full_births fb cfg N sorted ≡ₚ full_births fb cfg N (buffered s)) as Eb by (by apply omap_perm).
  assert (partial_births fb cfg N sorted ≡ₚ partial_births fb cfg N (buffered s)) as Ebp by (by apply omap_perm).
  pose proof (reset_appendable (d_full_batch s) rsf F1 F2 F3 F4) as Hap.
  destruct (append_run_spec fb cfg N _ full [] 0 sorted st (full_offers fb cfg N) Hap Hfull) as (acc & dr & E1 & A1 & D1 & _).
  { cbn [app]. fold (full_births fb cfg N sorted). rewrite (nfac_perm _ _ Eb). exact Hfit. }
  fold (full_births fb cfg N sorted) in E1. cbn [app] in A1, D1.
  assert (dr = []) as ->.
  { destruct dr as [|r dr]; [done|]. exfalso. destruct (D1 ltac:(done)) as [[Ht _]|Hfullup]; [cbn in Ht; lia|].
    cbn [get_view max_relations full reset_counters cap_rels] in Hfullup. change (d_full_batch s1) with (d_full_batch s) in Hfullup.
    rewrite wrap_small in Hfullup by (destruct F1 as (? & _); done). pose proof (Permutation_length E1) as Hl. rewrite length_app in Hl. cbn [length] in Hl, Hfullup.
    pose proof (births_length sorted) as Hle. rewrite (Permutation_length Hsorted) in Hle. unfold buffered in Hle. rewrite length_take in Hle. lia. }
  rewrite app_nil_r in E1. change (s1.(d_partial_batch)) with (d_partial_batch s) in Hpart. rewrite Q1 in Hpart. cbn [fmap option_fmap option_map] in Hpart.
  inversion Hpart as [|q0 dual0 stp Hrun Ea Eb0 Ec Ed]; subst. pose proof (reset_appendable q rsp Q2 Q3 Q4 Q5) as Happ.
  destruct (append_run_spec fb cfg N _ _ [] 0 sorted stp (partial_offers fb cfg N) Happ Hrun) as (accp & drp & E2 & A2 & _ & _).
  { cbn [app]. fold (partial_births fb cfg N sorted). rewrite (nfac_perm _ _ Ebp). exact Hfitp. }
  fold (partial_births fb cfg N sorted) in E2. cbn [app] in A2. exists acc, accp, drp, (committed (reset_counters q) stp). rewrite <- Eb, <- Ebp.
  split; [done|]. split; [apply A1|]. split; [done|]. split; [done|]. by split; [apply A2|].
Qed.

(** [consolidateToPersistent]: as many of the full relations as fit. *)
Lemma consolidate_spec upper_bound s rs0 acc p :
  upper_bound_ok upper_bound -> d_persistent_batch s = Some p -> device_ok p -> repr (d_batch p) rs0 -> repr (d_batch (d_full_batch s)) acc ->
  let s2 := consolidateToPersistent upper_bound s in
  exists k p2, d_persistent_batch s2 = Some p2 /\ device_ok p2 /\ repr (d_batch p2) (rs0 ++ take k acc) /\ (k <= length acc)%nat /\
    ((k < length acc)%nat -> cap_rels p = Z.of_nat (length rs0 + k) \/ cap_factors p < nfac (rs0 ++ take (S k) acc)) /\
    d_partial_batch s2 = d_partial_batch s /\ accumulation_count s2 = accumulation_count s /\ pp_accumulation s2 = pp_accumulation s.
Proof using Type.
  intros Hub P1 P2 P3 Rf s2. pose proof (repr_num_relations _ _ Rf) as Nf. unfold s2, consolidateToPersistent, getCount. rewrite P1, Nf.
  destruct (Z.eqb_spec (Z.of_nat (length acc)) 0) as [E0|E0].
  { assert (acc = []) as -> by (destruct acc; [done|cbn in E0; lia]). exists 0%nat, p. cbn [take length]. rewrite app_nil_r.
    split; [done|]. split; [done|]. split; [done|]. split; [lia|]. split; [lia|done]. }
  destruct (append_spec upper_bound Hub p (d_full_batch s) rs0 acc (Z.of_nat (length acc)) P2 P3 Rf ltac:(lia)) as (B1 & B2 & _).
  pose proof (append_amount_spec upper_bound Hub p (d_full_batch s) rs0 acc (Z.of_nat (length acc)) P2 P3 Rf ltac:(lia)) as Hk.
  destruct (append_amount upper_bound p (d_full_batch s) (Z.of_nat (length acc))) as [k f]. cbn [fst] in B2. destruct Hk as (K1 & K2 & K3 & K4 & K5).
  exists (Z.to_nat k). eexists. split; [reflexivity|]. split; [exact B1|]. split; [exact B2|]. split; [lia|]. split; [|done].
  intros Hlt. destruct (K5 ltac:(lia)) as [?|Hov]; [left; lia|right]. rewrite nfac_app. by replace (S (Z.to_nat k)) with (Z.to_nat (k + 1)) by lia.
Qed.

End operations.

(** ** Examples *)

Lemma ex_run to_lane d dual cands : exists st, append_run to_lane d dual cands st.
Proof. destruct (can_finish (get_view d) (append_start (d_batch d) dual (map (map to_lane) (warps_of (length cands) cands)))) as (st & H & Hf). by exists st. Qed.

Lemma ex_post_ok : post_ok ex_post [] [] [] (ex_device_batch 4 9 3) (ex_device_batch 8 16 0).
Proof.
  assert (device_ok (ex_device_batch 8 16 0) /\ repr (d_batch (ex_device_batch 8 16 0)) []) as [H1 H2].
  { split; [split; [by vm_compute|]; split; [by vm_compute|]; intros []; by vm_compute|].
    constructor; try (eexists; vm_compute; reflexivity); by vm_compute. }
  assert (device_ok (ex_device_batch 4 9 3) /\ repr (d_batch (ex_device_batch 4 9 3)) []) as [H3 H4].
  { split; [split; [by vm_compute|]; split; [by vm_compute|]; intros []; by vm_compute|].
    constructor; try (eexists; vm_compute; reflexivity); by vm_compute. }
  constructor; [by vm_compute|split_and!; [exact H1|exact H2|by vm_compute|by vm_compute]|split_and!; [done|exact H3|exact H4]|].
  split_and!; [done|exact H1|exact H2|by vm_compute|by vm_compute].
Qed.

Lemma ex_buffered_ok : Forall (candidate_ok ex_fb (u512_of_Z 1649)) (buffered ex_post).
Proof. constructor; [exact ex_full_ok|]. constructor; [exact ex_partial_ok|constructor]. Qed.

(** ** Properties *)

(** C17. From buffered candidates to stored relations: after [processBufferedCandidates] and [consolidateToPersistent], for any schedule of
    the kernels, the persistent batch holds its former relations followed by as many as fit of the full relations of the buffered candidates, of which none was
    lost on the way; the partial batch holds partial relations of the candidates; all of them satisfy their equations, and the accumulation starts over.
    This assumes that the buffer holds candidates, as many as its counter says and no more than the intermediate batch has rows, that the intermediate batch
    has no target cap, and that the factors of the full and of the partial relations found fit the factor arrays of the intermediate and of the partial
    batch. Where they do not, the kernel counts relations that it does not store, the committed batch holds old rows in their place
    ([WarpAppend.ex_counted_not_stored], postprocessing.cu:266), and the conclusion fails. *)
Theorem process_consolidate_exact fb cfg N sort_candidates upper_bound s s' rs0 rsf rsp p q :
  sort_perm sort_candidates -> upper_bound_ok upper_bound -> post_ok s rs0 rsf rsp p q ->
  is_flushed s = false -> accumulation_count s = ac_counter (pp_accumulation s) -> 0 < accumulation_count s ->
  Forall (candidate_ok fb N) (buffered s) ->
  accumulation_count s <= cap_rels (d_full_batch s) -> target_cap_ (d_full_batch s) = 0 ->
  nfac (full_births fb cfg N (buffered s)) <= cap_factors (d_full_batch s) -> nfac (partial_births fb cfg N (buffered s)) <= cap_factors q ->
  processBufferedCandidates fb cfg N sort_candidates s s' ->
  let s2 := consolidateToPersistent upper_bound s' in
  exists acc k accp dropped p2 q2,
    acc ≡ₚ full_births fb cfg N (buffered s) /\
    d_persistent_batch s2 = Some p2 /\ repr (d_batch p2) (rs0 ++ take k acc) /\ (k <= length acc)%nat /\
    ((k < length acc)%nat -> cap_rels p = Z.of_nat (length rs0 + k) \/ cap_factors p < nfac (rs0 ++ take (S k) acc)) /\
    Forall (relation_holds (u512_val N) fb) acc /\
    d_partial_batch s2 = Some q2 /\ repr (d_batch q2) accp /\ accp ++ dropped ≡ₚ partial_births fb cfg N (buffered s) /\
    Forall (fun r => partial_holds (u512_val N) fb r /\ r_lp r < lp1_bound cfg) accp /\
    accumulation_count s2 = 0 /\ ac_counter (pp_accumulation s2) = 0.
Proof.
  intros Hsort Hub Hpost Hfl Hcount Hpos Hok Hroom Hcap Hfit Hfitp Hproc s2.
  destruct (process_spec fb cfg N sort_candidates s s' rs0 rsf rsp p q Hsort Hpost Hfl Hcount Hpos Hroom Hcap Hfit Hfitp Hproc)
    as (acc & accp & dropped & q2 & E1 & R1 & E2 & Q & R2 & P & C1 & C2).
  destruct Hpost as [_ _ (P1 & P2 & P3) _]. rewrite P1 in P.
  destruct (consolidate_spec upper_bound s' rs0 acc p Hub P P2 P3 R1) as (k & p2 & K1 & _ & K3 & K4 & K5 & K6 & K7 & K8).
  exists acc, k, accp, dropped, p2, q2. fold s2 in K1, K6, K7, K8. rewrite K6, K7, K8.
  split; [done|]. split; [done|]. split; [done|]. split; [done|]. split; [done|]. split.
  - rewrite E1. eapply Forall_impl; [by apply full_births_valid|]. by intros r (_ & ? & _).
  - split; [done|]. split; [done|]. split; [done|]. split; [|done].
    pose proof (partial_births_valid fb cfg N _ Hok) as Hv. rewrite <- E2 in Hv. by apply Forall_app in Hv as [? _].
Qed.

Lemma process_consolidate_exact_witness :
  exists s' acc p2, processBufferedCandidates ex_fb ex_cfg (u512_of_Z 1649) id ex_post s' /\
    d_persistent_batch (consolidateToPersistent ex_upper_bound s') = Some p2 /\ acc ≡ₚ [mkRel 43 1 3 1 0 [(1, 2)]] /\
    exists k, repr (d_batch p2) (take k acc).
Proof.
  destruct (ex_run (full_lane ex_fb ex_cfg (u512_of_Z 1649)) (reset_counters (d_full_batch ex_post)) 0 (buffered ex_post)) as (st & Hst).
  destruct (ex_run (partial_lane ex_fb ex_cfg (u512_of_Z 1649)) (reset_counters (ex_device_batch 8 16 0)) 0 (buffered ex_post)) as (stp & Hstp).
  pose proof (process_run ex_fb ex_cfg (u512_of_Z 1649) id ex_post st _ _ eq_refl ltac:(done) Hst (partial_some _ _ _ _ _ _ stp Hstp)) as Hp.
  destruct (process_consolidate_exact ex_fb ex_cfg (u512_of_Z 1649) id ex_upper_bound ex_post _ [] [] [] _ _ (fun l => reflexivity _) ex_upper_bound_ok ex_post_ok
    eq_refl eq_refl ltac:(by vm_compute) ex_buffered_ok ltac:(by vm_compute) eq_refl ltac:(by vm_compute) ltac:(by vm_compute) Hp)
    as (acc & k & accp & dropped & p2 & q2 & H1 & H2 & H3 & _).
  eexists _, acc, p2. split; [exact Hp|]. split; [exact H2|]. split; [|exists k; exact H3]. rewrite H1. by vm_compute.
Defined.


