(* ===== verification/Polynomials.v ===== *)
(** The sieve polynomials [(a x + b)^2 - N]: their coefficients on the host ([recalc_a] of
    [src/src/sieve/prime_algorithms.cu]) and on the device ([generatePolynomialsKernel] and [bFromPolyId] of
    [src/src/sieve/kernel.cu]). Primes are below 2^31, as the device code that stores them in an [int] needs. [None]: the device's
    Euclidean loop is still running. *)
From Stdlib Require Import ZArith Lia Setoid Morphisms.
From stdpp Require Import base gmap sets list.
From S2P Require Import Prelude UInt512 UInt512Div UInt512Sqrt MathUtils Bytes Gf2 RowOps Congruence Residues PrimeAlgorithms SqrtKernels.
#[local] Open Scope Z_scope.

(** ** The state of the sieve *)

Record factoringData := mkFactoringData {
  f_N : uint512; f_a_target : uint512; f_a : uint512; f_B_values : list uint512;
  f_factorBase : list Z; f_rootN : list Z;
  f_a_factors : list Z; f_current_a_index : Z; f_max_a_index : Z; f_lowerHalfStart : Z; f_upperHalfStart : Z;
  f_M : Z; f_F : Z; f_size : Z
}.

Definition set_coefficients (fd : factoringData) (a : uint512) (B : list uint512) : factoringData :=
  mkFactoringData (f_N fd) (f_a_target fd) a B (f_factorBase fd) (f_rootN fd) (f_a_factors fd) (f_current_a_index fd)
    (f_max_a_index fd) (f_lowerHalfStart fd) (f_upperHalfStart fd) (f_M fd) (f_F fd) (f_size fd).

Definition set_factors (fd : factoringData) (a_factors : list Z) : factoringData :=
  mkFactoringData (f_N fd) (f_a_target fd) (f_a fd) (f_B_values fd) (f_factorBase fd) (f_rootN fd) a_factors (f_current_a_index fd)
    (f_max_a_index fd) (f_lowerHalfStart fd) (f_upperHalfStart fd) (f_M fd) (f_F fd) (f_size fd).

(** ** The coefficients on the host *)

(** [result[i] = result[i - 1] * p_{i - 1}]. *)
Fixpoint prefix_products (x : uint512) (ps : list Z) : list uint512 :=
  match ps with
  | [] => []
  | p :: ps => x :: prefix_products (mult_uint32 x p) ps
  end.

(** From the last index down: [result[i] *= suffix; suffix *= p_i]. *)
Fixpoint suffix_loop (result : list uint512) (ps : list Z) : list uint512 * uint512 :=
  match result, ps with
  | x :: result, p :: ps =>
      let '(l, suffix) := suffix_loop result ps in (mult x suffix :: l, mult_uint32 suffix p)
  | _, _ => ([], u512_of_u32 1)
  end.

(** [gamma] times [a / p], from an inverse of the latter. *)
Definition centered (quotient : uint512) (inv root p : Z) : uint512 :=
  let gamma := wrap 32 (wrap 64 (inv * root) mod p) in
  let gamma := if Z.shiftr p 1 <? gamma then p - gamma else gamma in
  mult_uint32 quotient gamma.

Definition B_value (quotient : uint512) (p root : Z) : uint512 :=
  centered quotient (modInv (mod_uint32 quotient p) p) root p.

Definition recalc_a (fd : factoringData) : factoringData :=
  let ps := map (vget 0 (f_factorBase fd)) (f_a_factors fd) in
  let '(result, suffix) := suffix_loop (prefix_products (u512_of_u32 1) ps) ps in
  set_coefficients fd suffix
    (zip_with (fun q i => B_value q (vget 0 (f_factorBase fd) i) (vget 0 (f_rootN fd) i)) result (f_a_factors fd)).

(** ** The coefficients on the device *)

(** [rdim]: doubled until it reaches [shc_dim]. *)
Fixpoint grow_rdim (fuel : nat) (rdim shc_dim : Z) : Z :=
  match fuel with
  | O => rdim
  | S f => if rdim <? shc_dim then grow_rdim f (wrap 32 (Z.shiftl rdim 1)) shc_dim else rdim
  end.

Definition reduction_dim (shc_dim : Z) : Z := grow_rdim 32 32 shc_dim.

Definition GEN_THREADS : Z := 64.

(** The leaf of a thread, in [s_storage + 1]. *)
Definition leaf (factor_indices dev_factorBase : list Z) (shc_dim tid : Z) : uint512 :=
  if tid <? shc_dim then u512_of_u32 (vget 0 dev_factorBase (vget 0 factor_indices tid)) else u512_of_u32 1.

(** One stride: the threads below it multiply in the upper half. *)
Definition fold_step (stride : Z) (s_storage : list uint512) : list uint512 :=
  map (fun i => let tid := i - 1 in
         if (0 <=? tid) && (tid <? stride) && (tid <? GEN_THREADS)
         then mult (dget s_storage (1 + tid)) (dget s_storage (1 + tid + stride)) else dget s_storage i)
    (upto (Z.of_nat (length s_storage))).

Fixpoint fold_loop (fuel : nat) (stride : Z) (s_storage : list uint512) : list uint512 :=
  match fuel with
  | O => s_storage
  | S f => if 0 <? stride then fold_loop f (Z.shiftr stride 1) (fold_step stride s_storage) else s_storage
  end.

(** The [B] value of a thread. *)
Definition device_B_value (a : uint512) (p r : Z) : option uint512 :=
  let Tk := div_uint32_const a p in
  inv ← mod_inverse_u32 (u512_of_u32 (mod_uint32 Tk p)) p;
  Some (centered Tk inv r p).

(** One block: the coefficient [a] and the [B] values of a step; [s_storage] is what the shared memory held before. *)
Definition generate_block (shc_dim : Z) (factor_indices dev_factorBase dev_rootN : list Z) (s_storage : list uint512)
    : option (uint512 * list uint512) :=
  let rdim := reduction_dim shc_dim in
  let s_storage := scatter (fun tid => tid <? rdim) (Z.add 1) (leaf factor_indices dev_factorBase shc_dim) (upto GEN_THREADS) s_storage in
  let a := dget (fold_loop 32 (Z.shiftr rdim 1) s_storage) 1 in
  B ← mapM (fun tid => let fb_idx := vget 0 factor_indices tid in
                       device_B_value a (vget 0 dev_factorBase fb_idx) (vget 0 dev_rootN fb_idx)) (upto (Z.min shc_dim GEN_THREADS));
  Some (a, B).

(** The grid: block [step_idx] reads its slice of the indices and writes its slots; [shared step_idx] is its shared memory. *)
Definition generatePolynomialsKernel (num_steps shc_dim : Z) (factor_indices_flat dev_factorBase dev_rootN : list Z)
    (shared : Z -> list uint512) : option (list uint512 * list uint512) :=
  blocks ← mapM (fun step_idx =>
              generate_block shc_dim (drop (Z.to_nat (step_idx * shc_dim)) factor_indices_flat) dev_factorBase dev_rootN (shared step_idx))
            (upto num_steps);
  Some (map fst blocks, concat (map snd blocks)).

(** ** The coefficient [b] of a polynomial *)

Fixpoint b_loop (n : nat) (i id : Z) (B_values : list uint512) (result : uint512) : uint512 :=
  match n with
  | O => result
  | S n =>
      let bit := Z.land id 1 in
      let result := if bit =? 1 then add result (dget B_values i) else sub result (dget B_values i) in
      b_loop n (i + 1) (Z.shiftr id 1) B_values result
  end.

(** The caller's [b] is fresh, so zero. *)
Definition bFromPolyId (id shc_dim : Z) (B_values : list uint512) : uint512 := b_loop (Z.to_nat shc_dim) 0 id B_values u512_zero.

(** ** Vocabulary of the specifications *)

(** The factor base as [generateFactorBase] leaves it. *)
Record fb_ok (N : uint512) (fb roots : list Z) : Prop := mkFbOk {
  fb_N : u512_ok N;
  fb_prime : Forall (fun p => Z.prime p /\ 2 < p < 2 ^ 31 /\ ~ u512_val N ≅{p} 0) fb;
  fb_distinct : NoDup fb;
  fb_roots : Forall2 (root_ok N) fb roots
}.

(** The products of all primes but one, times [x]. *)
Fixpoint others (x : Z) (ps : list Z) : list Z :=
  match ps with
  | [] => []
  | p :: ps => x * zprod ps :: others (x * p) ps
  end.

(** The sign of a summand in polynomial [id], and the coefficient [b]. *)
Definition bit_sign (id i : Z) : Z := if Z.testbit id i then 1 else -1.
Definition b_value (id : Z) (B : list Z) : Z := zsum_upto (Z.of_nat (length B)) (fun i => bit_sign id i * vget 0 B i).

(** A coefficient with its summands: [b^2 = N mod a] for every choice of signs. *)
Record coefficients_ok (N : Z) (ps : list Z) (a : uint512) (B : list uint512) : Prop := mkCoeffOk {
  co_a : u512_ok a /\ u512_val a = zprod ps;
  co_B : Forall u512_ok B;
  co_len : length B = length ps;
  co_size : Forall (fun x => 2 * u512_val x <= zprod ps) B;
  co_square : forall i p x, ps !! i = Some p -> B !! i = Some x -> u512_val x * u512_val x ≅{p} N;
  co_divide : forall i j p x, ps !! i = Some p -> B !! j = Some x -> i <> j -> (p | u512_val x)
}.

(** ** Vocabulary of the specifications *)

Definition small_data : factoringData :=
  mkFactoringData (u512_of_Z 120) u512_zero u512_zero [] [7; 13; 17; 19] [1; 4; 1; 5] [0; 2; 3] 0 8 0 0 16 20 4.

(** ** Lemmas: coefficients *)

Lemma others_length x ps : length (others x ps) = length ps.
Proof. revert x. induction ps as [|p ps IH]; intros x; [done|]. cbn [others length]. by rewrite IH. Qed.

Lemma others_quotient ps : Forall (fun p => p <> 0) ps -> forall x, others x ps = map (fun p => x * zprod ps / p) ps.
Proof.
  induction 1 as [|p ps Hp Hps IH]; intros x; [done|]. cbn [others map]. rewrite zprod_cons. f_equal.
  - replace (x * (p * zprod ps)) with (x * zprod ps * p) by ring. by rewrite Z.div_mul.
  - rewrite IH. apply map_ext. intros q. f_equal. ring.
Qed.

(** Prefix products times suffix products, modulo 2^512. *)
Lemma prefix_suffix ps : Forall (in_width 32) ps -> forall x y, u512_ok x -> u512_val x = wrap 512 y ->
  let '(l, s) := suffix_loop (prefix_products x ps) ps in
  u512_ok s /\ u512_val s = wrap 512 (zprod ps) /\ Forall u512_ok l /\ map u512_val l = map (wrap 512) (others y ps).
Proof.
  induction 1 as [|p ps Hp Hps IH]; intros x y Hx Ex; cbn [prefix_products suffix_loop].
  - rewrite zprod_nil. split; [by apply u512_of_u32_spec|]. split; [done|]. done.
  - destruct (mult_uint32_spec x p Hx Hp) as [Hx' Ex']. specialize (IH (mult_uint32 x p) (y * p) Hx').
    destruct (suffix_loop (prefix_products (mult_uint32 x p) ps) ps) as [l s]. destruct IH as (Hs & Es & Hl & El).
    { rewrite Ex', Ex. unfold wrap. by rewrite Z.mul_mod_idemp_l by done. }
    destruct (mult_spec x s Hx Hs) as [Hm Em]. destruct (mult_uint32_spec s p Hs Hp) as [Hs' Es'].
    split; [done|]. split; [rewrite Es', Es, zprod_cons; unfold wrap; rewrite Z.mul_mod_idemp_l by done; by rewrite Z.mul_comm|].
    split; [by constructor|]. cbn [map others]. rewrite El. f_equal. rewrite Em, Ex, Es. unfold wrap. by rewrite <- Z.mul_mod by done.
Qed.

Lemma fb_get N fb roots i : fb_ok N fb roots -> 0 <= i < Z.of_nat (length fb) ->
  Z.prime (vget 0 fb i) /\ 2 < vget 0 fb i < 2 ^ 31 /\ ~ u512_val N ≅{vget 0 fb i} 0 /\ root_ok N (vget 0 fb i) (vget 0 roots i).
Proof.
  intros [_ HP _ HR] Hi. destruct (lookup_lt_is_Some_2 fb (Z.to_nat i) ltac:(lia)) as [p Ep]. destruct (Forall2_lookup_l _ _ _ _ _ HR Ep) as (r & Er & Hr).
  unfold vget. rewrite (nth_lookup_Some _ _ 0 _ Ep), (nth_lookup_Some _ _ 0 _ Er). rewrite Forall_forall in HP.
  destruct (HP p) as (? & ? & ?); [by eapply list_elem_of_lookup_2|]. done.
Qed.

(** The centred multiple of the quotient is a square root of [N] modulo the prime. *)
Lemma centered_spec q inv root p N :
  u512_ok q -> 2 < p < 2 ^ 31 -> 0 <= inv < p -> u512_val q * inv ≅{p} 1 -> root * root ≅{p} N -> 0 <= root < p -> u512_val q * p < 2 ^ 512 ->
  let B := centered q inv root p in
  u512_ok B /\ (u512_val q | u512_val B) /\ 2 * u512_val B <= u512_val q * p /\ u512_val B * u512_val B ≅{p} N.
Proof.
  intros Hq Hp Hi Ei Er Hr Hlt. cbv zeta. unfold centered. pose proof (u512_bound q Hq) as Hb.
  rewrite (wrap_small 64) by (unfold in_width; change (2 ^ 64) with (2 ^ 31 * 2 ^ 33); nia). pose proof (Z.mod_pos_bound (inv * root) p ltac:(lia)) as Hm.
  rewrite (wrap_small 32) by (unfold in_width; lia). rewrite Z.shiftr_div_pow2 by lia. change (2 ^ 1) with 2.
  set (g0 := (inv * root) mod p) in *. set (g := if p / 2 <? g0 then p - g0 else g0).
  pose proof (Z.div_mod p 2 ltac:(lia)) as E2. pose proof (Z.mod_pos_bound p 2 ltac:(lia)).
  assert (0 <= g /\ 2 * g <= p) as [Hg Hg2] by (unfold g; destruct (Z.ltb_spec (p / 2) g0); lia).
  assert (u512_val q * g0 ≅{p} root) as E0.
  { assert (g0 ≅{p} inv * root) as -> by apply cong_mod. rewrite Z.mul_assoc, Ei. by rewrite Z.mul_1_l. }
  assert (u512_val q * g * (u512_val q * g) ≅{p} N) as Eg.
  { rewrite <- Er, <- E0. unfold g. destruct (Z.ltb_spec (p / 2) g0); [|done]. apply cong_divide; [lia|].
    exists (u512_val q * u512_val q * (p - 2 * g0)). ring. }
  destruct (mult_uint32_spec q g Hq) as [HB EB]; [unfold in_width; lia|]. rewrite wrap_small in EB by (unfold in_width; nia).
  clearbody g. rewrite EB. split; [done|]. split; [apply Z.divide_factor_l|]. split; [nia|done].
Qed.

Lemma zprod_split ps i p : ps !! i = Some p -> zprod ps = p * (zprod (take i ps) * zprod (drop (S i) ps)).
Proof. intros E. rewrite <- (take_drop_middle ps i p E) at 1. rewrite zprod_app, zprod_cons. ring. Qed.

Lemma zprod_divide l x : x ∈ l -> (x | zprod l).
Proof. intros (i & E)%list_elem_of_lookup. rewrite (zprod_split l i x E). apply Z.divide_factor_l. Qed.

Lemma prime_not_divide p l : Z.prime p -> Forall Z.prime l -> p ∉ l -> ~ (p | zprod l).
Proof.
  intros Hp. induction 1 as [|q l Hq Hl IH]; intros Hn Hd.
  - rewrite zprod_nil in Hd. apply Z.divide_1_r_nonneg in Hd; destruct Hp; lia.
  - rewrite zprod_cons in Hd. apply not_elem_of_cons in Hn as [Hne Hn]. apply Z.divide_prime_mul in Hd as [Hd|Hd]; [|by apply IH|done].
    apply Hne. by apply Z.divide_prime_prime in Hd.
Qed.

Section quotients.
Context (ps : list Z) (Hps : Forall Z.prime ps) (Hnd : NoDup ps).

Lemma primes_pos : Forall (fun p => 1 < p) ps.
Proof using Hps. eapply Forall_impl; [exact Hps|]. intros p [H _]. lia. Qed.

Lemma quotient_eq i p : ps !! i = Some p -> zprod ps / p = zprod (take i ps) * zprod (drop (S i) ps) /\ zprod ps = p * (zprod ps / p).
Proof using Hps.
  intros E. assert (1 < p) by (pose proof primes_pos as H; rewrite Forall_forall in H; apply H; by eapply list_elem_of_lookup_2).
  rewrite (zprod_split ps i p E). rewrite (Z.mul_comm p), Z.div_mul by lia. split; [done|ring].
Qed.

Lemma quotient_unit i p : ps !! i = Some p -> Z.gcd (zprod ps / p) p = 1.
Proof using Hps Hnd.
  intros E. destruct (quotient_eq i p E) as [-> _]. assert (Z.prime p) as Hp by (rewrite Forall_forall in Hps; apply Hps; by eapply list_elem_of_lookup_2).
  rewrite <- zprod_app. rewrite Z.gcd_comm. apply Z.coprime_prime_l; [done|]. apply prime_not_divide; [done|apply Forall_app; split; [by apply Forall_take|by apply Forall_drop]|].
  rewrite <- (take_drop_middle ps i p E) in Hnd. apply NoDup_app in Hnd as (H1 & H2 & H3). apply NoDup_cons in H3 as [H3 _].
  intros [H|H]%elem_of_app; [|done]. apply (H2 p H). apply elem_of_cons. by left.
Qed.

Lemma quotient_divide i j p q : ps !! i = Some p -> ps !! j = Some q -> i <> j -> (p | zprod ps / q).
Proof using Hps.
  intros Ei Ej Hne. destruct (quotient_eq j q Ej) as [-> _]. rewrite <- zprod_app. apply zprod_divide. apply elem_of_app.
  destruct (decide (i < j)%nat); [left; apply list_elem_of_lookup; exists i; by rewrite lookup_take_lt|right].
  apply list_elem_of_lookup. exists (i - S j)%nat. rewrite lookup_drop. by replace (S j + (i - S j))%nat with i by lia.
Qed.

(** Distinct primes that divide a number: so does their product. *)
Lemma zprod_divides x : Forall (fun p => (p | x)) ps -> (zprod ps | x).
Proof using Hps Hnd.
  induction ps as [|p l IH]; intros HF; [rewrite zprod_nil; apply Z.divide_1_l|]. apply Forall_cons in HF as [Hd HF]. apply Forall_cons in Hps as [Hp Hl].
  apply NoDup_cons in Hnd as [Hn Hnd']. destruct (IH Hl Hnd' HF) as [k Hk]. rewrite zprod_cons. rewrite Hk in *.
  assert (Z.gcd p (zprod l) = 1) as Hg by (apply Z.coprime_prime_l; [done|by apply prime_not_divide]).
  rewrite Z.mul_comm in Hd. apply Z.gauss in Hd as [m ->]; [|done]. exists m. ring.
Qed.
End quotients.

Section coefficients.
Context (N : uint512) (fb roots : list Z) (Hfb : fb_ok N fb roots).
Context (idx : list Z) (Hidx : Forall (fun i => 0 <= i < Z.of_nat (length fb)) idx) (Hnd : NoDup idx).
Notation ps := (map (vget 0 fb) idx).
Context (Hlt : zprod ps < 2 ^ 512).

Lemma idx_get k i : idx !! k = Some i -> Z.prime (vget 0 fb i) /\ 2 < vget 0 fb i < 2 ^ 31 /\ ~ u512_val N ≅{vget 0 fb i} 0 /\ root_ok N (vget 0 fb i) (vget 0 roots i).
Proof using Hfb Hidx. intros E. eapply fb_get; [done|]. rewrite Forall_forall in Hidx. apply Hidx. by eapply list_elem_of_lookup_2. Qed.

Lemma ps_get k p : ps !! k = Some p -> exists i, idx !! k = Some i /\ p = vget 0 fb i.
Proof using Type. rewrite list_lookup_fmap. intros (i & Ei & ->)%fmap_Some. by exists i. Qed.

Lemma ps_prime : Forall Z.prime ps.
Proof using Hfb Hidx.
  apply Forall_lookup. intros k p (i & Ei & ->)%ps_get. by apply idx_get in Ei as [? _].
Qed.

Lemma ps_width : Forall (in_width 32) ps.
Proof using Hfb Hidx.
  apply Forall_lookup. intros k p (i & Ei & ->)%ps_get. apply idx_get in Ei as (_ & ? & _). unfold in_width. lia.
Qed.

Lemma ps_distinct : NoDup ps.
Proof using Hfb Hidx Hnd.
  apply NoDup_fmap_2_strong; [|done]. intros i j Hi Hj E. rewrite Forall_forall in Hidx. specialize (Hidx i Hi) as Bi. specialize (Hidx j Hj) as Bj.
  destruct (lookup_lt_is_Some_2 fb (Z.to_nat i) ltac:(lia)) as [p Ep]. destruct (lookup_lt_is_Some_2 fb (Z.to_nat j) ltac:(lia)) as [q Eq].
  unfold vget in E. rewrite (nth_lookup_Some _ _ 0 _ Ep), (nth_lookup_Some _ _ 0 _ Eq) in E. subst q.
  pose proof (NoDup_lookup _ _ _ _ (fb_distinct _ _ _ Hfb) Ep Eq). lia.
Qed.

Lemma ps_pos : 1 <= zprod ps.
Proof using Hfb Hidx.
  assert (Forall (fun p => 1 <= p) ps) as HF by (eapply Forall_impl; [exact (primes_pos _ ps_prime)|intros; cbn beta in *; lia]).
  clear Hlt. induction HF as [|p l Hp Hl IH]; [rewrite zprod_nil; lia|rewrite zprod_cons; nia].
Qed.

(** The quotients, their inverses, and the value they give. *)
Lemma quotient_get k i (q : uint512) :
  idx !! k = Some i -> u512_ok q -> u512_val q = zprod ps / vget 0 fb i ->
  let p := vget 0 fb i in u512_val q * p = zprod ps /\ mod_uint32 q p = u512_val q mod p /\ Z.gcd (u512_val q mod p) p = 1 /\ ~ u512_val q mod p ≅{p} 0.
Proof using Hfb Hidx Hnd.
  intros Ei Hq Eq. cbv zeta. destruct (idx_get k i Ei) as (Hp & Hp2 & _). assert (ps !! k = Some (vget 0 fb i)) as Ep by (rewrite list_lookup_fmap, Ei; done).
  destruct (quotient_eq ps ps_prime k _ Ep) as [_ E]. pose proof (quotient_unit ps ps_prime ps_distinct k _ Ep) as Hg. rewrite <- Eq in *.
  split; [lia|]. split; [apply mod_uint32_spec; [done|lia]|]. split; [by rewrite Z.gcd_mod_l|]. rewrite cong_mod. intros H%cong_0; [|lia].
  pose proof (Z.gcd_greatest _ _ _ H (Z.divide_refl _)) as Hd. rewrite Hg in Hd. apply Z.divide_1_r_nonneg in Hd; lia.
Qed.

Lemma B_value_spec k i q inv :
  idx !! k = Some i -> u512_ok q -> u512_val q = zprod ps / vget 0 fb i -> 0 <= inv < vget 0 fb i -> u512_val q mod vget 0 fb i * inv ≅{vget 0 fb i} 1 ->
  let B := centered q inv (vget 0 roots i) (vget 0 fb i) in
  u512_ok B /\ (u512_val q | u512_val B) /\ 2 * u512_val B <= zprod ps /\ u512_val B * u512_val B ≅{vget 0 fb i} u512_val N.
Proof using Hfb Hidx Hnd Hlt.
  intros Ei Hq Eq Hi Einv. destruct (quotient_get k i q Ei Hq Eq) as (E1 & _). destruct (idx_get k i Ei) as (Hp & Hp2 & _ & Hr & Er). cbv zeta. rewrite <- E1.
  apply centered_spec; [done|done|done|by rewrite cong_mod in Einv|done|pose proof (Z.div_mod (vget 0 fb i) 2); pose proof (Z.mod_pos_bound (vget 0 fb i) 2); lia|by rewrite E1].
Qed.

Lemma coefficients_intro (a : uint512) (l B : list uint512) :
  u512_ok a -> u512_val a = zprod ps -> length l = length idx -> length B = length idx ->
  (forall k i q x, idx !! k = Some i -> l !! k = Some q -> B !! k = Some x ->
     u512_ok q /\ u512_val q = zprod ps / vget 0 fb i /\ exists inv, 0 <= inv < vget 0 fb i /\ u512_val q mod vget 0 fb i * inv ≅{vget 0 fb i} 1 /\
     x = centered q inv (vget 0 roots i) (vget 0 fb i)) ->
  coefficients_ok (u512_val N) ps a B.
Proof using Hfb Hidx Hnd Hlt.
  intros Ha Ea Ll LB H. assert (forall k x, B !! k = Some x -> exists i q, idx !! k = Some i /\ u512_val q = zprod ps / vget 0 fb i /\
    u512_ok x /\ (u512_val q | u512_val x) /\ 2 * u512_val x <= zprod ps /\ u512_val x * u512_val x ≅{vget 0 fb i} u512_val N) as HB.
  { intros k x Ex. pose proof (lookup_lt_Some _ _ _ Ex). destruct (lookup_lt_is_Some_2 idx k ltac:(lia)) as [i Ei]. destruct (lookup_lt_is_Some_2 l k ltac:(lia)) as [q Eq].
    destruct (H k i q x Ei Eq Ex) as (Hq & Evq & inv & Hi & Einv & ->). exists i, q. split; [done|]. split; [done|]. by apply (B_value_spec k). }
  constructor; [done| |by rewrite length_map| | |].
  - apply Forall_lookup. intros k x (i & q & _ & _ & ? & _)%HB. done.
  - apply Forall_lookup. intros k x (i & q & _ & _ & _ & _ & ? & _)%HB. done.
  - intros k p x (i & Ei & ->)%ps_get Ex. destruct (HB k x Ex) as (i' & q & Ei' & _ & _ & _ & _ & E). rewrite Ei in Ei'. by injection Ei' as <-.
  - intros k j p x Ep Ex Hne. destruct (HB j x Ex) as (i & q & Ei & Eq & _ & Hd & _). etransitivity; [|exact Hd]. rewrite Eq.
    eapply (quotient_divide ps ps_prime k j); [done| |done]. by rewrite list_lookup_fmap, Ei.
Qed.

Lemma others_get (l : list uint512) : Forall u512_ok l -> map u512_val l = map (wrap 512) (others 1 ps) ->
  forall k i q, idx !! k = Some i -> l !! k = Some q -> u512_ok q /\ u512_val q = zprod ps / vget 0 fb i.
Proof using Hfb Hidx Hlt.
  intros Hl El k i q Ei Eq. rewrite Forall_lookup in Hl. split; [by eapply Hl|]. pose proof ps_pos as H1. pose proof (primes_pos _ ps_prime) as HF.
  rewrite others_quotient in El by (eapply Forall_impl; [exact HF|intros; cbn beta in *; lia]).
  assert (map u512_val l !! k = map (wrap 512) (map (fun p => 1 * zprod ps / p) ps) !! k) as E by by rewrite El.
  rewrite !list_lookup_fmap, Ei, Eq in E. cbn in E. injection E as E. rewrite E, Z.mul_1_l. apply wrap_small. destruct (idx_get k i Ei) as (_ & Hp & _).
  unfold in_width. split; [apply Z.div_pos; lia|]. assert (zprod ps / vget 0 fb i <= zprod ps); [|lia]. apply Z.div_le_upper_bound; [lia|]. clear - Hp H1. nia.
Qed.
End coefficients.

Lemma modInv_get q p : Z.prime p -> 2 < p < 2 ^ 31 -> 0 <= q -> ~ q ≅{p} 0 -> 0 <= modInv q p < p /\ q * modInv q p ≅{p} 1.
Proof. intros Hp Hp2 Hq Hn. apply modInv_spec; [done|lia|done|done]. Qed.

Lemma recalc_a_spec fd :
  let ps := map (vget 0 (f_factorBase fd)) (f_a_factors fd) in
  fb_ok (f_N fd) (f_factorBase fd) (f_rootN fd) -> Forall (fun i => 0 <= i < Z.of_nat (length (f_factorBase fd))) (f_a_factors fd) -> NoDup (f_a_factors fd) ->
  zprod ps < 2 ^ 512 -> coefficients_ok (u512_val (f_N fd)) ps (f_a (recalc_a fd)) (f_B_values (recalc_a fd)).
Proof.
  intros ps Hfb Hidx Hnd Hlt. unfold recalc_a. fold ps. pose proof (prefix_suffix ps (ps_width _ _ _ Hfb _ Hidx) (u512_of_u32 1) 1) as H.
  destruct (suffix_loop _ _) as [l s]. destruct H as (Hs & Es & Hl & El); [by apply u512_of_u32_spec|done|]. cbn [f_a f_B_values set_coefficients].
  pose proof (ps_pos _ _ _ Hfb _ Hidx) as H1. fold ps in H1. rewrite wrap_small in Es by (unfold in_width; lia).
  assert (length l = length (f_a_factors fd)) as Ll by (rewrite <- (length_map u512_val), El, length_map, others_length; apply length_map).
  eapply (coefficients_intro (f_N fd) _ _ Hfb _ Hidx Hnd Hlt s l); [done|done|done|rewrite length_zip_with; lia|].
  intros k i q x Ei Eq Ex. destruct (others_get _ _ _ Hfb _ Hidx Hlt l Hl El k i q Ei Eq) as [Hq Evq]. split; [done|]. split; [done|].
  destruct (quotient_get _ _ _ Hfb _ Hidx Hnd k i q Ei Hq Evq) as (_ & Em & _ & Hu). destruct (idx_get _ _ _ Hfb _ Hidx k i Ei) as (Hp & Hp2 & _).
  rewrite lookup_zip_with, Eq, Ei in Ex. cbn in Ex. injection Ex as <-. unfold B_value. rewrite Em. pose proof (Z.mod_pos_bound (u512_val q) (vget 0 (f_factorBase fd) i) ltac:(lia)).
  destruct (modInv_get _ _ Hp Hp2 (proj1 H) Hu) as [Hr Er]. by eexists.
Qed.

(** ** Lemmas: the coefficient [b] *)

Lemma zsum_upto_head n f : 0 <= n -> zsum_upto (n + 1) f = f 0 + zsum_upto n (fun k => f (1 + k)).
Proof.
  intros Hn. pattern n. apply natlike_ind; [change (zsum_upto (0 + 1) f) with (f 0 + 0); change (zsum_upto 0 _) with 0; lia| |done]. clear n Hn. intros n Hn IH. change (Z.succ n) with (n + 1).
  rewrite zsum_upto_S, IH, zsum_upto_S by lia. rewrite (Z.add_comm n 1). lia.
Qed.

Lemma zsum_upto_cong p n f g : 0 <= n -> (forall i, 0 <= i < n -> f i ≅{p} g i) -> zsum_upto n f ≅{p} zsum_upto n g.
Proof.
  intros Hn. pattern n. apply natlike_ind; [done| |done]. clear n Hn. intros n Hn IH H. change (Z.succ n) with (n + 1) in *.
  rewrite !zsum_upto_S by done. by rewrite IH, H by (intros; try apply H; lia).
Qed.

Lemma zsum_upto_single p n f k : 0 <= k < n -> (forall i, 0 <= i < n -> i <> k -> f i ≅{p} 0) -> zsum_upto n f ≅{p} f k.
Proof.
  intros Hk H. rewrite (zsum_upto_cong p n f (fun i => if i =? k then f k else 0)).
  - rewrite (zsum_upto_update n (fun _ => 0) (fun i => if i =? k then f k else 0) k Hk) by (intros i _ Hi; by destruct (Z.eqb_spec i k)).
    rewrite Z.eqb_refl. pose proof (zsum_upto_bounds n (fun _ => 0) 0 0 ltac:(lia) ltac:(intros; lia)). rewrite Z.mul_0_r in *. by replace (zsum_upto n (fun _ => 0) - 0 + f k) with (f k) by lia.
  - lia.
  - intros i Hi. destruct (Z.eqb_spec i k) as [->|Hne]; [done|by apply H].
Qed.

Lemma bit_sign_square id i : bit_sign id i * bit_sign id i = 1.
Proof. unfold bit_sign. by destruct (Z.testbit id i). Qed.

Lemma bit_sign_bound id i x : - Z.abs x <= bit_sign id i * x <= Z.abs x.
Proof. unfold bit_sign. destruct (Z.testbit id i); lia. Qed.

Lemma vget_map_val (B : list uint512) i : 0 <= i < Z.of_nat (length B) -> vget 0 (map u512_val B) i = u512_val (dget B i).
Proof. intros Hi. unfold vget. rewrite (nth_indep _ 0 (u512_val u512_zero)) by (rewrite length_map; lia). apply map_nth. Qed.

(** Whatever the signs, [b^2 = N mod a]. *)
Lemma b_square N ps a B id : coefficients_ok N ps a B -> Forall Z.prime ps -> NoDup ps ->
  let b := b_value id (map u512_val B) in b * b ≅{zprod ps} N.
Proof.
  intros [_ HB HL _ HS HD] Hp Hnd. cbv zeta. set (b := b_value id (map u512_val B)).
  assert (zprod ps <> 0) as Hz by (assert (1 <= zprod ps); [|lia]; clear -Hp; induction Hp as [|p l [Hq _] _ IH]; [done|rewrite zprod_cons; nia]).
  apply cong_divide; [done|]. apply (zprod_divides ps Hp Hnd). apply Forall_lookup. intros k p Ep.
  assert (1 < p) as H1 by (rewrite Forall_lookup in Hp; apply (Hp k p Ep)). pose proof (lookup_lt_Some _ _ _ Ep) as Hk.
  destruct (lookup_lt_is_Some_2 B k ltac:(lia)) as [x Ex]. apply cong_divide; [lia|].
  assert (forall i y, B !! i = Some y -> vget 0 (map u512_val B) (Z.of_nat i) = u512_val y) as Hv.
  { intros i y Ey. unfold vget. rewrite Nat2Z.id. apply nth_lookup_Some. by rewrite list_lookup_fmap, Ey. }
  assert (b ≅{p} bit_sign id (Z.of_nat k) * u512_val x) as ->.
  { rewrite <- (Hv k x Ex). apply (zsum_upto_single p _ (fun i => bit_sign id i * vget 0 (map u512_val B) i) (Z.of_nat k)); rewrite length_map; [lia|]. intros i Hi Hne.
    destruct (lookup_lt_is_Some_2 B (Z.to_nat i) ltac:(lia)) as [y Ey]. rewrite <- (Z2Nat.id i) by lia. rewrite (Hv _ _ Ey).
    apply cong_0; [lia|]. apply Z.divide_mul_r. eapply HD; [exact Ep|exact Ey|lia]. }
  rewrite Z.mul_shuffle1, bit_sign_square, Z.mul_1_l. by eapply HS.
Qed.

Lemma land_1_testbit id i : 0 <= i -> Z.land (Z.shiftr id i) 1 = Z.b2z (Z.testbit id i).
Proof.
  intros Hi. change 1 with (Z.ones 1). rewrite Z.land_ones by lia. change (2 ^ 1) with 2. rewrite <- Z.bit0_mod, Z.shiftr_spec by lia. rewrite Z.add_0_l.
  by destruct (Z.testbit id i).
Qed.

Lemma shiftr_next id i : 0 <= i -> Z.shiftr (Z.shiftr id i) 1 = Z.shiftr id (i + 1).
Proof. intros Hi. by rewrite Z.shiftr_shiftr. Qed.

Lemma b_loop_spec id B n : Forall u512_ok B -> forall i r, 0 <= i -> i + Z.of_nat n <= Z.of_nat (length B) -> u512_ok r ->
  let b := b_loop n i (Z.shiftr id i) B r in
  u512_ok b /\ u512_val b = wrap 512 (u512_val r + zsum_upto (Z.of_nat n) (fun k => bit_sign id (i + k) * u512_val (dget B (i + k)))).
Proof.
  intros HB. induction n as [|n IH]; intros i r Hi Hn Hr; cbn [b_loop].
  { change (zsum_upto (Z.of_nat 0) _) with 0. cbv zeta. rewrite Z.add_0_r, wrap_small by (by apply u512_bound). done. }
  rewrite land_1_testbit, shiftr_next by done. set (x := dget B i).
  assert (u512_ok x) as Hx by (unfold x, vget; rewrite Forall_forall in HB; apply HB, list_elem_of_In, nth_In; lia).
  set (r' := if _ =? 1 then _ else _). assert (u512_ok r' /\ u512_val r' = wrap 512 (u512_val r + bit_sign id i * u512_val x)) as [Hr' Er'].
  { unfold r', bit_sign. destruct (Z.testbit id i); cbn [Z.b2z Z.eqb Pos.eqb].
    - rewrite Z.mul_1_l. by apply add_spec.
    - replace (u512_val r + -1 * u512_val x) with (u512_val r - u512_val x) by ring. by apply sub_spec. }
  destruct (IH (i + 1) r' ltac:(lia) ltac:(lia) Hr') as [H1 H2]. cbv zeta. split; [done|]. rewrite H2, Er'. rewrite Nat2Z.inj_succ. change (Z.succ (Z.of_nat n)) with (Z.of_nat n + 1).
  rewrite zsum_upto_head by lia. rewrite Z.add_0_r. fold x. unfold wrap. rewrite Z.add_mod_idemp_l by done. rewrite Z.add_assoc.
  f_equal. f_equal. apply zsum_upto_ext. intros k Hk. by rewrite Z.add_assoc.
Qed.

Lemma bFromPolyId_spec id B : Forall u512_ok B ->
  let b := bFromPolyId id (Z.of_nat (length B)) B in u512_ok b /\ u512_val b = wrap 512 (b_value id (map u512_val B)).
Proof.
  intros HB. unfold bFromPolyId. rewrite Nat2Z.id. destruct u512_zero_spec as [H0 V0].
  destruct (b_loop_spec id B (length B) HB 0 u512_zero) as [H1 H2]; [lia|lia|done|]. rewrite Z.shiftr_0_r in H1, H2. cbv zeta. split; [done|]. rewrite H2, V0, Z.add_0_l.
  unfold b_value. rewrite length_map. f_equal. apply zsum_upto_ext. intros i Hi. by rewrite vget_map_val, Z.add_0_l.
Qed.

(** The signed value does not wrap. *)
Lemma signed_b x z : u512_val x = wrap 512 z -> - 2 ^ 511 <= z < 2 ^ 511 -> to_signed 512 (u512_val x) = z.
Proof.
  intros -> Hz. unfold to_signed, wrap. change (512 - 1) with 511. change (2 ^ 512) with (2 * 2 ^ 511). pose proof (Z.pow_pos_nonneg 2 511 ltac:(lia) ltac:(lia)).
  set (h := 2 ^ 511) in *. clearbody h. destruct (Z.ltb_spec z 0).
  - assert (z mod (2 * h) = z + 2 * h) as -> by (symmetry; apply (Z.mod_unique_pos _ _ (-1)); lia). destruct (Z.ltb_spec (z + 2 * h) h); lia.
  - rewrite Z.mod_small by lia. destruct (Z.ltb_spec z h); lia.
Qed.

Lemma b_value_bound id B m : Forall (fun x => 0 <= x /\ 2 * x <= m) B -> 2 * Z.abs (b_value id B) <= Z.of_nat (length B) * m.
Proof.
  intros HB. unfold b_value. rewrite Forall_lookup in HB. assert (Z.abs (zsum_upto (Z.of_nat (length B)) (fun i => bit_sign id i * vget 0 B i)) <= Z.of_nat (length B) * (m / 2)) as H.
  { apply Z.abs_le. rewrite <- Z.mul_opp_r. apply zsum_upto_bounds; [lia|]. intros i Hi. destruct (lookup_lt_is_Some_2 B (Z.to_nat i) ltac:(lia)) as [x Ex].
    unfold vget. rewrite (nth_lookup_Some _ _ 0 _ Ex). pose proof (bit_sign_bound id i x). destruct (HB _ _ Ex). assert (x <= m / 2) by (apply Z.div_le_lower_bound; lia). lia. }
  pose proof (Z.div_mod m 2 ltac:(lia)). pose proof (Z.mod_pos_bound m 2 ltac:(lia)). nia.
Qed.

(** ** Lemmas: the device's coefficients *)

(** The product of the leaves modulo 2^512 is what each stride keeps. *)
Lemma fold_step_spec stride s : 0 <= stride <= 32 -> Forall u512_ok s -> 1 + 2 * stride <= Z.of_nat (length s) ->
  Forall u512_ok (fold_step stride s) /\ length (fold_step stride s) = length s /\
  zprod_upto stride (fun t => u512_val (dget (fold_step stride s) (1 + t))) ≅{2 ^ 512} zprod_upto (2 * stride) (fun t => u512_val (dget s (1 + t))).
Proof.
  intros Hs HF HL. assert (forall i, u512_ok (dget s i)) as Hok.
  { intros i. unfold vget. destruct (nth_in_or_default (Z.to_nat i) s u512_zero) as [H| ->]; [|apply u512_zero_spec]. rewrite Forall_forall in HF. by apply HF, list_elem_of_In. }
  assert (length (fold_step stride s) = length s) as EL by (unfold fold_step; rewrite length_map, length_upto; lia).
  split; [|split; [done|]].
  - apply Forall_forall. intros x Hx. unfold fold_step in Hx. apply list_elem_of_In, in_map_iff in Hx as (i & <- & _). destruct (_ && _); [by apply mult_spec|done].
  - replace (2 * stride) with (stride + stride) by ring. rewrite zprod_upto_add, <- zprod_upto_mul by lia. unfold zprod_upto. apply zprod_cong, Forall_forall. intros t Ht%elem_of_upto.
    unfold fold_step. rewrite vget_map_upto by lia. replace (1 + t - 1) with t by lia.
    replace ((0 <=? t) && (t <? stride) && (t <? GEN_THREADS)) with true by (unfold GEN_THREADS; symmetry; rewrite !andb_true_iff, Z.leb_le, !Z.ltb_lt; lia).
    replace (1 + t + stride) with (1 + (stride + t)) by lia. destruct (mult_spec (dget s (1 + t)) (dget s (1 + (stride + t)))) as [_ ->]; [done|done|]. apply cong_mod.
Qed.

Lemma fold_loop_spec k : forall fuel s, (k < fuel)%nat -> (k <= 5)%nat -> Forall u512_ok s -> 1 + 2 * 2 ^ Z.of_nat k <= Z.of_nat (length s) ->
  Forall u512_ok (fold_loop fuel (2 ^ Z.of_nat k) s) /\ u512_val (dget (fold_loop fuel (2 ^ Z.of_nat k) s) 1) ≅{2 ^ 512} zprod_upto (2 * 2 ^ Z.of_nat k) (fun t => u512_val (dget s (1 + t))).
Proof.
  induction k as [|k IH]; intros [|fuel] s Hf Hk HF HL; try lia.
  - change (2 ^ Z.of_nat 0) with 1 in *. cbn [fold_loop]. change (0 <? 1) with true. cbv iota. change (Z.shiftr 1 1) with 0.
    destruct (fold_step_spec 1 s) as (F1 & F2 & F3); [lia|done|lia|]. assert (fold_loop fuel 0 (fold_step 1 s) = fold_step 1 s) as -> by (by destruct fuel).
    split; [done|]. rewrite <- F3. by rewrite (zprod_upto_S 0), zprod_upto_0, Z.mul_1_l by lia.
  - assert (2 ^ Z.of_nat (S k) <= 32) as Hb by (change 32 with (2 ^ 5); apply Z.pow_le_mono_r; lia). pose proof (Z.pow_pos_nonneg 2 (Z.of_nat k) ltac:(lia) ltac:(lia)).
    rewrite Nat2Z.inj_succ, Z.pow_succ_r in * by lia. cbn [fold_loop]. destruct (Z.ltb_spec 0 (2 * 2 ^ Z.of_nat k)); [|lia].
    rewrite Z.shiftr_div_pow2 by lia. change (2 ^ 1) with 2. rewrite (Z.mul_comm 2), Z.div_mul by lia. rewrite (Z.mul_comm _ 2).
    destruct (fold_step_spec (2 * 2 ^ Z.of_nat k) s) as (F1 & F2 & F3); [lia|done|lia|]. destruct (IH fuel (fold_step (2 * 2 ^ Z.of_nat k) s)) as [I1 I2]; [lia|lia|done|lia|].
    split; [done|]. by rewrite I2, F3.
Qed.

Lemma reduction_dim_cases n : n <= 64 -> reduction_dim n = if 32 <? n then 64 else 32.
Proof.
  intros Hn. unfold reduction_dim. change 32%nat with (S (S 30)). generalize 30%nat. intros f. cbn [grow_rdim]. destruct (Z.ltb_spec 32 n) as [H|]; [|done].
  change (wrap 32 (Z.shiftl 32 1)) with 64. destruct (Z.ltb_spec 64 n); [lia|done].
Qed.

Lemma scatter_Forall {T A} (P : A -> Prop) guard ix (val : T -> A) ts out :
  (forall t, t ∈ ts -> guard t = true -> P (val t)) -> Forall P out -> Forall P (scatter guard ix val ts out).
Proof.
  unfold scatter. revert out. induction ts as [|t ts IH]; intros out HP HF; [done|]. cbn [foldl]. apply IH.
  - intros u Hu. apply HP. apply elem_of_cons. by right.
  - destruct (guard t) eqn:E; [|done]. unfold vset. apply Forall_insert; [done|]. apply HP; [apply elem_of_cons; by left|done].
Qed.

Lemma map_vget_upto {A} (d : A) l : map (vget d l) (upto (Z.of_nat (length l))) = l.
Proof.
  apply list_eq. intros i. rewrite list_lookup_fmap. destruct (decide (i < length l)%nat) as [Hi|Hi].
  - rewrite lookup_upto by lia. cbn. unfold vget. rewrite Nat2Z.id. destruct (lookup_lt_is_Some_2 l i Hi) as [x Ex]. by rewrite Ex, (nth_lookup_Some _ _ d _ Ex).
  - rewrite (lookup_ge_None_2 l) by lia. rewrite lookup_ge_None_2; [done|]. rewrite length_upto. lia.
Qed.

Lemma inverse_unique q r s p : 1 < p -> 0 <= r < p -> 0 <= s < p -> q * r ≅{p} 1 -> q * s ≅{p} 1 -> r = s.
Proof.
  intros Hp Hr Hs Er Es. apply (cong_small p); [done|done|]. rewrite <- (Z.mul_1_r r), <- Es. replace (r * (q * s)) with (q * r * s) by ring. by rewrite Er, Z.mul_1_l.
Qed.

Lemma div_const_spec x d : u512_ok x -> 0 < d < 2 ^ 32 -> u512_ok (div_uint32_const x d) /\ u512_val (div_uint32_const x d) = u512_val x / d.
Proof. intros Hx Hd. rewrite div_uint32_const_eq by lia. destruct (div_uint32_inplace_spec x d Hx Hd) as (? & ? & _). done. Qed.

Section device.
Context (fd : factoringData).
Notation fb := (f_factorBase fd).
Notation roots := (f_rootN fd).
Notation idx := (f_a_factors fd).
Notation ps := (map (vget 0 fb) idx).
Notation n := (Z.of_nat (length idx)).
Context (Hfb : fb_ok (f_N fd) fb roots).
Context (Hidx : Forall (fun i => 0 <= i < Z.of_nat (length fb)) idx) (Hnd : NoDup idx) (Hlt : zprod ps < 2 ^ 512).
Context (fi : list Z) (Hfi : take (length idx) fi = idx) (Hn : n <= 64).

Lemma fi_get t : 0 <= t < n -> vget 0 fi t = vget 0 idx t.
Proof using Hfi.
  intros Ht. unfold vget. rewrite !nth_lookup. f_equal. assert (idx !! Z.to_nat t = take (length idx) fi !! Z.to_nat t) as -> by by rewrite Hfi. by rewrite lookup_take_lt by lia.
Qed.

Lemma idx_lookup t : 0 <= t < n -> idx !! Z.to_nat t = Some (vget 0 idx t).
Proof using Type. intros Ht. destruct (lookup_lt_is_Some_2 idx (Z.to_nat t) ltac:(lia)) as [i Ei]. unfold vget. by rewrite (nth_lookup_Some _ _ 0 _ Ei). Qed.

Lemma ps_vget t : 0 <= t < n -> vget 0 ps t = vget 0 fb (vget 0 idx t).
Proof using Type. intros Ht. unfold vget at 1. apply nth_lookup_Some. by rewrite list_lookup_fmap, idx_lookup by lia. Qed.

Lemma leaf_spec t : 0 <= t -> u512_ok (leaf fi fb n t) /\ u512_val (leaf fi fb n t) = if t <? n then vget 0 fb (vget 0 idx t) else 1.
Proof using Hfb Hidx Hfi.
  intros Ht. unfold leaf. destruct (Z.ltb_spec t n); [|by apply u512_of_u32_spec]. rewrite fi_get by lia. apply u512_of_u32_spec.
  destruct (idx_get _ _ _ Hfb _ Hidx _ _ (idx_lookup t ltac:(lia))) as (_ & ? & _). unfold in_width. lia.
Qed.

(** The tree leaves the product of the primes. *)
Lemma device_a s : Forall u512_ok s -> Z.of_nat (length s) = 1 + reduction_dim n ->
  let s' := scatter (fun tid => tid <? reduction_dim n) (Z.add 1) (leaf fi fb n) (upto GEN_THREADS) s in
  let a := dget (fold_loop 32 (Z.shiftr (reduction_dim n) 1) s') 1 in u512_ok a /\ u512_val a = zprod ps.
Proof using Hfb Hidx Hlt Hfi Hn.
  intros Hs HL. cbv zeta. rewrite reduction_dim_cases in * by done. set (rdim := if 32 <? n then 64 else 32) in *. set (s' := scatter _ _ _ _ _).
  assert (n <= rdim) as Hr by (unfold rdim; destruct (Z.ltb_spec 32 n); lia).
  assert (exists k, (k <= 5)%nat /\ Z.shiftr rdim 1 = 2 ^ Z.of_nat k /\ rdim = 2 * 2 ^ Z.of_nat k) as (k & Hk & -> & Erd).
  { unfold rdim. destruct (32 <? n); [exists 5%nat|exists 4%nat]; (split; [lia|done]). }
  assert (rdim <= 64) as Hr64 by (unfold rdim; destruct (32 <? n); lia). pose proof (Z.pow_pos_nonneg 2 (Z.of_nat k) ltac:(lia) ltac:(lia)). clearbody rdim.
  assert (length s' = length s) as L' by apply length_scatter.
  assert (Forall u512_ok s') as F' by (apply scatter_Forall; [intros t Ht%elem_of_upto _; apply leaf_spec; lia|done]).
  destruct (fold_loop_spec k 32 s') as [G1 G2]; [lia|lia|done|lia|]. set (s1 := fold_loop _ _ _) in *. clearbody s1.
  assert (zprod_upto (2 * 2 ^ Z.of_nat k) (fun t => u512_val (dget s' (1 + t))) = zprod ps) as E.
  { rewrite <- Erd. rewrite (zprod_upto_ext rdim _ (fun t => if t <? n then vget 0 ps t else 1)).
    - rewrite (zprod_upto_tail n rdim) by (lia || (intros i Hi; destruct (Z.ltb_spec i n); [lia|done])).
      rewrite (zprod_upto_ext n _ (vget 0 ps)) by (intros i Hi; destruct (Z.ltb_spec i n); [done|lia]). unfold zprod_upto. rewrite <- (length_map (vget 0 fb) idx). by rewrite map_vget_upto.
    - intros t Ht. unfold s'. rewrite (scatter_get u512_zero).
      + rewrite (proj2 (leaf_spec t ltac:(lia))). destruct (Z.ltb_spec t n); [|done]. by rewrite ps_vget by lia.
      + intros t1 t2 _ _ _ _ Et. by assert (t1 = t2) as -> by lia.
      + intros t' Ht' Hg%Z.ltb_lt. apply elem_of_upto in Ht'. lia.
      + apply elem_of_upto. unfold GEN_THREADS. lia.
      + apply Z.ltb_lt. lia. }
  rewrite E in G2. assert (u512_ok (dget s1 1)) as Ho.
  { unfold vget. destruct (nth_in_or_default (Z.to_nat 1) s1 u512_zero) as [H1| ->]; [|apply u512_zero_spec]. rewrite Forall_forall in G1. by apply G1, list_elem_of_In. }
  split; [done|]. pose proof (ps_pos _ _ _ Hfb _ Hidx). apply (cong_small (2 ^ 512)); [by apply u512_bound|lia|done].
Qed.

(** A [B] value, with the inverse by Euclid instead of by Fermat. *)
Lemma device_B k i (q : uint512) a :
  idx !! k = Some i -> u512_ok a -> u512_val a = zprod ps -> u512_ok q -> u512_val q = zprod ps / vget 0 fb i ->
  device_B_value a (vget 0 fb i) (vget 0 roots i) = Some (B_value q (vget 0 fb i) (vget 0 roots i)).
Proof using Hfb Hidx Hnd.
  intros Ei Ha Ea Hq Eq. destruct (idx_get _ _ _ Hfb _ Hidx k i Ei) as (Hp & Hp2 & _). set (p := vget 0 fb i) in *.
  destruct (quotient_get _ _ _ Hfb _ Hidx Hnd k i q Ei Hq Eq) as (_ & Em & Hg & Hu). fold p in Em, Hg, Hu.
  unfold device_B_value. destruct (div_const_spec a p Ha ltac:(lia)) as [Hd Ed]. assert (div_uint32_const a p = q) as -> by (apply u512_val_inj; [done|done|congruence]).
  rewrite Em. pose proof (Z.mod_pos_bound (u512_val q) p ltac:(lia)) as Hm. destruct (u512_of_u32_spec (u512_val q mod p)) as [Ho Ev]; [unfold in_width; lia|].
  destruct (mod_inverse_u32_spec (u512_of_u32 (u512_val q mod p)) p Ho ltac:(lia)) as (r & -> & Hr & Er). rewrite Ev, Hg in Er. cbn [Z.eqb Pos.eqb] in Er.
  cbn [mbind option_bind]. unfold B_value. rewrite Em. destruct (modInv_get _ p Hp Hp2 (proj1 Hm) Hu) as [Hs Es].
  do 2 f_equal. apply (inverse_unique (u512_val q mod p) _ _ p ltac:(lia) Hr Hs); [|done]. rewrite Z.mul_comm. unfold cong. rewrite Er. symmetry. apply Z.mod_1_l. lia.
Qed.

(** One block computes what the host computes. *)
Lemma generate_block_spec s : Forall u512_ok s -> Z.of_nat (length s) = 1 + reduction_dim n ->
  generate_block n fi fb roots s = Some (f_a (recalc_a fd), f_B_values (recalc_a fd)).
Proof using Hfb Hidx Hnd Hlt Hfi Hn.
  intros Hs HL. unfold generate_block. cbv zeta. destruct (device_a s Hs HL) as [Ha Ea]. cbv zeta in Ha, Ea. set (a := dget _ _) in *. clearbody a.
  unfold recalc_a. pose proof (prefix_suffix ps (ps_width _ _ _ Hfb _ Hidx) (u512_of_u32 1) 1) as H.
  destruct (suffix_loop _ _) as [l x]. destruct H as (Hx & Ex & Hl & El); [by apply u512_of_u32_spec|done|]. cbn [f_a f_B_values set_coefficients].
  pose proof (ps_pos _ _ _ Hfb _ Hidx) as H1. rewrite wrap_small in Ex by (unfold in_width; lia). assert (a = x) as -> by (apply u512_val_inj; [done|done|congruence]).
  assert (length l = length idx) as Ll by (rewrite <- (length_map u512_val), El, length_map, others_length; apply length_map).
  replace (mapM _ _) with (Some (zip_with (fun q i => B_value q (vget 0 fb i) (vget 0 roots i)) l idx)); [done|]. symmetry. apply mapM_Some_2.
  rewrite Z.min_l by (unfold GEN_THREADS; lia). apply Forall2_same_length_lookup_2; [rewrite length_zip_with, length_upto; lia|].
  intros k t B Et EB. pose proof (lookup_lt_Some _ _ _ Et) as Hk. rewrite length_upto in Hk. rewrite lookup_upto in Et by lia. injection Et as <-.
  rewrite lookup_zip_with in EB. pose proof (idx_lookup (Z.of_nat k) ltac:(lia)) as Ei. rewrite Nat2Z.id in Ei. rewrite Ei in EB. apply bind_Some in EB as (q & Eq & [= <-]).
  rewrite fi_get by lia. destruct (others_get _ _ _ Hfb _ Hidx Hlt l Hl El k _ q Ei Eq) as [Hq Evq]. by apply (device_B k).
Qed.
End device.

(** The coefficient that the device forms is the signed sum of the summands. *)
Lemma signed_b_value N ps a B id : coefficients_ok N ps a B -> Z.of_nat (length ps) * zprod ps < 2 ^ 512 ->
  to_signed 512 (u512_val (bFromPolyId id (Z.of_nat (length B)) B)) = b_value id (map u512_val B).
Proof.
  intros HC Hlt. destruct (bFromPolyId_spec id B (co_B _ _ _ _ HC)) as [_ E]. apply (signed_b _ _ E).
  assert (2 * Z.abs (b_value id (map u512_val B)) <= Z.of_nat (length (map u512_val B)) * zprod ps) as Hb.
  { apply b_value_bound, Forall_map. pose proof (co_B _ _ _ _ HC) as HB. pose proof (co_size _ _ _ _ HC) as HS. rewrite Forall_forall in HB, HS |- *.
    intros x Hx. split; [by apply u512_bound, HB|by apply HS]. }
  rewrite length_map, (co_len _ _ _ _ HC) in Hb. change (2 ^ 512) with (2 * 2 ^ 511) in Hlt. lia.
Qed.

(** A slice of a flattened list of lists of one length. *)
Lemma concat_rows {A} (ls : list (list A)) n : Forall (fun l => length l = n) ls -> forall k l, ls !! k = Some l ->
  take n (drop (Z.to_nat (Z.of_nat k * Z.of_nat n)) (concat ls)) = l.
Proof.
  intros HF k. rewrite <- Nat2Z.inj_mul, Nat2Z.id. induction HF as [|m ls Hm _ IH] in k |- *; intros l El; [by rewrite lookup_nil in El|].
  cbn [concat]. destruct k as [|k]; [injection El as ->; rewrite drop_0, <- Hm; apply take_app_length|].
  cbn [Nat.mul]. rewrite <- drop_drop. replace (drop n (m ++ concat ls)) with (concat ls); [by apply IH|]. by rewrite <- Hm, drop_app_length.
Qed.

(** ** A small instance: 120 is a square modulo 7, 13, 17 and 19 *)

Lemma fb_ok_decide N fb roots :
  forallb (fun p => (2 <? p) && (p <? 2 ^ 31) && forallb (fun d => negb (p mod d =? 0)) (map (Z.add 2) (upto (p - 2))) && negb (N mod p =? 0)) fb = true ->
  0 <= N < 2 ^ 512 -> NoDup fb -> Forall2 (fun p r => (0 < r <= p / 2) /\ (r * r - N) mod p = 0) fb roots -> fb_ok (u512_of_Z N) fb roots.
Proof.
  intros HP HN HD HR. destruct (u512_of_Z_spec N) as [O V]. rewrite (wrap_small 512 _ HN) in V. constructor; [done| |done|].
  - apply Forall_forall. intros p Hp%list_elem_of_In. rewrite forallb_forall in HP. specialize (HP p Hp). rewrite !andb_true_iff, Z.ltb_lt, Z.ltb_lt, negb_true_iff, Z.eqb_neq, forallb_forall in HP.
    destruct HP as [[[H1 H2] H3] H4]. split; [|split; [lia|]].
    + split; [lia|]. intros d Hd Hdiv. specialize (H3 d ltac:(apply in_map_iff; exists (d - 2); split; [lia|apply list_elem_of_In, elem_of_upto; lia])).
      apply Z.mod_divide in Hdiv; [|lia]. by rewrite Hdiv in H3.
    + rewrite V. intros Hc. apply H4. unfold cong in Hc. rewrite Hc. apply Z.mod_0_l. lia.
  - eapply Forall2_impl; [exact HR|]. intros p r [H1 H2]. split; [done|]. rewrite V. assert (p <> 0) by (intros ->; rewrite Z.div_0_l in H1; lia). apply cong_divide; [done|]. by apply Z.mod_divide.
Qed.

Lemma small_fb_ok : fb_ok (u512_of_Z 120) [7; 13; 17; 19] [1; 4; 1; 5].
Proof. apply fb_ok_decide; [by vm_compute|done|by apply (bool_decide_unpack _); vm_compute|repeat constructor; vm_compute; done]. Qed.

Lemma small_coefficients : Forall u512_ok (f_B_values (recalc_a small_data)).
Proof.
  apply (co_B 120 [7; 17; 19] (f_a (recalc_a small_data))). apply (recalc_a_spec small_data); [exact small_fb_ok| | |reflexivity]; apply (bool_decide_unpack _); by vm_compute.
Qed.

(** The kernel on the flattened indices of a list of steps. *)
Lemma generate_list (fd : factoringData) (steps : list (list Z)) (shc_dim : Z) (shared : Z -> list uint512) :
  fb_ok (f_N fd) (f_factorBase fd) (f_rootN fd) -> 0 < shc_dim <= 64 ->
  Forall (fun idx => Z.of_nat (length idx) = shc_dim /\ Forall (fun i => 0 <= i < Z.of_nat (length (f_factorBase fd))) idx /\ NoDup idx /\
                     zprod (map (vget 0 (f_factorBase fd)) idx) < 2 ^ 512) steps ->
  (forall s, Forall u512_ok (shared s) /\ Z.of_nat (length (shared s)) = 1 + reduction_dim shc_dim) ->
  generatePolynomialsKernel (Z.of_nat (length steps)) shc_dim (concat steps) (f_factorBase fd) (f_rootN fd) shared
  = Some (map (fun idx => f_a (recalc_a (set_factors fd idx))) steps, concat (map (fun idx => f_B_values (recalc_a (set_factors fd idx))) steps)).
Proof.
  intros Hfb Hd HF Hsh. unfold generatePolynomialsKernel.
  assert (mapM (fun step_idx => generate_block shc_dim (drop (Z.to_nat (step_idx * shc_dim)) (concat steps)) (f_factorBase fd) (f_rootN fd) (shared step_idx)) (upto (Z.of_nat (length steps)))
    = Some (map (fun idx => (f_a (recalc_a (set_factors fd idx)), f_B_values (recalc_a (set_factors fd idx)))) steps)) as ->.
  { apply mapM_Some_2, Forall2_same_length_lookup_2; [rewrite length_map, length_upto; lia|]. intros k t r Et Er.
    pose proof (lookup_lt_Some _ _ _ Er) as Hk. rewrite length_map in Hk. rewrite lookup_upto in Et by lia. injection Et as <-.
    rewrite list_lookup_fmap in Er. apply fmap_Some in Er as (idx & Ei & ->). rewrite Forall_lookup in HF. destruct (HF k idx Ei) as (HL & Hidx & Hnd & Hlt). destruct (Hsh (Z.of_nat k)) as [Hs HLs].
    rewrite <- HL in HLs |- *. apply (generate_block_spec (set_factors fd idx)); [done|done|done|done| |cbn [f_a_factors set_factors]; lia|done|done].
    cbn [f_a_factors set_factors]. apply (concat_rows steps (length idx)); [|done]. apply Forall_lookup. intros j l Ej. destruct (HF j l Ej) as [E _]. lia. }
  cbn [mbind option_bind]. by rewrite !map_map.
Qed.

(** ** Properties *)

(** C13. The coefficients of a polynomial. From a factor base as it is generated and distinct indices into it, [recalc_a] leaves
    the product of the primes in [a], and summands [B] such that for every choice of signs - every polynomial identifier - the
    coefficient [b] that the device forms in two's complement does not wrap and gives (a x + b)^2 = N modulo [a] for every [x]. *)
Theorem recalc_a_exact fd :
  let ps := map (vget 0 (f_factorBase fd)) (f_a_factors fd) in
  fb_ok (f_N fd) (f_factorBase fd) (f_rootN fd) -> Forall (fun i => 0 <= i < Z.of_nat (length (f_factorBase fd))) (f_a_factors fd) -> NoDup (f_a_factors fd) ->
  0 < Z.of_nat (length ps) -> Z.of_nat (length ps) * zprod ps < 2 ^ 512 ->
  let a := u512_val (f_a (recalc_a fd)) in
  let B := f_B_values (recalc_a fd) in
  a = zprod ps /\ length B = length ps /\
  forall id, let b := to_signed 512 (u512_val (bFromPolyId id (Z.of_nat (length B)) B)) in
    b = b_value id (map u512_val B) /\ forall x, (a * x + b) * (a * x + b) ≅{a} u512_val (f_N fd).
Proof.
  intros ps Hfb Hidx Hnd Hn Hlt a B. pose proof (ps_pos _ _ _ Hfb _ Hidx) as H1. fold ps in H1.
  pose proof (recalc_a_spec fd Hfb Hidx Hnd ltac:(fold ps; nia)) as HC. fold ps in HC. fold B in HC. pose proof (co_a _ _ _ _ HC) as [_ Ea]. fold a in Ea.
  pose proof (co_len _ _ _ _ HC) as HL. split; [done|]. split; [done|]. intros id b.
  pose proof (signed_b_value _ _ _ _ id HC Hlt) as Eb. fold b in Eb.
  split; [done|]. intros x. rewrite Eb, Ea.
  assert (zprod ps * x + b_value id (map u512_val B) ≅{zprod ps} b_value id (map u512_val B)) as ->.
  { apply cong_divide; [lia|]. exists x. ring. }
  apply (b_square _ _ _ _ _ HC); [by eapply ps_prime|by eapply ps_distinct].
Qed.

Lemma recalc_a_exact_witness :
  let B := f_B_values (recalc_a small_data) in
  u512_val (f_a (recalc_a small_data)) = 7 * 17 * 19 /\ length B = 3%nat /\
  forall id, let b := to_signed 512 (u512_val (bFromPolyId id 3 B)) in b * b ≅{7 * 17 * 19} 120.
Proof.
  destruct (recalc_a_exact small_data) as (H1 & H2 & H3).
  - exact small_fb_ok.
  - apply (bool_decide_unpack _). by vm_compute.
  - apply (bool_decide_unpack _). by vm_compute.
  - reflexivity.
  - reflexivity.
  - split; [exact H1|]. split; [exact H2|]. intros id. cbv zeta. destruct (H3 id) as [_ Hx]. specialize (Hx 0). rewrite Z.mul_0_r, Z.add_0_l in Hx.
    replace (Z.of_nat (length (f_B_values (recalc_a small_data)))) with 3 in Hx by (rewrite H2; reflexivity). rewrite H1 in Hx. exact Hx.
Defined.

(** The device generates the host's polynomials: every block of the kernel leaves the [a] and the [B] values of [recalc_a]
    for the indices of its step, whatever its shared memory held - the reduction tree, the exact division, Euclid's inverse and the
    centring agree with prefix and suffix products and Fermat's inverse. *)
Theorem generatePolynomials_exact (fd : factoringData) (steps : list (list Z)) (shc_dim : Z) (shared : Z -> list uint512) :
  fb_ok (f_N fd) (f_factorBase fd) (f_rootN fd) -> 0 < shc_dim <= 64 ->
  Forall (fun idx => Z.of_nat (length idx) = shc_dim /\ Forall (fun i => 0 <= i < Z.of_nat (length (f_factorBase fd))) idx /\ NoDup idx /\
                     zprod (map (vget 0 (f_factorBase fd)) idx) < 2 ^ 512) steps ->
  (forall s, Forall u512_ok (shared s) /\ Z.of_nat (length (shared s)) = 1 + reduction_dim shc_dim) ->
  generatePolynomialsKernel (Z.of_nat (length steps)) shc_dim (concat steps) (f_factorBase fd) (f_rootN fd) shared
  = Some (map (fun idx => f_a (recalc_a (set_factors fd idx))) steps, concat (map (fun idx => f_B_values (recalc_a (set_factors fd idx))) steps)).
Proof. apply generate_list. Qed.

Lemma generatePolynomials_exact_witness :
  generatePolynomialsKernel 2 2 [0; 1; 2; 3] [7; 13; 17; 19] [1; 4; 1; 5] (fun _ => replicate 33 u512_zero)
  = Some (map (fun idx => f_a (recalc_a (set_factors small_data idx))) [[0; 1]; [2; 3]], concat (map (fun idx => f_B_values (recalc_a (set_factors small_data idx))) [[0; 1]; [2; 3]])).
Proof.
  apply (generatePolynomials_exact small_data [[0; 1]; [2; 3]] 2 (fun _ => replicate 33 u512_zero)).
  - exact small_fb_ok.
  - lia.
  - repeat constructor; try reflexivity; apply (bool_decide_unpack _); by vm_compute.
  - intros _. split; [|reflexivity]. apply Forall_replicate, u512_zero_spec.
Defined.
