(* ===== verification/PolyRoots.v ===== *)
(** The roots of the sieve polynomials modulo the primes of the factor base ([src/src/sieve/kernel.cu],
    [src/src/sieve/kernel.cuh], [src/src/sieve/graycode.cuh]): the per-prime data of a coefficient [a], the roots of a polynomial of the
    hypercube, and the Gray-code walks of the sieve and scatter kernels from one polynomial to the next. *)
From Stdlib Require Import ZArith Lia Setoid Morphisms.
From stdpp Require Import base gmap sets list.
From S2P Require Import Prelude UInt512 UInt512Div UInt512Sqrt Bytes Gf2 RowOps Congruence Residues PrimeAlgorithms SqrtKernels Polynomials.
#[local] Open Scope Z_scope.

(** ** Arithmetic modulo a prime *)

Definition modAdd (a b modulus : Z) : Z :=
  let tmp := wrap 32 (a + b) in
  let reduced := wrap 32 (tmp - modulus) in
  if reduced <? tmp then reduced else tmp.

Definition modSub (a b modulus : Z) : Z := if b <=? a then wrap 32 (a - b) else wrap 32 (modulus - wrap 32 (b - a)).

Definition modSub_shifted (a b modulus : Z) : Z :=
  if b <? a then wrap 32 (a - b) else wrap 32 (wrap 32 (a + modulus) - b).

(** [b] is signed; the sum is formed in 64 bits. *)
Definition modSum (a b modulus : Z) : Z :=
  let tmp := a + b in
  let tmp := if tmp <? 0 then tmp + modulus else tmp in
  let tmp := if modulus <=? tmp then tmp - modulus else tmp in
  wrap 32 tmp.

(** ** The data of a prime *)

Record primeDataSIQS := mkPrimeData {
  pd_p : Z; pd_r : Z; pd_mod_inverse_a : Z; pd_inv_aN : Z; pd_inactive : Z; pd_reducedStart : Z
}.

(** The 32 rounds of the inversion, without branches. *)
Fixpoint invert_loop (rounds : nat) (p exponent base result : Z) : Z :=
  match rounds with
  | O => result
  | S n =>
      let result := wrap 32 (Z.b2z (Z.land exponent 1 =? 1) * wrap 32 (wrap 64 (result * base) mod p)
                             + Z.b2z (Z.land exponent 1 =? 0) * result) in
      invert_loop n p (Z.shiftr exponent 1) (wrap 32 (wrap 64 (base * base) mod p)) result
  end.

Definition invert (reduced_a p : Z) : Z := invert_loop 32 p (p - 2) reduced_a 1.

(** A 32-bit [int]: the value of the result of an operation in two's complement; where it differs from the result, C++ leaves it undefined. *)
Definition s32 (x : Z) : Z := to_signed 32 (wrap 32 x).

(** C's remainder, twice; the sum is an [int]. *)
Definition positive_rem (x p : Z) : Z := wrap 32 (Z.rem (s32 (Z.rem x p + p)) p).
Definition reduced_start (startIndex p : Z) : Z := positive_rem startIndex p.

(** The record of a prime; [r] is what the record holds in the field the kernel does not set. *)
Definition init_prime (r : Z) (a : uint512) (startIndex p root : Z) : primeDataSIQS :=
  let result := invert (mod_uint32 a p) p in
  mkPrimeData p r result (wrap 32 (wrap 64 (result * root) mod p)) 0 (reduced_start startIndex p).

Definition prime_b (a : uint512) (p : Z) (B : uint512) : Z :=
  wrap 32 (wrap 64 (mod_uint32 B p * invert (mod_uint32 a p) p) mod p).

(** The primes of the threads of a grid-stride loop. *)
Definition grid_stride (stride n : Z) : list Z := flat_map (fun id => strided id n stride) (upto stride).

(** The two stores of the kernels' loop over the primes; [stride] is the number of threads. *)
Definition initPrimeData (r stride : Z) (factorBase rootN : list Z) (a : uint512) (B_values : list uint512) (startIndex : Z)
    (primeData : list primeDataSIQS) (bvalues : list Z) : list primeDataSIQS * list Z :=
  let fb_size := Z.of_nat (length factorBase) in
  let shc_dim := Z.of_nat (length B_values) in
  let primes := grid_stride stride fb_size in
  (scatter (fun _ => true) id (fun i => init_prime r a startIndex (vget 0 factorBase i) (vget 0 rootN i)) primes primeData,
   scatter (fun _ => true) (fun ij : Z * Z => ij.2 * fb_size + ij.1) (fun ij => prime_b a (vget 0 factorBase ij.1) (dget B_values ij.2))
     (flat_map (fun i => map (pair i) (upto shc_dim)) primes) bvalues).

(** The first kernel clears the record; the batch kernel leaves [r] as the register was. *)
Definition initPrimeDataKernel := initPrimeData 0.

Definition initPrimeDataBatchKernel (r stride : Z) (factorBase rootN : list Z) (batch_a dev_job_B_flat : list uint512) (shc_dim step_index sieveIntervalStart : Z)
    (primeData : list primeDataSIQS) (bvalues : list Z) : list primeDataSIQS * list Z :=
  let B_values := map (fun j => dget dev_job_B_flat (wrap 32 (step_index * shc_dim) + j)) (upto shc_dim) in
  initPrimeData r stride factorBase rootN (dget batch_a step_index) B_values sieveIntervalStart primeData bvalues.

Definition set_inactive (d : primeDataSIQS) : primeDataSIQS :=
  mkPrimeData (pd_p d) (pd_r d) (pd_mod_inverse_a d) (pd_inv_aN d) 1 (pd_reducedStart d).

Definition no_prime : primeDataSIQS := mkPrimeData 0 0 0 0 0 0.

(** Threads [threadIdx, threadIdx + blockDim, ...] of one block. *)
Definition markInactivePrimesKernel (blockDim shc_dim : Z) (a_factors : list Z) (primeData : list primeDataSIQS) : list primeDataSIQS :=
  foldl (fun d i => vset d (vget 0 a_factors i) (set_inactive (vget no_prime d (vget 0 a_factors i)))) primeData (grid_stride blockDim shc_dim).

Definition markInactivePrimesBatchKernel (blockDim shc_dim : Z) (batch_factor_indices_flat : list Z) (step_index : Z)
    (primeData : list primeDataSIQS) : list primeDataSIQS :=
  markInactivePrimesKernel blockDim shc_dim (drop (Z.to_nat (wrap 32 (step_index * shc_dim))) batch_factor_indices_flat) primeData.

(** ** Polynomials of the hypercube *)

(** [bvalues[i * fb_size + primeIndex]]. *)
Definition bvalue (bvalues : list Z) (fb_size primeIndex i : Z) : Z := vget 0 bvalues (i * fb_size + primeIndex).

Fixpoint minus_b_loop (n : nat) (i id p : Z) (bval : Z -> Z) (minus_b_aInv : Z) : Z :=
  match n with
  | O => minus_b_aInv
  | S n =>
      let bit := Z.land id 1 in
      let B_val := bval i in
      let term := if bit =? 0 then B_val else wrap 32 (p - B_val) in
      minus_b_loop n (i + 1) (Z.shiftr id 1) p bval (modAdd minus_b_aInv term p)
  end.

Definition rootsFromPolyId (id shc_dim : Z) (primeData : primeDataSIQS) (bval : Z -> Z) : Z * Z :=
  let p := pd_p primeData in
  let minus_b_aInv := minus_b_loop (Z.to_nat shc_dim) 0 id p bval 0 in
  (modAdd minus_b_aInv (pd_inv_aN primeData) p, modAdd minus_b_aInv (wrap 32 (p - pd_inv_aN primeData)) p).

(** The bit that is flipped; its sign for the roots is -1 when it becomes 1. *)
Definition advanceRoots (id1 id2 p : Z) (bval : Z -> Z) (roots : Z * Z) : Z * Z :=
  if id1 =? id2 then roots
  else
    let bitToFlip := ctz32 (Z.lxor id1 id2) in
    let sign := 1 - 2 * Z.land (Z.shiftr id2 bitToFlip) 1 in
    let delta := sign * bval bitToFlip in
    (modSum (modSum roots.1 delta p) delta p, modSum (modSum roots.2 delta p) delta p).

Definition advance_b (id1 id2 : Z) (B_values : list uint512) (b : uint512) : uint512 :=
  let bitToFlip := ctz32 (Z.lxor id1 id2) in
  let sign := -1 + 2 * Z.land (Z.shiftr id2 bitToFlip) 1 in
  let B := dget B_values bitToFlip in
  if sign =? -1 then sub (sub b B) B else add (add b B) B.

(** ** Gray codes *)

Definition gray (index : Z) : Z := Z.lxor index (Z.shiftr index 1).
Definition advanceGray (index : Z) : Z := ctz32 (Z.lxor (gray (wrap 32 (index + 1))) (gray index)).
Definition grayBitToFlip (index1 index2 : Z) : Z := ctz32 (Z.lxor (gray index1) (gray index2)).

Record GrayFlip := mkFlip { flip_bit : Z; nowSet : bool }.

(** The flip and the new code. *)
Definition advanceGrayCyclic (walkIndex blockMask blockHalf grayCode : Z) : GrayFlip * Z :=
  let bit := ctz32 (Z.lor (Z.land walkIndex blockMask) blockHalf) in
  let grayCode := Z.lxor grayCode (wrap 32 (Z.shiftl 1 bit)) in
  (mkFlip bit (negb (Z.land (Z.shiftr grayCode bit) 1 =? 0)), grayCode).

(** A row of the thread's column of [dTable]. *)
Definition doubled_B (p bval : Z) : Z :=
  let d := wrap 32 (Z.shiftl bval 1) in if p <=? d then d - p else d.

Definition storeDoubledBValues (log2_polyBlockSize p : Z) (bval : Z -> Z) : list Z := map (fun k => doubled_B p (bval k)) (upto log2_polyBlockSize).

Definition advanceRelRootsScatter (flip : GrayFlip) (p : Z) (dTable : list Z) (rel : Z * Z) : Z * Z :=
  let d := vget 0 dTable (flip_bit flip) in
  let delta := if nowSet flip then wrap 32 (p - d) else d in
  (modAdd rel.1 delta p, modAdd rel.2 delta p).

(** The first position of a root from [start] on, and the root of a position: positions are [int]s. *)
Definition sieve_offset (start p root : Z) : Z := s32 (s32 (start - s32 (modSub_shifted (reduced_start start p) root p)) + p).
Definition offset_root (offset p : Z) : Z := positive_rem offset p.

(** The walks of the kernels. Sieve and scan: from the prefix, one Gray code after the other; the two positions of a prime and the coefficient [b]. *)
Definition sieve_step (start p : Z) (bval : Z -> Z) (B_values : list uint512) (prevPolyId polyId : Z) (st : (Z * Z) * uint512) : (Z * Z) * uint512 :=
  let '(root1, root2) := advanceRoots prevPolyId polyId p bval (offset_root st.1.1 p, offset_root st.1.2 p) in
  ((sieve_offset start p root1, sieve_offset start p root2), advance_b prevPolyId polyId B_values st.2).

(** Sieving a polynomial moves the positions on by the multiples [hits] of the prime. *)
Definition sieve_walk (start prefix p : Z) (bval : Z -> Z) (B_values : list uint512) (hits : Z -> Z * Z) (polys : Z) (st : (Z * Z) * uint512) : (Z * Z) * uint512 :=
  foldl (fun st poly =>
           let moved := ((s32 (st.1.1 + (hits poly).1 * p), s32 (st.1.2 + (hits poly).2 * p)), st.2) in
           sieve_step start p bval B_values (Z.lor prefix (gray (poly - 1))) (Z.lor prefix (gray poly)) moved)
    st (map (Z.add 1) (upto (polys - 1))).

(** Scatter: the cyclic walk over a block of polynomials, [steps] steps from the walk index [start]; the roots are relative to the window's start. *)
Definition scatter_walk (start steps blockMask blockHalf p : Z) (dTable : list Z) (st : Z * (Z * Z)) : Z * (Z * Z) :=
  foldl (fun st polyStep =>
           let '(flip, polyId) := advanceGrayCyclic polyStep blockMask blockHalf st.1 in
           (polyId, advanceRelRootsScatter flip p dTable st.2))
    st (map (Z.add (start + 1)) (upto steps)).

(** ** Vocabulary of the specifications *)

(** The data of a prime for the coefficients [a], [B] of [N]. *)
Record prime_data_ok (a : Z) (B : list Z) (p root : Z) (d : primeDataSIQS) (bval : Z -> Z) : Prop := mkPrimeOk {
  po_p : pd_p d = p;
  po_inv : a * pd_mod_inverse_a d ≅{p} 1;
  po_aN : pd_inv_aN d = (pd_mod_inverse_a d * root) mod p;
  po_b : forall j, 0 <= j < Z.of_nat (length B) -> bval j = (vget 0 B j * pd_mod_inverse_a d) mod p
}.

(** The two roots of polynomial [id] modulo [p]. *)
Definition poly_roots (inv root p id : Z) (B : list Z) : Z * Z :=
  (((root - b_value id B) * inv) mod p, ((- root - b_value id B) * inv) mod p).

(** The state of the sieve kernel at polynomial [id]: the first positions of the roots in the window, and [b]. *)
Definition sieve_at (start inv root p : Z) (B : list uint512) (id : Z) : (Z * Z) * uint512 :=
  let rs := poly_roots inv root p id (map u512_val B) in
  ((sieve_offset start p rs.1, sieve_offset start p rs.2), bFromPolyId id (Z.of_nat (length B)) B).

(** Roots relative to the start of a window. *)
Definition relative (start p : Z) (rs : Z * Z) : Z * Z := ((rs.1 - start) mod p, (rs.2 - start) mod p).

(** The positions of a window stay [int]s: the prime fits twice, and so does the window with a prime on either side. *)
Definition window_fits (start p : Z) : Prop := 0 < p <= 2 ^ 30 /\ - 2 ^ 31 + p <= start /\ start + p <= 2 ^ 31.

(** The positions that the sieve leaves are [int]s. *)
Definition hits_fit (start p polys : Z) (hits : Z -> Z * Z) : Prop :=
  forall poly, 1 <= poly < polys -> (0 <= (hits poly).1 /\ start + p + (hits poly).1 * p <= 2 ^ 31) /\ (0 <= (hits poly).2 /\ start + p + (hits poly).2 * p <= 2 ^ 31).

(** ** Lemmas: arithmetic modulo a prime *)

Lemma modAdd_spec a b p : 0 <= a < p -> 0 <= b <= p -> p <= 2 ^ 31 -> modAdd a b p = (a + b) mod p.
Proof.
  intros Ha Hb Hp. unfold modAdd. rewrite (wrap_small 32 (a + b)) by (unfold in_width; lia). unfold wrap. destruct (Z.leb_spec p (a + b)).
  - rewrite (Z.mod_small (a + b - p)) by lia. destruct (Z.ltb_spec (a + b - p) (a + b)); [|lia]. by apply Z.mod_unique_pos with 1; lia.
  - assert ((a + b - p) mod 2 ^ 32 = a + b - p + 2 ^ 32) as -> by (symmetry; apply Z.mod_unique_pos with (-1); lia).
    destruct (Z.ltb_spec (a + b - p + 2 ^ 32) (a + b)); [lia|]. symmetry. apply Z.mod_small. lia.
Qed.

Lemma modSub_spec a b p : 0 <= a < p -> 0 <= b < p -> p <= 2 ^ 31 -> modSub a b p = (a - b) mod p.
Proof.
  intros Ha Hb Hp. unfold modSub. destruct (Z.leb_spec b a).
  - rewrite wrap_small by (unfold in_width; lia). symmetry. apply Z.mod_small. lia.
  - rewrite (wrap_small 32 (b - a)) by (unfold in_width; lia). rewrite wrap_small by (unfold in_width; lia). apply Z.mod_unique_pos with (-1); lia.
Qed.

Lemma modSub_shifted_spec a b p : 0 <= a < p -> 0 <= b < p -> p <= 2 ^ 31 -> 0 < modSub_shifted a b p <= p /\ modSub_shifted a b p ≅{p} a - b.
Proof.
  intros Ha Hb Hp. unfold modSub_shifted. destruct (Z.ltb_spec b a).
  - rewrite wrap_small by (unfold in_width; lia). split; [lia|done].
  - rewrite (wrap_small 32 (a + p)) by (unfold in_width; lia). rewrite wrap_small by (unfold in_width; lia). split; [lia|].
    apply cong_divide; [lia|]. exists 1. ring.
Qed.

Lemma modSum_spec a b p : 0 <= a < p -> - p < b < p -> p <= 2 ^ 31 -> modSum a b p = (a + b) mod p.
Proof.
  intros Ha Hb Hp. unfold modSum. cbv zeta. destruct (Z.ltb_spec (a + b) 0).
  - destruct (Z.leb_spec p (a + b + p)); [lia|]. rewrite wrap_small by (unfold in_width; lia). apply Z.mod_unique_pos with (-1); lia.
  - destruct (Z.leb_spec p (a + b)); rewrite wrap_small by (unfold in_width; lia); [apply Z.mod_unique_pos with 1; lia|symmetry; apply Z.mod_small; lia].
Qed.

Lemma rem_mod_spec s p : 0 < p -> Z.rem (Z.rem s p + p) p = s mod p.
Proof.
  intros Hp. pose proof (Z.rem_bound_abs s p ltac:(lia)) as Hb. pose proof (Z.quot_rem' s p) as E.
  rewrite Z.rem_mod_nonneg by lia. change (Z.rem s p + p ≅{p} s). apply cong_divide; [lia|]. exists (1 - s ÷ p). rewrite E at 2. ring.
Qed.

Lemma s32_small x : - 2 ^ 31 <= x < 2 ^ 31 -> s32 x = x.
Proof.
  intros Hx. unfold s32, to_signed, wrap. change (2 ^ (32 - 1)) with (2 ^ 31). destruct (Z.ltb_spec x 0).
  - assert (x mod 2 ^ 32 = x + 2 ^ 32) as -> by (symmetry; apply Z.mod_unique_pos with (-1); lia). destruct (Z.ltb_spec (x + 2 ^ 32) (2 ^ 31)); lia.
  - rewrite Z.mod_small by lia. destruct (Z.ltb_spec x (2 ^ 31)); lia.
Qed.

(** Up to 2^30 the sum of a remainder and the prime is an [int]. *)
Lemma positive_rem_spec x p : 0 < p <= 2 ^ 30 -> positive_rem x p = x mod p.
Proof.
  intros Hp. unfold positive_rem. pose proof (Z.rem_bound_abs x p ltac:(lia)) as Hb. rewrite s32_small by lia. rewrite rem_mod_spec by lia.
  apply wrap_small. pose proof (Z.mod_pos_bound x p ltac:(lia)). unfold in_width. lia.
Qed.

Lemma mod_eq_cong x y p : x ≅{p} y -> x mod p = y mod p.
Proof. done. Qed.

(** ** Lemmas: the data of a prime *)

Lemma invert_loop_spec p n : 1 < p < 2 ^ 31 -> forall exp base res,
  0 <= exp < 2 ^ Z.of_nat n -> 0 <= base < p -> 0 <= res < p -> invert_loop n p exp base res = (res * base ^ exp) mod p.
Proof.
  intros Hp. induction n as [|n IH]; intros exp base res He Hb Hr; cbn [invert_loop].
  { change (2 ^ Z.of_nat 0) with 1 in He. assert (exp = 0) as -> by lia. by rewrite Z.pow_0_r, Z.mul_1_r, Z.mod_small. }
  assert (forall x y, 0 <= x < p -> 0 <= y < p -> wrap 32 (wrap 64 (x * y) mod p) = (x * y) mod p) as Hm.
  { intros x y Hx Hy. rewrite (wrap_small 64) by (unfold in_width; change (2 ^ 64) with (2 ^ 31 * 2 ^ 33); nia). apply wrap_small. pose proof (Z.mod_pos_bound (x * y) p). unfold in_width. lia. }
  rewrite !Hm by done. pose proof (Z.mod_pos_bound (res * base) p ltac:(lia)). pose proof (Z.mod_pos_bound (base * base) p ltac:(lia)).
  assert (Z.land exp 1 = exp mod 2) as -> by (change 1 with (Z.ones 1); by rewrite Z.land_ones by lia). rewrite Nat2Z.inj_succ, Z.pow_succ_r in He by lia.
  pose proof (Z.div_mod exp 2 ltac:(lia)) as E. pose proof (Z.mod_pos_bound exp 2 ltac:(lia)). rewrite Z.shiftr_div_pow2 by lia. change (2 ^ 1) with 2.
  assert (0 <= exp / 2 < 2 ^ Z.of_nat n) by (split; [apply Z.div_pos; lia|apply Z.div_lt_upper_bound; lia]).
  assert (base ^ exp = (base * base) ^ (exp / 2) * base ^ (exp mod 2)) as -> by (rewrite E at 1; by rewrite Z.pow_add_r, Z.pow_mul_r, Z.pow_2_r by lia).
  assert ((base * base) mod p ≅{p} base * base) as Eb by apply cong_mod. assert ((res * base) mod p ≅{p} res * base) as Er by apply cong_mod.
  assert (exp mod 2 = 1 \/ exp mod 2 = 0) as [-> | ->] by lia; cbn [Z.eqb Pos.eqb Z.b2z].
  - rewrite Z.mul_0_l, Z.add_0_r, Z.mul_1_l, wrap_small by (unfold in_width; lia). rewrite IH by done. apply mod_eq_cong. rewrite Eb, Er, Z.pow_1_r.
    by replace (res * base * (base * base) ^ (exp / 2)) with (res * ((base * base) ^ (exp / 2) * base)) by ring.
  - rewrite Z.mul_0_l, Z.add_0_l, Z.mul_1_l, wrap_small by (unfold in_width; lia). rewrite IH by done. apply mod_eq_cong. by rewrite Eb, Z.pow_0_r, Z.mul_1_r.
Qed.

Lemma invert_spec x p : Z.prime p -> 2 < p < 2 ^ 31 -> 0 <= x < p -> ~ x ≅{p} 0 -> 0 <= invert x p < p /\ x * invert x p ≅{p} 1.
Proof.
  intros Hp Hp2 Hx Hn. unfold invert. rewrite invert_loop_spec by (change (2 ^ Z.of_nat 32) with (2 ^ 32); lia). split; [apply Z.mod_pos_bound; lia|].
  rewrite cong_mod, Z.mul_1_l. rewrite <- Z.pow_succ_r by lia. replace (Z.succ (p - 2)) with (p - 1) by lia. apply fermat; [done|lia|done].
Qed.

Lemma invert_mod x p : Z.prime p -> 2 < p < 2 ^ 31 -> ~ x ≅{p} 0 -> 0 <= invert (x mod p) p < p /\ x * invert (x mod p) p ≅{p} 1.
Proof.
  intros Hp Hp2 Hn. pose proof (Z.mod_pos_bound x p ltac:(lia)) as Hm. destruct (invert_spec (x mod p) p Hp Hp2 Hm) as [H1 H2]; [by rewrite cong_mod|].
  set (v := invert _ _) in *. clearbody v. split; [done|]. rewrite <- H2. assert (x mod p ≅{p} x) as E by apply cong_mod. by rewrite E.
Qed.

Lemma elem_of_grid_stride i stride n : 0 < stride -> 0 <= i < n -> i ∈ grid_stride stride n.
Proof.
  intros Hs Hi. unfold grid_stride. apply list_elem_of_In, in_flat_map. exists (i mod stride). pose proof (Z.mod_pos_bound i stride Hs) as Hm. pose proof (Z.div_mod i stride ltac:(lia)).
  split; [apply list_elem_of_In, elem_of_upto; lia|]. unfold strided. apply in_map_iff. exists (i / stride). split; [lia|]. apply list_elem_of_In, elem_of_upto.
  split; [apply Z.div_pos; lia|]. apply Z.lt_le_trans with (i / stride + 1); [lia|]. apply Z.div_le_lower_bound; [done|]. lia.
Qed.

Lemma grid_stride_range i stride n : 0 < stride -> i ∈ grid_stride stride n -> 0 <= i < n.
Proof.
  intros Hs. unfold grid_stride. rewrite list_elem_of_In, in_flat_map. intros (tid & Ht & Hi). apply list_elem_of_In, elem_of_upto in Ht.
  unfold strided in Hi. apply in_map_iff in Hi as (k & <- & Hk). apply list_elem_of_In, elem_of_upto in Hk. split; [nia|].
  pose proof (Z.mul_div_le (n - tid + stride - 1) stride Hs). nia.
Qed.

Lemma mulmod_small x y p : 0 <= x < 2 ^ 31 -> 0 <= y < 2 ^ 31 -> 0 < p < 2 ^ 31 -> wrap 32 (wrap 64 (x * y) mod p) = (x * y) mod p.
Proof.
  intros Hx Hy Hp. rewrite (wrap_small 64) by (unfold in_width; change (2 ^ 64) with (2 ^ 31 * 2 ^ 33); nia). apply wrap_small.
  pose proof (Z.mod_pos_bound (x * y) p). unfold in_width. lia.
Qed.

Lemma init_prime_eq r a startIndex p root : u512_ok a -> 0 < p < 2 ^ 31 -> 0 <= root < p -> 0 <= invert (u512_val a mod p) p < p ->
  init_prime r a startIndex p root = mkPrimeData p r (invert (u512_val a mod p) p) ((invert (u512_val a mod p) p * root) mod p) 0 (reduced_start startIndex p).
Proof.
  intros Ha Hp Hr Hv. unfold init_prime. rewrite (mod_uint32_spec a p) by (done || lia). generalize dependent (invert (u512_val a mod p) p). intros v Hv.
  cbv zeta. rewrite (mulmod_small v root p) by lia. reflexivity.
Qed.

Lemma prime_b_eq a p B : u512_ok a -> u512_ok B -> 0 < p < 2 ^ 31 -> 0 <= invert (u512_val a mod p) p < p ->
  prime_b a p B = (u512_val B * invert (u512_val a mod p) p) mod p.
Proof.
  intros Ha HB Hp Hv. unfold prime_b. rewrite (mod_uint32_spec a p), (mod_uint32_spec B p) by (done || lia). generalize dependent (invert (u512_val a mod p) p). intros v Hv.
  pose proof (Z.mod_pos_bound (u512_val B) p ltac:(lia)). rewrite (mulmod_small _ v p) by lia. apply mod_eq_cong.
  assert (u512_val B mod p ≅{p} u512_val B) as E by apply cong_mod. by rewrite E.
Qed.

Lemma init_prime_ok r a B startIndex p root bval : u512_ok a -> Forall u512_ok B -> Z.prime p -> 2 < p < 2 ^ 31 -> 0 <= root < p -> ~ u512_val a ≅{p} 0 ->
  (forall j, 0 <= j < Z.of_nat (length (map u512_val B)) -> bval j = prime_b a p (dget B j)) ->
  prime_data_ok (u512_val a) (map u512_val B) p root (init_prime r a startIndex p root) bval /\
  pd_inactive (init_prime r a startIndex p root) = 0 /\ (p <= 2 ^ 30 -> pd_reducedStart (init_prime r a startIndex p root) = startIndex mod p).
Proof.
  intros Ha HB Hp Hp2 Hr Hu Hb. destruct (invert_mod (u512_val a) p Hp Hp2 Hu) as [Hi1 Hi2]. rewrite init_prime_eq by (done || lia).
  assert (forall j, 0 <= j < Z.of_nat (length (map u512_val B)) -> bval j = (vget 0 (map u512_val B) j * invert (u512_val a mod p) p) mod p) as Hb'.
  { intros j Hj. rewrite Hb by done. rewrite length_map in Hj. rewrite vget_map_val by done. apply prime_b_eq; [done| |lia|done].
    unfold vget. rewrite Forall_forall in HB. apply HB, list_elem_of_In, nth_In. lia. }
  clear Hb. generalize dependent (invert (u512_val a mod p) p). intros v Hv Ev Hb. split; [by constructor|]. split; [reflexivity|]. intros Hp30. apply positive_rem_spec. lia.
Qed.

Section init.
Context (r stride : Z) (fb roots : list Z) (a : uint512) (B : list uint512) (startIndex : Z).
Context (pd : list primeDataSIQS) (bv : list Z).
Notation fb_size := (Z.of_nat (length fb)).
Notation shc_dim := (Z.of_nat (length B)).
Context (Hstride : 0 < stride) (Lpd : length pd = length fb) (Lbv : shc_dim * fb_size <= Z.of_nat (length bv)).
Notation out := (initPrimeData r stride fb roots a B startIndex pd bv).

Lemma init_get i : 0 <= i < fb_size -> vget no_prime out.1 i = init_prime r a startIndex (vget 0 fb i) (vget 0 roots i).
Proof using Hstride Lpd.
  intros Hi. cbn [initPrimeData fst].
  apply (scatter_id no_prime (fun _ => true) (fun i => init_prime r a startIndex (vget 0 fb i) (vget 0 roots i))); [|by apply elem_of_grid_stride|done].
  intros t Ht _. apply grid_stride_range in Ht; [lia|done].
Qed.

Lemma init_b i j : 0 <= i < fb_size -> 0 <= j < shc_dim -> bvalue out.2 fb_size i j = prime_b a (vget 0 fb i) (dget B j).
Proof using Hstride Lbv.
  clear Lpd. intros Hi Hj. unfold bvalue. cbn [initPrimeData snd].
  apply (scatter_get 0 (fun _ => true) (fun ij : Z * Z => ij.2 * fb_size + ij.1) (fun ij => prime_b a (vget 0 fb ij.1) (dget B ij.2)) _ bv (i, j)).
  - intros [i1 j1] [i2 j2] H1 H2 _ _ E. apply list_elem_of_In, in_flat_map in H1 as (x1 & X1 & H1). apply in_map_iff in H1 as (y1 & [= <- <-] & Y1).
    apply list_elem_of_In, in_flat_map in H2 as (x2 & X2 & H2). apply in_map_iff in H2 as (y2 & [= <- <-] & Y2). cbn [fst snd] in *.
    apply list_elem_of_In, grid_stride_range in X1, X2; [|done|done]. apply list_elem_of_In, elem_of_upto in Y1, Y2. assert (y1 = y2) as -> by nia. assert (x1 = x2) as -> by lia. done.
  - intros [i1 j1] H1 _. apply list_elem_of_In, in_flat_map in H1 as (x1 & X1 & H1). apply in_map_iff in H1 as (y1 & [= <- <-] & Y1). cbn [fst snd].
    apply list_elem_of_In, grid_stride_range in X1; [|done]. apply list_elem_of_In, elem_of_upto in Y1. nia.
  - apply list_elem_of_In, in_flat_map. exists i. split; [apply list_elem_of_In; by apply elem_of_grid_stride|]. apply in_map_iff. exists j. split; [done|]. by apply list_elem_of_In, elem_of_upto.
  - done.
Qed.

(** What the kernel leaves for a prime that does not divide [a]. *)
Lemma init_ok i : 0 <= i < fb_size -> Forall u512_ok B -> u512_ok a ->
  Z.prime (vget 0 fb i) -> 2 < vget 0 fb i < 2 ^ 31 -> 0 <= vget 0 roots i < vget 0 fb i -> ~ u512_val a ≅{vget 0 fb i} 0 ->
  prime_data_ok (u512_val a) (map u512_val B) (vget 0 fb i) (vget 0 roots i) (vget no_prime out.1 i) (bvalue out.2 fb_size i) /\
  pd_inactive (vget no_prime out.1 i) = 0 /\ (vget 0 fb i <= 2 ^ 30 -> pd_reducedStart (vget no_prime out.1 i) = startIndex mod vget 0 fb i).
Proof using Hstride Lpd Lbv.
  intros Hi HB Ha Hp Hp2 Hr Hu. rewrite init_get by done.
  assert (forall j, 0 <= j < Z.of_nat (length (map u512_val B)) -> bvalue out.2 fb_size i j = prime_b a (vget 0 fb i) (dget B j)) as Hb.
  { intros j Hj. rewrite length_map in Hj. by apply init_b. }
  apply init_prime_ok; [done|done|done|done|done|done|exact Hb].
Qed.
End init.

Lemma mark_get blockDim shc_dim idx pd i :
  0 < blockDim -> Forall (fun j => 0 <= j < Z.of_nat (length pd)) (map (vget 0 idx) (upto shc_dim)) -> 0 <= i < Z.of_nat (length pd) ->
  vget no_prime (markInactivePrimesKernel blockDim shc_dim idx pd) i =
    if decide (i ∈ map (vget 0 idx) (upto shc_dim)) then set_inactive (vget no_prime pd i) else vget no_prime pd i.
Proof.
  intros Hb HF Hi. unfold markInactivePrimesKernel.
  assert (forall l, (forall t, t ∈ l -> 0 <= t < shc_dim) ->
    let out := foldl (fun d i => vset d (vget 0 idx i) (set_inactive (vget no_prime d (vget 0 idx i)))) pd l in
    length out = length pd /\ vget no_prime out i = if decide (i ∈ map (vget 0 idx) l) then set_inactive (vget no_prime pd i) else vget no_prime pd i) as H.
  { intros l. induction l as [|t l IH] using rev_ind; intros Hl; cbv zeta.
    { split; [done|]. destruct (decide _) as [H|]; [by apply not_elem_of_nil in H|done]. }
    destruct IH as [IL IG]; [intros u Hu; apply Hl; apply elem_of_app; by left|]. rewrite foldl_snoc. set (out := foldl _ pd l) in *. clearbody out.
    rewrite length_vset. split; [done|]. assert (0 <= vget 0 idx t < Z.of_nat (length pd)) as Ht.
    { rewrite Forall_forall in HF. apply HF. apply list_elem_of_In, in_map, list_elem_of_In, elem_of_upto, Hl. apply elem_of_app. right. by apply list_elem_of_singleton. }
    rewrite map_app. cbn [map]. destruct (decide (vget 0 idx t = i)) as [E|Hne].
    - rewrite E, vget_vset_eq by lia. rewrite IG. destruct (decide (i ∈ _ ++ [i])) as [_|Hn]; [|destruct Hn; apply elem_of_app; right; by apply list_elem_of_singleton].
      by destruct (decide _).
    - rewrite vget_vset_ne by (lia || congruence). rewrite IG. destruct (decide (i ∈ map (vget 0 idx) l)) as [H1|H1], (decide (i ∈ map (vget 0 idx) l ++ [vget 0 idx t])) as [H2|H2]; try done.
      + destruct H2. apply elem_of_app. by left.
      + apply elem_of_app in H2 as [H2|H2]; [done|]. apply list_elem_of_singleton in H2. congruence. }
  destruct (H (grid_stride blockDim shc_dim)) as [_ ->]; [intros t; by apply grid_stride_range|].
  assert (i ∈ map (vget 0 idx) (grid_stride blockDim shc_dim) <-> i ∈ map (vget 0 idx) (upto shc_dim)) as Hiff.
  { rewrite !list_elem_of_In, !in_map_iff. split; intros (t & <- & Ht); exists t; (split; [done|]); apply list_elem_of_In; apply list_elem_of_In in Ht.
    - apply elem_of_upto. by apply grid_stride_range in Ht.
    - apply elem_of_upto in Ht. by apply elem_of_grid_stride. }
  destruct (decide (i ∈ map (vget 0 idx) (grid_stride _ _))), (decide (i ∈ map (vget 0 idx) (upto _))); tauto || done.
Qed.

(** ** Lemmas: the roots of a polynomial *)

Lemma minus_b_loop_spec id p bval n : 2 < p < 2 ^ 31 -> forall i acc, 0 <= i -> (forall j, i <= j < i + Z.of_nat n -> 0 <= bval j < p) -> 0 <= acc < p ->
  minus_b_loop n i (Z.shiftr id i) p bval acc = (acc - zsum_upto (Z.of_nat n) (fun k => bit_sign id (i + k) * bval (i + k))) mod p.
Proof.
  intros Hp. induction n as [|n IH]; intros i acc Hi Hb Ha; cbn [minus_b_loop].
  { change (zsum_upto (Z.of_nat 0) _) with 0. rewrite Z.sub_0_r. symmetry. by apply Z.mod_small. }
  rewrite land_1_testbit, shiftr_next by done. pose proof (Hb i ltac:(lia)) as Hbi. rewrite Nat2Z.inj_succ. change (Z.succ (Z.of_nat n)) with (Z.of_nat n + 1).
  set (term := if _ =? 0 then _ else _). assert (modAdd acc term p = (acc - bit_sign id i * bval i) mod p) as ->.
  { unfold term, bit_sign. destruct (Z.testbit id i); cbn [Z.b2z Z.eqb].
    - rewrite wrap_small by (unfold in_width; lia). rewrite modAdd_spec by lia. apply mod_eq_cong, cong_divide; [lia|]. exists 1. ring.
    - rewrite modAdd_spec by lia. f_equal. ring. }
  rewrite IH by (lia || (intros j Hj; apply Hb; lia) || (apply Z.mod_pos_bound; lia)). rewrite zsum_upto_head by lia. rewrite Z.add_0_r. apply mod_eq_cong. rewrite cong_mod.
  rewrite (zsum_upto_ext _ (fun k => bit_sign id (i + 1 + k) * bval (i + 1 + k)) (fun k => bit_sign id (i + (1 + k)) * bval (i + (1 + k)))) by (intros k Hk; by rewrite Z.add_assoc).
  by replace (acc - (bit_sign id i * bval i + zsum_upto (Z.of_nat n) (fun k => bit_sign id (i + (1 + k)) * bval (i + (1 + k)))))
    with (acc - bit_sign id i * bval i - zsum_upto (Z.of_nat n) (fun k => bit_sign id (i + (1 + k)) * bval (i + (1 + k)))) by ring.
Qed.

Lemma zsum_upto_scale n f c : 0 <= n -> zsum_upto n (fun i => f i * c) = zsum_upto n f * c.
Proof.
  intros Hn. pattern n. apply natlike_ind; [done| |done]. clear n Hn. intros n Hn IH. change (Z.succ n) with (n + 1). rewrite !zsum_upto_S, IH by done. ring.
Qed.

Section roots.
Context (a : Z) (B : list Z) (p root : Z) (d : primeDataSIQS) (bval : Z -> Z).
Context (Hp2 : 2 < p < 2 ^ 31) (Hd : prime_data_ok a B p root d bval).
Notation inv := (pd_mod_inverse_a d).

Lemma bval_range j : 0 <= j < Z.of_nat (length B) -> 0 <= bval j < p.
Proof using Hp2 Hd. intros Hj. rewrite (po_b _ _ _ _ _ _ Hd j Hj). apply Z.mod_pos_bound. lia. Qed.

Lemma rootsFromPolyId_spec id : rootsFromPolyId id (Z.of_nat (length B)) d bval = poly_roots inv root p id B.
Proof using Hp2 Hd.
  unfold rootsFromPolyId. rewrite (po_p _ _ _ _ _ _ Hd), Nat2Z.id. cbv zeta. pose proof (minus_b_loop_spec id p bval (length B) Hp2 0 0) as E. rewrite Z.shiftr_0_r in E.
  rewrite E by (lia || (intros j Hj; apply bval_range; lia)). clear E. rewrite Z.sub_0_l.
  rewrite (zsum_upto_ext _ (fun k => bit_sign id (0 + k) * bval (0 + k)) (fun k => bit_sign id k * bval k)) by (intros k Hk; by rewrite Z.add_0_l).
  pose proof (po_aN _ _ _ _ _ _ Hd) as EN. pose proof (Z.mod_pos_bound (inv * root) p ltac:(lia)) as HN. rewrite <- EN in HN. set (s := zsum_upto _ _). pose proof (Z.mod_pos_bound (- s) p ltac:(lia)).
  assert (s ≅{p} b_value id B * inv) as Es.
  { unfold s, b_value. rewrite <- zsum_upto_scale by lia. apply zsum_upto_cong; [lia|]. intros i Hi. rewrite (po_b _ _ _ _ _ _ Hd i Hi), cong_mod. by rewrite Z.mul_assoc. }
  rewrite wrap_small by (unfold in_width; lia). rewrite !modAdd_spec by lia. unfold poly_roots. f_equal; apply mod_eq_cong; rewrite cong_mod.
  - rewrite EN, cong_mod, Es. by replace (- (b_value id B * inv) + inv * root) with ((root - b_value id B) * inv) by ring.
  - assert (p - pd_inv_aN d ≅{p} - (inv * root)) as ->.
    { rewrite EN. assert ((inv * root) mod p ≅{p} inv * root) as -> by apply cong_mod. apply cong_divide; [lia|]. exists 1. ring. }
    rewrite Es. by replace (- (b_value id B * inv) + - (inv * root)) with ((- root - b_value id B) * inv) by ring.
Qed.

(** They are the roots: [p] divides the polynomial exactly there. *)
Lemma poly_roots_iff id N x : Z.prime p -> root * root ≅{p} N ->
  let rs := poly_roots inv root p id B in
  let b := b_value id B in (a * x + b) * (a * x + b) ≅{p} N <-> x ≅{p} rs.1 \/ x ≅{p} rs.2.
Proof using Hp2 Hd.
  intros Hp Er rs b. pose proof (po_inv _ _ _ _ _ _ Hd) as Ei. cbn [poly_roots fst snd] in *. unfold rs. cbn [poly_roots fst snd]. fold b. rewrite !cong_mod.
  assert (forall c, a * x + b ≅{p} c <-> x ≅{p} (c - b) * inv) as Hc.
  { intros c. split; intros E.
    - rewrite <- E. replace ((a * x + b - b) * inv) with (a * inv * x) by ring. by rewrite Ei, Z.mul_1_l.
    - rewrite E. replace (a * ((c - b) * inv) + b) with (a * inv * (c - b) + b) by ring. rewrite Ei. by replace (1 * (c - b) + b) with c by ring. }
  rewrite <- !Hc, <- Er. rewrite !cong_divide by lia.
  replace ((a * x + b) * (a * x + b) - root * root) with ((a * x + b - root) * (a * x + b - - root)) by ring. split.
  - by apply Z.divide_prime_mul.
  - intros [H|H]; [by apply Z.divide_mul_l|by apply Z.divide_mul_r].
Qed.
End roots.

(** ** Lemmas: Gray codes *)

Lemma gray_lxor x y : Z.lxor (gray x) (gray y) = gray (Z.lxor x y).
Proof.
  unfold gray. rewrite Z.shiftr_lxor. apply Z.bits_inj'. intros n _. rewrite !Z.lxor_spec. by destruct (Z.testbit x n), (Z.testbit y n), (Z.testbit (Z.shiftr x 1) n), (Z.testbit (Z.shiftr y 1) n).
Qed.

Lemma gray_inj x y : 0 <= x -> 0 <= y -> gray x = gray y -> x = y.
Proof.
  intros Hx Hy E. apply Z.lxor_eq. assert (gray (Z.lxor x y) = 0) as G by (rewrite <- gray_lxor, E; apply Z.lxor_nilpotent).
  assert (0 <= Z.lxor x y) as Hp by (by apply Z.lxor_nonneg). generalize dependent (Z.lxor x y). intros z G Hz. apply Z.lxor_eq in G.
  rewrite Z.shiftr_div_pow2 in G by lia. change (2 ^ 1) with 2 in G. destruct (Z.eq_dec z 0) as [|]; [done|]. assert (z / 2 < z) by (apply Z.div_lt; lia). lia.
Qed.

Lemma gray_bound x m : 0 <= m -> 0 <= x < 2 ^ m -> 0 <= gray x < 2 ^ m.
Proof.
  intros Hm Hx. unfold gray. assert (0 <= Z.shiftr x 1) by (apply Z.shiftr_nonneg; lia). split; [apply Z.lxor_nonneg; lia|].
  destruct (Z.eq_dec (Z.lxor x (Z.shiftr x 1)) 0) as [->|Hne]; [lia|]. apply Z.log2_lt_pow2; [assert (0 <= Z.lxor x (Z.shiftr x 1)) by (apply Z.lxor_nonneg; lia); lia|].
  eapply Z.le_lt_trans; [apply Z.log2_lxor; lia|]. destruct (Z.eq_dec x 0) as [->|]; [done|]. rewrite Z.log2_shiftr by lia. pose proof (Z.log2_nonneg x). assert (Z.log2 x < m) by (apply Z.log2_lt_pow2; lia). lia.
Qed.

(** The lowest set bit. *)
Lemma ctz32_bits x : 0 < x -> 0 <= ctz32 x /\ Z.testbit x (ctz32 x) = true /\ forall j, 0 <= j < ctz32 x -> Z.testbit x j = false.
Proof.
  intros Hx. destruct (ctz32_spec x Hx) as (Hz & E & Ho). set (q := Z.shiftr x (ctz32 x)) in *. set (z := ctz32 x) in *. clearbody q z. subst x. split; [done|].
  rewrite Z.mul_comm, <- Z.shiftl_mul_pow2 by done. split.
  - rewrite Z.shiftl_spec by done. rewrite Z.sub_diag, Z.bit0_odd. rewrite Zmod_odd in Ho. by destruct (Z.odd q).
  - intros j Hj. apply Z.shiftl_spec_low. lia.
Qed.

Lemma ctz32_unique x t : 0 < x -> 0 <= t -> Z.testbit x t = true -> (forall j, 0 <= j < t -> Z.testbit x j = false) -> ctz32 x = t.
Proof.
  intros Hx Ht H1 H2. destruct (ctz32_bits x Hx) as (Hz & B1 & B2). destruct (Z.lt_trichotomy (ctz32 x) t) as [H|[H|H]]; [|done|].
  - rewrite H2 in B1 by lia. done.
  - rewrite B2 in H1 by lia. done.
Qed.

Lemma ctz32_pow2 t : 0 <= t -> ctz32 (2 ^ t) = t.
Proof.
  intros Ht. apply ctz32_unique; [by apply Z.pow_pos_nonneg|done|by apply Z.pow2_bits_true|]. intros j Hj. apply Z.pow2_bits_false. lia.
Qed.

(** [n - 1] and [n] differ in the lowest set bit of [n] and below. *)
Lemma lxor_pred n : 0 < n -> Z.lxor (n - 1) n = Z.ones (ctz32 n + 1).
Proof.
  intros Hn. destruct n as [|q|]; try lia. clear Hn. cbn [ctz32]. induction q as [q IH|q IH|]; cbn [pos_ctz].
  - rewrite Pos2Z.inj_xI. replace (2 * Z.pos q + 1 - 1) with (2 * Z.pos q + Z.b2z false) by (cbn [Z.b2z]; ring). replace (2 * Z.pos q + 1) with (2 * Z.pos q + Z.b2z true) by done.
    apply Z.bits_inj'. intros k Hk. rewrite Z.lxor_spec. change (Z.ones (0 + 1)) with 1. destruct (Z.eq_dec k 0) as [->|].
    + by rewrite !Z.testbit_0_r.
    + replace k with (Z.succ (k - 1)) by lia. rewrite !Z.testbit_succ_r by lia. rewrite xorb_nilpotent. symmetry. apply (Z.pow2_bits_false 0). lia.
  - assert (0 <= pos_ctz q) by apply pos_ctz_nonneg. rewrite Pos2Z.inj_xO. replace (2 * Z.pos q - 1) with (2 * (Z.pos q - 1) + Z.b2z true) by (cbn [Z.b2z]; ring).
    replace (2 * Z.pos q) with (2 * Z.pos q + Z.b2z false) by (cbn [Z.b2z]; ring).
    apply Z.bits_inj'. intros k Hk. rewrite Z.lxor_spec. destruct (Z.eq_dec k 0) as [->|].
    + rewrite !Z.testbit_0_r. by rewrite Z.ones_spec_low by lia.
    + replace k with (Z.succ (k - 1)) by lia. rewrite !Z.testbit_succ_r by lia. rewrite <- Z.lxor_spec, IH.
      destruct (Z.ltb_spec (k - 1) (pos_ctz q + 1)); [by rewrite !Z.ones_spec_low by lia|by rewrite !Z.ones_spec_high by lia].
  - done.
Qed.

Lemma gray_ones t : 0 <= t -> gray (Z.ones (t + 1)) = 2 ^ t.
Proof.
  intros Ht. unfold gray. apply Z.bits_inj'. intros k Hk. rewrite Z.lxor_spec, Z.shiftr_spec, Z.pow2_bits_eqb by lia.
  destruct (Z.eqb_spec t k) as [->|].
  - by rewrite Z.ones_spec_low, Z.ones_spec_high by lia.
  - destruct (Z.ltb_spec k t); [by rewrite !Z.ones_spec_low by lia|by rewrite !Z.ones_spec_high by lia].
Qed.

(** Consecutive Gray codes differ in one bit: the lowest set bit of the larger index. *)
Lemma gray_step n : 0 < n -> Z.lxor (gray (n - 1)) (gray n) = 2 ^ ctz32 n.
Proof. intros Hn. rewrite gray_lxor, lxor_pred by done. apply gray_ones. by apply ctz32_spec. Qed.

Lemma ctz32_lt n m : 0 <= m -> 0 < n < 2 ^ m -> ctz32 n < m.
Proof.
  intros Hm Hn. destruct (ctz32_bits n ltac:(lia)) as (Hz & B & _). destruct (Z.ltb_spec (ctz32 n) m) as [|H]; [done|].
  rewrite Z.bits_above_log2 in B; [done|lia|]. assert (Z.log2 n < m) by (apply Z.log2_lt_pow2; lia). lia.
Qed.

Lemma lor_prefix_lxor prefix m x y : 0 <= m -> (2 ^ m | prefix) -> 0 <= x < 2 ^ m -> 0 <= y < 2 ^ m -> Z.lxor (Z.lor prefix x) (Z.lor prefix y) = Z.lxor x y.
Proof.
  intros Hm [k ->] Hx Hy. rewrite <- Z.shiftl_mul_pow2 by done. apply Z.bits_inj'. intros j Hj. rewrite !Z.lxor_spec, !Z.lor_spec.
  destruct (Z.ltb_spec j m); [by rewrite Z.shiftl_spec_low by lia|].
  assert (forall z, 0 <= z < 2 ^ m -> Z.testbit z j = false) as Hz.
  { intros z Hz'. destruct (Z.eq_dec z 0) as [->|]; [apply Z.bits_0|]. apply Z.bits_above_log2; [lia|]. assert (Z.log2 z < m) by (apply Z.log2_lt_pow2; lia). lia. }
  rewrite (Hz x Hx), (Hz y Hy), !orb_false_r. apply xorb_nilpotent.
Qed.

(** ** Lemmas: steps between polynomials *)

(** Flipping bit [k] moves [b] by twice its summand. *)
Lemma b_value_flip id1 id2 k B : 0 <= k < Z.of_nat (length B) -> Z.lxor id1 id2 = 2 ^ k ->
  b_value id2 B = b_value id1 B + 2 * bit_sign id2 k * vget 0 B k.
Proof.
  intros Hk E. assert (forall i, 0 <= i -> Z.testbit id2 i = if i =? k then negb (Z.testbit id1 i) else Z.testbit id1 i) as Hb.
  { intros i Hi. assert (Z.testbit (Z.lxor id1 id2) i = Z.testbit (2 ^ k) i) as Et by by rewrite E. rewrite Z.lxor_spec, Z.pow2_bits_eqb in Et by lia.
    rewrite Z.eqb_sym in Et. destruct (i =? k), (Z.testbit id1 i), (Z.testbit id2 i); done. }
  unfold b_value. rewrite (zsum_upto_update _ (fun i => bit_sign id1 i * vget 0 B i) (fun i => bit_sign id2 i * vget 0 B i) k Hk).
  - unfold bit_sign. rewrite (Hb k) by lia. rewrite Z.eqb_refl. destruct (Z.testbit id1 k); cbn [negb]; ring.
  - intros i Hi Hne. unfold bit_sign. rewrite (Hb i) by lia. by destruct (Z.eqb_spec i k).
Qed.

Lemma flip_ne id1 id2 k : 0 <= k -> Z.lxor id1 id2 = 2 ^ k -> id1 <> id2.
Proof. intros Hk E ->. rewrite Z.lxor_nilpotent in E. pose proof (Z.pow_pos_nonneg 2 k). lia. Qed.

Section steps.
Context (a : Z) (B : list Z) (p root : Z) (d : primeDataSIQS) (bval : Z -> Z).
Context (Hp2 : 2 < p < 2 ^ 31) (Hd : prime_data_ok a B p root d bval).
Notation inv := (pd_mod_inverse_a d).

Lemma poly_roots_range id : 0 <= (poly_roots inv root p id B).1 < p /\ 0 <= (poly_roots inv root p id B).2 < p.
Proof using Hp2. split; apply Z.mod_pos_bound; lia. Qed.

(** What a step adds to a root. *)
Lemma root_shift id1 id2 k c : 0 <= k < Z.of_nat (length B) -> Z.lxor id1 id2 = 2 ^ k ->
  (c - b_value id1 B) * inv - 2 * bit_sign id2 k * bval k ≅{p} (c - b_value id2 B) * inv.
Proof using Hp2 Hd.
  intros Hk E. rewrite (b_value_flip _ _ _ _ Hk E). rewrite (po_b _ _ _ _ _ _ Hd k Hk).
  assert ((vget 0 B k * inv) mod p ≅{p} vget 0 B k * inv) as -> by apply cong_mod.
  by replace ((c - b_value id1 B) * inv - 2 * bit_sign id2 k * (vget 0 B k * inv)) with ((c - (b_value id1 B + 2 * bit_sign id2 k * vget 0 B k)) * inv) by ring.
Qed.

Lemma modSum_twice x t y : 0 <= x < p -> - p < t < p -> x + 2 * t ≅{p} y -> modSum (modSum x t p) t p = y mod p.
Proof using Hp2.
  intros Hx Ht E. rewrite (modSum_spec x t p Hx Ht) by lia. rewrite modSum_spec by (lia || (apply Z.mod_pos_bound; lia)). apply mod_eq_cong.
  rewrite <- E. assert ((x + t) mod p ≅{p} x + t) as -> by apply cong_mod. by replace (x + t + t) with (x + 2 * t) by ring.
Qed.

Lemma advanceRoots_spec id1 id2 k : 0 <= k < Z.of_nat (length B) -> 0 <= id2 -> Z.lxor id1 id2 = 2 ^ k ->
  advanceRoots id1 id2 p bval (poly_roots inv root p id1 B) = poly_roots inv root p id2 B.
Proof using Hp2 Hd.
  intros Hk Hi E. unfold advanceRoots. destruct (Z.eqb_spec id1 id2) as [->|_]; [destruct (flip_ne id2 id2 k ltac:(lia) E eq_refl)|].
  rewrite E, ctz32_pow2 by lia. rewrite land_1_testbit by lia. pose proof (bval_range _ _ _ _ _ _ Hp2 Hd k Hk) as Hb. destruct (poly_roots_range id1) as [R1 R2].
  assert (1 - 2 * Z.b2z (Z.testbit id2 k) = - bit_sign id2 k) as -> by (unfold bit_sign; by destruct (Z.testbit id2 k)).
  assert (- p < - bit_sign id2 k * bval k < p) as Ht by (unfold bit_sign; destruct (Z.testbit id2 k); lia). cbv zeta.
  assert (forall c, (c - b_value id1 B) * inv mod p + 2 * (- bit_sign id2 k * bval k) ≅{p} (c - b_value id2 B) * inv) as Hs.
  { intros c. rewrite <- (root_shift id1 id2 k c Hk E). assert (((c - b_value id1 B) * inv) mod p ≅{p} (c - b_value id1 B) * inv) as -> by apply cong_mod.
    by replace ((c - b_value id1 B) * inv + 2 * (- bit_sign id2 k * bval k)) with ((c - b_value id1 B) * inv - 2 * bit_sign id2 k * bval k) by ring. }
  unfold poly_roots at 3. f_equal; apply modSum_twice; try done; apply Hs.
Qed.
End steps.

Lemma advance_b_spec id1 id2 k B : Forall u512_ok B -> 0 <= k < Z.of_nat (length B) -> Z.lxor id1 id2 = 2 ^ k ->
  advance_b id1 id2 B (bFromPolyId id1 (Z.of_nat (length B)) B) = bFromPolyId id2 (Z.of_nat (length B)) B.
Proof.
  intros HB Hk E. destruct (bFromPolyId_spec id1 B HB) as [H1 V1]. destruct (bFromPolyId_spec id2 B HB) as [H2 V2].
  assert (u512_ok (dget B k)) as Hx by (unfold vget; rewrite Forall_forall in HB; apply HB, list_elem_of_In, nth_In; lia).
  unfold advance_b. rewrite E, ctz32_pow2 by lia. rewrite land_1_testbit by lia. cbv zeta.
  assert (b_value id2 (map u512_val B) = b_value id1 (map u512_val B) + 2 * bit_sign id2 k * u512_val (dget B k)) as Eb.
  { rewrite <- vget_map_val by done. apply b_value_flip; [by rewrite length_map|done]. }
  set (b1 := bFromPolyId id1 _ B) in *. set (b2 := bFromPolyId id2 _ B) in *. clearbody b1 b2. unfold bit_sign in Eb. destruct (Z.testbit id2 k); cbn [Z.b2z].
  - change (-1 + 2 * 1 =? -1) with false. cbv iota. destruct (add_spec b1 (dget B k) H1 Hx) as [A1 W1]. destruct (add_spec _ (dget B k) A1 Hx) as [A2 W2].
    apply u512_val_inj; [done|done|]. rewrite W2, W1, V1, V2, Eb. unfold wrap. rewrite Z.add_mod_idemp_l by done.
    rewrite <- Z.add_assoc, Z.add_mod_idemp_l by done. f_equal. ring.
  - change (-1 + 2 * 0 =? -1) with true. cbv iota. destruct (sub_spec b1 (dget B k) H1 Hx) as [A1 W1]. destruct (sub_spec _ (dget B k) A1 Hx) as [A2 W2].
    apply u512_val_inj; [done|done|]. rewrite W2, W1, V1, V2, Eb. unfold wrap. rewrite Zminus_mod_idemp_l.
    rewrite <- Z.sub_add_distr, Zminus_mod_idemp_l. f_equal. ring.
Qed.

(** ** Lemmas: the walks *)

Lemma sieve_offset_spec start p root : window_fits start p -> 0 <= root < p -> start <= sieve_offset start p root < start + p /\ sieve_offset start p root ≅{p} root.
Proof.
  intros (Hp & Hs1 & Hs2) Hr. unfold sieve_offset, reduced_start. rewrite positive_rem_spec by lia. pose proof (Z.mod_pos_bound start p ltac:(lia)) as Hm.
  destruct (modSub_shifted_spec (start mod p) root p Hm Hr) as [H1 H2]; [lia|]. rewrite (s32_small (modSub_shifted _ _ _)) by lia.
  rewrite (s32_small (start - _)) by lia. rewrite s32_small by lia. split; [lia|]. rewrite H2.
  assert (start mod p ≅{p} start) as -> by apply cong_mod. apply cong_divide; [lia|]. exists 1. ring.
Qed.

Lemma offset_root_spec start p root h : window_fits start p -> 0 <= root < p -> 0 <= h -> start + p + h * p <= 2 ^ 31 ->
  offset_root (s32 (sieve_offset start p root + h * p)) p = root.
Proof.
  intros Hw Hr Hh Hf. destruct (sieve_offset_spec start p root Hw Hr) as [Hb E]. destruct Hw as (Hp & Hs1 & Hs2). unfold offset_root. rewrite s32_small by nia.
  rewrite positive_rem_spec by lia. rewrite Z.mod_add by lia. rewrite E. apply Z.mod_small. lia.
Qed.

Section walks.
Context (a : Z) (B : list uint512) (p root : Z) (d : primeDataSIQS) (bval : Z -> Z).
Context (Hp2 : 2 < p < 2 ^ 31) (Hd : prime_data_ok a (map u512_val B) p root d bval).
Context (m : Z) (Hm : 0 <= m <= Z.of_nat (length B)) (prefix : Z) (Hprefix : 0 <= prefix) (Hpm : (2 ^ m | prefix)).
Notation inv := (pd_mod_inverse_a d).
Notation sz := (Z.of_nat (length B)).
Notation rs id := (poly_roots inv root p id (map u512_val B)).

Lemma sieve_step_spec start id1 id2 k h1 h2 : window_fits start p -> 0 <= h1 -> start + p + h1 * p <= 2 ^ 31 -> 0 <= h2 -> start + p + h2 * p <= 2 ^ 31 -> Forall u512_ok B -> 0 <= k < sz -> 0 <= id2 -> Z.lxor id1 id2 = 2 ^ k ->
  let st := sieve_at start inv root p B id1 in
  sieve_step start p bval B id1 id2 ((s32 (st.1.1 + h1 * p), s32 (st.1.2 + h2 * p)), st.2) = sieve_at start inv root p B id2.
Proof using Hp2 Hd.
  clear Hpm Hm. intros Hw G1 G2 G3 G4 HB Hk Hi E. cbv zeta. unfold sieve_step, sieve_at. cbv zeta. cbn [fst snd]. destruct (poly_roots_range (map u512_val B) p root d Hp2 id1) as [R1 R2].
  rewrite !offset_root_spec by done. replace ((rs id1).1, (rs id1).2) with (rs id1) by by destruct (rs id1).
  rewrite (advanceRoots_spec _ _ _ _ _ _ Hp2 Hd id1 id2 k) by (rewrite ?length_map; done). rewrite (advance_b_spec id1 id2 k B HB Hk E). by destruct (rs id2).
Qed.

Lemma prefix_flip x : 0 < x < 2 ^ m -> Z.lxor (Z.lor prefix (gray (x - 1))) (Z.lor prefix (gray x)) = 2 ^ ctz32 x.
Proof using Hm Hpm. intros Hx. rewrite (lor_prefix_lxor prefix m) by (lia || done || (apply gray_bound; lia)). apply gray_step. lia. Qed.

Lemma sieve_walk_spec start hits polys : window_fits start p -> hits_fit start p polys hits -> Forall u512_ok B -> 1 <= polys <= 2 ^ m ->
  sieve_walk start prefix p bval B hits polys (sieve_at start inv root p B prefix) = sieve_at start inv root p B (Z.lor prefix (gray (polys - 1))).
Proof using Hp2 Hd Hm Hprefix Hpm.
  intros Hw Hh HB Hpolys. assert (forall k, 0 <= k -> k < polys ->
    sieve_walk start prefix p bval B hits (k + 1) (sieve_at start inv root p B prefix) = sieve_at start inv root p B (Z.lor prefix (gray k))) as H.
  2:{ rewrite <- H by lia. by replace (polys - 1 + 1) with polys by lia. }
  intros k Hk. unfold sieve_walk. replace (k + 1 - 1) with k by lia. pattern k. apply natlike_ind; [| |done].
  - intros _. cbn [upto map foldl]. change (gray 0) with 0. by rewrite Z.lor_0_r.
  - clear k Hk. intros k Hk IH Hlt. change (Z.succ k) with (k + 1) in *. rewrite upto_S, map_app, foldl_app by done. cbn [map foldl]. rewrite IH by lia.
    replace (1 + k) with (k + 1) by lia. replace (k + 1 - 1) with k by lia. pose proof (prefix_flip (k + 1) ltac:(lia)) as E. replace (k + 1 - 1) with k in E by lia.
    pose proof (ctz32_lt (k + 1) m ltac:(lia) ltac:(lia)). destruct (ctz32_bits (k + 1) ltac:(lia)) as [Hz _].
    destruct (Hh (k + 1) ltac:(lia)) as [[G1 G2] [G3 G4]].
    apply (sieve_step_spec start _ _ (ctz32 (k + 1))); [done|done|done|done|done|done|lia| |done]. apply Z.lor_nonneg. split; [done|]. by apply (gray_bound _ m); lia.
Qed.

(** One step of the cyclic walk. *)
Lemma advanceGrayCyclic_spec w : 1 <= m <= 32 -> 1 <= w ->
  exists k, 0 <= k < m /\ Z.lxor (gray ((w - 1) mod 2 ^ m)) (gray (w mod 2 ^ m)) = 2 ^ k /\
    advanceGrayCyclic w (2 ^ m - 1) (2 ^ (m - 1)) (gray ((w - 1) mod 2 ^ m)) = (mkFlip k (Z.testbit (gray (w mod 2 ^ m)) k), gray (w mod 2 ^ m)).
Proof using Type.
  clear Hp2 Hd Hm Hprefix Hpm. intros Hm Hw. assert (2 ^ m = 2 * 2 ^ (m - 1)) as E2 by (rewrite <- Z.pow_succ_r by lia; f_equal; lia). pose proof (Z.pow_pos_nonneg 2 (m - 1) ltac:(lia) ltac:(lia)) as Hpos.
  pose proof (Z.mod_pos_bound w (2 ^ m) ltac:(lia)) as Hx. set (x := w mod 2 ^ m) in *.
  assert (exists k, 0 <= k < m /\ ctz32 (Z.lor x (2 ^ (m - 1))) = k /\ Z.lxor (gray ((w - 1) mod 2 ^ m)) (gray x) = 2 ^ k) as (k & Hk & Ek & Eg).
  { assert (0 < Z.lor x (2 ^ (m - 1))) as Hl.
    { assert (0 <= Z.lor x (2 ^ (m - 1))) by (apply Z.lor_nonneg; lia). assert (Z.lor x (2 ^ (m - 1)) <> 0); [|lia]. intros H0%Z.lor_eq_0_iff. lia. }
    destruct (Z.eq_dec x 0) as [E0|Hne].
    - exists (m - 1). split; [lia|]. rewrite E0, Z.lor_0_l. split; [apply ctz32_pow2; lia|].
      assert ((w - 1) mod 2 ^ m = 2 ^ m - 1) as ->.
      { symmetry. apply Z.mod_unique_pos with (w / 2 ^ m - 1); [lia|]. pose proof (Z.div_mod w (2 ^ m) ltac:(lia)). unfold x in E0. lia. }
      change (gray 0) with 0. rewrite Z.lxor_0_r. replace (2 ^ m - 1) with (Z.ones (m - 1 + 1)) by (rewrite Z.ones_equiv; replace (m - 1 + 1) with m by lia; lia). apply gray_ones. lia.
    - exists (ctz32 x). pose proof (ctz32_lt x m ltac:(lia) ltac:(lia)) as Hc. destruct (ctz32_bits x ltac:(lia)) as (Hz & B1 & B2). split; [lia|]. split.
      + apply ctz32_unique; [done|done|by rewrite Z.lor_spec, B1|]. intros j Hj. rewrite Z.lor_spec, B2 by done. cbn [orb]. apply Z.pow2_bits_false. lia.
      + assert ((w - 1) mod 2 ^ m = x - 1) as ->; [|apply gray_step; lia].
        symmetry. apply Z.mod_unique_pos with (w / 2 ^ m); [lia|]. pose proof (Z.div_mod w (2 ^ m) ltac:(lia)). unfold x. lia. }
  exists k. split; [done|]. split; [done|]. unfold advanceGrayCyclic. cbv zeta. replace (2 ^ m - 1) with (Z.ones m) by (rewrite Z.ones_equiv; lia). rewrite Z.land_ones by lia. fold x. rewrite Ek.
  assert (wrap 32 (Z.shiftl 1 k) = 2 ^ k) as ->.
  { rewrite Z.shiftl_1_l. apply wrap_small. unfold in_width. split; [apply Z.pow_nonneg; lia|apply Z.pow_lt_mono_r; lia]. }
  assert (Z.lxor (gray ((w - 1) mod 2 ^ m)) (2 ^ k) = gray x) as ->.
  { rewrite <- Eg, <- Z.lxor_assoc, Z.lxor_nilpotent. apply Z.lxor_0_l. }
  f_equal. f_equal. rewrite land_1_testbit by lia. by destruct (Z.testbit (gray x) k).
Qed.

Lemma doubled_B_spec b : 0 <= b < p -> doubled_B p b = (2 * b) mod p.
Proof using Hp2.
  clear - Hp2. intros Hb. unfold doubled_B. rewrite Z.shiftl_mul_pow2 by lia. change (2 ^ 1) with 2. rewrite wrap_small by (unfold in_width; lia). cbv zeta. rewrite (Z.mul_comm b 2).
  destruct (Z.leb_spec p (2 * b)); [apply Z.mod_unique_pos with 1; lia|symmetry; apply Z.mod_small; lia].
Qed.

(** A scatter step moves the relative roots as the roots move. *)
Lemma advanceRelRootsScatter_spec start id1 id2 k : 0 <= k < m -> 0 <= id2 -> Z.lxor id1 id2 = 2 ^ k ->
  advanceRelRootsScatter (mkFlip k (Z.testbit id2 k)) p (storeDoubledBValues m p bval) (relative start p (rs id1)) = relative start p (rs id2).
Proof using Hp2 Hd Hm.
  intros Hk Hi E. unfold advanceRelRootsScatter. cbn [flip_bit nowSet]. unfold storeDoubledBValues. rewrite vget_map_upto by done.
  pose proof (bval_range _ _ _ _ _ _ Hp2 Hd k ltac:(rewrite length_map; lia)) as Hb. rewrite doubled_B_spec by done. pose proof (Z.mod_pos_bound (2 * bval k) p ltac:(lia)) as Hdb. set (db := (2 * bval k) mod p) in *.
  set (delta := if Z.testbit id2 k then _ else _). cbv zeta. assert (0 <= delta <= p /\ delta ≅{p} - (2 * bit_sign id2 k * bval k)) as [Hdl Edl].
  { unfold delta, bit_sign. destruct (Z.testbit id2 k).
    - rewrite wrap_small by (unfold in_width; lia). split; [lia|]. assert (db ≅{p} 2 * bval k) as -> by apply cong_mod. apply cong_divide; [lia|]. exists 1. ring.
    - split; [lia|]. assert (db ≅{p} 2 * bval k) as -> by apply cong_mod. by replace (- (2 * -1 * bval k)) with (2 * bval k) by ring. }
  clearbody delta. assert (forall c, modAdd (((c - b_value id1 (map u512_val B)) * inv mod p - start) mod p) delta p = ((c - b_value id2 (map u512_val B)) * inv mod p - start) mod p) as Hc.
  { intros c. rewrite modAdd_spec by (lia || (apply Z.mod_pos_bound; lia)). apply mod_eq_cong. rewrite Edl, cong_mod, !cong_mod.
    rewrite <- (root_shift a (map u512_val B) p root d bval Hp2 Hd id1 id2 k c) by (rewrite ?length_map; done || lia).
    by replace ((c - b_value id1 (map u512_val B)) * inv - start + - (2 * bit_sign id2 k * bval k)) with ((c - b_value id1 (map u512_val B)) * inv - 2 * bit_sign id2 k * bval k - start) by ring. }
  unfold relative, poly_roots. cbn [fst snd]. by rewrite !Hc.
Qed.

Lemma scatter_walk_spec start w steps : 1 <= m <= 32 -> 0 <= w -> 0 <= steps ->
  scatter_walk w steps (2 ^ m - 1) (2 ^ (m - 1)) p (storeDoubledBValues m p bval) (gray (w mod 2 ^ m), relative start p (rs (Z.lor prefix (gray (w mod 2 ^ m)))))
  = (gray ((w + steps) mod 2 ^ m), relative start p (rs (Z.lor prefix (gray ((w + steps) mod 2 ^ m))))).
Proof using Hp2 Hd Hm Hprefix Hpm.
  intros Hm1 Hw Hs. unfold scatter_walk. pattern steps. apply natlike_ind; [by rewrite Z.add_0_r| |done]. clear steps Hs. intros k Hk IH. change (Z.succ k) with (k + 1).
  rewrite upto_S, map_app, foldl_app by done. cbn [map foldl]. rewrite IH. cbn [fst snd]. replace (w + 1 + k) with (w + (k + 1)) by lia. set (w' := w + (k + 1)).
  replace (w + k) with (w' - 1) by lia. destruct (advanceGrayCyclic_spec w' Hm1 ltac:(lia)) as (b & Hb & Eg & ->). f_equal.
  assert (forall y, 0 <= gray (y mod 2 ^ m) < 2 ^ m) as Hg by (intros y; apply gray_bound; [lia|apply Z.mod_pos_bound; apply Z.pow_pos_nonneg; lia]).
  replace (Z.testbit (gray (w' mod 2 ^ m)) b) with (Z.testbit (Z.lor prefix (gray (w' mod 2 ^ m))) b).
  - apply advanceRelRootsScatter_spec; [done|apply Z.lor_nonneg; split; [done|apply Hg]|]. rewrite (lor_prefix_lxor prefix m) by (lia || done || apply Hg). done.
  - rewrite Z.lor_spec. destruct Hpm as [q ->]. rewrite <- Z.shiftl_mul_pow2, Z.shiftl_spec_low by lia. done.
Qed.
End walks.

(** ** Composition with the coefficients *)

(** An index outside the factors of [a] is that of a prime that does not divide [a]. *)
Lemma prime_not_in_a fd i :
  fb_ok (f_N fd) (f_factorBase fd) (f_rootN fd) -> Forall (fun i => 0 <= i < Z.of_nat (length (f_factorBase fd))) (f_a_factors fd) ->
  0 <= i < Z.of_nat (length (f_factorBase fd)) -> i ∉ f_a_factors fd ->
  ~ zprod (map (vget 0 (f_factorBase fd)) (f_a_factors fd)) ≅{vget 0 (f_factorBase fd) i} 0.
Proof.
  intros Hfb Hidx Hi Hn. destruct (fb_get _ _ _ i Hfb Hi) as (Hp & Hp2 & _). rewrite cong_0 by lia. apply prime_not_divide; [done|by eapply ps_prime|].
  intros (j & E & Hj)%list_elem_of_In%in_map_iff. apply Hn. apply list_elem_of_In in Hj. rewrite Forall_forall in Hidx. specialize (Hidx j Hj).
  destruct (lookup_lt_is_Some_2 (f_factorBase fd) (Z.to_nat i) ltac:(lia)) as [p Ep]. destruct (lookup_lt_is_Some_2 (f_factorBase fd) (Z.to_nat j) ltac:(lia)) as [q Eq].
  unfold vget in E. rewrite (nth_lookup_Some _ _ 0 _ Ep), (nth_lookup_Some _ _ 0 _ Eq) in E. subst q. pose proof (NoDup_lookup _ _ _ _ (fb_distinct _ _ _ Hfb) Ep Eq).
  by assert (i = j) as -> by lia.
Qed.

(** The kernels' data for every prime that does not divide [a]. *)
Lemma kernel_data_ok fd r stride startIndex pd bv i :
  let fb := f_factorBase fd in
  let fd' := recalc_a fd in
  let out := initPrimeData r stride fb (f_rootN fd) (f_a fd') (f_B_values fd') startIndex pd bv in
  fb_ok (f_N fd) fb (f_rootN fd) -> Forall (fun i => 0 <= i < Z.of_nat (length fb)) (f_a_factors fd) -> NoDup (f_a_factors fd) ->
  zprod (map (vget 0 fb) (f_a_factors fd)) < 2 ^ 512 ->
  0 < stride -> length pd = length fb -> Z.of_nat (length (f_a_factors fd)) * Z.of_nat (length fb) <= Z.of_nat (length bv) ->
  0 <= i < Z.of_nat (length fb) -> i ∉ f_a_factors fd ->
  prime_data_ok (u512_val (f_a fd')) (map u512_val (f_B_values fd')) (vget 0 fb i) (vget 0 (f_rootN fd) i) (vget no_prime out.1 i) (bvalue out.2 (Z.of_nat (length fb)) i) /\
  pd_inactive (vget no_prime out.1 i) = 0.
Proof.
  intros fb fd' out Hfb Hidx Hnd Hlt Hs Lpd Lbv Hi Hn. pose proof (recalc_a_spec fd Hfb Hidx Hnd Hlt) as HC. destruct (co_a _ _ _ _ HC) as [Ha Ea].
  destruct (fb_get _ _ _ i Hfb Hi) as (Hp & Hp2 & _ & Hr & _). pose proof (co_len _ _ _ _ HC) as HL. rewrite length_map in HL.
  destruct (init_ok r stride fb (f_rootN fd) (f_a fd') (f_B_values fd') startIndex pd bv Hs Lpd) with (i := i) as (H1 & H2 & _); [unfold fd'; rewrite HL; done|done|by eapply co_B|done|done|done| | |done].
  - fold fb in Hr. pose proof (Z.div_mod (vget 0 fb i) 2 ltac:(lia)). pose proof (Z.mod_pos_bound (vget 0 fb i) 2 ltac:(lia)). lia.
  - unfold fd'. rewrite Ea. by apply prime_not_in_a.
Qed.

(** ** Properties *)

(** C14. The device's data of the primes. After the kernels that prepare a coefficient [a], whatever the number of threads and
    the old contents of the buffers, the primes of [a] are inactive and every other prime is active, with data from which
    [rootsFromPolyId] computes, for every polynomial, exactly the residues where the prime divides (a x + b)^2 - N. *)
Theorem device_roots_exact fd r stride blockDim startIndex pd bv i id x :
  let fb := f_factorBase fd in
  let n := Z.of_nat (length (f_a_factors fd)) in
  let fd' := recalc_a fd in
  let out := initPrimeData r stride fb (f_rootN fd) (f_a fd') (f_B_values fd') startIndex pd bv in
  let d := vget no_prime (markInactivePrimesKernel blockDim n (f_a_factors fd) out.1) i in
  fb_ok (f_N fd) fb (f_rootN fd) -> Forall (fun i => 0 <= i < Z.of_nat (length fb)) (f_a_factors fd) -> NoDup (f_a_factors fd) ->
  0 < n -> n * zprod (map (vget 0 fb) (f_a_factors fd)) < 2 ^ 512 ->
  0 < stride -> 0 < blockDim -> length pd = length fb -> n * Z.of_nat (length fb) <= Z.of_nat (length bv) -> 0 <= i < Z.of_nat (length fb) ->
  if decide (i ∈ f_a_factors fd) then pd_inactive d = 1
  else
    let p := vget 0 fb i in
    let a := u512_val (f_a fd') in
    let b := to_signed 512 (u512_val (bFromPolyId id n (f_B_values fd'))) in
    let roots := rootsFromPolyId id n d (bvalue out.2 (Z.of_nat (length fb)) i) in
    pd_inactive d = 0 /\ 0 <= roots.1 < p /\ 0 <= roots.2 < p /\
    ((a * x + b) * (a * x + b) ≅{p} u512_val (f_N fd) <-> x ≅{p} roots.1 \/ x ≅{p} roots.2).
Proof.
  intros fb n fd' out d Hfb Hidx Hnd Hn Hlt Hs Hb Lpd Lbv Hi. pose proof (ps_pos _ _ _ Hfb _ Hidx) as H1. fold fb in H1.
  assert (zprod (map (vget 0 fb) (f_a_factors fd)) < 2 ^ 512) as Hlt' by nia.
  pose proof (recalc_a_spec fd Hfb Hidx Hnd Hlt') as HC. pose proof (co_len _ _ _ _ HC) as HL. rewrite length_map in HL.
  assert (d = if decide (i ∈ f_a_factors fd) then set_inactive (vget no_prime out.1 i) else vget no_prime out.1 i) as ->.
  { assert (length out.1 = length fb) as Lo by (rewrite <- Lpd; apply length_scatter). unfold d, n. rewrite mark_get; rewrite ?map_vget_upto, ?Lo; [done|done|done|lia]. }
  destruct (decide (i ∈ f_a_factors fd)) as [|Hni]; [done|]. cbv zeta.
  destruct (kernel_data_ok fd r stride startIndex pd bv i Hfb Hidx Hnd Hlt' Hs Lpd Lbv Hi Hni) as [Hd Hact]. fold fb fd' out in Hd, Hact. split; [done|].
  destruct (fb_get _ _ _ i Hfb Hi) as (Hp & Hp2 & _ & _ & Er). fold fb in Hp, Hp2, Er.
  assert (rootsFromPolyId id n (vget no_prime out.1 i) (bvalue out.2 (Z.of_nat (length fb)) i)
    = poly_roots (pd_mod_inverse_a (vget no_prime out.1 i)) (vget 0 (f_rootN fd) i) (vget 0 fb i) id (map u512_val (f_B_values fd'))) as ->.
  { replace n with (Z.of_nat (length (map u512_val (f_B_values fd')))) by (rewrite length_map; unfold fd'; by rewrite HL). apply (rootsFromPolyId_spec _ _ _ _ _ _ Hp2 Hd). }
  assert (to_signed 512 (u512_val (bFromPolyId id n (f_B_values fd'))) = b_value id (map u512_val (f_B_values fd'))) as ->.
  { replace n with (Z.of_nat (length (f_B_values fd'))) by (unfold fd'; by rewrite HL). apply (signed_b_value _ _ _ _ id HC). by rewrite length_map. }
  destruct (poly_roots_range (map u512_val (f_B_values fd')) (vget 0 fb i) (vget 0 (f_rootN fd) i) (vget no_prime out.1 i) Hp2 id) as [R1 R2].
  split; [exact R1|]. split; [exact R2|]. by apply (poly_roots_iff _ _ _ _ _ _ Hp2 Hd).
Qed.

Lemma device_roots_exact_witness :
  let fd' := recalc_a small_data in
  let out := initPrimeData 0 2 [7; 13; 17; 19] [1; 4; 1; 5] (f_a fd') (f_B_values fd') (-16) (replicate 4 no_prime) (replicate 12 0) in
  let d := vget no_prime (markInactivePrimesKernel 64 3 [0; 2; 3] out.1) 1 in
  let b := to_signed 512 (u512_val (bFromPolyId 2 3 (f_B_values fd'))) in
  let roots := rootsFromPolyId 2 3 d (bvalue out.2 4 1) in
  pd_inactive d = 0 /\ 0 <= roots.1 < 13 /\ 0 <= roots.2 < 13 /\
  ((u512_val (f_a fd') * 5 + b) * (u512_val (f_a fd') * 5 + b) ≅{13} 120 <-> 5 ≅{13} roots.1 \/ 5 ≅{13} roots.2).
Proof.
  apply (device_roots_exact small_data 0 2 64 (-16) (replicate 4 no_prime) (replicate 12 0) 1 2 5).
  - exact small_fb_ok.
  - apply (bool_decide_unpack _). by vm_compute.
  - apply (bool_decide_unpack _). by vm_compute.
  - reflexivity.
  - reflexivity.
  - reflexivity.
  - reflexivity.
  - reflexivity.
  - apply (bool_decide_unpack _). by vm_compute.
  - apply (bool_decide_unpack _). by vm_compute.
Defined.

(** C15. The kernels' incremental walks are the direct computation. Sieve and scan, for a prime up to 2^30 and a window whose positions,
    with a prime on either side, are 32-bit [int]s ([window_fits]): from polynomial [prefix] on, whatever multiples of the prime the sieve has
    added to the positions, as long as they too stay [int]s ([hits_fit]), the walk over [polys] Gray codes ends with the first positions of the
    roots of [rootsFromPolyId] and the [b] of [bFromPolyId] for the last one. Scatter, for every prime below 2^31: the cyclic walk over a block
    of 2^m polynomials keeps the roots relative to the window, from any starting index and through the wrap. *)
Theorem walks_exact a B p root d bval m prefix start :
  2 < p < 2 ^ 31 -> prime_data_ok a (map u512_val B) p root d bval -> Forall u512_ok B ->
  0 <= m <= Z.of_nat (length B) -> 0 <= prefix -> (2 ^ m | prefix) ->
  let n := Z.of_nat (length B) in
  let direct id := let rs := rootsFromPolyId id n d bval in ((sieve_offset start p rs.1, sieve_offset start p rs.2), bFromPolyId id n B) in
  let scattered w := let code := gray (w mod 2 ^ m) in (code, relative start p (rootsFromPolyId (Z.lor prefix code) n d bval)) in
  (forall hits polys, window_fits start p -> hits_fit start p polys hits -> 1 <= polys <= 2 ^ m ->
     (forall id, let rs := rootsFromPolyId id n d bval in
        (start <= (direct id).1.1 < start + p /\ (direct id).1.1 ≅{p} rs.1) /\ (start <= (direct id).1.2 < start + p /\ (direct id).1.2 ≅{p} rs.2)) /\
     sieve_walk start prefix p bval B hits polys (direct prefix) = direct (Z.lor prefix (gray (polys - 1)))) /\
  (forall w steps, 1 <= m <= 32 -> 0 <= w -> 0 <= steps ->
     scatter_walk w steps (2 ^ m - 1) (2 ^ (m - 1)) p (storeDoubledBValues m p bval) (scattered w) = scattered (w + steps)).
Proof.
  intros Hp2 Hd HB Hm Hpre Hpm n direct scattered.
  assert (forall id, rootsFromPolyId id n d bval = poly_roots (pd_mod_inverse_a d) root p id (map u512_val B)) as Er.
  { intros id. rewrite <- (rootsFromPolyId_spec _ _ _ _ _ _ Hp2 Hd). by rewrite length_map. }
  split.
  - intros hits polys Hw Hh Hpolys. split.
    { intros id. unfold direct. cbv zeta. cbn [fst snd]. rewrite Er. destruct (poly_roots_range (map u512_val B) p root d Hp2 id) as [R1 R2].
      split; by apply sieve_offset_spec. }
    assert (forall id, direct id = sieve_at start (pd_mod_inverse_a d) root p B id) as Edir by (intros id; unfold direct, sieve_at; by rewrite Er).
    rewrite !Edir. by apply (sieve_walk_spec a B p root d bval Hp2 Hd m Hm).
  - intros w steps Hm1 Hw Hs. unfold scattered. cbv zeta. rewrite !Er. by apply (scatter_walk_spec a B p root d bval Hp2 Hd m Hm prefix).
Qed.

Lemma walks_exact_witness :
  let B := f_B_values (recalc_a small_data) in
  let d := init_prime 0 (f_a (recalc_a small_data)) (-16) 13 4 in
  let bval j := prime_b (f_a (recalc_a small_data)) 13 (dget B j) in
  let direct id := let rs := rootsFromPolyId id 3 d bval in ((sieve_offset (-16) 13 rs.1, sieve_offset (-16) 13 rs.2), bFromPolyId id 3 B) in
  sieve_walk (-16) 4 13 bval B (fun _ => (2, 1)) 4 (direct 4) = direct (Z.lor 4 (gray 3)).
Proof.
  assert (window_fits (-16) 13) as Hw by (unfold window_fits; lia). assert (hits_fit (-16) 13 4 (fun _ => (2, 1))) as Hh by (intros poly Hpoly; cbn [fst snd]; lia).
  destruct (walks_exact (u512_val (f_a (recalc_a small_data))) (f_B_values (recalc_a small_data)) 13 4 (init_prime 0 (f_a (recalc_a small_data)) (-16) 13 4)
    (fun j => prime_b (f_a (recalc_a small_data)) 13 (dget (f_B_values (recalc_a small_data)) j)) 2 4 (-16)) as [H _].
  - lia.
  - constructor; [by vm_compute|by vm_compute|by vm_compute|]. intros j Hj. assert (Z.of_nat (length (map u512_val (f_B_values (recalc_a small_data)))) = 3) as E by reflexivity.
    rewrite E in Hj. assert (j = 0 \/ j = 1 \/ j = 2) as [-> | [-> | ->]] by lia; by vm_compute.
  - exact small_coefficients.
  - apply (bool_decide_unpack _). by vm_compute.
  - lia.
  - exists 1. reflexivity.
  - apply (H (fun _ => (2, 1)) 4 Hw Hh). lia.
Defined.

(** Above 2^30 the sum of a remainder and the prime leaves [int]: for the prime 2^31 - 1 the reduced start of a window that begins at 10 is
    not the residue 10, which is what the record of a prime is for. *)
Example ex_reduced_start_overflow : let p := 2 ^ 31 - 1 in reduced_start 10 p = 2147483657 /\ reduced_start 10 p <> 10 mod p.
Proof. vm_compute. split; [reflexivity|discriminate]. Qed.
