(* ===== verification/PolyWalk.v ===== *)
(** The walk over the coefficients [a] ([src/src/sieve/prime_algorithms.cu], [src/src/sieve/device_sieving_controller.cpp],
    [src/src/orchestrator/orchestrator.cpp]): the choice of the first factors, the Gray-code steps between neighbours in the factor
    base, the slides of the window, the batches of indices for the device, and the jump of a worker to a position of the walk.
    A list of factors is a list of indices into the factor base. [None]: an index outside its vector. *)
From Stdlib Require Import ZArith Lia Setoid Morphisms.
From stdpp Require Import base gmap sets list.
From S2P Require Import Prelude UInt512 UInt512Div UInt512Sqrt Bytes Serialization Gf2 RowOps Congruence Residues PrimeAlgorithms SqrtKernels Polynomials PolyRoots.
#[local] Open Scope Z_scope.

(** [lo, ..., hi - 1]. *)
Definition range (lo hi : Z) : list Z := map (Z.add lo) (upto (hi - lo)).

(** ** A hypercube path *)

(** One dimension: the new coordinate at the midpoint, then the first half in reverse with opposite signs. *)
Definition path_dim (st : (list Z * list Z) * Z) (d : Z) : (list Z * list Z) * Z :=
  let '((direction, sign), currentMidpoint) := st in
  let direction := vset direction currentMidpoint d in
  let sign := vset sign currentMidpoint 1 in
  let '(direction, sign) :=
    foldl (fun '(direction, sign) i =>
             (vset direction i (vget 0 direction (2 * currentMidpoint - i)), vset sign i (- vget 0 sign (2 * currentMidpoint - i))))
      (direction, sign) (range (currentMidpoint + 1) (2 * currentMidpoint + 1)) in
  ((direction, sign), 2 * currentMidpoint + 1).

Definition generateHypercubePath (direction sign : list Z) (dim : Z) : list Z * list Z := (foldl path_dim ((direction, sign), 0) (upto dim)).1.

(** ** Sliding the window *)

(** [startIndex]: an unsigned expression stored in an [int]. *)
Definition advance_start (size direction : Z) : Z :=
  to_signed 32 (wrap 32 (if size mod 2 =? 0 then wrap 64 (size - 1 + direction) / 2 else wrap 64 (size - 1 + 2 * direction) / 2)).

(** To the right: the first index with room moves, the ones before it are reset; with no room the last index moves. *)
Definition advance_right (indices : list Z) (pivotPrime stepSize startIndex : Z) : list Z :=
  let size := Z.of_nat (length indices) in
  match List.find (fun i => wrap 32 (vget 0 indices i + stepSize) <? vget 0 indices (i + 1)) (range startIndex (size - 1)) with
  | Some i =>
      foldl (fun indices j => vset indices j (wrap 32 (pivotPrime + stepSize * (j - startIndex))))
        (vset indices i (wrap 32 (vget 0 indices i + stepSize))) (range startIndex i)
  | None => vset indices (size - 1) (wrap 32 (vget 0 indices (size - 1) + stepSize))
  end.

(** To the left, from [startIndex] down to 1. *)
Definition advance_left (indices : list Z) (pivotPrime stepSize startIndex : Z) : list Z :=
  match List.find (fun i => to_signed 32 (vget 0 indices (i - 1)) <? to_signed 32 (vget 0 indices i) - stepSize) (map (Z.sub startIndex) (upto startIndex)) with
  | Some i =>
      foldl (fun indices j => vset indices j (wrap 32 (pivotPrime - stepSize * (startIndex - j))))
        (vset indices i (wrap 32 (vget 0 indices i - stepSize))) (map (Z.sub startIndex) (upto (startIndex - i)))
  | None => if vget 0 indices 0 <? stepSize then indices else vset indices 0 (wrap 32 (vget 0 indices 0 - stepSize))
  end.

(** A negative [startIndex] becomes a huge index, and an empty vector has no last element. *)
Definition advance (indices : list Z) (pivotPrime direction stepSize : Z) : option (list Z) :=
  let size := Z.of_nat (length indices) in
  let startIndex := advance_start size direction in
  if (size =? 0) || (startIndex <? 0) then None
  else if 0 <? direction then Some (advance_right indices pivotPrime stepSize startIndex)
  else if direction <? 0 then Some (advance_left indices pivotPrime stepSize startIndex)
  else Some indices.

(** ** The steps of the walk *)

(** A prime is swapped with its neighbour. *)
Definition swap_neighbour (i : Z) : Z := if i mod 2 =? 0 then wrap 32 (i + 1) else wrap 32 (i - 1).

(** [bits[indexToChange]] changes; the bit is below the dimension inside a hypercube. *)
Definition flip_factor (bits : list Z) (indexToChange : Z) : list Z := vset bits indexToChange (swap_neighbour (vget 0 bits indexToChange)).

Definition reset_parities (bits : list Z) : list Z := map (fun i => if i mod 2 =? 1 then i - 1 else i) bits.

Definition slide (bits : list Z) (upperHalfStart lowerHalfStart : Z) : option (list Z) :=
  bits ← advance (reset_parities bits) (to_signed 32 upperHalfStart) 1 2;
  advance bits (to_signed 32 lowerHalfStart) (-1) 2.

Definition set_walk (fd : factoringData) (a_factors : list Z) (current_a_index : Z) : factoringData :=
  mkFactoringData (f_N fd) (f_a_target fd) (f_a fd) (f_B_values fd) (f_factorBase fd) (f_rootN fd) a_factors current_a_index
    (f_max_a_index fd) (f_lowerHalfStart fd) (f_upperHalfStart fd) (f_M fd) (f_F fd) (f_size fd).

Definition slide_window (fd : factoringData) : option factoringData :=
  bits ← slide (f_a_factors fd) (f_upperHalfStart fd) (f_lowerHalfStart fd);
  Some (set_walk fd bits 0).

Definition advance_a_factors (fd : factoringData) (steps : Z) : option factoringData :=
  if wrap 32 (f_current_a_index fd + steps) <? f_max_a_index fd then
    let bits := foldl (fun bits i => flip_factor bits (advanceGray (wrap 32 (f_current_a_index fd + i)))) (f_a_factors fd) (upto steps) in
    Some (recalc_a (set_walk fd bits (wrap 32 (f_current_a_index fd + steps))))
  else
    fd ← slide_window fd;
    Some (recalc_a fd).

(** The state after one polynomial of a batch; the coefficients are left to the device. *)
Definition next_state (fd : factoringData) : option factoringData :=
  if wrap 32 (f_current_a_index fd + 1) <? f_max_a_index fd then
    let bitToFlip := advanceGray (f_current_a_index fd) in
    Some (set_walk fd (flip_factor (f_a_factors fd) bitToFlip) (wrap 32 (f_current_a_index fd + 1)))
  else slide_window fd.

(** The recorded indices, flattened, and the state. *)
Definition prepareNextBatchIndices (fd : factoringData) (batch_size : Z) : option (list Z * factoringData) :=
  foldl (fun st _ =>
           '(batch_indices, fd) ← st;
           next ← next_state fd;
           Some (batch_indices ++ f_a_factors fd, next))
    (Some ([], fd)) (upto batch_size).

(** ** Jumping to a position *)

Definition saveSnapshot (fd : factoringData) : AFactorsSnapshot :=
  mkSnap (f_a_factors fd) (f_lowerHalfStart fd) (f_upperHalfStart fd) (wrap 32 (Z.of_nat (length (f_a_factors fd)))).

Definition restore (snapshot : AFactorsSnapshot) (H : Z) (fd : factoringData) : factoringData :=
  mkFactoringData (f_N fd) (f_a_target fd) (f_a fd) (f_B_values fd) (f_factorBase fd) (f_rootN fd) (a_factors snapshot) 0
    H (lowerHalfStart snapshot) (upperHalfStart snapshot) (f_M fd) (f_F fd) (f_size fd).

Fixpoint slides (n : nat) (H : Z) (fd : factoringData) : option factoringData :=
  match n with
  | O => Some fd
  | S n => fd ← advance_a_factors fd (to_signed 32 H); slides n H fd
  end.

Definition resetAndAdvanceTo (snapshot : AFactorsSnapshot) (global_a_index : Z) (fd : factoringData) : option factoringData :=
  let d := shc_dim snapshot in
  if d =? 0 then Some fd
  else
    let H := wrap 32 (Z.shiftl 1 d) in
    let target_hc := global_a_index / H in
    let local_offset := wrap 32 (global_a_index mod H) in
    fd ← slides (Z.to_nat target_hc) H (restore snapshot H fd);
    if 0 <? local_offset then advance_a_factors fd (to_signed 32 local_offset) else Some fd.

(** ** The first factors *)

(** The window loop: the product and the two indices when it ends. *)
Fixpoint search_loop (fuel : nat) (fb : list Z) (lowerBound upperBound product : uint512) (upper lower : Z) : option (uint512 * Z * Z) :=
  match fuel with
  | O => None
  | S f =>
      if u512_ltb product lowerBound || u512_gtb product upperBound then
        if (Z.of_nat (length fb) <=? upper) || (Z.of_nat (length fb) <=? lower) then Some (product, upper, lower)
        else
          let '(product, upper) := if u512_ltb product lowerBound then (mult_uint32 product (vget 0 fb upper), upper + 2) else (product, upper) in
          let '(product, lower) := if u512_gtb product upperBound then ((div_uint32_inplace product (vget 0 fb lower)).1, lower + 2) else (product, lower) in
          search_loop f fb lowerBound upperBound product upper lower
      else Some (product, upper, lower)
  end.

Definition upper_bound (a_target : uint512) : uint512 := (div_uint32_inplace (mult_uint32 a_target 100) 95).1.

(** The pivots for a window of [n] factors from [lower] on. *)
Definition set_window (fd : factoringData) (factors : list Z) (lowerHalf upperHalf : Z) : factoringData :=
  mkFactoringData (f_N fd) (f_a_target fd) (f_a fd) (f_B_values fd) (f_factorBase fd) (f_rootN fd) factors 0
    (wrap 32 (Z.shiftl 1 (Z.of_nat (length factors)))) lowerHalf upperHalf (f_M fd) (f_F fd) (f_size fd).

Definition window_data (fd : factoringData) (lower : Z) (factors : list Z) : factoringData :=
  let n := Z.of_nat (length factors) in
  if n mod 2 =? 0 then set_window fd factors (wrap 32 (lower + n - 2)) (wrap 32 (lower + n))
  else set_window fd factors (wrap 32 (lower + n - 2)) (wrap 32 (lower + n + 2)).

(** Two indices move by two through the factor base, at most once each per element. *)
Definition init_a_factors (fd : factoringData) : option factoringData :=
  let fb := f_factorBase fd in
  '(product, upper, lower) ← search_loop (S (2 * length fb)) fb (f_a_target fd) (upper_bound (f_a_target fd)) (u512_of_u32 1) 150 150;
  let numFactors := wrap 32 (upper - lower) / 2 in
  let factors := map (fun i => wrap 32 (lower + 2 * i)) (upto numFactors) in
  Some (recalc_a (window_data fd lower factors)).

(** ** The orchestrator's corrections *)

(** The greedy selection from [i] on, in steps of two. *)
Fixpoint greedy_loop (fuel : nat) (fb : list Z) (target : uint512) (i : Z) (product : uint512) (new_factors : list Z) : list Z :=
  match fuel with
  | O => new_factors
  | S f =>
      if (i <? Z.of_nat (length fb)) && (Z.of_nat (length new_factors) <? 10) then
        let test := mult_uint32 product (vget 0 fb i) in
        if u512_ltb test target || (Z.of_nat (length new_factors) <? 4) then
          let new_factors := new_factors ++ [i] in
          if u512_geb test target && (4 <=? Z.of_nat (length new_factors)) then new_factors
          else greedy_loop f fb target (i + 2) test new_factors
        else new_factors
      else new_factors
  end.

Definition small_start (fb_size : Z) : Z := if 50 <? fb_size then 50 else if 32 <? fb_size then 32 else 10.

(** At most ten factors; failing four, the indices from 2 on. *)
Definition small_factors (fd : factoringData) : list Z :=
  let fb_size := Z.of_nat (length (f_factorBase fd)) in
  let new_factors := greedy_loop 11 (f_factorBase fd) (f_a_target fd) (small_start fb_size) (u512_of_u32 1) [] in
  if Z.of_nat (length new_factors) <? 4 then range 2 (Z.min fb_size 8) else new_factors.

(** Pivots from the highest factor, clamped to the factor base. *)
Definition replace_factors (fd : factoringData) (factors : list Z) : option factoringData :=
  let fb_size := Z.of_nat (length (f_factorBase fd)) in
  hi ← last factors;
  let upper := if Z.of_nat (length factors) mod 2 =? 0 then wrap 32 (hi + 2) else wrap 32 (hi + 4) in
  let upper := if fb_size <=? upper then wrap 32 (fb_size - 1) else upper in
  Some (recalc_a (set_window fd factors hi upper)).

Definition small_n_override (fd : factoringData) : option factoringData :=
  let fb_size := Z.of_nat (length (f_factorBase fd)) in
  let a_factors_valid := (0 <? Z.of_nat (length (f_a_factors fd))) && forallb (fun idx => idx <? fb_size) (f_a_factors fd) in
  if negb a_factors_valid || (Z.of_nat (length (f_a_factors fd)) <? 4) then replace_factors fd (small_factors fd) else Some fd.

Definition jetson_override (is_jetson : bool) (fd : factoringData) : option factoringData :=
  let shc_dim := Z.of_nat (length (f_a_factors fd)) in
  if is_jetson && (0 <? shc_dim) && (shc_dim <? 5) then
    hi ← last (f_a_factors fd);
    let next_idx := wrap 32 (hi + 2) in
    if next_idx <? Z.of_nat (length (f_factorBase fd)) then
      let factors := f_a_factors fd ++ [next_idx] in
      let upper := wrap 32 (next_idx + 4) in
      let upper := if Z.of_nat (length (f_factorBase fd)) <=? upper then wrap 32 (Z.of_nat (length (f_factorBase fd)) - 1) else upper in
      Some (recalc_a (mkFactoringData (f_N fd) (f_a_target fd) (f_a fd) (f_B_values fd) (f_factorBase fd) (f_rootN fd) factors 0
              (wrap 32 (Z.shiftl 1 5)) next_idx upper (f_M fd) (f_F fd) (f_size fd)))
    else Some fd
  else Some fd.

(** The window whose product is closest to the target, up to the first that exceeds it. *)
Fixpoint best_window (starts : list Z) (fb : list Z) (k : Z) (target best_diff : uint512) (have_best : bool) (best_start : Z) : Z :=
  match starts with
  | [] => best_start
  | s :: starts =>
      let product := foldl (fun product j => mult_uint32 product (vget 0 fb (s + 2 * j))) (u512_of_u32 1) (upto k) in
      let diff := if u512_geb product target then sub product target else sub target product in
      let better := negb have_best || u512_ltb diff best_diff in
      let best_diff := if better then diff else best_diff in
      let best_start := if better then s else best_start in
      if u512_gtb product target then best_start else best_window starts fb k target best_diff true best_start
  end.

Definition MAX_SHC_DIM : Z := 32.

(** [k] is the requested dimension, 0 if none. *)
Definition forced_window (k : Z) (fd : factoringData) : factoringData :=
  let fb_size := Z.of_nat (length (f_factorBase fd)) in
  if 0 <? k then
    if (k <? 4) || (MAX_SHC_DIM <? k) then fd
    else if fb_size <=? 150 + 2 * (k - 1) then fd
    else
      let s_max := fb_size - 1 - 2 * (k - 1) in
      let s_max := if negb (s_max mod 2 =? 0) then s_max - 1 else s_max in
      let best_start := best_window (steps 150 s_max 2) (f_factorBase fd) k (f_a_target fd) u512_zero false 150 in
      recalc_a (window_data fd best_start (map (fun j => best_start + 2 * j) (upto k)))
  else fd.

(** The polynomial part of the initialisation. *)
Definition select_polynomials (is_jetson : bool) (k : Z) (fd : factoringData) : option factoringData :=
  fd ← init_a_factors fd;
  fd ← small_n_override fd;
  fd ← jetson_override is_jetson fd;
  Some (forced_window k fd).

(** ** Vocabulary of the specifications *)

(** The first and last indices that move: the halves of the window. *)
Definition lower_half (n : Z) : Z := if n mod 2 =? 0 then n / 2 - 1 else (n - 3) / 2.
Definition upper_half (n : Z) : Z := if n mod 2 =? 0 then n / 2 else (n + 1) / 2.

(** The pair of neighbours to which an index belongs. *)
Definition pair_at (l : list Z) (j : Z) : Z := vget 0 l j / 2.

(** The window invariant, for a window that started at pair [c]: the pairs increase, the halves have moved outwards from
    their first place, and the pivots are those places. *)
Record window_ok (c : Z) (fd : factoringData) : Prop := mkWindowOk {
  wi_size : 2 <= Z.of_nat (length (f_a_factors fd)) <= 31;
  wi_first : 0 <= vget 0 (f_a_factors fd) 0;
  wi_pairs : forall j, 0 <= j < Z.of_nat (length (f_a_factors fd)) - 1 -> pair_at (f_a_factors fd) j < pair_at (f_a_factors fd) (j + 1);
  wi_lower : forall j, 0 <= j <= lower_half (Z.of_nat (length (f_a_factors fd))) -> pair_at (f_a_factors fd) j <= c + j;
  wi_middle : forall j, lower_half (Z.of_nat (length (f_a_factors fd))) < j < upper_half (Z.of_nat (length (f_a_factors fd))) -> pair_at (f_a_factors fd) j = c + j;
  wi_upper : forall j, upper_half (Z.of_nat (length (f_a_factors fd))) <= j < Z.of_nat (length (f_a_factors fd)) -> c + j <= pair_at (f_a_factors fd) j;
  wi_pivots : Z.of_nat (length (f_a_factors fd)) <= 5 \/
    (f_lowerHalfStart fd / 2 = c + lower_half (Z.of_nat (length (f_a_factors fd))) /\ f_upperHalfStart fd / 2 = c + upper_half (Z.of_nat (length (f_a_factors fd))))
}.

(** Position [g] of the walk from a state. *)
Fixpoint position (g : nat) (fd : factoringData) : option factoringData :=
  match g with
  | O => Some fd
  | S g => fd ← position g fd; next_state fd
  end.

(** ** Vocabulary of the specifications *)

(** The flips of the first [n] steps in a hypercube. *)
Definition flips (l : list Z) (n : Z) : list Z := foldl (fun bits i => flip_factor bits (advanceGray i)) l (upto n).

Definition erase (fd : factoringData) : factoringData := set_coefficients fd u512_zero [].

Record start_ok (fd : factoringData) : Prop := mkStartOk {
  so_current : f_current_a_index fd = 0;
  so_size : 2 <= Z.of_nat (length (f_a_factors fd)) <= 31;
  so_max : f_max_a_index fd = 2 ^ Z.of_nat (length (f_a_factors fd));
  so_words : Forall (in_width 32) (f_a_factors fd)
}.

(** The snapshot of [fd0] restores [fd0], apart from the coefficients. *)
Definition same_problem (fd fd0 : factoringData) : Prop := erase (restore (saveSnapshot fd0) (f_max_a_index fd0) fd) = erase fd0.

(** The product of every second prime from [lower] on. *)
Definition window_product (fb : list Z) (lower n : Z) : Z := zprod_upto n (fun i => vget 0 fb (lower + 2 * i)).

(** The state of the window loop. *)
Record loop_ok (fb : list Z) (T product : uint512) (upper lower : Z) : Prop := mkLoopOk {
  lo_ok : u512_ok product;
  lo_val : u512_val product = window_product fb lower ((upper - lower) / 2);
  lo_bound : u512_val product < u512_val T * 2 ^ 32;
  lo_even : lower mod 2 = 0 /\ upper mod 2 = 0;
  lo_order : 150 <= lower <= upper /\ (upper = 150 \/ upper <= Z.of_nat (length fb) + 1)
}.

(** ** Vocabulary of the specifications *)

(** What a batch needs of a state: the problem of [fd], distinct factors in the factor base. *)
Record coefficients_at (fd s : factoringData) (m : Z) : Prop := mkCoeffAt {
  ca_fields : f_N s = f_N fd /\ f_factorBase s = f_factorBase fd /\ f_rootN s = f_rootN fd;
  ca_length : length (f_a_factors s) = length (f_a_factors fd);
  ca_range : Forall (fun i => 0 <= i < Z.of_nat (length (f_factorBase fd))) (f_a_factors s);
  ca_distinct : NoDup (f_a_factors s);
  ca_bound : 1 <= m /\ Forall (fun p => p <= m) (f_factorBase fd)
}.

Definition corner_data (size : nat) (indices : list Z) (lowerHalf upperHalf : Z) : factoringData :=
  set_window (mkFactoringData (u512_of_Z 120) (u512_of_Z 1000000) u512_zero [] (replicate size 1009) (replicate size 1) [] 0 0 0 0 16 20 (Z.of_nat size))
    indices lowerHalf upperHalf.

(** ** Lemmas: pairs *)

Lemma elem_of_range lo hi x : x ∈ range lo hi <-> lo <= x < hi.
Proof.
  unfold range. rewrite list_elem_of_In, in_map_iff. split.
  - intros (k & <- & Hk). apply list_elem_of_In, elem_of_upto in Hk. lia.
  - intros Hx. exists (x - lo). split; [lia|]. apply list_elem_of_In, elem_of_upto. lia.
Qed.

Lemma swap_pair i : in_width 32 i -> swap_neighbour i / 2 = i / 2 /\ in_width 32 (swap_neighbour i) /\ swap_neighbour i mod 2 = 1 - i mod 2.
Proof.
  intros Hi. unfold swap_neighbour, in_width in *. pose proof (Z.div_mod i 2 ltac:(lia)) as E. pose proof (Z.mod_pos_bound i 2 ltac:(lia)).
  change (2 ^ 32) with (2 * 2 ^ 31) in *. set (h := 2 ^ 31) in *. destruct (Z.eqb_spec (i mod 2) 0) as [E0|].
  - rewrite wrap_small by (unfold in_width; change (2 ^ 32) with (2 * 2 ^ 31); fold h; lia). split; [symmetry; apply Z.div_unique_pos with 1; lia|]. split; [lia|].
    rewrite E0. symmetry. apply Z.mod_unique_pos with (i / 2); lia.
  - rewrite wrap_small by (unfold in_width; change (2 ^ 32) with (2 * 2 ^ 31); fold h; lia). split; [symmetry; apply Z.div_unique_pos with 0; lia|]. split; [lia|].
    assert (i mod 2 = 1) as -> by lia. symmetry. apply Z.mod_unique_pos with (i / 2); lia.
Qed.

Lemma reset_parities_pairs l : reset_parities l = map (fun i => 2 * (i / 2)) l.
Proof.
  unfold reset_parities. apply map_ext. intros i. pose proof (Z.div_mod i 2 ltac:(lia)). pose proof (Z.mod_pos_bound i 2 ltac:(lia)).
  destruct (Z.eqb_spec (i mod 2) 1); lia.
Qed.

Lemma reset_parities_eq l l' : map (fun i => i / 2) l = map (fun i => i / 2) l' -> reset_parities l = reset_parities l'.
Proof. intros E. rewrite !reset_parities_pairs. rewrite <- (map_map (fun i => i / 2) (Z.mul 2) l), <- (map_map (fun i => i / 2) (Z.mul 2) l'). by rewrite E. Qed.

Lemma flip_pairs l b : Forall (in_width 32) l -> map (fun i => i / 2) (flip_factor l b) = map (fun i => i / 2) l /\ Forall (in_width 32) (flip_factor l b) /\ length (flip_factor l b) = length l.
Proof.
  intros HF. unfold flip_factor. split; [|split; [|apply length_vset]].
  - apply list_eq. intros k. rewrite !list_lookup_fmap. unfold vset. destruct (decide (k = Z.to_nat b)) as [->|Hne]; [|by rewrite list_lookup_insert_ne].
    destruct (decide (Z.to_nat b < length l)%nat) as [Hlt|]; [|by rewrite list_insert_ge by lia].
    rewrite list_lookup_insert_eq by done. destruct (lookup_lt_is_Some_2 l _ Hlt) as [x Ex]. unfold vget. rewrite (nth_lookup_Some _ _ 0 _ Ex), Ex. cbn. f_equal.
    apply swap_pair. rewrite Forall_lookup in HF. by eapply HF.
  - unfold vset. destruct (decide (Z.to_nat b < length l)%nat) as [Hlt|]; [|by rewrite list_insert_ge by lia]. apply Forall_insert; [done|].
    destruct (lookup_lt_is_Some_2 l _ Hlt) as [x Ex]. unfold vget. rewrite (nth_lookup_Some _ _ 0 _ Ex). apply swap_pair. rewrite Forall_lookup in HF. by eapply HF.
Qed.

Lemma flips_S l n : 0 <= n -> flips l (n + 1) = flip_factor (flips l n) (advanceGray n).
Proof. intros Hn. unfold flips. by rewrite upto_S, foldl_snoc. Qed.

Lemma flips_pairs l n : 0 <= n -> Forall (in_width 32) l ->
  map (fun i => i / 2) (flips l n) = map (fun i => i / 2) l /\ Forall (in_width 32) (flips l n) /\ length (flips l n) = length l.
Proof.
  intros Hn HF. pattern n. apply natlike_ind; [done| |done]. clear n Hn. intros n Hn (IH1 & IH2 & IH3). change (Z.succ n) with (n + 1). rewrite flips_S by done.
  destruct (flip_pairs (flips l n) (advanceGray n) IH2) as (F1 & F2 & F3). split; [by rewrite F1|]. split; [done|by rewrite F3].
Qed.

(** ** Lemmas: the walk does not read the coefficients *)

Lemma recalc_a_set fd : exists a B, recalc_a fd = set_coefficients fd a B.
Proof. unfold recalc_a. destruct (suffix_loop _ _) as [l s]. by eexists _, _. Qed.

Lemma erase_recalc fd : erase (recalc_a fd) = erase fd.
Proof. destruct (recalc_a_set fd) as (a & B & ->). done. Qed.

Lemma recalc_erase fd fd' : erase fd = erase fd' -> recalc_a fd = recalc_a fd'.
Proof.
  intros E. destruct fd, fd'. unfold erase, set_coefficients in E. cbn in E. injection E as <- <- <- <- <- <- <- <- <- <- <- <-. done.
Qed.

Lemma erase_fields fd fd' : erase fd = erase fd' -> f_a_factors fd = f_a_factors fd' /\ f_current_a_index fd = f_current_a_index fd' /\ f_max_a_index fd = f_max_a_index fd' /\
  f_lowerHalfStart fd = f_lowerHalfStart fd' /\ f_upperHalfStart fd = f_upperHalfStart fd'.
Proof. intros E. destruct fd, fd'. unfold erase, set_coefficients in E. cbn in E. by injection E as <- <- <- <- <- <- <- <- <- <- <- <-. Qed.

Lemma erase_walk fd fd' l c : erase fd = erase fd' -> erase (set_walk fd l c) = erase (set_walk fd' l c).
Proof. intros E. destruct fd, fd'. unfold erase, set_coefficients in *. cbn in *. by injection E as <- <- <- <- <- <- <- <- <- <- <- <-. Qed.

Lemma erase_slide fd fd' : erase fd = erase fd' -> erase <$> slide_window fd = erase <$> slide_window fd'.
Proof.
  intros E. destruct (erase_fields fd fd' E) as (E1 & E2 & E3 & E4 & E5). unfold slide_window. rewrite E1, E4, E5. destruct (slide _ _ _) as [bits|]; [|done].
  cbn. f_equal. by apply erase_walk.
Qed.

Lemma erase_next fd fd' : erase fd = erase fd' -> erase <$> next_state fd = erase <$> next_state fd'.
Proof.
  intros E. destruct (erase_fields fd fd' E) as (E1 & E2 & E3 & E4 & E5). unfold next_state. rewrite E1, E2, E3. destruct (_ <? _); [|by apply erase_slide].
  cbn. f_equal. by apply erase_walk.
Qed.

(** ** Lemmas: slides *)

Lemma advance_starts n : 2 <= n < 2 ^ 31 -> advance_start n 1 = upper_half n /\ advance_start n (-1) = lower_half n.
Proof.
  intros Hn. unfold advance_start, upper_half, lower_half. pose proof (Z.div_mod n 2 ltac:(lia)) as E. pose proof (Z.mod_pos_bound n 2 ltac:(lia)).
  assert (forall x, 0 <= x < 2 ^ 31 -> to_signed 32 (wrap 32 x) = x) as Hs.
  { intros x Hx. rewrite wrap_small by (unfold in_width; lia). unfold to_signed. change (32 - 1) with 31. destruct (Z.ltb_spec x (2 ^ 31)); lia. }
  destruct (Z.eqb_spec (n mod 2) 0); rewrite !(wrap_small 64) by (unfold in_width; lia); split; rewrite Hs.
  all: try (split; [apply Z.div_pos; lia|apply Z.div_lt_upper_bound; lia]).
  - f_equal. lia.
  - symmetry. apply Z.div_unique_pos with 0; lia.
  - f_equal. lia.
  - f_equal. lia.
Qed.

Lemma half_range n : 2 <= n -> 0 <= lower_half n < upper_half n /\ upper_half n < n /\ lower_half n + upper_half n = n - 1 /\ upper_half n <= lower_half n + 2.
Proof.
  intros Hn. unfold lower_half, upper_half. pose proof (Z.div_mod n 2 ltac:(lia)) as E. pose proof (Z.mod_pos_bound n 2 ltac:(lia)).
  destruct (Z.eqb_spec (n mod 2) 0); [lia|]. assert ((n + 1) / 2 = n / 2 + 1) as -> by (symmetry; apply Z.div_unique_pos with 0; lia).
  assert ((n - 3) / 2 = n / 2 - 1) as -> by (symmetry; apply Z.div_unique_pos with 0; lia). lia.
Qed.

(** Writing words into a vector of words. *)
Lemma vset_words l i x : Forall (in_width 32) l -> in_width 32 x -> Forall (in_width 32) (vset l i x).
Proof. intros HF Hx. unfold vset. by apply Forall_insert. Qed.

Lemma foldl_vset_words l (g : Z -> Z) js : Forall (in_width 32) l -> (forall j, in_width 32 (g j)) ->
  Forall (in_width 32) (foldl (fun l j => vset l j (g j)) l js) /\ length (foldl (fun l j => vset l j (g j)) l js) = length l.
Proof.
  intros HF Hg. revert l HF. induction js as [|j js IH]; intros l HF; [done|]. cbn [foldl]. destruct (IH (vset l j (g j))) as [H1 H2]; [by apply vset_words|].
  split; [done|]. by rewrite H2, length_vset.
Qed.

Lemma advance_words l pivot step start : Forall (in_width 32) l -> 
  (Forall (in_width 32) (advance_right l pivot step start) /\ length (advance_right l pivot step start) = length l) /\
  (Forall (in_width 32) (advance_left l pivot step start) /\ length (advance_left l pivot step start) = length l).
Proof.
  intros HF. split.
  - unfold advance_right. destruct (List.find _ _) as [i|].
    + destruct (foldl_vset_words (vset l i (wrap 32 (vget 0 l i + step))) (fun j => wrap 32 (pivot + step * (j - start))) (range start i)) as [H1 H2];
        [apply vset_words; [done|apply limb_ok]|intros; apply limb_ok|]. split; [done|]. by rewrite H2, length_vset.
    + split; [apply vset_words; [done|apply limb_ok]|apply length_vset].
  - unfold advance_left. destruct (List.find _ _) as [i|].
    + destruct (foldl_vset_words (vset l i (wrap 32 (vget 0 l i - step))) (fun j => wrap 32 (pivot - step * (start - j))) (map (Z.sub start) (upto (start - i)))) as [H1 H2];
        [apply vset_words; [done|apply limb_ok]|intros; apply limb_ok|]. split; [done|]. by rewrite H2, length_vset.
    + destruct (_ <? _); [done|]. split; [apply vset_words; [done|apply limb_ok]|apply length_vset].
Qed.

Lemma advance_some l pivot : 2 <= Z.of_nat (length l) < 2 ^ 31 ->
  advance l pivot 1 2 = Some (advance_right l pivot 2 (upper_half (Z.of_nat (length l)))) /\ advance l pivot (-1) 2 = Some (advance_left l pivot 2 (lower_half (Z.of_nat (length l)))).
Proof.
  intros Hn. destruct (advance_starts _ Hn) as [E1 E2]. destruct (half_range (Z.of_nat (length l)) ltac:(lia)) as (H1 & H2 & _). unfold advance. rewrite E1, E2.
  destruct (Z.eqb_spec (Z.of_nat (length l)) 0); [lia|]. destruct (Z.ltb_spec (upper_half (Z.of_nat (length l))) 0); [lia|].
  destruct (Z.ltb_spec (lower_half (Z.of_nat (length l))) 0); [lia|]. done.
Qed.

Lemma slide_some l u lo : 2 <= Z.of_nat (length l) < 2 ^ 31 -> Forall (in_width 32) l ->
  let r := advance_right (reset_parities l) (to_signed 32 u) 2 (upper_half (Z.of_nat (length l))) in
  slide l u lo = Some (advance_left r (to_signed 32 lo) 2 (lower_half (Z.of_nat (length l)))) /\ length r = length l /\ Forall (in_width 32) r.
Proof.
  intros Hn HF r. assert (Forall (in_width 32) (reset_parities l)) as HF'.
  { unfold reset_parities. apply Forall_map. eapply Forall_impl; [exact HF|]. intros i Hi. unfold in_width in *. destruct (Z.eqb_spec (i mod 2) 1) as [E|]; [|done].
    destruct (Z.eq_dec i 0) as [->|]; [done|lia]. }
  assert (length (reset_parities l) = length l) as L by apply length_map. destruct (advance_words (reset_parities l) (to_signed 32 u) 2 (upper_half (Z.of_nat (length l))) HF') as [[H1 H2] _]. fold r in H1, H2.
  unfold slide. rewrite (proj1 (advance_some (reset_parities l) (to_signed 32 u) ltac:(by rewrite L))). rewrite L. fold r. cbn [mbind option_bind].
  rewrite (proj2 (advance_some r (to_signed 32 lo) ltac:(rewrite H2, L; done))). rewrite H2, L. done.
Qed.

(** ** Lemmas: positions *)

Lemma cube_bound fd : start_ok fd -> 4 <= f_max_a_index fd <= 2 ^ 31.
Proof.
  intros [_ HS -> _]. split; [change 4 with (2 ^ 2); apply Z.pow_le_mono_r; lia|apply Z.pow_le_mono_r; lia].
Qed.

Lemma set_walk_twice fd l c l' c' : set_walk (set_walk fd l c) l' c' = set_walk fd l' c'.
Proof. done. Qed.

Lemma position_flips fd k : start_ok fd -> Z.of_nat k < f_max_a_index fd -> position k fd = Some (set_walk fd (flips (f_a_factors fd) (Z.of_nat k)) (Z.of_nat k)).
Proof.
  intros Hs. pose proof (cube_bound fd Hs) as Hb. induction k as [|k IH]; intros Hk.
  - cbn [position]. f_equal. change (flips (f_a_factors fd) (Z.of_nat 0)) with (f_a_factors fd). pose proof (so_current fd Hs) as E. destruct fd. cbn in *. by subst.
  - cbn [position]. rewrite IH by lia. cbn [mbind option_bind]. unfold next_state. cbn [set_walk f_current_a_index f_max_a_index f_a_factors].
    rewrite wrap_small by (unfold in_width; lia). destruct (Z.ltb_spec (Z.of_nat k + 1) (f_max_a_index fd)); [|lia].
    rewrite set_walk_twice, <- flips_S by lia. by replace (Z.of_nat (S k)) with (Z.of_nat k + 1) by lia.
Qed.

(** A whole hypercube is one slide. *)
Lemma position_cube fd : start_ok fd -> position (Z.to_nat (f_max_a_index fd)) fd = slide_window fd.
Proof.
  intros Hs. pose proof (cube_bound fd Hs) as Hb. replace (Z.to_nat (f_max_a_index fd)) with (S (Z.to_nat (f_max_a_index fd - 1))) by lia. cbn [position].
  rewrite position_flips by (done || lia). cbn [mbind option_bind]. rewrite Z2Nat.id by lia. unfold next_state. cbn [set_walk f_current_a_index f_max_a_index f_a_factors].
  rewrite wrap_small by (unfold in_width; lia). destruct (Z.ltb_spec (f_max_a_index fd - 1 + 1) (f_max_a_index fd)); [lia|].
  unfold slide_window. cbn [set_walk f_a_factors f_upperHalfStart f_lowerHalfStart]. unfold slide.
  destruct (flips_pairs (f_a_factors fd) (f_max_a_index fd - 1) ltac:(lia) (so_words fd Hs)) as (E & _). by rewrite (reset_parities_eq _ _ E).
Qed.

Lemma slide_start fd : start_ok fd -> exists s, slide_window fd = Some s /\ start_ok s /\ f_max_a_index s = f_max_a_index fd /\ length (f_a_factors s) = length (f_a_factors fd).
Proof.
  intros Hs. pose proof Hs as [HC HS HM HW]. destruct (slide_some (f_a_factors fd) (f_upperHalfStart fd) (f_lowerHalfStart fd) ltac:(lia) HW) as (E & L & F).
  unfold slide_window. rewrite E. cbn [mbind option_bind]. eexists. split; [reflexivity|]. cbn [set_walk f_max_a_index f_a_factors]. set (r := advance_right _ _ _ _) in *.
  destruct (advance_words r (to_signed 32 (f_lowerHalfStart fd)) 2 (lower_half (Z.of_nat (length (f_a_factors fd)))) F) as [_ [F2 L2]]. rewrite L in L2.
  split; [|done]. constructor; cbn [set_walk f_max_a_index f_a_factors f_current_a_index]; rewrite ?L2; done.
Qed.

Lemma position_add a b fd : position (a + b) fd = (p ← position b fd; position a p).
Proof.
  induction a as [|a IH]; [cbn [Nat.add position]; by destruct (position b fd)|]. cbn [Nat.add position]. rewrite IH. by destruct (position b fd).
Qed.

Lemma erase_position fd fd' k : erase fd = erase fd' -> erase <$> position k fd = erase <$> position k fd'.
Proof.
  intros E. induction k as [|k IH]; [cbn; by rewrite E|]. cbn [position]. destruct (position k fd) as [p|], (position k fd') as [p'|]; try done.
  cbn [mbind option_bind]. apply erase_next. by apply (inj Some).
Qed.

(** The walk is defined everywhere. *)
Lemma position_cubes fd h : start_ok fd -> exists s, position (h * Z.to_nat (f_max_a_index fd)) fd = Some s /\ start_ok s /\ f_max_a_index s = f_max_a_index fd.
Proof.
  intros Hs. induction h as [|h (s & E & Hss & Em)]; [by exists fd|]. cbn [Nat.mul]. rewrite position_add, E. cbn [mbind option_bind].
  rewrite <- Em, position_cube by done. destruct (slide_start s Hss) as (s' & E' & Hs' & Em' & _). exists s'. split; [done|]. split; [done|]. by rewrite Em'.
Qed.

(** The loop of slides. *)
Lemma slides_spec n : forall fd fd0, start_ok fd0 -> erase fd = erase fd0 ->
  exists r s, slides n (f_max_a_index fd0) fd = Some r /\ position (n * Z.to_nat (f_max_a_index fd0)) fd0 = Some s /\ erase r = erase s /\ ((0 < n)%nat -> r = recalc_a s).
Proof.
  induction n as [|n IH]; intros fd fd0 Hs E; [exists fd, fd0; split; [done|]; split; [done|]; split; [done|lia]|].
  pose proof (cube_bound fd0 Hs) as Hb. destruct (erase_fields fd fd0 E) as (E1 & E2 & E3 & E4 & E5). cbn [slides]. unfold advance_a_factors. rewrite E2, E3, (so_current fd0 Hs), Z.add_0_l.
  assert (wrap 32 (to_signed 32 (f_max_a_index fd0)) = f_max_a_index fd0) as ->.
  { unfold to_signed, wrap. change (32 - 1) with 31. destruct (Z.ltb_spec (f_max_a_index fd0) (2 ^ 31)); [apply Z.mod_small; lia|].
    symmetry. apply Z.mod_unique_pos with (-1); lia. }
  rewrite Z.ltb_irrefl. destruct (slide_start fd0 Hs) as (s & Es & Hss & Em & _). pose proof (erase_slide fd fd0 E) as EE. rewrite Es in EE.
  destruct (slide_window fd) as [s'|]; [|done]. apply (inj Some) in EE. cbn [mbind option_bind].
  destruct (IH (recalc_a s') s Hss) as (r & t & Er & Et & Ert & Hn); [by rewrite erase_recalc|]. rewrite Em in Er, Et. rewrite Er. exists r, t. split; [done|].
  split; [|split; [done|]].
  - replace (S n * Z.to_nat (f_max_a_index fd0))%nat with (n * Z.to_nat (f_max_a_index fd0) + Z.to_nat (f_max_a_index fd0))%nat by lia. rewrite position_add, position_cube, Es by done. done.
  - intros _. destruct n as [|n]; [|apply Hn; lia]. cbn [slides] in Er. cbn [Nat.mul position] in Et. injection Er as <-. injection Et as <-. by apply recalc_erase.
Qed.

Lemma foldl_upto_ext {A} (f g : A -> Z -> A) a n : 0 <= n -> (forall i x, 0 <= i < n -> f x i = g x i) -> foldl f a (upto n) = foldl g a (upto n).
Proof.
  intros Hn. pattern n. apply natlike_ind; [done| |done]. clear n Hn. intros n Hn IH H. change (Z.succ n) with (n + 1) in *. rewrite upto_S, !foldl_snoc by done.
  rewrite IH by (intros; apply H; lia). apply H. lia.
Qed.

Lemma position_some fd g : start_ok fd -> exists p, position g fd = Some p.
Proof.
  intros Hs. pose proof (cube_bound fd Hs) as Hb. pose proof (Nat.div_mod g (Z.to_nat (f_max_a_index fd)) ltac:(lia)) as E.
  pose proof (Nat.mod_upper_bound g (Z.to_nat (f_max_a_index fd)) ltac:(lia)). set (h := (g / _)%nat) in *. set (k := (g mod _)%nat) in *.
  replace g with (k + h * Z.to_nat (f_max_a_index fd))%nat by lia. rewrite position_add. destruct (position_cubes fd h Hs) as (s & -> & Hss & Em).
  cbn [mbind option_bind]. rewrite position_flips by (done || lia). by eexists.
Qed.

Lemma reset_spec fd0 fd g : start_ok fd0 -> same_problem fd fd0 -> 0 <= g < 2 ^ 64 ->
  exists r p, resetAndAdvanceTo (saveSnapshot fd0) g fd = Some r /\ position (Z.to_nat g) fd0 = Some p /\ erase r = erase p /\ (0 < g -> r = recalc_a p).
Proof.
  intros Hs Hp Hg. pose proof (cube_bound fd0 Hs) as Hb. pose proof (so_size fd0 Hs) as Hsz. unfold resetAndAdvanceTo. cbv zeta.
  replace (shc_dim (saveSnapshot fd0)) with (wrap 32 (Z.of_nat (length (f_a_factors fd0)))) by done. rewrite wrap_small by (unfold in_width; lia). destruct (Z.eqb_spec (Z.of_nat (length (f_a_factors fd0))) 0); [lia|].
  assert (wrap 32 (Z.shiftl 1 (Z.of_nat (length (f_a_factors fd0)))) = f_max_a_index fd0) as ->.
  { rewrite Z.shiftl_1_l, (so_max fd0 Hs), wrap_small; [done|]. unfold in_width. rewrite <- (so_max fd0 Hs). lia. }
  set (H := f_max_a_index fd0) in *. pose proof (Z.mod_pos_bound g H ltac:(lia)) as Hk. pose proof (Z.div_mod g H ltac:(lia)) as Eg. assert (0 <= g / H) as Hh by (apply Z.div_pos; lia).
  rewrite (wrap_small 32 (g mod H)) by (unfold in_width; lia).
  destruct (slides_spec (Z.to_nat (g / H)) _ fd0 Hs Hp) as (r & s & Er & Es & Ers & Hr). fold H in Er, Es. rewrite Er. cbn [mbind option_bind].
  assert (position (Z.to_nat g) fd0 = position (Z.to_nat (g mod H)) s) as EP.
  { replace (Z.to_nat g) with (Z.to_nat (g mod H) + Z.to_nat (g / H) * Z.to_nat H)%nat by nia. by rewrite position_add, Es. }
  destruct (position_cubes fd0 (Z.to_nat (g / H)) Hs) as (s' & Es' & Hss & Em). fold H in Es', Em. rewrite Es in Es'. injection Es' as <-.
  rewrite EP. destruct (Z.ltb_spec 0 (g mod H)) as [Hpos|Hz].
  - rewrite position_flips by (done || (rewrite Em, Z2Nat.id by lia; lia)). rewrite Z2Nat.id by lia. destruct (erase_fields r s Ers) as (E1 & E2 & E3 & E4 & E5).
    assert (to_signed 32 (g mod H) = g mod H) as ->. { unfold to_signed. change (32 - 1) with 31. destruct (Z.ltb_spec (g mod H) (2 ^ 31)); lia. }
    unfold advance_a_factors. rewrite E2, (so_current s Hss), E3, Em, Z.add_0_l, wrap_small by (unfold in_width; lia). destruct (Z.ltb_spec (g mod H) H); [|lia]. cbv zeta.
    rewrite (foldl_upto_ext _ (fun bits i => flip_factor bits (advanceGray i))) by (lia || (intros i x Hi; rewrite Z.add_0_l, wrap_small by (unfold in_width; lia); done)).
    rewrite E1. eexists _, _. split; [reflexivity|]. split; [reflexivity|]. split; [rewrite erase_recalc; by apply erase_walk|]. intros _. apply recalc_erase. by apply erase_walk.
  - replace (Z.to_nat (g mod H)) with 0%nat by lia. cbn [position]. exists r, s. split; [done|]. split; [done|]. split; [done|]. intros Hg0. apply Hr. nia.
Qed.

Lemma prepare_spec fd b states : Z.of_nat (length states) = b -> (forall i s, states !! i = Some s -> position i fd = Some s) -> is_Some (position (length states) fd) ->
  exists e, position (length states) fd = Some e /\ prepareNextBatchIndices fd b = Some (concat (map f_a_factors states), e).
Proof.
  intros <-. unfold prepareNextBatchIndices. induction states as [|s states IH] using rev_ind; intros Hst [e He]; [by exists fd|].
  rewrite length_app in *. cbn [length] in *. replace (Z.of_nat (length states + 1)) with (Z.of_nat (length states) + 1) by lia. rewrite upto_S, foldl_snoc by lia.
  assert (position (length states) fd = Some s) as Es by (apply Hst; rewrite lookup_app_r, Nat.sub_diag by lia; done).
  destruct IH as (e' & Ee & ->); [intros i t Ht; apply Hst; by apply lookup_app_l_Some|by eexists|]. rewrite Es in Ee. injection Ee as <-.
  rewrite Nat.add_1_r in He |- *. cbn [position] in He |- *. rewrite Es in He |- *. cbn [mbind option_bind] in He |- *. rewrite He. cbn [mbind option_bind]. exists e. split; [done|].
  by rewrite map_app, concat_app; cbn [map concat]; rewrite app_nil_r.
Qed.

(** The states of a stretch of the walk. *)
Lemma stretch fd b : start_ok fd -> forall g, exists states, length states = b /\ forall i s, states !! i = Some s -> position (g + i) fd = Some s.
Proof.
  intros Hs g. induction b as [|b (states & L & Hst)]; [by exists []; split; [|intros i s Hi; rewrite lookup_nil in Hi]|].
  destruct (position_some fd (g + b) Hs) as [p Ep]. exists (states ++ [p]). split; [rewrite length_app; cbn; lia|]. intros i s Hi.
  apply lookup_app_Some in Hi as [Hi|[Hi1 Hi2]]; [by apply Hst|]. apply list_lookup_singleton_Some in Hi2 as [Hi2 <-]. by replace i with b by lia.
Qed.

(** ** Lemmas: the hypercube *)

Lemma advanceGray_ctz i : 0 <= i < 2 ^ 31 -> advanceGray i = ctz32 (i + 1).
Proof.
  intros Hi. unfold advanceGray. rewrite wrap_small by (unfold in_width; lia). rewrite Z.lxor_comm. pose proof (gray_step (i + 1) ltac:(lia)) as E.
  replace (i + 1 - 1) with i in E by lia. rewrite E. apply ctz32_pow2. by apply ctz32_bits; lia.
Qed.

Lemma swap_swap i : in_width 32 i -> swap_neighbour (swap_neighbour i) = i.
Proof.
  intros Hi. destruct (swap_pair i Hi) as (E1 & H1 & M1). destruct (swap_pair (swap_neighbour i) H1) as (E2 & _ & M2).
  pose proof (Z.div_mod i 2 ltac:(lia)). pose proof (Z.div_mod (swap_neighbour (swap_neighbour i)) 2 ltac:(lia)). lia.
Qed.

Lemma vget_words l i : Forall (in_width 32) l -> 0 <= i < Z.of_nat (length l) -> in_width 32 (vget 0 l i).
Proof. intros HF Hi. rewrite Forall_forall in HF. apply HF. unfold vget. apply list_elem_of_In, nth_In. lia. Qed.

(** After [k] steps a factor is swapped when its bit of the Gray code is set. *)
Lemma flips_get l k i : Forall (in_width 32) l -> Z.of_nat (length l) <= 31 -> 0 <= k < 2 ^ Z.of_nat (length l) -> 0 <= i < Z.of_nat (length l) ->
  vget 0 (flips l k) i = if Z.testbit (gray k) i then swap_neighbour (vget 0 l i) else vget 0 l i.
Proof.
  intros HF HL [Hk Hlt] Hi. revert Hlt. pattern k. apply natlike_ind; [| |done]; clear k Hk.
  - intros _. change (gray 0) with 0. by rewrite Z.bits_0.
  - intros k Hk IH Hlt. change (Z.succ k) with (k + 1) in *. specialize (IH ltac:(lia)). rewrite flips_S by done. unfold flip_factor.
    assert (2 ^ Z.of_nat (length l) <= 2 ^ 31) by (apply Z.pow_le_mono_r; lia). rewrite advanceGray_ctz by lia.
    pose proof (gray_step (k + 1) ltac:(lia)) as E. replace (k + 1 - 1) with k in E by lia. destruct (flips_pairs l k Hk HF) as (_ & FW & FL).
    pose proof (ctz32_lt (k + 1) (Z.of_nat (length l)) ltac:(lia) ltac:(lia)) as Hc. destruct (ctz32_bits (k + 1) ltac:(lia)) as [Hc0 _]. set (b := ctz32 (k + 1)) in *. clearbody b.
    assert (Z.testbit (gray (k + 1)) i = xorb (Z.testbit (gray k) i) (b =? i)) as ->.
    { rewrite <- Z.pow2_bits_eqb by lia. rewrite <- E, !Z.lxor_spec. by destruct (Z.testbit (gray k) i), (Z.testbit (gray (k + 1)) i). }
    destruct (Z.eqb_spec b i) as [->|Hne].
    + rewrite vget_vset_eq by (rewrite FL; lia). rewrite IH. destruct (Z.testbit (gray k) i); cbn [xorb]; [|done]. apply swap_swap. by apply vget_words.
    + rewrite vget_vset_ne by lia. rewrite IH. by rewrite xorb_false_r.
Qed.

Lemma bits_exist (f : Z -> bool) n : 0 <= n -> exists y, 0 <= y < 2 ^ n /\ forall i, 0 <= i < n -> Z.testbit y i = f i.
Proof.
  intros Hn. pattern n. apply natlike_ind; [exists 0; split; [done|lia]| |done]. clear n Hn. intros n Hn (y & Hy & Hb). change (Z.succ n) with (n + 1).
  pose proof (Z.pow_pos_nonneg 2 n ltac:(lia) Hn). exists (if f n then y + 2 ^ n else y). rewrite Z.pow_add_r by lia. change (2 ^ 1) with 2. split; [destruct (f n); lia|]. intros i Hi.
  assert (Z.testbit y n = false) as Hyn.
  { destruct (Z.eq_dec y 0) as [->|]; [apply Z.bits_0|]. apply Z.bits_above_log2; [lia|]. apply Z.log2_lt_pow2; lia. }
  destruct (f n) eqn:Ef; [|destruct (Z.eq_dec i n) as [->|]; [congruence|apply Hb; lia]].
  rewrite Z.add_nocarry_lxor, Z.lxor_spec, Z.pow2_bits_eqb by (lia || (apply Z.bits_inj'; intros j Hj; rewrite Z.land_spec, Z.pow2_bits_eqb, Z.bits_0 by lia; destruct (Z.eqb_spec n j) as [<-|]; [by rewrite Hyn|apply andb_false_r])).
  destruct (Z.eqb_spec n i) as [<-|]; [by rewrite Hyn, Ef|]. rewrite xorb_false_r. apply Hb. lia.
Qed.

Lemma gray_double x b : gray (2 * x + Z.b2z b) = 2 * gray x + Z.b2z (xorb b (Z.odd x)).
Proof.
  unfold gray. assert (Z.shiftr (2 * x + Z.b2z b) 1 = x) as ->.
  { rewrite Z.shiftr_div_pow2 by lia. change (2 ^ 1) with 2. symmetry. apply Z.div_unique_pos with (Z.b2z b); destruct b; cbn [Z.b2z]; lia. }
  apply Z.bits_inj'. intros n Hn. rewrite Z.lxor_spec. destruct (Z.eq_dec n 0) as [->|].
  - by rewrite !Z.testbit_0_r, Z.bit0_odd.
  - replace n with (Z.succ (n - 1)) by lia. rewrite !Z.testbit_succ_r, Z.lxor_spec, Z.shiftr_spec by lia. by replace (Z.succ (n - 1)) with (n - 1 + 1) by lia.
Qed.

Lemma gray_surjective m y : 0 <= m -> 0 <= y < 2 ^ m -> exists x, 0 <= x < 2 ^ m /\ gray x = y.
Proof.
  intros Hm. revert y. pattern m. apply natlike_ind; [intros y Hy; exists 0; split; [done|]; change (2 ^ 0) with 1 in Hy; by assert (y = 0) as -> by lia| |done].
  clear m Hm. intros m Hm IH y Hy. rewrite Z.pow_succ_r in Hy |- * by done. pose proof (Z.div_mod y 2 ltac:(lia)) as E. rewrite Zmod_odd in E.
  assert (0 <= y / 2 < 2 ^ m) as Hy2 by (split; [apply Z.div_pos; lia|apply Z.div_lt_upper_bound; lia]). destruct (IH (y / 2) Hy2) as (x & Hx & Ex).
  exists (2 * x + Z.b2z (xorb (Z.odd y) (Z.odd x))). split; [destruct (xorb _ _); cbn [Z.b2z]; lia|]. rewrite gray_double, Ex, xorb_assoc, xorb_nilpotent, xorb_false_r.
  destruct (Z.odd y); cbn [Z.b2z]; lia.
Qed.

(** Every choice of one index from each pair, exactly once. *)
Lemma flips_exact l t : Forall (in_width 32) l -> Forall (in_width 32) t -> Z.of_nat (length l) <= 31 -> map (fun i => i / 2) t = map (fun i => i / 2) l ->
  exists k, 0 <= k < 2 ^ Z.of_nat (length l) /\ flips l k = t /\ forall k', 0 <= k' < 2 ^ Z.of_nat (length l) -> flips l k' = t -> k' = k.
Proof.
  intros Hl Ht HL E. assert (length t = length l) as Lt by (rewrite <- (length_map (fun i => i / 2) t), E; apply length_map).
  assert (forall i, 0 <= i < Z.of_nat (length l) -> vget 0 t i = if negb (vget 0 t i =? vget 0 l i) then swap_neighbour (vget 0 l i) else vget 0 l i) as Hti.
  { intros i Hi. destruct (Z.eqb_spec (vget 0 t i) (vget 0 l i)) as [|Hne]; cbn [negb]; [done|].
    assert (vget 0 t i / 2 = vget 0 l i / 2) as Ep.
    { assert (map (fun i => i / 2) t !! Z.to_nat i = map (fun i => i / 2) l !! Z.to_nat i) as E' by by rewrite E. rewrite !list_lookup_fmap in E'.
      destruct (lookup_lt_is_Some_2 t (Z.to_nat i) ltac:(lia)) as [x Ex]. destruct (lookup_lt_is_Some_2 l (Z.to_nat i) ltac:(lia)) as [y Ey]. rewrite Ex, Ey in E'. cbn in E'. injection E' as E'.
      unfold vget. by rewrite (nth_lookup_Some _ _ 0 _ Ex), (nth_lookup_Some _ _ 0 _ Ey). }
    destruct (swap_pair (vget 0 l i)) as (S1 & _ & S2); [by apply vget_words|]. pose proof (Z.div_mod (vget 0 t i) 2 ltac:(lia)). pose proof (Z.div_mod (vget 0 l i) 2 ltac:(lia)).
    pose proof (Z.div_mod (swap_neighbour (vget 0 l i)) 2 ltac:(lia)). pose proof (Z.mod_pos_bound (vget 0 t i) 2 ltac:(lia)). pose proof (Z.mod_pos_bound (vget 0 l i) 2 ltac:(lia)). lia. }
  destruct (bits_exist (fun i => negb (vget 0 t i =? vget 0 l i)) (Z.of_nat (length l)) ltac:(lia)) as (y & Hy & Hbits).
  destruct (gray_surjective (Z.of_nat (length l)) y ltac:(lia) Hy) as (k & Hk & Ek).
  assert (forall k' i, 0 <= k' < 2 ^ Z.of_nat (length l) -> flips l k' = t -> 0 <= i < Z.of_nat (length l) -> Z.testbit (gray k') i = Z.testbit y i) as Hu.
  { intros k' i Hk' Ef Hi. rewrite Hbits by done. rewrite <- Ef, flips_get by done. destruct (Z.testbit (gray k') i).
    - destruct (Z.eqb_spec (swap_neighbour (vget 0 l i)) (vget 0 l i)) as [Es|]; [|done]. destruct (swap_pair (vget 0 l i)) as (_ & _ & S2); [by apply vget_words|]. rewrite Es in S2.
      pose proof (Z.mod_pos_bound (vget 0 l i) 2 ltac:(lia)). lia.
    - by rewrite Z.eqb_refl. }
  exists k. split; [done|]. split.
  - destruct (flips_pairs l k ltac:(lia) Hl) as (_ & _ & FL). rewrite <- (map_vget_upto 0 t), <- (map_vget_upto 0 (flips l k)), FL, Lt. apply map_ext_in.
    intros i Hi%list_elem_of_In%elem_of_upto. rewrite flips_get by done. rewrite Ek, Hbits by done. by rewrite <- Hti.
  - intros k' Hk' Ef. apply gray_inj; [lia|lia|]. rewrite Ek. apply Z.bits_inj'. intros i Hi. destruct (Z.ltb_spec i (Z.of_nat (length l))) as [|Hge]; [by apply Hu|].
    pose proof (gray_bound k' (Z.of_nat (length l)) ltac:(lia) Hk') as Hg. assert (forall z, 0 <= z < 2 ^ Z.of_nat (length l) -> Z.testbit z i = false) as Hz.
    { intros z Hz. destruct (Z.eq_dec z 0) as [->|]; [apply Z.bits_0|]. apply Z.bits_above_log2; [lia|]. assert (Z.log2 z < Z.of_nat (length l)) by (apply Z.log2_lt_pow2; lia). lia. }
    by rewrite !Hz.
Qed.

(** ** Lemmas: the window *)

Lemma foldl_vset_get {A} (d : A) (g : Z -> A) js l k : 0 <= k < Z.of_nat (length l) -> (forall j, j ∈ js -> 0 <= j) ->
  vget d (foldl (fun l j => vset l j (g j)) l js) k = if decide (k ∈ js) then g k else vget d l k.
Proof.
  intros Hk. induction js as [|j js IH] using rev_ind; intros Hjs; [destruct (decide (k ∈ [])) as [H|]; [by apply not_elem_of_nil in H|done]|].
  rewrite foldl_snoc. assert (length (foldl (fun l j => vset l j (g j)) l js) = length l) as HL.
  { clear. revert l. induction js as [|j js IH]; intros l; [done|]. cbn [foldl]. by rewrite IH, length_vset. }
  destruct (Z.eq_dec j k) as [->|Hne].
  - rewrite vget_vset_eq by lia. destruct (decide (k ∈ js ++ [k])) as [|Hn]; [done|]. destruct Hn. apply elem_of_app. right. by apply list_elem_of_singleton.
  - rewrite vget_vset_ne by (lia || (apply Hjs, elem_of_app; right; by apply list_elem_of_singleton)). rewrite IH by (intros i Hi; apply Hjs, elem_of_app; by left).
    destruct (decide (k ∈ js)) as [H1|H1], (decide (k ∈ js ++ [j])) as [H2|H2]; try done.
    + destruct H2. apply elem_of_app. by left.
    + apply elem_of_app in H2 as [H2|H2]; [done|]. apply list_elem_of_singleton in H2. lia.
Qed.

Lemma signed_small x : 0 <= x < 2 ^ 31 -> to_signed 32 x = x.
Proof. intros Hx. unfold to_signed. change (32 - 1) with 31. destruct (Z.ltb_spec x (2 ^ 31)); lia. Qed.

(** A list of even indices [2 q]; what the two moves do to the pairs. *)
Section moves.
Context (q : Z -> Z) (n c : Z) (Hn : 2 <= n < 2 ^ 31).
Notation su := (upper_half n).
Notation sl := (lower_half n).
Context (Hq0 : 0 <= q 0) (Hpairs : forall j, 0 <= j < n - 1 -> q j < q (j + 1)) (Hbound : q (n - 1) < 2 ^ 30 - 1).

Lemma q_mono j k : 0 <= j -> j <= k -> k < n -> q j + (k - j) <= q k.
Proof using Hpairs.
  intros Hj Hjk. replace k with (j + (k - j)) by lia. assert (0 <= k - j) as Hd by lia. generalize dependent (k - j). clear k Hjk. intros d Hd. pattern d. apply natlike_ind; [|clear d Hd|done].
  - intros _. rewrite Z.add_0_r. lia.
  - intros d Hd IH Hlt. change (Z.succ d) with (d + 1) in *. specialize (Hpairs (j + d) ltac:(lia)). replace (j + (d + 1)) with (j + d + 1) by lia. lia.
Qed.

Lemma q_range j : 0 <= j < n -> 0 <= q j < 2 ^ 30 - 1.
Proof using Hpairs Hq0 Hbound.
  intros Hj. pose proof (q_mono 0 j ltac:(lia) ltac:(lia) ltac:(lia)). pose proof (q_mono j (n - 1) ltac:(lia) ltac:(lia) ltac:(lia)). lia.
Qed.

(** To the right. *)
Lemma advance_right_pairs l pivot :
  Z.of_nat (length l) = n -> (forall j, 0 <= j < n -> vget 0 l j = 2 * q j) ->
  (forall j, 0 <= j <= sl -> q j <= c + j) -> (forall j, sl < j < su -> q j = c + j) -> (forall j, su <= j < n -> c + j <= q j) ->
  n <= 5 \/ pivot / 2 = c + su ->
  let r := advance_right l pivot 2 su in
  Z.of_nat (length r) = n /\ (forall j, 0 <= j < su -> vget 0 r j = 2 * q j) /\ (forall j, su <= j < n -> c + j <= pair_at r j) /\
  (forall j, 0 <= j < n - 1 -> pair_at r j < pair_at r (j + 1)) /\ pair_at r (n - 1) <= q (n - 1) + 1 /\ Forall (in_width 32) r.
Proof using Hn Hq0 Hpairs Hbound.
  intros HL Hl Hlo Hmid Hup Hpiv r. destruct (half_range n ltac:(lia)) as (H1 & H2 & H3 & H4).
  assert (Forall (in_width 32) l) as HF.
  { apply Forall_lookup. intros i x Ex. pose proof (lookup_lt_Some _ _ _ Ex). specialize (Hl (Z.of_nat i) ltac:(lia)). unfold vget in Hl. rewrite Nat2Z.id, (nth_lookup_Some _ _ 0 _ Ex) in Hl.
    pose proof (q_range (Z.of_nat i) ltac:(lia)). unfold in_width. lia. }
  destruct (advance_words l pivot 2 su HF) as [[FW FL] _]. fold r in FW, FL. split; [lia|].
  assert (forall j, 0 <= j < n -> 2 * q j / 2 = q j) as Hd by (intros j Hj; rewrite Z.mul_comm, Z.div_mul by lia; done).
  assert (exists q', (forall j, 0 <= j < su -> vget 0 r j = 2 * q j) /\ (forall j, 0 <= j < n -> pair_at r j = q' j) /\ (forall j, 0 <= j < su -> q' j = q j) /\
    (forall j, su <= j < n -> c + j <= q' j) /\ (forall j, su - 1 <= j < n - 1 -> q' j < q' (j + 1)) /\ q' (n - 1) <= q (n - 1) + 1) as (q' & Q1 & Q2 & Q3 & Q4 & Q5 & Q6).
  2:{ split; [done|]. split; [intros j Hj; rewrite Q2 by lia; by apply Q4|]. split; [|split; [rewrite Q2 by lia; done|done]].
      intros j Hj. rewrite !Q2 by lia. destruct (Z.ltb_spec j (su - 1)); [rewrite !Q3 by lia; apply Hpairs; lia|apply Q5; lia]. }
  assert (q (su - 1) <= c + (su - 1)) as Hsu by (destruct (Z.eq_dec (su - 1) sl) as [->|]; [apply Hlo; lia|rewrite Hmid by lia; lia]).
  unfold r, advance_right. rewrite HL. destruct (List.find _ _) as [i|] eqn:Ef.
  - apply find_some in Ef as [Hi Hc]. apply list_elem_of_In, elem_of_range in Hi. rewrite !Hl in Hc by lia. pose proof (q_range i ltac:(lia)) as Hqi. rewrite wrap_small in Hc by (unfold in_width; lia). apply Z.ltb_lt in Hc.
    rewrite Hl by lia. rewrite wrap_small by (unfold in_width; lia).
    set (r' := foldl _ _ _). assert (forall j, 0 <= j < n -> vget 0 r' j = if decide (su <= j < i) then wrap 32 (pivot + 2 * (j - su)) else if decide (j = i) then 2 * q i + 2 else 2 * q j) as Hr'.
    { intros j Hj. unfold r'. rewrite foldl_vset_get; [|rewrite length_vset; lia|intros k Hk; apply elem_of_range in Hk; lia].
      destruct (decide (j ∈ range su i)) as [Hr|Hr]; rewrite elem_of_range in Hr; destruct (decide (su <= j < i)); try lia.
      destruct (decide (j = i)) as [->|]; [by rewrite vget_vset_eq by lia|]. rewrite vget_vset_ne by lia. by apply Hl. }
    exists (fun j => if decide (su <= j < i) then c + j else if decide (j = i) then q i + 1 else q j). split; [|split; [|split; [|split; [|split]]]].
    + intros j Hj. rewrite Hr' by lia. destruct (decide _); [lia|]. destruct (decide _); [lia|done].
    + intros j Hj. unfold pair_at. rewrite Hr' by lia. destruct (decide (su <= j < i)) as [Hj2|]; [|destruct (decide (j = i)) as [->|]; [|by apply Hd]].
      * destruct Hpiv as [|Hpiv]; [lia|]. pose proof (Hup su ltac:(lia)). pose proof (q_range su ltac:(lia)). pose proof (q_mono su j ltac:(lia) ltac:(lia) ltac:(lia)). pose proof (q_range j ltac:(lia)).
        pose proof (Hup j ltac:(lia)). pose proof (q_range (su - 1) ltac:(lia)). pose proof (Z.div_mod pivot 2 ltac:(lia)). pose proof (Z.mod_pos_bound pivot 2 ltac:(lia)).
        rewrite wrap_small by (unfold in_width; lia). symmetry. apply Z.div_unique_pos with (pivot mod 2); lia.
      * symmetry. apply Z.div_unique_pos with 0; lia.
    + intros j Hj. destruct (decide _); [lia|]. destruct (decide _); [lia|done].
    + intros j Hj. destruct (decide _); [lia|]. pose proof (Hup j Hj). destruct (decide (j = i)) as [->|]; lia.
    + intros j Hj. pose proof (Hup i ltac:(lia)). destruct (decide (su <= j < i)), (decide (su <= j + 1 < i)); try lia.
      * destruct (decide (j + 1 = i)); lia.
      * destruct (decide (j = i)) as [->|]; [lia|]. assert (j = su - 1) as -> by lia. replace (su - 1 + 1) with su by lia. lia.
      * destruct (decide (j = i)) as [->|].
        { destruct (decide (i + 1 = i)); [lia|]. lia. }
        destruct (decide (j + 1 = i)) as [E|]; [|apply Hpairs; lia]. subst i. pose proof (Hpairs j ltac:(lia)). lia.
    + destruct (decide _); [lia|]. destruct (decide (n - 1 = i)) as [<-|]; lia.
  - clear Ef. pose proof (q_range (n - 1) ltac:(lia)) as Hqn. rewrite Hl by lia. rewrite wrap_small by (unfold in_width; lia).
    assert (forall j, 0 <= j < n -> vget 0 (vset l (n - 1) (2 * q (n - 1) + 2)) j = if decide (j = n - 1) then 2 * q (n - 1) + 2 else 2 * q j) as Hr'.
    { intros j Hj. destruct (decide (j = n - 1)) as [->|]; [by rewrite vget_vset_eq by lia|]. rewrite vget_vset_ne by lia. by apply Hl. }
    exists (fun j => if decide (j = n - 1) then q (n - 1) + 1 else q j). split; [|split; [|split; [|split; [|split]]]].
    + intros j Hj. rewrite Hr' by lia. destruct (decide _); [lia|done].
    + intros j Hj. unfold pair_at. rewrite Hr' by lia. destruct (decide _); [|by apply Hd]. symmetry. apply Z.div_unique_pos with 0; lia.
    + intros j Hj. destruct (decide _); [lia|done].
    + intros j Hj. pose proof (Hup j Hj). destruct (decide _) as [->|]; lia.
    + intros j Hj. destruct (decide (j = n - 1)); [lia|]. pose proof (Hpairs j ltac:(lia)). destruct (decide (j + 1 = n - 1)) as [E|]; [rewrite <- E; lia|done].
    + destruct (decide _); lia.
Qed.

(** To the left. *)
Lemma advance_left_pairs l pivot :
  Z.of_nat (length l) = n -> (forall j, 0 <= j <= sl -> vget 0 l j = 2 * q j) -> Forall (in_width 32) l ->
  (forall j, 0 <= j <= sl -> q j <= c + j) -> c + sl < 2 ^ 30 -> n <= 5 \/ pivot / 2 = c + sl ->
  let r := advance_left l pivot 2 sl in
  Z.of_nat (length r) = n /\ (forall j, sl < j < n -> vget 0 r j = vget 0 l j) /\ (forall j, 0 <= j <= sl -> pair_at r j <= c + j) /\
  (forall j, 0 <= j < sl -> pair_at r j < pair_at r (j + 1)) /\ pair_at r sl <= c + sl /\ 0 <= vget 0 r 0 /\ Forall (in_width 32) r.
Proof using Hn Hq0 Hpairs Hbound.
  intros HL Hl HF Hlo Hcb Hpiv r. destruct (half_range n ltac:(lia)) as (H1 & H2 & H3 & H4). destruct (advance_words l pivot 2 sl HF) as [_ [FW FL]]. fold r in FW, FL. split; [lia|].
  assert (0 <= vget 0 r 0) as Hr0 by (pose proof (vget_words r 0 FW ltac:(lia)) as Hw; unfold in_width in Hw; lia).
  assert (forall j, 0 <= j < n -> 2 * q j / 2 = q j) as Hd by (intros j Hj; rewrite Z.mul_comm, Z.div_mul by lia; done).
  assert (exists q', (forall j, sl < j < n -> vget 0 r j = vget 0 l j) /\ (forall j, 0 <= j <= sl -> pair_at r j = q' j) /\
    (forall j, 0 <= j <= sl -> q' j <= c + j) /\ (forall j, 0 <= j < sl -> q' j < q' (j + 1))) as (q' & Q1 & Q2 & Q3 & Q4).
  2:{ split; [done|]. split; [intros j Hj; rewrite Q2 by lia; by apply Q3|]. split; [intros j Hj; rewrite !Q2 by lia; by apply Q4|]. split; [rewrite Q2 by lia; apply Q3; lia|done]. }
  unfold r, advance_left. destruct (List.find _ _) as [i|] eqn:Ef.
  - apply find_some in Ef as [Hi Hc]. apply in_map_iff in Hi as (k & <- & Hk). apply list_elem_of_In, elem_of_upto in Hk. set (i := sl - k) in *. assert (1 <= i <= sl) as Hi by lia.
    pose proof (q_range i ltac:(lia)) as Hqi. pose proof (q_range (i - 1) ltac:(lia)) as Hqi'. rewrite !Hl in Hc by lia. rewrite !signed_small in Hc by lia. apply Z.ltb_lt in Hc.
    rewrite Hl by lia. rewrite wrap_small by (unfold in_width; lia).
    set (r' := foldl _ _ _). assert (forall j, 0 <= j < n -> vget 0 r' j = if decide (i < j <= sl) then wrap 32 (pivot - 2 * (sl - j)) else if decide (j = i) then 2 * q i - 2 else vget 0 l j) as Hr'.
    { intros j Hj. unfold r'. rewrite foldl_vset_get; [|rewrite length_vset; lia|].
      2:{ intros x Hx. apply list_elem_of_In, in_map_iff in Hx as (y & <- & Hy). apply list_elem_of_In, elem_of_upto in Hy. lia. }
      assert (j ∈ map (Z.sub sl) (upto (sl - i)) <-> i < j <= sl) as Hiff.
      { rewrite list_elem_of_In, in_map_iff. split; [intros (y & <- & Hy); apply list_elem_of_In, elem_of_upto in Hy; lia|].
        intros Hj2. exists (sl - j). split; [lia|]. apply list_elem_of_In, elem_of_upto. lia. }
      destruct (decide (j ∈ _)) as [Hr|Hr]; rewrite Hiff in Hr; destruct (decide (i < j <= sl)); try lia.
      destruct (decide (j = i)) as [->|]; [by rewrite vget_vset_eq by lia|]. by rewrite vget_vset_ne by lia. }
    exists (fun j => if decide (i < j <= sl) then c + j else if decide (j = i) then q i - 1 else q j). split; [|split; [|split]].
    + intros j Hj. rewrite Hr' by lia. destruct (decide _); [lia|]. destruct (decide _); [lia|done].
    + intros j Hj. unfold pair_at. rewrite Hr' by lia. destruct (decide (i < j <= sl)) as [Hj2|]; [|destruct (decide (j = i)) as [->|]; [|rewrite Hl by lia; apply Hd; lia]].
      * destruct Hpiv as [|Hpiv]; [lia|]. pose proof (Hlo i ltac:(lia)). pose proof (Hlo j ltac:(lia)). pose proof (Z.div_mod pivot 2 ltac:(lia)). pose proof (Z.mod_pos_bound pivot 2 ltac:(lia)).
        pose proof (q_mono j sl ltac:(lia) ltac:(lia) ltac:(lia)). pose proof (q_range j ltac:(lia)). pose proof (q_range (n - 1) ltac:(lia)).
        rewrite wrap_small by (unfold in_width; lia). symmetry. apply Z.div_unique_pos with (pivot mod 2); lia.
      * symmetry. apply Z.div_unique_pos with 0; lia.
    + intros j Hj. pose proof (Hlo j Hj). destruct (decide _); [lia|]. destruct (decide (j = i)) as [->|]; lia.
    + intros j Hj. pose proof (Hlo i ltac:(lia)). destruct (decide (i < j <= sl)), (decide (i < j + 1 <= sl)); try lia.
      * destruct (decide (j = i)) as [->|]; lia.
      * destruct (decide (j = i)) as [->|]; [lia|]. destruct (decide (j + 1 = i)) as [E|]; [|apply Hpairs; lia]. replace (i - 1) with j in Hc by lia. lia.
  - clear Ef. rewrite !Hl by lia. pose proof (q_range 0 ltac:(lia)) as Hq.
    assert (exists x, (if 2 * q 0 <? 2 then l else vset l 0 (wrap 32 (2 * q 0 - 2))) = vset l 0 (2 * x) /\ 0 <= x <= q 0) as (x & -> & Hx).
    { destruct (Z.ltb_spec (2 * q 0) 2); [exists (q 0)|exists (q 0 - 1)].
      - split; [|lia]. rewrite <- Hl by lia. unfold vset, vget. symmetry. apply list_insert_id. destruct (lookup_lt_is_Some_2 l (Z.to_nat 0) ltac:(lia)) as [y Ey]. by rewrite (nth_lookup_Some _ _ 0 _ Ey).
      - split; [|lia]. rewrite wrap_small by (unfold in_width; lia). f_equal. lia. }
    assert (forall j, 0 <= j < n -> vget 0 (vset l 0 (2 * x)) j = if decide (j = 0) then 2 * x else vget 0 l j) as Hr'.
    { intros j Hj. destruct (decide (j = 0)) as [->|]; [by rewrite vget_vset_eq by lia|by rewrite vget_vset_ne by lia]. }
    exists (fun j => if decide (j = 0) then x else q j). split; [|split; [|split]].
    + intros j Hj. rewrite Hr' by lia. destruct (decide _); [lia|done].
    + intros j Hj. unfold pair_at. rewrite Hr' by lia. destruct (decide _); [rewrite Z.mul_comm, Z.div_mul by lia; done|]. rewrite Hl by lia. apply Hd. lia.
    + intros j Hj. pose proof (Hlo j Hj). destruct (decide _) as [->|]; lia.
    + intros j Hj. destruct (decide (j + 1 = 0)); [lia|]. pose proof (Hpairs j ltac:(lia)). destruct (decide (j = 0)) as [->|]; [|done]. change (0 + 1) with 1 in *. lia.
Qed.
End moves.

Lemma pair_at_map l j : pair_at l j = vget 0 (map (fun i => i / 2) l) j.
Proof. unfold pair_at, vget. change 0 with (0 / 2) at 2. symmetry. apply (map_nth (fun i => i / 2)). Qed.

Lemma pair_at_eq l l' j : map (fun i => i / 2) l = map (fun i => i / 2) l' -> pair_at l j = pair_at l' j.
Proof. intros E. by rewrite !pair_at_map, E. Qed.

(** The invariant is about the pairs. *)
Lemma window_pairs c fd l k : window_ok c fd -> map (fun i => i / 2) l = map (fun i => i / 2) (f_a_factors fd) -> Forall (in_width 32) l -> window_ok c (set_walk fd l k).
Proof.
  intros [W1 W2 W3 W4 W5 W6 W7] E HF. assert (length l = length (f_a_factors fd)) as EL by (rewrite <- (length_map (fun i => i / 2) l), E; apply length_map).
  constructor; cbn [set_walk f_a_factors f_lowerHalfStart f_upperHalfStart]; rewrite ?EL; try done.
  - pose proof (vget_words l 0 HF ltac:(lia)) as Hw. unfold in_width in Hw. lia.
  - intros j Hj. rewrite !(pair_at_eq l _ _ E). by apply W3.
  - intros j Hj. rewrite !(pair_at_eq l _ _ E). by apply W4.
  - intros j Hj. rewrite !(pair_at_eq l _ _ E). by apply W5.
  - intros j Hj. rewrite !(pair_at_eq l _ _ E). by apply W6.
Qed.

Lemma vget_reset l j : 0 <= j < Z.of_nat (length l) -> vget 0 (reset_parities l) j = 2 * pair_at l j.
Proof.
  intros Hj. rewrite reset_parities_pairs. unfold pair_at, vget. change 0 with (2 * (0 / 2)) at 1. apply (map_nth (fun i => 2 * (i / 2))).
Qed.

Lemma last_pair_nonneg l : Forall (in_width 32) l -> 0 < Z.of_nat (length l) -> 0 <= pair_at l 0.
Proof. intros HF Hl. pose proof (vget_words l 0 HF ltac:(lia)) as Hw. unfold in_width, pair_at in *. apply Z.div_pos; lia. Qed.

(** A slide keeps the invariant, and moves the last pair by at most one. *)
Lemma window_slide c fd : window_ok c fd -> Forall (in_width 32) (f_a_factors fd) ->
  let n := Z.of_nat (length (f_a_factors fd)) in
  pair_at (f_a_factors fd) (n - 1) < 2 ^ 30 - 1 ->
  exists s, slide_window fd = Some s /\ window_ok c s /\ Forall (in_width 32) (f_a_factors s) /\ Z.of_nat (length (f_a_factors s)) = n /\
    pair_at (f_a_factors s) (n - 1) <= pair_at (f_a_factors fd) (n - 1) + 1.
Proof.
  intros [W1 W2 W3 W4 W5 W6 W7] HF n Hb. fold n in W1, W3, W4, W5, W6, W7. set (l := f_a_factors fd) in *. destruct (half_range n ltac:(lia)) as (H1 & H2 & H3 & H4).
  destruct (slide_some l (f_upperHalfStart fd) (f_lowerHalfStart fd) ltac:(fold n; lia) HF) as (E & _ & _). fold n in E.
  pose proof (last_pair_nonneg l HF ltac:(fold n; lia)) as Hq0. assert (Z.of_nat (length (reset_parities l)) = n) as LR by (unfold reset_parities; by rewrite length_map).
  pose proof (q_mono (pair_at l) n W3) as Hmono. pose proof (q_range (pair_at l) n Hq0 W3 Hb) as Hrange.
  assert (0 <= c + lower_half n < 2 ^ 30) as Hc.
  { pose proof (W4 (lower_half n) ltac:(lia)). pose proof (Hrange (lower_half n) ltac:(lia)). pose proof (W6 (upper_half n) ltac:(lia)). pose proof (Hrange (upper_half n) ltac:(lia)). lia. }
  assert (n <= 5 \/ to_signed 32 (f_upperHalfStart fd) / 2 = c + upper_half n) as Hpu.
  { destruct W7 as [|[_ Eu]]; [by left|]. right. pose proof (W6 (upper_half n) ltac:(lia)). pose proof (Hrange (upper_half n) ltac:(lia)).
    pose proof (Z.div_mod (f_upperHalfStart fd) 2 ltac:(lia)). pose proof (Z.mod_pos_bound (f_upperHalfStart fd) 2 ltac:(lia)). by rewrite signed_small by lia. }
  assert (n <= 5 \/ to_signed 32 (f_lowerHalfStart fd) / 2 = c + lower_half n) as Hpl.
  { destruct W7 as [|[El _]]; [by left|]. right. pose proof (Z.div_mod (f_lowerHalfStart fd) 2 ltac:(lia)). pose proof (Z.mod_pos_bound (f_lowerHalfStart fd) 2 ltac:(lia)). by rewrite signed_small by lia. }
  destruct (advance_right_pairs (pair_at l) n c ltac:(lia) Hq0 W3 Hb (reset_parities l) (to_signed 32 (f_upperHalfStart fd)) LR) as (R1 & R2 & R3 & R4 & R5 & R6);
    [intros j Hj; apply vget_reset; fold n; lia|done|done|done|done|].
  set (r := advance_right _ _ _ _) in *.
  destruct (advance_left_pairs (pair_at l) n c ltac:(lia) Hq0 W3 Hb r (to_signed 32 (f_lowerHalfStart fd)) R1) as (L1 & L2 & L3 & L4 & L5 & L6 & L7);
    [intros j Hj; apply R2; lia|done|done|lia|done|].
  set (s := advance_left _ _ _ _) in *. unfold slide_window. fold l. rewrite E. cbn [mbind option_bind]. eexists. split; [reflexivity|]. cbn [set_walk f_a_factors].
  assert (forall j, lower_half n < j < n -> pair_at s j = pair_at r j) as Es by (intros j Hj; unfold pair_at; by rewrite L2).
  split; [|split; [done|split; [done|]]].
  2:{ rewrite Es by lia. done. }
  constructor; cbn [set_walk f_a_factors f_lowerHalfStart f_upperHalfStart]; rewrite ?L1; try done.
  - intros j Hj. destruct (Z.ltb_spec j (lower_half n)); [apply L4; lia|]. rewrite (Es (j + 1)) by lia. destruct (Z.eq_dec j (lower_half n)) as [->|]; [|rewrite Es by lia; apply R4; lia].
    destruct (Z.ltb_spec (lower_half n + 1) (upper_half n)).
    + unfold pair_at at 2. rewrite R2 by lia. rewrite Z.mul_comm, Z.div_mul by lia. rewrite W5 by lia. lia.
    + replace (lower_half n + 1) with (upper_half n) by lia. pose proof (R3 (upper_half n) ltac:(lia)). lia.
  - intros j Hj. rewrite Es by lia. unfold pair_at. rewrite R2 by lia. rewrite Z.mul_comm, Z.div_mul by lia. by apply W5.
  - intros j Hj. rewrite Es by lia. by apply R3.
Qed.

Lemma window_next c fd : window_ok c fd -> Forall (in_width 32) (f_a_factors fd) ->
  let n := Z.of_nat (length (f_a_factors fd)) in
  pair_at (f_a_factors fd) (n - 1) < 2 ^ 30 - 1 ->
  exists s, next_state fd = Some s /\ window_ok c s /\ Forall (in_width 32) (f_a_factors s) /\ Z.of_nat (length (f_a_factors s)) = n /\
    pair_at (f_a_factors s) (n - 1) <= pair_at (f_a_factors fd) (n - 1) + 1.
Proof.
  intros W HF n Hb. unfold next_state. destruct (_ <? _); [|by apply window_slide]. destruct (flip_pairs (f_a_factors fd) (advanceGray (f_current_a_index fd)) HF) as (E & F & L).
  eexists. split; [reflexivity|]. split; [by apply window_pairs|]. cbn [set_walk f_a_factors]. split; [done|]. split; [by rewrite L|]. rewrite (pair_at_eq _ _ _ E). lia.
Qed.

Lemma window_position c fd g : window_ok c fd -> Forall (in_width 32) (f_a_factors fd) ->
  let n := Z.of_nat (length (f_a_factors fd)) in
  pair_at (f_a_factors fd) (n - 1) + Z.of_nat g < 2 ^ 30 ->
  exists p, position g fd = Some p /\ window_ok c p /\ Forall (in_width 32) (f_a_factors p) /\ Z.of_nat (length (f_a_factors p)) = n /\
    pair_at (f_a_factors p) (n - 1) <= pair_at (f_a_factors fd) (n - 1) + Z.of_nat g.
Proof.
  intros W HF n. induction g as [|g IH]; intros Hb.
  - exists fd. split; [done|]. split; [done|]. split; [done|]. split; [done|lia].
  - destruct IH as (p & E & Wp & Fp & Lp & Bp); [lia|]. cbn [position]. rewrite E. cbn [mbind option_bind].
    destruct (window_next c p Wp Fp) as (s & Es & Ws & Fs & Ls & Bs); [rewrite Lp; lia|]. rewrite Lp in *. exists s. split; [done|]. split; [done|]. split; [done|]. split; [done|lia].
Qed.

Lemma window_distinct c fd : window_ok c fd -> NoDup (f_a_factors fd).
Proof.
  intros W. apply NoDup_alt. intros i j x Ei Ej. pose proof (lookup_lt_Some _ _ _ Ei). pose proof (lookup_lt_Some _ _ _ Ej).
  assert (pair_at (f_a_factors fd) (Z.of_nat i) = pair_at (f_a_factors fd) (Z.of_nat j)) as E.
  { unfold pair_at, vget. rewrite !Nat2Z.id. by rewrite (nth_lookup_Some _ _ 0 _ Ei), (nth_lookup_Some _ _ 0 _ Ej). }
  destruct (Nat.lt_trichotomy i j) as [Hij|[|Hij]]; [|done|].
  - pose proof (q_mono _ _ (wi_pairs c fd W) (Z.of_nat i) (Z.of_nat j) ltac:(lia) ltac:(lia) ltac:(lia)). lia.
  - pose proof (q_mono _ _ (wi_pairs c fd W) (Z.of_nat j) (Z.of_nat i) ltac:(lia) ltac:(lia) ltac:(lia)). lia.
Qed.

(** ** Lemmas: the first factors *)

Lemma window_product_head fb lower n : 0 < n -> window_product fb lower n = vget 0 fb lower * window_product fb (lower + 2) (n - 1).
Proof.
  intros Hn. unfold window_product. replace n with (1 + (n - 1)) at 1 by lia. rewrite zprod_upto_add by lia. rewrite (zprod_upto_S 0), zprod_upto_0, Z.mul_1_l by lia. f_equal; [f_equal; lia|].
  apply zprod_upto_ext. intros i Hi. f_equal. lia.
Qed.

Section init_window.
Context (fb : list Z) (Hfb : Forall (fun p => 2 < p < 2 ^ 31) fb) (Hlen : Z.of_nat (length fb) < 2 ^ 31).
Context (T : uint512) (HT : u512_ok T) (HT1 : 1 <= u512_val T) (HT2 : u512_val T < 2 ^ 470).
Notation size := (Z.of_nat (length fb)).
Notation U := (upper_bound T).

Lemma upper_bound_spec : u512_ok U /\ u512_val U = u512_val T * 100 / 95.
Proof using HT HT2.
  clear - HT HT2. unfold upper_bound. destruct (mult_uint32_spec T 100 HT ltac:(done)) as [H1 E1]. destruct (div_uint32_inplace_spec _ 95 H1 ltac:(lia)) as (H2 & E2 & _).
  split; [done|]. rewrite E2, E1, wrap_small; [done|]. pose proof (u512_bound T HT). unfold in_width. change (2 ^ 512) with (2 ^ 470 * 2 ^ 42). lia.
Qed.

Lemma fb_range i : 0 <= i < size -> 2 < vget 0 fb i < 2 ^ 31.
Proof using Hfb. clear - Hfb. intros Hi. rewrite Forall_forall in Hfb. apply Hfb. unfold vget. apply list_elem_of_In, nth_In. lia. Qed.

Lemma loop_grow product upper lower : loop_ok fb T product upper lower -> u512_val product < u512_val T -> upper < size ->
  loop_ok fb T (mult_uint32 product (vget 0 fb upper)) (upper + 2) lower.
Proof using Hfb HT2.
  pose proof fb_range as fb_range. clear - HT2 fb_range. intros [O V B [E1 E2] [L1 L2]] Hlt Hu. pose proof (fb_range upper ltac:(lia)) as Hp. destruct (mult_uint32_spec product (vget 0 fb upper) O) as [Om Vm]; [unfold in_width; lia|].
  pose proof (u512_bound product O) as Hb. rewrite wrap_small in Vm by (unfold in_width; change (2 ^ 512) with (2 ^ 470 * 2 ^ 42); nia).
  pose proof (Z.div_mod upper 2 ltac:(lia)). pose proof (Z.div_mod lower 2 ltac:(lia)).
  assert ((upper - lower) / 2 = upper / 2 - lower / 2) as Ed by (symmetry; apply Z.div_unique_pos with 0; lia).
  assert ((upper + 2 - lower) / 2 = upper / 2 - lower / 2 + 1) as Ed2 by (symmetry; apply Z.div_unique_pos with 0; lia).
  constructor; [done| |rewrite Vm; nia| |lia].
  - rewrite Vm, V, Ed, Ed2. unfold window_product. rewrite zprod_upto_S by lia. do 2 f_equal. lia.
  - split; [done|]. rewrite <- E2. symmetry. rewrite <- (Z.mod_add upper 1 2) by lia. f_equal.
Qed.

Lemma loop_shrink product upper lower : loop_ok fb T product upper lower -> u512_val U < u512_val product ->
  loop_ok fb T (div_uint32_inplace product (vget 0 fb lower)).1 upper (lower + 2).
Proof using Hfb HT HT1 HT2.
  intros [O V B [E1 E2] [L1 L2]] Hlt. destruct upper_bound_spec as [_ EU]. pose proof (Z.div_mod upper 2 ltac:(lia)). pose proof (Z.div_mod lower 2 ltac:(lia)).
  assert ((upper - lower) / 2 = upper / 2 - lower / 2) as Ed by (symmetry; apply Z.div_unique_pos with 0; lia).
  assert (1 <= u512_val U) by (rewrite EU; apply Z.div_le_lower_bound; lia).
  assert (lower < upper) as Hlu.
  { destruct (Z.eq_dec lower upper) as [->|]; [|lia]. rewrite Z.sub_diag in V. change (0 / 2) with 0 in V. change (window_product fb upper 0) with 1 in V. lia. }
  pose proof (fb_range lower ltac:(lia)) as Hp. destruct (div_uint32_inplace_spec product (vget 0 fb lower) O ltac:(lia)) as (Od & Vd & _).
  assert ((upper - (lower + 2)) / 2 = upper / 2 - lower / 2 - 1) as Ed2 by (symmetry; apply Z.div_unique_pos with 0; lia).
  constructor; [done| | | |lia].
  - rewrite Vd, V, Ed, Ed2, window_product_head by lia. rewrite Z.mul_comm, Z.div_mul by lia. done.
  - rewrite Vd. pose proof (u512_bound product O). assert (u512_val product / vget 0 fb lower <= u512_val product) by (apply Z.div_le_upper_bound; nia). lia.
  - split; [|done]. rewrite <- E1. symmetry. rewrite <- (Z.mod_add lower 1 2) by lia. f_equal.
Qed.

Lemma search_loop_spec fuel : forall product upper lower, loop_ok fb T product upper lower -> (0 < fuel)%nat -> 2 * size + 2 < upper + lower + 2 * Z.of_nat fuel ->
  exists product' upper' lower', search_loop fuel fb T U product upper lower = Some (product', upper', lower') /\ loop_ok fb T product' upper' lower' /\
    ((u512_val T <= u512_val product' /\ u512_val product' <= u512_val U) \/ size <= upper').
Proof using Hfb HT HT1 HT2.
  induction fuel as [|f IH]; intros product upper lower HL Hpos Hf; [lia|]. cbn [search_loop]. destruct upper_bound_spec as [HU EU].
  unfold u512_gtb. rewrite !u512_ltb_spec by (done || apply HL).
  destruct (Z.ltb_spec (u512_val product) (u512_val T)) as [Hlt|Hge]; cbn [orb].
  - destruct (Z.leb_spec size upper); cbn [orb]; [exists product, upper, lower; split; [done|]; split; [done|by right]|].
    pose proof (lo_order _ _ _ _ _ HL) as Ho. destruct (Z.leb_spec size lower); [lia|]. pose proof (loop_grow _ _ _ HL Hlt ltac:(lia)) as HL'.
    set (p' := mult_uint32 product (vget 0 fb upper)) in *. rewrite u512_ltb_spec by (done || apply HL'). destruct (Z.ltb_spec (u512_val U) (u512_val p')).
    + apply IH; [by apply loop_shrink|lia|lia].
    + apply IH; [done|lia|lia].
  - destruct (Z.ltb_spec (u512_val U) (u512_val product)) as [Hgt|Hle]; [|exists product, upper, lower; split; [done|]; split; [done|left; lia]].
    destruct (Z.leb_spec size upper); cbn [orb]; [exists product, upper, lower; split; [done|]; split; [done|by right]|].
    pose proof (lo_order _ _ _ _ _ HL) as Ho. destruct (Z.leb_spec size lower); [lia|]. rewrite u512_ltb_spec by (done || apply HL). destruct (Z.ltb_spec (u512_val U) (u512_val product)); [|lia].
    apply IH; [by apply loop_shrink|lia|lia].
Qed.
End init_window.

(** A fresh window. *)
Lemma window_data_ok fd lower n : 2 <= n <= 31 -> 0 <= lower -> lower mod 2 = 0 -> lower + 2 * n < 2 ^ 31 ->
  let factors := map (fun i => wrap 32 (lower + 2 * i)) (upto n) in
  let s := window_data fd lower factors in
  window_ok (lower / 2) s /\ start_ok s /\ f_a_factors s = map (fun i => lower + 2 * i) (upto n) /\ pair_at (f_a_factors s) (n - 1) = lower / 2 + n - 1.
Proof.
  intros Hn Hl He Hb factors s. assert (factors = map (fun i => lower + 2 * i) (upto n)) as EF.
  { apply map_ext_in. intros i Hi%list_elem_of_In%elem_of_upto. apply wrap_small. unfold in_width. lia. }
  assert (Z.of_nat (length factors) = n) as EL by (rewrite EF, length_map, length_upto; lia).
  assert (f_a_factors s = factors) as Es by (unfold s, window_data; by destruct (_ =? 0)). assert (f_current_a_index s = 0) as Ec by (unfold s, window_data; by destruct (_ =? 0)).
  assert (f_max_a_index s = 2 ^ n) as Em.
  { transitivity (wrap 32 (Z.shiftl 1 n)); [unfold s, window_data; rewrite EL; destruct (n mod 2 =? 0); cbn [set_window f_max_a_index]; by rewrite EL|].
    rewrite Z.shiftl_1_l. apply wrap_small. unfold in_width. split; [apply Z.pow_nonneg; lia|apply Z.pow_lt_mono_r; lia]. }
  pose proof (Z.div_mod lower 2 ltac:(lia)) as Ed. assert (forall j, 0 <= j < n -> vget 0 factors j = lower + 2 * j) as Hg by (intros j Hj; rewrite EF; by apply (vget_map_upto 0 (fun i => lower + 2 * i))).
  assert (forall j, 0 <= j < n -> pair_at factors j = lower / 2 + j) as Hp.
  { intros j Hj. unfold pair_at. rewrite Hg by done. symmetry. apply Z.div_unique_pos with 0; lia. }
  destruct (half_range n ltac:(lia)) as (H1 & H2 & H3 & H4).
  split; [|split; [|split; [by rewrite Es|rewrite Es, Hp by lia; lia]]].
  - constructor; rewrite ?Es, ?EL; [lia|rewrite Hg by lia; lia| | | | |].
    + intros j Hj. rewrite !Hp by lia. lia.
    + intros j Hj. rewrite Hp by lia. lia.
    + intros j Hj. rewrite Hp by lia. lia.
    + intros j Hj. rewrite Hp by lia. lia.
    + right. unfold s, window_data. rewrite EL. unfold lower_half, upper_half. pose proof (Z.div_mod n 2 ltac:(lia)). pose proof (Z.mod_pos_bound n 2 ltac:(lia)).
      destruct (Z.eqb_spec (n mod 2) 0); cbn [set_window f_lowerHalfStart f_upperHalfStart]; rewrite !wrap_small by (unfold in_width; lia).
      * split; symmetry; apply Z.div_unique_pos with 0; lia.
      * assert ((n - 3) / 2 = n / 2 - 1) as -> by (symmetry; apply Z.div_unique_pos with 0; lia). assert ((n + 1) / 2 = n / 2 + 1) as -> by (symmetry; apply Z.div_unique_pos with 0; lia).
        split; symmetry; apply Z.div_unique_pos with 1; lia.
  - constructor; rewrite ?Es, ?EL; [done|lia|by rewrite Em|]. rewrite EF. apply Forall_map, Forall_forall. intros i Hi%elem_of_upto. unfold in_width. lia.
Qed.

Lemma map_position r b : 0 <= b -> (forall i, is_Some (position i r)) -> exists rs, Z.of_nat (length rs) = b /\ forall i s, rs !! i = Some s -> position i r = Some s.
Proof.
  intros Hb H. exists (map (fun i => default r (position i r)) (seq 0 (Z.to_nat b))). split; [rewrite length_map, length_seq; lia|]. intros i s E.
  rewrite list_lookup_fmap in E. apply fmap_Some in E as (k & Ek & ->). apply lookup_seq in Ek as [-> _]. cbn [Nat.add]. destruct (H i) as [x ->]. done.
Qed.

(** The rest of the invariant's consequences for a stretch of the walk: the indices stay inside the factor base. *)
Lemma window_range c fd n : window_ok c fd -> Forall (in_width 32) (f_a_factors fd) -> 2 * pair_at (f_a_factors fd) (Z.of_nat (length (f_a_factors fd)) - 1) + 1 < n ->
  Forall (fun i => 0 <= i < n) (f_a_factors fd).
Proof.
  intros W HF Hn. pose proof (wi_size _ _ W) as Hs. apply Forall_lookup. intros k x Ex. pose proof (lookup_lt_Some _ _ _ Ex) as Hk.
  rewrite Forall_lookup in HF. specialize (HF k x Ex). unfold in_width in HF. pose proof (q_mono _ _ (wi_pairs c fd W) (Z.of_nat k) (Z.of_nat (length (f_a_factors fd)) - 1) ltac:(lia) ltac:(lia) ltac:(lia)).
  assert (pair_at (f_a_factors fd) (Z.of_nat k) = x / 2) as E by (unfold pair_at, vget; by rewrite Nat2Z.id, (nth_lookup_Some _ _ 0 _ Ex)).
  pose proof (Z.div_mod x 2 ltac:(lia)). pose proof (Z.mod_pos_bound x 2 ltac:(lia)). lia.
Qed.

Lemma zprod_bound l m : 1 <= m -> Forall (fun x => 0 <= x <= m) l -> 0 <= zprod l <= m ^ Z.of_nat (length l).
Proof.
  intros Hm. induction 1 as [|x l Hx Hl IH]; [rewrite zprod_nil; cbn [length]; rewrite Z.pow_0_r; lia|]. rewrite zprod_cons. cbn [length]. rewrite Nat2Z.inj_succ, Z.pow_succ_r by lia. nia.
Qed.

Lemma position_fields g : forall fd p, position g fd = Some p -> f_N p = f_N fd /\ f_factorBase p = f_factorBase fd /\ f_rootN p = f_rootN fd.
Proof.
  induction g as [|g IH]; intros fd p E; cbn [position] in E; [by injection E as <-|]. apply bind_Some in E as (s & Es & E). destruct (IH fd s Es) as (<- & <- & <-).
  unfold next_state in E. destruct (_ <? _); [by injection E as <-|]. unfold slide_window in E. apply bind_Some in E as (bits & _ & E). by injection E as <-.
Qed.

Lemma coefficients_at_product fd s m : fb_ok (f_N fd) (f_factorBase fd) (f_rootN fd) -> coefficients_at fd s m ->
  0 <= zprod (map (vget 0 (f_factorBase fd)) (f_a_factors s)) <= m ^ Z.of_nat (length (f_a_factors fd)).
Proof.
  intros Hfb [_ HL HR _ [Hm1 Hm]]. rewrite <- HL. rewrite <- (length_map (vget 0 (f_factorBase fd)) (f_a_factors s)). apply zprod_bound; [done|]. apply Forall_map.
  rewrite Forall_forall in HR |- *. intros i Hi. specialize (HR i Hi). destruct (fb_get _ _ _ i Hfb HR) as (_ & Hp & _). split; [lia|].
  rewrite Forall_forall in Hm. apply Hm. unfold vget. apply list_elem_of_In, nth_In. lia.
Qed.

(** The kernel on the indices of a list of states. *)
Lemma generate_states fd states m : fb_ok (f_N fd) (f_factorBase fd) (f_rootN fd) -> 0 < Z.of_nat (length (f_a_factors fd)) <= 64 ->
  Forall (fun s => coefficients_at fd s m) states -> Z.of_nat (length (f_a_factors fd)) * m ^ Z.of_nat (length (f_a_factors fd)) < 2 ^ 512 ->
  forall shared, (forall s, Forall u512_ok (shared s) /\ Z.of_nat (length (shared s)) = 1 + reduction_dim (Z.of_nat (length (f_a_factors fd)))) ->
  generatePolynomialsKernel (Z.of_nat (length states)) (Z.of_nat (length (f_a_factors fd))) (concat (map f_a_factors states)) (f_factorBase fd) (f_rootN fd) shared
  = Some (map (fun s => f_a (recalc_a s)) states, concat (map (fun s => f_B_values (recalc_a s)) states)).
Proof.
  intros Hfb Hn HF Hprod shared Hsh. pose proof (generate_list fd (map f_a_factors states) (Z.of_nat (length (f_a_factors fd))) shared Hfb Hn) as H.
  rewrite length_map in H. rewrite H; [|apply Forall_map; eapply Forall_impl; [exact HF|]|done].
  - rewrite !map_map. f_equal. f_equal; [|f_equal]; apply map_ext_in; intros s Hs%list_elem_of_In; rewrite Forall_forall in HF; destruct (HF s Hs) as [(E1 & E2 & E3) _ _ _ _];
      unfold recalc_a; cbn [set_factors f_factorBase f_rootN f_a_factors]; rewrite E2, E3; by destruct (suffix_loop _ _).
  - intros s HC. pose proof (coefficients_at_product fd s m Hfb HC). pose proof HC as [_ HL HR HD _]. rewrite HL. split; [done|]. split; [done|]. split; [done|]. nia.
Qed.

(** The polynomials of a state. *)
Lemma coefficients_at_poly fd s m : fb_ok (f_N fd) (f_factorBase fd) (f_rootN fd) -> coefficients_at fd s m -> 0 < Z.of_nat (length (f_a_factors fd)) ->
  Z.of_nat (length (f_a_factors fd)) * m ^ Z.of_nat (length (f_a_factors fd)) < 2 ^ 512 ->
  NoDup (f_a_factors s) /\ let a := u512_val (f_a (recalc_a s)) in
  forall id x, let b := to_signed 512 (u512_val (bFromPolyId id (Z.of_nat (length (f_a_factors fd))) (f_B_values (recalc_a s)))) in (a * x + b) * (a * x + b) ≅{a} u512_val (f_N fd).
Proof.
  intros Hfb HC Hn Hprod. pose proof (coefficients_at_product fd s m Hfb HC) as HP. pose proof HC as [(E1 & E2 & E3) HL HR HD _]. split; [done|]. intros a id x b.
  rewrite <- E1, <- E2, <- E3 in Hfb. rewrite <- E2 in HP, HR. pose proof (recalc_a_spec s Hfb HR HD ltac:(nia)) as HK. cbv zeta in HK.
  assert (b = b_value id (map u512_val (f_B_values (recalc_a s)))) as ->.
  { unfold b. rewrite <- HL, <- (length_map (vget 0 (f_factorBase s)) (f_a_factors s)), <- (co_len _ _ _ _ HK). apply (signed_b_value _ _ _ _ id HK). rewrite length_map, HL. nia. }
  unfold a. rewrite (proj2 (co_a _ _ _ _ HK)). pose proof (ps_pos _ _ _ Hfb _ HR). rewrite <- E1.
  assert (zprod (map (vget 0 (f_factorBase s)) (f_a_factors s)) * x + b_value id (map u512_val (f_B_values (recalc_a s))) ≅{zprod (map (vget 0 (f_factorBase s)) (f_a_factors s))} b_value id (map u512_val (f_B_values (recalc_a s)))) as ->.
  { apply cong_divide; [lia|]. exists x. ring. }
  apply (b_square _ _ _ _ _ HK); [by eapply ps_prime|by eapply ps_distinct].
Qed.

(** ** Corner cases of the walk *)

(** With 150 primes or fewer the search takes no factor at all; the code then reads [factorBase[150]] and writes [result[0]]. *)
Lemma short_factor_base_empty : f_a_factors <$> init_a_factors (corner_data 150 [] 0 0) = Some [].
Proof. by vm_compute. Qed.

(** The orchestrator's small-N selection takes both pivots from the highest factor: with six factors the second slide repeats indices. *)
Lemma small_pivots_repeat : f_a_factors <$> slides 2 64 (corner_data 160 [50; 52; 54; 56; 58; 60] 60 62) = Some [48; 50; 60; 62; 60; 62].
Proof. by vm_compute. Qed.

(** The slides of seven factors: the fourth moves both ends again and leaves the inner indices where they are. *)
Lemma seven_factor_slides :
  map (fun n => f_a_factors <$> slides n 128 (corner_data 160 [150; 152; 154; 156; 158; 160; 162] 155 159)) [1; 2; 3; 4]%nat
  = [Some [148; 152; 154; 156; 158; 160; 164]; Some [148; 150; 155; 156; 159; 162; 164];
     Some [148; 150; 152; 156; 160; 162; 164]; Some [146; 150; 152; 156; 160; 162; 166]].
Proof. by vm_compute. Qed.

(** ** Properties *)

(** C16. A worker's share of the walk. Jumping to position [g] - slides for whole hypercubes, Gray steps for the rest - leaves exactly
    the state that [g] single steps from the snapshot reach, with its coefficients; and a batch prepared there lists the factors of
    the positions [g, g + 1, ...]. Disjoint ranges of positions are disjoint stretches of one walk. *)
Theorem worker_walk_exact fd0 fd g b :
  start_ok fd0 -> same_problem fd fd0 -> 0 < g < 2 ^ 64 -> 0 <= b ->
  exists r p states e,
    position (Z.to_nat g) fd0 = Some p /\ resetAndAdvanceTo (saveSnapshot fd0) g fd = Some r /\ r = recalc_a p /\
    Z.of_nat (length states) = b /\ (forall i s, states !! i = Some s -> position (Z.to_nat g + i) fd0 = Some s) /\
    prepareNextBatchIndices r b = Some (concat (map f_a_factors states), e) /\ erase <$> position (Z.to_nat (g + b)) fd0 = Some (erase e).
Proof.
  intros Hs Hp Hg Hb. destruct (reset_spec fd0 fd g Hs Hp ltac:(lia)) as (r & p & Er & Ep & Ee & Hr). specialize (Hr ltac:(lia)).
  destruct (stretch fd0 (Z.to_nat b) Hs (Z.to_nat g)) as (states & HL & Hst).
  assert (forall i, is_Some (position i r) /\ erase <$> position i r = erase <$> position (Z.to_nat g + i) fd0) as Hpos.
  { intros i. pose proof (erase_position r p i Ee) as E. destruct (position_some fd0 (Z.to_nat g + i) Hs) as [q Eq]. pose proof Eq as Eq'. rewrite Nat.add_comm, position_add, Ep in Eq'. cbn [mbind option_bind] in Eq'.
    rewrite Eq' in E. rewrite Eq. destruct (position i r) as [x|]; [|done]. split; [by eexists|done]. }
  destruct (map_position r b Hb (fun i => proj1 (Hpos i))) as (rs & Lrs & Hrs).
  destruct (prepare_spec r b rs Lrs Hrs (proj1 (Hpos _))) as (e & Ee1 & Ee2).
  exists r, p, states, e. split; [done|]. split; [done|]. split; [done|]. split; [lia|]. split; [done|]. split.
  - rewrite Ee2. do 2 f_equal. f_equal. apply list_eq. intros i. rewrite !list_lookup_fmap. destruct (rs !! i) as [x|] eqn:Ex, (states !! i) as [y|] eqn:Ey; cbn.
    + pose proof (proj2 (Hpos i)) as E. rewrite (Hrs i x Ex), (Hst i y Ey) in E. apply (inj Some) in E. f_equal. exact (proj1 (erase_fields _ _ E)).
    + apply lookup_ge_None in Ey. apply lookup_lt_Some in Ex. lia.
    + apply lookup_ge_None in Ex. apply lookup_lt_Some in Ey. lia.
    + done.
  - pose proof (proj2 (Hpos (Z.to_nat b))) as E. replace (Z.to_nat (g + b)) with (Z.to_nat g + Z.to_nat b)%nat by lia. rewrite <- E. replace (Z.to_nat b) with (length rs) by lia. by rewrite Ee1.
Qed.

(** A window of five factors from index 8 on. *)
Lemma small_window_ok : window_ok 4 (window_data small_data 8 [8; 10; 12; 14; 16]) /\ start_ok (window_data small_data 8 [8; 10; 12; 14; 16]).
Proof. destruct (window_data_ok small_data 8 5) as (H1 & H2 & _); [lia|lia|done|lia|]. by split. Qed.

Lemma worker_walk_exact_witness :
  let fd0 := window_data small_data 8 [8; 10; 12; 14; 16] in
  exists r p, position 37 fd0 = Some p /\ resetAndAdvanceTo (saveSnapshot fd0) 37 fd0 = Some r /\ r = recalc_a p.
Proof.
  destruct (worker_walk_exact (window_data small_data 8 [8; 10; 12; 14; 16]) (window_data small_data 8 [8; 10; 12; 14; 16]) 37 3) as (r & p & _ & _ & H1 & H2 & H3 & _).
  - exact (proj2 small_window_ok).
  - reflexivity.
  - lia.
  - lia.
  - exists r, p. split; [exact H1|]. split; [exact H2|exact H3].
Defined.

(** A hypercube visits every coefficient once. Between two slides, the walk takes every choice of one index from each pair of
    neighbours at exactly one of its positions. *)
Theorem hypercube_exact fd t :
  start_ok fd -> Forall (in_width 32) t -> map (fun i => i / 2) t = map (fun i => i / 2) (f_a_factors fd) ->
  exists k, 0 <= k < f_max_a_index fd /\ (f_a_factors <$> position (Z.to_nat k) fd) = Some t /\
    forall k', 0 <= k' < f_max_a_index fd -> (f_a_factors <$> position (Z.to_nat k') fd) = Some t -> k' = k.
Proof.
  intros Hs Ht E. pose proof Hs as [_ HS HM HW]. destruct (flips_exact (f_a_factors fd) t HW Ht ltac:(lia) E) as (k & Hk & Ek & Hu). rewrite <- HM in Hk, Hu.
  assert (forall k, 0 <= k < f_max_a_index fd -> f_a_factors <$> position (Z.to_nat k) fd = Some (flips (f_a_factors fd) k)) as Hp.
  { intros i Hi. rewrite position_flips by (done || lia). cbn. by rewrite Z2Nat.id by lia. }
  exists k. split; [done|]. split; [by rewrite Hp, Ek|]. intros k' Hk' E'. rewrite Hp in E' by done. injection E' as E'. by apply Hu.
Qed.

Lemma hypercube_exact_witness :
  exists k, 0 <= k < 32 /\ (f_a_factors <$> position (Z.to_nat k) (window_data small_data 8 [8; 10; 12; 14; 16])) = Some [9; 10; 13; 14; 17].
Proof.
  destruct (hypercube_exact (window_data small_data 8 [8; 10; 12; 14; 16]) [9; 10; 13; 14; 17] (proj2 small_window_ok)) as (k & H1 & H2 & _).
  - repeat constructor; reflexivity || (apply (bool_decide_unpack _); reflexivity).
  - reflexivity.
  - exists k. split; [exact H1|exact H2].
Defined.

(** The choice of the first factors. The search ends, its indices lie in the factor base, and their product is in the band above
    the target unless the search has run to the end of the factor base; the window it leaves satisfies the walk's invariant. *)
Theorem init_a_factors_exact fd :
  let fb := f_factorBase fd in
  Forall (fun p => 2 < p < 2 ^ 31) fb -> Z.of_nat (length fb) < 2 ^ 30 -> u512_ok (f_a_target fd) -> 1 <= u512_val (f_a_target fd) < 2 ^ 470 ->
  exists s lower n, init_a_factors fd = Some s /\ f_a_factors s = map (fun i => lower + 2 * i) (upto n) /\ 150 <= lower /\
    Forall (fun i => i < Z.of_nat (length fb)) (f_a_factors s) /\
    (u512_val (f_a_target fd) <= zprod (map (vget 0 fb) (f_a_factors s)) <= u512_val (f_a_target fd) * 100 / 95 \/ Z.of_nat (length fb) <= lower + 2 * n) /\
    (2 <= n <= 31 -> window_ok (lower / 2) s /\ start_ok s).
Proof.
  intros fb Hfb Hlen HT [HT1 HT2]. unfold init_a_factors. fold fb.
  destruct (search_loop_spec fb Hfb (f_a_target fd) HT HT1 HT2 (S (2 * length fb)) (u512_of_u32 1) 150 150) as (product & upper & lower & E & [O V B [E1 E2] Ho] & Hexit).
  { destruct (u512_of_u32_spec 1 ltac:(done)) as [O1 V1]. constructor; [done|done|rewrite V1; lia|done|lia]. }
  { lia. }
  { lia. }
  rewrite E. cbn [mbind option_bind]. set (n := (upper - lower) / 2) in *. pose proof (Z.div_mod upper 2 ltac:(lia)). pose proof (Z.div_mod lower 2 ltac:(lia)).
  assert (n = upper / 2 - lower / 2) as En by (symmetry; apply Z.div_unique_pos with 0; lia). rewrite (wrap_small 32 (upper - lower)) by (unfold in_width; lia). fold n.
  set (factors := map _ _). assert (factors = map (fun i => lower + 2 * i) (upto n)) as EF.
  { apply map_ext_in. intros i Hi%list_elem_of_In%elem_of_upto. apply wrap_small. unfold in_width. lia. }
  set (s := window_data fd lower factors). assert (f_a_factors s = factors) as Es by (unfold s, window_data; by destruct (_ =? 0)).
  assert (f_a_factors (recalc_a s) = factors) as Er by (destruct (recalc_a_set s) as (a & B' & ->); exact Es).
  exists (recalc_a s), lower, n. split; [done|]. rewrite Er. split; [done|]. split; [lia|]. split; [|split].
  - rewrite EF. apply Forall_map, Forall_forall. intros i Hi%elem_of_upto. lia.
  - destruct Hexit as [[H1 H2]|H1]; [left|right; lia].
    assert (zprod (map (vget 0 fb) factors) = u512_val product) as ->; [|rewrite <- (proj2 (upper_bound_spec _ HT HT2)); lia].
    rewrite V, EF, map_map. done.
  - intros Hn. destruct (window_data_ok fd lower n Hn ltac:(lia) E1 ltac:(lia)) as (W & S & _). fold factors in W, S. fold s in W, S.
    destruct (recalc_a_set s) as (a & B' & ->). split; [by destruct W as [W1 W2 W3 W4 W5 W6 W7]; constructor|by destruct S as [S1 S2 S3 S4]; constructor].
Qed.

Lemma init_a_factors_exact_witness :
  let fd := mkFactoringData (u512_of_Z 120) (u512_of_Z 1000000) u512_zero [] (replicate 160 1009) (replicate 160 1) [] 0 0 0 0 16 20 160 in
  exists s lower n, init_a_factors fd = Some s /\ f_a_factors s = map (fun i => lower + 2 * i) (upto n).
Proof.
  destruct (init_a_factors_exact (mkFactoringData (u512_of_Z 120) (u512_of_Z 1000000) u512_zero [] (replicate 160 1009) (replicate 160 1) [] 0 0 0 0 16 20 160)) as (s & lower & n & H1 & H2 & _).
  - apply Forall_replicate. lia.
  - reflexivity.
  - apply u512_of_Z_spec.
  - vm_compute. split; [discriminate|reflexivity].
  - exists s, lower, n. split; [exact H1|exact H2].
Defined.

(** C12. A batch of polynomials. From a window that satisfies the invariant, in a factor base that reaches far enough, the prepared
    batch makes the device generate, for every position, the coefficients of the host: distinct primes, and (a x + b)^2 = N modulo [a] for
    every polynomial identifier and every [x]. *)
Theorem batch_polynomials_exact fd c batch m shared :
  let fb := f_factorBase fd in
  let n := Z.of_nat (length (f_a_factors fd)) in
  start_ok fd -> window_ok c fd -> fb_ok (f_N fd) fb (f_rootN fd) -> 0 <= batch ->
  2 * (pair_at (f_a_factors fd) (n - 1) + batch) + 1 < Z.of_nat (length fb) < 2 ^ 30 ->
  Forall (fun p => p <= m) fb -> n * m ^ n < 2 ^ 512 ->
  (forall s, Forall u512_ok (shared s) /\ Z.of_nat (length (shared s)) = 1 + reduction_dim n) ->
  exists indices e states,
    prepareNextBatchIndices fd batch = Some (indices, e) /\ Z.of_nat (length states) = batch /\ (forall i s, states !! i = Some s -> position i fd = Some s) /\
    generatePolynomialsKernel batch n indices fb (f_rootN fd) shared = Some (map (fun s => f_a (recalc_a s)) states, concat (map (fun s => f_B_values (recalc_a s)) states)) /\
    Forall (fun s => NoDup (f_a_factors s) /\
      let a := u512_val (f_a (recalc_a s)) in
      forall id x, let b := to_signed 512 (u512_val (bFromPolyId id n (f_B_values (recalc_a s)))) in (a * x + b) * (a * x + b) ≅{a} u512_val (f_N fd)) states.
Proof.
  intros fb n Hs W Hfb Hb Hlen Hm Hprod Hsh. pose proof (wi_size _ _ W) as Hsz. fold n in Hsz.
  assert (0 <= pair_at (f_a_factors fd) (n - 1)) as Hq.
  { pose proof (last_pair_nonneg _ (so_words _ Hs) ltac:(fold n; lia)). pose proof (q_mono _ _ (wi_pairs _ _ W) 0 (n - 1) ltac:(lia) ltac:(lia) ltac:(fold n; lia)). lia. }
  assert (1 <= m) as Hm1.
  { destruct (fb_get _ _ _ 0 Hfb ltac:(fold fb; lia)) as (_ & Hp & _). fold fb in Hp. destruct (lookup_lt_is_Some_2 fb 0%nat ltac:(lia)) as [p Ep].
    rewrite Forall_lookup in Hm. specialize (Hm 0%nat p Ep). assert (vget 0 fb 0 = p) as <- by exact (nth_lookup_Some fb 0%nat 0 p Ep). lia. }
  destruct (map_position fd batch Hb (fun i => position_some fd i Hs)) as (states & HL & Hst).
  destruct (prepare_spec fd batch states HL Hst (position_some fd _ Hs)) as (e & _ & Ep).
  assert (Forall (fun s => coefficients_at fd s m) states) as HG.
  { apply Forall_lookup. intros i s Es. pose proof (lookup_lt_Some _ _ _ Es). specialize (Hst i s Es). destruct (window_position c fd i W (so_words _ Hs)) as (p & Ep' & Wp & Fp & Lp & Bp); [fold n; lia|].
    rewrite Hst in Ep'. injection Ep' as <-. destruct (position_fields i fd s Hst) as (F1 & F2 & F3).
    pose proof (window_range c s (Z.of_nat (length fb)) Wp Fp ltac:(rewrite Lp; fold n in Bp |- *; lia)) as HR. constructor; [done|lia|done|by apply (window_distinct c)|done]. }
  exists (concat (map f_a_factors states)), e, states. split; [done|]. split; [done|]. split; [done|]. split.
  - rewrite <- HL. apply (generate_states fd states m); [done|fold n; lia|done|done|done].
  - eapply Forall_impl; [exact HG|]. intros s HC. apply (coefficients_at_poly fd s m); [done|done|fold n; lia|done].
Qed.

(** Eight primes and the roots of 6374 modulo them. *)
Lemma eight_fb_ok : fb_ok (u512_of_Z 6374) [5; 7; 11; 13; 17; 19; 23; 29] [2; 2; 4; 2; 4; 3; 7; 9].
Proof. apply fb_ok_decide; [by vm_compute|done|by apply (bool_decide_unpack _); vm_compute|repeat constructor; vm_compute; done]. Qed.

Lemma batch_polynomials_exact_witness :
  let fd := window_data (mkFactoringData (u512_of_Z 6374) u512_zero u512_zero [] [5; 7; 11; 13; 17; 19; 23; 29] [2; 2; 4; 2; 4; 3; 7; 9] [] 0 0 0 0 16 20 8) 0 [0; 2] in
  exists indices e states, prepareNextBatchIndices fd 2 = Some (indices, e) /\ Z.of_nat (length states) = 2 /\
    Forall (fun s => NoDup (f_a_factors s) /\
      let a := u512_val (f_a (recalc_a s)) in
      forall id x, let b := to_signed 512 (u512_val (bFromPolyId id 2 (f_B_values (recalc_a s)))) in (a * x + b) * (a * x + b) ≅{a} u512_val (u512_of_Z 6374)) states.
Proof.
  set (fd0 := mkFactoringData (u512_of_Z 6374) u512_zero u512_zero [] [5; 7; 11; 13; 17; 19; 23; 29] [2; 2; 4; 2; 4; 3; 7; 9] [] 0 0 0 0 16 20 8).
  destruct (window_data_ok fd0 0 2) as (W & S & _); [lia|lia|done|lia|].
  destruct (batch_polynomials_exact (window_data fd0 0 [0; 2]) 0 2 29 (fun _ => replicate (Z.to_nat (1 + reduction_dim 2)) u512_zero)) as (indices & e & states & H1 & H2 & _ & _ & H3).
  - exact S.
  - exact W.
  - exact eight_fb_ok.
  - lia.
  - vm_compute. split; reflexivity.
  - repeat constructor; apply Z.leb_le; reflexivity.
  - reflexivity.
  - intros s. split; [apply Forall_replicate; exact (proj1 (u512_of_Z_spec 0))|by vm_compute].
  - exists indices, e, states. split; [exact H1|]. split; [exact H2|exact H3].
Defined.
