(* ===== verification/RelationIo.v ===== *)
(** The relation files of [src/src/common/relation_io.cpp]: the two formats, their writers, and readers
    that work on a stream with its position and state.

    A reader's result is an [outcome]: a value, an exception ([vector::resize] beyond what can be allocated,
    [max_bytes]), or [Undef] where it depends on memory that was never written. A file that does not
    open is [None]. Log output is left out. *)
From Stdlib Require Import ZArith Lia.
From stdpp Require Import base gmap sets list.
From S2P Require Import Prelude Bytes Soa.
#[local] Open Scope Z_scope.

(** ** Outcomes and streams *)

Inductive outcome (A : Type) :=
  | Ret (a : A)
  | Throw
  | Undef.
Arguments Ret {A} _.
Arguments Throw {A}.
Arguments Undef {A}.

#[global] Instance outcome_bind : MBind outcome := fun _ _ k o =>
  match o with Ret a => k a | Throw => Throw | Undef => Undef end.

(** [in_good]: no error bit is set. *)
Record ifstream := mkIn { in_data : bytes; in_pos : Z; in_good : bool }.

Definition Reader (A : Type) : Type := ifstream -> outcome (A * ifstream).

#[global] Instance reader_ret : MRet Reader := fun _ a f => Ret (a, f).
#[global] Instance reader_bind : MBind Reader := fun _ _ k m f => '(a, f) ← m f; k a f.

Definition undefined {A} : Reader A := fun _ => Undef.
Definition throw {A} : Reader A := fun _ => Throw.

(** [f.read(p, n)]: the bytes stored at [p]; a short read sets the error bits, and a stream in error reads nothing. *)
Definition fread (n : Z) : Reader bytes := fun f =>
  if in_good f then
    let b := take (Z.to_nat n) (drop (Z.to_nat (in_pos f)) (in_data f)) in
    Ret (b, mkIn (in_data f) (in_pos f + zlen b) (zlen b =? n))
  else Ret ([], f).

(** [f.good()]. *)
Definition good : Reader bool := fun f => Ret (in_good f, f).

(** Over a variable that holds [old], and over one that was never written. *)
Definition read_into (n : nat) (old : Z) : Reader Z :=
  b ← fread (Z.of_nat n); mret (of_le (overwrite (le n old) b)).

Definition read_fresh (n : nat) : Reader Z :=
  b ← fread (Z.of_nat n); if zlen b =? Z.of_nat n then mret (of_le b) else undefined.

(** [memcmp] of a fresh buffer with a magic: the unread bytes matter if the others agree. *)
Definition read_magic (magic : bytes) : Reader bool :=
  b ← fread (zlen magic);
  if bool_decide (b = magic) then mret true
  else if bool_decide (b = take (length b) magic) then undefined else mret false.

(** ** Vectors and batches *)

Definition write_vec (n : nat) (v : list Z) : bytes := le 8 (zlen v) ++ arr_bytes n v.

(** [v.resize(count)]. *)
Definition resized (v : list Z) (count : Z) : list Z := take (Z.to_nat count) v ++ replicate (Z.to_nat count - length v) 0.

(** [count] elements over the front of [v]. *)
Definition read_elems (n : nat) (count : Z) (v : list Z) : Reader (list Z) :=
  if 0 <? count then
    b ← fread (count * Z.of_nat n); mret (arr_of n (length v) (overwrite (arr_bytes n v) b))
  else mret v.

Definition write_batch (b : HostRelationBatch) : bytes :=
  write_vec 64 (sqrt_Q b) ++ write_vec 1 (signs b) ++ write_vec 4 (val_2_exps b) ++ write_vec 16 (large_primes b)
  ++ write_vec 8 (factor_offsets b) ++ write_vec 4 (factor_indices b) ++ write_vec 1 (factor_counts b).

Definition V1_MAGIC : bytes := [77; 80; 81; 83; 95; 83; 79; 65].
Definition V2_MAGIC : bytes := [77; 80; 81; 83; 95; 86; 50; 0].

Definition FLAG_HAS_PARTIALS : Z := 1.
Definition FLAG_HAS_METADATA : Z := 2.
Definition FLAG_HAS_CHAR_BITS : Z := 4.

Record V2Metadata := mkMeta {
  m_N : Z; m_factor_base : list Z; m_lp_bound : Z; m_sieve_bound : Z;
  m_aux_primes : list Z; m_t_s : list Z; m_r : Z; m_has_char_bits : bool
}.

Definition meta_empty : V2Metadata := mkMeta 0 [] 0 0 [] [] 0 false.

(** ** Writers: the bytes that reach the stream *)

Definition serialize_v1 (batch : HostRelationBatch) : bytes :=
  V1_MAGIC ++ le 8 (num_relations batch) ++ le 8 (num_factors batch) ++ write_batch batch.

Definition v2_flags (partials : HostRelationBatch) (meta : V2Metadata) : Z :=
  let flags := FLAG_HAS_METADATA in
  let flags := if 0 <? num_relations partials then Z.lor flags FLAG_HAS_PARTIALS else flags in
  if 0 <? m_r meta then Z.lor flags FLAG_HAS_CHAR_BITS else flags.

(** The first [r] elements of two vectors, read through [data()]. *)
Definition write_char_meta (meta : V2Metadata) : option bytes :=
  if 0 <? m_r meta then
    aux ← mem_bytes 8 (m_aux_primes meta) (m_r meta);
    ts ← mem_bytes 8 (m_t_s meta) (m_r meta);
    Some (le 4 (m_r meta) ++ aux ++ ts)
  else Some [].

Definition write_section (has_char : bool) (b : HostRelationBatch) : bytes :=
  le 8 (num_relations b) ++ le 8 (num_factors b) ++ write_batch b ++ (if has_char then write_vec 4 (char_bits b) else []).

Definition serialize_v2 (full_smooths partials : HostRelationBatch) (meta : V2Metadata) : option bytes :=
  let flags := v2_flags partials meta in
  let has_char := 0 <? m_r meta in
  let fb_size := wrap 32 (zlen (m_factor_base meta)) in
  fb ← mem_bytes 4 (m_factor_base meta) fb_size;
  chars ← write_char_meta meta;
  Some (V2_MAGIC ++ le 4 2 ++ le 4 flags
        ++ le 64 (m_N meta) ++ le 4 fb_size ++ fb ++ le 8 (m_lp_bound meta) ++ le 4 (m_sieve_bound meta) ++ chars
        ++ write_section has_char full_smooths
        ++ (if negb (Z.land flags FLAG_HAS_PARTIALS =? 0) then write_section has_char partials else [])).

(** ** Readers *)

Section readers.
Context (max_bytes : Z).

(** [v.resize(count)] of [n]-byte elements. *)
Definition resize_vec (n : nat) (v : list Z) (count : Z) : Reader (list Z) :=
  if max_bytes <? count * Z.of_nat n then throw else mret (resized v count).

Definition read_vec (n : nat) (v : list Z) : Reader (list Z) :=
  count ← read_fresh 8;
  v ← resize_vec n v count;
  read_elems n count v.

(** The counters are the caller's. *)
Definition read_batch (b : HostRelationBatch) : Reader HostRelationBatch :=
  sqrt_Q' ← read_vec 64 (sqrt_Q b);
  signs' ← read_vec 1 (signs b);
  val_2_exps' ← read_vec 4 (val_2_exps b);
  large_primes' ← read_vec 16 (large_primes b);
  factor_offsets' ← read_vec 8 (factor_offsets b);
  factor_indices' ← read_vec 4 (factor_indices b);
  factor_counts' ← read_vec 1 (factor_counts b);
  mret (mkBatch sqrt_Q' signs' (map (to_signed 32) val_2_exps') large_primes' (char_bits b)
          factor_offsets' factor_indices' factor_counts' (num_relations b) (num_factors b)).

Definition with_counts (b : HostRelationBatch) (nr nf : Z) : HostRelationBatch :=
  mkBatch (sqrt_Q b) (signs b) (val_2_exps b) (large_primes b) (char_bits b) (factor_offsets b) (factor_indices b) (factor_counts b) nr nf.
Definition with_char (b : HostRelationBatch) (c : list Z) : HostRelationBatch :=
  mkBatch (sqrt_Q b) (signs b) (val_2_exps b) (large_primes b) c (factor_offsets b) (factor_indices b) (factor_counts b)
    (num_relations b) (num_factors b).

Definition read_counted (b : HostRelationBatch) : Reader HostRelationBatch :=
  nr ← read_fresh 8;
  nf ← read_fresh 8;
  read_batch (with_counts b nr nf).

Definition read_v1 (batch : HostRelationBatch) : Reader (bool * HostRelationBatch) :=
  magic ← read_magic V1_MAGIC;
  if negb magic then mret (false, batch)
  else
    batch ← read_counted batch;
    ok ← good;
    mret (ok, batch).

Definition deserialize_v1 (file : option bytes) (batch : HostRelationBatch) : outcome (bool * HostRelationBatch) :=
  match file with
  | None => Ret (false, batch)
  | Some data => '(res, _) ← read_v1 batch (mkIn data 0 true); Ret res
  end.

Definition read_section (has_char : bool) (b : HostRelationBatch) : Reader HostRelationBatch :=
  b ← read_counted b;
  if has_char then c ← read_vec 4 (char_bits b); mret (with_char b c) else mret b.

Definition read_char_meta (meta : V2Metadata) : Reader V2Metadata :=
  r ← read_into 4 (m_r meta);
  aux ← resize_vec 8 (m_aux_primes meta) r;
  ts ← resize_vec 8 (m_t_s meta) r;
  aux ← read_elems 8 r aux;
  ts ← read_elems 8 r ts;
  mret (mkMeta (m_N meta) (m_factor_base meta) (m_lp_bound meta) (m_sieve_bound meta) aux ts r (m_has_char_bits meta)).

Definition read_meta (has_char : bool) (meta : V2Metadata) : Reader V2Metadata :=
  N ← read_into 64 (m_N meta);
  fb_size ← read_fresh 4;
  fb ← resize_vec 4 (m_factor_base meta) fb_size;
  fb ← read_elems 4 fb_size fb;
  lp ← read_into 8 (m_lp_bound meta);
  sb ← read_into 4 (m_sieve_bound meta);
  let meta := mkMeta N fb lp sb (m_aux_primes meta) (m_t_s meta) (m_r meta) (m_has_char_bits meta) in
  if has_char then read_char_meta meta else mret meta.

Definition set_has_char (meta : V2Metadata) (has_char : bool) : V2Metadata :=
  mkMeta (m_N meta) (m_factor_base meta) (m_lp_bound meta) (m_sieve_bound meta) (m_aux_primes meta) (m_t_s meta) (m_r meta) has_char.

Definition v2_result : Type := bool * (HostRelationBatch * HostRelationBatch * V2Metadata).

(** The sections after the header. *)
Definition read_v2_body (flags : Z) (full_smooths partials : HostRelationBatch) (meta : V2Metadata) : Reader v2_result :=
  let has_char := negb (Z.land flags FLAG_HAS_CHAR_BITS =? 0) in
  let meta := set_has_char meta has_char in
  meta ← (if negb (Z.land flags FLAG_HAS_METADATA =? 0) then read_meta has_char meta else mret meta);
  full_smooths ← read_section has_char full_smooths;
  partials ← (if negb (Z.land flags FLAG_HAS_PARTIALS =? 0) then read_section has_char partials else mret (clear partials));
  ok ← good;
  mret (ok, (full_smooths, partials, meta)).

Definition read_v2 (full_smooths partials : HostRelationBatch) (meta : V2Metadata) : Reader v2_result :=
  magic ← read_magic V2_MAGIC;
  if negb magic then mret (false, (full_smooths, partials, meta))
  else
    version ← read_fresh 4;
    if negb (version =? 2) then mret (false, (full_smooths, partials, meta))
    else
      flags ← read_fresh 4;
      read_v2_body flags full_smooths partials meta.

Definition deserialize_v2 (file : option bytes) (full_smooths partials : HostRelationBatch) (meta : V2Metadata) : outcome v2_result :=
  match file with
  | None => Ret (false, (full_smooths, partials, meta))
  | Some data => '(res, _) ← read_v2 full_smooths partials meta (mkIn data 0 true); Ret res
  end.

(** The format's number, or 0. *)
Definition detect_and_deserialize (file : option bytes) (batch smooths partials : HostRelationBatch) (meta : V2Metadata)
    : outcome (Z * (HostRelationBatch * HostRelationBatch * HostRelationBatch * V2Metadata)) :=
  match file with
  | None => Ret (0, (batch, smooths, partials, meta))
  | Some data =>
      let magic := take 8 data in
      if zlen magic <? 8 then Ret (0, (batch, smooths, partials, meta))
      else if bool_decide (magic = V2_MAGIC) then
        '(ok, (smooths, partials, meta)) ← deserialize_v2 file smooths partials meta;
        Ret ((if (ok : bool) then 2 else 0), (batch, smooths, partials, meta))
      else if bool_decide (magic = V1_MAGIC) then
        '(ok, batch) ← deserialize_v1 file batch;
        Ret ((if (ok : bool) then 1 else 0), (batch, smooths, partials, meta))
      else Ret (0, (batch, smooths, partials, meta))
  end.
End readers.

(** ** Vocabulary of the specifications *)

(** [m] consumes exactly [b], wherever it stands in the file, and returns [a]. *)
Definition reads {A} (m : Reader A) (b : bytes) (a : A) : Prop :=
  forall pre post, m (mkIn (pre ++ b ++ post) (zlen pre) true) = Ret (a, mkIn (pre ++ b ++ post) (zlen pre + zlen b) true).

(** More data behind the file. *)
Definition ext (f : ifstream) (t : bytes) : ifstream := mkIn (in_data f ++ t) (in_pos f) (in_good f).

(** A reader that stays within the data; if it leaves the stream without error, the data behind does not matter. *)
Definition stable {A} (m : Reader A) : Prop := forall f a f', m f = Ret (a, f') ->
  in_data f' = in_data f /\
  (0 <= in_pos f <= zlen (in_data f) -> 0 <= in_pos f' <= zlen (in_data f')) /\
  (in_good f' = true -> in_good f = true /\ forall t, m (ext f t) = Ret (a, ext f' t)).

(** A reader that reports success only on a stream without error. *)
Definition ends_good {A} (m : Reader (bool * A)) : Prop := forall f r f', m f = Ret (r, f') -> r.1 = true -> in_good f' = true.

(** Values of the element types, lengths that can be allocated. *)
Record vectors_ok (max_bytes : Z) (b : HostRelationBatch) : Prop := mkVecOk {
  vo_sqrt_Q : Forall (in_width 512) (sqrt_Q b);
  vo_signs : Forall (in_width 8) (signs b);
  vo_val2 : Forall (fun x => - 2 ^ 31 <= x < 2 ^ 31) (val_2_exps b);
  vo_lp : Forall (in_width 128) (large_primes b);
  vo_char : Forall (in_width 32) (char_bits b);
  vo_offsets : Forall (in_width 64) (factor_offsets b);
  vo_indices : Forall (in_width 32) (factor_indices b);
  vo_counts : Forall (in_width 8) (factor_counts b);
  vo_num : in_width 64 (num_relations b) /\ in_width 64 (num_factors b);
  vo_size : 64 * zlen (sqrt_Q b) <= max_bytes /\ zlen (signs b) <= max_bytes /\ 4 * zlen (val_2_exps b) <= max_bytes /\
    16 * zlen (large_primes b) <= max_bytes /\ 4 * zlen (char_bits b) <= max_bytes /\ 8 * zlen (factor_offsets b) <= max_bytes /\
    4 * zlen (factor_indices b) <= max_bytes /\ zlen (factor_counts b) <= max_bytes
}.

Record meta_ok (max_bytes : Z) (m : V2Metadata) : Prop := mkMetaOk {
  mo_N : in_width 512 (m_N m);
  mo_fb : Forall (in_width 32) (m_factor_base m);
  mo_lp : in_width 64 (m_lp_bound m);
  mo_sb : in_width 32 (m_sieve_bound m);
  mo_aux : Forall (in_width 64) (m_aux_primes m);
  mo_ts : Forall (in_width 64) (m_t_s m);
  mo_r : in_width 32 (m_r m);
  mo_aux_len : zlen (m_aux_primes m) = m_r m;
  mo_ts_len : zlen (m_t_s m) = m_r m;
  mo_fb_len : zlen (m_factor_base m) < 2 ^ 32;
  mo_size : 4 * zlen (m_factor_base m) <= max_bytes /\ 8 * m_r m <= max_bytes
}.

(** The metadata of a file. *)
Definition meta_bytes (m : V2Metadata) : bytes :=
  le 64 (m_N m) ++ le 4 (zlen (m_factor_base m)) ++ arr_bytes 4 (m_factor_base m) ++ le 8 (m_lp_bound m) ++ le 4 (m_sieve_bound m)
  ++ (if 0 <? m_r m then le 4 (m_r m) ++ arr_bytes 8 (m_aux_primes m) ++ arr_bytes 8 (m_t_s m) else []).

(** What comes back: character bits and the extension of the metadata only with their flag, otherwise the variables' old values. *)
Definition section_back (has_char : bool) (b old : HostRelationBatch) : HostRelationBatch :=
  if has_char then b else with_char b (char_bits old).
Definition meta_back (m old : V2Metadata) : V2Metadata :=
  if 0 <? m_r m then set_has_char m true
  else mkMeta (m_N m) (m_factor_base m) (m_lp_bound m) (m_sieve_bound m) (m_aux_primes old) (m_t_s old) (m_r old) false.

(** ** Vocabulary of the specifications *)

(** A branch-mode file: one auxiliary prime, so the character bits are carried. *)
Definition demo_meta : V2Metadata := mkMeta 1649 [3; 5; 7] 1000 65536 [1000003] [39] 1 false.

(** ** Lemmas: exact reading *)

Lemma reads_start {A} (m : Reader A) b a post : reads m b a -> m (mkIn (b ++ post) 0 true) = Ret (a, mkIn (b ++ post) (zlen b) true).
Proof. intros H. exact (H [] post). Qed.

Lemma reads_ret {A} (a : A) : reads (mret a) [] a.
Proof. intros pre post. cbn. unfold mret, reader_ret. by rewrite Z.add_0_r. Qed.

Lemma reads_bind {A B} (m : Reader A) (k : A -> Reader B) b1 b2 a c :
  reads m b1 a -> reads (k a) b2 c -> reads (m ≫= k) (b1 ++ b2) c.
Proof.
  intros H1 H2 pre post. unfold mbind, reader_bind. rewrite <- app_assoc. rewrite H1. cbn.
  specialize (H2 (pre ++ b1) post). rewrite <- !app_assoc, zlen_app in H2. rewrite H2. by rewrite zlen_app, Z.add_assoc.
Qed.

Lemma reads_bind_ret {A B} (m : Reader A) (k : A -> Reader B) b a c :
  reads m b a -> reads (k a) [] c -> reads (m ≫= k) b c.
Proof. intros H1 H2. rewrite <- (app_nil_r b). by apply reads_bind with a. Qed.

Lemma reads_ret_bind {A B} (m : Reader A) (k : A -> Reader B) b a c :
  reads m [] a -> reads (k a) b c -> reads (m ≫= k) b c.
Proof. intros H1 H2. change b with ([] ++ b). by apply reads_bind with a. Qed.

Lemma reads_fread b n : n = zlen b -> reads (fread n) b b.
Proof.
  intros -> pre post. unfold fread. cbn [in_good in_pos in_data].
  assert (take (Z.to_nat (zlen b)) (drop (Z.to_nat (zlen pre)) (pre ++ b ++ post)) = b) as ->.
  { unfold zlen. rewrite !Nat2Z.id, drop_app_length. apply take_app_length. }
  by rewrite Z.eqb_refl.
Qed.

Lemma reads_good : reads good [] true.
Proof. intros pre post. unfold good. cbn. by rewrite Z.add_0_r. Qed.

Lemma overwrite_all l b : length l = length b -> overwrite l b = b.
Proof. intros H. unfold overwrite. rewrite drop_ge by lia. apply app_nil_r. Qed.

Lemma reads_into n old x : in_width (8 * Z.of_nat n) x -> reads (read_into n old) (le n x) x.
Proof.
  intros Hx. unfold read_into. eapply reads_bind_ret; [by apply reads_fread; rewrite zlen_le|].
  rewrite overwrite_all by by rewrite !length_le. rewrite of_le_le_small by done. apply reads_ret.
Qed.

Lemma reads_fresh n x : in_width (8 * Z.of_nat n) x -> reads (read_fresh n) (le n x) x.
Proof.
  intros Hx. unfold read_fresh. eapply reads_bind_ret; [by apply reads_fread; rewrite zlen_le|].
  rewrite zlen_le, Z.eqb_refl, of_le_le_small by done. apply reads_ret.
Qed.

Lemma reads_magic m : reads (read_magic m) m true.
Proof.
  unfold read_magic. eapply reads_bind_ret; [by apply reads_fread|]. rewrite bool_decide_eq_true_2 by done. apply reads_ret.
Qed.

Lemma reads_resize max n v count : count * Z.of_nat n <= max -> reads (resize_vec max n v count) [] (resized v count).
Proof. intros H. unfold resize_vec. destruct (Z.ltb_spec max (count * Z.of_nat n)); [lia|apply reads_ret]. Qed.

Lemma length_resized v count : length (resized v count) = Z.to_nat count.
Proof. unfold resized. rewrite length_app, length_take, length_replicate. lia. Qed.

(** [l] is decoded modulo the width. *)
Lemma reads_elems n l old :
  (1 <= n)%nat -> length old = length l -> reads (read_elems n (zlen l) old) (arr_bytes n l) (map (wrap (8 * Z.of_nat n)) l).
Proof.
  intros Hn HL. unfold read_elems. destruct (Z.ltb_spec 0 (zlen l)) as [Hl|Hl].
  - eapply reads_bind_ret; [by apply reads_fread; rewrite zlen_arr_bytes|].
    rewrite overwrite_all by (rewrite !length_arr_bytes; lia). rewrite HL, arr_of_bytes. apply reads_ret.
  - destruct l; [|unfold zlen in Hl; cbn in Hl; lia]. destruct old; [|done]. apply reads_ret.
Qed.

Lemma reads_vec max n l old :
  (1 <= n)%nat -> zlen l * Z.of_nat n <= max -> zlen l < 2 ^ 64 ->
  reads (read_vec max n old) (write_vec n l) (map (wrap (8 * Z.of_nat n)) l).
Proof.
  intros Hn Hm Hl. unfold read_vec, write_vec. pose proof (zlen_nonneg l).
  eapply reads_bind; [apply reads_fresh; unfold in_width; cbn; lia|]. eapply reads_ret_bind; [by apply reads_resize|].
  apply reads_elems; [done|]. rewrite length_resized. unfold zlen. lia.
Qed.

Lemma map_signed l : Forall (fun x => - 2 ^ 31 <= x < 2 ^ 31) l -> map (to_signed 32) (map (wrap 32) l) = l.
Proof. intros H. rewrite map_map. induction H as [|x l Hx _ IH]; [done|]. cbn [map]. rewrite IH. f_equal. by apply to_signed_wrap. Qed.

Lemma vectors_small max b : vectors_ok max b -> max < 2 ^ 64 ->
  zlen (sqrt_Q b) < 2 ^ 64 /\ zlen (signs b) < 2 ^ 64 /\ zlen (val_2_exps b) < 2 ^ 64 /\ zlen (large_primes b) < 2 ^ 64 /\
  zlen (char_bits b) < 2 ^ 64 /\ zlen (factor_offsets b) < 2 ^ 64 /\ zlen (factor_indices b) < 2 ^ 64 /\ zlen (factor_counts b) < 2 ^ 64.
Proof.
  intros [_ _ _ _ _ _ _ _ _ H] Hm. pose proof (zlen_nonneg (sqrt_Q b)). pose proof (zlen_nonneg (val_2_exps b)). pose proof (zlen_nonneg (large_primes b)).
  pose proof (zlen_nonneg (char_bits b)). pose proof (zlen_nonneg (factor_offsets b)). pose proof (zlen_nonneg (factor_indices b)). lia.
Qed.

Section exact.
Context (max : Z) (Hmax : max < 2 ^ 64).

Lemma reads_batch b old : vectors_ok max b ->
  reads (read_batch max old) (write_batch b) (with_counts (with_char b (char_bits old)) (num_relations old) (num_factors old)).
Proof using Hmax.
  intros Hb. pose proof (vectors_small max b Hb Hmax) as (L1 & L2 & L3 & L4 & _ & L5 & L6 & L7). destruct Hb as [W1 W2 W3 W4 _ W5 W6 W7 _ W9].
  unfold read_batch, write_batch. do 6 (eapply reads_bind; [apply reads_vec; lia|]). eapply reads_bind_ret; [apply reads_vec; lia|].
  rewrite (map_wrap_small _ (sqrt_Q b)), (map_wrap_small _ (signs b)), (map_wrap_small _ (large_primes b)), (map_wrap_small _ (factor_offsets b)),
    (map_wrap_small _ (factor_indices b)), (map_wrap_small _ (factor_counts b)) by done.
  change (8 * Z.of_nat 4) with 32. rewrite map_signed by done. apply reads_ret.
Qed.

Lemma reads_counted b old : vectors_ok max b ->
  reads (read_counted max old) (le 8 (num_relations b) ++ le 8 (num_factors b) ++ write_batch b) (with_char b (char_bits old)).
Proof using Hmax.
  intros Hb. unfold read_counted. destruct (vo_num _ _ Hb) as [H1 H2]. do 2 (eapply reads_bind; [by apply reads_fresh|]).
  pose proof (reads_batch b (with_counts old (num_relations b) (num_factors b)) Hb) as H. by destruct b.
Qed.

Lemma reads_section has_char b old : vectors_ok max b ->
  reads (read_section max has_char old) (write_section has_char b) (section_back has_char b old).
Proof using Hmax.
  intros Hb. unfold read_section, write_section. pose proof (vectors_small max b Hb Hmax) as (_ & _ & _ & _ & L & _).
  rewrite !(app_assoc (le 8 (num_relations b))), (app_assoc _ (write_batch b)), <- (app_assoc (le 8 (num_relations b))).
  eapply reads_bind; [by apply reads_counted|]. destruct has_char; [|apply reads_ret].
  eapply reads_bind_ret; [apply reads_vec; destruct Hb as [_ _ _ _ _ _ _ _ _ W]; lia|].
  rewrite map_wrap_small by apply (vo_char _ _ Hb). assert (with_char (with_char b (char_bits old)) (char_bits b) = b) as -> by by destruct b. apply reads_ret.
Qed.

Lemma mem_bytes_all n l : mem_bytes n l (zlen l) = Some (arr_bytes n l).
Proof. unfold mem_bytes. rewrite (proj2 (Z.leb_le _ _)) by lia. do 2 f_equal. apply take_ge. unfold zlen. lia. Qed.

Lemma write_char_meta_ok m : meta_ok max m ->
  write_char_meta m = Some (if 0 <? m_r m then le 4 (m_r m) ++ arr_bytes 8 (m_aux_primes m) ++ arr_bytes 8 (m_t_s m) else []).
Proof.
  clear Hmax. intros H. unfold write_char_meta. destruct (0 <? m_r m); [|done].
  rewrite <- (mo_aux_len _ _ H) at 1. rewrite mem_bytes_all. cbn [mbind option_bind]. rewrite <- (mo_ts_len _ _ H) at 1. by rewrite mem_bytes_all.
Qed.

Lemma reads_char_meta m old : meta_ok max m ->
  reads (read_char_meta max old) (le 4 (m_r m) ++ arr_bytes 8 (m_aux_primes m) ++ arr_bytes 8 (m_t_s m))
    (mkMeta (m_N old) (m_factor_base old) (m_lp_bound old) (m_sieve_bound old) (m_aux_primes m) (m_t_s m) (m_r m) (m_has_char_bits old)).
Proof.
  clear Hmax. intros H. unfold read_char_meta. pose proof (mo_size _ _ H). pose proof (mo_aux_len _ _ H) as E1. pose proof (mo_ts_len _ _ H) as E2.
  eapply reads_bind; [apply reads_into; exact (mo_r _ _ H)|]. do 2 (eapply reads_ret_bind; [apply reads_resize; lia|]).
  eapply reads_bind; [rewrite <- E1; apply reads_elems; [lia|rewrite length_resized; unfold zlen; lia]|].
  eapply reads_bind_ret; [rewrite <- E2; apply reads_elems; [lia|rewrite length_resized; unfold zlen; lia]|].
  change (8 * Z.of_nat 8) with 64. rewrite !map_wrap_small by apply H. apply reads_ret.
Qed.

Lemma reads_meta m old : meta_ok max m ->
  reads (read_meta max (0 <? m_r m) (set_has_char old (0 <? m_r m))) (meta_bytes m) (meta_back m old).
Proof.
  clear Hmax. intros H. unfold read_meta, meta_bytes. pose proof (mo_size _ _ H). pose proof (zlen_nonneg (m_factor_base m)).
  eapply reads_bind; [apply reads_into; exact (mo_N _ _ H)|].
  eapply reads_bind; [apply reads_fresh; pose proof (mo_fb_len _ _ H); unfold in_width; cbn; lia|].
  eapply reads_ret_bind; [apply reads_resize; lia|].
  eapply reads_bind; [apply reads_elems; [lia|rewrite length_resized; unfold zlen; lia]|].
  eapply reads_bind; [apply reads_into; exact (mo_lp _ _ H)|].
  eapply reads_bind; [apply reads_into; exact (mo_sb _ _ H)|].
  change (8 * Z.of_nat 4) with 32. rewrite map_wrap_small by apply (mo_fb _ _ H). unfold meta_back.
  destruct (0 <? m_r m); [|apply reads_ret]. eapply eq_ind; [by apply reads_char_meta|done].
Qed.

Lemma v2_flags_bits s m : 
  Z.land (v2_flags s m) FLAG_HAS_METADATA = 2 /\ negb (Z.land (v2_flags s m) FLAG_HAS_CHAR_BITS =? 0) = (0 <? m_r m) /\
  negb (Z.land (v2_flags s m) FLAG_HAS_PARTIALS =? 0) = (0 <? num_relations s) /\ in_width 32 (v2_flags s m).
Proof. clear Hmax. unfold v2_flags. destruct (0 <? num_relations s), (0 <? m_r m); by vm_compute. Qed.

Lemma serialize_v2_eq s p m : meta_ok max m ->
  serialize_v2 s p m = Some (V2_MAGIC ++ le 4 2 ++ le 4 (v2_flags p m) ++ meta_bytes m ++ write_section (0 <? m_r m) s
    ++ (if 0 <? num_relations p then write_section (0 <? m_r m) p else [])).
Proof.
  clear Hmax. intros H. unfold serialize_v2, meta_bytes. destruct (v2_flags_bits p m) as (_ & _ & -> & _).
  rewrite (wrap_small 32 (zlen (m_factor_base m))) by (split; [apply zlen_nonneg|apply (mo_fb_len _ _ H)]).
  rewrite mem_bytes_all. cbn [mbind option_bind]. rewrite (write_char_meta_ok m H). cbn [mbind option_bind]. by rewrite <- !app_assoc.
Qed.

(** What the reader leaves in its variables. *)
Lemma reads_v2 s p m s0 p0 m0 : vectors_ok max s -> vectors_ok max p -> meta_ok max m ->
  exists payload, serialize_v2 s p m = Some payload /\
    reads (read_v2 max s0 p0 m0) payload
      (true, (section_back (0 <? m_r m) s s0, if 0 <? num_relations p then section_back (0 <? m_r m) p p0 else batch_empty, meta_back m m0)).
Proof using Hmax.
  intros Hs Hp Hm. eexists. split; [by apply serialize_v2_eq|]. destruct (v2_flags_bits p m) as (B1 & B2 & B3 & B4).
  unfold read_v2. eapply reads_bind; [apply reads_magic|]. cbn [negb].
  eapply reads_bind; [by apply reads_fresh|]. cbn [negb Z.eqb Pos.eqb].
  eapply reads_bind; [apply reads_fresh; exact B4|]. unfold read_v2_body. rewrite B1, B2, B3. cbn [negb Z.eqb].
  eapply reads_bind; [by apply reads_meta|]. eapply reads_bind; [by apply reads_section|].
  destruct (0 <? num_relations p).
  - eapply reads_bind_ret; [by apply reads_section|]. eapply reads_ret_bind; [apply reads_good|]. apply reads_ret.
  - eapply reads_ret_bind; [apply reads_ret|]. eapply reads_ret_bind; [apply reads_good|]. apply reads_ret.
Qed.

Lemma reads_v1 b old : vectors_ok max b -> reads (read_v1 max old) (serialize_v1 b) (true, with_char b (char_bits old)).
Proof using Hmax.
  intros Hb. unfold read_v1, serialize_v1. eapply reads_bind; [apply reads_magic|]. cbn [negb].
  eapply reads_bind_ret; [by apply reads_counted|]. eapply reads_ret_bind; [apply reads_good|]. apply reads_ret.
Qed.
End exact.

(** ** Lemmas: truncated files *)

Lemma stable_bind {A B} (m : Reader A) (k : A -> Reader B) : stable m -> (forall a, stable (k a)) -> stable (m ≫= k).
Proof.
  intros Hm Hk f c f2 H. unfold mbind, reader_bind in H. destruct (m f) as [[a f1]| |] eqn:E1; [|done..]. cbn in H.
  destruct (Hm _ _ _ E1) as (D1 & P1 & S1). destruct (Hk a _ _ _ H) as (D2 & P2 & S2). split; [by rewrite D2|]. split; [auto|].
  intros G2. destruct (S2 G2) as [G1 T2]. destruct (S1 G1) as [G0 T1]. split; [done|]. intros t.
  unfold mbind, reader_bind. rewrite T1. cbn. apply T2.
Qed.

Lemma stable_ret {A} (a : A) : stable (mret a).
Proof. intros f b f' H. unfold mret, reader_ret in *. injection H as <- <-. done. Qed.

Lemma stable_undefined {A} : stable (A := A) undefined.
Proof. intros f a f' H. discriminate. Qed.

Lemma stable_throw {A} : stable (A := A) throw.
Proof. intros f a f' H. discriminate. Qed.

Lemma stable_good : stable good.
Proof. intros f b f' H. injection H as <- <-. done. Qed.

Lemma stable_fread n : stable (fread n).
Proof.
  intros f b f' H. unfold fread in *. destruct (in_good f) eqn:G; [|injection H as <- <-; by rewrite G]. injection H as <- <-. cbn [in_data in_pos in_good].
  split; [done|]. set (b := take _ _). assert (Z.of_nat (length b) = Z.min (Z.max 0 n) (Z.of_nat (length (in_data f) - Z.to_nat (in_pos f)))) as L.
  { unfold b. rewrite length_take, length_drop. lia. }
  split; [unfold zlen; lia|]. intros Hb%Z.eqb_eq. split; [done|]. intros t. cbn [in_data in_pos in_good ext]. rewrite G.
  assert (take (Z.to_nat n) (drop (Z.to_nat (in_pos f)) (in_data f ++ t)) = b) as ->.
  { unfold b, zlen in *. destruct (decide (Z.to_nat n = 0%nat)) as [->|Hn]; [done|]. rewrite drop_app_le by lia. rewrite take_app_le by (rewrite length_drop; lia). done. }
  done.
Qed.

Create HintDb stable.
#[export] Hint Resolve stable_ret stable_undefined stable_throw stable_good stable_fread : stable.
#[export] Hint Extern 2 (stable (_ ≫= _)) => (apply stable_bind; [|intros ?]) : stable.
#[export] Hint Extern 2 (stable (if ?c then _ else _)) => (destruct c) : stable.
#[export] Hint Extern 3 (stable (let '(_, _) := ?x in _)) => (destruct x) : stable.

Lemma stable_into n old : stable (read_into n old).
Proof. unfold read_into. auto with stable. Qed.
Lemma stable_fresh n : stable (read_fresh n).
Proof. unfold read_fresh. auto with stable. Qed.
Lemma stable_magic m : stable (read_magic m).
Proof. unfold read_magic. auto with stable. Qed.
Lemma stable_elems n count v : stable (read_elems n count v).
Proof. unfold read_elems. auto with stable. Qed.
Lemma stable_resize max n v count : stable (resize_vec max n v count).
Proof. unfold resize_vec. auto with stable. Qed.
#[export] Hint Resolve stable_into stable_fresh stable_magic stable_elems stable_resize : stable.
Lemma stable_vec max n v : stable (read_vec max n v).
Proof. unfold read_vec. auto with stable. Qed.
#[export] Hint Resolve stable_vec : stable.
Lemma stable_counted max b : stable (read_counted max b).
Proof. unfold read_counted, read_batch. auto 30 with stable. Qed.
#[export] Hint Resolve stable_counted : stable.
Lemma stable_v2 max s p m : stable (read_v2 max s p m).
Proof. unfold read_v2, read_v2_body, read_meta, read_char_meta, read_section. cbv zeta. auto 40 with stable. Qed.
Lemma stable_v1 max b : stable (read_v1 max b).
Proof. unfold read_v1. auto 20 with stable. Qed.

Lemma ends_bind {A B} (m : Reader A) (k : A -> Reader (bool * B)) : (forall a, ends_good (k a)) -> ends_good (m ≫= k).
Proof.
  intros Hk f r f2 H. unfold mbind, reader_bind in H. destruct (m f) as [[a f1]| |]; [|done..]. by apply Hk in H.
Qed.

Lemma ends_false {A} (a : A) : ends_good (mret (false, a)).
Proof. intros f r f' H. injection H as <- <-. done. Qed.

Lemma ends_last {A} (a : A) : ends_good (ok ← good; mret (ok, a)).
Proof. intros f r f' H. injection H as <- <-. done. Qed.

Lemma ends_v2 max s p m : ends_good (read_v2 max s p m).
Proof.
  unfold read_v2, read_v2_body. apply ends_bind. intros [|]; cbn [negb]; [|apply ends_false]. apply ends_bind. intros v. destruct (negb _); [apply ends_false|].
  do 4 (apply ends_bind; intros ?). apply ends_last.
Qed.

Lemma ends_v1 max b : ends_good (read_v1 max b).
Proof. unfold read_v1. apply ends_bind. intros [|]; cbn [negb]; [|apply ends_false]. apply ends_bind. intros ?. apply ends_last. Qed.

(** A reader that consumes the whole of [payload] does not succeed on less of it. *)
Lemma truncated_false {A} (m : Reader (bool * A)) payload a k r f' :
  stable m -> ends_good m -> reads m payload (true, a) -> (k < length payload)%nat ->
  m (mkIn (take k payload) 0 true) = Ret (r, f') -> r.1 = false.
Proof.
  intros Hs He Hr Hk H. destruct r as [[|] b]; [|done]. exfalso. pose proof (He _ _ _ H eq_refl) as G. destruct (Hs _ _ _ H) as (D & P & S).
  destruct (S G) as [_ T]. specialize (T (drop k payload)). unfold ext at 1 in T. cbn [in_data in_pos in_good] in T. rewrite take_drop in T.
  apply (reads_start _ _ _ []) in Hr. rewrite app_nil_r in Hr. rewrite T in Hr. injection Hr as _ _ Ep _.
  specialize (P ltac:(cbn; split; [lia|apply zlen_nonneg])). rewrite D in P. cbn [in_data] in P. unfold zlen in *. rewrite length_take in P. lia.
Qed.

Lemma magic_head (m rest tail : bytes) : length m = 8%nat -> take 8 ((m ++ rest) ++ tail) = m.
Proof. intros H. rewrite <- app_assoc, take_app_le by lia. apply take_ge. lia. Qed.

(** A file that ends behind the magic: the counters are used without having been read. *)
Lemma short_file_undefined : deserialize_v1 4096 (Some V1_MAGIC) batch_empty = Undef.
Proof. reflexivity. Qed.

(** A corrupt length is handed to [resize] as it stands: the reader ends with an exception, not with [false]. *)
Lemma corrupt_length_throws : deserialize_v1 4096 (Some (V1_MAGIC ++ le 8 1 ++ le 8 1 ++ le 8 (2 ^ 60))) batch_empty = Throw.
Proof. reflexivity. Qed.

(** ** Properties *)

(** C38. Relation files round trip. What either writer produces, the readers take back with whatever follows it in the file (the
    checkpoint appends a trailer): every vector and counter of the smooth and partial relations and the metadata; character bits come back when the
    file carries them. The format is detected from the magic. *)
Theorem relation_files_roundtrip max s p m tail b0 s0 p0 m0 :
  max < 2 ^ 64 -> vectors_ok max s -> vectors_ok max p -> meta_ok max m ->
  let back := (section_back (0 <? m_r m) s s0, if 0 <? num_relations p then section_back (0 <? m_r m) p p0 else batch_empty, meta_back m m0) in
  (exists payload, serialize_v2 s p m = Some payload /\
     deserialize_v2 max (Some (payload ++ tail)) s0 p0 m0 = Ret (true, back) /\
     detect_and_deserialize max (Some (payload ++ tail)) b0 s0 p0 m0 = Ret (2, (b0, back.1.1, back.1.2, back.2))) /\
  deserialize_v1 max (Some (serialize_v1 s ++ tail)) b0 = Ret (true, with_char s (char_bits b0)) /\
  detect_and_deserialize max (Some (serialize_v1 s ++ tail)) b0 s0 p0 m0 = Ret (1, (with_char s (char_bits b0), s0, p0, m0)).
Proof.
  intros Hx Hs Hp Hm back.
  assert (deserialize_v1 max (Some (serialize_v1 s ++ tail)) b0 = Ret (true, with_char s (char_bits b0))) as E1.
  { unfold deserialize_v1. by rewrite (reads_start _ _ _ _ (reads_v1 max Hx s b0 Hs)). }
  split; [|split; [done|]].
  - destruct (reads_v2 max Hx s p m s0 p0 m0 Hs Hp Hm) as (payload & E & H). exists payload. split; [done|].
    assert (deserialize_v2 max (Some (payload ++ tail)) s0 p0 m0 = Ret (true, back)) as E2 by (unfold deserialize_v2; by rewrite (reads_start _ _ _ _ H)).
    split; [done|]. unfold detect_and_deserialize. rewrite E2. rewrite serialize_v2_eq with (max := max) in E by done. apply (inj Some) in E as <-. cbv zeta. by rewrite magic_head.
  - unfold detect_and_deserialize. rewrite E1. unfold serialize_v1. cbv zeta. by rewrite magic_head.
Qed.

(** Truncated files are not accepted. A proper prefix of a relation file is never read with success. *)
Theorem truncated_file_rejected max s p m k s0 p0 m0 b0 :
  max < 2 ^ 64 -> vectors_ok max s -> vectors_ok max p -> meta_ok max m ->
  (forall payload res, serialize_v2 s p m = Some payload -> (k < length payload)%nat ->
     deserialize_v2 max (Some (take k payload)) s0 p0 m0 = Ret res -> res.1 = false) /\
  (forall res, (k < length (serialize_v1 s))%nat -> deserialize_v1 max (Some (take k (serialize_v1 s))) b0 = Ret res -> res.1 = false).
Proof.
  intros Hx Hs Hp Hm. split.
  - intros payload res E Hk H. destruct (reads_v2 max Hx s p m s0 p0 m0 Hs Hp Hm) as (payload' & E' & Hr). rewrite E in E'. injection E' as <-.
    unfold deserialize_v2 in H. destruct (read_v2 _ _ _ _ _) as [[r f']| |] eqn:F; [|done..]. injection H as <-.
    eapply truncated_false; [apply stable_v2|apply ends_v2|exact Hr|exact Hk|exact F].
  - intros res Hk H. unfold deserialize_v1 in H. destruct (read_v1 _ _ _) as [[r f']| |] eqn:F; [|done..]. injection H as <-.
    eapply truncated_false; [apply stable_v1|apply ends_v1|exact (reads_v1 max Hx s b0 Hs)|exact Hk|exact F].
Qed.

Lemma demo_vectors_ok : vectors_ok 4096 demo_batch /\ meta_ok 4096 demo_meta.
Proof.
  split; constructor; unfold in_width; first [by repeat constructor; cbn; lia|by cbn; lia|unfold zlen; cbn; lia].
Qed.

Lemma relation_files_roundtrip_witness :
  exists payload, serialize_v2 demo_batch demo_batch demo_meta = Some payload /\
    deserialize_v2 4096 (Some (payload ++ [1; 2; 3])) batch_empty batch_empty meta_empty = Ret (true, (demo_batch, demo_batch, set_has_char demo_meta true)).
Proof.
  destruct (relation_files_roundtrip 4096 demo_batch demo_batch demo_meta [1; 2; 3] batch_empty batch_empty batch_empty meta_empty) as ((payload & H1 & H2 & _) & _).
  - reflexivity.
  - exact (proj1 demo_vectors_ok).
  - exact (proj1 demo_vectors_ok).
  - exact (proj2 demo_vectors_ok).
  - exists payload. split; [exact H1|exact H2].
Defined.

Lemma truncated_file_rejected_witness :
  exists res, deserialize_v1 4096 (Some (take (length (serialize_v1 demo_batch) - 1) (serialize_v1 demo_batch))) batch_empty = Ret res /\ res.1 = false.
Proof.
  destruct (deserialize_v1 4096 (Some (take (length (serialize_v1 demo_batch) - 1) (serialize_v1 demo_batch))) batch_empty) as [res| |] eqn:E;
    [|exfalso; vm_compute in E; discriminate..].
  exists res. split; [reflexivity|].
  refine (proj2 (truncated_file_rejected 4096 demo_batch demo_batch demo_meta (length (serialize_v1 demo_batch) - 1) batch_empty batch_empty meta_empty batch_empty
    eq_refl (proj1 demo_vectors_ok) (proj1 demo_vectors_ok) (proj2 demo_vectors_ok)) res _ E).
  apply Nat.ltb_lt. reflexivity.
Defined.
