(* ===== verification/Checkpoint.v ===== *)
(** The mid-sieve checkpoint ([src/src/common/sieve_checkpoint.h], [sieve_checkpoint.cpp]): the file, its reader, the
    crash-safe commit on a file system with renames, and the in-place deduplication of the copy that is saved.

    A file system is its current directory together with the older directories a power loss may bring back (those since the
    directory was last forced); a file's contents survive a power loss when they were forced. The results of the
    system calls are arguments. *)
From Stdlib Require Import ZArith Lia.
From stdpp Require Import base gmap sets list.
From S2P Require Import Prelude Bytes Soa Accumulator RelationIo.
#[local] Open Scope Z_scope.

(** ** Data *)

Definition CKPT_TRAILER_MAGIC : bytes := [77; 80; 81; 83; 95; 67; 75; 80; 84].
Definition CKPT_FOOTER_MAGIC : bytes := [77; 80; 81; 83; 95; 67; 75; 70; 84].
Definition CKPT_SCHEMA_VERSION : Z := 1.
Definition CKPT_FOOTER_SIZE : Z := 9 + 8 + 8 + 4.

Record CheckpointTrailer := mkTrailer {
  t_global_a_index : Z; t_target_relations : Z; t_loaded_smooths_raw : Z; t_loaded_smooths_dedup : Z; t_loaded_partials : Z;
  t_lp1_bound : Z; t_sieve_bound : Z; t_N : Z; t_cluster_section_present : Z; t_elapsed_sieve_sec : Z
}.

Record CheckpointClusterBlock := mkBlock { b_completed_prefix_cursor : Z; b_initial_high_water : list Z }.

Record CheckpointLoadResult := mkLoad {
  lr_ok : bool;
  lr_trailer : CheckpointTrailer;
  lr_cluster : CheckpointClusterBlock;
  lr_smooths : HostRelationBatch;
  lr_partials : HostRelationBatch;
  lr_meta : V2Metadata
}.

Definition load_empty : CheckpointLoadResult :=
  mkLoad false (mkTrailer 0 0 0 0 0 0 0 0 0 0) (mkBlock 0 []) batch_empty batch_empty meta_empty.

Definition with_ok (r : CheckpointLoadResult) (ok : bool) : CheckpointLoadResult :=
  mkLoad ok (lr_trailer r) (lr_cluster r) (lr_smooths r) (lr_partials r) (lr_meta r).
Definition with_trailer (r : CheckpointLoadResult) (t : CheckpointTrailer) : CheckpointLoadResult :=
  mkLoad (lr_ok r) t (lr_cluster r) (lr_smooths r) (lr_partials r) (lr_meta r).
Definition with_cluster (r : CheckpointLoadResult) (c : CheckpointClusterBlock) : CheckpointLoadResult :=
  mkLoad (lr_ok r) (lr_trailer r) c (lr_smooths r) (lr_partials r) (lr_meta r).
Definition with_payload (r : CheckpointLoadResult) (p : HostRelationBatch * HostRelationBatch * V2Metadata) : CheckpointLoadResult :=
  mkLoad (lr_ok r) (lr_trailer r) (lr_cluster r) p.1.1 p.1.2 p.2.

(** ** Writing *)

Definition serializeTrailer (t : CheckpointTrailer) : bytes :=
  CKPT_TRAILER_MAGIC ++ le 4 CKPT_SCHEMA_VERSION ++ le 8 (t_global_a_index t) ++ le 8 (t_target_relations t)
  ++ le 8 (t_loaded_smooths_raw t) ++ le 8 (t_loaded_smooths_dedup t) ++ le 8 (t_loaded_partials t) ++ le 8 (t_lp1_bound t)
  ++ le 4 (t_sieve_bound t) ++ le 64 (t_N t) ++ le 1 (t_cluster_section_present t) ++ le 8 (t_elapsed_sieve_sec t).

Definition serializeClusterBlock (cb : CheckpointClusterBlock) : bytes :=
  le 8 (b_completed_prefix_cursor cb) ++ le 4 (wrap 32 (zlen (b_initial_high_water cb))) ++ arr_bytes 8 (b_initial_high_water cb).

(** The trailer region and the bytes appended to a payload of [trailer_offset] bytes. *)
Definition trailer_region (trailer : CheckpointTrailer) (cluster : option CheckpointClusterBlock) : bytes :=
  serializeTrailer trailer ++
  match cluster with
  | Some cb => if negb (t_cluster_section_present trailer =? 0) then serializeClusterBlock cb else []
  | None => []
  end.

Definition checkpoint_tail (trailer : CheckpointTrailer) (cluster : option CheckpointClusterBlock) (trailer_offset : Z) : bytes :=
  let region := trailer_region trailer cluster in
  region ++ CKPT_FOOTER_MAGIC ++ le 8 trailer_offset ++ le 8 (zlen region) ++ le 4 CKPT_SCHEMA_VERSION.

(** ** Reading *)

Definition seekg (off : Z) : Reader unit := fun f =>
  if in_good f then Ret (tt, if off <? 0 then mkIn (in_data f) (in_pos f) false else mkIn (in_data f) off true) else Ret (tt, f).

Definition tellg : Reader Z := fun f => Ret (if in_good f then in_pos f else -1, f).

(** [get(f, v)]: whether the stream is still without error, and the variable. *)
Definition get (n : nat) (old : Z) : Reader (bool * Z) := v ← read_into n old; ok ← good; mret (ok, v).

Section readers.
Context (max_bytes : Z).

Fixpoint read_high_water (l : list Z) : Reader (bool * list Z) :=
  match l with
  | [] => mret (true, [])
  | old :: l =>
      '(ok, v) ← get 8 old;
      if (ok : bool) then '(ok, l) ← read_high_water l; mret (ok : bool, v :: l) else mret (false, v :: l)
  end.

Definition readClusterBlock (cb : CheckpointClusterBlock) (region_bytes_left : Z) : Reader (bool * CheckpointClusterBlock) :=
  '(ok, cursor) ← get 8 (b_completed_prefix_cursor cb);
  let cb := mkBlock cursor (b_initial_high_water cb) in
  if negb ok then mret (false, cb)
  else
    '(ok, node_count) ← get 4 0;
    if negb ok then mret (false, cb)
    else if region_bytes_left <? wrap 64 (node_count * 8 + 12) then mret (false, cb)
    else
      hw ← resize_vec max_bytes 8 (b_initial_high_water cb) node_count;
      '(ok, hw) ← read_high_water hw;
      mret (ok : bool, mkBlock cursor hw).

(** A field of the trailer: its size, and how it is read and set. *)
Definition trailer_fields : list (nat * (CheckpointTrailer -> Z) * (CheckpointTrailer -> Z -> CheckpointTrailer)) :=
  [(8%nat, t_global_a_index, fun t v => mkTrailer v (t_target_relations t) (t_loaded_smooths_raw t) (t_loaded_smooths_dedup t) (t_loaded_partials t) (t_lp1_bound t) (t_sieve_bound t) (t_N t) (t_cluster_section_present t) (t_elapsed_sieve_sec t));
   (8%nat, t_target_relations, fun t v => mkTrailer (t_global_a_index t) v (t_loaded_smooths_raw t) (t_loaded_smooths_dedup t) (t_loaded_partials t) (t_lp1_bound t) (t_sieve_bound t) (t_N t) (t_cluster_section_present t) (t_elapsed_sieve_sec t));
   (8%nat, t_loaded_smooths_raw, fun t v => mkTrailer (t_global_a_index t) (t_target_relations t) v (t_loaded_smooths_dedup t) (t_loaded_partials t) (t_lp1_bound t) (t_sieve_bound t) (t_N t) (t_cluster_section_present t) (t_elapsed_sieve_sec t));
   (8%nat, t_loaded_smooths_dedup, fun t v => mkTrailer (t_global_a_index t) (t_target_relations t) (t_loaded_smooths_raw t) v (t_loaded_partials t) (t_lp1_bound t) (t_sieve_bound t) (t_N t) (t_cluster_section_present t) (t_elapsed_sieve_sec t));
   (8%nat, t_loaded_partials, fun t v => mkTrailer (t_global_a_index t) (t_target_relations t) (t_loaded_smooths_raw t) (t_loaded_smooths_dedup t) v (t_lp1_bound t) (t_sieve_bound t) (t_N t) (t_cluster_section_present t) (t_elapsed_sieve_sec t));
   (8%nat, t_lp1_bound, fun t v => mkTrailer (t_global_a_index t) (t_target_relations t) (t_loaded_smooths_raw t) (t_loaded_smooths_dedup t) (t_loaded_partials t) v (t_sieve_bound t) (t_N t) (t_cluster_section_present t) (t_elapsed_sieve_sec t));
   (4%nat, t_sieve_bound, fun t v => mkTrailer (t_global_a_index t) (t_target_relations t) (t_loaded_smooths_raw t) (t_loaded_smooths_dedup t) (t_loaded_partials t) (t_lp1_bound t) v (t_N t) (t_cluster_section_present t) (t_elapsed_sieve_sec t));
   (64%nat, t_N, fun t v => mkTrailer (t_global_a_index t) (t_target_relations t) (t_loaded_smooths_raw t) (t_loaded_smooths_dedup t) (t_loaded_partials t) (t_lp1_bound t) (t_sieve_bound t) v (t_cluster_section_present t) (t_elapsed_sieve_sec t));
   (1%nat, t_cluster_section_present, fun t v => mkTrailer (t_global_a_index t) (t_target_relations t) (t_loaded_smooths_raw t) (t_loaded_smooths_dedup t) (t_loaded_partials t) (t_lp1_bound t) (t_sieve_bound t) (t_N t) v (t_elapsed_sieve_sec t));
   (8%nat, t_elapsed_sieve_sec, fun t v => mkTrailer (t_global_a_index t) (t_target_relations t) (t_loaded_smooths_raw t) (t_loaded_smooths_dedup t) (t_loaded_partials t) (t_lp1_bound t) (t_sieve_bound t) (t_N t) (t_cluster_section_present t) v)].

Fixpoint read_fields (fields : list (nat * (CheckpointTrailer -> Z) * (CheckpointTrailer -> Z -> CheckpointTrailer))) (t : CheckpointTrailer)
    : Reader (bool * CheckpointTrailer) :=
  match fields with
  | [] => mret (true, t)
  | (n, sel, set) :: fields =>
      '(ok, v) ← get n (sel t);
      if (ok : bool) then read_fields fields (set t v) else mret (false, set t v)
  end.

Definition readTrailer (t : CheckpointTrailer) : Reader (bool * CheckpointTrailer) :=
  magic ← fread 9;
  ok ← good;
  if negb ok || negb (bool_decide (magic = CKPT_TRAILER_MAGIC)) then mret (false, t)
  else
    '(ok, schema) ← get 4 0;
    if negb ok || negb (schema =? CKPT_SCHEMA_VERSION) then mret (false, t)
    else read_fields trailer_fields t.

(** The footer: the offset and the length of the trailer region. *)
Definition readFooter (fsz : Z) : Reader (option (Z * Z)) :=
  _ ← seekg (fsz - CKPT_FOOTER_SIZE);
  fmagic ← fread 9;
  '(ok1, trailer_offset) ← get 8 0;
  '(ok2, trailer_len) ← get 8 0;
  '(ok3, fver) ← get 4 0;
  if negb (ok1 && ok2 && ok3) then mret None
  else if negb (bool_decide (fmagic = CKPT_FOOTER_MAGIC)) then mret None
  else if negb (fver =? CKPT_SCHEMA_VERSION) then mret None
  else if negb (wrap 64 (trailer_offset + trailer_len + CKPT_FOOTER_SIZE) =? fsz) then mret None
  else mret (Some (trailer_offset, trailer_len)).

(** Trailer and cluster block. *)
Definition readRegion (trailer_offset trailer_len : Z) (out : CheckpointLoadResult) : Reader (bool * CheckpointLoadResult) :=
  _ ← seekg (to_signed 64 trailer_offset);
  '(ok, t) ← readTrailer (lr_trailer out);
  let out := with_trailer out t in
  if negb ok then mret (false, out)
  else if negb (t_cluster_section_present t =? 0) then
    pos ← tellg;
    let consumed := wrap 64 (pos - trailer_offset) in
    let region_left := if consumed <? trailer_len then trailer_len - consumed else 0 in
    '(ok, cb) ← readClusterBlock (lr_cluster out) region_left;
    let out := with_cluster out cb in
    if negb ok then mret (false, out)
    else
      end_pos ← tellg;
      mret (wrap 64 end_pos =? wrap 64 (trailer_offset + trailer_len), out)
  else mret (true, out).

Definition readTail (fsz : Z) (out : CheckpointLoadResult) : Reader (bool * CheckpointLoadResult) :=
  footer ← readFooter fsz;
  match footer with
  | None => mret (false, out)
  | Some (trailer_offset, trailer_len) => readRegion trailer_offset trailer_len out
  end.

(** The function's result is [lr_ok]. *)
Definition readCheckpoint (file : option bytes) (out : CheckpointLoadResult) : outcome CheckpointLoadResult :=
  let out := with_ok out false in
  match file with
  | None => Ret out
  | Some data =>
      let fsz := zlen data in
      if fsz <? CKPT_FOOTER_SIZE then Ret out
      else
        '((ok, out), _) ← readTail fsz out (mkIn data 0 true);
        if negb ok then Ret out
        else
          '(ok, p) ← deserialize_v2 max_bytes file (lr_smooths out) (lr_partials out) (lr_meta out);
          let out := with_payload out p in
          if negb ok then Ret out else Ret (with_ok out true)
  end.

Definition loadLatestCheckpoint (live prev : option bytes) (out : CheckpointLoadResult) : outcome CheckpointLoadResult :=
  out ← (if bool_decide (is_Some live) then readCheckpoint live out else Ret (with_ok out false));
  if lr_ok out then Ret out
  else if bool_decide (is_Some prev) then readCheckpoint prev out else Ret out.
End readers.

(** ** The file system and the atomic write *)

Record file := mkFile { f_data : bytes; f_durable : bool }.
Record dir := mkDir { d_live : option file; d_tmp : option file; d_prev : option file }.
Record fs := mkFs { fs_older : list dir; fs_now : dir }.

(** Results of the system calls of one write: removal of the old temporary file; whether the payload's stream opens, how much of
    the payload reaches the file, whether the stream ends without error; size; the second open, the calls of [write],
    [fsync]; the two renames; [fsync] of the directory. *)
Record io := mkIo {
  io_unlink : bool; io_open : bool; io_flush : nat; io_good : bool; io_size : bool; io_append : bool; io_writes : list Z; io_fsync : bool;
  io_rename_prev : bool; io_rename_live : bool; io_dir : bool
}.

(** A new directory; the old one may come back until the directory is forced. *)
Definition change (s : fs) (d : dir) : fs := mkFs (fs_older s ++ [fs_now s]) d.
Definition set_tmp (s : fs) (f : option file) : fs := change s (mkDir (d_live (fs_now s)) f (d_prev (fs_now s))).

(** [while (off < tail.size())]: the bytes written, and whether all were; a missing result is an error. *)
Fixpoint write_loop (results : list Z) (tail : bytes) : bytes * bool :=
  match tail, results with
  | [], _ => ([], true)
  | _, [] => ([], false)
  | _, n :: results =>
      if n <=? 0 then ([], false)
      else let '(written, ok) := write_loop results (drop (Z.to_nat n) tail) in (take (Z.to_nat n) tail ++ written, ok)
  end.

(** The renames: the states they lead through, and the result. *)
Definition commit_renames (e : io) (s : fs) : list fs * bool :=
  let d := fs_now s in
  let s1 := match d_live d with
            | Some f => if io_rename_prev e then [change s (mkDir None (d_tmp d) (Some f))] else []
            | None => []
            end in
  let s' := default s (last s1) in
  let d := fs_now s' in
  if io_rename_live e then
    let s2 := change s' (mkDir (d_tmp d) None (d_prev d)) in
    (s1 ++ [s2] ++ (if io_dir e then [mkFs [] (fs_now s2)] else []), true)
  else (s1, false).

(** Trailer and footer behind the payload, forced to the disk. *)
Definition append_tail (e : io) (payload tail : bytes) (s : fs) : list fs * bool :=
  if negb (io_append e) then ([], false)
  else
    let '(written, wr_ok) := write_loop (io_writes e) tail in
    let states := map (fun k => set_tmp s (Some (mkFile (payload ++ take k written) false))) (seq 0 (S (length written))) in
    if negb wr_ok || negb (io_fsync e) then (states, false)
    else
      let s := set_tmp s (Some (mkFile (payload ++ written) true)) in
      let '(more, ok) := commit_renames e s in
      (states ++ [s] ++ more, ok).

(** All states the file system goes through, and the result; [None] where the writer reads outside a vector. *)
Definition writeCheckpointAtomic (e : io) (smooths partials : HostRelationBatch) (meta : V2Metadata)
    (trailer : CheckpointTrailer) (cluster : option CheckpointClusterBlock) (s : fs) : option (list fs * bool) :=
  let s0 := if io_unlink e then set_tmp s None else s in
  payload ← serialize_v2 smooths partials meta;
  if negb (io_open e) then Some ([s; s0], false)
  else
    let flushed := take (io_flush e) payload in
    let states := map (fun k => set_tmp s0 (Some (mkFile (take k flushed) false))) (seq 0 (S (length flushed))) in
    if negb (io_good e) then Some ([s; s0] ++ states, false)
    else if negb (io_size e) then Some ([s; s0] ++ states, false)
    else
      let trailer_offset := zlen flushed in
      let '(more, ok) := append_tail e flushed (checkpoint_tail trailer cluster trailer_offset) (default s0 (last states)) in
      Some ([s; s0] ++ states ++ more, ok).

(** After a power loss: one of the directories that were not superseded on the disk; a file that was not forced holds anything. *)
Definition settled (f f' : option file) : Prop :=
  match f, f' with
  | Some f, Some f' => f_durable f = true -> f' = f
  | None, None => True
  | _, _ => False
  end.

Definition power_loss (s s' : fs) : Prop :=
  exists d, d ∈ fs_older s ++ [fs_now s] /\ fs_older s' = [] /\
    settled (d_live d) (d_live (fs_now s')) /\ settled (d_tmp d) (d_tmp (fs_now s')) /\ settled (d_prev d) (d_prev (fs_now s')).

Definition load (max_bytes : Z) (s : fs) (out : CheckpointLoadResult) : outcome CheckpointLoadResult :=
  loadLatestCheckpoint max_bytes (f_data <$> d_live (fs_now s)) (f_data <$> d_prev (fs_now s)) out.

(** ** Deduplication of the saved copy *)

Definition dedup_one (b : HostRelationBatch) (has_char : bool) (st : HostRelationBatch * gset Z) (i : Z) : HostRelationBatch * gset Z :=
  let '(out, seen) := st in
  let h := computeRelationHash b i in
  if decide (h ∈ seen) then (out, seen)
  else
    let fstart := idx (factor_offsets b) i in
    let fend := idx (factor_offsets b) (i + 1) in
    let '(fi, fc) := append_factors b fstart (Z.to_nat (fend - fstart)) (factor_indices out) (factor_counts out) in
    let nf := wrap 64 (num_factors out + wrap 64 (fend - fstart)) in
    (mkBatch (sqrt_Q out ++ [idx (sqrt_Q b) i]) (signs out ++ [idx (signs b) i]) (val_2_exps out ++ [idx (val_2_exps b) i])
       (large_primes out ++ [idx (large_primes b) i]) (char_bits out ++ [if has_char : bool then idx (char_bits b) i else 0])
       (factor_offsets out ++ [nf]) fi fc (wrap 64 (num_relations out + 1)) nf, {[h]} ∪ seen).

Definition dedupRelationsInPlace (b : HostRelationBatch) : HostRelationBatch :=
  if num_relations b =? 0 then b
  else
    let has_char := Z.of_nat (length (char_bits b)) =? num_relations b in
    (foldl (dedup_one b has_char) (mkBatch [] [] [] [] [] [0] [] [] 0 0, ∅) (map Z.of_nat (seq 0 (Z.to_nat (num_relations b))))).1.

(** ** Vocabulary of the specifications *)

(** What one call saves. *)
Record attempt := mkAttempt {
  at_smooths : HostRelationBatch; at_partials : HostRelationBatch; at_meta : V2Metadata;
  at_trailer : CheckpointTrailer; at_cluster : option CheckpointClusterBlock
}.

Record trailer_ok (t : CheckpointTrailer) : Prop := mkTrailerOk {
  to_a_index : in_width 64 (t_global_a_index t); to_target : in_width 64 (t_target_relations t); to_raw : in_width 64 (t_loaded_smooths_raw t);
  to_dedup : in_width 64 (t_loaded_smooths_dedup t); to_partials : in_width 64 (t_loaded_partials t); to_lp1 : in_width 64 (t_lp1_bound t);
  to_bound : in_width 32 (t_sieve_bound t); to_N : in_width 512 (t_N t); to_present : in_width 8 (t_cluster_section_present t);
  to_elapsed : in_width 64 (t_elapsed_sieve_sec t)
}.

Record block_ok (max : Z) (cb : CheckpointClusterBlock) : Prop := mkBlockOk {
  bo_cursor : in_width 64 (b_completed_prefix_cursor cb);
  bo_entries : Forall (in_width 64) (b_initial_high_water cb);
  bo_count : zlen (b_initial_high_water cb) < 2 ^ 32;
  bo_size : 8 * zlen (b_initial_high_water cb) <= max
}.

(** A trailer that announces a cluster block comes with one. *)
Record attempt_ok (max : Z) (a : attempt) : Prop := mkAttemptOk {
  ao_smooths : vectors_ok max (at_smooths a);
  ao_partials : vectors_ok max (at_partials a);
  ao_meta : meta_ok max (at_meta a);
  ao_trailer : trailer_ok (at_trailer a);
  ao_cluster : t_cluster_section_present (at_trailer a) <> 0 -> exists cb, at_cluster a = Some cb /\ block_ok max cb;
  ao_small : forall payload, serialize_v2 (at_smooths a) (at_partials a) (at_meta a) = Some payload -> zlen payload < 2 ^ 62
}.

Definition image (a : attempt) (payload : bytes) : bytes := payload ++ checkpoint_tail (at_trailer a) (at_cluster a) (zlen payload).

(** What loading an attempt leaves in [out]. *)
Definition loaded (a : attempt) (out : CheckpointLoadResult) : CheckpointLoadResult :=
  let has_char := 0 <? m_r (at_meta a) in
  mkLoad true (at_trailer a)
    (if t_cluster_section_present (at_trailer a) =? 0 then lr_cluster out else default (lr_cluster out) (at_cluster a))
    (section_back has_char (at_smooths a) (lr_smooths out))
    (if 0 <? num_relations (at_partials a) then section_back has_char (at_partials a) (lr_partials out) else batch_empty)
    (meta_back (at_meta a) (lr_meta out)).

(** The history of a program: the attempts so far with the results of their system calls, the number of them when a write last reported
    success, and the number when one last reported success with the directory forced. *)
Record history := mkHist { h_writes : list (io * attempt); h_done : nat; h_safe : nat }.

Definition h_attempts (h : history) : list attempt := map snd (h_writes h).

Definition write_of (e : io) (a : attempt) (s : fs) : option (list fs * bool) :=
  writeCheckpointAtomic e (at_smooths a) (at_partials a) (at_meta a) (at_trailer a) (at_cluster a) s.

(** A stream that ends without error has delivered the payload. Neither [std::ofstream] nor the code, which asks [good()] before the
    stream is closed, guarantees it: it is no part of [run]. *)
Definition flushed (e : io) (a : attempt) : Prop :=
  forall payload, serialize_v2 (at_smooths a) (at_partials a) (at_meta a) = Some payload -> io_good e = true -> (length payload <= io_flush e)%nat.

(** Writes that report success, writes that fail or are killed at any of their states, and power losses. *)
Inductive run (max : Z) : history -> fs -> Prop :=
  | run_start : run max (mkHist [] 0 0) (mkFs [] (mkDir None None None))
  | run_write h s a e states s' : run max h s -> attempt_ok max a ->
      write_of e a s = Some (states, true) -> last states = Some s' ->
      run max (mkHist (h_writes h ++ [(e, a)]) (S (length (h_writes h))) (if io_dir e then S (length (h_writes h)) else h_safe h)) s'
  | run_stopped h s a e states ok s' : run max h s -> attempt_ok max a ->
      write_of e a s = Some (states, ok) -> s' ∈ states -> run max (mkHist (h_writes h ++ [(e, a)]) (h_done h) (h_safe h)) s'
  | run_power h s s' : run max h s -> power_loss s s' -> run max (mkHist (h_writes h) (h_safe h) (h_safe h)) s'.

(** A file that holds an attempt; a directory from which one with at least [lo] predecessors (itself included) loads. *)
Definition saved_in (attempts : list attempt) (f : file) (i : nat) : Prop :=
  exists a payload, attempts !! i = Some a /\ serialize_v2 (at_smooths a) (at_partials a) (at_meta a) = Some payload /\
    f_data f = image a payload /\ f_durable f = true.

Record dir_ok (attempts : list attempt) (lo : nat) (d : dir) : Prop := mkDirOk {
  do_live : forall f, d_live d = Some f -> exists i, saved_in attempts f i /\ (lo <= S i)%nat;
  do_prev : forall f, d_prev d = Some f -> exists i, saved_in attempts f i /\ (d_live d = None -> (lo <= S i)%nat);
  do_some : (0 < lo)%nat -> is_Some (d_live d) \/ is_Some (d_prev d)
}.

(** ** Vocabulary of the specifications *)

(** The directory in use and the ones a power loss may bring back. *)
Definition fs_ok (attempts : list attempt) (lo lo' : nat) (s : fs) : Prop :=
  (lo' <= lo)%nat /\ dir_ok attempts lo (fs_now s) /\ Forall (dir_ok attempts lo') (fs_older s).

Definition clear_char (r : relation) : relation := mkRel (r_sqrt_Q r) (r_sign r) (r_val2 r) (r_lp r) 0 (r_factors r).

(** The relations that are saved: without the character bits, unless there is exactly one word of them per relation. *)
Definition saved (b : HostRelationBatch) (rs : list relation) : list relation :=
  if Z.of_nat (length (char_bits b)) =? num_relations b then rs else map clear_char rs.

Definition demo_attempt : attempt :=
  mkAttempt demo_batch batch_empty demo_meta (mkTrailer 0 5000 2 2 0 0 65536 1649 1 60) (Some (mkBlock 7 [3; 4])).

(** ** Lemmas: reading a checkpoint *)

Lemma reads_get n x old : in_width (8 * Z.of_nat n) x -> reads (get n old) (le n x) (true, x).
Proof.
  intros Hx. unfold get. eapply reads_bind_ret; [by apply reads_into|]. eapply reads_ret_bind; [apply reads_good|]. apply reads_ret.
Qed.

Lemma reads_high_water l old : Forall (in_width 64) l -> length old = length l -> reads (read_high_water old) (arr_bytes 8 l) (true, l).
Proof.
  intros H. revert old. induction H as [|x l Hx _ IH]; intros [|o old] HL; try done; cbn [read_high_water].
  - apply reads_ret.
  - change (arr_bytes 8 (x :: l)) with (le 8 x ++ arr_bytes 8 l). eapply reads_bind; [by apply reads_get|].
    eapply reads_bind_ret; [apply IH; by injection HL|]. apply reads_ret.
Qed.

Lemma reads_block max cb old left :
  block_ok max cb -> zlen (serializeClusterBlock cb) <= left -> reads (readClusterBlock max old left) (serializeClusterBlock cb) (true, cb).
Proof.
  intros [H1 H2 H3 H4] HL. unfold readClusterBlock, serializeClusterBlock in *. pose proof (zlen_nonneg (b_initial_high_water cb)) as H0.
  rewrite (wrap_small 32) in * by (split; [done|exact H3]). rewrite !zlen_app, !zlen_le, zlen_arr_bytes in HL.
  eapply reads_bind; [by apply reads_get|]. cbn [negb]. eapply reads_bind; [apply reads_get; split; [done|exact H3]|]. cbn [negb].
  rewrite (wrap_small 64) by (unfold in_width; lia). destruct (Z.ltb_spec left (zlen (b_initial_high_water cb) * 8 + 12)); [lia|].
  eapply reads_ret_bind; [apply reads_resize; lia|].
  eapply reads_bind_ret; [apply reads_high_water; [done|rewrite length_resized; unfold zlen; lia]|]. destruct cb. apply reads_ret.
Qed.

Lemma reads_fields x fields t : Forall (fun fd => in_width (8 * Z.of_nat fd.1.1) (fd.1.2 x)) fields ->
  reads (read_fields fields t) (concat (map (fun fd => le fd.1.1 (fd.1.2 x)) fields)) (true, foldl (fun t fd => fd.2 t (fd.1.2 x)) t fields).
Proof.
  intros H. revert t. induction H as [|[[n sel] set] fields Hx _ IH]; intros t; cbn [read_fields map concat foldl fst snd]; [apply reads_ret|].
  eapply reads_bind; [by apply reads_get|]. apply IH.
Qed.

Lemma set_fields x t : foldl (fun t fd => fd.2 t (fd.1.2 x)) t trailer_fields = x.
Proof. destruct x, t. by vm_compute. Qed.

Lemma reads_trailer x old : trailer_ok x -> reads (readTrailer old) (serializeTrailer x) (true, x).
Proof.
  intros [H1 H2 H3 H4 H5 H6 H7 H8 H9 H10]. unfold readTrailer, serializeTrailer.
  eapply reads_bind; [by apply reads_fread|]. eapply reads_ret_bind; [apply reads_good|]. rewrite bool_decide_eq_true_2 by done. cbn [negb orb].
  eapply reads_bind; [by apply reads_get|]. cbn [negb orb Z.eqb Pos.eqb CKPT_SCHEMA_VERSION].
  assert (Forall (fun fd => in_width (8 * Z.of_nat fd.1.1) (fd.1.2 x)) trailer_fields) as HF.
  { unfold trailer_fields. do 10 (apply Forall_cons; split; [assumption|]). by apply Forall_nil. }
  pose proof (reads_fields x trailer_fields old HF) as H. rewrite set_fields in H. rewrite <- (app_nil_r (le 8 (t_elapsed_sieve_sec x))). exact H.
Qed.

Lemma length_serializeTrailer t : zlen (serializeTrailer t) = 138.
Proof. unfold serializeTrailer. rewrite !zlen_app, !zlen_le. done. Qed.

(** Reading at an offset. *)
Lemma seek_read {A} off (k : unit -> Reader A) data p : 0 <= off -> (seekg off ≫= k) (mkIn data p true) = k tt (mkIn data off true).
Proof. intros H. unfold mbind, reader_bind, seekg. cbn [in_good in_data]. destruct (Z.ltb_spec off 0); [lia|]. done. Qed.

Lemma reads_at {A} (m : Reader A) pre b post a off data : reads m b a -> data = pre ++ b ++ post -> off = zlen pre ->
  m (mkIn data off true) = Ret (a, mkIn data (off + zlen b) true).
Proof. intros H -> ->. apply H. Qed.

Lemma readFooter_ok body off len p :
  in_width 64 off -> in_width 64 len -> off + len = zlen body -> zlen body + 29 < 2 ^ 64 ->
  let data := body ++ CKPT_FOOTER_MAGIC ++ le 8 off ++ le 8 len ++ le 4 CKPT_SCHEMA_VERSION in
  readFooter (zlen data) (mkIn data p true) = Ret (Some (off, len), mkIn data (zlen data) true).
Proof.
  intros Ho Hl E Hb data. assert (zlen data = zlen body + 29) as L by (unfold data; rewrite !zlen_app, !zlen_le; done).
  pose proof (zlen_nonneg body) as H0. unfold readFooter. rewrite seek_read by (rewrite L; unfold CKPT_FOOTER_SIZE; lia). rewrite L.
  match goal with |- ?m _ = _ => assert (reads m (CKPT_FOOTER_MAGIC ++ le 8 off ++ le 8 len ++ le 4 CKPT_SCHEMA_VERSION) (Some (off, len))) as H end.
  { eapply reads_bind; [by apply reads_fread|]. do 2 (eapply reads_bind; [by apply reads_get|]; cbv beta iota). eapply reads_bind_ret; [by apply reads_get|].
    cbn [andb negb]. rewrite bool_decide_eq_true_2 by done. cbn [negb Z.eqb Pos.eqb CKPT_SCHEMA_VERSION]. unfold CKPT_FOOTER_SIZE.
    rewrite (wrap_small 64) by (unfold in_width in *; lia). rewrite (proj2 (Z.eqb_eq _ _)) by lia. apply reads_ret. }
  assert (data = body ++ (CKPT_FOOTER_MAGIC ++ le 8 off ++ le 8 len ++ le 4 CKPT_SCHEMA_VERSION) ++ []) as ED by by rewrite app_nil_r.
  rewrite (reads_at _ body _ [] _ _ _ H ED) by (unfold CKPT_FOOTER_SIZE; lia).
  do 3 f_equal. rewrite !zlen_app, !zlen_le. unfold CKPT_FOOTER_SIZE. change (zlen CKPT_FOOTER_MAGIC) with 9. lia.
Qed.

Lemma bind_step {A B} (m : Reader A) (k : A -> Reader B) f a f' : m f = Ret (a, f') -> (m ≫= k) f = k a f'.
Proof. intros H. unfold mbind, reader_bind. by rewrite H. Qed.

Lemma tell_good data p : tellg (mkIn data p true) = Ret (p, mkIn data p true).
Proof. done. Qed.

Lemma to_signed_small x : 0 <= x < 2 ^ 63 -> to_signed 64 x = x.
Proof. intros H. unfold to_signed. destruct (Z.ltb_spec x (2 ^ (64 - 1))); [done|]. cbn in *. lia. Qed.

Lemma readRegion_ok max a payload rest out :
  attempt_ok max a -> zlen payload + zlen (trailer_region (at_trailer a) (at_cluster a)) < 2 ^ 63 ->
  exists f, readRegion max (zlen payload) (zlen (trailer_region (at_trailer a) (at_cluster a))) out
      (mkIn (payload ++ trailer_region (at_trailer a) (at_cluster a) ++ rest) (zlen (payload ++ trailer_region (at_trailer a) (at_cluster a) ++ rest)) true)
    = Ret ((true, with_cluster (with_trailer out (at_trailer a))
                    (if t_cluster_section_present (at_trailer a) =? 0 then lr_cluster out else default (lr_cluster out) (at_cluster a))), f).
Proof.
  intros Ha Hsz. set (t := at_trailer a) in *. set (region := trailer_region t (at_cluster a)) in *. pose proof (zlen_nonneg payload) as HP. pose proof (zlen_nonneg region) as HR.
  unfold readRegion. rewrite to_signed_small by lia. rewrite seek_read by lia.
  assert (region = serializeTrailer t ++ (if t_cluster_section_present t =? 0 then [] else from_option serializeClusterBlock [] (at_cluster a))) as ER.
  { unfold region, trailer_region. destruct (at_cluster a); destruct (t_cluster_section_present t =? 0); cbn; by rewrite ?app_nil_r. }
  pose proof (reads_trailer t (lr_trailer out) (ao_trailer _ _ Ha)) as HT.
  set (block := if t_cluster_section_present t =? 0 then [] else from_option serializeClusterBlock [] (at_cluster a)) in ER.
  assert (payload ++ region ++ rest = payload ++ serializeTrailer t ++ block ++ rest) as ED by by rewrite ER, <- app_assoc.
  rewrite (bind_step _ _ _ _ _ (reads_at _ payload _ (block ++ rest) _ _ _ HT ED eq_refl)). cbv beta iota. cbn [negb].
  destruct (Z.eqb_spec (t_cluster_section_present t) 0) as [Hz|Hz]; cbn [negb]; [by eexists|].
  destruct (ao_cluster _ _ Ha Hz) as (cb & Ec & Hcb).
  assert (block = serializeClusterBlock cb) as Eb by (unfold block; by rewrite Ec). clearbody block. rewrite Ec. cbn [default].
  assert (zlen region = 138 + zlen block) as EL by (rewrite ER, zlen_app, length_serializeTrailer; lia). pose proof (zlen_nonneg block).
  rewrite (bind_step _ _ _ _ _ (tell_good _ _)). cbv beta zeta.
  rewrite length_serializeTrailer, (wrap_small 64 (zlen payload + 138 - zlen payload)) by (unfold in_width; lia).
  subst block. assert (12 <= zlen (serializeClusterBlock cb)) as HL.
  { unfold serializeClusterBlock. rewrite !zlen_app, !zlen_le. pose proof (zlen_nonneg (arr_bytes 8 (b_initial_high_water cb))). lia. }
  destruct (Z.ltb_spec (zlen payload + 138 - zlen payload) (zlen region)); [|lia].
  assert (reads (readClusterBlock max (lr_cluster (with_trailer out t)) (zlen region - (zlen payload + 138 - zlen payload))) (serializeClusterBlock cb) (true, cb)) as HB by (apply reads_block; [done|lia]).
  erewrite bind_step by (apply (reads_at _ (payload ++ serializeTrailer t) _ rest _ _ _ HB); [by rewrite ED, <- !app_assoc|by rewrite zlen_app, length_serializeTrailer; lia]).
  cbv beta iota. cbn [negb]. rewrite (bind_step _ _ _ _ _ (tell_good _ _)).
  rewrite !(wrap_small 64) by (unfold in_width; lia). rewrite (proj2 (Z.eqb_eq _ _)) by lia. by eexists.
Qed.

Lemma region_bound max a : attempt_ok max a -> zlen (trailer_region (at_trailer a) (at_cluster a)) < 2 ^ 36.
Proof.
  intros Ha. unfold trailer_region. rewrite zlen_app, length_serializeTrailer. destruct (Z.eqb_spec (t_cluster_section_present (at_trailer a)) 0) as [Hz|Hz].
  - cbn [negb]. by destruct (at_cluster a).
  - destruct (ao_cluster _ _ Ha Hz) as (cb & -> & Hcb). cbn [negb]. unfold serializeClusterBlock. rewrite !zlen_app, !zlen_le, zlen_arr_bytes.
    pose proof (bo_count _ _ Hcb). lia.
Qed.

(** An image is read back, whatever [out] held before. *)
Lemma readCheckpoint_image max a payload out :
  max < 2 ^ 64 -> attempt_ok max a -> serialize_v2 (at_smooths a) (at_partials a) (at_meta a) = Some payload ->
  readCheckpoint max (Some (image a payload)) out = Ret (loaded a out).
Proof.
  intros Hm Ha E. pose proof (region_bound max a Ha) as HB. pose proof (ao_small _ _ Ha payload E) as HS. pose proof (zlen_nonneg payload) as H0.
  set (region := trailer_region (at_trailer a) (at_cluster a)) in *. pose proof (zlen_nonneg region) as H1.
  assert (image a payload = (payload ++ region) ++ CKPT_FOOTER_MAGIC ++ le 8 (zlen payload) ++ le 8 (zlen region) ++ le 4 CKPT_SCHEMA_VERSION) as EI
    by (unfold image, checkpoint_tail; cbv zeta; fold region; by rewrite <- app_assoc).
  assert (zlen (image a payload) = zlen payload + zlen region + 29) as EL by (rewrite EI, !zlen_app, !zlen_le; change (zlen CKPT_FOOTER_MAGIC) with 9; lia).
  unfold readCheckpoint. destruct (Z.ltb_spec (zlen (image a payload)) CKPT_FOOTER_SIZE) as [Hlt|_]; [unfold CKPT_FOOTER_SIZE in Hlt; lia|]. unfold readTail.
  rewrite EI at 1 2.
  rewrite (bind_step _ _ _ _ _ (readFooter_ok (payload ++ region) (zlen payload) (zlen region) 0 ltac:(unfold in_width; lia) ltac:(unfold in_width; lia)
    ltac:(by rewrite zlen_app) ltac:(rewrite zlen_app; lia))). cbv beta iota.
  destruct (readRegion_ok max a payload (CKPT_FOOTER_MAGIC ++ le 8 (zlen payload) ++ le 8 (zlen region) ++ le 4 CKPT_SCHEMA_VERSION) (with_ok out false) Ha ltac:(fold region; lia)) as (f & Ef).
  fold region in Ef. rewrite <- app_assoc. rewrite Ef. cbn [mbind outcome_bind]. cbv beta iota. cbn [negb].
  set (out' := with_cluster _ _). destruct (reads_v2 max Hm _ _ _ (lr_smooths out') (lr_partials out') (lr_meta out') (ao_smooths _ _ Ha) (ao_partials _ _ Ha) (ao_meta _ _ Ha)) as (payload' & E' & HR).
  rewrite E in E'. injection E' as <-. unfold deserialize_v2. rewrite EI, <- app_assoc. rewrite (reads_start _ _ _ _ HR). cbn [mbind outcome_bind]. cbv beta iota. cbn [negb]. done.
Qed.

(** ** Lemmas: the commit *)

Lemma saved_in_app l1 l2 f i : saved_in l1 f i -> saved_in (l1 ++ l2) f i.
Proof. intros (a & p & Hi & H). exists a, p. split; [by apply lookup_app_l_Some|done]. Qed.

Lemma dir_ok_app l1 l2 lo d : dir_ok l1 lo d -> dir_ok (l1 ++ l2) lo d.
Proof.
  intros [H1 H2 H3]. constructor; [|intros f Hf; destruct (H2 f Hf) as (i & Hh & Hl); exists i; split; [by apply saved_in_app|done]|done].
  intros f Hf. destruct (H1 f Hf) as (i & Hh & Hl). exists i. split; [by apply saved_in_app|done].
Qed.

Lemma dir_ok_mono l lo lo' d : (lo' <= lo)%nat -> dir_ok l lo d -> dir_ok l lo' d.
Proof.
  intros Hl [H1 H2 H3]. constructor; [| |intros ?; apply H3; lia].
  - intros f Hf. destruct (H1 f Hf) as (i & Hh & ?). exists i. split; [done|lia].
  - intros f Hf. destruct (H2 f Hf) as (i & Hh & Hn). exists i. split; [done|]. intros E. specialize (Hn E). lia.
Qed.

Lemma change_ok l lo lo' s d : fs_ok l lo lo' s -> dir_ok l lo d -> fs_ok l lo lo' (change s d).
Proof.
  intros (Hl & Hn & Ho) Hd. split; [done|]. split; [done|]. apply Forall_app. split; [done|]. apply Forall_singleton. by apply dir_ok_mono with lo.
Qed.

Lemma set_tmp_ok l lo lo' s f : fs_ok l lo lo' s -> fs_ok l lo lo' (set_tmp s f).
Proof. intros H. apply change_ok; [done|]. destruct H as (_ & [H1 H2 H3] & _). by constructor. Qed.

Lemma fs_ok_app l1 l2 lo lo' s : fs_ok l1 lo lo' s -> fs_ok (l1 ++ l2) lo lo' s.
Proof. intros (Hl & Hn & Ho). split; [done|]. split; [by apply dir_ok_app|]. eapply Forall_impl; [exact Ho|]. intros d. apply dir_ok_app. Qed.

Lemma commit_renames_ok l lo lo' s e f i states ok :
  fs_ok l lo lo' s -> d_tmp (fs_now s) = Some f -> saved_in l f i -> (lo <= S i)%nat -> commit_renames e s = (states, ok) ->
  Forall (fs_ok l lo lo') states /\
  (ok = true -> exists s', last states = Some s' /\ fs_ok l (S i) (if io_dir e then S i else lo') s').
Proof.
  intros Hs Ht Hf Hi H. unfold commit_renames in H.
  set (s1 := match d_live (fs_now s) with Some f => if io_rename_prev e then [change s (mkDir None (d_tmp (fs_now s)) (Some f))] else [] | None => [] end) in H.
  set (s' := default s (last s1)) in H.
  assert (Forall (fs_ok l lo lo') s1 /\ fs_ok l lo lo' s' /\ d_tmp (fs_now s') = Some f) as (H1 & Hs' & Ht').
  { unfold s', s1. destruct (d_live (fs_now s)) as [g|] eqn:El; [|done]. destruct (io_rename_prev e); [|done].
    assert (fs_ok l lo lo' (change s (mkDir None (d_tmp (fs_now s)) (Some g)))) as Hc.
    { apply change_ok; [done|]. destruct Hs as (_ & [D1 D2 D3] & _). constructor; cbn; [done| |by right].
      intros g' [= <-]. destruct (D1 g El) as (j & ? & ?). by exists j. }
    split; [by apply Forall_singleton|]. by split. }
  clearbody s1 s'. destruct (io_rename_live e); injection H as <- <-; [|split; [done|done]]. rewrite Ht'.
  set (s2 := change s' (mkDir (Some f) None (d_prev (fs_now s')))).
  assert (forall n, (n <= S i)%nat -> dir_ok l n (fs_now s2)) as Hd.
  { intros n Hn. destruct Hs' as (_ & [D1 D2 D3] & _). constructor; cbn; [| |by left].
    - intros g [= <-]. by exists i.
    - intros g Hg. destruct (D2 g Hg) as (j & ? & _). by exists j. }
  assert (fs_ok l lo lo' s2) as H2 by (apply change_ok; [done|by apply Hd]).
  assert (fs_ok l (S i) lo' s2) as H3 by (destruct H2 as (? & ? & ?); split; [lia|]; split; [by apply Hd|done]).
  assert (fs_ok l lo lo' (mkFs [] (fs_now s2))) as H4 by (destruct H2 as (? & ? & ?); split; [lia|]; split; [done|by constructor]).
  split.
  - apply Forall_app. split; [done|]. apply Forall_cons. split; [done|]. destruct (io_dir e); [by apply Forall_singleton|by apply Forall_nil].
  - intros _. destruct (io_dir e); rewrite last_app; cbn [last]; eexists; (split; [done|]); [|done]. split; [lia|]. split; [by apply Hd|constructor].
Qed.

Lemma write_loop_all results tail written : write_loop results tail = (written, true) -> written = tail.
Proof.
  revert tail written. induction results as [|n results IH]; intros [|x tail] written; cbn [write_loop]; try (intros [= <-]; done).
  destruct (n <=? 0); [discriminate|]. destruct (write_loop results _) as [w [|]] eqn:E; [|discriminate]. intros [= <-].
  rewrite (IH _ _ E). apply take_drop.
Qed.

Lemma set_tmps_ok l lo lo' s (g : nat -> bytes) n : fs_ok l lo lo' s -> Forall (fs_ok l lo lo') (map (fun k => set_tmp s (Some (mkFile (g k) false))) (seq 0 n)).
Proof. intros H. apply Forall_map, Forall_forall. intros k _. by apply set_tmp_ok. Qed.

Lemma append_tail_ok l lo lo' s e payload tail i states ok :
  fs_ok l lo lo' s -> saved_in l (mkFile (payload ++ tail) true) i -> (lo <= S i)%nat -> append_tail e payload tail s = (states, ok) ->
  Forall (fs_ok l lo lo') states /\
  (ok = true -> exists s', last states = Some s' /\ fs_ok l (S i) (if io_dir e then S i else lo') s').
Proof.
  intros Hs Hf Hi H. unfold append_tail in H. destruct (io_append e); cbn [negb] in H; [|by injection H as <- <-].
  destruct (write_loop (io_writes e) tail) as [written wr_ok] eqn:Ew.
  pose proof (set_tmps_ok l lo lo' s (fun k => payload ++ take k written) (S (length written)) Hs) as HA. cbv beta in HA.
  set (st := map _ (seq 0 (S (length written)))) in H, HA. clearbody st.
  destruct (negb wr_ok || negb (io_fsync e)) eqn:Eb; [injection H as <- <-; by split|].
  apply orb_false_iff in Eb as [Ewr%negb_false_iff _]. subst wr_ok. apply write_loop_all in Ew as ->.
  set (s1 := set_tmp s _) in H. assert (fs_ok l lo lo' s1) as H1 by by apply set_tmp_ok.
  destruct (commit_renames e s1) as [more ok'] eqn:Ec. destruct (commit_renames_ok l lo lo' s1 e _ i more ok' H1 eq_refl Hf Hi Ec) as [HM HL]. injection H as <- <-.
  split; [apply Forall_app; split; [done|]; by apply Forall_cons|]. intros ->. destruct (HL eq_refl) as (s' & E & H'). exists s'. split; [|done].
  rewrite last_app. cbn [app]. rewrite last_cons, E. done.
Qed.

Lemma last_map_seq {A} (g : nat -> A) n : last (map g (seq 0 (S n))) = Some (g n).
Proof. rewrite seq_S, map_app, last_app. done. Qed.

Lemma write_ok max attempts lo lo' s a e states ok :
  fs_ok attempts lo lo' s -> (lo <= length attempts)%nat -> attempt_ok max a -> flushed e a -> write_of e a s = Some (states, ok) ->
  Forall (fs_ok (attempts ++ [a]) lo lo') states /\
  (ok = true -> exists s', last states = Some s' /\ fs_ok (attempts ++ [a]) (S (length attempts)) (if io_dir e then S (length attempts) else lo') s').
Proof.
  intros Hs Hlo Ha Hfl H. apply (fs_ok_app _ [a]) in Hs. unfold write_of, writeCheckpointAtomic in H.
  set (s0 := if io_unlink e then set_tmp s None else s) in H. assert (fs_ok (attempts ++ [a]) lo lo' s0) as Hs0 by (unfold s0; destruct (io_unlink e); [by apply set_tmp_ok|done]).
  destruct (serialize_v2 _ _ _) as [payload|] eqn:Ep; [|done]. cbn [mbind option_bind] in H.
  assert (Forall (fs_ok (attempts ++ [a]) lo lo') [s; s0]) as H0 by (repeat (apply Forall_cons; split; [done|]); by apply Forall_nil).
  destruct (io_open e); cbn [negb] in H; [|by injection H as <- <-]. set (fl := take (io_flush e) payload) in H. set (st := map _ _) in H.
  assert (Forall (fs_ok (attempts ++ [a]) lo lo') ([s; s0] ++ st)) as H1 by (apply Forall_app; split; [done|]; by apply set_tmps_ok).
  destruct (io_good e) eqn:Eg; cbn [negb] in H; [|by injection H as <- <-]. destruct (io_size e); cbn [negb] in H; [|by injection H as <- <-].
  assert (fl = payload) as Efl by (apply take_ge; exact (Hfl payload Ep Eg)).
  destruct (append_tail e fl _ _) as [more ok'] eqn:Ea.
  assert (fs_ok (attempts ++ [a]) lo lo' (default s0 (last st))) as Hst by (unfold st; rewrite last_map_seq; cbn [default]; by apply set_tmp_ok).
  clearbody st.
  assert (saved_in (attempts ++ [a]) (mkFile (fl ++ checkpoint_tail (at_trailer a) (at_cluster a) (zlen fl)) true) (length attempts)) as Hh.
  { exists a, payload. split; [by apply list_lookup_middle|]. split; [done|]. split; [by rewrite Efl|done]. }
  destruct (append_tail_ok _ lo lo' _ e fl _ (length attempts) more ok' Hst Hh ltac:(lia) Ea) as [HM HL].
  injection H as <- <-. split; [change (s :: s0 :: st ++ more) with (([s; s0] ++ st) ++ more); by apply Forall_app_2|]. intros ->. destruct (HL eq_refl) as (s' & E & H'). exists s'. split; [|done].
  change (s :: s0 :: st ++ more) with ([s; s0] ++ st ++ more). by rewrite !last_app, E.
Qed.

Lemma attempts_snoc ws e a n m : h_attempts (mkHist (ws ++ [(e, a)]) n m) = map snd ws ++ [a].
Proof. unfold h_attempts. cbn [h_writes]. by rewrite map_app. Qed.

Lemma ckpt_run_inv max h s : run max h s -> Forall (fun w => flushed w.1 w.2) (h_writes h) ->
  (h_safe h <= h_done h <= length (h_attempts h))%nat /\ fs_ok (h_attempts h) (h_done h) (h_safe h) s /\ Forall (attempt_ok max) (h_attempts h).
Proof.
  induction 1 as [|h s a e states s' Hr IH Ha Hw Hlast|h s a e states ok s' Hr IH Ha Hw Hin|h s s' Hr IH Hp]; intros HF; cbn [h_writes] in HF.
  - cbn. split; [lia|]. split; [|done]. split; [done|]. split; [|done]. constructor; cbn; [done|done|lia].
  - apply Forall_app in HF as [HF Hfl]. apply Forall_cons in Hfl as [Hfl _]. cbn [fst snd] in Hfl. destruct (IH HF) as (Hl & Hf & HA). rewrite attempts_snoc. cbn [h_done h_safe]. fold (h_attempts h).
    assert (length (h_writes h) = length (h_attempts h)) as El by (unfold h_attempts; by rewrite length_map).
    rewrite El, length_app. cbn [length]. destruct (write_ok max _ _ _ s a e states true Hf ltac:(lia) Ha Hfl Hw) as [_ HL]. destruct (HL eq_refl) as (s2 & E & H2).
    rewrite Hlast in E. injection E as <-. split; [destruct (io_dir e); lia|]. split; [done|]. apply Forall_app. split; [done|]. by apply Forall_singleton.
  - apply Forall_app in HF as [HF Hfl]. apply Forall_cons in Hfl as [Hfl _]. cbn [fst snd] in Hfl. destruct (IH HF) as (Hl & Hf & HA). rewrite attempts_snoc. cbn [h_done h_safe]. fold (h_attempts h).
    rewrite length_app. cbn [length]. destruct (write_ok max _ _ _ s a e states ok Hf ltac:(lia) Ha Hfl Hw) as [HM _]. rewrite Forall_forall in HM.
    split; [lia|]. split; [by apply HM|]. apply Forall_app. split; [done|]. by apply Forall_singleton.
  - destruct (IH HF) as (Hl & Hf & HA). change (h_attempts (mkHist (h_writes h) (h_safe h) (h_safe h))) with (h_attempts h). cbn [h_done h_safe].
    split; [lia|]. split; [|done]. destruct Hp as (d & Hd & Eo & S1 & S2 & S3). destruct Hf as (Hle & Hn & Ho).
    assert (dir_ok (h_attempts h) (h_safe h) d) as [D1 D2 D3].
    { apply elem_of_app in Hd as [Hd| ->%list_elem_of_singleton]; [rewrite Forall_forall in Ho; by apply Ho|by apply dir_ok_mono with (h_done h)]. }
    split; [done|]. rewrite Eo. split; [|done].
    assert (forall f f', settled f f' -> (forall g, f = Some g -> f_durable g = true) -> f' = f) as Hset.
    { intros [g|] [g'|] Hs Hg; [|done..]. cbn in Hs. by rewrite (Hs (Hg g eq_refl)). }
    assert (d_live (fs_now s') = d_live d) as E1 by (apply (Hset _ _ S1); intros g Hg; destruct (D1 g Hg) as (i & (a & p & _ & _ & _ & Hdur) & _); exact Hdur).
    assert (d_prev (fs_now s') = d_prev d) as E3 by (apply (Hset _ _ S3); intros g Hg; destruct (D2 g Hg) as (i & (a & p & _ & _ & _ & Hdur) & _); exact Hdur).
    constructor; rewrite ?E1, ?E3; done.
Qed.

Lemma load_ok max attempts lo s out : max < 2 ^ 64 -> Forall (attempt_ok max) attempts -> dir_ok attempts lo (fs_now s) ->
  (exists i a, attempts !! i = Some a /\ (lo <= S i)%nat /\ load max s out = Ret (loaded a out)) \/
  (lo = 0%nat /\ d_live (fs_now s) = None /\ d_prev (fs_now s) = None /\ load max s out = Ret (with_ok out false)).
Proof.
  intros Hm HA [D1 D2 D3]. rewrite Forall_forall in HA. unfold load, loadLatestCheckpoint.
  destruct (d_live (fs_now s)) as [f|] eqn:El.
  - destruct (D1 f eq_refl) as (i & (a & p & Hi & Ep & Ed & _) & Hlo). left. exists i, a. split; [done|]. split; [done|]. cbn [fmap option_fmap option_map].
    rewrite (bool_decide_eq_true_2 (is_Some (Some (f_data f)))) by by eexists. rewrite Ed, (readCheckpoint_image max a p out Hm) by (done || by apply HA; apply list_elem_of_lookup_2 with i). done.
  - cbn [fmap option_fmap option_map]. rewrite (bool_decide_eq_false_2 (is_Some None)) by (intros [? [=]]). cbn [mbind outcome_bind lr_ok with_ok].
    destruct (d_prev (fs_now s)) as [f|] eqn:Epv.
    + destruct (D2 f eq_refl) as (i & (a & p & Hi & Ep & Ed & _) & Hlo). left. exists i, a. split; [done|]. split; [by apply Hlo|]. cbn [fmap option_fmap option_map].
      rewrite (bool_decide_eq_true_2 (is_Some (Some (f_data f)))) by by eexists. rewrite Ed. by rewrite (readCheckpoint_image max a p (with_ok out false) Hm) by (done || by apply HA; apply list_elem_of_lookup_2 with i).
    + right. cbn [fmap option_fmap option_map]. rewrite (bool_decide_eq_false_2 (is_Some None)) by (intros [? [=]]). destruct lo as [|lo]; [done|]. destruct (D3 ltac:(lia)) as [[? [=]]|[? [=]]].
Qed.

Lemma write_succeeds max a s e : attempt_ok max a ->
  e = mkIo true true (length (default [] (serialize_v2 (at_smooths a) (at_partials a) (at_meta a)))) true true true [2 ^ 62] true true true true ->
  exists states s', write_of e a s = Some (states, true) /\ last states = Some s' /\ flushed e a.
Proof.
  intros Ha ->. destruct (serialize_v2 (at_smooths a) (at_partials a) (at_meta a)) as [payload|] eqn:Ep; [|by rewrite (serialize_v2_eq max _ _ _ (ao_meta _ _ Ha)) in Ep].
  unfold write_of, writeCheckpointAtomic. rewrite Ep. cbn [mbind option_bind io_open io_unlink io_good io_size negb io_flush from_option id]. rewrite take_ge by lia.
  set (tail := checkpoint_tail _ _ _). set (st := default _ _). unfold append_tail. cbn [io_append io_writes io_fsync negb orb].
  assert (zlen tail < 2 ^ 62) as HT.
  { unfold tail, checkpoint_tail. cbv zeta. rewrite !zlen_app, !zlen_le. change (zlen CKPT_FOOTER_MAGIC) with 9. pose proof (region_bound max a Ha). lia. }
  assert (write_loop [2 ^ 62] tail = (tail, true)) as ->.
  { destruct tail as [|x l]; [done|]. cbn [write_loop]. rewrite (proj2 (Z.leb_gt _ _)) by lia. rewrite drop_ge, take_ge by (unfold zlen in HT; lia). cbn [write_loop]. by rewrite app_nil_r. }
  cbn [negb orb]. unfold commit_renames. cbn [io_rename_prev io_rename_live io_dir]. eexists _, _. split; [done|]. split; [|intros p E _; rewrite E in Ep; injection Ep as ->; cbn; lia].
  rewrite !app_assoc, last_snoc. done.
Qed.

(** ** Lemmas: deduplication *)

Lemma dedup_one_add b c has_char a i : 
  computeRelationHash (with_char b c) i = computeRelationHash b i ->
  (if has_char : bool then idx (char_bits b) i else 0) = (if i <? Z.of_nat (length c) then idx c i else 0) ->
  dedup_one b has_char (accumulated_ a, seen_ a) i = (accumulated_ (add_one (with_char b c) 0 a i), seen_ (add_one (with_char b c) 0 a i)).
Proof.
  intros Hh Hc. unfold dedup_one, add_one. rewrite Hh. destruct (decide _); [done|]. cbn [accumulated_ seen_]. unfold appendSingleRelation.
  rewrite !append_factors_spec. rewrite Hc. done.
Qed.

Lemma saved_repr b rs : repr b rs ->
  repr (with_char b (if Z.of_nat (length (char_bits b)) =? num_relations b then char_bits b else replicate (length rs) 0)) (saved b rs).
Proof.
  intros [H1 H2 H3 H4 H5 H6 H7 H8 H9 H10]. unfold saved. destruct (_ =? _); [by constructor|].
  assert (all_factors (map clear_char rs) = all_factors rs) as E by (unfold all_factors; by rewrite map_map).
  constructor; cbn; rewrite ?E, ?map_map, ?length_map; try done. rewrite <- (map_map clear_char r_char) by idtac.
  assert (map r_char (map clear_char rs) = replicate (length rs) 0) as -> by (clear; induction rs; [done|]; cbn; by f_equal). done.
Qed.

Lemma dedupRelationsInPlace_spec b rs :
  repr b rs -> zlen rs < 2 ^ 64 -> zlen (all_factors rs) < 2 ^ 64 -> repr (dedupRelationsInPlace b) (dedup ∅ (saved b rs)).
Proof.
  intros Hr Hn Hf. unfold dedupRelationsInPlace. rewrite (repr_num_relations b rs Hr). destruct (Z.eqb_spec (Z.of_nat (length rs)) 0) as [H0|H0].
  { assert (rs = []) as -> by (by destruct rs). unfold saved. by destruct (_ =? _). }
  rewrite <- (repr_num_relations b rs Hr). set (hc := _ =? num_relations b). set (c := if hc then char_bits b else replicate (length rs) 0).
  pose proof (saved_repr b rs Hr) as Hs. fold hc c in Hs.
  assert (forall l a, (forall i, i ∈ l -> exists k, i = Z.of_nat k /\ (k < length rs)%nat) ->
    foldl (dedup_one b hc) (accumulated_ a, seen_ a) l = (accumulated_ (foldl (add_one (with_char b c) 0) a l), seen_ (foldl (add_one (with_char b c) 0) a l))) as HF.
  { induction l as [|i l IH]; intros a Hl; [done|]. cbn [foldl]. rewrite (dedup_one_add b c hc a i); [apply IH; set_solver| |].
    - destruct (Hl i ltac:(set_solver)) as (k & -> & Hk). destruct (lookup_lt_is_Some_2 rs k Hk) as [r Er].
      assert (saved b rs !! k = Some (if hc then r else clear_char r)) as Es by (unfold saved; fold hc; destruct hc; [done|by rewrite list_lookup_fmap, Er]).
      rewrite (computeRelationHash_rel _ _ k _ Hs Es), (computeRelationHash_rel _ _ k _ Hr Er). by destruct hc.
    - destruct (Hl i ltac:(set_solver)) as (k & -> & Hk). unfold c, hc. destruct (Z.eqb_spec (Z.of_nat (length (char_bits b))) (num_relations b)) as [E|E].
      + rewrite (repr_num_relations b rs Hr) in E. by rewrite (proj2 (Z.ltb_lt _ _)) by lia.
      + unfold idx. rewrite nth_zeros. by destruct (_ <? _). }
  pose proof (addRelations_spec (RelationAccumulator_init 0 default_margin) [] (with_char b c) (saved b rs) 0 (acc_init_inv _ _) Hs) as Ha.
  assert (length (saved b rs) = length rs /\ length (all_factors (saved b rs)) = length (all_factors rs)) as [L1 L2].
  { unfold saved. destruct (_ =? _); [done|]. rewrite length_map. split; [done|]. unfold all_factors. by rewrite map_map. }
  rewrite L1, L2 in Ha. unfold zlen in *. specialize (Ha ltac:(cbn; lia) ltac:(cbn; lia)). destruct Ha as [Hb _ _ _]. cbn [app map list_to_set] in Hb.
  unfold addRelations in Hb. change (num_relations (with_char b c)) with (num_relations b) in Hb.
  change (mkBatch [] [] [] [] [] [0] [] [] 0 0, ∅) with (accumulated_ (RelationAccumulator_init 0 default_margin), seen_ (RelationAccumulator_init 0 default_margin)).
  rewrite HF.
  - cbn [fst]. rewrite Hb. apply repr_batch_of.
  - intros i Hi. apply list_elem_of_In, in_map_iff in Hi as (k & <- & Hk%in_seq). exists k. split; [done|]. rewrite (repr_num_relations b rs Hr) in Hk. lia.
Qed.

(** ** An example *)

Lemma demo_attempt_ok : attempt_ok 4096 demo_attempt.
Proof.
  constructor.
  - exact (proj1 demo_vectors_ok).
  - constructor; unfold in_width; first [by constructor|unfold zlen; cbn; lia].
  - exact (proj2 demo_vectors_ok).
  - constructor; cbn; unfold in_width; lia.
  - intros _. eexists. split; [done|]. constructor; cbn; unfold in_width, zlen; cbn; repeat constructor; lia.
  - intros payload E. rewrite (serialize_v2_eq 4096 _ _ _ (proj2 demo_vectors_ok)) in E. apply (inj Some) in E as <-. by vm_compute.
Qed.

(** The writer asks the stream for its state before the stream is closed, so a failing last flush goes unnoticed: the write reports
    success, and loading ends with an exception, although the footer is there, without a look at the previous file. *)
Lemma unflushed_write_reported :
  match write_of (mkIo true true 16 true true true [1000] true true true true) demo_attempt (mkFs [] (mkDir None None None)) with
  | Some (states, ok) => (ok, load 4096 (default (mkFs [] (mkDir None None None)) (last states)) load_empty)
  | None => (false, Undef)
  end = (true, Throw).
Proof. by vm_compute. Qed.

(** Such a write is a run of the program. *)
Lemma unflushed_run :
  exists h s, run 4096 h s /\ h_done h = 1%nat /\ h_safe h = 1%nat /\ load 4096 s load_empty = Throw.
Proof.
  pose proof unflushed_write_reported as H. destruct (write_of _ _ _) as [[states ok]|] eqn:E; [|discriminate H]. injection H as -> HL.
  destruct (last states) as [s'|] eqn:El; [|cbn in HL; discriminate HL].
  eexists _, s'. split; [exact (run_write 4096 _ _ demo_attempt _ states s' (run_start 4096) demo_attempt_ok E El)|]. split; [reflexivity|]. split; [reflexivity|exact HL].
Qed.

(** ** Properties *)

(** C36. Checkpoints survive crashes, provided that a stream which is in a good state at the end of a write has delivered the payload ([flushed], of every write
    of the run). After any sequence of writes - each with any results of its system calls, completed, failed or killed in any of its states - and power losses,
    loading returns an attempt that was saved whole: at least as recent as the last write that reported success, or after a power loss the last one whose
    directory was forced as well; and it fails only if there is none. Without the proviso this is false: the code asks [good()] before it closes the stream
    (sieve_checkpoint.cpp:175), and a last flush that fails is reported as success and makes loading throw ([unflushed_write_reported]). *)
Theorem checkpoint_durable max h s out : max < 2 ^ 64 -> run max h s -> Forall (fun w => flushed w.1 w.2) (h_writes h) ->
  (exists i a, h_attempts h !! i = Some a /\ (h_done h <= S i)%nat /\ load max s out = Ret (loaded a out)) \/
  (h_done h = 0%nat /\ load max s out = Ret (with_ok out false)).
Proof.
  intros Hm Hr HF. destruct (ckpt_run_inv max h s Hr HF) as (_ & (_ & Hd & _) & HA). destruct (load_ok max _ _ s out Hm HA Hd) as [H|(H & _ & _ & E)]; [by left|right; by split].
Qed.

Lemma checkpoint_durable_witness :
  exists h s', run 4096 h s' /\ h_done h = 1%nat /\ load 4096 s' load_empty = Ret (loaded demo_attempt load_empty).
Proof.
  destruct (write_succeeds 4096 demo_attempt (mkFs [] (mkDir None None None)) _ demo_attempt_ok eq_refl) as (states & s' & H1 & H2 & H3).
  pose proof (run_write 4096 _ _ demo_attempt _ states s' (run_start 4096) demo_attempt_ok H1 H2) as Hr.
  eexists _, s'. split; [exact Hr|]. split; [reflexivity|].
  destruct (checkpoint_durable 4096 _ s' load_empty eq_refl Hr ltac:(constructor; [exact H3|constructor])) as [(i & a & Hi & _ & HL)|[Hd _]]; [|discriminate].
  destruct i as [|i]; [|discriminate]. injection Hi as <-. exact HL.
Defined.
