(* ===== verification/CpuLp.v ===== *)
(** The coordinator's table of partial relations ([src/src/cluster/cpu_lp.cu], [cpu_lp.h]): a partial relation waits under
    its large prime until a second one with the same prime arrives; the two are multiplied into a full relation that goes
    to the accumulator.

    The specification is [match_one], a fold over the partial relations with a map of the waiting ones; [mergeFactors]
    is specified by [merge_pairs] on lists of (index, exponent) pairs. *)
From Stdlib Require Import ZArith Lia Sorted.
From stdpp Require Import base gmap sets list.
From S2P Require Import Prelude UInt512 Montgomery Bytes Soa Accumulator Gf2 Batches Congruence SqrtStep Factorization.
#[local] Open Scope Z_scope.

(** ** Data *)

Record PartialRelation := mkPartial {
  p_sqrt_Q : Z; p_sign : Z; p_val_2_exp : Z; p_large_prime : Z; p_factor_indices : list Z; p_factor_counts : list Z; p_char_bits : Z
}.

Record CPULargePrimeTable := mkLpTable {
  lp1_bound_ : Z;
  mont_ : Montgomery;
  table_ : gmap Z PartialRelation;
  total_inserts_ : Z;
  total_matches_ : Z;
  total_combines_ : Z;
  total_dup_dropped_ : Z
}.

Definition CPULargePrimeTable_init (lp1_bound : Z) (N : uint512) : CPULargePrimeTable :=
  mkLpTable lp1_bound (Montgomery_init N) ∅ 0 0 0 0.

Definition witnesses (t : CPULargePrimeTable) : Z := Z.of_nat (size (table_ t)).
Definition totalInserts (t : CPULargePrimeTable) : Z := total_inserts_ t.
Definition totalMatches (t : CPULargePrimeTable) : Z := total_matches_ t.
Definition totalCombines (t : CPULargePrimeTable) : Z := total_combines_ t.
Definition totalDupDropped (t : CPULargePrimeTable) : Z := total_dup_dropped_ t.

(** ** Operations *)

(** [while (i < a.size() && j < b.size())]: the final [i], [j] and the output. *)
Fixpoint merge_factors_loop (fuel : nat) (a_idx a_cnt b_idx b_cnt : list Z) (i j : Z) (out_idx out_cnt : list Z)
    : option (Z * Z * list Z * list Z) :=
  match fuel with
  | O => None
  | S fuel =>
      if (i <? zlen a_idx) && (j <? zlen b_idx) then
        if idx a_idx i <? idx b_idx j then
          merge_factors_loop fuel a_idx a_cnt b_idx b_cnt (i + 1) j (out_idx ++ [idx a_idx i]) (out_cnt ++ [idx a_cnt i])
        else if idx b_idx j <? idx a_idx i then
          merge_factors_loop fuel a_idx a_cnt b_idx b_cnt i (j + 1) (out_idx ++ [idx b_idx j]) (out_cnt ++ [idx b_cnt j])
        else
          merge_factors_loop fuel a_idx a_cnt b_idx b_cnt (i + 1) (j + 1) (out_idx ++ [idx a_idx i])
            (out_cnt ++ [wrap 8 (idx a_cnt i + idx b_cnt j)])
      else Some (i, j, out_idx, out_cnt)
  end.

(** [while (i < a_idx.size())]: what is left of one list. *)
Definition merge_factors_rest (a_idx a_cnt : list Z) (i : Z) (out_idx out_cnt : list Z) : list Z * list Z :=
  let ks := map (Z.add i) (upto (zlen a_idx - i)) in (out_idx ++ map (idx a_idx) ks, out_cnt ++ map (idx a_cnt) ks).

Definition mergeFactors (a_idx a_cnt b_idx b_cnt out_idx out_cnt : list Z) : option (list Z * list Z) :=
  '(i, j, out_idx, out_cnt) ← merge_factors_loop (S (length a_idx + length b_idx)) a_idx a_cnt b_idx b_cnt 0 0 out_idx out_cnt;
  let '(out_idx, out_cnt) := merge_factors_rest a_idx a_cnt i out_idx out_cnt in
  Some (merge_factors_rest b_idx b_cnt j out_idx out_cnt).

Definition partial_char (batch : HostRelationBatch) (i : Z) : Z := if i <? zlen (char_bits batch) then idx (char_bits batch) i else 0.

Definition extractPartial (batch : HostRelationBatch) (i : Z) : PartialRelation :=
  let fstart := idx (factor_offsets batch) i in
  let fend := idx (factor_offsets batch) (i + 1) in
  mkPartial (idx (sqrt_Q batch) i) (idx (signs batch) i) (idx (val_2_exps batch) i) (idx (large_primes batch) i)
    (slice (factor_indices batch) fstart fend) (slice (factor_counts batch) fstart fend) (partial_char batch i).

(** The product of two roots. *)
Definition combined_root (mont : Montgomery) (a b : Z) : Z :=
  let a_mont := mont_transform mont (u512_of_Z a) in
  let b_mont := mont_transform mont (u512_of_Z b) in
  u512_val (mont_reduce mont (mont_mul mont a_mont b_mont)).

Definition combined_sign (a b : Z) : Z := if xorb (negb (a =? 1)) (negb (b =? 1)) then 0xFF else 1.

(** Append the combined relation to [output]. *)
Definition append_combined (mont : Montgomery) (stored : PartialRelation) (batch : HostRelationBatch) (i : Z) (merged_indices merged_counts : list Z)
    (output : HostRelationBatch) : HostRelationBatch :=
  let nf := wrap 64 (num_factors output + zlen merged_indices) in
  mkBatch (sqrt_Q output ++ [combined_root mont (p_sqrt_Q stored) (idx (sqrt_Q batch) i)])
    (signs output ++ [combined_sign (p_sign stored) (idx (signs batch) i)])
    (val_2_exps output ++ [p_val_2_exp stored + idx (val_2_exps batch) i])
    (large_primes output ++ [p_large_prime stored])
    (char_bits output ++ [Z.lxor (p_char_bits stored) (partial_char batch i)])
    (factor_offsets output ++ [nf])
    (factor_indices output ++ merged_indices) (factor_counts output ++ merged_counts) (wrap 64 (num_relations output + 1)) nf.

(** The result: whether the two were combined, and the batch of combined relations; [None] where the sum of the two
    signed 32-bit exponents overflows. *)
Definition combinePartials (mont : Montgomery) (stored : PartialRelation) (batch : HostRelationBatch) (i : Z) (output : HostRelationBatch)
    : option (bool * HostRelationBatch) :=
  if p_sqrt_Q stored =? idx (sqrt_Q batch) i then Some (false, output)
  else
    let fstart := idx (factor_offsets batch) i in
    let fend := idx (factor_offsets batch) (i + 1) in
    '(merged_indices, merged_counts) ← mergeFactors (p_factor_indices stored) (p_factor_counts stored)
      (slice (factor_indices batch) fstart fend) (slice (factor_counts batch) fstart fend) [] [];
    if bool_decide (- 2 ^ 31 <= p_val_2_exp stored + idx (val_2_exps batch) i < 2 ^ 31) then
      Some (true, append_combined mont stored batch i merged_indices merged_counts output)
    else None.

(** The body of the loop of [insertAndMatch]. *)
Definition insert_one (partials : HostRelationBatch) (st : option (CPULargePrimeTable * HostRelationBatch)) (i : Z)
    : option (CPULargePrimeTable * HostRelationBatch) :=
  '(t, output) ← st;
  let lp_key := wrap 64 (idx (large_primes partials) i) in
  if (lp_key =? 0) || (lp_key =? 1) then Some (t, output)
  else
    match table_ t !! lp_key with
    | Some stored =>
        '(combined, output) ← combinePartials (mont_ t) stored partials i output;
        Some (mkLpTable (lp1_bound_ t) (mont_ t) (delete lp_key (table_ t)) (total_inserts_ t) (wrap 64 (total_matches_ t + 1))
                (if (combined : bool) then wrap 64 (total_combines_ t + 1) else total_combines_ t)
                (if combined then total_dup_dropped_ t else wrap 64 (total_dup_dropped_ t + 1)), output)
    | None =>
        Some (mkLpTable (lp1_bound_ t) (mont_ t) (<[lp_key := extractPartial partials i]> (table_ t)) (wrap 64 (total_inserts_ t + 1))
                (total_matches_ t) (total_combines_ t) (total_dup_dropped_ t), output)
    end.

Definition insertAndMatch (partials : HostRelationBatch) (t : CPULargePrimeTable) (accumulator : RelationAccumulator)
    : option (CPULargePrimeTable * RelationAccumulator) :=
  if num_relations partials =? 0 then Some (t, accumulator)
  else
    '(t, combined_output) ← foldl (insert_one partials) (Some (t, batch_start)) (upto (num_relations partials));
    Some (t, if 0 <? num_relations combined_output then addLPRelations accumulator combined_output else accumulator).

(** The calls for a sequence of batches. *)
Definition insert_all (batches : list HostRelationBatch) (t : CPULargePrimeTable) (accumulator : RelationAccumulator)
    : option (CPULargePrimeTable * RelationAccumulator) :=
  foldl (fun st b => '(t, acc) ← st; insertAndMatch b t acc) (Some (t, accumulator)) batches.

(** ** Vocabulary of the specifications *)

(** Two factor lists as one: equal indices that meet are added up. *)
Fixpoint merge_pairs (fa : list (Z * Z)) : list (Z * Z) -> list (Z * Z) :=
  match fa with
  | [] => fun fb => fb
  | f :: fa' =>
      fix merge_b fb :=
        match fb with
        | [] => f :: fa'
        | g :: fb' =>
            if f.1 <? g.1 then f :: merge_pairs fa' fb
            else if g.1 <? f.1 then g :: merge_b fb'
            else (f.1, wrap 8 (f.2 + g.2)) :: merge_pairs fa' fb'
        end
  end.

(** The product of two partial relations. *)
Definition combine_rel (n : Z) (s r : relation) : relation :=
  mkRel ((r_sqrt_Q s * r_sqrt_Q r) mod n) (combined_sign (r_sign s) (r_sign r)) (r_val2 s + r_val2 r) (r_lp s)
    (Z.lxor (r_char s) (r_char r)) (merge_pairs (r_factors s) (r_factors r)).

(** The next partial relation meets the waiting ones; the combined relations so far. *)
Definition match_one (n : Z) (st : gmap Z relation * list relation) (r : relation) : gmap Z relation * list relation :=
  if r_lp r <=? 1 then st
  else match st.1 !! r_lp r with
       | Some s => (delete (r_lp r) st.1, if r_sqrt_Q s =? r_sqrt_Q r then st.2 else st.2 ++ [combine_rel n s r])
       | None => (<[r_lp r := r]> st.1, st.2)
       end.

Definition partial_of (r : relation) : PartialRelation :=
  mkPartial (r_sqrt_Q r) (r_sign r) (r_val2 r) (r_lp r) (map fst (r_factors r)) (map snd (r_factors r)) (r_char r).

(** Large primes of one word, exponents whose sums fit, no more factors than a 512-bit number can have. *)
Record lp_fits (r : relation) : Prop := mkLpFits {
  lf_root : in_width 512 (r_sqrt_Q r);
  lf_val2 : 0 <= r_val2 r < 2 ^ 30;
  lf_counts : Forall (fun f => 0 <= f.2 < 128) (r_factors r);
  lf_length : zlen (r_factors r) <= 512
}.

(** A relation as it arrives: what has a large prime is a valid partial relation. *)
Definition arrives (n : Z) (fb : list Z) (r : relation) : Prop :=
  in_width 64 (r_lp r) /\ (1 < r_lp r -> lp_fits r /\ partial_holds n fb r).

(** The table holds the relations [tab] after [k] partial relations. *)
Record lp_inv (n : Z) (fb : list Z) (t : CPULargePrimeTable) (tab : gmap Z relation) (k : Z) : Prop := mkLpInv {
  li_table : table_ t = partial_of <$> tab;
  li_key : map_Forall (fun lp r => r_lp r = lp /\ lp_fits r /\ partial_holds n fb r) tab;
  li_mont : mont_ok (mont_ t) /\ u512_val (Montgomery.N (mont_ t)) = n;
  li_inserts : total_inserts_ t = Z.of_nat (size tab) + total_matches_ t;
  li_matches : total_matches_ t = total_combines_ t + total_dup_dropped_ t;
  li_nonneg : 0 <= total_combines_ t /\ 0 <= total_dup_dropped_ t;
  li_seen : total_inserts_ t + total_matches_ t <= k
}.

(** Combined relations as they are handed over. *)
Definition combined_ok (n : Z) (fb : list Z) (r : relation) : Prop := smooth_holds n fb r /\ zlen (r_factors r) <= 1024.

(** ** Lemmas: merging factor lists *)

Lemma merge_pairs_nil fa : merge_pairs fa [] = fa.
Proof. by destruct fa. Qed.

Lemma merge_pairs_cons f fa g fb :
  merge_pairs (f :: fa) (g :: fb) =
  if f.1 <? g.1 then f :: merge_pairs fa (g :: fb)
  else if g.1 <? f.1 then g :: merge_pairs (f :: fa) fb
  else (f.1, wrap 8 (f.2 + g.2)) :: merge_pairs fa fb.
Proof. reflexivity. Qed.

(** Induction along the merge. *)
Lemma merge_ind (P : list (Z * Z) -> list (Z * Z) -> Prop) :
  (forall fb, P [] fb) -> (forall fa, P fa []) ->
  (forall f fa g fb, P fa (g :: fb) -> P (f :: fa) fb -> P fa fb -> P (f :: fa) (g :: fb)) ->
  forall fa fb, P fa fb.
Proof.
  intros H1 H2 H3. induction fa as [|f fa IH]; intros fb; [apply H1|]. induction fb as [|g fb IHb]; [apply H2|]. by apply H3.
Qed.

Lemma idx_map_lookup (h : Z * Z -> Z) (l : list (Z * Z)) i f : l !! i = Some f -> idx (map h l) (Z.of_nat i) = h f.
Proof. intros H. unfold idx. rewrite Nat2Z.id. apply nth_lookup_Some. by rewrite list_lookup_fmap, H. Qed.

Lemma merge_rest_spec fa i oi oc : (i <= length fa)%nat ->
  merge_factors_rest (map fst fa) (map snd fa) (Z.of_nat i) oi oc = (oi ++ map fst (drop i fa), oc ++ map snd (drop i fa)).
Proof.
  intros Hi. unfold merge_factors_rest, zlen. rewrite length_map.
  assert (forall h : Z * Z -> Z, map (idx (map h fa)) (map (Z.add (Z.of_nat i)) (upto (Z.of_nat (length fa) - Z.of_nat i))) = map h (drop i fa)) as H.
  { intros h. unfold upto. rewrite !map_map. replace (Z.to_nat (Z.of_nat (length fa) - Z.of_nat i)) with (length fa - i)%nat by lia.
    apply (nth_ext _ _ 0 0). { rewrite !length_map, length_seq, length_drop. lia. }
    intros k Hk. rewrite length_map, length_seq in Hk.
    rewrite (nth_indep _ 0 (idx (map h fa) (Z.of_nat i + Z.of_nat 0))) by (by rewrite length_map, length_seq).
    rewrite (map_nth (fun k => idx (map h fa) (Z.of_nat i + Z.of_nat k))), seq_nth by done.
    change (map h (drop i fa)) with (h <$> drop i fa); rewrite fmap_drop, nth_skipn. unfold idx. f_equal. lia. }
  by rewrite !H.
Qed.

Lemma merge_factors_loop_spec fa fb fuel i j oi oc :
  (i <= length fa)%nat -> (j <= length fb)%nat -> (length fa - i + (length fb - j) < fuel)%nat ->
  exists i' j' oi' oc', merge_factors_loop fuel (map fst fa) (map snd fa) (map fst fb) (map snd fb) (Z.of_nat i) (Z.of_nat j) oi oc
      = Some (Z.of_nat i', Z.of_nat j', oi', oc') /\ (i' <= length fa)%nat /\ (j' <= length fb)%nat /\
    oi' ++ map fst (drop i' fa) ++ map fst (drop j' fb) = oi ++ map fst (merge_pairs (drop i fa) (drop j fb)) /\
    oc' ++ map snd (drop i' fa) ++ map snd (drop j' fb) = oc ++ map snd (merge_pairs (drop i fa) (drop j fb)).
Proof.
  revert i j oi oc. induction fuel as [|fuel IH]; intros i j oi oc Hi Hj Hf; [lia|]. cbn [merge_factors_loop]. unfold zlen. rewrite !length_map.
  destruct (fa !! i) as [f|] eqn:Ei; [|apply lookup_ge_None in Ei]; [destruct (fb !! j) as [g|] eqn:Ej; [|apply lookup_ge_None in Ej]|].
  2,3: assert ((Z.of_nat i <? Z.of_nat (length fa)) && (Z.of_nat j <? Z.of_nat (length fb)) = false) as -> by lia;
    exists i, j, oi, oc; (split; [done|]); (split; [done|]); (split; [done|]).
  2: { rewrite (drop_ge fb j) by lia. cbn [map]. rewrite merge_pairs_nil, !app_nil_r. done. }
  2: { rewrite (drop_ge fa i) by lia. done. }
  pose proof (lookup_lt_Some _ _ _ Ei). pose proof (lookup_lt_Some _ _ _ Ej).
  assert ((Z.of_nat i <? Z.of_nat (length fa)) && (Z.of_nat j <? Z.of_nat (length fb)) = true) as -> by lia.
  rewrite !(idx_map_lookup _ _ _ _ Ei), !(idx_map_lookup _ _ _ _ Ej), (drop_S fa f i Ei), (drop_S fb g j Ej), merge_pairs_cons.
  assert (forall x, Z.of_nat x + 1 = Z.of_nat (S x)) as HS by lia. rewrite !HS.
  destruct (f.1 <? g.1); [|destruct (g.1 <? f.1)].
  - destruct (IH (S i) j (oi ++ [f.1]) (oc ++ [f.2])) as (i' & j' & oi' & oc' & E & Hi' & Hj' & E1 & E2); [lia..|].
    exists i', j', oi', oc'. rewrite E, E1, E2, (drop_S fb g j Ej), <- !app_assoc. done.
  - destruct (IH i (S j) (oi ++ [g.1]) (oc ++ [g.2])) as (i' & j' & oi' & oc' & E & Hi' & Hj' & E1 & E2); [lia..|].
    exists i', j', oi', oc'. rewrite E, E1, E2, (drop_S fa f i Ei), <- !app_assoc. done.
  - destruct (IH (S i) (S j) (oi ++ [f.1]) (oc ++ [wrap 8 (f.2 + g.2)])) as (i' & j' & oi' & oc' & E & Hi' & Hj' & E1 & E2); [lia..|].
    exists i', j', oi', oc'. rewrite E, E1, E2, <- !app_assoc. done.
Qed.

Lemma mergeFactors_spec fa fb :
  mergeFactors (map fst fa) (map snd fa) (map fst fb) (map snd fb) [] [] = Some (map fst (merge_pairs fa fb), map snd (merge_pairs fa fb)).
Proof.
  unfold mergeFactors.
  destruct (merge_factors_loop_spec fa fb (S (length (map fst fa) + length (map fst fb))) 0 0 [] []) as (i & j & oi & oc & E & Hi & Hj & E1 & E2); [lia|lia|rewrite !length_map; lia|].
  change (Z.of_nat 0) with 0 in E. rewrite E. cbn [mbind option_bind]. rewrite !merge_rest_spec by done.
  rewrite <- !app_assoc, E1, E2. done.
Qed.

Lemma merge_length fa fb : (length (merge_pairs fa fb) <= length fa + length fb)%nat.
Proof.
  revert fa fb. apply merge_ind; [done|intros fa; rewrite merge_pairs_nil; lia|].
  intros f fa g fb H1 H2 H3. rewrite merge_pairs_cons. cbn [length] in *. destruct (f.1 <? g.1); [|destruct (g.1 <? f.1)]; cbn [length]; lia.
Qed.

Lemma merge_Forall (P : Z -> Prop) fa fb :
  Forall (fun f => P f.1 /\ 0 <= f.2) fa -> Forall (fun f => P f.1 /\ 0 <= f.2) fb -> Forall (fun f => P f.1 /\ 0 <= f.2) (merge_pairs fa fb).
Proof.
  revert fa fb. apply (merge_ind (fun fa fb => _ fa -> _ fb -> _ (merge_pairs fa fb))); [done|by intros fa; rewrite merge_pairs_nil|].
  intros f fa g fb H1 H2 H3 [Hf Ha]%Forall_cons [Hg Hb]%Forall_cons. rewrite merge_pairs_cons.
  destruct (f.1 <? g.1); [|destruct (g.1 <? f.1)]; constructor; [done|by apply H1; [|constructor]|done|by apply H2; [constructor|]| |by apply H3].
  split; [apply Hf|apply wrap_range; lia].
Qed.

(** The product of the prime powers is the product of the two. *)
Lemma merge_powers (p : Z -> Z) fa fb :
  Forall (fun f => 0 <= f.2 < 128) fa -> Forall (fun f => 0 <= f.2 < 128) fb ->
  zprod (map (fun f => p f.1 ^ f.2) (merge_pairs fa fb)) = zprod (map (fun f => p f.1 ^ f.2) fa) * zprod (map (fun f => p f.1 ^ f.2) fb).
Proof.
  revert fa fb. apply (merge_ind (fun fa fb => _ fa -> _ fb -> zprod (map _ (merge_pairs fa fb)) = _ * _)).
  - intros fb _ _. cbn [map merge_pairs]. by rewrite zprod_nil, Z.mul_1_l.
  - intros fa _ _. rewrite merge_pairs_nil. cbn [map]. by rewrite zprod_nil, Z.mul_1_r.
  - intros f fa g fb H1 H2 H3 Ha Hb. pose proof Ha as [Hf Ha']%Forall_cons. pose proof Hb as [Hg Hb']%Forall_cons. rewrite merge_pairs_cons.
    destruct (f.1 <? g.1) eqn:E1; [|destruct (g.1 <? f.1) eqn:E2].
    + cbn [map]. rewrite !zprod_cons, H1 by done. cbn [map]. rewrite zprod_cons. ring.
    + cbn [map]. rewrite !zprod_cons, H2 by done. cbn [map]. rewrite zprod_cons. ring.
    + assert (f.1 = g.1) as E by lia. cbn [map fst snd]. rewrite !zprod_cons, H3 by done.
      rewrite wrap_small by (unfold in_width; lia). rewrite Z.pow_add_r by lia. rewrite E. ring.
Qed.

(** ** Lemmas: the product of two partial relations *)

Lemma combined_root_spec mont a b : mont_ok mont -> in_width 512 a -> in_width 512 b ->
  combined_root mont a b = (a * b) mod u512_val (Montgomery.N mont).
Proof.
  intros Hm Ha Hb. unfold combined_root. eapply (form_value mont Hm). apply mont_mul_form; [done|by apply form_u512_of_Z..].
Qed.

Lemma combined_sign_power a b :
  (-1) ^ (if combined_sign a b =? 1 then 0 else 1) = (-1) ^ (if a =? 1 then 0 else 1) * (-1) ^ (if b =? 1 then 0 else 1).
Proof. unfold combined_sign. by destruct (a =? 1), (b =? 1). Qed.

Lemma combine_valid n fb s r :
  lp_fits s -> lp_fits r -> r_lp s = r_lp r -> partial_holds n fb s -> partial_holds n fb r -> combined_ok n fb (combine_rel n s r).
Proof.
  intros Fs Fr El ([Hv Hf] & Hl & E) ([Hv' Hf'] & Hl' & E'). split; [split|].
  - split; cbn; [lia|]. by apply (merge_Forall (fun x => 0 <= x < Z.of_nat (length fb))).
  - cbn [combine_rel r_sqrt_Q r_lp]. rewrite !cong_mod.
    replace (r_sqrt_Q s * r_sqrt_Q r * (r_sqrt_Q s * r_sqrt_Q r)) with ((r_sqrt_Q s * r_sqrt_Q s) * (r_sqrt_Q r * r_sqrt_Q r)) by ring.
    rewrite E, E'. unfold rhs, lp_val, clear_lp, combine_rel, neg_count. cbn [r_sign r_val2 r_lp r_factors].
    rewrite combined_sign_power, merge_powers by (by apply lf_counts). rewrite Z.pow_add_r by done.
    change (1 <? 1) with false. rewrite El, (proj2 (Z.ltb_lt 1 (r_lp r))) by done. cbv iota. match goal with |- ?a ≅{_} ?b => replace a with b by ring; reflexivity end.
  - cbn. pose proof (merge_length (r_factors s) (r_factors r)). pose proof (lf_length s Fs). pose proof (lf_length r Fr). unfold zlen in *. lia.
Qed.

(** ** Lemmas: one partial relation *)

Lemma partial_fields b rs i r :
  repr b rs -> rs !! i = Some r ->
  idx (sqrt_Q b) (Z.of_nat i) = r_sqrt_Q r /\ idx (signs b) (Z.of_nat i) = r_sign r /\ idx (val_2_exps b) (Z.of_nat i) = r_val2 r /\
  idx (large_primes b) (Z.of_nat i) = r_lp r /\ partial_char b (Z.of_nat i) = r_char r /\
  slice (factor_indices b) (idx (factor_offsets b) (Z.of_nat i)) (idx (factor_offsets b) (Z.of_nat i + 1)) = map fst (r_factors r) /\
  slice (factor_counts b) (idx (factor_offsets b) (Z.of_nat i)) (idx (factor_offsets b) (Z.of_nat i + 1)) = map snd (r_factors r).
Proof.
  intros H Hi. pose proof (lookup_lt_Some _ _ _ Hi). pose proof (row_length b rs i r H Hi) as Hr.
  assert (0 <= idx (factor_offsets b) (Z.of_nat i)) as Hz by (rewrite (repr_offset b rs) by (done || lia); lia).
  assert (partial_char b (Z.of_nat i) = r_char r) as Hc.
  { unfold partial_char, zlen. pose proof (prefix_length _ _ (repr_char b rs H)) as L. rewrite length_map in L.
    destruct (Z.ltb_spec (Z.of_nat i) (Z.of_nat (length (char_bits b)))); [|lia]. by apply (idx_map_prefix _ rs _ i r (repr_char b rs H)). }
  assert (forall (h : Z * Z -> Z) l, map h (all_factors rs) `prefix_of` l ->
    slice l (idx (factor_offsets b) (Z.of_nat i)) (idx (factor_offsets b) (Z.of_nat i + 1)) = map h (r_factors r)) as Hs.
  { intros h l Hp. replace (idx (factor_offsets b) (Z.of_nat i + 1)) with (Z.of_nat (length (all_factors (take (S i) rs))))
      by (replace (Z.of_nat i + 1) with (Z.of_nat (S i)) by lia; rewrite (repr_offset b rs) by (done || lia); done).
    rewrite (repr_offset b rs) by (done || lia). pose proof (all_factors_take_le rs (S i)).
    rewrite (prefix_slice _ _ _ _ Hp) by (rewrite ?length_map; lia). unfold slice. rewrite Nat2Z.id, (all_factors_take_S rs i r Hi).
    replace (Z.to_nat _) with (length (r_factors r)) by lia. rewrite <- fmap_drop, <- fmap_take. by rewrite (all_factors_slice rs i r Hi). }
  split_and!; [eapply idx_map_prefix; [apply repr_sqrt_Q|]|eapply idx_map_prefix; [apply repr_signs|]|eapply idx_map_prefix; [apply repr_val2|]
    |eapply idx_map_prefix; [apply repr_lp|]|done|apply Hs, repr_indices; done|apply Hs, repr_counts; done]; done.
Qed.

Lemma extractPartial_spec b rs i r : repr b rs -> rs !! i = Some r -> extractPartial b (Z.of_nat i) = partial_of r.
Proof. intros H Hi. destruct (partial_fields b rs i r H Hi) as (E1 & E2 & E3 & E4 & E5 & E6 & E7). unfold extractPartial. by rewrite E1, E2, E3, E4, E5, E6, E7. Qed.

Lemma factors_bound rs : Forall (fun r => zlen (r_factors r) <= 1024) rs -> zlen (all_factors rs) <= 1024 * zlen rs.
Proof.
  unfold zlen. induction 1 as [|r rs Hr _ IH]; [done|]. rewrite all_factors_cons, length_app. cbn [length]. lia.
Qed.

Lemma append_combined_spec mont n out s b rs i r :
  mont_ok mont -> u512_val (Montgomery.N mont) = n -> repr b rs -> rs !! i = Some r -> lp_fits s -> lp_fits r ->
  zlen out < 2 ^ 48 -> Forall (fun r => zlen (r_factors r) <= 1024) out ->
  append_combined mont (partial_of s) b (Z.of_nat i) (map fst (merge_pairs (r_factors s) (r_factors r))) (map snd (merge_pairs (r_factors s) (r_factors r)))
    (batch_of out) = batch_of (out ++ [combine_rel n s r]).
Proof.
  intros Hm Hn H Hi Fs Fr Hl Hf. destruct (partial_fields b rs i r H Hi) as (E1 & E2 & E3 & E4 & E5 & E6 & E7).
  unfold append_combined. rewrite E1, E2, E3, E5. cbn [partial_of p_sqrt_Q p_sign p_val_2_exp p_large_prime p_char_bits].
  rewrite combined_root_spec by (done || apply lf_root; done). rewrite Hn.
  pose proof (merge_length (r_factors s) (r_factors r)). pose proof (lf_length s Fs). pose proof (lf_length r Fr). pose proof (factors_bound out Hf).
  unfold batch_of, zlen in *. cbn [sqrt_Q signs val_2_exps large_primes char_bits factor_offsets factor_indices factor_counts num_relations num_factors].
  rewrite !map_app, all_factors_app. cbn [map]. rewrite offsets_from_snoc, !map_app, !length_app, !length_map, !Nat2Z.inj_add. cbn [map all_factors concat length combine_rel r_factors r_sqrt_Q r_sign r_val2 r_lp r_char].
  rewrite app_nil_r. fold (all_factors out). rewrite !(wrap_small 64) by (unfold in_width; lia). f_equal.
Qed.

Lemma insert_one_spec n fb t tab k b rs i r out :
  lp_inv n fb t tab k -> repr b rs -> rs !! i = Some r -> arrives n fb r -> Forall (combined_ok n fb) out -> zlen out <= k -> k < 2 ^ 48 ->
  exists t', insert_one b (Some (t, batch_of out)) (Z.of_nat i) = Some (t', batch_of (match_one n (tab, out) r).2) /\
    lp_inv n fb t' (match_one n (tab, out) r).1 (k + 1) /\ Forall (combined_ok n fb) (match_one n (tab, out) r).2 /\
    zlen (match_one n (tab, out) r).2 <= k + 1.
Proof.
  intros Ht H Hi [Hw Ha] Ho Hz Hk. destruct (partial_fields b rs i r H Hi) as (E1 & _ & E3 & E4 & _ & E6 & E7).
  pose proof Ht as [T1 T2 [T3 T3'] T4 T5 [T6 T6'] T7].
  unfold insert_one. cbn [mbind option_bind]. rewrite E4, wrap_small by done. unfold match_one. cbn [fst snd]. unfold in_width in Hw.
  destruct ((r_lp r =? 0) || (r_lp r =? 1)) eqn:E0.
  { rewrite (proj2 (Z.leb_le (r_lp r) 1)) by lia. exists t. split; [done|]. split; [constructor; try done; lia|]. split; [done|]. cbn [snd]. lia. }
  rewrite (proj2 (Z.leb_gt (r_lp r) 1)) by lia. destruct (Ha ltac:(lia)) as [Fr Hp]. rewrite T1, lookup_fmap. destruct (tab !! r_lp r) as [s|] eqn:El; cbn [fmap option_fmap option_map].
  - destruct (T2 _ _ El) as (Es & Fs & Hs). assert (size (delete (r_lp r) tab) = Nat.pred (size tab)) as Esz by (apply map_size_delete_Some; by exists s).
    assert (size tab <> 0%nat) as Hnz by (intros ->%map_size_empty_inv; by rewrite lookup_empty in El).
    assert (forall c d, 0 <= c -> 0 <= d -> total_matches_ t + 1 = c + d -> lp_inv n fb (mkLpTable (lp1_bound_ t) (mont_ t) (delete (r_lp r) (partial_of <$> tab)) (total_inserts_ t)
      (wrap 64 (total_matches_ t + 1)) c d) (delete (r_lp r) tab) (k + 1)) as Hinv.
    { intros c d Hc Hd Hs'. constructor; cbn.
      - by rewrite fmap_delete.
      - by apply map_Forall_delete.
      - done.
      - rewrite Esz, wrap_small by (unfold in_width; lia). lia.
      - rewrite wrap_small by (unfold in_width; lia). lia.
      - done.
      - rewrite wrap_small by (unfold in_width; lia). lia. }
    unfold combinePartials. rewrite E1. change (p_sqrt_Q (partial_of s)) with (r_sqrt_Q s). destruct (r_sqrt_Q s =? r_sqrt_Q r).
    + cbn [mbind option_bind fst snd]. eexists. split; [done|]. split; [rewrite (wrap_small 64 (total_dup_dropped_ t + 1)) by (unfold in_width; lia); apply Hinv; lia|]. split; [done|lia].
    + change (p_factor_indices (partial_of s)) with (map fst (r_factors s)). change (p_factor_counts (partial_of s)) with (map snd (r_factors s)). rewrite E6, E7, mergeFactors_spec. cbn [mbind option_bind]. rewrite E3. change (p_val_2_exp (partial_of s)) with (r_val2 s).
      pose proof (lf_val2 s Fs). pose proof (lf_val2 r Fr). rewrite bool_decide_eq_true_2 by lia.
      rewrite (append_combined_spec (mont_ t) n out s b rs i r) by first [done|lia|eapply Forall_impl; [exact Ho|intros ? [_ ?]; done]].
      cbn [mbind option_bind fst snd]. eexists. split; [done|]. split; [rewrite (wrap_small 64 (total_combines_ t + 1)) by (unfold in_width; lia); apply Hinv; lia|].
      split; [|unfold zlen in *; rewrite length_app; cbn; lia].
      apply Forall_app. split; [done|]. constructor; [|done]. by apply combine_valid.
  - cbn [fst snd]. eexists. split; [done|]. split; [|split; [done|lia]]. rewrite (extractPartial_spec b rs i r H Hi). constructor; cbn.
    + by rewrite fmap_insert.
    + by apply map_Forall_insert_2.
    + done.
    + rewrite map_size_insert_None by done. rewrite wrap_small by (unfold in_width; lia). lia.
    + done.
    + done.
    + rewrite wrap_small by (unfold in_width; lia). lia.
Qed.

(** ** Lemmas: batches of partial relations *)

Lemma match_out n tab out l : foldl (match_one n) (tab, out) l = ((foldl (match_one n) (tab, []) l).1, out ++ (foldl (match_one n) (tab, []) l).2).
Proof.
  revert tab out. induction l as [|r l IH]; intros tab out; cbn [foldl fst snd]; [by rewrite app_nil_r|].
  assert (match_one n (tab, out) r = ((match_one n (tab, []) r).1, out ++ (match_one n (tab, []) r).2)) as ->.
  { unfold match_one. cbn [fst snd]. destruct (r_lp r <=? 1); cbn [fst snd]; [by rewrite app_nil_r|].
    destruct (tab !! r_lp r); [|by rewrite app_nil_r]. destruct (_ =? _); cbn [fst snd]; [by rewrite app_nil_r|done]. }
  destruct (match_one n (tab, []) r) as [tab' out'] eqn:E. cbn [fst snd]. rewrite IH, (IH tab' out'). cbn [fst snd]. by rewrite <- app_assoc.
Qed.

Lemma insert_loop_spec n fb t tab k b rs :
  lp_inv n fb t tab k -> repr b rs -> Forall (arrives n fb) rs -> 0 <= k -> k + zlen rs < 2 ^ 48 ->
  exists t', foldl (insert_one b) (Some (t, batch_start)) (upto (num_relations b)) = Some (t', batch_of (foldl (match_one n) (tab, []) rs).2) /\
    lp_inv n fb t' (foldl (match_one n) (tab, []) rs).1 (k + zlen rs) /\ Forall (combined_ok n fb) (foldl (match_one n) (tab, []) rs).2 /\
    zlen (foldl (match_one n) (tab, []) rs).2 <= zlen rs.
Proof.
  intros Ht H Ha Hk0 Hk. rewrite (repr_num_relations b rs H). unfold upto. rewrite Nat2Z.id.
  assert (forall m, (m <= length rs)%nat -> exists t',
    foldl (insert_one b) (Some (t, batch_start)) (map Z.of_nat (seq 0 m)) = Some (t', batch_of (foldl (match_one n) (tab, []) (take m rs)).2) /\
    lp_inv n fb t' (foldl (match_one n) (tab, []) (take m rs)).1 (k + Z.of_nat m) /\ Forall (combined_ok n fb) (foldl (match_one n) (tab, []) (take m rs)).2 /\
    zlen (foldl (match_one n) (tab, []) (take m rs)).2 <= Z.of_nat m) as Hm.
  2: { specialize (Hm (length rs) (le_n _)). by rewrite take_ge in Hm by lia. }
  unfold zlen in *. induction m as [|m IH]; intros Hl.
  { exists t. rewrite Z.add_0_r. by split_and!. }
  destruct (IH ltac:(lia)) as (t' & E & Hi & Ho & Hz). destruct (lookup_lt_is_Some_2 rs m ltac:(lia)) as [r Hr].
  rewrite seq_S, map_app, !foldl_app, (take_S_r _ _ r Hr), foldl_app, E. cbn [foldl map Nat.add].
  destruct (foldl (match_one n) (tab, []) (take m rs)) as [tab' out'] eqn:Ef. cbn [fst snd] in *.
  destruct (insert_one_spec n fb t' tab' (k + Z.of_nat m) b rs m r out' Hi H Hr) as (t'' & E' & Hi' & Ho' & Hz');
    [by eapply Forall_lookup_1|done|unfold zlen; lia|lia|].
  unfold zlen in *. exists t''. split; [exact E'|]. split; [by replace (k + Z.of_nat (S m)) with (k + Z.of_nat m + 1) by lia|]. split; [done|].
  unfold match_one in *. cbn [fst snd] in *. destruct (r_lp r <=? 1); cbn [fst snd] in *; [lia|]. destruct (tab' !! r_lp r); cbn [fst snd] in *; [|lia]. destruct (_ =? _); [lia|]. rewrite length_app. cbn. lia.
Qed.

(** Deduplicating in two steps. *)
Lemma dedup_steps rs l1 l2 :
  let kept := rs ++ dedup (list_to_set (map rel_hash rs)) l1 in
  kept ++ dedup (list_to_set (map rel_hash kept)) l2 = rs ++ dedup (list_to_set (map rel_hash rs)) (l1 ++ l2).
Proof.
  cbv zeta. rewrite dedup_app, <- app_assoc. do 3 f_equal. apply set_eq. intros h.
  rewrite map_app, elem_of_union, !elem_of_list_to_set, elem_of_app, dedup_hashes, elem_of_list_to_set. destruct (decide (h ∈ map rel_hash rs)); tauto.
Qed.

Lemma insertAndMatch_spec n fb t tab k b rs acc racc :
  lp_inv n fb t tab k -> repr b rs -> Forall (arrives n fb) rs -> 0 <= k -> k + zlen rs < 2 ^ 48 ->
  acc_inv acc racc -> zlen racc + 1024 * zlen rs < 2 ^ 63 -> zlen (all_factors racc) + 1024 * zlen rs < 2 ^ 63 ->
  let out := (foldl (match_one n) (tab, []) rs).2 in
  exists t' acc', insertAndMatch b t acc = Some (t', acc') /\ lp_inv n fb t' (foldl (match_one n) (tab, []) rs).1 (k + zlen rs) /\
    acc_inv acc' (racc ++ dedup (list_to_set (map rel_hash racc)) out) /\ Forall (combined_ok n fb) out /\ zlen out <= zlen rs.
Proof.
  intros Ht H Ha Hk0 Hk Hacc Hl Hf out. unfold insertAndMatch. rewrite (repr_num_relations b rs H). destruct (Z.eqb_spec (Z.of_nat (length rs)) 0) as [E0|E0].
  { destruct rs; [|done]. exists t, acc. split; [done|]. rewrite Z.add_0_r. cbn. rewrite app_nil_r. by split_and!. }
  destruct (insert_loop_spec n fb t tab k b rs Ht H Ha Hk0 Hk) as (t' & E & Hi & Ho & Hz). rewrite (repr_num_relations b rs H) in E. rewrite E.
  cbn [mbind option_bind]. fold out in E, Ho, Hz |- *. eexists t', _. split; [done|]. split; [done|]. split; [|done].
  cbn [batch_of num_relations]. destruct (Z.ltb_spec 0 (Z.of_nat (length out))) as [|Hn].
  - assert (zlen (all_factors out) <= 1024 * zlen out) as Hfo by (apply factors_bound; eapply Forall_impl; [exact Ho|by intros ? [_ ?]]).
    unfold zlen in *. apply addRelations_spec; [done|apply repr_batch_of|lia|lia].
  - destruct out; [|cbn in Hn; lia]. cbn. by rewrite app_nil_r.
Qed.

Lemma insert_all_spec n fb batches rss : forall t tab k acc racc,
  lp_inv n fb t tab k -> Forall2 repr batches rss -> Forall (arrives n fb) (concat rss) -> 0 <= k -> k + zlen (concat rss) < 2 ^ 48 ->
  acc_inv acc racc -> zlen racc + 1024 * zlen (concat rss) < 2 ^ 63 -> zlen (all_factors racc) + 1024 * zlen (concat rss) < 2 ^ 63 ->
  let out := (foldl (match_one n) (tab, []) (concat rss)).2 in
  exists t' acc', insert_all batches t acc = Some (t', acc') /\ lp_inv n fb t' (foldl (match_one n) (tab, []) (concat rss)).1 (k + zlen (concat rss)) /\
    acc_inv acc' (racc ++ dedup (list_to_set (map rel_hash racc)) out) /\ Forall (combined_ok n fb) out.
Proof.
  intros t tab k acc racc Ht H. revert t tab k acc racc Ht. induction H as [|b rs batches rss Hb _ IH]; intros t tab k acc racc Ht Ha Hk0 Hk Hacc Hl Hf out.
  { exists t, acc. split; [done|]. cbn. rewrite Z.add_0_r, app_nil_r. by split_and!. }
  cbn [concat] in *. apply Forall_app in Ha as [Ha1 Ha2]. assert (zlen (rs ++ concat rss) = zlen rs + zlen (concat rss)) as El by (unfold zlen; rewrite length_app; lia).
  pose proof (zlen_nonneg rs). pose proof (zlen_nonneg (concat rss)). rewrite El in *.
  destruct (insertAndMatch_spec n fb t tab k b rs acc racc Ht Hb Ha1 Hk0) as (t1 & acc1 & E1 & Hi1 & Hc1 & Ho1 & Hz1); [lia|done|lia|lia|].
  unfold insert_all. cbn [foldl mbind option_bind]. rewrite E1.
  unfold out. rewrite foldl_app. destruct (foldl (match_one n) (tab, []) rs) as [tab1 out1] eqn:Ef. cbn [fst snd] in *.
  set (racc1 := racc ++ dedup (list_to_set (map rel_hash racc)) out1) in *.
  assert (zlen racc1 <= zlen racc + zlen rs /\ zlen (all_factors racc1) <= zlen (all_factors racc) + 1024 * zlen rs) as [B1 B2].
  { pose proof (dedup_sublist (list_to_set (map rel_hash racc)) out1) as Hsub. unfold racc1, zlen in *. rewrite all_factors_app, !length_app.
    pose proof (sublist_length _ _ Hsub). pose proof (all_factors_sublist _ _ Hsub).
    assert (zlen (all_factors out1) <= 1024 * zlen out1) as Hfo by (apply factors_bound; eapply Forall_impl; [exact Ho1|by intros ? [_ ?]]).
    unfold zlen in Hfo. lia. }
  destruct (IH t1 tab1 (k + zlen rs) acc1 racc1 Hi1 Ha2) as (t2 & acc2 & E2 & Hi2 & Hc2 & Ho2); [lia|lia|done|lia|lia|].
  unfold insert_all in E2. exists t2, acc2. rewrite match_out. cbn [fst snd]. split; [exact E2|]. split; [by rewrite <- Z.add_assoc in Hi2|]. split.
  - rewrite <- dedup_steps. exact Hc2.
  - by apply Forall_app.
Qed.

Lemma init_inv N fb lp1 : u512_ok N -> Z.odd (u512_val N) = true -> lp_inv (u512_val N) fb (CPULargePrimeTable_init lp1 N) ∅ 0.
Proof.
  intros HN Ho. constructor; [by rewrite fmap_empty|apply map_Forall_empty| |done|done|done|done]. split; [by apply Montgomery_init_ok|done].
Qed.

(** A partial relation that is delivered a second time is dropped, and takes the waiting one with it: a third with the
    same large prime finds nothing to combine with. *)
Lemma duplicate_erases n r s : 1 < r_lp r -> r_lp s = r_lp r -> foldl (match_one n) (∅, []) [r; r; s] = ({[r_lp r := s]}, []).
Proof.
  intros Hr Es. cbn [foldl]. unfold match_one at 3. cbn [fst snd]. rewrite (proj2 (Z.leb_gt (r_lp r) 1)) by done. rewrite lookup_empty.
  unfold match_one at 2. cbn [fst snd]. rewrite (proj2 (Z.leb_gt (r_lp r) 1)) by done. rewrite lookup_insert_eq, Z.eqb_refl, delete_insert_id by done.
  unfold match_one. cbn [fst snd]. rewrite Es, (proj2 (Z.leb_gt (r_lp r) 1)) by done. by rewrite lookup_empty.
Qed.

(** ** Properties *)

(** C30. Large primes are eliminated. Over any sequence of batches of valid partial relations, cut anywhere, the table combines exactly
    the pairs that [match_one] finds, the accumulator gains exactly their products after deduplication, and each product is a valid relation:
    the square of its root is the signed factorisation times the square of the large prime. The counters add up. *)
Theorem large_primes_exact N fb batches rss acc rs0 lp1_bound :
  u512_ok N -> Z.odd (u512_val N) = true -> Forall2 repr batches rss -> Forall (arrives (u512_val N) fb) (concat rss) ->
  zlen (concat rss) < 2 ^ 48 -> acc_inv acc rs0 -> zlen rs0 < 2 ^ 62 -> zlen (all_factors rs0) < 2 ^ 62 ->
  let '(waiting, combined) := foldl (match_one (u512_val N)) (∅, []) (concat rss) in
  exists t' acc', insert_all batches (CPULargePrimeTable_init lp1_bound N) acc = Some (t', acc') /\
    table_ t' = partial_of <$> waiting /\
    acc_inv acc' (rs0 ++ dedup (list_to_set (map rel_hash rs0)) combined) /\
    Forall (smooth_holds (u512_val N) fb) combined /\
    totalInserts t' = witnesses t' + totalMatches t' /\ totalMatches t' = totalCombines t' + totalDupDropped t'.
Proof.
  intros HN Ho Hb Ha Hk Hacc Hl Hf.
  destruct (insert_all_spec (u512_val N) fb batches rss _ _ 0 acc rs0 (init_inv N fb lp1_bound HN Ho) Hb Ha) as (t' & acc' & E & Hi & Hc & Hv); [lia|lia|done|lia|lia|].
  destruct (foldl _ _ _) as [waiting combined]. cbn [fst snd] in *. destruct Hi as [T1 _ _ T4 T5 _ _].
  exists t', acc'. split; [done|]. split; [done|]. split; [done|]. split; [eapply Forall_impl; [exact Hv|by intros ? [? _]]|].
  split; [|done]. unfold totalInserts, witnesses, totalMatches. rewrite T1, map_size_fmap. done.
Qed.

(** [42^2 = 5 * 23] and [27^2 = - 2^3 * 5 * 23] modulo 1649, in two batches. *)
Lemma large_primes_exact_witness :
  exists t' acc', insert_all [batch_of [mkRel 42 1 0 23 1 [(0, 1)]]; batch_of [mkRel 27 255 3 23 2 [(0, 1)]]] (CPULargePrimeTable_init 100 (u512_of_Z 1649)) (RelationAccumulator_init 5 default_margin) = Some (t', acc') /\
    acc_inv acc' [mkRel 1134 255 3 23 3 [(0, 2)]].
Proof.
  set (ra := mkRel 42 1 0 23 1 [(0, 1)]). set (rb := mkRel 27 255 3 23 2 [(0, 1)]).
  pose proof (large_primes_exact (u512_of_Z 1649) [5] [batch_of [ra]; batch_of [rb]] [[ra]; [rb]] (RelationAccumulator_init 5 default_margin) [] 100) as H.
  destruct H as (t' & acc' & E & _ & Hc & _).
  - apply u512_of_Z_spec.
  - reflexivity.
  - constructor; [apply repr_batch_of|]. constructor; [apply repr_batch_of|constructor].
  - repeat constructor; cbn; unfold in_width; try lia; try (vm_compute; congruence).
  - reflexivity.
  - apply acc_init_inv.
  - reflexivity.
  - reflexivity.
  - exists t', acc'. split; [exact E|exact Hc].
Defined.
