(* ===== verification/LpKernels.v ===== *)
(** The large-prime variation on the device, kernels ([src/src/largeprimes/largeprime.cu]): a hash table of partial
    relations. A directory word per bucket holds a lock, the number of entries and the row of the bucket; a row has 16
    entries, each the tag of a large prime and the index of its relation in the batch of witnesses. Kernels whose threads
    share memory are step relations over the phases of their threads. *)
From Stdlib Require Import ZArith Lia.
From stdpp Require Import base gmap sets list relations.
From S2P Require Import Prelude Soa Gf2 UInt512 UInt512Div WarpAppend CpuLp.
#[local] Open Scope Z_scope.

(** ** Data *)

Inductive SLPStatus := CONSUMED | NEEDS_ALLOCATION | NEEDS_PROBE | MATCH_FOUND | NEEDS_APPEND.

#[global] Instance SLPStatus_eq_dec : EqDecision SLPStatus.
Proof. solve_decision. Defined.

Definition status_code (s : SLPStatus) : Z :=
  match s with CONSUMED => 0 | NEEDS_ALLOCATION => 2 | NEEDS_PROBE => 3 | MATCH_FOUND => 4 | NEEDS_APPEND => 5 end.

(** [static_cast<SLPStatus>]; only codes of the enumeration are packed into keys. *)
Definition status_of_code (c : Z) : SLPStatus :=
  if c =? 2 then NEEDS_ALLOCATION else if c =? 3 then NEEDS_PROBE else if c =? 4 then MATCH_FOUND else if c =? 5 then NEEDS_APPEND else CONSUMED.

Definition ROW_WIDTH_ELEMS : Z := 16.
Definition MAX_MERGE_FACTORS : nat := 64.

(** ** Buckets, tags and keys *)

Definition lp_shifted (lp : Z) : Z := Z.shiftr (wrap 64 lp) 1.
Definition lp_hash (hash_bits lp : Z) : Z := Z.land (lp_shifted lp) (Z.shiftl 1 hash_bits - 1).
Definition lp_tag (hash_bits lp : Z) : Z := wrap 32 (Z.shiftr (lp_shifted lp) hash_bits).

(** A directory word: [Lock: 1 | Count: 15 | Row: 48]. *)
Definition dir_count (e : Z) : Z := Z.land (Z.shiftr e 48) 0x7FFF.
Definition dir_row (e : Z) : Z := Z.land e 0xFFFFFFFFFFFF.
Definition lock_mask : Z := 2 ^ 63.
Definition dir_locked (e : Z) : bool := negb (Z.land e lock_mask =? 0).

(** A routing key: [Status: 4 | Row: 28 | Tag: 32]. *)
Definition key_status (key : Z) : SLPStatus := status_of_code (Z.shiftr key 60).
Definition key_row (key : Z) : Z := Z.land (Z.shiftr key 32) 0xFFFFFFF.
Definition key_tag (key : Z) : Z := wrap 32 (Z.land key 0xFFFFFFFF).

(** One thread of [directory_fetch_kernel]: its key and its status flag. *)
Definition fetch_one (hash_bits : Z) (directory : list Z) (lp : Z) : Z * SLPStatus :=
  let dir_entry := idx directory (lp_hash hash_bits lp) in
  let row_idx := Z.land dir_entry 0xFFFFFFFF in
  let status := if dir_count dir_entry =? 0 then NEEDS_ALLOCATION else NEEDS_PROBE in
  (Z.lor (Z.lor (Z.shiftl (status_code status) 60) (Z.shiftl (Z.land row_idx 0xFFFFFFF) 32)) (lp_tag hash_bits lp), status).

Definition directory_fetch_kernel (hash_bits : Z) (directory : list Z) (large_primes : list Z) : list (Z * SLPStatus) :=
  map (fetch_one hash_bits directory) large_primes.

(** ** [probe_hash_table_kernel] *)

(** The first entry of the row with the tag, from slot [k] on: its slot and the index it holds. *)
Fixpoint scan_row (tag k : Z) (row : list Z) : option (Z * Z) :=
  match row with
  | [] => None
  | x :: row' => if wrap 32 (Z.shiftr x 32) =? tag then Some (k, wrap 32 x) else scan_row tag (k + 1) row'
  end.

(** A thread: not started, about to exchange the slot it matched, or done - with its status and, on a match, the index it wrote. *)
Inductive probe_phase := PStart | PClaim (slot matched : Z) | PDone (status : SLPStatus) (target : option Z).

Definition slab_payload (tag g : Z) : Z := Z.lor (Z.shiftl tag 32) g.
Definition slot_of (row k : Z) : nat := Z.to_nat (row * ROW_WIDTH_ELEMS + k).

Section probe.
Context (purge_after_match : bool) (slabs0 : list Z) (keys : list Z).

(** What a thread may see of a row: its loads go through a cache that is not coherent, so each entry is the one at the
    start of the kernel or the present one. *)
Definition sees_row (slabs : list Z) (row : Z) (obs : list Z) : Prop :=
  Z.of_nat (length obs) = ROW_WIDTH_ELEMS /\
  forall k x, obs !! k = Some x -> slabs0 !! slot_of row (Z.of_nat k) = Some x \/ slabs !! slot_of row (Z.of_nat k) = Some x.

Inductive probe_step : list Z * list probe_phase -> list Z * list probe_phase -> Prop :=
  | probe_skip slabs ph i key :
      keys !! i = Some key -> ph !! i = Some PStart -> key_status key <> NEEDS_PROBE ->
      probe_step (slabs, ph) (slabs, <[i := PDone (key_status key) None]> ph)
  | probe_miss slabs ph i key obs :
      keys !! i = Some key -> ph !! i = Some PStart -> key_status key = NEEDS_PROBE ->
      sees_row slabs (key_row key) obs -> scan_row (key_tag key) 0 obs = None ->
      probe_step (slabs, ph) (slabs, <[i := PDone NEEDS_APPEND None]> ph)
  | probe_hit slabs ph i key obs slot matched :
      keys !! i = Some key -> ph !! i = Some PStart -> key_status key = NEEDS_PROBE ->
      sees_row slabs (key_row key) obs -> scan_row (key_tag key) 0 obs = Some (slot, matched) ->
      probe_step (slabs, ph) (slabs, <[i := if purge_after_match then PClaim slot matched else PDone MATCH_FOUND (Some matched)]> ph)
  | probe_claim slabs ph i key slot matched :
      (** [atomicCAS] succeeds and clears the entry *)
      keys !! i = Some key -> ph !! i = Some (PClaim slot matched) ->
      slabs !! slot_of (key_row key) slot = Some (slab_payload (key_tag key) matched) ->
      probe_step (slabs, ph) (<[slot_of (key_row key) slot := 0]> slabs, <[i := PDone MATCH_FOUND (Some matched)]> ph)
  | probe_lost slabs ph i key slot matched x :
      keys !! i = Some key -> ph !! i = Some (PClaim slot matched) ->
      slabs !! slot_of (key_row key) slot = Some x -> x <> slab_payload (key_tag key) matched ->
      probe_step (slabs, ph) (slabs, <[i := PDone NEEDS_APPEND None]> ph).

End probe.

Definition probe_done (ph : probe_phase) : Prop := match ph with PDone _ _ => True | _ => False end.

(** A finished run of the kernel. *)
Definition probe_run (purge_after_match : bool) (slabs0 keys : list Z) (slabs : list Z) (ph : list probe_phase) : Prop :=
  rtc (probe_step purge_after_match slabs0 keys) (slabs0, replicate (length keys) PStart) (slabs, ph) /\ Forall probe_done ph.

(** ** Combining *)

(** [merge_factors_csr], [room] being [max_cap - k]. *)
Fixpoint merge_factors_csr (room : nat) (a b : list (Z * Z)) : list (Z * Z) :=
  match room, a, b with
  | O, _, _ => []
  | _, [], _ => take room b
  | _, _, [] => take room a
  | S room', (val_a, cnt_a) :: a', (val_b, cnt_b) :: b' =>
      if val_a <? val_b then (val_a, cnt_a) :: merge_factors_csr room' a' b
      else if val_b <? val_a then (val_b, cnt_b) :: merge_factors_csr room' a b'
      else (val_a, wrap 8 (cnt_a + cnt_b)) :: merge_factors_csr room' a' b'
  end.

(** The relation a thread of [global_combine_kernel] forms of its partial relation and the witness, unless the guards reject them. *)
Definition combine_pair (N : uint512) (r w : relation) : option relation :=
  if negb (wrap 64 (r_lp r) =? wrap 64 (r_lp w)) then None
  else if r_sqrt_Q r =? r_sqrt_Q w then None
  else Some (mkRel (u512_val (mul_mod (u512_of_Z (r_sqrt_Q r)) (u512_of_Z (r_sqrt_Q w)) N)) (combined_sign (r_sign r) (r_sign w)) (r_val2 r + r_val2 w)
               (r_lp r) (Z.lxor (r_char r) (r_char w)) (merge_factors_csr MAX_MERGE_FACTORS (r_factors r) (r_factors w))).

(** What thread [i] appends: [status_flags[i]] and [target_idx_array[i]] are in its phase. *)
Definition combine_one (N : uint512) (input witnesses : HostRelationBatch) (i : nat) (ph : probe_phase) : option relation :=
  match ph with
  | PDone MATCH_FOUND (Some g) => combine_pair N (relation_at input (Z.of_nat i)) (relation_at witnesses g)
  | _ => None
  end.

(** ** The reservation of one relation *)

(** One round of [atomic_reserve_dual] on the value it read. *)
Definition reserve_dual (v : RelationBatchView) (factors_to_add old : Z) : option (Z * Z * Z) :=
  let r := unpack_r old in
  let f := unpack_f old in
  if (max_relations v <=? r) || (wrap 32 (max_factors v) <? wrap 32 (f + factors_to_add)) then None
  else Some (r, f, pack_rf (wrap 32 (r + 1)) (wrap 32 (f + factors_to_add))).

(** A batch that threads append to: its arrays, its dual counter, the stores under way; the accepted relations in the
    order of their reservations, and the overflow counter. *)
Record soa := mkSoa { so_batch : HostRelationBatch; so_dual : Z; so_pending : list store; so_accepted : list relation; so_overflow : Z }.

Definition soa_reserved (s : soa) (r : relation) (R F desired : Z) : soa :=
  mkSoa (so_batch s) desired (so_pending s ++ relation_stores R F r) (so_accepted s ++ [r]) (so_overflow s).
Definition soa_dropped (s : soa) : soa := mkSoa (so_batch s) (so_dual s) (so_pending s) (so_accepted s) (wrap 64 (so_overflow s + 1)).
Definition soa_landed (s : soa) (p1 : list store) (x : store) (p2 : list store) : soa :=
  mkSoa (apply_store (so_batch s) x) (so_dual s) (p1 ++ p2) (so_accepted s) (so_overflow s).

Definition r_len (r : relation) : Z := Z.of_nat (length (r_factors r)).

(** ** [global_combine_kernel] as a step relation *)

Inductive out_phase := OStart | OSeen (old : Z) | ODone (appended : bool).

Section combine.
Context (v : RelationBatchView) (work : list (option relation)).

Inductive combine_step : soa * list out_phase -> soa * list out_phase -> Prop :=
  | combine_none s ph i :
      work !! i = Some None -> ph !! i = Some OStart -> combine_step (s, ph) (s, <[i := ODone false]> ph)
  | combine_load s ph i r :
      work !! i = Some (Some r) -> ph !! i = Some OStart -> combine_step (s, ph) (s, <[i := OSeen (so_dual s)]> ph)
  | combine_full s ph i r old :
      work !! i = Some (Some r) -> ph !! i = Some (OSeen old) -> reserve_dual v (r_len r) old = None ->
      combine_step (s, ph) (soa_dropped s, <[i := ODone false]> ph)
  | combine_retry s ph i r old x :
      work !! i = Some (Some r) -> ph !! i = Some (OSeen old) -> reserve_dual v (r_len r) old = Some x -> so_dual s <> old ->
      combine_step (s, ph) (s, <[i := OSeen (so_dual s)]> ph)
  | combine_reserve s ph i r R F desired :
      work !! i = Some (Some r) -> ph !! i = Some (OSeen (so_dual s)) -> reserve_dual v (r_len r) (so_dual s) = Some (R, F, desired) ->
      combine_step (s, ph) (soa_reserved s r R F desired, <[i := ODone true]> ph)
  | combine_store s ph p1 x p2 :
      so_pending s = p1 ++ x :: p2 -> combine_step (s, ph) (soa_landed s p1 x p2, ph).

End combine.

Definition combine_run (v : RelationBatchView) (work : list (option relation)) (b : HostRelationBatch) (dual overflow : Z) (s : soa) (ph : list out_phase) : Prop :=
  rtc (combine_step v work) (mkSoa b dual [] [] overflow, replicate (length work) OStart) (s, ph) /\
  so_pending s = [] /\ Forall (fun p => exists a, p = ODone a) ph.

(** ** [global_append_kernel] as a step relation *)

(** A thread with a partial relation to insert: its tag, its bucket and the relation. *)
Record insertion := mkInsertion { in_tag : Z; in_bucket : Z; in_relation : relation }.

(** Reserving; at the lock of its bucket with the directory word it read; in the critical section - with the old directory word, then with a
    row, then without one when the rows are exhausted, then with the entry written; done. [g] is the index of its witness. *)
Inductive insert_phase :=
  | IStart | ISeen (old : Z) | ISpin (g : Z) | IRead (g cur : Z)
  | IHold (g cur : Z) | IRow (g cur row : Z) | IFull (g cur : Z) | IWritten (g row count : Z)
  | IDone (g : option Z).

Record insert_state := mkInsert {
  is_soa : soa;
  is_dir : list Z;
  is_slabs : list Z;
  is_rows : Z;
  is_overflow : Z;
  is_phases : list insert_phase
}.

Section insert.
Context (v : RelationBatchView) (max_slab_rows : Z) (work : list (option insertion)).

(** The thread [i] changes its phase, and nothing else. *)
Definition set_phase (st : insert_state) (i : nat) (p : insert_phase) : insert_state :=
  mkInsert (is_soa st) (is_dir st) (is_slabs st) (is_rows st) (is_overflow st) (<[i := p]> (is_phases st)).

Definition set_soa (st : insert_state) (s : soa) : insert_state :=
  mkInsert s (is_dir st) (is_slabs st) (is_rows st) (is_overflow st) (is_phases st).

Definition set_dir (st : insert_state) (h e : Z) : insert_state :=
  mkInsert (is_soa st) (<[Z.to_nat h := e]> (is_dir st)) (is_slabs st) (is_rows st) (is_overflow st) (is_phases st).

Definition count_overflow (st : insert_state) : insert_state :=
  mkInsert (is_soa st) (is_dir st) (is_slabs st) (is_rows st) (wrap 64 (is_overflow st + 1)) (is_phases st).

(** [atomicAdd(global_row_allocator, 1)]. *)
Definition next_row (st : insert_state) : insert_state :=
  mkInsert (is_soa st) (is_dir st) (is_slabs st) (wrap 32 (is_rows st + 1)) (is_overflow st) (is_phases st).

Definition write_slot (st : insert_state) (row k x : Z) : insert_state :=
  mkInsert (is_soa st) (is_dir st) (<[slot_of row k := x]> (is_slabs st)) (is_rows st) (is_overflow st) (is_phases st).

(** Thread [i] is in phase [p] with the insertion [w]. *)
Definition at_phase (st : insert_state) (i : nat) (w : insertion) (p : insert_phase) : Prop :=
  work !! i = Some (Some w) /\ is_phases st !! i = Some p.

Inductive insert_step : insert_state -> insert_state -> Prop :=
  | insert_none st i :
      work !! i = Some None -> is_phases st !! i = Some IStart -> insert_step st (set_phase st i (IDone None))
  | insert_load st i w :
      at_phase st i w IStart -> insert_step st (set_phase st i (ISeen (so_dual (is_soa st))))
  | insert_no_room st i w old :
      at_phase st i w (ISeen old) -> reserve_dual v (r_len (in_relation w)) old = None ->
      insert_step st (set_phase (set_soa st (soa_dropped (is_soa st))) i (IDone None))
  | insert_retry st i w old x :
      at_phase st i w (ISeen old) -> reserve_dual v (r_len (in_relation w)) old = Some x -> so_dual (is_soa st) <> old ->
      insert_step st (set_phase st i (ISeen (so_dual (is_soa st))))
  | insert_reserve st i w R F desired :
      at_phase st i w (ISeen (so_dual (is_soa st))) -> reserve_dual v (r_len (in_relation w)) (so_dual (is_soa st)) = Some (R, F, desired) ->
      insert_step st (set_phase (set_soa st (soa_reserved (is_soa st) (in_relation w) R F desired)) i (ISpin R))
  | insert_read st i w g cur :
      (** the coherent read of the directory word *)
      at_phase st i w (ISpin g) -> is_dir st !! Z.to_nat (in_bucket w) = Some cur ->
      insert_step st (set_phase st i (IRead g cur))
  | insert_spin st i w g cur :
      at_phase st i w (IRead g cur) -> dir_locked cur = true -> insert_step st (set_phase st i (ISpin g))
  | insert_raced st i w g cur e :
      at_phase st i w (IRead g cur) -> dir_locked cur = false -> is_dir st !! Z.to_nat (in_bucket w) = Some e -> e <> cur ->
      insert_step st (set_phase st i (ISpin g))
  | insert_lock st i w g cur :
      at_phase st i w (IRead g cur) -> dir_locked cur = false -> is_dir st !! Z.to_nat (in_bucket w) = Some cur ->
      insert_step st (set_phase (set_dir st (in_bucket w) (Z.lor cur lock_mask)) i (IHold g cur))
  | insert_known_row st i w g cur :
      at_phase st i w (IHold g cur) -> dir_count cur <> 0 -> insert_step st (set_phase st i (IRow g cur (dir_row cur)))
  | insert_new_row st i w g cur :
      at_phase st i w (IHold g cur) -> dir_count cur = 0 ->
      insert_step st (set_phase (next_row st) i (if max_slab_rows <=? is_rows st then IFull g cur else IRow g cur (is_rows st)))
  | insert_exhausted st i w g cur :
      at_phase st i w (IFull g cur) ->
      insert_step st (set_phase (set_dir (count_overflow st) (in_bucket w) (Z.land cur (lock_mask - 1))) i (IDone (Some g)))
  | insert_write st i w g cur row :
      at_phase st i w (IRow g cur row) -> dir_count cur < ROW_WIDTH_ELEMS ->
      insert_step st (set_phase (write_slot st row (dir_count cur) (slab_payload (in_tag w) g)) i (IWritten g row (dir_count cur + 1)))
  | insert_row_full st i w g cur row :
      at_phase st i w (IRow g cur row) -> ROW_WIDTH_ELEMS <= dir_count cur ->
      insert_step st (set_phase (count_overflow st) i (IWritten g row (dir_count cur)))
  | insert_release st i w g row count :
      at_phase st i w (IWritten g row count) ->
      insert_step st (set_phase (set_dir st (in_bucket w) (Z.lor (Z.shiftl count 48) row)) i (IDone (Some g)))
  | insert_store st p1 x p2 :
      so_pending (is_soa st) = p1 ++ x :: p2 -> insert_step st (set_soa st (soa_landed (is_soa st) p1 x p2)).

End insert.

(** What thread [i] inserts: the status flag is in its phase after the probe, the tag in its key. *)
Definition insertion_at (hash_bits : Z) (keys : list Z) (input : HostRelationBatch) (i : nat) (ph : probe_phase) : option insertion :=
  match ph with
  | PDone NEEDS_ALLOCATION _ | PDone NEEDS_APPEND _ =>
      let r := relation_at input (Z.of_nat i) in Some (mkInsertion (key_tag (idx keys (Z.of_nat i))) (lp_hash hash_bits (r_lp r)) r)
  | _ => None
  end.

Definition insert_start (s : soa) (dir slabs : list Z) (rows overflow : Z) (n : nat) : insert_state :=
  mkInsert s dir slabs rows overflow (replicate n IStart).

Definition insert_finished (st : insert_state) : Prop := so_pending (is_soa st) = [] /\ Forall (fun p => exists g, p = IDone g) (is_phases st).

(** ** Vocabulary of the specifications *)

(** What the combine kernel keeps of a product: its first 64 factors. *)
Definition cut_factors (c : relation) : relation :=
  mkRel (r_sqrt_Q c) (r_sign c) (r_val2 c) (r_lp c) (r_char c) (take MAX_MERGE_FACTORS (r_factors c)).

(** What [f] makes of the pairs of a thread's work and its phase. *)
Definition collected {A B C} (f : A -> B -> option C) (work : list A) (ph : list B) : list C := omap (fun x => f x.1 x.2) (zip work ph).

(** ** Words and keys *)

Lemma lp_hash_mod bits lp : 0 <= bits -> lp_hash bits lp = lp_shifted lp mod 2 ^ bits.
Proof. intros Hb. unfold lp_hash. rewrite Z.shiftl_1_l, <- Z.land_ones by done. f_equal. rewrite Z.ones_equiv. lia. Qed.

Lemma lp_hash_range bits lp : 0 <= bits -> 0 <= lp_hash bits lp < 2 ^ bits.
Proof. intros Hb. rewrite lp_hash_mod by done. apply Z.mod_pos_bound. lia. Qed.

Lemma lp_shifted_div lp : in_width 64 lp -> lp_shifted lp = lp / 2.
Proof. intros H. unfold lp_shifted. rewrite wrap_small by done. rewrite Z.shiftr_div_pow2 by lia. done. Qed.

Lemma lp_tag_width bits lp : in_width 32 (lp_tag bits lp).
Proof. apply wrap_range. lia. Qed.

(** Bucket and tag determine an odd large prime that fits the encoding. *)
Lemma lp_injective bits p q :
  0 <= bits <= 31 -> Z.odd p = true -> Z.odd q = true -> 0 <= p < 2 ^ (33 + bits) -> 0 <= q < 2 ^ (33 + bits) ->
  lp_hash bits p = lp_hash bits q -> lp_tag bits p = lp_tag bits q -> p = q.
Proof.
  intros Hb Op Oq Hp Hq. rewrite !lp_hash_mod by lia. unfold lp_tag. rewrite !Z.shiftr_div_pow2 by lia.
  assert (2 ^ (33 + bits) = 2 ^ 33 * 2 ^ bits) as E by (by rewrite <- Z.pow_add_r by lia).
  assert (2 ^ (33 + bits) <= 2 ^ 64) as Hle by (apply Z.pow_le_mono_r; lia). pose proof (Z.pow_pos_nonneg 2 bits ltac:(lia) ltac:(lia)) as H0.
  rewrite !lp_shifted_div by (unfold in_width; lia).
  assert (forall x, 0 <= x < 2 ^ (33 + bits) -> in_width 32 (x / 2 / 2 ^ bits)) as Hw.
  { intros x Hx. unfold in_width. split; [apply Z.div_pos; [apply Z.div_pos; lia|lia]|]. apply Z.div_lt_upper_bound; [done|]. apply Z.div_lt_upper_bound; lia. }
  rewrite !wrap_small by (by apply Hw). intros H1 H2.
  pose proof (Z.div_mod (p / 2) (2 ^ bits) ltac:(lia)). pose proof (Z.div_mod (q / 2) (2 ^ bits) ltac:(lia)).
  rewrite Z.odd_spec in Op, Oq. destruct Op as [a ->], Oq as [b ->]. assert (forall x, (2 * x + 1) / 2 = x) as Hd by (intros x; symmetry; apply (Z.div_unique _ 2 x 1); lia).
  rewrite !Hd in *. nia.
Qed.

Lemma land_mask x n : 0 <= n -> Z.land x (2 ^ n - 1) = x mod 2 ^ n.
Proof. intros H. rewrite <- Z.land_ones, Z.ones_equiv by done. f_equal. Qed.

Lemma payload_value tag g : in_width 32 g -> slab_payload tag g = tag * 2 ^ 32 + g.
Proof. intros H. unfold slab_payload. apply lor_shiftl_add; [lia|done]. Qed.

Lemma payload_fields tag g : in_width 32 tag -> in_width 32 g -> wrap 32 (Z.shiftr (slab_payload tag g) 32) = tag /\ wrap 32 (slab_payload tag g) = g.
Proof.
  intros Ht Hg. rewrite payload_value by done. unfold in_width in *. split.
  - rewrite Z.shiftr_div_pow2, Z.div_add_l, (Z.div_small g), Z.add_0_r by lia. by apply wrap_small.
  - unfold wrap. rewrite Z.add_comm, Z.mod_add by lia. by apply Z.mod_small.
Qed.

(** The word of a bucket with [n] entries in row [row]. *)
Lemma dir_word_fields n row : 0 <= n < 2 ^ 15 -> 0 <= row < 2 ^ 28 ->
  let e := Z.lor (Z.shiftl n 48) row in
  e = n * 2 ^ 48 + row /\ dir_count e = n /\ dir_row e = row /\ Z.land (Z.land e 0xFFFFFFFF) 0xFFFFFFF = row /\ dir_locked e = false.
Proof.
  intros Hn Hr e. assert (e = n * 2 ^ 48 + row) as E by (apply lor_shiftl_add; unfold in_width; lia). split; [done|].
  unfold dir_count, dir_row, dir_locked, lock_mask. change 0x7FFF with (2 ^ 15 - 1). change 0xFFFFFFFFFFFF with (2 ^ 48 - 1).
  change 0xFFFFFFFF with (2 ^ 32 - 1). change 0xFFFFFFF with (2 ^ 28 - 1). rewrite !land_mask, E by lia.
  rewrite Z.shiftr_div_pow2, Z.div_add_l, (Z.div_small row), Z.add_0_r, (Z.mod_small n) by lia. split; [done|].
  assert (forall m, row < m -> (2 ^ 48 mod m = 0) -> 0 < m -> (n * 2 ^ 48 + row) mod m = row) as Hm.
  { intros m H1 H2 H3. rewrite Z.add_comm. apply Z.div_exact in H2; [|lia]. rewrite H2, (Z.mul_comm m), Z.mul_assoc, Z.mod_add by lia. apply Z.mod_small. lia. }
  rewrite (Hm (2 ^ 48)), (Hm (2 ^ 32)), (Z.mod_small row) by (reflexivity || lia). split; [done|]. split; [done|].
  apply negb_false_iff, Z.eqb_eq. apply Z.bits_inj. intros i. rewrite Z.bits_0, Z.land_spec.
  destruct (Z.eq_dec i 63) as [->|]; [|rewrite Z.pow2_bits_false by done; by rewrite andb_false_r].
  rewrite <- E. rewrite E, Z.testbit_odd, Z.shiftr_div_pow2, Z.div_small by lia. done.
Qed.

Lemma locked_word e : dir_locked (Z.lor e lock_mask) = true.
Proof.
  unfold dir_locked. apply negb_true_iff, Z.eqb_neq. intros H. apply (f_equal (fun x => Z.testbit x 63)) in H.
  rewrite Z.land_spec, Z.lor_spec, Z.bits_0 in H. unfold lock_mask in H. rewrite Z.pow2_bits_true in H by lia. by destruct (Z.testbit e 63).
Qed.

(** What the second kernel reads back from the key of the first. *)
Lemma key_fields s row tag : 0 <= row -> in_width 32 tag ->
  let key := Z.lor (Z.lor (Z.shiftl (status_code s) 60) (Z.shiftl (Z.land row 0xFFFFFFF) 32)) tag in
  key_status key = s /\ key_row key = Z.land row 0xFFFFFFF /\ key_tag key = tag.
Proof.
  intros Hr Ht key. change 0xFFFFFFF with (2 ^ 28 - 1) in *. rewrite land_mask in * by lia. unfold key. set (m := row mod 2 ^ 28).
  assert (0 <= m < 2 ^ 28) as Hm by (apply Z.mod_pos_bound; lia). rewrite land_mask by lia. fold m. unfold in_width in Ht.
  assert (Z.lor (Z.shiftl (status_code s) 60) (Z.shiftl m 32) = Z.shiftl (status_code s * 2 ^ 28 + m) 32) as ->.
  { rewrite lor_shiftl_add by (rewrite ?Z.shiftl_mul_pow2 by lia; unfold in_width; lia). rewrite !Z.shiftl_mul_pow2 by lia. lia. }
  rewrite lor_shiftl_add by (unfold in_width; lia). unfold key_status, key_row, key_tag.
  change 0xFFFFFFF with (2 ^ 28 - 1). change 0xFFFFFFFF with (2 ^ 32 - 1). rewrite !land_mask, !Z.shiftr_div_pow2 by lia. split; [|split].
  - rewrite <- (Z.div_unique ((status_code s * 2 ^ 28 + m) * 2 ^ 32 + tag) (2 ^ 60) (status_code s) (m * 2 ^ 32 + tag)) by lia. by destruct s.
  - rewrite Z.div_add_l, (Z.div_small tag), Z.add_0_r by lia. rewrite Z.add_comm, Z.mod_add by lia. apply Z.mod_small. lia.
  - rewrite Z.add_comm, Z.mod_add, (Z.mod_small tag) by lia. apply wrap_small. unfold in_width. lia.
Qed.

(** ** Merging *)

Lemma merge_factors_csr_spec room a b : merge_factors_csr room a b = take room (merge_pairs a b).
Proof.
  revert a b. induction room as [|room IH]; intros a b; [by rewrite take_0|]. destruct a as [|[x c] a]; [done|]. destruct b as [|[y d] b]; [done|].
  rewrite merge_pairs_cons. cbn [merge_factors_csr fst snd].
  destruct (x <? y); [|destruct (y <? x)]; cbn [firstn]; f_equal; apply IH.
Qed.

(** The device forms the product the host forms: of two partial relations with the same large prime and different roots. *)
Lemma combine_pair_spec N r w :
  u512_ok N -> u512_val N <> 0 -> in_width 512 (r_sqrt_Q r) -> in_width 512 (r_sqrt_Q w) -> in_width 64 (r_lp r) -> in_width 64 (r_lp w) ->
  combine_pair N r w = if (r_lp r =? r_lp w) && negb (r_sqrt_Q r =? r_sqrt_Q w) then Some (cut_factors (combine_rel (u512_val N) r w)) else None.
Proof.
  intros HN Hz Hr Hw Lr Lw. unfold combine_pair. rewrite !wrap_small by done. destruct (r_lp r =? r_lp w); cbn [negb andb]; [|done].
  destruct (r_sqrt_Q r =? r_sqrt_Q w); cbn [negb]; [done|]. unfold cut_factors, combine_rel, MAX_MERGE_FACTORS. cbn [r_sqrt_Q r_sign r_val2 r_lp r_char r_factors].
  destruct (u512_of_Z_spec (r_sqrt_Q r)) as [O1 E1], (u512_of_Z_spec (r_sqrt_Q w)) as [O2 E2]. rewrite wrap_small in E1, E2 by done.
  destruct (mul_mod_spec _ _ N O1 O2 HN Hz) as [_ ->]. rewrite E1, E2, merge_factors_csr_spec. done.
Qed.

Lemma cut_factors_id c : (length (r_factors c) <= 64)%nat -> cut_factors c = c.
Proof. intros H. unfold cut_factors, MAX_MERGE_FACTORS. rewrite take_ge by done. by destruct c. Qed.

(** ** The batch a kernel appends to *)

Section soa.
Context (v : RelationBatchView) (rs0 : list relation).
Context (Hmr : max_relations v + 1 < 2 ^ 32) (Hmf : 0 <= max_factors v) (Hmf' : max_factors v + 64 < 2 ^ 32).

Notation Z_len l := (Z.of_nat (length l)).

(** All relations the dual counter counts. *)
Definition stored (s : soa) : list relation := rs0 ++ so_accepted s.

Record soa_inv (s : soa) : Prop := mkSoaInv {
  si_alloc : allocated v (so_batch s);
  si_dual : so_dual s = pack_rf (Z_len (stored s)) (nfac (stored s));
  si_count : Z_len (stored s) <= max_relations v;
  si_factors : nfac (stored s) <= max_factors v;
  si_pending : Forall (is_cell (stored s)) (so_pending s);
  si_cells : forall x, is_cell (stored s) x -> x ∈ so_pending s \/ holds_store (so_batch s) x
}.

(** The value a thread has read some time ago. *)
Definition seen_before (s : soa) (old : Z) : Prop := exists rs, rs `prefix_of` stored s /\ old = pack_rf (Z_len rs) (nfac rs).

(** There is no room for [r]. *)
Definition no_room (s : soa) (r : relation) : Prop := max_relations v <= Z_len (stored s) \/ max_factors v < nfac (stored s) + r_len r.

Lemma soa_start b d o :
  allocated v b -> repr b rs0 -> Z_len rs0 <= max_relations v -> nfac rs0 <= max_factors v -> d = pack_rf (Z_len rs0) (nfac rs0) ->
  soa_inv (mkSoa b d [] [] o).
Proof using Type.
  intros Ha Hb Hn Hf ->. assert (stored (mkSoa b (pack_rf (Z_len rs0) (nfac rs0)) [] [] o) = rs0) as Hc by apply app_nil_r.
  constructor; rewrite ?Hc; cbn [so_batch so_dual so_pending]; try done. intros x Hx. right. by eapply repr_cells.
Qed.

Lemma reserve_dual_spec rs r :
  Z_len rs <= max_relations v -> nfac rs <= max_factors v -> r_len r <= 64 ->
  reserve_dual v (r_len r) (pack_rf (Z_len rs) (nfac rs)) =
    if (max_relations v <=? Z_len rs) || (max_factors v <? nfac rs + r_len r) then None
    else Some (Z_len rs, nfac rs, pack_rf (Z_len (rs ++ [r])) (nfac (rs ++ [r]))).
Proof using Hmr Hmf Hmf'.
  intros H1 H2 H3. unfold reserve_dual. pose proof (nfac_nonneg rs) as Hn. assert (0 <= r_len r) as Hr by (unfold r_len; lia).
  destruct (unpack_pack_rf (Z_len rs) (nfac rs)) as [-> ->]; [unfold in_width; lia..|]. rewrite !(wrap_small 32) by (unfold in_width; lia).
  assert (nfac (rs ++ [r]) = nfac rs + r_len r) as -> by (rewrite nfac_app; unfold nfac, r_len; cbn; by rewrite app_nil_r).
  assert (Z_len (rs ++ [r]) = Z_len rs + 1) as -> by (rewrite length_app; cbn; lia). done.
Qed.

Lemma soa_inv_reserved s r R F desired :
  soa_inv s -> r_len r <= 64 -> reserve_dual v (r_len r) (so_dual s) = Some (R, F, desired) ->
  soa_inv (soa_reserved s r R F desired) /\ R = Z_len (stored s).
Proof using Hmr Hmf Hmf'.
  intros [I1 I2 I3 I4 I5 I6] Hr Hres. rewrite I2, reserve_dual_spec in Hres by done.
  destruct ((max_relations v <=? Z_len (stored s)) || (max_factors v <? nfac (stored s) + r_len r)) eqn:E; [done|]. injection Hres as <- <- <-.
  apply orb_false_iff in E as [E1%Z.leb_gt E2%Z.ltb_ge]. split; [|done].
  assert (stored (soa_reserved s r (Z_len (stored s)) (nfac (stored s)) (pack_rf (Z_len (stored s ++ [r])) (nfac (stored s ++ [r])))) = stored s ++ [r]) as Ec
    by apply app_assoc.
  assert (stores_from (Z_len (stored s)) (nfac (stored s)) [r] = relation_stores (Z_len (stored s)) (nfac (stored s)) r) as Es by apply app_nil_r.
  constructor; rewrite ?Ec; cbn [soa_reserved so_batch so_dual so_pending].
  - done.
  - done.
  - rewrite length_app. cbn. lia.
  - rewrite nfac_app. unfold nfac at 2. cbn. rewrite app_nil_r. unfold r_len in E2. lia.
  - apply Forall_app. split; [eapply Forall_impl; [exact I5|]; intros x Hx; by apply is_cell_app|]. apply Forall_forall. intros x Hx.
    rewrite <- Es in Hx. by apply stores_from_cells.
  - intros x [Hx|Hx]%stores_from_complete; rewrite elem_of_app; [apply I6 in Hx; tauto|]. rewrite Es in Hx. tauto.
Qed.

Lemma soa_inv_dropped s : soa_inv s -> soa_inv (soa_dropped s).
Proof using Type. intros [I1 I2 I3 I4 I5 I6]. by constructor. Qed.

Lemma soa_inv_landed s p1 x p2 : soa_inv s -> so_pending s = p1 ++ x :: p2 -> soa_inv (soa_landed s p1 x p2).
Proof using Type.
  intros [I1 I2 I3 I4 I5 I6] Hp. rewrite Hp in I5. pose proof I5 as [P1 [P0 P2]%Forall_cons]%Forall_app.
  assert (stored (soa_landed s p1 x p2) = stored s) as Ec by done.
  constructor; rewrite ?Ec; cbn [soa_landed so_batch so_dual so_pending]; try done.
  - by apply apply_store_allocated.
  - by apply Forall_app.
  - intros t Ht. destruct (I6 t Ht) as [Hin|Hh].
    + rewrite Hp in Hin. apply elem_of_app in Hin as [Hin|[->|Hin]%elem_of_cons]; [left; apply elem_of_app; by left| |left; apply elem_of_app; by right].
      right. apply apply_store_written. destruct P0 as [P0 Pc]. apply lookup_lt_Some in Pc. rewrite cells_length in Pc. specialize (I1 (st_array x)).
      unfold extent in I1. unfold nfac in I4. destruct (st_array x); lia.
    + right. by eapply apply_store_holds.
Qed.

Lemma seen_now s : soa_inv s -> seen_before s (so_dual s).
Proof using Type. intros I. exists (stored s). split; [done|apply I]. Qed.

(** A thread that finds no room in an old value is right about the present. *)
Lemma seen_no_room s r old : soa_inv s -> seen_before s old -> r_len r <= 64 -> reserve_dual v (r_len r) old = None -> no_room s r.
Proof using Hmr Hmf Hmf'.
  intros I (rs & Hp & ->) Hr. pose proof (prefix_lengths _ _ Hp) as [H1 H2]. pose proof (si_count s I). pose proof (si_factors s I).
  rewrite reserve_dual_spec by (done || lia). unfold no_room.
  destruct ((max_relations v <=? Z_len rs) || (max_factors v <? nfac rs + r_len r)) eqn:E; [|done]. intros _.
  apply orb_true_iff in E as [?%Z.leb_le|?%Z.ltb_lt]; lia.
Qed.

(** What holds of an earlier state of the batch holds of a later one. *)
Lemma seen_mono s s' old : stored s `prefix_of` stored s' -> seen_before s old -> seen_before s' old.
Proof using Type. intros Hp (rs & H & ->). exists rs. split; [|done]. by etrans. Qed.

Lemma no_room_mono s s' r : stored s `prefix_of` stored s' -> no_room s r -> no_room s' r.
Proof using Type. intros [H1 H2]%prefix_lengths. unfold no_room. lia. Qed.

(** When no store is under way the committed batch holds the relations. *)
Lemma soa_committed s : soa_inv s -> so_pending s = [] -> repr (commit_dual_counter_kernel (so_dual s) (so_batch s)) (stored s).
Proof using Hmr Hmf Hmf'.
  intros I Hp. unfold commit_dual_counter_kernel. pose proof (nfac_nonneg (stored s)). pose proof (si_count s I). pose proof (si_factors s I). rewrite (si_dual s I).
  destruct (unpack_pack_rf (Z_len (stored s)) (nfac (stored s))) as [-> ->]; [unfold in_width; lia..|]. apply cells_repr; [|done|done].
  intros x Hx. destruct (si_cells s I x Hx) as [Hin|]; [|done]. rewrite Hp in Hin. by apply not_elem_of_nil in Hin.
Qed.

End soa.

(** ** The combine kernel *)

Lemma collected_insert {A B C} (f : A -> B -> option C) work ph i w p0 p :
  length work = length ph -> work !! i = Some w -> ph !! i = Some p0 -> f w p0 = None ->
  collected f work (<[i := p]> ph) ≡ₚ collected f work ph ++ option_list (f w p).
Proof.
  unfold collected. revert work ph. induction i as [|i IH]; intros [|w' work] [|p' ph] Hl Hw Hp Hf; try done; cbn in Hw, Hp.
  - injection Hw as ->. injection Hp as ->. cbn. rewrite Hf. destruct (f w p); cbn; [by rewrite Permutation_app_comm|by rewrite app_nil_r].
  - cbn. injection Hl as Hl. specialize (IH work ph Hl Hw Hp Hf). destruct (f w' p'); cbn; [by rewrite IH|done].
Qed.

Section combining.
Context (v : RelationBatchView) (rs0 : list relation) (work : list (option relation)).
Context (Hmr : max_relations v + 1 < 2 ^ 32) (Hmf : 0 <= max_factors v) (Hmf' : max_factors v + 64 < 2 ^ 32).
Context (Hwork : forall i r, work !! i = Some (Some r) -> r_len r <= 64).

Definition out_taken (w : option relation) (p : out_phase) : option relation := match p with ODone true => w | _ => None end.

Record combine_inv (st : soa * list out_phase) : Prop := mkCombineInv {
  ci_soa : soa_inv v rs0 st.1;
  ci_length : length work = length st.2;
  ci_seen : forall i old, st.2 !! i = Some (OSeen old) -> seen_before rs0 st.1 old;
  ci_taken : so_accepted st.1 ≡ₚ collected out_taken work st.2;
  ci_left : forall i r, work !! i = Some (Some r) -> st.2 !! i = Some (ODone false) -> no_room v rs0 st.1 r
}.

Lemma combine_step_inv st st' : combine_inv st -> combine_step v work st st' -> combine_inv st'.
Proof using Hmr Hmf Hmf' Hwork.
  intros I Hs. pose proof (ci_soa st I) as Is. pose proof (ci_length st I) as Il.
  destruct Hs as [s ph i Hw Hp|s ph i r Hw Hp|s ph i r old Hw Hp Hr|s ph i r old x Hw Hp Hr Hne|s ph i r R F desired Hw Hp Hr|s ph p1 x p2 Hp]; cbn [fst snd] in *.
  - constructor; cbn [fst snd]; rewrite ?length_insert; try done.
    + intros j old. rewrite list_lookup_insert_Some. intros [(_ & ? & _)|[_ H]]; [done|by apply (ci_seen _ I j)].
    + rewrite (collected_insert _ _ _ _ _ _ _ Il Hw Hp) by done. rewrite app_nil_r. apply I.
    + intros j r Hj. rewrite list_lookup_insert_Some. intros [(-> & _ & _)|[_ H]]; [congruence|by apply (ci_left _ I j)].
  - constructor; cbn [fst snd]; rewrite ?length_insert; try done.
    + intros j old. rewrite list_lookup_insert_Some. intros [(_ & [= <-] & _)|[_ H]]; [by apply (seen_now v)|by apply (ci_seen _ I j)].
    + rewrite (collected_insert _ _ _ _ _ _ _ Il Hw Hp) by done. rewrite app_nil_r. apply I.
    + intros j r' Hj. rewrite list_lookup_insert_Some. intros [(_ & ? & _)|[_ H]]; [done|by apply (ci_left _ I j)].
  - assert (no_room v rs0 s r) as Hn by (eapply seen_no_room; [..|exact Hr]; [done..|by apply (ci_seen _ I i)|by eapply Hwork]).
    constructor; cbn [fst snd]; rewrite ?length_insert; try done.
    + by apply soa_inv_dropped.
    + intros j old'. rewrite list_lookup_insert_Some. intros [(_ & ? & _)|[_ H]]; [done|by apply (ci_seen _ I j)].
    + rewrite (collected_insert _ _ _ _ _ _ _ Il Hw Hp) by done. rewrite app_nil_r. apply I.
    + intros j r' Hj. rewrite list_lookup_insert_Some. intros [(<- & _ & _)|[_ H]]; [|by apply (ci_left _ I j)].
      assert (r' = r) as -> by congruence. exact Hn.
  - constructor; cbn [fst snd]; rewrite ?length_insert; try done.
    + intros j old'. rewrite list_lookup_insert_Some. intros [(_ & [= <-] & _)|[_ H]]; [by apply (seen_now v)|by apply (ci_seen _ I j)].
    + rewrite (collected_insert _ _ _ _ _ _ _ Il Hw Hp) by done. rewrite app_nil_r. apply I.
    + intros j r' Hj. rewrite list_lookup_insert_Some. intros [(_ & ? & _)|[_ H]]; [done|by apply (ci_left _ I j)].
  - destruct (soa_inv_reserved v rs0 Hmr Hmf Hmf' s r R F desired Is (Hwork i r Hw) Hr) as [Is' _].
    assert (stored rs0 s `prefix_of` stored rs0 (soa_reserved s r R F desired)) as Hpre by (exists [r]; apply app_assoc).
    constructor; cbn [fst snd]; rewrite ?length_insert; try done.
    + intros j old'. rewrite list_lookup_insert_Some. intros [(_ & ? & _)|[_ H]]; [done|]. eapply seen_mono; [done|]. by apply (ci_seen _ I j).
    + rewrite (collected_insert _ _ _ _ _ _ _ Il Hw Hp) by done. cbn. f_equiv. apply I.
    + intros j r' Hj. rewrite list_lookup_insert_Some. intros [(_ & ? & _)|[_ H]]; [done|]. eapply no_room_mono; [done|]. by apply (ci_left _ I j).
  - constructor; cbn [fst snd]; try done; [by apply soa_inv_landed|apply I..].
Qed.

(** The batch of combined relations holds relations of the threads, each once; one is missing only when there is no room for it. *)
Lemma combine_run_spec b dual overflow s ph :
  allocated v b -> repr b rs0 -> Z.of_nat (length rs0) <= max_relations v -> nfac rs0 <= max_factors v ->
  dual = pack_rf (Z.of_nat (length rs0)) (nfac rs0) -> combine_run v work b dual overflow s ph ->
  exists left, so_accepted s ++ left ≡ₚ omap id work /\ Forall (no_room v rs0 s) left /\ soa_inv v rs0 s /\
    repr (commit_dual_counter_kernel (so_dual s) (so_batch s)) (rs0 ++ so_accepted s).
Proof using Hmr Hmf Hmf' Hwork.
  intros Ha Hb Hn Hf Hd (Hrun & Hpend & Hdone).
  assert (combine_inv (s, ph)) as I.
  { assert (combine_inv (mkSoa b dual [] [] overflow, replicate (length work) OStart)) as I0.
    { constructor; cbn [fst snd].
      - by apply soa_start.
      - by rewrite length_replicate.
      - by intros i old [? _]%lookup_replicate_1.
      - cbn. unfold collected. clear. induction work as [|w l IH]; [done|]. cbn. by destruct w.
      - by intros i r _ [? _]%lookup_replicate_1. }
    clear Hpend Hdone. remember (mkSoa b dual [] [] overflow, replicate (length work) OStart) as st0. remember (s, ph) as st1. clear Heqst0 Heqst1.
    induction Hrun as [|x y z Hxy _ IH]; [done|]. apply IH. by eapply combine_step_inv. }
  exists (collected (fun w p => match p with ODone false => w | _ => None end) work ph). split_and!.
  - rewrite (ci_taken _ I). cbn [snd]. pose proof (ci_length _ I) as Hl. cbn [snd] in Hl. clear - Hl Hdone. revert ph Hl Hdone. unfold collected.
    induction work as [|w l IH]; intros [|p ph] Hl Hdone; try done. injection Hl as Hl. apply Forall_cons in Hdone as [[a ->] Hdone].
    specialize (IH ph Hl Hdone). cbn [zip zip_with omap list_omap fst snd out_taken]. destruct a, w as [r|]; cbn [out_taken id]; rewrite <- IH; cbn; [done|done| |done].
    by rewrite Permutation_middle.
  - apply Forall_forall. intros r Hr. unfold collected in Hr. apply list_elem_of_omap in Hr as ([w p] & Hin & E). cbn in E.
    apply list_elem_of_lookup in Hin as [i Hi]. apply lookup_zip_with_Some in Hi as (w' & p' & [= <- <-] & Hw & Hp). destruct p as [| |[]]; try done. subst w.
    by apply (ci_left _ I i).
  - apply I.
  - apply (soa_committed v rs0 Hmr Hmf Hmf' s); [apply I|done].
Qed.

(** Every run of the kernel can be taken to its end: the threads one after the other, then the stores. *)
Lemma combine_drain s ph : exists s', rtc (combine_step v work) (s, ph) (s', ph) /\ so_pending s' = [].
Proof using Type.
  remember (length (so_pending s)) as n eqn:En. revert s En. induction n as [|n IH]; intros s En.
  - exists s. split; [done|]. by destruct (so_pending s).
  - destruct (so_pending s) as [|x p] eqn:Ep; [done|]. injection En as En. destruct (IH (soa_landed s [] x p) En) as (s' & H1 & H2). exists s'. split; [|done].
    eapply rtc_l; [by apply (combine_store v work s ph [] x p)|done].
Qed.

Lemma combine_thread s ph i : length work = length ph -> ph !! i = Some OStart -> exists s' a, rtc (combine_step v work) (s, ph) (s', <[i := ODone a]> ph).
Proof using Type.
  intros Hl Hp. destruct (lookup_lt_is_Some_2 work i) as [w Hw]; [rewrite Hl; by eapply lookup_lt_Some|]. destruct w as [r|].
  2: { exists s, false. by apply rtc_once, combine_none. }
  assert (combine_step v work (s, ph) (s, <[i := OSeen (so_dual s)]> ph)) as H1 by (by eapply combine_load).
  assert (<[i := OSeen (so_dual s)]> ph !! i = Some (OSeen (so_dual s))) as Hi by (apply list_lookup_insert_eq; by eapply lookup_lt_Some).
  destruct (reserve_dual v (r_len r) (so_dual s)) as [[[R F] desired]|] eqn:Er.
  - exists (soa_reserved s r R F desired), true. eapply rtc_l; [exact H1|]. apply rtc_once. rewrite <- (list_insert_insert_eq ph i (ODone true) (OSeen (so_dual s))). by apply combine_reserve.
  - exists (soa_dropped s), false. eapply rtc_l; [exact H1|]. apply rtc_once. rewrite <- (list_insert_insert_eq ph i (ODone false) (OSeen (so_dual s))). by eapply combine_full.
Qed.

Lemma combine_can_finish b dual overflow : exists s ph, combine_run v work b dual overflow s ph.
Proof using Type.
  set (s0 := mkSoa b dual [] [] overflow). set (ph0 := replicate (length work) OStart).
  assert (forall n, (n <= length work)%nat -> exists s ph, rtc (combine_step v work) (s0, ph0) (s, ph) /\ length ph = length work /\
    (forall i p, (i < n)%nat -> ph !! i = Some p -> exists a, p = ODone a) /\ (forall i p, (n <= i)%nat -> ph !! i = Some p -> p = OStart)) as H.
  { induction n as [|n IH]; intros Hn.
    { exists s0, ph0. split; [done|]. split; [apply length_replicate|]. split; [lia|]. by intros i p _ [? _]%lookup_replicate_1. }
    destruct (IH ltac:(lia)) as (s & ph & Hrun & Hl & Hd & Hs). destruct (lookup_lt_is_Some_2 ph n) as [p Hp]; [lia|]. rewrite (Hs n p) in Hp by done.
    destruct (combine_thread s ph n) as (s' & a & Hstep); [done..|]. exists s', (<[n := ODone a]> ph). split; [by etrans|]. split; [by rewrite length_insert|]. split.
    - intros i q Hi. rewrite list_lookup_insert_Some. intros [(_ & <- & _)|[Hne Hq]]; [by exists a|]. apply (Hd i q); [lia|done].
    - intros i q Hi. rewrite list_lookup_insert_ne by lia. apply Hs. lia. }
  destruct (H (length work)) as (s & ph & Hrun & Hl & Hd & _); [done|]. destruct (combine_drain s ph) as (s' & Hdr & Hp). exists s', ph. split; [by etrans|]. split; [done|].
  apply Forall_lookup. intros i p Hi. apply (Hd i p); [|done]. rewrite <- Hl. by eapply lookup_lt_Some.
Qed.

End combining.
