(* ===== verification/LpTable.v ===== *)
(** The hash table of the large-prime variation under concurrent kernels ([global_append_kernel]
    of [src/src/largeprimes/largeprime.cu]): what the directory and the slabs stand for, the invariant of the insertion with its
    spin lock per bucket. *)
From Stdlib Require Import ZArith Lia.
From stdpp Require Import base gmap sets list relations.
From S2P Require Import Prelude Soa Gf2 WarpAppend CpuLp LpKernels.
#[local] Open Scope Z_scope.

(** ** What the memory stands for *)

(** A bucket: its row of the slabs, if it has one, and the entries written there. *)
Record bucket := mkBucket { bk_row : option Z; bk_entries : list Z }.

(** The byte 0xFF all over. *)
Definition SENTINEL : Z := 2 ^ 64 - 1.

Definition dir_word (b : bucket) : Z :=
  match bk_entries b with [] => 0 | _ => Z.lor (Z.shiftl (Z.of_nat (length (bk_entries b))) 48) (default 0 (bk_row b)) end.

(** A bucket between insertions has a row exactly when it has an entry. *)
Definition closed (b : bucket) : Prop := bk_entries b = [] <-> bk_row b = None.

Definition row_holds (slabs : list Z) (row : Z) (entries : list Z) : Prop :=
  forall k, 0 <= k < ROW_WIDTH_ELEMS -> slabs !! slot_of row k = Some (nth (Z.to_nat k) entries SENTINEL).

Section table.
(** Whether entries may have been cleared. *)
Context (cleared : bool).

(** An entry of bucket [h] names a witness of that bucket, or has been cleared. *)
Definition entry_ok (bits : Z) (W : list relation) (h : nat) (x : Z) : Prop :=
  cleared = true /\ x = 0 \/ exists g w, 0 <= g /\ W !! Z.to_nat g = Some w /\ lp_hash bits (r_lp w) = Z.of_nat h /\ x = slab_payload (lp_tag bits (r_lp w)) g.

(** The slabs hold the buckets [T]: rows are not shared, rows not given out are untouched, and no entry but the cleared ones occurs twice. *)
Record table_core (bits max_rows : Z) (W : list relation) (slabs : list Z) (rows : Z) (T : list bucket) : Prop := mkTableCore {
  tc_size : Z.of_nat (length T) = 2 ^ bits;
  tc_slabs : Z.of_nat (length slabs) = max_rows * ROW_WIDTH_ELEMS;
  tc_rows : 0 <= rows;
  tc_width : forall h b, T !! h = Some b -> (length (bk_entries b) <= 16)%nat /\ (bk_row b = None -> bk_entries b = []);
  tc_row : forall h b r, T !! h = Some b -> bk_row b = Some r -> 0 <= r < rows /\ r < max_rows /\ row_holds slabs r (bk_entries b);
  tc_distinct : forall h h' b b' r, T !! h = Some b -> T !! h' = Some b' -> bk_row b = Some r -> bk_row b' = Some r -> h = h';
  tc_fresh : forall r, rows <= r < max_rows -> row_holds slabs r [];
  tc_entries : forall h b x, T !! h = Some b -> x ∈ bk_entries b -> entry_ok bits W h x;
  tc_unique : forall h h' b b' k k' x, T !! h = Some b -> T !! h' = Some b' -> bk_entries b !! k = Some x -> bk_entries b' !! k' = Some x -> x <> 0 -> h = h' /\ k = k'
}.

(** The table between kernels. *)
Record table_repr (bits max_rows : Z) (W : list relation) (dir slabs : list Z) (rows : Z) (T : list bucket) : Prop := mkTableRepr {
  tr_core : table_core bits max_rows W slabs rows T;
  tr_dir : forall h b, T !! h = Some b -> dir !! h = Some (dir_word b) /\ closed b;
  tr_rows : rows <= Z.of_nat (length W);
  tr_size : Z.of_nat (length dir) = 2 ^ bits
}.

(** ** Vocabulary of the insertion *)

(** In the critical section. *)
Definition holding (p : insert_phase) : bool := match p with IHold _ _ | IRow _ _ _ | IFull _ _ | IWritten _ _ _ => true | _ => false end.

(** The index of the thread's witness. *)
Definition witness_of (p : insert_phase) : option Z :=
  match p with
  | ISpin g | IRead g _ | IHold g _ | IRow g _ _ | IFull g _ | IWritten g _ _ => Some g
  | IDone g => g
  | _ => None
  end.

(** Its entry is still to be written - is written or given up. *)
Definition unwritten (p : insert_phase) : option Z := match p with ISpin g | IRead g _ | IHold g _ | IRow g _ _ => Some g | _ => None end.
Definition placed (p : insert_phase) : option Z := match p with IFull g _ | IWritten g _ _ => Some g | IDone g => g | _ => None end.

(** It may still take a row. *)
Definition may_take_row (p : insert_phase) : bool := match p with ISpin _ | IRead _ _ | IHold _ _ => true | _ => false end.

Definition num_waiting (phases : list insert_phase) : Z := Z.of_nat (length (List.filter may_take_row phases)).

Definition bucket_of (T : list bucket) (w : insertion) : option bucket := T !! Z.to_nat (in_bucket w).

(** What a thread in the critical section knows. *)
Definition phase_ok (T : list bucket) (w : insertion) (p : insert_phase) : Prop :=
  match p with
  | IHold _ cur => exists b, bucket_of T w = Some b /\ closed b /\ cur = dir_word b
  | IRow _ cur row => exists b, bucket_of T w = Some b /\ bk_row b = Some row /\ cur = dir_word b
  | IFull _ cur => exists b, bucket_of T w = Some b /\ closed b /\ bk_entries b = [] /\ cur = 0
  | IWritten _ row count => exists b, bucket_of T w = Some b /\ bk_row b = Some row /\ count = Z.of_nat (length (bk_entries b)) /\ bk_entries b <> []
  | _ => True
  end.

(** The entry of the witness is in its bucket, or the bucket is full, or there are no rows left. *)
Definition entered (max_rows : Z) (T : list bucket) (rows : Z) (w : insertion) (g : Z) : Prop :=
  (exists b, bucket_of T w = Some b /\ (slab_payload (in_tag w) g ∈ bk_entries b \/ length (bk_entries b) = 16%nat)) \/ max_rows <= rows.

Definition grown (T0 T : list bucket) : Prop :=
  forall h b0, T0 !! h = Some b0 -> exists b, T !! h = Some b /\ bk_entries b0 `prefix_of` bk_entries b.

(** Thread [i] works on [w] and is in phase [p]. *)
Definition thread_at (work : list (option insertion)) (phases : list insert_phase) (i : nat) (w : insertion) (p : insert_phase) : Prop :=
  work !! i = Some (Some w) /\ phases !! i = Some p.

(** The relation of a thread that has a witness. *)
Definition has_witness (w : option insertion) (p : insert_phase) : option relation := w ← w; _ ← witness_of p; Some (in_relation w).

(** The threads and the batch of witnesses. *)
Record thread_inv (v : RelationBatchView) (rs0 : list relation) (work : list (option insertion)) (s : soa) (phases : list insert_phase) : Prop := mkThreadInv {
  th_soa : soa_inv v rs0 s;
  th_length : length work = length phases;
  th_seen : forall i old, phases !! i = Some (ISeen old) -> seen_before rs0 s old;
  th_witness : forall i w p g, thread_at work phases i w p -> witness_of p = Some g -> Z.of_nat (length rs0) <= g /\ stored rs0 s !! Z.to_nat g = Some (in_relation w);
  th_inj : forall i j w w' p p' g, thread_at work phases i w p -> thread_at work phases j w' p' -> witness_of p = Some g -> witness_of p' = Some g -> i = j;
  th_taken : so_accepted s ≡ₚ collected has_witness work phases;
  th_idlers : forall i p, work !! i = Some None -> phases !! i = Some p -> p = IStart \/ p = IDone None;
  th_left : forall i w, thread_at work phases i w (IDone None) -> no_room v rs0 s (in_relation w)
}.

(** The threads and the table. *)
Record lock_inv (bits max_rows : Z) (T0 : list bucket) (work : list (option insertion)) (W : list relation) (dir slabs : list Z) (rows : Z) (phases : list insert_phase)
    (T : list bucket) : Prop := mkLockInv {
  lk_core : table_core bits max_rows W slabs rows T;
  lk_dir : forall h b, T !! h = Some b -> exists e, dir !! h = Some e /\
    ((exists i w p, thread_at work phases i w p /\ holding p = true /\ Z.to_nat (in_bucket w) = h) /\ dir_locked e = true \/
     (forall i w p, thread_at work phases i w p -> holding p = true -> Z.to_nat (in_bucket w) <> h) /\ e = dir_word b /\ closed b);
  lk_excl : forall i j w w' p p', thread_at work phases i w p -> thread_at work phases j w' p' -> holding p = true -> holding p' = true ->
    Z.to_nat (in_bucket w) = Z.to_nat (in_bucket w') -> i = j;
  lk_phase : forall i w p, thread_at work phases i w p -> phase_ok T w p;
  lk_unwritten : forall i w p g h b x, thread_at work phases i w p -> unwritten p = Some g -> T !! h = Some b -> x ∈ bk_entries b -> x <> 0 -> wrap 32 x <> g;
  lk_grown : grown T0 T;
  lk_placed : forall i w p g, thread_at work phases i w p -> placed p = Some g -> entered max_rows T rows w g;
  lk_rows : rows + num_waiting phases <= Z.of_nat (length W)
}.

(** ** Vocabulary of the specifications *)

(** A table of empty buckets. *)
Definition empty_table (bits : Z) : list bucket := replicate (Z.to_nat (2 ^ bits)) (mkBucket None []).

(** Two partial relations for one bucket of the empty table. *)
Definition ex_work : list (option insertion) :=
  let r := mkRel 42 1 0 23 1 [(0, 1)] in let r' := mkRel 27 255 3 39 2 [(0, 1)] in [Some (mkInsertion 1 3 r); None; Some (mkInsertion 2 3 r')].
Definition ex_insert_start : insert_state :=
  insert_start (mkSoa ex_store (pack_rf 0 0) [] [] 0) (replicate 8 0) (replicate 128 SENTINEL) 0 0 (length ex_work).

(** ** Directory words *)

Lemma dir_word_spec b : (length (bk_entries b) <= 16)%nat -> (forall r, bk_row b = Some r -> 0 <= r < 2 ^ 28) ->
  dir_count (dir_word b) = Z.of_nat (length (bk_entries b)) /\ dir_locked (dir_word b) = false /\
  (forall r, bk_row b = Some r -> bk_entries b <> [] -> dir_row (dir_word b) = r /\ Z.land (Z.land (dir_word b) 0xFFFFFFFF) 0xFFFFFFF = r).
Proof.
  intros Hl Hr. unfold dir_word. destruct (bk_entries b) as [|x l] eqn:E; [by split_and!|]. rewrite <- E in *.
  assert (0 <= default 0 (bk_row b) < 2 ^ 28) as Hd by (destruct (bk_row b) as [r|]; [by apply Hr|cbn; lia]).
  destruct (dir_word_fields (Z.of_nat (length (bk_entries b))) (default 0 (bk_row b)) ltac:(lia) Hd) as (_ & F1 & F2 & F3 & F4).
  split; [done|]. split; [done|]. intros r Hb _. rewrite Hb in *. done.
Qed.

Section words.
Context (bits max_rows : Z) (W : list relation) (slabs : list Z) (rows : Z) (T : list bucket).
Context (Hmax : max_rows <= 2 ^ 28) (Hcore : table_core bits max_rows W slabs rows T).

Lemma core_word h b : T !! h = Some b ->
  dir_count (dir_word b) = Z.of_nat (length (bk_entries b)) /\ dir_locked (dir_word b) = false /\
  (forall r, bk_row b = Some r -> bk_entries b <> [] -> dir_row (dir_word b) = r /\ Z.land (Z.land (dir_word b) 0xFFFFFFFF) 0xFFFFFFF = r).
Proof using Hmax Hcore.
  intros Hh. apply dir_word_spec; [by eapply tc_width|]. intros r Hr. destruct (tc_row _ _ _ _ _ _ Hcore h b r Hh Hr) as (? & ? & _). lia.
Qed.

End words.

Lemma entry_ok_mono bits W W' h x : W `prefix_of` W' -> entry_ok bits W h x -> entry_ok bits W' h x.
Proof. intros Hp [?|(g & w & H1 & H2 & H3 & H4)]; [by left|right]. exists g, w. split_and!; try done. by eapply prefix_lookup_Some. Qed.

Lemma core_mono bits max_rows W W' slabs rows T : W `prefix_of` W' -> table_core bits max_rows W slabs rows T -> table_core bits max_rows W' slabs rows T.
Proof. intros Hp [C1 C2 C3 C4 C5 C6 C7 C8 C9]. constructor; try done. intros h b x Hh Hx. eapply entry_ok_mono; [done|]. by eapply C8. Qed.

(** ** One thread at a time *)

Section threads.
Context (v : RelationBatchView) (rs0 : list relation) (work : list (option insertion)).
Context (Hmr : max_relations v + 1 < 2 ^ 32) (Hmf : 0 <= max_factors v) (Hmf' : max_factors v + 64 < 2 ^ 32).

Lemma thread_at_insert phases i w p0 p j w' p' :
  thread_at work phases i w p0 ->
  thread_at work (<[i := p]> phases) j w' p' -> (j = i /\ w' = w /\ p' = p) \/ (j <> i /\ thread_at work phases j w' p').
Proof using Type.
  intros [Hw Hp] [Hw' Hp']. apply list_lookup_insert_Some in Hp' as [(-> & -> & _)|[Hne Hp']]; [left|right; done].
  rewrite Hw in Hw'. by injection Hw' as <-.
Qed.

Lemma thread_at_self phases i w p0 p : thread_at work phases i w p0 -> thread_at work (<[i := p]> phases) i w p.
Proof using Type. intros [Hw Hp]. split; [done|]. apply list_lookup_insert_eq. by eapply lookup_lt_Some. Qed.

Lemma thread_at_other phases i p j w' p' : j <> i -> thread_at work phases j w' p' -> thread_at work (<[i := p]> phases) j w' p'.
Proof using Type. intros Hne [Hw Hp]. split; [done|]. by rewrite list_lookup_insert_ne. Qed.

Lemma thread_at_fun phases i w w' p p' : thread_at work phases i w p -> thread_at work phases i w' p' -> w = w' /\ p = p'.
Proof using Type. intros [H1 H2] [H3 H4]. split; congruence. Qed.

Lemma collected_same {A B C} (f : A -> B -> option C) l ph i w p0 p :
  l !! i = Some w -> ph !! i = Some p0 -> f w p0 = f w p -> collected f l (<[i := p]> ph) = collected f l ph.
Proof using Type.
  unfold collected. revert l ph. induction i as [|i IH]; intros [|w' l] [|p' ph] Hw Hp Hf; try done; cbn in Hw, Hp.
  - injection Hw as ->. injection Hp as ->. cbn. by rewrite Hf.
  - cbn. by rewrite IH.
Qed.

(** A thread that keeps its witness changes its phase. *)
Lemma th_phase s phases i w p p' :
  thread_inv v rs0 work s phases -> thread_at work phases i w p -> witness_of p' = witness_of p -> p' <> IDone None ->
  (forall old, p' = ISeen old -> seen_before rs0 s old) -> thread_inv v rs0 work s (<[i := p']> phases).
Proof using Type.
  intros I Ht Hw Hd Hs. constructor; rewrite ?length_insert.
  - apply I.
  - apply I.
  - intros j old. rewrite list_lookup_insert_Some. intros [(_ & -> & _)|[_ H]]; [by apply Hs|by eapply th_seen].
  - intros j w' q g Hj Hg. apply (thread_at_insert _ _ _ _ _ _ _ _ Ht) in Hj as [(-> & -> & ->)|[_ Hj]]; [|by eapply th_witness].
    rewrite Hw in Hg. by eapply th_witness.
  - intros j k w1 w2 p1 p2 g Hj Hk H1 H2. apply (thread_at_insert _ _ _ _ _ _ _ _ Ht) in Hj as [(-> & -> & ->)|[Nj Hj]];
      apply (thread_at_insert _ _ _ _ _ _ _ _ Ht) in Hk as [(-> & -> & ->)|[Nk Hk]]; rewrite ?Hw in *; [done|eapply (th_inj _ _ _ _ _ I); eassumption..].
  - destruct Ht as [Hwk Hph]. rewrite (collected_same _ _ _ _ _ p p' Hwk Hph); [apply I|]. cbn. by rewrite Hw.
  - intros j q Hj. rewrite list_lookup_insert_Some. intros [(<- & _ & _)|[_ H]]; [destruct Ht; congruence|by eapply (th_idlers _ _ _ _ _ I)].
  - intros j w' Hj. apply (thread_at_insert _ _ _ _ _ _ _ _ Ht) in Hj as [(-> & -> & <-)|[_ Hj]]; [done|by eapply th_left].
Qed.

Lemma th_dropped s phases i w old :
  thread_inv v rs0 work s phases -> thread_at work phases i w (ISeen old) -> reserve_dual v (r_len (in_relation w)) old = None -> r_len (in_relation w) <= 64 ->
  thread_inv v rs0 work (soa_dropped s) (<[i := IDone None]> phases).
Proof using Hmr Hmf Hmf'.
  intros I Ht Hr Hl. assert (no_room v rs0 s (in_relation w)) as Hn.
  { eapply seen_no_room; [..|exact Hr]; [done..|apply I|eapply (th_seen _ _ _ _ _ I), Ht|done]. }
  constructor; rewrite ?length_insert.
  - apply soa_inv_dropped, I.
  - apply I.
  - intros j old'. rewrite list_lookup_insert_Some. intros [(_ & ? & _)|[_ H]]; [done|by eapply (th_seen _ _ _ _ _ I)].
  - intros j w' q g Hj Hg. apply (thread_at_insert _ _ _ _ _ _ _ _ Ht) in Hj as [(-> & -> & ->)|[_ Hj]]; [done|by eapply (th_witness _ _ _ _ _ I)].
  - intros j k w1 w2 p1 p2 g Hj Hk H1 H2. apply (thread_at_insert _ _ _ _ _ _ _ _ Ht) in Hj as [(-> & -> & ->)|[Nj Hj]];
      apply (thread_at_insert _ _ _ _ _ _ _ _ Ht) in Hk as [(-> & -> & ->)|[Nk Hk]]; try done. eapply (th_inj _ _ _ _ _ I); eassumption.
  - destruct Ht as [Hwk Hph]. rewrite (collected_same _ _ _ _ _ _ (IDone None) Hwk Hph) by done. apply I.
  - intros j q Hj. rewrite list_lookup_insert_Some. intros [(<- & _ & _)|[_ H]]; [destruct Ht; congruence|by eapply (th_idlers _ _ _ _ _ I)].
  - intros j w' Hj. apply (thread_at_insert _ _ _ _ _ _ _ _ Ht) in Hj as [(-> & -> & _)|[_ Hj]]; [done|by apply (th_left _ _ _ _ _ I j)].
Qed.

Lemma th_reserved s phases i w R F desired :
  thread_inv v rs0 work s phases -> thread_at work phases i w (ISeen (so_dual s)) -> reserve_dual v (r_len (in_relation w)) (so_dual s) = Some (R, F, desired) ->
  r_len (in_relation w) <= 64 ->
  thread_inv v rs0 work (soa_reserved s (in_relation w) R F desired) (<[i := ISpin R]> phases) /\ R = Z.of_nat (length (stored rs0 s)).
Proof using Hmr Hmf Hmf'.
  intros I Ht Hr Hl. destruct (soa_inv_reserved v rs0 Hmr Hmf Hmf' s (in_relation w) R F desired (th_soa _ _ _ _ _ I) Hl Hr) as [Is ER]. split; [|done].
  assert (stored rs0 (soa_reserved s (in_relation w) R F desired) = stored rs0 s ++ [in_relation w]) as Es by apply app_assoc.
  assert (stored rs0 s `prefix_of` stored rs0 (soa_reserved s (in_relation w) R F desired)) as Hpre by (rewrite Es; by apply prefix_app_r).
  assert (forall j w' q g, thread_at work phases j w' q -> witness_of q = Some g -> 0 <= g < R) as Hlt.
  { intros j w' q g Hj Hg. destruct (th_witness _ _ _ _ _ I j w' q g Hj Hg) as [H1 H2%lookup_lt_Some]. lia. }
  constructor; rewrite ?length_insert.
  - done.
  - apply I.
  - intros j old'. rewrite list_lookup_insert_Some. intros [(_ & ? & _)|[_ H]]; [done|]. eapply seen_mono; [done|]. by eapply (th_seen _ _ _ _ _ I).
  - intros j w' q g Hj Hg. apply (thread_at_insert _ _ _ _ _ _ _ _ Ht) in Hj as [(-> & -> & ->)|[_ Hj]].
    + injection Hg as <-. rewrite Es, ER. split; [unfold stored; rewrite length_app; lia|]. rewrite Nat2Z.id. by apply list_lookup_middle.
    + destruct (th_witness _ _ _ _ _ I j w' q g Hj Hg) as [H1 H2]. split; [done|]. by eapply prefix_lookup_Some.
  - intros j k w1 w2 p1 p2 g Hj Hk H1 H2. apply (thread_at_insert _ _ _ _ _ _ _ _ Ht) in Hj as [(-> & -> & ->)|[Nj Hj]];
      apply (thread_at_insert _ _ _ _ _ _ _ _ Ht) in Hk as [(-> & -> & ->)|[Nk Hk]].
    + done.
    + specialize (Hlt k w2 p2 g Hk H2). injection H1 as ->. lia.
    + specialize (Hlt j w1 p1 g Hj H1). injection H2 as ->. lia.
    + eapply (th_inj _ _ _ _ _ I); eassumption.
  - destruct Ht as [Hwk Hph]. rewrite (collected_insert _ _ _ _ _ _ (ISpin R) (th_length _ _ _ _ _ I) Hwk Hph) by done. cbn. f_equiv. apply I.
  - intros j q Hj. rewrite list_lookup_insert_Some. intros [(<- & _ & _)|[_ H]]; [destruct Ht; congruence|by eapply (th_idlers _ _ _ _ _ I)].
  - intros j w' Hj. apply (thread_at_insert _ _ _ _ _ _ _ _ Ht) in Hj as [(-> & -> & ?)|[_ Hj]]; [done|].
    eapply no_room_mono; [exact Hpre|]. by apply (th_left _ _ _ _ _ I j).
Qed.

Lemma th_landed s phases p1 x p2 : thread_inv v rs0 work s phases -> so_pending s = p1 ++ x :: p2 -> thread_inv v rs0 work (soa_landed s p1 x p2) phases.
Proof using Type.
  intros I Hp. constructor; [by apply soa_inv_landed; [apply I|]|apply I|apply (th_seen _ _ _ _ _ I)|apply (th_witness _ _ _ _ _ I)|apply (th_inj _ _ _ _ _ I)
    |apply (th_taken _ _ _ _ _ I)|apply (th_idlers _ _ _ _ _ I)|apply (th_left _ _ _ _ _ I)].
Qed.

Lemma thread_at_idle phases i p j w q : work !! i = Some None -> thread_at work (<[i := p]> phases) j w q <-> thread_at work phases j w q.
Proof using Type.
  intros Hi. split; intros [Hw Hp]; (assert (j <> i) as Hne by congruence); split; try done; [by rewrite list_lookup_insert_ne in Hp|by rewrite list_lookup_insert_ne].
Qed.

Lemma th_idle_phase s phases i : thread_inv v rs0 work s phases -> work !! i = Some None -> exists p, phases !! i = Some p.
Proof using Type. intros I Hi. apply lookup_lt_is_Some_2. rewrite <- (th_length _ _ _ _ _ I). by eapply lookup_lt_Some. Qed.

Lemma th_idle s phases i : thread_inv v rs0 work s phases -> work !! i = Some None -> thread_inv v rs0 work s (<[i := IDone None]> phases).
Proof using Type.
  intros I Hi. constructor; rewrite ?length_insert; [apply I|apply I| | | | | |].
  - intros j old'. rewrite list_lookup_insert_Some. intros [(_ & ? & _)|[_ H]]; [done|by eapply (th_seen _ _ _ _ _ I)].
  - intros j w q g Hj. rewrite thread_at_idle in Hj by done. exact (th_witness _ _ _ _ _ I j w q g Hj).
  - intros j k w1 w2 p1 p2 g Hj Hk. rewrite thread_at_idle in Hj, Hk by done. exact (th_inj _ _ _ _ _ I j k w1 w2 p1 p2 g Hj Hk).
  - destruct (th_idle_phase s phases i I Hi) as [p0 Hp0]. rewrite (collected_same _ _ _ _ _ p0 (IDone None) Hi Hp0) by done. apply I.
  - intros j q Hj. rewrite list_lookup_insert_Some. intros [(_ & <- & _)|[_ H]]; [by right|by eapply (th_idlers _ _ _ _ _ I)].
  - intros j w Hj. rewrite thread_at_idle in Hj by done. exact (th_left _ _ _ _ _ I j w Hj).
Qed.

End threads.

Lemma num_waiting_insert phases i p0 p :
  phases !! i = Some p0 -> num_waiting (<[i := p]> phases) = num_waiting phases - Z.b2z (may_take_row p0) + Z.b2z (may_take_row p).
Proof.
  unfold num_waiting. revert i. induction phases as [|q phases IH]; intros [|i] H; try done; cbn in H.
  - injection H as ->. change (<[0%nat := p]> (p0 :: phases)) with (p :: phases). cbn [List.filter].
    destruct (may_take_row p0), (may_take_row p); cbn [length Z.b2z]; lia.
  - change (<[S i := p]> (q :: phases)) with (q :: <[i := p]> phases). cbn [List.filter]. specialize (IH i H).
    destruct (may_take_row q); cbn [length]; lia.
Qed.

Lemma num_waiting_nonneg phases : 0 <= num_waiting phases.
Proof. unfold num_waiting. lia. Qed.

(** ** The slabs *)

Lemma slot_inj r r' k k' : 0 <= r -> 0 <= r' -> 0 <= k < ROW_WIDTH_ELEMS -> 0 <= k' < ROW_WIDTH_ELEMS -> slot_of r k = slot_of r' k' -> r = r' /\ k = k'.
Proof. unfold slot_of, ROW_WIDTH_ELEMS. intros. lia. Qed.

Lemma row_holds_other slabs row k x r entries :
  0 <= row -> 0 <= k < ROW_WIDTH_ELEMS -> 0 <= r -> r <> row -> row_holds slabs r entries -> row_holds (<[slot_of row k := x]> slabs) r entries.
Proof.
  intros H1 H2 H3 H4 H j Hj. rewrite list_lookup_insert_ne; [by apply H|]. intros E. by apply slot_inj in E as [? _].
Qed.

Section core.
Context (bits max_rows : Z) (W : list relation).

Lemma core_more_rows slabs rows rows' T : rows <= rows' -> table_core bits max_rows W slabs rows T -> table_core bits max_rows W slabs rows' T.
Proof using Type.
  intros Hr [C1 C2 C3 C4 C5 C6 C7 C8 C9]. constructor; try done; [lia| |].
  - intros h b r Hh Hb. destruct (C5 h b r Hh Hb) as (? & ? & ?). split_and!; (done || lia).
  - intros r H. apply C7. lia.
Qed.

(** Changing one bucket. *)
Lemma core_new_row slabs rows T h b :
  table_core bits max_rows W slabs rows T -> T !! h = Some b -> bk_entries b = [] -> bk_row b = None -> rows < max_rows ->
  table_core bits max_rows W slabs (rows + 1) (<[h := mkBucket (Some rows) []]> T).
Proof using Type.
  intros [C1 C2 C3 C4 C5 C6 C7 C8 C9] Hh He Hr Hlt. constructor.
  - by rewrite length_insert.
  - done.
  - lia.
  - intros h' b'. rewrite list_lookup_insert_Some. intros [(<- & <- & _)|[_ H]]; [cbn; split; [lia|done]|by eapply C4].
  - intros h' b' r. rewrite list_lookup_insert_Some. intros [(<- & <- & _)|[_ H]]; cbn.
    + intros [= <-]. split_and!; [lia..|]. apply C7. lia.
    + intros Hb'. destruct (C5 h' b' r H Hb') as (? & ? & ?). split_and!; (done || lia).
  - intros h1 h2 b1 b2 r. rewrite !list_lookup_insert_Some. intros [(<- & <- & _)|[N1 H1]] [(<- & <- & _)|[N2 H2]]; cbn; [done| | |by eapply C6].
    + intros [= <-] Hb2. destruct (C5 h2 b2 rows H2 Hb2) as [? _]. lia.
    + intros Hb1 [= <-]. destruct (C5 h1 b1 rows H1 Hb1) as [? _]. lia.
  - intros r Hr'. apply C7. lia.
  - intros h' b' x. rewrite list_lookup_insert_Some. intros [(<- & <- & _)|[_ H]]; [by intros ?%not_elem_of_nil|by eapply C8].
  - intros h1 h2 b1 b2 k1 k2 x. rewrite !list_lookup_insert_Some. intros [(<- & <- & _)|[N1 H1]] [(<- & <- & _)|[N2 H2]]; cbn; [done..|by eapply C9].
Qed.

Lemma core_write slabs rows T h b row x :
  table_core bits max_rows W slabs rows T -> T !! h = Some b -> bk_row b = Some row -> (length (bk_entries b) < 16)%nat -> entry_ok bits W h x ->
  (forall h' b' y, T !! h' = Some b' -> y ∈ bk_entries b' -> y <> 0 -> y <> x) ->
  table_core bits max_rows W (<[slot_of row (Z.of_nat (length (bk_entries b))) := x]> slabs) rows (<[h := mkBucket (Some row) (bk_entries b ++ [x])]> T).
Proof using Type.
  intros C Hh Hr Hl Hx Hnew. destruct (tc_row _ _ _ _ _ _ C h b row Hh Hr) as (R1 & R2 & R3). destruct C as [C1 C2 C3 C4 C5 C6 C7 C8 C9]. constructor.
  - by rewrite length_insert.
  - by rewrite length_insert.
  - done.
  - intros h' b'. rewrite list_lookup_insert_Some. intros [(<- & <- & _)|[_ H]]; [cbn; rewrite length_app; cbn; split; [lia|done]|by eapply C4].
  - intros h' b' r. rewrite list_lookup_insert_Some. intros [(<- & <- & _)|[Hne H]]; cbn.
    + intros [= <-]. split_and!; [lia..|]. intros k Hk. destruct (decide (k = Z.of_nat (length (bk_entries b)))) as [->|Hnk].
      * rewrite list_lookup_insert_eq by (eapply lookup_lt_Some; by apply R3). by rewrite Nat2Z.id, nth_middle.
      * rewrite list_lookup_insert_ne by (intros E; apply slot_inj in E as [_ ?]; unfold ROW_WIDTH_ELEMS in *; lia). rewrite R3 by done. f_equal.
        destruct (Nat.lt_ge_cases (Z.to_nat k) (length (bk_entries b))) as [Hlt|Hge]; [by rewrite app_nth1|].
        rewrite nth_overflow by done. rewrite nth_overflow; [done|]. rewrite length_app. cbn. lia.
    + intros Hb'. destruct (C5 h' b' r H Hb') as (? & ? & ?). split_and!; try lia. apply row_holds_other; try lia; [unfold ROW_WIDTH_ELEMS; lia| |done].
      intros ->. apply Hne. by eapply C6.
  - intros h1 h2 b1 b2 r. rewrite !list_lookup_insert_Some. intros [(<- & <- & _)|[N1 H1]] [(<- & <- & _)|[N2 H2]]; cbn; [done| | |by eapply C6].
    + intros [= <-] Hb2. by eapply (C6 h h2).
    + intros Hb1 [= <-]. by eapply (C6 h1 h).
  - intros r Hr'. apply row_holds_other; [lia|unfold ROW_WIDTH_ELEMS; lia|lia|lia|by apply C7].
  - intros h' b' y. rewrite list_lookup_insert_Some. intros [(<- & <- & _)|[_ H]]; [|by eapply C8].
    cbn. intros [Hy| ->%list_elem_of_singleton]%elem_of_app; [by eapply C8|done].
  - assert (forall h' b' k y, T !! h' = Some b' -> bk_entries b' !! k = Some y -> y <> 0 -> y <> x) as Hn.
    { intros h' b' k y H1 H2. eapply Hnew; [done|]. by eapply list_elem_of_lookup_2. }
    assert (forall k y, (bk_entries b ++ [x]) !! k = Some y -> bk_entries b !! k = Some y \/ k = length (bk_entries b) /\ y = x) as Ha.
    { intros k y [H|[H1 H2]]%lookup_app_Some; [by left|right]. apply list_lookup_singleton_Some in H2 as [H2 <-]. split; [lia|done]. }
    intros h1 h2 b1 b2 k1 k2 y. rewrite !list_lookup_insert_Some. intros [(<- & <- & _)|[N1 H1]] [(<- & <- & _)|[N2 H2]]; cbn; [| | |by eapply C9].
    + intros [E1| [-> ->] ]%Ha [E2| [-> E2] ]%Ha Hy; [by eapply C9|by destruct (Hn h b k1 y)|by destruct (Hn h b k2 x)|done].
    + intros [E1| [-> ->] ]%Ha E2 Hy; [by eapply C9|by destruct (Hn h2 b2 k2 x)].
    + intros E1 [E2| [-> E2] ]%Ha Hy; [by eapply C9|by destruct (Hn h1 b1 k1 y)].
Qed.

End core.

Section locks.
Context (bits max_rows : Z) (T0 : list bucket) (work : list (option insertion)).
Context (Hmax : max_rows <= 2 ^ 28).
Context (Hwork : forall i w, work !! i = Some (Some w) ->
  0 <= in_bucket w < 2 ^ bits /\ in_bucket w = lp_hash bits (r_lp (in_relation w)) /\ in_tag w = lp_tag bits (r_lp (in_relation w)) /\ r_len (in_relation w) <= 64).

Notation inv := (lock_inv bits max_rows T0 work).

Lemma entered_mono T T' rows rows' w g :
  (forall h b, T !! h = Some b -> exists b', T' !! h = Some b' /\ bk_entries b `prefix_of` bk_entries b' /\ (length (bk_entries b') <= 16)%nat) -> rows <= rows' ->
  entered max_rows T rows w g -> entered max_rows T' rows' w g.
Proof using Type.
  intros HT Hr [(b & Hb & H)|H]; [left|right; lia]. destruct (HT _ b Hb) as (b' & Hb' & Hp & Hl). exists b'. split; [done|].
  destruct H as [H|H]; [left|right]. - destruct Hp as [l ->]. apply elem_of_app. by left. - apply prefix_length in Hp. lia.
Qed.

Lemma grown_mono T T' : grown T0 T -> (forall h b, T !! h = Some b -> exists b', T' !! h = Some b' /\ bk_entries b `prefix_of` bk_entries b') -> grown T0 T'.
Proof using Type. intros H1 H2 h b0 H0. destruct (H1 h b0 H0) as (b & Hb & Hp). destruct (H2 h b Hb) as (b' & Hb' & Hp'). exists b'. split; [done|]. by etrans. Qed.

(** The directory after a change of phase of thread [i] outside its bucket. *)
Lemma lk_dir_frame phases i w p p' h :
  thread_at work phases i w p -> (Z.to_nat (in_bucket w) <> h \/ holding p' = holding p) ->
  ((exists j w' q, thread_at work phases j w' q /\ holding q = true /\ Z.to_nat (in_bucket w') = h) ->
   exists j w' q, thread_at work (<[i := p']> phases) j w' q /\ holding q = true /\ Z.to_nat (in_bucket w') = h) /\
  ((forall j w' q, thread_at work phases j w' q -> holding q = true -> Z.to_nat (in_bucket w') <> h) ->
   forall j w' q, thread_at work (<[i := p']> phases) j w' q -> holding q = true -> Z.to_nat (in_bucket w') <> h).
Proof using Type.
  intros Ht Hp. split.
  - intros (j & w' & q & Hj & Hq & Hh). destruct (decide (j = i)) as [->|Hne].
    + destruct (thread_at_fun work _ _ _ _ _ _ Ht Hj) as [<- <-]. destruct Hp as [|Hp]; [done|]. exists i, w, p'. split; [by eapply thread_at_self|]. by rewrite Hp.
    + exists j, w', q. split; [by apply thread_at_other|done].
  - intros H j w' q Hj Hq. apply (thread_at_insert work _ _ _ _ _ _ _ _ Ht) in Hj as [(-> & -> & ->)|[_ Hj]]; [|by eapply H].
    destruct Hp as [Hp|Hp]; [done|]. eapply H; [exact Ht|congruence].
Qed.

Lemma lk_excl_frame phases i w p p' :
  (forall j k w1 w2 p1 p2, thread_at work phases j w1 p1 -> thread_at work phases k w2 p2 -> holding p1 = true -> holding p2 = true ->
    Z.to_nat (in_bucket w1) = Z.to_nat (in_bucket w2) -> j = k) ->
  thread_at work phases i w p ->
  (holding p' = true -> holding p = true \/ forall j w' q, thread_at work phases j w' q -> holding q = true -> Z.to_nat (in_bucket w') <> Z.to_nat (in_bucket w)) ->
  forall j k w1 w2 p1 p2, thread_at work (<[i := p']> phases) j w1 p1 -> thread_at work (<[i := p']> phases) k w2 p2 -> holding p1 = true -> holding p2 = true ->
    Z.to_nat (in_bucket w1) = Z.to_nat (in_bucket w2) -> j = k.
Proof using Type.
  intros He Ht Hp j k w1 w2 p1 p2 Hj Hk H1 H2 Hb.
  apply (thread_at_insert work _ _ _ _ _ _ _ _ Ht) in Hj as [(-> & -> & ->)|[Nj Hj]];
    apply (thread_at_insert work _ _ _ _ _ _ _ _ Ht) in Hk as [(-> & -> & ->)|[Nk Hk]]; [done| | |by eapply He].
  - destruct (Hp H1) as [Hp'|Hp']; [by eapply (He i k)|]. by destruct (Hp' k w2 p2 Hk H2).
  - destruct (Hp H2) as [Hp'|Hp']; [by eapply (He j i)|]. by destruct (Hp' j w1 p1 Hj H1).
Qed.

(** A thread changes its phase but neither takes nor releases a lock. *)
Lemma lk_change W dir slabs rows phases T i w p p' :
  inv W dir slabs rows phases T -> thread_at work phases i w p -> holding p' = holding p -> phase_ok T w p' ->
  (forall g, unwritten p' = Some g -> unwritten p = Some g) ->
  (forall g, placed p' = Some g -> placed p = Some g \/ entered max_rows T rows w g) -> (may_take_row p' = true -> may_take_row p = true) ->
  inv W dir slabs rows (<[i := p']> phases) T.
Proof using Type.
  intros I Ht Hh Hok Hu Hpl Hm. constructor.
  - apply I.
  - intros h b Hb. destruct (lk_dir _ _ _ _ _ _ _ _ _ _ I h b Hb) as (e & He & H). exists e. split; [done|].
    destruct (lk_dir_frame phases i w p p' h Ht ltac:(by right)) as [F1 F2]. destruct H as [[H ?]|(H & ? & ?)]; [left; split; [by apply F1|done]|right; split; [by apply F2|done]].
  - apply (lk_excl_frame phases i w p p'); [by eapply lk_excl|done|]. intros Hp. left. congruence.
  - intros j w' q Hj. apply (thread_at_insert work _ _ _ _ _ _ _ _ Ht) in Hj as [(-> & -> & ->)|[_ Hj]]; [done|by eapply lk_phase].
  - intros j w' q g h b x Hj Hg. apply (thread_at_insert work _ _ _ _ _ _ _ _ Ht) in Hj as [(-> & -> & ->)|[_ Hj]]; [|by eapply lk_unwritten].
    eapply lk_unwritten; [done|exact Ht|by apply Hu].
  - apply I.
  - intros j w' q g Hj Hg. apply (thread_at_insert work _ _ _ _ _ _ _ _ Ht) in Hj as [(-> & -> & ->)|[_ Hj]]; [|by eapply lk_placed].
    destruct (Hpl g Hg) as [H|H]; [by eapply lk_placed|done].
  - rewrite (num_waiting_insert _ _ p) by apply Ht. pose proof (lk_rows _ _ _ _ _ _ _ _ _ _ I). destruct (may_take_row p'), (may_take_row p); cbn in *; lia.
Qed.

Lemma lk_idle W dir slabs rows phases T i p0 :
  inv W dir slabs rows phases T -> work !! i = Some None -> phases !! i = Some p0 -> inv W dir slabs rows (<[i := IDone None]> phases) T.
Proof using Type.
  intros I Hi Hp. constructor.
  - apply I.
  - intros h b Hb. destruct (lk_dir _ _ _ _ _ _ _ _ _ _ I h b Hb) as (e & He & H). exists e. split; [done|].
    destruct H as [[(j & w & q & H) ?]|(H & ? & ?)]; [left|right]; (split; [|done]).
    + exists j, w, q. by rewrite thread_at_idle.
    + intros j w q. rewrite thread_at_idle by done. apply H.
  - intros j k w1 w2 p1 p2 Hj Hk. rewrite thread_at_idle in Hj, Hk by done. exact (lk_excl _ _ _ _ _ _ _ _ _ _ I j k w1 w2 p1 p2 Hj Hk).
  - intros j w q Hj. rewrite thread_at_idle in Hj by done. exact (lk_phase _ _ _ _ _ _ _ _ _ _ I j w q Hj).
  - intros j w q g h b x Hj. rewrite thread_at_idle in Hj by done. exact (lk_unwritten _ _ _ _ _ _ _ _ _ _ I j w q g h b x Hj).
  - apply I.
  - intros j w q g Hj. rewrite thread_at_idle in Hj by done. exact (lk_placed _ _ _ _ _ _ _ _ _ _ I j w q g Hj).
  - rewrite (num_waiting_insert _ _ p0) by done. pose proof (lk_rows _ _ _ _ _ _ _ _ _ _ I). destruct (may_take_row p0); cbn; lia.
Qed.

(** A thread has reserved the place behind the witnesses [W]. *)
Lemma lk_reserved W dir slabs rows phases T i w old :
  inv W dir slabs rows phases T -> thread_at work phases i w (ISeen old) -> Z.of_nat (length W) < 2 ^ 32 ->
  inv (W ++ [in_relation w]) dir slabs rows (<[i := ISpin (Z.of_nat (length W))]> phases) T.
Proof using Type.
  intros I Ht Hw. set (p' := ISpin (Z.of_nat (length W))). constructor.
  - eapply core_mono; [|apply I]. by apply prefix_app_r.
  - intros h b Hb. destruct (lk_dir _ _ _ _ _ _ _ _ _ _ I h b Hb) as (e & He & H). exists e. split; [done|].
    destruct (lk_dir_frame phases i w (ISeen old) p' h Ht ltac:(by right)) as [F1 F2]. destruct H as [[H ?]|(H & ? & ?)]; [left; split; [by apply F1|done]|right; split; [by apply F2|done]].
  - apply (lk_excl_frame phases i w (ISeen old) p'); [by eapply lk_excl|exact Ht|done].
  - intros j w' q Hj. apply (thread_at_insert work _ _ _ _ _ _ _ _ Ht) in Hj as [(-> & -> & ->)|[_ Hj]]; [done|by eapply lk_phase].
  - intros j w' q g h b x Hj Hg. apply (thread_at_insert work _ _ _ _ _ _ _ _ Ht) in Hj as [(-> & -> & ->)|[_ Hj]]; [|by eapply lk_unwritten].
    intros Hb Hx Hne. injection Hg as <-. destruct (tc_entries _ _ _ _ _ _ (lk_core _ _ _ _ _ _ _ _ _ _ I) h b x Hb Hx) as [ [_ ?]|(g & w' & H1 & H2 & _ & ->)]; [done|].
    apply lookup_lt_Some in H2. destruct (payload_fields (lp_tag bits (r_lp w')) g) as [_ ->]; [apply lp_tag_width|unfold in_width; lia|lia].
  - apply I.
  - intros j w' q g Hj Hg. apply (thread_at_insert work _ _ _ _ _ _ _ _ Ht) in Hj as [(-> & -> & ->)|[_ Hj]]; [done|by eapply lk_placed].
  - rewrite (num_waiting_insert _ _ (ISeen old)), length_app by apply Ht. pose proof (lk_rows _ _ _ _ _ _ _ _ _ _ I). cbn. lia.
Qed.

(** The directory word of thread [i]'s bucket changes with its phase, by which it takes or releases the lock. *)
Lemma lk_word W dir slabs rows phases T i w p p' e :
  inv W dir slabs rows phases T -> thread_at work phases i w p -> Z.of_nat (length dir) = 2 ^ bits -> phase_ok T w p' ->
  (holding p = false /\ holding p' = true /\ dir_locked e = true /\
     (forall j w' q, thread_at work phases j w' q -> holding q = true -> Z.to_nat (in_bucket w') <> Z.to_nat (in_bucket w)) \/
   holding p = true /\ holding p' = false /\ exists b, bucket_of T w = Some b /\ e = dir_word b /\ closed b) ->
  (forall g, unwritten p' = Some g -> unwritten p = Some g) -> (forall g, placed p' = Some g -> placed p = Some g) -> (may_take_row p' = true -> may_take_row p = true) ->
  inv W (<[Z.to_nat (in_bucket w) := e]> dir) slabs rows (<[i := p']> phases) T.
Proof using Hwork.
  intros I Ht Hl Hok Hcase Hu Hpl Hm. destruct (Hwork i w (proj1 Ht)) as (Hrange & _). constructor.
  - apply I.
  - intros h b Hb. destruct (decide (Z.to_nat (in_bucket w) = h)) as [<-|Hne].
    + exists e. split; [apply list_lookup_insert_eq; lia|]. destruct Hcase as [(_ & H1 & H2 & _)|(H1 & H2 & b' & Hb' & -> & Hc)].
      * left. split; [|done]. exists i, w, p'. split; [by eapply thread_at_self|done].
      * right. unfold bucket_of in Hb'. rewrite Hb in Hb'. injection Hb' as <-. split; [|done].
        intros j w' q Hj Hq. apply (thread_at_insert work _ _ _ _ _ _ _ _ Ht) in Hj as [(-> & -> & ->)|[Hji Hj]]; [congruence|].
        intros Heq. apply Hji. by eapply (lk_excl _ _ _ _ _ _ _ _ _ _ I j i).
    + destruct (lk_dir _ _ _ _ _ _ _ _ _ _ I h b Hb) as (e' & He & H). exists e'. split; [by rewrite list_lookup_insert_ne|].
      destruct (lk_dir_frame phases i w p p' h Ht ltac:(by left)) as [F1 F2]. destruct H as [[H ?]|(H & ? & ?)]; [left; split; [by apply F1|done]|right; split; [by apply F2|done]].
  - apply (lk_excl_frame phases i w p p'); [by eapply lk_excl|done|]. intros Hp. destruct Hcase as [(_ & _ & _ & H)|(H & _)]; auto.
  - intros j w' q Hj. apply (thread_at_insert work _ _ _ _ _ _ _ _ Ht) in Hj as [(-> & -> & ->)|[_ Hj]]; [done|by eapply lk_phase].
  - intros j w' q g h b x Hj Hg. apply (thread_at_insert work _ _ _ _ _ _ _ _ Ht) in Hj as [(-> & -> & ->)|[_ Hj]]; [|by eapply lk_unwritten].
    eapply lk_unwritten; [done|exact Ht|by apply Hu].
  - apply I.
  - intros j w' q g Hj Hg. apply (thread_at_insert work _ _ _ _ _ _ _ _ Ht) in Hj as [(-> & -> & ->)|[_ Hj]]; [|by eapply lk_placed].
    eapply lk_placed; [done|exact Ht|by apply Hpl].
  - rewrite (num_waiting_insert _ _ p) by apply Ht. pose proof (lk_rows _ _ _ _ _ _ _ _ _ _ I). destruct (may_take_row p'), (may_take_row p); cbn in *; lia.
Qed.

(** Bucket [h] of thread [i] changes with its phase while the thread holds the lock. *)
Lemma lk_bucket W dir slabs slabs' rows rows' phases T i w p p' b b' :
  inv W dir slabs rows phases T -> thread_at work phases i w p -> holding p = true -> holding p' = true ->
  bucket_of T w = Some b -> bk_entries b `prefix_of` bk_entries b' -> rows <= rows' ->
  table_core bits max_rows W slabs' rows' (<[Z.to_nat (in_bucket w) := b']> T) ->
  phase_ok (<[Z.to_nat (in_bucket w) := b']> T) w p' ->
  (forall g, unwritten p' = Some g -> unwritten p = Some g) ->
  (forall y, y ∈ bk_entries b' -> y ∈ bk_entries b \/ forall g, unwritten p' = Some g \/ (exists j w' q, j <> i /\ thread_at work phases j w' q /\ unwritten q = Some g) -> wrap 32 y <> g) ->
  (forall g, placed p' = Some g -> entered max_rows (<[Z.to_nat (in_bucket w) := b']> T) rows' w g) ->
  rows' - rows + Z.b2z (may_take_row p') <= Z.b2z (may_take_row p) ->
  inv W dir slabs' rows' (<[i := p']> phases) (<[Z.to_nat (in_bucket w) := b']> T).
Proof using Type.
  intros I Ht Hp Hp' Hb Hpre Hr Hcore Hok Hu Hnew Hpl Hm. unfold bucket_of in Hb.
  assert (forall h x, T !! h = Some x -> exists x', <[Z.to_nat (in_bucket w) := b']> T !! h = Some x' /\ bk_entries x `prefix_of` bk_entries x') as Hgrow.
  { intros h x Hx. destruct (decide (Z.to_nat (in_bucket w) = h)) as [<-|Hne].
    - exists b'. split; [apply list_lookup_insert_eq; by eapply lookup_lt_Some|]. rewrite Hb in Hx. by injection Hx as <-.
    - exists x. split; [by rewrite list_lookup_insert_ne|done]. }
  constructor.
  - done.
  - intros h x. rewrite list_lookup_insert_Some. intros [(<- & <- & _)|[Hne Hx]].
    + destruct (lk_dir _ _ _ _ _ _ _ _ _ _ I _ b Hb) as (e & He & H). exists e. split; [done|]. left.
      destruct (lk_dir_frame phases i w p p' (Z.to_nat (in_bucket w)) Ht) as [F1 _]; [right; congruence|]. destruct H as [[H ?]|(H & _)]; [split; [by apply F1|done]|].
      by destruct (H i w p Ht Hp).
    + destruct (lk_dir _ _ _ _ _ _ _ _ _ _ I h x Hx) as (e & He & H). exists e. split; [done|].
      destruct (lk_dir_frame phases i w p p' h Ht ltac:(by left)) as [F1 F2]. destruct H as [[H ?]|(H & ? & ?)]; [left; split; [by apply F1|done]|right; split; [by apply F2|done]].
  - apply (lk_excl_frame phases i w p p'); [by eapply lk_excl|done|]. by left.
  - intros j w' q Hj. apply (thread_at_insert work _ _ _ _ _ _ _ _ Ht) in Hj as [(-> & -> & ->)|[Hne Hj]]; [done|].
    pose proof (lk_phase _ _ _ _ _ _ _ _ _ _ I j w' q Hj) as Hq. destruct (holding q) eqn:Eq; [|by destruct q].
    assert (Z.to_nat (in_bucket w) <> Z.to_nat (in_bucket w')) as Hn by (intros E; apply Hne; by eapply (lk_excl _ _ _ _ _ _ _ _ _ _ I j i)).
    destruct q; try done; cbn [phase_ok] in *; unfold bucket_of in *; rewrite list_lookup_insert_ne by done; done.
  - intros j w' q g h x y Hj Hg. rewrite list_lookup_insert_Some.
    apply (thread_at_insert work _ _ _ _ _ _ _ _ Ht) in Hj as [(-> & -> & ->)|[Hne Hj]].
    + intros [(<- & <- & _)|[_ Hx]] Hy Hy0; [|by eapply (lk_unwritten _ _ _ _ _ _ _ _ _ _ I i w p); eauto].
      destruct (Hnew y Hy) as [Hy'|Hy']; [by eapply (lk_unwritten _ _ _ _ _ _ _ _ _ _ I i w p); eauto|apply Hy'; by left].
    + intros [(<- & <- & _)|[_ Hx]] Hy Hy0; [|by eapply (lk_unwritten _ _ _ _ _ _ _ _ _ _ I j w' q)].
      destruct (Hnew y Hy) as [Hy'|Hy']; [by eapply (lk_unwritten _ _ _ _ _ _ _ _ _ _ I j w' q)|apply Hy'; right; by exists j, w', q].
  - eapply grown_mono; [apply I|done].
  - intros j w' q g Hj Hg. apply (thread_at_insert work _ _ _ _ _ _ _ _ Ht) in Hj as [(-> & -> & ->)|[Hne Hj]]; [by apply Hpl|].
    eapply entered_mono; [|exact Hr|by eapply lk_placed]. intros h x Hx. destruct (Hgrow h x Hx) as (x' & Hx' & Hp2). exists x'. split; [done|]. split; [done|]. by eapply tc_width.
  - rewrite (num_waiting_insert _ _ p) by apply Ht. pose proof (lk_rows _ _ _ _ _ _ _ _ _ _ I). lia.
Qed.

Lemma lk_new_row W dir slabs rows phases T i w g cur :
  inv W dir slabs rows phases T -> thread_at work phases i w (IHold g cur) -> dir_count cur = 0 ->
  exists T', inv W dir slabs (rows + 1) (<[i := if max_rows <=? rows then IFull g cur else IRow g cur rows]> phases) T'.
Proof using Hmax.
  intros I Ht Hc. destruct (lk_phase _ _ _ _ _ _ _ _ _ _ I i w _ Ht) as (b & Hb & Hcl & ->). pose proof (lk_core _ _ _ _ _ _ _ _ _ _ I) as C.
  destruct (core_word _ _ _ _ _ _ Hmax C _ b Hb) as (Hcount & _). rewrite Hcount in Hc. assert (bk_entries b = []) as He by (destruct (bk_entries b); [done|cbn in Hc; lia]).
  pose proof (proj1 Hcl He) as Hrow. assert (dir_word b = 0) as Hz by (unfold dir_word; by rewrite He). rewrite Hz.
  assert (Z.to_nat (in_bucket w) < length T)%nat as Hlt by (by eapply lookup_lt_Some).
  destruct (Z.leb_spec max_rows rows) as [Hfull|Hfree].
  - exists (<[Z.to_nat (in_bucket w) := b]> T). eapply (lk_bucket W dir slabs slabs rows (rows + 1) phases T i w _ (IFull g 0) b b); try done; [lia| | | | |cbn; lia].
    + rewrite list_insert_id by done. eapply core_more_rows; [|done]. lia.
    + exists b. unfold bucket_of. by rewrite list_lookup_insert_eq.
    + intros y Hy. by left.
    + intros g' _. right. lia.
  - exists (<[Z.to_nat (in_bucket w) := mkBucket (Some rows) []]> T).
    eapply (lk_bucket W dir slabs slabs rows (rows + 1) phases T i w _ (IRow g 0 rows) b _); try done; [by rewrite He|lia| | | |cbn; lia].
    + by eapply core_new_row.
    + exists (mkBucket (Some rows) []). unfold bucket_of. by rewrite list_lookup_insert_eq.
    + cbn. by intros y ?%not_elem_of_nil.
Qed.

Lemma lk_write W dir slabs rows phases T i w g cur row :
  inv W dir slabs rows phases T -> thread_at work phases i w (IRow g cur row) -> dir_count cur < ROW_WIDTH_ELEMS ->
  0 <= g < 2 ^ 32 -> W !! Z.to_nat g = Some (in_relation w) ->
  (forall j w' q, j <> i -> thread_at work phases j w' q -> witness_of q <> Some g) ->
  exists T', inv W dir (<[slot_of row (dir_count cur) := slab_payload (in_tag w) g]> slabs) rows (<[i := IWritten g row (dir_count cur + 1)]> phases) T'.
Proof using Hmax Hwork.
  intros I Ht Hc Hg HW Hinj. destruct (lk_phase _ _ _ _ _ _ _ _ _ _ I i w _ Ht) as (b & Hb & Hrow & ->). pose proof (lk_core _ _ _ _ _ _ _ _ _ _ I) as C.
  destruct (core_word _ _ _ _ _ _ Hmax C _ b Hb) as (Hcount & _). rewrite Hcount in *. unfold ROW_WIDTH_ELEMS in Hc.
  destruct (Hwork i w (proj1 Ht)) as (Hrange & Ehash & Etag & _). assert (Z.to_nat (in_bucket w) < length T)%nat as Hlt by (by eapply lookup_lt_Some).
  destruct (payload_fields (in_tag w) g) as [_ Epay]; [rewrite Etag; apply lp_tag_width|exact Hg|].
  exists (<[Z.to_nat (in_bucket w) := mkBucket (Some row) (bk_entries b ++ [slab_payload (in_tag w) g])]> T).
  eapply (lk_bucket W dir slabs _ rows rows phases T i w _ _ b _); try done; cbn [bk_entries].
  - by apply prefix_app_r.
  - eapply core_write; try done; [lia| |].
    + right. exists g, (in_relation w). split_and!; try done; [lia|by rewrite <- Ehash, Z2Nat.id by lia|by rewrite Etag].
    + intros h' b' y Hh' Hy Hy0 ->. eapply (lk_unwritten _ _ _ _ _ _ _ _ _ _ I i w (IRow g (dir_word b) row) g h' b'); try done.
  - eexists. unfold bucket_of. rewrite list_lookup_insert_eq by done. split; [done|]. cbn [bk_row bk_entries]. split; [done|]. split; [rewrite length_app; cbn; lia|].
    by destruct (bk_entries b).
  - intros y [Hy| ->%list_elem_of_singleton]%elem_of_app; [by left|right]. rewrite Epay. intros g' [?|(j & w' & q & Hne & Hj & Hq)] <-; [done|].
    apply (Hinj j w' q Hne Hj). by destruct q.
  - intros g' [= <-]. left. eexists. unfold bucket_of. rewrite list_lookup_insert_eq by done. split; [done|]. left. cbn. apply elem_of_app. right. by left.
  - cbn. lia.
Qed.

End locks.

(** ** The insertion kernel *)

Section insertion.
Context (bits max_rows : Z) (v : RelationBatchView) (rs0 : list relation) (T0 : list bucket) (work : list (option insertion)).
Context (Hmax : max_rows <= 2 ^ 28).
Context (Hmr : max_relations v + 1 < 2 ^ 32) (Hmf : 0 <= max_factors v) (Hmf' : max_factors v + 64 < 2 ^ 32).
Context (Hwork : forall i w, work !! i = Some (Some w) ->
  0 <= in_bucket w < 2 ^ bits /\ in_bucket w = lp_hash bits (r_lp (in_relation w)) /\ in_tag w = lp_tag bits (r_lp (in_relation w)) /\ r_len (in_relation w) <= 64).

Record insert_inv (T : list bucket) (st : insert_state) : Prop := mkInsertInv {
  ii_threads : thread_inv v rs0 work (is_soa st) (is_phases st);
  ii_locks : lock_inv bits max_rows T0 work (stored rs0 (is_soa st)) (is_dir st) (is_slabs st) (is_rows st) (is_phases st) T;
  ii_dir : Z.of_nat (length (is_dir st)) = 2 ^ bits
}.

(** A step that changes only the phase of a thread outside the critical section, or within it. *)
Lemma insert_change T st st' i w p p' :
  insert_inv T st -> thread_at work (is_phases st) i w p ->
  is_soa st' = is_soa st -> is_dir st' = is_dir st -> is_slabs st' = is_slabs st -> is_rows st' = is_rows st -> is_phases st' = <[i := p']> (is_phases st) ->
  witness_of p' = witness_of p -> p' <> IDone None -> (forall old, p' = ISeen old -> seen_before rs0 (is_soa st) old) ->
  holding p' = holding p -> phase_ok T w p' -> (forall g, unwritten p' = Some g -> unwritten p = Some g) ->
  (forall g, placed p' = Some g -> placed p = Some g \/ entered max_rows T (is_rows st) w g) -> (may_take_row p' = true -> may_take_row p = true) -> insert_inv T st'.
Proof using Type.
  intros [I1 I2 I3] Ht E1 E2 E3 E4 E5 **. constructor; rewrite ?E1, ?E2, ?E3, ?E4, ?E5; [by eapply th_phase|by eapply lk_change|done].
Qed.

(** A thread at its bucket: nobody else is in the critical section when the word is unlocked, and the word is that of the bucket. *)
Lemma unlocked_bucket T st w cur :
  insert_inv T st -> 0 <= in_bucket w < 2 ^ bits -> is_dir st !! Z.to_nat (in_bucket w) = Some cur -> dir_locked cur = false ->
  exists b, bucket_of T w = Some b /\ closed b /\ cur = dir_word b /\
    forall j w' q, thread_at work (is_phases st) j w' q -> holding q = true -> Z.to_nat (in_bucket w') <> Z.to_nat (in_bucket w).
Proof using Type.
  intros [_ I _] Hr Hd Hl. pose proof (tc_size _ _ _ _ _ _ (lk_core _ _ _ _ _ _ _ _ _ _ I)) as Hsz.
  destruct (lookup_lt_is_Some_2 T (Z.to_nat (in_bucket w)) ltac:(lia)) as [b Hb].
  destruct (lk_dir _ _ _ _ _ _ _ _ _ _ I _ b Hb) as (e & He & H). rewrite Hd in He. injection He as <-.
  destruct H as [[_ ?]|(H & -> & Hc)]; [congruence|]. by exists b.
Qed.

Lemma insert_width T st : insert_inv T st -> Z.of_nat (length (stored rs0 (is_soa st))) < 2 ^ 32.
Proof using Hmr. intros [I _ _]. pose proof (si_count _ _ _ (th_soa _ _ _ _ _ I)). lia. Qed.

Lemma insert_step_inv T st st' : insert_inv T st -> insert_step v max_rows work st st' -> exists T', insert_inv T' st'.
Proof using Hmax Hmr Hmf Hmf' Hwork.
  intros I Hs. pose proof (ii_threads _ _ I) as It. pose proof (ii_locks _ _ I) as Il. pose proof (ii_dir _ _ I) as Id. pose proof (insert_width _ _ I) as Hw32.
  destruct Hs as [st i Hw Hp|st i w Ht|st i w old Ht Hr|st i w old x Ht Hr Hne|st i w R F desired Ht Hr|st i w g cur Ht Hd|st i w g cur Ht Hl
    |st i w g cur e Ht Hl Hd Hne|st i w g cur Ht Hl Hd|st i w g cur Ht Hc|st i w g cur Ht Hc|st i w g cur Ht|st i w g cur row Ht Hc|st i w g cur row Ht Hc|st i w g row count Ht|st p1 x p2 Hp].
  - exists T. constructor; cbn; [by apply th_idle|by eapply lk_idle|done].
  - exists T. eapply (insert_change T st _ i w IStart _ I Ht); try done. intros old [= <-]. eapply (seen_now v). apply It.
  - exists T. destruct (Hwork i w (proj1 Ht)) as (_ & _ & _ & Hlen). constructor; cbn; [by eapply th_dropped| |done]. by eapply (lk_change _ _ _ _ _ _ _ _ _ _ i w (ISeen old)).
  - exists T. eapply (insert_change T st _ i w (ISeen old) _ I Ht); try done. intros old' [= <-]. eapply (seen_now v). apply It.
  - exists T. destruct (Hwork i w (proj1 Ht)) as (_ & _ & _ & Hlen).
    destruct (th_reserved v rs0 work Hmr Hmf Hmf' _ _ i w R F desired It Ht Hr Hlen) as [It' ->]. constructor; cbn; [done| |done].
    assert (stored rs0 (soa_reserved (is_soa st) (in_relation w) (Z.of_nat (length (stored rs0 (is_soa st)))) F desired) = stored rs0 (is_soa st) ++ [in_relation w]) as -> by apply app_assoc.
    by eapply lk_reserved.
  - exists T. by eapply (insert_change T st _ i w (ISpin g) _ I Ht).
  - exists T. by eapply (insert_change T st _ i w (IRead g cur) _ I Ht).
  - exists T. by eapply (insert_change T st _ i w (IRead g cur) _ I Ht).
  - destruct (Hwork i w (proj1 Ht)) as (Hrange & _). destruct (unlocked_bucket T st w cur I Hrange Hd Hl) as (b & Hb & Hc & Ew & Hnone).
    exists T. constructor; cbn; [by eapply th_phase|eapply (lk_word bits max_rows T0 work Hwork _ _ _ _ _ T i w (IRead g cur) (IHold g cur)); try done|by rewrite length_insert].
    + by exists b.
    + left. split_and!; try done. apply locked_word.
  - exists T. destruct (lk_phase _ _ _ _ _ _ _ _ _ _ Il i w _ Ht) as (b & Hb & Hcl & ->).
    destruct (core_word _ _ _ _ _ _ Hmax (lk_core _ _ _ _ _ _ _ _ _ _ Il) _ b Hb) as (Hcount & _ & Hrow).
    assert (bk_entries b <> []) as Hne by (intros E; apply Hc; by rewrite Hcount, E). destruct (bk_row b) as [r|] eqn:Er; [|by destruct Hne; apply Hcl].
    destruct (Hrow r eq_refl Hne) as [-> _]. eapply (insert_change T st _ i w (IHold g (dir_word b)) _ I Ht); try done. by exists b.
  - destruct (lk_new_row bits max_rows T0 work Hmax _ _ _ _ _ T i w g cur Il Ht Hc) as [T' Il']. exists T'.
    pose proof (lk_rows _ _ _ _ _ _ _ _ _ _ Il) as Hrows. assert (0 <= is_rows st) as H0 by apply (lk_core _ _ _ _ _ _ _ _ _ _ Il).
    assert (0 < num_waiting (is_phases st)) as Hpos.
    { pose proof (num_waiting_insert (is_phases st) i _ (IDone None) (proj2 Ht)) as Hn. cbn in Hn. pose proof (num_waiting_nonneg (<[i := IDone None]> (is_phases st))). lia. }
    constructor; cbn; [|rewrite wrap_small by (unfold in_width; lia); done|done]. destruct (max_rows <=? is_rows st); by eapply th_phase.
  - exists T. destruct (lk_phase _ _ _ _ _ _ _ _ _ _ Il i w _ Ht) as (b & Hb & Hcl & He & ->).
    constructor; cbn; [by eapply th_phase|eapply (lk_word bits max_rows T0 work Hwork _ _ _ _ _ T i w (IFull g 0)); try done|by rewrite length_insert].
    right. split_and!; try done. exists b. split_and!; try done. unfold dir_word. by rewrite He.
  - destruct (th_witness _ _ _ _ _ It i w _ g Ht eq_refl) as [Hg1 Hg2]. pose proof (lookup_lt_Some _ _ _ Hg2).
    destruct (lk_write bits max_rows T0 work Hmax Hwork _ _ _ _ _ T i w g cur row Il Ht Hc ltac:(lia) Hg2) as [T' Il'].
    { intros j w' q Hne Hj Hq. apply Hne. by eapply (th_inj _ _ _ _ _ It j i). }
    exists T'. constructor; cbn; [by eapply th_phase|done|done].
  - exists T. destruct (lk_phase _ _ _ _ _ _ _ _ _ _ Il i w _ Ht) as (b & Hb & Hrow & ->).
    destruct (core_word _ _ _ _ _ _ Hmax (lk_core _ _ _ _ _ _ _ _ _ _ Il) _ b Hb) as (Hcount & _). rewrite Hcount in *. unfold ROW_WIDTH_ELEMS in Hc.
    destruct (tc_width _ _ _ _ _ _ (lk_core _ _ _ _ _ _ _ _ _ _ Il) _ b Hb) as [Hlen _].
    eapply (insert_change T st _ i w (IRow g (dir_word b) row) _ I Ht); try done.
    + exists b. split_and!; try done. intros E. rewrite E in Hc. cbn in Hc. lia.
    + intros g' [= <-]. right. left. exists b. split; [done|]. right. lia.
  - exists T. destruct (lk_phase _ _ _ _ _ _ _ _ _ _ Il i w _ Ht) as (b & Hb & Hrow & -> & Hne).
    constructor; cbn; [by eapply th_phase|eapply (lk_word bits max_rows T0 work Hwork _ _ _ _ _ T i w _ (IDone (Some g))); try done|by rewrite length_insert].
    right. split_and!; try done. exists b. split; [done|]. split; [|by unfold closed; rewrite Hrow; split]. unfold dir_word. rewrite Hrow. by destruct (bk_entries b).
  - exists T. constructor; cbn; [by apply th_landed|done|done].
Qed.

Lemma insert_steps_inv T st st' : insert_inv T st -> rtc (insert_step v max_rows work) st st' -> exists T', insert_inv T' st'.
Proof using Hmax Hmr Hmf Hmf' Hwork.
  intros I Hs. revert T I. induction Hs as [st|st st1 st2 H12 _ IH]; intros T I; [by exists T|]. destruct (insert_step_inv T st st1 I H12) as [T' I']. by eapply IH.
Qed.

(** Before the kernel starts. *)
Lemma insert_start_inv dir slabs rows overflow s n :
  table_repr bits max_rows rs0 dir slabs rows T0 -> soa_inv v rs0 s -> so_accepted s = [] -> n = length work -> insert_inv T0 (insert_start s dir slabs rows overflow n).
Proof using Type.
  intros [R1 R2 R3 R4] Hs Ha ->. assert (stored rs0 s = rs0) as Es by (unfold stored; rewrite Ha; apply app_nil_r).
  assert (forall i w p, thread_at work (replicate (length work) IStart) i w p -> p = IStart) as Hst by (by intros i w p [_ [? _]%lookup_replicate_1]).
  constructor; cbn [insert_start is_soa is_phases is_dir is_slabs is_rows]; rewrite ?Es; [| |done].
  - constructor; [done|by rewrite length_replicate|by intros i old [? _]%lookup_replicate_1| | | | |].
    + by intros i w p g ->%Hst.
    + by intros i j w w' p p' g ->%Hst.
    + rewrite Ha. clear. unfold collected. induction work as [|w l IH]; [done|]. cbn. destruct w; cbn; apply IH.
    + intros i p _ [-> _]%lookup_replicate_1. by left.
    + by intros i w ?%Hst.
  - constructor; [done| | | | |by intros h b0 H0; exists b0| |].
    + intros h b Hb. destruct (R2 h b Hb) as [Hd Hc]. exists (dir_word b). split; [done|]. right. split; [|done]. by intros i w p ->%Hst.
    + by intros i j w w' p p' ->%Hst.
    + by intros i w p ->%Hst.
    + by intros i w p g h b x ->%Hst.
    + by intros i w p g ->%Hst.
    + assert (num_waiting (replicate (length work) IStart) = 0) as ->; [|lia]. unfold num_waiting. clear. induction work; [done|]. cbn. done.
Qed.

(** When the kernel has ended: the table is one of the old and the new witnesses, which are relations of the threads, each once; a thread's relation is missing
    only when the batch has no room for it, and its entry only when its bucket is full or the rows are used up. *)
Lemma insert_finished_spec T st :
  insert_inv T st -> insert_finished st ->
  let W := stored rs0 (is_soa st) in
  repr (commit_dual_counter_kernel (so_dual (is_soa st)) (so_batch (is_soa st))) W /\
  table_repr bits max_rows W (is_dir st) (is_slabs st) (is_rows st) T /\ grown T0 T /\
  (exists left, so_accepted (is_soa st) ++ left ≡ₚ map in_relation (omap id work) /\ Forall (no_room v rs0 (is_soa st)) left) /\
  (forall i w, work !! i = Some (Some w) ->
     no_room v rs0 (is_soa st) (in_relation w) \/
     exists g, Z.of_nat (length rs0) <= g /\ W !! Z.to_nat g = Some (in_relation w) /\ entered max_rows T (is_rows st) w g).
Proof using Hmr Hmf Hmf'.
  intros [It Il Id] [Hpend Hdone] W. rewrite Forall_lookup in Hdone.
  assert (forall i w p, thread_at work (is_phases st) i w p -> exists g, p = IDone g) as Hd by (intros i w p [_ H]; by apply (Hdone i)).
  split; [apply (soa_committed v rs0 Hmr Hmf Hmf'); [apply It|done]|]. split; [|split; [apply Il|split]].
  - constructor; [apply Il| | |done].
    + intros h b Hb. destruct (lk_dir _ _ _ _ _ _ _ _ _ _ Il h b Hb) as (e & He & [[(i & w & p & Hi & Hp & _) _]|(_ & -> & Hc)]); [|done].
      by destruct (Hd i w p Hi) as [g ->].
    + pose proof (lk_rows _ _ _ _ _ _ _ _ _ _ Il). pose proof (num_waiting_nonneg (is_phases st)). unfold W. lia.
  - exists (map in_relation (collected (fun w p => match p with IDone None => w | _ => None end) work (is_phases st))). split.
    + rewrite (th_taken _ _ _ _ _ It). pose proof (th_length _ _ _ _ _ It) as Hl. clear - Hl Hdone. revert Hl Hdone. generalize (is_phases st). unfold collected.
      induction work as [|w l IH]; intros [|p ph] Hl Hdone; try done. injection Hl as Hl. destruct (Hdone 0%nat p eq_refl) as [g ->].
      specialize (IH ph Hl (fun i x H => Hdone (S i) x H)). destruct g as [g|], w as [w|]; cbn; rewrite <- IH; [done|done| |done].
      by rewrite Permutation_middle.
    + apply Forall_map, Forall_forall. intros w Hw. unfold collected in Hw. apply list_elem_of_omap in Hw as ([w' p] & Hin & E). cbn in E.
      apply list_elem_of_lookup in Hin as [i Hi]. apply lookup_zip_with_Some in Hi as (w2 & p2 & [= <- <-] & Hw & Hp). destruct p as [| | | | | | | |[g|]]; try done. subst w'.
      by apply (th_left _ _ _ _ _ It i).
  - intros i w Hw. destruct (lookup_lt_is_Some_2 (is_phases st) i) as [p Hp]; [rewrite <- (th_length _ _ _ _ _ It); by eapply lookup_lt_Some|].
    assert (thread_at work (is_phases st) i w p) as Ht by done. destruct (Hd i w p Ht) as [[g|] ->]; [right|left; by eapply th_left].
    destruct (th_witness _ _ _ _ _ It i w _ g Ht eq_refl) as [H1 H2]. exists g. split_and!; try done. by eapply lk_placed.
Qed.

(** ** Progress *)

Notation step := (insert_step v max_rows work).

(** Steps that take thread [i] to phase [p] and leave the others where they are. *)
Definition runs (i : nat) (st : insert_state) (p : insert_phase) (st' : insert_state) : Prop := rtc step st st' /\ is_phases st' = <[i := p]> (is_phases st).

Lemma runs_step i st p st' : step st st' -> is_phases st' = <[i := p]> (is_phases st) -> runs i st p st'.
Proof using Type. intros H1 H2. split; [by apply rtc_once|done]. Qed.

Lemma runs_trans i st p st' p' st'' : runs i st p st' -> runs i st' p' st'' -> runs i st p' st''.
Proof using Type. intros [H1 E1] [H2 E2]. split; [by etrans|]. by rewrite E2, E1, list_insert_insert_eq. Qed.

Lemma runs_at i st p st' w p0 : thread_at work (is_phases st) i w p0 -> runs i st p st' -> thread_at work (is_phases st') i w p.
Proof using Type. intros Ht [_ ->]. by eapply thread_at_self. Qed.

(** A thread in the critical section leaves it. *)
Lemma row_runs st i w g cur row : thread_at work (is_phases st) i w (IRow g cur row) -> exists st', runs i st (IDone (Some g)) st'.
Proof using Type.
  intros Ht. assert (exists c st1, runs i st (IWritten g row c) st1) as (c & st1 & H1).
  { destruct (Z.lt_ge_cases (dir_count cur) ROW_WIDTH_ELEMS).
    - do 2 eexists. eapply runs_step; [by eapply insert_write|done].
    - do 2 eexists. eapply runs_step; [by eapply insert_row_full|done]. }
  eexists. eapply runs_trans; [exact H1|]. eapply runs_step; [eapply insert_release; by eapply runs_at|done].
Qed.

Lemma full_runs st i w g cur : thread_at work (is_phases st) i w (IFull g cur) -> exists st', runs i st (IDone (Some g)) st'.
Proof using Type. intros Ht. eexists. eapply runs_step; [by eapply insert_exhausted|done]. Qed.

Lemma hold_runs st i w g cur : thread_at work (is_phases st) i w (IHold g cur) -> exists st', runs i st (IDone (Some g)) st'.
Proof using Type.
  intros Ht. destruct (decide (dir_count cur = 0)) as [Hc|Hc].
  - assert (exists st1, runs i st (if max_rows <=? is_rows st then IFull g cur else IRow g cur (is_rows st)) st1) as [st1 H1].
    { eexists. eapply runs_step; [by eapply insert_new_row|done]. }
    pose proof (runs_at _ _ _ _ _ _ Ht H1) as Ht1. destruct (max_rows <=? is_rows st).
    + destruct (full_runs st1 i w g cur Ht1) as [st2 H2]. exists st2. by eapply runs_trans.
    + destruct (row_runs st1 i w g cur _ Ht1) as [st2 H2]. exists st2. by eapply runs_trans.
  - assert (exists st1, runs i st (IRow g cur (dir_row cur)) st1) as [st1 H1] by (eexists; eapply runs_step; [by eapply insert_known_row|done]).
    destruct (row_runs st1 i w g cur _ (runs_at _ _ _ _ _ _ Ht H1)) as [st2 H2]. exists st2. by eapply runs_trans.
Qed.

Lemma holder_runs st i w p : thread_at work (is_phases st) i w p -> holding p = true -> exists st' g, runs i st (IDone g) st'.
Proof using Type.
  intros Ht Hp. destruct p as [| | | |g cur|g cur row|g cur|g row c|]; try done.
  - destruct (hold_runs st i w g cur Ht) as [st' H]. by exists st', (Some g).
  - destruct (row_runs st i w g cur row Ht) as [st' H]. by exists st', (Some g).
  - destruct (full_runs st i w g cur Ht) as [st' H]. by exists st', (Some g).
  - eexists _, (Some g). eapply runs_step; [by eapply insert_release|done].
Qed.

Definition nobody_holds (st : insert_state) : Prop := forall j w q, thread_at work (is_phases st) j w q -> holding q = false.

(** When nobody is in a critical section a thread at its lock gets through. *)
Lemma spin_runs T st i w g : insert_inv T st -> nobody_holds st -> thread_at work (is_phases st) i w (ISpin g) -> exists st', runs i st (IDone (Some g)) st'.
Proof using Hmax Hwork.
  intros I Hn Ht. destruct (Hwork i w (proj1 Ht)) as (Hr & _). pose proof (ii_dir _ _ I) as Hd. pose proof (ii_locks _ _ I) as Il.
  pose proof (tc_size _ _ _ _ _ _ (lk_core _ _ _ _ _ _ _ _ _ _ Il)) as Hsz. destruct (lookup_lt_is_Some_2 T (Z.to_nat (in_bucket w)) ltac:(lia)) as [b Hb].
  destruct (lk_dir _ _ _ _ _ _ _ _ _ _ Il _ b Hb) as (e & He & [[(j & w' & q & Hj & Hq & _) _]|(_ & -> & _)]).
  { specialize (Hn j w' q Hj). congruence. }
  destruct (core_word _ _ _ _ _ _ Hmax (lk_core _ _ _ _ _ _ _ _ _ _ Il) _ b Hb) as (_ & Hfree & _).
  assert (exists st1, runs i st (IRead g (dir_word b)) st1 /\ is_dir st1 = is_dir st) as (st1 & H1 & E1).
  { eexists. split; [eapply runs_step; [by eapply insert_read|done]|done]. }
  pose proof (runs_at _ _ _ _ _ _ Ht H1) as Ht1.
  assert (exists st2, runs i st1 (IHold g (dir_word b)) st2) as [st2 H2] by (eexists; eapply runs_step; [eapply insert_lock; [done|done|by rewrite E1]|done]).
  destruct (hold_runs st2 i w g _ (runs_at _ _ _ _ _ _ Ht1 H2)) as [st3 H3]. exists st3. eapply runs_trans; [exact H1|]. by eapply runs_trans.
Qed.

Lemma runs_inv T i st p st' : insert_inv T st -> runs i st p st' -> exists T', insert_inv T' st'.
Proof using Hmax Hmr Hmf Hmf' Hwork. intros I [H _]. by eapply insert_steps_inv. Qed.

Lemma runs_nobody i st p st' : nobody_holds st -> (exists w p0, thread_at work (is_phases st) i w p0) -> holding p = false -> runs i st p st' -> nobody_holds st'.
Proof using Type.
  intros Hn (w & p0 & Ht) Hp [_ E] j w' q Hj. rewrite E in Hj. apply (thread_at_insert work _ _ _ _ _ _ _ _ Ht) in Hj as [(_ & _ & ->)|[_ Hj]]; [done|by eapply Hn].
Qed.

Definition escapes (st : insert_state) (i : nat) : Prop := exists st' g, runs i st (IDone g) st'.

Lemma escapes_after T st i w p0 p :
  insert_inv T st -> nobody_holds st -> thread_at work (is_phases st) i w p0 -> holding p = false -> (exists st1, runs i st p st1) ->
  (forall T1 st1, insert_inv T1 st1 -> nobody_holds st1 -> thread_at work (is_phases st1) i w p -> escapes st1 i) -> escapes st i.
Proof using Hmax Hmr Hmf Hmf' Hwork.
  intros I Hn Ht Hp [st1 H1] Hnext. destruct (runs_inv _ _ _ _ _ I H1) as [T1 I1]. destruct (Hnext T1 st1 I1) as (st2 & g & H2).
  - eapply runs_nobody; [exact Hn|by exists w, p0|exact Hp|exact H1].
  - by eapply runs_at.
  - exists st2, g. by eapply runs_trans.
Qed.

Lemma spin_escapes T st i w g : insert_inv T st -> nobody_holds st -> thread_at work (is_phases st) i w (ISpin g) -> escapes st i.
Proof using Hmax Hwork. intros I Hn Ht. destruct (spin_runs T st i w g I Hn Ht) as [st' H]. by exists st', (Some g). Qed.

Lemma read_escapes T st i w g cur : insert_inv T st -> nobody_holds st -> thread_at work (is_phases st) i w (IRead g cur) -> escapes st i.
Proof using Hmax Hmr Hmf Hmf' Hwork.
  intros I Hn Ht. destruct (dir_locked cur) eqn:Hl.
  { eapply (escapes_after T st i w _ (ISpin g) I Hn Ht); [done|eexists; eapply runs_step; [by eapply insert_spin|done]|]. intros T1 st1 I1 Hn1. by eapply spin_escapes. }
  destruct (Hwork i w (proj1 Ht)) as (Hr & _). pose proof (ii_dir _ _ I) as Hd.
  destruct (lookup_lt_is_Some_2 (is_dir st) (Z.to_nat (in_bucket w)) ltac:(lia)) as [e He]. destruct (decide (e = cur)) as [->|Hne].
  - assert (exists st1, runs i st (IHold g cur) st1) as [st1 H1] by (eexists; eapply runs_step; [by eapply insert_lock|done]).
    destruct (hold_runs st1 i w g cur (runs_at _ _ _ _ _ _ Ht H1)) as [st2 H2]. exists st2, (Some g). by eapply runs_trans.
  - eapply (escapes_after T st i w _ (ISpin g) I Hn Ht); [done|eexists; eapply runs_step; [by eapply insert_raced|done]|]. intros T1 st1 I1 Hn1. by eapply spin_escapes.
Qed.

(** A thread that has just read the counter. *)
Lemma now_escapes T st i w : insert_inv T st -> nobody_holds st -> thread_at work (is_phases st) i w (ISeen (so_dual (is_soa st))) -> escapes st i.
Proof using Hmax Hmr Hmf Hmf' Hwork.
  intros I Hn Ht. destruct (reserve_dual v (r_len (in_relation w)) (so_dual (is_soa st))) as [[[R F] desired]|] eqn:Hr.
  - eapply (escapes_after T st i w _ (ISpin R) I Hn Ht); [done|eexists; eapply runs_step; [by eapply insert_reserve|done]|]. intros T1 st1 I1 Hn1. by eapply spin_escapes.
  - eexists _, None. eapply runs_step; [by eapply insert_no_room|done].
Qed.

Lemma reads_escapes T st st1 i w p0 :
  insert_inv T st -> nobody_holds st -> thread_at work (is_phases st) i w p0 -> runs i st (ISeen (so_dual (is_soa st))) st1 -> is_soa st1 = is_soa st -> escapes st i.
Proof using Hmax Hmr Hmf Hmf' Hwork.
  intros I Hn Ht H1 E. destruct (runs_inv _ _ _ _ _ I H1) as [T1 I1]. destruct (now_escapes T1 st1 i w I1) as (st2 & g & H2).
  - eapply runs_nobody; [exact Hn|by exists w, p0| |exact H1]. done.
  - rewrite E. by eapply runs_at.
  - exists st2, g. by eapply runs_trans.
Qed.

Lemma free_escapes T st i w p : insert_inv T st -> nobody_holds st -> thread_at work (is_phases st) i w p -> (exists g, p = IDone g) \/ escapes st i.
Proof using Hmax Hmr Hmf Hmf' Hwork.
  intros I Hn Ht. destruct p as [|old|g|g cur|g cur|g cur row|g cur|g row c|g]; try (specialize (Hn i w _ Ht); done); [right..|left; by exists g].
  - eapply (reads_escapes T st _ i w _ I Hn Ht); [eapply runs_step; [by eapply insert_load|done]|done].
  - destruct (decide (so_dual (is_soa st) = old)) as [<-|Hne]; [by eapply now_escapes|].
    destruct (reserve_dual v (r_len (in_relation w)) old) as [x|] eqn:Hr; [|eexists _, None; eapply runs_step; [by eapply insert_no_room|done]].
    eapply (reads_escapes T st _ i w _ I Hn Ht); [eapply runs_step; [by eapply insert_retry|done]|done].
  - by eapply spin_escapes.
  - by eapply read_escapes.
Qed.

(** Let the threads of a list go one after the other: those that can be taken to the end are. *)
Lemma runs_other i st p st' j w q : runs i st p st' -> j <> i -> thread_at work (is_phases st') j w q <-> thread_at work (is_phases st) j w q.
Proof using Type. intros [_ E] Hne. unfold thread_at. rewrite E. by rewrite list_lookup_insert_ne. Qed.

Definition ended (p : insert_phase) : Prop := exists g, p = IDone g.

Lemma holder_dec st i : (exists w p, thread_at work (is_phases st) i w p /\ holding p = true) \/ ~ (exists w p, thread_at work (is_phases st) i w p /\ holding p = true).
Proof using Type.
  unfold thread_at. destruct (work !! i) as [[w|]|] eqn:Ew; [|right; by intros (? & ? & [[=] _] & _)..].
  destruct (is_phases st !! i) as [p|] eqn:Ep; [|right; by intros (? & ? & [_ [=]] & _)].
  destruct (holding p) eqn:Eh; [left; by exists w, p|right]. intros (w' & p' & [_ Hq] & Hh). injection Hq as <-. congruence.
Qed.

Lemma release_all T st (l : list nat) : insert_inv T st ->
  exists st' T', rtc step st st' /\ insert_inv T' st' /\
    forall j w q, thread_at work (is_phases st') j w q -> ended q \/ thread_at work (is_phases st) j w q /\ (j ∈ l -> holding q = false).
Proof using Hmax Hmr Hmf Hmf' Hwork.
  revert T st. induction l as [|i l IH]; intros T st I.
  { exists st, T. split; [done|]. split; [done|]. intros j w q Hj. right. split; [done|]. by intros ?%not_elem_of_nil. }
  assert (exists st1 T1, rtc step st st1 /\ insert_inv T1 st1 /\ forall j w q, thread_at work (is_phases st1) j w q ->
    ended q \/ thread_at work (is_phases st) j w q /\ (j = i -> holding q = false)) as (st1 & T1 & S1 & I1 & H1).
  { destruct (holder_dec st i) as [(w & p & Ht & Hp)|Hno].
    - destruct (holder_runs st i w p Ht Hp) as (st1 & g & H1). destruct (runs_inv _ _ _ _ _ I H1) as [T1 I1]. exists st1, T1. split; [apply H1|]. split; [done|].
      intros j w' q Hj. destruct (decide (j = i)) as [->|Hne].
      + left. destruct (thread_at_fun work _ _ _ _ _ _ (runs_at _ _ _ _ _ _ Ht H1) Hj) as [_ <-]. by exists g.
      + right. rewrite (runs_other _ _ _ _ _ _ _ H1 Hne) in Hj. done.
    - exists st, T. split; [done|]. split; [done|]. intros j w q Hj. right. split; [done|]. intros ->. destruct (holding q) eqn:E; [|done]. destruct Hno. by exists w, q. }
  destruct (IH T1 st1 I1) as (st2 & T2 & S2 & I2 & H2). exists st2, T2. split; [by etrans|]. split; [done|]. intros j w q Hj.
  destruct (H2 j w q Hj) as [?|[Hj1 Hl]]; [by left|]. destruct (H1 j w q Hj1) as [?|[Hj0 Hi]]; [by left|]. right. split; [done|].
  intros [->|Hin]%elem_of_cons; [by apply Hi|by apply Hl].
Qed.

Lemma escape_all T st (l : list nat) : insert_inv T st -> nobody_holds st ->
  exists st' T', rtc step st st' /\ insert_inv T' st' /\ forall j q, is_phases st' !! j = Some q -> ended q \/ is_phases st !! j = Some q /\ j ∉ l.
Proof using Hmax Hmr Hmf Hmf' Hwork.
  revert T st. induction l as [|i l IH]; intros T st I Hn.
  { exists st, T. split; [done|]. split; [done|]. intros j q Hj. right. split; [done|]. by intros ?%not_elem_of_nil. }
  assert ((forall q, is_phases st !! i = Some q -> ended q) \/ exists st1 p, ended p /\ runs i st p st1 /\ nobody_holds st1) as [Hend|(st1 & p & Hp & H1 & Hn1)].
  { destruct (work !! i) as [[w|]|] eqn:Hw.
    - destruct (is_phases st !! i) as [p|] eqn:Hph; [|by left]. assert (thread_at work (is_phases st) i w p) as Ht by done.
      destruct (free_escapes T st i w p I Hn Ht) as [Hd|(st1 & g & H1)]; [by left; intros q [= <-]|right]. exists st1, (IDone g). split; [by exists g|]. split; [done|].
      eapply runs_nobody; [exact Hn|by exists w, p| |exact H1]. done.
    - destruct (th_idle_phase v rs0 work _ _ i (ii_threads _ _ I) Hw) as [p Hph].
      destruct (th_idlers _ _ _ _ _ (ii_threads _ _ I) i p Hw Hph) as [->| ->]; [right|left; rewrite Hph; intros q [= <-]; by exists None].
      exists (set_phase st i (IDone None)), (IDone None). split; [by exists None|]. split; [eapply runs_step; [by eapply insert_none|done]|].
      intros j w q. cbn. rewrite thread_at_idle by done. apply Hn.
    - left. intros q Hq%lookup_lt_Some. apply lookup_ge_None in Hw. rewrite (th_length _ _ _ _ _ (ii_threads _ _ I)) in Hw. lia. }
  - destruct (IH T st I Hn) as (st2 & T2 & S2 & I2 & H2). exists st2, T2. split; [done|]. split; [done|]. intros j q Hj. destruct (H2 j q Hj) as [?|[H0 Hl]]; [by left|].
    destruct (decide (j = i)) as [->|Hne]; [left; by apply Hend|right]. split; [done|]. by intros [?|?]%elem_of_cons.
  - destruct (runs_inv _ _ _ _ _ I H1) as [T1 I1]. destruct (IH T1 st1 I1 Hn1) as (st2 & T2 & S2 & I2 & H2). exists st2, T2. split; [etrans; [apply H1|done]|]. split; [done|].
    intros j q Hj. destruct (H2 j q Hj) as [?|[H0 Hl]]; [by left|]. rewrite (proj2 H1) in H0. apply list_lookup_insert_Some in H0 as [(-> & <- & _)|[Hne H0]]; [by left|].
    right. split; [done|]. by intros [?|?]%elem_of_cons.
Qed.

Lemma drain_all st : exists st', rtc step st st' /\ so_pending (is_soa st') = [] /\ is_phases st' = is_phases st.
Proof using Type.
  remember (length (so_pending (is_soa st))) as n eqn:En. revert st En. induction n as [|n IH]; intros st En.
  - exists st. split; [done|]. split; [by destruct (so_pending (is_soa st))|done].
  - destruct (so_pending (is_soa st)) as [|x p] eqn:Ep; [done|]. injection En as En.
    destruct (IH (set_soa st (soa_landed (is_soa st) [] x p)) En) as (st' & H1 & H2 & H3). exists st'. split; [|done].
    eapply rtc_l; [by apply (insert_store v max_rows work st [] x p)|done].
Qed.

(** From every state of the kernel some continuation ends it. *)
Lemma insert_can_finish T st : insert_inv T st -> exists st', rtc step st st' /\ insert_finished st'.
Proof using Hmax Hmr Hmf Hmf' Hwork.
  intros I. set (l := seq 0 (length (is_phases st))). destruct (release_all T st l I) as (st1 & T1 & S1 & I1 & H1).
  assert (length (is_phases st1) = length (is_phases st)) as Hlen.
  { by rewrite <- (th_length _ _ _ _ _ (ii_threads _ _ I1)), <- (th_length _ _ _ _ _ (ii_threads _ _ I)). }
  assert (forall j q, is_phases st1 !! j = Some q -> j ∈ l) as Hl.
  { intros j q Hj%lookup_lt_Some. apply elem_of_seq. lia. }
  assert (nobody_holds st1) as Hn.
  { intros j w q Hj. destruct (H1 j w q Hj) as [[g ->]|[_ H]]; [done|]. apply H. eapply Hl, Hj. }
  destruct (escape_all T1 st1 l I1 Hn) as (st2 & T2 & S2 & I2 & H2). destruct (drain_all st2) as (st3 & S3 & Hp & Hph).
  exists st3. split; [etrans; [exact S1|by etrans]|]. split; [done|]. rewrite Hph. apply Forall_lookup. intros j q Hj.
  destruct (H2 j q Hj) as [?|[H0 Hnl]]; [done|]. by destruct Hnl; eapply Hl.
Qed.

End insertion.

End table.

Lemma empty_core purge bits max_rows : 0 <= bits -> 0 <= max_rows ->
  table_core purge bits max_rows [] (replicate (Z.to_nat (max_rows * ROW_WIDTH_ELEMS)) SENTINEL) 0 (empty_table bits).
Proof.
  intros Hb Hr. pose proof (Z.pow_pos_nonneg 2 bits ltac:(lia) Hb). unfold empty_table.
  assert (forall h b, replicate (Z.to_nat (2 ^ bits)) (mkBucket None []) !! h = Some b -> b = mkBucket None []) as He by (by intros h b [-> _]%lookup_replicate_1).
  constructor.
  - rewrite length_replicate. lia.
  - rewrite length_replicate. unfold ROW_WIDTH_ELEMS. lia.
  - done.
  - intros h b ->%He. cbn. split; [lia|done].
  - by intros h b r ->%He.
  - by intros h h' b b' r ->%He.
  - intros r H' k Hk. cbn [bk_entries]. rewrite (nth_overflow []) by (cbn; lia). apply lookup_replicate_2. unfold slot_of, ROW_WIDTH_ELEMS in *. lia.
  - intros h b x ->%He. by intros ?%not_elem_of_nil.
  - by intros h h' b b' k k' x ->%He.
Qed.

Lemma empty_repr purge bits max_rows : 0 <= bits -> 0 <= max_rows ->
  table_repr purge bits max_rows [] (replicate (Z.to_nat (2 ^ bits)) 0) (replicate (Z.to_nat (max_rows * ROW_WIDTH_ELEMS)) SENTINEL) 0 (empty_table bits).
Proof.
  intros Hb Hr. pose proof (Z.pow_pos_nonneg 2 bits ltac:(lia) Hb). constructor; [by apply empty_core| |done|rewrite length_replicate; lia].
  intros h b [-> Hh]%lookup_replicate_1. split; [by apply lookup_replicate_2|done].
Qed.

(** ** Properties *)

(** C24. From every state that the threads of [global_append_kernel] reach some continuation ends the kernel: the spin locks cannot deadlock; two threads
    are never in the critical section of one bucket. When it has ended, the batch of witnesses holds the old ones and relations of the threads, each
    once, and the memory stands for a table of them that extends the old one; a relation is missing only when the batch has no room for it, its entry
    only when its bucket is full or the rows are used up. *)
Theorem global_append_exact cleared bits max_rows v rs0 T0 work dir slabs rows overflow s st :
  max_rows <= 2 ^ 28 -> max_relations v + 1 < 2 ^ 32 -> 0 <= max_factors v -> max_factors v + 64 < 2 ^ 32 ->
  (forall i w, work !! i = Some (Some w) ->
     0 <= in_bucket w < 2 ^ bits /\ in_bucket w = lp_hash bits (r_lp (in_relation w)) /\ in_tag w = lp_tag bits (r_lp (in_relation w)) /\ r_len (in_relation w) <= 64) ->
  table_repr cleared bits max_rows rs0 dir slabs rows T0 -> soa_inv v rs0 s -> so_accepted s = [] ->
  rtc (insert_step v max_rows work) (insert_start s dir slabs rows overflow (length work)) st ->
  (exists st', rtc (insert_step v max_rows work) st st' /\ insert_finished st') /\
  (forall i j w w' p p', thread_at work (is_phases st) i w p -> thread_at work (is_phases st) j w' p' -> holding p = true -> holding p' = true ->
     in_bucket w = in_bucket w' -> i = j) /\
  (insert_finished st ->
     let W := stored rs0 (is_soa st) in
     exists T, repr (commit_dual_counter_kernel (so_dual (is_soa st)) (so_batch (is_soa st))) W /\
       table_repr cleared bits max_rows W (is_dir st) (is_slabs st) (is_rows st) T /\ grown T0 T /\
       (exists left, so_accepted (is_soa st) ++ left ≡ₚ map in_relation (omap id work) /\ Forall (no_room v rs0 (is_soa st)) left) /\
       (forall i w, work !! i = Some (Some w) ->
          no_room v rs0 (is_soa st) (in_relation w) \/
          exists g, Z.of_nat (length rs0) <= g /\ W !! Z.to_nat g = Some (in_relation w) /\ entered max_rows T (is_rows st) w g)).
Proof.
  intros H1 H2 H3 H4 Hw HT Hs Ha Hst.
  destruct (insert_steps_inv cleared bits max_rows v rs0 T0 work H1 H2 H3 H4 Hw T0 _ st (insert_start_inv _ _ _ _ _ _ _ _ _ _ overflow _ _ HT Hs Ha eq_refl) Hst) as [T I].
  split; [by eapply insert_can_finish|]. split.
  - intros i j w w' p p' Hi Hj Hp Hp' E. eapply (lk_excl _ _ _ _ _ _ _ _ _ _ _ (ii_locks _ _ _ _ _ _ _ _ _ I) i j w w' p p'); try done. by rewrite E.
  - intros Hf W. exists T. by eapply insert_finished_spec.
Qed.

Lemma ex_insertions i w : ex_work !! i = Some (Some w) ->
  0 <= in_bucket w < 2 ^ 3 /\ in_bucket w = lp_hash 3 (r_lp (in_relation w)) /\ in_tag w = lp_tag 3 (r_lp (in_relation w)) /\ r_len (in_relation w) <= 64.
Proof. destruct i as [|[|[|i]]]; cbn; intros H; try done; injection H as <-; split_and!; done. Qed.

Lemma global_append_exact_witness :
  exists st T, rtc (insert_step ex_view 8 ex_work) ex_insert_start st /\ insert_finished st /\
    so_accepted (is_soa st) ≡ₚ map in_relation (omap id ex_work) /\
    table_repr false 3 8 (so_accepted (is_soa st)) (is_dir st) (is_slabs st) (is_rows st) T.
Proof.
  assert (allocated ex_view ex_store /\ repr ex_store []) as [Ha Hr].
  { split; [intros []; by vm_compute|]. constructor; try (by apply prefix_nil); [by exists (replicate 4 7)|done|done]. }
  assert (soa_inv ex_view [] (mkSoa ex_store (pack_rf 0 0) [] [] 0)) as Hs by (by apply soa_start).
  pose proof (fun st (Hst : rtc (insert_step ex_view 8 ex_work) ex_insert_start st) => global_append_exact false 3 8 ex_view [] (empty_table 3) ex_work (replicate 8 0) (replicate 128 SENTINEL) 0 0 (mkSoa ex_store (pack_rf 0 0) [] [] 0) st
    ltac:(lia) ltac:(done) ltac:(done) ltac:(done) ex_insertions (empty_repr false 3 8 ltac:(lia) ltac:(lia)) Hs eq_refl Hst) as Hall.
  destruct (Hall ex_insert_start (rtc_refl _ _)) as [(st & Hst & Hf) _]. destruct (Hall st Hst) as (_ & _ & H). destruct (H Hf) as (T & _ & HT & _ & (left & Hp & Hl) & _).
  exists st, T. split; [exact Hst|]. split; [exact Hf|]. split; [|exact HT]. destruct left as [|r left]; [by rewrite app_nil_r in Hp|].
  apply Forall_cons in Hl as [Hl _]. pose proof (Permutation_length Hp) as Hlen. rewrite length_app in Hlen. cbn in Hlen. unfold no_room, stored in Hl. cbn [app] in Hl.
  assert (nfac (so_accepted (is_soa st) ++ r :: left) = 2) as Hn by (unfold nfac, all_factors; by rewrite Hp). rewrite nfac_app in Hn. unfold nfac in Hn at 2. cbn [all_factors map concat] in Hn.
  rewrite length_app in Hn. cbn in Hl. unfold r_len in Hl. lia.
Defined.
