(* ===== verification/LpProbe.v ===== *)
(** Probing the hash table of the large-prime variation ([directory_fetch_kernel] and [probe_hash_table_kernel] of
    [src/src/largeprimes/largeprime.cu]): what the threads find in a table that stands for some buckets, with the
    entries they match left in place or cleared by one of the threads. *)
From Stdlib Require Import ZArith Lia.
From stdpp Require Import base gmap sets list relations.
From S2P Require Import Prelude Soa Gf2 WarpAppend CpuLp LpKernels LpTable.
#[local] Open Scope Z_scope.

(** ** Vocabulary *)

Definition entry_tag (x : Z) : Z := wrap 32 (Z.shiftr x 32).

(** The index in the first entry of the bucket of [lp] with its tag. *)
Definition bucket_match (bits : Z) (T : list bucket) (lp : Z) : option Z :=
  b ← T !! Z.to_nat (lp_hash bits lp); snd <$> scan_row (lp_tag bits lp) 0 (bk_entries b).

(** Some entries have been cleared. *)
Definition bucket_cleared (b b' : bucket) : Prop := bk_row b' = bk_row b /\ Forall2 (fun x x' => x' = x \/ x' = 0) (bk_entries b) (bk_entries b').

(** Entry [k] of bucket [h] has been cleared. *)
Definition cleared_at (T : list bucket) (h k : nat) : Prop := exists b, T !! h = Some b /\ bk_entries b !! k = Some 0.

(** What a thread finds: the index of a witness, or nothing. *)
Definition found (p : probe_phase) : option Z := match p with PDone MATCH_FOUND g => g | _ => None end.

Section facts.
Context (purge : bool) (bits : Z) (T : list bucket).

(** A thread with large prime [lp], in phase [p], when the table has become [T']. *)
Definition thread_fact (T' : list bucket) (lp : Z) (p : probe_phase) : Prop :=
  let h := Z.to_nat (lp_hash bits lp) in
  let tag := lp_tag bits lp in
  exists b, T !! h = Some b /\
  match p with
  | PStart => True
  | PClaim slot g => purge = true /\ in_width 32 g /\ exists k x, slot = Z.of_nat k /\ bk_entries b !! k = Some x /\ (slab_payload tag g = x \/ slab_payload tag g = 0 /\ cleared_at T' h k)
  | PDone NEEDS_ALLOCATION None => bk_entries b = []
  | PDone MATCH_FOUND (Some g) => in_width 32 g /\ exists k x, bk_entries b !! k = Some x /\ (slab_payload tag g = x \/ slab_payload tag g = 0 /\ cleared_at T' h k) /\
      (if purge then cleared_at T' h k else bucket_match bits T lp = Some g)
  | PDone NEEDS_APPEND None => (forall x, x ∈ bk_entries b -> entry_tag x <> tag) \/
      purge = true /\ exists k x, bk_entries b !! k = Some x /\ entry_tag x = tag /\ x <> 0 /\ cleared_at T' h k
  | _ => False
  end.

End facts.

(** ** Rows and keys *)

Lemma scan_row_spec tag row k :
  match scan_row tag k row with
  | Some (s, m) => exists j x, row !! j = Some x /\ s = k + Z.of_nat j /\ entry_tag x = tag /\ m = wrap 32 x
  | None => forall x, x ∈ row -> entry_tag x <> tag
  end.
Proof.
  revert k. induction row as [|y row IH]; intros k; [by intros x ?%not_elem_of_nil|]. cbn [scan_row]. fold (entry_tag y). destruct (Z.eqb_spec (entry_tag y) tag) as [E|E].
  - exists 0%nat, y. split_and!; try done. lia.
  - specialize (IH (k + 1)). destruct (scan_row tag (k + 1) row) as [[s m]|].
    + destruct IH as (j & x & H1 & -> & H3 & H4). exists (S j), x. split_and!; try done. lia.
    + intros x [->|Hx]%elem_of_cons; [done|by apply IH].
Qed.

Lemma scan_row_app tag k r1 r2 : (forall x, x ∈ r2 -> entry_tag x <> tag) -> scan_row tag k (r1 ++ r2) = scan_row tag k r1.
Proof.
  intros H. revert k. induction r1 as [|y r1 IH]; intros k; cbn [app scan_row].
  - pose proof (scan_row_spec tag r2 k) as Hs. destruct (scan_row tag k r2) as [[s m]|]; [|done]. destruct Hs as (j & x & Hj & _ & Ht & _). by destruct (H x); [eapply list_elem_of_lookup_2|].
  - by destruct (_ =? tag).
Qed.

Lemma sentinel_tag : entry_tag SENTINEL = 2 ^ 32 - 1.
Proof. done. Qed.

Lemma cleared_refl b : bucket_cleared b b.
Proof. split; [done|]. apply Forall_Forall2_diag, Forall_true. by left. Qed.

Section probing.
Context (purge : bool) (bits max_rows : Z) (W : list relation) (dir slabs0 : list Z) (rows : Z) (T : list bucket) (lps : list Z).
Context (Hbits : 0 <= bits) (Hmax : max_rows <= 2 ^ 28) (HW : Z.of_nat (length W) < 2 ^ 32).
Context (HT : table_repr purge bits max_rows W dir slabs0 rows T).
Context (Hlps : forall i lp, lps !! i = Some lp -> lp_tag bits lp <> 2 ^ 32 - 1).

Notation keys := (map fst (directory_fetch_kernel bits dir lps)).
Notation core := (table_core purge bits max_rows W).

Lemma bucket_exists lp : exists b, T !! Z.to_nat (lp_hash bits lp) = Some b.
Proof using Hbits HT.
  pose proof (tc_size _ _ _ _ _ _ _ (tr_core _ _ _ _ _ _ _ _ HT)). pose proof (lp_hash_range bits lp Hbits). apply lookup_lt_is_Some_2. lia.
Qed.

(** What the probe reads from the key of a large prime. *)
Lemma key_spec lp b : T !! Z.to_nat (lp_hash bits lp) = Some b ->
  let key := (fetch_one bits dir lp).1 in
  key_tag key = lp_tag bits lp /\
  (bk_entries b = [] /\ key_status key = NEEDS_ALLOCATION \/ bk_entries b <> [] /\ key_status key = NEEDS_PROBE /\ bk_row b = Some (key_row key)).
Proof using Hmax HT.
  intros Hb key. destruct (tr_dir _ _ _ _ _ _ _ _ HT _ _ Hb) as [Hd Hc]. pose proof (core_word _ _ _ _ _ _ _ Hmax (tr_core _ _ _ _ _ _ _ _ HT) _ _ Hb) as (C1 & _ & C3).
  unfold key, fetch_one. assert (idx dir (lp_hash bits lp) = dir_word b) as -> by exact (nth_lookup_Some _ _ _ _ Hd). rewrite C1.
  assert (0 <= Z.land (dir_word b) 0xFFFFFFFF) as Hr by (apply Z.land_nonneg; by right).
  destruct (key_fields (if Z.of_nat (length (bk_entries b)) =? 0 then NEEDS_ALLOCATION else NEEDS_PROBE) _ (lp_tag bits lp) Hr (lp_tag_width _ _)) as (K1 & K2 & K3).
  cbn [fst]. split; [done|]. rewrite K1, K2. destruct (bk_entries b) as [|x l] eqn:E; [by left|right]. split; [done|]. split; [done|].
  destruct (bk_row b) as [r|] eqn:Er; [|by rewrite (proj2 Hc Er) in E]. destruct (C3 r eq_refl ltac:(done)) as [_ ->]. reflexivity.
Qed.

Lemma routing_key_at i lp : lps !! i = Some lp -> keys !! i = Some (fetch_one bits dir lp).1.
Proof using Type. intros H. unfold directory_fetch_kernel. change map with (@fmap list _). by rewrite !list_lookup_fmap, H. Qed.

Lemma key_inv i key : keys !! i = Some key -> exists lp, lps !! i = Some lp /\ key = (fetch_one bits dir lp).1.
Proof using Type.
  unfold directory_fetch_kernel. change map with (@fmap list _). rewrite !list_lookup_fmap. destruct (lps !! i) as [lp|]; [|intros [=]]. intros H. exists lp. split; [reflexivity|]. exact (f_equal (default 0) (eq_sym H)).
Qed.

(** An entry of the table is the payload of its fields. *)
Lemma entry_payload slabs T' h b x : core slabs rows T' -> T' !! h = Some b -> x ∈ bk_entries b -> slab_payload (entry_tag x) (wrap 32 x) = x.
Proof using HW.
  intros C Hb Hx. destruct (tc_entries _ _ _ _ _ _ _ C h b x Hb Hx) as [[_ ->]|(g & w & H1 & H2%lookup_lt_Some & _ & ->)]; [done|].
  destruct (payload_fields (lp_tag bits (r_lp w)) g) as [E1 E2]; [apply lp_tag_width|unfold in_width; lia|]. unfold entry_tag. by rewrite E1, E2.
Qed.

(** Clearing one entry. *)
Lemma core_clear slabs T' h b r k x :
  core slabs rows T' -> purge = true -> T' !! h = Some b -> bk_row b = Some r -> bk_entries b !! k = Some x ->
  core (<[slot_of r (Z.of_nat k) := 0]> slabs) rows (<[h := mkBucket (Some r) (<[k := 0]> (bk_entries b))]> T').
Proof using Type.
  clear Hbits Hmax HW HT Hlps. intros C Hp Hb Hr Hk. destruct (tc_row _ _ _ _ _ _ _ C h b r Hb Hr) as (R1 & R2 & R3). destruct C as [C1 C2 C3 C4 C5 C6 C7 C8 C9].
  pose proof (lookup_lt_Some _ _ _ Hk) as Hkl. destruct (C4 h b Hb) as [Hw Hn]. constructor.
  - by rewrite length_insert.
  - by rewrite length_insert.
  - done.
  - intros h' b'. rewrite list_lookup_insert_Some. intros [(<- & <- & _)|[_ H]]; [cbn; by rewrite length_insert|by eapply C4].
  - intros h' b' r'. rewrite list_lookup_insert_Some. intros [(<- & <- & _)|[Hne H]]; cbn.
    + intros [= <-]. split_and!; [lia..|]. intros j Hj. destruct (decide (j = Z.of_nat k)) as [->|Hnj].
      * rewrite list_lookup_insert_eq by (eapply lookup_lt_Some; by apply R3). rewrite Nat2Z.id. f_equal. symmetry. apply nth_lookup_Some. by apply list_lookup_insert_eq.
      * rewrite list_lookup_insert_ne by (intros E; apply slot_inj in E as [_ ?]; unfold ROW_WIDTH_ELEMS in *; lia). rewrite R3 by done. f_equal.
        rewrite !nth_lookup, list_lookup_insert_ne by lia. done.
    + intros Hb'. destruct (C5 h' b' r' H Hb') as (? & ? & ?). split_and!; try lia. apply row_holds_other; try lia; [unfold ROW_WIDTH_ELEMS; lia| |done].
      intros ->. apply Hne. by eapply C6.
  - intros h1 h2 b1 b2 r'. rewrite !list_lookup_insert_Some. intros [(<- & <- & _)|[N1 H1]] [(<- & <- & _)|[N2 H2]]; cbn; [done| | |by eapply C6].
    + intros [= <-] Hb2. by eapply (C6 h h2).
    + intros Hb1 [= <-]. by eapply (C6 h1 h).
  - intros r' Hr'. apply row_holds_other; [lia|unfold ROW_WIDTH_ELEMS; lia|lia|lia|by apply C7].
  - intros h' b' y. rewrite list_lookup_insert_Some. intros [(<- & <- & _)|[_ H]]; [|by eapply C8]. cbn.
    intros [j Hj]%list_elem_of_lookup. apply list_lookup_insert_Some in Hj as [(_ & <- & _)|[_ Hj]]; [by left|]. eapply C8; [done|]. by eapply list_elem_of_lookup_2.
  - assert (forall j y, <[k := 0]> (bk_entries b) !! j = Some y -> y <> 0 -> bk_entries b !! j = Some y) as Ha.
    { intros j y Hj Hy. by apply list_lookup_insert_Some in Hj as [(_ & <- & _)|[_ Hj]]. }
    intros h1 h2 b1 b2 k1 k2 y. rewrite !list_lookup_insert_Some. intros [(<- & <- & _)|[N1 H1]] [(<- & <- & _)|[N2 H2]]; cbn; intros E1 E2 Hy; eauto.
Qed.

Record probe_inv (T' : list bucket) (st : list Z * list probe_phase) : Prop := mkProbeInv {
  pi_core : core st.1 rows T';
  pi_cleared : Forall2 bucket_cleared T T';
  pi_keep : purge = false -> T' = T /\ st.1 = slabs0;
  pi_length : length st.2 = length lps;
  pi_facts : forall i lp p, lps !! i = Some lp -> st.2 !! i = Some p -> thread_fact purge bits T T' lp p;
  pi_once : forall i j lp lp' g, purge = true -> lps !! i = Some lp -> lps !! j = Some lp' -> st.2 !! i = Some (PDone MATCH_FOUND (Some g)) ->
    st.2 !! j = Some (PDone MATCH_FOUND (Some g)) -> slab_payload (lp_tag bits lp) g = slab_payload (lp_tag bits lp') g -> slab_payload (lp_tag bits lp) g <> 0 -> i = j;
  pi_claimed : forall h k b x, T !! h = Some b -> bk_entries b !! k = Some x -> x <> 0 -> cleared_at T' h k ->
    exists i lp g, lps !! i = Some lp /\ Z.to_nat (lp_hash bits lp) = h /\ st.2 !! i = Some (PDone MATCH_FOUND (Some g)) /\ slab_payload (lp_tag bits lp) g = x
}.

Lemma cleared_bucket T' h b : Forall2 bucket_cleared T T' -> T !! h = Some b -> exists b', T' !! h = Some b' /\ bucket_cleared b b'.
Proof using Type. intros HF Hb. by apply (Forall2_lookup_l _ _ _ _ _ HF Hb). Qed.

(** What a thread sees of a row: each entry as it was or as it is, and 0xFF behind the entries. *)
Lemma seen_row T' slabs b b' h r obs j x :
  core slabs rows T' -> T !! h = Some b -> T' !! h = Some b' -> bucket_cleared b b' -> bk_row b = Some r -> sees_row slabs0 slabs r obs -> obs !! j = Some x ->
  x = SENTINEL /\ (length (bk_entries b) <= j)%nat \/ exists x0, bk_entries b !! j = Some x0 /\ (x = x0 \/ x = 0 /\ cleared_at T' h j).
Proof using HT.
  intros C Hb Hb' [Er Ef] Hr [Hlen Hobs] Hj. pose proof (tc_row _ _ _ _ _ _ _ (tr_core _ _ _ _ _ _ _ _ HT) h b r Hb Hr) as (_ & _ & H0).
  pose proof (tc_row _ _ _ _ _ _ _ C h b' r Hb' ltac:(by rewrite Er)) as (_ & _ & H1). pose proof (lookup_lt_Some _ _ _ Hj) as Hjl.
  specialize (H0 (Z.of_nat j) ltac:(lia)). specialize (H1 (Z.of_nat j) ltac:(lia)). rewrite Nat2Z.id in *. pose proof (Forall2_length _ _ _ Ef) as El.
  destruct (bk_entries b !! j) as [x0|] eqn:E0.
  - right. exists x0. split; [done|]. destruct (Forall2_lookup_l _ _ _ _ _ Ef E0) as (x1 & E1 & Hx).
    rewrite (nth_lookup_Some _ _ _ _ E0) in H0. rewrite (nth_lookup_Some _ _ _ _ E1) in H1. destruct (Hobs j x Hj) as [Ho|Ho].
    + left. congruence.
    + rewrite H1 in Ho. injection Ho as <-. destruct Hx as [->| ->]; [by left|right]. split; [done|]. by exists b'.
  - apply lookup_ge_None in E0. rewrite nth_overflow in H0 by done. rewrite nth_overflow in H1 by lia. left. split; [|done]. destruct (Hobs j x Hj); congruence.
Qed.

Lemma thread_fact_mono T1 T2 lp p : (forall h k, cleared_at T1 h k -> cleared_at T2 h k) -> thread_fact purge bits T T1 lp p -> thread_fact purge bits T T2 lp p.
Proof using Type.
  clear Hbits Hmax HW HT Hlps. intros HI (b & Hb & H). exists b. split; [done|]. destruct p as [|slot g|[] [g|]]; try done.
  - destruct H as (Hp & Hg & k & x & -> & Hk & [?|[? ?]]); (split; [done|]); (split; [done|]); exists k, x; split_and!; try done; [by left|right; eauto].
  - destruct H as (Hg & k & x & Hk & Hx & Hc). split; [done|]. exists k, x. split; [done|]. split; [destruct Hx as [?|[? ?]]; [by left|right; eauto]|]. destruct purge; [by apply HI|done].
  - destruct H as [?|(? & k & x & H1 & H2 & H3 & H4)]; [by left|right]. split; [done|]. exists k, x. eauto.
Qed.

(** A thread changes its phase, the table stays. *)
Lemma probe_change T' slabs ph i lp p0 p :
  probe_inv T' (slabs, ph) -> lps !! i = Some lp -> ph !! i = Some p0 -> (forall g, p0 <> PDone MATCH_FOUND (Some g)) ->
  thread_fact purge bits T T' lp p -> (purge = true -> forall g, p <> PDone MATCH_FOUND (Some g)) -> probe_inv T' (slabs, <[i := p]> ph).
Proof using Type.
  intros [I1 I2 I3 I4 I5 I6 I7] Hi Hp0 Hn0 Hf Hn. cbn [fst snd] in *. constructor; cbn [fst snd]; try done.
  - by rewrite length_insert.
  - intros j lp' q Hj. rewrite list_lookup_insert_Some. intros [(<- & <- & _)|[_ Hq]]; [by assert (lp' = lp) as -> by congruence|by eapply I5].
  - intros j k lp1 lp2 g Hpu Hj Hk. rewrite !list_lookup_insert_Some. intros [(_ & E & _)|[_ H1]]; [by destruct (Hn Hpu g)|].
    intros [(_ & E & _)|[_ H2]]; [by destruct (Hn Hpu g)|]. by eapply I6.
  - intros h k b x Hb Hk Hx Hc. destruct (I7 h k b x Hb Hk Hx Hc) as (j & lp' & g & H1 & H2 & H3 & H4). exists j, lp', g. split_and!; try done.
    rewrite list_lookup_insert_ne; [done|]. intros ->. by destruct (Hn0 g); congruence.
Qed.

(** A thread that finds no entry with its tag. *)
Lemma miss_fact T' slabs lp b r obs :
  core slabs rows T' -> Forall2 bucket_cleared T T' -> (purge = false -> T' = T) -> T !! Z.to_nat (lp_hash bits lp) = Some b -> bk_row b = Some r ->
  sees_row slabs0 slabs r obs -> scan_row (lp_tag bits lp) 0 obs = None -> thread_fact purge bits T T' lp (PDone NEEDS_APPEND None).
Proof using HT.
  intros C HF Hk Hb Hr Hobs Hs. exists b. split; [done|]. pose proof (scan_row_spec (lp_tag bits lp) obs 0) as Hno. rewrite Hs in Hno.
  pose proof (scan_row_spec (lp_tag bits lp) (bk_entries b) 0) as Hsc. destruct (scan_row (lp_tag bits lp) 0 (bk_entries b)) as [[s m]|]; [|by left].
  destruct Hsc as (j & x0 & Hj & _ & Ht & _). destruct (cleared_bucket T' _ b HF Hb) as (b' & Hb' & Hcl).
  destruct (tc_width _ _ _ _ _ _ _ (tr_core _ _ _ _ _ _ _ _ HT) _ _ Hb) as [Hw _]. pose proof (lookup_lt_Some _ _ _ Hj) as Hjl.
  destruct (lookup_lt_is_Some_2 obs j) as [x Hx]; [pose proof (proj1 Hobs) as Hl; unfold ROW_WIDTH_ELEMS in Hl; lia|].
  assert (entry_tag x <> lp_tag bits lp) as Hxt by (apply Hno; by eapply list_elem_of_lookup_2).
  destruct (seen_row T' slabs b b' _ r obs j x C Hb Hb' Hcl Hr Hobs Hx) as [[_ ?]|(x1 & E1 & H)]; [lia|]. rewrite Hj in E1. injection E1 as <-.
  destruct H as [->|[-> Hc]]; [done|]. right. assert (x0 <> 0) as Hx0 by (intros ->; done). assert (exists p, p = purge) as [p Ep] by by eexists. rewrite <- Ep. destruct p.
  - split; [done|]. by exists j, x0.
  - specialize (Hk (eq_sym Ep)). subst T'. destruct Hc as (b2 & Hb2 & Hj2). rewrite Hb in Hb2. injection Hb2 as <-. rewrite Hj in Hj2. by injection Hj2.
Qed.

(** A thread that sees an entry with its tag. *)
Lemma hit_fact T' slabs lp b r obs slot g i :
  core slabs rows T' -> Forall2 bucket_cleared T T' -> (purge = false -> T' = T) -> lps !! i = Some lp -> T !! Z.to_nat (lp_hash bits lp) = Some b -> bk_row b = Some r ->
  sees_row slabs0 slabs r obs -> scan_row (lp_tag bits lp) 0 obs = Some (slot, g) ->
  thread_fact purge bits T T' lp (if purge then PClaim slot g else PDone MATCH_FOUND (Some g)).
Proof using HT HW Hlps.
  intros C HF Hk Hi Hb Hr Hobs Hs. pose proof (scan_row_spec (lp_tag bits lp) obs 0) as Hsc. rewrite Hs in Hsc. destruct Hsc as (j & x & Hx & Es & Ht & Eg).
  destruct (cleared_bucket T' _ b HF Hb) as (b' & Hb' & Hcl). destruct (seen_row T' slabs b b' _ r obs j x C Hb Hb' Hcl Hr Hobs Hx) as [[-> _]|(x0 & E0 & H)].
  { destruct (Hlps i lp Hi). by rewrite <- Ht. }
  assert (slab_payload (lp_tag bits lp) g = x0 \/ slab_payload (lp_tag bits lp) g = 0 /\ cleared_at T' (Z.to_nat (lp_hash bits lp)) j) as Hpay.
  { rewrite <- Ht, Eg. destruct H as [->|[-> Hc]]; [left|by right]. eapply entry_payload; [apply HT|exact Hb|]. by eapply list_elem_of_lookup_2. }
  exists b. split; [done|]. assert (in_width 32 g) as Hg by (subst g; apply wrap_range; lia). assert (exists p, p = purge) as [p Ep] by by eexists. rewrite <- Ep. destruct p.
  - split; [done|]. split; [done|]. exists j, x0. split_and!; [lia|done|done].
  - split; [done|]. exists j, x0. split; [done|]. split; [done|]. specialize (Hk (eq_sym Ep)). subst T'. unfold bucket_match. rewrite Hb. cbn [mbind option_bind].
    assert (obs = bk_entries b ++ drop (length (bk_entries b)) obs) as Eobs.
    { rewrite <- (take_drop (length (bk_entries b)) obs) at 1. f_equal. apply list_eq. intros m.
      destruct (Nat.lt_ge_cases m (length (bk_entries b))) as [Hm|Hm].
      - rewrite lookup_take_lt by done. destruct (tc_width _ _ _ _ _ _ _ (tr_core _ _ _ _ _ _ _ _ HT) _ _ Hb) as [Hw _].
        destruct (lookup_lt_is_Some_2 obs m) as [y Hy]; [pose proof (proj1 Hobs) as Hl; unfold ROW_WIDTH_ELEMS in Hl; lia|]. rewrite Hy.
        destruct (seen_row T slabs b b' _ r obs m y C Hb Hb' Hcl Hr Hobs Hy) as [[_ ?]|(y0 & E1 & [->|[-> Hc]])]; [lia|done|].
        destruct Hc as (b2 & Hb2 & Hm2). rewrite Hb in Hb2. by injection Hb2 as <-.
      - rewrite lookup_take_ge, lookup_ge_None_2 by done. done. }
    rewrite Eobs, scan_row_app in Hs; [by rewrite Hs|]. intros y [m Hm]%list_elem_of_lookup. rewrite lookup_drop in Hm.
    destruct (seen_row T slabs b b' _ r obs _ y C Hb Hb' Hcl Hr Hobs Hm) as [[-> _]|(y0 & E1%lookup_lt_Some & _)]; [|lia]. rewrite sentinel_tag. by apply not_eq_sym, (Hlps i).
Qed.

(** The entry a claiming thread exchanges. *)
Lemma claim_slot T' slabs lp b r k x :
  core slabs rows T' -> Forall2 bucket_cleared T T' -> T !! Z.to_nat (lp_hash bits lp) = Some b -> bk_row b = Some r -> bk_entries b !! k = Some x ->
  exists b' y, T' !! Z.to_nat (lp_hash bits lp) = Some b' /\ bk_row b' = Some r /\ bk_entries b' !! k = Some y /\ (y = x \/ y = 0) /\ slabs !! slot_of r (Z.of_nat k) = Some y.
Proof using HT.
  intros C HF Hb Hr Hk. destruct (cleared_bucket T' _ b HF Hb) as (b' & Hb' & Er & Ef). destruct (Forall2_lookup_l _ _ _ _ _ Ef Hk) as (y & Hy & Hxy).
  pose proof (tc_row _ _ _ _ _ _ _ C _ b' r Hb' ltac:(by rewrite Er)) as (_ & _ & H1). destruct (tc_width _ _ _ _ _ _ _ C _ _ Hb') as [Hw _]. pose proof (lookup_lt_Some _ _ _ Hy).
  specialize (H1 (Z.of_nat k) ltac:(unfold ROW_WIDTH_ELEMS; lia)). rewrite Nat2Z.id, (nth_lookup_Some _ _ _ _ Hy) in H1. exists b', y. by rewrite Er.
Qed.

Lemma cleared_at_insert T' h k r b h' k' : T' !! h = Some b ->
  cleared_at (<[h := mkBucket r (<[k := 0]> (bk_entries b))]> T') h' k' -> h' = h /\ k' = k \/ cleared_at T' h' k'.
Proof using Type.
  intros Hb (b2 & H2 & Hk). apply list_lookup_insert_Some in H2 as [(<- & <- & _)|[_ H2]]; [|right; by exists b2]. cbn in Hk.
  apply list_lookup_insert_Some in Hk as [(<- & _ & _)|[_ Hk]]; [by left|right]. by exists b.
Qed.

Lemma cleared_at_keep T' h k r b h' k' : T' !! h = Some b ->
  cleared_at T' h' k' -> cleared_at (<[h := mkBucket r (<[k := 0]> (bk_entries b))]> T') h' k'.
Proof using Type.
  intros Hb (b2 & H2 & Hk). destruct (decide (h' = h)) as [->|Hne].
  - rewrite Hb in H2. injection H2 as <-. eexists. split; [apply list_lookup_insert_eq; by eapply lookup_lt_Some|]. cbn.
    destruct (decide (k' = k)) as [->|Hnk]; [apply list_lookup_insert_eq; by eapply lookup_lt_Some|by rewrite list_lookup_insert_ne].
  - exists b2. by rewrite list_lookup_insert_ne.
Qed.

Lemma claim_inv T' slabs ph i lp b r k x g :
  probe_inv T' (slabs, ph) -> lps !! i = Some lp -> ph !! i = Some (PClaim (Z.of_nat k) g) -> purge = true -> T !! Z.to_nat (lp_hash bits lp) = Some b ->
  bk_row b = Some r -> bk_entries b !! k = Some x -> in_width 32 g ->
  (slab_payload (lp_tag bits lp) g = x \/ slab_payload (lp_tag bits lp) g = 0 /\ cleared_at T' (Z.to_nat (lp_hash bits lp)) k) ->
  slabs !! slot_of r (Z.of_nat k) = Some (slab_payload (lp_tag bits lp) g) ->
  exists T'', probe_inv T'' (<[slot_of r (Z.of_nat k) := 0]> slabs, <[i := PDone MATCH_FOUND (Some g)]> ph).
Proof using HT.
  intros [I1 I2 I3 I4 I5 I6 I7] Hi Hph Hp Hb Hr Hk Hg Hx Hs. cbn [fst snd] in *. set (h := Z.to_nat (lp_hash bits lp)) in *.
  destruct (claim_slot T' slabs lp b r k x I1 I2 Hb Hr Hk) as (b' & y & Hb' & Hr' & Hy & Hyx & Hsy). fold h in Hb'. rewrite Hs in Hsy. injection Hsy as Ey.
  set (T2 := <[h := mkBucket (Some r) (<[k := 0]> (bk_entries b'))]> T'). assert (cleared_at T2 h k) as Hc2.
  { eexists. split; [apply list_lookup_insert_eq; by eapply lookup_lt_Some|]. apply list_lookup_insert_eq. by eapply lookup_lt_Some. }
  assert (forall h' k', cleared_at T' h' k' -> cleared_at T2 h' k') as Hmono by (intros h' k'; by apply cleared_at_keep).
  assert (forall j lp', lps !! j = Some lp' -> ph !! j = Some (PDone MATCH_FOUND (Some g)) -> slab_payload (lp_tag bits lp') g = slab_payload (lp_tag bits lp) g ->
    slab_payload (lp_tag bits lp) g = 0) as Huniq.
  { intros j lp' Hj Hpj Epay. destruct (decide (slab_payload (lp_tag bits lp) g = 0)) as [|Hnz]; [done|exfalso]. destruct (I5 j lp' _ Hj Hpj) as (bj & Hbj & _ & kj & xj & Hkj & Hxj & Hcj).
    rewrite Hp in Hcj. destruct Hx as [Hx|[? _]]; [|done]. destruct Hxj as [Hxj|[Hxj _]]; [|congruence].
    destruct (tc_unique _ _ _ _ _ _ _ (tr_core _ _ _ _ _ _ _ _ HT) h _ b bj k kj x Hb Hbj Hk) as [Eh ->]; [congruence|congruence|].
    rewrite <- Eh in Hcj. destruct Hcj as (b3 & Hb3 & Hk3). rewrite Hb' in Hb3. injection Hb3 as <-. rewrite Hy in Hk3. injection Hk3 as ->. done. }
  exists T2. constructor; cbn [fst snd].
  - by eapply core_clear.
  - apply Forall2_same_length_lookup. pose proof (Forall2_length _ _ _ I2) as El. unfold T2. split; [by rewrite length_insert|]. intros m bm bm' Hm Hm'.
    apply list_lookup_insert_Some in Hm' as [(<- & <- & _)|[Hne Hm']]; [|by eapply (Forall2_lookup_lr _ _ _ _ _ _ I2)]. fold h in Hb. rewrite Hb in Hm. injection Hm as <-.
    pose proof (Forall2_lookup_lr _ _ _ _ _ _ I2 Hb Hb') as [Er Ef]. split; [by rewrite Hr|]. cbn. apply Forall2_same_length_lookup. pose proof (Forall2_length _ _ _ Ef) as El2.
    split; [by rewrite length_insert|]. intros q z z' Hz Hz'. apply list_lookup_insert_Some in Hz' as [(_ & <- & _)|[_ Hz']]; [by right|by eapply (Forall2_lookup_lr _ _ _ _ _ _ Ef)].
  - intros E. by rewrite Hp in E.
  - by rewrite length_insert.
  - intros j lp' q Hj. rewrite list_lookup_insert_Some. intros [(<- & <- & _)|[_ Hq]].
    + assert (lp' = lp) as -> by congruence. exists b. split; [done|]. split; [done|]. exists k, x. split; [done|]. split; [|by rewrite Hp].
      destruct Hx as [?|[? Hc]]; [by left|right]. split; [done|]. by apply Hmono.
    + eapply thread_fact_mono; [exact Hmono|by eapply I5].
  - intros j m lp1 lp2 g' Hpu Hj Hm. rewrite !list_lookup_insert_Some. intros [(<- & E1 & _)|[N1 H1]] [(<- & E2 & _)|[N2 H2]] Epay Hnz.
    + done.
    + injection E1 as <-. assert (lp1 = lp) as -> by congruence. by destruct Hnz; eapply (Huniq m lp2).
    + injection E2 as <-. assert (lp2 = lp) as -> by congruence. destruct Hnz. rewrite Epay. by eapply (Huniq j lp1).
    + by eapply I6.
  - intros h' k' b0 x0 Hb0 Hk0 Hx0 Hc. assert (h' = h /\ k' = k /\ slab_payload (lp_tag bits lp) g = x0 \/ cleared_at T' h' k') as [(-> & -> & Ex)|Hc'].
    { apply (cleared_at_insert _ _ _ _ _ _ _ Hb') in Hc as [[-> ->]|Hc]; [|by right]. fold h in Hb. rewrite Hb in Hb0. injection Hb0 as <-. rewrite Hk in Hk0. injection Hk0 as <-.
      destruct Hx as [?|[_ Hc]]; [by left|by right]. }
    + exists i, lp, g. split_and!; try done. apply list_lookup_insert_eq. by eapply lookup_lt_Some.
    + destruct (I7 h' k' b0 x0 Hb0 Hk0 Hx0 Hc') as (j & lp' & g' & H1 & H2 & H3 & H4). exists j, lp', g'. split_and!; try done.
      rewrite list_lookup_insert_ne; [done|]. intros ->. congruence.
Qed.

Lemma lost_fact T' slabs lp b r k x g y :
  core slabs rows T' -> Forall2 bucket_cleared T T' -> purge = true -> T !! Z.to_nat (lp_hash bits lp) = Some b -> bk_row b = Some r -> bk_entries b !! k = Some x ->
  in_width 32 g -> (slab_payload (lp_tag bits lp) g = x \/ slab_payload (lp_tag bits lp) g = 0 /\ cleared_at T' (Z.to_nat (lp_hash bits lp)) k) ->
  slabs !! slot_of r (Z.of_nat k) = Some y -> y <> slab_payload (lp_tag bits lp) g -> thread_fact purge bits T T' lp (PDone NEEDS_APPEND None).
Proof using HT.
  intros C HF Hp Hb Hr Hk Hg Hx Hs Hne. destruct (claim_slot T' slabs lp b r k x C HF Hb Hr Hk) as (b' & y' & Hb' & _ & Hy & Hyx & Hsy). rewrite Hs in Hsy. injection Hsy as <-.
  exists b. split; [done|]. right. split; [done|]. destruct Hx as [Hx|[Hx (b2 & Hb2 & Hk2)]].
  - exists k, x. split; [done|]. split; [rewrite <- Hx; by apply payload_fields; [apply lp_tag_width|]|]. destruct Hyx as [->| ->]; [congruence|].
    split; [congruence|]. by exists b'.
  - rewrite Hb' in Hb2. injection Hb2 as <-. rewrite Hy in Hk2. injection Hk2 as ->. congruence.
Qed.

Lemma probe_step_inv T' st st' : probe_inv T' st -> probe_step purge slabs0 keys st st' -> exists T'', probe_inv T'' st'.
Proof using HT HW Hlps Hbits Hmax.
  intros I Hs. destruct Hs as [slabs ph i key Hkey Hph Hst|slabs ph i key obs Hkey Hph Hst Hobs Hsc|slabs ph i key obs slot g Hkey Hph Hst Hobs Hsc
    |slabs ph i key slot g Hkey Hph Hsl|slabs ph i key slot g x Hkey Hph Hsl Hne];
    destruct (key_inv i key Hkey) as (lp & Hi & ->); destruct (bucket_exists lp) as [b Hb]; destruct (key_spec lp b Hb) as [Ktag K];
    pose proof (pi_core _ _ I) as C; pose proof (pi_cleared _ _ I) as HF; cbn [fst snd] in *.
  - exists T'. destruct K as [[He Ks]|(_ & Ks & _)]; [|congruence]. rewrite Ks. eapply probe_change; try done. by exists b.
  - exists T'. destruct K as [[_ Ks]|(_ & _ & Hr)]; [congruence|]. eapply probe_change; try done. rewrite Ktag in Hsc.
    eapply miss_fact; try done. intros Hp. by apply (pi_keep _ _ I).
  - exists T'. destruct K as [[_ Ks]|(_ & _ & Hr)]; [congruence|]. rewrite Ktag in Hsc. eapply probe_change; try done.
    + eapply hit_fact; try done. intros Hp. by apply (pi_keep _ _ I).
    + intros -> g' [=].
  - destruct (pi_facts _ _ I i lp _ Hi Hph) as (b2 & Hb2 & Hp & Hg & k & x & -> & Hk & Hx). rewrite Hb in Hb2. injection Hb2 as <-.
    destruct K as [[He _]|(_ & _ & Hr)]; [by rewrite He in Hk|]. rewrite Ktag in Hsl. by eapply claim_inv.
  - exists T'. destruct (pi_facts _ _ I i lp _ Hi Hph) as (b2 & Hb2 & Hp & Hg & k & x0 & -> & Hk & Hx). rewrite Hb in Hb2. injection Hb2 as <-.
    destruct K as [[He _]|(_ & _ & Hr)]; [by rewrite He in Hk|]. rewrite Ktag in Hne. eapply probe_change; try done. by eapply lost_fact.
Qed.

Notation step := (probe_step purge slabs0 keys).

Lemma probe_steps_inv T' st st' : probe_inv T' st -> rtc step st st' -> exists T'', probe_inv T'' st'.
Proof using HT HW Hlps Hbits Hmax.
  intros I Hs. revert T' I. induction Hs as [st|st st1 st2 H12 _ IH]; intros T' I; [by exists T'|]. destruct (probe_step_inv T' st st1 I H12) as [T'' I']. by eapply IH.
Qed.

Lemma probe_start_inv : probe_inv T (slabs0, replicate (length lps) PStart).
Proof using HT Hbits.
  assert (forall i p, replicate (length lps) PStart !! i = Some p -> p = PStart) as Hr by (by intros i p [? _]%lookup_replicate_1).
  constructor; cbn [fst snd].
  - apply HT.
  - apply Forall_Forall2_diag, Forall_forall. intros b _. apply cleared_refl.
  - done.
  - by rewrite length_replicate.
  - intros i lp p Hi ->%Hr. destruct (bucket_exists lp) as [b Hb]. by exists b.
  - by intros i j lp lp' g _ _ _ ?%Hr.
  - intros h k b x Hb Hk Hx (b' & Hb' & Hk'). rewrite Hb in Hb'. injection Hb' as <-. rewrite Hk in Hk'. by injection Hk'.
Qed.

(** A row of the table is seen by a thread that reads it now. *)
Lemma row_seen T' slabs lp b r : core slabs rows T' -> Forall2 bucket_cleared T T' ->
  T !! Z.to_nat (lp_hash bits lp) = Some b -> bk_row b = Some r -> exists obs, sees_row slabs0 slabs r obs.
Proof using HT.
  intros C HF Hb Hr. destruct (cleared_bucket T' _ b HF Hb) as (b' & Hb' & Er & _). pose proof (tc_row _ _ _ _ _ _ _ C _ b' r Hb' ltac:(by rewrite Er)) as (_ & _ & H1).
  exists (map (fun k => nth k (bk_entries b') SENTINEL) (seq 0 16)). split; [done|]. intros k x Hk. right.
  change map with (@fmap list _) in Hk. rewrite list_lookup_fmap in Hk. destruct (seq 0 16 !! k) as [k'|] eqn:E; [|done]. apply lookup_seq in E as [-> Hlt]. injection Hk as <-.
  cbn [Nat.add]. specialize (H1 (Z.of_nat k) ltac:(unfold ROW_WIDTH_ELEMS; lia)). by rewrite Nat2Z.id in H1.
Qed.

Lemma thread_ends T' slabs ph i : probe_inv T' (slabs, ph) -> (i < length ph)%nat ->
  exists slabs' p, rtc step (slabs, ph) (slabs', <[i := p]> ph) /\ probe_done p.
Proof using HT HW Hlps Hbits Hmax.
  intros I Hi. destruct (lookup_lt_is_Some_2 ph i Hi) as [p0 Hp0]. destruct (lookup_lt_is_Some_2 lps i) as [lp Hlp]; [pose proof (pi_length _ _ I) as Hl; cbn in Hl; lia|].
  assert (forall slabs1 slot g, ph !! i = Some (PClaim slot g) \/ rtc step (slabs, ph) (slabs1, <[i := PClaim slot g]> ph) -> (ph !! i = Some (PClaim slot g) -> slabs1 = slabs) ->
    exists slabs' p, rtc step (slabs, ph) (slabs', <[i := p]> ph) /\ probe_done p) as Hclaim.
  { intros slabs1 slot g Hst Hsl. assert (rtc step (slabs, ph) (slabs1, <[i := PClaim slot g]> ph)) as Hrun.
    { destruct Hst as [Hc|]; [|done]. rewrite (Hsl Hc), list_insert_id by done. done. }
    destruct (probe_steps_inv T' _ _ I Hrun) as [T1 I1]. assert (<[i := PClaim slot g]> ph !! i = Some (PClaim slot g)) as Hpi by (by apply list_lookup_insert_eq).
    destruct (pi_facts _ _ I1 i lp _ Hlp Hpi) as (b & Hb & Hp & Hg & k & x & -> & Hk & Hx). destruct (key_spec lp b Hb) as [Ktag [[He _]|(_ & _ & Hr)]]; [by rewrite He in Hk|].
    destruct (claim_slot T1 slabs1 lp b _ k x (pi_core _ _ I1) (pi_cleared _ _ I1) Hb Hr Hk) as (b' & y & _ & _ & _ & _ & Hy).
    pose proof (routing_key_at i lp Hlp) as Hkey. destruct (decide (y = slab_payload (key_tag (fetch_one bits dir lp).1) g)) as [->|Hne].
    - eexists _, (PDone MATCH_FOUND (Some g)). split; [|done]. eapply rtc_r; [exact Hrun|]. rewrite <- (list_insert_insert_eq ph i (PDone MATCH_FOUND (Some g)) (PClaim (Z.of_nat k) g)). by eapply probe_claim.
    - eexists _, (PDone NEEDS_APPEND None). split; [|done]. eapply rtc_r; [exact Hrun|]. rewrite <- (list_insert_insert_eq ph i (PDone NEEDS_APPEND None) (PClaim (Z.of_nat k) g)). by eapply probe_lost. }
  destruct p0 as [|slot g|s g].
  - pose proof (routing_key_at i lp Hlp) as Hkey. destruct (bucket_exists lp) as [b Hb]. destruct (key_spec lp b Hb) as [Ktag [[He Ks]|(_ & Ks & Hr)]].
    + exists slabs, (PDone (key_status (fetch_one bits dir lp).1) None). split; [|done]. apply rtc_once. eapply probe_skip; [done..|congruence].
    + destruct (row_seen T' slabs lp b _ (pi_core _ _ I) (pi_cleared _ _ I) Hb Hr) as [obs Hobs]. destruct (scan_row (key_tag (fetch_one bits dir lp).1) 0 obs) as [[slot g]|] eqn:Es.
      * assert (step (slabs, ph) (slabs, <[i := if purge then PClaim slot g else PDone MATCH_FOUND (Some g)]> ph)) as H1 by (by eapply probe_hit).
        destruct purge; [|do 2 eexists; by split; [apply rtc_once, H1|]]. apply (Hclaim slabs slot g); [right; by apply rtc_once|done].
      * do 2 eexists. split; [apply rtc_once; by eapply probe_miss|done].
  - by apply (Hclaim slabs slot g); [left|].
  - exists slabs, (PDone s g). split; [by rewrite list_insert_id|done].
Qed.

(** Every run of the kernel can be taken to its end. *)
Lemma probe_can_finish : exists slabs ph, probe_run purge slabs0 keys slabs ph.
Proof using HT HW Hlps Hbits Hmax.
  assert (forall n, (n <= length lps)%nat -> exists slabs ph, rtc step (slabs0, replicate (length lps) PStart) (slabs, ph) /\
    forall i p, (i < n)%nat -> ph !! i = Some p -> probe_done p) as H.
  { induction n as [|n IH]; intros Hn; [exists slabs0, (replicate (length lps) PStart); split; [done|lia]|].
    destruct (IH ltac:(lia)) as (slabs & ph & Hrun & Hd). destruct (probe_steps_inv _ _ _ probe_start_inv Hrun) as [T' I].
    destruct (thread_ends T' slabs ph n I) as (slabs' & p & Hrun' & Hp); [pose proof (pi_length _ _ I) as Hl; cbn in Hl; lia|].
    exists slabs', (<[n := p]> ph). split; [by etrans|]. intros i q Hi. rewrite list_lookup_insert_Some. intros [(_ & <- & _)|[Hne Hq]]; [done|]. apply (Hd i q); [lia|done]. }
  destruct (H (length lps) ltac:(lia)) as (slabs & ph & Hrun & Hd). exists slabs, ph. assert (length keys = length lps) as El by (unfold directory_fetch_kernel; by rewrite !length_map).
  split; [by rewrite El|]. destruct (probe_steps_inv _ _ _ probe_start_inv Hrun) as [T' I]. apply Forall_lookup. intros i p Hp. apply (Hd i p); [|done].
  apply lookup_lt_Some in Hp. pose proof (pi_length _ _ I) as Hl. cbn in Hl. lia.
Qed.

(** What is known when the kernel has ended. *)
Record probe_result (slabs : list Z) (ph : list probe_phase) (T' : list bucket) : Prop := mkProbeResult {
  pr_table : table_repr purge bits max_rows W dir slabs rows T';
  pr_inv : probe_inv T' (slabs, ph);
  pr_status : forall i p, ph !! i = Some p -> p = PDone NEEDS_ALLOCATION None \/ p = PDone NEEDS_APPEND None \/ exists g w, p = PDone MATCH_FOUND (Some g) /\ 0 <= g /\ W !! Z.to_nat g = Some w
}.

Lemma cleared_dir b b' : bucket_cleared b b' -> dir_word b' = dir_word b /\ (closed b -> closed b').
Proof using Type.
  intros [Er Ef]. pose proof (Forall2_length _ _ _ Ef) as El. unfold dir_word, closed. rewrite Er. rewrite <- El.
  destruct (bk_entries b), (bk_entries b'); try done. split; [done|]. intros [H1 H2]. split; [done|]. intros H. by specialize (H2 H).
Qed.

Lemma table_inhabited h b k x : T !! h = Some b -> bk_entries b !! k = Some x -> (0 < length W)%nat.
Proof using HT.
  intros Hb Hk. destruct (tr_dir _ _ _ _ _ _ _ _ HT h b Hb) as [_ Hc]. destruct (bk_row b) as [r|] eqn:Er; [|by rewrite (proj2 Hc Er) in Hk].
  destruct (tc_row _ _ _ _ _ _ _ (tr_core _ _ _ _ _ _ _ _ HT) h b r Hb Er) as [? _]. pose proof (tr_rows _ _ _ _ _ _ _ _ HT). lia.
Qed.

(** A matched entry has the index of a witness. *)
Lemma match_witness T' h b k x tag g : T !! h = Some b -> bk_entries b !! k = Some x -> in_width 32 tag -> in_width 32 g ->
  slab_payload tag g = x \/ slab_payload tag g = 0 /\ cleared_at T' h k -> exists w, W !! Z.to_nat g = Some w.
Proof using HT HW.
  intros Hb Hk Ht Hg H. apply lookup_lt_is_Some_2. pose proof (table_inhabited h b k x Hb Hk) as Hpos.
  assert (slab_payload tag g = 0 -> g = 0) as Hz by (rewrite payload_value by done; unfold in_width in *; lia).
  destruct H as [<-|[H _]]; [|rewrite Hz by done; lia].
  destruct (tc_entries _ _ _ _ _ _ _ (tr_core _ _ _ _ _ _ _ _ HT) h b _ Hb (list_elem_of_lookup_2 _ _ _ Hk)) as [[_ E]|(g' & w & H1 & H2%lookup_lt_Some & _ & E)]; [rewrite Hz by done; lia|].
  assert (in_width 32 g') as Hg' by (unfold in_width; lia). destruct (payload_fields tag g Ht Hg) as [_ E1]. destruct (payload_fields (lp_tag bits (r_lp w)) g' (lp_tag_width _ _) Hg') as [_ E2].
  rewrite E in E1. rewrite E1 in E2. by subst g'.
Qed.

Lemma probe_run_spec slabs ph : probe_run purge slabs0 keys slabs ph -> exists T', probe_result slabs ph T'.
Proof using HT HW Hlps Hbits Hmax.
  intros [Hrun Hd]. assert (length keys = length lps) as El by (unfold directory_fetch_kernel; by rewrite !length_map). rewrite El in Hrun.
  destruct (probe_steps_inv _ _ _ probe_start_inv Hrun) as [T' I]. exists T'. constructor; [|done|].
  - constructor; [apply I| |apply HT|apply HT]. intros h b' Hb'. destruct (Forall2_lookup_r _ _ _ _ _ (pi_cleared _ _ I) Hb') as (b & Hb & Hcl).
    destruct (tr_dir _ _ _ _ _ _ _ _ HT h b Hb) as [D1 D2]. destruct (cleared_dir b b' Hcl) as [-> Hc]. split; [done|by apply Hc].
  - intros i p Hp. rewrite Forall_lookup in Hd. specialize (Hd i p Hp). destruct p as [| |s g]; try done.
    destruct (lookup_lt_is_Some_2 lps i) as [lp Hlp]; [apply lookup_lt_Some in Hp; pose proof (pi_length _ _ I) as Hl; cbn in Hl; lia|].
    destruct (pi_facts _ _ I i lp _ Hlp Hp) as (b & Hb & H). destruct s, g as [g|]; try done; [by left| |by right; left].
    right. right. destruct H as (Hg & k & x & Hk & Hx & _). destruct (match_witness T' _ b k x _ g Hb Hk (lp_tag_width _ _) Hg Hx) as [w Hw]. exists g, w. split_and!; try done. apply Hg.
Qed.

(** With the entries left in place every thread finds what the buckets hold. *)
Lemma probe_found slabs ph T' : purge = false -> probe_result slabs ph T' -> map found ph = map (bucket_match bits T) lps /\ T' = T /\ slabs = slabs0.
Proof using Type.
  intros Hp [_ I Hs]. split; [|by apply (pi_keep _ _ I)]. apply list_eq. intros i. change map with (@fmap list _). rewrite !list_lookup_fmap. pose proof (pi_length _ _ I) as Hl. cbn in Hl.
  destruct (lps !! i) as [lp|] eqn:Elp; [|rewrite lookup_ge_None_2; [done|]; apply lookup_ge_None in Elp; lia].
  destruct (lookup_lt_is_Some_2 ph i) as [p Ep]; [apply lookup_lt_Some in Elp; lia|]. rewrite Ep. cbn [fmap option_fmap option_map]. f_equal.
  destruct (pi_facts _ _ I i lp p Elp Ep) as (b & Hb & H). unfold bucket_match. rewrite Hb. cbn [mbind option_bind].
  destruct (Hs i p Ep) as [->|[->|(g & w & -> & _)]]; cbn [found].
  - by rewrite H.
  - destruct H as [H|[? _]]; [|congruence]. pose proof (scan_row_spec (lp_tag bits lp) (bk_entries b) 0) as Hsc. destruct (scan_row _ 0 _) as [[s m]|]; [|done].
    destruct Hsc as (j & x & Hj & _ & Ht & _). by destruct (H x (list_elem_of_lookup_2 _ _ _ Hj)).
  - destruct H as (_ & k & x & _ & _ & H). rewrite Hp in H. unfold bucket_match in H. rewrite Hb in H. done.
Qed.

End probing.

(** In a table without cleared entries the first entry with the tag of [lp] is that of a witness in its bucket with its tag, and there is one
    when such a witness is entered. *)
Lemma bucket_match_spec bits max_rows W dir slabs rows T lp :
  Z.of_nat (length W) < 2 ^ 32 -> table_repr false bits max_rows W dir slabs rows T ->
  match bucket_match bits T lp with
  | Some g => exists w, 0 <= g /\ W !! Z.to_nat g = Some w /\ Z.to_nat (lp_hash bits (r_lp w)) = Z.to_nat (lp_hash bits lp) /\ lp_tag bits (r_lp w) = lp_tag bits lp
  | None => forall b x, T !! Z.to_nat (lp_hash bits lp) = Some b -> x ∈ bk_entries b -> entry_tag x <> lp_tag bits lp
  end.
Proof.
  intros HW HT. unfold bucket_match. destruct (T !! Z.to_nat (lp_hash bits lp)) as [b|] eqn:Hb; cbn [mbind option_bind]; [|done].
  pose proof (scan_row_spec (lp_tag bits lp) (bk_entries b) 0) as Hsc. destruct (scan_row _ 0 _) as [[s m]|]; cbn [fmap option_fmap option_map snd].
  - destruct Hsc as (j & x & Hj & _ & Ht & ->).
    destruct (tc_entries _ _ _ _ _ _ _ (tr_core _ _ _ _ _ _ _ _ HT) _ b x Hb (list_elem_of_lookup_2 _ _ _ Hj)) as [[? _]|(g & w & H1 & H2 & H3 & ->)]; [done|].
    pose proof (lookup_lt_Some _ _ _ H2). destruct (payload_fields (lp_tag bits (r_lp w)) g (lp_tag_width _ _) ltac:(unfold in_width; lia)) as [E1 E2].
    rewrite E2. exists w. split_and!; try done; [by rewrite H3, Nat2Z.id|]. unfold entry_tag in Ht. congruence.
  - intros b' x [= <-]. apply Hsc.
Qed.
