(* ===== verification/LargePrime.v ===== *)
(** The large-prime variation on the device ([LargePrimeVariant] of [src/src/largeprimes/largeprime.cu]): its state, the chain of kernels
    that matches a batch of partial relations against the witnesses, and what a batch does to the table, the witnesses and
    the relations found. *)
From Stdlib Require Import ZArith Lia.
From stdpp Require Import base gmap sets list relations.
From S2P Require Import Prelude UInt512 UInt512Div Soa Gf2 Congruence SqrtStep Factorization WarpAppend DeviceBatch CpuLp LpKernels LpTable LpProbe.
#[local] Open Scope Z_scope.

(** ** Data *)

Record LargePrimeConfig := mkLpConfig {
  max_witness_capacity : Z;
  max_combined_output : Z;
  hash_bits : Z;
  purge_after_match : bool
}.

Record SLPPinnedStats := mkStats {
  new_partials_buffer_fill : Z;
  total_witnesses : Z;
  total_full_relations : Z;
  last_batch_full_relations : Z;
  last_batch_new_witnesses : Z;
  empty_hash_buckets : Z;
  full_hash_buckets : Z;
  slab_overflow_count : Z;
  witness_overflow_count : Z;
  output_overflow_count : Z;
  total_iterations : Z
}.

(** The table, the witnesses and the output batch, and the counters kept on the device; the pipeline buffers are scratch memory
    of [max_pipeline_capacity_] entries. *)
Record LargePrimeVariant := mkLpVariant {
  lp_config : LargePrimeConfig;
  lp_modulus : uint512;
  d_directory : list Z;
  d_payload_slabs : list Z;
  d_global_row_allocator : Z;
  max_slab_rows_ : Z;
  d_global_witnesses : RelationBatch;
  d_witness_dual_counter : Z;
  d_output_batch : RelationBatch;
  d_slab_overflow_count : Z;
  d_witness_overflow_count : Z;
  d_output_overflow_count : Z;
  d_cum_full_relations_ : Z;
  d_last_batch_full_ : Z;
  d_last_witness_count_ : Z;
  h_pinned_stats : SLPPinnedStats;
  max_pipeline_capacity_ : Z
}.

(** ** Kernels of one thread, and the append *)

(** [sync_dual_counter_kernel]: the dual counter and the global counters of a batch. *)
Definition sync_dual_counter_kernel (pack : bool) (dual : Z) (b : HostRelationBatch) : Z * HostRelationBatch :=
  if pack then (pack_rf (wrap 32 (num_relations b)) (wrap 32 (num_factors b)), b) else (dual, set_counts b (unpack_r dual) (unpack_f dual)).

Definition update_batch (d : RelationBatch) (b : HostRelationBatch) : RelationBatch := mkDevice b (cap_rels d) (cap_factors d) (target_cap_ d).

(** [device_append_kernel]: the destination and the number of relations appended. *)
Definition device_append_kernel (dst src : RelationBatch) : RelationBatch * Z :=
  let src_rels := wrap 32 (num_relations (d_batch src)) in
  let src_facts := wrap 32 (num_factors (d_batch src)) in
  if src_rels =? 0 then (dst, 0)
  else
    let dst_current_rels := wrap 32 (num_relations (d_batch dst)) in
    let dst_current_facts := num_factors (d_batch dst) in
    let remaining_rels := wrap 32 (max_relations (get_view dst) - dst_current_rels) in
    let remaining_facts := wrap 64 (max_factors (get_view dst) - dst_current_facts) in
    if (remaining_rels <? src_rels) || (remaining_facts <? src_facts) then (dst, 0)
    else
      let copied a :=
        match a with
        | AOffsets => memcpy (cells (d_batch dst) a) dst_current_rels (map (fun o => wrap 64 (o + dst_current_facts)) (cells (d_batch src) a)) (src_rels + 1)
        | AIndices | ACounts => memcpy (cells (d_batch dst) a) dst_current_facts (cells (d_batch src) a) src_facts
        | _ => memcpy (cells (d_batch dst) a) dst_current_rels (cells (d_batch src) a) src_rels
        end in
      (update_batch dst (of_cells copied (wrap 32 (dst_current_rels + src_rels)) (wrap 64 (dst_current_facts + src_facts))), src_rels).

(** [update_telemetry_kernel]. *)
Definition updateStats (lp : LargePrimeVariant) : LargePrimeVariant :=
  let total := unpack_r (d_witness_dual_counter lp) in
  let counted (f : Z -> bool) := Z.of_nat (length (List.filter (fun e => f (dir_count e)) (d_directory lp))) in
  mkLpVariant (lp_config lp) (lp_modulus lp) (d_directory lp) (d_payload_slabs lp) (d_global_row_allocator lp) (max_slab_rows_ lp)
    (d_global_witnesses lp) (d_witness_dual_counter lp) (d_output_batch lp)
    (d_slab_overflow_count lp) (d_witness_overflow_count lp) (d_output_overflow_count lp) (d_cum_full_relations_ lp) (d_last_batch_full_ lp) total
    (mkStats 0 total (d_cum_full_relations_ lp) (d_last_batch_full_ lp) (wrap 64 (total - d_last_witness_count_ lp))
       (counted (fun c => c =? 0)) (counted (fun c => negb (c =? 0) && (ROW_WIDTH_ELEMS <=? c)))
       (d_slab_overflow_count lp) (d_witness_overflow_count lp) (d_output_overflow_count lp) (wrap 64 (total_iterations (h_pinned_stats lp) + 1)))
    (max_pipeline_capacity_ lp).

(** ** Operations *)

(** [LargePrimeVariant::initiate]: [None] when it throws. *)
Definition initiate (fresh : array -> Z -> list Z) (cfg : LargePrimeConfig) (n : uint512) : option LargePrimeVariant :=
  if 31 <? hash_bits cfg then None
  else
    let num_buckets := wrap 32 (Z.shiftl 1 (hash_bits cfg)) in
    let max_rows := Z.min (max_witness_capacity cfg) (wrap 32 (Z.shiftl 1 (hash_bits cfg))) in
    let batch rels factors := reset_counters (resize_device fresh (mkDevice batch_empty 0 0 0) rels factors) in
    Some (mkLpVariant cfg n (replicate (Z.to_nat num_buckets) 0) (replicate (Z.to_nat (max_rows * ROW_WIDTH_ELEMS)) SENTINEL) 0 (wrap 32 max_rows)
            (batch (max_witness_capacity cfg) (wrap 64 (max_witness_capacity cfg * 64))) 0
            (batch (max_combined_output cfg) (wrap 32 (max_combined_output cfg * 64))) 0 0 0 0 0 0 (mkStats 0 0 0 0 0 0 0 0 0 0 0)
            (Z.max 65536 (max_witness_capacity cfg))).

Definition insert_run (v : RelationBatchView) (max_rows : Z) (work : list (option insertion)) (st0 st : insert_state) : Prop :=
  rtc (insert_step v max_rows work) st0 st /\ insert_finished st.

(** What the threads store in a pipeline buffer, one entry each. No kernel tests the capacity, and [resizePipelineBuffers] only logs: a store beyond
    the buffer is undefined behaviour, [None]. *)
Definition pipeline_buffer {A} (capacity : Z) (stores : list A) : option (list A) := if capacity <? Z.of_nat (length stores) then None else Some stores.

(** The chain of kernels on the first [num_items] relations of a batch of partial relations. [d_routing_keys], [d_status_flags] and
    [d_target_idx_array] have the same capacity, and no thread stores in the other two beyond where it stores in the first. *)
Definition lp_pipeline (lp : LargePrimeVariant) (input : HostRelationBatch) (num_items : Z) (lp' : LargePrimeVariant) : Prop :=
  let bits := hash_bits (lp_config lp) in
  let output := d_output_batch lp in
  let witnesses := d_global_witnesses lp in
  exists keys slabs ph,
    pipeline_buffer (max_pipeline_capacity_ lp) (map fst (directory_fetch_kernel bits (d_directory lp) (take (Z.to_nat num_items) (large_primes input)))) = Some keys /\
    probe_run (purge_after_match (lp_config lp)) (d_payload_slabs lp) keys slabs ph /\
    let output_dual := (sync_dual_counter_kernel true 0 (d_batch output)).1 in
    let witness_dual := (sync_dual_counter_kernel true 0 (d_batch witnesses)).1 in
    exists out oph,
      combine_run (get_view output) (imap (combine_one (lp_modulus lp) input (d_batch witnesses)) ph) (d_batch output) output_dual (d_output_overflow_count lp) out oph /\
      exists st,
        let work := imap (insertion_at bits keys input) ph in
        insert_run (get_view witnesses) (max_slab_rows_ lp) work
          (insert_start (mkSoa (d_batch witnesses) witness_dual [] [] (d_witness_overflow_count lp)) (d_directory lp) slabs (d_global_row_allocator lp)
             (d_slab_overflow_count lp) (length work)) st /\
        lp' = updateStats (mkLpVariant (lp_config lp) (lp_modulus lp) (is_dir st) (is_slabs st) (is_rows st) (max_slab_rows_ lp)
                (update_batch witnesses (sync_dual_counter_kernel false (so_dual (is_soa st)) (so_batch (is_soa st))).2) (so_dual (is_soa st))
                (update_batch output (sync_dual_counter_kernel false (so_dual out) (so_batch out)).2)
                (is_overflow st) (so_overflow (is_soa st)) (so_overflow out)
                (d_cum_full_relations_ lp) (d_last_batch_full_ lp) (d_last_witness_count_ lp) (h_pinned_stats lp) (max_pipeline_capacity_ lp)).

(** The relations lp_committed by an append, and the output batch afterwards. *)
Definition lp_committed (lp : LargePrimeVariant) (cum last : Z) (output : RelationBatch) : LargePrimeVariant :=
  mkLpVariant (lp_config lp) (lp_modulus lp) (d_directory lp) (d_payload_slabs lp) (d_global_row_allocator lp) (max_slab_rows_ lp)
    (d_global_witnesses lp) (d_witness_dual_counter lp) output
    (d_slab_overflow_count lp) (d_witness_overflow_count lp) (d_output_overflow_count lp) (wrap 64 (d_cum_full_relations_ lp + cum)) last (d_last_witness_count_ lp)
    (h_pinned_stats lp) (max_pipeline_capacity_ lp).

(** [LargePrimeVariant::processAndCommit]. *)
Definition input_count (input : RelationBatch) (input_count_hint : Z) : Z :=
  let input_cap := wrap 32 (cap_rels input) in
  let count := if 0 <? input_count_hint then input_count_hint else wrap 32 (getCount input) in
  if input_cap <? count then input_cap else count.

Definition processAndCommit (upper_bound : list Z -> Z -> Z) (lp : LargePrimeVariant) (input persistent : RelationBatch) (input_count_hint : Z)
    (lp' : LargePrimeVariant) (persistent' : RelationBatch) : Prop :=
  let count := input_count input input_count_hint in
  if count =? 0 then lp' = lp /\ persistent' = persistent
  else exists lp1, lp_pipeline lp (d_batch input) count lp1 /\
    let found_full_count := num_relations (d_batch (d_output_batch lp1)) in
    persistent' = (if 0 <? found_full_count then append upper_bound persistent (d_output_batch lp1) found_full_count else persistent) /\
    lp' = lp_committed lp1 found_full_count found_full_count (reset_counters (d_output_batch lp1)).

(** [LargePrimeVariant::processAndCommitAsync]: as many threads as the capacity of the input asks for, in blocks of 256. *)
Definition processAndCommitAsync (lp : LargePrimeVariant) (input : RelationBatch) (lp' : LargePrimeVariant) : Prop :=
  let threads := wrap 32 (wrap 32 (cap_rels input) + 255) / 256 * 256 in
  lp_pipeline lp (d_batch input) (Z.min threads (wrap 32 (getCount input))) lp'.

(** [LargePrimeVariant::launchDeviceAppend]. *)
Definition launchDeviceAppend (lp : LargePrimeVariant) (persistent : RelationBatch) : LargePrimeVariant * RelationBatch :=
  let '(persistent', appended) := device_append_kernel persistent (d_output_batch lp) in
  (lp_committed lp appended appended (clear_device (reset_counters (d_output_batch lp))), persistent').

(** [LargePrimeVariant::moveWitnessesToHost]. *)
Definition moveWitnessesToHost (lp : LargePrimeVariant) (dest : HostRelationBatch) : HostRelationBatch :=
  let witnesses := d_global_witnesses lp in
  moveToHost (update_batch witnesses (sync_dual_counter_kernel false (d_witness_dual_counter lp) (d_batch witnesses)).2) dest.

(** [capture_provenance_kernel]: what thread [i] records of a match. *)
Record CombineProvenanceEntry := mkProvenance {
  pv_u_c : Z; pv_u_p : Z; pv_u_w : Z; pv_lp : Z; pv_input_idx : Z; pv_witness_idx : Z; pv_v2_p : Z; pv_v2_w : Z; pv_sign_p : Z; pv_sign_w : Z
}.

Definition capture_one (n : uint512) (input witnesses : HostRelationBatch) (i : nat) (ph : probe_phase) : option CombineProvenanceEntry :=
  match ph with
  | PDone MATCH_FOUND (Some g) =>
      let r := relation_at input (Z.of_nat i) in
      let w := relation_at witnesses g in
      if negb (wrap 64 (r_lp r) =? wrap 64 (r_lp w)) then None
      else Some (mkProvenance (u512_val (mul_mod (u512_of_Z (r_sqrt_Q r)) (u512_of_Z (r_sqrt_Q w)) n)) (r_sqrt_Q r) (r_sqrt_Q w) (r_lp r) (Z.of_nat i) g
                   (r_val2 r) (r_val2 w) (r_sign r) (r_sign w))
  | _ => None
  end.

(** ** Examples *)

(** [42^2 = 5 * 23] and [27^2 = - 2^3 * 5 * 23] modulo 1649. *)
Definition ex_witness : relation := mkRel 42 1 0 23 1 [(0, 1)].
Definition ex_lp_partial : relation := mkRel 27 255 3 23 2 [(0, 1)].
Definition ex_config (purge : bool) : LargePrimeConfig := mkLpConfig 8 8 3 purge.
Definition ex_lp_batch (r : relation) : RelationBatch := resize_device ex_fresh (uploadFromHost ex_fresh (mkDevice batch_empty 0 0 0) (batch_of [r])) 8 64.
Definition ex_table : list bucket := <[3%nat := mkBucket (Some 0) [slab_payload 1 0]]> (<[3%nat := mkBucket (Some 0) []]> (replicate 8 (mkBucket None []))).

(** The state with the witness in the table. *)
Definition ex_lp (purge : bool) : LargePrimeVariant :=
  mkLpVariant (ex_config purge) (u512_of_Z 1649) (<[3%nat := Z.lor (Z.shiftl 1 48) 0]> (replicate 8 0)) (<[slot_of 0 0 := slab_payload 1 0]> (replicate 128 SENTINEL)) 1 8
    (ex_lp_batch ex_witness) (pack_rf 1 1) (reset_counters (resize_device ex_fresh (mkDevice batch_empty 0 0 0) 8 64)) 0 0 0 0 0 0 (mkStats 0 0 0 0 0 0 0 0 0 0 0) 65536.

(** A cleared entry has the tag 0: a partial relation with a small large prime matches it, and is combined with nothing and inserted nowhere. *)
Example ex_cleared_entry :
  let r := mkRel 27 255 3 7 2 [(0, 1)] in
  lp_tag 3 (r_lp r) = 0 /\ scan_row (lp_tag 3 (r_lp r)) 0 (0 :: replicate 15 SENTINEL) = Some (0, 0) /\ combine_pair (u512_of_Z 1649) r ex_witness = None.
Proof. by vm_compute. Qed.

(** More than 64 factors: the product loses some. *)
Example ex_merge_truncated :
  let a := map (fun k => (2 * k, 1)) (upto 33) in let b := map (fun k => (2 * k + 1, 1)) (upto 32) in
  length (merge_pairs a b) = 65%nat /\ length (merge_factors_csr MAX_MERGE_FACTORS a b) = 64%nat.
Proof. by vm_compute. Qed.

(** Witness batches of 2^26 relations: the bound of the factors is 0 in 32 bits, no relation with a factor finds room. *)
Example ex_capacity_truncated : let v := mkView (2 ^ 26) (wrap 64 (2 ^ 26 * 64)) 0 in max_factors v = 2 ^ 32 /\ reserve_dual v 1 (pack_rf 0 0) = None.
Proof. by vm_compute. Qed.

(** A repeated partial relation leaves a provenance record and no combined relation. *)
Example ex_provenance_repeated :
  let ph := PDone MATCH_FOUND (Some 0) in
  is_Some (capture_one (u512_of_Z 1649) (batch_of [ex_witness]) (batch_of [ex_witness]) 0 ph) /\
  combine_one (u512_of_Z 1649) (batch_of [ex_witness]) (batch_of [ex_witness]) 0 ph = None.
Proof. split; [eexists|]; by vm_compute. Qed.

(** ** Vocabulary *)

(** A device batch that holds [rs] and to which kernels can append: its capacities are those of a packed counter. *)
Record batch_ok (d : RelationBatch) (rs : list relation) : Prop := mkBatchOk {
  bo_device : device_ok d;
  bo_repr : repr (d_batch d) rs;
  bo_rels : cap_rels d + 1 < 2 ^ 32;
  bo_factors : cap_factors d + 64 < 2 ^ 32
}.

(** The table [T] of the witnesses [W]; the relations [out] wait in the output batch. *)
Record lp_ok (lp : LargePrimeVariant) (T : list bucket) (W out : list relation) : Prop := mkLpOk {
  lo_bits : 0 <= hash_bits (lp_config lp) <= 31;
  lo_rows : max_slab_rows_ lp <= 2 ^ 28;
  lo_table : table_repr (purge_after_match (lp_config lp)) (hash_bits (lp_config lp)) (max_slab_rows_ lp) W (d_directory lp) (d_payload_slabs lp)
               (d_global_row_allocator lp) T;
  lo_witnesses : batch_ok (d_global_witnesses lp) W;
  lo_dual : d_witness_dual_counter lp = pack_rf (Z.of_nat (length W)) (nfac W);
  lo_output : batch_ok (d_output_batch lp) out
}.

(** The configuration, the modulus and the capacity of the pipeline buffers stay. *)
Definition lp_same (lp lp' : LargePrimeVariant) : Prop :=
  lp_config lp' = lp_config lp /\ lp_modulus lp' = lp_modulus lp /\ max_pipeline_capacity_ lp' = max_pipeline_capacity_ lp.

(** A partial relation as it comes: a large prime of one word whose tag is not that of unused entries, at most 64 factors. *)
Definition partial_fits (bits : Z) (r : relation) : Prop := in_width 64 (r_lp r) /\ lp_tag bits (r_lp r) <> 2 ^ 32 - 1 /\ (length (r_factors r) <= 64)%nat.

Definition no_space (d : RelationBatch) (rs : list relation) (r : relation) : Prop := cap_rels d <= Z.of_nat (length rs) \/ cap_factors d < nfac rs + r_len r.

(** What becomes of a partial relation whose probe found the witness index [m], or nothing. *)
Definition pair_up (n : uint512) (W : list relation) (r : relation) (m : option Z) : option relation := g ← m; w ← W !! Z.to_nat g; combine_pair n r w.
Definition unmatched (r : relation) (m : option Z) : option relation := match m with Some _ => None | None => Some r end.

(** The indices [ms] that the probe of the relations [rs] found in the table [T] of [W], which has become [T']. *)
Record matched (purge : bool) (bits : Z) (T : list bucket) (W : list relation) (T' : list bucket) (rs : list relation) (ms : list (option Z)) : Prop := mkMatched {
  ma_length : length ms = length rs;
  ma_witness : forall i g, ms !! i = Some (Some g) -> exists w, 0 <= g /\ W !! Z.to_nat g = Some w;
  ma_cleared : Forall2 bucket_cleared T T';
  ma_keep : purge = false -> ms = map (fun r => bucket_match bits T (r_lp r)) rs /\ T' = T;
  ma_once : purge = true -> forall i j r r' g, rs !! i = Some r -> rs !! j = Some r' -> ms !! i = Some (Some g) -> ms !! j = Some (Some g) ->
    r_lp r = r_lp r' -> slab_payload (lp_tag bits (r_lp r)) g <> 0 -> i = j;
  ma_gone : purge = true -> forall i r g h b, rs !! i = Some r -> ms !! i = Some (Some g) -> slab_payload (lp_tag bits (r_lp r)) g <> 0 ->
    T' !! h = Some b -> slab_payload (lp_tag bits (r_lp r)) g ∉ bk_entries b
}.

(** ** Vocabulary of the specifications *)

Definition insertion_of (bits : Z) (r : relation) : insertion := mkInsertion (lp_tag bits (r_lp r)) (lp_hash bits (r_lp r)) r.
Definition to_insert (bits : Z) (r : relation) (m : option Z) : option insertion := match m with Some _ => None | None => Some (insertion_of bits r) end.

(** A valid partial relation with an odd large prime that the table can encode. *)
Record partial_ok (n : Z) (fb : list Z) (bits : Z) (r : relation) : Prop := mkPartialOk {
  pk_fits : lp_fits r;
  pk_holds : partial_holds n fb r;
  pk_odd : Z.odd (r_lp r) = true;
  pk_range : 0 <= r_lp r < 2 ^ (33 + bits);
  pk_tag : lp_tag bits (r_lp r) <> 2 ^ 32 - 1;
  pk_length : (length (r_factors r) <= 64)%nat
}.

(** A relation found from [r]: the product with a witness of the same large prime and another root, as far as its factors go into the 64 places of
    the combine kernel. It is valid when they all do; the others lack the factors beyond the 64th. *)
Definition product_ok (n : Z) (fb : list Z) (W : list relation) (r c : relation) : Prop :=
  exists w, w ∈ W /\ r_lp w = r_lp r /\ r_sqrt_Q w <> r_sqrt_Q r /\ c = cut_factors (combine_rel n r w) /\
    ((length (merge_pairs (r_factors r) (r_factors w)) <= 64)%nat -> c = combine_rel n r w /\ combined_ok n fb c).

(** What a partial relation contributes to the output and to the witnesses: its product with a witness of the same large prime, cut to 64 factors; nothing,
    when that witness has its root; itself, when no witness of its large prime is entered in the table. *)
Inductive fate (n bits : Z) (T : list bucket) (W : list relation) (r : relation) : option relation * option relation -> Prop :=
  | fate_combined w : w ∈ W -> r_lp w = r_lp r -> r_sqrt_Q w <> r_sqrt_Q r -> fate n bits T W r (Some (cut_factors (combine_rel n r w)), None)
  | fate_repeated w : w ∈ W -> r_lp w = r_lp r -> r_sqrt_Q w = r_sqrt_Q r -> fate n bits T W r (None, None)
  | fate_witness :
      (forall g w b, 0 <= g -> W !! Z.to_nat g = Some w -> r_lp w = r_lp r -> T !! Z.to_nat (lp_hash bits (r_lp r)) = Some b -> slab_payload (lp_tag bits (r_lp w)) g ∉ bk_entries b) ->
      fate n bits T W r (None, Some r).

(** ** Lemmas: the batches *)

Lemma view_rels d : device_ok d -> max_relations (get_view d) = cap_rels d.
Proof. intros (H & _ & _). cbn. by apply wrap_small. Qed.

Lemma view_allocated d : device_ok d -> allocated (get_view d) (d_batch d).
Proof. intros Hd a. rewrite view_rels by done. cbn [get_view max_factors]. apply Hd. Qed.

Lemma batch_fits d rs : batch_ok d rs -> Z.of_nat (length rs) <= cap_rels d /\ nfac rs <= cap_factors d.
Proof. intros H. apply fits_caps; apply H. Qed.

(** The dual counter of a batch and what a kernel leaves behind. *)
Lemma batch_dual d rs : batch_ok d rs -> (sync_dual_counter_kernel true 0 (d_batch d)).1 = pack_rf (Z.of_nat (length rs)) (nfac rs).
Proof.
  intros H. pose proof (batch_fits d rs H). pose proof (nfac_nonneg rs). pose proof (bo_rels _ _ H). pose proof (bo_factors _ _ H). cbn.
  rewrite (repr_num_relations _ _ (bo_repr _ _ H)), (repr_num_factors _ _ (bo_repr _ _ H)). fold (nfac rs). by rewrite !wrap_small by (unfold in_width; lia).
Qed.

Lemma batch_start d rs o : batch_ok d rs -> soa_inv (get_view d) rs (mkSoa (d_batch d) (sync_dual_counter_kernel true 0 (d_batch d)).1 [] [] o).
Proof.
  intros H. pose proof (batch_fits d rs H). apply soa_start; [apply view_allocated, H|apply H|rewrite view_rels by apply H; lia|cbn; lia|by apply batch_dual].
Qed.

Lemma batch_view d rs : batch_ok d rs -> max_relations (get_view d) + 1 < 2 ^ 32 /\ 0 <= max_factors (get_view d) /\ max_factors (get_view d) + 64 < 2 ^ 32.
Proof. intros H. rewrite view_rels by apply H. pose proof (bo_device _ _ H) as (_ & ? & _). destruct H. cbn. lia. Qed.

Lemma batch_finished d rs s : batch_ok d rs -> soa_inv (get_view d) rs s -> so_pending s = [] ->
  batch_ok (update_batch d (sync_dual_counter_kernel false (so_dual s) (so_batch s)).2) (rs ++ so_accepted s).
Proof.
  intros H I Hp. destruct (batch_view d rs H) as (V1 & V2 & V3). constructor; cbn [update_batch d_batch cap_rels cap_factors]; [|by apply (soa_committed _ _ V1 V2 V3)|apply H..].
  destruct (bo_device _ _ H) as (D1 & D2 & D3). split; [done|]. split; [done|]. intros a. cbn [update_batch d_batch cap_rels cap_factors].
  pose proof (si_alloc _ _ _ I a) as Ha. rewrite view_rels in Ha by apply H. cbn [get_view max_factors] in Ha. rewrite <- Ha. by destruct a.
Qed.

Lemma no_room_space d rs s r : batch_ok d rs -> no_room (get_view d) rs s r -> no_space d (rs ++ so_accepted s) r.
Proof. intros H. unfold no_room, no_space, stored. rewrite view_rels by apply H. done. Qed.

(** Resetting the counters empties a batch. *)
Lemma set_counts_cells b nr nf a : cells (set_counts b nr nf) a = cells b a.
Proof. by destruct a. Qed.

Lemma reset_batch d rs : batch_ok d rs -> batch_ok (reset_counters d) [].
Proof.
  intros H. constructor; [| |apply H..].
  - destruct (bo_device _ _ H) as (D1 & D2 & D3). split; [done|]. split; [done|]. intros a. cbn [reset_counters d_batch]. rewrite set_counts_cells. apply D3.
  - apply repr_prefix. split; [|done]. intros a. cbn [reset_counters d_batch]. rewrite set_counts_cells. destruct (proj1 (repr_prefix _ _) (bo_repr _ _ H)) as (Hp & _ & _).
    etrans; [|apply Hp]. rewrite (cells_app [] rs a : cells (batch_of rs) a = _). by apply prefix_app_r.
Qed.

(** ** Lemmas: the appends *)

Lemma memcpy_shift dst pos src x n : 0 <= pos -> 0 <= n -> dst !! Z.to_nat pos = Some x -> src !! 0%nat = Some x ->
  memcpy dst pos src (n + 1) = memcpy dst (pos + 1) (drop 1 src) n.
Proof.
  intros Hp Hn Hd Hs. destruct src as [|y src]; [done|]. injection Hs as ->. unfold memcpy.
  replace (Z.to_nat (n + 1)) with (S (Z.to_nat n)) by lia. replace (Z.to_nat (pos + 1)) with (S (Z.to_nat pos)) by lia. cbn [firstn skipn].
  rewrite (take_S_r dst (Z.to_nat pos) x Hd), <- app_assoc. cbn [app]. do 4 f_equal. lia.
Qed.

(** With room for all of it, the device appends what the host would. *)
Lemma device_append_fits upper_bound dst src rs rs' :
  batch_ok src rs' -> device_ok dst -> cap_factors dst < 2 ^ 32 -> repr (d_batch dst) rs -> rs' <> [] ->
  Z.of_nat (length rs) + Z.of_nat (length rs') <= cap_rels dst -> nfac rs + nfac rs' <= cap_factors dst ->
  append_amount upper_bound dst src (Z.of_nat (length rs')) = (Z.of_nat (length rs'), nfac rs') /\
  device_append_kernel dst src = (append upper_bound dst src (Z.of_nat (length rs')), Z.of_nat (length rs')).
Proof.
  intros Hs Hd Hcf H Hne Hr Hf. pose proof (bo_repr _ _ Hs) as H'. pose proof Hd as (D1 & D2 & D3). pose proof (nfac_nonneg rs). pose proof (nfac_nonneg rs').
  assert (0 < Z.of_nat (length rs')) as Hpos by (destruct rs'; [done|cbn; lia]).
  pose proof (repr_num_relations _ _ H) as Nr. pose proof (repr_num_factors _ _ H) as Nf. fold (nfac rs) in Nf.
  pose proof (repr_num_relations _ _ H') as Nr'. pose proof (repr_num_factors _ _ H') as Nf'. fold (nfac rs') in Nf'.
  assert (append_amount upper_bound dst src (Z.of_nat (length rs')) = (Z.of_nat (length rs'), nfac rs')) as Ea.
  { unfold append_amount. rewrite Nr, Nf. destruct (Z.ltb_spec (Z.of_nat (length rs)) (cap_rels dst)); [|lia].
    rewrite Z.min_l by lia. destruct (Z.eqb_spec (Z.of_nat (length rs')) 0); [lia|]. rewrite (offset_nfac _ rs' _ H') by lia.
    rewrite (take_ge rs') by lia. assert ((if nfac rs <? cap_factors dst then cap_factors dst - nfac rs else 0) = cap_factors dst - nfac rs) as ->
      by (destruct (Z.ltb_spec (nfac rs) (cap_factors dst)); lia).
    destruct (Z.ltb_spec (cap_factors dst - nfac rs) (nfac rs')); [lia|done]. }
  split; [done|]. unfold device_append_kernel, append. rewrite Ea, Nr, Nf, Nr', Nf', view_rels by done. cbn [get_view max_factors].
  assert (forall x, 0 <= x < 2 ^ 32 -> wrap 32 x = x /\ wrap 64 x = x) as Hw by (intros x Hx; split; apply wrap_small; unfold in_width; lia).
  rewrite !(proj1 (Hw (Z.of_nat (length rs)) ltac:(lia))), !(proj1 (Hw (Z.of_nat (length rs')) ltac:(lia))), (proj1 (Hw (nfac rs') ltac:(lia))).
  rewrite (proj1 (Hw (cap_rels dst - Z.of_nat (length rs)) ltac:(lia))), (proj2 (Hw (cap_factors dst - nfac rs) ltac:(lia))).
  rewrite (proj1 (Hw (Z.of_nat (length rs) + Z.of_nat (length rs')) ltac:(lia))), (proj2 (Hw (nfac rs + nfac rs') ltac:(lia))).
  destruct (Z.eqb_spec (Z.of_nat (length rs')) 0); [lia|].
  destruct (Z.ltb_spec (cap_rels dst - Z.of_nat (length rs)) (Z.of_nat (length rs'))); [lia|].
  destruct (Z.ltb_spec (cap_factors dst - nfac rs) (nfac rs')); [lia|]. cbn [orb]. f_equal. unfold update_batch. f_equal.
  unfold of_cells. f_equal; try done.
  unfold rebase_kernel. change map with (@fmap list _) in *. rewrite (memcpy_shift _ _ _ (nfac rs)).
  - by rewrite fmap_drop.
  - lia.
  - lia.
  - destruct (repr_offsets _ _ H) as [l El]. change map with (@fmap list _) in El. cbn [cells]. rewrite El, lookup_app_l by (rewrite length_offsets_from, length_fmap; lia).
    rewrite Nat2Z.id. pose proof (offsets_from_lookup 0 (r_factors <$> rs) (length rs)) as Ho. rewrite length_fmap in Ho. specialize (Ho ltac:(lia)).
    destruct (lookup_lt_is_Some_2 (offsets_from 0 (r_factors <$> rs)) (length rs)) as [x Hx]; [rewrite length_offsets_from, length_fmap; lia|].
    rewrite Hx. rewrite (nth_lookup_Some _ _ _ _ Hx) in Ho. rewrite Ho, take_ge by (rewrite length_fmap; lia). done.
  - destruct (repr_offsets _ _ H') as [l El]. cbn [cells]. rewrite El. destruct (map r_factors rs') eqn:E; cbn; rewrite wrap_small; (done || unfold in_width; lia).
Qed.

(** The output of the device is appended in full or not at all. *)
Lemma device_append_spec upper_bound dst src rs rs' :
  upper_bound_ok upper_bound -> batch_ok src rs' -> device_ok dst -> cap_factors dst < 2 ^ 32 -> repr (d_batch dst) rs ->
  let '(dst', appended) := device_append_kernel dst src in
  device_ok dst' /\ cap_rels dst' = cap_rels dst /\ cap_factors dst' = cap_factors dst /\
  (repr (d_batch dst') (rs ++ rs') /\ appended = Z.of_nat (length rs') \/
   dst' = dst /\ appended = 0 /\ (cap_rels dst < Z.of_nat (length (rs ++ rs')) \/ cap_factors dst < nfac (rs ++ rs'))).
Proof.
  intros Hub Hs Hd Hcf H. pose proof (bo_repr _ _ Hs) as H'. pose proof (nfac_nonneg rs). pose proof (nfac_nonneg rs'). pose proof (batch_fits _ _ Hs) as [S1 S2].
  pose proof (bo_rels _ _ Hs). pose proof (bo_factors _ _ Hs). pose proof (fits_caps _ _ Hd H) as [F1 F2]. pose proof Hd as (D1 & D2 & _).
  destruct (decide (Z.of_nat (length rs) + Z.of_nat (length rs') <= cap_rels dst /\ nfac rs + nfac rs' <= cap_factors dst)) as [[R1 R2]|Hn].
  - destruct (decide (rs' = [])) as [->|Hne].
    { unfold device_append_kernel. rewrite (repr_num_relations _ _ H'). cbn. split; [done|]. split; [done|]. split; [done|]. left. by rewrite app_nil_r. }
    destruct (device_append_fits upper_bound dst src rs rs') as [Ea Ek]; [done..|].
    assert (0 < Z.of_nat (length rs')) as Hpos by (destruct rs'; [done|cbn; lia]).
    destruct (append_spec upper_bound Hub dst src rs rs' (Z.of_nat (length rs')) Hd H H' ltac:(lia)) as (A1 & A2 & A3 & A4 & _).
    rewrite Ek. split; [exact A1|]. split; [exact A3|]. split; [exact A4|]. left. split; [|done]. rewrite Ea in A2. cbn [fst] in A2. by rewrite Nat2Z.id, take_ge in A2.
  - unfold device_append_kernel. rewrite (repr_num_relations _ _ H), (repr_num_factors _ _ H), (repr_num_relations _ _ H'), (repr_num_factors _ _ H'), view_rels by done.
    fold (nfac rs) (nfac rs'). cbn [get_view max_factors].
    assert (forall x, 0 <= x < 2 ^ 32 -> wrap 32 x = x /\ wrap 64 x = x) as Hw by (intros x Hx; split; apply wrap_small; unfold in_width; lia).
    rewrite !(proj1 (Hw (Z.of_nat (length rs)) ltac:(lia))), !(proj1 (Hw (Z.of_nat (length rs')) ltac:(lia))), (proj1 (Hw (nfac rs') ltac:(lia))).
    rewrite (proj1 (Hw (cap_rels dst - Z.of_nat (length rs)) ltac:(lia))), (proj2 (Hw (cap_factors dst - nfac rs) ltac:(lia))).
    assert (rs' <> []) as Hne. { intros ->. cbn in Hn. rewrite nfac_nil in Hn. lia. }
    destruct (Z.eqb_spec (Z.of_nat (length rs')) 0); [by destruct rs'|].
    assert ((cap_rels dst - Z.of_nat (length rs) <? Z.of_nat (length rs')) || (cap_factors dst - nfac rs <? nfac rs') = true) as -> by (apply orb_true_iff; rewrite !Z.ltb_lt; lia).
    split; [done|]. split; [done|]. split; [done|]. right. rewrite length_app, nfac_app. split; [done|]. split; [done|]. lia.
Qed.

(** ** Lemmas: the chain of kernels *)

Lemma combine_pair_length n r w c : combine_pair n r w = Some c -> r_len c <= 64.
Proof.
  unfold combine_pair. destruct (negb _); [done|]. destruct (_ =? _); [done|]. intros H. apply (inj Some) in H as <-. unfold r_len. cbn [r_factors].
  rewrite merge_factors_csr_spec, length_take. unfold MAX_MERGE_FACTORS. lia.
Qed.

Lemma pipeline_buffer_inv {A} capacity (stores keys : list A) : pipeline_buffer capacity stores = Some keys -> keys = stores.
Proof. unfold pipeline_buffer. destruct (_ <? _); [done|]. intros H. by apply (inj Some) in H. Qed.

Lemma pipeline_buffer_fits {A} capacity (stores : list A) : Z.of_nat (length stores) <= capacity -> pipeline_buffer capacity stores = Some stores.
Proof. intros H. unfold pipeline_buffer. destruct (Z.ltb_spec capacity (Z.of_nat (length stores))); [lia|done]. Qed.

Lemma length_routing bits dir lps : length (directory_fetch_kernel bits dir lps) = length lps.
Proof. unfold directory_fetch_kernel. by rewrite ?length_map, ?length_fmap. Qed.

(** A batch of more relations than the pipeline buffers have entries has no defined run. *)
Lemma pipeline_overflow lp input n lp' :
  max_pipeline_capacity_ lp < n <= Z.of_nat (length (large_primes input)) -> ~ lp_pipeline lp input n lp'.
Proof.
  intros Hn (ks & slabs & ph & Hks & _). unfold pipeline_buffer in Hks. rewrite length_map, length_routing, length_take in Hks.
  destruct (Z.ltb_spec (max_pipeline_capacity_ lp) (Z.of_nat (Z.to_nat n `min` length (large_primes input)))); [done|lia].
Qed.

Section chain.
Context (lp : LargePrimeVariant) (T : list bucket) (W out0 : list relation) (input : HostRelationBatch) (rs : list relation) (n : Z).
Context (Hlp : lp_ok lp T W out0) (Hin : repr input rs) (Hn : 0 <= n <= Z.of_nat (length rs)).

Notation bits := (hash_bits (lp_config lp)).
Notation purge := (purge_after_match (lp_config lp)).
Notation items := (take (Z.to_nat n) rs).
Notation lps := (map r_lp items).
Notation keys := (map fst (directory_fetch_kernel bits (d_directory lp) lps)).
Notation max_rows := (max_slab_rows_ lp).

Context (Hfits : Forall (partial_fits bits) items).

Lemma input_lps : take (Z.to_nat n) (large_primes input) = lps.
Proof using Hin Hn.
  destruct (repr_lp _ _ Hin) as [l ->]. rewrite take_app_le by (rewrite length_map; lia). change map with (@fmap list _). by rewrite fmap_take.
Qed.

Lemma item_read i r : items !! i = Some r -> relation_at input (Z.of_nat i) = r.
Proof using Hin. intros [H _]%lookup_take_Some. by eapply repr_relation_at. Qed.

Lemma lps_tag i p : lps !! i = Some p -> lp_tag bits p <> 2 ^ 32 - 1.
Proof using Hfits.
  change map with (@fmap list _). rewrite list_lookup_fmap. destruct (items !! i) as [r|] eqn:E; [|done]. intros H.
  assert (p = r_lp r) as -> by (symmetry; exact (f_equal (default 0) H)). rewrite Forall_lookup in Hfits. by apply (Hfits i r).
Qed.

Lemma witnesses_count : Z.of_nat (length W) < 2 ^ 32.
Proof using Hlp.
  clear Hn Hin Hfits. pose proof (batch_fits _ _ (lo_witnesses _ _ _ _ Hlp)). pose proof (bo_rels _ _ (lo_witnesses _ _ _ _ Hlp)). lia.
Qed.

(** The relations and the index a thread works with, after the probe. *)
Lemma thread_items slabs ph T1 i p :
  probe_result purge bits max_rows W (d_directory lp) (d_payload_slabs lp) (d_global_row_allocator lp) T lps slabs ph T1 -> ph !! i = Some p ->
  exists r, items !! i = Some r /\ lps !! i = Some (r_lp r).
Proof using Type.
  intros H Hp. destruct (lookup_lt_is_Some_2 items i) as [r Hr].
  { apply lookup_lt_Some in Hp. pose proof (pi_length _ _ _ _ _ _ _ _ _ _ (pr_inv _ _ _ _ _ _ _ _ _ _ _ _ H)) as Hl. cbn in Hl. rewrite length_map in Hl. lia. }
  exists r. split; [done|]. change map with (@fmap list _). by rewrite list_lookup_fmap, Hr.
Qed.

Lemma combine_work slabs ph T1 :
  probe_result purge bits max_rows W (d_directory lp) (d_payload_slabs lp) (d_global_row_allocator lp) T lps slabs ph T1 ->
  imap (combine_one (lp_modulus lp) input (d_batch (d_global_witnesses lp))) ph = zip_with (pair_up (lp_modulus lp) W) items (map found ph).
Proof using Hlp Hin.
  intros H. apply list_eq. intros i. rewrite list_lookup_imap, lookup_zip_with. change map with (@fmap list _). rewrite list_lookup_fmap.
  destruct (ph !! i) as [p|] eqn:Ep; [|by destruct (items !! i)]. destruct (thread_items slabs ph T1 i p H Ep) as (r & Hr & _). rewrite Hr. cbn. f_equal.
  destruct (pr_status _ _ _ _ _ _ _ _ _ _ _ _ H i p Ep) as [->|[->|(g & w & -> & Hg & Hw)]]; [done|done|]. cbn [found combine_one pair_up mbind option_bind].
  rewrite Hw. cbn. rewrite (item_read i r Hr). f_equal. rewrite <- (Z2Nat.id g) by done. eapply repr_relation_at; [apply (lo_witnesses _ _ _ _ Hlp)|done].
Qed.

Lemma insert_work slabs ph T1 :
  probe_result purge bits max_rows W (d_directory lp) (d_payload_slabs lp) (d_global_row_allocator lp) T lps slabs ph T1 ->
  imap (insertion_at bits keys input) ph = zip_with (to_insert bits) items (map found ph).
Proof using Hlp Hin.
  intros H. apply list_eq. intros i. rewrite list_lookup_imap, lookup_zip_with. change (map found ph) with (found <$> ph). rewrite list_lookup_fmap.
  destruct (ph !! i) as [p|] eqn:Ep; [|by destruct (items !! i)]. destruct (thread_items slabs ph T1 i p H Ep) as (r & Hr & Hl). rewrite Hr. cbn [fmap option_fmap option_map]. f_equal.
  assert (idx keys (Z.of_nat i) = (fetch_one bits (d_directory lp) (r_lp r)).1) as Ek.
  { unfold idx. rewrite Nat2Z.id. apply nth_lookup_Some. exact (routing_key_at bits (d_directory lp) lps i (r_lp r) Hl). }
  destruct (bucket_exists _ _ _ _ _ _ _ _ (proj1 (lo_bits _ _ _ _ Hlp)) (lo_table _ _ _ _ Hlp) (r_lp r)) as [b Hb].
  pose proof (key_spec _ _ _ _ _ _ _ _ (lo_rows _ _ _ _ Hlp) (lo_table _ _ _ _ Hlp) (r_lp r) b Hb) as [Ht _].
  destruct (pr_status _ _ _ _ _ _ _ _ _ _ _ _ H i p Ep) as [->|[->|(g & w & -> & Hg & Hw)]]; cbn [found insertion_at to_insert]; [| |done];
    unfold insertion_of; by rewrite Ek, (item_read i r Hr), Ht.
Qed.

Lemma found_matched slabs ph T1 :
  probe_result purge bits max_rows W (d_directory lp) (d_payload_slabs lp) (d_global_row_allocator lp) T lps slabs ph T1 ->
  matched purge bits T W T1 items (map found ph).
Proof using Hlp Hfits.
  intros H. pose proof (pr_inv _ _ _ _ _ _ _ _ _ _ _ _ H) as I. pose proof (pi_length _ _ _ _ _ _ _ _ _ _ I) as Hl. cbn [snd] in Hl. rewrite length_map in Hl.
  assert (forall i g, map found ph !! i = Some (Some g) -> exists w, ph !! i = Some (PDone MATCH_FOUND (Some g)) /\ 0 <= g /\ W !! Z.to_nat g = Some w) as Hf.
  { intros i g Hi. change map with (@fmap list _) in Hi. rewrite list_lookup_fmap in Hi. destruct (ph !! i) as [p|] eqn:Ep; [|done].
    destruct (pr_status _ _ _ _ _ _ _ _ _ _ _ _ H i p Ep) as [->|[->|(g' & w & -> & Hg & Hw)]]; [done|done|]. injection Hi as <-. by exists w. }
  assert (forall i r, items !! i = Some r -> lps !! i = Some (r_lp r)) as Hlk by (intros i r Hr; change map with (@fmap list _); by rewrite list_lookup_fmap, Hr).
  constructor.
  - by rewrite length_map.
  - intros i g Hi. destruct (Hf i g Hi) as (w & _ & ? & ?). by exists w.
  - apply I.
  - intros Hp. destruct (probe_found _ _ _ _ _ _ _ _ _ slabs ph T1 Hp H) as (E & -> & _). split; [|done]. rewrite E. by rewrite map_map.
  - intros Hp i j r r' g Hr Hr' Hi Hj El Hnz. destruct (Hf i g Hi) as (w & Hi' & _), (Hf j g Hj) as (w' & Hj' & _).
    eapply (pi_once _ _ _ _ _ _ _ _ _ _ I i j (r_lp r) (r_lp r') g Hp); [by apply Hlk..|done|done| |done]. by rewrite El.
  - intros Hp i r g h b Hr Hi Hnz Hb [k Hk]%list_elem_of_lookup. destruct (Hf i g Hi) as (w & Hi' & _).
    destruct (pi_facts _ _ _ _ _ _ _ _ _ _ I i _ _ (Hlk i r Hr) Hi') as (b0 & Hb0 & _ & k0 & x0 & Hk0 & Hx0 & Hc). rewrite Hp in Hc. destruct Hx0 as [Hx0|[? _]]; [|done].
    destruct (Forall2_lookup_r _ _ _ _ _ (pi_cleared _ _ _ _ _ _ _ _ _ _ I) Hb) as (b1 & Hb1 & _ & Ef). destruct (Forall2_lookup_r _ _ _ _ _ Ef Hk) as (x1 & Hk1 & [Ex|Ex]); [|done].
    destruct (tc_unique _ _ _ _ _ _ _ (tr_core _ _ _ _ _ _ _ _ (lo_table _ _ _ _ Hlp)) h _ b1 b0 k k0 x0 Hb1 Hb0) as [-> ->]; [congruence|done|congruence|].
    destruct Hc as (b2 & Hb2 & Hk2). rewrite Hb in Hb2. injection Hb2 as <-. rewrite Hk in Hk2. injection Hk2 as Hk2. congruence.
Qed.

Lemma pair_up_length i r ms : zip_with (pair_up (lp_modulus lp) W) items ms !! i = Some (Some r) -> r_len r <= 64.
Proof using Type.
  intros H. apply lookup_zip_with_Some in H as (a & m & E & _ & _). unfold pair_up in E. destruct m as [g|]; [|done]. cbn in E.
  destruct (W !! Z.to_nat g) as [w|]; [|done]. cbn in E. by eapply combine_pair_length.
Qed.

Lemma to_insert_ok i w ms : zip_with (to_insert bits) items ms !! i = Some (Some w) ->
  0 <= in_bucket w < 2 ^ bits /\ in_bucket w = lp_hash bits (r_lp (in_relation w)) /\ in_tag w = lp_tag bits (r_lp (in_relation w)) /\ r_len (in_relation w) <= 64.
Proof using Hlp Hfits.
  intros H. apply lookup_zip_with_Some in H as (r & m & E & Hr & _). rewrite Forall_lookup in Hfits. destruct (Hfits i r Hr) as (_ & _ & Hl).
  destruct m; [done|]. apply (inj Some) in E as ->. unfold insertion_of. cbn [in_bucket in_tag in_relation]. split; [apply lp_hash_range, Hlp|]. unfold r_len. split_and!; [done..|lia].
Qed.

Lemma inserted_relations (l : list relation) ms : map in_relation (omap id (zip_with (to_insert bits) l ms)) = omap id (zip_with unmatched l ms).
Proof using Type. revert ms. induction l as [|r l IH]; intros [|[g|] ms]; try done; cbn; [apply IH|]. f_equal. apply IH. Qed.

(** What the chain of kernels has done when it has ended. *)
Record chain_result (lp' : LargePrimeVariant) (T1 T' : list bucket) (ms : list (option Z)) (out new : list relation) : Prop := mkChain {
  ch_matched : matched purge bits T W T1 items ms;
  ch_ok : lp_ok lp' T' (W ++ new) (out0 ++ out);
  ch_same : lp_config lp' = lp_config lp /\ lp_modulus lp' = lp_modulus lp /\ max_slab_rows_ lp' = max_rows /\ max_pipeline_capacity_ lp' = max_pipeline_capacity_ lp;
  ch_grown : grown T1 T';
  ch_out : exists lost, out ++ lost ≡ₚ omap id (zip_with (pair_up (lp_modulus lp) W) items ms) /\ Forall (no_space (d_output_batch lp) (out0 ++ out)) lost;
  ch_new : exists lost, new ++ lost ≡ₚ omap id (zip_with unmatched items ms) /\ Forall (no_space (d_global_witnesses lp) (W ++ new)) lost;
  ch_entered : forall i r, items !! i = Some r -> ms !! i = Some None ->
    no_space (d_global_witnesses lp) (W ++ new) r \/
    exists g, Z.of_nat (length W) <= g /\ (W ++ new) !! Z.to_nat g = Some r /\ entered max_rows T' (d_global_row_allocator lp') (insertion_of bits r) g
}.

Lemma chain_spec lp' : lp_pipeline lp input n lp' -> exists T1 T' ms out new, chain_result lp' T1 T' ms out new.
Proof using Hlp Hin Hn Hfits.
  unfold lp_pipeline. rewrite input_lps. intros (ks & slabs & ph & Hks & Hprobe & out & oph & Hcomb & st & [Hsteps Hfin] & ->).
  apply pipeline_buffer_inv in Hks as ->.
  destruct (probe_run_spec purge bits max_rows W (d_directory lp) (d_payload_slabs lp) (d_global_row_allocator lp) T lps (proj1 (lo_bits _ _ _ _ Hlp)) (lo_rows _ _ _ _ Hlp)
    witnesses_count (lo_table _ _ _ _ Hlp) lps_tag slabs ph Hprobe) as [T1 HP].
  rewrite (combine_work slabs ph T1 HP) in Hcomb. rewrite (insert_work slabs ph T1 HP) in Hsteps. pose proof (found_matched slabs ph T1 HP) as Hm. set (ms := map found ph) in *.
  pose proof (lo_output _ _ _ _ Hlp) as Ho. pose proof (lo_witnesses _ _ _ _ Hlp) as Hw. destruct (batch_view _ _ Ho) as (V1 & V2 & V3). destruct (batch_view _ _ Hw) as (U1 & U2 & U3).
  pose proof (batch_fits _ _ Ho) as [F1 F2].
  destruct (combine_run_spec (get_view (d_output_batch lp)) out0 _ V1 V2 V3 (fun i r H => pair_up_length i r ms H) _ _ _ out oph (view_allocated _ (bo_device _ _ Ho)) (bo_repr _ _ Ho)
    ltac:(rewrite view_rels by apply Ho; exact F1) F2 (batch_dual _ _ Ho) Hcomb) as (lost & C1 & C2 & C3 & _).
  pose proof (insert_start_inv purge bits max_rows (get_view (d_global_witnesses lp)) W T1 (zip_with (to_insert bits) items ms) (d_directory lp) slabs (d_global_row_allocator lp)
    (d_slab_overflow_count lp) _ (length (zip_with (to_insert bits) items ms)) (pr_table _ _ _ _ _ _ _ _ _ _ _ _ HP) (batch_start _ _ (d_witness_overflow_count lp) Hw) eq_refl eq_refl) as I0.
  destruct (insert_steps_inv purge bits max_rows (get_view (d_global_witnesses lp)) W T1 _ (lo_rows _ _ _ _ Hlp) U1 U2 U3 (fun i w H => to_insert_ok i w ms H) T1 _ st I0 Hsteps) as [T' I].
  destruct (insert_finished_spec purge bits max_rows (get_view (d_global_witnesses lp)) W T1 _ U1 U2 U3 T' st I Hfin) as (_ & E2 & E3 & (lost' & E4 & E5) & E6).
  exists T1, T', ms, (so_accepted out), (so_accepted (is_soa st)). rewrite inserted_relations in E4. constructor; cbn [updateStats lp_config lp_modulus max_slab_rows_ d_global_row_allocator]; try done.
  - constructor; cbn [updateStats lp_config max_slab_rows_ d_directory d_payload_slabs d_global_row_allocator d_global_witnesses d_witness_dual_counter d_output_batch]; try apply Hlp; try done.
    + apply batch_finished; [done|apply I|apply Hfin].
    + apply (th_soa _ _ _ _ _ (ii_threads _ _ _ _ _ _ _ _ _ I)).
    + apply batch_finished; [done|done|apply Hcomb].
  - exists lost. split; [done|]. eapply Forall_impl; [exact C2|]. intros r. by apply no_room_space.
  - exists lost'. split; [done|]. eapply Forall_impl; [exact E5|]. intros r. by apply no_room_space.
  - intros i r Hr Hi. assert (zip_with (to_insert bits) items ms !! i = Some (Some (insertion_of bits r))) as Hwk by (rewrite lookup_zip_with, Hr; cbn; by rewrite Hi).
    destruct (E6 i _ Hwk) as [Hno|H]; [left|right; exact H]. by eapply no_room_space.
Qed.

Lemma chain_can_finish : n <= max_pipeline_capacity_ lp -> exists lp', lp_pipeline lp input n lp'.
Proof using Hlp Hin Hn Hfits.
  intros Hcap.
  unfold lp_pipeline. rewrite input_lps.
  destruct (probe_can_finish purge bits max_rows W (d_directory lp) (d_payload_slabs lp) (d_global_row_allocator lp) T lps (proj1 (lo_bits _ _ _ _ Hlp)) (lo_rows _ _ _ _ Hlp)
    witnesses_count (lo_table _ _ _ _ Hlp) lps_tag) as (slabs & ph & Hprobe).
  destruct (probe_run_spec purge bits max_rows W (d_directory lp) (d_payload_slabs lp) (d_global_row_allocator lp) T lps (proj1 (lo_bits _ _ _ _ Hlp)) (lo_rows _ _ _ _ Hlp)
    witnesses_count (lo_table _ _ _ _ Hlp) lps_tag slabs ph Hprobe) as [T1 HP].
  pose proof (lo_witnesses _ _ _ _ Hlp) as Hw. destruct (batch_view _ _ Hw) as (U1 & U2 & U3).
  destruct (combine_can_finish (get_view (d_output_batch lp)) (imap (combine_one (lp_modulus lp) input (d_batch (d_global_witnesses lp))) ph) (d_batch (d_output_batch lp))
    (sync_dual_counter_kernel true 0 (d_batch (d_output_batch lp))).1 (d_output_overflow_count lp)) as (out & oph & Hcomb).
  set (work := imap (insertion_at bits keys input) ph).
  assert (work = zip_with (to_insert bits) items (map found ph)) as Ew by exact (insert_work slabs ph T1 HP).
  pose proof (insert_start_inv purge bits max_rows (get_view (d_global_witnesses lp)) W T1 work (d_directory lp) slabs (d_global_row_allocator lp)
    (d_slab_overflow_count lp) _ (length work) (pr_table _ _ _ _ _ _ _ _ _ _ _ _ HP) (batch_start _ _ (d_witness_overflow_count lp) Hw) eq_refl eq_refl) as I0.
  destruct (insert_can_finish purge bits max_rows (get_view (d_global_witnesses lp)) W T1 work (lo_rows _ _ _ _ Hlp) U1 U2 U3
    ltac:(rewrite Ew; intros i w H; exact (to_insert_ok i w _ H)) T1 _ I0) as (st & Hst & Hfin).
  eexists. exists keys, slabs, ph. split.
  { apply pipeline_buffer_fits. rewrite length_map, length_routing, length_map, length_take. lia. }
  split; [exact Hprobe|]. cbn zeta. exists out, oph. split; [exact Hcomb|]. exists st. split; [by split|reflexivity].
Qed.

End chain.

(** ** Lemmas: partial relations and their fates *)

Lemma partial_width n fb bits r : bits <= 31 -> partial_ok n fb bits r -> in_width 64 (r_lp r).
Proof. intros Hb H. pose proof (pk_range _ _ _ _ H). pose proof (Z.pow_le_mono_r 2 (33 + bits) 64 ltac:(lia) ltac:(lia)). unfold in_width. lia. Qed.

Lemma partial_ok_fits n fb bits r : bits <= 31 -> partial_ok n fb bits r -> partial_fits bits r.
Proof. intros Hb H. split; [by eapply partial_width|]. split; apply H. Qed.

(** What two partial relations combine to. *)
Lemma combine_pair_ok n fb bits N r w :
  0 <= bits <= 31 -> u512_ok N -> u512_val N = n -> n <> 0 -> partial_ok n fb bits r -> partial_ok n fb bits w ->
  combine_pair N r w = (if (r_lp r =? r_lp w) && negb (r_sqrt_Q r =? r_sqrt_Q w) then Some (cut_factors (combine_rel n r w)) else None) /\
  (r_lp r = r_lp w -> combined_ok n fb (combine_rel n r w)).
Proof.
  intros Hb HN <- Hz Hr Hw. pose proof (partial_width _ _ _ _ (proj2 Hb) Hr) as Lr. pose proof (partial_width _ _ _ _ (proj2 Hb) Hw) as Lw. split.
  - rewrite combine_pair_spec; [done|done|done|apply Hr|apply Hw|done|done].
  - intros E. apply combine_valid; [apply Hr|apply Hw|done|apply Hr|apply Hw].
Qed.

Lemma product_ok_cut n fb W r w :
  w ∈ W -> r_lp w = r_lp r -> r_sqrt_Q w <> r_sqrt_Q r -> combined_ok n fb (combine_rel n r w) -> product_ok n fb W r (cut_factors (combine_rel n r w)).
Proof.
  intros Hw El Hq Hok. exists w. split; [done|]. split; [done|]. split; [done|]. split; [done|]. intros Hlen.
  by rewrite (cut_factors_id (combine_rel n r w)) by exact Hlen.
Qed.

(** Without clearing, a probe of a valid partial relation decides its fate. *)
Lemma probe_fate n fb bits N max_rows W dir slabs rows T r :
  0 <= bits <= 31 -> u512_ok N -> u512_val N = n -> n <> 0 -> Z.of_nat (length W) < 2 ^ 32 -> table_repr false bits max_rows W dir slabs rows T ->
  Forall (partial_ok n fb bits) W -> partial_ok n fb bits r ->
  let m := bucket_match bits T (r_lp r) in
  fate n bits T W r (pair_up N W r m, unmatched r m) /\ (forall c, pair_up N W r m = Some c -> product_ok n fb W r c).
Proof.
  intros Hb HN En Hz HW HT HWok Hr m. pose proof (bucket_match_spec bits max_rows W dir slabs rows T (r_lp r) HW HT) as Hm. fold m in Hm. destruct m as [g|].
  - destruct Hm as (w & Hg & Hw & Hh & Ht). assert (w ∈ W) as Hin by (by eapply list_elem_of_lookup_2). rewrite Forall_forall in HWok. pose proof (HWok w Hin) as Hwok.
    assert (r_lp w = r_lp r) as El.
    { pose proof (lp_hash_range bits (r_lp w) (proj1 Hb)). pose proof (lp_hash_range bits (r_lp r) (proj1 Hb)).
      apply (lp_injective bits); [done|apply Hwok|apply Hr|apply Hwok|apply Hr|lia|done]. }
    destruct (combine_pair_ok n fb bits N r w Hb HN En Hz Hr Hwok) as [Ec Hv].
    unfold pair_up, unmatched. cbn [mbind option_bind]. rewrite Hw. cbn [mbind option_bind]. rewrite Ec, El, Z.eqb_refl. cbn [andb].
    destruct (Z.eqb_spec (r_sqrt_Q r) (r_sqrt_Q w)) as [Eq|Nq]; cbn [negb].
    + split; [by eapply fate_repeated|done].
    + split; [by eapply fate_combined|]. intros c H. apply (inj Some) in H as <-. apply product_ok_cut; [done|done|congruence|]. by apply Hv.
  - split; [|done]. apply fate_witness. intros g w b Hg Hw El Hb' Hin. pose proof (lookup_lt_Some _ _ _ Hw). apply (Hm b _ Hb' Hin). unfold entry_tag.
    destruct (payload_fields (lp_tag bits (r_lp w)) g (lp_tag_width _ _) ltac:(unfold in_width; lia)) as [-> _]. by rewrite El.
Qed.

(** All of a batch. *)
Lemma batch_fates n fb bits N max_rows W dir slabs rows T rs :
  0 <= bits <= 31 -> u512_ok N -> u512_val N = n -> n <> 0 -> Z.of_nat (length W) < 2 ^ 32 -> table_repr false bits max_rows W dir slabs rows T ->
  Forall (partial_ok n fb bits) W -> Forall (partial_ok n fb bits) rs ->
  let ms := map (fun r => bucket_match bits T (r_lp r)) rs in
  exists fs, Forall2 (fate n bits T W) rs fs /\ omap fst fs = omap id (zip_with (pair_up N W) rs ms) /\ omap snd fs = omap id (zip_with unmatched rs ms) /\
    (forall c, c ∈ omap fst fs -> exists r, r ∈ rs /\ product_ok n fb W r c).
Proof.
  intros Hb HN En Hz HW HT HWok Hrs. exists (map (fun r => let m := bucket_match bits T (r_lp r) in (pair_up N W r m, unmatched r m)) rs).
  induction rs as [|r rs IH]; [by split_and!; [constructor|done|done|intros c []%not_elem_of_nil]|]. apply Forall_cons in Hrs as [Hr Hrs].
  destruct IH as (I1 & I2 & I3 & I4); [done|].
  destruct (probe_fate n fb bits N max_rows W dir slabs rows T r) as [F1 F2]; [done..|].
  split; [by constructor|]. split; [|split].
  - cbn - [pair_up unmatched bucket_match]. destruct (pair_up N W r _); [f_equal|]; exact I2.
  - cbn - [pair_up unmatched bucket_match]. destruct (unmatched r _); [f_equal|]; exact I3.
  - cbn - [pair_up unmatched bucket_match]. destruct (pair_up N W r _) as [c|] eqn:E.
    + intros c' [->|Hc]%elem_of_cons; [exists r; split; [by left|by apply F2]|]. destruct (I4 c' Hc) as (r' & ? & ?). exists r'. split; [by right|done].
    + intros c' Hc. destruct (I4 c' Hc) as (r' & ? & ?). exists r'. split; [by right|done].
Qed.

(** ** Lemmas: the operations *)

Lemma input_count_spec input rs hint :
  device_ok input -> repr (d_batch input) rs -> hint = 0 \/ hint = Z.of_nat (length rs) -> input_count input hint = Z.of_nat (length rs).
Proof.
  intros Hd H Hh. pose proof (fits_caps _ _ Hd H) as [F _]. pose proof (proj1 Hd). unfold input_count, getCount. rewrite (repr_num_relations _ _ H).
  rewrite !wrap_small by (unfold in_width; lia).
  assert ((if 0 <? hint then hint else Z.of_nat (length rs)) = Z.of_nat (length rs)) as -> by (destruct (Z.ltb_spec 0 hint); lia).
  destruct (Z.ltb_spec (cap_rels input) (Z.of_nat (length rs))); lia.
Qed.

Lemma committed_ok lp T W out cum last : lp_ok lp T W out -> lp_ok (lp_committed lp cum last (reset_counters (d_output_batch lp))) T W [].
Proof. intros H. constructor; try apply H. cbn. eapply reset_batch, H. Qed.

(** What no batch changes, and the next one relies on. *)
Lemma same_committed lp T W out0 rs n lp1 T1 T' ms out new cum last output :
  chain_result lp T W out0 rs n lp1 T1 T' ms out new -> lp_same lp (lp_committed lp1 cum last output).
Proof. intros R. destruct (ch_same _ _ _ _ _ _ _ _ _ _ _ _ R) as (? & ? & _ & ?). by split_and!. Qed.

(** A batch and the persistent relations. *)
Lemma processAndCommit_spec upper_bound lp T W input rs persistent rs0 hint :
  upper_bound_ok upper_bound -> lp_ok lp T W [] -> device_ok input -> repr (d_batch input) rs -> hint = 0 \/ hint = Z.of_nat (length rs) ->
  Z.of_nat (length rs) <= max_pipeline_capacity_ lp -> Forall (partial_fits (hash_bits (lp_config lp))) rs -> device_ok persistent -> repr (d_batch persistent) rs0 ->
  (exists lp' persistent', processAndCommit upper_bound lp input persistent hint lp' persistent') /\
  forall lp' persistent', processAndCommit upper_bound lp input persistent hint lp' persistent' ->
    exists lp1 T1 T' ms out new k, chain_result lp T W [] rs (Z.of_nat (length rs)) lp1 T1 T' ms out new /\
      lp_ok lp' T' (W ++ new) [] /\ lp_same lp lp' /\ d_global_row_allocator lp' = d_global_row_allocator lp1 /\ device_ok persistent' /\
      repr (d_batch persistent') (rs0 ++ take k out) /\ (k <= length out)%nat /\
      ((k < length out)%nat -> Z.of_nat (length rs0 + k) = cap_rels persistent \/ cap_factors persistent < nfac (rs0 ++ take (S k) out)).
Proof.
  intros Hub Hlp Hd H Hh Hcap Hfit Hp H0. unfold processAndCommit. rewrite (input_count_spec input rs hint Hd H Hh).
  assert (Forall (partial_fits (hash_bits (lp_config lp))) (take (Z.to_nat (Z.of_nat (length rs))) rs)) as Hfit' by (by rewrite Nat2Z.id, take_ge by lia).
  assert (0 <= Z.of_nat (length rs) <= Z.of_nat (length rs)) as Hn by lia.
  destruct (Z.eqb_spec (Z.of_nat (length rs)) 0) as [Ez|Ez].
  - split; [by exists lp, persistent|]. intros lp' persistent' [-> ->]. destruct rs; [|done].
    exists lp, T, T, [], [], [], 0%nat. rewrite !app_nil_r. split_and!; try done; [|cbn; lia]. constructor; rewrite ?app_nil_r; try done.
    + constructor; try done. apply Forall_Forall2_diag, Forall_true. intros; apply cleared_refl.
    + by intros h b0 Hb; exists b0.
    + by exists [].
    + by exists [].
  - split.
    + destruct (chain_can_finish lp T W [] (d_batch input) rs _ Hlp H Hn Hfit' Hcap) as [lp1 H1]. eexists _, _. exists lp1. split; [exact H1|]. by split.
    + intros lp' persistent' (lp1 & H1 & Hper & ->). destruct (chain_spec lp T W [] (d_batch input) rs _ Hlp H Hn Hfit' lp1 H1) as (T1 & T' & ms & out & new & R).
      pose proof (ch_ok _ _ _ _ _ _ _ _ _ _ _ _ R) as Hok. cbn [app] in Hok. pose proof (bo_repr _ _ (lo_output _ _ _ _ Hok)) as Hout.
      rewrite (repr_num_relations _ _ Hout) in Hper. destruct (Z.ltb_spec 0 (Z.of_nat (length out))) as [Hpos|Hzero].
      * destruct (append_exact upper_bound persistent (d_output_batch lp1) rs0 out (Z.of_nat (length out)) Hub Hp H0 Hout ltac:(lia)) as (A1 & A2 & A3 & A4).
        rewrite <- Hper in A1, A2. set (k := (append_amount _ _ _ _).1) in *. exists lp1, T1, T', ms, out, new, (Z.to_nat k). split; [exact R|]. split; [by eapply committed_ok|].
        split; [by eapply same_committed|]. split; [done|]. split; [done|]. split; [exact A2|]. split; [lia|]. intros Hk. destruct A4 as [A4|A4]; [lia|left; lia|right]. by replace (S (Z.to_nat k)) with (Z.to_nat (k + 1)) by lia.
      * exists lp1, T1, T', ms, out, new, 0%nat. rewrite take_0, app_nil_r, Hper. split; [exact R|]. split; [by eapply committed_ok|].
        split; [by eapply same_committed|]. split_and!; try done; lia.
Qed.

(** A device batch just allocated. *)
Lemma fresh_batch fresh nr nf : fresh_ok fresh -> 0 < nr -> nr + 1 < 2 ^ 32 -> 0 <= nf -> nf + 64 < 2 ^ 32 ->
  batch_ok (reset_counters (resize_device fresh (mkDevice batch_empty 0 0 0) nr nf)) [].
Proof.
  intros Hf H1 H2 H3 H4. set (d := resize_device fresh (mkDevice batch_empty 0 0 0) nr nf).
  assert (cap_rels d = nr /\ cap_factors d = nf) as [Ec Ef].
  { unfold d, resize_device. cbn [cap_rels cap_factors]. rewrite !Z.max_r by lia. destruct (Z.eqb_spec nr 0); [lia|]. done. }
  assert (forall a, Z.of_nat (length (fresh a (extent a nr nf))) = extent a nr nf) as Hl by (intros a; apply Hf; unfold extent; destruct a; lia).
  assert (forall a, cells (d_batch d) a = match a with ACharBits => memcpy (replicate (Z.to_nat nr) 0) 0 [] 0 | AOffsets => set_offset0 (fresh AOffsets (nr + 1)) | _ => memcpy (fresh a (extent a nr nf)) 0 [] 0 end) as Hc.
  { intros a. unfold d, resize_device. cbn [cap_rels cap_factors d_batch batch_empty num_relations num_factors]. rewrite !Z.max_r by lia. destruct (Z.eqb_spec nr 0); [lia|]. cbn [andb d_batch].
    rewrite !(Z.min_l 0) by lia. destruct a; done. }
  constructor; cbn [reset_counters d_batch cap_rels cap_factors]; rewrite ?Ec, ?Ef; try lia.
  - split; [cbn; lia|]. split; [cbn; lia|]. intros a. cbn [reset_counters d_batch cap_rels cap_factors]. rewrite set_counts_cells, Hc, Ec, Ef. specialize (Hl a).
    destruct a; rewrite ?length_memcpy; cbn [extent length] in *; rewrite ?length_replicate; try lia. rewrite (proj2 (set_offset0_spec (fresh AOffsets (nr + 1)) ltac:(lia))). done.
  - apply repr_prefix. split; [|done]. intros a. rewrite set_counts_cells, Hc. specialize (Hl a). destruct a; try apply prefix_nil. cbn [extent] in Hl. apply (set_offset0_spec (fresh AOffsets (nr + 1)) ltac:(lia)).
Qed.

(** ** Properties *)

(** [initiate] throws exactly when the hash has more than 31 bits; otherwise the table is empty and every batch is, for capacities
    whose factor arrays a 32-bit counter can count. *)
Theorem initiate_exact fresh cfg n :
  fresh_ok fresh -> 0 <= hash_bits cfg -> 0 < max_witness_capacity cfg < 2 ^ 26 - 1 -> 0 < max_combined_output cfg < 2 ^ 26 - 1 ->
  if 31 <? hash_bits cfg then initiate fresh cfg n = None
  else exists lp, initiate fresh cfg n = Some lp /\ lp_config lp = cfg /\ lp_modulus lp = n /\ lp_ok lp (empty_table (hash_bits cfg)) [] [] /\
    max_pipeline_capacity_ lp = Z.max 65536 (max_witness_capacity cfg).
Proof.
  intros Hf Hb Hc Ho. unfold initiate. destruct (Z.ltb_spec 31 (hash_bits cfg)) as [|Hle]; [done|]. eexists. split; [reflexivity|]. split; [done|]. split; [done|]. split; [|done].
  pose proof (Z.pow_pos_nonneg 2 (hash_bits cfg) ltac:(lia) Hb) as Hp. pose proof (Z.pow_le_mono_r 2 (hash_bits cfg) 31 ltac:(lia) Hle) as Hp'.
  rewrite Z.shiftl_1_l, !(wrap_small 32), (wrap_small 64) by (unfold in_width; lia).
  constructor; cbn [lp_config max_slab_rows_ d_directory d_payload_slabs d_global_row_allocator d_global_witnesses d_witness_dual_counter d_output_batch]; [lia|lia| | |done|].
  - apply empty_repr; lia.
  - apply fresh_batch; (done || lia).
  - apply fresh_batch; (done || lia).
Qed.

(** C22. Entries left in place: a batch of valid partial relations, no more than the pipeline buffers have entries, meets a table of valid witnesses;
    each has at most 64 factors and an odd large prime that the table can encode ([partial_ok]).
    In every interleaving of the threads each of them has its fate - it is combined with a witness of its large prime, or repeats that witness, or
    is offered to the witnesses, when none of its large prime is entered. A relation found is the product of a relation of the batch and a witness, and valid
    when the product has at most 64 different factors; the kernel cuts a longer one to its first 64 (largeprime.cu:464, [ex_merge_truncated]). A product
    or a witness is missing only when its batch has no space, a new witness is found in the table unless its bucket is full or the rows are used up, some run
    of the kernels ends, and configuration and buffers stay as they are. A batch beyond the pipeline buffers has no defined run ([pipeline_overflow]). *)
Theorem processAndCommit_exact upper_bound fb lp T W input rs persistent rs0 hint :
  let n := u512_val (lp_modulus lp) in
  let bits := hash_bits (lp_config lp) in
  upper_bound_ok upper_bound -> purge_after_match (lp_config lp) = false -> lp_ok lp T W [] -> u512_ok (lp_modulus lp) -> n <> 0 ->
  device_ok input -> repr (d_batch input) rs -> hint = 0 \/ hint = Z.of_nat (length rs) -> device_ok persistent -> repr (d_batch persistent) rs0 ->
  Forall (partial_ok n fb bits) W -> Forall (partial_ok n fb bits) rs -> Z.of_nat (length rs) <= max_pipeline_capacity_ lp ->
  (exists lp' persistent', processAndCommit upper_bound lp input persistent hint lp' persistent') /\
  forall lp' persistent', processAndCommit upper_bound lp input persistent hint lp' persistent' ->
    exists T' fs out new k, lp_ok lp' T' (W ++ new) [] /\ lp_same lp lp' /\ grown T T' /\ Forall2 (fate n bits T W) rs fs /\
      (forall c, c ∈ omap fst fs -> exists r, r ∈ rs /\ product_ok n fb W r c) /\
      (exists lost, out ++ lost ≡ₚ omap fst fs /\ Forall (no_space (d_output_batch lp) out) lost) /\
      (exists lost, new ++ lost ≡ₚ omap snd fs /\ Forall (no_space (d_global_witnesses lp) (W ++ new)) lost) /\
      (forall r, r ∈ omap snd fs -> no_space (d_global_witnesses lp) (W ++ new) r \/
         exists g, Z.of_nat (length W) <= g /\ (W ++ new) !! Z.to_nat g = Some r /\ entered (max_slab_rows_ lp) T' (d_global_row_allocator lp') (insertion_of bits r) g) /\
      repr (d_batch persistent') (rs0 ++ take k out) /\
      ((k < length out)%nat -> Z.of_nat (length rs0 + k) = cap_rels persistent \/ cap_factors persistent < nfac (rs0 ++ take (S k) out)).
Proof.
  intros n bits Hub Hp Hlp HN Hz Hd H Hh Hpd H0 HW Hrs Hcap. subst n bits. pose proof (lo_bits _ _ _ _ Hlp) as Hb.
  destruct (processAndCommit_spec upper_bound lp T W input rs persistent rs0 hint Hub Hlp Hd H Hh Hcap) as [Hex Hall]; [|done|done|].
  { eapply Forall_impl; [exact Hrs|]. intros r. apply partial_ok_fits, Hb. }
  split; [exact Hex|]. intros lp' persistent' Hrun. destruct (Hall lp' persistent' Hrun) as (lp1 & T1 & T' & ms & out & new & k & R & A1 & AS & A2 & A3 & A4 & A5 & A6).
  pose proof (lo_table _ _ _ _ Hlp) as HT. rewrite Hp in HT.
  destruct (batch_fates (u512_val (lp_modulus lp)) fb (hash_bits (lp_config lp)) (lp_modulus lp) _ W _ _ _ T rs Hb HN eq_refl Hz (witnesses_count lp T W [] Hlp) HT HW Hrs) as (fs & F1 & F2 & F3 & F4).
  destruct R as [Rm _ _ Rg Ro Rn Re]. rewrite Nat2Z.id, take_ge in * by lia. destruct (ma_keep _ _ _ _ _ _ _ Rm Hp) as [Ems ->]. rewrite Ems in *. rewrite <- F2 in Ro. rewrite <- F3 in Rn.
  exists T', fs, out, new, k. split; [exact A1|]. split; [exact AS|]. split; [exact Rg|]. split; [exact F1|]. split; [exact F4|]. split; [exact Ro|]. split; [exact Rn|]. split; [|split; [exact A4|exact A6]].
  rewrite F3, A2. intros r Hr. apply list_elem_of_omap in Hr as (o & Ho & Eo). cbn in Eo. subst o. apply list_elem_of_lookup in Ho as [i Hi].
  apply lookup_zip_with_Some in Hi as (r' & m & E & Hr' & Hm). destruct m; [done|]. injection E as <-. by apply (Re i r).
Qed.

Lemma clear_batch d rs : batch_ok d rs -> batch_ok (clear_device (reset_counters d)) [].
Proof.
  intros H. pose proof (reset_batch d rs H) as R. set (d1 := reset_counters d) in *. destruct (bo_device _ _ R) as (D1 & D2 & D3).
  destruct (set_offset0_spec (cells (d_batch d1) AOffsets)) as [S1 S2]; [specialize (D3 AOffsets); cbn [extent] in D3; lia|].
  constructor; [| |apply R..].
  - split; [done|]. split; [done|]. intros a. cbn [clear_device d_batch cap_rels cap_factors]. rewrite cells_of_cells. destruct a; try apply D3. rewrite S2. apply D3.
  - apply repr_prefix. split; [|done]. intros a. cbn [clear_device d_batch]. rewrite cells_of_cells. destruct a; try apply prefix_nil. exact S1.
Qed.

(** C23. Entries cleared after a match, for such a batch of at most as many relations as the pipeline buffers have entries: every relation found is the product of a partial relation of the
    batch and a witness of its large prime with another root, valid when the product has at most 64 different factors and cut to its first 64 otherwise; a witness
    is matched by one partial relation of its large prime only, and its entry is gone afterwards - but for an entry that equals the value of cleared entries,
    that of the first witness when its tag is 0. *)
Theorem processAndCommit_purge upper_bound fb lp T W input rs persistent rs0 hint :
  let n := u512_val (lp_modulus lp) in
  let bits := hash_bits (lp_config lp) in
  upper_bound_ok upper_bound -> purge_after_match (lp_config lp) = true -> lp_ok lp T W [] -> u512_ok (lp_modulus lp) -> n <> 0 ->
  device_ok input -> repr (d_batch input) rs -> hint = 0 \/ hint = Z.of_nat (length rs) -> device_ok persistent -> repr (d_batch persistent) rs0 ->
  Forall (partial_ok n fb bits) W -> Forall (partial_ok n fb bits) rs -> Z.of_nat (length rs) <= max_pipeline_capacity_ lp ->
  (exists lp' persistent', processAndCommit upper_bound lp input persistent hint lp' persistent') /\
  forall lp' persistent', processAndCommit upper_bound lp input persistent hint lp' persistent' ->
    exists T1 T' ms out new k, lp_ok lp' T' (W ++ new) [] /\ lp_same lp lp' /\ matched true bits T W T1 rs ms /\ grown T1 T' /\
      (forall c, c ∈ out -> exists r, r ∈ rs /\ product_ok n fb W r c) /\
      (exists lost, out ++ lost ≡ₚ omap id (zip_with (pair_up (lp_modulus lp) W) rs ms) /\ Forall (no_space (d_output_batch lp) out) lost) /\
      (exists lost, new ++ lost ≡ₚ omap id (zip_with unmatched rs ms) /\ Forall (no_space (d_global_witnesses lp) (W ++ new)) lost) /\
      repr (d_batch persistent') (rs0 ++ take k out) /\
      ((k < length out)%nat -> Z.of_nat (length rs0 + k) = cap_rels persistent \/ cap_factors persistent < nfac (rs0 ++ take (S k) out)).
Proof.
  intros n bits Hub Hp Hlp HN Hz Hd H Hh Hpd H0 HW Hrs Hcap. subst n bits. pose proof (lo_bits _ _ _ _ Hlp) as Hb.
  destruct (processAndCommit_spec upper_bound lp T W input rs persistent rs0 hint Hub Hlp Hd H Hh Hcap) as [Hex Hall]; [|done|done|].
  { eapply Forall_impl; [exact Hrs|]. intros r. apply partial_ok_fits, Hb. }
  split; [exact Hex|]. intros lp' persistent' Hrun. destruct (Hall lp' persistent' Hrun) as (lp1 & T1 & T' & ms & out & new & k & R & A1 & AS & A2 & A3 & A4 & A5 & A6).
  destruct R as [Rm _ _ Rg Ro Rn _]. rewrite Nat2Z.id, take_ge in * by lia. rewrite Hp in Rm. cbn [app] in Ro.
  exists T1, T', ms, out, new, k. split; [exact A1|]. split; [exact AS|]. split; [exact Rm|]. split; [exact Rg|]. split; [|split; [exact Ro|split; [exact Rn|split; [exact A4|exact A6]]]].
  intros c Hc. destruct Ro as (lost & Ho & _). assert (c ∈ omap id (zip_with (pair_up (lp_modulus lp) W) rs ms)) as Hin by (rewrite <- Ho; apply elem_of_app; by left).
  apply list_elem_of_omap in Hin as (o & Hin & E). cbn in E. subst o. apply list_elem_of_lookup in Hin as [i Hi]. apply lookup_zip_with_Some in Hi as (r & m & E & Hr & Hm).
  destruct m as [g|]; [|done]. cbn in E. destruct (W !! Z.to_nat g) as [w|] eqn:Ew; [|done]. cbn in E. rewrite Forall_forall in HW, Hrs.
  pose proof (list_elem_of_lookup_2 _ _ _ Hr) as Hrin. pose proof (list_elem_of_lookup_2 _ _ _ Ew) as Hwin.
  destruct (combine_pair_ok (u512_val (lp_modulus lp)) fb (hash_bits (lp_config lp)) (lp_modulus lp) r w Hb HN eq_refl Hz (Hrs r Hrin) (HW w Hwin)) as [Ec Hv].
  rewrite Ec in E. destruct (Z.eqb_spec (r_lp r) (r_lp w)) as [El|]; [|done]. destruct (Z.eqb_spec (r_sqrt_Q r) (r_sqrt_Q w)) as [|Nq]; [done|]. cbn in E.
  apply (inj Some) in E as ->. exists r. split; [done|]. apply product_ok_cut; [done|done|congruence|]. by apply Hv.
Qed.

(** C25. The asynchronous dispatch, for an input of no more relations than the pipeline buffers have entries, each with at most 64 factors and a
    large prime that the table can encode, adds to the output batch; the append on the
    device then hands over the whole output or, when it does not fit, nothing, and empties the output batch in both cases; the counter of combined relations counts
    what was handed over. Beyond the buffers the kernels store out of bounds, and there is no run to speak of ([pipeline_overflow], largeprime.cu:1072). *)
Theorem async_append_exact lp T W out0 input rs persistent rs0 :
  lp_ok lp T W out0 -> device_ok input -> repr (d_batch input) rs -> Forall (partial_fits (hash_bits (lp_config lp))) rs ->
  device_ok persistent -> cap_factors persistent < 2 ^ 32 -> repr (d_batch persistent) rs0 -> cap_rels input < 2 ^ 32 - 255 -> Z.of_nat (length rs) <= max_pipeline_capacity_ lp ->
  (exists lp', processAndCommitAsync lp input lp') /\
  forall lp1, processAndCommitAsync lp input lp1 ->
    exists T1 T' ms out new, chain_result lp T W out0 rs (Z.of_nat (length rs)) lp1 T1 T' ms out new /\
      let '(lp', persistent') := launchDeviceAppend lp1 persistent in
      lp_ok lp' T' (W ++ new) [] /\ device_ok persistent' /\
      (repr (d_batch persistent') (rs0 ++ out0 ++ out) /\ d_cum_full_relations_ lp' = wrap 64 (d_cum_full_relations_ lp1 + Z.of_nat (length (out0 ++ out))) \/
       persistent' = persistent /\ d_cum_full_relations_ lp' = wrap 64 (d_cum_full_relations_ lp1) /\
       (cap_rels persistent < Z.of_nat (length (rs0 ++ out0 ++ out)) \/ cap_factors persistent < nfac (rs0 ++ out0 ++ out))).
Proof.
  intros Hlp Hd H Hfit Hp Hcf H0 Hcap Hroom. pose proof (fits_caps _ _ Hd H) as [F _]. pose proof (proj1 Hd) as Hd0. unfold processAndCommitAsync, getCount.
  rewrite (repr_num_relations _ _ H), !wrap_small by (rewrite ?wrap_small; unfold in_width; lia).
  assert (Z.min ((cap_rels input + 255) / 256 * 256) (Z.of_nat (length rs)) = Z.of_nat (length rs)) as ->.
  { pose proof (Z.div_mod (cap_rels input + 255) 256 ltac:(lia)). pose proof (Z.mod_pos_bound (cap_rels input + 255) 256 ltac:(lia)). lia. }
  assert (Forall (partial_fits (hash_bits (lp_config lp))) (take (Z.to_nat (Z.of_nat (length rs))) rs)) as Hfit' by (by rewrite Nat2Z.id, take_ge by lia).
  assert (0 <= Z.of_nat (length rs) <= Z.of_nat (length rs)) as Hn by lia.
  split; [by eapply chain_can_finish|]. intros lp1 H1. destruct (chain_spec lp T W out0 (d_batch input) rs _ Hlp H Hn Hfit' lp1 H1) as (T1 & T' & ms & out & new & R).
  exists T1, T', ms, out, new. split; [exact R|]. pose proof (ch_ok _ _ _ _ _ _ _ _ _ _ _ _ R) as Hok. unfold launchDeviceAppend.
  pose proof (device_append_spec ex_upper_bound persistent (d_output_batch lp1) rs0 (out0 ++ out) ex_upper_bound_ok (lo_output _ _ _ _ Hok) Hp Hcf H0) as Ha.
  destruct (device_append_kernel persistent (d_output_batch lp1)) as [persistent' appended]. destruct Ha as (B1 & _ & _ & B4). split; [|split; [exact B1|]].
  - constructor; try apply Hok. cbn. eapply clear_batch, Hok.
  - cbn [lp_committed d_cum_full_relations_]. destruct B4 as [[B4 ->]|(-> & -> & B5)]; [left; by split|right]. rewrite Z.add_0_r. by split_and!.
Qed.

(** The witnesses downloaded at the end of the sieve. *)
Lemma moveWitnessesToHost_spec lp T W out dest : lp_ok lp T W out -> W <> [] -> repr (moveWitnessesToHost lp dest) W.
Proof.
  intros H Hne. apply moveToHost_spec; [|done]. pose proof (batch_fits _ _ (lo_witnesses _ _ _ _ H)) as [F1 F2]. pose proof (bo_rels _ _ (lo_witnesses _ _ _ _ H)).
  pose proof (bo_factors _ _ (lo_witnesses _ _ _ _ H)). pose proof (nfac_nonneg W). rewrite (lo_dual _ _ _ _ H). cbn [update_batch d_batch sync_dual_counter_kernel snd].
  destruct (unpack_pack_rf (Z.of_nat (length W)) (nfac W)) as [-> ->]; [unfold in_width; lia..|]. apply repr_prefix. split; [|done]. intros a. rewrite set_counts_cells.
  by apply (proj1 (repr_prefix _ _) (bo_repr _ _ (lo_witnesses _ _ _ _ H))).
Qed.

(** Every combined relation has a provenance record with its root. *)
Lemma capture_one_spec n input witnesses i ph c :
  combine_one n input witnesses i ph = Some c -> exists e, capture_one n input witnesses i ph = Some e /\ pv_u_c e = r_sqrt_Q c /\ pv_lp e = r_lp c.
Proof.
  unfold combine_one, capture_one, combine_pair. destruct ph as [| |[] [g|]]; try done. cbn zeta. destruct (negb _); [done|]. destruct (_ =? _); [done|].
  intros H. apply (inj Some) in H as <-. eexists. split; [reflexivity|]. by split.
Qed.

(** ** Witnesses *)

Lemma ex_lp_batch_ok r : r = ex_witness \/ r = ex_lp_partial -> batch_ok (ex_lp_batch r) [r].
Proof.
  intros [-> | ->]; (constructor; [split; [done|split; [done|intros []; by vm_compute]]|constructor; try (eexists; vm_compute; reflexivity); by vm_compute|done|done]).
Qed.

Lemma ex_table_repr purge : table_repr purge 3 8 [ex_witness] (d_directory (ex_lp purge)) (d_payload_slabs (ex_lp purge)) 1 ex_table.
Proof.
  constructor; [| |done|done].
  - assert (table_core purge 3 8 [ex_witness] (replicate 128 SENTINEL) 0 (empty_table 3)) as H0 by (eapply core_mono; [apply prefix_nil|by apply empty_core]).
    pose proof (core_new_row purge 3 8 [ex_witness] _ 0 _ 3%nat (mkBucket None []) H0 eq_refl eq_refl eq_refl ltac:(lia)) as H1.
    refine (core_write purge 3 8 [ex_witness] _ 1 _ 3%nat (mkBucket (Some 0) []) 0 (slab_payload 1 0) H1 eq_refl eq_refl ltac:(cbn; lia) _ _).
    + right. exists 0, ex_witness. by split_and!.
    + intros h b y Hh Hy. apply list_lookup_insert_Some in Hh as [(_ & <- & _)|[_ [-> _]%lookup_replicate_1]]; by apply not_elem_of_nil in Hy.
  - intros h b Hh. unfold ex_table in Hh. apply list_lookup_insert_Some in Hh as [(<- & <- & _)|[Hne Hh]]; [done|].
    rewrite list_lookup_insert_ne in Hh by done. apply lookup_replicate_1 in Hh as [-> Hlt]. split; [|done]. cbn [ex_lp d_directory]. rewrite list_lookup_insert_ne by done. by apply lookup_replicate_2.
Qed.

Lemma ex_lp_ok purge : lp_ok (ex_lp purge) ex_table [ex_witness] [].
Proof.
  constructor; [done|done|apply ex_table_repr|apply ex_lp_batch_ok; by left|by vm_compute|]. apply (fresh_batch ex_fresh 8 64); [apply ex_fresh_ok|lia..].
Qed.

Lemma ex_relations_ok : Forall (partial_ok 1649 [5] 3) [ex_witness] /\ Forall (partial_ok 1649 [5] 3) [ex_lp_partial].
Proof.
  split.
  - repeat constructor; cbn; unfold in_width; try lia; try (vm_compute; congruence).
  - repeat constructor; cbn; unfold in_width; try lia; try (vm_compute; congruence).
Qed.

(** The output batch of the example, also taken for the persistent one. *)
Lemma ex_output_ok : batch_ok (d_output_batch (ex_lp false)) [].
Proof. apply (lo_output _ _ _ _ (ex_lp_ok false)). Qed.

Lemma initiate_exact_witness : exists lp, initiate ex_fresh (ex_config false) (u512_of_Z 1649) = Some lp /\ lp_ok lp (empty_table 3) [] [].
Proof.
  destruct (initiate_exact ex_fresh (ex_config false) (u512_of_Z 1649) ex_fresh_ok) as (lp & H1 & _ & _ & H2 & _); [cbn; lia|cbn; lia|cbn; lia|].
  exists lp. split; [exact H1|exact H2].
Defined.

(** The second relation finds the first in the table: their product becomes a relation. *)
Lemma processAndCommit_exact_witness :
  exists lp' persistent', processAndCommit ex_upper_bound (ex_lp false) (ex_lp_batch ex_lp_partial) (d_output_batch (ex_lp false)) 0 lp' persistent' /\
    repr (d_batch persistent') [mkRel 1134 255 3 23 3 [(0, 2)]].
Proof.
  destruct ex_relations_ok as (R1 & R2). pose proof (ex_lp_batch_ok ex_lp_partial (or_intror eq_refl)) as Hb.
  destruct (processAndCommit_exact ex_upper_bound [5] (ex_lp false) ex_table [ex_witness] (ex_lp_batch ex_lp_partial) [ex_lp_partial] (d_output_batch (ex_lp false)) [] 0
    ex_upper_bound_ok eq_refl (ex_lp_ok false) (proj1 (u512_of_Z_spec 1649)) ltac:(done) (bo_device _ _ Hb) (bo_repr _ _ Hb) (or_introl eq_refl)
    (bo_device _ _ ex_output_ok) (bo_repr _ _ ex_output_ok) R1 R2 ltac:(cbn; lia)) as [(lp' & persistent' & Hrun) Hall].
  exists lp', persistent'. split; [exact Hrun|]. destruct (Hall lp' persistent' Hrun) as (T' & fs & out & new & k & _ & _ & _ & F & _ & (lost & Ho & Hl) & _ & _ & Hr & Hk).
  inversion F as [|r x rs' fs' Hx Hnil]; subst. inversion Hnil; subst. inversion Hx as [w Hw _ Hq|w Hw _ Hq|Hno]; subst.
  - apply list_elem_of_singleton in Hw as ->. cbn [omap list_omap fst] in Ho. destruct out as [|c out].
    { cbn [app] in Ho. apply Permutation_singleton_r in Ho as ->. apply Forall_cons in Hl as [Hl _]. unfold no_space in Hl. vm_compute in Hl. by destruct Hl. }
    destruct k as [|k]; [destruct (Hk ltac:(cbn; lia)) as [Hc|Hc]; [done|]|].
    + apply Permutation_singleton_r in Ho. injection Ho as -> _. by vm_compute in Hc.
    + apply Permutation_singleton_r in Ho. injection Ho as -> [-> ->]%app_eq_nil. rewrite take_ge in Hr by (cbn; lia). exact Hr.
  - by apply list_elem_of_singleton in Hw as ->.
  - destruct (Hno 0 ex_witness (mkBucket (Some 0) [slab_payload 1 0]) ltac:(done) eq_refl eq_refl eq_refl). by left.
Defined.

Lemma processAndCommit_purge_witness :
  exists lp' persistent' rs', processAndCommit ex_upper_bound (ex_lp true) (ex_lp_batch ex_lp_partial) (d_output_batch (ex_lp false)) 1 lp' persistent' /\
    repr (d_batch persistent') rs' /\ forall c, c ∈ rs' -> c = mkRel 1134 255 3 23 3 [(0, 2)].
Proof.
  destruct ex_relations_ok as (R1 & R2). pose proof (ex_lp_batch_ok ex_lp_partial (or_intror eq_refl)) as Hb.
  destruct (processAndCommit_purge ex_upper_bound [5] (ex_lp true) ex_table [ex_witness] (ex_lp_batch ex_lp_partial) [ex_lp_partial] (d_output_batch (ex_lp false)) [] 1
    ex_upper_bound_ok eq_refl (ex_lp_ok true) (proj1 (u512_of_Z_spec 1649)) ltac:(done) (bo_device _ _ Hb) (bo_repr _ _ Hb) (or_intror eq_refl)
    (bo_device _ _ ex_output_ok) (bo_repr _ _ ex_output_ok) R1 R2 ltac:(cbn; lia)) as [(lp' & persistent' & Hrun) Hall].
  destruct (Hall lp' persistent' Hrun) as (T1 & T' & ms & out & new & k & _ & _ & _ & _ & Ho & _ & _ & Hr & _). exists lp', persistent', (take k out).
  split; [exact Hrun|]. split; [exact Hr|]. intros c [i Hc]%list_elem_of_lookup. apply lookup_take_Some in Hc as [Hc _].
  destruct (Ho c (list_elem_of_lookup_2 _ _ _ Hc)) as (r & ->%list_elem_of_singleton & w & ->%list_elem_of_singleton & _ & _ & -> & _). reflexivity.
Defined.

Lemma async_append_exact_witness :
  exists lp1, processAndCommitAsync (ex_lp true) (ex_lp_batch ex_lp_partial) lp1 /\ device_ok (launchDeviceAppend lp1 (d_output_batch (ex_lp false))).2.
Proof.
  pose proof (ex_lp_batch_ok ex_lp_partial (or_intror eq_refl)) as Hb.
  destruct (async_append_exact (ex_lp true) ex_table [ex_witness] [] (ex_lp_batch ex_lp_partial) [ex_lp_partial] (d_output_batch (ex_lp false)) []
    (ex_lp_ok true) (bo_device _ _ Hb) (bo_repr _ _ Hb)) as [(lp1 & Hrun) Hall].
  - constructor; [|constructor]. eapply (partial_ok_fits 1649 [5]); [done|]. destruct ex_relations_ok as (_ & R). by apply Forall_cons in R as [R _].
  - apply ex_output_ok.
  - done.
  - apply ex_output_ok.
  - done.
  - cbn. lia.
  - exists lp1. split; [exact Hrun|]. destruct (Hall lp1 Hrun) as (T1 & T' & ms & out & new & _ & H). destruct (launchDeviceAppend lp1 _) as [lp' p']. apply H.
Defined.
