(* ===== verification/Resume.v ===== *)
(** Resuming a run from a checkpoint: the trim of a node's range and the topology guard of [src/src/common/sieve_checkpoint.h], and
    from [src/src/orchestrator/orchestrator.cpp] the contents of a solo checkpoint, the decision to resume, and the union of the
    loaded relations with the ones sieved after the restart ([finalizeResumeUnion]).

    What the device returns for a leg of the sieve is an argument: a function of the attempt and of the floor it is
    given. *)
From Stdlib Require Import ZArith Lia.
From stdpp Require Import base gmap sets list.
From S2P Require Import Prelude UInt512 Doubles Bytes Soa Accumulator RelationIo WorkPool Checkpoint Congruence SqrtStep Factorization CpuLp.
#[local] Open Scope Z_scope.

(** ** Trim and topology *)

Record ResumeTrim := mkTrim { rt_start : Z; rt_count : Z; rt_eff_hw : Z }.

Definition computeResumeTrim (orig_start orig_count hw H : Z) : ResumeTrim :=
  let eff_hw := if orig_count <? hw then orig_count else hw in
  let count := wrap 64 (orig_count - eff_hw) in
  let '(eff_hw, count) := if (count =? 0) && (H <=? orig_count) && (0 <? H) then (wrap 64 (orig_count - H), H) else (eff_hw, count) in
  mkTrim (wrap 64 (orig_start + eff_hw)) count eff_hw.

Definition clusterResumeTopologyOk (loaded_node_count current_node_count completed_prefix_cursor overflow_start overflow_end : Z) : bool :=
  if negb (loaded_node_count =? current_node_count) then false
  else if completed_prefix_cursor <? overflow_start then false
  else if overflow_end <? completed_prefix_cursor then false
  else true.

(** ** The checkpoint of a solo run *)

(** What a checkpoint takes from the configuration and the factor base; the auxiliary primes of the character columns are
    used in branch mode. *)
Record run_config := mkRunConfig {
  rc_N : Z; rc_factor_base : list Z; rc_lp1_bound : Z; rc_sieve_bound : Z; rc_target : Z;
  rc_branch : bool; rc_aux_primes : list Z; rc_t_s : list Z
}.

Definition checkpoint_meta (c : run_config) : V2Metadata :=
  if rc_branch c && bool_decide (rc_aux_primes c <> []) then
    mkMeta (rc_N c) (rc_factor_base c) (rc_lp1_bound c) (rc_sieve_bound c) (rc_aux_primes c) (rc_t_s c) (wrap 32 (zlen (rc_aux_primes c))) false
  else mkMeta (rc_N c) (rc_factor_base c) (rc_lp1_bound c) (rc_sieve_bound c) [] [] 0 false.

(** [maybeCheckpoint] from the copy of the device batches on: what is given to [writeCheckpointAtomic]. *)
Definition solo_attempt (c : run_config) (smooths partials : HostRelationBatch) (current_step elapsed : Z) : attempt :=
  let raw := num_relations smooths in
  let smooths := dedupRelationsInPlace smooths in
  mkAttempt smooths partials (checkpoint_meta c)
    (mkTrailer current_step (rc_target c) raw (num_relations smooths) (num_relations partials) (rc_lp1_bound c) (rc_sieve_bound c) (rc_N c) 0 elapsed)
    None.

(** ** The decision to resume *)

Record solo_resume := mkSoloResume { sr_smooths : HostRelationBatch; sr_partials : HostRelationBatch; sr_loaded_raw : Z; sr_global_a_index : Z }.

(** [None] is a fresh run. *)
Definition solo_resume_of (c : run_config) (lr : CheckpointLoadResult) : option solo_resume :=
  if lr_ok lr then
    if negb (t_N (lr_trailer lr) =? rc_N c) then None
    else if negb (t_loaded_smooths_dedup (lr_trailer lr) =? num_relations (lr_smooths lr)) then None
    else Some (mkSoloResume (lr_smooths lr) (lr_partials lr) (t_loaded_smooths_raw (lr_trailer lr)) (t_global_a_index (lr_trailer lr)))
  else None.

(** ** The union of the legs *)

(** The body of the loop of [appendRelationsRaw]. *)
Definition append_raw_one (src : HostRelationBatch) (src_has_char : bool) (dest : HostRelationBatch) (i : Z) : HostRelationBatch :=
  let fs := idx (factor_offsets src) i in
  let fe := idx (factor_offsets src) (i + 1) in
  let '(fi, fc) := append_factors src fs (Z.to_nat (fe - fs)) (factor_indices dest) (factor_counts dest) in
  let nf := wrap 64 (num_factors dest + wrap 64 (fe - fs)) in
  mkBatch (sqrt_Q dest ++ [idx (sqrt_Q src) i]) (signs dest ++ [idx (signs src) i]) (val_2_exps dest ++ [idx (val_2_exps src) i])
    (large_primes dest ++ [idx (large_primes src) i]) (char_bits dest ++ [if src_has_char then idx (char_bits src) i else 0])
    (factor_offsets dest ++ [nf]) fi fc (wrap 64 (num_relations dest + 1)) nf.

(** [dest.factor_offsets.push_back(0)]. *)
Definition push_offset (dest : HostRelationBatch) : HostRelationBatch :=
  mkBatch (sqrt_Q dest) (signs dest) (val_2_exps dest) (large_primes dest) (char_bits dest) (factor_offsets dest ++ [0]) (factor_indices dest)
    (factor_counts dest) (num_relations dest) (num_factors dest).

Definition appendRelationsRaw (dest src : HostRelationBatch) : HostRelationBatch :=
  if num_relations src =? 0 then dest
  else
    let dest := if bool_decide (factor_offsets dest = []) then push_offset dest else dest in
    let src_has_char := Z.of_nat (length (char_bits src)) =? num_relations src in
    foldl (append_raw_one src src_has_char) dest (map Z.of_nat (seq 0 (Z.to_nat (num_relations src)))).

(** A leg as the device hands it over: relations, partial relations, the number of relations after its own deduplication. *)
Record leg := mkLeg { leg_relations : HostRelationBatch; leg_partials : HostRelationBatch; leg_post : Z }.

Definition kMaxUnionAttempts : Z := 3.

Section union.
Context (c : run_config) (N : uint512) (loaded_smooths loaded_partials : HostRelationBatch) (device : Z -> Z -> leg).

Definition fb_floor : Z := wrap 64 (Z.of_nat (length (rc_factor_base c)) + 64).

Definition union_accumulator (l : leg) : RelationAccumulator :=
  let acc := RelationAccumulator_init (rc_target c) (d_of_Z 1) in
  let acc := addRelations acc loaded_smooths 0 in
  addRelations acc (leg_relations l) 1.

(** [for (;; ++attempt)]. *)
Fixpoint union_loop (fuel : nat) (attempt device_floor : Z) : option (RelationAccumulator * leg) :=
  match fuel with
  | O => None
  | S fuel =>
      let l := device attempt device_floor in
      let acc := union_accumulator l in
      let union_count := totalRelations acc in
      if (fb_floor <=? union_count) || (kMaxUnionAttempts <=? attempt) then Some (acc, l)
      else
        let deficit := wrap 64 (fb_floor - union_count) in
        union_loop fuel (attempt + 1) (wrap 64 (wrap 64 (leg_post l + deficit) + 512))
  end.

(** The final match of large primes across the legs. *)
Definition match_legs (acc : RelationAccumulator) (l : leg) : option RelationAccumulator :=
  if (0 <? rc_lp1_bound c) && ((0 <? num_relations loaded_partials) || (0 <? num_relations (leg_partials l))) then
    '(t, acc) ← insertAndMatch loaded_partials (CPULargePrimeTable_init (rc_lp1_bound c) N) acc;
    '(t, acc) ← insertAndMatch (leg_partials l) t acc;
    Some acc
  else Some acc.

(** The relations and the partial relations of the whole run. *)
Definition finalizeResumeUnion (fuel : nat) : option (HostRelationBatch * HostRelationBatch) :=
  let loaded_dedup := num_relations loaded_smooths in
  let device_floor := if loaded_dedup <? fb_floor then wrap 64 (fb_floor - loaded_dedup) else 0 in
  '(acc, l) ← union_loop fuel 0 device_floor;
  acc ← match_legs acc l;
  Some ((extractFinal acc).1, appendRelationsRaw (leg_partials l) loaded_partials).
End union.

(** ** Vocabulary of the specifications *)

Definition demo_config : run_config := mkRunConfig 1649 [5] 100 1000 5 false [] [].

(** The product of two partial relations from different legs. *)
Definition demo_leg : leg := mkLeg (batch_of [mkRel 43 1 3 1 0 [(0, 2)]]) (batch_of [mkRel 27 255 3 23 0 [(0, 1)]]) 1.

(** ** Lemmas: appending *)

Lemma append_raw_single src c has_char dest i :
  (if has_char : bool then idx (char_bits src) i else 0) = (if i <? Z.of_nat (length c) then idx c i else 0) ->
  append_raw_one src has_char dest i = appendSingleRelation dest (with_char src c) i.
Proof. intros Hc. unfold append_raw_one, appendSingleRelation. rewrite !append_factors_spec, Hc. done. Qed.

Lemma appendRelationsRaw_spec rd src rs :
  repr src rs -> zlen rd + zlen rs < 2 ^ 64 -> zlen (all_factors rd) + zlen (all_factors rs) < 2 ^ 64 ->
  appendRelationsRaw (batch_of rd) src = batch_of (rd ++ saved src rs).
Proof.
  intros H Hn Hf. unfold appendRelationsRaw. rewrite (repr_num_relations src rs H). destruct (Z.eqb_spec (Z.of_nat (length rs)) 0) as [E0|E0].
  { assert (rs = []) as -> by (by destruct rs). unfold saved. destruct (_ =? _); cbn; by rewrite app_nil_r. }
  rewrite bool_decide_eq_false_2 by (cbn; by destruct rd). rewrite <- (repr_num_relations src rs H), (repr_num_relations src rs H), Nat2Z.id.
  rewrite <- (repr_num_relations src rs H). set (hc := _ =? num_relations src). set (c := if hc then char_bits src else replicate (length rs) 0).
  pose proof (saved_repr src rs H) as Hs. fold hc c in Hs.
  assert (length (saved src rs) = length rs /\ forall n, length (all_factors (take n (saved src rs))) = length (all_factors (take n rs))) as [L1 L2].
  { unfold saved. destruct (_ =? _); [done|]. rewrite length_map. split; [done|]. intros n. unfold all_factors. by rewrite firstn_map, map_map. }
  assert (forall n, (n <= length rs)%nat -> foldl (append_raw_one src hc) (batch_of rd) (map Z.of_nat (seq 0 n)) = batch_of (rd ++ take n (saved src rs))) as Hk.
  2: { rewrite Hk by lia. by rewrite take_ge by lia. }
  induction n as [|n IH]; intros Hl; [cbn; by rewrite take_0, app_nil_r|].
  rewrite seq_S, map_app, foldl_app, IH by lia. cbn [foldl map Nat.add].
  destruct (lookup_lt_is_Some_2 (saved src rs) n ltac:(lia)) as [r Hr].
  rewrite (append_raw_single src c).
  - pose proof (L2 (S n)) as L3. rewrite (all_factors_take_S _ _ _ Hr), L2 in L3. pose proof (all_factors_take_le rs (S n)). unfold zlen in *.
    rewrite (appendSingleRelation_spec _ _ _ n r Hs Hr); [by rewrite (take_S_r _ _ r Hr), app_assoc| |].
    + rewrite length_app, length_take. lia.
    + rewrite all_factors_app, length_app, L2. lia.
  - destruct (lookup_lt_is_Some_2 rs n ltac:(lia)) as [r' Hr']. unfold c, hc. destruct (Z.eqb_spec (Z.of_nat (length (char_bits src))) (num_relations src)) as [E|E].
    + rewrite (repr_num_relations src rs H) in E. by rewrite (proj2 (Z.ltb_lt _ _)) by lia.
    + unfold idx. rewrite nth_zeros. by destruct (_ <? _).
Qed.

(** ** Lemmas: the union *)

Section union_lemmas.
Context (c : run_config) (loaded_smooths : HostRelationBatch) (device : Z -> Z -> leg) (rl : list relation) (ra : Z -> Z -> list relation).
Context (Hl : repr loaded_smooths rl) (Hd : forall a f, repr (leg_relations (device a f)) (ra a f)).
Context (Bl : zlen rl < 2 ^ 60 /\ zlen (all_factors rl) < 2 ^ 60) (Bd : forall a f, zlen (ra a f) < 2 ^ 60 /\ zlen (all_factors (ra a f)) < 2 ^ 60).

Lemma union_accumulator_spec a f :
  acc_inv (union_accumulator c loaded_smooths (device a f)) (dedup ∅ (rl ++ ra a f)).
Proof using Hl Hd Bl Bd.
  destruct (Bd a f). unfold zlen in *. unfold union_accumulator.
  pose proof (addRelations_spec _ [] loaded_smooths rl 0 (acc_init_inv (rc_target c) (d_of_Z 1)) Hl ltac:(cbn; lia) ltac:(cbn; lia)) as A1.
  cbn [map list_to_set] in A1. rewrite app_nil_l in A1.
  pose proof (dedup_sublist ∅ rl) as Hsub. pose proof (sublist_length _ _ Hsub). pose proof (all_factors_sublist _ _ Hsub).
  pose proof (addRelations_spec _ _ (leg_relations (device a f)) (ra a f) 1 A1 (Hd a f) ltac:(lia) ltac:(lia)) as A2.
  pose proof (dedup_steps [] rl (ra a f)) as E. cbn [map list_to_set app] in E. cbv zeta in E. rewrite E in A2. exact A2.
Qed.

(** At most four legs; fewer only when the union is large enough. *)
Lemma union_loop_spec fuel attempt floor :
  0 <= attempt -> attempt + Z.of_nat fuel = kMaxUnionAttempts + 1 -> (0 < fuel)%nat ->
  exists a f, union_loop c loaded_smooths device fuel attempt floor = Some (union_accumulator c loaded_smooths (device a f), device a f) /\
    attempt <= a <= kMaxUnionAttempts /\ (fb_floor c <= zlen (dedup ∅ (rl ++ ra a f)) \/ a = kMaxUnionAttempts).
Proof using Hl Hd Bl Bd.
  revert attempt floor. induction fuel as [|fuel IH]; intros attempt floor Ha Hf Hp; [lia|]. cbn [union_loop]. unfold kMaxUnionAttempts in *.
  pose proof (union_accumulator_spec attempt floor) as [Hb _ _ _]. unfold totalRelations. rewrite Hb. cbn [batch_of num_relations].
  destruct (Z.leb_spec (fb_floor c) (Z.of_nat (length (dedup ∅ (rl ++ ra attempt floor))))) as [H|H]; cbn [orb].
  - exists attempt, floor. split; [done|]. split; [lia|]. by left.
  - destruct (Z.leb_spec 3 attempt) as [H3|H3]; cbn [orb].
    + exists attempt, floor. split; [done|]. split; [lia|]. right. lia.
    + destruct (IH (attempt + 1) (wrap 64 (wrap 64 (leg_post (device attempt floor) + wrap 64 (fb_floor c - Z.of_nat (length (dedup ∅ (rl ++ ra attempt floor))))) + 512)))
        as (a & f & E & Hr & Ho); [lia..|]. exists a, f. split; [done|]. split; [lia|done].
Qed.
End union_lemmas.

Lemma Forall_dedup (P : relation -> Prop) seen rs : Forall P rs -> Forall P (dedup seen rs).
Proof. intros H. eapply sublist_forall; [apply dedup_sublist|done]. Qed.

Lemma match_legs_spec c N loaded_partials l pl pa acc racc :
  u512_ok N -> Z.odd (u512_val N) = true -> repr loaded_partials pl -> repr (leg_partials l) pa ->
  Forall (arrives (u512_val N) (rc_factor_base c)) (pl ++ pa) -> zlen pl < 2 ^ 46 -> zlen pa < 2 ^ 46 ->
  acc_inv acc racc -> zlen racc < 2 ^ 62 -> zlen (all_factors racc) < 2 ^ 62 ->
  let combined := if 0 <? rc_lp1_bound c then (foldl (match_one (u512_val N)) (∅, []) (pl ++ pa)).2 else [] in
  exists acc', match_legs c N loaded_partials acc l = Some acc' /\
    acc_inv acc' (racc ++ dedup (list_to_set (map rel_hash racc)) combined) /\ Forall (smooth_holds (u512_val N) (rc_factor_base c)) combined.
Proof.
  intros HN Ho Hp Ha Hv Bp Ba Hacc Bn Bf combined. unfold match_legs.
  destruct (0 <? rc_lp1_bound c) eqn:El; cbn [andb].
  2: { exists acc. split; [done|]. split; [by rewrite app_nil_r|done]. }
  rewrite (repr_num_relations _ _ Hp), (repr_num_relations _ _ Ha). destruct (_ || _) eqn:E0.
  2: { assert (pl = [] /\ pa = []) as [-> ->] by (destruct pl, pa; cbn in E0; try lia; done). exists acc. split; [done|]. cbn. rewrite app_nil_r. by split. }
  pose proof (zlen_nonneg pl). pose proof (zlen_nonneg pa).
  destruct (insert_all_spec (u512_val N) (rc_factor_base c) [loaded_partials; leg_partials l] [pl; pa] _ _ 0 acc racc (init_inv N (rc_factor_base c) (rc_lp1_bound c) HN Ho))
    as (t & acc' & E & _ & Hc & Hs).
  - by constructor; [|constructor; [|constructor]].
  - cbn [concat]. by rewrite app_nil_r.
  - done.
  - cbn [concat]. rewrite app_nil_r. unfold zlen in *. rewrite length_app. lia.
  - done.
  - cbn [concat]. rewrite app_nil_r. unfold zlen in *. rewrite length_app. lia.
  - cbn [concat]. rewrite app_nil_r. unfold zlen in *. rewrite length_app. lia.
  - cbn [concat] in *. rewrite app_nil_r in *. exists acc'. split; [|split; [exact Hc|eapply Forall_impl; [exact Hs|by intros ? [? _]]]].
    unfold insert_all in E. cbn [foldl mbind option_bind] in E. destruct (insertAndMatch loaded_partials _ acc) as [[t1 acc1]|]; cbn [mbind option_bind] in *; [|done].
    destruct (insertAndMatch (leg_partials l) t1 acc1) as [[t2 acc2]|]; cbn [mbind option_bind] in *; [|done]. by injection E as -> ->.
Qed.

(** ** Lemmas: the trim *)

Lemma computeResumeTrim_eq orig_start orig_count hw H :
  0 <= orig_start -> 0 <= hw -> in_width 64 orig_count -> 0 <= H -> orig_start + orig_count < 2 ^ 64 ->
  let t := computeResumeTrim orig_start orig_count hw H in
  rt_start t = orig_start + rt_eff_hw t /\ rt_count t = orig_count - rt_eff_hw t /\ 0 <= rt_eff_hw t <= Z.min hw orig_count /\
  (rt_count t = 0 -> orig_count < H \/ H = 0).
Proof.
  intros Hs Hw Hc HH Hb. unfold computeResumeTrim, in_width in *.
  assert (exists e, (if orig_count <? hw then orig_count else hw) = e /\ 0 <= e <= Z.min hw orig_count) as (e & -> & He).
  { destruct (Z.ltb_spec orig_count hw); eexists; (split; [done|lia]). }
  assert (forall x, 0 <= x <= orig_count -> wrap 64 (orig_count - x) = orig_count - x /\ wrap 64 (orig_start + x) = orig_start + x) as Hx.
  { intros x Hx. rewrite !wrap_small by (unfold in_width; lia). done. }
  rewrite (proj1 (Hx e ltac:(lia))). destruct (Z.eqb_spec (orig_count - e) 0) as [E|E]; [destruct (Z.leb_spec H orig_count); [destruct (Z.ltb_spec 0 H)|]|]; cbn [andb rt_start rt_count rt_eff_hw].
  - rewrite (proj1 (Hx H ltac:(lia))). cbn [rt_start rt_count rt_eff_hw]. rewrite (proj2 (Hx (orig_count - H) ltac:(lia))). lia.
  - rewrite (proj2 (Hx e ltac:(lia))). lia.
  - rewrite (proj2 (Hx e ltac:(lia))). lia.
  - rewrite (proj2 (Hx e ltac:(lia))). lia.
Qed.

Lemma solo_roundtrip c smooths partials step elapsed :
  solo_resume_of c (loaded (solo_attempt c smooths partials step elapsed) load_empty) =
  Some (mkSoloResume (section_back (0 <? m_r (checkpoint_meta c)) (dedupRelationsInPlace smooths) batch_empty)
          (if 0 <? num_relations partials then section_back (0 <? m_r (checkpoint_meta c)) partials batch_empty else batch_empty)
          (num_relations smooths) step).
Proof.
  assert (forall h b old, num_relations (section_back h b old) = num_relations b) as Hn by by intros [] b old.
  unfold solo_resume_of, loaded, solo_attempt. cbv zeta. cbn [lr_ok lr_trailer lr_smooths lr_partials at_trailer at_smooths at_partials at_meta t_N t_loaded_smooths_dedup t_loaded_smooths_raw t_global_a_index].
  by rewrite Hn, !Z.eqb_refl.
Qed.

(** ** Properties *)

(** C37. The union of two legs is exact. A resumed run takes at most four legs from the device - fewer only when there are enough relations - and ends with
    exactly the deduplicated relations of the checkpoint, of the last leg, and of the pairs of partial relations that match across both;
    all of them are valid, the checkpoint's partial relations are carried along, and the loop ends. *)
Theorem resume_union_exact c N loaded_smooths loaded_partials device rl pl ra pa :
  u512_ok N -> Z.odd (u512_val N) = true -> repr loaded_smooths rl -> repr loaded_partials pl ->
  (forall a f, repr (leg_relations (device a f)) (ra a f) /\ leg_partials (device a f) = batch_of (pa a f)) ->
  (forall l, l = rl \/ (exists a f, l = ra a f) -> zlen l < 2 ^ 60 /\ zlen (all_factors l) < 2 ^ 60 /\ Forall (smooth_holds (u512_val N) (rc_factor_base c)) l) ->
  (forall l, l = pl \/ (exists a f, l = pa a f) -> zlen l < 2 ^ 46 /\ zlen (all_factors l) < 2 ^ 60 /\ Forall (arrives (u512_val N) (rc_factor_base c)) l) ->
  exists a f, 0 <= a <= kMaxUnionAttempts /\
    let combined := if 0 <? rc_lp1_bound c then (foldl (match_one (u512_val N)) (∅, []) (pl ++ pa a f)).2 else [] in
    let smooths := dedup ∅ (rl ++ ra a f ++ combined) in
    finalizeResumeUnion c N loaded_smooths loaded_partials device 4 = Some (batch_of smooths, batch_of (pa a f ++ saved loaded_partials pl)) /\
    (fb_floor c <= zlen (dedup ∅ (rl ++ ra a f)) \/ a = kMaxUnionAttempts) /\
    NoDup (map rel_hash smooths) /\ Forall (smooth_holds (u512_val N) (rc_factor_base c)) smooths.
Proof.
  intros HN Ho Hl Hp Hd Bs Bp.
  destruct (Bs rl ltac:(by left)) as (L1 & L2 & L3). destruct (Bp pl ltac:(by left)) as (P1 & P2 & P3).
  pose proof (fun a f => Bs (ra a f) ltac:(right; by exists a, f)) as Ba. pose proof (fun a f => Bp (pa a f) ltac:(right; by exists a, f)) as Bpa.
  destruct (union_loop_spec c loaded_smooths device rl ra Hl (fun a f => proj1 (Hd a f)) (conj L1 L2) (fun a f => conj (proj1 (Ba a f)) (proj1 (proj2 (Ba a f)))) 4 0
    (if num_relations loaded_smooths <? fb_floor c then wrap 64 (fb_floor c - num_relations loaded_smooths) else 0)) as (a & f & E & Ha & Hf); [done|reflexivity|lia|].
  exists a, f. split; [done|]. intros combined smooths.
  destruct (Hd a f) as [Hr Hpb]. destruct (Ba a f) as (A1 & A2 & A3). destruct (Bpa a f) as (Q1 & Q2 & Q3).
  pose proof (union_accumulator_spec c loaded_smooths device rl ra Hl (fun a f => proj1 (Hd a f)) (conj L1 L2) (fun a f => conj (proj1 (Ba a f)) (proj1 (proj2 (Ba a f)))) a f) as Hacc.
  assert (zlen (dedup ∅ (rl ++ ra a f)) < 2 ^ 62 /\ zlen (all_factors (dedup ∅ (rl ++ ra a f))) < 2 ^ 62) as [D1 D2].
  { pose proof (dedup_sublist ∅ (rl ++ ra a f)) as Hsub. pose proof (sublist_length _ _ Hsub). pose proof (all_factors_sublist _ _ Hsub) as Hs2.
    rewrite all_factors_app in Hs2. unfold zlen in *. rewrite length_app in *. lia. }
  assert (repr (leg_partials (device a f)) (pa a f)) as Hrp by (rewrite Hpb; apply repr_batch_of).
  assert (Forall (arrives (u512_val N) (rc_factor_base c)) (pl ++ pa a f)) as Hva by by apply Forall_app.
  destruct (match_legs_spec c N loaded_partials (device a f) pl (pa a f) _ _ HN Ho Hp Hrp Hva P1 Q1 Hacc D1 D2) as (acc' & E' & Hc & Hv).
  fold combined in Hc, Hv. unfold finalizeResumeUnion. cbv zeta. rewrite E. cbn [mbind option_bind]. rewrite E'. cbn [mbind option_bind].
  pose proof (dedup_steps [] (rl ++ ra a f) combined) as Es. cbn [map list_to_set app] in Es. cbv zeta in Es. rewrite Es, <- app_assoc in Hc. fold smooths in Hc.
  split.
  - rewrite Hpb, (appendRelationsRaw_spec _ _ _ Hp) by (unfold zlen in *; lia). do 2 f_equal. apply Hc.
  - split; [done|]. split; [apply dedup_NoDup|]. apply Forall_dedup. by rewrite !Forall_app.
Qed.

(** [41^2 = 2^5] was saved, [43^2 = 2^3 * 5^2] is new; the two partial relations match across the legs. *)
Lemma resume_union_exact_witness :
  exists smooths, finalizeResumeUnion demo_config (u512_of_Z 1649) (batch_of [mkRel 41 1 5 1 0 []]) (batch_of [mkRel 42 1 0 23 0 [(0, 1)]]) (fun _ _ => demo_leg) 4
      = Some (batch_of smooths, batch_of [mkRel 27 255 3 23 0 [(0, 1)]; mkRel 42 1 0 23 0 [(0, 1)]]) /\
    Forall (smooth_holds 1649 [5]) smooths /\ smooths = [mkRel 41 1 5 1 0 []; mkRel 43 1 3 1 0 [(0, 2)]; mkRel 1134 255 3 23 0 [(0, 2)]].
Proof.
  destruct (resume_union_exact demo_config (u512_of_Z 1649) (batch_of [mkRel 41 1 5 1 0 []]) (batch_of [mkRel 42 1 0 23 0 [(0, 1)]]) (fun _ _ => demo_leg)
    [mkRel 41 1 5 1 0 []] [mkRel 42 1 0 23 0 [(0, 1)]] (fun _ _ => [mkRel 43 1 3 1 0 [(0, 2)]]) (fun _ _ => [mkRel 27 255 3 23 0 [(0, 1)]])) as (a & f & _ & E & _ & _ & Hv).
  - apply u512_of_Z_spec.
  - reflexivity.
  - apply repr_batch_of.
  - apply repr_batch_of.
  - intros a f. split; [apply repr_batch_of|reflexivity].
  - intros l [->|(a & f & ->)]; (split; [reflexivity|]); (split; [reflexivity|]);
      (constructor; [|constructor]); (split; [|vm_compute; reflexivity]); (split; [cbn; lia|]); repeat constructor; cbn; lia.
  - intros l [->|(a & f & ->)]; (split; [reflexivity|]); (split; [reflexivity|]);
      (constructor; [|constructor]); (split; [unfold in_width; cbn; lia|]); intros _; (split; [constructor; [unfold in_width; cbn; lia|cbn; lia|repeat constructor; cbn; lia|unfold zlen; cbn; lia]|]);
      (split; [|split; [reflexivity|vm_compute; reflexivity]]); (split; [cbn; lia|]); repeat constructor; cbn; lia.
  - eexists. split; [exact E|]. split; [exact Hv|vm_compute; reflexivity].
Defined.
