(* ===== verification/Pooling.v ===== *)
(** The relations a coordinator pools ([networkLoop] and [bufferClusterPartials] of [src/src/orchestrator/orchestrator.cpp]): batches of its own
    sieve and of the workers, the accumulator, the table of large primes and the copy of the raw partial relations; the re-injection of a
    checkpoint.

    Only the network thread touches this state. [None] is a step whose arithmetic is undefined in the source. *)
From Stdlib Require Import ZArith Lia.
From stdpp Require Import base gmap sets list.
From S2P Require Import Prelude UInt512 Doubles Bytes Soa Serialization Accumulator Protocol DataTap Congruence SqrtStep Factorization RelationIo Checkpoint CpuLp Resume.
#[local] Open Scope Z_scope.

(** ** Pooled relations *)

Record pooled := mkPooled { po_accumulator : RelationAccumulator; po_cpu_lp : option CPULargePrimeTable; po_raw_partials : HostRelationBatch }.

(** The body of the loop of [bufferClusterPartials]. *)
Definition buffer_one (partials raw : HostRelationBatch) (i : Z) : HostRelationBatch :=
  let fstart := idx (factor_offsets partials) i in
  let fend := idx (factor_offsets partials) (i + 1) in
  let '(fi, fc) := append_factors partials fstart (Z.to_nat (fend - fstart)) (factor_indices raw) (factor_counts raw) in
  let nf := wrap 64 (num_factors raw + wrap 64 (fend - fstart)) in
  mkBatch (sqrt_Q raw ++ [idx (sqrt_Q partials) i]) (signs raw ++ [idx (signs partials) i]) (val_2_exps raw ++ [idx (val_2_exps partials) i])
    (large_primes raw ++ [idx (large_primes partials) i]) (char_bits raw) (factor_offsets raw ++ [nf]) fi fc (wrap 64 (num_relations raw + 1)) nf.

Definition bufferClusterPartials (partials raw : HostRelationBatch) : HostRelationBatch :=
  if num_relations partials =? 0 then raw
  else foldl (buffer_one partials) raw (map Z.of_nat (seq 0 (Z.to_nat (num_relations partials)))).

(** Full relations, then partial ones; [None] where the table's arithmetic is undefined. *)
Definition pool_batch (full partials : HostRelationBatch) (source_id : Z) (po : pooled) : option pooled :=
  let acc := if 0 <? num_relations full then addRelations (po_accumulator po) full source_id else po_accumulator po in
  match po_cpu_lp po with
  | Some lp =>
      if 0 <? num_relations partials then
        let raw := bufferClusterPartials partials (po_raw_partials po) in
        '(lp, acc) ← insertAndMatch partials lp acc;
        Some (mkPooled acc (Some lp) raw)
      else Some (mkPooled acc (Some lp) (po_raw_partials po))
  | None => Some (mkPooled acc None (po_raw_partials po))
  end.

(** A payload of the coordinator's own sieve, and an [INCREMENTAL_BATCH] message. *)
Definition pool_payload (p : DirectChannel.Payload) (po : pooled) : option pooled :=
  pool_batch (DirectChannel.full p) (DirectChannel.partials p) 0 po.

Definition processIncrementalBatch (m : RecvMessage) (po : pooled) : option pooled :=
  let '(deser_ok, full_batch, partial_batch) := deserializeIncrementalBatch (payload m) batch_empty batch_empty in
  if (deser_ok : bool) then pool_batch full_batch partial_batch (sender_id m) po else Some po.

(** [while (cluster_channel_->tryPop(payload))]: [fuel] bounds the payloads that are waiting. *)
Fixpoint drain_channel (fuel : nat) (c : DirectChannel.DirectChannel) (po : pooled) : option (DirectChannel.DirectChannel * pooled) :=
  match fuel with
  | O => Some (c, po)
  | S fuel =>
      match DirectChannel.tryPop c with
      | (None, c) => Some (c, po)
      | (Some p, c) => po ← pool_payload p po; drain_channel fuel c po
      end
  end.

(** The beginning of [networkLoop]: an empty buffer with the first offset, then the relations of a checkpoint, full ones first. *)
Definition start_pooling (acc : RelationAccumulator) (lp : option CPULargePrimeTable) (resumed : option (HostRelationBatch * HostRelationBatch)) : option pooled :=
  match resumed with
  | None => Some (mkPooled acc lp batch_start)
  | Some (smooths, partials) =>
      let acc := addRelations acc smooths 0 in
      match lp with
      | Some lp => '(lp, acc) ← insertAndMatch partials lp acc; Some (mkPooled acc (Some lp) (bufferClusterPartials partials batch_start))
      | None => Some (mkPooled acc None (bufferClusterPartials partials batch_start))
      end
  end.

(** ** Vocabulary of the specifications *)

(** A batch that arrives: full relations, partial relations, the node. *)
Record arrival := mkArrival { ar_full : HostRelationBatch; ar_partials : HostRelationBatch; ar_source : Z }.

Definition pool_all (l : list arrival) (po : pooled) : option pooled :=
  foldl (fun po a => po ≫= pool_batch (ar_full a) (ar_partials a) (ar_source a)) (Some po) l.

Definition payload_arrival (p : DirectChannel.Payload) : arrival := mkArrival (DirectChannel.full p) (DirectChannel.partials p) 0.

(** The relations of the pool: those that wait for a match, the deduplicated full ones, and every partial one that came. *)
Record pool_state := mkPool { ps_waiting : gmap Z relation; ps_kept : list relation; ps_raw : list relation }.

Definition pool_step (n : Z) (st : pool_state) (a : list relation * list relation) : pool_state :=
  let kept := ps_kept st ++ dedup (list_to_set (map rel_hash (ps_kept st))) a.1 in
  let '(tab, out) := foldl (match_one n) (ps_waiting st, []) a.2 in
  mkPool tab (kept ++ dedup (list_to_set (map rel_hash kept)) out) (ps_raw st ++ a.2).

Definition empty_pool : pool_state := mkPool ∅ [] [].

Definition no_char (b : HostRelationBatch) : HostRelationBatch := with_char b [].

(** A batch that holds [rs]; an empty one need not have offsets. *)
Definition carries (b : HostRelationBatch) (rs : list relation) : Prop := repr b rs \/ num_relations b = 0 /\ rs = [].

(** What arrives: full relations that hold, partial ones that hold, in batches that carry them. *)
Definition arrives_as (n : Z) (fb : list Z) (a : arrival) (rs : list relation * list relation) : Prop :=
  carries (ar_full a) rs.1 /\ carries (ar_partials a) rs.2 /\ Forall (smooth_holds n fb) rs.1 /\ Forall (arrives n fb) rs.2.

Definition fulls (l : list (list relation * list relation)) : list relation := concat (map fst l).
Definition parts (l : list (list relation * list relation)) : list relation := concat (map snd l).

(** The pool holds [st], with [f] full relations of [g] factors and [k] partial relations seen. *)
Record pool_inv (n : Z) (fb : list Z) (po : pooled) (st : pool_state) (f g : Z) : Prop := mkPoolInv {
  pi_acc : acc_inv (po_accumulator po) (ps_kept st);
  pi_lp : exists lp, po_cpu_lp po = Some lp /\ lp_inv n fb lp (ps_waiting st) (zlen (ps_raw st));
  pi_raw : po_raw_partials po = no_char (batch_of (ps_raw st));
  pi_waiting : ps_waiting st = (foldl (match_one n) (∅, []) (ps_raw st)).1;
  pi_combined : Forall (fun r => rel_hash r ∈ map rel_hash (ps_kept st)) (foldl (match_one n) (∅, []) (ps_raw st)).2;
  pi_nodup : NoDup (map rel_hash (ps_kept st));
  pi_valid : Forall (smooth_holds n fb) (ps_kept st) /\ Forall (arrives n fb) (ps_raw st);
  pi_room : zlen (ps_kept st) <= f + zlen (ps_raw st) /\ zlen (all_factors (ps_kept st)) <= g + 1024 * zlen (ps_raw st)
}.

(** A relation without characters, and a pool of them. *)
Definition plain (r : relation) : Prop := r_char r = 0.
Definition plain_pool (st : pool_state) : Prop := map_Forall (fun _ r => plain r) (ps_waiting st) /\ Forall plain (ps_kept st) /\ Forall plain (ps_raw st).

(** ** Vocabulary of the specifications *)

(** The copy of the partial relations has no characters, so a match across a checkpoint loses those of the older relation: the product has
    the characters 2 where those of the two relations are 1 and 2. *)
Definition lost_characters : option (list Z * list Z) :=
  let N := u512_of_Z 1649 in
  let acc := RelationAccumulator_init 5 default_margin in
  let lp := CPULargePrimeTable_init 100 N in
  let first := mkArrival batch_empty (batch_of [mkRel 42 1 0 23 1 [(0, 1)]]) 1 in
  let second := mkArrival batch_empty (batch_of [mkRel 27 255 3 23 2 [(0, 1)]]) 2 in
  po ← pool_all [first; second] (mkPooled acc (Some lp) batch_start);
  po1 ← pool_all [first] (mkPooled acc (Some lp) batch_start);
  po2 ← start_pooling acc (Some lp) (Some (accumulated_ (po_accumulator po1), po_raw_partials po1));
  po2 ← pool_all [second] po2;
  Some (char_bits (accumulated_ (po_accumulator po)), char_bits (accumulated_ (po_accumulator po2))).

(** ** Lemmas: the copy of the partial relations *)

Lemma append_factors_no_char b i n fi fc : append_factors (no_char b) i n fi fc = append_factors b i n fi fc.
Proof. by rewrite !append_factors_spec. Qed.

Lemma buffer_one_append p b i : buffer_one p (no_char b) i = no_char (appendSingleRelation b p i).
Proof. unfold buffer_one, appendSingleRelation. rewrite !append_factors_spec. done. Qed.

Lemma bufferClusterPartials_spec p rd rs :
  repr p rs -> zlen rd + zlen rs < 2 ^ 64 -> zlen (all_factors rd) + zlen (all_factors rs) < 2 ^ 64 ->
  bufferClusterPartials p (no_char (batch_of rd)) = no_char (batch_of (rd ++ rs)).
Proof.
  intros H Hn Hf. unfold bufferClusterPartials. rewrite (repr_num_relations p rs H). destruct (Z.eqb_spec (Z.of_nat (length rs)) 0) as [E|E].
  { assert (rs = []) as -> by (by destruct rs). by rewrite app_nil_r. }
  rewrite Nat2Z.id.
  assert (forall n, (n <= length rs)%nat -> foldl (buffer_one p) (no_char (batch_of rd)) (map Z.of_nat (seq 0 n)) = no_char (batch_of (rd ++ take n rs))) as Hk.
  2: { rewrite Hk by lia. by rewrite take_ge by lia. }
  induction n as [|n IH]; intros Hl; [by rewrite take_0, app_nil_r|].
  rewrite seq_S, map_app, foldl_app, IH by lia. cbn [foldl map Nat.add]. rewrite buffer_one_append.
  destruct (lookup_lt_is_Some_2 rs n ltac:(lia)) as [r Hr].
  pose proof (all_factors_take_S rs n r Hr). pose proof (all_factors_take_le rs (S n)). unfold zlen in *.
  rewrite (appendSingleRelation_spec _ p rs n r H Hr); [by rewrite (take_S_r _ _ r Hr), app_assoc| |].
  - rewrite length_app, length_take. lia.
  - rewrite all_factors_app, length_app. lia.
Qed.

(** ** Lemmas: batches *)

Lemma fold_match_out n tab l : foldl (match_one n) (tab, []) l = ((foldl (match_one n) (tab, []) l).1, (foldl (match_one n) (tab, []) l).2).
Proof. by destruct (foldl _ _ _). Qed.

Lemma dedup_all seen l : Forall (fun r => rel_hash r ∈ seen) l -> dedup seen l = [].
Proof. induction 1 as [|r l H _ IH]; [done|]. cbn [dedup]. by rewrite decide_True. Qed.

Lemma dedup_self rs : NoDup (map rel_hash rs) -> dedup ∅ rs = rs.
Proof.
  assert (forall seen, NoDup (map rel_hash rs) -> Forall (fun r => rel_hash r ∉ seen) rs -> dedup seen rs = rs) as H.
  { induction rs as [|r rs IH]; intros seen Hn Hs; [done|]. cbn [dedup map] in *. apply NoDup_cons in Hn as [Hr Hn]. apply Forall_cons in Hs as [H1 H2].
    rewrite decide_False by done. f_equal. apply IH; [done|]. rewrite Forall_forall in *. intros x Hx. rewrite elem_of_union, elem_of_singleton. intros [E|E].
    - apply Hr. rewrite <- E. apply list_elem_of_In, in_map, list_elem_of_In, Hx.
    - by apply (H2 x). }
  intros Hn. apply H; [done|]. apply Forall_forall. set_solver.
Qed.

(** What [dedup] keeps is new and free of repetitions; what it drops is already there. *)
Lemma dedup_kept kept l :
  NoDup (map rel_hash kept) ->
  let kept' := kept ++ dedup (list_to_set (map rel_hash kept)) l in
  NoDup (map rel_hash kept') /\ (forall h, h ∈ map rel_hash kept' <-> h ∈ map rel_hash kept \/ h ∈ map rel_hash l).
Proof.
  intros Hn. cbv zeta. rewrite map_app. split.
  - apply NoDup_app. split; [done|]. split; [|apply dedup_NoDup]. intros h Hh [_ Hd]%dedup_hashes. rewrite elem_of_list_to_set in Hd. done.
  - intros h. rewrite elem_of_app, dedup_hashes, elem_of_list_to_set. destruct (decide (h ∈ map rel_hash kept)); tauto.
Qed.

Lemma dedup_room seen l : zlen (dedup seen l) <= zlen l /\ zlen (all_factors (dedup seen l)) <= zlen (all_factors l).
Proof. pose proof (dedup_sublist seen l) as H. pose proof (sublist_length _ _ H). pose proof (all_factors_sublist _ _ H). unfold zlen. lia. Qed.


Lemma insertAndMatch_step n fb po st f g lp b rs acc kept :
  pool_inv n fb po st f g -> po_cpu_lp po = Some lp -> repr b rs -> Forall (arrives n fb) rs -> zlen (ps_raw st) + zlen rs < 2 ^ 48 ->
  acc_inv acc kept -> zlen kept + 1024 * zlen rs < 2 ^ 63 -> zlen (all_factors kept) + 1024 * zlen rs < 2 ^ 63 ->
  let '(tab, out) := foldl (match_one n) (ps_waiting st, []) rs in
  exists lp' acc', insertAndMatch b lp acc = Some (lp', acc') /\ lp_inv n fb lp' tab (zlen (ps_raw st) + zlen rs) /\
    acc_inv acc' (kept ++ dedup (list_to_set (map rel_hash kept)) out) /\ Forall (combined_ok n fb) out /\ zlen out <= zlen rs.
Proof.
  intros [_ (lp0 & E0 & Hlp) _ _ _ _ _ _] E H Ha Hk Hacc B1 B2. rewrite E in E0. injection E0 as <-.
  destruct (insertAndMatch_spec n fb lp (ps_waiting st) _ b rs acc kept Hlp H Ha (zlen_nonneg _) Hk Hacc B1 B2) as (lp' & acc' & E1 & H1 & H2 & H3 & H4).
  rewrite fold_match_out. by exists lp', acc'.
Qed.

Lemma carries_repr b rs : carries b rs -> exists b', repr b' rs /\ num_relations b' = num_relations b /\ (0 < num_relations b -> b' = b).
Proof. intros [H|[H1 ->]]; [by exists b|]. exists (batch_of []). split; [apply repr_batch_of|]. rewrite H1. split; [done|lia]. Qed.

Lemma pool_batch_carries full partials src po f' p' :
  num_relations f' = num_relations full -> (0 < num_relations full -> f' = full) ->
  num_relations p' = num_relations partials -> (0 < num_relations partials -> p' = partials) ->
  pool_batch full partials src po = pool_batch f' p' src po.
Proof.
  intros F1 F2 P1 P2. unfold pool_batch. rewrite F1, P1. destruct (Z.ltb_spec 0 (num_relations full)); [rewrite F2 by done|];
    (destruct (po_cpu_lp po); [|done]; destruct (Z.ltb_spec 0 (num_relations partials)); [by rewrite P2 by done|done]).
Qed.

Lemma pool_batch_spec n fb po st f g a rs :
  pool_inv n fb po st f g -> arrives_as n fb a rs ->
  0 <= f -> 0 <= g -> f + zlen rs.1 < 2 ^ 60 -> g + zlen (all_factors rs.1) < 2 ^ 60 -> zlen (ps_raw st) + zlen rs.2 < 2 ^ 48 ->
  zlen (all_factors (ps_raw st)) + zlen (all_factors rs.2) < 2 ^ 64 ->
  exists po', pool_batch (ar_full a) (ar_partials a) (ar_source a) po = Some po' /\
    pool_inv n fb po' (pool_step n st rs) (f + zlen rs.1) (g + zlen (all_factors rs.1)).
Proof.
  destruct rs as [fs ps]. intros Hp (Cf & Cp & Vf & Vp) F0 G0 Bf Bg Bk Bp. cbn [fst snd] in *. pose proof Hp as [P1 (lp & El & P2) P3 P4 P5 P6 [V1 V2] [R1 R2]].
  pose proof (zlen_nonneg fs). pose proof (zlen_nonneg ps). pose proof (zlen_nonneg (all_factors fs)). pose proof (zlen_nonneg (ps_raw st)).
  destruct (carries_repr _ _ Cf) as (bf & Hf & Nf & Ef). destruct (carries_repr _ _ Cp) as (bp & Hr & Np & Ep).
  rewrite (pool_batch_carries _ _ _ _ bf bp Nf Ef Np Ep). clear Nf Ef Np Ep.
  set (kept := ps_kept st ++ dedup (list_to_set (map rel_hash (ps_kept st))) fs).
  destruct (dedup_kept (ps_kept st) fs P6) as [N1 M1]. fold kept in N1, M1.
  assert (zlen kept <= f + zlen fs + zlen (ps_raw st) /\ zlen (all_factors kept) <= g + zlen (all_factors fs) + 1024 * zlen (ps_raw st)) as [K1 K2].
  { unfold kept. rewrite all_factors_app, !zlen_app. destruct (dedup_room (list_to_set (map rel_hash (ps_kept st))) fs). lia. }
  unfold pool_batch. rewrite El, (repr_num_relations _ _ Hf), (repr_num_relations _ _ Hr).
  set (acc := if 0 <? Z.of_nat (length fs) then _ else _).
  assert (acc_inv acc kept) as Hacc.
  { unfold acc. destruct (Z.ltb_spec 0 (Z.of_nat (length fs))) as [L|L].
    - apply addRelations_spec; [done|done| |]; unfold zlen in *; lia.
    - assert (fs = []) as E by (destruct fs; [done|cbn in L; lia]). unfold kept. rewrite E. cbn [dedup]. by rewrite app_nil_r. }
  assert (Forall (smooth_holds n fb) kept) as Vk by (apply Forall_app; split; [done|by apply Forall_dedup]).
  pose proof (insertAndMatch_step n fb po st f g lp bp ps acc kept Hp El Hr Vp Bk Hacc ltac:(lia) ltac:(lia)) as HM.
  unfold pool_step. cbn [fst snd]. fold kept. destruct (foldl (match_one n) (ps_waiting st, []) ps) as [tab out] eqn:Eo.
  destruct HM as (lp' & acc' & E & Hlp & Ha & Ho & Hz).
  assert (zlen (all_factors out) <= 1024 * zlen out) as Hfo by (apply factors_bound; eapply Forall_impl; [exact Ho|by intros ? [_ ?]]).
  destruct (dedup_kept kept out N1) as [N2 M2]. destruct (dedup_room (list_to_set (map rel_hash kept)) out) as [D1 D2].
  assert (forall raw, (0 < zlen ps -> raw = bufferClusterPartials bp (po_raw_partials po)) -> (zlen ps = 0 -> raw = po_raw_partials po) ->
    pool_inv n fb (mkPooled acc' (Some lp') raw) (mkPool tab (kept ++ dedup (list_to_set (map rel_hash kept)) out) (ps_raw st ++ ps)) (f + zlen fs) (g + zlen (all_factors fs))) as Hfin.
  { intros raw R3 R4. constructor; cbn [po_accumulator po_cpu_lp po_raw_partials ps_waiting ps_kept ps_raw].
    - done.
    - exists lp'. split; [done|]. by rewrite zlen_app.
    - destruct (Z.eqb_spec (zlen ps) 0) as [E0|E0].
      + rewrite (R4 E0), P3. assert (ps = []) as -> by (destruct ps; [done|unfold zlen in E0; cbn in E0; lia]). by rewrite app_nil_r.
      + rewrite R3, P3 by lia. apply bufferClusterPartials_spec; [done|lia|lia].
    - rewrite foldl_app, fold_match_out, <- P4. rewrite match_out. by rewrite Eo.
    - rewrite foldl_app, fold_match_out, <- P4, match_out. cbn [snd]. rewrite Eo. cbn [snd]. apply Forall_app. split.
      + eapply Forall_impl; [exact P5|]. intros r Hx. apply M2. left. apply M1. by left.
      + apply Forall_forall. intros r Hx. apply M2. right. apply list_elem_of_In, in_map, list_elem_of_In, Hx.
    - exact N2.
    - split; apply Forall_app; (split; [done|]); [|done]. apply Forall_dedup. eapply Forall_impl; [exact Ho|by intros ? [? _]].
    - rewrite all_factors_app, !zlen_app. lia. }
  destruct (Z.ltb_spec 0 (Z.of_nat (length ps))) as [L|L].
  - rewrite E. cbn [mbind option_bind]. eexists. split; [done|]. apply Hfin; [done|unfold zlen; lia].
  - assert (ps = []) as Ep by (destruct ps; [done|cbn in L; lia]).
    assert (insertAndMatch bp lp acc = Some (lp, acc)) as E2 by (unfold insertAndMatch; rewrite (repr_num_relations _ _ Hr), Ep; done).
    rewrite E2 in E. injection E as <- <-. eexists. split; [done|]. apply Hfin; [unfold zlen in *; lia|done].
Qed.

Lemma pool_step_raw n st rs : ps_raw (pool_step n st rs) = ps_raw st ++ rs.2.
Proof. unfold pool_step. by destruct (foldl _ _ _). Qed.

Lemma pool_all_spec n fb l rss : forall po st f g,
  pool_inv n fb po st f g -> Forall2 (arrives_as n fb) l rss -> 0 <= f -> 0 <= g ->
  f + zlen (fulls rss) < 2 ^ 60 -> g + zlen (all_factors (fulls rss)) < 2 ^ 60 -> zlen (ps_raw st) + zlen (parts rss) < 2 ^ 48 ->
  zlen (all_factors (ps_raw st)) + zlen (all_factors (parts rss)) < 2 ^ 64 ->
  exists po', pool_all l po = Some po' /\
    pool_inv n fb po' (foldl (pool_step n) st rss) (f + zlen (fulls rss)) (g + zlen (all_factors (fulls rss))) /\
    ps_raw (foldl (pool_step n) st rss) = ps_raw st ++ parts rss.
Proof.
  intros po st f g Hp H. revert po st f g Hp. induction H as [|a rs l rss Ha _ IH]; intros po st f g Hp F0 G0 B1 B2 B3 B4.
  { exists po. split; [done|]. cbn. rewrite app_nil_r, !Z.add_0_r. done. }
  change (fulls (rs :: rss)) with (rs.1 ++ fulls rss) in *. change (parts (rs :: rss)) with (rs.2 ++ parts rss) in *. rewrite !all_factors_app, !zlen_app in *.
  pose proof (zlen_nonneg (fulls rss)). pose proof (zlen_nonneg (parts rss)). pose proof (zlen_nonneg (all_factors (fulls rss))). pose proof (zlen_nonneg (all_factors (parts rss))).
  pose proof (zlen_nonneg rs.1). pose proof (zlen_nonneg (all_factors rs.1)).
  destruct (pool_batch_spec n fb po st f g a rs Hp Ha) as (po1 & E1 & Hi1); [lia..|].
  destruct (IH po1 _ _ _ Hi1) as (po2 & E2 & Hi2 & Hi3); [lia|lia|lia|lia|rewrite pool_step_raw, zlen_app; lia|rewrite pool_step_raw, all_factors_app, zlen_app; lia|].
  exists po2. split; [|split].
  - unfold pool_all in *. cbn [foldl mbind option_bind]. by rewrite E1.
  - by rewrite !Z.add_assoc.
  - cbn [foldl]. by rewrite Hi3, pool_step_raw, <- app_assoc.
Qed.

Lemma pool_start n N fb target margin lp1 :
  u512_ok N -> Z.odd (u512_val N) = true -> u512_val N = n ->
  pool_inv n fb (mkPooled (RelationAccumulator_init target margin) (Some (CPULargePrimeTable_init lp1 N)) batch_start) empty_pool 0 0.
Proof.
  intros HN Ho <-. constructor; [apply acc_init_inv|eexists; split; [done|by apply init_inv]|done|done|by constructor|by constructor|by split; constructor|done].
Qed.

(** ** Lemmas: where batches come from *)

Lemma pool_all_app l1 l2 po : pool_all (l1 ++ l2) po = pool_all l1 po ≫= pool_all l2.
Proof.
  unfold pool_all. rewrite foldl_app. destruct (foldl _ (Some po) l1) as [po1|]; [done|]. cbn. induction l2; [done|]. by cbn.
Qed.

Lemma pool_all_cons a l po : pool_all (a :: l) po = pool_batch (ar_full a) (ar_partials a) (ar_source a) po ≫= pool_all l.
Proof. apply (pool_all_app [a] l po). Qed.

(** Draining the channel pools what waits there, oldest first, and leaves it empty. *)
Lemma drain_channel_spec fuel c po :
  DirectChannel.chan_inv c -> (length (DirectChannel.waiting c) < fuel)%nat ->
  exists c', DirectChannel.chan_inv c' /\ DirectChannel.waiting c' = [] /\
    drain_channel fuel c po = (fun po => (c', po)) <$> pool_all (map payload_arrival (DirectChannel.waiting c)) po.
Proof.
  revert c po. induction fuel as [|fuel IH]; intros c po Hc Hl; [lia|]. cbn [drain_channel].
  pose proof (apply_op_spec DirectChannel.Pop c Hc) as Hp. cbn [DirectChannel.apply_op] in Hp. destruct (DirectChannel.tryPop c) as [x c1].
  destruct Hp as (H1 & _ & E). cbn [DirectChannel.spec_op] in E. destruct (DirectChannel.waiting c) as [|p q] eqn:Ew.
  - injection E as -> E. exists c1. by split_and!.
  - injection E as -> E. cbn [map]. destruct (IH c1 po H1 ltac:(rewrite E; cbn in Hl; lia)) as (c2 & H2 & W2 & _).
    destruct (pool_payload p po) as [po1|] eqn:Ep.
    + destruct (IH c1 po1 H1 ltac:(rewrite E; cbn in Hl; lia)) as (c3 & H3 & W3 & E3). exists c3. split; [done|]. split; [done|].
      rewrite pool_all_cons. unfold pool_payload in Ep. cbn [payload_arrival ar_full ar_partials ar_source]. rewrite Ep. cbn [mbind option_bind]. by rewrite E3, E.
    + exists c2. split; [done|]. split; [done|]. rewrite pool_all_cons. unfold pool_payload in Ep. cbn [payload_arrival ar_full ar_partials ar_source]. by rewrite Ep.
Qed.

(** ** Lemmas: the restart *)

Lemma no_char_zeros b n i : partial_char (no_char b) i = partial_char (with_char b (replicate n 0)) i.
Proof. unfold partial_char, no_char, with_char. cbn [char_bits]. unfold idx. rewrite nth_zeros. do 2 (destruct (_ <? _)); try done; by destruct (Z.to_nat i). Qed.

Lemma insert_one_char b c1 c2 st i : partial_char (with_char b c1) i = partial_char (with_char b c2) i -> insert_one (with_char b c1) st i = insert_one (with_char b c2) st i.
Proof.
  intros H. unfold insert_one, combinePartials, append_combined, extractPartial. rewrite H. done.
Qed.

Lemma insertAndMatch_no_char b n t acc : insertAndMatch (no_char b) t acc = insertAndMatch (with_char b (replicate n 0)) t acc.
Proof.
  unfold insertAndMatch. cbn [no_char with_char num_relations]. destruct (num_relations b =? 0); [done|].
  assert (forall l st, foldl (insert_one (no_char b)) st l = foldl (insert_one (with_char b (replicate n 0))) st l) as E.
  { induction l as [|i l IH]; intros st; [done|]. cbn [foldl]. rewrite IH. f_equal. apply insert_one_char, no_char_zeros. }
  by rewrite <- E.
Qed.

Lemma append_no_char d b n i : appendSingleRelation d (no_char b) i = appendSingleRelation d (with_char b (replicate n 0)) i.
Proof.
  pose proof (no_char_zeros b n i) as E. unfold partial_char, zlen in E. unfold appendSingleRelation. rewrite !append_factors_spec, E. done.
Qed.

Lemma hash_with_char b c i : computeRelationHash (with_char b c) i = computeRelationHash b i.
Proof.
  unfold computeRelationHash. assert (forall n k e x, hash_loop (with_char b c) k n e x = hash_loop b k n e x) as E.
  { induction n as [|n IH]; intros k e x; [done|]. cbn [hash_loop]. by rewrite IH. }
  cbn [with_char factor_offsets]. by rewrite E.
Qed.

Lemma add_one_no_char b n src a i : add_one (no_char b) src a i = add_one (with_char b (replicate n 0)) src a i.
Proof.
  unfold add_one. rewrite (append_no_char _ b n). unfold no_char. by rewrite !hash_with_char.
Qed.

Lemma addRelations_no_char b n src a : addRelations a (no_char b) src = addRelations a (with_char b (replicate n 0)) src.
Proof.
  unfold addRelations. cbn [no_char with_char num_relations]. generalize (map Z.of_nat (seq 0 (Z.to_nat (num_relations b)))) as l.
  intros l. revert a. induction l as [|i l IH]; intros a; [done|]. cbn [foldl]. by rewrite IH, (add_one_no_char b n).
Qed.

Lemma plain_batch rs : Forall plain rs -> with_char (batch_of rs) (replicate (length rs) 0) = batch_of rs.
Proof.
  intros H. unfold with_char. assert (replicate (length rs) 0 = map r_char rs) as E; [|by rewrite E].
  induction H as [|r rs E _ IH]; [done|]. cbn. by rewrite IH, E.
Qed.

Lemma match_plain n l : forall tab out, map_Forall (fun _ r => plain r) tab -> Forall plain out -> Forall plain l ->
  map_Forall (fun _ r => plain r) (foldl (match_one n) (tab, out) l).1 /\ Forall plain (foldl (match_one n) (tab, out) l).2.
Proof.
  induction l as [|r l IH]; intros tab out Ht Ho Hl; [done|]. apply Forall_cons in Hl as [Hr Hl]. cbn [foldl]. unfold match_one at 2 4. cbn [fst snd].
  destruct (r_lp r <=? 1); [by apply IH|]. destruct (tab !! r_lp r) as [s|] eqn:E.
  - pose proof (Ht _ _ E) as Hs. cbn in Hs. destruct (_ =? _); (apply IH; [by apply map_Forall_delete| |done]); [done|].
    apply Forall_app. split; [done|]. apply Forall_singleton. unfold plain in *. cbn. by rewrite Hs, Hr.
  - apply IH; [|done|done]. by apply map_Forall_insert_2.
Qed.

Lemma pool_step_plain n st rs : plain_pool st -> Forall plain rs.1 -> Forall plain rs.2 -> plain_pool (pool_step n st rs).
Proof.
  intros (H1 & H2 & H3) Hf Hp. unfold pool_step. destruct (match_plain n rs.2 (ps_waiting st) [] H1 ltac:(constructor) Hp) as [M1 M2].
  destruct (foldl _ _ _) as [tab out]. cbn [fst snd] in *. unfold plain_pool. cbn [ps_waiting ps_kept ps_raw]. split; [done|]. split; [|by apply Forall_app].
  apply Forall_app. split; [apply Forall_app; split; [done|by apply Forall_dedup]|by apply Forall_dedup].
Qed.

Lemma pool_steps_plain n rss st : plain_pool st -> Forall (fun rs => Forall plain rs.1 /\ Forall plain rs.2) rss -> plain_pool (foldl (pool_step n) st rss).
Proof. intros H Hr. revert st H. induction Hr as [|rs rss [H1 H2] _ IH]; intros st H; [done|]. cbn [foldl]. by apply IH, pool_step_plain. Qed.

Lemma no_char_plain rs : Forall plain rs -> forall t acc src,
  insertAndMatch (no_char (batch_of rs)) t acc = insertAndMatch (batch_of rs) t acc /\ addRelations acc (no_char (batch_of rs)) src = addRelations acc (batch_of rs) src.
Proof. intros H t acc src. by rewrite (insertAndMatch_no_char _ (length rs)), (addRelations_no_char _ (length rs)), plain_batch. Qed.

Lemma buffer_no_char b raw : bufferClusterPartials (no_char b) raw = bufferClusterPartials b raw.
Proof.
  unfold bufferClusterPartials. cbn [no_char with_char num_relations]. destruct (_ =? 0); [done|]. revert raw. generalize (map Z.of_nat (seq 0 (Z.to_nat (num_relations b)))) as l.
  induction l as [|i l IH]; intros raw; [done|]. cbn [foldl]. rewrite IH. f_equal. unfold buffer_one. by rewrite !append_factors_spec.
Qed.

(** Relations that were saved without characters bring the pool back. *)
Lemma restart_spec N fb po st f g target margin lp1 :
  u512_ok N -> Z.odd (u512_val N) = true -> pool_inv (u512_val N) fb po st f g -> plain_pool st ->
  0 <= f < 2 ^ 60 -> 0 <= g < 2 ^ 60 -> zlen (ps_raw st) < 2 ^ 48 -> zlen (all_factors (ps_raw st)) < 2 ^ 64 ->
  exists po', start_pooling (RelationAccumulator_init target margin) (Some (CPULargePrimeTable_init lp1 N))
      (Some (no_char (batch_of (ps_kept st)), if 0 <? num_relations (po_raw_partials po) then no_char (po_raw_partials po) else batch_empty)) = Some po' /\
    pool_inv (u512_val N) fb po' st f g.
Proof.
  intros HN Ho [P1 _ P3 P4 P5 P6 [V1 V2] [R1 R2]] (L1 & L2 & L3) Hf Hg Hk Hr. pose proof (zlen_nonneg (ps_raw st)).
  set (partials := if _ : bool then _ else _).
  assert (forall t acc, insertAndMatch partials t acc = insertAndMatch (batch_of (ps_raw st)) t acc /\
    bufferClusterPartials partials batch_start = bufferClusterPartials (batch_of (ps_raw st)) batch_start) as Hp.
  { intros t acc. unfold partials. rewrite P3. change (no_char (no_char (batch_of (ps_raw st)))) with (no_char (batch_of (ps_raw st))).
    change (num_relations (no_char (batch_of (ps_raw st)))) with (Z.of_nat (length (ps_raw st))). destruct (Z.ltb_spec 0 (Z.of_nat (length (ps_raw st)))) as [E|E].
    - by rewrite buffer_no_char, (proj1 (no_char_plain _ L3 t acc 0)).
    - destruct (ps_raw st); [done|cbn in E; lia]. }
  unfold start_pooling. cbv beta iota. rewrite (proj2 (no_char_plain _ L2 (CPULargePrimeTable_init lp1 N) (RelationAccumulator_init target margin) 0)).
  pose proof (acc_init_inv target margin) as A0. unfold zlen in *.
  pose proof (addRelations_spec _ [] _ (ps_kept st) 0 A0 (repr_batch_of _) ltac:(cbn; lia) ltac:(cbn; lia)) as A1. cbn [app map list_to_set] in A1. rewrite dedup_self in A1 by done.
  set (acc := addRelations _ _ _) in *.
  destruct (insertAndMatch_spec (u512_val N) fb _ ∅ 0 (batch_of (ps_raw st)) (ps_raw st) acc (ps_kept st) (init_inv N fb lp1 HN Ho) (repr_batch_of _) V2)
    as (t' & acc' & E & Hi & Ha & _ & _); [lia|unfold zlen; lia|done|unfold zlen; lia|unfold zlen; lia|].
  rewrite (proj1 (Hp _ acc)), E. cbn [mbind option_bind]. eexists. split; [done|].
  rewrite dedup_all in Ha.
  2: { eapply Forall_impl; [exact P5|]. intros r Hx. by apply elem_of_list_to_set. }
  rewrite app_nil_r in Ha. constructor; cbn [po_accumulator po_cpu_lp po_raw_partials]; try done.
  - exists t'. split; [done|]. by rewrite P4.
  - rewrite (proj2 (Hp t' acc)). change batch_start with (no_char (batch_of [])). rewrite bufferClusterPartials_spec with (rs := ps_raw st); [done|apply repr_batch_of|unfold zlen; cbn [length]; lia|unfold zlen; cbn [length all_factors concat map]; lia].
Qed.

(** ** Characters *)

Lemma characters_lost : lost_characters = Some ([3], [2]).
Proof. vm_compute. reflexivity. Qed.

(** ** Properties *)

(** C31. Pooling is exact. Whatever batches arrive from the nodes, cut and ordered anyhow, the coordinator ends with exactly the deduplicated full
    relations and products of matching partial ones in the order of arrival, the table holds exactly the partial relations that wait, the copy holds
    every partial relation; all kept relations are valid and no two have the same hash. *)
Theorem pooling_exact N fb target margin lp1 l rss :
  u512_ok N -> Z.odd (u512_val N) = true -> Forall2 (arrives_as (u512_val N) fb) l rss ->
  zlen (fulls rss) < 2 ^ 60 -> zlen (all_factors (fulls rss)) < 2 ^ 60 -> zlen (parts rss) < 2 ^ 48 -> zlen (all_factors (parts rss)) < 2 ^ 60 ->
  let st := foldl (pool_step (u512_val N)) empty_pool rss in
  exists po lp, pool_all l (mkPooled (RelationAccumulator_init target margin) (Some (CPULargePrimeTable_init lp1 N)) batch_start) = Some po /\
    accumulated_ (po_accumulator po) = batch_of (ps_kept st) /\ po_cpu_lp po = Some lp /\ table_ lp = partial_of <$> ps_waiting st /\
    po_raw_partials po = no_char (batch_of (parts rss)) /\
    Forall (smooth_holds (u512_val N) fb) (ps_kept st) /\ NoDup (map rel_hash (ps_kept st)).
Proof.
  intros HN Ho Hl B1 B2 B3 B4 st.
  destruct (pool_all_spec (u512_val N) fb l rss _ _ 0 0 (pool_start (u512_val N) N fb target margin lp1 HN Ho eq_refl) Hl) as (po & E & Hi & Er); [lia|lia|lia|lia|change (zlen (ps_raw empty_pool)) with 0; lia|change (zlen (all_factors (ps_raw empty_pool))) with 0; lia|].
  fold st in Hi, Er. destruct Hi as [[A1 _ _ _] (lp & El & [L1 _ _ _ _ _ _]) P3 _ _ P6 [V1 _] _]. exists po, lp. split; [done|]. rewrite P3, Er. by split_and!.
Qed.

(** [42^2 = 5 * 23] from one node and [27^2 = - 2^3 * 5 * 23] from another, modulo 1649. *)
Lemma pooling_exact_witness :
  exists po lp, pool_all [mkArrival batch_empty (batch_of [mkRel 42 1 0 23 0 [(0, 1)]]) 1; mkArrival batch_empty (batch_of [mkRel 27 255 3 23 0 [(0, 1)]]) 2]
      (mkPooled (RelationAccumulator_init 5 default_margin) (Some (CPULargePrimeTable_init 100 (u512_of_Z 1649))) batch_start) = Some po /\
    accumulated_ (po_accumulator po) = batch_of [mkRel 1134 255 3 23 0 [(0, 2)]] /\ po_cpu_lp po = Some lp /\ table_ lp = ∅ /\
    po_raw_partials po = no_char (batch_of [mkRel 42 1 0 23 0 [(0, 1)]; mkRel 27 255 3 23 0 [(0, 1)]]).
Proof.
  set (ra := mkRel 42 1 0 23 0 [(0, 1)]). set (rb := mkRel 27 255 3 23 0 [(0, 1)]).
  pose proof (pooling_exact (u512_of_Z 1649) [5] 5 default_margin 100 [mkArrival batch_empty (batch_of [ra]) 1; mkArrival batch_empty (batch_of [rb]) 2]
    [([], [ra]); ([], [rb])]) as H.
  assert (carries batch_empty []) as He by by right.
  destruct H as (po & lp & E & Ea & El & Et & Er & _).
  - apply u512_of_Z_spec.
  - reflexivity.
  - constructor; [|constructor; [|constructor]]; (split; [exact He|split; [left; apply repr_batch_of|split; [constructor|]]]);
      repeat constructor; cbn; unfold in_width; try lia; try (vm_compute; congruence).
  - reflexivity.
  - reflexivity.
  - reflexivity.
  - reflexivity.
  - exists po, lp. split; [exact E|]. split; [exact Ea|]. split; [exact El|]. split; [exact Et|exact Er].
Defined.
