(* ===== verification/Coordinator.v ===== *)
(** The coordinator's network thread ([networkLoop] of [src/src/orchestrator/orchestrator.cpp]), the chunks it shares with its own
    sieve: the tracker of each worker, assignment, completion and re-request of chunks, heartbeats and the sweep over idle workers,
    stragglers, the end of the loop.

    A handler of the network thread and a step of the sieving thread are atomic here. What varies from run to run is an argument: the
    clock, whether a send succeeds, the order in which hash maps are traversed, environment variables. *)
From Stdlib Require Import ZArith Lia.
From stdpp Require Import base gmap sets list.
From S2P Require Import Prelude UInt512 Bytes Doubles Soa Serialization Accumulator Protocol DataTap WorkPool Scheduler Factorization Pooling.
#[local] Open Scope Z_scope.

(** ** Workers and chunks *)

(** The values of [current_chunk_id] that are no chunk of the pool: idle, and busy with the initial range. *)
Definition kIdle : Z := 2 ^ 32 - 1.
Definition kInitialChunk : Z := 2 ^ 32 - 1 - 1.

Record WorkerTracker := mkTracker { wt_last_heartbeat : Z; wt_current_chunk_id : Z; wt_total_rels : Z; wt_alive : bool }.

(** The entry [operator[]] creates. *)
Definition WorkerTracker_init : WorkerTracker := mkTracker 0 kIdle 0 true.

Record coordinator := mkCo {
  co_pooled : pooled;
  co_pool : WorkPool;
  co_scheduler : ChunkScheduler;
  co_trackers : gmap Z WorkerTracker;
  co_total_workers : Z;
  co_workers_flushed : Z;
  co_all_flushed : bool;
  co_initial_ranges : list (Z * Z);
  co_resume_offsets : list Z;
  co_initial_hw : list Z;
  co_node0_hw : Z;
  co_node0_chunk : option CheckedOutWork;
  co_occurrences : gmap Z Z;
  co_last_recall : gmap Z Z;
  co_failed_sends : Z;
  co_redispatched : Z;
  co_recalled : list (Z * Z);
  co_disconnected : list Z
}.

(** What one handler meets: the clocks of a checkout and of the test for stragglers in nanoseconds, results of sends and of the debug hook
    per worker, the parsed debug cap, the order of the scheduler's hash map. *)
Record env := mkEnv { e_checkout : Z; e_straggler : Z; e_send : Z -> bool; e_drop : Z -> Z -> bool; e_cap : option Z; e_order : list Z }.

Definition tracker (w : Z) (s : coordinator) : WorkerTracker := default WorkerTracker_init (co_trackers s !! w).

Definition set_pooled (po : pooled) (s : coordinator) : coordinator :=
  mkCo po (co_pool s) (co_scheduler s) (co_trackers s) (co_total_workers s) (co_workers_flushed s) (co_all_flushed s) (co_initial_ranges s)
    (co_resume_offsets s) (co_initial_hw s) (co_node0_hw s) (co_node0_chunk s) (co_occurrences s) (co_last_recall s) (co_failed_sends s)
    (co_redispatched s) (co_recalled s) (co_disconnected s).
Definition set_pool (p : WorkPool) (s : coordinator) : coordinator :=
  mkCo (co_pooled s) p (co_scheduler s) (co_trackers s) (co_total_workers s) (co_workers_flushed s) (co_all_flushed s) (co_initial_ranges s)
    (co_resume_offsets s) (co_initial_hw s) (co_node0_hw s) (co_node0_chunk s) (co_occurrences s) (co_last_recall s) (co_failed_sends s)
    (co_redispatched s) (co_recalled s) (co_disconnected s).
Definition set_scheduler (sc : ChunkScheduler) (s : coordinator) : coordinator :=
  mkCo (co_pooled s) (co_pool s) sc (co_trackers s) (co_total_workers s) (co_workers_flushed s) (co_all_flushed s) (co_initial_ranges s)
    (co_resume_offsets s) (co_initial_hw s) (co_node0_hw s) (co_node0_chunk s) (co_occurrences s) (co_last_recall s) (co_failed_sends s)
    (co_redispatched s) (co_recalled s) (co_disconnected s).
Definition set_tracker (w : Z) (t : WorkerTracker) (s : coordinator) : coordinator :=
  mkCo (co_pooled s) (co_pool s) (co_scheduler s) (<[w := t]> (co_trackers s)) (co_total_workers s) (co_workers_flushed s) (co_all_flushed s)
    (co_initial_ranges s) (co_resume_offsets s) (co_initial_hw s) (co_node0_hw s) (co_node0_chunk s) (co_occurrences s) (co_last_recall s)
    (co_failed_sends s) (co_redispatched s) (co_recalled s) (co_disconnected s).
Definition set_initial_hw (hw : list Z) (s : coordinator) : coordinator :=
  mkCo (co_pooled s) (co_pool s) (co_scheduler s) (co_trackers s) (co_total_workers s) (co_workers_flushed s) (co_all_flushed s) (co_initial_ranges s)
    (co_resume_offsets s) hw (co_node0_hw s) (co_node0_chunk s) (co_occurrences s) (co_last_recall s) (co_failed_sends s)
    (co_redispatched s) (co_recalled s) (co_disconnected s).
Definition set_node0 (hw : Z) (c : option CheckedOutWork) (s : coordinator) : coordinator :=
  mkCo (co_pooled s) (co_pool s) (co_scheduler s) (co_trackers s) (co_total_workers s) (co_workers_flushed s) (co_all_flushed s) (co_initial_ranges s)
    (co_resume_offsets s) (co_initial_hw s) hw c (co_occurrences s) (co_last_recall s) (co_failed_sends s)
    (co_redispatched s) (co_recalled s) (co_disconnected s).
(** The counter of the debug hook, of failed sends and of repeated dispatches. *)
Definition set_dispatch (occ : gmap Z Z) (failed redispatched : Z) (s : coordinator) : coordinator :=
  mkCo (co_pooled s) (co_pool s) (co_scheduler s) (co_trackers s) (co_total_workers s) (co_workers_flushed s) (co_all_flushed s) (co_initial_ranges s)
    (co_resume_offsets s) (co_initial_hw s) (co_node0_hw s) (co_node0_chunk s) occ (co_last_recall s) failed
    redispatched (co_recalled s) (co_disconnected s).
Definition set_recall (last : gmap Z Z) (recalled : list (Z * Z)) (s : coordinator) : coordinator :=
  mkCo (co_pooled s) (co_pool s) (co_scheduler s) (co_trackers s) (co_total_workers s) (co_workers_flushed s) (co_all_flushed s) (co_initial_ranges s)
    (co_resume_offsets s) (co_initial_hw s) (co_node0_hw s) (co_node0_chunk s) (co_occurrences s) last (co_failed_sends s)
    (co_redispatched s) recalled (co_disconnected s).
(** [++workers_flushed] and the test behind it. *)
Definition count_flush (s : coordinator) : coordinator :=
  let n := wrap 32 (co_workers_flushed s + 1) in
  mkCo (co_pooled s) (co_pool s) (co_scheduler s) (co_trackers s) (co_total_workers s) n (if co_total_workers s <=? n then true else co_all_flushed s)
    (co_initial_ranges s) (co_resume_offsets s) (co_initial_hw s) (co_node0_hw s) (co_node0_chunk s) (co_occurrences s) (co_last_recall s)
    (co_failed_sends s) (co_redispatched s) (co_recalled s) (co_disconnected s).
Definition disconnect (w : Z) (s : coordinator) : coordinator :=
  mkCo (co_pooled s) (co_pool s) (co_scheduler s) (co_trackers s) (co_total_workers s) (co_workers_flushed s) (co_all_flushed s) (co_initial_ranges s)
    (co_resume_offsets s) (co_initial_hw s) (co_node0_hw s) (co_node0_chunk s) (co_occurrences s) (co_last_recall s) (co_failed_sends s)
    (co_redispatched s) (co_recalled s) (co_disconnected s ++ [w]).

Definition set_current (w c : Z) (s : coordinator) : coordinator :=
  let t := tracker w s in set_tracker w (mkTracker (wt_last_heartbeat t) c (wt_total_rels t) (wt_alive t)) s.

(** [!worker_trackers[w].current_chunk_id] names a chunk of the pool. *)
Definition holds_chunk (c : Z) : bool := negb (c =? kIdle) && negb (c =? kInitialChunk).

(** Whether [CHUNK_ASSIGN] reaches the socket. *)
Definition send_assign (e : env) (wid : Z) (debug_droppable : bool) (s : coordinator) : bool * coordinator :=
  if debug_droppable then
    let occ := wrap 64 (default 0 (co_occurrences s !! wid) + 1) in
    let s := set_dispatch (<[wid := occ]> (co_occurrences s)) (co_failed_sends s) (co_redispatched s) s in
    (if e_drop e wid occ then false else e_send e wid, s)
  else (e_send e wid, s).

(** The result: whether a chunk is now in flight for the worker. The test for overlaps only writes to the log. *)
Definition assignChunkTo (e : env) (wid : Z) (debug_droppable is_redispatch : bool) (s : coordinator) : bool * coordinator :=
  if negb (wt_current_chunk_id (tracker wid s) =? kIdle) then (false, set_tracker wid (tracker wid s) s)
  else
    let s := set_tracker wid (tracker wid s) s in
    if targetReached (po_accumulator (co_pooled s)) || exhausted (co_pool s) then (false, s)
    else
      let next_size := nextChunkSize (e_cap e) (e_order e) wid (co_scheduler s) in
      match checkoutWork (co_pool s) next_size wid (e_checkout e) with
      | (p, None) => (false, set_pool p s)
      | (p, Some checkout) =>
          let s := set_pool p s in
          let '(assign_sent, s) := send_assign e wid debug_droppable s in
          if negb assign_sent then
            let s := set_pool (returnChunk (co_pool s) (cw_chunk_id checkout)).1 s in
            (false, set_dispatch (co_occurrences s) (wrap 64 (co_failed_sends s + 1)) (co_redispatched s) s)
          else
            let s := set_current wid (cw_chunk_id checkout) s in
            (true, if is_redispatch then set_dispatch (co_occurrences s) (co_failed_sends s) (wrap 64 (co_redispatched s + 1)) s else s)
      end.

(** [duration<double>(a - b).count()] on nanoseconds. *)
Definition seconds (ns : Z) : double := d_div (d_of_Z ns) (d_of_Z 1000000000).

Definition fastest_rels_per_sec (s : coordinator) : double :=
  foldl (fun best wid =>
    let tp := throughput (wrap 8 wid) (co_scheduler s) in
    if (0 <? chunks_completed tp) && d_ltb best (rels_per_sec tp) then rels_per_sec tp else best)
    zero (map Z.of_nat (seq 1 (Z.to_nat (co_total_workers s)))).

(** Whether [cow] is recalled. *)
Definition straggles (now_s : Z) (fastest : double) (last : gmap Z Z) (sc : ChunkScheduler) (cow : CheckedOutWork) : bool :=
  let tp := throughput (cw_worker_id cow) sc in
  if d_leb (a_vals_per_sec tp) zero || (chunks_completed tp <? 1) then false
  else if d_ltb (seconds (now_s - cw_checkout_time cow)) (d_of_Z 30) then false
  else if match last !! cw_worker_id cow with Some t => d_ltb (seconds (now_s - t)) (d_of_Z 60) | None => false end then false
  else
    let remaining_a := d_of_Z (wu_count (cw_unit cow)) in
    d_ltb (d_mul (d_of_Z 2) (d_div remaining_a fastest)) (d_div remaining_a (a_vals_per_sec tp)).

Definition checkStragglers (e : env) (s : coordinator) : coordinator :=
  let fastest := fastest_rels_per_sec s in
  if d_leb fastest zero then s
  else
    foldl (fun s cow =>
      if straggles (e_straggler e) fastest (co_last_recall s) (co_scheduler s) cow
      then set_recall (<[cw_worker_id cow := e_straggler e]> (co_last_recall s)) (co_recalled s ++ [(cw_worker_id cow, cw_chunk_id cow)]) s
      else s) s (inFlightChunks (co_pool s)).

(** ** Messages *)

(** The high-water mark of an initial range, from the count a node reports. *)
Definition initial_hw (s : coordinator) (w consumed : Z) : Z :=
  let cap := if w <? zlen (co_initial_ranges s) then (nth (Z.to_nat w) (co_initial_ranges s) (0, 0)).2 else consumed in
  let off := if w <? zlen (co_resume_offsets s) then idx (co_resume_offsets s) w else 0 in
  Z.min (wrap 64 (off + consumed)) cap.

Definition on_chunk_complete (e : env) (m : RecvMessage) (s : coordinator) : coordinator :=
  if sizeof ChunkCompletePayload <=? zlen (payload m) then
    let cc := copy_from ChunkCompletePayload (payload m) in
    let w := sender_id m in
    let s := set_scheduler (recordCompletion w (cc_relations_found cc) (a_values_consumed cc) (d_div (d_of_Z (elapsed_ms cc)) (d_of_Z 1000))
               (co_scheduler s)) s in
    let wt := tracker w s in
    let s := if (wt_current_chunk_id wt =? cc_chunk_id cc) && holds_chunk (wt_current_chunk_id wt)
             then set_pool (reclaimPartial (co_pool s) (cc_chunk_id cc) (a_values_consumed cc)) s else s in
    let s := if (wt_current_chunk_id wt =? kInitialChunk) && (w <? zlen (co_initial_hw s))
             then set_initial_hw (<[Z.to_nat w := initial_hw s w (a_values_consumed cc)]> (co_initial_hw s)) s else s in
    let s := set_tracker w (mkTracker (wt_last_heartbeat wt) kIdle (wrap 64 (wt_total_rels wt + cc_relations_found cc)) (wt_alive wt)) s in
    let s := (assignChunkTo e w true false s).2 in
    checkStragglers e s
  else s.

Definition on_chunk_request (now : Z) (e : env) (m : RecvMessage) (s : coordinator) : coordinator :=
  let w := sender_id m in
  let wt := tracker w s in
  let s := if holds_chunk (wt_current_chunk_id wt) then set_pool (returnChunk (co_pool s) (wt_current_chunk_id wt)).1 s else s in
  let s := set_tracker w (mkTracker now kIdle (wt_total_rels wt) (wt_alive wt)) s in
  (assignChunkTo e w false true s).2.

Definition on_heartbeat (now : Z) (m : RecvMessage) (s : coordinator) : coordinator :=
  if sizeof HeartbeatPayload <=? zlen (payload m) then
    let wt := tracker (sender_id m) s in
    set_tracker (sender_id m) (mkTracker now (wt_current_chunk_id wt) (wt_total_rels wt) (wt_alive wt)) s
  else s.

(** One received message: the state and the messages that are deferred. *)
Definition on_message (now : Z) (e : env) (m : RecvMessage) (st : coordinator * list RecvMessage) : coordinator * list RecvMessage :=
  let '(s, deferred) := st in
  if negb (valid m) then st
  else if is_type (type m) INCREMENTAL_BATCH then (s, deferred ++ [m])
  else if is_type (type m) CHUNK_COMPLETE then (on_chunk_complete e m s, deferred)
  else if is_type (type m) CHUNK_REQUEST then (on_chunk_request now e m s, deferred)
  else if is_type (type m) HEARTBEAT then (on_heartbeat now m s, deferred)
  else if is_type (type m) FLUSH_ACK then (count_flush s, deferred)
  else st.

(** [for (const auto& batch_msg : deferred_batches)]. *)
Definition replay (deferred : list RecvMessage) (po : pooled) : option pooled :=
  foldl (fun po m => po ≫= processIncrementalBatch m) (Some po) deferred.

(** ** Timeouts *)

Definition check_heartbeat (now : Z) (s : coordinator) (wid : Z) : coordinator :=
  let wt := tracker wid s in
  if negb (wt_alive wt) then s
  else if kFlushTimeoutMs ÷ 1000 <? (now - wt_last_heartbeat wt) ÷ 1000000000 then
    let s := if holds_chunk (wt_current_chunk_id wt) then set_pool (reclaimWork (co_pool s) wid).1 s else s in
    let s := set_tracker wid (mkTracker (wt_last_heartbeat wt) kIdle (wt_total_rels wt) false) s in
    count_flush (disconnect wid s)
  else s.

(** The sweep over idle workers; [es] gives each its environment. *)
Fixpoint idle_sweep (es : Z -> env) (workers : list Z) (s : coordinator) : coordinator :=
  match workers with
  | [] => s
  | wid :: workers =>
      if negb (wt_alive (tracker wid s)) || negb (wt_current_chunk_id (tracker wid s) =? kIdle) then idle_sweep es workers s
      else if exhausted (co_pool s) then s
      else idle_sweep es workers (assignChunkTo (es wid) wid false true s).2
  end.

(** The body of the check that runs every five seconds; [workers] is the order of the map of trackers. *)
Definition check_timeouts (now : Z) (es : Z -> env) (workers : list Z) (s : coordinator) : coordinator :=
  let s := foldl (check_heartbeat now) s workers in
  if negb (targetReached (po_accumulator (co_pooled s))) && negb (exhausted (co_pool s)) then idle_sweep es workers s else s.

(** What one round of [networkLoop] meets. *)
Record round := mkRound { ro_now : Z; ro_waiting : nat; ro_messages : list (env * RecvMessage); ro_sweep : Z -> env; ro_workers : list Z }.

(** Parts 1 and 2 of a round: the coordinator's own payloads, control messages, the deferred batches, timeouts. [last] is
    [last_timeout_check]. *)
Definition network_round (r : round) (st : coordinator * DirectChannel.DirectChannel * Z) : option (coordinator * DirectChannel.DirectChannel * Z) :=
  let '(s, c, last) := st in
  '(c, po) ← drain_channel (ro_waiting r) c (co_pooled s);
  let s := set_pooled po s in
  let '(s, deferred) := foldl (fun st '(e, m) => on_message (ro_now r) e m st) (s, []) (ro_messages r) in
  po ← replay deferred (co_pooled s);
  let s := set_pooled po s in
  Some (if 5000000000 <? ro_now r - last then (check_timeouts (ro_now r) (ro_sweep r) (ro_workers r) s, c, ro_now r) else (s, c, last)).

(** ** The end of the loop *)

Definition on_flush_message (st : option coordinator) (m : RecvMessage) : option coordinator :=
  s ← st;
  if negb (valid m) then Some s
  else if is_type (type m) INCREMENTAL_BATCH then po ← processIncrementalBatch m (co_pooled s); Some (set_pooled po s)
  else if is_type (type m) FLUSH_ACK then Some (count_flush s)
  else Some s.

(** The wait for the workers: one list of messages per pass until the deadline. *)
Fixpoint flush_wait (passes : list (list RecvMessage)) (s : coordinator) : option coordinator :=
  if co_all_flushed s then Some s
  else
    match passes with
    | [] => Some s
    | msgs :: passes => s ← foldl on_flush_message (Some s) msgs; flush_wait passes s
    end.

(** The target is reached, or the time of a probe is over. *)
Definition stop_and_deliver (passes : list (list RecvMessage)) (c : DirectChannel.DirectChannel) (h : Handoff) (s : coordinator)
    : option (coordinator * DirectChannel.DirectChannel * Handoff) :=
  let c := DirectChannel.signalStop c in
  s ← flush_wait passes s;
  let '(final_batch, acc) := extractFinal (po_accumulator (co_pooled s)) in
  Some (set_pooled (mkPooled acc (po_cpu_lp (co_pooled s)) (po_raw_partials (co_pooled s))) s, c, deliver h final_batch).

(** All sources are done before the target. *)
Definition drain_and_deliver (waiting : nat) (c : DirectChannel.DirectChannel) (h : Handoff) (s : coordinator)
    : option (coordinator * DirectChannel.DirectChannel * Handoff) :=
  '(c, po) ← drain_channel waiting c (co_pooled s);
  let '(final_batch, acc) := extractFinal (po_accumulator po) in
  Some (set_pooled (mkPooled acc (po_cpu_lp po) (po_raw_partials po)) s, c, deliver h final_batch).

(** Parts 3 and 4: [None] inside is another round. *)
Definition loop_end (probe_over sieve_done : bool) (passes : list (list RecvMessage)) (waiting : nat) (c : DirectChannel.DirectChannel) (h : Handoff)
    (s : coordinator) : option (option (coordinator * DirectChannel.DirectChannel * Handoff)) :=
  if probe_over || targetReached (po_accumulator (co_pooled s)) then Some <$> stop_and_deliver passes c h s
  else if sieve_done && co_all_flushed s then Some <$> drain_and_deliver waiting c h s
  else Some None.

(** ** The coordinator's own sieve *)

(** The end of the initial range. *)
Definition node0_initial_done (consumed : Z) (elapsed : double) (s : coordinator) : coordinator :=
  let s := set_scheduler (recordCompletion 0 0 consumed elapsed (co_scheduler s)) s in
  let off0 := match co_resume_offsets s with [] => 0 | o :: _ => o end in
  let cap0 := match co_initial_ranges s with [] => 2 ^ 64 - 1 | r :: _ => r.2 end in
  set_node0 (Z.min (wrap 64 (off0 + consumed)) cap0) (co_node0_chunk s) s.

(** The head of the loop over chunks: the chunk to sieve, with the channel bounded to it. *)
Definition node0_next (e : env) (batch_a : Z) (c : DirectChannel.DirectChannel) (s : coordinator)
    : coordinator * DirectChannel.DirectChannel :=
  if DirectChannel.stopped c || targetReached (po_accumulator (co_pooled s)) || exhausted (co_pool s) then (s, c)
  else
    let sz := nextChunkSize (e_cap e) (e_order e) 0 (co_scheduler s) in
    match checkoutWork (co_pool s) sz 0 (e_checkout e) with
    | (p, None) => (set_pool p s, c)
    | (p, Some chunk) => (set_node0 (co_node0_hw s) (Some chunk) (set_pool p s), DirectChannel.setRange (wu_count (cw_unit chunk)) batch_a c)
    end.

Definition node0_done (consumed : Z) (el : double) (s : coordinator) : coordinator :=
  match co_node0_chunk s with
  | None => s
  | Some chunk =>
      let s := set_scheduler (recordCompletion 0 0 consumed el (co_scheduler s)) s in
      set_node0 (co_node0_hw s) None (set_pool (reclaimPartial (co_pool s) (cw_chunk_id chunk) consumed) s)
  end.

(** ** Vocabulary of the specifications *)

(** A step of either thread. [EPool]: payloads or deferred batches have been pooled. *)
Inductive event :=
  | EPool (po : pooled)
  | EMessage (now : Z) (e : env) (m : RecvMessage)
  | EHeartbeat (now : Z) (wid : Z)
  | ESweep (es : Z -> env) (workers : list Z)
  | ENode0Initial (consumed : Z) (elapsed : double)
  | ENode0Next (e : env) (batch_a : Z) (c : DirectChannel.DirectChannel)
  | ENode0Done (consumed : Z) (el : double).

Definition apply_event (ev : event) (s : coordinator) : coordinator :=
  match ev with
  | EPool po => set_pooled po s
  | EMessage now e m => (on_message now e m (s, [])).1
  | EHeartbeat now wid => check_heartbeat now s wid
  | ESweep es workers => idle_sweep es workers s
  | ENode0Initial consumed elapsed => node0_initial_done consumed elapsed s
  | ENode0Next e batch_a c => (node0_next e batch_a c s).1
  | ENode0Done consumed el => node0_done consumed el s
  end.

Definition run_events (evs : list event) (s : coordinator) : coordinator := foldl (fun s ev => apply_event ev s) s evs.

(** How many chunks a step hands out at most. *)
Definition event_cost (ev : event) : Z :=
  match ev with
  | EMessage _ _ _ | ENode0Next _ _ _ => 1
  | ESweep _ workers => zlen workers
  | _ => 0
  end.

(** The completion a worker reports is that of the chunk it is tracked with, when it is tracked with one. *)
Definition on_time (s : coordinator) (m : RecvMessage) : Prop :=
  valid m = true -> is_type (type m) INCREMENTAL_BATCH = false -> is_type (type m) CHUNK_COMPLETE = true ->
  sizeof ChunkCompletePayload <= zlen (payload m) -> holds_chunk (wt_current_chunk_id (tracker (sender_id m) s)) = true ->
  cc_chunk_id (copy_from ChunkCompletePayload (payload m)) = wt_current_chunk_id (tracker (sender_id m) s).

(** Workers have numbers from 1 on, payloads are bytes, node 0 sieves one chunk at a time. *)
Definition event_wf (s : coordinator) (ev : event) : Prop :=
  match ev with
  | EMessage _ _ m => 1 <= sender_id m /\ digits_ok 8 (payload m)
  | EHeartbeat _ wid => 1 <= wid
  | ESweep _ workers => Forall (fun w => 1 <= w) workers
  | ENode0Next _ _ _ => co_node0_chunk s = None
  | ENode0Done consumed _ => in_width 64 consumed
  | _ => True
  end.

(** The same, and no completion is late. *)
Definition event_ok (s : coordinator) (ev : event) : Prop :=
  match ev with
  | EMessage _ _ m => 1 <= sender_id m /\ digits_ok 8 (payload m) /\ on_time s m
  | EHeartbeat _ wid => 1 <= wid
  | ESweep _ workers => Forall (fun w => 1 <= w) workers
  | ENode0Next _ _ _ => co_node0_chunk s = None
  | ENode0Done consumed _ => in_width 64 consumed
  | _ => True
  end.

(** The states of a run whose steps are [ok], with a bound on the chunks handed out. *)
Inductive co_steps (ok : coordinator -> event -> Prop) (s0 : coordinator) : Z -> coordinator -> Prop :=
  | co_start : co_steps ok s0 0 s0
  | co_step n s ev : co_steps ok s0 n s -> ok s ev -> co_steps ok s0 (n + event_cost ev) (apply_event ev s).

(** Runs without late completions, and all runs. *)
Notation co_reach := (co_steps event_ok).
Notation co_reach_any := (co_steps event_wf).

(** The beginning: a full pool, nobody tracked with a chunk of it. *)
Record co_initial (a total : Z) (s : coordinator) : Prop := mkCoInitial {
  in_pool : co_pool s = WorkPool_init a total 64;
  in_trackers : forall w, holds_chunk (wt_current_chunk_id (tracker w s)) = false;
  in_node0 : co_node0_chunk s = None;
  in_scheduler : in_width 64 (H_ (co_scheduler s)) /\ in_width 64 (total_a_ (co_scheduler s))
}.

(** Who sieves a chunk in flight. *)
Definition owner (s : coordinator) (c : CheckedOutWork) : Prop :=
  if cw_worker_id c =? 0 then co_node0_chunk s = Some c
  else wt_current_chunk_id (tracker (cw_worker_id c) s) = cw_chunk_id c /\ holds_chunk (cw_chunk_id c) = true.

Record co_inv (a total : Z) (k : Z) (s : coordinator) : Prop := mkCoInv {
  ci_pool : exists d, pool_reach a total 64 d k (co_pool s);
  ci_owner : Forall (owner s) (in_flight_ (co_pool s));
  ci_tracked : forall w, holds_chunk (wt_current_chunk_id (tracker w s)) = true ->
    1 <= w /\ exists c, c ∈ in_flight_ (co_pool s) /\ cw_worker_id c = w /\ cw_chunk_id c = wt_current_chunk_id (tracker w s);
  ci_node0 : forall c, co_node0_chunk s = Some c -> c ∈ in_flight_ (co_pool s) /\ cw_worker_id c = 0;
  ci_scheduler : in_width 64 (H_ (co_scheduler s)) /\ in_width 64 (total_a_ (co_scheduler s))
}.

(** What survives late completions: the pool is one that its operations reach, the scheduler's numbers are words. *)
Record co_base (a total : Z) (k : Z) (s : coordinator) : Prop := mkCoBase {
  cb_pool : exists d, pool_reach a total 64 d k (co_pool s);
  cb_scheduler : in_width 64 (H_ (co_scheduler s)) /\ in_width 64 (total_a_ (co_scheduler s))
}.

(** The worker of a chunk in flight is tracked with it. *)
Definition has_work (s : coordinator) (w : Z) : Prop :=
  exists c, c ∈ in_flight_ (co_pool s) /\ cw_worker_id c = w /\ cw_chunk_id c = wt_current_chunk_id (tracker w s).

(** Two workers on their initial ranges; sends succeed. *)
Definition demo_co : coordinator :=
  mkCo (mkPooled (RelationAccumulator_init 100 default_margin) None batch_start) (WorkPool_init 10000 500000 64) (ChunkScheduler_init 3 510000 64 24)
    (<[1 := mkTracker 0 kInitialChunk 0 true]> (<[2 := mkTracker 0 kInitialChunk 0 true]> ∅)) 2 0 false [(0, 4000); (4000, 3000); (7000, 3000)] [] [0; 0; 0] 0 None ∅ ∅ 0 0 [] [].
Definition demo_env : env := mkEnv 0 0 (fun _ => true) (fun _ _ => false) None [1; 2].
Definition complete_msg (w chunk consumed : Z) : RecvMessage := mkRecv w (code CHUNK_COMPLETE) (image (mkComplete chunk 1000 10 0 consumed)) true.
Definition request_msg (w : Z) : RecvMessage := mkRecv w (code CHUNK_REQUEST) [] true.

(** Worker 1 ends its initial range and is given a chunk; its request, sent before that chunk arrived, gets it a second one; then it ends the first. *)
Definition stale_events : list event :=
  [EMessage 0 demo_env (complete_msg 1 0 3000); EMessage 0 demo_env (request_msg 1); EMessage 0 demo_env (complete_msg 1 0 12000)].

(** The same, with a send that fails after the late completion: worker 1 is idle. *)
Definition idle_events : list event :=
  [EMessage 0 demo_env (complete_msg 1 0 3000); EMessage 0 demo_env (request_msg 1);
   EMessage 0 (mkEnv 0 0 (fun _ => false) (fun _ _ => false) None [1; 2]) (complete_msg 1 0 12000)].

(** ** Lemmas: trackers *)

Lemma tracker_set w w' t s : tracker w (set_tracker w' t s) = if decide (w = w') then t else tracker w s.
Proof.
  unfold tracker, set_tracker. cbn [co_trackers]. destruct (decide (w = w')) as [->|H]; [by rewrite lookup_insert_eq|by rewrite lookup_insert_ne].
Qed.

Lemma holds_idle : holds_chunk kIdle = false.
Proof. done. Qed.

Lemma holds_small k : 0 <= k < 2 ^ 32 - 2 -> holds_chunk k = true.
Proof.
  intros H. unfold holds_chunk, kIdle, kInitialChunk. destruct (Z.eqb_spec k (2 ^ 32 - 1)); [lia|]. destruct (Z.eqb_spec k (2 ^ 32 - 1 - 1)); [lia|done].
Qed.

(** What the invariant depends on. *)
Lemma co_inv_same a total k s s' :
  co_inv a total k s -> co_pool s' = co_pool s -> (forall w, wt_current_chunk_id (tracker w s') = wt_current_chunk_id (tracker w s)) ->
  co_node0_chunk s' = co_node0_chunk s -> H_ (co_scheduler s') = H_ (co_scheduler s) -> total_a_ (co_scheduler s') = total_a_ (co_scheduler s) ->
  co_inv a total k s'.
Proof.
  intros [I1 I2 I3 I4 I5] Ep Et En Eh Ea. constructor; rewrite ?Ep, ?En, ?Eh, ?Ea; try done.
  - eapply Forall_impl; [exact I2|]. intros c. unfold owner. by rewrite Et, En.
  - intros w. rewrite Et. apply I3.
Qed.

Lemma co_inv_touch a total k s w t :
  co_inv a total k s -> wt_current_chunk_id t = wt_current_chunk_id (tracker w s) -> co_inv a total k (set_tracker w t s).
Proof.
  intros H E. apply (co_inv_same _ _ _ _ _ H); try done. intros w'. rewrite tracker_set. by destruct (decide (w' = w)) as [->|].
Qed.

(** Two sentinels are alike. *)
Lemma co_inv_idle a total k s w t :
  co_inv a total k s -> holds_chunk (wt_current_chunk_id (tracker w s)) = false -> holds_chunk (wt_current_chunk_id t) = false ->
  co_inv a total k (set_tracker w t s).
Proof.
  intros [I1 I2 I3 I4 I5] Hw Ht. constructor; try done.
  - eapply Forall_impl; [exact I2|]. intros c. unfold owner. rewrite tracker_set. destruct (cw_worker_id c =? 0); [done|].
    destruct (decide (cw_worker_id c = w)) as [->|]; [|done]. intros [E Hc]. rewrite E, Hc in Hw. done.
  - intros w'. rewrite tracker_set. destruct (decide (w' = w)) as [->|]; [by rewrite Ht|apply I3].
Qed.

(** ** Lemmas: chunks in flight *)

Lemma NoDup_ids_inj (l : list CheckedOutWork) c c' : NoDup (map cw_chunk_id l) -> c ∈ l -> c' ∈ l -> cw_chunk_id c = cw_chunk_id c' -> c = c'.
Proof.
  intros Hn [i Hi]%list_elem_of_lookup_1 [j Hj]%list_elem_of_lookup_1 E.
  assert (i = j) as ->; [|by rewrite Hi in Hj; injection Hj].
  apply (NoDup_lookup _ i j (cw_chunk_id c) Hn); rewrite list_lookup_fmap; [by rewrite Hi|by rewrite Hj, E].
Qed.

Lemma erase_keeps (l : list CheckedOutWork) id c : c ∈ l -> cw_chunk_id c <> id -> c ∈ erase_first (has_id id) l.
Proof.
  induction 1 as [c l|c c' l Hin IH]; intros Hc; cbn [erase_first]; unfold has_id at 1.
  - rewrite (proj2 (Z.eqb_neq _ _) Hc). by left.
  - destruct (cw_chunk_id c' =? id); [done|]. right. by apply IH.
Qed.

Lemma erase_elem (l : list CheckedOutWork) id c : NoDup (map cw_chunk_id l) -> c ∈ erase_first (has_id id) l -> c ∈ l /\ cw_chunk_id c <> id.
Proof.
  induction l as [|x l IH]; cbn [erase_first map]; intros Hn Hc; [by inversion Hc|]. apply NoDup_cons in Hn as [Hx Hn]. unfold has_id at 1 in Hc. destruct (Z.eqb_spec (cw_chunk_id x) id) as [E|E].
  - split; [by right|]. intros E'. apply Hx. rewrite E, <- E'. apply list_elem_of_In, in_map, list_elem_of_In, Hc.
  - apply elem_of_cons in Hc as [-> |Hc]; [by split; [left|]|]. destruct (IH Hn Hc). by split; [right|].
Qed.

Section pool.
Context (a total : Z).

Lemma ids_of k s : co_inv a total k s -> k <= 2 ^ 32 -> NoDup (map cw_chunk_id (in_flight_ (co_pool s))) /\
  (forall c, c ∈ in_flight_ (co_pool s) -> 0 <= cw_chunk_id c < k) /\ next_chunk_id_ (co_pool s) = wrap 32 k /\ 0 <= k.
Proof.
  intros [(d & Hp) _ _ _ _] Hk. destruct (pool_ids_inv _ _ _ _ _ _ Hp Hk) as (K0 & En & Hn & Hb). split; [done|]. split; [|done].
  intros c Hc. rewrite Forall_forall in Hb. apply Hb. apply list_elem_of_In, in_map, list_elem_of_In, Hc.
Qed.

Lemma checkout_reach k s n w now p c : co_inv a total k s -> in_width 64 n -> checkoutWork (co_pool s) n w now = (p, Some c) ->
  exists d, pool_reach a total 64 d (k + 1) p.
Proof.
  intros [(d & Hp) _ _ _ _] Hn E. exists d. pose proof (reach_step _ _ _ _ _ _ (OpCheckout n w now) Hp Hn) as H. cbn in H. rewrite E, app_nil_r in H. done.
Qed.

(** A chunk is handed to an idle worker. *)
Lemma co_inv_assign k s n w now p c :
  co_inv a total k s -> k < 2 ^ 32 - 2 -> 1 <= w -> wt_current_chunk_id (tracker w s) = kIdle -> in_width 64 n ->
  checkoutWork (co_pool s) n w now = (p, Some c) -> co_inv a total (k + 1) (set_current w (cw_chunk_id c) (set_pool p s)).
Proof.
  intros H Hk Hw Hi Hn E. destruct (ids_of k s H ltac:(lia)) as (Hnd & Hb & En & K0). pose proof (checkout_reach _ _ _ _ _ _ _ H Hn E) as Hr.
  destruct H as [_ I2 I3 I4 I5]. destruct (checkout_cases _ _ _ _ _ _ E) as (Ef & Ei & Ew). rewrite En, wrap_small in Ei by (unfold in_width; lia).
  assert (forall w', wt_current_chunk_id (tracker w' (set_current w (cw_chunk_id c) (set_pool p s))) = if decide (w' = w) then cw_chunk_id c else wt_current_chunk_id (tracker w' s)) as Et.
  { intros w'. unfold set_current. rewrite tracker_set. by destruct (decide (w' = w)). }
  assert (forall c', c' ∈ in_flight_ p <-> c' ∈ in_flight_ (co_pool s) \/ c' = c) as Hin by (intros c'; rewrite Ef, elem_of_app, list_elem_of_singleton; done).
  constructor; change (co_pool (set_current _ _ _)) with p; change (co_node0_chunk (set_current _ _ _)) with (co_node0_chunk s);
    change (co_scheduler (set_current _ _ _)) with (co_scheduler s); try done.
  - apply Forall_forall. intros c' [Hc'| ->]%Hin; unfold owner; change (co_node0_chunk (set_current _ _ _)) with (co_node0_chunk s); rewrite Et.
    + rewrite Forall_forall in I2. specialize (I2 c' Hc'). unfold owner in I2. destruct (cw_worker_id c' =? 0); [done|].
      destruct (decide (cw_worker_id c' = w)) as [Ew'|]; [|done]. rewrite Ew', Hi in I2. destruct I2 as [E1 E2]. by rewrite <- E1 in E2.
    + rewrite Ew. destruct (Z.eqb_spec w 0); [lia|]. rewrite decide_True by done. split; [done|]. apply holds_small. lia.
  - intros w'. rewrite Et. destruct (decide (w' = w)) as [->|].
    + intros _. split; [done|]. exists c. split; [apply Hin; by right|done].
    + intros Hh. destruct (I3 w' Hh) as (Hw' & c' & Hc' & E1 & E2). split; [done|]. exists c'. split; [apply Hin; by left|done].
  - intros c' Hc'. destruct (I4 c' Hc'). split; [apply Hin; by left|done].
Qed.

(** The same chunks are in flight. *)
Lemma co_inv_flight k k' s p : co_inv a total k s -> (exists d, pool_reach a total 64 d k' p) -> in_flight_ p = in_flight_ (co_pool s) -> co_inv a total k' (set_pool p s).
Proof.
  intros [I1 I2 I3 I4 I5] Hr Ef. constructor; change (co_pool (set_pool p s)) with p; rewrite ?Ef; try done.
Qed.

Lemma returnChunk_flight p id : in_flight_ (returnChunk p id).1 = erase_first (has_id id) (in_flight_ p).
Proof. unfold returnChunk. destruct (List.find _ _) eqn:E; [done|]. cbn. by rewrite erase_first_none. Qed.

Lemma reclaimPartial_flight p id n : in_flight_ (reclaimPartial p id n) = erase_first (has_id id) (in_flight_ p).
Proof. unfold reclaimPartial. destruct (List.find _ _) eqn:E; [done|]. by rewrite erase_first_none. Qed.

Lemma reach_op d k p op : pool_reach a total 64 d k p -> op_ok op -> issued_by op p = 0 -> exists d', pool_reach a total 64 d' k (run_op op p).
Proof. intros H Ho E. eexists. pose proof (reach_step _ _ _ _ _ _ op H Ho) as Hr. rewrite E, Z.add_0_r in Hr. exact Hr. Qed.

(** A send that fails takes the chunk back. *)
Lemma co_inv_back k s n w now p c :
  co_inv a total k s -> k < 2 ^ 32 - 2 -> in_width 64 n -> checkoutWork (co_pool s) n w now = (p, Some c) ->
  co_inv a total (k + 1) (set_pool (returnChunk p (cw_chunk_id c)).1 s).
Proof.
  intros H Hk Hn E. destruct (ids_of k s H ltac:(lia)) as (Hnd & Hb & En & K0). destruct (checkout_reach _ _ _ _ _ _ _ H Hn E) as [d Hr].
  destruct (checkout_cases _ _ _ _ _ _ E) as (Ef & Ei & _). rewrite En, wrap_small in Ei by (unfold in_width; lia).
  apply co_inv_flight with k; [done|by apply (reach_op _ _ _ (OpReturn (cw_chunk_id c)) Hr)|].
  rewrite returnChunk_flight, Ef. apply erase_first_snoc; [|unfold has_id; apply Z.eqb_refl].
  apply Forall_forall. intros c' Hc'. unfold has_id. apply Z.eqb_neq. specialize (Hb c' Hc'). lia.
Qed.

(** The chunk of a worker leaves the flight and the worker is idle. *)
Lemma co_inv_remove k s w t id p :
  co_inv a total k s -> k <= 2 ^ 32 - 2 -> wt_current_chunk_id (tracker w s) = id -> holds_chunk id = true -> holds_chunk (wt_current_chunk_id t) = false ->
  (exists d, pool_reach a total 64 d k p) -> in_flight_ p = erase_first (has_id id) (in_flight_ (co_pool s)) ->
  co_inv a total k (set_tracker w t (set_pool p s)).
Proof.
  intros H Hk Ew Hid Ht Hr Ef. destruct (ids_of k s H ltac:(lia)) as (Hnd & _ & _ & _). destruct H as [_ I2 I3 I4 I5].
  destruct (I3 w ltac:(by rewrite Ew)) as (Hw & c & Hc & Ecw & Ec). rewrite Ew in Ec.
  assert (forall c', c' ∈ in_flight_ p <-> c' ∈ in_flight_ (co_pool s) /\ c' <> c) as Hin.
  { intros c'. rewrite Ef. split.
    - intros [H1 H2]%erase_elem; [|done]. split; [done|]. intros ->. done.
    - intros [H1 H2]. apply erase_keeps; [done|]. intros E. apply H2. apply (NoDup_ids_inj (in_flight_ (co_pool s))); [done..|congruence]. }
  constructor; change (co_pool (set_tracker _ _ _)) with p; change (co_node0_chunk (set_tracker _ _ _)) with (co_node0_chunk s); change (co_scheduler (set_tracker _ _ _)) with (co_scheduler s); try done.
  - apply Forall_forall. intros c' [Hc' Hne]%Hin. rewrite Forall_forall in I2. specialize (I2 c' Hc'). unfold owner in *. change (co_node0_chunk (set_tracker _ _ _)) with (co_node0_chunk s).
    destruct (cw_worker_id c' =? 0); [done|]. rewrite tracker_set. change (tracker (cw_worker_id c') (set_pool p s)) with (tracker (cw_worker_id c') s).
    destruct (decide (cw_worker_id c' = w)) as [E|]; [|done]. exfalso. apply Hne. apply (NoDup_ids_inj (in_flight_ (co_pool s))); [done..|]. destruct I2 as [I2 _]. rewrite E in I2. congruence.
  - intros w'. rewrite tracker_set. change (tracker w' (set_pool p s)) with (tracker w' s). destruct (decide (w' = w)) as [->|Hne]; [by rewrite Ht|]. intros Hh.
    destruct (I3 w' Hh) as (Hw' & c' & Hc' & E1 & E2). split; [done|]. exists c'. split; [|done]. apply Hin. split; [done|]. intros ->. congruence.
  - intros c' Hc'. destruct (I4 c' Hc') as [H1 H2]. split; [|done]. apply Hin. split; [done|]. intros ->. lia.
Qed.

(** The chunk of node 0 is done. *)
Lemma co_inv_node0 k s hw c p :
  co_inv a total k s -> k <= 2 ^ 32 - 2 -> co_node0_chunk s = Some c -> (exists d, pool_reach a total 64 d k p) ->
  in_flight_ p = erase_first (has_id (cw_chunk_id c)) (in_flight_ (co_pool s)) -> co_inv a total k (set_node0 hw None (set_pool p s)).
Proof.
  intros H Hk Ec Hr Ef. destruct (ids_of k s H ltac:(lia)) as (Hnd & _ & _ & _). destruct H as [_ I2 I3 I4 I5]. destruct (I4 c Ec) as [Hc Hw].
  assert (forall c', c' ∈ in_flight_ p <-> c' ∈ in_flight_ (co_pool s) /\ c' <> c) as Hin.
  { intros c'. rewrite Ef. split.
    - intros [H1 H2]%erase_elem; [|done]. split; [done|]. intros ->. done.
    - intros [H1 H2]. apply erase_keeps; [done|]. intros E. apply H2. by apply (NoDup_ids_inj (in_flight_ (co_pool s))). }
  constructor; change (co_pool (set_node0 _ _ _)) with p; change (co_node0_chunk (set_node0 _ _ _)) with (@None CheckedOutWork); change (co_scheduler (set_node0 _ _ _)) with (co_scheduler s); try done.
  - apply Forall_forall. intros c' [Hc' Hne]%Hin. rewrite Forall_forall in I2. specialize (I2 c' Hc'). unfold owner in *. change (tracker ?x (set_node0 _ _ _)) with (tracker x s).
    destruct (cw_worker_id c' =? 0); [|done]. rewrite Ec in I2. by injection I2 as ->.
  - intros w'. change (tracker w' (set_node0 _ _ _)) with (tracker w' s). intros Hh. destruct (I3 w' Hh) as (Hw' & c' & Hc' & E1 & E2). split; [done|]. exists c'. split; [|done].
    apply Hin. split; [done|]. intros ->. lia.
Qed.

(** Node 0 takes a chunk. *)
Lemma co_inv_node0_take k s n hw now p c :
  co_inv a total k s -> k < 2 ^ 32 - 2 -> co_node0_chunk s = None -> in_width 64 n -> checkoutWork (co_pool s) n 0 now = (p, Some c) ->
  co_inv a total (k + 1) (set_node0 hw (Some c) (set_pool p s)).
Proof.
  intros H Hk E0 Hn E. pose proof (checkout_reach _ _ _ _ _ _ _ H Hn E) as Hr. destruct H as [_ I2 I3 I4 I5]. destruct (checkout_cases _ _ _ _ _ _ E) as (Ef & Ei & Ew).
  assert (forall c', c' ∈ in_flight_ p <-> c' ∈ in_flight_ (co_pool s) \/ c' = c) as Hin by (intros c'; rewrite Ef, elem_of_app, list_elem_of_singleton; done).
  constructor; change (co_pool (set_node0 _ _ _)) with p; change (co_node0_chunk (set_node0 _ _ _)) with (Some c); change (co_scheduler (set_node0 _ _ _)) with (co_scheduler s); try done.
  - apply Forall_forall. intros c' [Hc'| ->]%Hin; unfold owner; change (tracker ?x (set_node0 _ _ _)) with (tracker x s); change (co_node0_chunk (set_node0 _ _ _)) with (Some c).
    + rewrite Forall_forall in I2. specialize (I2 c' Hc'). unfold owner in I2. destruct (cw_worker_id c' =? 0); [by rewrite E0 in I2|done].
    + by rewrite Ew.
  - intros w' Hh. destruct (I3 w' Hh) as (Hw' & c' & Hc' & E1). split; [done|]. exists c'. split; [apply Hin; by left|done].
  - intros c' [= <-]. split; [apply Hin; by right|done].
Qed.

(** All chunks of a worker are taken back. *)
Lemma co_inv_reclaim k s w t :
  co_inv a total k s -> 1 <= w -> holds_chunk (wt_current_chunk_id t) = false -> co_inv a total k (set_tracker w t (set_pool (reclaimWork (co_pool s) w).1 s)).
Proof.
  intros [(d & I1) I2 I3 I4 I5] Hw Ht.
  assert (in_flight_ (reclaimWork (co_pool s) w).1 = List.filter (fun c => negb (cw_worker_id c =? w)) (in_flight_ (co_pool s))) as Ef.
  { unfold reclaimWork. destruct (reclaim_loop _ _ _ _) as [[keep ret] m] eqn:E. by apply reclaim_loop_spec in E as [-> _]. }
  assert (forall c', c' ∈ in_flight_ (reclaimWork (co_pool s) w).1 <-> c' ∈ in_flight_ (co_pool s) /\ cw_worker_id c' <> w) as Hin.
  { intros c'. rewrite Ef, !list_elem_of_In, filter_In. rewrite negb_true_iff, Z.eqb_neq. done. }
  constructor; change (co_pool (set_tracker _ _ _)) with (reclaimWork (co_pool s) w).1; change (co_node0_chunk (set_tracker _ _ _)) with (co_node0_chunk s); change (co_scheduler (set_tracker _ _ _)) with (co_scheduler s); try done.
  - by apply (reach_op _ _ _ (OpReclaim w) I1).
  - apply Forall_forall. intros c' [Hc' Hne]%Hin. rewrite Forall_forall in I2. specialize (I2 c' Hc'). unfold owner in *. change (co_node0_chunk (set_tracker _ _ _)) with (co_node0_chunk s).
    rewrite tracker_set. rewrite decide_False by done. done.
  - intros w'. rewrite tracker_set. destruct (decide (w' = w)) as [->|Hne]; [by rewrite Ht|]. intros Hh. destruct (I3 w' Hh) as (Hw' & c' & Hc' & E1 & E2).
    split; [done|]. exists c'. split; [|done]. apply Hin. split; [done|congruence].
  - intros c' Hc'. destruct (I4 c' Hc') as [H1 H2]. split; [|done]. apply Hin. split; [done|lia].
Qed.

(** ** Lemmas: handlers *)

Lemma checkout_none p n w now p' : checkoutWork p n w now = (p', None) -> p' = p /\ exhausted p = true.
Proof.
  unfold checkoutWork, exhausted. destruct (vec_pop_back (returned_ p)) as [[rest u]|] eqn:E; [by destruct (n <? wu_count u)|].
  destruct (Z.leb_spec (end_ p) (next_ p)); [|done]. intros [= <-]. split; [done|]. destruct (returned_ p) as [|u l] eqn:Er; [done|].
  unfold vec_pop_back in E. exfalso. by destruct (rev (u :: l)) as [|x m] eqn:Erev; [apply (f_equal (@length _)) in Erev; rewrite length_rev in Erev|].
Qed.

Lemma nextChunkSize_width cap order w sc : in_width 64 (H_ sc) -> in_width 64 (total_a_ sc) -> in_width 64 (nextChunkSize cap order w sc).
Proof.
  intros HH Ha. destruct (nextChunkSize_bounds cap order w sc) as (H1 & H2 & _ & _). pose proof (chunk_limits sc) as (Hm & _ & _). unfold kMinChunkFallback in Hm.
  assert (maxChunk sc < 2 ^ 64) as Hx.
  { unfold maxChunk, minChunk, kMinChunkFallback, in_width in *. pose proof (wrap_range 64 (4 * Q_ sc) ltac:(lia)) as Hq. unfold in_width in Hq.
    destruct (Z.ltb_spec 0 (wrap 64 (2 * wrap 64 (num_workers_ sc + 1)))) as [Hd|]; [|lia].
    pose proof (Z.div_le_upper_bound (total_a_ sc) _ (total_a_ sc) Hd ltac:(nia)). lia. }
  split; [|lia]. pose proof (chunk_limits sc) as (_ & Hl & Hb). unfold nextChunkSize.
  destruct (throughput_ sc !! w) as [t|]; [|apply applyDebugWindowCap_nonneg; lia]. destruct (chunks_completed t <? kCalibrationChunks); [apply applyDebugWindowCap_nonneg; lia|].
  destruct (total_aps sc order) as [sum n]. cbv zeta. apply applyDebugWindowCap_nonneg.
  match goal with |- 0 <= clamp ?v ?lo ?hi => pose proof (clamp_range v lo hi Hl) end. lia.
Qed.

Lemma send_assign_same e w droppable s : exists occ, (send_assign e w droppable s).2 = set_dispatch occ (co_failed_sends s) (co_redispatched s) s.
Proof. unfold send_assign. destruct droppable; [by eexists|]. exists (co_occurrences s). by destruct s. Qed.

Lemma assignChunkTo_inv k s e w droppable redispatch :
  co_inv a total k s -> k < 2 ^ 32 - 2 -> 1 <= w ->
  exists k', k <= k' <= k + 1 /\ co_inv a total k' (assignChunkTo e w droppable redispatch s).2.
Proof.
  intros H Hk Hw. unfold assignChunkTo. destruct (Z.eqb_spec (wt_current_chunk_id (tracker w s)) kIdle) as [Hi|Hi]; cbn [negb].
  2: { exists k. split; [lia|]. by apply co_inv_touch. }
  cbv zeta. set (s1 := set_tracker w (tracker w s) s). assert (co_inv a total k s1) as H1 by by apply co_inv_touch.
  assert (wt_current_chunk_id (tracker w s1) = kIdle) as Hi1 by (unfold s1; by rewrite tracker_set, decide_True).
  destruct (_ || _); [exists k; split; [lia|done]|].
  set (n := nextChunkSize _ _ _ _). assert (in_width 64 n) as Hn by (destruct (ci_scheduler _ _ _ _ H1); by apply nextChunkSize_width).
  destruct (checkoutWork (co_pool s1) n w (e_checkout e)) as [p [c|]] eqn:E.
  - destruct (send_assign e w droppable (set_pool p s1)) as [sent s2] eqn:Es. pose proof (send_assign_same e w droppable (set_pool p s1)) as (occ & Eo). rewrite Es in Eo. cbn [snd] in Eo. subst s2.
    exists (k + 1). split; [lia|]. destruct sent; cbn [negb snd].
    + pose proof (co_inv_assign k s1 n w _ p c H1 Hk Hw Hi1 Hn E) as Ha. destruct redispatch; apply (co_inv_same _ _ _ _ _ Ha); done.
    + pose proof (co_inv_back k s1 n w _ p c H1 Hk Hn E) as Ha. apply (co_inv_same _ _ _ _ _ Ha); done.
  - exists k. split; [lia|]. cbn [snd]. pose proof E as E'. unfold checkoutWork in E'. destruct (vec_pop_back _) as [[rest u]|]; [by destruct (n <? wu_count u)|].
    destruct (end_ _ <=? next_ _); [|done]. injection E' as <-. apply (co_inv_same _ _ _ _ _ H1); done.
Qed.

Lemma checkStragglers_same e s : exists last recalled, checkStragglers e s = set_recall last recalled s.
Proof.
  assert (s = set_recall (co_last_recall s) (co_recalled s) s) as E0 by by destruct s.
  unfold checkStragglers. destruct (d_leb _ _); [by eexists _, _|].
  generalize (fastest_rels_per_sec s) as fastest. intros fastest.
  assert (forall l s', (exists last recalled, s' = set_recall last recalled s) -> exists last recalled,
    foldl (fun s cow => if straggles (e_straggler e) fastest (co_last_recall s) (co_scheduler s) cow
      then set_recall (<[cw_worker_id cow := e_straggler e]> (co_last_recall s)) (co_recalled s ++ [(cw_worker_id cow, cw_chunk_id cow)]) s else s) s' l = set_recall last recalled s) as Hl.
  { induction l as [|c l IH]; intros s' (la & re & ->); [by eexists _, _|]. cbn [foldl]. destruct (straggles _ _ _ _ _); apply IH; by eexists _, _. }
  apply Hl. by eexists _, _.
Qed.

Lemma consumed_width m : digits_ok 8 (payload m) -> sizeof ChunkCompletePayload <= zlen (payload m) ->
  in_width 64 (a_values_consumed (copy_from ChunkCompletePayload (payload m))).
Proof.
  intros Hd Hl. unfold copy_from, copied. cbn [layout_of ChunkCompletePayload_packed]. change (sum_list [4; 4; 8; 8; 8]%nat) with 32%nat.
  rewrite take_app_le by (change (sizeof ChunkCompletePayload) with 32 in Hl; unfold zlen in Hl; lia).
  set (b := take 32 (payload m)). assert (digits_ok 8 b) as Hb by (unfold digits_ok in *; by apply Forall_take).
  cbn [unpack]. unfold of_fields, ChunkCompletePayload_packed. cbn [nth a_values_consumed]. unfold of_le. set (x := take 8 _). assert (digits_ok 8 x) as Hx by (unfold x, digits_ok in *; by repeat (apply Forall_take || apply Forall_drop)).
  pose proof (of_digits_bound 8 ltac:(lia) x Hx) as Hbd. assert (length x <= 8)%nat as L by (unfold x; rewrite length_take; lia).
  unfold in_width. split; [lia|]. eapply Z.lt_le_trans; [apply Hbd|]. apply Z.pow_le_mono_r; lia.
Qed.

Lemma set_initial_hw_if (b : bool) hw s : exists hw', (if b then set_initial_hw hw s else s) = set_initial_hw hw' s.
Proof. destruct b; [by eexists|]. exists (co_initial_hw s). by destruct s. Qed.

Lemma on_chunk_complete_inv k s e m :
  co_inv a total k s -> k < 2 ^ 32 - 2 -> 1 <= sender_id m -> digits_ok 8 (payload m) ->
  (sizeof ChunkCompletePayload <= zlen (payload m) -> holds_chunk (wt_current_chunk_id (tracker (sender_id m) s)) = true ->
   cc_chunk_id (copy_from ChunkCompletePayload (payload m)) = wt_current_chunk_id (tracker (sender_id m) s)) ->
  exists k', k <= k' <= k + 1 /\ co_inv a total k' (on_chunk_complete e m s).
Proof.
  intros H Hk Hw Hd Ht. unfold on_chunk_complete. destruct (Z.leb_spec (sizeof ChunkCompletePayload) (zlen (payload m))) as [L|L]; [|exists k; split; [lia|done]].
  specialize (Ht L). pose proof (consumed_width m Hd L) as Hc. set (cc := copy_from ChunkCompletePayload (payload m)) in *. set (w := sender_id m) in *. cbv zeta.
  set (s1 := set_scheduler _ s). assert (co_inv a total k s1) as H1 by (apply (co_inv_same _ _ _ _ _ H); done).
  change (tracker w s1) with (tracker w s). set (wt := tracker w s) in *. set (t := mkTracker _ kIdle _ _).
  set (s2 := if _ && _ then _ else s1). set (s3 := if _ && _ then _ else s2).
  assert (co_inv a total k (set_tracker w t s3)) as H3.
  { assert (exists hw, s3 = set_initial_hw hw s2) as [hw ->].
    { apply set_initial_hw_if. }
    assert (co_inv a total k (set_tracker w t s2)) as H2.
    { unfold s2. destruct (holds_chunk (wt_current_chunk_id wt)) eqn:Eh.
      - rewrite (Ht eq_refl), Z.eqb_refl. cbn [andb]. destruct (ci_pool _ _ _ _ H) as [d Hp].
        apply co_inv_remove with (wt_current_chunk_id wt); [done|lia|done|done|done| |].
        + by apply (reach_op _ _ _ (OpReclaimPartial (wt_current_chunk_id wt) (a_values_consumed cc)) Hp).
        + apply reclaimPartial_flight.
      - rewrite andb_false_r. by apply co_inv_idle. }
    apply (co_inv_same _ _ _ _ _ H2); done. }
  destruct (assignChunkTo_inv k _ e w true false H3 Hk Hw) as (k' & Hk' & H4). exists k'. split; [done|].
  destruct (checkStragglers_same e (assignChunkTo e w true false (set_tracker w t s3)).2) as (la & re & ->). apply (co_inv_same _ _ _ _ _ H4); done.
Qed.

Lemma on_chunk_request_inv k s now e m :
  co_inv a total k s -> k < 2 ^ 32 - 2 -> 1 <= sender_id m -> exists k', k <= k' <= k + 1 /\ co_inv a total k' (on_chunk_request now e m s).
Proof.
  intros H Hk Hw. unfold on_chunk_request. cbv zeta. apply assignChunkTo_inv; [|done|done].
  destruct (holds_chunk _) eqn:Eh; [|by apply co_inv_idle]. destruct (ci_pool _ _ _ _ H) as [d Hp].
  eapply co_inv_remove; [done|lia|reflexivity|done|done|by apply (reach_op _ _ _ (OpReturn _) Hp)|apply returnChunk_flight].
Qed.

Lemma check_heartbeat_inv k s now w : co_inv a total k s -> 1 <= w -> co_inv a total k (check_heartbeat now s w).
Proof.
  intros H Hw. unfold check_heartbeat. cbv zeta. destruct (negb _); [done|]. destruct (_ <? _); [|done]. set (t := mkTracker _ kIdle _ false).
  assert (co_inv a total k (set_tracker w t (if holds_chunk (wt_current_chunk_id (tracker w s)) then set_pool (reclaimWork (co_pool s) w).1 s else s))) as H1.
  { destruct (holds_chunk _) eqn:E; [by apply co_inv_reclaim|by apply co_inv_idle]. }
  apply (co_inv_same _ _ _ _ _ H1); done.
Qed.

Lemma idle_sweep_inv es workers : forall k s, co_inv a total k s -> k + zlen workers <= 2 ^ 32 - 2 -> Forall (fun w => 1 <= w) workers ->
  exists k', k <= k' <= k + zlen workers /\ co_inv a total k' (idle_sweep es workers s).
Proof.
  induction workers as [|w workers IH]; intros k s H Hk Hw; cbn [idle_sweep].
  { exists k. split; [unfold zlen; cbn; lia|done]. }
  apply Forall_cons in Hw as [Hw Hws]. assert (zlen (w :: workers) = 1 + zlen workers) as El by (unfold zlen; cbn; lia). rewrite El in *. pose proof (zlen_nonneg workers).
  destruct (_ || _); [destruct (IH k s H) as (k' & ? & ?); [lia|done|exists k'; split; [lia|done]]|].
  destruct (exhausted _); [exists k; split; [lia|done]|].
  destruct (assignChunkTo_inv k s (es w) w false true H) as (k1 & ? & H1); [lia|done|].
  destruct (IH k1 _ H1) as (k2 & ? & Hi2); [lia|done|]. exists k2. split; [lia|done].
Qed.

Lemma apply_event_inv k s ev :
  co_inv a total k s -> k + event_cost ev <= 2 ^ 32 - 2 -> event_ok s ev -> exists k', k <= k' <= k + event_cost ev /\ co_inv a total k' (apply_event ev s).
Proof.
  intros H Hk Hok. destruct ev as [po|now e m|now w|es workers|consumed el|e b c|consumed el]; cbn [event_cost apply_event event_ok] in *.
  - exists k. split; [lia|]. by apply (co_inv_same _ _ _ _ _ H).
  - destruct Hok as (Hw & Hd & Ht). unfold on_message. unfold on_time in Ht.
    assert (forall s', co_inv a total k s' -> exists k', k <= k' <= k + 1 /\ co_inv a total k' (s', @nil RecvMessage).1) as Hsame by (intros s' Hs'; exists k; split; [lia|done]).
    destruct (valid m); cbn [negb]; [|by apply Hsame]. destruct (is_type (type m) INCREMENTAL_BATCH); [by apply Hsame|].
    destruct (is_type (type m) CHUNK_COMPLETE); [apply on_chunk_complete_inv; [done|lia|done|done|by apply Ht]|].
    destruct (is_type (type m) CHUNK_REQUEST); [apply on_chunk_request_inv; [done|lia|done]|].
    destruct (is_type (type m) HEARTBEAT).
    { apply Hsame. unfold on_heartbeat. destruct (_ <=? _); [|done]. by apply co_inv_touch. }
    destruct (is_type (type m) FLUSH_ACK); apply Hsame; [|done]. by apply (co_inv_same _ _ _ _ _ H).
  - exists k. split; [lia|]. by apply check_heartbeat_inv.
  - by apply idle_sweep_inv.
  - exists k. split; [lia|]. by apply (co_inv_same _ _ _ _ _ H).
  - unfold node0_next. destruct (_ || _); [exists k; split; [lia|done]|]. cbv zeta. set (n := nextChunkSize _ _ _ _).
    assert (in_width 64 n) as Hn by (destruct (ci_scheduler _ _ _ _ H); by apply nextChunkSize_width).
    destruct (checkoutWork (co_pool s) n 0 (e_checkout e)) as [p [ch|]] eqn:E; cbn [fst].
    + exists (k + 1). split; [lia|]. by apply co_inv_node0_take with n (e_checkout e); [|lia|..].
    + exists k. split; [lia|]. pose proof E as E'. unfold checkoutWork in E'. destruct (vec_pop_back _) as [[rest u]|]; [by destruct (n <? wu_count u)|].
      destruct (end_ _ <=? next_ _); [|done]. injection E' as <-. apply (co_inv_same _ _ _ _ _ H); done.
  - exists k. split; [lia|]. unfold node0_done. destruct (co_node0_chunk s) as [ch|] eqn:E; [|done]. cbv zeta.
    set (s1 := set_scheduler _ s). assert (co_inv a total k s1) as H1 by (apply (co_inv_same _ _ _ _ _ H); done). destruct (ci_pool _ _ _ _ H) as [d Hp].
    apply co_inv_node0 with ch; [done|lia|done| |apply reclaimPartial_flight].
    by apply (reach_op _ _ _ (OpReclaimPartial (cw_chunk_id ch) consumed) Hp).
Qed.

Lemma co_inv_initial s : co_initial a total s -> co_inv a total 0 s.
Proof.
  intros [E1 E2 E3 E4]. constructor; rewrite ?E1, ?E3; try done.
  - exists []. constructor.
  - intros w Hw. exfalso. rewrite E2 in Hw. discriminate Hw.
Qed.

Lemma co_reach_inv s0 n s : co_initial a total s0 -> co_reach s0 n s -> n <= 2 ^ 32 - 2 -> 0 <= n /\ exists k, 0 <= k <= n /\ co_inv a total k s.
Proof.
  intros H0 H. assert (forall ev, 0 <= event_cost ev) as Hc by (intros []; cbn; try lia; apply zlen_nonneg).
  induction H as [|n s ev H IH Hok]; intros Hn; [split; [lia|]; exists 0; split; [lia|by apply co_inv_initial]|].
  pose proof (Hc ev). destruct IH as (Hn0 & k & Hk & Hi); [lia|]. split; [lia|].
  destruct (apply_event_inv k s ev Hi ltac:(lia) Hok) as (k' & Hk' & Hi'). exists k'. split; [lia|done].
Qed.

(** ** Lemmas: all runs *)

Lemma base_same k s s' : co_base a total k s -> co_pool s' = co_pool s -> H_ (co_scheduler s') = H_ (co_scheduler s) ->
  total_a_ (co_scheduler s') = total_a_ (co_scheduler s) -> co_base a total k s'.
Proof. intros [B1 B2] Ep Eh Ea. constructor; by rewrite ?Ep, ?Eh, ?Ea. Qed.

(** An operation of the pool that hands out nothing. *)
Lemma base_op k s s' op : co_base a total k s -> op_ok op -> issued_by op (co_pool s) = 0 -> co_pool s' = run_op op (co_pool s) ->
  H_ (co_scheduler s') = H_ (co_scheduler s) -> total_a_ (co_scheduler s') = total_a_ (co_scheduler s) -> co_base a total k s'.
Proof.
  intros [[d Hp] B2] Ho Hi Ep Eh Ea. constructor; [|by rewrite Eh, Ea]. rewrite Ep. by apply (reach_op _ _ _ op Hp).
Qed.

Lemma base_checkout k s n w now p c : co_base a total k s -> in_width 64 n -> checkoutWork (co_pool s) n w now = (p, Some c) ->
  co_base a total (k + 1) (set_pool p s).
Proof.
  intros [[d Hp] B2] Hn E. constructor; [|done]. exists d. pose proof (reach_step _ _ _ _ _ _ (OpCheckout n w now) Hp Hn) as H. cbn in H. by rewrite E, app_nil_r in H.
Qed.

Lemma base_chunk_size k s cap order w : co_base a total k s -> in_width 64 (nextChunkSize cap order w (co_scheduler s)).
Proof. intros H. destruct (cb_scheduler _ _ _ _ H). by apply nextChunkSize_width. Qed.

Lemma assignChunkTo_base k s e w droppable redispatch :
  co_base a total k s -> exists k', k <= k' <= k + 1 /\ co_base a total k' (assignChunkTo e w droppable redispatch s).2.
Proof.
  intros H. unfold assignChunkTo. destruct (negb _); [exists k; split; [lia|by apply (base_same k s)]|]. cbv zeta. set (s1 := set_tracker w (tracker w s) s).
  assert (co_base a total k s1) as H1 by by apply (base_same k s). destruct (_ || _); [exists k; split; [lia|done]|].
  pose proof (base_chunk_size k s1 (e_cap e) (e_order e) w H1) as Hn. set (n := nextChunkSize _ _ _ _) in *.
  destruct (checkoutWork (co_pool s1) n w (e_checkout e)) as [p [c|]] eqn:E.
  - destruct (send_assign e w droppable (set_pool p s1)) as [sent s2] eqn:Es. pose proof (send_assign_same e w droppable (set_pool p s1)) as (occ & Eo). rewrite Es in Eo. cbn [snd] in Eo. subst s2.
    exists (k + 1). split; [lia|]. pose proof (base_checkout k s1 n w _ p c H1 Hn E) as H2. destruct sent; cbn [negb snd].
    + destruct redispatch; by apply (base_same _ _ _ H2).
    + by apply (base_op _ _ _ (OpReturn (cw_chunk_id c)) H2).
  - exists k. split; [lia|]. apply checkout_none in E as [-> _]. by apply (base_same k s1).
Qed.

Lemma on_chunk_complete_base k s e m :
  co_base a total k s -> digits_ok 8 (payload m) -> exists k', k <= k' <= k + 1 /\ co_base a total k' (on_chunk_complete e m s).
Proof.
  intros H Hd. unfold on_chunk_complete. destruct (Z.leb_spec (sizeof ChunkCompletePayload) (zlen (payload m))) as [L|L]; [|exists k; split; [lia|done]].
  pose proof (consumed_width m Hd L) as Hc. set (cc := copy_from _ _) in *. set (w := sender_id m). cbv zeta. set (s1 := set_scheduler _ s). set (t := mkTracker _ kIdle _ _).
  set (s2 := if _ && _ then _ else s1). set (s3 := if _ && _ then _ else s2).
  assert (co_base a total k s2) as H2.
  { unfold s2. destruct (_ && _); [by apply (base_op k s _ (OpReclaimPartial (cc_chunk_id cc) (a_values_consumed cc)) H)|by apply (base_same k s)]. }
  assert (exists hw, s3 = set_initial_hw hw s2) as [hw E3] by apply set_initial_hw_if. rewrite E3.
  assert (co_base a total k (set_tracker w t (set_initial_hw hw s2))) as H3 by by apply (base_same k s2).
  destruct (assignChunkTo_base k _ e w true false H3) as (k' & Hk' & H4). exists k'. split; [done|].
  destruct (checkStragglers_same e (assignChunkTo e w true false (set_tracker w t (set_initial_hw hw s2))).2) as (la & re & ->). by apply (base_same _ _ _ H4).
Qed.

Lemma on_chunk_request_base k s now e m : co_base a total k s -> exists k', k <= k' <= k + 1 /\ co_base a total k' (on_chunk_request now e m s).
Proof.
  intros H. unfold on_chunk_request. cbv zeta. apply assignChunkTo_base. destruct (holds_chunk _); [|by apply (base_same k s)].
  by apply (base_op k s _ (OpReturn (wt_current_chunk_id (tracker (sender_id m) s))) H).
Qed.

Lemma check_heartbeat_base k s now w : co_base a total k s -> co_base a total k (check_heartbeat now s w).
Proof.
  intros H. unfold check_heartbeat. cbv zeta. destruct (negb _); [done|]. destruct (_ <? _); [|done].
  destruct (holds_chunk _); [by apply (base_op k s _ (OpReclaim w) H)|by apply (base_same k s)].
Qed.

Lemma idle_sweep_base es workers : forall k s, co_base a total k s -> exists k', k <= k' <= k + zlen workers /\ co_base a total k' (idle_sweep es workers s).
Proof.
  induction workers as [|w workers IH]; intros k s H; cbn [idle_sweep].
  { exists k. split; [unfold zlen; cbn; lia|done]. }
  assert (zlen (w :: workers) = 1 + zlen workers) as -> by (unfold zlen; cbn; lia). pose proof (zlen_nonneg workers).
  destruct (_ || _); [destruct (IH k s H) as (k' & ? & ?); exists k'; split; [lia|done]|].
  destruct (exhausted _); [exists k; split; [lia|done]|].
  destruct (assignChunkTo_base k s (es w) w false true H) as (k1 & ? & H1).
  destruct (IH k1 _ H1) as (k2 & ? & Hi2). exists k2. split; [lia|done].
Qed.

Lemma apply_event_base k s ev : co_base a total k s -> event_wf s ev -> exists k', k <= k' <= k + event_cost ev /\ co_base a total k' (apply_event ev s).
Proof.
  intros H Hok. destruct ev as [po|now e m|now w|es workers|consumed el|e b c|consumed el]; cbn [event_cost apply_event event_wf] in *.
  - exists k. split; [lia|]. by apply (base_same k s).
  - destruct Hok as (Hw & Hd). unfold on_message.
    assert (forall s', co_base a total k s' -> exists k', k <= k' <= k + 1 /\ co_base a total k' (s', @nil RecvMessage).1) as Hsame by (intros s' Hs'; exists k; split; [lia|done]).
    destruct (valid m); cbn [negb]; [|by apply Hsame]. destruct (is_type (type m) INCREMENTAL_BATCH); [by apply Hsame|].
    destruct (is_type (type m) CHUNK_COMPLETE); [by apply on_chunk_complete_base|].
    destruct (is_type (type m) CHUNK_REQUEST); [by apply on_chunk_request_base|].
    destruct (is_type (type m) HEARTBEAT).
    { apply Hsame. unfold on_heartbeat. destruct (_ <=? _); [|done]. by apply (base_same k s). }
    destruct (is_type (type m) FLUSH_ACK); apply Hsame; [|done]. by apply (base_same k s).
  - exists k. split; [lia|]. by apply check_heartbeat_base.
  - by apply idle_sweep_base.
  - exists k. split; [lia|]. by apply (base_same k s).
  - unfold node0_next. destruct (_ || _); [exists k; split; [lia|done]|]. cbv zeta. pose proof (base_chunk_size k s (e_cap e) (e_order e) 0 H) as Hn. set (n := nextChunkSize _ _ _ _) in *.
    destruct (checkoutWork (co_pool s) n 0 (e_checkout e)) as [p [ch|]] eqn:E; cbn [fst].
    + exists (k + 1). split; [lia|]. pose proof (base_checkout k s n 0 _ p ch H Hn E) as H2. by apply (base_same _ _ _ H2).
    + exists k. split; [lia|]. apply checkout_none in E as [-> _]. by apply (base_same k s).
  - exists k. split; [lia|]. unfold node0_done. destruct (co_node0_chunk s) as [ch|] eqn:E; [|done]. cbv zeta.
    by apply (base_op k s _ (OpReclaimPartial (cw_chunk_id ch) consumed) H).
Qed.

Lemma co_reach_base s0 n s : co_initial a total s0 -> co_reach_any s0 n s -> 0 <= n /\ exists k, 0 <= k <= n /\ co_base a total k s.
Proof.
  intros [E1 _ _ E4] H. assert (forall ev, 0 <= event_cost ev) as Hc by (intros []; cbn; try lia; apply zlen_nonneg).
  induction H as [|n s ev H IH Hok].
  { split; [lia|]. exists 0. split; [lia|]. constructor; [|done]. rewrite E1. exists []. constructor. }
  pose proof (Hc ev). destruct IH as (Hn0 & k & Hk & Hi). split; [lia|].
  destruct (apply_event_base k s ev Hi Hok) as (k' & Hk' & Hi'). exists k'. split; [lia|done].
Qed.
End pool.

(** ** Lemmas: a round of the loop as steps *)

Lemma run_events_app e1 e2 s : run_events (e1 ++ e2) s = run_events e2 (run_events e1 s).
Proof. apply foldl_app. Qed.

Lemma on_message_state now e m s d : (on_message now e m (s, d)).1 = apply_event (EMessage now e m) s.
Proof. cbn [apply_event]. unfold on_message. repeat (destruct (_ : bool); try done). Qed.

(** A round is a sequence of steps of the network thread. *)
Lemma network_round_steps r s c last s' c' last' :
  network_round r (s, c, last) = Some (s', c', last') ->
  exists po po',
    let s1 := run_events ([EPool po] ++ map (fun em => EMessage (ro_now r) em.1 em.2) (ro_messages r) ++ [EPool po']) s in
    let s2 := foldl (check_heartbeat (ro_now r)) s1 (ro_workers r) in
    s' = run_events (if 5000000000 <? ro_now r - last then map (EHeartbeat (ro_now r)) (ro_workers r) ++
           (if negb (targetReached (po_accumulator (co_pooled s2))) && negb (exhausted (co_pool s2)) then [ESweep (ro_sweep r) (ro_workers r)] else [])
         else []) s1.
Proof.
  unfold network_round. destruct (drain_channel _ _ _) as [[c1 po]|]; cbn [mbind option_bind]; [|done].
  assert (forall l s d, (foldl (fun st '(e, m) => on_message (ro_now r) e m st) (s, d) l).1 = run_events (map (fun em => EMessage (ro_now r) em.1 em.2) l) s) as Hm.
  { induction l as [|[e m] l IH]; intros s2 d; [done|]. cbn [foldl map]. rewrite (surjective_pairing (on_message _ _ _ _)), IH, on_message_state. done. }
  specialize (Hm (ro_messages r) (set_pooled po s) []). destruct (foldl _ (set_pooled po s, []) _) as [s2 deferred]. cbn [fst] in Hm.
  destruct (replay deferred (co_pooled s2)) as [po'|]; cbn [mbind option_bind]; [|done]. intros E. exists po, po'.
  assert (forall l s, run_events (map (EHeartbeat (ro_now r)) l) s = foldl (check_heartbeat (ro_now r)) s l) as Hh.
  { induction l as [|w l IH]; intros s3; [done|]. cbn [map foldl]. by rewrite <- IH. }
  cbv zeta.
  assert (run_events ([EPool po] ++ map (fun em => EMessage (ro_now r) em.1 em.2) (ro_messages r) ++ [EPool po']) s = set_pooled po' s2) as ->.
  { rewrite !run_events_app. cbn [run_events foldl apply_event]. unfold run_events in *. by rewrite <- Hm. }
  destruct (_ <? _); injection E as <- _ _; [|done]. rewrite run_events_app, Hh. unfold check_timeouts. by destruct (negb (targetReached _) && _).
Qed.

(** ** Lemmas: the sweep *)

Lemma tracker_touch w s w' : tracker w' (set_tracker w (tracker w s) s) = tracker w' s.
Proof. rewrite tracker_set. by destruct (decide (w' = w)) as [->|]. Qed.

(** What an assignment leaves of the trackers, and its result when the send succeeds. *)
Lemma assignChunkTo_trackers e w droppable redispatch s w' :
  wt_alive (tracker w' (assignChunkTo e w droppable redispatch s).2) = wt_alive (tracker w' s) /\
  (w' <> w -> tracker w' (assignChunkTo e w droppable redispatch s).2 = tracker w' s).
Proof.
  unfold assignChunkTo. destruct (negb _); [cbn [snd]; by rewrite tracker_touch|]. cbv zeta. set (s1 := set_tracker w (tracker w s) s).
  assert (forall w', tracker w' s1 = tracker w' s) as E1 by apply tracker_touch. destruct (_ || _); [cbn [snd]; by rewrite E1|].
  destruct (checkoutWork _ _ _ _) as [p [c|]]; [|cbn [snd]; by rewrite <- (E1 w')].
  destruct (send_assign e w droppable (set_pool p s1)) as [sent s2] eqn:Es. pose proof (send_assign_same e w droppable (set_pool p s1)) as (occ & Eo). rewrite Es in Eo. cbn [snd] in Eo. subst s2.
  destruct sent; cbn [negb snd]; [|by rewrite <- (E1 w')].
  set (s3 := set_current _ _ _). assert (forall b : bool, tracker w' (if b then set_dispatch (co_occurrences s3) (co_failed_sends s3) (wrap 64 (co_redispatched s3 + 1)) s3 else s3) = tracker w' s3) as -> by by intros [].
  unfold s3, set_current. rewrite tracker_set. change (tracker w' (set_dispatch _ _ _ _)) with (tracker w' s1). change (tracker w (set_dispatch _ _ _ _)) with (tracker w s1). rewrite !E1.
  destruct (decide (w' = w)) as [->|]; [split; [done|]; intros; done|done].
Qed.

Lemma assignChunkTo_pooled e w droppable redispatch s : co_pooled (assignChunkTo e w droppable redispatch s).2 = co_pooled s.
Proof.
  unfold assignChunkTo. destruct (negb _); [done|]. cbv zeta. destruct (_ || _); [done|]. destruct (checkoutWork _ _ _ _) as [p [c|]]; [|done].
  destruct (send_assign e w droppable _) as [sent s2] eqn:Es. pose proof (send_assign_same e w droppable (set_pool p (set_tracker w (tracker w s) s))) as (occ & Eo). rewrite Es in Eo. cbn [snd] in Eo. subst s2.
  destruct sent; cbn [negb snd]; [|done]. by destruct redispatch.
Qed.

(** An assignment whose send succeeds: the chunks in flight stay, and an idle worker gets one unless the pool has nothing left. *)
Lemma assign_flight a total k e w redispatch s :
  co_base a total k s -> 0 <= k < 2 ^ 32 - 2 -> e_send e w = true -> targetReached (po_accumulator (co_pooled s)) = false ->
  let s' := (assignChunkTo e w false redispatch s).2 in
  (forall c, c ∈ in_flight_ (co_pool s) -> c ∈ in_flight_ (co_pool s')) /\
  (wt_current_chunk_id (tracker w s) = kIdle -> exhausted (co_pool s) = false ->
   wt_current_chunk_id (tracker w s') <> kIdle /\
   exists c, c ∈ in_flight_ (co_pool s') /\ cw_worker_id c = w /\ cw_chunk_id c = wt_current_chunk_id (tracker w s')).
Proof.
  intros [[d Hp] _] Hk He Ht. destruct (pool_ids_inv _ _ _ _ _ _ Hp ltac:(lia)) as (K0 & En & _). unfold assignChunkTo.
  destruct (Z.eqb_spec (wt_current_chunk_id (tracker w s)) kIdle) as [Hi|Hi]; cbn [negb]; cbv zeta; [|by split].
  change (co_pooled (set_tracker _ _ _)) with (co_pooled s). change (co_pool (set_tracker _ _ _)) with (co_pool s). rewrite Ht. cbn [orb].
  destruct (exhausted (co_pool s)) eqn:Hx; [by split|].
  destruct (checkoutWork _ _ _ _) as [p [c|]] eqn:E; [|apply checkout_none in E as [_ E]; by rewrite E in Hx].
  unfold send_assign. rewrite He. cbn [negb snd]. set (s3 := set_current _ _ _). destruct (checkout_cases _ _ _ _ _ _ E) as (Ef & Ei & Ew).
  assert (forall b : bool, let s4 := if b then set_dispatch (co_occurrences s3) (co_failed_sends s3) (wrap 64 (co_redispatched s3 + 1)) s3 else s3 in
    in_flight_ (co_pool s4) = in_flight_ (co_pool s) ++ [c] /\ wt_current_chunk_id (tracker w s4) = cw_chunk_id c) as Hs.
  { intros b. cbv zeta. rewrite <- Ef. destruct b; (split; [done|]); unfold s3, set_current.
    - change (tracker w (set_dispatch ?x ?y ?z ?t)) with (tracker w t). by rewrite tracker_set, decide_True.
    - by rewrite tracker_set, decide_True. }
  destruct (Hs redispatch) as [Hs1 Hs2]. cbv zeta in Hs1, Hs2. rewrite Hs1, Hs2. split; [intros c' Hc'; apply elem_of_app; by left|]. intros _ _. split.
  - rewrite Ei, En, wrap_small by (unfold in_width; lia). unfold kIdle. lia.
  - exists c. split; [apply elem_of_app; right; by apply list_elem_of_singleton|done].
Qed.

Lemma assign_keeps e w droppable redispatch s w' :
  wt_current_chunk_id (tracker w' s) <> kIdle -> wt_current_chunk_id (tracker w' (assignChunkTo e w droppable redispatch s).2) = wt_current_chunk_id (tracker w' s).
Proof.
  intros Hn. destruct (decide (w' = w)) as [->|Hne]; [|by rewrite (proj2 (assignChunkTo_trackers _ _ _ _ _ w') Hne)].
  unfold assignChunkTo. rewrite (proj2 (Z.eqb_neq _ _) Hn). cbn [negb snd]. by rewrite tracker_touch.
Qed.

Lemma idle_sweep_spec a total es workers : forall k s,
  co_base a total k s -> 0 <= k -> k + zlen workers <= 2 ^ 32 - 2 -> (forall w, e_send (es w) w = true) ->
  targetReached (po_accumulator (co_pooled s)) = false ->
  let s' := idle_sweep es workers s in
  (forall w, wt_alive (tracker w s') = wt_alive (tracker w s)) /\
  (forall c, c ∈ in_flight_ (co_pool s) -> c ∈ in_flight_ (co_pool s')) /\
  (forall w, wt_current_chunk_id (tracker w s) <> kIdle -> wt_current_chunk_id (tracker w s') = wt_current_chunk_id (tracker w s)) /\
  (forall w, wt_current_chunk_id (tracker w s) = kIdle -> wt_current_chunk_id (tracker w s') <> kIdle -> has_work s' w) /\
  (exhausted (co_pool s') = true \/ forall w, w ∈ workers -> wt_alive (tracker w s') = true -> wt_current_chunk_id (tracker w s') <> kIdle).
Proof.
  induction workers as [|w workers IH]; intros k s H K0 Hk He Ht; cbn [idle_sweep].
  { cbv zeta. split_and!; try done. right. intros w Hin. by inversion Hin. }
  assert (zlen (w :: workers) = 1 + zlen workers) as El by (unfold zlen; cbn; lia). rewrite El in Hk. pose proof (zlen_nonneg workers).
  destruct (negb (wt_alive (tracker w s)) || negb (wt_current_chunk_id (tracker w s) =? kIdle)) eqn:Eb.
  - destruct (IH k s H K0 ltac:(lia) He Ht) as (S1 & S2 & S3 & S4 & S5). cbv zeta in *. split_and!; try done.
    destruct S5 as [S5|S5]; [by left|]. right. intros w' [-> |Hin]%elem_of_cons Ha; [|by apply S5].
    rewrite S1 in Ha. rewrite Ha in Eb. cbn [negb orb] in Eb. apply negb_true_iff, Z.eqb_neq in Eb. by rewrite S3.
  - apply orb_false_iff in Eb as [Ea Ei]. apply negb_false_iff, Z.eqb_eq in Ei.
    destruct (exhausted (co_pool s)) eqn:Ex; cbv zeta; [split_and!; try done; by left|].
    destruct (assignChunkTo_base a total k s (es w) w false true H) as (k1 & Hk1 & H1).
    destruct (assign_flight a total k (es w) w true s H ltac:(lia) (He w) Ht) as [F1 F2]. destruct (F2 Ei Ex) as [F3 (c & F4 & F5 & F6)].
    pose proof (assign_keeps (es w) w false true s) as F7. pose proof (fun w' => proj1 (assignChunkTo_trackers (es w) w false true s w')) as A1.
    pose proof (fun w' => proj2 (assignChunkTo_trackers (es w) w false true s w')) as A2.
    pose proof (assignChunkTo_pooled (es w) w false true s) as Ep. set (s1 := (assignChunkTo (es w) w false true s).2) in *. clearbody s1.
    destruct (IH k1 s1 H1 ltac:(lia) ltac:(lia) He ltac:(by rewrite Ep)) as (S1 & S2 & S3 & S4 & S5).
    split; [intros w'; by rewrite S1|]. split; [intros c' Hc'; by apply S2, F1|]. split; [|split].
    + intros w' Hn. rewrite S3; [by apply F7|]. by rewrite F7.
    + intros w' Hn Hn'. destruct (decide (w' = w)) as [->|Hne]; [|apply S4; [by rewrite A2|done]].
      exists c. split; [by apply S2|]. split; [done|]. by rewrite S3.
    + destruct S5 as [S5|S5]; [by left|]. right. intros w' [-> |Hin]%elem_of_cons Ha; [by rewrite S3|by apply S5].
Qed.

(** ** A late completion *)

(** The completion of a chunk that was given again in the meantime leaves the second chunk in flight although its worker is tracked with a third:
    nothing but the death of the worker returns it, and the cursor of a checkpoint stays before it. *)
Lemma stale_completion_leaks :
  let s := run_events stale_events demo_co in
  map (fun c => (cw_chunk_id c, cw_worker_id c)) (in_flight_ (co_pool s)) = [(1, 1); (2, 1)] /\ wt_current_chunk_id (tracker 1 s) = 2 /\
  completedPrefixCursor (co_pool s) = 10000.
Proof. vm_compute. done. Qed.

(** ** Properties *)


Lemma demo_initial : co_initial 10000 500000 demo_co.
Proof.
  constructor; [done| |done|done]. intros w. unfold tracker, demo_co. cbn [co_trackers].
  destruct (decide (w = 1)) as [->|H1]; [done|]. rewrite lookup_insert_ne by done. destruct (decide (w = 2)) as [->|H2]; [done|]. by rewrite lookup_insert_ne, lookup_empty.
Qed.

Lemma demo_run_reach : co_reach demo_co 2 (run_events [EMessage 0 demo_env (complete_msg 1 0 3000); EMessage 0 demo_env (request_msg 1)] demo_co).
Proof.
  change 2 with (0 + event_cost (EMessage 0 demo_env (complete_msg 1 0 3000)) + event_cost (EMessage 0 demo_env (request_msg 1))).
  apply (co_step event_ok demo_co); [apply (co_step event_ok demo_co); [constructor|]|]; (split; [done|split; [vm_compute; repeat constructor; intros [=]|intros _ _ E; vm_compute in E; try discriminate E; intros _ E'; vm_compute in E'; discriminate E']]).
Qed.


(** C33. No worker is left idle. In every run, late completions included: when sends succeed and the target is not reached, after the sweep every worker it visits
    that is alive has work, or the pool has nothing left to hand out; a worker that was idle and no longer is has a chunk that is in flight for it; whoever had
    work keeps it, every chunk stays in flight, and nobody is declared dead or alive by it. The number of chunks handed out in the run stays below 2^32. *)
Theorem sweep_feeds_idle a total s0 n s es workers :
  co_initial a total s0 -> co_reach_any s0 n s -> n + zlen workers <= 2 ^ 32 - 2 -> (forall w, e_send (es w) w = true) ->
  targetReached (po_accumulator (co_pooled s)) = false ->
  let s' := idle_sweep es workers s in
  (exhausted (co_pool s') = true \/ forall w, w ∈ workers -> wt_alive (tracker w s') = true -> wt_current_chunk_id (tracker w s') <> kIdle) /\
  (forall w, wt_current_chunk_id (tracker w s) = kIdle -> wt_current_chunk_id (tracker w s') <> kIdle -> has_work s' w) /\
  (forall w, wt_current_chunk_id (tracker w s) <> kIdle -> wt_current_chunk_id (tracker w s') = wt_current_chunk_id (tracker w s)) /\
  (forall c, c ∈ in_flight_ (co_pool s) -> c ∈ in_flight_ (co_pool s')) /\
  (forall w, wt_alive (tracker w s') = wt_alive (tracker w s)).
Proof.
  intros H0 H Hn He Ht. pose proof (zlen_nonneg workers). destruct (co_reach_base a total s0 n s H0 H) as (_ & k & Hk & Hi).
  destruct (idle_sweep_spec a total es workers k s Hi ltac:(lia) ltac:(lia) He Ht) as (S1 & S2 & S3 & S4 & S5). cbv zeta. by split_and!.
Qed.

Lemma demo_idle_reach : co_reach_any demo_co 3 (run_events idle_events demo_co).
Proof.
  change 3 with (0 + 1 + 1 + 1). unfold run_events, idle_events. cbn [foldl].
  repeat (refine (co_step event_wf demo_co _ _ (EMessage _ _ _) _ _); [|split; [done|vm_compute; repeat constructor; intros [=]]]). constructor.
Qed.

(** A late completion and a failed send leave worker 1 idle; the sweep gives it a chunk. *)
Lemma sweep_feeds_idle_witness :
  let s := run_events idle_events demo_co in
  wt_current_chunk_id (tracker 1 s) = kIdle /\ has_work (idle_sweep (fun _ => demo_env) [1; 2] s) 1.
Proof.
  destruct (sweep_feeds_idle 10000 500000 demo_co 3 _ (fun _ => demo_env) [1; 2] demo_initial demo_idle_reach) as ([Hx|H1] & H2 & _).
  - unfold zlen; cbn; lia.
  - done.
  - vm_compute. reflexivity.
  - vm_compute in Hx. discriminate Hx.
  - split; [vm_compute; reflexivity|]. apply H2; [vm_compute; reflexivity|]. apply H1; [by left|vm_compute; reflexivity].
Defined.
