(* ===== verification/ClusterResume.v ===== *)
(** The cluster checkpoint and the restart from it ([src/src/orchestrator/orchestrator.cpp]): the initial ranges and the pool behind them, when a
    checkpoint is written and what it holds ([writeClusterCheckpoint]), the decision to resume with the trimmed ranges and the restored cursor, and
    the state the network thread starts with.

    Weights of nodes, the configuration and the clock are arguments. *)
From Stdlib Require Import ZArith Lia.
From stdpp Require Import base gmap sets list.
From S2P Require Import Prelude UInt512 Bytes Doubles Soa Accumulator Protocol DataTap WorkPool Scheduler Congruence SqrtStep Factorization RelationIo Checkpoint CpuLp Resume Pooling Coordinator.
#[local] Open Scope Z_scope.

(** ** Checkpoint and resume *)

(** When a checkpoint is written; [after] is the clock after the write. *)
Definition ckpt_timer (interval now after : Z) (armed : bool) (last : Z) : bool * Z * bool :=
  if negb armed then (true, now, false)
  else if d_leb (d_of_Z interval) (seconds (now - last)) then (true, after, true)
  else (true, last, false).

(** [worker_initial_hw] with the mark of node 0. *)
Definition checkpoint_hw (s : coordinator) : list Z :=
  match co_initial_hw s with
  | [] => []
  | _ :: hw =>
      let cap0 := match co_initial_ranges s with [] => co_node0_hw s | r :: _ => r.2 end in
      Z.min (co_node0_hw s) cap0 :: hw
  end.

(** [writeClusterCheckpoint]: what is given to [writeCheckpointAtomic]. *)
Definition cluster_attempt (c : run_config) (elapsed : Z) (s : coordinator) : attempt :=
  let smooths := peek (po_accumulator (co_pooled s)) in
  let partials := po_raw_partials (co_pooled s) in
  mkAttempt smooths partials (checkpoint_meta c)
    (mkTrailer 0 (rc_target c) (num_relations smooths) (num_relations smooths) (num_relations partials) (rc_lp1_bound c) (rc_sieve_bound c) (rc_N c) 1
       elapsed)
    (Some (mkBlock (completedPrefixCursor (co_pool s)) (checkpoint_hw s))).

(** The initial ranges and the pool behind them. *)
Record geometry := mkGeometry { g_ranges : list ContiguousRange; g_H : Z; g_Q : Z; g_overflow_start : Z; g_overflow_size : Z }.

Definition kAFactorStartIndex : Z := 150.
Definition kRelPerAIndexFloor : double := d_lit 4 100.

Definition plan_geometry (cap : option Z) (node_weights : list double) (target H Q fb_size : Z) (headroom oversize : double) : geometry :=
  let num_nodes := wrap 32 (zlen node_weights) in
  let ranges := computeContiguousRanges_tp cap (ChunkScheduler_init num_nodes 0 H Q) node_weights target H Q headroom in
  let overflow_start := foldl (fun acc r => wrap 64 (acc + count r)) 0 ranges in
  let walk_capacity := if kAFactorStartIndex <? fb_size then (fb_size - kAFactorStartIndex) / 2 else 1 in
  let walk_capacity := if walk_capacity <? 1 then 1 else walk_capacity in
  let windows_for_target := wrap 64 (d_ceil (d_div (d_of_Z target) (d_mul kRelPerAIndexFloor (d_of_Z H)))) in
  let contiguous := overflow_start / H in
  let total := Z.max contiguous windows_for_target in
  let total := wrap 64 (d_ceil (d_mul (d_of_Z total) oversize)) in
  let total := Z.min total walk_capacity in
  let overflow_windows := if contiguous <? total then wrap 64 (total - contiguous) else 0 in
  mkGeometry ranges H Q overflow_start (wrap 64 (overflow_windows * H)).

(** What the threads are started with: pool, trims (none on a fresh run), offsets, mark of node 0, relations to inject. *)
Record cluster_start := mkStart {
  cs_pool : WorkPool; cs_trims : list ResumeTrim; cs_offsets : list Z; cs_node0_hw : Z;
  cs_resumed : option (HostRelationBatch * HostRelationBatch)
}.

Definition fresh_pool (g : geometry) : WorkPool := WorkPool_init (g_overflow_start g) (g_overflow_size g) 64.

Definition fresh_start (g : geometry) : cluster_start := mkStart (fresh_pool g) [] [] 0 None.

(** [None] where [setCursor] asserts. *)
Definition cluster_resume (c : run_config) (g : geometry) (num_nodes : Z) (lr : CheckpointLoadResult) : option cluster_start :=
  let overflow_end := wrap 64 (g_overflow_start g + g_overflow_size g) in
  if negb (lr_ok lr) then Some (fresh_start g)
  else if negb (t_N (lr_trailer lr) =? rc_N c) then Some (fresh_start g)
  else if negb (t_cluster_section_present (lr_trailer lr) =? 1) then Some (fresh_start g)
  else if negb (t_loaded_smooths_dedup (lr_trailer lr) =? num_relations (lr_smooths lr)) then Some (fresh_start g)
  else if negb (clusterResumeTopologyOk (zlen (b_initial_high_water (lr_cluster lr))) num_nodes (b_completed_prefix_cursor (lr_cluster lr))
                  (g_overflow_start g) overflow_end) then Some (fresh_start g)
  else
    pool ← setCursor (fresh_pool g) (b_completed_prefix_cursor (lr_cluster lr));
    let trims := map (fun i =>
      let hw := if Z.of_nat i <? zlen (b_initial_high_water (lr_cluster lr)) then idx (b_initial_high_water (lr_cluster lr)) (Z.of_nat i) else 0 in
      let r := nth i (g_ranges g) (mkRange 0 0 0) in
      computeResumeTrim (start r) (count r) hw (g_H g)) (seq 0 (Z.to_nat num_nodes)) in
    Some (mkStart pool trims (map rt_eff_hw trims) (rt_eff_hw (nth 0 trims (mkTrim 0 0 0))) (Some (lr_smooths lr, lr_partials lr))).

(** The range node [w] is told to sieve first. *)
Definition assigned_range (g : geometry) (cs : cluster_start) (w : Z) : Z * Z :=
  match cs_trims cs with
  | [] => let r := nth (Z.to_nat w) (g_ranges g) (mkRange 0 0 0) in (start r, count r)
  | trims => let t := nth (Z.to_nat w) trims (mkTrim 0 0 0) in (rt_start t, rt_count t)
  end.

(** The start of [networkLoop]. *)
Definition coordinator_init (c : run_config) (N : uint512) (margin : double) (g : geometry) (cs : cluster_start) (num_nodes now : Z) : option coordinator :=
  let total_workers := num_nodes - 1 in
  let acc := RelationAccumulator_init (rc_target c) margin in
  let lp := if 0 <? rc_lp1_bound c then Some (CPULargePrimeTable_init (rc_lp1_bound c) N) else None in
  po ← start_pooling acc lp (cs_resumed cs);
  let scheduler := ChunkScheduler_init num_nodes (wrap 64 (g_overflow_start g + g_overflow_size g)) (g_H g) (g_Q g) in
  let trackers := foldl (fun m w => <[wrap 8 w := mkTracker now kInitialChunk 0 true]> m) ∅ (map Z.of_nat (seq 1 (Z.to_nat total_workers))) in
  let hw := map (fun i => if Z.of_nat i <? zlen (cs_offsets cs) then idx (cs_offsets cs) (Z.of_nat i) else 0) (seq 0 (Z.to_nat num_nodes)) in
  Some (mkCo po (cs_pool cs) scheduler trackers total_workers 0 (total_workers =? 0) (map (fun r => (start r, count r)) (g_ranges g))
          (cs_offsets cs) hw (cs_node0_hw cs) None ∅ ∅ 0 0 [] []).

(** ** Vocabulary of the specifications *)

Definition overflow_end (g : geometry) : Z := g_overflow_start g + g_overflow_size g.

(** Ranges and pool within 64 bits. *)
Record geometry_ok (g : geometry) (num_nodes : Z) : Prop := mkGeometryOk {
  go_nodes : zlen (g_ranges g) = num_nodes;
  go_ranges : Forall (fun r => 0 <= start r /\ 0 <= count r /\ start r + count r < 2 ^ 64) (g_ranges g);
  go_H : in_width 64 (g_H g);
  go_pool : 0 <= g_overflow_start g /\ 0 <= g_overflow_size g /\ overflow_end g < 2 ^ 64
}.

(** A start, fresh or resumed: a pool that is full from some cursor on. *)
Record start_ok (g : geometry) (num_nodes : Z) (cs : cluster_start) : Prop := mkStartOk {
  so_pool : exists a, g_overflow_start g <= a <= overflow_end g /\ cs_pool cs = WorkPool_init a (overflow_end g - a) 64;
  so_offsets : Forall (fun x => 0 <= x) (cs_offsets cs) /\ 0 <= cs_node0_hw cs
}.

(** The marks of the initial ranges: one per node. *)
Definition marks_ok (s s' : coordinator) : Prop :=
  co_initial_ranges s' = co_initial_ranges s /\ co_resume_offsets s' = co_resume_offsets s /\ length (co_initial_hw s') = length (co_initial_hw s) /\
  (Forall (fun x => 0 <= x) (co_initial_hw s) -> Forall (fun x => 0 <= x) (co_initial_hw s')) /\ (0 <= co_node0_hw s -> 0 <= co_node0_hw s').

Definition demo_geometry : geometry := mkGeometry [mkRange 0 0 4096; mkRange 1 4096 2048; mkRange 2 6144 2048] 64 24 8192 100000.
Definition demo_conf : run_config := mkRunConfig 1649 [5] 100 1000 5 false [] [].
Definition demo_s0 : coordinator := default demo_co (coordinator_init demo_conf (u512_of_Z 1649) default_margin demo_geometry (fresh_start demo_geometry) 3 0).
Definition demo_s1 : coordinator := run_events stale_events demo_s0.

(** [42^2 = 5 * 23] and [27^2 = - 2^3 * 5 * 23] modulo 1649, from two workers. *)
Definition demo_first : arrival := mkArrival batch_empty (batch_of [mkRel 42 1 0 23 0 [(0, 1)]]) 1.
Definition demo_second : arrival := mkArrival batch_empty (batch_of [mkRel 27 255 3 23 0 [(0, 1)]]) 2.
Definition demo_pool : pooled := mkPooled (RelationAccumulator_init 5 default_margin) (Some (CPULargePrimeTable_init 100 (u512_of_Z 1649))) batch_start.
Definition half_pooled : coordinator := set_pooled (default demo_pool (pool_all [demo_first] demo_pool)) demo_s0.
Definition demo_loaded : CheckpointLoadResult := loaded (cluster_attempt demo_conf 60 half_pooled) load_empty.

(** Between two rounds the sieving thread hands over the last relation of its chunk and reports the chunk; the network thread then writes a checkpoint. The
    result: the cursor and the number of relations it saves, the payloads that still wait in the channel. *)
Definition early_cursor : Z * Z * nat :=
  let '(s, c) := node0_next demo_env 4 (DirectChannel.DirectChannel_init 8) demo_co in
  let consumed := match co_node0_chunk s with Some ch => wu_count (cw_unit ch) | None => 0 end in
  let c := DirectChannel.onBatchComplete (batch_of [mkRel 41 1 5 1 0 []]) batch_empty 1 consumed c in
  let s := node0_done consumed (d_of_Z 1) s in
  let a := cluster_attempt demo_conf 60 s in
  (match at_cluster a with Some cb => b_completed_prefix_cursor cb | None => 0 end, num_relations (at_smooths a), length (DirectChannel.waiting c)).

(** ** Lemmas: the start *)

Lemma fresh_start_ok g n : geometry_ok g n -> start_ok g n (fresh_start g).
Proof.
  intros [_ _ _ (G1 & G2 & G3)]. constructor; [|by split; [constructor|]]. exists (g_overflow_start g). split; [unfold overflow_end; lia|].
  unfold fresh_start, fresh_pool, overflow_end. cbn [cs_pool]. f_equal. lia.
Qed.

Lemma init_tracker now l w : holds_chunk (wt_current_chunk_id (default WorkerTracker_init ((foldl (fun m w => <[wrap 8 w := mkTracker now kInitialChunk 0 true]> m) ∅ l : gmap Z WorkerTracker) !! w))) = false.
Proof.
  assert (forall m : gmap Z WorkerTracker, (forall w, holds_chunk (wt_current_chunk_id (default WorkerTracker_init (m !! w))) = false) ->
    forall w, holds_chunk (wt_current_chunk_id (default WorkerTracker_init ((foldl (fun m w => <[wrap 8 w := mkTracker now kInitialChunk 0 true]> m) m l : gmap Z WorkerTracker) !! w))) = false) as H.
  2: { apply H. intros w'. by rewrite lookup_empty. }
  induction l as [|x l IH]; intros m Hm w'; [apply Hm|]. cbn [foldl]. apply IH. intros w2. destruct (decide (w2 = wrap 8 x)) as [->|]; [by rewrite lookup_insert_eq|by rewrite lookup_insert_ne].
Qed.

Lemma coordinator_init_spec c N margin g cs num_nodes now s0 :
  geometry_ok g num_nodes -> start_ok g num_nodes cs -> 0 <= num_nodes -> coordinator_init c N margin g cs num_nodes now = Some s0 ->
  (exists a, g_overflow_start g <= a <= overflow_end g /\ co_initial a (overflow_end g - a) s0) /\
  zlen (co_initial_hw s0) = num_nodes /\ Forall (fun x => 0 <= x) (co_initial_hw s0) /\ 0 <= co_node0_hw s0 /\
  co_initial_ranges s0 = map (fun r => (start r, count r)) (g_ranges g).
Proof.
  intros [G1 G2 G3 (G4 & G5 & G6)] [(a & Ha & Ep) (S1 & S2)] Hn. unfold coordinator_init. destruct (start_pooling _ _ _) as [po|]; cbn [mbind option_bind]; [|done]. intros [= <-].
  cbn [co_initial_hw co_node0_hw co_initial_ranges]. split; [|split; [|split; [|done]]].
  - exists a. split; [done|]. constructor; cbn [co_pool co_trackers co_node0_chunk co_scheduler]; [done|intros w; apply init_tracker|done|].
    cbn [ChunkScheduler_init H_ total_a_]. split; [done|]. apply wrap_range. lia.
  - unfold zlen. rewrite length_map, length_seq. lia.
  - apply Forall_forall. intros x. rewrite list_elem_of_In, in_map_iff. intros (i & <- & _). case_match; [|done]. unfold idx.
    destruct (nth_in_or_default (Z.to_nat (Z.of_nat i)) (cs_offsets cs) 0) as [Hin|E]; [|by rewrite E]. rewrite Forall_forall in S1. apply S1. by apply list_elem_of_In.
Qed.

(** ** Lemmas: the marks *)

Lemma marks_refl s : marks_ok s s.
Proof. by split_and!. Qed.

Lemma marks_trans s s' s'' : marks_ok s s' -> marks_ok s' s'' -> marks_ok s s''.
Proof. intros (A1 & A2 & A3 & A4 & A5) (B1 & B2 & B3 & B4 & B5). split_and!; [congruence|congruence|congruence|auto|auto]. Qed.

Lemma marks_same s s' : co_initial_ranges s' = co_initial_ranges s -> co_resume_offsets s' = co_resume_offsets s -> co_initial_hw s' = co_initial_hw s -> co_node0_hw s' = co_node0_hw s -> marks_ok s s'.
Proof. intros E1 E2 E3 E4. unfold marks_ok. by rewrite E1, E2, E3, E4. Qed.

Lemma marks_assign e w droppable redispatch s : marks_ok s (assignChunkTo e w droppable redispatch s).2.
Proof.
  unfold assignChunkTo. destruct (negb _); [by apply marks_same|]. cbv zeta. destruct (_ || _); [by apply marks_same|].
  destruct (checkoutWork _ _ _ _) as [p [ch|]]; [|by apply marks_same].
  destruct (send_assign e w droppable _) as [sent s2] eqn:Es. pose proof (send_assign_same e w droppable (set_pool p (set_tracker w (tracker w s) s))) as (occ & Eo). rewrite Es in Eo. cbn [snd] in Eo. subst s2.
  destruct sent; cbn [negb snd]; [|by apply marks_same]. by destruct redispatch; apply marks_same.
Qed.

Lemma initial_hw_nonneg s w consumed : Forall (fun r => 0 <= r.2) (co_initial_ranges s) -> 0 <= consumed -> 0 <= initial_hw s w consumed.
Proof.
  intros Hr Hc. unfold initial_hw. pose proof (wrap_range 64 ((if w <? zlen (co_resume_offsets s) then idx (co_resume_offsets s) w else 0) + consumed) ltac:(lia)) as [Hw _].
  cbv zeta. apply Z.min_glb; [done|]. clear Hw. destruct (_ <? _); [|done].
  destruct (nth_in_or_default (Z.to_nat w) (co_initial_ranges s) (0, 0)) as [Hin|E]; [|by rewrite E]. rewrite Forall_forall in Hr. apply Hr. by apply list_elem_of_In.
Qed.

Lemma marks_event s ev : Forall (fun r => 0 <= r.2) (co_initial_ranges s) -> event_wf s ev -> marks_ok s (apply_event ev s).
Proof.
  intros Hr Hok. destruct ev as [po|now e m|now w|es workers|consumed el|e b ch|consumed el]; cbn [apply_event event_wf] in *.
  - by apply marks_same.
  - destruct Hok as (Hw & Hd). unfold on_message. destruct (negb _); [apply marks_refl|]. destruct (is_type (type m) INCREMENTAL_BATCH); [apply marks_refl|].
    destruct (is_type _ _); [|destruct (is_type _ _); [|destruct (is_type _ _); [|destruct (is_type _ _); [by apply marks_same|apply marks_refl]]]]; cbn [fst].
    + unfold on_chunk_complete. destruct (Z.leb_spec (sizeof ChunkCompletePayload) (zlen (payload m))) as [L|L]; [|apply marks_refl]. cbv zeta.
      pose proof (consumed_width m Hd L) as [Hc _]. set (cc := copy_from _ _) in *. set (w := sender_id m) in *. set (s1 := set_scheduler _ s). set (t := mkTracker _ kIdle _ _).
      assert (forall b : bool, marks_ok s1 (if b then set_pool (reclaimPartial (co_pool s1) (cc_chunk_id cc) (a_values_consumed cc)) s1 else s1)) as M2
        by (intros []; by apply marks_same).
      specialize (M2 ((wt_current_chunk_id (tracker w s1) =? cc_chunk_id cc) && holds_chunk (wt_current_chunk_id (tracker w s1)))). set (s2 := if _ : bool then _ else s1) in *.
      assert (marks_ok s s2) as M by (apply marks_trans with s1; [by apply marks_same|done]).
      assert (forall b : bool, marks_ok s2 (if b then set_initial_hw (<[Z.to_nat w := initial_hw s2 w (a_values_consumed cc)]> (co_initial_hw s2)) s2 else s2)) as M3.
      { intros []; [|apply marks_refl]. split_and!; [done|done|apply length_insert| |done]. intros Hf. cbn [set_initial_hw co_initial_hw]. apply Forall_insert; [done|].
        apply initial_hw_nonneg; [|done]. by rewrite (proj1 M). }
      specialize (M3 ((wt_current_chunk_id (tracker w s1) =? kInitialChunk) && (w <? zlen (co_initial_hw s2)))). set (s3 := if _ : bool then _ else s2) in *.
      destruct (checkStragglers_same e (assignChunkTo e w true false (set_tracker w t s3)).2) as (la & re & ->).
      apply marks_trans with s3; [by apply marks_trans with s2|]. apply marks_trans with (set_tracker w t s3); [by apply marks_same|].
      eapply marks_trans; [apply marks_assign|by apply marks_same].
    + unfold on_chunk_request. cbv zeta. eapply marks_trans; [|apply marks_assign]. destruct (holds_chunk _); by apply marks_same.
    + unfold on_heartbeat. destruct (_ <=? _); by apply marks_same.
  - unfold check_heartbeat. cbv zeta. destruct (wt_alive (tracker w s)); cbn [negb]; [|apply marks_refl].
    destruct (_ <? _); [|apply marks_refl]. destruct (holds_chunk _); by apply marks_same.
  - clear Hok. revert s Hr. induction workers as [|w workers IH]; intros s Hr; cbn [idle_sweep]; [apply marks_refl|].
    destruct (_ || _); [by apply IH|]. destruct (exhausted _); [apply marks_refl|].
    pose proof (marks_assign (es w) w false true s) as M. eapply marks_trans; [exact M|]. apply IH. by rewrite (proj1 M).
  - unfold node0_initial_done. cbv zeta. split_and!; try done. intros H0. cbn [set_node0 co_node0_hw]. apply Z.min_glb; [apply wrap_range; lia|].
    cbn [set_scheduler co_initial_ranges]. destruct (co_initial_ranges s) as [|r l]; [lia|]. by apply Forall_cons in Hr as [? _].
  - unfold node0_next. destruct (_ || _); [apply marks_refl|]. cbv zeta. destruct (checkoutWork _ _ _ _) as [p [c|]]; by apply marks_same.
  - unfold node0_done. destruct (co_node0_chunk s); by apply marks_same.
Qed.

Lemma marks_reach s0 n s : Forall (fun r => 0 <= r.2) (co_initial_ranges s0) -> co_reach_any s0 n s -> marks_ok s0 s.
Proof.
  intros Hr. induction 1 as [|n s ev H IH Hok]; [apply marks_refl|]. eapply marks_trans; [exact IH|]. apply marks_event; [|done]. by rewrite (proj1 IH).
Qed.

(** ** Lemmas: the restart *)

Lemma trims_nth (g : geometry) (num_nodes : Z) (hw : list Z) w d :
  0 <= w < num_nodes ->
  nth (Z.to_nat w) (map (fun i => computeResumeTrim (start (nth i (g_ranges g) (mkRange 0 0 0))) (count (nth i (g_ranges g) (mkRange 0 0 0)))
    (if Z.of_nat i <? zlen hw then idx hw (Z.of_nat i) else 0) (g_H g)) (seq 0 (Z.to_nat num_nodes))) d =
  computeResumeTrim (start (nth (Z.to_nat w) (g_ranges g) (mkRange 0 0 0))) (count (nth (Z.to_nat w) (g_ranges g) (mkRange 0 0 0)))
    (if w <? zlen hw then idx hw w else 0) (g_H g).
Proof.
  intros Hw. rewrite nth_lookup, list_lookup_fmap, lookup_seq_lt by lia. cbn [fmap option_fmap option_map default Nat.add]. by rewrite Z2Nat.id by lia.
Qed.

Lemma checkpoint_marks s num_nodes : zlen (co_initial_hw s) = num_nodes -> 1 <= num_nodes -> Forall (fun x => 0 <= x) (co_initial_hw s) -> 0 <= co_node0_hw s ->
  Forall (fun r => 0 <= r.2) (co_initial_ranges s) -> zlen (checkpoint_hw s) = num_nodes /\ Forall (fun x => 0 <= x) (checkpoint_hw s).
Proof.
  intros Hl Hn Hf H0 Hr. unfold checkpoint_hw. destruct (co_initial_hw s) as [|x hw]; [unfold zlen in Hl; cbn in Hl; lia|].
  split; [exact Hl|]. apply Forall_cons in Hf as [_ Hf]. apply Forall_cons. split; [|done]. destruct (co_initial_ranges s) as [|r l]; [lia|]. apply Forall_cons in Hr as [Hr _]. by apply Z.min_glb.
Qed.

(** A checkpoint that this program wrote is accepted. *)
Lemma cluster_resume_accepts c g num_nodes s el :
  geometry_ok g num_nodes -> zlen (checkpoint_hw s) = num_nodes -> g_overflow_start g <= completedPrefixCursor (co_pool s) <= overflow_end g ->
  let lr := loaded (cluster_attempt c el s) load_empty in
  cluster_resume c g num_nodes lr =
    let trims := map (fun i => computeResumeTrim (start (nth i (g_ranges g) (mkRange 0 0 0))) (count (nth i (g_ranges g) (mkRange 0 0 0)))
      (if Z.of_nat i <? zlen (checkpoint_hw s) then idx (checkpoint_hw s) (Z.of_nat i) else 0) (g_H g)) (seq 0 (Z.to_nat num_nodes)) in
    Some (mkStart (WorkPool_init (completedPrefixCursor (co_pool s)) (overflow_end g - completedPrefixCursor (co_pool s)) 64) trims (map rt_eff_hw trims)
      (rt_eff_hw (nth 0 trims (mkTrim 0 0 0))) (Some (lr_smooths lr, lr_partials lr))).
Proof.
  intros [_ _ _ (G1 & G2 & G3)] Hl Hc lr. unfold overflow_end in *. unfold cluster_resume. cbv zeta.
  assert (forall h b old, num_relations (section_back h b old) = num_relations b) as Hnr by by intros [] b old.
  change (lr_ok lr) with true. change (t_N (lr_trailer lr)) with (rc_N c). change (t_cluster_section_present (lr_trailer lr)) with 1.
  change (b_initial_high_water (lr_cluster lr)) with (checkpoint_hw s). change (b_completed_prefix_cursor (lr_cluster lr)) with (completedPrefixCursor (co_pool s)).
  assert (t_loaded_smooths_dedup (lr_trailer lr) = num_relations (lr_smooths lr)) as -> by (unfold lr, loaded, cluster_attempt; cbn [lr_trailer lr_smooths at_trailer at_smooths t_loaded_smooths_dedup]; by rewrite Hnr).
  rewrite !Z.eqb_refl. cbn [negb]. unfold clusterResumeTopologyOk. rewrite Hl, Z.eqb_refl. cbn [negb].
  rewrite (wrap_small 64 (g_overflow_start g + g_overflow_size g)) by (unfold in_width; lia).
  rewrite (proj2 (Z.ltb_ge _ _)), (proj2 (Z.ltb_ge _ _)) by lia. cbn [negb]. unfold setCursor, fresh_pool.
  unfold WorkPool_init at 1 2. cbn [in_flight_ returned_]. unfold WorkPool_init at 1. cbn [end_].
  rewrite (wrap_small 64 (g_overflow_start g + g_overflow_size g)) by (unfold in_width; lia). rewrite (proj2 (Z.leb_le _ _)) by lia. cbn [mbind option_bind].
  do 2 f_equal. unfold WorkPool_init, with_next. cbn [end_ unit_size_ next_chunk_id_ in_flight_ returned_]. f_equal. f_equal. lia.
Qed.

Lemma assigned_trims g p trims o h r w : trims <> [] ->
  assigned_range g (mkStart p trims o h r) w = (rt_start (nth (Z.to_nat w) trims (mkTrim 0 0 0)), rt_count (nth (Z.to_nat w) trims (mkTrim 0 0 0))).
Proof. unfold assigned_range. cbn [cs_trims]. by destruct trims. Qed.

Lemma nonneg_idx l i : Forall (fun x => 0 <= x) l -> 0 <= idx l i.
Proof. intros H. unfold idx. destruct (nth_in_or_default (Z.to_nat i) l 0) as [Hin|E]; [|by rewrite E]. rewrite Forall_forall in H. apply H. by apply list_elem_of_In. Qed.

Lemma trim_of g num_nodes r mark :
  geometry_ok g num_nodes -> r ∈ g_ranges g -> 0 <= mark ->
  let t := computeResumeTrim (start r) (count r) mark (g_H g) in
  rt_start t = start r + rt_eff_hw t /\ rt_count t = count r - rt_eff_hw t /\ 0 <= rt_eff_hw t <= Z.min mark (count r) /\
  (rt_count t = 0 -> count r < g_H g \/ g_H g = 0).
Proof.
  intros [_ G2 G3 _] Hr Hm. rewrite Forall_forall in G2. destruct (G2 r Hr) as (R1 & R2 & R3). apply computeResumeTrim_eq; try done; [unfold in_width in *; lia|apply G3].
Qed.

(** ** Lemmas: pooling across a restart *)

Lemma loaded_plain c el s kept raw : rc_branch c = false ->
  accumulated_ (po_accumulator (co_pooled s)) = batch_of kept -> po_raw_partials (co_pooled s) = no_char (batch_of raw) ->
  let lr := loaded (cluster_attempt c el s) load_empty in
  lr_smooths lr = no_char (batch_of kept) /\ lr_partials lr = if 0 <? num_relations (po_raw_partials (co_pooled s)) then no_char (po_raw_partials (co_pooled s)) else batch_empty.
Proof.
  intros Hb Ek Er lr. unfold lr, loaded, cluster_attempt, checkpoint_meta. rewrite Hb. cbn [andb at_meta at_smooths at_partials lr_smooths lr_partials m_r]. unfold peek. rewrite Ek.
  by cbn [section_back Z.ltb Z.compare load_empty].
Qed.

(** ** A cursor ahead of the relations *)

(** The pool begins at 10000: the saved cursor lies behind a chunk whose only relation is not saved. *)
Lemma cursor_ahead_of_relations : early_cursor = (22750, 0, 1%nat).
Proof. vm_compute. reflexivity. Qed.

(** ** Properties *)


Lemma demo_geometry_ok : geometry_ok demo_geometry 3.
Proof. constructor; [done|repeat constructor; cbn; lia|vm_compute; split; congruence|vm_compute; split_and!; congruence]. Qed.

Lemma demo_init : coordinator_init demo_conf (u512_of_Z 1649) default_margin demo_geometry (fresh_start demo_geometry) 3 0 = Some demo_s0.
Proof. reflexivity. Qed.

(** Worker 1 reports its initial range, is given a chunk and, before that chunk arrives, a second one; its completion of the first is late. *)
Lemma demo_reach_s1 : co_reach_any demo_s0 3 demo_s1.
Proof.
  change 3 with (0 + 1 + 1 + 1). unfold demo_s1, run_events, stale_events. cbn [foldl].
  repeat (refine (co_step event_wf demo_s0 _ _ (EMessage _ _ _) _ _); [|split; [done|vm_compute; repeat constructor; intros [=]]]). constructor.
Qed.


(** C35. A restart changes no result. Without character columns, pooling some batches, writing the checkpoint, loading it, pooling its relations again and then the
    batches that arrive afterwards gives the same accumulated relations in the same order, the same partial relations waiting for a match and the same copy of all partial
    relations as pooling all batches in one run. *)
Theorem restart_changes_nothing c N fb margin l1 l2 r1 r2 s el :
  u512_ok N -> Z.odd (u512_val N) = true -> rc_branch c = false ->
  Forall2 (arrives_as (u512_val N) fb) l1 r1 -> Forall2 (arrives_as (u512_val N) fb) l2 r2 ->
  Forall (fun rs => Forall plain rs.1 /\ Forall plain rs.2) (r1 ++ r2) ->
  zlen (fulls (r1 ++ r2)) < 2 ^ 60 -> zlen (all_factors (fulls (r1 ++ r2))) < 2 ^ 60 -> zlen (parts (r1 ++ r2)) < 2 ^ 48 -> zlen (all_factors (parts (r1 ++ r2))) < 2 ^ 60 ->
  let acc := RelationAccumulator_init (rc_target c) margin in
  let lp := CPULargePrimeTable_init (rc_lp1_bound c) N in
  let lr := loaded (cluster_attempt c el s) load_empty in
  pool_all l1 (mkPooled acc (Some lp) batch_start) = Some (co_pooled s) ->
  exists po po' t t', pool_all (l1 ++ l2) (mkPooled acc (Some lp) batch_start) = Some po /\
    start_pooling acc (Some lp) (Some (lr_smooths lr, lr_partials lr)) ≫= pool_all l2 = Some po' /\
    accumulated_ (po_accumulator po') = accumulated_ (po_accumulator po) /\ po_raw_partials po' = po_raw_partials po /\
    po_cpu_lp po = Some t /\ po_cpu_lp po' = Some t' /\ table_ t' = table_ t.
Proof.
  intros HN Ho Hb H1 H2 Hpl B1 B2 B3 B4 acc lp lr Hs.
  assert (fulls (r1 ++ r2) = fulls r1 ++ fulls r2 /\ parts (r1 ++ r2) = parts r1 ++ parts r2) as [Ef Ep] by (unfold fulls, parts; by rewrite !map_app, !concat_app).
  rewrite Ef, Ep, !all_factors_app, !zlen_app in *. apply Forall_app in Hpl as [Pl1 Pl2].
  pose proof (zlen_nonneg (fulls r1)). pose proof (zlen_nonneg (fulls r2)). pose proof (zlen_nonneg (parts r1)). pose proof (zlen_nonneg (parts r2)).
  pose proof (zlen_nonneg (all_factors (fulls r1))). pose proof (zlen_nonneg (all_factors (fulls r2))). pose proof (zlen_nonneg (all_factors (parts r1))). pose proof (zlen_nonneg (all_factors (parts r2))).
  set (n := u512_val N) in *. pose proof (pool_start n N fb (rc_target c) margin (rc_lp1_bound c) HN Ho eq_refl) as I0.
  destruct (pool_all_spec n fb l1 r1 _ _ 0 0 I0 H1) as (po1 & E1 & I1 & R1); [lia|lia|lia|lia|change (zlen (ps_raw empty_pool)) with 0; lia|change (zlen (all_factors (ps_raw empty_pool))) with 0; lia|].
  fold acc lp in E1. rewrite Hs in E1. injection E1 as <-. set (st := foldl (pool_step n) empty_pool r1) in *. cbn [ps_raw empty_pool app] in R1. rewrite !Z.add_0_l in I1.
  assert (plain_pool st) as Hst by (apply pool_steps_plain; [by split_and!|done]).
  destruct (restart_spec N fb (co_pooled s) st _ _ (rc_target c) margin (rc_lp1_bound c) HN Ho I1 Hst) as (po2 & E2 & I2); [lia|lia|rewrite R1; lia|rewrite R1; lia|].
  destruct (loaded_plain c el s (ps_kept st) (ps_raw st) Hb (ai_batch _ _ (pi_acc _ _ _ _ _ _ I1)) (pi_raw _ _ _ _ _ _ I1)) as [S1 S2]. fold lr in S1, S2. rewrite <- S1, <- S2 in E2.
  destruct (pool_all_spec n fb l2 r2 _ _ _ _ I1 H2) as (po & E & I & _); [lia|lia|lia|lia|rewrite R1; lia|rewrite R1; lia|].
  destruct (pool_all_spec n fb l2 r2 _ _ _ _ I2 H2) as (po' & E' & I' & _); [lia|lia|lia|lia|rewrite R1; lia|rewrite R1; lia|].
  destruct I as [[A1 _ _ _] (t & T1 & [L1 _ _ _ _ _ _]) R _ _ _ _ _]. destruct I' as [[A1' _ _ _] (t' & T1' & [L1' _ _ _ _ _ _]) R' _ _ _ _ _].
  exists po, po', t, t'. split; [rewrite pool_all_app, Hs; exact E|]. split; [fold acc lp in E2; rewrite E2; exact E'|]. by rewrite A1, A1', R, R', L1, L1'.
Qed.

(** The match crosses the restart. *)
Lemma restart_changes_nothing_witness :
  exists po po', pool_all [demo_first; demo_second] demo_pool = Some po /\
    start_pooling (po_accumulator demo_pool) (po_cpu_lp demo_pool) (Some (lr_smooths demo_loaded, lr_partials demo_loaded)) ≫= pool_all [demo_second] = Some po' /\
    accumulated_ (po_accumulator po') = accumulated_ (po_accumulator po).
Proof.
  destruct (restart_changes_nothing demo_conf (u512_of_Z 1649) [5] default_margin [demo_first] [demo_second] [([], [mkRel 42 1 0 23 0 [(0, 1)]])]
    [([], [mkRel 27 255 3 23 0 [(0, 1)]])] half_pooled 60) as (po & po' & t & t' & E & E' & Ea & _).
  - apply u512_of_Z_spec.
  - reflexivity.
  - reflexivity.
  - constructor; [|constructor]. split; [by right|]. split; [left; apply repr_batch_of|]. split; [constructor|].
    repeat constructor; cbn; unfold in_width; try lia; try (vm_compute; congruence).
  - constructor; [|constructor]. split; [by right|]. split; [left; apply repr_batch_of|]. split; [constructor|].
    repeat constructor; cbn; unfold in_width; try lia; try (vm_compute; congruence).
  - repeat constructor.
  - reflexivity.
  - reflexivity.
  - reflexivity.
  - reflexivity.
  - vm_compute. reflexivity.
  - exists po, po'. split; [exact E|]. split; [exact E'|exact Ea].
Defined.
